(* ===== verification/_CoqProject ===== *)
-Q . S2P
Prelude.v
Utf8.v
Text.v
Bytes.v
Arrays.v
Chunks.v
Sources.v
Delta.v
DeltaApplier.v
DeltaFacts.v
Streams.v
Paths.v
FsPath.v
Lru.v
Trees.v
Objects.v
RefName.v
MyersState.v
MyersFront.v
MyersSearch.v
MyersScan.v
MyersCompare.v
MyersPrepare.v
MyersPrepareFacts.v
MyersCompact.v
MyersCompactFacts.v
MyersScript.v
Myers.v
Unified.v
XmergeInput.v
XmergeRegions.v
XmergeRegionsFacts.v
XmergeRefineFacts.v
XmergeOutput.v
XmergeOutputFacts.v
Xmerge.v
XmergeFacts.v
IgnoreTokens.v
IgnoreMatch.v
IgnoreTokenFacts.v
IgnoreNfaFacts.v
IgnoreCompile.v
IgnoreCompileFacts.v
IgnorePathFacts.v
IgnoreDepthFacts.v
IgnorePatternFacts.v
IgnoreLimits.v
IgnoreMatcher.v
IgnoreDecideFacts.v
IgnoreIndexFacts.v
IgnoreMatcherFacts.v
JsMap.v
CommitHeap.v
CommitWalk.v
CommitGraphFacts.v
CommitWalkFacts.v
CommitPrunedFacts.v
MergeBase.v
MergeBaseFacts.v
MergeBaseSelect.v
Process.v
PktLine.v
PktLineFacts.v
Protocol.v
ProtocolFacts.v
RemoteRefs.v
RemoteRefsFacts.v
ReceivePack.v
ReceivePackFacts.v
ReceiveStatus.v
ReceiveStatusFacts.v
PushFacts.v
UploadPack.v
UploadRequestFacts.v
UploadPackFacts.v
Refspec.v
RefspecFacts.v
Integration.v
IntegrationFacts.v
JsonPages.v
