(* ===== verification/Prelude.v ===== *)
(** Verification of kompjutr: the git engine of src/packages/git/src.

    * The program

    kompjutr runs git repositories and a shell inside Durable Objects: src/packages/git holds
    the git engine (objects, packs, references, diffs and merges over SQLite rows),
    src/packages/do the filesystem and the shell, src/packages/sqlite and src/packages/local the
    drivers.  The engine is written for small machines: it never trusts an input, bounds every
    buffer, and streams what it can.  This development models the parts that compute: text and
    paths, object formats, pack memory and deltas, the line differ, the unified diff, the
    three-way merge, the ignore rules, the commit graph (walks, merge bases) and the wire
    protocol above HTTP, each from what it is given to the value or the error it gives back.

    * How the code is modelled

    A JavaScript string is the list of its UTF-16 code units, a [Uint8Array] the list of its
    bytes, a number that stays an integer a [Z] with the safe-integer tests the code writes; where a
    sum can pass [2 ** 53] it is rounded as doubles are ([round_double]).
    Reading outside an array gives [None].  A function that may throw returns an [outcome];
    a method with effects runs in [effect W], whose state outlives an exception; shared
    mutable objects (the chunks of a pool, the nodes of a cache) live in heaps under
    references.  A loop that is not structural takes fuel and gives [None] without it; the
    theorems about such a loop say that the fuel the model passes is enough, so that the
    code's loop ends.  A generator is the list it yields with how it ends.

    * The files

    - Prelude: numbers, arrays, exceptions, sorting, tactics.  Arrays: indexed lemmas.
    - Utf8, Text: the encoder and the two decoders, string helpers of the language.
    - Bytes (common/bytes.ts): hexadecimal names of objects.
    - Streams (common/streams.ts): [comparePaths], lookahead generators, [joinSorted] and
      [joinSorted3].  Paths (common/paths.ts) and FsPath (do/src/fs/path.ts): path algebra of
      the two layers, which are shown to agree.  RefName (common/ref-name.ts,
      store/refs/ref-validation.ts): reference names and the targets of references.
    - Lru (common/lru.ts): the byte-budgeted cache, a doubly linked list in a heap.
    - Trees (common/trees.ts) and Objects (common/objects.ts): parsers and writers of trees,
      commits, tags and identities.
    - Chunks, Sources (store/pack/chunks.ts, shared.ts): the chunk pool and chunked objects of
      an ingest, and the byte sources that readers of objects share.
    - Delta, DeltaApplier, DeltaFacts (store/pack/delta.ts, shared-delta.ts): [applyDelta], the
      checks and probes of delta headers, and the incremental applier, which owns a chunked
      object while it runs.
    - MyersState, MyersSearch, MyersPrepare, MyersCompact, Myers (diff/myers-*.ts, lines.ts):
      the line differ.  Its facts: MyersFront (furthest points without arrays), MyersScan (a
      scan finds a split), MyersCompare (divide and conquer), MyersPrepareFacts,
      MyersCompactFacts, MyersScript.
    - Unified (diff/unified.ts, index.ts): hunks and [diffText].
    - XmergeInput, XmergeRegions, XmergeOutput, Xmerge (diff/xmerge*.ts): the three-way merge.
      Its facts: XmergeRegionsFacts (building regions), XmergeRefineFacts (refining,
      simplifying, trimming), XmergeOutputFacts (what is written), XmergeFacts ([mergeText]).
    - IgnoreTokens, IgnoreMatch, IgnoreCompile, IgnoreLimits, IgnoreMatcher (ignore/*.ts): the
      ignore rules: glob tokens and automaton states, the backtracking and the bit-mask
      matchers, the compiler of a line, budgets, the matcher of a work tree with its hashed
      sources.  Their facts: IgnoreTokenFacts (the language of tokens), IgnoreNfaFacts (the
      language of states), IgnoreCompileFacts (compiling ends in a well-formed pattern),
      IgnorePathFacts (segments of a path), IgnoreDepthFacts (the depths of a rule),
      IgnorePatternFacts (the exported pattern functions), IgnoreDecideFacts (ranking
      decisions), IgnoreIndexFacts (the source index), IgnoreMatcherFacts ([ignores]).
    - JsMap: the language's insertion-ordered [Map], generators and [for ... of].
    - CommitHeap, CommitWalk (ops/repository/repository-walk.ts, commits-cache.ts): the queue of
      commits, validating a graph of rows, the walks.  The store is the class [WalkRepository]:
      what the code asks of it, with no law assumed, so the theorems hold for every answer of
      the database.  Facts: CommitGraphFacts (which rows pass), CommitWalkFacts (the walk over
      rows), CommitPrunedFacts (the walk that reads commit by commit).
    - MergeBase (ops/merge/merge-base.ts): best common ancestors, ahead and behind.  Facts:
      MergeBaseFacts (the sweep), MergeBaseSelect ([selectMergeBases], [divergence]).
    - Process: stateful code that may throw and whose loops take fuel.  PktLine, PktLineFacts
      (protocol/pktline.ts, stream.ts): frames and the reader over a source of chunks.
    - Protocol, ProtocolFacts (protocol/remote-base.ts, server/validation.ts): limits, error
      texts, what the server accepts.  RemoteRefs, RemoteRefsFacts (protocol/discovery.ts,
      server/advertisement.ts): both ends of the advertisement of references.
    - ReceivePack (protocol/receive-pack-request.ts, server/receive-request.ts): requests of a
      push, prepared and parsed.  ReceiveStatus (server/response.ts, receive-pack-status.ts,
      receive-pack-client.ts): answers to a push, and [receivePack].  UploadPack
      (protocol/upload-pack.ts, server/upload-request.ts, ops/server/upload.ts): a fetch, both
      ends.  Facts: ReceivePackFacts, ReceiveStatusFacts (what the status parser accepts),
      PushFacts (the answers of the own server), UploadRequestFacts (what the server accepts),
      UploadPackFacts (packs, and the refusal of the own client).
    - Refspec (ops/refs/refspec-*.ts): compiling refspecs, expanding them over a source set, the
      leases of a push.  RefspecFacts: what a list of refspecs expands to.
    - Integration (ops/integration/integration-structure*.ts): the structural plan of a
      three-way integration of trees.  IntegrationFacts: the rule for a path, file/directory
      conflicts, the plan.
    - JsonPages (store/core/json-pages.ts): JSON parameters of statements, cut into pages;
      lengths of JSON texts, what pages hold.

    Operations keep the names of the source; the loop of a function [f] is [f_loop], a class's
    method has the name of the class as prefix where two classes share it.

    * What the theorems show

    - Merges and diffs: [mergeText] ends on every input and gives pieces of the three files
      under the merge rule ([mergeText_correct]); its regions tile the files
      ([buildMergeRegions_correct]); [diffLines] and [diffByteRecords] end, with a script that
      turns one file into the other; hunks apply at their own line numbers.
    - Refinement of abstract specifications: chunked objects behave as plain arrays and leak
      nothing ([chunks_refine_store]), the cache as a recency list ([lru_refines]), the
      incremental delta applier as [applyDelta] for every cut of its input
      ([delta_applier_agrees], [delta_applier_complete]).
    - Equivalences: the streaming tree parser with the whole one, [comparePaths] with the
      order of UTF-8 bytes, [hasCanonicalRefSyntax] with git's rule, the filesystem's path
      functions with the git layer's.
    - Round trips of trees, commits, tags, identities, hexadecimal names, delta headers, paths.
    - Ignore rules: [ignores] gives the verdict of the last matching rule at each depth, for
      any hash of its index ([ignores_correct]); globs, [pattern.test] and the depths of a rule
      decide the languages of their tokens and states; every line compiles to a well-formed
      pattern, an escaped path to itself.
    - Commit graph: a walk refuses incomplete or cyclic rows, else it yields every commit below
      the root once, newest first ([walkIndexedOwned_correct]), the same that reading commit by
      commit yields ([walkOwned_indexed]); merge bases are the common commits no other common
      commit descends to, and nothing is refused without a reason ([selectMergeBases_correct],
      [selectMergeBases_answers]); [divergence] counts and relates two histories.
    - Protocol: [readPkt] answers what the bytes alone say, however they arrive
      ([readPkt_correct]); what is written is read back: packet lines ([pktLines_roundtrip]),
      advertised references ([advertisement_roundtrip]), the commands and the pack of a push
      ([receive_request_roundtrip]), its answer ([push_roundtrip]), the pack of a fetch
      ([fetch_roundtrip]).  For every input, however wrong: a reported status is what the
      remote said of every command ([parseStatus_correct]), a fetch request is accepted exactly
      when it is a conversation of the protocol ([parseUploadPackRequest_exact]); none that the
      program's own client makes is ([uploadPack_refused]).
    - Refspecs: a list expands exactly when it spells mappings that fit the source set, to the
      updates they ask for ([push_refspecs_exact], [fetch_refspecs_exact]); leases are accepted
      exactly as [push_leases_exact] says.
    - Integration of trees: the decision for a path is the three-way rule
      ([classifyRow_correct]); a plan has that decision at every path but the file/directory
      conflicts ([structure_correct]); of a file and one below it the walk misses the conflict
      where a third path stands between them ([file_directory_missed]).
    - Pages: [jsonPages] and [integrationPages] cut every list into pages within their limits
      that are filled as far as they go ([jsonPages_correct], [integrationPages_correct]).
    - Joins: every item of every side once, in order, with its equals.
    - Bounds and errors: footprints, safe integers, sizes in UTF-8, and which errors are thrown.

    * Fuel

    Loops over an array take its length (and one more where the code tests its end); searches
    by halving take the length of the range; [compare] takes the sum of the two reference
    lengths plus one, since each split shortens both halves; the scans of a split take the
    number of diagonals; the walks of compaction take [loop_fuel] and its square; [merge_loop]
    takes the number of changes.  A word of a state mask has 32 bits, so its loops take 33; the
    backtracking matcher takes a bound on its steps.  The search of a graph takes the commits
    plus the parents ([graph_fuel]), walks and the sweep one more than the commits, a heap one
    more than its nodes; [authenticateCommitGraphThroughBoundary] has no theorem and takes its
    fuel as an argument.  Filling a frame takes a round per chunk of the source, a loop over
    packets the bytes that are left, since a packet takes four.  Each other choice is discharged by a theorem without a fuel premise.

    * Not modelled

    SQL stores and the operations built on their rows (src/packages/git/src/store, ops), as the
    database is not part of the sources; zlib and SHA-1, which are the platform's or a package's
    (a parameter where modelled code calls them); HTTP requests and their authorisation (the
    request function is a parameter); the shell and its commands; the benchmarks and examples.
    Reading rule files needs the work tree.  Further parts that compute and would fit this
    library: pack trailers, reflogs and the config parser, then the pure parts of the
    shell (word expansion, glob patterns, sort keys). *)

From Stdlib Require Export ZArith Lia.
From stdpp Require Export base tactics option numbers strings sorting gmap list list_numbers.

#[export] Set Default Goal Selector "!".

Open Scope Z_scope.

(** * JavaScript numbers *)

(** [Number.MAX_SAFE_INTEGER]. *)
Definition MAX_SAFE_INTEGER : Z := 2 ^ 53 - 1.

(** [Number.isSafeInteger] of an integral number. *)
Definition isSafeInteger (n : Z) : bool :=
  (- MAX_SAFE_INTEGER <=? n) && (n <=? MAX_SAFE_INTEGER).

(** The double nearest to an integer, ties to even, while doubles reach that far. *)
Definition round_double (n : Z) : Z :=
  let a := Z.abs n in
  let r :=
    if a <? 2 ^ 53 then a
    else
      let step := 2 ^ (Z.log2 a - 52) in
      let q := a / step in
      let rest := a mod step in
      let up := (step <? 2 * rest) || ((2 * rest =? step) && negb (Z.even q)) in
      (if up then q + 1 else q) * step in
  Z.sgn n * r.

(** * Arrays, strings and byte arrays

    A JavaScript string is the list of its UTF-16 code units, a [Uint8Array] the
    list of its bytes; both are [list Z].  Reading past either end gives
    [undefined] (for [charCodeAt]: [NaN]), which is [None]. *)
Notation ustring := (list Z) (only parsing).
Notation bytes := (list Z) (only parsing).

(** [l.length]. *)
Definition zlen {A} (l : list A) : Z := Z.of_nat (length l).

(** [l[i]], and [s.charCodeAt(i)] for a string. *)
Definition at_ {A} (l : list A) (i : Z) : option A :=
  if i <? 0 then None else l !! Z.to_nat i.

(** [l.slice(a, b)] and [l.subarray(a, b)], for [0 <= a]. *)
Definition slice {A} (l : list A) (a b : Z) : list A :=
  take (Z.to_nat (b - a)) (drop (Z.to_nat a) l).

(** [l.slice(a)], for [0 <= a]. *)
Definition slice_from {A} (l : list A) (a : Z) : list A := drop (Z.to_nat a) l.

(** A code unit is 16 bits wide, a byte 8. *)
Definition unit_ok (u : Z) : Prop := 0 <= u < 65536.
Definition byte_ok (b : Z) : Prop := 0 <= b < 256.

(** The code units of an ASCII literal of the source. *)
Fixpoint js (s : string) : list Z :=
  match s with
  | EmptyString => []
  | String c s => Z.of_N (Ascii.N_of_ascii c) :: js s
  end.

(** [array.sort(compare)]: the language asks for a stable sort, so any stable algorithm
    gives its result where [compare] orders the items. *)
Fixpoint insert_by {A} (compare : A → A → Z) (x : A) (l : list A) : list A :=
  match l with
  | [] => [x]
  | y :: l => if compare x y <=? 0 then x :: y :: l else y :: insert_by compare x l
  end.
Definition sort_by {A} (compare : A → A → Z) (l : list A) : list A := foldr (insert_by compare) [] l.

(** * Exceptions *)

(** What the code throws: a [GitError] with its [code], a [RangeError], or a
    plain [Error]. *)
Inductive jserror : Type :=
| GitError (code message : list Z)
| RangeError (message : list Z)
| PlainError (message : list Z).

(** [new CorruptError(message)] (common/errors.ts): code [ECORRUPT]. *)
Definition CorruptError (message : list Z) : jserror := GitError (js "ECORRUPT") message.

(** The outcome of a computation that may throw. *)
Inductive outcome (A : Type) : Type :=
| Ok (a : A)
| Throw (e : jserror).
Arguments Ok {A} a.
Arguments Throw {A} e.

#[export] Instance outcome_ret : MRet outcome := @Ok.
#[export] Instance outcome_bind : MBind outcome := λ A B f m,
  match m with Ok a => f a | Throw e => Throw e end.
#[export] Instance outcome_fmap : FMap outcome := λ A B f m,
  match m with Ok a => Ok (f a) | Throw e => Throw e end.

(** [if (c) throw e;] *)
Definition throw_if (c : bool) (e : jserror) : outcome unit :=
  if c then Throw e else Ok tt.

(** Effects on a state [W] that outlive an exception: what a method with side effects
    does when some statement of it throws. *)
Definition effect (W A : Type) : Type := W → outcome A * W.

#[export] Instance effect_ret {W} : MRet (effect W) := λ A a w, (Ok a, w).
#[export] Instance effect_bind {W} : MBind (effect W) := λ A B f m w,
  match m w with
  | (Ok a, w) => f a w
  | (Throw e, w) => (Throw e, w)
  end.

(** [throw e], an outcome of pure code, reading and updating the state. *)
Definition raise {W A} (e : jserror) : effect W A := λ w, (Throw e, w).
Definition lift {W A} (o : outcome A) : effect W A := λ w, (o, w).
Definition gets {W A} (f : W → A) : effect W A := λ w, (Ok (f w), w).
Definition modify {W} (f : W → W) : effect W unit := λ w, (Ok tt, f w).

(** [try { m } catch (error) { h }]. *)
Definition try_catch {W A} (m : effect W A) (h : jserror → effect W A) : effect W A := λ w,
  match m w with
  | (Ok a, w) => (Ok a, w)
  | (Throw e, w) => h e w
  end.

(** [out.set(part, offset)] on a typed array, for [0 <= offset]. *)
Definition typed_set (out part : list Z) (offset : Z) : outcome (list Z) :=
  if zlen out <? offset + zlen part then Throw (RangeError (js "offset is out of bounds"))
  else Ok (take (Z.to_nat offset) out ++ part ++ drop (Z.to_nat (offset + zlen part)) out).

(** The errors of common/errors.ts. *)
Definition GitErr (code message : string) : jserror := GitError (js code) (js message).

#[export] Instance jserror_eq_dec : EqDecision jserror.
Proof. solve_decision. Defined.
#[export] Instance outcome_eq_dec {A} `{EqDecision A} : EqDecision (outcome A).
Proof. solve_decision. Defined.

(** * Automation *)

Lemma bind_ok_inv {A B} (m : outcome A) (f : A → outcome B) b :
  m ≫= f = Ok b → ∃ a, m = Ok a ∧ f a = Ok b.
Proof. destruct m as [a|e]; [by exists a|done]. Qed.

Lemma bind_ok {W A B} (m : effect W A) (f : A → effect W B) w a w' :
  m w = (Ok a, w') → (m ≫= f) w = f a w'.
Proof. intros H. unfold mbind, effect_bind. by rewrite H. Qed.

Lemma bind_throw {W A B} (m : effect W A) (f : A → effect W B) w e w' :
  m w = (Throw e, w') → (m ≫= f) w = (Throw e, w').
Proof. intros H. unfold mbind, effect_bind. by rewrite H. Qed.

Lemma bind_gets {W A B} (g : W → A) (f : A → effect W B) w : (gets g ≫= f) w = f (g w) w.
Proof. done. Qed.
Lemma bind_modify {W B} (g : W → W) (f : unit → effect W B) w : (modify g ≫= f) w = f tt (g w).
Proof. done. Qed.
Lemma bind_ret {W A B} (a : A) (f : A → effect W B) w : (mret a ≫= f) w = f a w.
Proof. done. Qed.
Lemma bind_lift {W A B} (a : A) (f : A → effect W B) w : (lift (Ok a) ≫= f) w = f a w.
Proof. done. Qed.

Lemma bind_assoc {W A B C} (m : effect W A) (f : A → effect W B) (g : B → effect W C) w :
  ((m ≫= f) ≫= g) w = (m ≫= λ a, f a ≫= g) w.
Proof. unfold mbind, effect_bind. by destruct (m w) as [[a|e] w']. Qed.

(** Run the first statement, one that computes or one that [H] describes. *)
Ltac run_first := rewrite ?bind_gets, ?bind_modify, ?bind_ret, ?bind_lift; cbn beta iota.
Tactic Notation "run_by" uconstr(H) := rewrite (bind_ok _ _ _ _ _ H); cbn beta iota.

(** [lia] with [div] and [mod] by constants. *)
Ltac zdm := Z.div_mod_to_equations; lia.

Ltac zbool :=
  repeat match goal with
  | H : (_ && _) = true |- _ => apply andb_prop in H; destruct H
  | H : (_ && _) = false |- _ => apply andb_false_iff in H
  | H : (_ <=? _) = true |- _ => apply Z.leb_le in H
  | H : (_ <=? _) = false |- _ => apply Z.leb_gt in H
  | H : (_ <? _) = true |- _ => apply Z.ltb_lt in H
  | H : (_ <? _) = false |- _ => apply Z.ltb_ge in H
  | H : (_ =? _) = true |- _ => apply Z.eqb_eq in H
  | H : (_ =? _) = false |- _ => apply Z.eqb_neq in H
  end.


(** Decide the boolean comparisons of the goal that arithmetic decides. *)
Ltac zdec1 tac :=
  match goal with
  | |- context [?a <? ?b] =>
      first [ rewrite (proj2 (Z.ltb_lt a b)) by tac | rewrite (proj2 (Z.ltb_ge a b)) by tac ]
  | |- context [?a <=? ?b] =>
      first [ rewrite (proj2 (Z.leb_le a b)) by tac | rewrite (proj2 (Z.leb_gt a b)) by tac ]
  | |- context [?a =? ?b] =>
      first [ rewrite (proj2 (Z.eqb_eq a b)) by tac | rewrite (proj2 (Z.eqb_neq a b)) by tac ]
  end.
Ltac zdec := repeat (zdec1 ltac:(lia); cbn [andb orb negb]).
Ltac zdecm := repeat (zdec1 ltac:(zdm); cbn [andb orb negb]).

(** * Lists *)

Lemma omap_app_cons {A B} (f : A → option B) x l :
  omap f (x :: l) = option_list (f x) ++ omap f l.
Proof. cbn. by destruct (f x). Qed.

Lemma zlen_nonneg {A} (l : list A) : 0 <= zlen l.
Proof. unfold zlen. lia. Qed.

Lemma zlen_app {A} (l k : list A) : zlen (l ++ k) = zlen l + zlen k.
Proof. unfold zlen. rewrite length_app. lia. Qed.

Lemma zlen_cons {A} (x : A) l : zlen (x :: l) = 1 + zlen l.
Proof. unfold zlen. simpl. lia. Qed.

(** Writing over the part of [out] that follows [done]. *)
Lemma typed_set_app done mid todo part :
  zlen mid = zlen part → typed_set (done ++ mid ++ todo) part (zlen done) = Ok (done ++ part ++ todo).
Proof.
  intros Hm. unfold typed_set. rewrite !zlen_app. pose proof (zlen_nonneg todo). zdec.
  f_equal. unfold zlen in *. rewrite Nat2Z.id, take_app_length. do 2 f_equal.
  rewrite app_assoc, drop_app_length'; [done|]. rewrite length_app. lia.
Qed.

Lemma fmap_seqZ_shift {A} d (f : Z → A) m n : f <$> seqZ (m + d) n = (λ i, f (i + d)) <$> seqZ m n.
Proof.
  rewrite (Z.add_comm m d), <- (fmap_add_seqZ d m n), <- list_fmap_compose.
  apply list_fmap_ext. intros. simpl. f_equal. lia.
Qed.

Lemma at_app {A} (l k : list A) : at_ (l ++ k) (zlen l) = head k.
Proof.
  unfold at_. pose proof (zlen_nonneg l). zdec. unfold zlen. rewrite Nat2Z.id.
  rewrite lookup_app_r, Nat.sub_diag by lia. by destruct k.
Qed.

Lemma at_last {A} (l : list A) : at_ l (zlen l - 1) = last l.
Proof.
  destruct l as [|x l _] using rev_ind; [done|]. rewrite last_snoc, zlen_app. change (zlen [x]) with 1.
  replace (zlen l + 1 - 1) with (zlen l) by lia. by rewrite at_app.
Qed.

Lemma slice_from_app {A} (a b : list A) : slice_from (a ++ b) (zlen a) = b.
Proof. unfold slice_from, zlen. rewrite Nat2Z.id. apply drop_app_length. Qed.

Lemma slice_0_app {A} (l k : list A) : slice (l ++ k) 0 (zlen l) = l.
Proof. unfold slice, zlen. rewrite drop_0, Z.sub_0_r, Nat2Z.id. apply take_app_length. Qed.

Lemma slice_app_mid {A} (a b c : list A) : slice (a ++ b ++ c) (zlen a) (zlen a + zlen b) = b.
Proof.
  unfold slice. replace (zlen a + zlen b - zlen a) with (zlen b) by lia.
  unfold zlen. rewrite !Nat2Z.id, drop_app_length. apply take_app_length.
Qed.

Lemma safe_int n : - MAX_SAFE_INTEGER <= n <= MAX_SAFE_INTEGER → isSafeInteger n = true.
Proof. intros. unfold isSafeInteger. by zdec. Qed.

(** Lengths: [autorewrite with arrays] computes them, [auto with arrays] bounds them. *)
Create HintDb arrays.
Create Rewrite HintDb arrays.
#[export] Hint Resolve zlen_nonneg : arrays.
#[export] Hint Rewrite @zlen_app @zlen_cons : arrays.

Lemma zlen_replicate {A} n (x : A) : 0 <= n → zlen (replicate (Z.to_nat n) x) = n.
Proof. intros. unfold zlen. rewrite length_replicate. lia. Qed.

(** ** Doubles *)

(** Integers up to [2 ** 53] are doubles. *)
Lemma round_double_exact n : - 2 ^ 53 <= n <= 2 ^ 53 → round_double n = n.
Proof.
  intros Hn. unfold round_double. destruct (Z.abs n <? 2 ^ 53) eqn:E; zbool; [by rewrite Z.mul_comm, Z.abs_sgn|].
  assert (Z.abs n = 2 ^ 53) as Ha by lia. rewrite Ha. assert (n = 2 ^ 53 ∨ n = - 2 ^ 53) as [->| ->] by lia; vm_compute; reflexivity.
Qed.

(** ** Sorting *)

Section sorting.
  Context {A : Type} (compare : A → A → Z).

Lemma insert_by_perm x l : insert_by compare x l ≡ₚ x :: l.
Proof.
  induction l as [|y l IH]; [done|]. cbn [insert_by]. case_match; [done|]. rewrite IH. constructor.
Qed.

Lemma sort_by_perm l : sort_by compare l ≡ₚ l.
Proof. induction l as [|x l IH]; [done|]. simpl. rewrite insert_by_perm. by f_equiv. Qed.

(** A comparison that orders the items of [P]. *)
Definition orders (P : A → Prop) : Prop :=
  (∀ x y, P x → P y → compare y x = - compare x y) ∧
  (∀ x y z, P x → P y → P z → compare x y <= 0 → compare y z <= 0 → compare x z <= 0).

Lemma insert_by_sorted (P : A → Prop) x l :
  orders P → P x → Forall P l →
  StronglySorted (λ a b, compare a b <= 0) l → StronglySorted (λ a b, compare a b <= 0) (insert_by compare x l).
Proof.
  intros [Hopp Htrans] Hx Hl Hs. induction Hs as [|y l Hs IH Hall]; [by repeat constructor|].
  apply Forall_cons in Hl as [Hy Hl]. cbn [insert_by]. destruct (compare x y <=? 0) eqn:E; zbool.
  - constructor; [by constructor|]. constructor; [done|]. rewrite Forall_forall in *. intros z Hz.
    apply (Htrans x y z); auto.
  - constructor; [auto|]. rewrite insert_by_perm. constructor; [rewrite Hopp by done; lia|done].
Qed.

Lemma sort_by_sorted (P : A → Prop) l :
  orders P → Forall P l → StronglySorted (λ a b, compare a b <= 0) (sort_by compare l).
Proof.
  intros Ho. induction 1 as [|x l Hx Hl IH]; [constructor|]. simpl.
  apply (insert_by_sorted P); [done|done| |done]. by rewrite sort_by_perm.
Qed.

Lemma StronglySorted_in (R S : A → A → Prop) l :
  StronglySorted R l → (∀ x y, x ∈ l → y ∈ l → R x y → S x y) → StronglySorted S l.
Proof.
  induction 1 as [|x l Hl IH Hall]; intros HRS; [constructor|]. rewrite Forall_forall in Hall. constructor.
  - apply IH. intros y z Hy Hz. apply HRS; by apply list_elem_of_further.
  - apply Forall_forall. intros y Hy. apply HRS; [apply list_elem_of_here|by apply list_elem_of_further|auto].
Qed.

(** Items that compare as equal keep their order. *)
Lemma sort_by_stable (P : A → Prop) `{∀ x, Decision (P x)} l :
  (∀ x y, x ∈ l → y ∈ l → P x → P y → compare x y <= 0) → filter P (sort_by compare l) = filter P l.
Proof.
  induction l as [|x l IH]; intros Heq; [done|]. simpl. rewrite filter_cons, <- IH by (intros; apply Heq; try apply list_elem_of_further; done).
  assert (∀ y, y ∈ sort_by compare l → P x → P y → compare x y <= 0) as Hx.
  { intros y. rewrite sort_by_perm. intros Hy. apply Heq; [apply list_elem_of_here|by apply list_elem_of_further]. }
  clear IH Heq. induction (sort_by compare l) as [|y k IH]; [done|]. cbn [insert_by]. destruct (compare x y <=? 0) eqn:E; zbool.
  - by rewrite filter_cons.
  - assert (P x → ¬ P y) as Hn by (intros HPx HPy; assert (compare x y <= 0) by (apply Hx; [apply list_elem_of_here|done..]); lia).
    rewrite !filter_cons, IH by (intros; apply Hx; [by apply list_elem_of_further|done..]).
    repeat case_decide; tauto.
Qed.

End sorting.

Lemma mjoin_cons {A} (x : list A) (l : list (list A)) : mjoin (x :: l) = x ++ mjoin l.
Proof. done. Qed.

Lemma mjoin_app {A} (a b : list (list A)) : mjoin (a ++ b) = mjoin a ++ mjoin b.
Proof. induction a as [|x a IH]; [done|]. simpl. by rewrite IH, app_assoc. Qed.
