(* ===== verification/Utf8.v ===== *)
(** UTF-16 strings, UTF-8 bytes, and the platform's [TextEncoder] and
    [TextDecoder], which every byte-level component of the program goes through
    (common/bytes.ts: [utf8] and [utf8Decoder]).

    [encode] folds an unpaired surrogate to U+FFFD before encoding, as
    [TextEncoder] does; [decode_points] is the WHATWG UTF-8 decoder as a state
    machine over bytes, of which [decode_fatal] and [decode_lossy] are the two
    modes the code uses.  Both drop one leading byte order mark. *)

From S2P Require Import Prelude.

(** ** UTF-16 to code points *)

Definition REPLACEMENT : Z := 0xfffd.

Definition is_high (u : Z) : bool := (0xd800 <=? u) && (u <=? 0xdbff).
Definition is_low (u : Z) : bool := (0xdc00 <=? u) && (u <=? 0xdfff).
Definition is_surrogate (u : Z) : bool := (0xd800 <=? u) && (u <=? 0xdfff).

(** The code point of a surrogate pair. *)
Definition pair_point (high low : Z) : Z := 0x10000 + (high - 0xd800) * 1024 + (low - 0xdc00).

(** The code points of a string, an unpaired surrogate read as U+FFFD. *)
Fixpoint points (s : list Z) : list Z :=
  match s with
  | [] => []
  | u :: rest =>
      if is_high u then
        match rest with
        | low :: rest' => if is_low low then pair_point u low :: points rest' else REPLACEMENT :: points rest
        | [] => [REPLACEMENT]
        end
      else if is_low u then REPLACEMENT :: points rest
      else u :: points rest
  end.

(** [String.prototype.isWellFormed]: no unpaired surrogate. *)
Fixpoint isWellFormed (s : list Z) : bool :=
  match s with
  | [] => true
  | u :: rest =>
      if is_high u then
        match rest with
        | low :: rest' => is_low low && isWellFormed rest'
        | [] => false
        end
      else negb (is_low u) && isWellFormed rest
  end.

(** The code units of a code point. *)
Definition point_units (p : Z) : list Z :=
  if p <? 0x10000 then [p] else [0xd800 + (p - 0x10000) `div` 1024; 0xdc00 + (p - 0x10000) `mod` 1024].

(** A Unicode scalar value. *)
Definition scalar (p : Z) : Prop := 0 <= p < 0x110000 /\ is_surrogate p = false.

(** ** Code points to UTF-8 *)

Definition point_bytes (p : Z) : list Z :=
  if p <? 128 then [p]
  else if p <? 2048 then [192 + p `div` 64; 128 + p `mod` 64]
  else if p <? 0x10000 then [224 + p `div` 4096; 128 + (p `div` 64) `mod` 64; 128 + p `mod` 64]
  else [240 + p `div` 262144; 128 + (p `div` 4096) `mod` 64; 128 + (p `div` 64) `mod` 64; 128 + p `mod` 64].

(** [TextEncoder.prototype.encode]. *)
Definition encode (s : list Z) : list Z := flat_map point_bytes (points s).

(** ** UTF-8 to code points *)

(** The decoder between two bytes: the value read so far, how many continuation
    bytes are still needed, and the bounds of the next one.  [needed = 0] is the
    initial state. *)
Record decoder := Decoder { dvalue : Z; dneeded : Z; dlower : Z; dupper : Z }.

Definition decoder_init : decoder := Decoder 0 0 128 191.

(** A byte met in the initial state; [None] is an error. *)
Definition start_byte (b : Z) : list (option Z) * decoder :=
  if b <? 128 then ([Some b], decoder_init)
  else if (194 <=? b) && (b <=? 223) then ([], Decoder (b - 192) 1 128 191)
  else if (224 <=? b) && (b <=? 239) then
    ([], Decoder (b - 224) 2 (if b =? 224 then 160 else 128) (if b =? 237 then 159 else 191))
  else if (240 <=? b) && (b <=? 244) then
    ([], Decoder (b - 240) 3 (if b =? 240 then 144 else 128) (if b =? 244 then 143 else 191))
  else ([None], decoder_init).

Definition decode_byte (d : decoder) (b : Z) : list (option Z) * decoder :=
  if dneeded d =? 0 then start_byte b
  else if (dlower d <=? b) && (b <=? dupper d) then
    let v := dvalue d * 64 + (b - 128) in
    if dneeded d =? 1 then ([Some v], decoder_init) else ([], Decoder v (dneeded d - 1) 128 191)
  else let '(out, d') := start_byte b in (None :: out, d').

Fixpoint decode_points (d : decoder) (bs : list Z) : list (option Z) :=
  match bs with
  | [] => if dneeded d =? 0 then [] else [None]
  | b :: rest => let '(out, d') := decode_byte d b in out ++ decode_points d' rest
  end.

(** One leading U+FEFF is the byte order mark, which both decoders drop. *)
Definition strip_bom (ps : list (option Z)) : list (option Z) :=
  match ps with
  | Some p :: rest => if p =? 0xfeff then rest else ps
  | _ => ps
  end.

Fixpoint all_some {A} (l : list (option A)) : option (list A) :=
  match l with
  | [] => Some []
  | Some x :: rest => match all_some rest with Some xs => Some (x :: xs) | None => None end
  | None :: _ => None
  end.

(** [new TextDecoder("utf-8", { fatal: true }).decode(bytes)]; [None] is its
    [TypeError]. *)
Definition decode_fatal (bs : list Z) : option (list Z) :=
  match all_some (strip_bom (decode_points decoder_init bs)) with
  | Some ps => Some (flat_map point_units ps)
  | None => None
  end.

(** [new TextDecoder().decode(bytes)]. *)
Definition decode_lossy (bs : list Z) : list Z :=
  flat_map (λ o, point_units (default REPLACEMENT o)) (strip_bom (decode_points decoder_init bs)).

(** ** Order *)

(** Lexicographic order of byte (or code point) sequences: SQLite's BINARY
    collation, and git's order of tree entry names. *)
Fixpoint lex_compare (a b : list Z) : Z :=
  match a, b with
  | [], [] => 0
  | [], _ :: _ => -1
  | _ :: _, [] => 1
  | x :: a, y :: b => if x <? y then -1 else if y <? x then 1 else lex_compare a b
  end.

(** * Facts *)

Lemma lex_compare_refl a : lex_compare a a = 0.
Proof. induction a as [|x a IH]; [done|]. simpl. by rewrite Z.ltb_irrefl. Qed.

Lemma lex_compare_app_same p a b : lex_compare (p ++ a) (p ++ b) = lex_compare a b.
Proof. induction p as [|x p IH]; [done|]. simpl. by rewrite Z.ltb_irrefl. Qed.

Lemma lex_compare_eq a b : lex_compare a b = 0 ↔ a = b.
Proof.
  split; [|intros ->; apply lex_compare_refl].
  revert b. induction a as [|x a IH]; intros [|y b] H; try done. simpl in H.
  destruct (x <? y) eqn:?; [done|]. destruct (y <? x) eqn:?; [done|]. zbool.
  f_equal; [lia|auto].
Qed.

Lemma lex_compare_opp a b : lex_compare b a = - lex_compare a b.
Proof.
  revert b. induction a as [|x a IH]; intros [|y b]; try done. simpl.
  destruct (x <? y) eqn:?, (y <? x) eqn:?; try done; zbool; lia.
Qed.

Lemma lex_compare_trans a b c : lex_compare a b < 0 → lex_compare b c < 0 → lex_compare a c < 0.
Proof.
  revert b c. induction a as [|x a IH]; intros [|y b] [|z c]; simpl; try (lia || done).
  destruct (x <? y) eqn:?, (y <? x) eqn:?, (y <? z) eqn:?, (z <? y) eqn:?,
    (x <? z) eqn:?, (z <? x) eqn:?; zbool; try lia.
  all: try (intros; apply IH with b; assumption).
Qed.

(** [lex_compare] answers only -1, 0 and 1. *)
Lemma lex_compare_range a b : lex_compare a b = -1 ∨ lex_compare a b = 0 ∨ lex_compare a b = 1.
Proof.
  revert b. induction a as [|x a IH]; intros [|y b]; simpl; auto.
  destruct (x <? y); auto. destruct (y <? x); auto.
Qed.

Lemma points_scalar s : Forall unit_ok s → Forall scalar (points s).
Proof.
  remember (length s) as n eqn:Hn. revert s Hn.
  induction n as [n IH] using (well_founded_induction Nat.lt_wf_0). intros s -> Hs.
  assert (scalar REPLACEMENT) as Hrep by (split; [unfold REPLACEMENT; lia|done]).
  destruct s as [|u rest]; [constructor|]. inversion_clear Hs as [|? ? Hu Hrest].
  unfold unit_ok in Hu. simpl in *.
  destruct (is_high u) eqn:Hh.
  - destruct rest as [|low rest']; [repeat constructor; apply Hrep|].
    destruct (is_low low) eqn:Hl.
    + inversion_clear Hrest. constructor; [|eapply IH; [|done|done]; simpl; lia].
      unfold is_high, is_low, pair_point, scalar, is_surrogate in *. zbool. split; [lia|].
      apply andb_false_iff. right. apply Z.leb_gt. lia.
    + constructor; [done|]. eapply IH; [|done|done]. simpl; lia.
  - destruct (is_low u) eqn:Hl.
    + constructor; [done|]. eapply IH; [|done|done]. simpl; lia.
    + constructor; [|eapply IH; [|done|done]; simpl; lia].
      unfold is_high, is_low, scalar, is_surrogate in *. split; [lia|].
      zbool. apply andb_false_iff. rewrite !Z.leb_gt. lia.
Qed.

(** Two scalars differ first in a byte ordered as they are: UTF-8 is prefix-free
    and order preserving. *)
Lemma point_bytes_lt p q t t' :
  scalar p → scalar q → p < q → lex_compare (point_bytes p ++ t) (point_bytes q ++ t') = -1.
Proof.
  intros [Hp _] [Hq _] Hpq. unfold point_bytes.
  repeat case_match; zbool; simpl; try lia.
  all: repeat first
    [ rewrite (proj2 (Z.ltb_lt _ _)) by zdm; reflexivity
    | case_match; zbool; try (exfalso; zdm); try done ].
Qed.

(** ** UTF-8 byte order is code point order *)
Lemma encode_points_order ps qs :
  Forall scalar ps → Forall scalar qs →
  lex_compare (flat_map point_bytes ps) (flat_map point_bytes qs) = lex_compare ps qs.
Proof.
  intros Hps. revert qs. induction Hps as [|p ps Hp Hps IH]; intros qs Hqs.
  - destruct Hqs as [|q qs Hq Hqs]; [done|]. simpl. unfold point_bytes. by repeat case_match.
  - destruct Hqs as [|q qs Hq Hqs]; simpl.
    { unfold point_bytes. by repeat case_match. }
    destruct (p <? q) eqn:E1; zbool; [by apply point_bytes_lt|].
    destruct (q <? p) eqn:E2; zbool.
    { rewrite lex_compare_opp, point_bytes_lt; auto. }
    assert (p = q) as -> by lia. rewrite lex_compare_app_same. auto.
Qed.

(** ** Decoding what was encoded *)

Lemma decode_start b t out d :
  start_byte b = (out, d) → decode_points decoder_init (b :: t) = out ++ decode_points d t.
Proof. intros H. cbn [decode_points]. unfold decode_byte. cbn [dneeded decoder_init]. by rewrite H. Qed.

Lemma decode_more v n lo hi b t :
  1 < n → lo <= b <= hi →
  decode_points (Decoder v n lo hi) (b :: t) =
  decode_points (Decoder (v * 64 + (b - 128)) (n - 1) 128 191) t.
Proof.
  intros Hn Hb. cbn [decode_points]. unfold decode_byte. cbn [dvalue dneeded dlower dupper]. by zdec.
Qed.

Lemma decode_last v lo hi b t :
  lo <= b <= hi →
  decode_points (Decoder v 1 lo hi) (b :: t) =
  Some (v * 64 + (b - 128)) :: decode_points decoder_init t.
Proof.
  intros Hb. cbn [decode_points]. unfold decode_byte. cbn [dvalue dneeded dlower dupper]. by zdec.
Qed.

Lemma decode_point_bytes p t :
  scalar p → decode_points decoder_init (point_bytes p ++ t) = Some p :: decode_points decoder_init t.
Proof.
  intros [Hp Hs]. unfold is_surrogate in Hs. apply andb_false_iff in Hs.
  rewrite !Z.leb_gt in Hs. unfold point_bytes.
  destruct (p <? 128) eqn:E1; [|destruct (p <? 2048) eqn:E2; [|destruct (p <? 0x10000) eqn:E3]];
    zbool; cbn [app].
  - erewrite decode_start by (unfold start_byte; zdec; reflexivity). done.
  - erewrite decode_start by (unfold start_byte; zdecm; reflexivity). cbn [app].
    rewrite decode_last by zdm. f_equal. f_equal. zdm.
  - erewrite decode_start by
      (unfold start_byte; zdec1 ltac:(zdm); do 2 zdec1 ltac:(zdm); cbn [andb];
       do 2 zdec1 ltac:(zdm); cbn [andb]; reflexivity). cbn [app].
    rewrite decode_more by (lia || (case_match; case_match; zbool; zdm)).
    rewrite decode_last by zdm. f_equal. f_equal. zdm.
  - erewrite decode_start by
      (unfold start_byte; zdec1 ltac:(zdm); do 2 zdec1 ltac:(zdm); cbn [andb];
       do 2 zdec1 ltac:(zdm); cbn [andb]; do 2 zdec1 ltac:(zdm); cbn [andb]; reflexivity). cbn [app].
    rewrite decode_more by (lia || (case_match; case_match; zbool; zdm)).
    rewrite decode_more by zdm. rewrite decode_last by zdm. f_equal. f_equal. zdm.
Qed.

Lemma decode_encoded_points ps :
  Forall scalar ps → decode_points decoder_init (flat_map point_bytes ps) = Some <$> ps.
Proof.
  induction 1 as [|p ps Hp Hps IH]; [done|]. cbn [flat_map].
  by rewrite decode_point_bytes, IH.
Qed.

Lemma all_some_fmap {A} (l : list A) : all_some (Some <$> l) = Some l.
Proof. induction l as [|x l IH]; [done|]. rewrite fmap_cons. cbn [all_some]. by rewrite IH. Qed.

Lemma strip_bom_fmap ps : head ps ≠ Some 0xfeff → strip_bom (Some <$> ps) = Some <$> ps.
Proof.
  destruct ps as [|p ps]; [done|]. simpl. intros H.
  destruct (p =? 0xfeff) eqn:E; [|done]. zbool. by subst.
Qed.

Lemma point_units_points s :
  Forall unit_ok s → isWellFormed s = true → flat_map point_units (points s) = s.
Proof.
  remember (length s) as n eqn:Hn. revert s Hn.
  induction n as [n IH] using (well_founded_induction Nat.lt_wf_0). intros s -> Hs Hw.
  destruct s as [|u rest]; [done|]. inversion_clear Hs as [|? ? Hu Hrest]. unfold unit_ok in Hu.
  simpl in *. destruct (is_high u) eqn:Hh.
  - destruct rest as [|low rest']; [done|]. inversion_clear Hrest.
    apply andb_prop in Hw as [Hl Hw]. rewrite Hl. simpl.
    rewrite (IH (length rest') ltac:(simpl; lia) rest' eq_refl) by done.
    unfold is_high, is_low, point_units, pair_point in *. zbool.
    rewrite (proj2 (Z.ltb_ge _ _)) by lia. simpl. f_equal; [zdm|]. f_equal; zdm.
  - apply andb_prop in Hw as [Hl Hw]. apply negb_true_iff in Hl. rewrite Hl. simpl.
    rewrite (IH (length rest) ltac:(simpl; lia) rest eq_refl) by done.
    unfold point_units. by rewrite (proj2 (Z.ltb_lt _ _)) by lia.
Qed.

(** A string whose first unit is not the byte order mark decodes back. *)
Lemma points_head s : Forall unit_ok s → head s ≠ Some 0xfeff → head (points s) ≠ Some 0xfeff.
Proof.
  destruct s as [|u rest]; [done|]. simpl. intros Hu H. inversion_clear Hu.
  destruct (is_high u) eqn:Hh; [|case_match; [done|simpl; congruence]].
  destruct rest as [|low rest]; [done|]. destruct (is_low low) eqn:Hl; [|done].
  unfold is_high, is_low, pair_point in *. zbool. simpl. intros [=]. lia.
Qed.

Lemma decode_fatal_encode s :
  Forall unit_ok s → isWellFormed s = true → head s ≠ Some 0xfeff → decode_fatal (encode s) = Some s.
Proof.
  intros Hu Hw Hb. unfold decode_fatal, encode.
  rewrite decode_encoded_points by by apply points_scalar.
  rewrite strip_bom_fmap by by apply points_head.
  by rewrite all_some_fmap, point_units_points.
Qed.

Lemma decode_lossy_encode s :
  Forall unit_ok s → isWellFormed s = true → head s ≠ Some 0xfeff → decode_lossy (encode s) = s.
Proof.
  intros Hu Hw Hb. unfold decode_lossy, encode.
  rewrite decode_encoded_points by by apply points_scalar.
  rewrite strip_bom_fmap by by apply points_head.
  rewrite <- (point_units_points s) at 2 by done.
  induction (points s) as [|p ps IH]; [done|]. rewrite fmap_cons. cbn [flat_map]. by rewrite IH.
Qed.

Lemma encode_bytes s : Forall unit_ok s → Forall byte_ok (encode s).
Proof.
  intros Hu. unfold encode. apply points_scalar in Hu.
  induction Hu as [|p ps [Hp _] Hps IH]; [constructor|]. cbn [flat_map]. apply Forall_app. split; [|done].
  unfold point_bytes. unfold byte_ok. repeat case_match; zbool; repeat constructor; zdm.
Qed.

(** ASCII text is its own encoding. *)
Definition ascii (s : list Z) : Prop := Forall (λ u, 0 <= u < 128) s.

Lemma points_ascii s t : ascii s → points (s ++ t) = s ++ points t.
Proof.
  induction 1 as [|u s Hu Hs IH]; [done|]. simpl.
  unfold is_high, is_low. rewrite (proj2 (Z.leb_gt 0xd800 u)), (proj2 (Z.leb_gt 0xdc00 u)) by lia.
  simpl. by rewrite IH.
Qed.

Lemma encode_ascii_app s t : ascii s → encode (s ++ t) = s ++ encode t.
Proof.
  intros Hs. unfold encode. rewrite points_ascii by done. rewrite flat_map_app. f_equal.
  induction Hs as [|u s Hu Hs IH]; [done|]. cbn [flat_map]. unfold point_bytes at 1.
  rewrite (proj2 (Z.ltb_lt u 128)) by lia. by rewrite IH.
Qed.

Lemma encode_ascii s : ascii s → encode s = s.
Proof. intros Hs. rewrite <- (app_nil_r s) at 1. rewrite encode_ascii_app by done. by rewrite app_nil_r. Qed.

Lemma points_app a b : isWellFormed a = true → points (a ++ b) = points a ++ points b.
Proof.
  remember (length a) as n eqn:Hn. revert a Hn.
  induction n as [n IH] using (well_founded_induction Nat.lt_wf_0). intros [|u a] -> Hw; [done|].
  cbn [isWellFormed] in Hw. cbn [app points]. destruct (is_high u).
  - destruct a as [|low a]; [done|]. apply andb_prop in Hw as [Hl Hw]. cbn [app]. rewrite Hl.
    cbn [app]. f_equal. eapply IH; [|reflexivity|done]. simpl. lia.
  - apply andb_prop in Hw as [Hl Hw]. apply negb_true_iff in Hl. rewrite Hl. cbn [app]. f_equal.
    eapply IH; [|reflexivity|done]. simpl. lia.
Qed.

Lemma encode_app a b : isWellFormed a = true → encode (a ++ b) = encode a ++ encode b.
Proof. intros. unfold encode. by rewrite points_app, flat_map_app. Qed.

(** The length of one unit or pair. *)
Lemma points_pair u low rest :
  is_high u = true → is_low low = true → points (u :: low :: rest) = pair_point u low :: points rest.
Proof. intros Hh Hl. cbn [points]. by rewrite Hh, Hl. Qed.

Lemma points_single u rest :
  is_high u = false → is_low u = false → points (u :: rest) = u :: points rest.
Proof. intros Hh Hl. cbn [points]. by rewrite Hh, Hl. Qed.

Lemma point_bytes_pair u low : is_high u = true → is_low low = true → zlen (point_bytes (pair_point u low)) = 4.
Proof.
  unfold is_high, is_low, point_bytes, pair_point. intros. zbool. by zdec.
Qed.

Lemma point_bytes_unit u : unit_ok u →
  zlen (point_bytes u) = if u <? 0x80 then 1 else if u <? 0x800 then 2 else 3.
Proof.
  unfold unit_ok, point_bytes. intros. change 0x80 with 128. change 0x800 with 2048.
  destruct (u <? 128) eqn:?; [done|]. destruct (u <? 2048) eqn:?; [done|]. zbool. by zdec.
Qed.

(** A cut before a unit that is no low surrogate splits no pair. *)
Lemma points_app_boundary a b : from_option is_low false (head b) = false → points (a ++ b) = points a ++ points b.
Proof.
  intros Hb. remember (length a) as n eqn:Hn. revert a Hn.
  induction n as [n IH] using (well_founded_induction Nat.lt_wf_0). intros [|u a] ->; [done|].
  assert (∀ l, length l < length (u :: a) → points (l ++ b) = points l ++ points b)%nat as IH'.
  { intros l Hl. by eapply IH. }
  cbn [app points]. destruct (is_high u).
  - destruct a as [|low a].
    + cbn [app]. destruct b as [|x b]; [done|]. cbn in Hb. by rewrite Hb.
    + cbn [app]. destruct (is_low low); cbn [app]; f_equal.
      * apply IH'. simpl. lia.
      * apply (IH' (low :: a)). simpl. lia.
  - destruct (is_low u); cbn [app]; f_equal; apply IH'; simpl; lia.
Qed.

Lemma encode_app_boundary a b : from_option is_low false (head b) = false → encode (a ++ b) = encode a ++ encode b.
Proof. intros. unfold encode. by rewrite points_app_boundary, flat_map_app. Qed.

(** A byte below 128 stands for the ASCII unit itself. *)
Lemma encode_not_in c s : 0 <= c < 128 → Forall unit_ok s → c ∉ s → c ∉ encode s.
Proof.
  intros Hc Hu Hs. assert (c ∉ points s) as Hp.
  { clear -Hc Hs Hu. remember (length s) as n eqn:Hn. revert s Hn Hu Hs.
    induction n as [n IH] using (well_founded_induction Nat.lt_wf_0). intros [|u s] -> Hu Hs; [done|].
    apply not_elem_of_cons in Hs as [Hcu Hs]. inversion_clear Hu as [|? ? Hu1 Hu2]. cbn [points].
    assert (c ∉ points s) by (eapply IH; [|reflexivity|done..]; simpl; lia).
    destruct (is_high u) eqn:Eh.
    - destruct s as [|low s]; [apply not_elem_of_cons; split; [unfold REPLACEMENT; lia|apply not_elem_of_nil]|].
      destruct (is_low low) eqn:El.
      + apply not_elem_of_cons in Hs as [_ Hs]. inversion_clear Hu2 as [|? ? _ Hu3].
        apply not_elem_of_cons. split; [unfold pair_point, is_high, is_low in *; zbool; lia|].
        eapply IH; [|reflexivity|done..]. simpl. lia.
      + apply not_elem_of_cons. split; [unfold REPLACEMENT; lia|done].
    - destruct (is_low u); apply not_elem_of_cons; (split; [|done]); [unfold REPLACEMENT; lia|done]. }
  apply points_scalar in Hu. unfold encode. induction (points s) as [|p ps IH]; [apply not_elem_of_nil|].
  apply not_elem_of_cons in Hp as [Hcp Hp]. apply Forall_cons in Hu as [[[Hp0 _] _] Hps]. cbn [flat_map].
  apply not_elem_of_app. split; [|auto]. unfold point_bytes.
  repeat case_match; zbool; rewrite !not_elem_of_cons; split_and!; try apply not_elem_of_nil; try done; zdm.
Qed.

Lemma ascii_units s : ascii s → Forall unit_ok s.
Proof. intros H. apply (Forall_impl _ _ _ H). unfold unit_ok. intros. lia. Qed.

Lemma ascii_wf s : ascii s → isWellFormed s = true.
Proof.
  induction 1 as [|u s Hu Hs IH]; [done|]. cbn [isWellFormed]. unfold is_high, is_low. rewrite IH. by zdec.
Qed.

Lemma ascii_head s : ascii s → head s ≠ Some 0xfeff.
Proof. destruct 1; simpl; [done|]. intros [=]. lia. Qed.

Lemma decode_lossy_ascii s : ascii s → decode_lossy s = s.
Proof.
  intros Hs. rewrite <- (encode_ascii s) at 1 by done.
  apply decode_lossy_encode; auto using ascii_units, ascii_wf, ascii_head.
Qed.
