(* ===== verification/Text.v ===== *)
(** The string operations of JavaScript the components use: [split], [join],
    [startsWith], [indexOf] and [lastIndexOf] of one code unit, and the lemmas that
    relate a separated text to its parts. *)

From S2P Require Import Prelude.

(** [s.split(sep)] for a one-unit separator: never empty. *)
Fixpoint split (sep : Z) (s : list Z) : list (list Z) :=
  match s with
  | [] => [[]]
  | u :: s =>
      let parts := split sep s in
      if u =? sep then [] :: parts
      else match parts with part :: rest => (u :: part) :: rest | [] => [[u]] end
  end.

(** [parts.join(sep)]. *)
Fixpoint join (sep : Z) (parts : list (list Z)) : list Z :=
  match parts with
  | [] => []
  | [part] => part
  | part :: parts => part ++ sep :: join sep parts
  end.

(** [s.startsWith(prefix)]. *)
Fixpoint startsWith (s prefix : list Z) {struct prefix} : bool :=
  match prefix, s with
  | [], _ => true
  | p :: prefix, u :: s => (u =? p) && startsWith s prefix
  | _ :: _, [] => false
  end.

(** [s.indexOf(u)], [-1] when absent. *)
Fixpoint indexOf (u : Z) (s : list Z) : Z :=
  match s with
  | [] => -1
  | v :: s => if v =? u then 0 else let i := indexOf u s in if i <? 0 then -1 else i + 1
  end.

(** [s.lastIndexOf(u)], [-1] when absent. *)
Fixpoint lastIndexOf (u : Z) (s : list Z) : Z :=
  match s with
  | [] => -1
  | v :: s => let i := lastIndexOf u s in
              if 0 <=? i then i + 1 else if v =? u then 0 else -1
  end.

(** String equality. *)
Definition str_eqb (a b : list Z) : bool := bool_decide (a = b).

(** * Facts *)

Section text.
  Context (sep : Z).

(** A part holds no separator. *)
Definition part_ok (part : list Z) : Prop := sep ∉ part.

Lemma split_not_nil s : split sep s ≠ [].
Proof. destruct s; simpl; repeat case_match; done. Qed.

Lemma split_part part : part_ok part → split sep part = [part].
Proof.
  induction part as [|u part IH]; intros Hp; [done|]. apply not_elem_of_cons in Hp as [Hu Hp].
  cbn [split]. rewrite (proj2 (Z.eqb_neq u sep)) by done. by rewrite IH.
Qed.

Lemma split_app a b : split sep (a ++ sep :: b) = split sep a ++ split sep b.
Proof.
  induction a as [|u a IH]; cbn [split app]; [by rewrite Z.eqb_refl|].
  rewrite IH. case_match; [done|]. destruct (split sep a) eqn:E; [by apply split_not_nil in E|done].
Qed.

Lemma split_parts_ok s : Forall part_ok (split sep s).
Proof.
  assert (part_ok []) as Hnil by apply not_elem_of_nil.
  induction s as [|u s IH]; cbn [split]; [by repeat constructor|].
  destruct (u =? sep) eqn:E; zbool; [by constructor|].
  destruct (split sep s) eqn:Es; [by apply split_not_nil in Es|]. inversion_clear IH.
  constructor; [|done]. by apply not_elem_of_cons.
Qed.

Lemma split_join parts : parts ≠ [] → Forall part_ok parts → split sep (join sep parts) = parts.
Proof.
  intros Hne Hp. induction Hp as [|p parts Hp Hps IH]; [done|]. destruct parts as [|q parts].
  - by apply split_part.
  - change (join sep (p :: q :: parts)) with (p ++ sep :: join sep (q :: parts)).
    rewrite split_app, split_part, IH by done. done.
Qed.

Lemma join_split s : join sep (split sep s) = s.
Proof.
  induction s as [|u s IH]; [done|]. cbn [split].
  destruct (split sep s) as [|p rest] eqn:E; [by apply split_not_nil in E|].
  destruct (u =? sep) eqn:Eu; zbool; subst; [done|]. by destruct rest.
Qed.

Lemma join_cons p parts : parts ≠ [] → join sep (p :: parts) = p ++ sep :: join sep parts.
Proof. by destruct parts. Qed.

Lemma join_app a b : a ≠ [] → b ≠ [] → join sep (a ++ b) = join sep a ++ sep :: join sep b.
Proof.
  intros Ha Hb. induction a as [|p a IH]; [done|]. destruct a as [|q a].
  - simpl app. by apply join_cons.
  - change ((p :: q :: a) ++ b) with (p :: (q :: a) ++ b). rewrite join_cons by done.
    rewrite IH, (join_cons p (q :: a)) by done. by rewrite <- app_assoc.
Qed.

Lemma join_inj a b :
  a ≠ [] → b ≠ [] → Forall part_ok a → Forall part_ok b → join sep a = join sep b → a = b.
Proof. intros Ha Hb Hpa Hpb E. by rewrite <- (split_join a), <- (split_join b), E by done. Qed.

End text.

Lemma startsWith_spec s prefix : startsWith s prefix = true ↔ ∃ k, s = prefix ++ k.
Proof.
  revert s. induction prefix as [|p prefix IH]; intros s; simpl; [by split; eauto|].
  destruct s as [|u s]; [split; [done|by intros [??]]|].
  rewrite andb_true_iff, Z.eqb_eq, IH. split.
  - intros [-> [k ->]]. by exists k.
  - intros [k [= -> ->]]. eauto.
Qed.

Lemma startsWith_app prefix k : startsWith (prefix ++ k) prefix = true.
Proof. apply startsWith_spec. eauto. Qed.

Lemma str_eqb_refl a : str_eqb a a = true.
Proof. by apply bool_decide_eq_true. Qed.

Lemma lastIndexOf_none u s : u ∉ s → lastIndexOf u s = -1.
Proof.
  induction s as [|v s IH]; intros Hs; [done|]. apply not_elem_of_cons in Hs as [? ?].
  cbn [lastIndexOf]. rewrite IH by done. by zdec.
Qed.

Lemma lastIndexOf_app u a b : u ∉ b → lastIndexOf u (a ++ u :: b) = zlen a.
Proof.
  intros Hb. induction a as [|v a IH]; cbn [app lastIndexOf].
  - rewrite lastIndexOf_none by done. rewrite Z.eqb_refl. done.
  - rewrite IH, zlen_cons. pose proof (zlen_nonneg a). zdec. lia.
Qed.

Lemma indexOf_spec u a b : u ∉ a → indexOf u (a ++ u :: b) = zlen a.
Proof.
  induction a as [|v a IH]; intros Hn; cbn [indexOf app]; [by rewrite Z.eqb_refl|].
  apply not_elem_of_cons in Hn as [? ?]. rewrite IH, zlen_cons by done. pose proof (zlen_nonneg a).
  zdec. lia.
Qed.

Lemma indexOf_none u a : u ∉ a → indexOf u a = -1.
Proof.
  induction a as [|v a IH]; intros Hn; cbn [indexOf]; [done|].
  apply not_elem_of_cons in Hn as [? ?]. rewrite IH by done. by zdec.
Qed.

(** No two neighbours [a], [b]. *)
Definition no_pair (a b : Z) (s : list Z) : Prop := ¬ ∃ p q, s = p ++ a :: b :: q.

Lemma no_pair_nil a b : no_pair a b [].
Proof. intros (p & q & E). by destruct p. Qed.

Lemma no_pair_cons a b u s : no_pair a b (u :: s) ↔ ¬ (u = a ∧ head s = Some b) ∧ no_pair a b s.
Proof.
  unfold no_pair. split.
  - intros H. split.
    + intros [-> Hs]. destruct s; simplify_eq/=. apply H. by exists [], s.
    + intros (p & q & ->). apply H. by exists (u :: p), q.
  - intros [H1 H2] (p & q & E). destruct p as [|v p]; simplify_eq/=; [by apply H1|].
    apply H2. eauto.
Qed.
