(* ===== verification/Bytes.v ===== *)
(** Byte arrays and hexadecimal object names: src/packages/git/src/common/bytes.ts. *)

From S2P Require Import Prelude.

(** * Byte arrays *)

(** [concat(parts)]; a single part is returned as it is. *)
Fixpoint concat_fill (out : bytes) (offset : Z) (parts : list bytes) : outcome bytes :=
  match parts with
  | [] => Ok out
  | part :: parts => out ← typed_set out part offset; concat_fill out (offset + zlen part) parts
  end.

Definition concat_length (parts : list bytes) : Z := foldl (λ length part, length + zlen part) 0 parts.

Definition concat (parts : list bytes) : outcome bytes :=
  match parts with
  | [part] => Ok part
  | _ => concat_fill (replicate (Z.to_nat (concat_length parts)) 0) 0 parts
  end.

(** [a.length === b.length] and equal bytes throughout. *)
Fixpoint equalBytes_from (a b : bytes) : bool :=
  match a, b with
  | [], _ => true
  | x :: a, y :: b => if negb (x =? y) then false else equalBytes_from a b
  | _ :: _, [] => false
  end.

Definition equalBytes (a b : bytes) : bool :=
  if negb (zlen a =? zlen b) then false else equalBytes_from a b.

(** * Hexadecimal *)

(** The digit of a value below 16. *)
Definition hex_digit (d : Z) : Z := if d <? 10 then 0x30 + d else 0x61 + (d - 10).

(** [i.toString(16)] for [i] below 256, and [s.padStart(2, "0")]. *)
Definition toString16 (i : Z) : ustring :=
  if i <? 16 then [hex_digit i] else [hex_digit (i / 16); hex_digit (i mod 16)].
Definition padStart2 (s : ustring) : ustring := replicate (2 - length s) 0x30 ++ s.

Definition HEX : list ustring := padStart2 ∘ toString16 <$> seqZ 0 256.

Fixpoint toHex (bs : bytes) : ustring :=
  match bs with
  | [] => []
  | b :: bs => default [] (HEX !! Z.to_nat b) ++ toHex bs
  end.

(** White space and line terminators, which [parseInt] skips. *)
Definition is_js_space (u : Z) : bool :=
  ((9 <=? u) && (u <=? 13)) || (u =? 32) || (u =? 0xa0) || (u =? 0x1680) ||
  ((0x2000 <=? u) && (u <=? 0x200a)) || (u =? 0x2028) || (u =? 0x2029) || (u =? 0x202f) ||
  (u =? 0x205f) || (u =? 0x3000) || (u =? 0xfeff).

(** The value of a digit, in either case. *)
Definition hex_value (u : Z) : option Z :=
  if (0x30 <=? u) && (u <=? 0x39) then Some (u - 0x30)
  else if (0x61 <=? u) && (u <=? 0x66) then Some (u - 0x61 + 10)
  else if (0x41 <=? u) && (u <=? 0x46) then Some (u - 0x41 + 10)
  else None.

Fixpoint hex_digits (acc : option Z) (s : ustring) : option Z :=
  match s with
  | [] => acc
  | u :: s =>
      match hex_value u with
      | Some d => hex_digits (Some (default 0 acc * 16 + d)) s
      | None => acc
      end
  end.

Fixpoint skip_space (s : ustring) : ustring :=
  match s with u :: s' => if is_js_space u then skip_space s' else s | [] => [] end.

(** [Number.parseInt(s, 16)]; [None] is [NaN]. *)
Definition parseInt16 (s : ustring) : option Z :=
  let s := skip_space s in
  let '(sign, s) :=
    match s with
    | u :: s' => if u =? 0x2d then (-1, s') else if u =? 0x2b then (1, s') else (1, s)
    | [] => (1, s)
    end in
  let s :=
    match s with
    | z :: x :: s' => if (z =? 0x30) && ((x =? 0x78) || (x =? 0x58)) then s' else s
    | _ => s
    end in
  Z.mul sign <$> hex_digits None s.

(** Storing a number into a [Uint8Array]: modulo 256, [NaN] as 0. *)
Definition toUint8 (n : option Z) : Z := default 0 n mod 256.

Definition fromHex (hex : ustring) : bytes :=
  (λ i, toUint8 (parseInt16 (slice hex (i * 2) (i * 2 + 2)))) <$> seqZ 0 (Z.shiftr (zlen hex) 1).

(** * Object names *)

Definition ZERO_OID : ustring := replicate 40 0x30.

(** The class [[0-9a-f]]. *)
Definition is_lower_hex (u : Z) : bool :=
  ((0x30 <=? u) && (u <=? 0x39)) || ((0x61 <=? u) && (u <=? 0x66)).

(** [/^[0-9a-f]{40}$/] and [/^[0-9a-f]{4,40}$/]. *)
Definition isOid (value : ustring) : bool := (zlen value =? 40) && forallb is_lower_hex value.
Definition isAbbreviatedOid (value : ustring) : bool :=
  (4 <=? zlen value) && (zlen value <=? 40) && forallb is_lower_hex value.

(** * Facts *)

Lemma concat_length_from n (parts : list bytes) :
  foldl (λ length part, length + zlen part) n parts = n + zlen (mjoin parts).
Proof.
  revert n. induction parts as [|p parts IH]; intros n; simpl; [unfold zlen; simpl; lia|].
  rewrite IH, zlen_app. lia.
Qed.

Lemma concat_fill_spec done todo parts :
  zlen todo = zlen (mjoin parts) →
  concat_fill (done ++ todo) (zlen done) parts = Ok (done ++ mjoin parts).
Proof.
  revert done todo. induction parts as [|p parts IH]; intros done todo Hlen; simpl in *.
  - destruct todo; [|by unfold zlen in Hlen]. done.
  - rewrite zlen_app in Hlen. pose proof (zlen_nonneg (mjoin parts)). pose proof (zlen_nonneg p).
    rewrite <- (take_drop (length p) todo).
    rewrite typed_set_app by (unfold zlen in *; rewrite length_take; lia). simpl.
    rewrite <- zlen_app, app_assoc. rewrite IH; [by rewrite <- app_assoc|].
    unfold zlen in *. rewrite length_drop. lia.
Qed.

(** [concat] never throws and joins its parts. *)
Lemma concat_spec parts : concat parts = Ok (mjoin parts).
Proof.
  assert (concat_fill (replicate (Z.to_nat (concat_length parts)) 0) 0 parts = Ok (mjoin parts)) as H.
  { apply (concat_fill_spec []). unfold concat_length. rewrite concat_length_from.
    unfold zlen. rewrite length_replicate. lia. }
  destruct parts as [|p [|q parts]]; try exact H. simpl. by rewrite app_nil_r.
Qed.

Lemma equalBytes_spec a b : equalBytes a b = true ↔ a = b.
Proof.
  unfold equalBytes. destruct (zlen a =? zlen b) eqn:E; simpl; zbool.
  - unfold zlen in E. assert (length a = length b) as El by lia. clear E. revert b El.
    induction a as [|x a IH]; intros [|y b] El; simplify_eq/=; [done|].
    destruct (x =? y) eqn:Exy; simpl; zbool; [|split; congruence].
    rewrite IH by lia. split; congruence.
  - split; [done|]. by intros ->.
Qed.

Lemma HEX_lookup b : byte_ok b → HEX !! Z.to_nat b = Some [hex_digit (b / 16); hex_digit (b mod 16)].
Proof.
  intros [Hb Hb']. unfold HEX. rewrite list_lookup_fmap, lookup_seqZ_lt by lia. simpl.
  rewrite Z2Nat.id, Z.add_0_l by lia. unfold toString16, padStart2. f_equal. destruct (b <? 16) eqn:E; zbool; [|done].
  replace (b / 16) with 0 by zdm. by replace (b mod 16) with b by zdm.
Qed.

Lemma hex_value_digit d : 0 <= d < 16 → hex_value (hex_digit d) = Some d.
Proof. intros. unfold hex_value, hex_digit. destruct (d <? 10) eqn:?; zbool; zdec; f_equal; lia. Qed.

Lemma hex_value_range u d :
  hex_value u = Some d → 0x30 <= u <= 0x39 ∨ 0x61 <= u <= 0x66 ∨ 0x41 <= u <= 0x46.
Proof.
  unfold hex_value. destruct ((0x30 <=? u) && (u <=? 0x39)) eqn:?; zbool; [lia|].
  destruct ((0x61 <=? u) && (u <=? 0x66)) eqn:?; zbool; [lia|].
  destruct ((0x41 <=? u) && (u <=? 0x46)) eqn:?; zbool; [lia|done].
Qed.

(** Two digits parse to their byte. *)
Lemma parseInt16_digits h l x y :
  hex_value h = Some x → hex_value l = Some y → parseInt16 [h; l] = Some (x * 16 + y).
Proof.
  intros Hh Hl. unfold parseInt16.
  pose proof (hex_value_range _ _ Hh). pose proof (hex_value_range _ _ Hl).
  assert (is_js_space h = false) as Hsp by (unfold is_js_space; by zdec).
  simpl. rewrite Hsp. zdec.
  rewrite andb_false_r. simpl. rewrite Hh, Hl. cbn. f_equal. lia.
Qed.

Lemma fromHex_cons h l s x y :
  hex_value h = Some x → hex_value l = Some y → 0 <= x < 16 → 0 <= y < 16 →
  fromHex (h :: l :: s) = x * 16 + y :: fromHex s.
Proof.
  intros Hh Hl Hx Hy. unfold fromHex.
  replace (Z.shiftr (zlen (h :: l :: s)) 1) with (1 + Z.shiftr (zlen s) 1)
    by (rewrite !Z.shiftr_div_pow2 by lia; unfold zlen; simpl length; change (2 ^ 1) with 2; zdm).
  assert (0 <= Z.shiftr (zlen s) 1) by (apply Z.shiftr_nonneg, zlen_nonneg).
  rewrite seqZ_app, fmap_app by lia. change (seqZ 0 1) with [0]. rewrite list_fmap_singleton.
  cbn [app]. f_equal.
  - change (slice _ _ _) with [h; l]. rewrite (parseInt16_digits h l x y) by done. unfold toUint8. simpl. zdm.
  - rewrite (fmap_seqZ_shift 1). apply list_fmap_ext. intros k i Hi. apply lookup_seqZ in Hi. simpl.
    do 2 f_equal. unfold slice.
    replace (Z.to_nat ((i + 1) * 2)) with (S (S (Z.to_nat (i * 2)))) by lia. simpl. f_equal. lia.
Qed.

Lemma toHex_fromHex_digits bs : Forall byte_ok bs → fromHex (toHex bs) = bs.
Proof.
  induction 1 as [|b bs Hb _ IH]; [done|]. simpl. rewrite HEX_lookup by done. simpl.
  unfold byte_ok in Hb. rewrite (fromHex_cons _ _ _ (b / 16) (b mod 16)).
  - rewrite IH. f_equal. zdm.
  - apply hex_value_digit. zdm.
  - apply hex_value_digit. zdm.
  - zdm.
  - zdm.
Qed.

Lemma lower_hex_value u : is_lower_hex u = true → ∃ d, hex_value u = Some d ∧ 0 <= d < 16 ∧ hex_digit d = u.
Proof.
  unfold is_lower_hex, hex_value, hex_digit. intros H. apply orb_prop in H as [H|H]; zbool; zdec;
    eexists; (split; [done|]); split; try lia; zdec; lia.
Qed.

Lemma fromHex_toHex_digits hex :
  Z.even (zlen hex) = true → forallb is_lower_hex hex = true → toHex (fromHex hex) = hex.
Proof.
  remember (length hex) as n eqn:Hn. revert hex Hn.
  induction n as [n IH] using (well_founded_induction Nat.lt_wf_0).
  intros [|h [|l s]] -> He Hd; [done|done|]. simpl in Hd.
  apply andb_prop in Hd as [Hh [Hl Hs]%andb_prop].
  destruct (lower_hex_value h Hh) as (x & Hx & ? & Ex). destruct (lower_hex_value l Hl) as (y & Hy & ? & Ey).
  rewrite (fromHex_cons h l s x y) by done. cbn [toHex]. rewrite HEX_lookup by (unfold byte_ok; lia).
  replace ((x * 16 + y) / 16) with x by zdm. replace ((x * 16 + y) mod 16) with y by zdm.
  cbn [default from_option id app]. rewrite Ex, Ey. do 2 f_equal. eapply IH; [|reflexivity| |done]; [simpl; lia|].
  unfold zlen in *. simpl length in He.
  replace (Z.of_nat (S (S (length s)))) with (Z.of_nat (length s) + 2 * 1) in He by lia.
  by rewrite Z.even_add_mul_2 in He.
Qed.

Lemma toHex_length bs : Forall byte_ok bs → zlen (toHex bs) = 2 * zlen bs.
Proof.
  induction 1 as [|b bs Hb _ IH]; [done|]. cbn [toHex]. rewrite HEX_lookup by done.
  cbn [default from_option id]. rewrite zlen_app, IH. unfold zlen. simpl. lia.
Qed.

Lemma hex_digit_lower d : 0 <= d < 16 → is_lower_hex (hex_digit d) = true.
Proof. intros. unfold is_lower_hex, hex_digit. destruct (d <? 10) eqn:?; zbool; by zdec. Qed.

Lemma toHex_lower bs : Forall byte_ok bs → forallb is_lower_hex (toHex bs) = true.
Proof.
  induction 1 as [|b bs Hb _ IH]; [done|]. cbn [toHex]. rewrite HEX_lookup by done. unfold byte_ok in Hb.
  simpl. by rewrite IH, !hex_digit_lower by zdm.
Qed.

Lemma toHex_isOid bs : Forall byte_ok bs → zlen bs = 20 → isOid (toHex bs) = true.
Proof. intros Hb Hl. unfold isOid. by rewrite toHex_length, Hl, toHex_lower. Qed.

Lemma fromHex_length hex : zlen (fromHex hex) = Z.shiftr (zlen hex) 1.
Proof.
  unfold fromHex. unfold zlen at 1. rewrite length_fmap, length_seqZ.
  pose proof (proj2 (Z.shiftr_nonneg (zlen hex) 1) (zlen_nonneg hex)). lia.
Qed.

Lemma fromHex_bytes hex : Forall byte_ok (fromHex hex).
Proof.
  unfold fromHex. apply Forall_fmap, Forall_forall. intros i _. unfold byte_ok, compose, toUint8. zdm.
Qed.

Lemma fromHex_isOid hex : isOid hex = true → zlen (fromHex hex) = 20 ∧ toHex (fromHex hex) = hex.
Proof.
  unfold isOid. intros [Hl Hd]%andb_prop. zbool. rewrite fromHex_length, Hl. split; [done|].
  apply fromHex_toHex_digits; [by rewrite Hl|done].
Qed.

(** * Properties *)

(** A 20-byte object name and its 40-digit text determine each other: [toHex] of
    20 bytes is an [isOid] text that [fromHex] reads back, and every [isOid] text is
    [toHex] of the 20 bytes [fromHex] reads from it. *)
Theorem oid_roundtrip bs hex :
  Forall byte_ok bs → zlen bs = 20 → isOid hex = true →
  isOid (toHex bs) = true ∧ fromHex (toHex bs) = bs ∧
  zlen (fromHex hex) = 20 ∧ Forall byte_ok (fromHex hex) ∧ toHex (fromHex hex) = hex.
Proof.
  intros Hb Hl Ho. destruct (fromHex_isOid hex Ho).
  split_and!; auto using toHex_isOid, toHex_fromHex_digits, fromHex_bytes.
Qed.

Lemma oid_roundtrip_witness :
  isOid (toHex (replicate 20 171)) = true ∧ toHex (fromHex ZERO_OID) = ZERO_OID.
Proof.
  destruct (oid_roundtrip (replicate 20 171) ZERO_OID) as (H & _ & _ & _ & H').
  - apply Forall_replicate. unfold byte_ok. lia.
  - reflexivity.
  - vm_compute. reflexivity.
  - split; done.
Defined.
