(* ===== verification/Arrays.v ===== *)
(** Indexed lemmas on arrays of integers: [slice], [typed_set] as a splice, arrays cut
    into rows of one width.  Equal arrays are shown equal index by index. *)

From S2P Require Import Prelude.

(** [l] with [part] written over it from [off] on. *)
Definition splice {A} (l : list A) (off : Z) (part : list A) : list A :=
  take (Z.to_nat off) l ++ part ++ drop (Z.to_nat (off + zlen part)) l.

Lemma typed_set_splice l part off :
  off + zlen part <= zlen l → typed_set l part off = Ok (splice l off part).
Proof. intros. unfold typed_set. by zdec. Qed.

Lemma at_neg {A} (l : list A) i : i < 0 → at_ l i = None.
Proof. intros. unfold at_. by zdec. Qed.

Lemma at_ge {A} (l : list A) i : zlen l <= i → at_ l i = None.
Proof. intros. unfold at_, zlen in *. zdec. apply lookup_ge_None. lia. Qed.

Lemma at_is_Some {A} (l : list A) i : is_Some (at_ l i) ↔ 0 <= i < zlen l.
Proof.
  unfold at_, zlen. destruct (i <? 0) eqn:E; zbool.
  - split; [by intros [? ?]|lia].
  - rewrite lookup_lt_is_Some. lia.
Qed.

Lemma at_bound {A} (l : list A) i x : at_ l i = Some x → 0 <= i < zlen l.
Proof. intros H. apply at_is_Some. by exists x. Qed.

Lemma at_nil {A} i : at_ ([] : list A) i = None.
Proof. unfold at_. by case_match. Qed.

Lemma at_cons {A} (x : A) l i : 0 < i → at_ (x :: l) i = at_ l (i - 1).
Proof.
  intros. unfold at_. rewrite !(proj2 (Z.ltb_ge _ _)) by lia.
  replace (Z.to_nat i) with (S (Z.to_nat (i - 1))) by lia. done.
Qed.

Lemma at_None {A} (l : list A) i : 0 <= i → at_ l i = None → zlen l <= i.
Proof.
  intros Hi Hn. destruct (decide (i < zlen l)); [|lia]. destruct (proj2 (at_is_Some l i)); [lia|congruence].
Qed.

Lemma Forall_at {A} (P : A → Prop) l i x : Forall P l → at_ l i = Some x → P x.
Proof. intros H Hx. unfold at_ in Hx. destruct (i <? 0); [done|]. by apply (Forall_lookup_1 _ _ _ _ H Hx). Qed.

Lemma Forall_at_iff {A} (P : A → Prop) l : (∀ i x, at_ l i = Some x → P x) → Forall P l.
Proof.
  intros H. apply Forall_lookup. intros i x Hx. apply (H (Z.of_nat i)). unfold at_.
  by rewrite (proj2 (Z.ltb_ge _ _)), Nat2Z.id by lia.
Qed.

Lemma at_ext {A} (l k : list A) : (∀ i, 0 <= i → at_ l i = at_ k i) → l = k.
Proof.
  intros H. apply list_eq. intros i. specialize (H (Z.of_nat i) ltac:(lia)).
  unfold at_ in H. by rewrite (proj2 (Z.ltb_ge _ _)), Nat2Z.id in H by lia.
Qed.

Lemma at_insert {A} (l : list A) i j x :
  0 <= i < zlen l → at_ (<[Z.to_nat i := x]> l) j = if j =? i then Some x else at_ l j.
Proof.
  intros. unfold at_, zlen in *. destruct (j <? 0) eqn:E; zbool; [by zdec|].
  destruct (j =? i) eqn:E'; zbool.
  - subst. apply list_lookup_insert_eq. lia.
  - apply list_lookup_insert_ne. lia.
Qed.

Lemma at_app_l {A} (l k : list A) i : i < zlen l → at_ (l ++ k) i = at_ l i.
Proof.
  intros. unfold at_, zlen in *. destruct (i <? 0) eqn:E; [done|]. zbool. apply lookup_app_l. lia.
Qed.

Lemma at_app_r {A} (l k : list A) i : zlen l <= i → at_ (l ++ k) i = at_ k (i - zlen l).
Proof.
  intros. pose proof (zlen_nonneg l). unfold at_, zlen in *. zdec.
  rewrite lookup_app_r by lia. f_equal. lia.
Qed.

Lemma at_slice {A} (l : list A) a b i :
  0 <= a → 0 <= i < b - a → at_ (slice l a b) i = at_ l (a + i).
Proof.
  intros. unfold at_, slice. zdec. rewrite lookup_take_lt, lookup_drop by lia. f_equal. lia.
Qed.

Lemma zlen_slice {A} (l : list A) a b : 0 <= a <= b → b <= zlen l → zlen (slice l a b) = b - a.
Proof. intros. unfold zlen, slice in *. rewrite length_take, length_drop. lia. Qed.

(** Runs of indices. *)
Lemma seqZ_step a n : 0 <= n → seqZ a (Z.succ n) = a :: seqZ (a + 1) n.
Proof. intros. rewrite seqZ_cons by lia. do 2 f_equal; lia. Qed.

Lemma seqZ_split a b c : a <= b <= c → seqZ a (c - a) = seqZ a (b - a) ++ seqZ b (c - b).
Proof.
  intros. replace (c - a) with ((b - a) + (c - b)) by lia. rewrite seqZ_app by lia.
  do 2 f_equal. lia.
Qed.

Lemma seqZ_snoc m n : 0 <= n → seqZ m (n + 1) = seqZ m n ++ [m + n].
Proof. intros. rewrite seqZ_app by lia. f_equal. Qed.

Lemma zlen_fmap {A B} (f : A → B) l : zlen (f <$> l) = zlen l.
Proof. unfold zlen. by rewrite length_fmap. Qed.

Lemma at_fmap {A B} (f : A → B) l i : at_ (f <$> l) i = f <$> at_ l i.
Proof. unfold at_. case_match; [done|]. apply list_lookup_fmap. Qed.

Lemma slice_fmap {A B} (f : A → B) l a b : f <$> slice l a b = slice (f <$> l) a b.
Proof. unfold slice. by rewrite fmap_take, fmap_drop. Qed.

#[export] Hint Rewrite @zlen_fmap : arrays.

Lemma slice_all {A} (l : list A) : slice l 0 (zlen l) = l.
Proof. by rewrite <- (app_nil_r l) at 1; rewrite slice_0_app. Qed.

Lemma slice_empty {A} (l : list A) a : slice l a a = [].
Proof. unfold slice. by rewrite Z.sub_diag. Qed.

Lemma slice_cat {A} (l : list A) a b c :
  0 <= a <= b → b <= c → c <= zlen l → slice l a b ++ slice l b c = slice l a c.
Proof.
  intros Ha Hb Hc. apply at_ext. intros i Hi.
  pose proof (zlen_slice l a b ltac:(lia) ltac:(lia)) as Hl.
  destruct (decide (i < b - a)).
  - rewrite at_app_l, !at_slice by lia. done.
  - rewrite at_app_r by lia. rewrite Hl. destruct (decide (i < c - a)).
    + rewrite !at_slice by lia. f_equal. lia.
    + rewrite !at_ge; [done|rewrite zlen_slice by lia; lia..].
Qed.

Lemma slice_slice {A} (l : list A) a b c d :
  0 <= a → 0 <= c <= d → d <= b - a → b <= zlen l → slice (slice l a b) c d = slice l (a + c) (a + d).
Proof.
  intros. apply at_ext. intros i Hi. destruct (decide (i < d - c)).
  - rewrite !at_slice by lia. f_equal. lia.
  - rewrite !at_ge; [done|rewrite zlen_slice; [lia|lia|rewrite ?zlen_slice; lia]..].
Qed.

Lemma slice_from_slice_of {A} (l : list A) a b c :
  0 <= a → 0 <= c <= b - a → b <= zlen l → slice_from (slice l a b) c = slice l (a + c) b.
Proof.
  intros. unfold slice_from, slice. rewrite skipn_firstn_comm, drop_drop. f_equal; [lia|]. f_equal. lia.
Qed.

Lemma zlen_splice {A} (l : list A) off part :
  0 <= off → off + zlen part <= zlen l → zlen (splice l off part) = zlen l.
Proof.
  intros. unfold splice, zlen in *. rewrite !length_app, length_take, length_drop. lia.
Qed.

Lemma at_splice {A} (l : list A) off part i :
  0 <= off → off + zlen part <= zlen l → 0 <= i →
  at_ (splice l off part) i =
    if (off <=? i) && (i <? off + zlen part) then at_ part (i - off) else at_ l i.
Proof.
  intros. pose proof (zlen_nonneg part). assert (zlen (take (Z.to_nat off) l) = off) as Ht.
  { unfold zlen in *. rewrite length_take. lia. }
  unfold splice. destruct (decide (i < off)).
  - rewrite at_app_l by lia. zdec. unfold at_. zdec. apply lookup_take_lt. lia.
  - rewrite at_app_r, Ht by lia. destruct (decide (i < off + zlen part)).
    + rewrite at_app_l by lia. by zdec.
    + rewrite at_app_r by lia. zdec. unfold at_. zdec. rewrite lookup_drop. f_equal. lia.
Qed.

Lemma splice_nil {A} (l : list A) off : 0 <= off <= zlen l → splice l off [] = l.
Proof.
  intros. unfold splice, zlen. simpl. rewrite Z.add_0_r. apply take_drop.
Qed.

(** Writing two adjacent parts. *)
Lemma splice_adjacent {A} (l : list A) off p q :
  0 <= off → off + zlen p + zlen q <= zlen l →
  splice (splice l off p) (off + zlen p) q = splice l off (p ++ q).
Proof.
  intros. pose proof (zlen_nonneg p). pose proof (zlen_nonneg q). apply at_ext. intros i Hi.
  rewrite !at_splice; rewrite ?zlen_splice; rewrite ?zlen_app; try lia.
  destruct (decide (i < off)); [by zdec|]. destruct (decide (i < off + zlen p)).
  - zdec. by rewrite at_app_l by lia.
  - destruct (decide (i < off + zlen p + zlen q)); zdec; [|done].
    rewrite at_app_r by lia. f_equal. lia.
Qed.

(** A slice clear of the part written. *)
Lemma slice_splice_clear {A} (l : list A) off part a b :
  0 <= off → off + zlen part <= zlen l → 0 <= a <= b → b <= zlen l →
  b <= off ∨ off + zlen part <= a → slice (splice l off part) a b = slice l a b.
Proof.
  intros. apply at_ext. intros i Hi. destruct (decide (i < b - a)).
  - rewrite !at_slice, at_splice by lia. destruct (decide (a + i < off)); by zdec.
  - rewrite !at_ge; [done|rewrite zlen_slice; [lia|lia|rewrite ?zlen_splice; lia]..].
Qed.

(** The part written. *)
Lemma slice_splice_same {A} (l : list A) off part :
  0 <= off → off + zlen part <= zlen l → slice (splice l off part) off (off + zlen part) = part.
Proof.
  intros. pose proof (zlen_nonneg part). apply at_ext. intros i Hi. destruct (decide (i < zlen part)).
  - rewrite at_slice, at_splice by lia. zdec. f_equal. lia.
  - rewrite !at_ge; [done|lia|rewrite zlen_slice; [lia|lia|rewrite zlen_splice; lia]].
Qed.

Lemma splice_all {A} (l part : list A) : zlen part = zlen l → splice l 0 part = part.
Proof.
  intros. unfold splice, zlen in *. simpl. rewrite drop_ge by lia. by rewrite app_nil_r.
Qed.

Lemma at_take {A} (l : list A) n i : i < n → at_ (take (Z.to_nat n) l) i = at_ l i.
Proof. intros. unfold at_. destruct (i <? 0) eqn:E; zbool; [done|]. apply lookup_take_lt. lia. Qed.

Lemma zlen_take {A} (l : list A) n : 0 <= n <= zlen l → zlen (take (Z.to_nat n) l) = n.
Proof. intros. unfold zlen in *. rewrite length_take. lia. Qed.

Lemma splice_take {A} (l : list A) n off part :
  0 <= off → off + zlen part <= n → n <= zlen l →
  take (Z.to_nat n) (splice l off part) = splice (take (Z.to_nat n) l) off part.
Proof.
  intros. pose proof (zlen_nonneg part). pose proof (zlen_take l n ltac:(lia)) as Hn.
  apply at_ext. intros i Hi. destruct (decide (i < n)).
  - rewrite at_take, !at_splice, at_take by lia. done.
  - rewrite !at_ge; [done| |]; rewrite ?zlen_splice, ?zlen_take; rewrite ?zlen_splice; lia.
Qed.

Lemma slice_take {A} (l : list A) n a b :
  0 <= a <= b → b <= n → slice (take (Z.to_nat n) l) a b = slice l a b.
Proof.
  intros. unfold slice. rewrite skipn_firstn_comm, take_take. f_equal. lia.
Qed.

(** * Rows of one width *)

Section rows.
  Context {A : Type} (width : Z) (Hwidth : 0 < width).
  Implicit Types rows : list (list A).

Definition uniform rows : Prop := Forall (λ r, zlen r = width) rows.

Lemma uniform_at rows i r : uniform rows → at_ rows i = Some r → zlen r = width.
Proof.
  intros Hu Hr. unfold at_ in Hr. destruct (i <? 0); [done|]. by apply (Forall_lookup_1 _ _ _ _ Hu) in Hr.
Qed.

Lemma zlen_rows rows : uniform rows → zlen (mjoin rows) = zlen rows * width.
Proof.
  induction 1 as [|r rows Hr _ IH]; [done|]. change (mjoin (r :: rows)) with (r ++ mjoin rows).
  rewrite zlen_app, zlen_cons, IH, Hr. lia.
Qed.

Lemma at_rows rows i :
  uniform rows → 0 <= i → at_ (mjoin rows) i = at_ rows (i / width) ≫= λ r, at_ r (i mod width).
Proof using Hwidth.
  intros Hu. revert i. induction Hu as [|r rows Hr Hu IH]; intros i Hi.
  { cbn. rewrite !at_ge; [done|..]; change (zlen []) with 0; [|lia]. by apply Z.div_pos. }
  change (mjoin (r :: rows)) with (r ++ mjoin rows). destruct (decide (i < width)).
  - rewrite at_app_l, Z.div_small, Z.mod_small by lia. done.
  - rewrite at_app_r, Hr, IH by lia.
    replace (i / width) with (1 + (i - width) / width).
    2:{ replace i with (i - width + 1 * width) at 2 by lia. rewrite Z.div_add by lia. lia. }
    replace (i mod width) with ((i - width) mod width).
    2:{ replace i with (i - width + 1 * width) at 2 by lia. by rewrite Z.mod_add by lia. }
    f_equal. change (r :: rows) with ([r] ++ rows). rewrite at_app_r; change (zlen [r]) with 1.
    + f_equal. lia.
    + assert (0 <= (i - width) / width) by (apply Z.div_pos; lia). lia.
Qed.

(** Reading and writing inside one row. *)
Lemma slice_row rows i r a b :
  uniform rows → at_ rows i = Some r → 0 <= a <= b → b <= width →
  slice r a b = slice (mjoin rows) (i * width + a) (i * width + b).
Proof using Hwidth.
  intros Hu Hr Ha Hb. assert (0 <= i < zlen rows) as Hi by (apply at_is_Some; eauto).
  assert (zlen r = width) as Hl by (by apply (uniform_at rows i)).
  assert (i * width + b <= zlen (mjoin rows)) by (rewrite zlen_rows by done; nia).
  apply at_ext. intros j Hj. destruct (decide (j < b - a)).
  - rewrite !at_slice, at_rows by (done || nia).
    replace ((i * width + a + j) / width) with i.
    2:{ apply (Z.div_unique_pos _ _ _ (a + j)); lia. }
    replace ((i * width + a + j) mod width) with (a + j).
    2:{ apply (Z.mod_unique_pos _ _ i); lia. }
    by rewrite Hr.
  - rewrite !at_ge; [done|rewrite zlen_slice; nia..].
Qed.

Lemma splice_row rows i r off part :
  uniform rows → at_ rows i = Some r → 0 <= off → off + zlen part <= width →
  mjoin (<[Z.to_nat i := splice r off part]> rows) = splice (mjoin rows) (i * width + off) part.
Proof using Hwidth.
  intros Hu Hr Ho Hp. assert (0 <= i < zlen rows) as Hi by (apply at_is_Some; eauto).
  assert (zlen r = width) as Hl by (by apply (uniform_at rows i)).
  pose proof (zlen_rows _ Hu) as Hz. pose proof (zlen_nonneg part).
  assert (uniform (<[Z.to_nat i := splice r off part]> rows)) as Hu'.
  { apply Forall_insert; [done|]. rewrite zlen_splice; lia. }
  apply at_ext. intros j Hj. rewrite at_splice by nia. rewrite !at_rows by done.
  assert (0 <= j / width) by (apply Z.div_pos; lia).
  pose proof (Z.div_mod j width ltac:(lia)). pose proof (Z.mod_pos_bound j width ltac:(lia)).
  rewrite at_insert by lia. destruct (j / width =? i) eqn:E; zbool.
  - subst i. cbn [mbind option_bind]. rewrite at_splice, Hr by lia. cbn [mbind option_bind].
    destruct (decide (off <= j mod width)); [|by zdec].
    destruct (decide (j mod width < off + zlen part)); zdec; [|done]. f_equal. nia.
  - destruct (decide (j < i * width + off)); [by zdec|].
    assert (i * width + off + zlen part <= j) by nia. by zdec.
Qed.

End rows.
