(* ===== verification/Chunks.v ===== *)
(** Pack memory: src/packages/git/src/store/pack/chunks.ts, and the [FlatByteSource]
    of shared.ts.

    [Uint8Array]s are arrays in a heap, referred to by number, because the pool hands
    the same array out again after a release; the pool and the [ChunkedBytes] objects
    live beside them.  A world has one pool, as the code creates one for each ingest
    (ingest.ts). *)

From S2P Require Import Prelude Arrays.

Definition PACK_CHUNK_BYTES : Z := 64 * 1024.
Arguments PACK_CHUNK_BYTES : simpl never.

(** [Math.ceil(length / PACK_CHUNK_BYTES)], for [0 <= length]. *)
Definition chunk_count (length : Z) : Z := (length + (PACK_CHUNK_BYTES - 1)) / PACK_CHUNK_BYTES.

Definition chunkFootprint (length : Z) : outcome Z :=
  if negb (isSafeInteger length) || (length <? 0)
  then Throw (RangeError (js "invalid chunked byte length"))
  else
    let footprint := chunk_count length * PACK_CHUNK_BYTES in
    if negb (isSafeInteger footprint) then Throw (RangeError (js "chunked byte length is too large"))
    else Ok footprint.

(** [#free] is a stack, its top first. *)
Record ChunkPool := chunkPool {
  free : list nat;
  checkedOut : gset nat;
  allocatedBytes : Z;
  maxAllocatedBytes : Z;
}.

Record ChunkedBytes := chunkedBytes {
  length_ : Z;
  chunks_ : list nat;
  released : bool;
}.

Record world := World {
  arrays : gmap nat (list Z);
  next_array : nat;
  pool : ChunkPool;
  objects : gmap nat ChunkedBytes;
  next_object : nat;
}.

Notation M := (effect world).

(** ** The heap *)

Definition array (l : nat) (w : world) : list Z := default [] (arrays w !! l).

Definition put_array (l : nat) (b : list Z) : M unit :=
  modify (λ w, World (<[l := b]> (arrays w)) (next_array w) (pool w) (objects w) (next_object w)).

Definition put_pool (p : ChunkPool) : M unit :=
  modify (λ w, World (arrays w) (next_array w) p (objects w) (next_object w)).

Definition put_object (o : nat) (c : ChunkedBytes) : M unit :=
  modify (λ w, World (arrays w) (next_array w) (pool w) (<[o := c]> (objects w)) (next_object w)).

(** [new Uint8Array(PACK_CHUNK_BYTES)]. *)
Definition blank_chunk : list Z := replicate (Z.to_nat PACK_CHUNK_BYTES) 0.
Arguments blank_chunk : simpl never.

Definition new_array : M nat := λ w,
  (Ok (next_array w),
   World (<[next_array w := blank_chunk]> (arrays w)) (S (next_array w))
         (pool w) (objects w) (next_object w)).

(** [new ChunkedBytes(length, chunks, pool)]. *)
Definition new_object (length : Z) (chunks : list nat) : M nat := λ w,
  (Ok (next_object w),
   World (arrays w) (next_array w) (pool w)
         (<[next_object w := chunkedBytes length chunks false]> (objects w)) (S (next_object w))).

(** The object a reference denotes; a reference to no object is taken as released. *)
Definition object (o : nat) (w : world) : ChunkedBytes :=
  default (chunkedBytes 0 [] true) (objects w !! o).

(** [array.set(part, at)] on an array of the heap. *)
Definition set_array (l : nat) (part : list Z) (off : Z) : M unit :=
  b ← gets (array l); b ← lift (typed_set b part off); put_array l b.

(** ** ChunkPool *)

(** [new ChunkPool(maxAllocatedBytes)]. *)
Definition new_ChunkPool (maxAllocatedBytes : Z) : outcome ChunkPool :=
  if negb (isSafeInteger maxAllocatedBytes) || (maxAllocatedBytes <? 0)
  then Throw (RangeError (js "invalid chunk pool allocation limit"))
  else Ok (chunkPool [] ∅ 0 maxAllocatedBytes).

(** [get checkedOutBytes]. *)
Definition checkedOutBytes (p : ChunkPool) : Z := Z.of_nat (size (checkedOut p)) * PACK_CHUNK_BYTES.

Definition preflight (count : Z) : M unit :=
  if negb (isSafeInteger count) || (count <? 0)
  then raise (RangeError (js "invalid chunk allocation count"))
  else
    p ← gets pool;
    let needed := Z.max 0 (count - zlen (free p)) * PACK_CHUNK_BYTES in
    if negb (isSafeInteger needed) || (maxAllocatedBytes p - allocatedBytes p <? needed)
    then raise (RangeError (js "chunk pool allocation limit exceeded"))
    else mret tt.

(** [#allocate()]. *)
Definition pool_allocate : M nat :=
  chunk ← new_array;
  p ← gets pool;
  put_pool (chunkPool (free p) (checkedOut p) (allocatedBytes p + PACK_CHUNK_BYTES) (maxAllocatedBytes p));;
  mret chunk.

(** [this.#free.pop() ?? this.#allocate()]. *)
Definition pop_or_allocate : M nat :=
  p ← gets pool;
  match free p with
  | chunk :: rest =>
      put_pool (chunkPool rest (checkedOut p) (allocatedBytes p) (maxAllocatedBytes p));; mret chunk
  | [] => pool_allocate
  end.

Definition acquire : M nat :=
  preflight 1;;
  chunk ← pop_or_allocate;
  p ← gets pool;
  if decide (chunk ∈ checkedOut p) then raise (PlainError (js "chunk pool returned an owned chunk"))
  else
    put_pool (chunkPool (free p) ({[ chunk ]} ∪ checkedOut p) (allocatedBytes p) (maxAllocatedBytes p));;
    mret chunk.

Definition pool_release (chunk : nat) : M unit :=
  b ← gets (array chunk);
  p ← gets pool;
  if negb (zlen b =? PACK_CHUNK_BYTES) || bool_decide (chunk ∉ checkedOut p)
  then raise (PlainError (js "chunk is not owned by this pool"))
  else put_pool (chunkPool (chunk :: free p) (checkedOut p ∖ {[ chunk ]}) (allocatedBytes p) (maxAllocatedBytes p)).

Definition assertIdle : M unit :=
  p ← gets pool;
  if negb (Nat.eqb (size (checkedOut p)) 0) then raise (PlainError (js "chunk pool still has owned chunks"))
  else mret tt.

Definition dispose : M unit :=
  assertIdle;;
  p ← gets pool;
  put_pool (chunkPool [] (checkedOut p) 0 (maxAllocatedBytes p)).

(** ** ChunkedBytes *)

(** [for (const chunk of chunks) pool.release(chunk);] *)
Fixpoint release_all (chunks : list nat) : M unit :=
  match chunks with
  | [] => mret tt
  | chunk :: chunks => pool_release chunk;; release_all chunks
  end.

(** The loop of [allocate]: [count] times [chunks.push(pool.acquire())]; the chunks
    acquired so far are returned also when an [acquire] throws. *)
Fixpoint acquire_all (count : nat) (chunks : list nat) : effect world (list nat * option jserror) :=
  match count with
  | O => mret (chunks, None)
  | S count => λ w,
      match acquire w with
      | (Ok chunk, w) => acquire_all count (chunks ++ [chunk]) w
      | (Throw e, w) => (Ok (chunks, Some e), w)
      end
  end.

(** [ChunkedBytes.allocate]. *)
Definition allocate (length : Z) : M nat :=
  if negb (isSafeInteger length) || (length <? 0)
  then raise (RangeError (js "invalid chunked byte length"))
  else
    let count := chunk_count length in
    preflight count;;
    '(chunks, error) ← acquire_all (Z.to_nat count) [];
    match error with
    | None => new_object length chunks
    | Some error => release_all chunks;; raise error
    end.

Definition assertOwned (o : nat) : M unit :=
  c ← gets (object o);
  if released c then raise (PlainError (js "chunked bytes were released")) else mret tt.

Definition assertRange (o : nat) (offset length : Z) : M unit :=
  assertOwned o;;
  c ← gets (object o);
  if negb (isSafeInteger offset) || negb (isSafeInteger length) || (offset <? 0) || (length <? 0)
     || (length_ c - length <? offset)
  then raise (RangeError (js "chunked byte range is out of bounds"))
  else mret tt.

(** [#chunk(index)]. *)
Definition chunk_at (o : nat) (index : Z) : M nat :=
  assertOwned o;;
  c ← gets (object o);
  match at_ (chunks_ c) index with
  | None => raise (RangeError (js "chunk index is out of range"))
  | Some chunk => mret chunk
  end.

(** The loop of [write]; every iteration writes a byte at least, so as many iterations
    as there are bytes are enough. *)
Fixpoint write_loop (fuel : nat) (o : nat) (bs : list Z) (sourceOffset targetOffset : Z) : M unit :=
  match fuel with
  | O => mret tt
  | S fuel =>
      if sourceOffset <? zlen bs then
        chunk ← chunk_at o (targetOffset / PACK_CHUNK_BYTES);
        let inChunk := targetOffset mod PACK_CHUNK_BYTES in
        let length := Z.min (zlen bs - sourceOffset) (PACK_CHUNK_BYTES - inChunk) in
        set_array chunk (slice bs sourceOffset (sourceOffset + length)) inChunk;;
        write_loop fuel o bs (sourceOffset + length) (targetOffset + length)
      else mret tt
  end.

Definition write (o : nat) (offset : Z) (bs : list Z) : M unit :=
  assertRange o offset (zlen bs);;
  write_loop (length bs) o bs 0 offset.

(** The loop of [copyTo]. *)
Fixpoint copy_loop (fuel : nat) (src target : nat) (targetOffset sourceOffset length copied : Z) : M unit :=
  match fuel with
  | O => mret tt
  | S fuel =>
      if copied <? length then
        let sourceAt := sourceOffset + copied in
        let targetAt := targetOffset + copied in
        let sourceInChunk := sourceAt mod PACK_CHUNK_BYTES in
        let targetInChunk := targetAt mod PACK_CHUNK_BYTES in
        source ← chunk_at src (sourceAt / PACK_CHUNK_BYTES);
        targetChunk ← chunk_at target (targetAt / PACK_CHUNK_BYTES);
        let copyLength := Z.min (length - copied)
          (Z.min (PACK_CHUNK_BYTES - sourceInChunk) (PACK_CHUNK_BYTES - targetInChunk)) in
        b ← gets (array source);
        set_array targetChunk (slice b sourceInChunk (sourceInChunk + copyLength)) targetInChunk;;
        copy_loop fuel src target targetOffset sourceOffset length (copied + copyLength)
      else mret tt
  end.

Definition copyTo (src target : nat) (targetOffset sourceOffset length : Z) : M unit :=
  assertRange src sourceOffset length;;
  assertRange target targetOffset length;;
  copy_loop (Z.to_nat length) src target targetOffset sourceOffset length 0.

Definition byteAt (o : nat) (index : Z) : M Z :=
  assertRange o index 1;;
  chunk ← chunk_at o (index / PACK_CHUNK_BYTES);
  b ← gets (array chunk);
  match at_ b (index mod PACK_CHUNK_BYTES) with
  | Some byte => mret byte
  | None => raise (PlainError (js "undefined"))
  end.

(** The parts [chunks()] yields, read as they are yielded. *)
Fixpoint chunk_parts (w : world) (length : Z) (chunks : list nat) (offset : Z) : list (list Z) :=
  match chunks with
  | [] => []
  | chunk :: chunks =>
      let n := Z.min PACK_CHUNK_BYTES (length - offset) in
      slice (array chunk w) 0 n :: chunk_parts w length chunks (offset + n)
  end.

Definition chunks (o : nat) : M (list (list Z)) :=
  assertOwned o;;
  c ← gets (object o);
  gets (λ w, chunk_parts w (length_ c) (chunks_ c) 0).

(** The loop of [toUint8Array], over the same parts. *)
Fixpoint set_parts (result : list Z) (parts : list (list Z)) (offset : Z) : outcome (list Z) :=
  match parts with
  | [] => Ok result
  | part :: parts => result ← typed_set result part offset; set_parts result parts (offset + zlen part)
  end.

Definition toUint8Array (o : nat) : M (list Z) :=
  assertOwned o;;
  c ← gets (object o);
  parts ← gets (λ w, chunk_parts w (length_ c) (chunks_ c) 0);
  lift (set_parts (replicate (Z.to_nat (length_ c)) 0) parts 0).

Definition release (o : nat) : M unit :=
  c ← gets (object o);
  if released c then raise (PlainError (js "chunked bytes were already released"))
  else
    put_object o (chunkedBytes (length_ c) (chunks_ c) true);;
    release_all (chunks_ c);;
    put_object o (chunkedBytes (length_ c) [] true).

(** [ChunkedBytes.fromBytes]. *)
Definition fromBytes (bs : list Z) : M nat :=
  result ← allocate (zlen bs);
  try_catch (write result 0 bs;; mret result) (λ error, release result;; raise error).

(** * The abstract store *)

(** What the operations promise: objects hold byte arrays until they are released
    ([None]); a limit bounds the chunks of the live ones. *)
Notation store := (gmap nat (option (list Z))).

Inductive op : Type :=
| Allocate (length : Z)
| FromBytes (bs : list Z)
| Write (o : nat) (offset : Z) (bs : list Z)
| CopyTo (src target : nat) (targetOffset sourceOffset length : Z)
| ByteAt (o : nat) (index : Z)
| Chunks (o : nat)
| ToUint8Array (o : nat)
| Release (o : nat)
| AssertIdle
| Dispose.

Inductive result : Type :=
| RUnit
| RObject (o : nat)
| RByte (byte : Z)
| RBytes (bs : list Z).

Definition run_op (o : op) : M result :=
  match o with
  | Allocate length => o ← allocate length; mret (RObject o)
  | FromBytes bs => o ← fromBytes bs; mret (RObject o)
  | Write o offset bs => write o offset bs;; mret RUnit
  | CopyTo src target targetOffset sourceOffset length =>
      copyTo src target targetOffset sourceOffset length;; mret RUnit
  | ByteAt o index => byte ← byteAt o index; mret (RByte byte)
  | Chunks o => parts ← chunks o; mret (RBytes (mjoin parts))
  | ToUint8Array o => bs ← toUint8Array o; mret (RBytes bs)
  | Release o => release o;; mret RUnit
  | AssertIdle => assertIdle;; mret RUnit
  | Dispose => dispose;; mret RUnit
  end.

(** A client that catches every exception. *)
Fixpoint run_ops (ops : list op) (w : world) : list (outcome result) * world :=
  match ops with
  | [] => ([], w)
  | o :: ops => let (r, w) := run_op o w in let (rs, w) := run_ops ops w in (r :: rs, w)
  end.

(** The chunks the live objects take. *)
Definition item_chunks (item : option (list Z)) : Z :=
  match item with Some bs => chunk_count (zlen bs) | None => 0 end.
Definition store_chunks (a : store) : Z := foldr Z.add 0 ((λ p, item_chunks p.2) <$> map_to_list a).

Definition in_range (size offset length : Z) : Prop :=
  0 <= offset ∧ 0 <= length ∧ offset + length <= size.

Definition live (a : store) (o : nat) : option (list Z) := mjoin (a !! o).

Definition bad_length (n : Z) : Prop := n < 0 ∨ MAX_SAFE_INTEGER < n.

(** A new object of [n] bytes, for which [P] holds. *)
Definition spec_allocate (limit : Z) (a : store) (n : Z) (P : list Z → Prop)
    (r : outcome result) (a' : store) : Prop :=
  (bad_length n ∧ r = Throw (RangeError (js "invalid chunked byte length")) ∧ a' = a) ∨
  (¬ bad_length n ∧ limit < (store_chunks a + chunk_count n) * PACK_CHUNK_BYTES ∧
   r = Throw (RangeError (js "chunk pool allocation limit exceeded")) ∧ a' = a) ∨
  (¬ bad_length n ∧ (store_chunks a + chunk_count n) * PACK_CHUNK_BYTES <= limit ∧
   ∃ o bs, a !! o = None ∧ zlen bs = n ∧ P bs ∧ r = Ok (RObject o) ∧ a' = <[o := Some bs]> a).

(** An operation on the live object [o]. *)
Definition on_live (a : store) (o : nat) (error : list Z) (r : outcome result) (a' : store)
    (P : list Z → Prop) : Prop :=
  match live a o with
  | None => r = Throw (PlainError error) ∧ a' = a
  | Some bs => P bs
  end.

Definition RELEASED : list Z := js "chunked bytes were released".

(** The range [offset, length) of [bs], and what happens within it. *)
Definition ranged (a : store) (bs : list Z) (offset length : Z) (r : outcome result) (a' : store)
    (P : Prop) : Prop :=
  if decide (in_range (zlen bs) offset length) then P
  else r = Throw (RangeError (js "chunked byte range is out of bounds")) ∧ a' = a.

Definition spec_step (limit : Z) (a : store) (o : op) (r : outcome result) (a' : store) : Prop :=
  match o with
  | Allocate n => spec_allocate limit a n (λ _, True) r a'
  | FromBytes bs => spec_allocate limit a (zlen bs) (λ bs', bs' = bs) r a'
  | Write o offset bs =>
      on_live a o RELEASED r a' (λ old, ranged a old offset (zlen bs) r a'
        (r = Ok RUnit ∧ a' = <[o := Some (splice old offset bs)]> a))
  | CopyTo src target targetOffset sourceOffset n =>
      on_live a src RELEASED r a' (λ from, ranged a from sourceOffset n r a'
        (on_live a target RELEASED r a' (λ old, ranged a old targetOffset n r a'
          (∃ new, r = Ok RUnit ∧ a' = <[target := Some new]> a ∧ zlen new = zlen old ∧
             (src ≠ target ∨ targetOffset <= sourceOffset ∨ sourceOffset + n <= targetOffset →
              new = splice old targetOffset (slice from sourceOffset (sourceOffset + n)))))))
  | ByteAt o index =>
      on_live a o RELEASED r a' (λ bs, ranged a bs index 1 r a'
        (∃ b, at_ bs index = Some b ∧ r = Ok (RByte b) ∧ a' = a))
  | Chunks o | ToUint8Array o => on_live a o RELEASED r a' (λ bs, r = Ok (RBytes bs) ∧ a' = a)
  | Release o =>
      on_live a o (js "chunked bytes were already released") r a'
        (λ _, r = Ok RUnit ∧ a' = <[o := None]> a)
  | AssertIdle | Dispose =>
      a' = a ∧ r = (if decide (store_chunks a = 0) then Ok RUnit
                    else Throw (PlainError (js "chunk pool still has owned chunks")))
  end.

Inductive spec_run (limit : Z) : store → list op → list (outcome result) → store → Prop :=
| spec_done a : spec_run limit a [] [] a
| spec_more a o r a' ops rs a'' :
    spec_step limit a o r a' → spec_run limit a' ops rs a'' →
    spec_run limit a (o :: ops) (r :: rs) a''.

(** * The representation *)

Implicit Types (w : world) (own : list nat) (l o : nat).

(** The chunks the objects hold. *)
Definition owned w : list nat := mjoin ((λ p, chunks_ p.2) <$> map_to_list (objects w)).

(** The pool is consistent when the chunks [own] are out. *)
Record pool_wf w own : Prop := {
  wf_nodup : NoDup (free (pool w) ++ own);
  wf_out : checkedOut (pool w) = list_to_set own;
  wf_arrays : ∀ l, l ∈ free (pool w) ++ own → zlen (array l w) = PACK_CHUNK_BYTES;
  wf_fresh : ∀ l, (next_array w <= l)%nat → arrays w !! l = None;
  wf_bytes : allocatedBytes (pool w) = zlen (free (pool w) ++ own) * PACK_CHUNK_BYTES;
  wf_limit : allocatedBytes (pool w) <= maxAllocatedBytes (pool w);
  wf_max : maxAllocatedBytes (pool w) <= MAX_SAFE_INTEGER;
}.

Definition object_wf (c : ChunkedBytes) : Prop :=
  if released c then chunks_ c = []
  else 0 <= length_ c <= MAX_SAFE_INTEGER ∧ zlen (chunks_ c) = chunk_count (length_ c).

Record wf w : Prop := {
  wf_pool : pool_wf w (owned w);
  wf_objects : ∀ o c, objects w !! o = Some c → object_wf c;
  wf_next : ∀ o, (next_object w <= o)%nat → objects w !! o = None;
}.

Definition rows w (c : ChunkedBytes) : list (list Z) := (λ l, array l w) <$> chunks_ c.
Definition content w (c : ChunkedBytes) : list Z := take (Z.to_nat (length_ c)) (mjoin (rows w c)).
Definition item w (c : ChunkedBytes) : option (list Z) := if released c then None else Some (content w c).
Definition abs w : store := item w <$> objects w.

Lemma chunk_bytes_pos : 0 < PACK_CHUNK_BYTES.
Proof. unfold PACK_CHUNK_BYTES. lia. Qed.

Lemma chunk_count_bounds n : 0 <= n → 0 <= chunk_count n ∧
  n <= chunk_count n * PACK_CHUNK_BYTES < n + PACK_CHUNK_BYTES.
Proof. intros. unfold chunk_count, PACK_CHUNK_BYTES. zdm. Qed.

(** The live objects own disjoint sets of chunks. *)
Lemma owned_split w o c :
  objects w !! o = Some c →
  owned w ≡ₚ chunks_ c ++ mjoin ((λ p, chunks_ p.2) <$> map_to_list (delete o (objects w))).
Proof.
  intros H. unfold owned. rewrite <- (insert_delete_id (objects w) o c) at 1 by done.
  rewrite map_to_list_insert by apply lookup_delete_eq. done.
Qed.

Lemma owned_insert w o c arrs na p no :
  objects w !! o = None →
  owned (World arrs na p (<[o := c]> (objects w)) no) ≡ₚ chunks_ c ++ owned w.
Proof. intros H. unfold owned. simpl. rewrite map_to_list_insert by done. done. Qed.

Lemma owned_elem w o c l : objects w !! o = Some c → l ∈ chunks_ c → l ∈ owned w.
Proof. intros H Hl. rewrite (owned_split w o c H), elem_of_app. by left. Qed.

Lemma rows_uniform w o c : wf w → objects w !! o = Some c → uniform PACK_CHUNK_BYTES (rows w c).
Proof.
  intros Hw H. apply Forall_fmap, Forall_forall. intros l Hl. simpl.
  apply (wf_arrays _ _ (wf_pool w Hw)), elem_of_app. right. by apply (owned_elem w o c).
Qed.

(** The live object [o] has the content [bs]. *)
Record holds w o (c : ChunkedBytes) (bs : list Z) : Prop := {
  h_object : objects w !! o = Some c;
  h_released : released c = false;
  h_content : bs = content w c;
  h_length : zlen bs = length_ c;
  h_safe : 0 <= length_ c <= MAX_SAFE_INTEGER;
  h_chunks : zlen (chunks_ c) = chunk_count (length_ c);
  h_uniform : uniform PACK_CHUNK_BYTES (rows w c);
  h_total : length_ c <= zlen (mjoin (rows w c));
}.

Lemma holds_intro w o c :
  wf w → objects w !! o = Some c → released c = false → holds w o c (content w c).
Proof.
  intros Hw H Hr. pose proof (wf_objects w Hw o c H) as Hc. unfold object_wf in Hc. rewrite Hr in Hc.
  destruct Hc as [Hl Hn]. pose proof (rows_uniform w o c Hw H) as Hu.
  assert (length_ c <= zlen (mjoin (rows w c))) as Ht.
  { rewrite (zlen_rows PACK_CHUNK_BYTES) by done. unfold rows. rewrite zlen_fmap, Hn.
    apply chunk_count_bounds. lia. }
  constructor; try done. unfold content. rewrite zlen_take; lia.
Qed.

Lemma abs_holds w o bs : wf w → live (abs w) o = Some bs ↔ ∃ c, holds w o c bs.
Proof.
  intros Hw. unfold live, abs. rewrite lookup_fmap. split.
  - intros H. destruct (objects w !! o) as [c|] eqn:E; [|done]. simpl in H. unfold item in H.
    destruct (released c) eqn:Er; [done|]. exists c. injection H as <-. by apply holds_intro.
  - intros [c Hh]. rewrite (h_object _ _ _ _ Hh). simpl. unfold item. rewrite (h_released _ _ _ _ Hh).
    by rewrite (h_content _ _ _ _ Hh).
Qed.

Lemma abs_dead w o : live (abs w) o = None ↔ released (object o w) = true.
Proof.
  unfold live, abs, object, item. rewrite lookup_fmap.
  destruct (objects w !! o) as [c|]; simpl; [|done]. by destruct (released c).
Qed.

Lemma owned_zlen w : wf w → zlen (owned w) = store_chunks (abs w).
Proof.
  intros Hw. unfold owned, store_chunks, abs. rewrite map_to_list_fmap, <- list_fmap_compose.
  assert (∀ p, p ∈ map_to_list (objects w) → objects w !! p.1 = Some p.2) as Hp.
  { intros [o c]. apply elem_of_map_to_list. }
  induction (map_to_list (objects w)) as [|[o c] m IH]; [done|].
  change (mjoin ((λ p, chunks_ p.2) <$> (o, c) :: m)) with (chunks_ c ++ mjoin ((λ p : nat * ChunkedBytes, chunks_ p.2) <$> m)).
  rewrite zlen_app, IH by (intros; apply Hp; by right). simpl. f_equal.
  specialize (Hp (o, c) ltac:(left)). simpl in Hp. unfold item. destruct (released c) eqn:Er; simpl.
  - pose proof (wf_objects w Hw o c Hp) as Hc. unfold object_wf in Hc. rewrite Er in Hc. by rewrite Hc.
  - pose proof (holds_intro w o c Hw Hp Er) as Hh. by rewrite (h_length _ _ _ _ Hh), (h_chunks _ _ _ _ Hh).
Qed.

(** ** Equal where it matters *)

Lemma pool_wf_perm w own own' : own ≡ₚ own' → pool_wf w own → pool_wf w own'.
Proof.
  intros Hp [? Ho ? ? Hb ? ?]. constructor; try done.
  - by rewrite <- Hp.
  - rewrite Ho. apply set_eq. intros x. rewrite !elem_of_list_to_set. by rewrite Hp.
  - intros l. rewrite <- Hp. auto.
  - rewrite Hb. unfold zlen. by rewrite Hp.
Qed.

(** [w'] differs from [w] in arrays that no object of [w] holds. *)
Record same_objects w w' : Prop := {
  same_map : objects w' = objects w;
  same_next : next_object w' = next_object w;
  same_arrays : ∀ l, l ∈ owned w → array l w' = array l w;
  same_max : maxAllocatedBytes (pool w') = maxAllocatedBytes (pool w);
}.

Lemma same_owned w w' : same_objects w w' → owned w' = owned w.
Proof. intros [H _ _ _]. unfold owned. by rewrite H. Qed.

Lemma same_refl w : same_objects w w.
Proof. by constructor. Qed.

Lemma same_trans w1 w2 w3 : same_objects w1 w2 → same_objects w2 w3 → same_objects w1 w3.
Proof.
  intros H12 H23. pose proof (same_owned _ _ H12) as Ho. destruct H12, H23.
  constructor; [congruence..| |congruence]. intros l Hl. rewrite same_arrays1 by by rewrite Ho. auto.
Qed.

Lemma content_same w w' c :
  (∀ l, l ∈ chunks_ c → array l w' = array l w) → content w' c = content w c.
Proof.
  intros H. unfold content, rows. do 2 f_equal. apply list_fmap_ext. intros i l Hl%list_elem_of_lookup_2. auto.
Qed.

Lemma same_abs w w' : same_objects w w' → abs w' = abs w.
Proof.
  intros [Hm _ Ha _]. unfold abs. rewrite Hm. apply map_fmap_ext. intros o c H. unfold item.
  destruct (released c); [done|]. f_equal. apply content_same. intros l Hl. apply Ha. by apply (owned_elem w o c).
Qed.

Lemma same_wf w w' : wf w → same_objects w w' → pool_wf w' (owned w) → wf w'.
Proof.
  intros [Hp Ho Hn] Hs Hp'. constructor.
  - by rewrite (same_owned w w').
  - intros o c. rewrite (same_map _ _ Hs). apply Ho.
  - intros o. rewrite (same_map _ _ Hs), (same_next _ _ Hs). apply Hn.
Qed.

(** ** The pool *)

Lemma preflight_spec w own count :
  pool_wf w own → 0 <= count <= MAX_SAFE_INTEGER →
  preflight count w =
    (if maxAllocatedBytes (pool w) <? (zlen own + count) * PACK_CHUNK_BYTES
     then Throw (RangeError (js "chunk pool allocation limit exceeded")) else Ok tt, w).
Proof.
  intros Hw Hc. destruct Hw as [_ _ _ _ Hb Hl Hm]. rewrite zlen_app in Hb.
  pose proof chunk_bytes_pos. pose proof (zlen_nonneg (free (pool w))). pose proof (zlen_nonneg own).
  unfold preflight. rewrite safe_int by lia. cbn [negb orb]. rewrite (proj2 (Z.ltb_ge _ _)) by lia.
  run_first.
  set (needed := Z.max 0 (count - zlen (free (pool w))) * PACK_CHUNK_BYTES).
  assert (0 <= needed) by (unfold needed; nia).
  destruct (maxAllocatedBytes (pool w) <? (zlen own + count) * PACK_CHUNK_BYTES) eqn:E; zbool.
  - assert (maxAllocatedBytes (pool w) - allocatedBytes (pool w) < needed) by (unfold needed; nia).
    rewrite (proj2 (Z.ltb_lt _ _)), orb_true_r by lia. done.
  - assert (needed <= maxAllocatedBytes (pool w) - allocatedBytes (pool w)) by (unfold needed; nia).
    rewrite safe_int, (proj2 (Z.ltb_ge _ _)) by (unfold MAX_SAFE_INTEGER in *; nia). done.
Qed.

Lemma array_put b arrs na p os no l l' :
  array l' (World (<[l := b]> arrs) na p os no) = if decide (l = l') then b else default [] (arrs !! l').
Proof.
  unfold array. simpl. case_decide; [subst; by rewrite lookup_insert_eq|by rewrite lookup_insert_ne].
Qed.

(** [pop_or_allocate] gives a chunk that nobody holds. *)
Lemma pop_spec w own :
  pool_wf w own → (zlen own + 1) * PACK_CHUNK_BYTES <= maxAllocatedBytes (pool w) →
  ∃ l w', pop_or_allocate w = (Ok l, w') ∧ (l ∉ own) ∧ objects w' = objects w ∧ next_object w' = next_object w ∧
    (∀ l', l' ∈ own → array l' w' = array l' w) ∧ maxAllocatedBytes (pool w') = maxAllocatedBytes (pool w) ∧
    checkedOut (pool w') = checkedOut (pool w) ∧ NoDup (free (pool w') ++ own ++ [l]) ∧
    (∀ l', l' ∈ free (pool w') ++ own ++ [l] → zlen (array l' w') = PACK_CHUNK_BYTES) ∧
    (∀ l', (next_array w' <= l')%nat → arrays w' !! l' = None) ∧
    allocatedBytes (pool w') = (zlen (free (pool w') ++ own ++ [l])) * PACK_CHUNK_BYTES ∧
    allocatedBytes (pool w') <= maxAllocatedBytes (pool w').
Proof.
  intros [Hnd Ho Ha Hf Hb Hl Hm] Hlim. unfold pop_or_allocate. run_first.
  destruct w as [arrs na [fr out al mx] os no]. simpl in *. destruct fr as [|l rest].
  - exists na. eexists. split; [reflexivity|]. simpl in *.
    assert (na ∉ own) as Hna.
    { intros H. specialize (Ha na H). unfold array in Ha. simpl in Ha. rewrite Hf in Ha by lia.
      pose proof chunk_bytes_pos. change (zlen (default [] None)) with 0 in Ha. lia. }
    split_and!; try done.
    + intros l' H. rewrite array_put. case_decide; [congruence|done].
    + rewrite NoDup_app. split_and!; [done|set_solver|apply NoDup_singleton].
    + intros l' H. rewrite array_put. case_decide.
      * unfold blank_chunk. apply zlen_replicate. pose proof chunk_bytes_pos. lia.
      * rewrite elem_of_app, list_elem_of_singleton in H. apply Ha. naive_solver.
    + intros l' H. rewrite lookup_insert_ne by lia. apply Hf. lia.
    + rewrite zlen_app, Hb. change (zlen [na]) with 1. lia.
    + lia.
  - exists l. eexists. split; [reflexivity|]. simpl in *.
    apply NoDup_cons in Hnd as [Hni Hnd].
    assert (l :: rest ++ own ≡ₚ rest ++ own ++ [l]) as Hp by (by rewrite app_assoc, <- Permutation_cons_append).
    split_and!; try done; [set_solver|..].
    + rewrite <- Hp. by constructor.
    + intros l' H. rewrite <- Hp in H. by apply Ha.
    + rewrite Hb. unfold zlen. by rewrite Hp.
Qed.

Lemma acquire_spec w own :
  pool_wf w own → (zlen own + 1) * PACK_CHUNK_BYTES <= maxAllocatedBytes (pool w) →
  ∃ l w', acquire w = (Ok l, w') ∧ pool_wf w' (own ++ [l]) ∧
    objects w' = objects w ∧ next_object w' = next_object w ∧
    (∀ l', l' ∈ own → array l' w' = array l' w) ∧
    maxAllocatedBytes (pool w') = maxAllocatedBytes (pool w).
Proof.
  intros Hw Hlim. destruct (pop_spec w own Hw Hlim) as (l & w' & Hpop & Hni & Hos & Hno & Ha & Hm & Hc & Hrest).
  unfold acquire. rewrite (bind_ok _ _ w tt w).
  2:{ rewrite (preflight_spec w own) by (done || unfold MAX_SAFE_INTEGER; lia). by rewrite (proj2 (Z.ltb_ge _ _)). }
  run_by Hpop. run_first. rewrite Hc, (wf_out _ _ Hw).
  rewrite decide_False by by rewrite elem_of_list_to_set.
  eexists _, _. split; [reflexivity|]. destruct Hrest as (Hnd & Hz & Hf & Hb & Hl). simpl.
  split_and!; try done. constructor; simpl; try done.
  - rewrite list_to_set_app_L. simpl. set_solver.
  - rewrite Hm. apply (wf_max _ _ Hw).
Qed.

Lemma acquire_all_spec w own acc count :
  pool_wf w (own ++ acc) → (zlen own + zlen acc + Z.of_nat count) * PACK_CHUNK_BYTES <= maxAllocatedBytes (pool w) →
  ∃ ls w', acquire_all count acc w = (Ok (ls, None), w') ∧ pool_wf w' (own ++ ls) ∧
    zlen ls = zlen acc + Z.of_nat count ∧
    objects w' = objects w ∧ next_object w' = next_object w ∧
    (∀ l, l ∈ own → array l w' = array l w) ∧ maxAllocatedBytes (pool w') = maxAllocatedBytes (pool w).
Proof.
  revert w acc. induction count as [|count IH]; intros w acc Hw Hlim; cbn [acquire_all].
  { exists acc, w. split_and!; [done..|lia|done|done|done|done]. }
  pose proof chunk_bytes_pos.
  destruct (acquire_spec w _ Hw) as (l & w1 & -> & Hw1 & Ho1 & Hn1 & Ha1 & Hm1); [rewrite zlen_app; nia|].
  rewrite <- app_assoc in Hw1.
  destruct (IH w1 (acc ++ [l]) Hw1) as (ls & w2 & -> & Hw2 & Hz & Ho2 & Hn2 & Ha2 & Hm2).
  { rewrite Hm1, zlen_app. change (zlen [l]) with 1. nia. }
  exists ls, w2. split_and!; [done|done| |congruence|congruence| |congruence].
  - rewrite Hz, zlen_app. change (zlen [l]) with 1. lia.
  - intros l' Hl'. rewrite Ha2 by done. apply Ha1. set_solver.
Qed.

Lemma pool_release_spec w own l :
  pool_wf w (l :: own) → ∃ w', pool_release l w = (Ok tt, w') ∧ pool_wf w' own ∧
    arrays w' = arrays w ∧ objects w' = objects w ∧ next_object w' = next_object w ∧
    maxAllocatedBytes (pool w') = maxAllocatedBytes (pool w).
Proof.
  intros [Hnd Ho Ha Hf Hb Hl Hm]. unfold pool_release. run_first.
  rewrite (Ha l) by set_solver. rewrite Z.eqb_refl. cbn [negb orb].
  rewrite bool_decide_eq_false_2 by (rewrite Ho; set_solver).
  eexists. split; [reflexivity|]. simpl. split_and!; try done.
  assert (free (pool w) ++ l :: own ≡ₚ l :: free (pool w) ++ own) as Hp by by rewrite Permutation_middle.
  pose proof Hnd as Hnd'. rewrite Hp in Hnd'. apply NoDup_cons in Hnd' as [Hni _].
  constructor; simpl; try done.
  - by rewrite <- Hp.
  - rewrite Ho. simpl. set_solver.
  - intros l' H. apply Ha. by rewrite Hp.
  - rewrite Hb. unfold zlen. by rewrite Hp.
Qed.

Lemma release_all_spec w own ls :
  pool_wf w (ls ++ own) → ∃ w', release_all ls w = (Ok tt, w') ∧ pool_wf w' own ∧
    arrays w' = arrays w ∧ objects w' = objects w ∧ next_object w' = next_object w ∧
    maxAllocatedBytes (pool w') = maxAllocatedBytes (pool w).
Proof.
  revert w. induction ls as [|l ls IH]; intros w Hw; [by exists w|]. cbn [release_all].
  destruct (pool_release_spec w (ls ++ own) l Hw) as (w1 & H1 & Hw1 & Ha1 & Ho1 & Hn1 & Hm1).
  run_by H1. destruct (IH w1 Hw1) as (w2 & H2 & Hw2 & Ha2 & Ho2 & Hn2 & Hm2).
  exists w2. split_and!; [done|done|congruence..].
Qed.

(** ** Objects *)

Lemma object_holds w o c bs : holds w o c bs → object o w = c.
Proof. intros H. unfold object. by rewrite (h_object _ _ _ _ H). Qed.

Lemma assertOwned_live w o c bs : holds w o c bs → assertOwned o w = (Ok tt, w).
Proof.
  intros H. unfold assertOwned. run_first. by rewrite (object_holds _ _ _ _ H), (h_released _ _ _ _ H).
Qed.

Lemma assertOwned_dead w o :
  released (object o w) = true → assertOwned o w = (Throw (PlainError RELEASED), w).
Proof. intros H. unfold assertOwned. run_first. by rewrite H. Qed.

#[export] Instance in_range_dec size offset length : Decision (in_range size offset length).
Proof. unfold in_range. apply _. Defined.

Lemma assertRange_live w o c bs offset length :
  holds w o c bs →
  assertRange o offset length w =
    (if decide (in_range (zlen bs) offset length) then Ok tt
     else Throw (RangeError (js "chunked byte range is out of bounds")), w).
Proof.
  intros H. unfold assertRange. rewrite (bind_ok _ _ _ _ _ (assertOwned_live _ _ _ _ H)). run_first.
  rewrite (object_holds _ _ _ _ H), <- (h_length _ _ _ _ H). pose proof (h_safe _ _ _ _ H) as Hs.
  rewrite <- (h_length _ _ _ _ H) in Hs. unfold in_range. case_decide as Hd.
  - rewrite !safe_int by lia. cbn [negb orb]. by zdec.
  - destruct (_ || _) eqn:E; [done|]. rewrite !orb_false_iff, !negb_false_iff in E.
    destruct E as [[[[_ _] E1] E2] E3]. zbool. lia.
Qed.

(** The chunk of the position [t], and what it holds there. *)
Lemma chunk_at_live w o c bs t :
  holds w o c bs → 0 <= t < zlen bs →
  ∃ chunk, chunk_at o (t / PACK_CHUNK_BYTES) w = (Ok chunk, w) ∧
    at_ (chunks_ c) (t / PACK_CHUNK_BYTES) = Some chunk ∧
    at_ (rows w c) (t / PACK_CHUNK_BYTES) = Some (array chunk w).
Proof.
  intros H Ht. pose proof chunk_bytes_pos.
  assert (0 <= t / PACK_CHUNK_BYTES < zlen (chunks_ c)) as Hi.
  { rewrite (h_chunks _ _ _ _ H). rewrite (h_length _ _ _ _ H) in Ht.
    pose proof (chunk_count_bounds (length_ c) ltac:(lia)) as [_ Hb].
    split; [apply Z.div_pos; lia|]. apply Z.div_lt_upper_bound; lia. }
  destruct (proj2 (at_is_Some _ _) Hi) as [chunk Hc]. exists chunk.
  unfold chunk_at. rewrite (bind_ok _ _ _ _ _ (assertOwned_live _ _ _ _ H)). run_first.
  rewrite (object_holds _ _ _ _ H), Hc. split_and!; [done..|].
  unfold rows. unfold at_ in Hc |- *. destruct (_ <? _); [done|]. rewrite list_lookup_fmap, Hc. done.
Qed.

Lemma div_mod_chunk t : t / PACK_CHUNK_BYTES * PACK_CHUNK_BYTES + t mod PACK_CHUNK_BYTES = t.
Proof. pose proof chunk_bytes_pos. pose proof (Z.div_mod t PACK_CHUNK_BYTES ltac:(lia)). lia. Qed.

Lemma read_piece w o c bs t n :
  holds w o c bs → 0 <= t → 0 < n → t + n <= zlen bs → t mod PACK_CHUNK_BYTES + n <= PACK_CHUNK_BYTES →
  ∃ chunk, chunk_at o (t / PACK_CHUNK_BYTES) w = (Ok chunk, w) ∧
    slice (array chunk w) (t mod PACK_CHUNK_BYTES) (t mod PACK_CHUNK_BYTES + n) = slice bs t (t + n).
Proof.
  intros H Ht Hn Hb Hp. pose proof chunk_bytes_pos.
  destruct (chunk_at_live w o c bs t H ltac:(lia)) as (chunk & Hc & _ & Hr). exists chunk. split; [done|].
  pose proof (Z.mod_pos_bound t PACK_CHUNK_BYTES ltac:(lia)).
  rewrite (slice_row PACK_CHUNK_BYTES ltac:(lia) (rows w c) (t / PACK_CHUNK_BYTES)); try done; try lia.
  2:{ apply (h_uniform _ _ _ _ H). }
  rewrite Z.add_assoc, div_mod_chunk. rewrite (h_content _ _ _ _ H). unfold content.
  rewrite slice_take; [done|lia|]. rewrite <- (h_length _ _ _ _ H). lia.
Qed.

Lemma array_put_world l b w l' :
  array l' (snd (put_array l b w)) = if decide (l = l') then b else array l' w.
Proof. apply array_put. Qed.

Lemma insert_fmap_array w l b (ls : list nat) i :
  NoDup ls → ls !! i = Some l →
  (λ l', array l' (snd (put_array l b w))) <$> ls = <[i := b]> ((λ l', array l' w) <$> ls).
Proof.
  intros Hnd Hi. apply list_eq. intros j. rewrite list_lookup_fmap. destruct (decide (j = i)) as [->|Hne].
  - rewrite Hi, list_lookup_insert_eq by (rewrite length_fmap; by eapply lookup_lt_Some).
    cbn [fmap option_fmap option_map]. by rewrite array_put_world, decide_True.
  - rewrite list_lookup_insert_ne, list_lookup_fmap by done. destruct (ls !! j) as [l'|] eqn:Hj; [|done].
    cbn [fmap option_fmap option_map]. rewrite array_put_world, decide_False; [done|]. intros ->.
    apply Hne. by eapply NoDup_lookup.
Qed.

(** Writing an array of the heap that [o] holds keeps the pool consistent. *)
Lemma put_array_wf w l b :
  wf w → l ∈ owned w → zlen b = PACK_CHUNK_BYTES → wf (snd (put_array l b w)).
Proof.
  intros [[Hnd Ho Ha Hf Hb Hl Hm] Hos Hn] Hlo Hz. constructor; [|done|done].
  constructor; try done; simpl.
  - intros l' Hl'. unfold array. simpl. destruct (decide (l = l')) as [->|].
    + by rewrite lookup_insert_eq.
    + rewrite lookup_insert_ne by done. by apply Ha.
  - intros l' Hl'. rewrite lookup_insert_ne; [by apply Hf|]. intros <-.
    specialize (Ha l ltac:(set_solver)). unfold array in Ha. rewrite Hf in Ha by done.
    pose proof chunk_bytes_pos. change (zlen (default [] None)) with 0 in Ha. lia.
Qed.

Lemma owned_nodup w : wf w → NoDup (owned w).
Proof. intros Hw. pose proof (wf_nodup _ _ (wf_pool w Hw)) as H. by apply NoDup_app in H as (_ & _ & H). Qed.

Lemma chunks_nodup w o c : wf w → objects w !! o = Some c → NoDup (chunks_ c).
Proof.
  intros Hw H. pose proof (owned_nodup w Hw) as Hn. rewrite (owned_split w o c H) in Hn.
  by apply NoDup_app in Hn as (Hn & _).
Qed.

Lemma chunks_disjoint w o o' c c' l :
  wf w → objects w !! o = Some c → objects w !! o' = Some c' → o ≠ o' → l ∈ chunks_ c → l ∉ chunks_ c'.
Proof.
  intros Hw H H' Hne Hl Hl'. pose proof (owned_nodup w Hw) as Hn. rewrite (owned_split w o c H) in Hn.
  apply NoDup_app in Hn as (_ & Hd & _). apply (Hd l Hl).
  apply list_elem_of_join. exists (chunks_ c'). split; [done|].
  apply list_elem_of_fmap. exists (o', c'). split; [done|]. apply elem_of_map_to_list. by rewrite lookup_delete_ne.
Qed.

Lemma put_array_abs w o c bs l i b t part :
  wf w → holds w o c bs → at_ (chunks_ c) i = Some l → at_ (rows w c) i = Some (array l w) →
  b = splice (array l w) t part → 0 <= t → t + zlen part <= PACK_CHUNK_BYTES →
  i * PACK_CHUNK_BYTES + t + zlen part <= zlen bs →
  abs (snd (put_array l b w)) = <[o := Some (splice bs (i * PACK_CHUNK_BYTES + t) part)]> (abs w).
Proof.
  intros Hw H Hi Hr -> Ht Hp Hz. pose proof chunk_bytes_pos. set (w' := snd _).
  assert (0 <= i < zlen (chunks_ c)) as Hb by (apply at_is_Some; eauto).
  assert (content w' c = splice bs (i * PACK_CHUNK_BYTES + t) part) as Hc.
  { rewrite (h_content _ _ _ _ H). unfold content. rewrite <- splice_take.
    2:{ nia. } 2:{ rewrite <- (h_length _ _ _ _ H). lia. } 2:{ apply (h_total _ _ _ _ H). }
    f_equal. rewrite <- (splice_row PACK_CHUNK_BYTES ltac:(lia) (rows w c) i (array l w)).
    - f_equal. unfold rows. apply insert_fmap_array.
      + apply (chunks_nodup w o c Hw), (h_object _ _ _ _ H).
      + unfold at_ in Hi. by rewrite (proj2 (Z.ltb_ge _ _)) in Hi by lia.
    - apply (h_uniform _ _ _ _ H).
    - done.
    - lia.
    - lia. }
  assert (l ∈ chunks_ c) as Hl.
  { unfold at_ in Hi. rewrite (proj2 (Z.ltb_ge _ _)) in Hi by lia. by eapply list_elem_of_lookup_2. }
  apply map_eq. intros o'. unfold abs. simpl objects. rewrite lookup_fmap. destruct (decide (o = o')) as [<-|Hne].
  - rewrite lookup_insert_eq, (h_object _ _ _ _ H). simpl. unfold item. by rewrite (h_released _ _ _ _ H), Hc.
  - rewrite lookup_insert_ne, lookup_fmap by done. destruct (objects w !! o') as [c'|] eqn:E; [|done]. simpl.
    f_equal. unfold item. destruct (released c'); [done|]. f_equal. apply content_same. intros l' Hl'.
    unfold w'. rewrite array_put_world, decide_False; [done|]. intros ->.
    by apply (chunks_disjoint w o o' c c' l' Hw (h_object _ _ _ _ H) E Hne Hl).
Qed.

(** ** Writing *)

Lemma write_piece w o c bs t part :
  wf w → holds w o c bs → 0 <= t → 0 < zlen part → t + zlen part <= zlen bs →
  t mod PACK_CHUNK_BYTES + zlen part <= PACK_CHUNK_BYTES →
  ∃ chunk w', chunk_at o (t / PACK_CHUNK_BYTES) w = (Ok chunk, w) ∧
    set_array chunk part (t mod PACK_CHUNK_BYTES) w = (Ok tt, w') ∧
    wf w' ∧ abs w' = <[o := Some (splice bs t part)]> (abs w) ∧ objects w' = objects w ∧ pool w' = pool w.
Proof.
  intros Hw H Ht Hn Hb Hp. pose proof chunk_bytes_pos.
  pose proof (Z.mod_pos_bound t PACK_CHUNK_BYTES ltac:(lia)).
  destruct (chunk_at_live w o c bs t H ltac:(lia)) as (chunk & Hc & Hl & Hr).
  assert (zlen (array chunk w) = PACK_CHUNK_BYTES) as Hz by (apply (uniform_at _ _ _ _ (h_uniform _ _ _ _ H) Hr)).
  exists chunk, (snd (put_array chunk (splice (array chunk w) (t mod PACK_CHUNK_BYTES) part) w)).
  split; [done|]. split; [|split; [|split; [|done]]].
  - unfold set_array. run_first. rewrite typed_set_splice by lia. by run_first.
  - apply put_array_wf; [done| |rewrite zlen_splice; lia]. apply (owned_elem w o c); [apply (h_object _ _ _ _ H)|].
    unfold at_ in Hl. destruct (_ <? _); [done|]. by eapply list_elem_of_lookup_2.
  - replace (splice bs t part) with
      (splice bs (t / PACK_CHUNK_BYTES * PACK_CHUNK_BYTES + t mod PACK_CHUNK_BYTES) part) by by rewrite div_mod_chunk.
    eapply put_array_abs; try done; [lia|]. rewrite div_mod_chunk. lia.
Qed.

Lemma holds_update w w' o c bs new :
  wf w' → holds w o c bs → objects w' = objects w → abs w' = <[o := Some new]> (abs w) → holds w' o c new.
Proof.
  intros Hw' H Ho Ha. destruct (proj1 (abs_holds w' o new Hw')) as [c' H'].
  - unfold live. by rewrite Ha, lookup_insert_eq.
  - pose proof (h_object _ _ _ _ H') as E. rewrite Ho, (h_object _ _ _ _ H) in E. by injection E as <-.
Qed.

Lemma zlen_write_length (bs : list Z) s inChunk :
  0 <= s < zlen bs → 0 <= inChunk < PACK_CHUNK_BYTES →
  let n := Z.min (zlen bs - s) (PACK_CHUNK_BYTES - inChunk) in
  0 < n ∧ s + n <= zlen bs ∧ inChunk + n <= PACK_CHUNK_BYTES ∧ zlen (slice bs s (s + n)) = n.
Proof. intros Hs Hi n. subst n. split_and!; [lia..|]. rewrite zlen_slice; lia. Qed.

Lemma write_loop_spec fuel w o c old (bs : list Z) s t :
  wf w → holds w o c old → 0 <= s → zlen bs - s <= Z.of_nat fuel → s <= zlen bs → 0 <= t →
  t + (zlen bs - s) <= zlen old →
  ∃ w', write_loop fuel o bs s t w = (Ok tt, w') ∧ wf w' ∧
    abs w' = <[o := Some (splice old t (slice bs s (zlen bs)))]> (abs w) ∧ objects w' = objects w ∧ pool w' = pool w.
Proof.
  revert w old s t. induction fuel as [|fuel IH]; intros w old s t Hw H Hs Hf Hl Ht Hr.
  all: assert (s = zlen bs → ∃ w', (Ok tt, w) = (Ok tt, w') ∧ wf w' ∧
      abs w' = <[o:=Some (splice old t (slice bs s (zlen bs)))]> (abs w) ∧ objects w' = objects w ∧ pool w' = pool w) as Hend.
  1,3: intros ->; exists w; split_and!; try done; rewrite slice_empty, splice_nil, insert_id; [done| |lia];
    destruct (abs w !! o) as [x|] eqn:E;
    pose proof (proj2 (abs_holds w o old Hw) (ex_intro _ c H)) as Ha; unfold live in Ha; rewrite E in Ha;
    simpl in Ha; congruence.
  { apply Hend. lia. }
  cbn [write_loop]. destruct (s <? zlen bs) eqn:E; zbool; [|apply Hend; lia].
  pose proof chunk_bytes_pos. pose proof (Z.mod_pos_bound t PACK_CHUNK_BYTES ltac:(lia)) as Hm.
  destruct (zlen_write_length bs s (t mod PACK_CHUNK_BYTES) ltac:(lia) Hm) as (Hn & Hsn & Hin & Hz).
  set (n := Z.min _ _) in *. clearbody n.
  destruct (write_piece w o c old t (slice bs s (s + n)) Hw H Ht) as (chunk & w1 & Hc & Hset & Hw1 & Ha1 & Ho1 & Hp1);
    [lia..|].
  run_by Hc. run_by Hset. pose proof (holds_update _ _ _ _ _ _ Hw1 H Ho1 Ha1) as H1.
  destruct (IH w1 _ (s + n) (t + n) Hw1 H1) as (w2 & -> & Hw2 & Ha2 & Ho2 & Hp2);
    [lia|lia|lia|lia|rewrite zlen_splice; lia|].
  exists w2. split_and!; [done|done| |congruence|congruence].
  rewrite Ha2, Ha1, insert_insert_eq. do 2 f_equal. replace (t + n) with (t + zlen (slice bs s (s + n))) by lia.
  rewrite splice_adjacent, slice_cat; rewrite ?zlen_slice; [done|lia..].
Qed.

Lemma abs_same_content w o c bs : wf w → holds w o c bs → abs w = <[o := Some bs]> (abs w).
Proof.
  intros Hw H. rewrite insert_id; [done|]. pose proof (proj2 (abs_holds w o bs Hw) (ex_intro _ c H)) as Ha.
  unfold live in Ha. destruct (abs w !! o) as [x|]; [simpl in Ha; by subst|done].
Qed.

Lemma holds_other w w' o o' c bs new :
  wf w → wf w' → holds w o c bs → objects w' = objects w → abs w' = <[o' := Some new]> (abs w) → o ≠ o' →
  holds w' o c bs.
Proof.
  intros Hw Hw' H Ho Ha Hne. destruct (proj1 (abs_holds w' o bs Hw')) as [c' H'].
  - unfold live. rewrite Ha, lookup_insert_ne by done. apply abs_holds; [done|by exists c].
  - pose proof (h_object _ _ _ _ H') as E. rewrite Ho, (h_object _ _ _ _ H) in E. by injection E as <-.
Qed.

(** Reading ahead of, or clear of, what is written. *)
Definition copy_clear (src target : nat) (targetOffset sourceOffset n : Z) : Prop :=
  src ≠ target ∨ targetOffset <= sourceOffset ∨ sourceOffset + n <= targetOffset.

Lemma copy_loop_spec fuel w src target cs ct from old toff soff n k :
  wf w → holds w src cs from → holds w target ct old →
  0 <= soff → 0 <= toff → 0 <= k <= n → n - k <= Z.of_nat fuel → soff + n <= zlen from → toff + n <= zlen old →
  ∃ w' new, copy_loop fuel src target toff soff n k w = (Ok tt, w') ∧ wf w' ∧
    abs w' = <[target := Some new]> (abs w) ∧ zlen new = zlen old ∧ objects w' = objects w ∧ pool w' = pool w ∧
    (copy_clear src target toff soff n → new = splice old (toff + k) (slice from (soff + k) (soff + n))).
Proof.
  revert w from old k. induction fuel as [|fuel IH]; intros w from old k Hw Hs Ht Hso Hto Hk Hf Hsr Htr.
  all: assert (k = n → ∃ w' new, (Ok tt, w) = (Ok tt, w') ∧ wf w' ∧ abs w' = <[target := Some new]> (abs w) ∧
    zlen new = zlen old ∧ objects w' = objects w ∧ pool w' = pool w ∧
    (copy_clear src target toff soff n → new = splice old (toff + k) (slice from (soff + k) (soff + n)))) as Hend.
  1,3: intros ->; exists w, old; split_and!; try done;
    [by eapply abs_same_content|intros _; rewrite slice_empty, splice_nil; [done|lia]].
  { apply Hend. lia. }
  cbn [copy_loop]. destruct (k <? n) eqn:E; zbool; [|apply Hend; lia].
  pose proof chunk_bytes_pos. pose proof (Z.mod_pos_bound (soff + k) PACK_CHUNK_BYTES ltac:(lia)) as Hms.
  pose proof (Z.mod_pos_bound (toff + k) PACK_CHUNK_BYTES ltac:(lia)) as Hmt.
  set (m := Z.min (n - k) _). assert (0 < m ∧ k + m <= n ∧ (soff + k) mod PACK_CHUNK_BYTES + m <= PACK_CHUNK_BYTES ∧
    (toff + k) mod PACK_CHUNK_BYTES + m <= PACK_CHUNK_BYTES) as (Hm & Hkm & Hsm & Htm) by (unfold m; lia).
  clearbody m. destruct (read_piece w src cs from (soff + k) m Hs) as (source & Hsc & Hread); [lia..|].
  assert (zlen (slice from (soff + k) (soff + k + m)) = m) as Hz by (rewrite zlen_slice; lia).
  destruct (write_piece w target ct old (toff + k) (slice from (soff + k) (soff + k + m)) Hw Ht)
    as (chunk & w1 & Hc & Hset & Hw1 & Ha1 & Ho1 & Hp1); [lia..|].
  run_by Hsc. run_by Hc. run_first. rewrite Hread. run_by Hset.
  pose proof (holds_update _ _ _ _ _ _ Hw1 Ht Ho1 Ha1) as Ht1.
  assert (∃ from1, holds w1 src cs from1 ∧ zlen from1 = zlen from ∧
    (copy_clear src target toff soff n → slice from1 (soff + (k + m)) (soff + n) = slice from (soff + (k + m)) (soff + n)))
    as (from1 & Hs1 & Hz1 & Hread1).
  { destruct (decide (src = target)) as [->|Hne].
    - pose proof (h_object _ _ _ _ Hs) as Ec. rewrite (h_object _ _ _ _ Ht) in Ec. injection Ec as ->.
      assert (from = old) as -> by (by rewrite (h_content _ _ _ _ Hs), (h_content _ _ _ _ Ht)).
      eexists. split; [exact Ht1|]. split; [rewrite zlen_splice; lia|]. intros Hclear.
      apply slice_splice_clear; [lia..|]. destruct Hclear as [?|[?|?]]; [congruence|lia|lia].
    - exists from. split; [exact (holds_other w w1 src target cs from _ Hw Hw1 Hs Ho1 Ha1 Hne)|]. done. }
  destruct (IH w1 from1 _ (k + m) Hw1 Hs1 Ht1) as (w2 & new & -> & Hw2 & Ha2 & Hz2 & Ho2 & Hp2 & Hnew);
    [lia|lia|lia|lia|lia|rewrite zlen_splice; lia|].
  exists w2, new. split_and!; [done|done| | |congruence|congruence|].
  - rewrite Ha2, Ha1, insert_insert_eq. done.
  - rewrite Hz2, zlen_splice; lia.
  - intros Hclear. rewrite (Hnew Hclear), (Hread1 Hclear).
    replace (toff + (k + m)) with (toff + k + zlen (slice from (soff + k) (soff + k + m))) by lia.
    rewrite splice_adjacent; rewrite ?Hz; [|lia|rewrite zlen_slice; lia].
    do 2 f_equal. rewrite Z.add_assoc. apply slice_cat; lia.
Qed.

(** ** Allocation and release *)

Lemma new_object_wf w n ls :
  wf w → pool_wf w (owned w) → ∀ w1, same_objects w w1 → pool_wf w1 (owned w ++ ls) →
  0 <= n <= MAX_SAFE_INTEGER → zlen ls = chunk_count n →
  ∃ o w2 bs, new_object n ls w1 = (Ok o, w2) ∧ wf w2 ∧ abs w !! o = None ∧ zlen bs = n ∧
    holds w2 o (chunkedBytes n ls false) bs ∧ abs w2 = <[o := Some bs]> (abs w) ∧ pool w2 = pool w1.
Proof.
  intros Hw _ w1 Hs Hp Hn Hls. pose proof (same_map _ _ Hs) as Hm.
  assert (objects w1 !! next_object w1 = None) as Hfresh.
  { rewrite Hm, (same_next _ _ Hs). by apply (wf_next w Hw). }
  set (o := next_object w1) in *. set (c := chunkedBytes n ls false).
  set (w2 := World (arrays w1) (next_array w1) (pool w1) (<[o := c]> (objects w1)) (S o)).
  assert (wf w2) as Hw2.
  { constructor.
    - eapply pool_wf_perm; [symmetry; by apply owned_insert|]. unfold c. simpl.
      rewrite (same_owned _ _ Hs). eapply pool_wf_perm; [apply Permutation_app_comm|].
      destruct Hp. by constructor.
    - intros o' c'. simpl. rewrite lookup_insert_Some. intros [[_ <-]|[_ Hc]]; [done|].
      rewrite Hm in Hc. by apply (wf_objects w Hw o').
    - intros o'. simpl. intros Ho'. rewrite lookup_insert_ne by lia. rewrite Hm.
      apply (wf_next w Hw). rewrite <- (same_next _ _ Hs). fold o. lia. }
  exists o, w2, (content w2 c). split; [done|]. split; [done|].
  assert (holds w2 o c (content w2 c)) as Hh.
  { apply holds_intro; [done| |done]. simpl. by rewrite lookup_insert_eq. }
  split; [|split; [|split; [done|split; [|done]]]].
  - unfold abs. by rewrite lookup_fmap, <- Hm, Hfresh.
  - by rewrite (h_length _ _ _ _ Hh).
  - unfold abs. simpl. rewrite fmap_insert. f_equal.
    change (item w2 <$> objects w1 = abs w). rewrite <- (same_abs w w1 Hs). apply map_fmap_ext. done.
Qed.

Lemma bad_length_dec n : (negb (isSafeInteger n) || (n <? 0)) = true ↔ bad_length n.
Proof.
  unfold bad_length, isSafeInteger. rewrite orb_true_iff, negb_true_iff, andb_false_iff, Z.ltb_lt.
  rewrite !Z.leb_gt. unfold MAX_SAFE_INTEGER. lia.
Qed.

Lemma good_length n : ¬ bad_length n → negb (isSafeInteger n) || (n <? 0) = false.
Proof. intros H. destruct (_ || _) eqn:E; [|done]. by apply bad_length_dec in E. Qed.

Lemma chunk_count_safe n : 0 <= n <= MAX_SAFE_INTEGER → 0 <= chunk_count n <= MAX_SAFE_INTEGER.
Proof. intros. unfold chunk_count, PACK_CHUNK_BYTES, MAX_SAFE_INTEGER in *. zdm. Qed.

Lemma allocate_full w n :
  wf w → ¬ bad_length n → maxAllocatedBytes (pool w) < (store_chunks (abs w) + chunk_count n) * PACK_CHUNK_BYTES →
  allocate n w = (Throw (RangeError (js "chunk pool allocation limit exceeded")), w).
Proof.
  intros Hw Hn Hlim. unfold allocate. rewrite (good_length n Hn). unfold bad_length in Hn.
  apply bind_throw. rewrite (preflight_spec w (owned w)); [|apply Hw|apply chunk_count_safe; lia].
  rewrite (owned_zlen w Hw). by rewrite (proj2 (Z.ltb_lt _ _)) by done.
Qed.

Lemma allocate_new w n :
  wf w → ¬ bad_length n → (store_chunks (abs w) + chunk_count n) * PACK_CHUNK_BYTES <= maxAllocatedBytes (pool w) →
  ∃ o w' c bs, allocate n w = (Ok o, w') ∧ wf w' ∧ abs w !! o = None ∧ zlen bs = n ∧ holds w' o c bs ∧
    abs w' = <[o := Some bs]> (abs w) ∧ maxAllocatedBytes (pool w') = maxAllocatedBytes (pool w).
Proof.
  intros Hw Hn Hlim. unfold allocate. rewrite (good_length n Hn). unfold bad_length in Hn.
  rewrite (bind_ok _ _ w tt w).
  2:{ rewrite (preflight_spec w (owned w)); [|apply Hw|apply chunk_count_safe; lia].
      rewrite (owned_zlen w Hw). by rewrite (proj2 (Z.ltb_ge _ _)) by done. }
  pose proof (chunk_count_safe n ltac:(lia)) as Hc.
  destruct (acquire_all_spec w (owned w) [] (Z.to_nat (chunk_count n)))
    as (ls & w1 & Hacq & Hw1 & Hz & Ho & Hno & Ha & Hm).
  { rewrite app_nil_r. apply Hw. }
  { change (zlen []) with 0. rewrite (owned_zlen w Hw). by rewrite Z2Nat.id, Z.add_0_r by lia. }
  rewrite (bind_ok _ _ _ _ _ Hacq). cbn beta iota.
  assert (same_objects w w1) as Hs by by constructor.
  destruct (new_object_wf w n ls Hw (wf_pool w Hw) w1 Hs Hw1) as (o & w2 & bs & Hnew & Hw2 & Hfr & Hbs & Hh & Ha2 & Hp).
  { lia. }
  { rewrite Hz. change (zlen []) with 0. lia. }
  exists o, w2, (chunkedBytes n ls false), bs. split_and!; try done. by rewrite Hp.
Qed.

Lemma release_live w o c bs :
  wf w → holds w o c bs → ∃ w', release o w = (Ok tt, w') ∧ wf w' ∧ abs w' = <[o := None]> (abs w) ∧
    maxAllocatedBytes (pool w') = maxAllocatedBytes (pool w).
Proof.
  intros Hw H. pose proof (h_object _ _ _ _ H) as Ho. unfold release. run_first.
  rewrite (object_holds _ _ _ _ H), (h_released _ _ _ _ H). unfold put_object. run_first.
  set (w1 := World (arrays w) (next_array w) (pool w) (<[o := chunkedBytes (length_ c) (chunks_ c) true]> (objects w))
                   (next_object w)).
  set (rest := mjoin ((λ p, chunks_ p.2) <$> map_to_list (delete o (objects w)))).
  destruct (release_all_spec w1 rest (chunks_ c)) as (w2 & Hr & Hw2 & Ha2 & Ho2 & Hn2 & Hm2).
  { destruct (wf_pool w Hw) as [? ? ? ? ? ? ?]. eapply pool_wf_perm; [exact (owned_split w o c Ho)|]. by constructor. }
  rewrite (bind_ok _ _ _ _ _ Hr). eexists. split; [reflexivity|].
  set (c' := chunkedBytes (length_ c) [] true).
  assert (<[o := c']> (objects w2) = <[o := c']> (delete o (objects w))) as Hos.
  { rewrite Ho2. unfold w1. simpl. by rewrite insert_insert_eq, insert_delete_eq. }
  split; [|split; [|done]].
  - constructor; simpl.
    + unfold owned. simpl. rewrite Hos. apply (pool_wf_perm _ rest); [|destruct Hw2; by constructor].
      by rewrite map_to_list_insert by apply lookup_delete_eq.
    + intros o' c''. rewrite Hos, lookup_insert_Some, lookup_delete_Some.
      intros [[_ <-]|(_ & _ & Hc)]; [done|by apply (wf_objects w Hw o')].
    + intros o' Hle. rewrite Hos. rewrite Hn2 in Hle. simpl in Hle.
      rewrite lookup_insert_ne, lookup_delete_None; [right; by apply (wf_next w Hw)|].
      intros ->. rewrite (wf_next w Hw) in Ho by done. done.
  - unfold abs. simpl. rewrite Hos, insert_delete_eq, fmap_insert. simpl. f_equal.
    apply map_fmap_ext. intros o' c'' _. unfold item. destruct (released c''); [done|]. f_equal.
    apply content_same. intros l _. unfold array. simpl. by rewrite Ha2.
Qed.

(** ** Reading *)

Lemma chunk_parts_join w n ls off :
  uniform PACK_CHUNK_BYTES ((λ l, array l w) <$> ls) → 0 <= n - off <= zlen ls * PACK_CHUNK_BYTES →
  mjoin (chunk_parts w n ls off) = take (Z.to_nat (n - off)) (mjoin ((λ l, array l w) <$> ls)).
Proof.
  pose proof chunk_bytes_pos. revert off. induction ls as [|l ls IH]; intros off Hu Hn.
  { cbn. by rewrite take_nil. }
  apply Forall_cons in Hu as [Hl Hu]. rewrite zlen_cons in Hn. cbn [chunk_parts].
  set (m := Z.min PACK_CHUNK_BYTES (n - off)).
  change (mjoin (slice (array l w) 0 m :: ?p)) with (slice (array l w) 0 m ++ mjoin p).
  change (mjoin ((λ l, array l w) <$> l :: ls)) with (array l w ++ mjoin ((λ l, array l w) <$> ls)).
  pose proof (zlen_nonneg ls). assert (0 <= n - (off + m) <= zlen ls * PACK_CHUNK_BYTES) as Hn' by (unfold m; nia).
  rewrite (IH _ Hu Hn'), take_app. unfold slice. rewrite drop_0. unfold zlen in Hl.
  f_equal; [|do 2 f_equal; unfold m; lia]. destruct (decide (PACK_CHUNK_BYTES <= n - off)).
  - rewrite !take_ge by (unfold m; lia). done.
  - f_equal. unfold m. lia.
Qed.

Lemma chunk_parts_content w o c bs : holds w o c bs → mjoin (chunk_parts w (length_ c) (chunks_ c) 0) = bs.
Proof.
  intros H. rewrite chunk_parts_join; [|apply (h_uniform _ _ _ _ H)|].
  - rewrite Z.sub_0_r. symmetry. apply (h_content _ _ _ _ H).
  - rewrite (h_chunks _ _ _ _ H). pose proof (h_safe _ _ _ _ H).
    pose proof (chunk_count_bounds (length_ c) ltac:(lia)). lia.
Qed.

Lemma set_parts_join (parts : list (list Z)) (a b : list Z) :
  zlen b = zlen (mjoin parts) → set_parts (a ++ b) parts (zlen a) = Ok (a ++ mjoin parts).
Proof.
  revert a b. induction parts as [|part parts IH]; intros a b Hb.
  { destruct b; [done|]. rewrite zlen_cons in Hb. pose proof (zlen_nonneg b). change (zlen (mjoin [])) with 0 in Hb. lia. }
  change (mjoin (part :: parts)) with (part ++ mjoin parts) in *. rewrite zlen_app in Hb.
  pose proof (zlen_nonneg (mjoin parts)). pose proof (zlen_nonneg part). cbn [set_parts].
  rewrite <- (take_drop (Z.to_nat (zlen part)) b) at 1.
  rewrite typed_set_app by by rewrite zlen_take by lia.
  cbn [mbind outcome_bind]. rewrite app_assoc, <- zlen_app, IH; [by rewrite app_assoc|].
  unfold zlen in *. rewrite length_drop. lia.
Qed.

Lemma toUint8Array_live w o c bs : holds w o c bs → toUint8Array o w = (Ok bs, w).
Proof.
  intros H. unfold toUint8Array. rewrite (bind_ok _ _ _ _ _ (assertOwned_live _ _ _ _ H)). run_first.
  rewrite (object_holds _ _ _ _ H). pose proof (chunk_parts_content _ _ _ _ H) as Hc.
  unfold lift. f_equal. pose proof (h_safe _ _ _ _ H).
  rewrite <- Hc. apply (set_parts_join _ []). rewrite Hc, (h_length _ _ _ _ H). apply zlen_replicate. lia.
Qed.

Lemma chunks_live w o c bs : holds w o c bs → ∃ parts, chunks o w = (Ok parts, w) ∧ mjoin parts = bs.
Proof.
  intros H. unfold chunks. rewrite (bind_ok _ _ _ _ _ (assertOwned_live _ _ _ _ H)). run_first.
  rewrite (object_holds _ _ _ _ H). eexists. split; [reflexivity|]. by eapply chunk_parts_content.
Qed.

Lemma byteAt_live w o c bs i :
  holds w o c bs → in_range (zlen bs) i 1 → ∃ b, byteAt o i w = (Ok b, w) ∧ at_ bs i = Some b.
Proof.
  intros H Hi. unfold byteAt. rewrite (bind_ok _ _ w tt w).
  2:{ rewrite (assertRange_live _ _ _ _ _ _ H). by rewrite decide_True. }
  unfold in_range in Hi. pose proof chunk_bytes_pos.
  pose proof (Z.mod_pos_bound i PACK_CHUNK_BYTES ltac:(lia)).
  destruct (read_piece w o c bs i 1 H) as (chunk & Hc & Hs); [lia..|].
  run_by Hc. run_first. destruct (proj2 (at_is_Some bs i) ltac:(lia)) as [b Hb].
  exists b. split; [|done]. assert (at_ (array chunk w) (i mod PACK_CHUNK_BYTES) = Some b) as ->; [|done].
  rewrite <- (Z.add_0_r (i mod PACK_CHUNK_BYTES)), <- (at_slice _ _ (i mod PACK_CHUNK_BYTES + 1)), Hs, at_slice by lia.
  by rewrite Z.add_0_r.
Qed.

Lemma write_live w o c old offset bs :
  wf w → holds w o c old → in_range (zlen old) offset (zlen bs) →
  ∃ w', write o offset bs w = (Ok tt, w') ∧ wf w' ∧ abs w' = <[o := Some (splice old offset bs)]> (abs w) ∧
    objects w' = objects w ∧ pool w' = pool w.
Proof.
  intros Hw H Hr. unfold write. rewrite (bind_ok _ _ w tt w).
  2:{ rewrite (assertRange_live _ _ _ _ _ _ H). by rewrite decide_True. }
  unfold in_range in Hr. pose proof (zlen_nonneg bs).
  destruct (write_loop_spec (length bs) w o c old bs 0 offset Hw H) as (w' & -> & Hw' & Ha & Ho & Hp);
    [lia|unfold zlen; lia|lia|lia|lia|].
  exists w'. split_and!; [done|done| |done|done]. by rewrite Ha, slice_all.
Qed.

Lemma idle_spec w : wf w → (size (checkedOut (pool w)) = 0%nat ↔ store_chunks (abs w) = 0).
Proof.
  intros Hw. rewrite <- (owned_zlen w Hw), (wf_out _ _ (wf_pool w Hw)).
  rewrite size_list_to_set by by apply owned_nodup. unfold zlen. lia.
Qed.

Lemma dispose_wf w : wf w → store_chunks (abs w) = 0 →
  wf (World (arrays w) (next_array w) (chunkPool [] (checkedOut (pool w)) 0 (maxAllocatedBytes (pool w))) (objects w) (next_object w)).
Proof.
  intros Hw Hz. rewrite <- (owned_zlen w Hw) in Hz. destruct Hw as [Hp ? ?]. 
  assert (owned w = []) as Ho by (destruct (owned w); [done|]; rewrite zlen_cons in Hz; pose proof (zlen_nonneg l); lia).
  constructor; [|done|done]. change (owned _) with (owned w). rewrite Ho in *. destruct Hp as [? ? ? ? Hb Hl ?].
  constructor; simpl; try done; [constructor|set_solver|].
  rewrite Hb in Hl. pose proof chunk_bytes_pos. pose proof (zlen_nonneg (free (pool w) ++ [])). nia.
Qed.

(** ** Every operation refines the store's *)

(** [m], run in a consistent world, does what [S] says. *)
Definition refines (m : M result) w (S : outcome result → store → Prop) : Prop :=
  ∃ r w', m w = (r, w') ∧ wf w' ∧ S r (abs w') ∧ maxAllocatedBytes (pool w') = maxAllocatedBytes (pool w).

Lemma refines_same m w r (S : outcome result → store → Prop) :
  wf w → m w = (r, w) → S r (abs w) → refines m w S.
Proof. intros. by exists r, w. Qed.

Lemma bind_outcome {A} (m : M A) (f : A → result) w r w' :
  m w = (r, w') → (m ≫= λ a, mret (f a)) w = (f <$> r, w').
Proof. intros H. unfold mbind, effect_bind. rewrite H. by destruct r. Qed.

Lemma live_cases w o :
  wf w → (∃ bs c, live (abs w) o = Some bs ∧ holds w o c bs) ∨
         (live (abs w) o = None ∧ assertOwned o w = (Throw (PlainError RELEASED), w)).
Proof.
  intros Hw. destruct (live (abs w) o) as [bs|] eqn:E.
  - left. pose proof E as [c Hc]%abs_holds; [|done]. eauto.
  - right. split; [done|]. by apply assertOwned_dead, abs_dead.
Qed.

Lemma ranged_throw w bs o c offset n :
  holds w o c bs → ¬ in_range (zlen bs) offset n →
  assertRange o offset n w = (Throw (RangeError (js "chunked byte range is out of bounds")), w).
Proof. intros H Hr. rewrite (assertRange_live _ _ _ _ _ _ H). by rewrite decide_False. Qed.

Lemma assertRange_dead w o offset n :
  assertOwned o w = (Throw (PlainError RELEASED), w) →
  assertRange o offset n w = (Throw (PlainError RELEASED), w).
Proof. intros H. unfold assertRange. by apply bind_throw. Qed.

Lemma allocate_refines w n (k : nat → M result) (P : list Z → Prop) :
  wf w →
  (∀ o w' c bs, wf w' → holds w' o c bs → zlen bs = n → ∃ w'' bs', k o w' = (Ok (RObject o), w'') ∧ wf w'' ∧
    abs w'' = <[o := Some bs']> (abs w') ∧ zlen bs' = n ∧ P bs' ∧
    maxAllocatedBytes (pool w'') = maxAllocatedBytes (pool w')) →
  refines (o ← allocate n; k o) w (spec_allocate (maxAllocatedBytes (pool w)) (abs w) n P).
Proof.
  intros Hw Hk. unfold spec_allocate. destruct (decide (n < 0 ∨ MAX_SAFE_INTEGER < n)) as [Hb|Hb].
  { eapply refines_same; [done| |by left]. apply bind_throw.
    unfold allocate. by rewrite (proj2 (bad_length_dec n) Hb). }
  destruct (decide (maxAllocatedBytes (pool w) < (store_chunks (abs w) + chunk_count n) * PACK_CHUNK_BYTES)) as [Hl|Hl].
  { eapply refines_same; [done| |by right; left]. apply bind_throw. by apply allocate_full. }
  destruct (allocate_new w n Hw Hb ltac:(lia)) as (o & w' & c & bs & Ha & Hw' & Hf & Hz & Hh & Habs & Hm).
  destruct (Hk o w' c bs Hw' Hh Hz) as (w'' & bs' & Hk' & Hw'' & Habs' & Hz' & HP & Hm').
  exists (Ok (RObject o)), w''. split; [|split; [done|split; [|congruence]]].
  - by rewrite (bind_ok _ _ _ _ _ Ha).
  - right. right. split; [done|]. split; [lia|]. exists o, bs'. split_and!; try done.
    by rewrite Habs', Habs, insert_insert_eq.
Qed.

Lemma write_refines w o offset bs :
  wf w → refines (run_op (Write o offset bs)) w (spec_step (maxAllocatedBytes (pool w)) (abs w) (Write o offset bs)).
Proof.
  intros Hw. cbn [run_op]. unfold spec_step, on_live, ranged. destruct (live_cases w o Hw) as [(old & c & -> & Hh)|[-> Hd]].
  - case_decide as Hr.
    + destruct (write_live w o c old offset bs Hw Hh Hr) as (w' & Hwr & Hw' & Ha & _ & Hp).
      exists (Ok RUnit), w'. split; [by apply (bind_outcome _ (λ _, RUnit) _ (Ok tt))|]. by rewrite Hp.
    + eapply refines_same; [done| |done]. apply (bind_outcome _ (λ _, RUnit) _ (Throw _)), bind_throw.
      by eapply ranged_throw.
  - eapply refines_same; [done| |done]. apply (bind_outcome _ (λ _, RUnit) _ (Throw _)), bind_throw.
    by apply assertRange_dead.
Qed.

Lemma copyTo_refines w src target toff soff n :
  wf w → refines (run_op (CopyTo src target toff soff n)) w
    (spec_step (maxAllocatedBytes (pool w)) (abs w) (CopyTo src target toff soff n)).
Proof.
  intros Hw. cbn [run_op]. unfold spec_step, on_live, ranged. destruct (live_cases w src Hw) as [(from & cs & -> & Hs)|[-> Hd]].
  2:{ eapply refines_same; [done| |done]. apply (bind_outcome _ (λ _, RUnit) _ (Throw _)), bind_throw.
      by apply assertRange_dead. }
  case_decide as Hrs.
  2:{ eapply refines_same; [done| |done]. apply (bind_outcome _ (λ _, RUnit) _ (Throw _)), bind_throw.
      by eapply ranged_throw. }
  assert (assertRange src soff n w = (Ok tt, w)) as Has.
  { rewrite (assertRange_live _ _ _ _ _ _ Hs). by rewrite decide_True. }
  destruct (live_cases w target Hw) as [(old & ct & -> & Ht)|[-> Hd]].
  2:{ eapply refines_same; [done| |done]. apply (bind_outcome _ (λ _, RUnit) _ (Throw _)).
      unfold copyTo. rewrite (bind_ok _ _ _ _ _ Has). by apply bind_throw, assertRange_dead. }
  case_decide as Hrt.
  2:{ eapply refines_same; [done| |done]. apply (bind_outcome _ (λ _, RUnit) _ (Throw _)).
      unfold copyTo. rewrite (bind_ok _ _ _ _ _ Has). by eapply bind_throw, ranged_throw. }
  assert (assertRange target toff n w = (Ok tt, w)) as Hat.
  { rewrite (assertRange_live _ _ _ _ _ _ Ht). by rewrite decide_True. }
  unfold in_range in *.
  destruct (copy_loop_spec (Z.to_nat n) w src target cs ct from old toff soff n 0 Hw Hs Ht)
    as (w' & new & Hc & Hw' & Ha & Hz & Ho & Hp & Hnew); [lia..|].
  exists (Ok RUnit), w'. split; [|split; [done|split; [|by rewrite Hp]]].
  - apply (bind_outcome _ (λ _, RUnit) _ (Ok tt)). unfold copyTo.
    by rewrite (bind_ok _ _ _ _ _ Has), (bind_ok _ _ _ _ _ Hat).
  - exists new. split_and!; [done..|]. intros Hclear. rewrite (Hnew Hclear). by rewrite !Z.add_0_r.
Qed.

Lemma read_refines w o (m : M result) error (P : list Z → outcome result → store → Prop) :
  wf w → (assertOwned o w = (Throw (PlainError RELEASED), w) → m w = (Throw (PlainError error), w)) →
  (∀ c bs, holds w o c bs → ∃ r, m w = (r, w) ∧ P bs r (abs w)) →
  refines m w (λ r a', on_live (abs w) o error r a' (λ bs, P bs r a')).
Proof.
  intros Hw Hd Hl. unfold on_live. destruct (live_cases w o Hw) as [(bs & c & -> & Hh)|[-> Hdead]].
  - destruct (Hl c bs Hh) as (r & Hr & HP). by eapply refines_same.
  - eapply refines_same; [done|by apply Hd|done].
Qed.

Lemma fromBytes_refines w bs :
  wf w → refines (run_op (FromBytes bs)) w (spec_step (maxAllocatedBytes (pool w)) (abs w) (FromBytes bs)).
Proof.
  intros Hw. destruct (allocate_refines w (zlen bs) (λ o, try_catch (write o 0 bs;; mret o)
    (λ error, release o;; raise error) ≫= λ o, mret (RObject o)) (λ bs', bs' = bs) Hw) as (r & w' & Hr & Hrest).
  - intros o w' c old Hw' Hh Hz. destruct (write_live w' o c old 0 bs Hw' Hh) as (w'' & Hwr & Hw'' & Ha & _ & Hp).
    { unfold in_range. pose proof (zlen_nonneg bs). lia. }
    exists w'', bs. split_and!; try done; [| |by rewrite Hp].
    + apply (bind_outcome _ _ _ (Ok o)). unfold try_catch. by rewrite (bind_ok _ _ _ _ _ Hwr).
    + rewrite Ha, splice_all by lia. done.
  - exists r, w'. split; [|done]. rewrite <- Hr. apply bind_assoc.
Qed.

Lemma step_refines w (o : op) :
  wf w → refines (run_op o) w (spec_step (maxAllocatedBytes (pool w)) (abs w) o).
Proof.
  intros Hw. pose proof (idle_spec w Hw) as Hidle. destruct o as [n|bs|o offset bs|src target toff soff n|o i|o|o|o| |].
  - apply (allocate_refines w n _ (λ _, True) Hw). intros o w' c bs Hw' Hh Hz. exists w', bs.
    split_and!; try done. by eapply abs_same_content.
  - by apply fromBytes_refines.
  - by apply write_refines.
  - by apply copyTo_refines.
  - apply (read_refines w o); [done| |].
    + intros Hd. apply bind_throw, bind_throw. by apply assertRange_dead.
    + intros c bs Hh. unfold ranged. case_decide as Hr.
      * destruct (byteAt_live w o c bs i Hh Hr) as (b & Hb & Hat).
        eexists. split; [by apply (bind_outcome _ _ _ (Ok b))|eauto].
      * eexists. split; [|done]. by eapply bind_throw, bind_throw, ranged_throw.
  - apply (read_refines w o); [done|intros; by apply bind_throw, bind_throw|].
    intros c bs Hh. destruct (chunks_live w o c bs Hh) as (parts & Hp & <-).
    eexists. split; [by apply (bind_outcome _ _ _ (Ok parts))|done].
  - apply (read_refines w o); [done|intros; by apply bind_throw, bind_throw|].
    intros c bs Hh. eexists. split; [by apply (bind_outcome _ _ _ (Ok bs)), (toUint8Array_live w o c)|done].
  - cbn [run_op]. unfold spec_step, on_live. destruct (live_cases w o Hw) as [(bs & c & -> & Hh)|[Hn _]].
    + destruct (release_live w o c bs Hw Hh) as (w' & Hr & Hw' & Ha & Hm). exists (Ok RUnit), w'.
      split; [by apply (bind_outcome _ (λ _, RUnit) _ (Ok tt))|]. done.
    + rewrite Hn. eapply refines_same; [done| |done]. apply (bind_outcome _ (λ _, RUnit) _ (Throw _)).
      unfold release. run_first. by rewrite (proj1 (abs_dead w o) Hn).
  - eapply refines_same; [done|apply (bind_outcome _ (λ _, RUnit) _ (if decide (store_chunks (abs w) = 0) then Ok tt else
      Throw (PlainError (js "chunk pool still has owned chunks"))))|by split; [|case_decide]].
    unfold assertIdle. run_first. by destruct (size (checkedOut (pool w))); case_decide; naive_solver.
  - cbn [run_op]. unfold dispose. assert (∀ m : M unit, assertIdle w =
      (if decide (store_chunks (abs w) = 0) then Ok tt else Throw (PlainError (js "chunk pool still has owned chunks")), w)) as Ha.
    { intros _. unfold assertIdle. run_first. by destruct (size (checkedOut (pool w))); case_decide; naive_solver. }
    specialize (Ha assertIdle). unfold spec_step. case_decide as Hz.
    + pose proof (dispose_wf w Hw Hz) as Hw'. eexists (Ok RUnit), _.
      split; [by apply (bind_outcome _ (λ _, RUnit) _ (Ok tt)); rewrite (bind_ok _ _ _ _ _ Ha)|]. done.
    + eapply refines_same; [done| |done]. apply (bind_outcome _ (λ _, RUnit) _ (Throw _)). by apply bind_throw.
Qed.

(** A world with a new pool. *)
Definition new_world (p : ChunkPool) : world := World ∅ 0 p ∅ 0.

Lemma new_world_wf limit p :
  new_ChunkPool limit = Ok p → wf (new_world p) ∧ abs (new_world p) = ∅ ∧ maxAllocatedBytes p = limit.
Proof.
  unfold new_ChunkPool. destruct (_ || _) eqn:E; [done|]. intros [= <-].
  assert (¬ bad_length limit) as Hb by (rewrite <- bad_length_dec, E; done). unfold bad_length in Hb.
  split; [|done]. constructor; [|done|done]. constructor; simpl; try done; [constructor|set_solver|lia|lia].
Qed.

Lemma run_ops_refines ops w :
  wf w → let (rs, w') := run_ops ops w in
    wf w' ∧ spec_run (maxAllocatedBytes (pool w)) (abs w) ops rs (abs w') ∧
    maxAllocatedBytes (pool w') = maxAllocatedBytes (pool w).
Proof.
  revert w. induction ops as [|o ops IH]; intros w Hw; cbn [run_ops].
  { split_and!; [done|constructor|done]. }
  destruct (step_refines w o Hw) as (r & w1 & -> & Hw1 & Hs & Hm). specialize (IH w1 Hw1).
  destruct (run_ops ops w1) as [rs w2]. destruct IH as (Hw2 & Hr & Hm2). split_and!; [done| |congruence].
  econstructor; [done|]. by rewrite <- Hm.
Qed.

(** * Properties *)

(** C8: From a new pool, whatever a client does, the chunked objects behave as the plain
    byte arrays of the store: allocation succeeds exactly when the chunks of the live
    objects and of the new one fit the limit, [write] and [copyTo] are splices, every
    range, release and ownership error is thrown and changes nothing, and reading gives
    the bytes back; the pool never holds more than its limit, and the bytes checked out
    are those of the live objects, so that nothing leaks. *)
Theorem chunks_refine_store limit p ops :
  new_ChunkPool limit = Ok p →
  let (rs, w) := run_ops ops (new_world p) in
  ∃ a, spec_run limit ∅ ops rs a ∧ abs w = a ∧
    checkedOutBytes (pool w) = store_chunks a * PACK_CHUNK_BYTES ∧
    checkedOutBytes (pool w) + zlen (free (pool w)) * PACK_CHUNK_BYTES = allocatedBytes (pool w) ∧
    allocatedBytes (pool w) <= limit.
Proof.
  intros Hp. destruct (new_world_wf limit p Hp) as (Hw & Ha & Hm). pose proof (run_ops_refines ops _ Hw) as H.
  destruct (run_ops ops (new_world p)) as [rs w]. destruct H as (Hw' & Hr & Hm'). rewrite Ha in Hr.
  simpl in Hr, Hm'. rewrite Hm in Hr, Hm'. exists (abs w).
  pose proof (owned_zlen w Hw') as Hz. pose proof (owned_nodup w Hw') as Hnd. destruct (wf_pool w Hw').
  unfold checkedOutBytes. rewrite wf_out0, size_list_to_set by done. rewrite zlen_app in wf_bytes0.
  split_and!; try done; unfold zlen in *; lia.
Qed.

Lemma chunks_refine_store_witness :
  let (rs, w) := run_ops [FromBytes [1; 2; 3]; Allocate 4; CopyTo 0 1 1 0 3; ByteAt 1 3; Release 0; Release 0]
    (new_world (chunkPool [] ∅ 0 131072)) in
  ∃ a, spec_run 131072 ∅ [FromBytes [1; 2; 3]; Allocate 4; CopyTo 0 1 1 0 3; ByteAt 1 3; Release 0; Release 0] rs a ∧
    abs w = a ∧ checkedOutBytes (pool w) = store_chunks a * PACK_CHUNK_BYTES ∧
    checkedOutBytes (pool w) + zlen (free (pool w)) * PACK_CHUNK_BYTES = allocatedBytes (pool w) ∧
    allocatedBytes (pool w) <= 131072.
Proof. apply chunks_refine_store. reflexivity. Defined.

(** A footprint is the least whole number of chunks that holds the length, and it is
    refused exactly when the length is no size or the footprint is not a safe integer. *)
Theorem chunkFootprint_least n :
  match chunkFootprint n with
  | Ok f => 0 <= n <= f ∧ (PACK_CHUNK_BYTES | f) ∧ f <= MAX_SAFE_INTEGER ∧
      ∀ k, n <= k * PACK_CHUNK_BYTES → f <= k * PACK_CHUNK_BYTES
  | Throw _ => n < 0 ∨ MAX_SAFE_INTEGER < n ∨ MAX_SAFE_INTEGER < chunk_count n * PACK_CHUNK_BYTES
  end.
Proof.
  unfold chunkFootprint. destruct (_ || _) eqn:E.
  { apply bad_length_dec in E. unfold bad_length in E. lia. }
  assert (¬ bad_length n) as Hb by (rewrite <- bad_length_dec, E; done). unfold bad_length in Hb.
  pose proof (chunk_count_bounds n ltac:(lia)). pose proof chunk_bytes_pos.
  destruct (negb (isSafeInteger (chunk_count n * PACK_CHUNK_BYTES))) eqn:E2.
  - right. right. apply negb_true_iff in E2. unfold isSafeInteger in E2. apply andb_false_iff in E2.
    unfold MAX_SAFE_INTEGER in *. destruct E2; zbool; lia.
  - apply negb_false_iff in E2. unfold isSafeInteger in E2. zbool. split; [lia|]. split; [by exists (chunk_count n)|]. split; [lia|].
    intros k Hk. apply Z.mul_le_mono_nonneg_r; [lia|].
    assert (chunk_count n < k + 1); [|lia]. apply (Z.mul_lt_mono_pos_r PACK_CHUNK_BYTES); lia.
Qed.
