(* ===== verification/Sources.v ===== *)
(** Byte sources: the interface [ByteSource] of
    src/packages/git/src/store/pack/chunks.ts, which [ChunkedBytes] and the
    [FlatByteSource] of shared.ts implement and which delta bases are read through. *)

From S2P Require Import Prelude Arrays Chunks.

(** The interface, and what an implementation promises: a source of known content is
    read by [copyTo] into any object of the heap that it is apart from. *)
Class ByteSource (S : Type) := {
  source_length : S → world → Z;
  source_byteAt : S → Z → M Z;
  source_copyTo : S → nat → Z → Z → Z → M unit;
  source_chunks : S → M (list (list Z));
}.

Class ByteSourceLaws (S : Type) `{ByteSource S} := {
  (** The content in a store; [None] when the source was released. *)
  source_content : S → store → option (list Z);
  (** The source is not the object [o]. *)
  source_apart : S → nat → Prop;
  source_length_content s w bs :
    wf w → source_content s (abs w) = Some bs → source_length s w = zlen bs;
  source_apart_fresh s a o bs : source_content s a = Some bs → a !! o = None → source_apart s o;
  source_content_stable s a o x :
    source_apart s o → source_content s (<[o := x]> a) = source_content s a;
  source_byteAt_content s w bs i :
    wf w → source_content s (abs w) = Some bs → in_range (zlen bs) i 1 →
    ∃ b, source_byteAt s i w = (Ok b, w) ∧ at_ bs i = Some b;
  source_copyTo_content s w bs o old toff soff n :
    wf w → source_content s (abs w) = Some bs → live (abs w) o = Some old → source_apart s o →
    in_range (zlen bs) soff n → in_range (zlen old) toff n →
    ∃ w', source_copyTo s o toff soff n w = (Ok tt, w') ∧ wf w' ∧ pool w' = pool w ∧
      abs w' = <[o := Some (splice old toff (slice bs soff (soff + n)))]> (abs w);
  source_chunks_content s w bs :
    wf w → source_content s (abs w) = Some bs →
    ∃ parts, source_chunks s w = (Ok parts, w) ∧ mjoin parts = bs;
}.

(** ** ChunkedBytes *)

(** A reference to a [ChunkedBytes]. *)
Record chunked := Chunked { chunked_ref : nat }.

#[export] Instance chunked_source : ByteSource chunked := {|
  source_length s w := length_ (object (chunked_ref s) w);
  source_byteAt s := byteAt (chunked_ref s);
  source_copyTo s := copyTo (chunked_ref s);
  source_chunks s := chunks (chunked_ref s);
|}.

(** ** FlatByteSource *)

Record FlatByteSource := flat { flat_bytes : list Z }.

Definition flat_byteAt (s : FlatByteSource) (index : Z) : M Z :=
  match at_ (flat_bytes s) index with
  | None => raise (RangeError (js "byte source index is out of range"))
  | Some value => mret value
  end.

Definition flat_copyTo (s : FlatByteSource) (target : nat) (targetOffset sourceOffset length : Z) : M unit :=
  if negb (isSafeInteger sourceOffset) || negb (isSafeInteger length) || (sourceOffset <? 0) || (length <? 0)
     || (zlen (flat_bytes s) - length <? sourceOffset)
  then raise (RangeError (js "byte source range is out of bounds"))
  else write target targetOffset (slice (flat_bytes s) sourceOffset (sourceOffset + length)).

Definition flat_chunks (s : FlatByteSource) : M (list (list Z)) := mret [flat_bytes s].

#[export] Instance flat_source : ByteSource FlatByteSource := {|
  source_length s w := zlen (flat_bytes s);
  source_byteAt := flat_byteAt;
  source_copyTo := flat_copyTo;
  source_chunks := flat_chunks;
|}.

(** ** The implementations keep the promise *)

#[export] Program Instance chunked_laws : ByteSourceLaws chunked := {|
  source_content s a := live a (chunked_ref s);
  source_apart s o := chunked_ref s ≠ o;
|}.
Next Obligation.
  intros s w bs Hw [c Hc]%abs_holds; [|done]. simpl. rewrite (object_holds _ _ _ _ Hc). symmetry.
  apply (h_length _ _ _ _ Hc).
Qed.
Next Obligation. intros s a o bs Hs Hn <-. unfold live in Hs. by rewrite Hn in Hs. Qed.
Next Obligation. intros s a o x Hne. unfold live. by rewrite lookup_insert_ne. Qed.
Next Obligation.
  intros s w bs i Hw [c Hc]%abs_holds Hi; [|done]. by apply (byteAt_live _ _ c).
Qed.
Next Obligation.
  intros s w bs o old toff soff n Hw [cs Hs]%abs_holds [ct Ht]%abs_holds Hne Hrs Hrt; [|done..]. simpl.
  unfold copyTo. rewrite (bind_ok _ _ w tt w).
  2:{ rewrite (assertRange_live _ _ _ _ _ _ Hs). by rewrite decide_True. }
  rewrite (bind_ok _ _ w tt w).
  2:{ rewrite (assertRange_live _ _ _ _ _ _ Ht). by rewrite decide_True. }
  unfold in_range in *.
  destruct (copy_loop_spec (Z.to_nat n) w (chunked_ref s) o cs ct bs old toff soff n 0 Hw Hs Ht)
    as (w' & new & Hc & Hw' & Ha & Hz & Ho & Hp & Hnew); [lia..|].
  exists w'. split_and!; try done. rewrite Ha, Hnew by by left. by rewrite !Z.add_0_r.
Qed.
Next Obligation.
  intros s w bs Hw [c Hc]%abs_holds; [|done]. by apply (chunks_live _ _ c).
Qed.

#[export] Program Instance flat_laws : ByteSourceLaws FlatByteSource := {|
  source_content s _ := if decide (zlen (flat_bytes s) <= MAX_SAFE_INTEGER) then Some (flat_bytes s) else None;
  source_apart _ _ := True;
|}.
Next Obligation. intros s w bs Hw Hs. simpl in *. case_decide; [by injection Hs as <-|done]. Qed.
Next Obligation. done. Qed.
Next Obligation. done. Qed.
Next Obligation.
  intros s w bs i Hw Hs Hi. simpl in Hs; case_decide; [|done]. injection Hs as <-. unfold in_range in Hi. simpl.
  unfold flat_byteAt. destruct (proj2 (at_is_Some (flat_bytes s) i) ltac:(lia)) as [b ->]. by exists b.
Qed.
Next Obligation.
  intros s w bs o old toff soff n Hw Hs [c Hc]%abs_holds _ Hrs Hrt; [|done]. simpl in Hs; case_decide as Hz; [|done].
  injection Hs as <-. unfold in_range in *. simpl. unfold flat_copyTo. rewrite !safe_int by lia.
  cbn [negb orb]. zdec.
  destruct (write_live w o c old toff (slice (flat_bytes s) soff (soff + n)) Hw Hc) as (w' & H & Hw' & Ha & _ & Hp).
  { unfold in_range. rewrite zlen_slice by lia. lia. }
  by exists w'.
Qed.
Next Obligation.
  intros s w bs Hw Hs. simpl in Hs; case_decide; [|done]. injection Hs as <-. exists [flat_bytes s].
  split; [done|]. apply app_nil_r.
Qed.
