(* ===== verification/Delta.v ===== *)
(** Deltas: src/packages/git/src/store/pack/delta.ts and the delta checks of
    shared-delta.ts. *)

From S2P Require Import Prelude Arrays Chunks Sources.

Definition MAX_DELTA_TARGET : Z := 512 * 1024 * 1024.
Definition MAX_DELTA_WORKING_BYTES : Z := 48 * 1024 * 1024.
Definition MAX_DELTA_INSTRUCTION_BYTES : Z := 48 * 1024 * 1024.
Definition MAX_PACK_DELTA_WORKING_BYTES : Z := 48 * 1024 * 1024.

(** [byte & 0x80], as a condition. *)
Definition high_bit (byte : Z) : bool := negb (Z.land byte 128 =? 0).

(** A bit mask of the code, as a condition. *)
Definition has (command bit : Z) : bool := negb (Z.land command bit =? 0).

(** * applyDelta *)

(** A size: an integer, or [NaN] ([None]).  An integer below 2^53 is exact; a larger one
    stands for the double it is rounded to, or for infinity, which compares with the
    sizes of arrays as the integer does. *)
Notation number := (option Z).

(** [(byte & 0x7f) * 2 ** shift]: [2 ** shift] is infinite from 1024 on. *)
Definition varint_term (byte shift : Z) : number :=
  if (1024 <=? shift) && (Z.land byte 127 =? 0) then None else Some (Z.land byte 127 * 2 ^ shift).

Definition number_add (a b : number) : number := a ← a; b ← b; Some (a + b).

Section applyDelta.
  Context (base delta : list Z).

(** The closure [next]; the state is [pos]. *)
Definition next : effect Z Z := λ pos,
  if zlen delta <=? pos then (Throw (CorruptError (js "delta truncated")), pos)
  else match at_ delta pos with
       | Some byte => (Ok byte, pos + 1)
       | None => (Throw (PlainError (js "undefined")), pos)
       end.

(** The do-while loop of [varint]. *)
Fixpoint varint_loop (fuel : nat) (result : number) (shift : Z) : effect Z number :=
  match fuel with
  | O => mret result
  | S fuel =>
      byte ← next;
      let result := number_add result (varint_term byte shift) in
      if high_bit byte then varint_loop fuel result (shift + 7) else mret result
  end.
Definition varint : effect Z number := varint_loop (S (length delta)) (Some 0) 0.

(** [if (command & bit) ... next() ...], or [0]. *)
Definition argument (command bit : Z) : effect Z Z := if has command bit then next else mret 0.

(** The offset and the size of a copy command. *)
Definition copy_arguments (command : Z) : effect Z (Z * Z) :=
  o0 ← argument command 1;
  o1 ← argument command 2;
  o2 ← argument command 4;
  o3 ← argument command 8;
  s0 ← argument command 16;
  s1 ← argument command 32;
  s2 ← argument command 64;
  mret (Z.lor (Z.lor o0 (Z.shiftl o1 8)) (Z.shiftl o2 16) + o3 * 16777216,
        Z.lor (Z.lor s0 (Z.shiftl s1 8)) (Z.shiftl s2 16)).

(** One iteration of the loop over the commands, from [out] and [written]. *)
Definition apply_command (targetSize : number) (out : list Z) (written : Z) : effect Z (list Z * Z) :=
  let over n := match targetSize with Some t => t <? written + n | None => false end in
  command ← next;
  if high_bit command then
    '(offset, size) ← copy_arguments command;
    let size := if size =? 0 then 65536 else size in
    lift (throw_if (zlen base <? offset + size) (CorruptError (js "delta copy out of range")));;
    lift (throw_if (over size) (CorruptError (js "delta copy overflows target")));;
    out ← lift (typed_set out (slice base offset (offset + size)) written);
    mret (out, written + size)
  else if negb (command =? 0) then
    pos ← gets (λ pos, pos);
    lift (throw_if (zlen delta <? pos + command) (CorruptError (js "delta literal truncated")));;
    lift (throw_if (over command) (CorruptError (js "delta literal overflows target")));;
    out ← lift (typed_set out (slice delta pos (pos + command)) written);
    modify (λ pos, pos + command);;
    mret (out, written + command)
  else raise (CorruptError (js "invalid delta opcode 0")).

(** [while (pos < delta.length)]; every iteration reads a byte at least. *)
Fixpoint apply_loop (fuel : nat) (targetSize : number) (out : list Z) (written : Z) : effect Z (list Z * Z) :=
  match fuel with
  | O => mret (out, written)
  | S fuel =>
      more ← gets (λ pos, pos <? zlen delta);
      if (more : bool) then
        '(out, written) ← apply_command targetSize out written;
        apply_loop fuel targetSize out written
      else mret (out, written)
  end.

Definition apply_delta : effect Z (list Z) :=
  sourceSize ← varint;
  targetSize ← varint;
  lift (throw_if (negb (bool_decide (sourceSize = Some (zlen base)))) (CorruptError (js "delta base size mismatch")));;
  lift (throw_if (match targetSize with Some t => MAX_DELTA_TARGET <? t | None => false end)
                 (CorruptError (js "delta target too large")));;
  let out := replicate (Z.to_nat (default 0 targetSize)) 0 in
  '(out, written) ← apply_loop (length delta) targetSize out 0;
  lift (throw_if (negb (bool_decide (Some written = targetSize))) (CorruptError (js "delta target size mismatch")));;
  mret out.

End applyDelta.

Definition applyDelta (base delta : list Z) : outcome (list Z) := fst (apply_delta base delta 0).

(** * encodeDeltaHeader *)

(** The do-while loop over the groups of seven bits; [None] without fuel. *)
Fixpoint encode_size (fuel : nat) (value : Z) : list Z :=
  match fuel with
  | O => []
  | S fuel =>
      let byte := Z.land value 127 in
      let value := value / 128 in
      if 0 <? value then Z.lor byte 128 :: encode_size fuel value else [byte]
  end.

(** A safe integer has at most eight groups. *)
Definition encodeDeltaHeader (sourceSize targetSize : Z) : list Z :=
  encode_size 8 sourceSize ++ encode_size 8 targetSize.

(** * shared-delta.ts *)

Section working_set.
  Context (delta : list Z).

(** [varint] of [validateDeltaWorkingSet]; the shift stops it. *)
Fixpoint checked_varint_loop (fuel : nat) (value shift : Z) : effect Z Z :=
  match fuel with
  | O => mret value
  | S fuel =>
      byte ← next delta;
      let value := value + Z.land byte 127 * 2 ^ shift in
      let shift := shift + 7 in
      if 56 <? shift then raise (CorruptError (js "delta size is invalid"))
      else if high_bit byte then checked_varint_loop fuel value shift else mret value
  end.
Definition checked_varint : effect Z Z := checked_varint_loop 9 0 0.

Definition validate_working_set (base : list Z) (expectedTargetSize : Z) : effect Z Z :=
  sourceSize ← checked_varint;
  targetSize ← checked_varint;
  lift (throw_if (negb (sourceSize =? zlen base)) (CorruptError (js "delta base size mismatch")));;
  lift (throw_if (negb (targetSize =? expectedTargetSize)) (CorruptError (js "delta target size mismatch")));;
  let workingBytes := zlen base + zlen delta + targetSize in
  lift (throw_if (negb (isSafeInteger workingBytes) || (MAX_PACK_DELTA_WORKING_BYTES <? workingBytes))
                 (CorruptError (js "delta working set exceeds 48 MiB")));;
  mret targetSize.

End working_set.

Definition validateDeltaWorkingSet (base delta : list Z) (expectedTargetSize : Z) : outcome Z :=
  fst (validate_working_set delta base expectedTargetSize 0).

Definition checkDeltaInflateBudget (base : list Z) (deltaSize : Z) : outcome unit :=
  throw_if (negb (isSafeInteger deltaSize) || (deltaSize <? 0) || (MAX_PACK_DELTA_WORKING_BYTES <? zlen base + deltaSize))
           (CorruptError (js "delta input exceeds the bounded working set")).

(** ** DeltaHeaderProbe *)

Record DeltaHeaderProbe := probe {
  pr_value : Z;
  pr_shift : Z;
  pr_field : Z;
  pr_sourceSize : option Z;
  pr_targetSize : option Z;
}.

Definition new_DeltaHeaderProbe : DeltaHeaderProbe := probe 0 0 0 None None.

Definition probe_complete (p : DeltaHeaderProbe) : bool := bool_decide (is_Some (pr_targetSize p)).

(** The loop of [update]: a throw leaves the fields as they are then. *)
Fixpoint probe_loop (bytes : list Z) : effect DeltaHeaderProbe unit := λ p,
  match bytes with
  | [] => (Ok tt, p)
  | byte :: bytes =>
      let value := pr_value p + Z.land byte 127 * 2 ^ pr_shift p in
      let shift := pr_shift p + 7 in
      let p := probe value shift (pr_field p) (pr_sourceSize p) (pr_targetSize p) in
      if (56 <? shift) || negb (isSafeInteger value) then (Throw (CorruptError (js "delta size is invalid")), p)
      else if high_bit byte then probe_loop bytes p
      else
        let p := if pr_field p =? 0
                 then probe 0 0 (pr_field p + 1) (Some value) (pr_targetSize p)
                 else probe 0 0 (pr_field p + 1) (pr_sourceSize p) (Some value) in
        if probe_complete p then (Ok tt, p) else probe_loop bytes p
  end.

Definition probe_update (bytes : list Z) : effect DeltaHeaderProbe unit := λ p,
  if probe_complete p then (Ok tt, p) else probe_loop bytes p.

Definition probe_finish (p : DeltaHeaderProbe) : outcome (Z * Z) :=
  match pr_sourceSize p, pr_targetSize p with
  | Some s, Some t => Ok (s, t)
  | _, _ => Throw (CorruptError (js "delta header is truncated"))
  end.
