(* ===== verification/DeltaApplier.v ===== *)
(** The incremental delta parser [DeltaApplier] of
    src/packages/git/src/store/pack/delta.ts: its input arrives in pieces, and it writes
    into a chunked object that it owns until it is finished, fails or is aborted. *)

From S2P Require Import Prelude Arrays Chunks Sources Delta.

Inductive DeltaPhase := SourceSize | TargetSize | Opcode | Copy | Literal.

#[export] Instance DeltaPhase_eq_dec : EqDecision DeltaPhase.
Proof. solve_decision. Defined.

(** The mutable fields. *)
Record DeltaApplier := deltaApplier {
  phase : DeltaPhase;
  sizeValue : Z;
  sizeMultiplier : Z;
  target : option nat;
  targetSize : Z;
  written : Z;
  instructionBytes : Z;
  copyCommand : Z;
  copyBit : Z;
  copyOffset : Z;
  copySize : Z;
  literalRemaining : Z;
  failed : bool;
  finished : bool;
}.

Definition set_phase p (a : DeltaApplier) := deltaApplier p (sizeValue a) (sizeMultiplier a) (target a)
  (targetSize a) (written a) (instructionBytes a) (copyCommand a) (copyBit a) (copyOffset a) (copySize a)
  (literalRemaining a) (failed a) (finished a).
Definition set_size v m (a : DeltaApplier) := deltaApplier (phase a) v m (target a)
  (targetSize a) (written a) (instructionBytes a) (copyCommand a) (copyBit a) (copyOffset a) (copySize a)
  (literalRemaining a) (failed a) (finished a).
Definition set_target t (a : DeltaApplier) := deltaApplier (phase a) (sizeValue a) (sizeMultiplier a) t
  (targetSize a) (written a) (instructionBytes a) (copyCommand a) (copyBit a) (copyOffset a) (copySize a)
  (literalRemaining a) (failed a) (finished a).
Definition set_targetSize n (a : DeltaApplier) := deltaApplier (phase a) (sizeValue a) (sizeMultiplier a) (target a)
  n (written a) (instructionBytes a) (copyCommand a) (copyBit a) (copyOffset a) (copySize a)
  (literalRemaining a) (failed a) (finished a).
Definition set_written n (a : DeltaApplier) := deltaApplier (phase a) (sizeValue a) (sizeMultiplier a) (target a)
  (targetSize a) n (instructionBytes a) (copyCommand a) (copyBit a) (copyOffset a) (copySize a)
  (literalRemaining a) (failed a) (finished a).
Definition set_instructionBytes n (a : DeltaApplier) := deltaApplier (phase a) (sizeValue a) (sizeMultiplier a)
  (target a) (targetSize a) (written a) n (copyCommand a) (copyBit a) (copyOffset a) (copySize a)
  (literalRemaining a) (failed a) (finished a).
Definition set_copy c b o s (a : DeltaApplier) := deltaApplier (phase a) (sizeValue a) (sizeMultiplier a) (target a)
  (targetSize a) (written a) (instructionBytes a) c b o s (literalRemaining a) (failed a) (finished a).
Definition set_literal n (a : DeltaApplier) := deltaApplier (phase a) (sizeValue a) (sizeMultiplier a) (target a)
  (targetSize a) (written a) (instructionBytes a) (copyCommand a) (copyBit a) (copyOffset a) (copySize a)
  n (failed a) (finished a).
Definition set_failed (a : DeltaApplier) := deltaApplier (phase a) (sizeValue a) (sizeMultiplier a) (target a)
  (targetSize a) (written a) (instructionBytes a) (copyCommand a) (copyBit a) (copyOffset a) (copySize a)
  (literalRemaining a) true (finished a).
Definition set_finished (a : DeltaApplier) := deltaApplier (phase a) (sizeValue a) (sizeMultiplier a) (target a)
  (targetSize a) (written a) (instructionBytes a) (copyCommand a) (copyBit a) (copyOffset a) (copySize a)
  (literalRemaining a) (failed a) true.

Record DeltaLimits := deltaLimits {
  expectedTargetSize : option Z;
  maxWorkingBytes : Z;
  maxInstructionBytes : Z;
}.

(** An applier beside the pack memory. *)
Notation D := (effect (DeltaApplier * world)).

Definition in_memory {A} (m : M A) : D A := λ s, let (r, w) := m (snd s) in (r, (fst s, w)).
Definition this {A} (f : DeltaApplier → A) : D A := gets (λ s, f (fst s)).
Definition assign (f : DeltaApplier → DeltaApplier) : D unit := modify (λ s, (f (fst s), snd s)).

Section applier.
  Context {Src : Type} `{ByteSource Src} (base : Src) (limits : DeltaLimits).

(** [new DeltaApplier(base, pool, limits)]. *)
Definition new_DeltaApplier : outcome DeltaApplier :=
  let invalid n := negb (isSafeInteger n) || (n <? 0) in
  if match expectedTargetSize limits with Some n => invalid n | None => false end
     || invalid (maxWorkingBytes limits) || invalid (maxInstructionBytes limits)
  then Throw (RangeError (js "invalid delta limits"))
  else Ok (deltaApplier SourceSize 0 1 None 0 0 0 0 1 0 0 0 false false).

(** [get targetSize]. *)
Definition get_targetSize (a : DeltaApplier) : option Z :=
  match phase a with SourceSize | TargetSize => None | _ => Some (targetSize a) end.

(** [#requireTarget()]. *)
Definition requireTarget : D nat :=
  t ← this target;
  match t with
  | Some t => mret t
  | None => raise (PlainError (js "delta target is unavailable"))
  end.

(** [#releaseTarget()]. *)
Definition releaseTarget : D unit :=
  t ← this target;
  match t with
  | Some t => in_memory (release t);; assign (set_target None)
  | None => mret tt
  end.

(** [#sizeByte(byte)]. *)
Definition sizeByte (byte : Z) : D bool :=
  v ← this sizeValue;
  m ← this sizeMultiplier;
  let addition := Z.land byte 127 * m in
  if negb (isSafeInteger addition) || negb (isSafeInteger (v + addition))
  then raise (CorruptError (js "delta size is invalid"))
  else
    assign (set_size (v + addition) m);;
    if negb (high_bit byte) then mret true
    else
      assign (set_size (v + addition) (m * 128));;
      if negb (isSafeInteger (m * 128)) then raise (CorruptError (js "delta size is invalid")) else mret false.

(** [#resetSize()]. *)
Definition resetSize : D unit := assign (set_size 0 1).

(** [#admitTarget(targetSize)]. *)
Definition admitTarget (size : Z) : D unit :=
  if MAX_DELTA_TARGET <? size then raise (CorruptError (js "delta target too large"))
  else if match expectedTargetSize limits with Some n => negb (size =? n) | None => false end
  then raise (CorruptError (js "delta target size mismatch"))
  else
    baseLength ← in_memory (gets (source_length base));
    baseBytes ← lift (chunkFootprint baseLength);
    targetBytes ← lift (chunkFootprint size);
    if (maxWorkingBytes limits <? baseBytes) || (maxWorkingBytes limits - baseBytes <? targetBytes)
    then raise (CorruptError (js "delta working set exceeds 48 MiB"))
    else
      assign (set_targetSize size);;
      t ← in_memory (allocate size);
      assign (set_target (Some t)).

(** [#copyByte(bit, byte)]. *)
Definition copyByte (bit byte : Z) : D unit :=
  a ← this id;
  if bit <=? 8 then
    let multiplier := if bit =? 1 then 1 else if bit =? 2 then 256 else if bit =? 4 then 65536 else 16777216 in
    assign (set_copy (copyCommand a) (copyBit a) (copyOffset a + byte * multiplier) (copySize a))
  else
    let multiplier := if bit =? 16 then 1 else if bit =? 32 then 256 else 65536 in
    assign (set_copy (copyCommand a) (copyBit a) (copyOffset a) (copySize a + byte * multiplier)).

(** [#applyCopy()]. *)
Definition applyCopy : D unit :=
  a ← this id;
  let size := if copySize a =? 0 then 65536 else copySize a in
  baseLength ← in_memory (gets (source_length base));
  if baseLength - size <? copyOffset a then raise (CorruptError (js "delta copy out of range"))
  else if targetSize a - written a <? size then raise (CorruptError (js "delta copy overflows target"))
  else
    t ← requireTarget;
    in_memory (source_copyTo base t (written a) (copyOffset a) size);;
    assign (set_written (written a + size)).

(** [while (copyBit <= 0x40 && (copyCommand & copyBit) === 0) copyBit *= 2;] a bit
    doubles seven times at most before it passes 0x40. *)
Fixpoint skip_bits (fuel : nat) (command bit : Z) : Z :=
  match fuel with
  | O => bit
  | S fuel => if (bit <=? 64) && negb (has command bit) then skip_bits fuel command (bit * 2) else bit
  end.
Definition skipBits : D Z :=
  a ← this id;
  let bit := skip_bits 8 (copyCommand a) (copyBit a) in
  assign (set_copy (copyCommand a) bit (copyOffset a) (copySize a));;
  mret bit.

(** One iteration of the loop of [#push], at [at_]: the position after it. *)
Definition push_step (input : list Z) (at_ : Z) : D Z :=
  let byte := default 0 (Prelude.at_ input at_) in
  a ← this id;
  match phase a with
  | SourceSize | TargetSize =>
      complete ← sizeByte byte;
      if negb complete then mret (at_ + 1)
      else
        a ← this id;
        match phase a with
        | SourceSize =>
            baseLength ← in_memory (gets (source_length base));
            if negb (sizeValue a =? baseLength) then raise (CorruptError (js "delta base size mismatch"))
            else assign (set_phase TargetSize);; resetSize;; mret (at_ + 1)
        | _ => admitTarget (sizeValue a);; assign (set_phase Opcode);; resetSize;; mret (at_ + 1)
        end
  | Opcode =>
      if high_bit byte then assign (set_copy byte 1 0 0);; assign (set_phase Copy);; mret (at_ + 1)
      else if byte =? 0 then raise (CorruptError (js "invalid delta opcode 0"))
      else if targetSize a - written a <? byte then raise (CorruptError (js "delta literal overflows target"))
      else assign (set_literal byte);; assign (set_phase Literal);; mret (at_ + 1)
  | Copy =>
      bit ← skipBits;
      if 64 <? bit then applyCopy;; assign (set_phase Opcode);; mret at_
      else
        copyByte bit byte;;
        a ← this id;
        assign (set_copy (copyCommand a) (bit * 2) (copyOffset a) (copySize a));;
        mret (at_ + 1)
  | Literal =>
      let length := Z.min (literalRemaining a) (zlen input - at_) in
      t ← requireTarget;
      in_memory (write t (written a) (slice input at_ (at_ + length)));;
      assign (set_written (written a + length));;
      assign (set_literal (literalRemaining a - length));;
      (if literalRemaining a - length =? 0 then assign (set_phase Opcode) else mret tt);;
      mret (at_ + length)
  end.

(** The loop: every second iteration at least reads a byte. *)
Fixpoint push_loop (fuel : nat) (input : list Z) (at_ : Z) : D unit :=
  match fuel with
  | O => mret tt
  | S fuel => if at_ <? zlen input then at_ ← push_step input at_; push_loop fuel input at_ else mret tt
  end.

(** [#push(input)]. *)
Definition push_all (input : list Z) : D unit :=
  push_loop (2 * length input + 1) input 0;;
  a ← this id;
  match phase a with
  | Copy =>
      bit ← skipBits;
      if 64 <? bit then applyCopy;; assign (set_phase Opcode) else mret tt
  | _ => mret tt
  end.

(** The catch block of [push] and of [finish]. *)
Definition fail {A} (error : jserror) : D A := assign set_failed;; releaseTarget;; raise error.

(** [if (this.#failed) throw ...; if (this.#finished) throw ...;] *)
Definition assertActive : D unit :=
  a ← this id;
  if failed a then raise (PlainError (js "delta applier has failed"))
  else if finished a then raise (PlainError (js "delta applier is finished"))
  else mret tt.

Definition push (input : list Z) : D unit :=
  assertActive;;
  try_catch
    (a ← this id;
     if maxInstructionBytes limits - instructionBytes a <? zlen input
     then raise (CorruptError (js "delta instruction stream too large"))
     else assign (set_instructionBytes (instructionBytes a + zlen input));; push_all input)
    fail.

Definition finish : D nat :=
  assertActive;;
  try_catch
    (a ← this id;
     match phase a with
     | Literal => raise (CorruptError (js "delta literal truncated"))
     | SourceSize | TargetSize | Copy => raise (CorruptError (js "delta truncated"))
     | Opcode =>
         if negb (written a =? targetSize a) then raise (CorruptError (js "delta target size mismatch"))
         else t ← requireTarget; assign (set_target None);; assign set_finished;; mret t
     end)
    fail.

Definition abort : D unit :=
  a ← this id;
  if finished a then mret tt else assign set_failed;; releaseTarget.

(** A client: the pieces in order, then the end. *)
Fixpoint push_pieces (pieces : list (list Z)) : D unit :=
  match pieces with
  | [] => mret tt
  | piece :: pieces => push piece;; push_pieces pieces
  end.
Definition run_applier (pieces : list (list Z)) : D nat := push_pieces pieces;; finish.

End applier.

(** * The parser, byte by byte

    What the applier computes, without its memory: the state after some input is a
    phase, the target's size and the bytes written. *)

Inductive dphase : Type :=
| DSize (source : bool) (value multiplier : Z)
| DOpcode
| DCopy (command bit offset size : Z)
| DLiteral (remaining : Z).

Record dstate := DState { d_phase : dphase; d_size : Z; d_out : list Z }.

Definition d_init : dstate := DState (DSize true 0 1) 0 [].

Section feed.
  Context (b : list Z) (admit_size : Z → outcome unit).

(** The copy of a complete command. *)
Definition d_copy (offset size : Z) (d : dstate) : outcome dstate :=
  let size := if size =? 0 then 65536 else size in
  if zlen b - size <? offset then Throw (CorruptError (js "delta copy out of range"))
  else if d_size d - zlen (d_out d) <? size then Throw (CorruptError (js "delta copy overflows target"))
  else Ok (DState DOpcode (d_size d) (d_out d ++ slice b offset (offset + size))).

(** Skip the absent arguments of a copy command, and copy when none is left. *)
Definition settle (d : dstate) : outcome dstate :=
  match d_phase d with
  | DCopy command bit offset size =>
      let bit := skip_bits 8 command bit in
      if 64 <? bit then d_copy offset size d
      else Ok (DState (DCopy command bit offset size) (d_size d) (d_out d))
  | _ => Ok d
  end.

Definition feed_size (source : bool) (v m byte : Z) (d : dstate) : outcome dstate :=
  let addition := Z.land byte 127 * m in
  if negb (isSafeInteger addition) || negb (isSafeInteger (v + addition))
  then Throw (CorruptError (js "delta size is invalid"))
  else if high_bit byte then
    if negb (isSafeInteger (m * 128)) then Throw (CorruptError (js "delta size is invalid"))
    else Ok (DState (DSize source (v + addition) (m * 128)) (d_size d) (d_out d))
  else if source then
    if negb (v + addition =? zlen b) then Throw (CorruptError (js "delta base size mismatch"))
    else Ok (DState (DSize false 0 1) (d_size d) (d_out d))
  else admit_size (v + addition);; Ok (DState DOpcode (v + addition) (d_out d)).

Definition feed_opcode (byte : Z) (d : dstate) : outcome dstate :=
  if high_bit byte then Ok (DState (DCopy byte 1 0 0) (d_size d) (d_out d))
  else if byte =? 0 then Throw (CorruptError (js "invalid delta opcode 0"))
  else if d_size d - zlen (d_out d) <? byte then Throw (CorruptError (js "delta literal overflows target"))
  else Ok (DState (DLiteral byte) (d_size d) (d_out d)).

(** The weight of the argument of [bit]. *)
Definition bit_multiplier (bit : Z) : Z :=
  if bit <=? 8 then (if bit =? 1 then 1 else if bit =? 2 then 256 else if bit =? 4 then 65536 else 16777216)
  else if bit =? 16 then 1 else if bit =? 32 then 256 else 65536.

Definition feed_copy (command bit offset size byte : Z) (d : dstate) : dstate :=
  let term := byte * bit_multiplier bit in
  if bit <=? 8 then DState (DCopy command (bit * 2) (offset + term) size) (d_size d) (d_out d)
  else DState (DCopy command (bit * 2) offset (size + term)) (d_size d) (d_out d).

Definition feed_literal (n byte : Z) (d : dstate) : dstate :=
  DState (if n - 1 =? 0 then DOpcode else DLiteral (n - 1)) (d_size d) (d_out d ++ [byte]).

Definition feed (byte : Z) (d : dstate) : outcome dstate :=
  d ← settle d;
  match d_phase d with
  | DSize source v m => feed_size source v m byte d
  | DOpcode => feed_opcode byte d
  | DCopy command bit offset size => Ok (feed_copy command bit offset size byte d)
  | DLiteral n => Ok (feed_literal n byte d)
  end.

Fixpoint feeds (input : list Z) (d : dstate) : outcome dstate :=
  match input with
  | [] => Ok d
  | byte :: input => d ← feed byte d; feeds input d
  end.

Definition d_finish (d : dstate) : outcome (list Z) :=
  match d_phase d with
  | DLiteral _ => Throw (CorruptError (js "delta literal truncated"))
  | DOpcode =>
      if negb (zlen (d_out d) =? d_size d) then Throw (CorruptError (js "delta target size mismatch"))
      else Ok (d_out d)
  | _ => Throw (CorruptError (js "delta truncated"))
  end.

(** The whole delta at once. *)
Definition parse_delta (delta : list Z) : outcome (list Z) :=
  d ← feeds delta d_init; d ← settle d; d_finish d.

(** The states the parser reaches. *)
Definition d_ok (d : dstate) : Prop :=
  zlen (d_out d) <= d_size d ∧
  match d_phase d with
  | DSize _ v m => d_size d = 0 ∧ d_out d = [] ∧ 0 <= v ∧ 1 <= m
  | DOpcode => True
  | DCopy command bit offset size => 1 <= bit ∧ 0 <= offset ∧ 0 <= size
  | DLiteral n => 0 < n ∧ zlen (d_out d) + n <= d_size d
  end.

Lemma skip_bits_le fuel command bit : 1 <= bit → bit <= skip_bits fuel command bit.
Proof.
  revert bit. induction fuel as [|fuel IH]; intros bit Hb; cbn [skip_bits]; [lia|].
  case_match; [|lia]. specialize (IH (bit * 2)). lia.
Qed.

Lemma skip_bits_stop fuel command bit :
  1 <= bit → 128 <= bit * 2 ^ Z.of_nat fuel →
  64 < skip_bits fuel command bit ∨ has command (skip_bits fuel command bit) = true.
Proof.
  revert bit. induction fuel as [|fuel IH]; intros bit Hb Hf; cbn [skip_bits].
  { left. change (2 ^ Z.of_nat 0) with 1 in Hf. lia. }
  destruct (bit <=? 64) eqn:E; zbool; [|by left]. destruct (has command bit) eqn:Eh; simpl; [by right|].
  apply IH; [lia|]. rewrite Nat2Z.inj_succ, Z.pow_succ_r in Hf by lia. lia.
Qed.

Lemma skip_bits_fix fuel command bit :
  64 < bit ∨ has command bit = true → skip_bits fuel command bit = bit.
Proof.
  intros H. destruct fuel; [done|]. cbn [skip_bits]. destruct H as [H| ->].
  - by zdec.
  - by rewrite andb_false_r.
Qed.

#[local] Arguments skip_bits : simpl never.

(** A settled state has nothing to skip. *)
Definition settled (d : dstate) : Prop := settle d = Ok d.

Lemma d_copy_ok offset size d d' :
  0 <= offset → 0 <= size → d_copy offset size d = Ok d' → d_ok d' ∧ settled d'.
Proof.
  intros Ho Hs. unfold d_copy. set (n := if size =? 0 then 65536 else size).
  assert (0 < n) as Hn by (unfold n; destruct (size =? 0) eqn:E; zbool; lia).
  destruct (_ <? _) eqn:E1; [done|]. destruct (_ <? n) eqn:E2; [done|]. intros [= <-]. zbool.
  split; [|done]. split; [|done]. simpl. rewrite zlen_app, zlen_slice; lia.
Qed.

Lemma settle_ok d d' : d_ok d → settle d = Ok d' → d_ok d' ∧ settled d'.
Proof.
  intros [Hz Hd] Hs. unfold settle in Hs. destruct (d_phase d) as [source v m| |command bit offset size|n] eqn:Ep.
  1,2,4: injection Hs as <-; split; [split; [done|by rewrite Ep]|unfold settled, settle; by rewrite Ep].
  destruct Hd as (Hb & Ho & Hsz). destruct (64 <? _) eqn:E; [by apply d_copy_ok in Hs|]. injection Hs as <-. zbool.
  pose proof (skip_bits_le 8 command bit Hb). split.
  - split; [done|]. simpl. lia.
  - unfold settled, settle. cbn beta iota zeta delta [d_phase d_size d_out].
    rewrite (skip_bits_fix 8 command (skip_bits 8 command bit)).
    + by rewrite (proj2 (Z.ltb_ge _ _)).
    + apply skip_bits_stop; [done|]. change (2 ^ Z.of_nat 8) with 256. lia.
Qed.

Lemma feed_ok byte d d' :
  byte_ok byte → (∀ n, admit_size n = Ok tt → 0 <= n) → d_ok d → feed byte d = Ok d' → d_ok d'.
Proof.
  unfold byte_ok. intros Hbyte Ha Hd Hf. unfold feed in Hf. destruct (settle d) as [d1|] eqn:Es; [|done].
  apply settle_ok in Es as [[Hz H1] _]; [|done]. clear Hd d. cbn [mbind outcome_bind] in Hf.
  destruct (d_phase d1) as [source v m| |command bit offset size|n] eqn:Ep.
  - destruct H1 as (Hs & Ho & Hv & Hm). unfold feed_size in Hf.
    assert (0 <= Z.land byte 127) by (apply Z.land_nonneg; lia). assert (0 <= Z.land byte 127 * m) by nia.
    case_match; [done|]. destruct (high_bit byte).
    { case_match; [done|]. injection Hf as <-. split; simpl; [lia|]. split_and!; [done|done|lia|lia]. }
    destruct source.
    + case_match; [done|]. injection Hf as <-. split; simpl; [lia|]. split_and!; [done|done|lia|lia].
    + destruct (admit_size _) eqn:Ea; [|done]. injection Hf as <-. destruct a. apply Ha in Ea.
      split; [|done]. simpl. rewrite Ho. done.
  - unfold feed_opcode in Hf. destruct (high_bit byte).
    { injection Hf as <-. split; [done|]. simpl. lia. }
    case_match eqn:E0; [done|]. case_match eqn:E1; [done|]. injection Hf as <-. zbool. split; [done|]. simpl. lia.
  - destruct H1 as (Hb & Ho & Hs). injection Hf as <-. unfold feed_copy.
    assert (0 <= bit_multiplier bit) by (unfold bit_multiplier; repeat case_match; lia).
    assert (0 <= byte * bit_multiplier bit) by nia. case_match; (split; [done|]); simpl; lia.
  - injection Hf as <-. unfold feed_literal. destruct H1 as (Hn & Hr).
    split; simpl; rewrite zlen_app; change (zlen [byte]) with 1; [lia|].
    destruct (n - 1 =? 0) eqn:E; zbool; [done|lia].
Qed.

Lemma feeds_app l k d : feeds (l ++ k) d = feeds l d ≫= feeds k.
Proof. revert d. induction l as [|x l IH]; intros d; [done|]. simpl. destruct (feed x d); [apply IH|done]. Qed.

(** Settling early changes nothing. *)
Lemma feeds_settle l d d' : d_ok d → settle d = Ok d' → feeds l d' ≫= settle = feeds l d ≫= settle.
Proof.
  intros Hd Hs. destruct (settle_ok d d' Hd Hs) as [_ Hs']. destruct l as [|x l]; simpl; [by rewrite Hs|].
  unfold feed. by rewrite Hs, Hs'.
Qed.

(** The bytes of a literal, all at once. *)
Lemma feeds_literal l n d :
  d_phase d = DLiteral n → zlen l <= n → l ≠ [] →
  feeds l d = Ok (DState (if n - zlen l =? 0 then DOpcode else DLiteral (n - zlen l)) (d_size d) (d_out d ++ l)).
Proof.
  revert n d. induction l as [|x l IH]; intros n d Hp Hn Hl; [done|]. rewrite zlen_cons in *.
  cbn [feeds]. unfold feed, settle. rewrite Hp. cbn [mbind outcome_bind]. rewrite Hp. cbn [mbind outcome_bind].
  unfold feed_literal. destruct (decide (l = [])) as [->|Hne].
  - simpl. by replace (n - (1 + zlen (@nil Z))) with (n - 1) by done.
  - assert (0 < zlen l) by (destruct l; [done|]; rewrite zlen_cons; pose proof (zlen_nonneg l); lia).
    rewrite (proj2 (Z.eqb_neq (n - 1) 0)) by lia. rewrite (IH (n - 1)) by (done || lia). simpl.
    rewrite <- app_assoc. by replace (n - 1 - zlen l) with (n - (1 + zlen l)) by lia.
Qed.

End feed.
#[local] Arguments skip_bits : simpl never.

(** * The applier refines the parser *)

(** What [admitTarget] asks of a target size, for a base of [baseLength] bytes and a pool
    of [limit] bytes with [used] chunks out. *)
Definition admit_target (limits : DeltaLimits) (baseLength limit used size : Z) : outcome unit :=
  throw_if (MAX_DELTA_TARGET <? size) (CorruptError (js "delta target too large"));;
  throw_if (match expectedTargetSize limits with Some n => negb (size =? n) | None => false end)
           (CorruptError (js "delta target size mismatch"));;
  baseBytes ← chunkFootprint baseLength;
  targetBytes ← chunkFootprint size;
  throw_if ((maxWorkingBytes limits <? baseBytes) || (maxWorkingBytes limits - baseBytes <? targetBytes))
           (CorruptError (js "delta working set exceeds 48 MiB"));;
  throw_if (limit <? (used + chunk_count size) * PACK_CHUNK_BYTES)
           (RangeError (js "chunk pool allocation limit exceeded")).

Lemma admit_target_nonneg limits n limit used size : admit_target limits n limit used size = Ok tt → 0 <= size.
Proof.
  unfold admit_target. intros (? & _ & H)%bind_ok_inv.
  apply bind_ok_inv in H as (? & _ & H). apply bind_ok_inv in H as (? & _ & H).
  apply bind_ok_inv in H as (f & H & _). unfold chunkFootprint in H. destruct (_ || (size <? 0)) eqn:E; [done|].
  rewrite orb_false_iff in E. destruct E as [_ E]. by zbool.
Qed.

Section refinement.
  Context {Src : Type} `{ByteSourceLaws Src} (base : Src) (limits : DeltaLimits).
  (** The memory at the start, and the content of the base. *)
  Context (w0 : world) (b : list Z) (Hw0 : wf w0) (Hb : source_content base (abs w0) = Some b).
  Implicit Types (s : DeltaApplier * world) (d : dstate).

Definition limit : Z := maxAllocatedBytes (pool w0).
Definition admits : Z → outcome unit := admit_target limits (zlen b) limit (store_chunks (abs w0)).

(** The target's object, beside the objects of the start. *)
Record targets d s o c : Prop := {
  t_target : target (fst s) = Some o;
  t_fresh : abs w0 !! o = None;
  t_abs : abs (snd s) = <[o := Some c]> (abs w0);
  t_length : zlen c = d_size d;
  t_size : targetSize (fst s) = d_size d;
  t_written : written (fst s) = zlen (d_out d);
  t_out : slice c 0 (zlen (d_out d)) = d_out d;
}.

Definition phase_rel d s : Prop :=
  match d_phase d with
  | DSize source v m =>
      phase (fst s) = (if source then SourceSize else TargetSize) ∧ sizeValue (fst s) = v ∧
      sizeMultiplier (fst s) = m ∧ target (fst s) = None ∧ abs (snd s) = abs w0 ∧ written (fst s) = 0
  | DOpcode => phase (fst s) = Opcode ∧ ∃ o c, targets d s o c
  | DCopy command bit offset size =>
      (phase (fst s) = Copy ∧ copyCommand (fst s) = command ∧ copyBit (fst s) = bit ∧
       copyOffset (fst s) = offset ∧ copySize (fst s) = size) ∧ ∃ o c, targets d s o c
  | DLiteral n => (phase (fst s) = Literal ∧ literalRemaining (fst s) = n) ∧ ∃ o c, targets d s o c
  end.

Record rel (k : Z) d s : Prop := {
  r_failed : failed (fst s) = false;
  r_finished : finished (fst s) = false;
  r_bytes : instructionBytes (fst s) = k;
  r_wf : wf (snd s);
  r_max : maxAllocatedBytes (pool (snd s)) = limit;
  r_ok : d_ok d;
  r_phase : phase_rel d s;
}.

(** A state that has thrown: at most the target is to be released. *)
Definition failing s : Prop :=
  wf (snd s) ∧ maxAllocatedBytes (pool (snd s)) = limit ∧ finished (fst s) = false ∧
  ((target (fst s) = None ∧ abs (snd s) = abs w0) ∨
   ∃ o c, target (fst s) = Some o ∧ abs w0 !! o = None ∧ abs (snd s) = <[o := Some c]> (abs w0)).

Lemma rel_failing k d s : rel k d s → failing s.
Proof.
  intros [_ Hfin _ Hw Hm _ Hp]. split; [done|]. split; [done|]. split; [done|].
  unfold phase_rel in Hp. destruct (d_phase d); [left; naive_solver|..];
  right; destruct Hp as [_ (o & c & [])]; eauto.
Qed.

(** [m] does what [r] says, and then returns [x]. *)
Definition matches {A} (k : Z) (m : D A) (x : A) (r : outcome dstate) s : Prop :=
  match r with
  | Ok d' => ∃ s', m s = (Ok x, s') ∧ rel k d' s'
  | Throw e => ∃ s', m s = (Throw e, s') ∧ failing s'
  end.

Lemma matches_throw {A} k (m : D A) x e s : failing s → m s = (Throw e, s) → matches k m x (Throw e) s.
Proof. intros. by exists s. Qed.

Lemma run_memory {A} (m : M A) a w r w' : m w = (r, w') → in_memory m (a, w) = (r, (a, w')).
Proof. intros E. unfold in_memory. simpl. by rewrite E. Qed.

Lemma base_length k d s : rel k d s → source_length base (snd s) = zlen b.
Proof.
  intros Hr. apply source_length_content; [apply Hr|]. pose proof (r_phase _ _ _ Hr) as Hp. unfold phase_rel in Hp.
  destruct (d_phase d) eqn:Ep.
  1: destruct Hp as (_ & _ & _ & _ & -> & _); done.
  all: destruct Hp as [_ (o & c & [])]; rewrite t_abs0, source_content_stable; [done|];
    by eapply source_apart_fresh.
Qed.

Lemma requireTarget_run d s o c : targets d s o c → requireTarget s = (Ok o, s).
Proof. intros Ht. unfold requireTarget, this. run_first. by rewrite (t_target _ _ _ _ Ht). Qed.

Lemma target_live k d s o c : rel k d s → targets d s o c → ∃ ch, holds (snd s) o ch c.
Proof.
  intros Hr Ht. apply abs_holds; [apply Hr|]. unfold live. by rewrite (t_abs _ _ _ _ Ht), lookup_insert_eq.
Qed.

(** ** The copy *)

Lemma applyCopy_matches k d s command bit offset size :
  rel k d s → d_phase d = DCopy command bit offset size →
  matches k (applyCopy base;; assign (set_phase Opcode)) tt (d_copy b offset size d) s.
Proof.
  intros Hr Hp. pose proof (r_phase _ _ _ Hr) as Hph. unfold phase_rel in Hph. rewrite Hp in Hph.
  destruct Hph as ((Hphase & Hc & Hbit & Ho & Hs) & o & c & Ht).
  destruct (r_ok _ _ _ Hr) as [Hz Hd]. rewrite Hp in Hd. destruct Hd as (_ & Ho0 & Hs0).
  unfold d_copy. set (n := if size =? 0 then 65536 else size).
  assert (0 < n) as Hn by (unfold n; destruct (size =? 0) eqn:E; zbool; lia).
  unfold applyCopy, this. destruct s as [a w]. cbn [fst snd] in *. unfold matches. rewrite bind_assoc. run_first.
  cbn [fst snd id]. rewrite Hs. fold n.
  pose proof (t_size _ _ _ _ Ht) as Hts. pose proof (t_written _ _ _ _ Ht) as Htw. cbn [fst snd] in Hts, Htw.
  rewrite Ho, Hts, Htw.
  pose proof (base_length _ _ _ Hr) as Hbl. cbn [snd] in Hbl.
  rewrite bind_assoc. rewrite (bind_ok _ _ _ (zlen b) (a, w)) by (by rewrite <- Hbl).
  destruct (zlen b - n <? offset) eqn:E1; [apply (matches_throw k _ tt); [by eapply rel_failing|done]|].
  destruct (d_size d - zlen (d_out d) <? n) eqn:E2; [apply (matches_throw k _ tt); [by eapply rel_failing|done]|].
  zbool. rewrite bind_assoc, (bind_ok _ _ _ _ _ (requireTarget_run _ _ _ _ Ht)).
  destruct (target_live _ _ _ _ _ Hr Ht) as [ch Hch]. cbn [snd] in Hch.
  pose proof (t_length _ _ _ _ Ht) as Hlen. pose proof (zlen_nonneg (d_out d)).
  destruct (source_copyTo_content base w b o c (zlen (d_out d)) offset n) as (w' & Hcopy & Hw' & Hpool & Ha).
  { apply Hr. }
  { pose proof (t_abs _ _ _ _ Ht) as Hta. cbn [snd] in Hta. rewrite Hta, source_content_stable; [done|]. eapply source_apart_fresh; [done|apply Ht]. }
  { apply abs_holds; [apply Hr|]. eauto. }
  { eapply source_apart_fresh; [done|apply Ht]. }
  { unfold in_range. lia. }
  { unfold in_range. lia. }
  rewrite bind_assoc, (bind_ok _ _ _ _ _ (run_memory _ a w _ _ Hcopy)). unfold assign. run_first.
  eexists. split; [reflexivity|].
  assert (zlen (slice b offset (offset + n)) = n) as Hsl by (rewrite zlen_slice; lia).
  destruct Hr; simpl in *. constructor; simpl; try done.
  - by rewrite Hpool.
  - split; [|done]. simpl. rewrite zlen_app, Hsl. lia.
  - split; [done|]. exists o, (splice c (zlen (d_out d)) (slice b offset (offset + n))).
    destruct Ht; simpl in *. constructor; simpl; try done.
    + by rewrite Ha, t_abs0, insert_insert_eq.
    + rewrite zlen_splice; lia.
    + rewrite zlen_app. lia.
    + rewrite zlen_app, <- (slice_cat _ 0 (zlen (d_out d))); rewrite ?zlen_splice; [|lia..].
      rewrite slice_splice_same by lia. f_equal. rewrite slice_splice_clear; [done|lia..].
Qed.

(** ** The size fields *)

Lemma rel_size k source v m d s a' :
  rel k d s → d_phase d = DSize source v m → d_size d = 0 → d_out d = [] →
  ∀ source' v' m', 0 <= v' → 1 <= m' →
  a' = set_phase (if (source' : bool) then SourceSize else TargetSize) (set_size v' m' (fst s)) →
  rel k (DState (DSize source' v' m') (d_size d) (d_out d)) (a', snd s).
Proof.
  intros Hr Hp Hs Ho source' v' m' Hv Hm ->. pose proof (r_phase _ _ _ Hr) as Hph. unfold phase_rel in Hph.
  rewrite Hp in Hph. destruct Hph as (_ & _ & _ & Ht & Ha & Hw). destruct Hr. constructor; simpl; try done.
  split; simpl; [rewrite Ho, Hs; done|done].
Qed.

Lemma allocate_run w size :
  wf w → 0 <= size → size <= MAX_SAFE_INTEGER →
  if maxAllocatedBytes (pool w) <? (store_chunks (abs w) + chunk_count size) * PACK_CHUNK_BYTES
  then allocate size w = (Throw (RangeError (js "chunk pool allocation limit exceeded")), w)
  else ∃ o w' bs, allocate size w = (Ok o, w') ∧ wf w' ∧ abs w !! o = None ∧ zlen bs = size ∧
    abs w' = <[o := Some bs]> (abs w) ∧ maxAllocatedBytes (pool w') = maxAllocatedBytes (pool w).
Proof.
  intros Hw Hs Hm. assert (¬ bad_length size) by (unfold bad_length; lia). destruct (_ <? _) eqn:E; zbool.
  - by apply allocate_full.
  - destruct (allocate_new w size) as (o & w' & c & bs & Hal); [done..|].
    exists o, w', bs. naive_solver.
Qed.

Lemma admitTarget_matches k d s v m size (x : Z) :
  rel k d s → d_phase d = DSize false v m → 0 <= size →
  matches k (admitTarget base limits size;; assign (set_phase Opcode);; resetSize;; mret x) x
    (admits size;; Ok (DState DOpcode size (d_out d))) s.
Proof.
  intros Hr Hp Hsize. destruct (r_ok _ _ _ Hr) as [_ Hd]. rewrite Hp in Hd. destruct Hd as (Hd0 & Hout & _).
  pose proof (r_phase _ _ _ Hr) as Hph. unfold phase_rel in Hph. rewrite Hp in Hph.
  destruct Hph as (_ & _ & _ & Ht & Ha & Hw). pose proof (rel_failing _ _ _ Hr) as Hfail.
  pose proof (base_length _ _ _ Hr) as Hbl. destruct s as [a w]. cbn [fst snd] in *.
  unfold admits, admit_target, admitTarget, throw_if.
  destruct (MAX_DELTA_TARGET <? size) eqn:E0; [by apply (matches_throw k _ x)|]. cbn [mbind outcome_bind].
  destruct (match expectedTargetSize limits with Some _ => _ | None => _ end); [by apply (matches_throw k _ x)|].
  cbn [mbind outcome_bind]. unfold matches. rewrite bind_assoc.
  rewrite (bind_ok _ _ _ (zlen b) (a, w)) by (by rewrite <- Hbl).
  destruct (chunkFootprint (zlen b)) as [baseBytes|e]; [|by exists (a, w)].
  cbn [mbind outcome_bind]. rewrite bind_assoc, bind_lift.
  destruct (chunkFootprint size) as [targetBytes|e]; [|by exists (a, w)].
  cbn [mbind outcome_bind]. rewrite bind_assoc, bind_lift.
  destruct (_ || _); [by exists (a, w)|]. cbn [mbind outcome_bind].
  unfold assign. rewrite bind_assoc. run_first. rewrite bind_assoc.
  assert (size <= MAX_SAFE_INTEGER) as Hsafe by (zbool; unfold MAX_DELTA_TARGET, MAX_SAFE_INTEGER in *; lia).
  pose proof (allocate_run w size ltac:(apply Hr) Hsize Hsafe) as Hal. rewrite Ha in Hal.
  pose proof (r_max _ _ _ Hr) as Hmax. cbn [snd] in Hmax. rewrite Hmax in Hal.
  destruct (limit <? _).
  - rewrite (bind_throw _ _ _ _ _ (run_memory _ _ w _ _ Hal)). exists (set_targetSize size a, w).
    split; [done|]. destruct Hfail as (? & ? & ? & ?). split_and!; try done.
  - destruct Hal as (o & w' & bs & Hal & Hw' & Hfresh & Hbs & Ha' & Hm').
    rewrite (bind_ok _ _ _ _ _ (run_memory _ _ w _ _ Hal)). unfold resetSize, assign. run_first.
    eexists. split; [reflexivity|]. destruct Hr; simpl in *. rewrite Hout. constructor; simpl; try done.
    split; [done|]. exists o, bs. by constructor.
Qed.

Lemma sizeByte_run a w byte :
  let v := sizeValue a + Z.land byte 127 * sizeMultiplier a in
  let m := sizeMultiplier a * 128 in
  sizeByte byte (a, w) =
    if negb (isSafeInteger (Z.land byte 127 * sizeMultiplier a)) || negb (isSafeInteger v)
    then (Throw (CorruptError (js "delta size is invalid")), (a, w))
    else if high_bit byte then
      (if negb (isSafeInteger m) then Throw (CorruptError (js "delta size is invalid")) else Ok false, (set_size v m a, w))
    else (Ok true, (set_size v (sizeMultiplier a) a, w)).
Proof.
  cbv zeta. unfold sizeByte, this. run_first. cbn [fst snd]. destruct (_ || _); [done|].
  unfold assign. run_first. cbn [fst snd]. destruct (high_bit byte); [|done]. cbn [negb]. run_first.
  by destruct (negb _).
Qed.

Lemma size_step k d s source v m byte input i :
  rel k d s → d_phase d = DSize source v m → at_ input i = Some byte → byte_ok byte →
  matches k (push_step base limits input i) (i + 1) (feed b admits byte d) s.
Proof.
  intros Hr Hp Hbyte Hok. destruct (r_ok _ _ _ Hr) as [_ Hd]. rewrite Hp in Hd. destruct Hd as (Hd0 & Hout & Hv & Hm).
  pose proof (r_phase _ _ _ Hr) as Hph. unfold phase_rel in Hph. rewrite Hp in Hph.
  destruct Hph as (Hphase & Hsv & Hsm & Ht & Ha & Hw). pose proof (rel_failing _ _ _ Hr) as Hfail.
  pose proof (base_length _ _ _ Hr) as Hbl.
  assert (0 <= Z.land byte 127 * m).
  { apply Z.mul_nonneg_nonneg; [apply Z.land_nonneg|]; lia. }
  unfold feed, settle. rewrite Hp. cbn [mbind outcome_bind]. rewrite Hp. unfold feed_size.
  destruct s as [a w]. cbn [fst snd] in *. set (v' := v + Z.land byte 127 * m) in *.
  assert (∀ m', failing (set_size v' m' a, w)) as Hfail' by (intros m'; exact Hfail).
  unfold push_step. rewrite Hbyte. cbn [default from_option id]. unfold this, matches. run_first.
  cbn [fst snd id]. pose proof (sizeByte_run a w byte) as Hrun. rewrite Hsv, Hsm in Hrun. cbv zeta in Hrun. fold v' in Hrun.
  destruct source; rewrite Hphase.
  all: destruct (_ || _); [by rewrite (bind_throw _ _ _ _ _ Hrun); exists (a, w)|].
  all: destruct (high_bit byte).
  1,3: destruct (negb (isSafeInteger (m * 128))); [by rewrite (bind_throw _ _ _ _ _ Hrun); eexists|];
    rewrite (bind_ok _ _ _ _ _ Hrun); cbn [negb]; eexists; split; [reflexivity|];
    (eapply (rel_size k _ _ _ _ (a, w) _ Hr Hp Hd0 Hout); [| |destruct a; simpl in *; by subst]; lia).
  all: rewrite (bind_ok _ _ _ _ _ Hrun); cbn [negb]; run_first; cbn [fst snd id];
    change (phase (set_size v' m a)) with (phase a); rewrite Hphase.
  - rewrite (bind_ok _ _ _ (zlen b) (set_size v' m a, w)) by (by rewrite <- Hbl).
    change (sizeValue (set_size v' m a)) with v'. destruct (negb (v' =? zlen b)); [by eexists|].
    unfold resetSize, assign. run_first. eexists. split; [reflexivity|].
    eapply (rel_size k _ _ _ _ (a, w) _ Hr Hp Hd0 Hout); [lia|lia|]. by destruct a.
  - change (sizeValue (set_size v' m a)) with v'.
    assert (rel k (DState (DSize false v' m) (d_size d) (d_out d)) (set_size v' m a, w)) as Hr'.
    { eapply (rel_size k _ _ _ _ (a, w) _ Hr Hp Hd0 Hout); [| |destruct a; simpl in *; by subst]; lia. }
    exact (admitTarget_matches k _ _ v' m v' (i + 1) Hr' eq_refl ltac:(lia)).
Qed.

(** ** The commands *)

(** Assigning fields that [targets] does not mention. *)
Lemma targets_fields d d' (a a' : DeltaApplier) w o c :
  targets d (a, w) o c → target a' = target a → targetSize a' = targetSize a → written a' = written a →
  d_size d' = d_size d → d_out d' = d_out d → targets d' (a', w) o c.
Proof. intros [] H1 H2 H3 H4 H5. constructor; simpl in *; congruence. Qed.

Lemma opcode_step k d s byte input i :
  rel k d s → d_phase d = DOpcode → at_ input i = Some byte → byte_ok byte →
  matches k (push_step base limits input i) (i + 1) (feed b admits byte d) s.
Proof.
  intros Hr Hp Hbyte Hok. pose proof (r_ok _ _ _ Hr) as Hd.
  assert (byte_ok byte → ∀ n, admits n = Ok tt → 0 <= n) as Hadm by (intros; by eapply admit_target_nonneg).
  pose proof (feed_ok b admits byte d) as Hfeed.
  pose proof (r_phase _ _ _ Hr) as Hph. unfold phase_rel in Hph. rewrite Hp in Hph.
  destruct Hph as (Hphase & o & c & Ht). pose proof (rel_failing _ _ _ Hr) as Hfail.
  pose proof (t_size _ _ _ _ Ht) as Hts. pose proof (t_written _ _ _ _ Ht) as Htw.
  revert Hfeed. unfold feed, settle. rewrite Hp. cbn [mbind outcome_bind]. rewrite Hp. unfold feed_opcode.
  destruct s as [a w]. cbn [fst snd] in *. unfold push_step. rewrite Hbyte. cbn [default from_option id].
  unfold this, matches. run_first. cbn [fst snd id]. rewrite Hphase, Hts, Htw. intros Hfeed.
  destruct (high_bit byte); [|destruct (byte =? 0); [by eexists|destruct (_ <? byte); [by eexists|]]].
  all: unfold assign; run_first; eexists; (split; [reflexivity|]).
  all: specialize (Hfeed _ Hok (Hadm Hok) Hd eq_refl); destruct Hr; constructor; simpl in *; try done.
  all: unfold phase_rel; simpl; (split; [done|]); exists o, c; by eapply targets_fields.
Qed.

Lemma skipBits_run a w :
  let bit := skip_bits 8 (copyCommand a) (copyBit a) in
  skipBits (a, w) = (Ok bit, (set_copy (copyCommand a) bit (copyOffset a) (copySize a) a, w)).
Proof. done. Qed.

(** After [skipBits]: the state is the settled one, or the copy is due. *)
Lemma skip_rel k d a w command bit offset size :
  rel k d (a, w) → d_phase d = DCopy command bit offset size →
  let bit' := skip_bits 8 command bit in
  rel k (DState (DCopy command bit' offset size) (d_size d) (d_out d)) (set_copy command bit' offset size a, w).
Proof.
  intros Hr Hp bit'. pose proof (r_phase _ _ _ Hr) as Hph. unfold phase_rel in Hph. rewrite Hp in Hph.
  destruct Hph as ((Hphase & _) & o & c & Ht). destruct (r_ok _ _ _ Hr) as [Hz Hd]. rewrite Hp in Hd.
  destruct Hd as (Hbit & Ho & Hs). pose proof (skip_bits_le 8 command bit Hbit).
  destruct Hr. constructor; simpl in *; try done.
  - split; [done|]. simpl. unfold bit'. lia.
  - unfold phase_rel. simpl. split; [done|]. exists o, c. by eapply targets_fields.
Qed.

(** A copy that is due, read a byte late or at the end of the input. *)
Lemma due_matches k d s command bit offset size A (f : Z → D A) x :
  rel k d s → d_phase d = DCopy command bit offset size → 64 < skip_bits 8 command bit →
  (∀ s bit, 64 < bit → f bit s = (applyCopy base;; assign (set_phase Opcode);; mret x) s) →
  matches k (bit ← skipBits; f bit) x (settle b d) s.
Proof.
  intros Hr Hp Hbit Hf. destruct s as [a w]. pose proof (skip_rel _ _ _ _ _ _ _ _ Hr Hp) as Hr'. cbv zeta in Hr'.
  pose proof (r_phase _ _ _ Hr) as Hph. unfold phase_rel in Hph. rewrite Hp in Hph.
  destruct Hph as ((Hphase & Hc & Hb' & Ho & Hs) & _). cbn [fst] in *.
  pose proof (skipBits_run a w) as Hrun. cbv zeta in Hrun. rewrite Hc, Hb', Ho, Hs in Hrun.
  unfold matches. rewrite (bind_ok _ _ _ _ _ Hrun). rewrite Hf by done.
  pose proof (applyCopy_matches k _ _ _ _ _ _ Hr' eq_refl) as Hcopy.
  unfold settle. rewrite Hp. cbv zeta. rewrite (proj2 (Z.ltb_lt _ _)) by done.
  unfold matches in Hcopy. change (d_copy b offset size (DState ?p ?n ?o)) with (d_copy b offset size (DState DOpcode n o)) in Hcopy.
  assert (∀ p, d_copy b offset size (DState p (d_size d) (d_out d)) = d_copy b offset size d) as E by done.
  rewrite E in Hcopy. destruct (d_copy b offset size d); destruct Hcopy as (s' & Hrun' & Hrest); exists s'; (split; [|done]).
  - rewrite <- bind_assoc. by rewrite (bind_ok _ _ _ _ _ Hrun').
  - rewrite <- bind_assoc. by rewrite (bind_throw _ _ _ _ _ Hrun').
Qed.

Lemma feed_ok_admit byte d d' : byte_ok byte → d_ok d → feed b admits byte d = Ok d' → d_ok d'.
Proof. intros. eapply feed_ok; [done| |done|done]. intros n. by apply admit_target_nonneg. Qed.

Lemma copy_step k d s command bit offset size byte input i :
  rel k d s → d_phase d = DCopy command bit offset size → skip_bits 8 command bit <= 64 →
  at_ input i = Some byte → byte_ok byte →
  matches k (push_step base limits input i) (i + 1) (feed b admits byte d) s.
Proof.
  intros Hr Hp Hbit Hbyte Hok. destruct s as [a w]. pose proof (r_ok _ _ _ Hr) as Hd.
  pose proof (λ d', feed_ok_admit byte d d' Hok Hd) as Hfeed. revert Hfeed.
  pose proof (r_phase _ _ _ Hr) as Hph. unfold phase_rel in Hph. rewrite Hp in Hph.
  destruct Hph as ((Hphase & Hc & Hb' & Ho & Hs) & o & c & Ht). cbn [fst] in *.
  pose proof (skipBits_run a w) as Hrun. cbv zeta in Hrun. rewrite Hc, Hb', Ho, Hs in Hrun.
  unfold feed, settle. rewrite Hp. cbv zeta. rewrite (proj2 (Z.ltb_ge _ _)) by done.
  cbn [mbind outcome_bind d_phase]. set (bit' := skip_bits 8 command bit) in *. clearbody bit'. intros Hfeed.
  unfold push_step. rewrite Hbyte. cbn [default from_option id]. unfold this, matches. run_first.
  cbn [fst snd id]. rewrite Hphase, (bind_ok _ _ _ _ _ Hrun). rewrite (proj2 (Z.ltb_ge _ _)) by done.
  specialize (Hfeed _ eq_refl). unfold feed_copy, bit_multiplier in *. cbv zeta in *.
  unfold copyByte, this, assign. rewrite bind_assoc. run_first. cbn [fst snd id].
  destruct (bit' <=? 8); run_first; cbn [fst snd id]; (eexists; split; [reflexivity|]);
    destruct Hr; constructor; simpl in *; try done; unfold phase_rel; simpl;
    (split; [by rewrite ?Ho, ?Hs|]); exists o, c; by eapply targets_fields.
Qed.

Lemma literal_step k d s n input i :
  rel k d s → d_phase d = DLiteral n → 0 <= i < zlen input →
  let m := Z.min n (zlen input - i) in
  matches k (push_step base limits input i) (i + m) (feeds b admits (slice input i (i + m)) d) s.
Proof.
  intros Hr Hp Hi m. destruct s as [a w]. destruct (r_ok _ _ _ Hr) as [Hz Hd]. rewrite Hp in Hd. destruct Hd as (Hn & Hroom).
  pose proof (r_phase _ _ _ Hr) as Hph. unfold phase_rel in Hph. rewrite Hp in Hph.
  destruct Hph as ((Hphase & Hrem) & o & c & Ht). cbn [fst snd] in *.
  assert (zlen (slice input i (i + m)) = m) as Hm by (rewrite zlen_slice; lia).
  set (part := slice input i (i + m)) in *. assert (0 < m <= n) as Hmn by lia.
  rewrite (feeds_literal b admits part n d Hp) by (lia || (intros E; rewrite E in Hm; change (zlen []) with 0 in Hm; lia)).
  rewrite Hm. unfold push_step, this, matches. run_first. cbn [fst snd id]. rewrite Hphase, Hrem. fold m. fold part.
  rewrite (bind_ok _ _ _ _ _ (requireTarget_run _ _ _ _ Ht)).
  pose proof (t_written _ _ _ _ Ht) as Htw. cbn [fst] in Htw. rewrite Htw.
  destruct (target_live _ _ _ _ _ Hr Ht) as [ch Hch]. cbn [snd] in Hch. pose proof (zlen_nonneg (d_out d)).
  pose proof (t_length _ _ _ _ Ht) as Hlen.
  destruct (write_live w o ch c (zlen (d_out d)) part) as (w' & Hwr & Hw' & Ha & _ & Hpool);
    [apply Hr|done|unfold in_range; lia|].
  rewrite (bind_ok _ _ _ _ _ (run_memory _ a w _ _ Hwr)). unfold assign. run_first. cbn [fst snd].
  set (a1 := set_literal (n - m) (set_written (zlen (d_out d) + m) a)).
  assert (∀ p q, match q with DSize _ _ _ => False | DOpcode => p = Opcode | DCopy _ _ _ _ => False
      | DLiteral r => p = Literal ∧ r = n - m ∧ 0 < r end →
    rel k (DState q (d_size d) (d_out d ++ part)) (set_phase p a1, w')) as Hrel.
  { intros p q Hpq. destruct Hr; simpl in *. constructor; simpl; try done.
    - by rewrite Hpool.
    - split; simpl; rewrite zlen_app, Hm; [lia|]. destruct q; try done. destruct Hpq as (_ & -> & ?). lia.
    - assert (targets (DState q (d_size d) (d_out d ++ part)) (set_phase p a1, w') o (splice c (zlen (d_out d)) part)) as Ht'.
      { destruct Ht; simpl in *. constructor; simpl; try done.
        - by rewrite Ha, t_abs0, insert_insert_eq.
        - rewrite zlen_splice; lia.
        - rewrite zlen_app. lia.
        - rewrite zlen_app, <- (slice_cat _ 0 (zlen (d_out d))); rewrite ?zlen_splice; [|lia..].
          rewrite slice_splice_same by lia. f_equal. rewrite slice_splice_clear; [done|lia..]. }
      unfold phase_rel. simpl. destruct q; try done; naive_solver. }
  destruct (n - m =? 0) eqn:E; zbool; run_first.
  - eexists. split; [reflexivity|]. by apply (Hrel Opcode DOpcode).
  - eexists. split; [reflexivity|]. pose proof (Hrel Literal (DLiteral (n - m))) as Hl.
    assert (set_phase Literal a1 = a1) as Ea by (unfold a1; destruct a; simpl in *; by subst).
    rewrite Ea in Hl. apply Hl. split_and!; [done|done|lia].
Qed.

(** ** The loop *)

Lemma drop_at (input : list Z) i byte : at_ input i = Some byte → drop (Z.to_nat i) input = byte :: drop (Z.to_nat (i + 1)) input.
Proof.
  intros Hi. assert (0 <= i < zlen input) by (apply at_is_Some; eauto). unfold at_ in Hi.
  rewrite (proj2 (Z.ltb_ge _ _)) in Hi by lia. rewrite (drop_S _ _ _ Hi). do 2 f_equal. lia.
Qed.

Lemma drop_slice (input : list Z) i m : 0 <= i → 0 <= m → drop (Z.to_nat i) input = slice input i (i + m) ++ drop (Z.to_nat (i + m)) input.
Proof.
  intros. unfold slice. rewrite <- (take_drop (Z.to_nat (i + m - i)) (drop (Z.to_nat i) input)) at 1.
  f_equal. rewrite drop_drop. f_equal. lia.
Qed.

(** An iteration that does [r], then the rest. *)
Lemma matches_then k (m : D Z) i r s (f : Z → D unit) (g : dstate → outcome dstate) :
  matches k m i r s → (∀ d' s', r = Ok d' → rel k d' s' → matches k (f i) tt (g d') s') →
  matches k (m ≫= f) tt (r ≫= g) s.
Proof.
  intros Hm Hf. unfold matches in Hm. destruct r as [d'|e]; destruct Hm as (s' & Hrun & Hrest).
  - specialize (Hf d' s' eq_refl Hrest). unfold matches in *. cbn [mbind outcome_bind].
    by destruct (g d'); rewrite (bind_ok _ _ _ _ _ Hrun).
  - exists s'. by rewrite (bind_throw _ _ _ _ _ Hrun).
Qed.

Definition due d : bool :=
  match d_phase d with DCopy command bit _ _ => 64 <? skip_bits 8 command bit | _ => false end.

Lemma due_step k d s input i :
  rel k d s → due d = true → matches k (push_step base limits input i) i (settle b d) s.
Proof.
  intros Hr Hdue. unfold due in Hdue. destruct (d_phase d) as [| |command bit offset size|] eqn:Hp; try done. zbool.
  pose proof (r_phase _ _ _ Hr) as Hph. unfold phase_rel in Hph. rewrite Hp in Hph. destruct Hph as ((Hphase & _) & _).
  assert (∀ byte, push_step base limits input i s = (bit ← skipBits;
    if 64 <? bit then applyCopy base;; assign (set_phase Opcode);; mret i
    else copyByte bit byte;; a ← this id; assign (set_copy (copyCommand a) (bit * 2) (copyOffset a) (copySize a));; mret (i + 1)) s
    → matches k (push_step base limits input i) i (settle b d) s) as Hm.
  { intros byte E. unfold matches. rewrite E. change (matches k (bit ← skipBits;
    if 64 <? bit then applyCopy base;; assign (set_phase Opcode);; mret i
    else copyByte bit byte;; a ← this id; assign (set_copy (copyCommand a) (bit * 2) (copyOffset a) (copySize a));; mret (i + 1)) i (settle b d) s).
    eapply due_matches; [done|done|done|]. intros s' bit' Hbit'. by rewrite (proj2 (Z.ltb_lt _ _)). }
  apply (Hm (default 0 (at_ input i))). unfold push_step, this. run_first. cbn [id]. by rewrite Hphase.
Qed.

Lemma undue_step k d s input i byte :
  rel k d s → due d = false → at_ input i = Some byte → byte_ok byte →
  (∃ n, d_phase d = DLiteral n) ∨
  matches k (push_step base limits input i) (i + 1) (feed b admits byte d) s.
Proof.
  intros Hr Hdue Hbyte Hok. unfold due in Hdue. destruct (d_phase d) eqn:Hp; zbool; [right..|left; eauto].
  - by eapply size_step.
  - by eapply opcode_step.
  - by eapply copy_step.
Qed.

Lemma feeds_due byte l d : d_ok d → feeds b admits (byte :: l) d = settle b d ≫= feeds b admits (byte :: l).
Proof.
  intros Hd. cbn [feeds]. destruct (settle b d) as [d1|e] eqn:E; cbn [mbind outcome_bind].
  - destruct (settle_ok b d d1 Hd E) as [_ Hs]. unfold feed. unfold settled in Hs. by rewrite E, Hs.
  - unfold feed. by rewrite E.
Qed.

Lemma settle_undue d d' : d_ok d → settle b d = Ok d' → due d' = false.
Proof.
  intros Hd Hs. destruct (settle_ok b d d' Hd Hs) as [_ Hs']. unfold settled, settle, due in *.
  destruct (d_phase d') as [| |command bit offset size|] eqn:Ep; try done. destruct (64 <? _); [|done].
  unfold d_copy in Hs'. destruct (_ <? offset); [done|]. destruct (d_size d' - _ <? _); [done|]. injection Hs' as Hs'. by rewrite <- Hs' in Ep.
Qed.

Lemma push_loop_matches fuel k d s input i :
  rel k d s → Forall byte_ok input → 0 <= i <= zlen input →
  2 * (zlen input - i) + (if due d then 1 else 0) <= Z.of_nat fuel →
  matches k (push_loop base limits fuel input i) tt (feeds b admits (drop (Z.to_nat i) input) d) s.
Proof.
  revert d s i. induction fuel as [|fuel IH]; intros d s i Hr Hin Hi Hf.
  all: assert (i = zlen input → drop (Z.to_nat i) input = []) as Hnil by
    (intros ->; apply drop_ge; unfold zlen; lia).
  { rewrite Hnil by (destruct (due d); lia). by exists s. }
  cbn [push_loop]. destruct (i <? zlen input) eqn:E; zbool; [|rewrite Hnil by lia; by exists s].
  destruct (proj2 (at_is_Some input i) ltac:(lia)) as [byte Hbyte].
  assert (byte_ok byte) as Hok.
  { unfold at_ in Hbyte. destruct (i <? 0); [done|]. by eapply Forall_lookup_1. }
  rewrite (drop_at _ _ _ Hbyte). destruct (due d) eqn:Hdue.
  - rewrite feeds_due by apply Hr. rewrite <- (drop_at _ _ _ Hbyte).
    apply (matches_then k _ i); [by apply due_step|]. intros d' s' Hs Hr'. apply IH; [done|done|done|].
    rewrite (settle_undue d d' ltac:(apply Hr) Hs). lia.
  - destruct (undue_step k d s input i byte Hr Hdue Hbyte Hok) as [[n Hp]|Hm].
    + rewrite <- (drop_at _ _ _ Hbyte). set (m := Z.min n (zlen input - i)).
      assert (0 < m /\ i + m <= zlen input) as [Hm Him].
      { destruct (r_ok _ _ _ Hr) as [_ Hd]. rewrite Hp in Hd. lia. }
      rewrite (drop_slice input i m), feeds_app by lia.
      apply (matches_then k _ (i + m)); [apply literal_step; [done|done|lia]|]. intros d' s' _ Hr'.
      apply IH; [done|done|lia|]. destruct (due d'); lia.
    + cbn [feeds]. apply (matches_then k _ (i + 1)); [done|]. intros d' s' _ Hr'.
      apply IH; [done|done|lia|]. destruct (due d'); lia.
Qed.

Lemma push_all_matches k d s input :
  rel k d s → Forall byte_ok input →
  matches k (push_all base limits input) tt (feeds b admits input d ≫= settle b) s.
Proof.
  intros Hr Hin. unfold push_all.
  pose proof (push_loop_matches (2 * length input + 1) k d s input 0 Hr Hin) as Hl.
  rewrite drop_0 in Hl. specialize (Hl ltac:(pose proof (zlen_nonneg input); lia)).
  specialize (Hl ltac:(unfold zlen; destruct (due d); lia)). unfold matches in Hl.
  destruct (feeds b admits input d) as [d1|e]; destruct Hl as (s1 & Hrun & Hr1).
  2:{ exists s1. by rewrite (bind_throw _ _ _ _ _ Hrun). }
  cbn [mbind outcome_bind]. unfold matches. rewrite (bind_ok _ _ _ _ _ Hrun). unfold this. run_first. cbn [id].
  pose proof (r_phase _ _ _ Hr1) as Hph. unfold phase_rel in Hph.
  destruct (d_phase d1) as [source v m| |command bit offset size|n] eqn:Hp.
  1,2,4: unfold settle; rewrite Hp; exists s1; (split; [|done]).
  { destruct Hph as (-> & _). by destruct source. }
  { by destruct Hph as (-> & _). }
  { by destruct Hph as ((-> & _) & _). }
  destruct Hph as ((Hphase & Hc & Hb' & Ho & Hs) & _). rewrite Hphase.
  destruct (decide (64 < skip_bits 8 command bit)) as [Hdue|Hdue].
  - apply (due_matches k d1 s1 command bit offset size unit _ tt Hr1 Hp Hdue). intros s' bit' Hbit'.
    rewrite (proj2 (Z.ltb_lt _ _)) by done. destruct s' as [a w]. unfold mbind, effect_bind.
    by destruct (applyCopy base (a, w)) as [[?|?] ?].
  - unfold settle. rewrite Hp. cbv zeta. rewrite (proj2 (Z.ltb_ge _ _)) by lia. destruct s1 as [a w]. cbn [fst] in *.
    pose proof (skipBits_run a w) as Hrun'. cbv zeta in Hrun'. rewrite Hc, Hb', Ho, Hs in Hrun'.
    eexists. split; [|exact (skip_rel _ _ _ _ _ _ _ _ Hr1 Hp)].
    rewrite (bind_ok _ _ _ _ _ Hrun'). by rewrite (proj2 (Z.ltb_ge _ _)) by lia.
Qed.

(** ** Failure *)

(** The applier has failed and owns nothing; the live objects are those of the start. *)
Definition released_all s : Prop :=
  wf (snd s) ∧ maxAllocatedBytes (pool (snd s)) = limit ∧ target (fst s) = None ∧ failed (fst s) = true ∧
  ∀ o, live (abs (snd s)) o = live (abs w0) o.

Lemma fail_run {A} (e : jserror) s : failing s → ∃ s', @fail A e s = (Throw e, s') ∧ released_all s'.
Proof.
  intros (Hw & Hm & Hfin & Ht). destruct s as [a w]. cbn [fst snd] in *. unfold fail, releaseTarget, assign, this.
  run_first. cbn [fst snd]. destruct Ht as [[Ht Ha]|(o & c & Ht & Hfresh & Ha)].
  - change (target (set_failed a)) with (target a). rewrite bind_assoc, bind_gets. cbn [fst]. change (target (set_failed a)) with (target a).
    rewrite Ht. run_first. eexists. split; [reflexivity|]. split_and!; try done. intros o. cbn [snd]. by rewrite Ha.
  - rewrite bind_assoc, bind_gets. cbn [fst]. change (target (set_failed a)) with (target a). rewrite Ht.
    destruct (proj1 (abs_holds w o c Hw)) as [ch Hch]; [unfold live; by rewrite Ha, lookup_insert_eq|].
    destruct (release_live w o ch c Hw Hch) as (w' & Hrel & Hw' & Ha' & Hm').
    rewrite bind_assoc, (bind_ok _ _ _ _ _ (run_memory _ (set_failed a) w _ _ Hrel)). run_first.
    eexists. split; [reflexivity|]. split_and!; try done; cbn [snd]; [congruence|].
    intros o'. rewrite Ha', Ha, insert_insert_eq. unfold live. destruct (decide (o = o')) as [<-|Hne].
    + by rewrite lookup_insert_eq, Hfresh.
    + by rewrite lookup_insert_ne.
Qed.

Lemma active k d s : rel k d s → assertActive s = (Ok tt, s).
Proof.
  intros Hr. unfold assertActive, this. run_first. cbn [id]. by rewrite (r_failed _ _ _ Hr), (r_finished _ _ _ Hr).
Qed.

Lemma push_run k d s input :
  rel k d s → Forall byte_ok input →
  let r := if maxInstructionBytes limits - k <? zlen input
           then Throw (CorruptError (js "delta instruction stream too large"))
           else feeds b admits input d ≫= settle b in
  match r with
  | Ok d' => ∃ s', push base limits input s = (Ok tt, s') ∧ rel (k + zlen input) d' s'
  | Throw e => ∃ s', push base limits input s = (Throw e, s') ∧ released_all s'
  end.
Proof.
  intros Hr Hin r. unfold push. rewrite (bind_ok _ _ _ _ _ (active _ _ _ Hr)). unfold try_catch, this.
  rewrite bind_gets. cbn [id]. rewrite (r_bytes _ _ _ Hr). subst r. destruct (_ <? zlen input).
  { unfold raise. by apply fail_run, (rel_failing k d). }
  unfold assign. rewrite bind_modify.
  assert (rel (k + zlen input) d (set_instructionBytes (k + zlen input) (fst s), snd s)) as Hr'.
  { destruct s as [a w], Hr. constructor; simpl in *; try done.
    unfold phase_rel in *. simpl in *. destruct (d_phase d); [done|..]; destruct r_phase0 as [? (o & c & Ht)];
    (split; [done|]); exists o, c; by eapply targets_fields. }
  pose proof (push_all_matches _ _ _ _ Hr' Hin) as Hm. unfold matches in Hm.
  destruct (feeds b admits input d ≫= settle b) as [d'|e]; destruct Hm as (s' & -> & Hs'); [by exists s'|].
  by apply fail_run.
Qed.

Lemma feeds_ok l d d' : Forall byte_ok l → d_ok d → feeds b admits l d = Ok d' → d_ok d'.
Proof.
  intros Hl. revert d. induction Hl as [|x l Hx Hl IH]; intros d Hd; cbn [feeds]; [by intros [= <-]|].
  intros (d1 & H1 & H2)%bind_ok_inv. eapply IH; [|done]. by eapply feed_ok_admit.
Qed.

(** Settling between two pieces changes nothing, errors included. *)
Lemma feeds_pause p l d :
  Forall byte_ok p → d_ok d →
  feeds b admits (p ++ l) d ≫= settle b = (feeds b admits p d ≫= settle b) ≫= λ d, feeds b admits l d ≫= settle b.
Proof.
  intros Hp Hd. rewrite feeds_app. destruct (feeds b admits p d) as [d1|e] eqn:Ef; [|done].
  pose proof (feeds_ok p d d1 Hp Hd Ef) as Hd1. cbn [mbind outcome_bind].
  destruct (settle b d1) as [d2|e] eqn:Es; cbn [mbind outcome_bind].
  - symmetry. by apply feeds_settle.
  - destruct l as [|x l]; cbn [feeds mbind outcome_bind]; [done|]. unfold feed. by rewrite Es.
Qed.

Lemma push_pieces_run k d s pieces :
  rel k d s → settled b d → k <= maxInstructionBytes limits → Forall byte_ok (mjoin pieces) →
  if maxInstructionBytes limits - k <? zlen (mjoin pieces)
  then (∃ e s', push_pieces base limits pieces s = (Throw e, s') ∧ released_all s')
  else match feeds b admits (mjoin pieces) d ≫= settle b with
       | Ok d' => ∃ s', push_pieces base limits pieces s = (Ok tt, s') ∧ rel (k + zlen (mjoin pieces)) d' s'
       | Throw e => ∃ s', push_pieces base limits pieces s = (Throw e, s') ∧ released_all s'
       end.
Proof.
  revert k d s. induction pieces as [|p pieces IH]; intros k d s Hr Hset Hk Hin; cbn [push_pieces].
  { change (mjoin []) with (@nil Z). cbn [feeds mbind outcome_bind]. rewrite Hset. change (zlen []) with 0.
    rewrite (proj2 (Z.ltb_ge _ _)) by lia. exists s. by rewrite Z.add_0_r. }
  change (mjoin (p :: pieces)) with (p ++ mjoin pieces) in *. apply Forall_app in Hin as [Hp Hin].
  pose proof (push_run k d s p Hr Hp) as Hpush. cbv zeta in Hpush. rewrite zlen_app. pose proof (zlen_nonneg (mjoin pieces)).
  destruct (maxInstructionBytes limits - k <? zlen p) eqn:E1; zbool.
  { destruct Hpush as (s' & Hrun & Hrel). rewrite (proj2 (Z.ltb_lt _ _)) by lia.
    eexists _, s'. by rewrite (bind_throw _ _ _ _ _ Hrun). }
  rewrite feeds_pause by (done || apply Hr). destruct (feeds b admits p d ≫= settle b) as [d1|e] eqn:Ef.
  - destruct Hpush as (s1 & Hrun & Hr1). cbn [mbind outcome_bind]. rewrite (bind_ok _ _ _ _ _ Hrun).
    assert (settled b d1) as Hset1.
    { apply bind_ok_inv in Ef as (d' & Hf & Hs). eapply settle_ok; [|done]. by eapply feeds_ok, Hf; [|apply Hr]. }
    specialize (IH (k + zlen p) d1 s1 Hr1 Hset1 ltac:(lia) Hin).
    replace (maxInstructionBytes limits - (k + zlen p) <? zlen (mjoin pieces))
      with (maxInstructionBytes limits - k <? zlen p + zlen (mjoin pieces)) in IH.
    2:{ destruct (_ <? zlen p + _) eqn:E2; zbool; symmetry; [apply Z.ltb_lt|apply Z.ltb_ge]; lia. }
    by rewrite <- Z.add_assoc in IH.
  - destruct Hpush as (s' & Hrun & Hrel). cbn [mbind outcome_bind]. rewrite (bind_throw _ _ _ _ _ Hrun).
    case_match; eauto.
Qed.

(** ** The end *)

Lemma finish_run k d s :
  rel k d s →
  match d_finish d with
  | Ok bs => ∃ o s', finish s = (Ok o, s') ∧ wf (snd s') ∧ abs w0 !! o = None ∧
      abs (snd s') = <[o := Some bs]> (abs w0) ∧ maxAllocatedBytes (pool (snd s')) = limit ∧
      target (fst s') = None ∧ finished (fst s') = true
  | Throw e => ∃ s', finish s = (Throw e, s') ∧ released_all s'
  end.
Proof.
  intros Hr. pose proof (rel_failing _ _ _ Hr) as Hfail. pose proof (r_phase _ _ _ Hr) as Hph.
  assert (∀ e, (λ s, (∃ s', @fail nat e s = (Throw e, s') ∧ released_all s')) s) as Hf by (intros; by apply fail_run).
  unfold finish. rewrite (bind_ok _ _ _ _ _ (active _ _ _ Hr)). unfold try_catch, this. rewrite bind_gets. cbn [id].
  unfold d_finish, phase_rel in *. destruct (d_phase d) as [source v m| |command bit offset size|n] eqn:Hp.
  - destruct Hph as (-> & _). destruct source; unfold raise; apply Hf.
  - destruct Hph as (-> & o & c & Ht). rewrite (t_written _ _ _ _ Ht), (t_size _ _ _ _ Ht).
    destruct (zlen (d_out d) =? d_size d) eqn:E; cbn [negb]; [|unfold raise; apply Hf]. zbool.
    rewrite (bind_ok _ _ _ _ _ (requireTarget_run _ _ _ _ Ht)). unfold assign. run_first.
    eexists o, _. split; [reflexivity|]. destruct s as [a w]. cbn [fst snd].
    split; [apply Hr|]. split; [apply Ht|]. split; [|split; [apply Hr|done]].
    pose proof (t_abs _ _ _ _ Ht) as Ha. cbn [snd] in Ha. rewrite Ha. do 2 f_equal.
    pose proof (t_out _ _ _ _ Ht) as Hout. rewrite E, <- (t_length _ _ _ _ Ht), slice_all in Hout. done.
  - destruct Hph as ((-> & _) & _). unfold raise. apply Hf.
  - destruct Hph as ((-> & _) & _). unfold raise. apply Hf.
Qed.

(** The whole run. *)
Lemma run_applier_spec a0 pieces :
  new_DeltaApplier limits = Ok a0 → Forall byte_ok (mjoin pieces) →
  if maxInstructionBytes limits <? zlen (mjoin pieces)
  then ∃ e s', run_applier base limits pieces (a0, w0) = (Throw e, s') ∧ released_all s'
  else match parse_delta b admits (mjoin pieces) with
       | Ok bs => ∃ o s', run_applier base limits pieces (a0, w0) = (Ok o, s') ∧ wf (snd s') ∧
           abs w0 !! o = None ∧ abs (snd s') = <[o := Some bs]> (abs w0) ∧
           maxAllocatedBytes (pool (snd s')) = limit
       | Throw e => ∃ s', run_applier base limits pieces (a0, w0) = (Throw e, s') ∧ released_all s'
       end.
Proof.
  intros Hnew Hin. unfold new_DeltaApplier in Hnew. destruct (_ || _) eqn:E; [done|]. injection Hnew as <-.
  rewrite !orb_false_iff in E. destruct E as [_ [_ E]]. zbool.
  set (a0 := deltaApplier _ _ _ _ _ _ _ _ _ _ _ _ _ _).
  assert (rel 0 d_init (a0, w0)) as Hr.
  { by constructor. }
  pose proof (push_pieces_run 0 d_init (a0, w0) pieces Hr eq_refl E Hin) as Hrun. rewrite Z.sub_0_r in Hrun.
  unfold run_applier, parse_delta. destruct (_ <? _).
  { destruct Hrun as (e & s' & Hrun & Hrel). exists e, s'. by rewrite (bind_throw _ _ _ _ _ Hrun). }
  destruct (feeds b admits (mjoin pieces) d_init) as [d1|e]; cbn [mbind outcome_bind] in *.
  2:{ destruct Hrun as (s' & Hrun & Hrel). exists s'. by rewrite (bind_throw _ _ _ _ _ Hrun). }
  destruct (settle b d1) as [d2|e]; cbn [mbind outcome_bind] in *.
  2:{ destruct Hrun as (s' & Hrun & Hrel). exists s'. by rewrite (bind_throw _ _ _ _ _ Hrun). }
  destruct Hrun as (s1 & Hrun & Hr1). pose proof (finish_run _ _ _ Hr1) as Hfin.
  destruct (d_finish d2) as [bs|e].
  - destruct Hfin as (o & s' & Hf & ? & ? & ? & ? & _). exists o, s'. by rewrite (bind_ok _ _ _ _ _ Hrun).
  - destruct Hfin as (s' & Hf & ?). exists s'. by rewrite (bind_ok _ _ _ _ _ Hrun).
Qed.

End refinement.
