(* ===== verification/DeltaFacts.v ===== *)
(** Facts about deltas: the incremental parser and [applyDelta] agree, and the header
    that [encodeDeltaHeader] writes is read back by every reader of deltas. *)

From S2P Require Import Prelude Arrays Chunks Sources Delta DeltaApplier.

#[local] Arguments skip_bits : simpl never.

(** What an outcome returns. *)
Definition ok {A} (o : outcome A) : option A := match o with Ok a => Some a | Throw _ => None end.

Lemma ok_bind {A B} (m : outcome A) (f : A → outcome B) : ok (m ≫= f) = ok m ≫= λ a, ok (f a).
Proof. by destruct m. Qed.

(** ** Reading from [pos] *)

Section reading.
  Context (delta : list Z).

(** The position [pos], before the bytes [l]. *)
Definition before (pos : Z) (l : list Z) : Prop :=
  0 <= pos ∧ pos + zlen l = zlen delta ∧ drop (Z.to_nat pos) delta = l.

Lemma before_0 : before 0 delta.
Proof. split_and!; [lia|lia|done]. Qed.

Lemma before_cons pos x l : before pos (x :: l) → before (pos + 1) l.
Proof.
  intros (Hp & Hz & Hd). rewrite zlen_cons in Hz. split_and!; [lia|lia|].
  replace (Z.to_nat (pos + 1)) with (Z.to_nat pos + 1)%nat by lia. by rewrite <- drop_drop, Hd.
Qed.

Lemma before_app pos p l : before pos (p ++ l) → before (pos + zlen p) l ∧ slice delta pos (pos + zlen p) = p.
Proof.
  intros (Hp & Hz & Hd). rewrite zlen_app in Hz. pose proof (zlen_nonneg p). split; [split_and!; [lia|lia|]|].
  - rewrite Z2Nat.inj_add by lia. rewrite <- drop_drop, Hd. unfold zlen. by rewrite Nat2Z.id, drop_app_length.
  - unfold slice. rewrite Hd. replace (pos + zlen p - pos) with (zlen p) by lia.
    unfold zlen. by rewrite Nat2Z.id, take_app_length.
Qed.

Lemma next_cons pos x l : before pos (x :: l) → next delta pos = (Ok x, pos + 1).
Proof.
  intros (Hp & Hz & Hd). rewrite zlen_cons in Hz. pose proof (zlen_nonneg l). unfold next. zdec.
  unfold at_. zdec. rewrite <- (Nat.add_0_r (Z.to_nat pos)), <- lookup_drop, Hd. done.
Qed.

Lemma next_nil pos : before pos [] → next delta pos = (Throw (CorruptError (js "delta truncated")), pos).
Proof. intros (Hp & Hz & Hd). change (zlen []) with 0 in Hz. unfold next. by zdec. Qed.

End reading.

(** * Bits and copies *)

Lemma skip_bits_more fuel command bit :
  1 <= bit → 128 <= bit * 2 ^ Z.of_nat fuel → skip_bits (S fuel) command bit = skip_bits fuel command bit.
Proof.
  revert bit. induction fuel as [|fuel IH]; intros bit Hb Hf.
  { change (2 ^ Z.of_nat 0) with 1 in Hf. unfold skip_bits. by zdec. }
  change (skip_bits (S (S fuel)) command bit) with
    (if (bit <=? 64) && negb (has command bit) then skip_bits (S fuel) command (bit * 2) else bit).
  rewrite IH; [done|lia|]. rewrite Nat2Z.inj_succ, Z.pow_succ_r in Hf by lia. lia.
Qed.

Lemma skip_absent command bit :
  has command bit = false → 1 <= bit <= 64 → skip_bits 8 command bit = skip_bits 8 command (bit * 2).
Proof.
  intros Hh Hb. change (skip_bits 8 command bit) with
    (if (bit <=? 64) && negb (has command bit) then skip_bits 7 command (bit * 2) else bit).
  rewrite Hh. zdec. symmetry. apply skip_bits_more; [lia|]. change (2 ^ Z.of_nat 7) with 128. lia.
Qed.

Lemma lor_shift x y k : 0 <= k → 0 <= x < 2 ^ k → 0 <= y → Z.lor x (Z.shiftl y k) = x + y * 2 ^ k.
Proof.
  intros Hk Hx Hy. rewrite Z.shiftl_mul_pow2 by done. symmetry. rewrite <- Z.lxor_lor, Z.add_nocarry_lxor; [done|..].
  all: apply Z.bits_inj'; intros i Hi; rewrite Z.land_spec, Z.bits_0; destruct (decide (i < k)).
  1,3: rewrite Z.mul_pow2_bits_low by lia; apply andb_false_r.
  all: destruct (decide (x = 0)) as [->|]; [by rewrite Z.bits_0|].
  all: rewrite Z.bits_above_log2; [done|lia|]; apply (Z.lt_le_trans _ k); [apply Z.log2_lt_pow2; lia|lia].
Qed.

Lemma argument_words x0 x1 x2 :
  byte_ok x0 → byte_ok x1 → byte_ok x2 →
  Z.lor (Z.lor x0 (Z.shiftl x1 8)) (Z.shiftl x2 16) = x0 + x1 * 256 + x2 * 65536.
Proof.
  unfold byte_ok. intros. rewrite (lor_shift x0) by (change (2 ^ 8) with 256; lia).
  change (2 ^ 8) with 256. rewrite lor_shift by (change (2 ^ 16) with 65536; lia). by change (2 ^ 16) with 65536.
Qed.

Lemma byte_land_high x : byte_ok x → high_bit x = false → 0 <= x < 128.
Proof.
  unfold byte_ok, high_bit. intros Hx Hh. apply negb_false_iff in Hh. zbool.
  destruct (decide (x < 128)); [lia|]. exfalso.
  assert (Z.testbit (Z.land x 128) 7 = true) as Ht; [|by rewrite Hh in Ht].
  rewrite Z.land_spec. change (Z.testbit 128 7) with true. rewrite andb_true_r.
  rewrite Z.testbit_true by lia. change (2 ^ 7) with 128. zdm.
Qed.

Lemma write_part (out pad part : list Z) t :
  zlen out + zlen pad = t → zlen out + zlen part <= t →
  ∃ pad', typed_set (out ++ pad) part (zlen out) = Ok ((out ++ part) ++ pad') ∧ zlen (out ++ part) + zlen pad' = t.
Proof.
  intros Ht Hp. pose proof (zlen_nonneg part). exists (drop (Z.to_nat (zlen part)) pad).
  rewrite <- (take_drop (Z.to_nat (zlen part)) pad) at 1. rewrite typed_set_app by by rewrite zlen_take by lia.
  rewrite app_assoc. split; [done|]. rewrite zlen_app. unfold zlen in *. rewrite length_drop. lia.
Qed.

Lemma over_eq a x y : (x - y <? a) = (x <? y + a).
Proof. destruct (x <? y + a) eqn:E; zbool; [apply Z.ltb_lt|apply Z.ltb_ge]; lia. Qed.

(** * applyDelta and the parser *)

Section agree.
  Context (b : list Z) (admit_size : Z → outcome unit).
  Context (Hadmit : ∀ n, admit_size n = Ok tt → 0 <= n <= MAX_DELTA_TARGET).
  Context (Hsafe : zlen b <= MAX_SAFE_INTEGER).
  Context (delta : list Z) (Hbytes : Forall byte_ok delta).

(** The rest of a parse. *)
Definition parse_from (l : list Z) (d : dstate) : outcome (list Z) :=
  d ← feeds b admit_size l d; d ← settle b d; d_finish d.

Lemma parse_from_settle l d d' : d_ok d → settle b d = Ok d' → parse_from l d' = parse_from l d.
Proof.
  intros Hd Hs. unfold parse_from. pose proof (feeds_settle b admit_size l d d' Hd Hs) as H.
  destruct (feeds b admit_size l d), (feeds b admit_size l d'); cbn [mbind outcome_bind] in *;
    [by rewrite H|by rewrite <- H|by rewrite H|by injection H as ->].
Qed.

Lemma parse_from_cons x l d d' : feed b admit_size x d = Ok d' → parse_from (x :: l) d = parse_from l d'.
Proof. intros H. unfold parse_from. cbn [feeds]. by rewrite H. Qed.

Lemma parse_from_throw x l d e : feed b admit_size x d = Throw e → ok (parse_from (x :: l) d) = None.
Proof. intros H. unfold parse_from. cbn [feeds]. by rewrite H. Qed.

(** ** Copy commands *)

(** A parse depends on the settled state only. *)
Lemma parse_from_same l d d' : settle b d = settle b d' → parse_from l d = parse_from l d'.
Proof.
  intros H. unfold parse_from. destruct l as [|x l]; cbn [feeds mbind outcome_bind]; [by rewrite H|].
  unfold feed. by rewrite H.
Qed.

Definition d_copying (command bit offset size n : Z) (out : list Z) : dstate :=
  DState (DCopy command bit offset size) n out.

(** The argument [x] of [bit], added to the offset and to the size. *)
Definition add_offset (bit offset x : Z) : Z := if bit <=? 8 then offset + x * bit_multiplier bit else offset.
Definition add_size (bit size x : Z) : Z := if bit <=? 8 then size else size + x * bit_multiplier bit.

Lemma argument_step (K : Z → effect Z (list Z)) pos l command bit offset size n out :
  before delta pos l → 1 <= bit <= 64 → Forall byte_ok l →
  (∀ x l' pos', before delta pos' l' → pos <= pos' → Forall byte_ok l' → byte_ok x →
     ok (fst (K x pos')) =
     ok (parse_from l' (d_copying command (bit * 2) (add_offset bit offset x) (add_size bit size x) n out))) →
  ok (fst ((argument delta command bit ≫= K) pos)) = ok (parse_from l (d_copying command bit offset size n out)).
Proof.
  intros Hpos Hbit Hl HK. unfold argument. destruct (has command bit) eqn:Eh.
  - assert (skip_bits 8 command bit = bit) as Hskip by (apply skip_bits_fix; auto).
    assert (settle b (d_copying command bit offset size n out) = Ok (d_copying command bit offset size n out)) as Hset.
    { unfold settle, d_copying. cbn [d_phase]. cbv zeta. rewrite Hskip. by rewrite (proj2 (Z.ltb_ge _ _)) by lia. }
    destruct l as [|x l].
    + rewrite (bind_throw _ _ _ _ _ (next_nil _ _ Hpos)). unfold parse_from. cbn [feeds mbind outcome_bind].
      by rewrite Hset.
    + rewrite (bind_ok _ _ _ _ _ (next_cons _ _ _ _ Hpos)). apply Forall_cons in Hl as [Hx Hl].
      rewrite (HK x l) by (lia || done || by eapply before_cons). f_equal. symmetry. apply parse_from_cons.
      unfold feed. rewrite Hset. cbn [mbind outcome_bind d_phase d_copying]. unfold feed_copy, add_offset, add_size.
      by destruct (bit <=? 8).
  - rewrite bind_ret. rewrite (HK 0 l pos Hpos ltac:(lia) Hl) by (unfold byte_ok; lia). f_equal. apply parse_from_same.
    unfold settle, d_copying. cbn [d_phase]. cbv zeta. rewrite <- (skip_absent _ _ Eh Hbit).
    unfold add_offset, add_size. by destruct (bit <=? 8); rewrite Z.mul_0_l, Z.add_0_r.
Qed.

(** The arguments together. *)
Lemma copy_arguments_step (K : Z * Z → effect Z (list Z)) pos l command n out :
  before delta pos l → Forall byte_ok l →
  (∀ offset size l' pos', before delta pos' l' → pos <= pos' → Forall byte_ok l' → 0 <= offset → 0 <= size →
     ok (fst (K (offset, size) pos')) =
     ok (parse_from l' (d_copying command 128 offset size n out))) →
  ok (fst ((copy_arguments delta command ≫= K) pos)) = ok (parse_from l (d_copying command 1 0 0 n out)).
Proof.
  intros Hpos Hl HK. unfold copy_arguments. rewrite bind_assoc.
  apply argument_step; [done|lia|done|]. intros o0 l0 p0 H0 Hp0 Hl0 Ho0. rewrite bind_assoc.
  apply argument_step; [done|lia|done|]. intros o1 l1 p1 H1 Hp1 Hl1 Ho1. rewrite bind_assoc.
  apply argument_step; [done|lia|done|]. intros o2 l2 p2 H2 Hp2 Hl2 Ho2. rewrite bind_assoc.
  apply argument_step; [done|lia|done|]. intros o3 l3 p3 H3 Hp3 Hl3 Ho3. rewrite bind_assoc.
  apply argument_step; [done|lia|done|]. intros s0 l4 p4 H4 Hp4 Hl4 Hs0. rewrite bind_assoc.
  apply argument_step; [done|lia|done|]. intros s1 l5 p5 H5 Hp5 Hl5 Hs1. rewrite bind_assoc.
  apply argument_step; [done|lia|done|]. intros s2 l6 p6 H6 Hp6 Hl6 Hs2. rewrite bind_ret.
  rewrite !argument_words by done. unfold byte_ok in *. rewrite (HK _ _ l6 p6) by (done || lia).
  change (1 * 2) with 2. change (2 * 2) with 4. change (4 * 2) with 8. change (8 * 2) with 16.
  change (16 * 2) with 32. change (32 * 2) with 64. change (64 * 2) with 128.
  do 3 f_equal; unfold add_offset, add_size, bit_multiplier; zdec; lia.
Qed.

(** ** The loop over the commands *)

Definition check_written (t : Z) : list Z * Z → effect Z (list Z) := λ '(out, written),
  lift (throw_if (negb (bool_decide (Some written = Some t))) (CorruptError (js "delta target size mismatch")));;
  mret out.

Lemma before_more pos l : before delta pos l → (pos <? zlen delta) = bool_decide (l ≠ []).
Proof.
  intros (Hp & Hz & Hd). destruct l as [|x l].
  - change (zlen []) with 0 in Hz. by zdec.
  - rewrite zlen_cons in Hz. pose proof (zlen_nonneg l). by zdec.
Qed.

Lemma parse_opcode_copy command l t out :
  high_bit command = true →
  parse_from (command :: l) (DState DOpcode t out) = parse_from l (d_copying command 1 0 0 t out).
Proof. intros Hh. apply parse_from_cons. unfold feed, feed_opcode. simpl. by rewrite Hh. Qed.

Lemma parse_copied command offset size l t out :
  parse_from l (d_copying command 128 offset size t out) =
  d_copy b offset size (DState DOpcode t out) ≫= parse_from l.
Proof.
  assert (settle b (d_copying command 128 offset size t out) = d_copy b offset size (DState DOpcode t out)) as E.
  { unfold settle, d_copying. cbn [d_phase]. cbv zeta. rewrite skip_bits_fix by lia. done. }
  unfold parse_from at 1. destruct l as [|x l]; cbn [feeds mbind outcome_bind].
  - rewrite E. unfold d_copy. by repeat case_match.
  - unfold feed. rewrite E. unfold d_copy. destruct (_ <? offset); [done|]. destruct (_ <? (if size =? 0 then _ else _)); [done|].
    done.
Qed.

(** A literal of [n] bytes. *)
Lemma parse_literal n l t out :
  byte_ok n → high_bit n = false → n ≠ 0 →
  ok (parse_from (n :: l) (DState DOpcode t out)) =
    if (t - zlen out <? n) || (zlen l <? n) then None
    else ok (parse_from (drop (Z.to_nat n) l) (DState DOpcode t (out ++ take (Z.to_nat n) l))).
Proof.
  intros Hn Hh Hn0. pose proof (byte_land_high n Hn Hh) as Hr. destruct (t - zlen out <? n) eqn:E; cbn [orb].
  { eapply parse_from_throw. unfold feed, feed_opcode. cbn [settle d_phase mbind outcome_bind]. rewrite Hh.
    cbn [d_size d_out]. rewrite E. by zdec. }
  rewrite (parse_from_cons _ _ _ (DState (DLiteral n) t out)).
  2:{ unfold feed, feed_opcode. cbn [settle d_phase mbind outcome_bind]. rewrite Hh. cbn [d_size d_out]. rewrite E. by zdec. }
  zbool. destruct (zlen l <? n) eqn:E2; zbool.
  - unfold parse_from. destruct (decide (l = [])) as [->|Hne]; [done|].
    rewrite (feeds_literal b admit_size l n) by (done || lia). rewrite (proj2 (Z.eqb_neq _ _)) by lia. done.
  - rewrite <- (take_drop (Z.to_nat n) l) at 1. unfold parse_from. rewrite feeds_app.
    assert (zlen (take (Z.to_nat n) l) = n) as Hz by (apply zlen_take; lia).
    rewrite (feeds_literal b admit_size (take (Z.to_nat n) l) n);
      [|done|lia|intros E3; rewrite E3 in Hz; change (zlen []) with 0 in Hz; lia].
    rewrite Hz, Z.sub_diag. done.
Qed.

Lemma loop_agree fuel pos l out pad t :
  before delta pos l → Forall byte_ok l → (length l <= fuel)%nat → zlen out + zlen pad = t →
  ok (fst ((apply_loop b delta fuel (Some t) (out ++ pad) (zlen out) ≫= check_written t) pos)) =
  ok (parse_from l (DState DOpcode t out)).
Proof.
  revert pos l out pad. induction fuel as [|fuel IH]; intros pos l out pad Hpos Hl Hf Ht.
  all: assert (l = [] → ok (fst ((mret (out ++ pad, zlen out) ≫= check_written t) pos)) =
    ok (parse_from l (DState DOpcode t out))) as Hend.
  1,3: intros ->; rewrite bind_ret; unfold check_written, parse_from, d_finish; simpl;
    destruct (decide (zlen out = t)) as [E|Hne];
    [rewrite bool_decide_eq_true_2, (proj2 (Z.eqb_eq _ _)) by congruence; simpl;
     assert (pad = []) as -> by (destruct pad; [done|rewrite zlen_cons in Ht; pose proof (zlen_nonneg pad); lia]);
     by rewrite app_nil_r
    |rewrite bool_decide_eq_false_2, (proj2 (Z.eqb_neq _ _)) by congruence; done].
  { apply Hend. by destruct l; [|simpl in Hf; lia]. }
  cbn [apply_loop]. rewrite bind_assoc, bind_gets. rewrite (before_more _ _ Hpos).
  destruct l as [|command l]; [by apply Hend|]. clear Hend. rewrite bool_decide_eq_true_2 by done.
  apply Forall_cons in Hl as [Hc Hl]. simpl in Hf. rewrite bind_assoc. unfold apply_command.
  rewrite bind_assoc, (bind_ok _ _ _ _ _ (next_cons _ _ _ _ Hpos)). apply before_cons in Hpos.
  destruct (high_bit command) eqn:Hh.
  - rewrite parse_opcode_copy by done. rewrite bind_assoc. apply copy_arguments_step; [done|done|].
    intros offset size l' pos' Hpos' Hle Hl' Ho Hs. rewrite parse_copied, bind_assoc.
    unfold d_copy. cbn [d_size d_out]. set (n := if size =? 0 then 65536 else size).
    rewrite over_eq, (over_eq _ t), (Z.add_comm n).
    destruct (zlen b <? offset + n) eqn:E1; [done|]. destruct (t <? zlen out + n) eqn:E2; cbn [throw_if]; [by rewrite bind_lift|].
    rewrite !bind_lift, !bind_assoc, !bind_lift. zbool.
    assert (zlen (slice b offset (offset + n)) = n) as Hz.
    { rewrite zlen_slice; [lia| |lia]. subst n. destruct (size =? 0) eqn:E; zbool; lia. }
    destruct (write_part out pad (slice b offset (offset + n)) t Ht ltac:(lia)) as (pad' & Hset & Ht').
    rewrite bind_assoc. rewrite Hset, !bind_lift, !bind_ret. rewrite zlen_app, Hz in Ht'.
    replace (zlen out + n) with (zlen (out ++ slice b offset (offset + n))) by (rewrite zlen_app; lia).
    apply IH; [done|done| |rewrite zlen_app; lia].
    destruct Hpos' as (_ & Hp' & _). destruct Hpos as (Hp & Hp2 & _). unfold zlen in *. lia.
  - destruct (decide (command = 0)) as [->|Hne].
    { symmetry. by eapply parse_from_throw. }
    rewrite (proj2 (Z.eqb_neq _ _)) by done. cbn [negb]. rewrite parse_literal by done.
    rewrite bind_assoc, bind_gets, over_eq.
    destruct Hpos as (Hp & Hp2 & Hd). pose proof (byte_land_high _ Hc Hh) as Hr.
    rewrite !bind_assoc. replace (zlen delta <? pos + 1 + command) with (zlen l <? command).
    2:{ destruct (zlen l <? command) eqn:E; zbool; symmetry; [apply Z.ltb_lt|apply Z.ltb_ge]; lia. }
    destruct (zlen l <? command) eqn:E1; [by rewrite orb_true_r|]. rewrite orb_false_r. cbn [throw_if].
    rewrite bind_lift, bind_assoc. destruct (t <? zlen out + command) eqn:E2; [done|]. cbn [throw_if]. rewrite bind_lift, bind_assoc.
    zbool. assert (zlen (take (Z.to_nat command) l) = command) as Hz by (apply zlen_take; lia).
    assert (slice delta (pos + 1) (pos + 1 + command) = take (Z.to_nat command) l) as ->.
    { unfold slice. rewrite Hd. do 2 f_equal. lia. }
    destruct (write_part out pad (take (Z.to_nat command) l) t Ht ltac:(lia)) as (pad' & Hset & Ht').
    rewrite Hset, bind_lift, bind_assoc, bind_modify, bind_ret.
    replace (zlen out + command) with (zlen (out ++ take (Z.to_nat command) l)) by (rewrite zlen_app; lia).
    apply IH; [|by apply Forall_drop|rewrite length_drop; lia|done].
    destruct (before_app delta (pos + 1) (take (Z.to_nat command) l) (drop (Z.to_nat command) l)) as [Hb _].
    { by rewrite take_drop. }
    by rewrite Hz in Hb.
Qed.

(** ** The header *)

Definition d_sizing (source : bool) (v m : Z) : dstate := DState (DSize source v m) 0 [].

(** What follows a size field that reads [v]. *)
Definition after_size (source : bool) (v : Z) (l : list Z) : outcome (list Z) :=
  if source then
    if negb (v =? zlen b) then Throw (CorruptError (js "delta base size mismatch"))
    else parse_from l (d_sizing false 0 1)
  else admit_size v;; parse_from l (DState DOpcode v []).

(** A size field that the parser accepts, [varint] reads. *)
Lemma varint_parse l pos v shift source fuel bs :
  before delta pos l → Forall byte_ok l → (length l < fuel)%nat → 0 <= v → 0 <= shift → 2 ^ shift <= MAX_SAFE_INTEGER →
  parse_from l (d_sizing source v (2 ^ shift)) = Ok bs →
  ∃ v' pos' l', varint_loop delta fuel (Some v) shift pos = (Ok (Some v'), pos') ∧ before delta pos' l' ∧
    Forall byte_ok l' ∧ pos <= pos' ∧ after_size source v' l' = Ok bs.
Proof.
  revert pos v shift fuel. induction l as [|x l IH]; intros pos v shift fuel Hpos Hl Hf Hv Hsh Hm Hp; [done|].
  destruct fuel as [|fuel]; [lia|]. apply Forall_cons in Hl as [Hx Hl].
  cbn [varint_loop]. rewrite (bind_ok _ _ _ _ _ (next_cons _ _ _ _ Hpos)).
  assert (shift < 53).
  { apply (Z.pow_lt_mono_r_iff 2); [lia..|]. unfold MAX_SAFE_INTEGER in Hm. lia. }
  assert (varint_term x shift = Some (Z.land x 127 * 2 ^ shift)) as ->.
  { unfold varint_term. rewrite (proj2 (Z.leb_gt _ _)) by lia. done. }
  cbn [number_add mbind option_bind].
  change (number_add (Some v) (Some ?y)) with (Some (v + y)).
  unfold parse_from in Hp. cbn [feeds] in Hp. unfold feed, feed_size in Hp. cbn [settle d_phase mbind outcome_bind d_sizing] in Hp.
  destruct (_ || _); [done|]. assert (0 <= Z.land x 127 * 2 ^ shift).
  { apply Z.mul_nonneg_nonneg; [apply Z.land_nonneg; unfold byte_ok in Hx; lia|lia]. }
  apply before_cons in Hpos. destruct (high_bit x).
  - destruct (negb (isSafeInteger (2 ^ shift * 128))) eqn:E; [done|]. apply negb_false_iff in E. unfold isSafeInteger in E. zbool.
    assert (2 ^ shift * 128 = 2 ^ (shift + 7)) as E2 by (rewrite Z.pow_add_r by lia; done).
    rewrite E2 in *. destruct (IH (pos + 1) (v + Z.land x 127 * 2 ^ shift) (shift + 7) fuel) as (v' & pos' & l' & Hv' & Hb' & Hl' & Hle' & Ha');
      [done|done|simpl in Hf; lia|lia|lia|lia|exact Hp|].
    exists v', pos', l'. split_and!; [done..|lia|done].
  - exists (v + Z.land x 127 * 2 ^ shift), (pos + 1), l. split_and!; [done..|lia|].
    unfold after_size. destruct source.
    + by destruct (negb _).
    + by destruct (admit_size _).
Qed.

Lemma applyDelta_of_parse bs : parse_delta b admit_size delta = Ok bs → applyDelta b delta = Ok bs.
Proof.
  intros Hp. change (parse_from delta (d_sizing true 0 (2 ^ 0)) = Ok bs) in Hp.
  unfold applyDelta, apply_delta, varint.
  destruct (varint_parse delta 0 0 0 true (S (length delta)) bs (before_0 _) Hbytes) as (v1 & pos1 & l1 & Hv1 & Hpos1 & Hl1 & Hle1 & Ha1);
    [lia|lia|lia|done|done|].
  rewrite (bind_ok _ _ _ _ _ Hv1). unfold after_size in Ha1. destruct (v1 =? zlen b) eqn:E1; [|done]. cbn [negb] in Ha1. zbool.
  assert (∀ p l, before delta p l → (length l <= length delta)%nat) as Hlen.
  { intros p l (? & ? & _). unfold zlen in *. lia. }
  destruct (varint_parse l1 pos1 0 0 false (S (length delta)) bs Hpos1 Hl1) as (v2 & pos2 & l2 & Hv2 & Hpos2 & Hl2 & Hle2 & Ha2);
    [specialize (Hlen _ _ Hpos1); lia|lia|lia|done|done|].
  rewrite (bind_ok _ _ _ _ _ Hv2). unfold after_size in Ha2. apply bind_ok_inv in Ha2 as ([] & Hadm & Hparse).
  apply Hadmit in Hadm. subst v1. rewrite bool_decide_eq_true_2 by done. cbn [negb throw_if]. rewrite bind_lift.
  rewrite (proj2 (Z.ltb_ge _ _)) by lia. cbn [throw_if]. rewrite bind_lift. cbn [default from_option id].
  pose proof (loop_agree (length delta) pos2 l2 [] (replicate (Z.to_nat v2) 0) v2 Hpos2 Hl2 (Hlen _ _ Hpos2)) as Hloop.
  rewrite Hparse in Hloop. specialize (Hloop ltac:(rewrite zlen_replicate by lia; done)). cbn [app] in Hloop.
  change (zlen []) with 0 in Hloop.
  match goal with |- fst (?m pos2) = _ => change (ok (fst (m pos2)) = Some bs) in Hloop; destruct (fst (m pos2)); simpl in Hloop end; congruence.
Qed.

End agree.

(** * The header *)

Lemma low_bits x : Z.land x 127 = x mod 128.
Proof. change 127 with (Z.ones 7). by rewrite Z.land_ones by lia. Qed.

Lemma lor_high x : 0 <= x < 128 → Z.lor x 128 = x + 128.
Proof. intros. pose proof (lor_shift x 1 7 ltac:(lia) ltac:(done) ltac:(lia)) as E. change (Z.shiftl 1 7) with 128 in E. change (2 ^ 7) with 128 in E. lia. Qed.

Lemma high_bit_spec x : 0 <= x < 256 → high_bit x = (128 <=? x).
Proof.
  intros Hx. destruct (high_bit x) eqn:E; [|apply byte_land_high in E; [by zdec|done]].
  destruct (decide (128 <= x)); [by zdec|]. exfalso. unfold high_bit in E. apply negb_true_iff in E. zbool.
  apply E. apply Z.bits_inj'. intros i Hi. rewrite Z.land_spec, Z.bits_0.
  change 128 with (2 ^ 7). rewrite Z.pow2_bits_eqb by lia. destruct (Z.eqb_spec 7 i) as [<-|]; [|apply andb_false_r].
  rewrite andb_true_r. apply Z.bits_above_log2; [lia|]. destruct (decide (x = 0)) as [->|]; [done|].
  apply Z.log2_lt_pow2; lia.
Qed.

(** One group of [encode_size]: the last one, or one with the continuation bit. *)
Lemma encode_size_cases fuel n :
  0 <= n → (n < 128 ∧ encode_size (S fuel) n = [n] ∧ high_bit n = false ∧ Z.land n 127 = n ∧ byte_ok n) ∨
  (∃ x, 128 <= n ∧ encode_size (S fuel) n = x :: encode_size fuel (n / 128) ∧ high_bit x = true ∧
     Z.land x 127 = n mod 128 ∧ byte_ok x).
Proof.
  intros Hn. cbn [encode_size]. rewrite low_bits. pose proof (Z.mod_pos_bound n 128 ltac:(lia)).
  destruct (0 <? n / 128) eqn:E; zbool.
  - right. exists (n mod 128 + 128). rewrite lor_high by lia. rewrite high_bit_spec, low_bits by lia.
    assert (128 <= n) by (destruct (decide (n < 128)); [rewrite Z.div_small in E; lia|lia]).
    split_and!; [done|done|by zdec| |unfold byte_ok; lia].
    replace (n mod 128 + 128) with (n mod 128 + 1 * 128) by lia. rewrite Z.mod_add, Z.mod_mod; lia.
  - left. assert (n < 128) by (destruct (decide (n < 128)); [done|]; assert (1 <= n / 128) by (apply Z.div_le_lower_bound; lia); lia).
    rewrite high_bit_spec, Z.mod_small by lia. split_and!; [done|done|by zdec|done|unfold byte_ok; lia].
Qed.

(** [fuel] groups are enough for [n]. *)
Definition encodable (fuel : nat) (n : Z) : Prop :=
  match fuel with O => False | S _ => 0 <= n < 128 ^ Z.of_nat fuel end.

Lemma encodable_nonneg fuel n : encodable fuel n → 0 <= n.
Proof. destruct fuel; [done|]. intros Hn. apply Hn. Qed.

Lemma encodable_div fuel n : encodable (S fuel) n → 128 <= n → encodable fuel (n / 128).
Proof.
  intros [Hn Hf] Hle. destruct fuel as [|fuel]; [change (128 ^ Z.of_nat 1) with 128 in Hf; lia|].
  split; [apply Z.div_pos; lia|]. rewrite Nat2Z.inj_succ, Z.pow_succ_r in Hf by lia. apply Z.div_lt_upper_bound; lia.
Qed.

Lemma encodable_safe n : 0 <= n <= MAX_SAFE_INTEGER → encodable 8 n.
Proof. unfold encodable, MAX_SAFE_INTEGER. change (128 ^ Z.of_nat 8) with 72057594037927936. lia. Qed.

Lemma encode_size_bytes fuel n : 0 <= n → Forall byte_ok (encode_size fuel n).
Proof.
  revert n. induction fuel as [|fuel IH]; intros n Hn; [constructor|].
  destruct (encode_size_cases fuel n Hn) as [(_ & -> & _ & _ & Hb)|(x & Hx & -> & _ & _ & Hb)].
  - by apply Forall_singleton.
  - constructor; [done|]. apply IH. by apply Z.div_pos.
Qed.

Section header.
  Context (b : list Z) (admit_size : Z → outcome unit).

Lemma div_step n m : 0 <= n → n / 128 * (m * 128) + n mod 128 * m = n * m.
Proof. intros. pose proof (Z.div_mod n 128 ltac:(lia)). nia. Qed.

(** The parser reads what [encode_size] writes. *)
Lemma parse_encoded fuel n l source v m :
  encodable fuel n → 0 <= v → 1 <= m → v + n * m <= MAX_SAFE_INTEGER →
  parse_from b admit_size (encode_size fuel n ++ l) (d_sizing source v m) = after_size b admit_size source (v + n * m) l.
Proof.
  revert n v m. induction fuel as [|fuel IH]; intros n v m Hn Hv Hm Hs; [by destruct Hn|].
  pose proof (Z.mod_pos_bound n 128 ltac:(lia)). pose proof (encodable_nonneg _ _ Hn). assert (0 <= n * m) by nia.
  destruct (encode_size_cases fuel n ltac:(lia)) as [(Hn' & -> & Hh & Hl & _)|(x & Hn' & -> & Hh & Hl & _)];
    cbn [app]; unfold parse_from at 1; cbn [feeds]; unfold feed, feed_size; cbn [settle d_phase mbind outcome_bind d_sizing];
    rewrite Hl, Hh.
  - rewrite !safe_int by (unfold MAX_SAFE_INTEGER in *; lia). cbn [negb orb]. unfold after_size. destruct source.
    + by destruct (negb _).
    + by destruct (admit_size _).
  - assert (0 <= n mod 128 * m) by nia. assert (0 <= n / 128) by (apply Z.div_pos; lia). assert (1 <= n / 128) by (apply Z.div_le_lower_bound; lia).
    pose proof (div_step n m ltac:(lia)).
    assert (n mod 128 * m <= n * m) by (apply Z.mul_le_mono_nonneg_r; lia).
    assert (m * 128 <= n * m) by (rewrite (Z.mul_comm m); apply Z.mul_le_mono_nonneg_r; lia).
    rewrite !safe_int by (unfold MAX_SAFE_INTEGER in *; lia). cbn [negb orb].
    change (parse_from b admit_size (encode_size fuel (n / 128) ++ l) (d_sizing source (v + n mod 128 * m) (m * 128)) =
            after_size b admit_size source (v + n * m) l).
    rewrite IH; [f_equal; lia| | |lia|]; [by apply encodable_div|lia|lia].
Qed.

End header.

(** [varint] reads it. *)
Lemma varint_encoded delta fuel n l pos v shift gas :
  before delta pos (encode_size fuel n ++ l) → encodable fuel n → 0 <= shift →
  shift + 7 * Z.of_nat fuel <= 1024 → (length (encode_size fuel n) <= gas)%nat →
  ∃ pos', varint_loop delta gas (Some v) shift pos = (Ok (Some (v + n * 2 ^ shift)), pos') ∧ before delta pos' l.
Proof.
  revert n pos v shift gas. induction fuel as [|fuel IH]; intros n pos v shift gas Hpos Hn Hs Hm Hg; [by destruct Hn|].
  pose proof (Z.mod_pos_bound n 128 ltac:(lia)). pose proof (encodable_nonneg _ _ Hn).
  assert (∀ x, varint_term x shift = Some (Z.land x 127 * 2 ^ shift)) as Hterm.
  { intros x. unfold varint_term. by rewrite (proj2 (Z.leb_gt _ _)) by lia. }
  destruct (encode_size_cases fuel n ltac:(lia)) as [(Hn' & E & Hh & Hl & _)|(x & Hn' & E & Hh & Hl & _)];
    rewrite E in Hpos, Hg; simpl in Hg; (destruct gas as [|gas]; [lia|]); cbn [app] in Hpos; cbn [varint_loop];
    rewrite (bind_ok _ _ _ _ _ (next_cons _ _ _ _ Hpos)), Hh, Hterm, Hl;
    change (number_add (Some v) (Some ?y)) with (Some (v + y)); apply before_cons in Hpos.
  - by exists (pos + 1).
  - destruct (IH (n / 128) (pos + 1) (v + n mod 128 * 2 ^ shift) (shift + 7) gas) as (pos' & -> & Hpos');
      [done|by apply encodable_div|lia|lia|lia|].
    exists pos'. split; [|done]. pose proof (div_step n (2 ^ shift) ltac:(lia)).
    rewrite Z.pow_add_r by lia. change (2 ^ 7) with 128. do 3 f_equal. lia.
Qed.

(** The checked [varint] of [validateDeltaWorkingSet] reads it. *)
Lemma checked_varint_encoded delta fuel n l pos v shift gas :
  before delta pos (encode_size fuel n ++ l) → encodable fuel n → 0 <= shift →
  shift + 7 * Z.of_nat fuel <= 56 → (fuel <= gas)%nat →
  ∃ pos', checked_varint_loop delta gas v shift pos = (Ok (v + n * 2 ^ shift), pos') ∧ before delta pos' l.
Proof.
  revert n pos v shift gas. induction fuel as [|fuel IH]; intros n pos v shift gas Hpos Hn Hs Hm Hg; [by destruct Hn|].
  destruct gas as [|gas]; [lia|]. pose proof (Z.mod_pos_bound n 128 ltac:(lia)). pose proof (encodable_nonneg _ _ Hn).
  destruct (encode_size_cases fuel n ltac:(lia)) as [(Hn' & E & Hh & Hl & _)|(x & Hn' & E & Hh & Hl & _)];
    rewrite E in Hpos; cbn [app] in Hpos; cbn [checked_varint_loop];
    rewrite (bind_ok _ _ _ _ _ (next_cons _ _ _ _ Hpos)), Hh, Hl; cbv zeta;
    rewrite (proj2 (Z.ltb_ge 56 (shift + 7))) by lia; apply before_cons in Hpos.
  - by exists (pos + 1).
  - destruct (IH (n / 128) (pos + 1) (v + n mod 128 * 2 ^ shift) (shift + 7) gas) as (pos' & -> & Hpos');
      [done|by apply encodable_div|lia|lia|lia|].
    exists pos'. split; [|done]. pose proof (div_step n (2 ^ shift) ltac:(lia)).
    rewrite Z.pow_add_r by lia. change (2 ^ 7) with 128. do 2 f_equal. lia.
Qed.

(** ** DeltaHeaderProbe *)

(** Updates with the pieces in order. *)
Fixpoint probe_updates (pieces : list (list Z)) : effect DeltaHeaderProbe unit :=
  match pieces with
  | [] => mret tt
  | piece :: pieces => probe_update piece;; probe_updates pieces
  end.

Lemma probe_loop_app l k p :
  probe_complete p = false → probe_loop (l ++ k) p = (probe_loop l;; probe_update k) p.
Proof.
  revert p. induction l as [|x l IH]; intros p Hp.
  { cbn [app]. rewrite (bind_ok _ _ p tt p) by done. unfold probe_update. by rewrite Hp. }
  cbn [app]. unfold mbind, effect_bind. cbn [probe_loop]. cbv zeta.
  destruct ((56 <? _) || _); [done|]. destruct (high_bit x).
  - rewrite IH by done. done.
  - match goal with |- context [if probe_complete ?q then _ else _] => destruct (probe_complete q) eqn:E end.
    + unfold probe_update. by rewrite E.
    + rewrite IH by done. done.
Qed.

Lemma probe_updates_join pieces p : probe_updates pieces p = probe_update (mjoin pieces) p.
Proof.
  revert p. induction pieces as [|l pieces IH]; intros p; cbn [probe_updates].
  { unfold probe_update. simpl. by destruct (probe_complete p). }
  change (mjoin (l :: pieces)) with (l ++ mjoin pieces).
  assert (probe_update (l ++ mjoin pieces) p = (probe_update l;; probe_update (mjoin pieces)) p) as ->.
  { unfold mbind, effect_bind, probe_update at 1 2. destruct (probe_complete p) eqn:E.
    - unfold probe_update. by rewrite E.
    - by rewrite (probe_loop_app l _ p E). }
  unfold mbind, effect_bind. destruct (probe_update l p) as [[[]|e] p']; [apply IH|done].
Qed.

Lemma probe_encoded fuel n l v shift field s :
  encodable fuel n → 0 <= v → 0 <= shift → v + n * 2 ^ shift <= MAX_SAFE_INTEGER → shift + 7 * Z.of_nat fuel <= 56 →
  probe_loop (encode_size fuel n ++ l) (probe v shift field s None) =
    let value := v + n * 2 ^ shift in
    let p := if field =? 0 then probe 0 0 (field + 1) (Some value) None else probe 0 0 (field + 1) s (Some value) in
    if probe_complete p then (Ok tt, p) else probe_loop l p.
Proof.
  revert n v shift. induction fuel as [|fuel IH]; intros n v shift Hn Hv Hs Hm Hf; [by destruct Hn|].
  pose proof (Z.mod_pos_bound n 128 ltac:(lia)). pose proof (encodable_nonneg _ _ Hn).
  assert (0 < 2 ^ shift) by (apply Z.pow_pos_nonneg; lia).
  destruct (encode_size_cases fuel n ltac:(lia)) as [(Hn' & -> & Hh & Hl & _)|(x & Hn' & -> & Hh & Hl & _)];
    cbn [app probe_loop pr_value pr_shift pr_field pr_sourceSize pr_targetSize]; cbv zeta; rewrite Hl, Hh;
    rewrite (proj2 (Z.ltb_ge 56 (shift + 7))) by lia; cbn [orb].
  - rewrite safe_int by (unfold MAX_SAFE_INTEGER in *; nia). cbn [negb]. by destruct (field =? 0).
  - assert (n mod 128 * 2 ^ shift <= n * 2 ^ shift) by (apply Z.mul_le_mono_nonneg_r; lia).
    assert (0 <= n mod 128 * 2 ^ shift) by nia.
    rewrite safe_int by (unfold MAX_SAFE_INTEGER in *; lia). cbn [negb].
    pose proof (div_step n (2 ^ shift) ltac:(lia)) as Hd.
    assert (2 ^ (shift + 7) = 2 ^ shift * 128) as Hp by (rewrite Z.pow_add_r by lia; done).
    rewrite IH; [|by apply encodable_div|lia|lia|rewrite Hp; lia|lia]. rewrite Hp. cbv zeta.
    by replace (v + n mod 128 * 2 ^ shift + n / 128 * (2 ^ shift * 128)) with (v + n * 2 ^ shift) by lia.
Qed.

(** * Instructions *)

(** An instruction of git's delta format, and its bytes: a copy's command has a bit for
    every byte of the offset and of the size that is not zero. *)
Inductive instruction : Type :=
| ICopy (offset size : Z)
| ILiteral (bs : list Z).

Definition meaning (b : list Z) (i : instruction) : list Z :=
  match i with
  | ICopy offset size => slice b offset (offset + size)
  | ILiteral bs => bs
  end.

Definition valid_instruction (b : list Z) (i : instruction) : Prop :=
  match i with
  | ICopy offset size => 0 <= offset < 2 ^ 32 ∧ 0 < size < 2 ^ 24 ∧ offset + size <= zlen b
  | ILiteral bs => 0 < zlen bs < 128 ∧ Forall byte_ok bs
  end.

Definition argument_bytes (x : Z) : list Z := if x =? 0 then [] else [x].
Definition argument_bit (x bit : Z) : Z := if x =? 0 then 0 else bit.

Definition encode_copy (o0 o1 o2 o3 s0 s1 s2 : Z) : list Z :=
  (128 + argument_bit o0 1 + argument_bit o1 2 + argument_bit o2 4 + argument_bit o3 8 +
   argument_bit s0 16 + argument_bit s1 32 + argument_bit s2 64) ::
  argument_bytes o0 ++ argument_bytes o1 ++ argument_bytes o2 ++ argument_bytes o3 ++
  argument_bytes s0 ++ argument_bytes s1 ++ argument_bytes s2.

Definition digit (x k : Z) : Z := x / 256 ^ k mod 256.

Definition encode_instruction (i : instruction) : list Z :=
  match i with
  | ICopy offset size =>
      encode_copy (digit offset 0) (digit offset 1) (digit offset 2) (digit offset 3)
                  (digit size 0) (digit size 1) (digit size 2)
  | ILiteral bs => zlen bs :: bs
  end.

Lemma digit_ok x k : byte_ok (digit x k).
Proof. unfold digit, byte_ok. apply Z.mod_pos_bound. lia. Qed.

Lemma argument_run delta command bit x pos l :
  has command bit = negb (x =? 0) → before delta pos (argument_bytes x ++ l) →
  ∃ pos', argument delta command bit pos = (Ok x, pos') ∧ before delta pos' l.
Proof.
  intros Hh Hpos. unfold argument, argument_bytes in *. rewrite Hh. destruct (x =? 0) eqn:E; zbool; cbn [negb].
  - subst. by exists pos.
  - exists (pos + 1). split; [by eapply next_cons|by eapply before_cons].
Qed.

Lemma copy_arguments_run delta pos l o0 o1 o2 o3 s0 s1 s2 command rest :
  byte_ok o0 → byte_ok o1 → byte_ok o2 → byte_ok s0 → byte_ok s1 → byte_ok s2 →
  encode_copy o0 o1 o2 o3 s0 s1 s2 = command :: rest → before delta pos (rest ++ l) →
  ∃ pos', copy_arguments delta command pos =
    (Ok (o0 + o1 * 256 + o2 * 65536 + o3 * 16777216, s0 + s1 * 256 + s2 * 65536), pos') ∧
    before delta pos' l ∧ high_bit command = true.
Proof.
  intros Ho0 Ho1 Ho2 Hs0 Hs1 Hs2 [= Hc Hr] Hpos. subst rest. rewrite <- !app_assoc in Hpos.
  assert (has command 1 = negb (o0 =? 0) ∧ has command 2 = negb (o1 =? 0) ∧ has command 4 = negb (o2 =? 0) ∧
    has command 8 = negb (o3 =? 0) ∧ has command 16 = negb (s0 =? 0) ∧ has command 32 = negb (s1 =? 0) ∧
    has command 64 = negb (s2 =? 0) ∧ high_bit command = true) as (H0 & H1 & H2 & H3 & H4 & H5 & H6 & H7).
  { subst command. unfold argument_bit.
    destruct (o0 =? 0), (o1 =? 0), (o2 =? 0), (o3 =? 0), (s0 =? 0), (s1 =? 0), (s2 =? 0); by vm_compute. }
  unfold copy_arguments.
  destruct (argument_run _ _ _ _ _ _ H0 Hpos) as (p0 & R0 & P0). rewrite (bind_ok _ _ _ _ _ R0).
  destruct (argument_run _ _ _ _ _ _ H1 P0) as (p1 & R1 & P1). rewrite (bind_ok _ _ _ _ _ R1).
  destruct (argument_run _ _ _ _ _ _ H2 P1) as (p2 & R2 & P2). rewrite (bind_ok _ _ _ _ _ R2).
  destruct (argument_run _ _ _ _ _ _ H3 P2) as (p3 & R3 & P3). rewrite (bind_ok _ _ _ _ _ R3).
  destruct (argument_run _ _ _ _ _ _ H4 P3) as (p4 & R4 & P4). rewrite (bind_ok _ _ _ _ _ R4).
  destruct (argument_run _ _ _ _ _ _ H5 P4) as (p5 & R5 & P5). rewrite (bind_ok _ _ _ _ _ R5).
  destruct (argument_run _ _ _ _ _ _ H6 P5) as (p6 & R6 & P6). rewrite (bind_ok _ _ _ _ _ R6).
  exists p6. rewrite !argument_words by done. done.
Qed.

Lemma digits_4 x : 0 <= x < 2 ^ 32 → digit x 0 + digit x 1 * 256 + digit x 2 * 65536 + digit x 3 * 16777216 = x.
Proof.
  change (2 ^ 32) with 4294967296. unfold digit. change (256 ^ 0) with 1. change (256 ^ 1) with 256.
  change (256 ^ 2) with 65536. change (256 ^ 3) with 16777216. intros. zdm.
Qed.

Lemma digits_3 x : 0 <= x < 2 ^ 24 → digit x 0 + digit x 1 * 256 + digit x 2 * 65536 = x.
Proof.
  change (2 ^ 24) with 16777216. unfold digit. change (256 ^ 0) with 1. change (256 ^ 1) with 256.
  change (256 ^ 2) with 65536. intros. zdm.
Qed.

Lemma apply_command_run b delta i pos l out pad t :
  valid_instruction b i → before delta pos (encode_instruction i ++ l) →
  zlen out + zlen pad = t → zlen out + zlen (meaning b i) <= t →
  ∃ pos' pad', apply_command b delta (Some t) (out ++ pad) (zlen out) pos =
    (Ok ((out ++ meaning b i) ++ pad', zlen (out ++ meaning b i)), pos') ∧
    before delta pos' l ∧ zlen (out ++ meaning b i) + zlen pad' = t.
Proof.
  intros Hv Hpos Ht Hm. destruct (write_part out pad (meaning b i) t Ht Hm) as (pad' & Hset & Ht').
  unfold apply_command. destruct i as [offset size|bs]; cbn [encode_instruction meaning valid_instruction] in *.
  - destruct Hv as (Ho & Hs & Hb). destruct (encode_copy _ _ _ _ _ _ _) as [|command rest] eqn:E; [done|].
    cbn [app] in Hpos. rewrite (bind_ok _ _ _ _ _ (next_cons _ _ _ _ Hpos)). apply before_cons in Hpos.
    destruct (copy_arguments_run _ _ _ _ _ _ _ _ _ _ _ _ (digit_ok _ _) (digit_ok _ _) (digit_ok _ _)
      (digit_ok _ _) (digit_ok _ _) (digit_ok _ _) E Hpos) as (pos' & Hargs & Hpos' & ->).
    rewrite digits_4, digits_3 in Hargs by lia. rewrite (bind_ok _ _ _ _ _ Hargs).
    rewrite (proj2 (Z.eqb_neq size 0)) by lia. rewrite (proj2 (Z.ltb_ge (zlen b) _)) by lia. cbn [throw_if]. rewrite bind_lift.
    assert (zlen (slice b offset (offset + size)) = size) as Hz by (rewrite zlen_slice; lia). rewrite Hz in Hm.
    rewrite (proj2 (Z.ltb_ge t _)) by lia. cbn [throw_if]. rewrite bind_lift, Hset, bind_lift.
    exists pos', pad'. rewrite zlen_app, Hz in *. done.
  - destruct Hv as (Hl & Hbs). cbn [app] in Hpos. rewrite (bind_ok _ _ _ _ _ (next_cons _ _ _ _ Hpos)). apply before_cons in Hpos.
    rewrite high_bit_spec, (proj2 (Z.leb_gt _ _)), (proj2 (Z.eqb_neq _ _)) by lia. cbn [negb]. rewrite bind_gets.
    destruct (before_app _ _ _ _ Hpos) as [Hpos' Hsl]. destruct Hpos as (_ & Hz & _). rewrite zlen_app in Hz. pose proof (zlen_nonneg l).
    rewrite (proj2 (Z.ltb_ge (zlen delta) _)) by lia. cbn [throw_if]. rewrite bind_lift.
    rewrite (proj2 (Z.ltb_ge t _)) by lia. cbn [throw_if]. rewrite bind_lift, Hsl, Hset, bind_lift, bind_modify.
    exists (pos + 1 + zlen bs), pad'. by rewrite zlen_app in *.
Qed.

Definition meanings (b : list Z) (instrs : list instruction) : list Z := mjoin (meaning b <$> instrs).
Definition encode_instructions (instrs : list instruction) : list Z := mjoin (encode_instruction <$> instrs).

Lemma encode_instruction_cons i : ∃ x l, encode_instruction i = x :: l.
Proof. destruct i; cbn; eauto. Qed.

Lemma apply_loop_run b delta fuel instrs pos out pad :
  Forall (valid_instruction b) instrs → before delta pos (encode_instructions instrs) →
  (length (encode_instructions instrs) <= fuel)%nat → zlen pad = zlen (meanings b instrs) →
  ∃ pos', apply_loop b delta fuel (Some (zlen out + zlen pad)) (out ++ pad) (zlen out) pos =
    (Ok (out ++ meanings b instrs, zlen (out ++ meanings b instrs)), pos').
Proof.
  intros Hv. revert fuel pos out pad. induction Hv as [|i instrs Hi Hv IH]; intros fuel pos out pad Hpos Hf Hz.
  { change (zlen (meanings b [])) with 0 in Hz. destruct pad as [|? ?]; [|rewrite zlen_cons in Hz; pose proof (zlen_nonneg pad); lia].
    change (meanings b []) with (@nil Z). rewrite !app_nil_r. exists pos. destruct fuel as [|fuel]; [done|].
    cbn [apply_loop]. rewrite bind_gets, (before_more _ _ _ Hpos). done. }
  change (meanings b (i :: instrs)) with (meaning b i ++ meanings b instrs) in *.
  change (encode_instructions (i :: instrs)) with (encode_instruction i ++ encode_instructions instrs) in *.
  destruct (encode_instruction_cons i) as (x & l & E). rewrite length_app in Hf. rewrite E in Hf. simpl in Hf.
  destruct fuel as [|fuel]; [lia|]. cbn [apply_loop]. rewrite bind_gets, (before_more _ _ _ Hpos).
  rewrite bool_decide_eq_true_2 by by rewrite E. rewrite zlen_app in Hz. pose proof (zlen_nonneg (meanings b instrs)).
  destruct (apply_command_run b delta i pos (encode_instructions instrs) out pad _ Hi Hpos eq_refl ltac:(lia)) as (pos' & pad' & Hrun & Hpos' & Hz').
  rewrite (bind_ok _ _ _ _ _ Hrun). rewrite <- Hz'. rewrite zlen_app in Hz'.
  destruct (IH fuel pos' (out ++ meaning b i) pad' Hpos' ltac:(lia) ltac:(lia)) as [pos'' Hrun''].
  exists pos''. rewrite app_assoc. exact Hrun''.
Qed.

Section whole.
  Context (b delta : list Z).

(** [applyDelta] after a header. *)
Lemma apply_delta_header t body :
  delta = encodeDeltaHeader (zlen b) t ++ body → zlen b <= MAX_SAFE_INTEGER → 0 <= t <= MAX_DELTA_TARGET →
  ∃ pos, before delta pos body ∧
    apply_delta b delta 0 = (apply_loop b delta (length delta) (Some t) (replicate (Z.to_nat t) 0) 0 ≫= check_written t) pos.
Proof.
  intros Hd Hb Ht. unfold encodeDeltaHeader in Hd. rewrite <- app_assoc in Hd.
  pose proof (zlen_nonneg b). assert (t <= MAX_SAFE_INTEGER) by (unfold MAX_DELTA_TARGET, MAX_SAFE_INTEGER in *; lia).
  assert (before delta 0 (encode_size 8 (zlen b) ++ encode_size 8 t ++ body)) as Hpos by (rewrite <- Hd; apply before_0).
  assert (length (encode_size 8 (zlen b)) + length (encode_size 8 t) <= S (length delta))%nat as Hgas.
  { rewrite Hd, !length_app. lia. }
  destruct (varint_encoded delta 8 (zlen b) _ 0 0 0 (S (length delta)) Hpos) as (p1 & H1 & P1);
    [apply encodable_safe; lia|lia|lia|lia|].
  destruct (varint_encoded delta 8 t _ p1 0 0 (S (length delta)) P1) as (p2 & H2 & P2);
    [apply encodable_safe; lia|lia|lia|lia|].
  exists p2. split; [done|]. change (2 ^ 0) with 1 in H1, H2. rewrite Z.mul_1_r, Z.add_0_l in H1, H2.
  unfold apply_delta, varint. rewrite (bind_ok _ _ _ _ _ H1), (bind_ok _ _ _ _ _ H2).
  rewrite bool_decide_eq_true_2 by done. cbn [negb throw_if]. rewrite bind_lift.
  rewrite (proj2 (Z.ltb_ge _ _)) by lia. cbn [throw_if]. by rewrite bind_lift.
Qed.

End whole.

(** A delta that [applyDelta] accepts and whose target is admitted, the parser accepts. *)
Lemma parse_of_applyDelta b admit_size t body bs :
  zlen b <= MAX_SAFE_INTEGER → 0 <= t <= MAX_DELTA_TARGET → admit_size t = Ok tt → Forall byte_ok body →
  applyDelta b (encodeDeltaHeader (zlen b) t ++ body) = Ok bs →
  parse_delta b admit_size (encodeDeltaHeader (zlen b) t ++ body) = Ok bs.
Proof.
  intros Hb Ht Ha Hbody Hap. set (delta := encodeDeltaHeader (zlen b) t ++ body) in *.
  destruct (apply_delta_header b delta t body eq_refl Hb Ht) as (pos & Hpos & Happly).
  pose proof (zlen_nonneg b). assert (t <= MAX_SAFE_INTEGER) by (unfold MAX_DELTA_TARGET, MAX_SAFE_INTEGER in *; lia).
  assert (length body <= length delta)%nat as Hlen by (unfold delta; rewrite length_app; lia).
  pose proof (loop_agree b admit_size delta (length delta) pos body [] (replicate (Z.to_nat t) 0) t Hpos Hbody Hlen) as Hloop.
  specialize (Hloop ltac:(rewrite zlen_replicate by lia; done)). cbn [app] in Hloop. change (zlen []) with 0 in Hloop.
  unfold applyDelta in Hap. rewrite Happly in Hap. rewrite Hap in Hloop.
  change (parse_from b admit_size delta (d_sizing true 0 1) = Ok bs). unfold delta, encodeDeltaHeader. rewrite <- app_assoc.
  rewrite parse_encoded by (lia || apply encodable_safe; lia). rewrite Z.mul_1_r, Z.add_0_l.
  unfold after_size. rewrite Z.eqb_refl. cbn [negb].
  rewrite parse_encoded by (lia || apply encodable_safe; lia). rewrite Z.mul_1_r, Z.add_0_l.
  unfold after_size. rewrite Ha. cbn [mbind outcome_bind].
  destruct (parse_from b admit_size body (DState DOpcode t [])); simpl in Hloop; congruence.
Qed.

(** * Properties *)

(** C7: However its input is cut into pieces, the incremental applier returns an object
    only for a delta that [applyDelta] accepts, with the bytes that [applyDelta] gives;
    when it throws it has released its target, and either way every object that was
    live before still holds what it held. *)
Theorem delta_applier_agrees {Src} `{ByteSourceLaws Src} (base : Src) limits w0 b pieces a0 :
  wf w0 → source_content base (abs w0) = Some b → Forall byte_ok (mjoin pieces) →
  new_DeltaApplier limits = Ok a0 →
  match run_applier base limits pieces (a0, w0) with
  | (Ok o, (_, w)) => wf w ∧ abs w0 !! o = None ∧
      ∃ bs, applyDelta b (mjoin pieces) = Ok bs ∧ abs w = <[o := Some bs]> (abs w0)
  | (Throw _, (a, w)) => wf w ∧ target a = None ∧ ∀ o, live (abs w) o = live (abs w0) o
  end.
Proof.
  intros Hw Hb Hin Hnew. pose proof (run_applier_spec base limits w0 b Hw Hb a0 pieces Hnew Hin) as Hrun.
  destruct (_ <? _).
  - destruct Hrun as (e & [a w] & -> & Hw' & _ & Ht & _ & Hl). done.
  - destruct (parse_delta _ _ _) as [bs|e] eqn:Hp.
    + destruct Hrun as (o & [a w] & -> & Hw' & Hfresh & Ha & _). split; [done|]. split; [done|].
      exists bs. split; [|done]. eapply applyDelta_of_parse; [|done|exact Hp].
      intros n Hadm. pose proof (admit_target_nonneg _ _ _ _ _ Hadm). split; [done|].
      unfold admits, admit_target, throw_if in Hadm. destruct (MAX_DELTA_TARGET <? n) eqn:E; [done|]. by zbool.
    + destruct Hrun as ([a w] & -> & Hw' & _ & Ht & _ & Hl). done.
Qed.

Definition example_limits : DeltaLimits := deltaLimits None MAX_DELTA_WORKING_BYTES MAX_DELTA_INSTRUCTION_BYTES.
Definition example_pool : ChunkPool := chunkPool [] ∅ 0 131072.
Definition example_delta : list (list Z) := [[5]; [6; 145]; [1; 3; 2]; [9]; [8; 144; 1]].

Lemma delta_applier_agrees_witness :
  mjoin example_delta = [5; 6; 145; 1; 3; 2; 9; 8; 144; 1] ∧
  applyDelta [1; 2; 3; 4; 5] (mjoin example_delta) = Ok [2; 3; 4; 9; 8; 1] ∧
  match run_applier (flat [1; 2; 3; 4; 5]) example_limits example_delta
    (deltaApplier SourceSize 0 1 None 0 0 0 0 1 0 0 0 false false, new_world example_pool) with
  | (Ok o, (_, w)) => wf w ∧ abs (new_world example_pool) !! o = None ∧
      ∃ bs, applyDelta [1; 2; 3; 4; 5] (mjoin example_delta) = Ok bs ∧ abs w = <[o := Some bs]> (abs (new_world example_pool))
  | (Throw _, (a, w)) => wf w ∧ target a = None ∧ ∀ o, live (abs w) o = live (abs (new_world example_pool)) o
  end.
Proof.
  split; [reflexivity|]. split; [vm_compute; reflexivity|].
  apply (delta_applier_agrees (flat [1; 2; 3; 4; 5]) example_limits (new_world example_pool) [1; 2; 3; 4; 5] example_delta).
  - apply (new_world_wf 131072). reflexivity.
  - reflexivity.
  - repeat constructor; vm_compute; congruence.
  - reflexivity.
Defined.

(** C28: A delta with a header of [encodeDeltaHeader] that [applyDelta] accepts, the
    incremental applier accepts too, however it is cut, when the instructions fit their
    limit and the target size the working set and the pool: it returns a new object with
    the same bytes. *)
Theorem delta_applier_complete {Src} `{ByteSourceLaws Src} (base : Src) limits w0 b pieces a0 t body bs :
  wf w0 → source_content base (abs w0) = Some b → zlen b <= MAX_SAFE_INTEGER → Forall byte_ok body →
  new_DeltaApplier limits = Ok a0 → mjoin pieces = encodeDeltaHeader (zlen b) t ++ body → 0 <= t →
  zlen (mjoin pieces) <= maxInstructionBytes limits →
  admit_target limits (zlen b) (maxAllocatedBytes (pool w0)) (store_chunks (abs w0)) t = Ok tt →
  applyDelta b (mjoin pieces) = Ok bs →
  ∃ o a w, run_applier base limits pieces (a0, w0) = (Ok o, (a, w)) ∧ wf w ∧ abs w0 !! o = None ∧
    abs w = <[o := Some bs]> (abs w0).
Proof.
  intros Hw Hb Hsafe Hbody Hnew Hp Ht Hlim Hadm Happ.
  assert (t <= MAX_DELTA_TARGET) as Hmax.
  { unfold admit_target, throw_if in Hadm. destruct (MAX_DELTA_TARGET <? t) eqn:E; [done|]. by zbool. }
  assert (Forall byte_ok (mjoin pieces)) as Hin.
  { rewrite Hp. apply Forall_app. split; [|done]. pose proof (zlen_nonneg b).
    apply Forall_app. split; apply encode_size_bytes; lia. }
  pose proof (run_applier_spec base limits w0 b Hw Hb a0 pieces Hnew Hin) as Hrun.
  rewrite (proj2 (Z.ltb_ge _ _)) in Hrun by done. rewrite Hp in Happ.
  assert (parse_delta b (admits limits w0 b) (mjoin pieces) = Ok bs) as Hparse.
  { rewrite Hp. by apply parse_of_applyDelta. }
  rewrite Hparse in Hrun.
  destruct Hrun as (o & [a w] & Hr & Hw' & Hfresh & Ha & _). by exists o, a, w.
Qed.

Lemma delta_applier_complete_witness :
  ∃ o a w, run_applier (flat [1; 2; 3; 4; 5]) example_limits example_delta
    (deltaApplier SourceSize 0 1 None 0 0 0 0 1 0 0 0 false false, new_world example_pool) = (Ok o, (a, w)) ∧
    wf w ∧ abs (new_world example_pool) !! o = None ∧
    abs w = <[o := Some [2; 3; 4; 9; 8; 1]]> (abs (new_world example_pool)).
Proof.
  apply (delta_applier_complete (flat [1; 2; 3; 4; 5]) example_limits (new_world example_pool) [1; 2; 3; 4; 5] example_delta
    _ 6 [145; 1; 3; 2; 9; 8; 144; 1]).
  - apply (new_world_wf 131072). reflexivity.
  - reflexivity.
  - vm_compute. congruence.
  - repeat constructor; vm_compute; congruence.
  - reflexivity.
  - reflexivity.
  - lia.
  - vm_compute. congruence.
  - vm_compute. reflexivity.
  - vm_compute. reflexivity.
Defined.

(** C27: [applyDelta] does what the instructions of a delta mean: applied to the header
    and the encoded instructions, copies within the base and literals, it gives their
    parts in order. *)
Theorem applyDelta_instructions b instrs :
  Forall (valid_instruction b) instrs → zlen b <= MAX_SAFE_INTEGER → zlen (meanings b instrs) <= MAX_DELTA_TARGET →
  applyDelta b (encodeDeltaHeader (zlen b) (zlen (meanings b instrs)) ++ encode_instructions instrs) =
    Ok (meanings b instrs).
Proof.
  intros Hv Hb Hm. pose proof (zlen_nonneg (meanings b instrs)) as Hz. set (t := zlen (meanings b instrs)) in *.
  set (delta := encodeDeltaHeader _ _ ++ _).
  destruct (apply_delta_header b delta t (encode_instructions instrs) eq_refl Hb ltac:(lia)) as (pos & Hpos & Happly).
  assert (length (encode_instructions instrs) <= length delta)%nat as Hlen by (unfold delta; rewrite length_app; lia).
  assert (zlen (replicate (Z.to_nat t) 0) = t) as Hr by (apply zlen_replicate; lia).
  destruct (apply_loop_run b delta (length delta) instrs pos [] (replicate (Z.to_nat t) 0) Hv Hpos Hlen Hr) as (pos' & Hrun).
  cbn [app] in Hrun. change (zlen []) with 0 in Hrun. rewrite Hr, Z.add_0_l in Hrun.
  unfold applyDelta. rewrite Happly, (bind_ok _ _ _ _ _ Hrun). unfold check_written. fold t.
  by rewrite bool_decide_eq_true_2 by done.
Qed.

Lemma applyDelta_instructions_witness :
  applyDelta [1; 2; 3; 4; 5] [5; 6; 145; 1; 3; 2; 9; 8; 144; 1] = Ok [2; 3; 4; 9; 8; 1].
Proof.
  apply (applyDelta_instructions [1; 2; 3; 4; 5] [ICopy 1 3; ILiteral [9; 8]; ICopy 0 1]).
  - repeat constructor; vm_compute; congruence.
  - vm_compute. congruence.
  - vm_compute. congruence.
Defined.

(** Every reader of deltas reads back the two sizes that [encodeDeltaHeader] wrote:
    the probe for any cut of the input, and [validateDeltaWorkingSet], which gives the
    target size when the working set fits its budget. *)
Theorem delta_header_read s t rest pieces :
  0 <= s <= MAX_SAFE_INTEGER → 0 <= t <= MAX_SAFE_INTEGER → mjoin pieces = encodeDeltaHeader s t ++ rest →
  (∃ p, probe_updates pieces new_DeltaHeaderProbe = (Ok tt, p) ∧ probe_finish p = Ok (s, t)) ∧
  (∀ base, zlen base = s → zlen base + zlen (mjoin pieces) + t <= MAX_PACK_DELTA_WORKING_BYTES →
     validateDeltaWorkingSet base (mjoin pieces) t = Ok t).
Proof.
  intros Hs Ht Hp. rewrite Hp. split.
  - exists (probe 0 0 2 (Some s) (Some t)). split; [|done].
    rewrite probe_updates_join, Hp. unfold probe_update, encodeDeltaHeader. cbn [probe_complete new_DeltaHeaderProbe].
    change (probe_loop ((encode_size 8 s ++ encode_size 8 t) ++ rest) (probe 0 0 0 None None) =
      (Ok tt, probe 0 0 2 (Some s) (Some t))).
    rewrite <- app_assoc, probe_encoded by (lia || apply encodable_safe; lia). cbn [Z.eqb]. cbv zeta.
    rewrite Z.mul_1_r, Z.add_0_l. change (probe_complete _) with false at 1. cbv iota.
    rewrite probe_encoded by (lia || apply encodable_safe; lia). cbv zeta.
    by rewrite Z.mul_1_r, Z.add_0_l.
  - intros base Hbase Hbudget. unfold validateDeltaWorkingSet, validate_working_set, checked_varint.
    set (delta := encodeDeltaHeader s t ++ rest) in *.
    assert (before delta 0 (encode_size 8 s ++ encode_size 8 t ++ rest)) as Hpos.
    { unfold delta, encodeDeltaHeader. rewrite <- app_assoc. apply before_0. }
    destruct (checked_varint_encoded delta 8 s _ 0 0 0 9 Hpos) as (p1 & H1 & P1); [apply encodable_safe; lia|lia|lia|lia|].
    destruct (checked_varint_encoded delta 8 t _ p1 0 0 9 P1) as (p2 & H2 & P2); [apply encodable_safe; lia|lia|lia|lia|].
    change (2 ^ 0) with 1 in H1, H2. rewrite Z.mul_1_r, Z.add_0_l in H1, H2.
    rewrite (bind_ok _ _ _ _ _ H1), (bind_ok _ _ _ _ _ H2), Hbase, !Z.eqb_refl. cbn [negb throw_if]. rewrite !bind_lift.
    rewrite Hbase in Hbudget. pose proof (zlen_nonneg delta).
    rewrite safe_int by (unfold MAX_PACK_DELTA_WORKING_BYTES, MAX_SAFE_INTEGER in *; lia).
    by rewrite (proj2 (Z.ltb_ge _ _)) by lia.
Qed.

Lemma delta_header_read_witness :
  (∃ p, probe_updates [[172]; [2; 240; 162]; [4; 7]] new_DeltaHeaderProbe = (Ok tt, p) ∧ probe_finish p = Ok (300, 70000)) ∧
  (∀ base, zlen base = 300 → zlen base + 6 + 70000 <= MAX_PACK_DELTA_WORKING_BYTES →
     validateDeltaWorkingSet base [172; 2; 240; 162; 4; 7] 70000 = Ok 70000).
Proof. apply (delta_header_read 300 70000 [7] [[172]; [2; 240; 162]; [4; 7]]); [split; vm_compute; congruence..|reflexivity]. Defined.

(** A crafted target size with more than 146 groups is not a number: [applyDelta] then
    throws a [RangeError] of the typed array instead of a [CorruptError]. *)
Theorem applyDelta_nan_range_error :
  applyDelta [] ([0] ++ replicate 147 128 ++ [0] ++ [1; 65]) = Throw (RangeError (js "offset is out of bounds")).
Proof. vm_compute. reflexivity. Qed.
