(* ===== verification/Streams.v ===== *)
(** Sorted path streams: src/packages/git/src/common/streams.ts.

    [comparePaths] is the order every path-sorted stream of the program uses.  A
    position in a string is represented by the suffix that starts there, so
    [left.charCodeAt(leftIndex)] is the head of the suffix.  [peekable] is the
    one-item lookahead over an iterator as an explicit state; [joinSorted] and
    [joinSorted3] are the generators as loops that collect what they yield. *)

From S2P Require Import Prelude Utf8.

(** * Path order *)

(** [pointAt(text, index)] on the suffix at [index].  A unit read out of range is
    [NaN], and [NaN & 0xfc00] is 0. *)
Definition pointAt (text : list Z) : Z :=
  match text with
  | [] => 0
  | unit :: rest =>
      if negb (Z.land unit 0xf800 =? 0xd800) then unit
      else if Z.land unit 0xfc00 =? 0xd800 then
        let low := default 0 (head rest) in
        if Z.land low 0xfc00 =? 0xdc00
        then 0x10000 + Z.shiftl (unit - 0xd800) 10 + (low - 0xdc00)
        else REPLACEMENT
      else REPLACEMENT
  end.

(** The suffix [width] units further, [width] 1 or 2 as the code point is. *)
Definition advance (rest : list Z) (width : Z) : list Z :=
  match rest with
  | [] => rest
  | _ :: rest' => if width =? 2 then rest' else rest
  end.

Fixpoint comparePaths (left right : list Z) : Z :=
  match left, right with
  | leftUnit :: left', rightUnit :: right' =>
      if (leftUnit =? rightUnit) && negb (Z.land leftUnit 0xf800 =? 0xd800)
      then comparePaths left' right'
      else
        let leftPoint := pointAt left in
        let rightPoint := pointAt right in
        if negb (leftPoint =? rightPoint) then (if leftPoint <? rightPoint then -1 else 1)
        else
          let width := if 0x10000 <=? leftPoint then 2 else 1 in
          comparePaths (advance left' width) (advance right' width)
  | _ :: _, [] => 1
  | [], _ :: _ => -1
  | [], [] => 0
  end.

(** * Lookahead *)

(** The closure state of [peekable(source)]; [source] is what the iterator has
    not produced yet. *)
Record peekable (T : Type) := Peekable {
  source : list T;
  ahead : option T;
  buffered : bool;
  drained : bool;
  closed : bool;
}.
Arguments Peekable {T}.
Arguments source {T}.
Arguments ahead {T}.
Arguments buffered {T}.
Arguments drained {T}.
Arguments closed {T}.

Section peekable.
  Context {T : Type}.
  Implicit Types p : peekable T.

Definition make_peekable (items : list T) : peekable T := Peekable items None false false false.

Definition fill p : peekable T :=
  if buffered p || drained p then p
  else
    match source p with
    | [] => Peekable [] (ahead p) (buffered p) true (closed p)
    | x :: rest => Peekable rest (Some x) true (drained p) (closed p)
    end.

Definition peek p : option T * peekable T :=
  let p := fill p in ((if buffered p then ahead p else None), p).

Definition next p : option T * peekable T :=
  let p := fill p in
  if negb (buffered p) then (None, p)
  else (ahead p, Peekable (source p) None false (drained p) (closed p)).

Definition close p : peekable T :=
  if closed p then p else Peekable (source p) None false true true.

(** What the lookahead still holds: the buffered item and the iterator's rest. *)
Definition pending p : list T :=
  (if buffered p then option_list (ahead p) else []) ++ (if drained p then [] else source p).

(** [buffered] says exactly when [ahead] holds an item. *)
Definition peekable_wf p : Prop := buffered p = true ↔ is_Some (ahead p).

End peekable.

(** * Joins *)

Record JoinedRow (L R : Type) := Row { path : list Z; left : option L; right : option R }.
Arguments Row {L R}.
Arguments path {L R}.
Arguments left {L R}.
Arguments right {L R}.

Section joinSorted.
  Context {L R : Type} (keyL : L → list Z) (keyR : R → list Z).

(** One pass of the loop of [joinSorted]: the yielded row, or [None] to return. *)
Definition joinSorted_step (leftSide : peekable L) (rightSide : peekable R)
  : option (JoinedRow L R) * peekable L * peekable R :=
  let '(leftHead, leftSide) := peek leftSide in
  let '(rightHead, rightSide) := peek rightSide in
  match leftHead with
  | None =>
      match rightHead with
      | None => (None, leftSide, rightSide)
      | Some r => (Some (Row (keyR r) None (Some r)), leftSide, snd (next rightSide))
      end
  | Some l =>
      let leftKey := keyL l in
      match rightHead with
      | None => (Some (Row leftKey (Some l) None), snd (next leftSide), rightSide)
      | Some r =>
          let rightKey := keyR r in
          let order := comparePaths leftKey rightKey in
          (Some (Row (if order <=? 0 then leftKey else rightKey)
                     (if order <=? 0 then Some l else None)
                     (if 0 <=? order then Some r else None)),
           if order <=? 0 then snd (next leftSide) else leftSide,
           if 0 <=? order then snd (next rightSide) else rightSide)
      end
  end.

Fixpoint joinSorted_loop (fuel : nat) (leftSide : peekable L) (rightSide : peekable R)
  : option (list (JoinedRow L R) * peekable L * peekable R) :=
  match fuel with
  | O => None
  | S fuel =>
      match joinSorted_step leftSide rightSide with
      | (None, leftSide, rightSide) => Some ([], close leftSide, close rightSide)
      | (Some row, leftSide, rightSide) =>
          match joinSorted_loop fuel leftSide rightSide with
          | Some (rows, leftSide, rightSide) => Some (row :: rows, leftSide, rightSide)
          | None => None
          end
      end
  end.

(** The rows [joinSorted] yields when it is run to its end. *)
Definition joinSorted (ls : list L) (rs : list R)
  : option (list (JoinedRow L R) * peekable L * peekable R) :=
  joinSorted_loop (S (length ls + length rs)) (make_peekable ls) (make_peekable rs).

(** The reference: a merge of two lists. *)
Fixpoint join_lists (ls : list L) : list R → list (JoinedRow L R) :=
  fix go rs :=
    match ls, rs with
    | [], [] => []
    | [], r :: rs' => Row (keyR r) None (Some r) :: go rs'
    | l :: ls', [] => Row (keyL l) (Some l) None :: join_lists ls' []
    | l :: ls', r :: rs' =>
        let order := comparePaths (keyL l) (keyR r) in
        if order <? 0 then Row (keyL l) (Some l) None :: join_lists ls' rs
        else if 0 <? order then Row (keyR r) None (Some r) :: go rs'
        else Row (keyL l) (Some l) (Some r) :: join_lists ls' rs'
    end.

End joinSorted.

(** ** Three streams *)

Record JoinedRow3 (A B C : Type) :=
  Row3 { path3 : list Z; row_a : option A; row_b : option B; row_c : option C }.
Arguments Row3 {A B C}.
Arguments path3 {A B C}.
Arguments row_a {A B C}.
Arguments row_b {A B C}.
Arguments row_c {A B C}.

(** [key !== undefined && comparePaths(key, path) < 0 ? key : path]. *)
Definition lower_path (key : option (list Z)) (path : list Z) : list Z :=
  match key with
  | Some k => if comparePaths k path <? 0 then k else path
  | None => path
  end.

(** The path of the next row, [keyA ?? keyB ?? keyC ?? ""] lowered by the others. *)
Definition row_path (keyA keyB keyC : option (list Z)) : list Z :=
  let path := default (default (default [] keyC) keyB) keyA in
  let path := lower_path keyB path in
  lower_path keyC path.

(** [key === path], and the head and the side such a take leaves. *)
Definition takes (key : option (list Z)) (path : list Z) : bool := bool_decide (key = Some path).
Definition shown {T} (take : bool) (head : option T) : option T := if take then head else None.
Definition taken {T} (take : bool) (side : peekable T) : peekable T :=
  if take then snd (next side) else side.

Section joinSorted3.
  Context {A B C : Type} (keyA_of : A → list Z) (keyB_of : B → list Z) (keyC_of : C → list Z).

(** One pass of the loop of [joinSorted3]. *)
Definition joinSorted3_step (sideA : peekable A) (sideB : peekable B) (sideC : peekable C)
  : option (JoinedRow3 A B C) * peekable A * peekable B * peekable C :=
  let '(headA, sideA) := peek sideA in
  let '(headB, sideB) := peek sideB in
  let '(headC, sideC) := peek sideC in
  match headA, headB, headC with
  | None, None, None => (None, sideA, sideB, sideC)
  | _, _, _ =>
      let keyA := keyA_of <$> headA in
      let keyB := keyB_of <$> headB in
      let keyC := keyC_of <$> headC in
      let path := row_path keyA keyB keyC in
      let takeA := takes keyA path in
      let takeB := takes keyB path in
      let takeC := takes keyC path in
      (Some (Row3 path (shown takeA headA) (shown takeB headB) (shown takeC headC)),
       taken takeA sideA, taken takeB sideB, taken takeC sideC)
  end.

Fixpoint joinSorted3_loop (fuel : nat) (sideA : peekable A) (sideB : peekable B)
    (sideC : peekable C)
  : option (list (JoinedRow3 A B C) * peekable A * peekable B * peekable C) :=
  match fuel with
  | O => None
  | S fuel =>
      match joinSorted3_step sideA sideB sideC with
      | (None, sideA, sideB, sideC) => Some ([], close sideA, close sideB, close sideC)
      | (Some row, sideA, sideB, sideC) =>
          match joinSorted3_loop fuel sideA sideB sideC with
          | Some (rows, sideA, sideB, sideC) => Some (row :: rows, sideA, sideB, sideC)
          | None => None
          end
      end
  end.

(** The rows [joinSorted3] yields when it is run to its end. *)
Definition joinSorted3 (a : list A) (b : list B) (c : list C)
  : option (list (JoinedRow3 A B C) * peekable A * peekable B * peekable C) :=
  joinSorted3_loop (S (length a + length b + length c))
    (make_peekable a) (make_peekable b) (make_peekable c).

End joinSorted3.

(** * Facts *)

Lemma land_hi u k n : 0 <= u → 0 <= k → 0 <= n →
  Z.land u (Z.shiftl (Z.ones k) n) = (u / 2 ^ n) mod 2 ^ k * 2 ^ n.
Proof.
  intros Hu Hk Hn. rewrite <- Z.shiftl_mul_pow2 by done.
  rewrite <- Z.land_ones, <- Z.shiftr_div_pow2 by done.
  apply Z.bits_inj_iff'. intros i Hi. rewrite Z.land_spec, !Z.shiftl_spec by done.
  destruct (decide (i < n)).
  - by rewrite !(Z.testbit_neg_r _ (i - n)), andb_false_r by lia.
  - rewrite Z.land_spec, Z.shiftr_spec by lia. by replace (i - n + n) with i by lia.
Qed.

(** The masks of [pointAt] test the surrogate ranges. *)
Lemma surrogate_mask u : unit_ok u → (Z.land u 0xf800 =? 0xd800) = is_surrogate u.
Proof.
  intros [H1 H2]. change 0xf800 with (Z.shiftl (Z.ones 5) 11). rewrite land_hi by lia.
  unfold is_surrogate. apply eq_bool_prop_intro. rewrite !Is_true_true, andb_true_iff, Z.eqb_eq, !Z.leb_le.
  simpl (2 ^ _). split; zdm.
Qed.

Lemma high_mask u : unit_ok u → (Z.land u 0xfc00 =? 0xd800) = is_high u.
Proof.
  intros [H1 H2]. change 0xfc00 with (Z.shiftl (Z.ones 6) 10). rewrite land_hi by lia.
  unfold is_high. apply eq_bool_prop_intro. rewrite !Is_true_true, andb_true_iff, Z.eqb_eq, !Z.leb_le.
  simpl (2 ^ _). split; zdm.
Qed.

Lemma low_mask u : unit_ok u → (Z.land u 0xfc00 =? 0xdc00) = is_low u.
Proof.
  intros [H1 H2]. change 0xfc00 with (Z.shiftl (Z.ones 6) 10). rewrite land_hi by lia.
  unfold is_low. apply eq_bool_prop_intro. rewrite !Is_true_true, andb_true_iff, Z.eqb_eq, !Z.leb_le.
  simpl (2 ^ _). split; zdm.
Qed.

(** [pointAt] reads the first code point, which spans one or two units. *)
Lemma points_step u rest :
  Forall unit_ok (u :: rest) →
  points (u :: rest) =
  pointAt (u :: rest) ::
  points (advance rest (if 0x10000 <=? pointAt (u :: rest) then 2 else 1)).
Proof.
  intros Hu. inversion_clear Hu as [|? ? Hu' Hrest].
  unfold pointAt. rewrite surrogate_mask, high_mask by done.
  assert (∀ l, advance l 1 = l) as Hone by (by intros []).
  cbn [points]. destruct (is_surrogate u) eqn:Hs.
  - destruct (is_high u) eqn:Hh; cbn [negb].
    + destruct rest as [|low rest']; [done|]. inversion_clear Hrest.
      change (default 0 (head (low :: rest'))) with low. rewrite low_mask by done. destruct (is_low low) eqn:Hl;
        [|by change (if 0x10000 <=? REPLACEMENT then 2 else 1) with 1; rewrite Hone].
      rewrite Z.shiftl_mul_pow2 by lia. change (2 ^ 10) with 1024. fold (pair_point u low).
      rewrite (proj2 (Z.leb_le _ _)); [done|].
      unfold pair_point, is_high, is_low in *. zbool. lia.
    + change (if 0x10000 <=? REPLACEMENT then 2 else 1) with 1. rewrite Hone. unfold is_surrogate, is_high, is_low in *. zbool. by zdec.
  - cbn [negb]. unfold unit_ok in *. rewrite (proj2 (Z.leb_gt 0x10000 u)) by lia. rewrite Hone.
    unfold is_surrogate, is_high, is_low in *. zbool. destruct Hs; zbool; by zdec.
Qed.

Lemma advance_units rest w : Forall unit_ok rest → Forall unit_ok (advance rest w).
Proof. intros [|? ? ? ?]; simpl; [done|]. case_match; [done|by constructor]. Qed.

Lemma advance_length rest w : (length (advance rest w) <= length rest)%nat.
Proof. destruct rest; simpl; [done|]. case_match; simpl; lia. Qed.

(** [comparePaths] compares code points. *)
Lemma comparePaths_points l r :
  Forall unit_ok l → Forall unit_ok r → comparePaths l r = lex_compare (points l) (points r).
Proof.
  remember (length l) as n eqn:Hn. revert l r Hn.
  induction n as [n IH] using (well_founded_induction Nat.lt_wf_0). intros l r -> Hl Hr.
  destruct l as [|u l]; destruct r as [|v r]; [done| | |].
  - rewrite (points_step v r) by done. done.
  - rewrite (points_step u l) by done. done.
  - rewrite (points_step u l), (points_step v r) by done. cbn [comparePaths lex_compare].
    inversion_clear Hl as [|? ? Hu Hl']; inversion_clear Hr as [|? ? Hv Hr'].
    rewrite surrogate_mask by done.
    destruct ((u =? v) && negb (is_surrogate u)) eqn:Hskip.
    + apply andb_prop in Hskip as [Heq Hs]. zbool. subst v.
      assert (∀ t, pointAt (u :: t) = u) as Hpt.
      { intros t. unfold pointAt. by rewrite surrogate_mask, Hs by done. }
      rewrite !Hpt, Z.ltb_irrefl. unfold unit_ok in *.
      rewrite (proj2 (Z.leb_gt 0x10000 u)) by lia.
      rewrite (IH (length l) ltac:(simpl; lia) l r eq_refl) by done.
      by destruct l, r.
    + destruct (pointAt (u :: l) =? pointAt (v :: r)) eqn:Hpt; cbn [negb]; zbool.
      * rewrite <- Hpt, Z.ltb_irrefl.
        eapply IH; [|reflexivity|auto using advance_units..].
        pose proof (advance_length l (if 0x10000 <=? pointAt (u :: l) then 2 else 1)). cbn [length]. lia.
      * destruct (pointAt (u :: l) <? pointAt (v :: r)) eqn:?; [done|].
        destruct (pointAt (v :: r) <? pointAt (u :: l)) eqn:?; [done|]. zbool. lia.
Qed.

(** Hence it compares UTF-8 encodings byte by byte. *)
Lemma comparePaths_encode l r :
  Forall unit_ok l → Forall unit_ok r → comparePaths l r = lex_compare (encode l) (encode r).
Proof.
  intros Hl Hr. rewrite comparePaths_points by done. unfold encode.
  by rewrite encode_points_order by by apply points_scalar.
Qed.

(** ** Lookahead *)

Section peekable_facts.
  Context {T : Type}.
  Implicit Types p : peekable T.

Lemma make_peekable_pending (items : list T) : pending (make_peekable items) = items.
Proof. done. Qed.

Lemma make_peekable_wf (items : list T) : peekable_wf (make_peekable items).
Proof. unfold peekable_wf. simpl. split; [done|intros [? ?]; done]. Qed.

Lemma fill_pending p : peekable_wf p → pending (fill p) = pending p.
Proof.
  destruct p as [src a b d c]. unfold peekable_wf, fill, pending. simpl. intros Hwf.
  destruct b, d; simpl; [done..|]. destruct src; done.
Qed.

Lemma fill_wf p : peekable_wf p → peekable_wf (fill p).
Proof.
  destruct p as [src a b d c]. unfold peekable_wf, fill. simpl. intros Hwf.
  destruct b, d; simpl; [done..|]. destruct src; simpl; [done|]. split; eauto.
Qed.

(** [peek] shows the first pending item and consumes nothing. *)
Lemma peek_spec p :
  peekable_wf p →
  ∃ p', peek p = (head (pending p), p') ∧ pending p' = pending p ∧ peekable_wf p' ∧
        closed p' = closed p.
Proof.
  intros Hwf. exists (fill p). split_and!; auto using fill_pending, fill_wf.
  - unfold peek. f_equal. rewrite <- fill_pending by done. apply fill_wf in Hwf.
    unfold peekable_wf in Hwf. unfold pending.
    destruct (fill p) as [src a b d c] eqn:E. simpl in *. destruct b; simpl.
    + destruct (proj1 Hwf eq_refl) as [x ->]. done.
    + unfold fill in E. destruct p as [src' a' b' d' c']. simpl in E.
      destruct b', d'; simpl in E; simplify_eq; try done. destruct src'; simplify_eq. done.
  - unfold fill. repeat case_match; done.
Qed.

(** [next] consumes the first pending item. *)
Lemma next_spec p :
  peekable_wf p →
  ∃ p', next p = (head (pending p), p') ∧ pending p' = tail (pending p) ∧ peekable_wf p' ∧
        closed p' = closed p.
Proof.
  intros Hwf. pose proof (fill_pending p Hwf) as Hp. pose proof (fill_wf p Hwf) as Hwf'.
  assert (closed (fill p) = closed p) as Hc by (unfold fill; repeat case_match; done).
  assert (buffered (fill p) = false → drained (fill p) = true) as Hd.
  { unfold fill. destruct p as [? ? b d ?]; simpl. destruct b, d; simpl; try done.
    case_match; simpl; done. }
  unfold next. rewrite <- Hp, <- Hc. destruct (fill p) as [src a b d c]. unfold peekable_wf, pending in *.
  simpl in *. destruct b; simpl.
  - destruct (proj1 Hwf' eq_refl) as [x ->]. eexists. split_and!; [done|done| |done].
    simpl. split; [done|intros [? ?]; done].
  - rewrite Hd by done. eexists. split_and!; done.
Qed.

End peekable_facts.

(** ** Joins *)

Section joinSorted_facts.
  Context {L R : Type} (keyL : L → list Z) (keyR : R → list Z).

(** One pass of the loop is one step of the list merge. *)
Lemma joinSorted_step_spec pl pr :
  peekable_wf pl → peekable_wf pr →
  ∃ o pl' pr', joinSorted_step keyL keyR pl pr = (o, pl', pr') ∧
    peekable_wf pl' ∧ peekable_wf pr' ∧
    match o with
    | None => pending pl = [] ∧ pending pr = []
    | Some row =>
        join_lists keyL keyR (pending pl) (pending pr) =
          row :: join_lists keyL keyR (pending pl') (pending pr') ∧
        (length (pending pl') + length (pending pr') < length (pending pl) + length (pending pr))%nat
    end.
Proof.
  intros Hl Hr. unfold joinSorted_step.
  destruct (peek_spec pl Hl) as (pl1 & -> & Hpl1 & Hwl1 & _).
  destruct (peek_spec pr Hr) as (pr1 & -> & Hpr1 & Hwr1 & _).
  destruct (next_spec pl1 Hwl1) as (pl2 & Hnl & Hpl2 & Hwl2 & _).
  destruct (next_spec pr1 Hwr1) as (pr2 & Hnr & Hpr2 & Hwr2 & _).
  rewrite Hpl1 in Hpl2, Hnl. rewrite Hpr1 in Hpr2, Hnr.
  destruct (pending pl) as [|l ls] eqn:El; destruct (pending pr) as [|r rs] eqn:Er; simpl in *;
    rewrite ?Hnl, ?Hnr.
  - do 3 eexists; split_and!; [eauto..|done].
  - do 3 eexists. split_and!; [done..|split]; simpl; rewrite ?Hpl1, ?Hpr2; [done|simpl; lia].
  - do 3 eexists. split_and!; [done..|split]; simpl; rewrite ?Hpl2, ?Hpr1; [done|simpl; lia].
  - destruct (Z.lt_trichotomy (comparePaths (keyL l) (keyR r)) 0) as [Ho|[Ho|Ho]].
    + zdec. do 3 eexists. split_and!; [done..|split]; simpl; rewrite ?Hpl2, ?Hpr1; [done|simpl; lia].
    + rewrite Ho. simpl. do 3 eexists. split_and!; [done..|split]; simpl; rewrite ?Hpl2, ?Hpr2; [done|simpl; lia].
    + zdec. do 3 eexists. split_and!; [done..|split]; simpl; rewrite ?Hpl1, ?Hpr2; [done|simpl; lia].
Qed.

Lemma joinSorted_loop_spec n pl pr :
  peekable_wf pl → peekable_wf pr →
  (length (pending pl) + length (pending pr) < n)%nat →
  ∃ pl' pr', joinSorted_loop keyL keyR n pl pr =
    Some (join_lists keyL keyR (pending pl) (pending pr), pl', pr') ∧
    closed pl' = true ∧ closed pr' = true.
Proof.
  revert pl pr. induction n as [|n IH]; intros pl pr Hl Hr Hn; [lia|]. cbn [joinSorted_loop].
  destruct (joinSorted_step_spec pl pr Hl Hr) as (o & pl1 & pr1 & -> & Hl1 & Hr1 & Ho).
  destruct o as [row|].
  - destruct Ho as [-> Hlt]. destruct (IH pl1 pr1 Hl1 Hr1) as (pl2 & pr2 & -> & Hc); [lia|]. eauto.
  - destruct Ho as [-> ->]. do 2 eexists. split; [done|]. unfold close. split; by case_match.
Qed.

Lemma joinSorted_lists ls rs :
  ∃ pl pr, joinSorted keyL keyR ls rs = Some (join_lists keyL keyR ls rs, pl, pr) ∧
           closed pl = true ∧ closed pr = true.
Proof.
  apply (joinSorted_loop_spec _ (make_peekable ls) (make_peekable rs)); try apply make_peekable_wf.
  rewrite !make_peekable_pending. lia.
Qed.

End joinSorted_facts.

(** ** The order *)

Definition units (s : list Z) : Prop := Forall unit_ok s.

(** [s] sorts strictly before [t]. *)
Definition path_lt (s t : list Z) : Prop := comparePaths s t < 0.

Lemma comparePaths_opp s t : units s → units t → comparePaths t s = - comparePaths s t.
Proof. intros. rewrite !comparePaths_points by done. apply lex_compare_opp. Qed.

Lemma comparePaths_refl s : units s → comparePaths s s = 0.
Proof. intros. rewrite comparePaths_points by done. apply lex_compare_refl. Qed.

Lemma comparePaths_eq_l s t u : units s → units t → units u →
  comparePaths s t = 0 → comparePaths s u = comparePaths t u.
Proof. intros ???. rewrite !comparePaths_points by done. by intros ->%lex_compare_eq. Qed.

Lemma path_lt_trans s t u : units s → units t → units u → path_lt s t → path_lt t u → path_lt s u.
Proof. intros ???. unfold path_lt. rewrite !comparePaths_points by done. apply lex_compare_trans. Qed.

(** On well-formed strings the order is antisymmetric up to equality. *)
Lemma comparePaths_eq s t :
  units s → units t → isWellFormed s = true → isWellFormed t = true → comparePaths s t = 0 ↔ s = t.
Proof.
  intros Hs Ht Hws Hwt. rewrite comparePaths_points, lex_compare_eq by done. split; [|by intros ->].
  intros Heq. rewrite <- (point_units_points s), <- (point_units_points t) by done. by rewrite Heq.
Qed.

Section ascending.
  Context {A : Type} (key : A → list Z).

(** A stream is ascending when each key sorts before every later one. *)
Definition ascending (l : list A) : Prop :=
  Forall (λ x, units (key x)) l ∧ StronglySorted (λ x y, path_lt (key x) (key y)) l.

(** [k] sorts before every key of [l]. *)
Definition before (k : list Z) (l : list A) : Prop := Forall (λ x, path_lt k (key x)) l.

Lemma ascending_cons x l : ascending (x :: l) ↔ units (key x) ∧ before (key x) l ∧ ascending l.
Proof.
  unfold ascending, before. split.
  - intros [[??]%Forall_cons Hs]. inversion Hs. done.
  - intros (?&?&?&?). by repeat constructor.
Qed.

Lemma before_trans k k' l : units k → units k' → ascending l → path_lt k k' → before k' l → before k l.
Proof.
  intros ? ? [Hu _] ? Hb. apply Forall_forall. intros x Hx.
  rewrite Forall_forall in Hu. unfold before in Hb. rewrite Forall_forall in Hb.
  apply (path_lt_trans k k'); auto.
Qed.

Lemma before_eq k k' l :
  units k → units k' → ascending l → comparePaths k k' = 0 → before k' l → before k l.
Proof.
  intros ? ? [Hu _] ? Hb. apply Forall_forall. intros x Hx.
  rewrite Forall_forall in Hu. unfold before in Hb. rewrite Forall_forall in Hb.
  unfold path_lt. rewrite (comparePaths_eq_l k k') by auto. by apply Hb.
Qed.

(** Keys of an ascending list identify its items. *)
Lemma sorted_same l x y :
  StronglySorted (λ x y, path_lt (key x) (key y)) l → x ∈ l → y ∈ l →
  units (key x) → units (key y) → comparePaths (key x) (key y) = 0 → x = y.
Proof.
  intros Hs Hx Hy Hux Huy Heq.
  assert (¬ path_lt (key x) (key y)) by (unfold path_lt; lia).
  assert (¬ path_lt (key y) (key x)) by (unfold path_lt; rewrite comparePaths_opp by done; lia).
  induction Hs as [|z l Hs IH Hall]; [by apply elem_of_nil in Hx|]. rewrite Forall_forall in Hall.
  apply elem_of_cons in Hx as [->|Hx]; apply elem_of_cons in Hy as [->|Hy]; auto.
  - destruct (H (Hall _ Hy)).
  - destruct (H0 (Hall _ Hx)).
Qed.

End ascending.

(** Rows that ascend, show items of their own path, and together hold all of
    [items]: the row of an item's path shows it. *)
Lemma sorted_shows {Rw X} (pathOf : Rw → list Z) (item : Rw → option X) (key : X → list Z)
    rows items row x :
  StronglySorted (λ x y, path_lt (pathOf x) (pathOf y)) rows →
  Forall (λ row, units (pathOf row)) rows →
  Forall (λ row, ∀ x, item row = Some x → comparePaths (key x) (pathOf row) = 0) rows →
  omap item rows = items → units (key x) →
  row ∈ rows → x ∈ items → comparePaths (key x) (pathOf row) = 0 → item row = Some x.
Proof.
  intros Hs Hu Hk Hi Hx Hrow Hin Heq. rewrite Forall_forall in Hu. rewrite Forall_forall in Hk.
  rewrite <- Hi in Hin. apply list_elem_of_omap in Hin as (row' & Hrow' & Hitem).
  rewrite (sorted_same pathOf rows row row'); auto.
  rewrite <- (comparePaths_eq_l (key x)) by auto. auto.
Qed.

Section join_sorted_facts.
  Context {L R : Type} (keyL : L → list Z) (keyR : R → list Z).
  Notation join := (join_lists keyL keyR).

Lemma join_nil_cons r rs : join [] (r :: rs) = Row (keyR r) None (Some r) :: join [] rs.
Proof. done. Qed.
Lemma join_cons_nil l ls : join (l :: ls) [] = Row (keyL l) (Some l) None :: join ls [].
Proof. done. Qed.
Lemma join_cons_cons l ls r rs :
  join (l :: ls) (r :: rs) =
  (let order := comparePaths (keyL l) (keyR r) in
   if order <? 0 then Row (keyL l) (Some l) None :: join ls (r :: rs)
   else if 0 <? order then Row (keyR r) None (Some r) :: join (l :: ls) rs
   else Row (keyL l) (Some l) (Some r) :: join ls rs).
Proof. done. Qed.

(** Induction along the merge: one case per yielded row. *)
Lemma join_ind (P : list L → list R → list (JoinedRow L R) → Prop) :
  P [] [] [] →
  (∀ r rs rows, P [] rs rows → P [] (r :: rs) (Row (keyR r) None (Some r) :: rows)) →
  (∀ l ls rows, P ls [] rows → P (l :: ls) [] (Row (keyL l) (Some l) None :: rows)) →
  (∀ l ls r rs rows, comparePaths (keyL l) (keyR r) < 0 → P ls (r :: rs) rows →
     P (l :: ls) (r :: rs) (Row (keyL l) (Some l) None :: rows)) →
  (∀ l ls r rs rows, 0 < comparePaths (keyL l) (keyR r) → P (l :: ls) rs rows →
     P (l :: ls) (r :: rs) (Row (keyR r) None (Some r) :: rows)) →
  (∀ l ls r rs rows, comparePaths (keyL l) (keyR r) = 0 → P ls rs rows →
     P (l :: ls) (r :: rs) (Row (keyL l) (Some l) (Some r) :: rows)) →
  ∀ ls rs, P ls rs (join ls rs).
Proof.
  intros Hnn Hnc Hcn Hlt Hgt Heq ls.
  induction ls as [|l ls IHl]; intros rs; induction rs as [|r rs IHr];
    [done|by apply Hnc|by apply Hcn|].
  rewrite join_cons_cons. simpl.
  destruct (comparePaths _ _ <? 0) eqn:?; zbool; [by apply Hlt|].
  destruct (0 <? comparePaths _ _) eqn:?; zbool; [by apply Hgt|]. apply Heq; [lia|auto].
Qed.

(** Nothing is lost, duplicated or reordered on either side. *)
Lemma join_lists_conserve ls rs : omap left (join ls rs) = ls ∧ omap right (join ls rs) = rs.
Proof. apply join_ind; simpl; try done; intros; by destruct_and!; simplify_eq. Qed.

(** The rows of ascending streams ascend. *)
Lemma join_lists_sorted ls rs :
  ascending keyL ls → ascending keyR rs → StronglySorted (λ x y, path_lt (path x) (path y)) (join ls rs).
Proof.
  enough ((∀ k, before keyL k ls → before keyR k rs → before path k (join ls rs)) ∧
          (ascending keyL ls → ascending keyR rs →
             StronglySorted (λ x y, path_lt (path x) (path y)) (join ls rs))) as [_ H] by exact H.
  apply (join_ind (λ ls rs rows, (∀ k, before keyL k ls → before keyR k rs → before path k rows) ∧
    (ascending keyL ls → ascending keyR rs → StronglySorted (λ x y, path_lt (path x) (path y)) rows)));
    clear ls rs.
  - split; intros; constructor.
  - intros r rs rows [Hk Hs]. split; [intros k ? [??]%Forall_cons; constructor; [done|by apply Hk]|].
    intros Hl (?&?&?)%ascending_cons. constructor; [auto|]. apply Hk; [constructor|done].
  - intros l ls rows [Hk Hs]. split; [intros k [??]%Forall_cons ?; constructor; [done|by apply Hk]|].
    intros (?&?&?)%ascending_cons Hr. constructor; [auto|]. apply Hk; [done|constructor].
  - intros l ls r rs rows Hlt [Hk Hs]. split; [intros k [??]%Forall_cons ?; constructor; [done|by apply Hk]|].
    intros (?&?&?)%ascending_cons Hr. constructor; [auto|]. apply Hk; [done|].
    apply ascending_cons in Hr as (?&?&?). cbn [path]. constructor; [done|].
    by apply (before_trans _ _ (keyR r)).
  - intros l ls r rs rows Hlt [Hk Hs]. split; [intros k ? [??]%Forall_cons; constructor; [done|by apply Hk]|].
    intros Hl (?&?&?)%ascending_cons. constructor; [auto|]. apply Hk; [|done].
    apply ascending_cons in Hl as (?&?&?).
    assert (path_lt (keyR r) (keyL l)) by (unfold path_lt; rewrite comparePaths_opp by done; lia).
    cbn [path]. constructor; [done|].
    by apply (before_trans _ _ (keyL l)).
  - intros l ls r rs rows Heq [Hk Hs]. split; [intros k [??]%Forall_cons [??]%Forall_cons; constructor; [done|by apply Hk]|].
    intros (?&?&?)%ascending_cons (?&?&?)%ascending_cons. constructor; [auto|].
    cbn [path]. apply Hk; [done|]. by apply (before_eq _ _ (keyR r)).
Qed.

(** A row's path is the key of what it shows. *)
Definition row_keys (row : JoinedRow L R) : Prop :=
  (∀ l, left row = Some l → comparePaths (keyL l) (path row) = 0) ∧
  (∀ r, right row = Some r → comparePaths (keyR r) (path row) = 0).

Lemma join_lists_keys ls rs :
  Forall (λ l, units (keyL l)) ls → Forall (λ r, units (keyR r)) rs → Forall row_keys (join ls rs).
Proof.
  apply (join_ind (λ ls rs rows, Forall (λ l, units (keyL l)) ls → Forall (λ r, units (keyR r)) rs →
           Forall row_keys rows)); clear ls rs; [intros; apply Forall_nil; exact I|..]; intros; decompose_Forall_hyps;
    (constructor; [|by auto using Forall_cons_2]); split; simpl; intros; simplify_eq;
    first [by apply comparePaths_refl | rewrite comparePaths_opp by done; lia].
Qed.

(** What a row of a join of ascending streams says: it shows the item of its path
    on each side that has one. *)
Definition row_shows (ls : list L) (rs : list R) (row : JoinedRow L R) : Prop :=
  (∀ l, l ∈ ls → comparePaths (keyL l) (path row) = 0 → left row = Some l) ∧
  (∀ r, r ∈ rs → comparePaths (keyR r) (path row) = 0 → right row = Some r).

Lemma join_lists_units ls rs :
  Forall (λ l, units (keyL l)) ls → Forall (λ r, units (keyR r)) rs →
  Forall (λ row, units (path row)) (join ls rs).
Proof.
  apply (join_ind (λ ls rs rows, Forall (λ l, units (keyL l)) ls → Forall (λ r, units (keyR r)) rs →
           Forall (λ row, units (path row)) rows)); clear ls rs; [intros; apply Forall_nil; exact I|..]; intros; decompose_Forall_hyps;
    constructor; by auto using Forall_cons_2.
Qed.

Lemma join_lists_shows ls rs :
  ascending keyL ls → ascending keyR rs → Forall (row_shows ls rs) (join ls rs).
Proof.
  intros Hl Hr. pose proof (join_lists_sorted ls rs Hl Hr) as Hs.
  destruct Hl as [Hul Hl], Hr as [Hur Hr].
  pose proof (join_lists_keys ls rs Hul Hur) as Hkeys. apply Forall_and in Hkeys as [HkL HkR].
  pose proof (join_lists_conserve ls rs) as [HcL HcR].
  pose proof (join_lists_units ls rs Hul Hur) as Hpu.
  rewrite Forall_forall in Hul. rewrite Forall_forall in Hur.
  apply Forall_forall. intros row Hrow. split; intros x Hx ?.
  - apply (sorted_shows path left keyL (join ls rs) ls); auto.
  - apply (sorted_shows path right keyR (join ls rs) rs); auto.
Qed.

End join_sorted_facts.

(** ** Three streams *)

Lemma path_le_trans s t u : units s → units t → units u →
  comparePaths s t <= 0 → comparePaths t u <= 0 → comparePaths s u <= 0.
Proof.
  intros Hs Ht Hu H1 H2.
  destruct (decide (comparePaths s t = 0)) as [E|]; [by rewrite (comparePaths_eq_l s t) by done|].
  destruct (decide (comparePaths t u = 0)) as [E|].
  - rewrite comparePaths_opp, <- (comparePaths_eq_l t u), comparePaths_opp by done. lia.
  - apply Z.lt_le_incl. apply (path_lt_trans s t u); unfold path_lt; lia || done.
Qed.

(** A key that strings of scalar values can be: no unpaired surrogate. *)
Definition wf_key (k : list Z) : Prop := units k ∧ isWellFormed k = true.
Definition wf_keyo (k : option (list Z)) : Prop := ∀ x, k = Some x → wf_key x.

(** [row_path] is a smallest of the keys present. *)
Lemma lower_path_cases key path :
  lower_path key path = path ∨ key = Some (lower_path key path).
Proof. unfold lower_path. destruct key as [k|]; [|auto]. case_match; auto. Qed.

Lemma lower_path_le key path :
  units path → (∀ k, key = Some k → units k) → comparePaths (lower_path key path) path <= 0 ∧
  ∀ k, key = Some k → comparePaths (lower_path key path) k <= 0.
Proof.
  intros Hp Hk. unfold lower_path. destruct key as [k|]; [|by rewrite comparePaths_refl].
  specialize (Hk k eq_refl). destruct (comparePaths k path <? 0) eqn:E; zbool.
  - split; [lia|]. intros ? [= <-]. by rewrite comparePaths_refl.
  - split; [by rewrite comparePaths_refl|]. intros ? [= <-]. rewrite comparePaths_opp by done. lia.
Qed.

Lemma row_path_in ka kb kc :
  is_Some ka ∨ is_Some kb ∨ is_Some kc →
  ka = Some (row_path ka kb kc) ∨ kb = Some (row_path ka kb kc) ∨ kc = Some (row_path ka kb kc).
Proof.
  intros Hsome. unfold row_path. set (p := default _ ka).
  destruct (lower_path_cases kc (lower_path kb p)) as [->|?]; [|auto].
  destruct (lower_path_cases kb p) as [->|?]; [|auto]. subst p.
  destruct ka, kb, kc; simpl; auto. by destruct Hsome as [[? [=]]|[[? [=]]|[? [=]]]].
Qed.

Lemma row_path_le ka kb kc :
  wf_keyo ka → wf_keyo kb → wf_keyo kc →
  ∀ k, ka = Some k ∨ kb = Some k ∨ kc = Some k → comparePaths (row_path ka kb kc) k <= 0.
Proof.
  intros Ha Hb Hc k Hk. unfold row_path. set (p := default _ ka).
  assert (units p) as Hp.
  { subst p. destruct ka; [by destruct (Ha _ eq_refl)|]. destruct kb; [by destruct (Hb _ eq_refl)|].
    destruct kc; [by destruct (Hc _ eq_refl)|]. by apply Forall_nil. }
  assert (∀ k, kb = Some k → units k) as Hub by (intros ? ?; by destruct (Hb _ H)).
  assert (∀ k, kc = Some k → units k) as Huc by (intros ? ?; by destruct (Hc _ H)).
  destruct (lower_path_le kb p Hp Hub) as [Hle Hleb]. set (q := lower_path kb p) in *.
  assert (units q) as Hq by (subst q; destruct (lower_path_cases kb p) as [->|?]; auto).
  destruct (lower_path_le kc q Hq Huc) as [Hle' Hlec]. set (o := lower_path kc q) in *.
  assert (units o) as Ho by (subst o; destruct (lower_path_cases kc q) as [->|?]; auto).
  destruct Hk as [-> | [-> | ->]].
  - apply (path_le_trans o q); auto.
  - apply (path_le_trans o q); auto.
  - auto.
Qed.

Section join3_facts.
  Context {A B C : Type} (keyA_of : A → list Z) (keyB_of : B → list Z) (keyC_of : C → list Z).

(** What one pass leaves of a side whose pending items are [l]. *)
Definition left_over {T} (key : T → list Z) (path : list Z) (l : list T) : list T :=
  if takes (key <$> head l) path then tail l else l.
Definition next_path (a : list A) (b : list B) (c : list C) : list Z :=
  row_path (keyA_of <$> head a) (keyB_of <$> head b) (keyC_of <$> head c).
Definition pick {T} (key : T → list Z) (path : list Z) (l : list T) : option T :=
  shown (takes (key <$> head l) path) (head l).

(** The three-way merge of lists, as a relation. *)
Inductive merged3 : list A → list B → list C → list (JoinedRow3 A B C) → Prop :=
| merged3_done : merged3 [] [] [] []
| merged3_row a b c rows p :
    p = next_path a b c →
    (length a + length b + length c ≠ 0)%nat →
    merged3 (left_over keyA_of p a) (left_over keyB_of p b) (left_over keyC_of p c) rows →
    merged3 a b c (Row3 p (pick keyA_of p a) (pick keyB_of p b) (pick keyC_of p c) :: rows).

Lemma left_over_length {T} (key : T → list Z) p l :
  (length (left_over key p l) <= length l)%nat ∧
  (key <$> head l = Some p → length (left_over key p l) < length l)%nat.
Proof.
  unfold left_over, takes. destruct l as [|x l]; simpl; [done|].
  case_bool_decide; simpl; split; intros; try lia. done.
Qed.

Lemma next_path_progress a b c :
  (length a + length b + length c ≠ 0)%nat →
  let p := next_path a b c in
  (length (left_over keyA_of p a) + length (left_over keyB_of p b) + length (left_over keyC_of p c)
    < length a + length b + length c)%nat.
Proof.
  intros Hne p.
  destruct (left_over_length keyA_of p a) as [? Ha]. destruct (left_over_length keyB_of p b) as [? Hb].
  destruct (left_over_length keyC_of p c) as [? Hc].
  destruct (row_path_in (keyA_of <$> head a) (keyB_of <$> head b) (keyC_of <$> head c)) as [E|[E|E]].
  - destruct a, b, c; simpl in *; eauto. lia.
  - specialize (Ha E). lia.
  - specialize (Hb E). lia.
  - specialize (Hc E). lia.
Qed.

Lemma taken_spec {T} (key : T → list Z) p side l :
  peekable_wf side → pending side = l →
  peekable_wf (taken (takes (key <$> head l) p) side) ∧
  pending (taken (takes (key <$> head l) p) side) = left_over key p l.
Proof.
  intros Hwf Hl. unfold taken, left_over. destruct (next_spec side Hwf) as (side' & -> & Hp & Hwf' & _).
  case_match; simpl; [|done]. by rewrite Hp, Hl.
Qed.

Lemma joinSorted3_step_spec pa pb pc :
  peekable_wf pa → peekable_wf pb → peekable_wf pc →
  let a := pending pa in let b := pending pb in let c := pending pc in
  let p := next_path a b c in
  ∃ o pa' pb' pc', joinSorted3_step keyA_of keyB_of keyC_of pa pb pc = (o, pa', pb', pc') ∧
    (o = None ∧ a = [] ∧ b = [] ∧ c = [] ∨
     o = Some (Row3 p (pick keyA_of p a) (pick keyB_of p b) (pick keyC_of p c)) ∧
     (length a + length b + length c ≠ 0)%nat ∧
     peekable_wf pa' ∧ peekable_wf pb' ∧ peekable_wf pc' ∧
     pending pa' = left_over keyA_of p a ∧ pending pb' = left_over keyB_of p b ∧
     pending pc' = left_over keyC_of p c).
Proof.
  intros Ha Hb Hc a b c p. unfold joinSorted3_step.
  destruct (peek_spec pa Ha) as (qa & -> & Hqa & Hwa & _).
  destruct (peek_spec pb Hb) as (qb & -> & Hqb & Hwb & _).
  destruct (peek_spec pc Hc) as (qc & -> & Hqc & Hwc & _).
  fold a in Hqa |- *. fold b in Hqb |- *. fold c in Hqc |- *.
  destruct (taken_spec keyA_of p qa a Hwa Hqa). destruct (taken_spec keyB_of p qb b Hwb Hqb).
  destruct (taken_spec keyC_of p qc c Hwc Hqc).
  subst p. unfold next_path, pick in *.
  destruct a, b, c; simpl in *; do 4 eexists; split; try reflexivity; (by left) || right;
    split_and!; done || lia.
Qed.

Lemma joinSorted3_loop_spec n pa pb pc :
  peekable_wf pa → peekable_wf pb → peekable_wf pc →
  (length (pending pa) + length (pending pb) + length (pending pc) < n)%nat →
  ∃ rows pa' pb' pc', joinSorted3_loop keyA_of keyB_of keyC_of n pa pb pc = Some (rows, pa', pb', pc') ∧
    merged3 (pending pa) (pending pb) (pending pc) rows ∧
    closed pa' = true ∧ closed pb' = true ∧ closed pc' = true.
Proof.
  revert pa pb pc. induction n as [|n IH]; intros pa pb pc Ha Hb Hc Hn; [lia|].
  cbn [joinSorted3_loop].
  destruct (joinSorted3_step_spec pa pb pc Ha Hb Hc) as (o & qa & qb & qc & -> & [Hdone|Hrow]).
  - destruct Hdone as (-> & -> & -> & ->). do 4 eexists. split; [done|].
    split_and!; [constructor|unfold close; by case_match..].
  - destruct Hrow as (-> & Hne & Hwa & Hwb & Hwc & Ea & Eb & Ec).
    pose proof (next_path_progress _ _ _ Hne) as Hlt. simpl in Hlt.
    destruct (IH qa qb qc Hwa Hwb Hwc) as (rows & pa' & pb' & pc' & -> & Hm & Hcl).
    { rewrite Ea, Eb, Ec. lia. }
    do 4 eexists. split; [done|]. split; [|done]. rewrite Ea, Eb, Ec in Hm. by constructor.
Qed.

Lemma joinSorted3_merged a b c :
  ∃ rows pa pb pc, joinSorted3 keyA_of keyB_of keyC_of a b c = Some (rows, pa, pb, pc) ∧
    merged3 a b c rows ∧ closed pa = true ∧ closed pb = true ∧ closed pc = true.
Proof.
  apply (joinSorted3_loop_spec _ (make_peekable a) (make_peekable b) (make_peekable c));
    try apply make_peekable_wf. rewrite !make_peekable_pending. lia.
Qed.

Lemma pick_left_over {T} (key : T → list Z) p l :
  option_list (pick key p l) ++ left_over key p l = l.
Proof. unfold pick, left_over, shown. destruct l; simpl; repeat case_match; done. Qed.

Lemma pick_key {T} (key : T → list Z) p l x : pick key p l = Some x → key x = p.
Proof.
  unfold pick, takes, shown. destruct l; simpl; [done|]. case_bool_decide; intros; by simplify_eq.
Qed.

Lemma merged3_conserve a b c rows :
  merged3 a b c rows → omap row_a rows = a ∧ omap row_b rows = b ∧ omap row_c rows = c.
Proof.
  induction 1 as [|a b c rows p -> _ _ (IHa & IHb & IHc)]; [done|].
  rewrite !omap_app_cons, IHa, IHb, IHc. simpl. by rewrite !pick_left_over.
Qed.

(** A row shows items of its path. *)
Definition row3_keys (row : JoinedRow3 A B C) : Prop :=
  (∀ x, row_a row = Some x → keyA_of x = path3 row) ∧
  (∀ x, row_b row = Some x → keyB_of x = path3 row) ∧
  (∀ x, row_c row = Some x → keyC_of x = path3 row).

Lemma merged3_keys a b c rows : merged3 a b c rows → Forall row3_keys rows.
Proof.
  induction 1 as [|a b c rows p -> _ _ IH]; constructor; [|done].
  split_and!; simpl; intros; by eapply pick_key.
Qed.

(** Ascending, with keys that [===] and [comparePaths] identify alike. *)
Definition wf_ascending {T} (key : T → list Z) (l : list T) : Prop :=
  Forall (λ x, wf_key (key x)) l ∧ StronglySorted (λ x y, path_lt (key x) (key y)) l.

Lemma left_over_after {T} (key : T → list Z) p l :
  wf_ascending key l → wf_key p → (∀ x, head l = Some x → comparePaths p (key x) <= 0) →
  before key p (left_over key p l) ∧ wf_ascending key (left_over key p l).
Proof.
  intros [Hwf Hs] [Hp Hpw] Hle. unfold left_over, takes.
  destruct l as [|x l]; [by repeat constructor|]. simpl.
  inversion_clear Hwf as [|? ? [Hx Hxw] Hl]. inversion_clear Hs as [|? ? Hsl Hxl].
  assert (ascending key l) as Hasc.
  { split; [|done]. apply (Forall_impl _ _ _ Hl). by intros ? []. }
  case_bool_decide as E; simplify_eq/=; [done|].
  assert (path_lt p (key x)).
  { specialize (Hle x eq_refl). unfold path_lt. enough (comparePaths p (key x) ≠ 0) by lia.
    rewrite comparePaths_eq by done. congruence. }
  split; [|by split; constructor]. constructor; [done|]. by apply (before_trans _ _ (key x)).
Qed.

Lemma merged3_before k a b c rows :
  merged3 a b c rows → before keyA_of k a → before keyB_of k b → before keyC_of k c →
  before path3 k rows.
Proof.
  assert (∀ {T} (key : T → list Z) p l, before key k l → before key k (left_over key p l)) as Hlo.
  { intros T key p l Hl. unfold left_over. case_match; [|done]. destruct l; [done|]. by inversion Hl. }
  assert (∀ {T} (key : T → list Z) l p, before key k l → key <$> head l = Some p → path_lt k p) as Hhd.
  { intros T key [|x l] p Hl ?; simplify_eq/=. by inversion Hl. }
  induction 1 as [|a b c rows p -> Hne _ IH]; intros Ha Hb Hc; constructor; [|apply IH; by apply Hlo].
  simpl. unfold next_path.
  destruct (row_path_in (keyA_of <$> head a) (keyB_of <$> head b) (keyC_of <$> head c)) as [E|[E|E]].
  - destruct a, b, c; simpl in *; eauto. lia.
  - exact (Hhd _ _ _ _ Ha E).
  - exact (Hhd _ _ _ _ Hb E).
  - exact (Hhd _ _ _ _ Hc E).
Qed.

Lemma merged3_wf_path a b c :
  (length a + length b + length c ≠ 0)%nat →
  Forall (λ x, wf_key (keyA_of x)) a → Forall (λ x, wf_key (keyB_of x)) b →
  Forall (λ x, wf_key (keyC_of x)) c → wf_key (next_path a b c) ∧
  (∀ x, head a = Some x → comparePaths (next_path a b c) (keyA_of x) <= 0) ∧
  (∀ x, head b = Some x → comparePaths (next_path a b c) (keyB_of x) <= 0) ∧
  (∀ x, head c = Some x → comparePaths (next_path a b c) (keyC_of x) <= 0).
Proof.
  intros Hne Ha Hb Hc.
  assert (∀ {T} (key : T → list Z) l, Forall (λ x, wf_key (key x)) l → wf_keyo (key <$> head l)) as Ho.
  { intros T key l Hl k. destruct Hl; simpl; intros; by simplify_eq. }
  unfold next_path. split.
  - destruct (row_path_in (keyA_of <$> head a) (keyB_of <$> head b) (keyC_of <$> head c)) as [E|[E|E]].
    + destruct a, b, c; simpl in *; eauto. lia.
    + by apply (Ho _ _ _ Ha).
    + by apply (Ho _ _ _ Hb).
    + by apply (Ho _ _ _ Hc).
  - split_and!; intros x Hx; apply row_path_le; auto; rewrite Hx; simpl; auto.
Qed.

Lemma merged3_sorted a b c rows :
  merged3 a b c rows → wf_ascending keyA_of a → wf_ascending keyB_of b → wf_ascending keyC_of c →
  StronglySorted (λ x y, path_lt (path3 x) (path3 y)) rows ∧ Forall (λ row, units (path3 row)) rows.
Proof.
  induction 1 as [|a b c rows p Hp Hne Hm IH]; intros Ha Hb Hc; [by split; constructor|].
  destruct (merged3_wf_path a b c Hne (proj1 Ha) (proj1 Hb) (proj1 Hc)) as (Hwf & HleA & HleB & HleC).
  rewrite <- Hp in *.
  destruct (left_over_after keyA_of p a Ha Hwf HleA). destruct (left_over_after keyB_of p b Hb Hwf HleB).
  destruct (left_over_after keyC_of p c Hc Hwf HleC).
  destruct IH as [Hs Hu]; [done..|]. split; constructor; try done.
  - by apply (merged3_before p) in Hm.
  - by destruct Hwf.
Qed.

(** Every path is one row, and the row shows every side that has it. *)
Definition row3_shows (a : list A) (b : list B) (c : list C) (row : JoinedRow3 A B C) : Prop :=
  (∀ x, x ∈ a → keyA_of x = path3 row → row_a row = Some x) ∧
  (∀ x, x ∈ b → keyB_of x = path3 row → row_b row = Some x) ∧
  (∀ x, x ∈ c → keyC_of x = path3 row → row_c row = Some x).

Lemma merged3_shows a b c rows :
  merged3 a b c rows → wf_ascending keyA_of a → wf_ascending keyB_of b → wf_ascending keyC_of c →
  Forall (row3_shows a b c) rows.
Proof.
  intros Hm Ha Hb Hc. destruct (merged3_sorted _ _ _ _ Hm Ha Hb Hc) as [Hs Hu].
  destruct (merged3_conserve _ _ _ _ Hm) as (Ea & Eb & Ec).
  pose proof (merged3_keys _ _ _ _ Hm) as Hk. unfold row3_keys in Hk.
  rewrite !Forall_and in Hk. destruct Hk as (Ka & Kb & Kc).
  assert (∀ {T} (key : T → list Z) item l x row, wf_ascending key l → omap item rows = l →
    Forall (λ row, ∀ x, item row = Some x → key x = path3 row) rows → row ∈ rows → x ∈ l →
    key x = path3 row → item row = Some x) as Hone.
  { intros T key item l x row [Hwf _] Hitem Hkeys Hrow Hx E.
    rewrite Forall_forall in Hwf. pose proof (Hwf x Hx) as [Hxu _].
    rewrite Forall_forall in Hkeys.
    apply (sorted_shows path3 item key rows l); auto.
    - apply Forall_forall. intros row' Hrow' y Hy. rewrite (Hkeys row') by done.
      apply comparePaths_refl. rewrite Forall_forall in Hu. auto.
    - rewrite E. apply comparePaths_refl. by rewrite <- E. }
  apply Forall_forall. intros row Hrow. split_and!; intros x Hx E.
  - by apply (Hone _ keyA_of row_a a).
  - by apply (Hone _ keyB_of row_b b).
  - by apply (Hone _ keyC_of row_c c).
Qed.

End join3_facts.

(** ** Deciding the hypotheses on concrete keys *)

Definition units_b (s : list Z) : bool := forallb (λ u, (0 <=? u) && (u <? 65536)) s.

Fixpoint sorted_b {A} (key : A → list Z) (l : list A) : bool :=
  match l with
  | [] => true
  | x :: l => forallb (λ y, comparePaths (key x) (key y) <? 0) l && sorted_b key l
  end.

Lemma units_by_compute s : units_b s = true → units s.
Proof.
  induction s as [|u s IH]; simpl; intros H; [constructor|]. apply andb_prop in H as [Hu Hs].
  constructor; [unfold unit_ok; zbool; lia|by apply IH].
Qed.

Lemma sorted_by_compute {A} (key : A → list Z) l :
  sorted_b key l = true → StronglySorted (λ x y, path_lt (key x) (key y)) l.
Proof.
  induction l as [|x l IH]; simpl; intros H; [constructor|]. apply andb_prop in H as [Hx Hl].
  constructor; [auto|]. apply Forall_forall. intros y Hy. unfold path_lt.
  rewrite forallb_forall in Hx. apply list_elem_of_In in Hy. specialize (Hx y Hy). by zbool.
Qed.

Lemma ascending_by_compute {A} (key : A → list Z) l :
  forallb (λ x, units_b (key x)) l && sorted_b key l = true → ascending key l.
Proof.
  intros [Hu Hs]%andb_prop. split; [|by apply sorted_by_compute].
  rewrite forallb_forall in Hu. apply Forall_forall. intros x Hx. apply units_by_compute, Hu.
  by apply list_elem_of_In.
Qed.

Lemma wf_key_by_compute k : units_b k && isWellFormed k = true → wf_key k.
Proof. intros [Hu Hw]%andb_prop. split; [by apply units_by_compute|done]. Qed.

Lemma wf_ascending_by_compute {A} (key : A → list Z) l :
  forallb (λ x, units_b (key x) && isWellFormed (key x)) l && sorted_b key l = true → wf_ascending key l.
Proof.
  intros [Hu Hs]%andb_prop. split; [|by apply sorted_by_compute].
  rewrite forallb_forall in Hu. apply Forall_forall. intros x Hx. apply wf_key_by_compute, Hu.
  by apply list_elem_of_In.
Qed.

(** * Properties *)

(** C10: [comparePaths] is exactly the byte order of the UTF-8 encodings that
    [TextEncoder] writes, unpaired surrogates included: the order SQLite gives TEXT
    and git gives tree entries, although the code never encodes. *)
Theorem comparePaths_utf8 l r :
  units l → units r → comparePaths l r = lex_compare (encode l) (encode r).
Proof. apply comparePaths_encode. Qed.

Lemma comparePaths_utf8_witness :
  comparePaths [0xd83d; 0xde00] [0xe000] = lex_compare (encode [0xd83d; 0xde00]) (encode [0xe000]) ∧
  comparePaths [0xd83d; 0xde00] [0xe000] = 1.
Proof.
  split; [apply comparePaths_utf8; by apply units_by_compute|].
  vm_compute. reflexivity.
Defined.

(** Two ascending streams are joined to the end, both are closed, no item of
    either side is lost, repeated or reordered, the rows strictly ascend, each row's
    path is the key of what it shows, and a row shows both items of a path both sides
    have. *)
Theorem joinSorted_correct {L R} (keyL : L → list Z) (keyR : R → list Z) ls rs :
  ascending keyL ls → ascending keyR rs →
  ∃ rows pl pr, joinSorted keyL keyR ls rs = Some (rows, pl, pr) ∧
    closed pl = true ∧ closed pr = true ∧
    omap left rows = ls ∧ omap right rows = rs ∧
    StronglySorted (λ x y, path_lt (path x) (path y)) rows ∧
    Forall (row_keys keyL keyR) rows ∧ Forall (row_shows keyL keyR ls rs) rows.
Proof.
  intros Hl Hr. destruct (joinSorted_lists keyL keyR ls rs) as (pl & pr & -> & Hcl & Hcr).
  destruct (join_lists_conserve keyL keyR ls rs). do 3 eexists. split; [done|].
  split_and!; try done; [by apply join_lists_sorted| |by apply join_lists_shows].
  destruct Hl, Hr. by apply join_lists_keys.
Qed.

Lemma joinSorted_correct_witness :
  ∃ rows pl pr, joinSorted id id [[97]; [98; 47]] [[98]; [98; 47]] = Some (rows, pl, pr) ∧
    omap left rows = [[97]; [98; 47]] ∧
    path <$> rows = [[97]; [98]; [98; 47]].
Proof.
  destruct (joinSorted_correct id id [[97]; [98; 47]] [[98]; [98; 47]])
    as (rows & pl & pr & E & _ & _ & HL & _); [by apply ascending_by_compute..|].
  exists rows, pl, pr. split_and!; [done|done|]. vm_compute in E. by simplify_eq.
Defined.

(** C15: The three-way join of ascending streams: it ends with all three closed,
    conserves each side, its rows strictly ascend, and the row of a path shows
    exactly the items of that path, on every side that has one. *)
Theorem joinSorted3_correct {A B C} (keyA : A → list Z) (keyB : B → list Z) (keyC : C → list Z) a b c :
  wf_ascending keyA a → wf_ascending keyB b → wf_ascending keyC c →
  ∃ rows pa pb pc, joinSorted3 keyA keyB keyC a b c = Some (rows, pa, pb, pc) ∧
    closed pa = true ∧ closed pb = true ∧ closed pc = true ∧
    omap row_a rows = a ∧ omap row_b rows = b ∧ omap row_c rows = c ∧
    StronglySorted (λ x y, path_lt (path3 x) (path3 y)) rows ∧
    Forall (row3_keys keyA keyB keyC) rows ∧ Forall (row3_shows keyA keyB keyC a b c) rows.
Proof.
  intros Ha Hb Hc. destruct (joinSorted3_merged keyA keyB keyC a b c) as (rows & pa & pb & pc & E & Hm & ?&?&?).
  destruct (merged3_conserve _ _ _ _ _ _ _ Hm) as (?&?&?).
  destruct (merged3_sorted _ _ _ _ _ _ _ Hm Ha Hb Hc).
  exists rows, pa, pb, pc. split_and!; eauto using merged3_keys, merged3_shows.
Qed.

Lemma joinSorted3_correct_witness :
  ∃ rows pa pb pc, joinSorted3 id id id [[97]] [[98]] [[97]; [98]] = Some (rows, pa, pb, pc) ∧
    omap row_c rows = [[97]; [98]] ∧ path3 <$> rows = [[97]; [98]].
Proof.
  destruct (joinSorted3_correct id id id [[97]] [[98]] [[97]; [98]])
    as (rows & pa & pb & pc & E & _ & _ & _ & _ & _ & Hc & _);
    [by apply wf_ascending_by_compute..|].
  exists rows, pa, pb, pc. split_and!; [done|done|]. vm_compute in E. by simplify_eq.
Defined.
