(* ===== verification/Paths.v ===== *)
(** Path helpers: src/packages/git/src/common/paths.ts.

    A path is a string; what the operations mean is said through the list of
    segments a path denotes, [segs_of]. *)

From S2P Require Import Prelude Utf8 Text Streams.

Definition SLASH : Z := 0x2f.
Definition DOT : list Z := js ".".
Definition DOTDOT : list Z := js "..".

(** * Normalization *)

(** [parts.pop()] on the array. *)
Definition pop {A} (parts : list A) : list A := take (length parts - 1) parts.

(** One pass of the loop over the segments. *)
Definition normalize_step (parts : list (list Z)) (segment : list Z) : list (list Z) :=
  if str_eqb segment [] || str_eqb segment DOT then parts
  else if str_eqb segment DOTDOT then pop parts
  else parts ++ [segment].

Definition normalizePath (path : list Z) : list Z :=
  let absolute := if startsWith path [SLASH] then path else SLASH :: path in
  let parts := foldl normalize_step [] (split SLASH absolute) in
  SLASH :: join SLASH parts.

Definition splitPath (path : list Z) : list (list Z) :=
  filter (λ segment, segment ≠ []) (split SLASH (normalizePath path)).

(** * Canonical paths *)

(** The segment that starts at the suffix [segmentStart] and is [length] long is
    empty, [.] or [..]. *)
Definition bad_segment (segmentStart : list Z) (length : Z) : bool :=
  (length =? 0) ||
  ((length =? 1) && bool_decide (segmentStart !! 0%nat = Some 0x2e)) ||
  ((length =? 2) && bool_decide (segmentStart !! 0%nat = Some 0x2e) &&
     bool_decide (segmentStart !! 1%nat = Some 0x2e)).

(** The loop of [isCanonicalPathSegments]: [segmentStart] is the suffix at
    [segmentStart], [rest] the suffix at [index], [length] their distance.  After a
    high surrogate at the very end the low unit is [NaN], both comparisons with it are
    false, and the loop ends past the end of the string. *)
Fixpoint isCanonicalPathSegments_loop (segmentStart : list Z) (length : Z) (rest : list Z) : bool :=
  match rest with
  | [] => negb (bad_segment segmentStart length)
  | unit :: rest' =>
      if unit =? 0x2f then
        if bad_segment segmentStart length then false
        else isCanonicalPathSegments_loop rest' 0 rest'
      else if unit =? 0 then false
      else if (0xd800 <=? unit) && (unit <=? 0xdbff) then
        match rest' with
        | [] => true
        | low :: rest'' =>
            if (low <? 0xdc00) || (0xdfff <? low) then false
            else isCanonicalPathSegments_loop segmentStart (length + 2) rest''
        end
      else if (0xdc00 <=? unit) && (unit <=? 0xdfff) then false
      else isCanonicalPathSegments_loop segmentStart (length + 1) rest'
  end.

Definition isCanonicalPathSegments (path : list Z) (firstSegment : Z) : bool :=
  let rest := slice_from path firstSegment in isCanonicalPathSegments_loop rest 0 rest.

Definition unit_is (u : option Z) (v : Z) : bool := bool_decide (u = Some v).

Definition isCanonicalAbsolutePath (path : list Z) : bool :=
  if (zlen path <? 2) || negb (unit_is (at_ path 0) 0x2f) || unit_is (at_ path (zlen path - 1)) 0x2f
  then false
  else isCanonicalPathSegments path 1.

Definition isCanonicalGitPath (path : list Z) : bool :=
  if str_eqb path [] || unit_is (at_ path 0) 0x2f || unit_is (at_ path (zlen path - 1)) 0x2f
  then false
  else isCanonicalPathSegments path 0.

(** * Joining and relating *)

(** [root.replace(/\/+$/, "")]. *)
Fixpoint strip_slashes (s : list Z) : list Z :=
  match s with
  | [] => []
  | u :: s => match strip_slashes s with
              | [] => if u =? SLASH then [] else [u]
              | s' => u :: s'
              end
  end.

Definition joinPath (root relative : list Z) : list Z :=
  if str_eqb relative [] || str_eqb relative DOT then normalizePath root
  else if isCanonicalGitPath relative && str_eqb root [SLASH] then SLASH :: relative
  else if isCanonicalGitPath relative && isCanonicalAbsolutePath root
       then root ++ SLASH :: relative
  else normalizePath (strip_slashes root ++ SLASH :: relative).

Definition subtreeSuccessor (path : list Z) : list Z :=
  let normalized := normalizePath path in
  if str_eqb normalized [SLASH] then js "0" else normalized ++ js "0".

Definition relativeTo (root path : list Z) : option (list Z) :=
  let base := normalizePath root in
  let target := normalizePath path in
  if str_eqb target base then Some []
  else
    let prefix := if str_eqb base [SLASH] then [SLASH] else base ++ [SLASH] in
    if negb (startsWith target prefix) then None else Some (slice_from target (zlen prefix)).

(** The loop that counts shared leading segments. *)
Fixpoint shared_count (from to : list (list Z)) : nat :=
  match from, to with
  | f :: from, t :: to => if str_eqb f t then S (shared_count from to) else O
  | _, _ => O
  end.

Definition relativePath (base target : list Z) : list Z :=
  let from := splitPath base in
  let to := splitPath target in
  let shared := shared_count from to in
  let parts := replicate (length from - shared) DOTDOT ++ drop shared to in
  match parts with [] => DOT | _ => join SLASH parts end.

Definition dirnameOf (path : list Z) : list Z :=
  let normalized := normalizePath path in
  let slash := lastIndexOf SLASH normalized in
  if slash <=? 0 then [SLASH] else slice normalized 0 slash.

Definition basenameOf (path : list Z) : list Z :=
  let normalized := normalizePath path in
  slice_from normalized (lastIndexOf SLASH normalized + 1).

Definition gitParentPath (path : list Z) : list Z :=
  let slash := lastIndexOf SLASH path in
  if slash <? 0 then [] else slice path 0 slash.

Definition gitBasename (path : list Z) : list Z :=
  slice_from path (lastIndexOf SLASH path + 1).

Definition gitPathDepth (path : list Z) : Z :=
  if str_eqb path [] then 0
  else foldl (λ depth unit, if unit =? 0x2f then depth + 1 else depth) 1 path.

(** The loop of [ancestorsOf]; [None] when the fuel runs out. *)
Fixpoint ancestorsOf_loop (fuel : nat) (ancestors : list (list Z)) (ancestor : list Z)
  : option (list (list Z)) :=
  match fuel with
  | O => None
  | S fuel =>
      if str_eqb ancestor [SLASH] then Some (ancestors ++ [[SLASH]])
      else ancestorsOf_loop fuel (ancestors ++ [ancestor]) (dirnameOf ancestor)
  end.

Definition ancestorsOf (path : list Z) : option (list (list Z)) :=
  ancestorsOf_loop (S (length path)) [] (dirnameOf path).

Definition isPathRoot (root path : list Z) : bool :=
  let normalizedRoot := normalizePath root in
  let normalizedPath := normalizePath path in
  if str_eqb normalizedRoot [SLASH] then startsWith normalizedPath [SLASH]
  else str_eqb normalizedPath normalizedRoot ||
       (startsWith normalizedPath normalizedRoot &&
        unit_is (at_ normalizedPath (zlen normalizedRoot)) 0x2f).

Definition relativeExcludeRoots (root : list Z) (paths : list (list Z)) : list (list Z) :=
  foldl (λ relatives path,
           match relativeTo root path with
           | None | Some [] => relatives
           | Some relative => relatives ++ [relative]
           end) [] paths.

Definition isExcluded (path : list Z) (roots : list (list Z)) : bool :=
  existsb (λ root, isPathRoot root path) roots.

Definition isNestedPath (root path : list Z) : bool :=
  let normalizedRoot := normalizePath root in
  let normalizedPath := normalizePath path in
  negb (str_eqb normalizedPath normalizedRoot) && isPathRoot normalizedRoot normalizedPath.

(** The binary search; [None] when the fuel runs out. *)
Fixpoint lowerBoundPath_loop (fuel : nat) (values : list (list Z)) (wanted : list Z) (low high : Z)
  : option Z :=
  match fuel with
  | O => None
  | S fuel =>
      if low <? high then
        let middle := low + (high - low) / 2 in
        match at_ values middle with
        | Some value =>
            if comparePaths value wanted <? 0
            then lowerBoundPath_loop fuel values wanted (middle + 1) high
            else lowerBoundPath_loop fuel values wanted low middle
        | None => lowerBoundPath_loop fuel values wanted low middle
        end
      else Some low
  end.

Definition lowerBoundPath (values : list (list Z)) (wanted : list Z) : option Z :=
  lowerBoundPath_loop (S (length values)) values wanted 0 (zlen values).

(** * Segments *)

(** A name: not empty, not [.] or [..]. *)
Definition nice (seg : list Z) : Prop := seg ≠ [] ∧ seg ≠ DOT ∧ seg ≠ DOTDOT.
Definition good (seg : list Z) : Prop := nice seg ∧ SLASH ∉ seg.

(** What the segments of a path reach from the directory [parts]. *)
Definition walk (parts : list (list Z)) (path : list Z) : list (list Z) :=
  foldl normalize_step parts (split SLASH path).
Definition segs_of (path : list Z) : list (list Z) := walk [] path.
Definition render (segs : list (list Z)) : list Z := SLASH :: join SLASH segs.

#[local] Hint Unfold good nice part_ok : core.

Lemma good_part seg : good seg → part_ok SLASH seg.
Proof. by intros []. Qed.

Lemma goods_parts segs : Forall good segs → Forall (part_ok SLASH) segs.
Proof. intros H. apply (Forall_impl _ _ _ H), good_part. Qed.

Lemma normalize_step_good parts seg : good seg → normalize_step parts seg = parts ++ [seg].
Proof.
  intros [(H1 & H2 & H3) _]. unfold normalize_step, str_eqb.
  by rewrite !bool_decide_eq_false_2 by done.
Qed.

Lemma normalize_steps_good parts segs :
  Forall good segs → foldl normalize_step parts segs = parts ++ segs.
Proof.
  intros Hg. revert parts. induction Hg as [|s segs Hs _ IH]; intros parts; simpl; [by rewrite app_nil_r|].
  rewrite normalize_step_good, IH by done. by rewrite <- app_assoc.
Qed.

Lemma Forall_pop {A} (P : A → Prop) l : Forall P l → Forall P (pop l).
Proof. apply Forall_take. Qed.

Lemma pop_snoc {A} (l : list A) x : pop (l ++ [x]) = l.
Proof.
  unfold pop. rewrite length_app. simpl. replace (length l + 1 - 1)%nat with (length l) by lia.
  apply take_app_length.
Qed.

Lemma walk_good parts path : Forall good parts → Forall good (walk parts path).
Proof.
  unfold walk. pose proof (split_parts_ok SLASH path) as Hp. revert parts.
  induction Hp as [|s segs Hs _ IH]; intros parts Hg; [done|]. simpl. apply IH.
  unfold normalize_step, str_eqb. case_bool_decide; [done|]. simpl. case_bool_decide; [done|].
  case_bool_decide; [by apply Forall_pop|].
  apply Forall_app. split; [done|]. by apply Forall_singleton.
Qed.

Lemma segs_good path : Forall good (segs_of path).
Proof. apply walk_good. constructor. Qed.

Lemma walk_slash parts path : walk parts (SLASH :: path) = walk parts path.
Proof. done. Qed.

Lemma walk_app parts a b : walk parts (a ++ SLASH :: b) = walk (walk parts a) b.
Proof. unfold walk. by rewrite split_app, foldl_app. Qed.

Lemma normalizePath_render path : normalizePath path = render (segs_of path).
Proof.
  unfold normalizePath, segs_of, render. destruct (startsWith path [SLASH]); [done|].
  by rewrite <- (walk_slash [] path).
Qed.

Lemma walk_join parts segs : segs ≠ [] → Forall good segs → walk parts (join SLASH segs) = parts ++ segs.
Proof.
  intros. unfold walk. rewrite split_join by auto using goods_parts. by apply normalize_steps_good.
Qed.

Lemma segs_of_render segs : Forall good segs → segs_of (render segs) = segs.
Proof.
  intros Hg. unfold segs_of, render. rewrite walk_slash. destruct segs as [|s segs]; [done|].
  by apply walk_join.
Qed.

Lemma render_inj a b : Forall good a → Forall good b → render a = render b → a = b.
Proof. intros Ha Hb E. by rewrite <- (segs_of_render a), <- (segs_of_render b), E. Qed.

Lemma segs_of_normalize path : segs_of (normalizePath path) = segs_of path.
Proof. rewrite normalizePath_render. apply segs_of_render, segs_good. Qed.

Lemma render_nil segs : Forall good segs → render segs = [SLASH] → segs = [].
Proof. intros Hg E. by apply (render_inj segs []). Qed.

Lemma render_app a b : a ≠ [] → b ≠ [] → render (a ++ b) = render a ++ SLASH :: join SLASH b.
Proof. intros. unfold render. by rewrite join_app. Qed.

Lemma filter_names segs : Forall good segs → filter (λ s : list Z, s ≠ []) segs = segs.
Proof.
  induction 1 as [|s segs [[Hs _] _] _ IH]; [done|]. rewrite filter_cons_True by done. by rewrite IH.
Qed.

Lemma splitPath_segs path : splitPath path = segs_of path.
Proof.
  unfold splitPath. rewrite normalizePath_render. unfold render. pose proof (segs_good path) as Hg.
  change (split SLASH (SLASH :: join SLASH (segs_of path))) with ([] :: split SLASH (join SLASH (segs_of path))).
  rewrite filter_cons_False by auto. destruct (segs_of path) as [|s segs]; [done|].
  rewrite split_join by auto using goods_parts. by apply filter_names.
Qed.

(** ** Canonical paths *)

(** Well-formed, up to a high surrogate as the last unit. *)
Fixpoint wf_but_last (s : list Z) : bool :=
  match s with
  | [] => true
  | u :: rest =>
      if is_high u then
        match rest with low :: rest' => is_low low && wf_but_last rest' | [] => true end
      else negb (is_low u) && wf_but_last rest
  end.

Lemma bad_segment_spec seg rest : bad_segment (seg ++ rest) (zlen seg) = false ↔ nice seg.
Proof.
  unfold bad_segment, nice, DOT, DOTDOT. simpl js. destruct seg as [|a [|b [|c seg]]].
  - simpl. naive_solver.
  - change (zlen [a]) with 1. simpl. rewrite orb_false_r, bool_decide_eq_false. naive_solver.
  - change (zlen [a; b]) with 2. simpl. rewrite andb_false_iff, !bool_decide_eq_false. split.
    + intros Hab. split_and!; intros [=]; subst; by destruct Hab.
    + intros (_ & _ & H). destruct (decide (a = 46)); [subst; right; intros [=]; by subst|left; congruence].
  - rewrite !zlen_cons. pose proof (zlen_nonneg seg). zdec. simpl. naive_solver.
Qed.

Lemma bad_segment_cases seg rest :
  bad_segment (seg ++ rest) (zlen seg) = false ∧ nice seg ∨
  bad_segment (seg ++ rest) (zlen seg) = true ∧ ¬ nice seg.
Proof. rewrite <- (bad_segment_spec seg rest). destruct (bad_segment _ _); auto. Qed.

Lemma nice_high seg u rest : is_high u = true → nice (seg ++ u :: rest).
Proof.
  unfold is_high, nice, DOT, DOTDOT. simpl js. intros. zbool.
  destruct seg as [|a [|b seg]]; simpl; split_and!; try done; intros [=]; subst; try lia.
  all: by destruct seg.
Qed.

Lemma canonical_loop_spec rest seg :
  SLASH ∉ seg →
  isCanonicalPathSegments_loop (seg ++ rest) (zlen seg) rest = true ↔
  Forall nice (split SLASH (seg ++ rest)) ∧ (0 ∉ rest) ∧ wf_but_last rest = true.
Proof.
  remember (length rest) as n eqn:Hn. revert rest seg Hn.
  induction n as [n IH] using (well_founded_induction Nat.lt_wf_0). intros rest seg -> Hseg.
  destruct rest as [|u rest]; cbn [isCanonicalPathSegments_loop wf_but_last].
  { rewrite negb_true_iff, bad_segment_spec, app_nil_r, split_part by done.
    rewrite Forall_singleton. split; [|naive_solver]. intros. split_and!; [done|apply not_elem_of_nil|done]. }
  destruct (u =? 0x2f) eqn:Eu; zbool; [subst u|].
  { rewrite split_app, split_part, Forall_app, Forall_singleton by done.
    destruct (bad_segment_cases seg (0x2f :: rest)) as [[-> Hn]|[-> Hn]]; [|naive_solver].
    specialize (IH (length rest) ltac:(simpl; lia) rest [] eq_refl ltac:(apply not_elem_of_nil)).
    simpl app in IH. change (zlen []) with 0 in IH. rewrite IH, not_elem_of_cons. simpl. naive_solver. }
  destruct (u =? 0) eqn:Eu0; zbool; [subst u; rewrite not_elem_of_cons; naive_solver|].
  fold (is_high u) (is_low u). destruct (is_high u) eqn:Eh.
  - destruct rest as [|low rest].
    { split; [intros _|done]. rewrite split_part.
      - split_and!; [|apply not_elem_of_cons; split; [lia|apply not_elem_of_nil]|done].
        apply Forall_singleton. by apply nice_high.
      - apply not_elem_of_app. split; [done|]. apply not_elem_of_cons. split; [unfold SLASH; lia|].
        apply not_elem_of_nil. }
    assert ((low <? 0xdc00) || (0xdfff <? low) = negb (is_low low)) as ->.
    { unfold is_low. destruct (low <? 0xdc00) eqn:?, (0xdfff <? low) eqn:?; zbool; first [lia | by zdec]. }
    destruct (is_low low) eqn:El; simpl; [|naive_solver].
    specialize (IH (length rest) ltac:(simpl; lia) rest (seg ++ [u; low]) eq_refl).
    rewrite zlen_app, <- app_assoc in IH. change (zlen [u; low]) with 2 in IH. simpl app in IH.
    assert (low ≠ SLASH ∧ low ≠ 0) as [? ?] by (unfold is_low in El; zbool; unfold SLASH; lia).
    rewrite IH; [rewrite !not_elem_of_cons; naive_solver|].
    rewrite not_elem_of_app, !not_elem_of_cons. split_and!; auto using not_elem_of_nil.
  - destruct (is_low u) eqn:El; simpl; [naive_solver|].
    specialize (IH (length rest) ltac:(simpl; lia) rest (seg ++ [u]) eq_refl).
    rewrite zlen_app, <- app_assoc in IH. change (zlen [u]) with 1 in IH. simpl app in IH.
    rewrite IH; [rewrite !not_elem_of_cons; naive_solver|].
    rewrite not_elem_of_app, !not_elem_of_cons. split_and!; auto using not_elem_of_nil.
Qed.

Lemma wf_but_last_spec s :
  wf_but_last s = true ↔
  isWellFormed s = true ∨ ∃ q h, s = q ++ [h] ∧ is_high h = true ∧ isWellFormed q = true.
Proof.
  remember (length s) as n eqn:Hn. revert s Hn.
  induction n as [n IH] using (well_founded_induction Nat.lt_wf_0). intros s ->.
  destruct s as [|u s]; [naive_solver|]. cbn [wf_but_last isWellFormed].
  destruct (is_high u) eqn:Eh; [destruct s as [|low s]|].
  - split; [intros _; right; by exists [], u|done].
  - rewrite !andb_true_iff, (IH (length s)) by (simpl; lia || done). split.
    + intros [Hl [?|(q & h & -> & ? & ?)]]; [auto|]. right. exists (u :: low :: q), h.
      split_and!; [done..|]. simpl. rewrite Eh. by rewrite Hl.
    + intros [[??]|(q & h & E & ? & Hq)]; [auto|]. destruct q as [|u' [|low' q]]; simplify_eq/=.
      * by rewrite Eh in Hq.
      * rewrite Eh in Hq. apply andb_prop in Hq as [??]. eauto 10.
  - rewrite !andb_true_iff, (IH (length s)) by (simpl; lia || done). split.
    + intros [Hl [?|(q & h & -> & ? & ?)]]; [auto|]. right. exists (u :: q), h.
      split_and!; [done..|]. simpl. rewrite Eh. by rewrite Hl.
    + intros [[??]|(q & h & E & ? & Hq)]; [auto|]. destruct q as [|u' q]; simplify_eq/=.
      * congruence.
      * rewrite Eh in Hq. apply andb_prop in Hq as [??]. eauto 10.
Qed.

Lemma canonical_segments_spec s :
  isCanonicalPathSegments_loop s 0 s = true ↔
  Forall good (split SLASH s) ∧ (0 ∉ s) ∧ wf_but_last s = true.
Proof.
  pose proof (canonical_loop_spec s [] (not_elem_of_nil _)) as H. simpl app in H.
  change (zlen []) with 0 in H. rewrite H. unfold good. rewrite Forall_and.
  pose proof (split_parts_ok SLASH s) as Hp. unfold part_ok in Hp. naive_solver.
Qed.

Lemma split_first_slash s : Forall good (split SLASH s) → at_ s 0 ≠ Some SLASH.
Proof.
  intros Hg. destruct s as [|u s]; [done|]. unfold at_. simpl. intros [= ->].
  change (split SLASH (SLASH :: s)) with ([] :: split SLASH s) in Hg. inversion_clear Hg as [|? ? [[? _] _]]. done.
Qed.

Lemma split_last_slash s : Forall good (split SLASH s) → at_ s (zlen s - 1) ≠ Some SLASH.
Proof.
  intros Hg. destruct s as [|u s _] using rev_ind; [done|]. unfold at_. rewrite zlen_app.
  change (zlen [u]) with 1. pose proof (zlen_nonneg s). zdec.
  replace (Z.to_nat (zlen s + 1 - 1)) with (length s) by (unfold zlen; lia).
  rewrite list_lookup_middle by done. intros [= ->].
  rewrite split_app, Forall_app in Hg. destruct Hg as [_ Hg]. inversion_clear Hg as [|? ? [[? _] _]]. done.
Qed.

Lemma isCanonicalGitPath_spec p :
  isCanonicalGitPath p = true ↔ Forall good (split SLASH p) ∧ (0 ∉ p) ∧ wf_but_last p = true.
Proof.
  unfold isCanonicalGitPath, isCanonicalPathSegments, slice_from, str_eqb, unit_is. rewrite drop_0.
  rewrite <- canonical_segments_spec. destruct (isCanonicalPathSegments_loop p 0 p) eqn:E.
  - apply canonical_segments_spec in E as [Hg _].
    rewrite !bool_decide_eq_false_2; [done|by apply split_last_slash|by apply split_first_slash|].
    intros ->. inversion_clear Hg as [|? ? [[? _] _]]. done.
  - split; [|done]. by case_match.
Qed.

Lemma isCanonicalAbsolutePath_spec p :
  isCanonicalAbsolutePath p = true ↔
  ∃ r, p = SLASH :: r ∧ Forall good (split SLASH r) ∧ (0 ∉ r) ∧ wf_but_last r = true.
Proof.
  unfold isCanonicalAbsolutePath, isCanonicalPathSegments, slice_from, unit_is.
  destruct p as [|u r]; [split; [done|naive_solver]|].
  change (drop (Z.to_nat 1) (u :: r)) with (drop 0 r). rewrite drop_0.
  change (at_ (u :: r) 0) with (Some u). rewrite zlen_cons.
  destruct (decide (u = SLASH)) as [->|Hu];
    [|rewrite bool_decide_eq_false_2 by naive_solver; rewrite orb_true_r; naive_solver].
  rewrite bool_decide_eq_true_2 by done. cbn [negb]. rewrite orb_false_r.
  assert (isCanonicalPathSegments_loop r 0 r = true ↔ ∃ r0, SLASH :: r = SLASH :: r0 ∧
    Forall good (split SLASH r0) ∧ (0 ∉ r0) ∧ wf_but_last r0 = true) as <-.
  { rewrite canonical_segments_spec. naive_solver. }
  destruct (isCanonicalPathSegments_loop r 0 r) eqn:E; [|split; [|done]; by destruct (_ || _)].
  apply canonical_segments_spec in E as [Hg _]. destruct r as [|v r].
  { inversion_clear Hg as [|? ? [[? _] _]]. done. }
  rewrite bool_decide_eq_false_2.
  - rewrite zlen_cons. pose proof (zlen_nonneg r). by zdec.
  - pose proof (split_last_slash _ Hg) as Hl. unfold at_ in *. rewrite zlen_cons in *.
    pose proof (zlen_nonneg r). revert Hl. zdec.
    replace (Z.to_nat (1 + (1 + zlen r) - 1)) with (S (Z.to_nat (1 + zlen r - 1))) by lia. done.
Qed.

(** ** Joining *)

Lemma strip_slashes_spec s : ∃ n, s = strip_slashes s ++ replicate n SLASH.
Proof.
  induction s as [|u s [n IH]]; [by exists O|]. simpl. revert IH. destruct (strip_slashes s) as [|v t]; intros IH.
  - destruct (u =? SLASH) eqn:Eu; zbool; [exists (S n); simpl in *; by rewrite <- IH, Eu|exists n; simpl in *; by rewrite <- IH].
  - exists n. simpl in *. by rewrite <- IH.
Qed.

Lemma walk_strip parts s : walk parts (strip_slashes s) = walk parts s.
Proof.
  destruct (strip_slashes_spec s) as [n Hn]. rewrite Hn at 2.
  destruct n as [|n]; [by rewrite app_nil_r|]. simpl. rewrite walk_app.
  clear Hn. generalize (walk parts (strip_slashes s)). intros q. induction n as [|n IH]; [done|].
  simpl. by rewrite walk_slash.
Qed.

Lemma walk_canonical parts rel : Forall good (split SLASH rel) → walk parts rel = parts ++ split SLASH rel.
Proof. apply normalize_steps_good. Qed.

(** Every branch of [joinPath] gives the path reached from [root] along [relative]. *)
Lemma joinPath_walk root relative : joinPath root relative = render (walk (segs_of root) relative).
Proof.
  unfold joinPath, str_eqb. case_bool_decide as E1; simpl.
  { subst. by rewrite normalizePath_render. }
  case_bool_decide as E2; simpl.
  { subst. by rewrite normalizePath_render. }
  assert (normalizePath (strip_slashes root ++ SLASH :: relative) = render (walk (segs_of root) relative)) as Hgen.
  { rewrite normalizePath_render. unfold segs_of. by rewrite walk_app, walk_strip. }
  destruct (isCanonicalGitPath relative) eqn:Ec; simpl; [|done].
  apply isCanonicalGitPath_spec in Ec as [Hg _].
  case_bool_decide as Er; simpl.
  { subst. rewrite walk_canonical by done. change (segs_of [SLASH]) with (@nil (list Z)).
    unfold render. simpl. by rewrite join_split. }
  destruct (isCanonicalAbsolutePath root) eqn:Ea; [|done].
  apply isCanonicalAbsolutePath_spec in Ea as (r & -> & Hr & _).
  unfold segs_of. rewrite walk_slash, walk_canonical, walk_canonical by done. simpl app.
  unfold render. rewrite join_app by apply split_not_nil. by rewrite !join_split.
Qed.

(** ** Relations between paths *)

Lemma render_prefix a b :
  Forall good a → Forall good b → b ≠ [] →
  startsWith (render a) (render b ++ [SLASH]) = true ↔ ∃ k, k ≠ [] ∧ a = b ++ k.
Proof.
  intros Ha Hb Hne. rewrite startsWith_spec. split.
  - intros [t E]. unfold render in E. simpl in E. injection E as E. rewrite <- app_assoc in E.
    exists (split SLASH t). split; [apply split_not_nil|]. destruct a as [|s a].
    { simpl in E. destruct (join SLASH b); done. }
    rewrite <- (split_join SLASH (s :: a)), E by auto using goods_parts.
    simpl app. rewrite split_app, split_join by auto using goods_parts. done.
  - intros (k & Hk & ->). exists (join SLASH k). rewrite render_app by done. by rewrite <- app_assoc.
Qed.

(** [isPathRoot root path]: [root]'s segments lead [path]'s. *)
Lemma isPathRoot_spec root path : isPathRoot root path = true ↔ segs_of root `prefix_of` segs_of path.
Proof.
  unfold isPathRoot, str_eqb, unit_is. rewrite !normalizePath_render.
  pose proof (segs_good root) as Hr. pose proof (segs_good path) as Hp.
  set (b := segs_of root) in *. set (a := segs_of path) in *.
  case_bool_decide as E.
  { apply render_nil in E as ->; [|done]. split; [intros _; apply prefix_nil|done]. }
  assert (b ≠ []) as Hb by (intros ->; done).
  assert (startsWith (render a) (render b) &&
      bool_decide (at_ (render a) (zlen (render b)) = Some 0x2f) =
    startsWith (render a) (render b ++ [SLASH])) as ->.
  { apply eq_bool_prop_intro. rewrite !Is_true_true, andb_true_iff, bool_decide_eq_true, !startsWith_spec. split.
    - intros [[k Hk] Hs]. rewrite Hk in Hs. rewrite at_app in Hs. destruct k as [|u k]; [done|].
      injection Hs as ->. exists k. rewrite Hk. by rewrite <- app_assoc.
    - intros [k Hk]. rewrite Hk, <- app_assoc. split; [eauto|]. by rewrite at_app. }
  rewrite orb_true_iff, bool_decide_eq_true, render_prefix by done. split.
  - intros [Heq|(k & _ & Hk)]; [|by exists k]. apply render_inj in Heq as ->; done.
  - intros [k Hk]. destruct k as [|s k]; [left; rewrite Hk; by rewrite app_nil_r|].
    right. by exists (s :: k).
Qed.

Lemma relativeTo_spec root path k :
  segs_of path = segs_of root ++ k → relativeTo root path = Some (join SLASH k).
Proof.
  intros E. unfold relativeTo, str_eqb. rewrite !normalizePath_render, E.
  pose proof (segs_good root) as Hr. pose proof (segs_good path) as Hp. rewrite E in Hp.
  apply Forall_app in Hp as [_ Hk]. set (b := segs_of root) in *. clearbody b.
  case_bool_decide as E1.
  { apply render_inj in E1; [|by apply Forall_app|done].
    rewrite <- (app_nil_r b) in E1 at 2. apply app_inv_head in E1 as ->. done. }
  assert (k ≠ []) as Hne by (intros ->; by rewrite app_nil_r in E1).
  case_bool_decide as E2.
  - apply render_nil in E2 as ->; [|done]. unfold render. simpl app. unfold slice_from. simpl. by rewrite drop_0.
  - assert (b ≠ []) as Hb by (intros ->; done). rewrite (render_app b k) by done.
    replace (render b ++ SLASH :: join SLASH k) with ((render b ++ [SLASH]) ++ join SLASH k)
      by (by rewrite <- app_assoc).
    rewrite startsWith_app. cbn [negb]. unfold slice_from, zlen. by rewrite Nat2Z.id, drop_app_length.
Qed.

Lemma relativeTo_none root path :
  ¬ segs_of root `prefix_of` segs_of path → relativeTo root path = None.
Proof.
  intros Hn. unfold relativeTo, str_eqb. rewrite !normalizePath_render.
  pose proof (segs_good root) as Hr. pose proof (segs_good path) as Hp.
  case_bool_decide as E1; [apply render_inj in E1; [|done..]; destruct Hn; by rewrite E1|].
  case_bool_decide as E2.
  - apply render_nil in E2; [|done]. destruct Hn. rewrite E2. apply prefix_nil.
  - destruct (startsWith _ _) eqn:E3; [|done]. destruct Hn.
    apply render_prefix in E3 as (k & _ & ->); [by exists k|done..|]. intros Hb. by rewrite Hb in E2.
Qed.

Lemma shared_count_spec from to :
  take (shared_count from to) from = take (shared_count from to) to ∧
  (shared_count from to <= length from)%nat.
Proof.
  revert to. induction from as [|f from IH]; intros [|t to]; simpl; try (split; [done|lia]).
  unfold str_eqb. case_bool_decide; subst; [|split; [done|lia]].
  destruct (IH to) as [E ?]. simpl. rewrite E. split; [done|lia].
Qed.

Lemma walk_dotdots parts n segs :
  foldl normalize_step parts (replicate n DOTDOT ++ segs) =
  foldl normalize_step (take (length parts - n) parts) segs.
Proof.
  revert parts. induction n as [|n IH]; intros parts.
  - simpl. by rewrite Nat.sub_0_r, firstn_all.
  - simpl. change (normalize_step parts DOTDOT) with (pop parts). rewrite IH. unfold pop.
    rewrite length_take, take_take. do 2 f_equal. lia.
Qed.

Lemma relativePath_walk base target :
  walk (segs_of base) (relativePath base target) = segs_of target.
Proof.
  unfold relativePath. rewrite !splitPath_segs.
  pose proof (segs_good target) as Ht. set (from := segs_of base). set (to := segs_of target) in *.
  destruct (shared_count_spec from to) as [E Hle]. set (n := shared_count from to) in *.
  assert (foldl normalize_step from (replicate (length from - n) DOTDOT ++ drop n to) = to) as Hw.
  { rewrite walk_dotdots. replace (length from - (length from - n))%nat with n by lia.
    rewrite E, normalize_steps_good by by apply Forall_drop. apply take_drop. }
  destruct (replicate (length from - n) DOTDOT ++ drop n to) as [|s segs] eqn:Es.
  { simpl in Hw. rewrite Hw. done. }
  unfold walk. rewrite split_join; [done|done|]. rewrite <- Es. apply Forall_app. split.
  - apply Forall_replicate. intros Hin%(bool_decide_eq_true_2 (SLASH ∈ DOTDOT)). by vm_compute in Hin.
  - by apply goods_parts, Forall_drop.
Qed.

(** ** Parents *)

Lemma dirnameOf_spec path : dirnameOf path = render (pop (segs_of path)).
Proof.
  unfold dirnameOf. rewrite normalizePath_render. pose proof (segs_good path) as Hg.
  destruct (segs_of path) as [|x segs _] using rev_ind; [done|]. rewrite pop_snoc.
  apply Forall_app in Hg as [Hg Hx%Forall_singleton%good_part].
  destruct segs as [|s segs].
  - unfold render. change (SLASH :: join SLASH ([] ++ [x])) with ([] ++ SLASH :: x).
    by rewrite lastIndexOf_app.
  - rewrite render_app by done. simpl (join _ [x]). rewrite lastIndexOf_app by done.
    assert (0 < zlen (render (s :: segs))) as Hpos.
    { unfold render. rewrite zlen_cons. pose proof (zlen_nonneg (join SLASH (s :: segs))). lia. }
    zdec. by apply slice_0_app.
Qed.

Lemma basenameOf_spec path : basenameOf path = default [] (last (segs_of path)).
Proof.
  unfold basenameOf. rewrite normalizePath_render. pose proof (segs_good path) as Hg.
  destruct (segs_of path) as [|x segs _] using rev_ind; [done|]. rewrite last_snoc.
  apply Forall_app in Hg as [Hg Hx%Forall_singleton%good_part].
  assert (∃ d, render (segs ++ [x]) = d ++ SLASH :: x) as [d ->].
  { destruct segs as [|s segs]; [by exists []|]. exists (render (s :: segs)). by rewrite render_app. }
  rewrite lastIndexOf_app by done. unfold slice_from.
  replace (Z.to_nat (zlen d + 1)) with (length (d ++ [SLASH])) by (rewrite length_app; unfold zlen; simpl; lia).
  change (d ++ SLASH :: x) with (d ++ [SLASH] ++ x). rewrite app_assoc. apply drop_app_length.
Qed.

Lemma length_split s : (length (split SLASH s) <= S (length s))%nat.
Proof.
  induction s as [|u s IH]; [done|]. cbn [split]. destruct (u =? SLASH); [simpl; lia|].
  destruct (split SLASH s); simpl in *; lia.
Qed.

Lemma length_walk parts path : (length (walk parts path) <= length parts + S (length path))%nat.
Proof.
  pose proof (length_split path). unfold walk.
  enough (length (foldl normalize_step parts (split SLASH path)) <=
          length parts + length (split SLASH path))%nat by lia.
  generalize (split SLASH path). intros segs. clear H. revert parts.
  induction segs as [|s segs IH]; intros parts; simpl; [lia|]. etrans; [apply IH|].
  enough (length (normalize_step parts s) <= S (length parts))%nat by lia.
  unfold normalize_step, pop. repeat case_match; rewrite ?length_take, ?length_app; simpl; lia.
Qed.

Lemma ancestorsOf_loop_spec segs acc fuel :
  Forall good segs → (length segs < fuel)%nat →
  ancestorsOf_loop fuel acc (render segs) =
  Some (acc ++ ((λ k, render (take k segs)) <$> reverse (seq 0 (S (length segs))))).
Proof.
  intros Hg. revert acc fuel. induction segs as [|x segs IH] using rev_ind; intros acc fuel Hf;
    (destruct fuel as [|fuel]; [lia|]); [done|].
  rewrite length_app in *. simpl in Hf. rewrite Nat.add_1_r. cbn [ancestorsOf_loop]. unfold str_eqb.
  rewrite bool_decide_eq_false_2.
  2:{ intros E. apply render_nil in E; [|done]. by destruct segs. }
  rewrite dirnameOf_spec, segs_of_render, pop_snoc by done. pose proof Hg as [Hg' _]%Forall_app.
  rewrite IH by (done || lia). f_equal. rewrite <- app_assoc. f_equal.
  rewrite (seq_S (S (length segs))), reverse_app. cbn [fmap list_fmap app reverse].
  change (reverse [(0 + S (length segs))%nat]) with [S (length segs)]. cbn [app fmap list_fmap].
  f_equal.
  - f_equal. symmetry. apply firstn_all2. rewrite length_app. simpl. lia.
  - apply list_fmap_ext. intros i k Hk. f_equal. symmetry. apply take_app_le.
    apply list_elem_of_lookup_2, elem_of_reverse, elem_of_seq in Hk. lia.
Qed.

Lemma ancestorsOf_spec path :
  ancestorsOf path = Some ((λ k, render (take k (segs_of path))) <$>
    reverse (seq 0 (Nat.max 1 (length (segs_of path))))).
Proof.
  unfold ancestorsOf. rewrite dirnameOf_spec. pose proof (segs_good path) as Hg.
  pose proof (length_walk [] path) as Hl. fold (segs_of path) in Hl. simpl in Hl.
  destruct (segs_of path) as [|x segs _] using rev_ind; [done|]. rewrite pop_snoc.
  rewrite length_app in *. simpl in Hl. apply Forall_app in Hg as [Hg _].
  rewrite ancestorsOf_loop_spec by (done || lia). f_equal. simpl (length [x]).
  replace (Nat.max 1 (length segs + 1)) with (S (length segs)) by lia. simpl app.
  apply list_fmap_ext. intros i k Hk. f_equal. symmetry. apply take_app_le.
  apply list_elem_of_lookup_2, elem_of_reverse, elem_of_seq in Hk. lia.
Qed.

(** ** The binary search *)

(** [wanted] cuts [values] in two: once a value does not sort before it, none does. *)
Definition cut (values : list (list Z)) (wanted : list Z) : Prop :=
  ∀ i j v w, 0 <= i <= j → at_ values i = Some v → at_ values j = Some w →
  comparePaths w wanted < 0 → comparePaths v wanted < 0.

Lemma at_lt {A} (l : list A) i : 0 <= i < zlen l → is_Some (at_ l i).
Proof. unfold at_, zlen. intros. zdec. apply lookup_lt_is_Some. lia. Qed.

Lemma lowerBoundPath_loop_spec values wanted fuel low high :
  cut values wanted → 0 <= low <= high → high <= zlen values → high - low < Z.of_nat fuel →
  (∀ i v, 0 <= i < low → at_ values i = Some v → comparePaths v wanted < 0) →
  (∀ i v, high <= i → at_ values i = Some v → 0 <= comparePaths v wanted) →
  ∃ r, lowerBoundPath_loop fuel values wanted low high = Some r ∧ low <= r <= high ∧
    (∀ i v, 0 <= i < r → at_ values i = Some v → comparePaths v wanted < 0) ∧
    (∀ i v, r <= i → at_ values i = Some v → 0 <= comparePaths v wanted).
Proof.
  intros Hcut. revert low high. induction fuel as [|fuel IH]; intros low high Hlow Hhigh Hf Hb Ha; [lia|].
  cbn [lowerBoundPath_loop]. destruct (low <? high) eqn:E; zbool.
  - set (m := low + (high - low) / 2).
    assert (low <= m < high) as Hm by (subst m; zdm).
    destruct (at_lt values m ltac:(lia)) as [v Hv]. rewrite Hv.
    destruct (comparePaths v wanted <? 0) eqn:Ec; zbool.
    + destruct (IH (m + 1) high) as (r & -> & ? & ?); [lia|lia|lia| |done|exists r; split; [done|split; [lia|done]]].
      intros i w Hi Hw. apply (Hcut i m w v); [lia|done..].
    + destruct (IH low m) as (r & -> & ? & ?); [lia|lia|lia|done| |exists r; split; [done|split; [lia|done]]].
      intros i w Hi Hw. destruct (Z_lt_ge_dec (comparePaths w wanted) 0); [|lia].
      pose proof (Hcut m i v w ltac:(lia) Hv Hw). lia.
  - assert (low = high) as <- by lia. exists low. split_and!; auto; lia.
Qed.

Lemma ascending_lookup values i j v w :
  ascending id values → 0 <= i < j → at_ values i = Some v → at_ values j = Some w → path_lt v w.
Proof.
  intros [_ Hs] Hij. unfold at_. zdec. intros Hi Hj.
  revert i j Hij Hi Hj. induction Hs as [|x l Hs IH Hall]; intros i j Hij Hi Hj; [done|].
  destruct (decide (i = 0)) as [->|].
  - simpl in Hi. injection Hi as ->. replace (Z.to_nat j) with (S (Z.to_nat (j - 1))) in Hj by lia.
    simpl in Hj. rewrite Forall_forall in Hall. by apply (Hall w), (list_elem_of_lookup_2 _ _ _ Hj).
  - apply (IH (i - 1) (j - 1)); [lia|..].
    + by replace (Z.to_nat i) with (S (Z.to_nat (i - 1))) in Hi by lia.
    + by replace (Z.to_nat j) with (S (Z.to_nat (j - 1))) in Hj by lia.
Qed.

Lemma at_elem {A} (l : list A) i x : at_ l i = Some x → x ∈ l.
Proof. unfold at_. case_match; [done|]. apply list_elem_of_lookup_2. Qed.

Lemma ascending_cut values wanted : ascending id values → units wanted → cut values wanted.
Proof.
  intros Hs Hw i j v w Hij Hv Hj Hlt. destruct (decide (i = j)) as [->|]; [congruence|].
  pose proof (ascending_lookup values i j v w Hs ltac:(lia) Hv Hj).
  destruct Hs as [Hu _]. rewrite Forall_forall in Hu.
  apply at_elem in Hv, Hj. apply (path_lt_trans v w wanted); auto; by apply Hu.
Qed.

(** ** Subtree ranges *)

Lemma lex_between p c s :
  (∃ k, s = p ++ c :: k) ↔ 0 <= lex_compare s (p ++ [c]) ∧ lex_compare s (p ++ [c + 1]) < 0.
Proof.
  split.
  - intros [k ->]. rewrite !lex_compare_app_same. simpl. rewrite Z.ltb_irrefl. zdec.
    split; [by destruct k|lia].
  - revert s. induction p as [|x p IH]; intros [|u s]; simpl; try lia.
    + destruct (u <? c) eqn:?, (c <? u) eqn:?, (u <? c + 1) eqn:?, (c + 1 <? u) eqn:?; zbool; intros [??]; try lia.
      * assert (u = c + 1) as -> by lia. destruct s; simpl in *; lia.
      * exists s. f_equal. lia.
    + destruct (u <? x) eqn:?; [lia|]. destruct (x <? u) eqn:?; [lia|]. intros Hs.
      destruct (IH s Hs) as [k ->]. exists k. zbool. f_equal. lia.
Qed.

(** The paths under the directory [path]: those that start with it and a slash. *)
Definition subtree_lower (path : list Z) : list Z :=
  let normalized := normalizePath path in
  if str_eqb normalized [SLASH] then [SLASH] else normalized ++ [SLASH].

Lemma subtree_range dir s :
  wf_key dir → wf_key s →
  startsWith s (dir ++ [0x2f]) = true ↔
  0 <= comparePaths s (dir ++ [0x2f]) ∧ comparePaths s (dir ++ [0x30]) < 0.
Proof.
  intros [Hd Hdw] [Hs Hsw].
  assert (∀ u, unit_ok u → units (dir ++ [u])) as Hu by (intros; apply Forall_app; split; [done|by apply Forall_singleton]).
  rewrite !comparePaths_points by (done || by apply Hu). rewrite !points_app by done.
  change (points [0x2f]) with [0x2f]. change (points [0x30]) with [0x2f + 1].
  rewrite <- lex_between, startsWith_spec. split.
  - intros [k ->]. exists (points k). rewrite <- app_assoc, points_app by done. done.
  - intros [k Hk]. exists (flat_map point_units k).
    rewrite <- (point_units_points s), Hk, flat_map_app by done. cbn [flat_map].
    rewrite (point_units_points dir) by done. by rewrite <- app_assoc.
Qed.

(** * Properties *)

(** [normalizePath] gives a slash and the slash-separated names the path denotes,
    none of them empty, [.] or [..]; [splitPath] lists those names; and normalizing
    twice changes nothing. *)
Theorem normalizePath_normal path :
  normalizePath path = render (splitPath path) ∧ Forall good (splitPath path) ∧
  normalizePath (normalizePath path) = normalizePath path.
Proof.
  rewrite splitPath_segs. split_and!; [apply normalizePath_render|apply segs_good|].
  by rewrite !normalizePath_render, segs_of_render by apply segs_good.
Qed.

(** Every branch of [joinPath], the two that skip normalization included, gives
    the normal form of the root, a slash and the relative path. *)
Theorem joinPath_normal root relative :
  joinPath root relative = normalizePath (root ++ SLASH :: relative).
Proof. rewrite joinPath_walk, normalizePath_render. unfold segs_of. by rewrite walk_app. Qed.

(** [relativeTo] answers exactly for the paths [isPathRoot] puts under the root,
    and joining its answer to the root gives the path back; [relativePath] leads from
    any base to any target. *)
Theorem relative_roundtrip root path :
  match relativeTo root path with
  | Some relative => isPathRoot root path = true ∧ joinPath root relative = normalizePath path
  | None => isPathRoot root path = false
  end ∧ joinPath root (relativePath root path) = normalizePath path.
Proof.
  split; [|by rewrite joinPath_walk, relativePath_walk, normalizePath_render].
  destruct (isPathRoot root path) eqn:E.
  - apply isPathRoot_spec in E as [k Hk]. rewrite (relativeTo_spec root path k Hk). split; [done|].
    rewrite joinPath_walk, normalizePath_render, Hk. f_equal. destruct k as [|s k]; [by rewrite app_nil_r|].
    apply walk_join; [done|]. pose proof (segs_good path) as Hg. rewrite Hk in Hg. by apply Forall_app in Hg as [_ Hg].
  - rewrite relativeTo_none; [done|]. rewrite <- isPathRoot_spec. congruence.
Qed.

(** [isCanonicalGitPath] accepts exactly the slash-separated names without an
    empty, [.] or [..] component, without NUL, and well formed as UTF-16 up to one
    unpaired high surrogate at the very end. *)
Theorem isCanonicalGitPath_exact path :
  isCanonicalGitPath path = true ↔
  Forall good (split SLASH path) ∧ (0 ∉ path) ∧
  (isWellFormed path = true ∨
   ∃ q h, path = q ++ [h] ∧ is_high h = true ∧ isWellFormed q = true).
Proof. by rewrite isCanonicalGitPath_spec, wf_but_last_spec. Qed.

(** The trailing surrogate: accepted, although the path is not well formed. *)
Theorem isCanonicalGitPath_accepts_unpaired :
  isCanonicalGitPath [0x61; 0xd800] = true ∧ isWellFormed [0x61; 0xd800] = false ∧
  isCanonicalGitPath [0xd800; 0x61] = false.
Proof. vm_compute. done. Qed.

(** [ancestorsOf] ends and lists every proper ancestor of a path, the nearest
    first and the root last; the root's only ancestor is itself. *)
Theorem ancestorsOf_prefixes path :
  ancestorsOf path = Some ((λ k, render (take k (splitPath path))) <$>
    reverse (seq 0 (Nat.max 1 (length (splitPath path))))).
Proof. rewrite splitPath_segs. apply ancestorsOf_spec. Qed.

(** The binary search ends within its bounds, and on an ascending list it returns
    the number of values that sort before the wanted path. *)
Theorem lowerBoundPath_correct values wanted :
  ascending id values → units wanted →
  ∃ r, lowerBoundPath values wanted = Some r ∧ 0 <= r <= zlen values ∧
    (∀ i v, 0 <= i < r → at_ values i = Some v → comparePaths v wanted < 0) ∧
    (∀ i v, r <= i → at_ values i = Some v → 0 <= comparePaths v wanted).
Proof.
  intros Hs Hw. pose proof (zlen_nonneg values).
  apply lowerBoundPath_loop_spec; [by apply ascending_cut|lia|lia|unfold zlen; lia|intros; lia|].
  intros i v Hi Hv. unfold at_ in Hv. case_match; [done|].
  apply lookup_lt_Some in Hv. unfold zlen in *. lia.
Qed.

Lemma lowerBoundPath_correct_witness :
  ∃ r, lowerBoundPath [js "a"; js "a-"; js "a/b"] (js "a/") = Some r ∧ r = 2.
Proof.
  destruct (lowerBoundPath_correct [js "a"; js "a-"; js "a/b"] (js "a/")) as (r & E & _).
  - by apply ascending_by_compute.
  - by apply units_by_compute.
  - exists r. split; [done|]. vm_compute in E. by simplify_eq.
Defined.

(** C39: The paths between the directory followed by a slash and its
    [subtreeSuccessor], in the order of [comparePaths], are exactly those under the
    directory. *)
Theorem subtreeSuccessor_range dir s :
  wf_key (normalizePath dir) → wf_key s →
  startsWith s (subtree_lower dir) = true ↔
  0 <= comparePaths s (subtree_lower dir) ∧ comparePaths s (subtreeSuccessor dir) < 0.
Proof.
  intros Hd Hs. unfold subtree_lower, subtreeSuccessor, str_eqb. case_bool_decide as E.
  - apply (subtree_range []); [by split; [apply Forall_nil|]|done].
  - by apply subtree_range.
Qed.

Lemma subtreeSuccessor_range_witness :
  startsWith (js "/a/b") (subtree_lower (js "/a")) = true ∧
  comparePaths (js "/a/b") (subtreeSuccessor (js "/a")) < 0 ∧
  ¬ 0 <= comparePaths (js "/a.txt") (subtree_lower (js "/a")).
Proof.
  destruct (proj1 (subtreeSuccessor_range (js "/a") (js "/a/b")
    ltac:(by apply wf_key_by_compute) ltac:(by apply wf_key_by_compute)) eq_refl) as [_ H].
  split_and!; [done|done|]. vm_compute. congruence.
Defined.
