(* ===== verification/FsPath.v ===== *)
(** The filesystem layer's path primitives: src/packages/do/src/fs/path.ts. *)

From S2P Require Import Prelude Utf8 Text Streams Paths.

(** [assertWellFormedPath]: an [EINVAL] filesystem error for an unpaired surrogate. *)
Definition assertWellFormedPath (path what : list Z) : outcome unit :=
  throw_if (negb (isWellFormed path))
    (GitError (js "EINVAL") (what ++ js " is not well-formed UTF-8")).

(** The loop of [isCanonicalPath]: [start] is the suffix at [start], [length] the
    distance to the suffix [rest] at [index]. *)
Fixpoint isCanonicalPath_loop (start : list Z) (length : Z) (rest : list Z) : bool :=
  match rest with
  | [] => negb (bad_segment start length)
  | unit :: rest =>
      if negb (unit =? 0x2f) then isCanonicalPath_loop start (length + 1) rest
      else if bad_segment start length then false
      else isCanonicalPath_loop rest 0 rest
  end.

Definition isCanonicalPath (path : list Z) : bool :=
  if str_eqb path [SLASH] then true
  else if negb (unit_is (at_ path 0) 0x2f) then false
  else let rest := slice_from path 1 in isCanonicalPath_loop rest 0 rest.

Definition normalize (path : list Z) : list Z :=
  if isCanonicalPath path then path
  else
    let absolute := if startsWith path [SLASH] then path else SLASH :: path in
    let parts := foldl normalize_step [] (split SLASH absolute) in
    SLASH :: join SLASH parts.

Definition fs_join (root relative : list Z) : list Z :=
  if str_eqb relative [] || str_eqb relative DOT then normalize root
  else normalize (strip_slashes root ++ SLASH :: relative).

Definition dirname (path : list Z) : list Z :=
  let normalized := normalize path in
  let slash := lastIndexOf SLASH normalized in
  if slash <=? 0 then [SLASH] else slice normalized 0 slash.

Definition basename (path : list Z) : list Z :=
  let normalized := normalize path in
  slice_from normalized (lastIndexOf SLASH normalized + 1).

(** [path.indexOf("/", from)]. *)
Definition slash_from (path : list Z) (from : Z) : Z :=
  let i := indexOf SLASH (slice_from path from) in if i <? 0 then -1 else from + i.

Fixpoint prefixesOf_loop (fuel : nat) (path : list Z) (index : Z) (prefixes : list (list Z))
  : option (list (list Z)) :=
  match fuel with
  | O => None
  | S fuel =>
      if index =? -1 then Some prefixes
      else prefixesOf_loop fuel path (slash_from path (index + 1)) (prefixes ++ [slice path 0 index])
  end.

Definition prefixesOf (path : list Z) : option (list (list Z)) :=
  if str_eqb path [SLASH] then Some [[SLASH]]
  else
    prefixes ← prefixesOf_loop (S (length path)) path (slash_from path 1) [[SLASH]];
    Some (prefixes ++ [path]).

Definition segments (path : list Z) : list (list Z) :=
  let normalized := normalize path in
  if str_eqb normalized [SLASH] then [] else split SLASH (slice_from normalized 1).

Definition fs_subtreeSuccessor (dir : list Z) : list Z :=
  let normalized := normalize dir in
  if str_eqb normalized [SLASH] then js "0" else normalized ++ js "0".

(** The code points of [[...s]], each element's [codePointAt(0)]: an unpaired
    surrogate stands for itself. *)
Fixpoint spread (s : list Z) : list Z :=
  match s with
  | [] => []
  | u :: rest =>
      if is_high u then
        match rest with
        | low :: rest' => if is_low low then pair_point u low :: spread rest' else u :: spread rest
        | [] => [u]
        end
      else u :: spread rest
  end.

(** The loop of [comparePaths] over the shared positions; [None] when it ends. *)
Fixpoint compare_shared (left right : list Z) : option Z :=
  match left, right with
  | l :: left, r :: right =>
      if negb (l =? r) then Some (if l <? r then -1 else 1) else compare_shared left right
  | _, _ => None
  end.

Definition fs_comparePaths (a b : list Z) : Z :=
  let left := spread a in
  let right := spread b in
  match compare_shared left right with
  | Some order => order
  | None => zlen left - zlen right
  end.

Definition codePointLength (value : list Z) : Z := zlen (spread value).

(** * Facts *)

Lemma canonicalPath_loop_spec rest seg :
  SLASH ∉ seg →
  isCanonicalPath_loop (seg ++ rest) (zlen seg) rest = true ↔ Forall nice (split SLASH (seg ++ rest)).
Proof.
  revert seg. induction rest as [|u rest IH]; intros seg Hseg; cbn [isCanonicalPath_loop].
  - rewrite negb_true_iff, bad_segment_spec, app_nil_r, split_part by done. by rewrite Forall_singleton.
  - destruct (u =? 0x2f) eqn:Eu; zbool; cbn [negb].
    + subst u. rewrite split_app, split_part, Forall_app, Forall_singleton by done.
      destruct (bad_segment_cases seg (0x2f :: rest)) as [[-> Hn]|[-> Hn]]; [|naive_solver].
      specialize (IH [] (not_elem_of_nil _)). simpl app in IH. change (zlen []) with 0 in IH.
      rewrite IH. naive_solver.
    + specialize (IH (seg ++ [u])). rewrite zlen_app, <- app_assoc in IH. change (zlen [u]) with 1 in IH.
      apply IH. rewrite not_elem_of_app, not_elem_of_cons. split_and!; auto using not_elem_of_nil.
Qed.

Lemma isCanonicalPath_spec path :
  isCanonicalPath path = true ↔ ∃ segs, Forall good segs ∧ path = render segs.
Proof.
  unfold isCanonicalPath, str_eqb, unit_is. case_bool_decide as E1.
  { split; [|done]. exists []. by split. }
  destruct path as [|u rest].
  { simpl. split; [done|]. by intros (segs & _ & [=]). }
  change (at_ (u :: rest) 0) with (Some u). change (slice_from (u :: rest) 1) with (drop 0 rest). rewrite drop_0.
  destruct (decide (u = SLASH)) as [->|Hu].
  2:{ rewrite bool_decide_eq_false_2 by (intros [= ->]; done). simpl. split; [done|].
      intros (segs & _ & [= -> _]). done. }
  rewrite bool_decide_eq_true_2 by done. cbn [negb].
  pose proof (canonicalPath_loop_spec rest [] (not_elem_of_nil _)) as H. simpl app in H.
  change (zlen []) with 0 in H. rewrite H. split.
  - intros Hn. exists (split SLASH rest). unfold render. rewrite join_split. split; [|done].
    unfold good. apply Forall_and. split; [done|]. apply split_parts_ok.
  - intros (segs & Hg & Hr). unfold render in Hr. injection Hr as ->.
    destruct segs as [|s segs]; [done|]. rewrite split_join by auto using goods_parts.
    apply (Forall_impl _ _ _ Hg). by intros ? [].
Qed.

(** The fast path changes nothing: [normalize] is the git layer's [normalizePath]. *)
Lemma normalize_normalizePath path : normalize path = normalizePath path.
Proof.
  unfold normalize. destruct (isCanonicalPath path) eqn:E; [|done].
  apply isCanonicalPath_spec in E as (segs & Hg & ->). by rewrite normalizePath_render, segs_of_render.
Qed.

Lemma segments_segs path : segments path = segs_of path.
Proof.
  unfold segments, str_eqb. rewrite normalize_normalizePath, normalizePath_render.
  pose proof (segs_good path) as Hg. case_bool_decide as E.
  - by rewrite (render_nil _ Hg E).
  - unfold slice_from, render. simpl. rewrite drop_0. apply split_join; [|by apply goods_parts].
    intros Hs. by rewrite Hs in E.
Qed.

(** The search from just after a slash, over what remains of the segments. *)
Lemma slash_from_segs front s segs :
  Forall good (s :: segs) →
  slash_from (front ++ join SLASH (s :: segs)) (zlen front) =
  match segs with [] => -1 | _ => zlen (front ++ s) end.
Proof.
  intros Hg. inversion_clear Hg as [|? ? [_ Hs] _]. unfold slash_from. rewrite slice_from_app.
  destruct segs as [|t segs]; [simpl; by rewrite indexOf_none|].
  rewrite join_cons, indexOf_spec by done. pose proof (zlen_nonneg s). zdec. by rewrite zlen_app.
Qed.

Lemma length_join segs : Forall good segs → (length segs <= S (length (join SLASH segs)))%nat.
Proof.
  intros Hg. destruct segs as [|s segs]; [simpl; lia|].
  rewrite <- (split_join SLASH (s :: segs)) at 1 by auto using goods_parts. apply length_split.
Qed.

Definition front_of (dir : list (list Z)) : list Z :=
  match dir with [] => [SLASH] | _ => render dir ++ [SLASH] end.

Lemma render_front dir s segs : render (dir ++ s :: segs) = front_of dir ++ join SLASH (s :: segs).
Proof.
  destruct dir as [|d dir]; [done|]. unfold front_of. rewrite render_app by done. by rewrite <- app_assoc.
Qed.

Lemma prefixesOf_loop_spec dir s segs acc fuel :
  Forall good (dir ++ s :: segs) → (length segs < fuel)%nat →
  let path := render (dir ++ s :: segs) in
  prefixesOf_loop fuel path (slash_from path (zlen (front_of dir))) acc =
  Some (acc ++ ((λ k, render (dir ++ s :: take k segs)) <$> seq 0 (length segs))).
Proof.
  revert dir s acc fuel. induction segs as [|t segs IH]; intros dir s acc fuel Hg Hf path;
    subst path; rewrite render_front; pose proof Hg as [Hd Hg']%Forall_app;
    rewrite slash_from_segs by done; (destruct fuel as [|fuel]; [simpl in Hf; lia|]).
  - simpl. by rewrite app_nil_r.
  - cbn [prefixesOf_loop]. pose proof (zlen_nonneg (front_of dir ++ s)).
    rewrite (proj2 (Z.eqb_neq _ _)) by lia.
    assert (render (dir ++ [s]) = front_of dir ++ s) as Hfs by by rewrite render_front.
    specialize (IH (dir ++ [s]) t (acc ++ [front_of dir ++ s]) fuel). cbv zeta in IH.
    rewrite <- app_assoc in IH. simpl app in IH.
    assert (front_of (dir ++ [s]) = (front_of dir ++ s) ++ [SLASH]) as Hfront
      by (unfold front_of at 1; rewrite Hfs; by destruct dir).
    rewrite Hfront, render_front, (zlen_app _ [SLASH]) in IH. change (zlen [SLASH]) with 1 in IH.
    assert (slice (front_of dir ++ join SLASH (s :: t :: segs)) 0 (zlen (front_of dir ++ s)) =
      front_of dir ++ s) as -> by (rewrite join_cons, app_assoc by done; apply slice_0_app).
    rewrite IH by (done || (simpl in Hf; lia)). f_equal. rewrite <- app_assoc. f_equal.
    cbn [length seq fmap list_fmap app]. f_equal; [done|].
    rewrite <- fmap_S_seq, <- list_fmap_compose.
    apply list_fmap_ext. intros i k _. simpl. by rewrite <- app_assoc.
Qed.

(** Every prefix of a canonical path, shortest first. *)
Lemma prefixesOf_render segs :
  Forall good segs →
  prefixesOf (render segs) = Some ((λ k, render (take k segs)) <$> seq 0 (S (length segs))).
Proof.
  intros Hg. unfold prefixesOf, str_eqb. case_bool_decide as E.
  { by rewrite (render_nil _ Hg E). }
  destruct segs as [|s segs]; [done|].
  pose proof (prefixesOf_loop_spec [] s segs [[SLASH]] (S (length (render (s :: segs)))) Hg) as Hl.
  change (zlen (front_of [])) with 1 in Hl. simpl app in Hl. rewrite Hl.
  2:{ apply length_join in Hg. simpl in *. lia. }
  cbn [mbind option_bind]. f_equal. rewrite (seq_S (S (length segs))), fmap_app.
  cbn [list_fmap fmap length seq Nat.add]. f_equal.
  - f_equal. rewrite <- fmap_S_seq, <- list_fmap_compose. done.
  - do 2 f_equal. cbn [take]. f_equal. by rewrite firstn_all.
Qed.

(** ** Order *)

Lemma spread_points s : isWellFormed s = true → spread s = points s.
Proof.
  remember (length s) as n eqn:Hn. revert s Hn.
  induction n as [n IH] using (well_founded_induction Nat.lt_wf_0). intros [|u s] -> Hw; [done|].
  cbn [isWellFormed] in Hw. cbn [spread points]. destruct (is_high u).
  - destruct s as [|low s]; [done|]. apply andb_prop in Hw as [-> Hw]. f_equal.
    eapply IH; [|reflexivity|done]. simpl. lia.
  - apply andb_prop in Hw as [Hl%negb_true_iff Hw]. rewrite Hl. f_equal.
    eapply IH; [|reflexivity|done]. simpl. lia.
Qed.

Lemma compare_shared_lex l r :
  Z.sgn (match compare_shared l r with Some o => o | None => zlen l - zlen r end) = lex_compare l r.
Proof.
  revert r. induction l as [|x l IH]; intros [|y r]; cbn [compare_shared lex_compare].
  - done.
  - rewrite zlen_cons. change (zlen []) with 0. pose proof (zlen_nonneg r). apply Z.sgn_neg. lia.
  - rewrite zlen_cons. change (zlen []) with 0. pose proof (zlen_nonneg l). apply Z.sgn_pos. lia.
  - destruct (x =? y) eqn:E; zbool; cbn [negb].
    + subst. rewrite Z.ltb_irrefl, <- IH, !zlen_cons. case_match; [done|]. f_equal. lia.
    + destruct (x <? y) eqn:?; [done|]. destruct (y <? x) eqn:?; zbool; [done|lia].
Qed.

Lemma fs_join_walk root relative : fs_join root relative = render (walk (segs_of root) relative).
Proof.
  unfold fs_join, str_eqb. rewrite !normalize_normalizePath. case_bool_decide as E1; simpl.
  { subst. by rewrite normalizePath_render. }
  case_bool_decide as E2; simpl.
  { subst. by rewrite normalizePath_render. }
  rewrite normalizePath_render. unfold segs_of. by rewrite walk_app, walk_strip.
Qed.

(** On well-formed paths the filesystem's [comparePaths] has the sign of the git
    layer's, hence of the UTF-8 byte order the database sorts by. *)
Lemma fs_comparePaths_sign a b :
  wf_key a → wf_key b → Z.sgn (fs_comparePaths a b) = comparePaths a b.
Proof.
  intros [Ha Hwa] [Hb Hwb]. unfold fs_comparePaths. rewrite !spread_points by done.
  rewrite comparePaths_points by done. apply compare_shared_lex.
Qed.

(** * Properties *)

(** C40: Each path function that both layers have computes the same.  For every path, the
    filesystem's [normalize], [join], [segments], [dirname], [basename] and
    [subtreeSuccessor], with their own shortcuts, give what the git layer's give;
    [isCanonicalPath] accepts exactly the normal forms; and on well-formed paths the sign of
    the filesystem's [comparePaths] is the git layer's (the number may be another). *)
Theorem fs_paths_agree path other :
  normalize path = normalizePath path ∧ fs_join path other = joinPath path other ∧
  segments path = splitPath path ∧ dirname path = dirnameOf path ∧ basename path = basenameOf path ∧
  fs_subtreeSuccessor path = subtreeSuccessor path ∧
  (isCanonicalPath path = true ↔ normalizePath path = path) ∧
  (wf_key path → wf_key other → Z.sgn (fs_comparePaths path other) = comparePaths path other).
Proof.
  unfold dirname, basename, dirnameOf, basenameOf, fs_subtreeSuccessor, subtreeSuccessor. rewrite !normalize_normalizePath.
  rewrite segments_segs, splitPath_segs, fs_join_walk, joinPath_walk. split_and!; try done; [|apply fs_comparePaths_sign].
  rewrite isCanonicalPath_spec. split.
  - intros (segs & Hg & ->). by rewrite normalizePath_render, segs_of_render.
  - intros E. exists (segs_of path). split; [apply segs_good|]. by rewrite <- normalizePath_render.
Qed.

Lemma fs_paths_agree_witness :
  fs_join (js "/a/") (js "../b") = joinPath (js "/a/") (js "../b") ∧ fs_join (js "/a/") (js "../b") = js "/b" ∧
  Z.sgn (fs_comparePaths (js "/a/bcd") (js "/a")) = comparePaths (js "/a/bcd") (js "/a") ∧
  fs_comparePaths (js "/a/bcd") (js "/a") = 4.
Proof.
  destruct (fs_paths_agree (js "/a/") (js "../b")) as (_ & H & _).
  destruct (fs_paths_agree (js "/a/bcd") (js "/a")) as (_ & _ & _ & _ & _ & _ & _ & Hc).
  split; [exact H|]. split; [reflexivity|]. split; [apply Hc; by apply wf_key_by_compute|reflexivity].
Defined.

(** [prefixesOf] ends, and of a canonical path lists the root, every ancestor and
    the path itself, shortest first. *)
Theorem prefixesOf_correct path :
  isCanonicalPath path = true →
  prefixesOf path = Some ((λ k, render (take k (segments path))) <$> seq 0 (S (length (segments path)))).
Proof.
  intros (segs & Hg & ->)%isCanonicalPath_spec. rewrite segments_segs, segs_of_render by done.
  by apply prefixesOf_render.
Qed.

Lemma prefixesOf_correct_witness :
  prefixesOf (js "/a/b") = Some ((λ k, render (take k (segments (js "/a/b")))) <$> seq 0 3) ∧
  prefixesOf (js "/a/b") = Some [js "/"; js "/a"; js "/a/b"].
Proof. split; [apply (prefixesOf_correct (js "/a/b")); reflexivity|reflexivity]. Defined.

(** The range the comment on [subtreeSuccessor] gives, [path > dir AND path <
    subtreeSuccessor(dir)], also holds siblings such as [/a.txt]. *)
Theorem subtreeSuccessor_doc_range :
  let dir := js "/a" in let sibling := js "/a.txt" in
  0 < comparePaths sibling dir ∧ comparePaths sibling (fs_subtreeSuccessor dir) < 0 ∧
  startsWith sibling (dir ++ [SLASH]) = false.
Proof. vm_compute. done. Qed.
