(* ===== verification/Lru.v ===== *)
(** The byte-budgeted LRU cache: src/packages/git/src/common/lru.ts.

    The nodes of the recency list are objects in a heap, linked both ways, and the map
    from keys holds references to them.  The abstract cache is the list of entries,
    the oldest first. *)

From S2P Require Import Prelude.

Definition MIN_ENTRY_BYTES : Z := 256.

Record LruNode (K V : Type) := lruNode {
  nkey : K;
  nvalue : V;
  nbytes : Z;
  older : option nat;
  newer : option nat;
}.
Arguments lruNode {K V}.
Arguments nkey {K V}.
Arguments nvalue {K V}.
Arguments nbytes {K V}.
Arguments older {K V}.
Arguments newer {K V}.

Record ByteLru (K V : Type) `{Countable K} := byteLru {
  heap : gmap nat (LruNode K V);
  fresh : nat;
  entries : gmap K nat;
  oldest : option nat;
  newest : option nat;
  lru_budget : Z;
  lru_bytes : Z;
}.
Arguments byteLru {K V _ _}.
Arguments heap {K V _ _}.
Arguments fresh {K V _ _}.
Arguments entries {K V _ _}.
Arguments oldest {K V _ _}.
Arguments newest {K V _ _}.
Arguments lru_budget {K V _ _}.
Arguments lru_bytes {K V _ _}.

Section lru.
  Context {K V : Type} `{Countable K} (sizeOf : V → option Z).
  Implicit Types (s : ByteLru K V) (k : K) (v : V) (l : nat).

(** [new ByteLru(budget, sizeOf)]; [None] is a number that is not an integer. *)
Definition new_lru (budget : option Z) : outcome (ByteLru K V) :=
  match budget with
  | Some b =>
      if negb (isSafeInteger b) || (b <? 0)
      then Throw (RangeError (js "LRU budget must be a safe nonnegative integer"))
      else Ok (byteLru ∅ 0 ∅ None None b 0)
  | None => Throw (RangeError (js "LRU budget must be a safe nonnegative integer"))
  end.

(** Assignments to fields of nodes and of the cache. *)
Definition set_older (o : option nat) (n : LruNode K V) : LruNode K V :=
  lruNode (nkey n) (nvalue n) (nbytes n) o (newer n).
Definition set_newer (o : option nat) (n : LruNode K V) : LruNode K V :=
  lruNode (nkey n) (nvalue n) (nbytes n) (older n) o.
Definition update_node l (f : LruNode K V → LruNode K V) s : ByteLru K V :=
  byteLru (alter f l (heap s)) (fresh s) (entries s) (oldest s) (newest s) (lru_budget s) (lru_bytes s).
Definition set_oldest (o : option nat) s : ByteLru K V :=
  byteLru (heap s) (fresh s) (entries s) o (newest s) (lru_budget s) (lru_bytes s).
Definition set_newest (o : option nat) s : ByteLru K V :=
  byteLru (heap s) (fresh s) (entries s) (oldest s) o (lru_budget s) (lru_bytes s).

(** [#append(node)]. *)
Definition append l s : ByteLru K V :=
  let s := update_node l (set_older (newest s)) s in
  let s := update_node l (set_newer None) s in
  let s := match newest s with
           | None => set_oldest (Some l) s
           | Some last => update_node last (set_newer (Some l)) s
           end in
  set_newest (Some l) s.

(** [#unlink(node)]. *)
Definition unlink l s : ByteLru K V :=
  match heap s !! l with
  | None => s
  | Some node =>
      let s := match older node with
               | None => set_oldest (newer node) s
               | Some o => update_node o (set_newer (newer node)) s
               end in
      let s := match newer node with
               | None => set_newest (older node) s
               | Some n => update_node n (set_older (older node)) s
               end in
      let s := update_node l (set_older None) s in
      update_node l (set_newer None) s
  end.

(** [#remove(node)]. *)
Definition remove l s : ByteLru K V :=
  let s := unlink l s in
  match heap s !! l with
  | None => s
  | Some node =>
      byteLru (heap s) (fresh s) (delete (nkey node) (entries s)) (oldest s) (newest s) (lru_budget s)
              (round_double (lru_bytes s - nbytes node))
  end.

(** [#evict()]; [None] when the fuel runs out. *)
Fixpoint evict (fuel : nat) s : option (ByteLru K V) :=
  match fuel with
  | O => None
  | S fuel =>
      if lru_budget s <? lru_bytes s then
        match oldest s with
        | Some l => evict fuel (remove l s)
        | None => Some s
        end
      else Some s
  end.

(** [#entryBytes(value)]. *)
Definition entryBytes v : outcome Z :=
  match sizeOf v with
  | Some b =>
      if negb (isSafeInteger b) || (b <? 0)
      then Throw (RangeError (js "LRU entry size must be a safe nonnegative integer"))
      else Ok (Z.max b MIN_ENTRY_BYTES)
  | None => Throw (RangeError (js "LRU entry size must be a safe nonnegative integer"))
  end.

Definition lru_get k s : option V * ByteLru K V :=
  match entries s !! k with
  | None => (None, s)
  | Some l =>
      let s := append l (unlink l s) in
      (nvalue <$> heap s !! l, s)
  end.

Definition lru_has k s : bool := bool_decide (is_Some (entries s !! k)).

Definition lru_size s : nat := size (entries s).

Definition lru_delete k s : ByteLru K V :=
  match entries s !! k with None => s | Some l => remove l s end.

Definition lru_clear s : ByteLru K V :=
  byteLru (heap s) (fresh s) ∅ None None (lru_budget s) 0.

(** [set(key, value)]; [size > budget / 4] is [4 * size > budget], since dividing a double
    by four is exact.  The count of bytes is a double: sums round. *)
Definition lru_set k v s : outcome (option (ByteLru K V)) :=
  size ← entryBytes v;
  if lru_budget s <? 4 * size then Ok (Some s)
  else
    let s := lru_delete k s in
    let l := fresh s in
    let s := byteLru (<[l := lruNode k v size None None]> (heap s)) (S l) (<[k := l]> (entries s))
                     (oldest s) (newest s) (lru_budget s) (lru_bytes s) in
    let s := append l s in
    let s := byteLru (heap s) (fresh s) (entries s) (oldest s) (newest s) (lru_budget s) (round_double (lru_bytes s + size)) in
    Ok (evict (S (base.size (entries s))) s).

(** * The abstract cache *)

(** An entry: its key, its value, its accounted bytes. *)
Record entry := Entry { ekey : K; evalue : V; ebytes : Z }.
Implicit Types es : list entry.

(** No sum of a cache with this budget reaches past the integers that doubles hold: a set
    adds at most a quarter of it before entries leave. *)
Definition exact_budget (b : Z) : Prop := 5 * b <= 4 * 2 ^ 53.

Definition total es : Z := foldr (λ e n, ebytes e + n) 0 es.
Definition find_key k es : option entry := head (filter (λ e, ekey e = k) es).
Definition without k es : list entry := filter (λ e, ekey e ≠ k) es.

(** The longest suffix that fits the budget. *)
Fixpoint keep_newest (b : Z) es : list entry :=
  match es with
  | [] => []
  | e :: rest => if b <? total es then keep_newest b rest else es
  end.

Definition spec_get k es : option V * list entry :=
  match find_key k es with
  | Some e => (Some (evalue e), without k es ++ [e])
  | None => (None, es)
  end.

Definition spec_set (b : Z) k v (size : Z) es : list entry :=
  if b <? 4 * size then es else keep_newest b (without k es ++ [Entry k v size]).

(** * Representation *)

Definition payload (n : LruNode K V) : entry := Entry (nkey n) (nvalue n) (nbytes n).

(** The nodes [ls], oldest first, are linked in that order. *)
Definition linked (h : gmap nat (LruNode K V)) (ls : list nat) : Prop :=
  ∀ a l b, ls = a ++ l :: b → ∃ n, h !! l = Some n ∧ older n = last a ∧ newer n = head b.

(** [s] holds the entries [es]. *)
Record holds_at s (ls : list nat) es : Prop := {
  rep_linked : linked (heap s) ls;
  rep_nodup : NoDup ls;
  rep_payload : (λ l, payload <$> heap s !! l) <$> ls = Some <$> es;
  rep_oldest : oldest s = head ls;
  rep_newest : newest s = last ls;
  rep_keys : NoDup (ekey <$> es);
  rep_entries : ∀ k l, entries s !! k = Some l ↔ l ∈ ls ∧ ekey ∘ payload <$> heap s !! l = Some k;
  rep_fresh : ∀ l, is_Some (heap s !! l) → (l < fresh s)%nat;
  rep_bytes : lru_bytes s = total es;
}.

(** ** Links *)

Definition links (h : gmap nat (LruNode K V)) (l : nat) : option (option nat * option nat) :=
  (λ n, (older n, newer n)) <$> h !! l.

Lemma linked_links h ls :
  linked h ls ↔ ∀ a l b, ls = a ++ l :: b → links h l = Some (last a, head b).
Proof.
  unfold linked, links. split.
  - intros Hl a l b E. destruct (Hl a l b E) as (n & -> & <- & <-). done.
  - intros Hl a l b E. specialize (Hl a l b E). destruct (h !! l) as [n|]; simplify_eq/=. eauto.
Qed.

Lemma links_set_newer h o x l :
  links (alter (set_newer o) x h) l =
  if decide (l = x) then (λ p, (fst p, o)) <$> links h l else links h l.
Proof.
  unfold links. case_decide as E.
  - subst. rewrite lookup_alter_eq. by destruct (h !! x).
  - by rewrite lookup_alter_ne.
Qed.

Lemma links_set_older h o x l :
  links (alter (set_older o) x h) l =
  if decide (l = x) then (λ p, (o, snd p)) <$> links h l else links h l.
Proof.
  unfold links. case_decide as E.
  - subst. rewrite lookup_alter_eq. by destruct (h !! x).
  - by rewrite lookup_alter_ne.
Qed.

Lemma payload_alter (f : LruNode K V → LruNode K V) (h : gmap nat (LruNode K V)) x l :
  (∀ n, payload (f n) = payload n) → payload <$> alter f x h !! l = payload <$> h !! l.
Proof.
  intros Hf. destruct (decide (l = x)) as [->|].
  - rewrite lookup_alter_eq. destruct (h !! x); simpl; [by rewrite Hf|done].
  - by rewrite lookup_alter_ne.
Qed.

(** The updates of [unlink] on the links. *)
Definition relink (prev next : option nat) (h : gmap nat (LruNode K V)) : gmap nat (LruNode K V) :=
  let h := match prev with None => h | Some o => alter (set_newer next) o h end in
  match next with None => h | Some n => alter (set_older prev) n h end.

Lemma links_relink prev next h m :
  prev ≠ next ∨ prev = None →
  links (relink prev next h) m =
  if decide (Some m = prev) then (λ p, (fst p, next)) <$> links h m
  else if decide (Some m = next) then (λ p, (prev, snd p)) <$> links h m
  else links h m.
Proof.
  intros Hne. unfold relink. destruct prev as [o|], next as [n|];
    rewrite ?links_set_older, ?links_set_newer; repeat case_decide; simplify_eq; try done;
    destruct Hne; congruence.
Qed.

Lemma linked_unlink h a l b :
  linked h (a ++ l :: b) → NoDup (a ++ l :: b) →
  linked (alter (set_newer None) l (alter (set_older None) l (relink (last a) (head b) h))) (a ++ b).
Proof.
  rewrite !linked_links. intros Hl Hnd c m d E.
  pose proof Hnd as (Ha & Hdisj & Hlb)%NoDup_app. apply NoDup_cons in Hlb as [Hlb Hb].
  assert (∀ x, last a = Some x → x ∈ a) as Hlast by (intros x Hx; apply last_Some in Hx as [? ->]; set_solver).
  assert (∀ x, head b = Some x → x ∈ b) as Hhead by (intros x Hx; destruct b; simplify_eq/=; set_solver).
  assert (last a ≠ head b ∨ last a = None) as Hne.
  { destruct (last a) as [x|] eqn:Ex; [left|by right]. intros Ey. symmetry in Ey.
    apply (Hdisj x); [by apply Hlast|]. apply elem_of_cons. right. by apply Hhead. }
  rewrite links_set_newer, links_set_older, links_relink by done.
  apply app_eq_inv in E as [(k & -> & E)|(k & -> & ->)].
  - destruct k as [|m' k].
    { simpl in E. subst b. rewrite app_nil_r in *.
      rewrite !(decide_False (P := m = l)) by (intros ->; set_solver).
      rewrite (decide_False (P := Some m = last c)) by (intros Em; symmetry in Em; apply Hlast in Em; set_solver).
      rewrite decide_True by done. rewrite (Hl (c ++ [l]) m d) by (by rewrite <- app_assoc). done. }
    simplify_eq/=. rewrite <- app_assoc in Hl. simpl in Hl.
    rewrite (Hl c m' (k ++ l :: b)) by done.
    rewrite !(decide_False (P := m' = l)) by (intros ->; set_solver). destruct k as [|x k].
    + rewrite last_snoc. rewrite decide_True by done. done.
    + rewrite decide_False.
      2:{ rewrite last_app, last_cons. intros Em. apply NoDup_app in Ha as (_ & _ & Ha).
          apply NoDup_cons in Ha as [Hx _]. apply Hx. rewrite last_cons in Em.
          destruct (last k) eqn:Ek; [apply last_Some in Ek as [? ->]|]; simplify_eq; set_solver. }
      rewrite decide_False by (intros Em; symmetry in Em; apply Hhead in Em; set_solver). done.
  - rewrite (Hl (a ++ l :: k) m d) by (by rewrite <- app_assoc).
    rewrite !(decide_False (P := m = l)) by (intros ->; set_solver).
    rewrite (decide_False (P := Some m = last a)) by (intros Em; symmetry in Em; apply Hlast in Em; set_solver).
    destruct k as [|x k].
    + rewrite decide_True by done. rewrite app_nil_r. done.
    + rewrite decide_False by (simpl; intros [= ->]; apply NoDup_cons in Hb as [Hx _]; set_solver).
      rewrite !last_app, !last_cons. destruct (last k); done.
Qed.

Lemma linked_append h ls l :
  linked h ls → NoDup ls → l ∉ ls → is_Some (h !! l) →
  let h' := alter (set_newer None) l (alter (set_older (last ls)) l h) in
  linked (match last ls with None => h' | Some x => alter (set_newer (Some l)) x h' end) (ls ++ [l]).
Proof.
  intros Hl Hnd Hnew [n Hn] h'. rewrite linked_links in Hl |- *. intros c m d E.
  assert (∀ x, links h' x = if decide (x = l) then Some (last ls, None) else links h x) as Hh'.
  { intros x. subst h'. rewrite links_set_newer, links_set_older. case_decide; [|done].
    subst. unfold links. by rewrite Hn. }
  assert (links (match last ls with None => h' | Some x => alter (set_newer (Some l)) x h' end) m =
    if decide (Some m = last ls) then (λ p, (fst p, Some l)) <$> links h' m else links h' m) as ->.
  { destruct (last ls) as [x|]; [|by rewrite decide_False].
    rewrite links_set_newer. repeat case_decide; simplify_eq; done. }
  rewrite Hh'. destruct d as [|y d _] using rev_ind.
  - apply app_inj_tail in E as [-> ->].
    rewrite (decide_False (P := Some m = _)), decide_True by (done || (intros Em; symmetry in Em;
      apply last_Some in Em as [? ->]; set_solver)). done.
  - rewrite app_comm_cons, app_assoc in E. apply app_inj_tail in E as [-> ->].
    rewrite (decide_False (P := m = y)) by (intros ->; set_solver). rewrite (Hl c m d) by done.
    destruct d as [|x d].
    + rewrite last_snoc, decide_True by done. done.
    + rewrite decide_False; [done|]. rewrite last_app, last_cons, last_cons. intros Em.
      apply NoDup_app in Hnd as (_ & _ & [Hx _]%NoDup_cons). apply Hx.
      destruct (last d) eqn:Ed; [apply last_Some in Ed as [? ->]|]; simplify_eq; set_solver.
Qed.

(** ** The list operations on the cache *)

(** What [append] and [unlink] leave alone. *)
Definition same_rest s s' : Prop :=
  (∀ m, payload <$> heap s' !! m = payload <$> heap s !! m) ∧ entries s' = entries s ∧
  fresh s' = fresh s ∧ lru_budget s' = lru_budget s ∧ lru_bytes s' = lru_bytes s.

Lemma unlink_spec s a l b :
  linked (heap s) (a ++ l :: b) → NoDup (a ++ l :: b) →
  oldest s = head (a ++ l :: b) → newest s = last (a ++ l :: b) →
  linked (heap (unlink l s)) (a ++ b) ∧ oldest (unlink l s) = head (a ++ b) ∧
  newest (unlink l s) = last (a ++ b) ∧ same_rest s (unlink l s).
Proof.
  intros Hl Hnd Ho Hn. unfold unlink. destruct (Hl a l b eq_refl) as (n & -> & Hold & Hnew).
  pose proof (linked_unlink _ _ _ _ Hl Hnd) as Hl'. rewrite Hold, Hnew. unfold relink in Hl'.
  assert (head (a ++ b) = match a with [] => head b | x :: _ => Some x end) as -> by by destruct a.
  assert (head (a ++ l :: b) = match a with [] => Some l | x :: _ => Some x end) as Ho' by by destruct a.
  rewrite Ho' in Ho. rewrite last_app in Hn |- *. rewrite last_cons in Hn.
  assert (last a = None ↔ a = []) as Hla by apply last_None.
  assert (head b = None ↔ last b = None) as Hhb by (rewrite last_None; by destruct b).
  destruct (last a) as [x|] eqn:Ea, (head b) as [y|] eqn:Eb; simpl in *;
    (split; [exact Hl'|]); (split; [|split; [|unfold same_rest; simpl; split_and!; try done;
      intros; by rewrite !payload_alter]]).
  all: try (rewrite (proj1 Hla eq_refl); done).
  all: try (destruct a; [naive_solver|done]).
  all: destruct (last b); naive_solver.
Qed.

Lemma append_spec s ls l :
  linked (heap s) ls → NoDup ls → l ∉ ls → is_Some (heap s !! l) →
  oldest s = head ls → newest s = last ls →
  linked (heap (append l s)) (ls ++ [l]) ∧ oldest (append l s) = head (ls ++ [l]) ∧
  newest (append l s) = last (ls ++ [l]) ∧ same_rest s (append l s).
Proof.
  intros Hl Hnd Hnew Hs Ho Hn. pose proof (linked_append _ _ _ Hl Hnd Hnew Hs) as Hl'.
  unfold append. simpl. rewrite Hn in *. rewrite last_snoc.
  destruct (last ls) as [x|] eqn:Ex; simpl in *; (split; [exact Hl'|]);
    (split; [|split; [done|unfold same_rest; simpl; split_and!; try done; intros; by rewrite !payload_alter]]).
  - destruct ls; [done|]. done.
  - apply last_None in Ex as ->. done.
Qed.

(** ** Entries *)

Definition pays (h : gmap nat (LruNode K V)) (ls : list nat) es : Prop :=
  (λ l, payload <$> h !! l) <$> ls = Some <$> es.

Lemma pays_length h ls es : pays h ls es → length ls = length es.
Proof. intros E. apply (f_equal length) in E. by rewrite !length_fmap in E. Qed.

Lemma pays_app h a b ea eb :
  length a = length ea → pays h (a ++ b) (ea ++ eb) ↔ pays h a ea ∧ pays h b eb.
Proof.
  intros Hlen. unfold pays. rewrite !fmap_app. split.
  - intros E. apply app_inj_1 in E; [done|]. by rewrite !length_fmap.
  - intros [-> ->]. done.
Qed.

Lemma pays_cons h l b e eb : pays h (l :: b) (e :: eb) ↔ payload <$> h !! l = Some e ∧ pays h b eb.
Proof. unfold pays. simpl. split; [by intros [= ? ?]|intros [Ha Hb]; by f_equal]. Qed.

Lemma pays_split h a l b es :
  pays h (a ++ l :: b) es →
  ∃ ea e eb, es = ea ++ e :: eb ∧ length a = length ea ∧ pays h a ea ∧
    payload <$> h !! l = Some e ∧ pays h b eb.
Proof.
  intros Hp. pose proof (pays_length _ _ _ Hp) as Hlen. rewrite length_app in Hlen. simpl in Hlen.
  rewrite <- (take_drop (length a) es) in Hp |- *.
  assert (length a = length (take (length a) es)) as Ha by (rewrite length_take; lia).
  apply pays_app in Hp as [Hpa Hp]; [|done].
  destruct (drop (length a) es) as [|e eb] eqn:E.
  { apply (f_equal length) in E. rewrite length_drop in E. simpl in E. lia. }
  apply pays_cons in Hp as [? ?]. exists (take (length a) es), e, eb. done.
Qed.

Lemma pays_ext h h' ls es :
  (∀ l, l ∈ ls → payload <$> h' !! l = payload <$> h !! l) → pays h ls es → pays h' ls es.
Proof.
  intros Hext Hp. unfold pays in *. rewrite <- Hp. apply list_fmap_ext. intros i l Hi. apply Hext.
  by apply list_elem_of_lookup_2 in Hi.
Qed.

Lemma without_split k ea e eb :
  NoDup (ekey <$> ea ++ e :: eb) → ekey e = k →
  find_key k (ea ++ e :: eb) = Some e ∧ without k (ea ++ e :: eb) = ea ++ eb.
Proof.
  intros Hnd Hk. rewrite fmap_app, fmap_cons in Hnd.
  apply NoDup_app in Hnd as (_ & Hd & [He _]%NoDup_cons).
  assert (∀ t : list entry, ekey e ∉ ekey <$> t →
    filter (λ e, ekey e = k) t = [] ∧ filter (λ e, ekey e ≠ k) t = t) as Hf.
  { intros t. induction t as [|x t IH]; [done|]. rewrite fmap_cons, not_elem_of_cons. intros [? ?].
    rewrite filter_cons_False, filter_cons_True by congruence. destruct IH as [-> ->]; done. }
  assert (ekey e ∉ ekey <$> ea) as Ha by (intros Hin; apply (Hd _ Hin); set_solver).
  unfold find_key, without. rewrite !filter_app.
  destruct (Hf ea Ha) as [-> ->]. rewrite filter_cons_True, filter_cons_False by auto.
  destruct (Hf eb He) as [-> ->]. done.
Qed.

Lemma without_none k es : k ∉ ekey <$> es → find_key k es = None ∧ without k es = es.
Proof.
  unfold find_key, without. induction es as [|x es IH]; [done|].
  rewrite fmap_cons, not_elem_of_cons. intros [? ?].
  rewrite filter_cons_False, filter_cons_True by congruence. destruct IH as [-> ->]; done.
Qed.

Lemma total_app a b : total (a ++ b) = total a + total b.
Proof. induction a as [|e a IH]; simpl; lia. Qed.

(** A key the map knows is an entry. *)
Lemma entries_split s ls es k l :
  holds_at s ls es → entries s !! k = Some l →
  ∃ a b ea e eb, ls = a ++ l :: b ∧ es = ea ++ e :: eb ∧ length a = length ea ∧
    payload <$> heap s !! l = Some e ∧ ekey e = k ∧
    find_key k es = Some e ∧ without k es = ea ++ eb.
Proof.
  intros [] Hk. apply rep_entries0 in Hk as [Hin Hkey]. apply list_elem_of_split in Hin as (a & b & ->).
  apply pays_split in rep_payload0 as (ea & e & eb & -> & Hlen & _ & He & _).
  destruct (heap s !! l) as [n|]; simplify_eq/=.
  destruct (without_split (nkey n) ea (payload n) eb) as [? ?]; [done..|].
  exists a, b, ea, (payload n), eb. done.
Qed.

Lemma entries_none s ls es k :
  holds_at s ls es → entries s !! k = None → k ∉ ekey <$> es.
Proof.
  intros [] Hk Hin. apply list_elem_of_fmap in Hin as (e & -> & He).
  apply list_elem_of_lookup in He as [i Hi].
  assert (((λ l, payload <$> heap s !! l) <$> ls) !! i = Some (Some e)) as Hl
    by by rewrite rep_payload0, list_lookup_fmap, Hi.
  rewrite list_lookup_fmap in Hl. destruct (ls !! i) as [l|] eqn:El; [|done]. simpl in Hl.
  assert (entries s !! ekey e = Some l) as Hs; [|congruence].
  apply rep_entries0. split; [by apply list_elem_of_lookup_2 in El|].
  destruct (heap s !! l); simplify_eq/=. done.
Qed.

Lemma same_rest_key s s' m :
  same_rest s s' → ekey ∘ payload <$> heap s' !! m = ekey ∘ payload <$> heap s !! m.
Proof. intros [Hp _]. rewrite !option_fmap_compose. by rewrite Hp. Qed.

Lemma same_rest_live s s' m : same_rest s s' → is_Some (heap s' !! m) → is_Some (heap s !! m).
Proof.
  intros [Hp _] [n Hn]. specialize (Hp m). rewrite Hn in Hp. destruct (heap s !! m); [eauto|done].
Qed.

Lemma same_rest_trans s1 s2 s3 : same_rest s1 s2 → same_rest s2 s3 → same_rest s1 s3.
Proof. unfold same_rest. intros (Hp1&?&?&?&?) (Hp2&?&?&?&?). split_and!; intros; congruence. Qed.

(** Reordering the list: what [get] does to a node. *)
Lemma touch_spec s a l b ea e eb :
  holds_at s (a ++ l :: b) (ea ++ e :: eb) → length a = length ea →
  let s' := append l (unlink l s) in
  holds_at s' ((a ++ b) ++ [l]) ((ea ++ eb) ++ [e]) ∧ same_rest s s'.
Proof.
  intros [] Hlen s'.
  destruct (unlink_spec s a l b) as (Hl1 & Ho1 & Hn1 & Hr1); [done..|].
  apply NoDup_app in rep_nodup0 as Hnd. destruct Hnd as (Ha & Hd & [Hlb Hb]%NoDup_cons).
  assert (l ∉ a ++ b) as Hlab.
  { rewrite not_elem_of_app. split; [|done]. intros Hla. apply (Hd l Hla). set_solver. }
  assert (NoDup (a ++ b)) as Hab by (apply NoDup_app; split_and!; [done| |done]; intros x Hx ?; apply (Hd x Hx); set_solver).
  pose proof rep_payload0 as Hp. apply pays_app in Hp as [Hpa [Hpl Hpb]%pays_cons]; [|done].
  destruct (append_spec (unlink l s) (a ++ b) l) as (Hl2 & Ho2 & Hn2 & Hr2); try done.
  { destruct Hr1 as [Hp1 _]. specialize (Hp1 l). rewrite Hpl in Hp1.
    destruct (heap (unlink l s) !! l); [eauto|done]. }
  pose proof (same_rest_trans _ _ _ Hr1 Hr2) as Hr. fold s' in Hr, Hl2, Ho2, Hn2.
  split; [|done]. assert (length (a ++ b) = length (ea ++ eb)) as Hlen2.
  { apply pays_length in Hpb. rewrite !length_app. lia. }
  constructor; try done.
  - apply NoDup_app. split_and!; [done|set_solver|]. apply NoDup_singleton.
  - apply (pays_ext (heap s)); [intros; apply Hr|]. apply pays_app; [done|]. split.
    + by apply pays_app.
    + apply pays_cons. done.
  - rewrite <- Permutation_middle in rep_keys0. by rewrite <- Permutation_cons_append.
  - intros k m. rewrite (same_rest_key s s') by done. destruct Hr as (_ & -> & _). rewrite rep_entries0. set_solver.
  - intros m Hm. destruct Hr as (Hr & _ & -> & _). apply rep_fresh0. destruct Hm as [n Hm].
    specialize (Hr m). rewrite Hm in Hr. destruct (heap s !! m); [eauto|done].
  - destruct Hr as (_ & _ & _ & _ & ->). rewrite rep_bytes0, !total_app. simpl. lia.
Qed.

(** Sums over the entries stay within the integers that doubles hold. *)
Definition countable es : Prop := Forall (λ e, MIN_ENTRY_BYTES <= ebytes e) es ∧ total es <= 2 ^ 53.

Lemma countable_total es : countable es → 0 <= total es <= 2 ^ 53.
Proof.
  intros [Hf Ht]. split; [|done]. clear Ht. induction Hf as [|e es He _ IH]; simpl; [done|]. unfold MIN_ENTRY_BYTES in He. lia.
Qed.

Lemma countable_remove ea e eb : countable (ea ++ e :: eb) → countable (ea ++ eb).
Proof.
  intros [Hf Ht]. apply Forall_app in Hf as [Ha [He Hb]%Forall_cons]. split; [by apply Forall_app|]. unfold MIN_ENTRY_BYTES in He.
  rewrite total_app in *. simpl in Ht. lia.
Qed.

Lemma remove_spec s a l b ea e eb :
  holds_at s (a ++ l :: b) (ea ++ e :: eb) → length a = length ea → countable (ea ++ e :: eb) →
  holds_at (remove l s) (a ++ b) (ea ++ eb) ∧ lru_budget (remove l s) = lru_budget s.
Proof.
  intros [] Hlen Hcount.
  destruct (unlink_spec s a l b) as (Hl1 & Ho1 & Hn1 & Hr1); [done..|].
  apply NoDup_app in rep_nodup0 as Hnd. destruct Hnd as (Ha & Hd & [Hlb Hb]%NoDup_cons).
  assert (l ∉ a ++ b) as Hlab.
  { rewrite not_elem_of_app. split; [|done]. intros Hla. apply (Hd l Hla). set_solver. }
  pose proof rep_payload0 as Hp. apply pays_app in Hp as [Hpa [Hpl Hpb]%pays_cons]; [|done].
  unfold remove. destruct Hr1 as (Hp1 & He1 & Hf1 & Hb1 & Hy1).
  pose proof (Hp1 l) as Hpl1. rewrite Hpl in Hpl1.
  destruct (heap (unlink l s) !! l) as [n|] eqn:En; [|done]. simpl in Hpl1. injection Hpl1 as <-.
  split; [|done]. constructor; simpl; try done.
  - apply NoDup_app; split_and!; [done| |done]. intros x Hx ?; apply (Hd x Hx); set_solver.
  - apply (pays_ext (heap s)); [done|]. by apply pays_app.
  - rewrite <- Permutation_middle in rep_keys0. rewrite fmap_cons in rep_keys0. by apply NoDup_cons in rep_keys0 as [_ ?].
  - intros k m. rewrite He1. rewrite option_fmap_compose, Hp1, <- option_fmap_compose.
    assert (entries s !! nkey n = Some l) as Hent.
    { apply rep_entries0. split; [set_solver|]. rewrite option_fmap_compose, Hpl. done. }
    destruct (decide (k = nkey n)) as [->|Hk].
    + rewrite lookup_delete_eq. split; [done|]. intros [Hm Hkey].
      assert (entries s !! nkey n = Some m) as Hent' by (apply rep_entries0; set_solver). set_solver.
    + rewrite lookup_delete_ne, rep_entries0 by done. split; [|set_solver].
      intros [Hm Hkey]. split; [|done].
      apply elem_of_app in Hm as [?|[->|?]%elem_of_cons]; [set_solver| |set_solver].
      rewrite option_fmap_compose, Hpl in Hkey. simpl in Hkey. congruence.
  - intros m [n' Hm]. rewrite Hf1. apply rep_fresh0. specialize (Hp1 m). rewrite Hm in Hp1.
    destruct (heap s !! m); [eauto|done].
  - rewrite Hy1, rep_bytes0. pose proof (countable_total _ Hcount) as Ht. apply countable_remove, countable_total in Hcount.
    rewrite !total_app in *. simpl in *. rewrite round_double_exact by lia. lia.
Qed.

(** ** The operations *)

Lemma entries_size s ls es : holds_at s ls es → size (entries s) = length es.
Proof.
  intros Hs. rewrite <- size_dom, <- (length_fmap ekey), <- (size_list_to_set (C := gset K));
    [|by apply Hs]. f_equal. apply set_eq. intros k.
  rewrite elem_of_dom, elem_of_list_to_set. split.
  - intros [l Hl]. destruct (entries_split s ls es k l Hs Hl) as (?&?&ea&e&eb&_&->&_&_&<-&_). set_solver.
  - intros Hin. destruct (entries s !! k) eqn:E; [eauto|]. by apply (entries_none s ls es k Hs) in E.
Qed.

Lemma evict_spec fuel s ls es :
  holds_at s ls es → countable es → (length es < fuel)%nat →
  ∃ s' ls', evict fuel s = Some s' ∧ holds_at s' ls' (keep_newest (lru_budget s) es) ∧
    lru_budget s' = lru_budget s.
Proof.
  revert s ls es. induction fuel as [|fuel IH]; intros s ls es Hs Hc Hf; [lia|].
  cbn [evict]. rewrite (rep_bytes _ _ _ Hs).
  pose proof (rep_oldest _ _ _ Hs) as Ho. pose proof (pays_length _ _ _ (rep_payload _ _ _ Hs)) as Hlen.
  destruct es as [|e es].
  - destruct ls; [|done]. rewrite Ho. simpl. case_match; eauto.
  - destruct ls as [|l ls]; [done|]. cbn [keep_newest]. case_match; [|eauto].
    simpl in Ho. rewrite Ho.
    destruct (remove_spec s [] l ls [] e es Hs eq_refl Hc) as [Hs' Hb]. simpl app in Hs'.
    destruct (IH (remove l s) ls es Hs') as (s' & ls' & -> & Hs'' & Hb'); [by apply (countable_remove [] e)|simpl in Hf; lia|].
    rewrite Hb in *. eauto.
Qed.

Lemma delete_spec s ls es k :
  holds_at s ls es → countable es →
  ∃ ls', holds_at (lru_delete k s) ls' (without k es) ∧ lru_budget (lru_delete k s) = lru_budget s.
Proof.
  intros Hs Hc. unfold lru_delete. destruct (entries s !! k) as [l|] eqn:E.
  - destruct (entries_split s ls es k l Hs E) as (a & b & ea & e & eb & -> & -> & Hlen & _ & _ & _ & ->).
    destruct (remove_spec s a l b ea e eb Hs Hlen Hc). eauto.
  - destruct (without_none k es) as [_ ->]; [by apply (entries_none s ls es)|]. eauto.
Qed.

(** A fresh node is added at the newest end. *)
Lemma insert_spec s ls es k v (sz : Z) :
  holds_at s ls es → k ∉ ekey <$> es → countable (es ++ [Entry k v sz]) →
  let l := fresh s in
  let s1 := byteLru (<[l := lruNode k v sz None None]> (heap s)) (S l) (<[k := l]> (entries s))
                    (oldest s) (newest s) (lru_budget s) (lru_bytes s) in
  let s2 := append l s1 in
  holds_at (byteLru (heap s2) (fresh s2) (entries s2) (oldest s2) (newest s2) (lru_budget s2)
                    (round_double (lru_bytes s2 + sz))) (ls ++ [l]) (es ++ [Entry k v sz]) ∧
  lru_budget s2 = lru_budget s.
Proof.
  intros Hs Hk Hcount l s1 s2. pose proof Hs as [].
  assert (∀ m, m ∈ ls → m ≠ l ∧ is_Some (heap s !! m)) as Hold.
  { intros m (a & b & ->)%list_elem_of_split. destruct (rep_linked0 a m b eq_refl) as (n & Hn & _).
    split; [|eauto]. intros ->. pose proof (rep_fresh0 l (ex_intro _ n Hn)). subst l. lia. }
  assert (l ∉ ls) as Hl by (intros Hin; by destruct (Hold l Hin)).
  destruct (append_spec s1 ls l) as (Hl2 & Ho2 & Hn2 & Hr2); try done.
  { intros a m b E. destruct (rep_linked0 a m b E) as (n & Hn & ? & ?). exists n.
    split; [|done]. simpl. rewrite lookup_insert_ne; [done|]. intros ->. apply Hl. rewrite E. set_solver. }
  { simpl. rewrite lookup_insert_eq. eauto. }
  fold s2 in Hl2, Ho2, Hn2, Hr2. destruct Hr2 as (Hp & He & Hf & Hb & Hy). clearbody s2.
  assert (∀ m, m ∈ ls → payload <$> heap s2 !! m = payload <$> heap s !! m) as Hpo.
  { intros m Hm. rewrite Hp. simpl. rewrite lookup_insert_ne; [done|]. intros ->. by destruct (Hold m Hm). }
  assert (payload <$> heap s2 !! l = Some (Entry k v sz)) as Hpl by (rewrite Hp; simpl; by rewrite lookup_insert_eq).
  split; [|by rewrite Hb]. constructor; simpl; try done.
  - apply NoDup_app. split_and!; [done|set_solver|]. apply NoDup_singleton.
  - apply pays_app; [by apply pays_length in rep_payload0|]. split; [by apply (pays_ext (heap s))|].
    by apply pays_cons.
  - rewrite fmap_app. apply NoDup_app. split_and!; [done|set_solver|]. apply NoDup_singleton.
  - intros k' m. rewrite He. simpl. destruct (decide (k' = k)) as [->|Hne].
    + rewrite lookup_insert_eq. split.
      * intros [= <-]. split; [set_solver|]. rewrite option_fmap_compose, Hpl. done.
      * intros [[Hm| ->%list_elem_of_singleton]%elem_of_app Hkey]; [|done]. exfalso. apply Hk.
        rewrite option_fmap_compose, Hpo, <- option_fmap_compose in Hkey by done.
        assert (entries s !! k = Some m) as Hent by by apply rep_entries0.
        destruct (entries_split s ls es k m Hs Hent) as (?&?&ea&e&eb&_&->&_&_&<-&_). set_solver.
    + rewrite lookup_insert_ne, rep_entries0 by done. split.
      * intros [Hm Hkey]. split; [set_solver|]. rewrite option_fmap_compose, Hpo by done. by rewrite <- option_fmap_compose.
      * intros [[Hm| ->%list_elem_of_singleton]%elem_of_app Hkey].
        -- split; [done|]. by rewrite option_fmap_compose, Hpo, <- option_fmap_compose in Hkey by done.
        -- rewrite option_fmap_compose, Hpl in Hkey. by injection Hkey as <-.
  - intros m [n Hm]. rewrite Hf. simpl. destruct (decide (m = l)) as [->|Hne]; [subst l; lia|].
    specialize (Hp m). rewrite Hm in Hp. simpl in Hp. rewrite lookup_insert_ne in Hp by done.
    assert (m < fresh s)%nat; [|lia]. apply rep_fresh0. destruct (heap s !! m); [eauto|done].
  - rewrite Hy. simpl. rewrite rep_bytes0. apply countable_total in Hcount. rewrite total_app in *. simpl in *.
    rewrite round_double_exact by lia. lia.
Qed.

(** ** Eviction keeps the newest entries that fit *)

Lemma keep_newest_suffix b es : keep_newest b es `suffix_of` es.
Proof.
  induction es as [|e es IH]; [done|]. cbn [keep_newest]. case_match; [|done].
  by apply suffix_cons_r.
Qed.

Lemma keep_newest_total b es : 0 <= b → total (keep_newest b es) <= b.
Proof.
  intros Hb. induction es as [|e es IH]; cbn [keep_newest]; [done|].
  destruct (b <? total (e :: es)) eqn:E; zbool; done.
Qed.

Lemma keep_newest_maximal b es q : q `suffix_of` es → total q <= b → q `suffix_of` keep_newest b es.
Proof.
  intros Hq Hb. induction es as [|e es IH]; [done|]. cbn [keep_newest].
  destruct (b <? total (e :: es)) eqn:E; zbool; [|done].
  destruct Hq as [[|x p] Hp]; simplify_eq/=; [lia|]. apply IH. by exists p.
Qed.

(** ** Sequences of operations *)

Inductive op := Get (k : K) | Set_ (k : K) (v : V) | Delete (k : K) | Clear.

(** What an operation returns (only [get] returns anything) and the cache after it;
    [None] inside is running out of fuel. *)
Definition lru_op (o : op) s : outcome (option (option V * ByteLru K V)) :=
  match o with
  | Get k => Ok (Some (lru_get k s))
  | Set_ k v => s' ← lru_set k v s; Ok (option_map (pair None) s')
  | Delete k => Ok (Some (None, lru_delete k s))
  | Clear => Ok (Some (None, lru_clear s))
  end.

Definition spec_op (b : Z) (o : op) es : outcome (option V * list entry) :=
  match o with
  | Get k => Ok (spec_get k es)
  | Set_ k v => sz ← entryBytes v; Ok (None, spec_set b k v sz es)
  | Delete k => Ok (None, without k es)
  | Clear => Ok (None, [])
  end.

Fixpoint lru_run (ops : list op) s : outcome (option (list (option V) * ByteLru K V)) :=
  match ops with
  | [] => Ok (Some ([], s))
  | o :: ops =>
      r ← lru_op o s;
      match r with
      | None => Ok None
      | Some (v, s) => rs ← lru_run ops s; Ok (option_map (λ p, (v :: fst p, snd p)) rs)
      end
  end.

Fixpoint spec_run (b : Z) (ops : list op) es : outcome (list (option V) * list entry) :=
  match ops with
  | [] => Ok ([], es)
  | o :: ops => r ← spec_op b o es; rs ← spec_run b ops (snd r); Ok (fst r :: fst rs, snd rs)
  end.

(** The cache [s] holds [es], oldest first, within its budget. *)
Definition holds (b : Z) s es : Prop :=
  (∃ ls, holds_at s ls es) ∧ lru_budget s = b ∧ 0 <= b ∧ total es <= b ∧ exact_budget b ∧
  Forall (λ e, MIN_ENTRY_BYTES <= ebytes e) es.

Lemma holds_countable b s es : holds b s es → countable es.
Proof. intros (_ & _ & ? & ? & Hx & Hf). split; [done|]. unfold exact_budget in Hx. lia. Qed.

Lemma new_holds b s : new_lru (Some b) = Ok s → exact_budget b → holds b s [].
Proof.
  unfold new_lru. destruct (_ || _) eqn:E; [done|]. intros [= <-] Hexact. apply orb_false_iff in E as [_ E]. zbool.
  split_and!; [|done|done|done|done|by apply Forall_nil]. exists []. constructor; try done.
  - intros [] ? ? [=].
  - apply NoDup_nil_2.
  - apply NoDup_nil_2.
  - intros k l. simpl. rewrite lookup_empty. split; [done|]. by intros [?%elem_of_nil _].
  - intros l. simpl. rewrite lookup_empty. by intros [? ?].
Qed.

Lemma get_holds b k s es :
  holds b s es → fst (lru_get k s) = fst (spec_get k es) ∧ holds b (snd (lru_get k s)) (snd (spec_get k es)).
Proof.
  intros ((ls & Hs) & Hb & Hb0 & Ht & Hx & Hf). unfold lru_get, spec_get. destruct (entries s !! k) as [l|] eqn:E.
  - destruct (entries_split s ls es k l Hs E) as (a & c & ea & e & ec & -> & -> & Hlen & Hp & Hk & -> & ->).
    destruct (touch_spec s a l c ea e ec Hs Hlen) as [Hs' Hr]. cbv zeta. cbn [fst snd].
    split.
    + destruct Hr as [Hr _]. specialize (Hr l). rewrite Hp in Hr.
      destruct (heap (append l (unlink l s)) !! l); [|done]. simpl in *. by injection Hr as <-.
    + split_and!; [eauto| |done| |done|].
      * destruct Hr as (_ & _ & _ & -> & _). done.
      * rewrite !total_app in *. simpl in *. lia.
      * rewrite <- Permutation_cons_append. by rewrite <- Permutation_middle in Hf.
  - destruct (without_none k es) as [-> _]; [by apply (entries_none s ls es)|]. simpl. unfold holds. eauto 10.
Qed.

Lemma total_without k es :
  Forall (λ e, MIN_ENTRY_BYTES <= ebytes e) es → total (without k es) <= total es.
Proof.
  unfold without. induction 1 as [|e es He Hes IH]; [done|]. rewrite filter_cons.
  unfold MIN_ENTRY_BYTES in He. case_decide; simpl; lia.
Qed.

Lemma delete_holds b k s es : holds b s es → holds b (lru_delete k s) (without k es).
Proof.
  intros Hh. pose proof (holds_countable b s es Hh) as Hc. destruct Hh as ((ls & Hs) & Hb & Hb0 & Ht & Hx & Hf).
  destruct (delete_spec s ls es k Hs Hc) as (ls' & Hs' & Hb').
  split_and!; [eauto|congruence|done| |done|].
  - pose proof (total_without k es Hf). lia.
  - unfold without. apply Forall_forall. intros e [_ He]%list_elem_of_filter. rewrite Forall_forall in Hf. auto.
Qed.

Lemma clear_holds b s es : holds b s es → holds b (lru_clear s) [].
Proof.
  intros ((ls & []) & Hb & Hb0 & Ht & Hx & Hf). split_and!; [|done|done|done|done|by apply Forall_nil].
  exists []. constructor; try done.
  - intros [] ? ? [=].
  - apply NoDup_nil_2.
  - apply NoDup_nil_2.
  - intros k l. simpl. rewrite lookup_empty. split; [done|]. by intros [?%elem_of_nil _].
Qed.

Lemma entryBytes_min v sz : entryBytes v = Ok sz → MIN_ENTRY_BYTES <= sz.
Proof. unfold entryBytes. repeat case_match; try done. intros [= <-]. lia. Qed.

Lemma without_not_in k es : k ∉ ekey <$> without k es.
Proof. unfold without. intros (e & -> & [? _]%list_elem_of_filter)%list_elem_of_fmap. done. Qed.

Lemma set_holds b k v sz s es :
  holds b s es → entryBytes v = Ok sz →
  ∃ s', lru_set k v s = Ok (Some s') ∧ holds b s' (spec_set b k v sz es).
Proof.
  intros Hh Hsz. unfold lru_set, spec_set. rewrite Hsz. cbn [mbind outcome_bind].
  pose proof Hh as (_ & Hb & Hb0 & _). rewrite Hb. destruct (b <? 4 * sz) eqn:E; [eauto|].
  destruct (delete_holds b k s es Hh) as ((ls & Hs) & Hb' & _ & Ht & Hx & Hf).
  assert (Forall (λ e, MIN_ENTRY_BYTES <= ebytes e) (without k es ++ [Entry k v sz])) as Hall.
  { apply Forall_app. split; [done|]. apply Forall_singleton. simpl. by apply (entryBytes_min v). }
  assert (countable (without k es ++ [Entry k v sz])) as Hc.
  { split; [done|]. rewrite total_app. unfold exact_budget in Hx. zbool. simpl. lia. }
  destruct (insert_spec _ _ _ k v sz Hs (without_not_in k es) Hc) as [Hi Hbi]. cbv zeta in Hi, Hbi |- *.
  match type of Hi with holds_at ?s2 _ _ => set (s2' := s2) in * end.
  destruct (evict_spec (S (size (entries s2'))) s2' _ _ Hi Hc) as (s' & ls' & Hev & Hs' & Hbs').
  { rewrite (entries_size _ _ _ Hi). lia. }
  exists s'. split; [exact (f_equal Ok Hev)|].
  assert (lru_budget s2' = b) as Hb2 by (subst s2'; simpl in *; congruence).
  rewrite Hb2 in *. split_and!; [eauto|done|done|by apply keep_newest_total|done|].
  destruct (keep_newest_suffix b (without k es ++ [Entry k v sz])) as [p Hp].
  rewrite Hp in Hall. by apply Forall_app in Hall as [_ ?].
Qed.

(** The newest entry survives its own insertion. *)
Lemma keep_newest_last b es e :
  ebytes e <= b → ∃ p, keep_newest b (es ++ [e]) = p ++ [e].
Proof.
  intros He. assert ([e] `suffix_of` keep_newest b (es ++ [e])) as [p Hp]; [|eauto].
  apply keep_newest_maximal; [by exists es|]. simpl. lia.
Qed.

Lemma run_holds b ops s es :
  holds b s es →
  match spec_run b ops es with
  | Throw e => lru_run ops s = Throw e
  | Ok (rs, es') => ∃ s', lru_run ops s = Ok (Some (rs, s')) ∧ holds b s' es'
  end.
Proof.
  revert s es. induction ops as [|o ops IH]; intros s es Hh; [simpl; eauto|]. cbn [spec_run lru_run].
  assert (match spec_op b o es with
          | Throw e => lru_op o s = Throw e
          | Ok (r, es') => ∃ s', lru_op o s = Ok (Some (r, s')) ∧ holds b s' es'
          end) as Hop.
  { destruct o as [k|k v|k|]; cbn [spec_op lru_op].
    - destruct (get_holds b k s es Hh) as [Hr Hh']. destruct (spec_get k es) as [r es'].
      destruct (lru_get k s) as [r' s']. simpl in *. subst. eauto.
    - destruct (entryBytes v) as [sz|e] eqn:Esz; cbn [mbind outcome_bind].
      + destruct (set_holds b k v sz s es Hh Esz) as (s' & -> & Hh'). simpl. eauto.
      + unfold lru_set. by rewrite Esz.
    - eauto using delete_holds.
    - eauto using clear_holds. }
  destruct (spec_op b o es) as [[r es']|e]; cbn [mbind outcome_bind]; [|by rewrite Hop].
  destruct Hop as (s' & -> & Hh'). cbn [mbind outcome_bind fst snd]. specialize (IH s' es' Hh').
  destruct (spec_run b ops es') as [[rs es'']|e]; cbn [mbind outcome_bind]; [|by rewrite IH].
  destruct IH as (s'' & -> & Hh''). cbn. eauto.
Qed.

End lru.

(** * Properties *)

(** C11: The linked-node cache refines the recency list: from a new cache whose budget is at
    most four fifths of [2 ** 53], every sequence of operations ends, throws exactly when a
    size is invalid, returns what the list of entries (oldest first) returns, and leaves
    [bytes], summed in doubles, equal to the sum of the entries, within the budget, and [size]
    equal to their number.  Beyond that budget the sums of doubles round
    ([lru_bytes_drift]). *)
Theorem lru_refines {K V} `{Countable K} (sizeOf : V → option Z) b ops (s : ByteLru K V) :
  new_lru (Some b) = Ok s → exact_budget b →
  match spec_run sizeOf b ops [] with
  | Throw e => lru_run sizeOf ops s = Throw e
  | Ok (rs, es) => ∃ s', lru_run sizeOf ops s = Ok (Some (rs, s')) ∧
      lru_bytes s' = total es ∧ lru_bytes s' <= b ∧ lru_size s' = length es
  end.
Proof.
  intros Hnew Hexact. pose proof (run_holds sizeOf b ops s [] (new_holds b s Hnew Hexact)) as Hr.
  destruct (spec_run sizeOf b ops []) as [[rs es]|e]; [|done].
  destruct Hr as (s' & -> & (ls & Hs) & Hb & _ & Ht & _ & _). exists s'. split; [done|].
  rewrite (rep_bytes _ _ _ Hs). split_and!; [done|done|]. by apply (entries_size s' ls).
Qed.

Definition example_ops : list (op (K := Z) (V := list Z)) :=
  [Set_ 1 [10]; Set_ 2 [20]; Set_ 3 [30]; Get 1; Set_ 4 [40]; Set_ 5 [50]; Get 2; Get 1].

Lemma lru_refines_witness :
  ∃ s', lru_run (λ v, Some (zlen v)) example_ops (byteLru ∅ 0 ∅ None None 1024 0) =
    Ok (Some ([None; None; None; Some [10]; None; None; None; Some [10]], s')) ∧
    lru_bytes s' = 1024 ∧ lru_size s' = 4%nat.
Proof.
  destruct (lru_refines (λ v : list Z, Some (zlen v)) 1024 example_ops (byteLru ∅ 0 ∅ None None 1024 0) eq_refl ltac:(unfold exact_budget; lia))
    as (s' & H & Hb & _ & Hs).
  exists s'. split; [exact H|]. split; [rewrite Hb; vm_compute; reflexivity|rewrite Hs; vm_compute; reflexivity].
Defined.

(** With the largest budget, five entries of a quarter of it leave [bytes] one above the sum of
    the four that stay. *)
Theorem lru_bytes_drift :
  let size := 2 ^ 51 - 1 in
  ∃ s s', new_lru (Some MAX_SAFE_INTEGER) = Ok s ∧
    lru_run (λ v : Z, Some v) ((λ k, Set_ k size) <$> [1; 2; 3; 4; 5]) s = Ok (Some (replicate 5 None, s')) ∧
    lru_size s' = 4%nat ∧ lru_bytes s' = 4 * size + 1.
Proof. do 2 eexists. split; [reflexivity|]. split; [vm_compute; reflexivity|]. split; vm_compute; reflexivity. Qed.

(** After [set] of an entry that takes at most a quarter of the budget, the key's
    value is the one set, the entries kept are the newest ones, and no newest run of
    entries that fits the budget was evicted; a larger entry changes nothing. *)
Theorem lru_set_keeps_newest {K V} `{Countable K} (sizeOf : V → option Z) b k v sz (s : ByteLru K V) es :
  holds b s es → entryBytes sizeOf v = Ok sz →
  if b <? 4 * sz then lru_set sizeOf k v s = Ok (Some s)
  else ∃ s' es', lru_set sizeOf k v s = Ok (Some s') ∧ holds b s' es' ∧
    fst (lru_get k s') = Some v ∧
    es' `suffix_of` without k es ++ [Entry k v sz] ∧
    ∀ q, q `suffix_of` without k es ++ [Entry k v sz] → total q <= b → q `suffix_of` es'.
Proof.
  intros Hh Hsz. destruct (set_holds sizeOf b k v sz s es Hh Hsz) as (s' & Hset & Hh').
  unfold spec_set in Hh'. destruct (b <? 4 * sz) eqn:E; zbool.
  - unfold lru_set. rewrite Hsz. cbn [mbind outcome_bind]. destruct Hh as (_ & -> & _).
    by rewrite (proj2 (Z.ltb_lt _ _)).
  - exists s', (keep_newest b (without k es ++ [Entry k v sz])). split; [done|]. split; [done|].
    split; [|split; [apply keep_newest_suffix|by intros; apply keep_newest_maximal]].
    destruct (get_holds b k s' _ Hh') as [-> _]. unfold spec_get.
    destruct (keep_newest_last b (without k es) (Entry k v sz)) as [p Hp].
    { simpl. pose proof (entryBytes_min sizeOf v sz Hsz). unfold MIN_ENTRY_BYTES in *. lia. }
    destruct Hh' as ((ls & Hs) & _). pose proof (rep_keys _ _ _ Hs) as Hnd. rewrite Hp in Hnd |- *.
    destruct (without_split k p (Entry k v sz) []) as [-> _]; [done..|]. done.
Qed.

Lemma lru_set_keeps_newest_witness :
  ∃ s', lru_set (λ v : list Z, Some (zlen v)) 7 [1; 2] (byteLru ∅ 0 ∅ None None 1024 0) = Ok (Some s') ∧
    fst (lru_get 7 s') = Some [1; 2].
Proof.
  destruct (lru_set_keeps_newest (λ v : list Z, Some (zlen v)) 1024 7 [1; 2] 256
    (byteLru ∅ 0 ∅ None None 1024 0) [] (new_holds 1024 _ eq_refl ltac:(unfold exact_budget; lia)) eq_refl) as (s' & es' & H & _ & Hg & _).
  exists s'. split; [exact H|exact Hg].
Defined.
