(* ===== verification/Trees.v ===== *)
(** Git trees: src/packages/git/src/common/trees.ts.

    A position in a byte array is represented by the suffix that starts there.  The
    streaming parser is its state record and one step per byte; a generator is the list
    of what it yields, what it throws, and the state it leaves. *)

From S2P Require Import Prelude Utf8 Text Bytes Streams.

Record TreeEntry := treeEntry { mode : list Z; name : list Z; oid : list Z }.

Record ParsedTreeEntry := parsedTreeEntry {
  entry : TreeEntry;
  nameBytes : list Z;
  ordinal : Z;
  observedSize : Z;
}.

Record TreeParseResult := treeParseResult { entryCount : Z; result_observedSize : Z }.

Definition MODE_FILE : list Z := js "100644".
Definition MODE_EXECUTABLE : list Z := js "100755".
Definition MODE_SYMLINK : list Z := js "120000".
Definition MODE_TREE : list Z := js "40000".
Definition MODE_COMMIT : list Z := js "160000".

Definition decodeTreeName (bs : list Z) : outcome (list Z) :=
  match decode_fatal bs with
  | Some name => Ok name
  | None => Throw (GitErr "EUNSUPPORTED" "tree names must be valid UTF-8")
  end.

Definition isTreeMode (mode : list Z) : bool := str_eqb mode (js "40000") || str_eqb mode (js "040000").

(** [mode.padStart(6, "0")]. *)
Definition displayMode (mode : list Z) : list Z := replicate (6 - length mode) 0x30 ++ mode.

Inductive TreeEntryType := Blob | Tree | Commit.

Definition typeForMode (mode : list Z) : TreeEntryType :=
  if isTreeMode mode then Tree else if str_eqb mode MODE_COMMIT then Commit else Blob.

Definition malformed : jserror := CorruptError (js "malformed tree entry").

(** * The whole-buffer parser *)

(** The loop of [parseTree] on the suffix at [pos]; the fuel bounds the entries,
    and running out of it is an error of its own that never happens. *)
Fixpoint parseTree_loop (fuel : nat) (data : list Z) : outcome (list TreeEntry) :=
  match fuel with
  | O => Throw (PlainError (js "out of fuel"))
  | S fuel =>
      match data with
      | [] => Ok []
      | _ =>
          let space := indexOf 0x20 data in
          if space <? 0 then Throw malformed
          else
            let mode := decode_lossy (slice data 0 space) in
            let rest := slice_from data (space + 1) in
            let nul := (let i := indexOf 0 rest in if i <? 0 then zlen rest else i) in
            if zlen rest <? nul + 21 then Throw malformed
            else
              name ← decodeTreeName (slice rest 0 nul);
              let oid := toHex (slice rest (nul + 1) (nul + 21)) in
              entries ← parseTree_loop fuel (slice_from rest (nul + 21));
              Ok (treeEntry mode name oid :: entries)
      end
  end.

Definition parseTree (data : list Z) : outcome (list TreeEntry) := parseTree_loop (S (length data)) data.

(** * The streaming parser *)

(** [ByteField]: its buffer and the length in use. *)
Record ByteField := byteField { fbytes : list Z; flength : Z; limit : option Z; label : list Z }.

Definition new_field (limit : option Z) (label : list Z) : ByteField :=
  byteField (replicate 64 0) 0 limit label.

Section parser.
  (** Whether the engine can allocate an array of that many bytes. *)
  Context (alloc : Z → bool).

Definition allocation_error (label : list Z) : jserror :=
  GitError (js "E2BIG") (js "tree " ++ label ++ js " allocation exceeds the platform limit").

(** The buffer of [field.push] with room for one more byte: doubled, up to the limit,
    when it is full. *)
Definition field_grow (field : ByteField) : outcome (list Z) :=
  if flength field =? zlen (fbytes field) then
    let next :=
      match limit field with
      | None => zlen (fbytes field) * 2
      | Some limit => Z.min (zlen (fbytes field) * 2) limit
      end in
    if negb (isSafeInteger next) || (next <=? zlen (fbytes field)) || negb (alloc next)
    then Throw (allocation_error (label field))
    else Ok (fbytes field ++ replicate (Z.to_nat (next - zlen (fbytes field))) 0)
  else Ok (fbytes field).

(** [field.push(byte)]. *)
Definition field_push (field : ByteField) (byte : Z) : outcome ByteField :=
  if (match limit field with Some limit => limit <=? flength field | None => false end)
  then Throw (CorruptError (js "tree " ++ label field ++ js " is too long"))
  else
    bytes ← field_grow field;
    Ok (byteField (<[Z.to_nat (flength field) := byte]> bytes) (flength field + 1) (limit field) (label field)).

Definition field_take (field : ByteField) : list Z * ByteField :=
  (slice (fbytes field) 0 (flength field), byteField (fbytes field) 0 (limit field) (label field)).

Definition field_dispose (field : ByteField) : ByteField := byteField [] 0 (limit field) (label field).

Inductive parser_state := InMode | InName | InOid.

Record TreeParser := treeParser {
  p_mode : ByteField;
  p_name : ByteField;
  p_oid : list Z;
  p_state : parser_state;
  p_modeText : list Z;
  p_nameBytes : list Z;
  p_oidAt : Z;
  p_entryCount : Z;
  p_observedSize : Z;
  p_finished : bool;
}.

Definition new_parser : TreeParser :=
  treeParser (new_field (Some 6) (js "mode")) (new_field None (js "entry name")) (replicate 20 0)
    InMode [] [] 0 0 0 false.

Definition parser_dispose (p : TreeParser) : TreeParser :=
  treeParser (field_dispose (p_mode p)) (field_dispose (p_name p)) [] (p_state p) [] []
    (p_oidAt p) (p_entryCount p) (p_observedSize p) (p_finished p).

(** One pass of the loop of [push]: what it yields and the next state. *)
Definition push_byte (p : TreeParser) (byte : Z) : outcome (option ParsedTreeEntry * TreeParser) :=
  let size := p_observedSize p + 1 in
  if negb (isSafeInteger size) then Throw (CorruptError (js "tree object size exceeds the safe integer range"))
  else
    match p_state p with
    | InMode =>
        if byte =? 0x20 then
          let '(taken, field) := field_take (p_mode p) in
          Ok (None, treeParser field (p_name p) (p_oid p) InName (decode_lossy taken) (p_nameBytes p)
                      (p_oidAt p) (p_entryCount p) size (p_finished p))
        else
          field ← field_push (p_mode p) byte;
          Ok (None, treeParser field (p_name p) (p_oid p) InMode (p_modeText p) (p_nameBytes p)
                      (p_oidAt p) (p_entryCount p) size (p_finished p))
    | InName =>
        if byte =? 0 then
          let '(taken, field) := field_take (p_name p) in
          Ok (None, treeParser (p_mode p) field (p_oid p) InOid (p_modeText p) taken
                      0 (p_entryCount p) size (p_finished p))
        else
          field ← field_push (p_name p) byte;
          Ok (None, treeParser (p_mode p) field (p_oid p) InName (p_modeText p) (p_nameBytes p)
                      (p_oidAt p) (p_entryCount p) size (p_finished p))
    | InOid =>
        let oid := <[Z.to_nat (p_oidAt p) := byte]> (p_oid p) in
        let oidAt := p_oidAt p + 1 in
        if oidAt =? zlen oid then
          name ← decodeTreeName (p_nameBytes p);
          Ok (Some (parsedTreeEntry (treeEntry (p_modeText p) name (toHex oid)) (p_nameBytes p)
                      (p_entryCount p) size),
              treeParser (p_mode p) (p_name p) oid InMode [] [] oidAt (p_entryCount p + 1) size (p_finished p))
        else
          Ok (None, treeParser (p_mode p) (p_name p) oid InOid (p_modeText p) (p_nameBytes p)
                      oidAt (p_entryCount p) size (p_finished p))
    end.

(** [push(chunk)] run to its end: what it yielded, whether it threw, the state. *)
Fixpoint push_bytes (p : TreeParser) (chunk : list Z) : list ParsedTreeEntry * outcome unit * TreeParser :=
  match chunk with
  | [] => ([], Ok tt, p)
  | byte :: chunk =>
      match push_byte p byte with
      | Throw e => ([], Throw e, parser_dispose p)
      | Ok (yielded, p) =>
          let '(entries, result, p) := push_bytes p chunk in
          (option_list yielded ++ entries, result, p)
      end
  end.

Definition push (p : TreeParser) (chunk : list Z) : list ParsedTreeEntry * outcome unit * TreeParser :=
  if p_finished p then ([], Throw (PlainError (js "tree parser is already finished")), p)
  else push_bytes p chunk.

Definition finish (p : TreeParser) : outcome TreeParseResult * TreeParser :=
  if p_finished p then (Throw (PlainError (js "tree parser is already finished")), p)
  else
    let result :=
      match p_state p with
      | InMode => if flength (p_mode p) =? 0 then Ok (treeParseResult (p_entryCount p) (p_observedSize p))
                  else Throw malformed
      | _ => Throw malformed
      end in
    (result, parser_dispose (treeParser (p_mode p) (p_name p) (p_oid p) (p_state p) (p_modeText p)
       (p_nameBytes p) (p_oidAt p) (p_entryCount p) (p_observedSize p) true)).

Fixpoint push_chunks (p : TreeParser) (chunks : list (list Z))
  : list ParsedTreeEntry * outcome unit * TreeParser :=
  match chunks with
  | [] => ([], Ok tt, p)
  | chunk :: chunks =>
      match push p chunk with
      | (entries, Ok _, p) =>
          let '(more, result, p) := push_chunks p chunks in (entries ++ more, result, p)
      | (entries, Throw e, p) => (entries, Throw e, p)
      end
  end.

(** [parseTreeStream(chunks)] run to its end: what it yielded and whether it threw. *)
Definition parseTreeStream (chunks : list (list Z)) : list ParsedTreeEntry * outcome unit :=
  let '(entries, result, p) := push_chunks new_parser chunks in
  match result with
  | Throw e => (entries, Throw e)
  | Ok _ => (entries, match fst (finish p) with Ok _ => Ok tt | Throw e => Throw e end)
  end.

End parser.

(** * Writing *)

Definition compareTreeEntries (a b : TreeEntry) : Z :=
  comparePaths (if isTreeMode (mode a) then name a ++ [0x2f] else name a)
               (if isTreeMode (mode b) then name b ++ [0x2f] else name b).

(** [mode.replace(/^0+/, "")]. *)
Fixpoint strip_zeros (mode : list Z) : list Z :=
  match mode with
  | u :: rest => if u =? 0x30 then strip_zeros rest else mode
  | [] => []
  end.

Definition serializeEntry (e : TreeEntry) : list (list Z) :=
  [encode (strip_zeros (mode e) ++ 0x20 :: name e ++ [0]);
   (λ i, toUint8 (parseInt16 (slice (oid e) (i * 2) (i * 2 + 2)))) <$> seqZ 0 20].

Definition serializeTree (entries : list TreeEntry) : outcome (list Z) :=
  concat (flat_map serializeEntry (sort_by compareTreeEntries entries)).

(** * The format *)

(** An entry as it stands in a tree object. *)
Record raw_entry := rawEntry { r_mode : list Z; r_name : list Z; r_oid : list Z }.

Definition raw_ok (r : raw_entry) : Prop := (0x20 ∉ r_mode r) ∧ (0 ∉ r_name r) ∧ zlen (r_oid r) = 20.
Definition raw_bytes (r : raw_entry) : list Z := r_mode r ++ 0x20 :: r_name r ++ 0 :: r_oid r.
Definition decode_raw (r : raw_entry) : outcome TreeEntry :=
  name ← decodeTreeName (r_name r);
  Ok (treeEntry (decode_lossy (r_mode r)) name (toHex (r_oid r))).

Fixpoint decode_raws (rs : list raw_entry) : outcome (list TreeEntry) :=
  match rs with
  | [] => Ok []
  | r :: rs => e ← decode_raw r; es ← decode_raws rs; Ok (e :: es)
  end.

(** * Facts *)

(** ** The whole-buffer parser *)

Lemma indexOf_split u s : (indexOf u s <? 0) = true ∧ (u ∉ s) ∨
  ∃ a b, s = a ++ u :: b ∧ (u ∉ a) ∧ indexOf u s = zlen a.
Proof.
  destruct (decide (u ∈ s)) as [Hin|Hin]; [right|left; by rewrite indexOf_none].
  apply list_elem_of_split_l in Hin as (a & b & -> & Ha). exists a, b. by rewrite indexOf_spec.
Qed.

Lemma parseTree_step fuel m n o tail :
  0x20 ∉ m → 0 ∉ n → zlen o = 20 →
  parseTree_loop (S fuel) (raw_bytes (rawEntry m n o) ++ tail) =
  (e ← decode_raw (rawEntry m n o); es ← parseTree_loop fuel tail; Ok (e :: es)).
Proof.
  intros Hm Hn Ho. unfold raw_bytes. simpl r_mode; simpl r_name; simpl r_oid.
  rewrite <- !app_assoc. simpl app. rewrite <- app_assoc. simpl app.
  cbn [parseTree_loop]. destruct (m ++ _) as [|x y] eqn:E; [by destruct m|]. rewrite <- E. clear E x y.
  rewrite indexOf_spec by done. pose proof (zlen_nonneg m). pose proof (zlen_nonneg n). zdec.
  rewrite slice_0_app. replace (zlen m + 1) with (zlen (m ++ [0x20])) by (by rewrite zlen_app).
  replace (m ++ 0x20 :: n ++ 0 :: o ++ tail) with ((m ++ [0x20]) ++ n ++ 0 :: o ++ tail)
    by (by rewrite <- app_assoc).
  rewrite slice_from_app, indexOf_spec by done. zdec.
  rewrite !zlen_app, zlen_cons, zlen_app. pose proof (zlen_nonneg tail). rewrite Ho. zdec.
  rewrite slice_0_app. unfold decode_raw. simpl r_mode; simpl r_name; simpl r_oid.
  destruct (decodeTreeName n) as [nm|e]; [|done]. cbn [mbind outcome_bind].
  replace (n ++ 0 :: o ++ tail) with ((n ++ [0]) ++ o ++ tail) by (by rewrite <- app_assoc).
  replace (zlen n + 1) with (zlen (n ++ [0])) by (by rewrite zlen_app).
  replace (zlen n + 21) with (zlen (n ++ [0]) + zlen o) by (rewrite zlen_app, Ho; change (zlen [0]) with 1; lia).
  rewrite slice_app_mid. rewrite app_assoc, <- zlen_app, slice_from_app. done.
Qed.

Lemma raw_bytes_length r : (1 <= length (raw_bytes r))%nat.
Proof. unfold raw_bytes. rewrite length_app. simpl. lia. Qed.

Lemma parseTree_loop_raws fuel rs :
  Forall raw_ok rs → (length rs < fuel)%nat → parseTree_loop fuel (flat_map raw_bytes rs) = decode_raws rs.
Proof.
  intros Hr. revert fuel. induction Hr as [|[m n o] rs (Hm & Hn & Ho) _ IH]; intros fuel Hf;
    (destruct fuel as [|fuel]; [simpl in Hf; lia|]); [done|].
  cbn [flat_map]. rewrite parseTree_step by done. simpl in Hf. rewrite IH by lia. done.
Qed.

Lemma length_raws rs : (length rs <= length (flat_map raw_bytes rs))%nat.
Proof.
  induction rs as [|r rs IH]; [done|]. cbn [flat_map]. rewrite length_app.
  pose proof (raw_bytes_length r). simpl. lia.
Qed.

Lemma parseTree_raws rs : Forall raw_ok rs → parseTree (flat_map raw_bytes rs) = decode_raws rs.
Proof. intros. apply parseTree_loop_raws; [done|]. pose proof (length_raws rs). lia. Qed.

(** Data that is not a sequence of entries is malformed after its longest readable
    prefix. *)
Lemma parseTree_loop_sound fuel data :
  (length data < fuel)%nat →
  match parseTree_loop fuel data with
  | Ok es => ∃ rs, Forall raw_ok rs ∧ data = flat_map raw_bytes rs ∧ decode_raws rs = Ok es
  | Throw e => e = malformed ∨ e = GitErr "EUNSUPPORTED" "tree names must be valid UTF-8"
  end.
Proof.
  revert data. induction fuel as [|fuel IH]; intros data Hf; [lia|].
  destruct (indexOf_split 0x20 data) as [[Hlt _]|(m & rest & -> & Hm & Hi)].
  { destruct data as [|b data]; [by exists []|]. cbn [parseTree_loop]. rewrite Hlt. auto. }
  assert (parseTree_loop (S fuel) (m ++ 0x20 :: rest) = parseTree_loop (S fuel) (m ++ 0x20 :: rest)) as Heq by done.
  destruct (indexOf_split 0 rest) as [[Hlt _]|(n & tail & -> & Hn & Hi')].
  - cbn [parseTree_loop]. destruct (m ++ _) as [|x y] eqn:E; [by destruct m|]. rewrite <- E in *. clear E x y.
    rewrite Hi. pose proof (zlen_nonneg m). zdec.
    replace (zlen m + 1) with (zlen (m ++ [0x20])) by (by rewrite zlen_app).
    replace (m ++ 0x20 :: rest) with ((m ++ [0x20]) ++ rest) by (by rewrite <- app_assoc).
    rewrite slice_from_app, Hlt. pose proof (zlen_nonneg rest). zdec. auto.
  - destruct (decide (20 <= length tail)%nat) as [Hlen|Hlen].
    + assert (m ++ 0x20 :: n ++ 0 :: tail = raw_bytes (rawEntry m n (take 20 tail)) ++ drop 20 tail) as ->.
      { unfold raw_bytes. simpl. rewrite <- !app_assoc. simpl. rewrite <- app_assoc. simpl. by rewrite take_drop. }
      rewrite parseTree_step; [|done|done|unfold zlen; rewrite length_take; lia].
      unfold decode_raw at 1, decodeTreeName. simpl.
      destruct (decode_fatal n) as [nm|] eqn:En; simpl; [|auto].
      specialize (IH (drop 20 tail)). rewrite length_drop in IH.
      assert (length tail - 20 < fuel)%nat as Hf' by (rewrite !length_app in Hf; simpl in Hf;
        rewrite !length_app in Hf; simpl in Hf; lia).
      specialize (IH Hf'). destruct (parseTree_loop fuel (drop 20 tail)) as [es|e]; simpl; [|done].
      destruct IH as (rs & Hrs & Hd & Hes). exists (rawEntry m n (take 20 tail) :: rs).
      split_and!; [|cbn [flat_map]; by rewrite Hd|].
      * constructor; [|done]. split_and!; [done|done|]. simpl. unfold zlen. rewrite length_take. lia.
      * cbn [decode_raws]. unfold decode_raw, decodeTreeName. simpl. rewrite En. simpl. by rewrite Hes.
    + clear Heq. cbn [parseTree_loop]. destruct (m ++ _) as [|x y] eqn:E; [by destruct m|]. rewrite <- E in *. clear E x y.
      rewrite Hi. pose proof (zlen_nonneg m). pose proof (zlen_nonneg n). zdec.
      replace (zlen m + 1) with (zlen (m ++ [0x20])) by (by rewrite zlen_app).
      replace (m ++ 0x20 :: n ++ 0 :: tail) with ((m ++ [0x20]) ++ n ++ 0 :: tail) by (by rewrite <- app_assoc).
      rewrite slice_from_app, Hi'. zdec. rewrite zlen_app, zlen_cons. unfold zlen in *. zdec. auto.
Qed.

(** ** The streaming parser *)

Section stream.
  Context (alloc : Z → bool).

(** A buffer that holds [content]. *)
Definition field_holds (f : ByteField) (content : list Z) : Prop :=
  flength f = zlen content ∧ zlen content <= zlen (fbytes f) ∧ 64 <= zlen (fbytes f) ∧
  take (length content) (fbytes f) = content.

Lemma field_take_spec f content :
  field_holds f content →
  fst (field_take f) = content ∧ field_holds (snd (field_take f)) [] ∧
  limit (snd (field_take f)) = limit f.
Proof.
  intros (Hl & Hle & Hb & Ht). unfold field_take, field_holds. simpl. split_and!; try done.
  - unfold slice. rewrite Hl, drop_0. unfold zlen. by rewrite Z.sub_0_r, Nat2Z.id.
  - change (zlen []) with 0. lia.
Qed.

Lemma store_next (buffer content : list Z) byte :
  (length content < length buffer)%nat → take (length content) buffer = content →
  take (length (content ++ [byte])) (<[length content := byte]> buffer) = content ++ [byte].
Proof.
  intros Hl Ht. rewrite length_app. simpl. rewrite Nat.add_1_r.
  rewrite take_S_r with (x := byte) by by apply list_lookup_insert_eq.
  by rewrite take_insert_ge, Ht by lia.
Qed.

(** A push within the limit stores the byte, growing the buffer as needed. *)
Lemma field_push_spec f content byte :
  field_holds f content →
  match limit f with
  | Some n => n <= 64
  | None => 2 * zlen content <= MAX_SAFE_INTEGER ∧ (∀ n, n <= 2 * zlen content → alloc n = true)
  end →
  match limit f with Some n => zlen content < n | None => True end →
  ∃ f', field_push alloc f byte = Ok f' ∧ field_holds f' (content ++ [byte]) ∧ limit f' = limit f.
Proof.
  intros (Hl & Hle & Hb & Ht) Hlim Hok. unfold field_push. rewrite Hl.
  assert ((match limit f with Some n => n <=? zlen content | None => false end) = false) as ->.
  { destruct (limit f); [|done]. by apply Z.leb_gt. }
  pose proof (zlen_nonneg content).
  assert (∃ buffer, field_grow alloc f = Ok buffer ∧ zlen content < zlen buffer ∧ 64 <= zlen buffer ∧
       take (length content) buffer = content) as (buffer & -> & Hb1 & Hb2 & Hb3).
  { unfold field_grow. rewrite Hl. destruct (zlen content =? zlen (fbytes f)) eqn:E; zbool.
    - destruct (limit f) as [n|]; [lia|]. destruct Hlim as [Hs Ha].
      rewrite safe_int, Ha by lia. cbn [negb orb].
      rewrite (proj2 (Z.leb_gt _ _)) by lia. cbn [orb negb]. eexists. split; [done|].
      rewrite zlen_app, zlen_replicate by lia.
      split_and!; [lia|lia|]. rewrite take_app_le by (unfold zlen in *; lia). done.
    - exists (fbytes f). split_and!; try done; lia. }
  cbn [mbind outcome_bind]. eexists. split; [done|]. simpl. unfold field_holds. simpl.
  replace (Z.to_nat (zlen content)) with (length content) by (unfold zlen; lia).
  assert (zlen (<[length content:=byte]> buffer) = zlen buffer) as Hlb by (unfold zlen; by rewrite length_insert).
  rewrite Hlb, zlen_app. change (zlen [byte]) with 1. split_and!; try done; try lia.
  apply store_next; [unfold zlen in *; lia|done].
Qed.

Lemma field_push_full f content byte n :
  field_holds f content → limit f = Some n → n <= zlen content → ∃ e, field_push alloc f byte = Throw e.
Proof.
  intros (Hl & _) Hlim Hn. unfold field_push. rewrite Hl, Hlim. rewrite (proj2 (Z.leb_le _ _)) by done. eauto.
Qed.

(** ** The phases *)

(** What the phases share: the idle field is empty, the oid buffer has its 20 bytes. *)
Definition parser_ok (p : TreeParser) (m n : list Z) (count size : Z) : Prop :=
  field_holds (p_mode p) m ∧ limit (p_mode p) = Some 6 ∧
  field_holds (p_name p) n ∧ limit (p_name p) = None ∧
  length (p_oid p) = 20%nat ∧ p_entryCount p = count ∧ p_observedSize p = size ∧ p_finished p = false.

Definition in_mode p m count size : Prop := p_state p = InMode ∧ parser_ok p m [] count size.
Definition in_name p m n count size : Prop :=
  p_state p = InName ∧ p_modeText p = decode_lossy m ∧ parser_ok p [] n count size.
Definition in_oid p m n o count size : Prop :=
  p_state p = InOid ∧ p_modeText p = decode_lossy m ∧ p_nameBytes p = n ∧ p_oidAt p = zlen o ∧
  take (length o) (p_oid p) = o ∧ parser_ok p [] [] count size.

  (** Arrays up to twice the size of the tree can be allocated, and sizes are exact. *)
  Context (N : Z) (HN : 2 * N < MAX_SAFE_INTEGER) (Halloc : ∀ n, n <= 2 * N → alloc n = true).

Lemma size_safe z : 0 <= z → z + 1 <= N → isSafeInteger (z + 1) = true.
Proof. intros. apply safe_int. pose proof (eq_refl : MAX_SAFE_INTEGER = 9007199254740991). lia. Qed.

Lemma mode_other p m c z b :
  in_mode p m c z → 0 <= z → z + 1 <= N → b ≠ 0x20 →
  if zlen m <? 6 then ∃ p', push_byte alloc p b = Ok (None, p') ∧ in_mode p' (m ++ [b]) c (z + 1)
  else ∃ e, push_byte alloc p b = Throw e.
Proof.
  intros [Hs Hok] Hz0 HzN Hb. destruct Hok as (Hm & Hlm & Hn & Hln & Ho & Hc & Hz & Hf).
  unfold push_byte. rewrite Hz, size_safe by done. cbn [negb]. rewrite Hs, (proj2 (Z.eqb_neq _ _)) by done.
  destruct (zlen m <? 6) eqn:E; zbool.
  - destruct (field_push_spec (p_mode p) m b Hm) as (f & -> & Hf' & Hl'); [rewrite Hlm; lia|by rewrite Hlm|].
    cbn [mbind outcome_bind]. eexists. split; [done|]. rewrite Hlm in Hl'. by split_and!.
  - destruct (field_push_full (p_mode p) m b 6 Hm Hlm E) as [e ->]. simpl. eauto.
Qed.

Lemma mode_space p m c z :
  in_mode p m c z → 0 <= z → z + 1 <= N →
  ∃ p', push_byte alloc p 0x20 = Ok (None, p') ∧ in_name p' m [] c (z + 1).
Proof.
  intros [Hs Hok] Hz0 HzN. destruct Hok as (Hm & Hlm & Hn & Hln & Ho & Hc & Hz & Hf).
  unfold push_byte. rewrite Hz, size_safe by done. cbn [negb]. rewrite Hs. simpl.
  destruct (field_take_spec _ _ Hm) as (Ht & Hh & Hl). unfold field_take in *. simpl in *.
  eexists. split; [done|]. rewrite Hlm. by split_and!; simpl; try rewrite Ht.
Qed.

Lemma name_other p m n c z b :
  in_name p m n c z → 0 <= z → z + 1 <= N → zlen n <= N → b ≠ 0 →
  ∃ p', push_byte alloc p b = Ok (None, p') ∧ in_name p' m (n ++ [b]) c (z + 1).
Proof.
  intros (Hs & Ht & Hok) Hz0 HzN Hsz Hb. destruct Hok as (Hm & Hlm & Hn & Hln & Ho & Hc & Hz & Hf).
  unfold push_byte. rewrite Hz, size_safe by done. cbn [negb]. rewrite Hs, (proj2 (Z.eqb_neq _ _)) by done.
  destruct (field_push_spec (p_name p) n b Hn) as (f & -> & Hf' & Hl').
  { rewrite Hln. split; [lia|]. intros. apply Halloc. lia. }
  { by rewrite Hln. }
  cbn [mbind outcome_bind]. eexists. split; [done|]. rewrite Hln in Hl'. by split_and!.
Qed.

Lemma name_nul p m n c z :
  in_name p m n c z → 0 <= z → z + 1 <= N →
  ∃ p', push_byte alloc p 0 = Ok (None, p') ∧ in_oid p' m n [] c (z + 1).
Proof.
  intros (Hs & Ht & Hok) Hz0 HzN. destruct Hok as (Hm & Hlm & Hn & Hln & Ho & Hc & Hz & Hf).
  unfold push_byte. rewrite Hz, size_safe by done. cbn [negb]. rewrite Hs. simpl.
  destruct (field_take_spec _ _ Hn) as (Ht' & Hh & Hl). unfold field_take in *. simpl in *.
  eexists. split; [done|]. rewrite Hln. split_and!; simpl; try done.
Qed.

Lemma oid_byte p m n o c z b :
  in_oid p m n o c z → 0 <= z → z + 1 <= N → (length o < 20)%nat →
  if decide (length o = 19%nat) then
    match decodeTreeName n with
    | Throw e => push_byte alloc p b = Throw e
    | Ok name => ∃ p', push_byte alloc p b =
        Ok (Some (parsedTreeEntry (treeEntry (decode_lossy m) name (toHex (o ++ [b]))) n c (z + 1)), p') ∧
        in_mode p' [] (c + 1) (z + 1)
    end
  else ∃ p', push_byte alloc p b = Ok (None, p') ∧ in_oid p' m n (o ++ [b]) c (z + 1).
Proof.
  intros (Hs & Ht & Hnb & Hat & Hto & Hok) Hz0 HzN Hlen. destruct Hok as (Hm & Hlm & Hn & Hln & Ho & Hc & Hz & Hf).
  unfold push_byte. rewrite Hz, size_safe by done. cbn [negb]. rewrite Hs, Hat. cbv zeta.
  replace (Z.to_nat (zlen o)) with (length o) by (unfold zlen; lia).
  assert (zlen (<[length o:=b]> (p_oid p)) = 20) as Hlo by (unfold zlen; rewrite length_insert, Ho; done).
  assert (take (length (o ++ [b])) (<[length o:=b]> (p_oid p)) = o ++ [b]) as Hst by (apply store_next; [lia|done]).
  rewrite Hlo. case_decide as E.
  - rewrite (proj2 (Z.eqb_eq _ _)) by (unfold zlen; lia). rewrite Hnb.
    destruct (decodeTreeName n) as [name|e]; cbn [mbind outcome_bind]; [|done].
    eexists. split.
    + rewrite Ht, Hc. do 4 f_equal. rewrite <- Hst. symmetry. rewrite take_ge; [done|].
      rewrite length_app. unfold zlen in Hlo. simpl. lia.
    + unfold in_mode, parser_ok. simpl. rewrite ?Hc. unfold zlen in Hlo. split_and!; try done. lia.
  - rewrite (proj2 (Z.eqb_neq _ _)) by (unfold zlen; lia). eexists. split; [done|].
    unfold in_oid, parser_ok. simpl. rewrite zlen_app. unfold zlen in Hlo. split_and!; try done; lia.
Qed.

(** ** Runs of bytes *)

Lemma push_bytes_app p a b :
  push_bytes alloc p (a ++ b) =
  match push_bytes alloc p a with
  | (es, Ok _, p') => let '(es', r, p'') := push_bytes alloc p' b in (es ++ es', r, p'')
  | (es, Throw e, p') => (es, Throw e, p')
  end.
Proof.
  revert p. induction a as [|x a IH]; intros p; cbn [app push_bytes].
  - by destruct (push_bytes alloc p b) as [[? []] ?].
  - destruct (push_byte alloc p x) as [[y p1]|e]; [|done]. rewrite IH.
    destruct (push_bytes alloc p1 a) as [[es [u|e]] p2]; [|done].
    destruct (push_bytes alloc p2 b) as [[es' r] p3]. by rewrite app_assoc.
Qed.

Lemma push_bytes_cons p b bs :
  push_bytes alloc p (b :: bs) =
  match push_byte alloc p b with
  | Throw e => ([], Throw e, parser_dispose p)
  | Ok (y, p') => let '(es, r, p'') := push_bytes alloc p' bs in (option_list y ++ es, r, p'')
  end.
Proof. done. Qed.

Lemma feed_mode bs p m c z :
  in_mode p m c z → 0 <= z → z + zlen bs <= N → 0x20 ∉ bs → zlen m <= 6 →
  if zlen (m ++ bs) <=? 6
  then ∃ p', push_bytes alloc p bs = ([], Ok tt, p') ∧ in_mode p' (m ++ bs) c (z + zlen bs)
  else ∃ e p', push_bytes alloc p bs = ([], Throw e, p').
Proof.
  revert p m z. induction bs as [|b bs IH]; intros p m z Hp Hz HzN Hsp Hm.
  { rewrite app_nil_r, (proj2 (Z.leb_le _ _)) by done. exists p. split; [done|].
    change (zlen []) with 0. by rewrite Z.add_0_r. }
  apply not_elem_of_cons in Hsp as [Hb Hbs]. rewrite zlen_cons in HzN. pose proof (zlen_nonneg bs).
  pose proof (mode_other p m c z b Hp Hz ltac:(lia) ltac:(done)) as Hstep. rewrite push_bytes_cons.
  destruct (zlen m <? 6) eqn:E; zbool.
  - destruct Hstep as (p1 & -> & Hp1). specialize (IH p1 (m ++ [b]) (z + 1) Hp1).
    rewrite <- app_assoc in IH. simpl app in IH. rewrite zlen_app in IH. change (zlen [b]) with 1 in IH.
    specialize (IH ltac:(lia) ltac:(lia) Hbs ltac:(lia)). destruct (zlen (m ++ b :: bs) <=? 6).
    + destruct IH as (p2 & -> & Hp2). eexists. split; [done|]. rewrite zlen_cons.
      by replace (z + (1 + zlen bs)) with (z + 1 + zlen bs) by lia.
    + destruct IH as (e & p2 & ->). eauto.
  - destruct Hstep as (e & ->). rewrite zlen_app, zlen_cons, (proj2 (Z.leb_gt _ _)) by lia. eauto.
Qed.

Lemma feed_name bs p m n c z :
  in_name p m n c z → 0 <= z → z + zlen bs <= N → zlen n <= z → 0 ∉ bs →
  ∃ p', push_bytes alloc p bs = ([], Ok tt, p') ∧ in_name p' m (n ++ bs) c (z + zlen bs).
Proof.
  revert p n z. induction bs as [|b bs IH]; intros p n z Hp Hz HzN Hn Hsp.
  { exists p. split; [done|]. change (zlen []) with 0. by rewrite app_nil_r, Z.add_0_r. }
  apply not_elem_of_cons in Hsp as [Hb Hbs]. rewrite zlen_cons in *. pose proof (zlen_nonneg bs).
  destruct (name_other p m n c z b Hp) as (p1 & Hp1 & Hin); [lia..|done|]. rewrite push_bytes_cons, Hp1.
  destruct (IH p1 (n ++ [b]) (z + 1) Hin) as (p2 & -> & Hp2); [lia|lia|rewrite zlen_app; change (zlen [b]) with 1; lia|done|].
  eexists. split; [done|]. rewrite <- app_assoc in Hp2.
  by replace (z + (1 + zlen bs)) with (z + 1 + zlen bs) by lia.
Qed.

Lemma feed_oid bs p m n o c z :
  in_oid p m n o c z → 0 <= z → z + zlen bs <= N → (length o + length bs < 20)%nat →
  ∃ p', push_bytes alloc p bs = ([], Ok tt, p') ∧ in_oid p' m n (o ++ bs) c (z + zlen bs).
Proof.
  revert p o z. induction bs as [|b bs IH]; intros p o z Hp Hz HzN Hlen.
  { exists p. split; [done|]. change (zlen []) with 0. by rewrite app_nil_r, Z.add_0_r. }
  rewrite zlen_cons in *. pose proof (zlen_nonneg bs). simpl in Hlen.
  pose proof (oid_byte p m n o c z b Hp Hz ltac:(lia) ltac:(lia)) as Hstep.
  rewrite decide_False in Hstep by lia. destruct Hstep as (p1 & Hp1 & Hin). rewrite push_bytes_cons, Hp1.
  destruct (IH p1 (o ++ [b]) (z + 1) Hin) as (p2 & -> & Hp2); [lia|lia|rewrite length_app; simpl; lia|].
  eexists. split; [done|]. rewrite <- app_assoc in Hp2.
  by replace (z + (1 + zlen bs)) with (z + 1 + zlen bs) by lia.
Qed.

(** One whole entry. *)
Lemma feed_entry r p c z :
  in_mode p [] c z → 0 <= z → z + zlen (raw_bytes r) <= N → raw_ok r → zlen (r_mode r) <= 6 →
  match decode_raw r with
  | Throw e => ∃ p', push_bytes alloc p (raw_bytes r) = ([], Throw e, p')
  | Ok e => ∃ p', push_bytes alloc p (raw_bytes r) =
      ([parsedTreeEntry e (r_name r) c (z + zlen (raw_bytes r))], Ok tt, p') ∧
      in_mode p' [] (c + 1) (z + zlen (raw_bytes r))
  end.
Proof.
  destruct r as [m n o]. unfold raw_ok, raw_bytes, decode_raw. simpl. intros Hp Hz HzN (Hm & Hn & Ho) Hlm.
  rewrite zlen_app, zlen_cons, zlen_app, zlen_cons in *. pose proof (zlen_nonneg m). pose proof (zlen_nonneg n).
  rewrite push_bytes_app. pose proof (feed_mode m p [] c z Hp Hz ltac:(lia) Hm ltac:(done)) as Hfm.
  simpl app in Hfm. rewrite (proj2 (Z.leb_le _ _)) in Hfm by done. destruct Hfm as (p1 & -> & Hp1).
  rewrite push_bytes_cons. destruct (mode_space p1 m c (z + zlen m) Hp1) as (p2 & -> & Hp2); [lia..|].
  rewrite push_bytes_app. destruct (feed_name n p2 m [] c (z + zlen m + 1) Hp2) as (p3 & -> & Hp3);
    [lia|lia|change (zlen []) with 0; lia|done|].
  rewrite push_bytes_cons. destruct (name_nul p3 m n c (z + zlen m + 1 + zlen n) Hp3) as (p4 & -> & Hp4); [lia..|].
  destruct o as [|b o _] using rev_ind; [done|]. rewrite zlen_app in Ho, HzN |- *. change (zlen [b]) with 1 in *.
  rewrite push_bytes_app.
  destruct (feed_oid o p4 m n [] c (z + zlen m + 1 + zlen n + 1) Hp4) as (p5 & -> & Hp5);
    [lia|lia|unfold zlen in *; simpl; lia|]. simpl app in Hp5.
  rewrite push_bytes_cons. pose proof (oid_byte p5 m n o c _ b Hp5 ltac:(lia) ltac:(lia) ltac:(unfold zlen in *; lia)) as Hlast.
  rewrite decide_True in Hlast by (unfold zlen in *; lia).
  replace (z + zlen m + 1 + zlen n + 1 + zlen o + 1) with (z + (zlen m + (1 + (zlen n + (1 + (zlen o + 1)))))) in Hlast by lia.
  destruct (decodeTreeName n) as [name|e]; cbn [mbind outcome_bind].
  - destruct Hlast as (p6 & -> & Hp6). cbn. eauto.
  - rewrite Hlast. cbn. eauto.
Qed.

(** ** Whole streams *)

Definition stream_result (r : list ParsedTreeEntry * outcome unit * TreeParser)
  : list ParsedTreeEntry * outcome unit :=
  match r with
  | (es, Throw e, _) => (es, Throw e)
  | (es, Ok _, p) => (es, match fst (finish p) with Ok _ => Ok tt | Throw e => Throw e end)
  end.

Lemma push_byte_finished p b y p' : push_byte alloc p b = Ok (y, p') → p_finished p' = p_finished p.
Proof.
  unfold push_byte. destruct (negb _); [done|]. destruct (p_state p).
  - destruct (b =? 0x20); [by intros [= <- <-]|]. destruct (field_push alloc (p_mode p) b); [|done]. by intros [= <- <-].
  - destruct (b =? 0); [by intros [= <- <-]|]. destruct (field_push alloc (p_name p) b); [|done]. by intros [= <- <-].
  - cbv zeta. destruct (_ =? _); [|by intros [= <- <-]].
    destruct (decodeTreeName (p_nameBytes p)); [|done]. by intros [= <- <-].
Qed.

Lemma push_bytes_finished p bs es p' : push_bytes alloc p bs = (es, Ok tt, p') → p_finished p' = p_finished p.
Proof.
  revert p es. induction bs as [|b bs IH]; intros p es; cbn [push_bytes]; [by intros [= <- <-]|].
  destruct (push_byte alloc p b) as [[y p1]|e] eqn:E; [|done]. apply push_byte_finished in E as <-.
  destruct (push_bytes alloc p1 bs) as [[es1 r] p2] eqn:E1. intros [= <- -> <-]. by apply (IH p1 es1).
Qed.

(** Chunk boundaries do not matter. *)
Lemma push_chunks_concat p chunks :
  p_finished p = false → push_chunks alloc p chunks = push_bytes alloc p (mjoin chunks).
Proof.
  revert p. induction chunks as [|chunk chunks IH]; intros p Hp; [done|]. cbn [push_chunks].
  change (mjoin (chunk :: chunks)) with (chunk ++ mjoin chunks). rewrite push_bytes_app.
  unfold push. rewrite Hp. destruct (push_bytes alloc p chunk) as [[es [[]|e]] p1] eqn:E; [|done].
  apply push_bytes_finished in E. rewrite IH by congruence. done.
Qed.

Lemma parseTreeStream_bytes chunks :
  parseTreeStream alloc chunks = stream_result (push_bytes alloc new_parser (mjoin chunks)).
Proof.
  unfold parseTreeStream. rewrite push_chunks_concat by done.
  by destruct (push_bytes alloc new_parser (mjoin chunks)) as [[es [u|e]] p].
Qed.

(** The entries with their name bytes, ordinals and end positions. *)
Fixpoint numbered (rs : list raw_entry) (es : list TreeEntry) (c z : Z) : list ParsedTreeEntry :=
  match rs, es with
  | r :: rs, e :: es =>
      parsedTreeEntry e (r_name r) c (z + zlen (raw_bytes r)) ::
      numbered rs es (c + 1) (z + zlen (raw_bytes r))
  | _, _ => []
  end.

Definition short_mode (r : raw_entry) : Prop := zlen (r_mode r) <= 6.

Lemma stream_complete rs es p c z :
  in_mode p [] c z → 0 <= z → z + zlen (flat_map raw_bytes rs) <= N →
  Forall raw_ok rs → Forall short_mode rs → decode_raws rs = Ok es →
  stream_result (push_bytes alloc p (flat_map raw_bytes rs)) = (numbered rs es c z, Ok tt).
Proof.
  intros Hp Hz HzN Hr. revert p c z es Hp Hz HzN. induction Hr as [|r rs Hr Hrs IH]; intros p c z es Hp Hz HzN Hs Hd.
  - injection Hd as <-. simpl. destruct Hp as [Hst (Hm & _ & _ & _ & _ & _ & _ & Hf)].
    unfold finish. rewrite Hf, Hst. destruct Hm as [-> _]. done.
  - apply Forall_cons in Hs as [Hs1 Hs]. cbn [flat_map] in *. rewrite zlen_app in HzN.
    pose proof (zlen_nonneg (flat_map raw_bytes rs)). pose proof (zlen_nonneg (raw_bytes r)).
    rewrite push_bytes_app. pose proof (feed_entry r p c z Hp Hz ltac:(lia) Hr Hs1) as Hfe.
    cbn [decode_raws] in Hd. destruct (decode_raw r) as [e|x]; [|done]. cbn [mbind outcome_bind] in Hd.
    destruct (decode_raws rs) as [es'|x] eqn:Ed; [|done]. cbn [mbind outcome_bind] in Hd. injection Hd as <-.
    destruct Hfe as (p1 & -> & Hp1).
    specialize (IH p1 (c + 1) (z + zlen (raw_bytes r)) es' Hp1 ltac:(lia) ltac:(lia) Hs eq_refl).
    destruct (push_bytes alloc p1 (flat_map raw_bytes rs)) as [[es1 [u|x]] p2]; simpl in *; by injection IH as <- ->.
Qed.

Lemma finish_name p m n c z : in_name p m n c z → fst (finish p) = Throw malformed.
Proof. intros (Hs & _ & (_ & _ & _ & _ & _ & _ & _ & Hf)). unfold finish. by rewrite Hf, Hs. Qed.

Lemma finish_oid p m n o c z : in_oid p m n o c z → fst (finish p) = Throw malformed.
Proof. intros (Hs & _ & _ & _ & _ & (_ & _ & _ & _ & _ & _ & _ & Hf)). unfold finish. by rewrite Hf, Hs. Qed.

Lemma finish_mode p m c z : in_mode p m c z → m ≠ [] → fst (finish p) = Throw malformed.
Proof.
  intros [Hs ((Hm & _) & _ & _ & _ & _ & _ & _ & Hf)] Hne. unfold finish. rewrite Hf, Hs, Hm.
  destruct m; [done|]. rewrite zlen_cons. pose proof (zlen_nonneg m). by rewrite (proj2 (Z.eqb_neq _ _)) by lia.
Qed.

(** What is left of the data after the mode and after the name. *)
Lemma stream_incomplete p c z m rest :
  in_mode p [] c z → 0 <= z → z + zlen (m ++ 0x20 :: rest) <= N → 0x20 ∉ m →
  snd (stream_result (push_bytes alloc p (m ++ 0x20 :: rest))) = Ok tt →
  zlen m <= 6 ∧ ∃ n o tail, rest = n ++ 0 :: o ++ tail ∧ (0 ∉ n) ∧ zlen o = 20.
Proof.
  intros Hp Hz HzN Hm Hok. rewrite zlen_app, zlen_cons in HzN. pose proof (zlen_nonneg m). pose proof (zlen_nonneg rest).
  rewrite push_bytes_app in Hok. pose proof (feed_mode m p [] c z Hp Hz ltac:(lia) Hm ltac:(done)) as Hfm.
  simpl app in Hfm. destruct (zlen m <=? 6) eqn:E6; zbool; [|destruct Hfm as (e & p1 & Hfm); by rewrite Hfm in Hok].
  split; [done|]. destruct Hfm as (p1 & Hfm & Hp1). rewrite Hfm, push_bytes_cons in Hok.
  destruct (mode_space p1 m c _ Hp1) as (p2 & Hsp & Hp2); [lia..|]. rewrite Hsp in Hok. cbn [option_list app] in Hok.
  destruct (indexOf_split 0 rest) as [[_ Hno]|(n & tail & -> & Hn & _)].
  - destruct (feed_name rest p2 m [] c _ Hp2) as (p3 & Hfn & Hp3); [lia|lia|change (zlen []) with 0; lia|done|].
    rewrite Hfn in Hok. simpl in Hok. by rewrite (finish_name _ _ _ _ _ Hp3) in Hok.
  - rewrite zlen_app, zlen_cons in *. pose proof (zlen_nonneg n). pose proof (zlen_nonneg tail).
    destruct (decide (20 <= length tail)%nat) as [Hlen|Hlen].
    { exists n, (take 20 tail), (drop 20 tail). rewrite take_drop. split_and!; try done.
      unfold zlen. rewrite length_take. lia. }
    rewrite push_bytes_app in Hok.
    destruct (feed_name n p2 m [] c _ Hp2) as (p3 & Hfn & Hp3); [lia|lia|change (zlen []) with 0; lia|done|].
    rewrite Hfn, push_bytes_cons in Hok.
    destruct (name_nul p3 m n c _ Hp3) as (p4 & Hnu & Hp4); [lia..|]. rewrite Hnu in Hok.
    destruct (feed_oid tail p4 m n [] c _ Hp4) as (p5 & Hfo & Hp5); [lia|lia|simpl; lia|].
    rewrite Hfo in Hok. simpl in Hok. by rewrite (finish_oid _ _ _ _ _ _ Hp5) in Hok.
Qed.

Lemma stream_sound data p c z :
  in_mode p [] c z → 0 <= z → z + zlen data <= N →
  snd (stream_result (push_bytes alloc p data)) = Ok tt →
  ∃ rs es, Forall raw_ok rs ∧ Forall short_mode rs ∧ data = flat_map raw_bytes rs ∧ decode_raws rs = Ok es.
Proof.
  remember (length data) as k eqn:Hk. revert data p c z Hk.
  induction k as [k IH] using (well_founded_induction Nat.lt_wf_0). intros data p c z -> Hp Hz HzN Hok.
  destruct (indexOf_split 0x20 data) as [[_ Hno]|(m & rest & -> & Hm & _)].
  - destruct data as [|b data]; [by exists [], []|]. exfalso.
    pose proof (feed_mode (b :: data) p [] c z Hp Hz HzN Hno ltac:(done)) as Hfm. simpl app in Hfm.
    destruct (zlen (b :: data) <=? 6).
    + destruct Hfm as (p1 & Hfm & Hp1). rewrite Hfm in Hok. simpl in Hok. by rewrite (finish_mode _ _ _ _ Hp1) in Hok.
    + destruct Hfm as (e & p1 & Hfm). by rewrite Hfm in Hok.
  - destruct (stream_incomplete p c z m rest Hp Hz HzN Hm Hok) as (Hm6 & n & o & tail & -> & Hn & Ho).
    set (r := rawEntry m n o).
    assert (m ++ 0x20 :: n ++ 0 :: o ++ tail = raw_bytes r ++ tail) as E.
    { unfold raw_bytes. simpl. rewrite <- !app_assoc. simpl. by rewrite <- app_assoc. }
    rewrite E in *. rewrite zlen_app in HzN. pose proof (zlen_nonneg tail). pose proof (zlen_nonneg (raw_bytes r)).
    pose proof (feed_entry r p c z Hp Hz ltac:(lia) ltac:(done) Hm6) as Hfe.
    rewrite push_bytes_app in Hok. destruct (decode_raw r) as [e|x] eqn:Ed.
    + destruct Hfe as (p1 & Hfe & Hp1). rewrite Hfe in Hok.
      destruct (IH (length tail)) with (data := tail) (p := p1) (c := c + 1) (z := z + zlen (raw_bytes r))
        as (rs & es & Hrs & Hss & -> & Hd); try done; try lia.
      * rewrite length_app. pose proof (raw_bytes_length r). lia.
      * destruct (push_bytes alloc p1 tail) as [[es1 [u|x]] p2]; done.
      * exists (r :: rs), (e :: es). split_and!; [by constructor|by constructor|done|].
        cbn [decode_raws]. rewrite Ed. simpl. by rewrite Hd.
    + destruct Hfe as (p1 & Hfe). by rewrite Hfe in Hok.
Qed.

Lemma new_in_mode : in_mode new_parser [] 0 0.
Proof. repeat split; done. Qed.

End stream.

(** ** Writing *)

(** What a tree can hold: an ASCII mode without a space, a name that UTF-8 carries
    without NUL and without a leading byte order mark, an object name. *)
Definition entry_ok (e : TreeEntry) : Prop :=
  ascii (mode e) ∧ (0x20 ∉ mode e) ∧ wf_key (name e) ∧ (0 ∉ name e) ∧
  head (name e) ≠ Some 0xfeff ∧ isOid (oid e) = true.

(** The entry as a tree shows it: without leading zeros in its mode. *)
Definition stripped (e : TreeEntry) : TreeEntry := treeEntry (strip_zeros (mode e)) (name e) (oid e).

Definition raw_of (e : TreeEntry) : raw_entry :=
  rawEntry (strip_zeros (mode e)) (encode (name e)) (fromHex (oid e)).

Lemma strip_zeros_suffix m : ∃ k, m = k ++ strip_zeros m.
Proof.
  induction m as [|u m [k IH]]; [by exists []|]. simpl. destruct (u =? 0x30); [|by exists []].
  exists (u :: k). simpl. by rewrite <- IH.
Qed.

Lemma strip_zeros_ok e : entry_ok e → ascii (strip_zeros (mode e)) ∧ 0x20 ∉ strip_zeros (mode e).
Proof.
  intros (Ha & Hs & _). destruct (strip_zeros_suffix (mode e)) as [k Hk]. rewrite Hk in Ha, Hs.
  apply Forall_app in Ha as [_ ?]. apply not_elem_of_app in Hs as [_ ?]. done.
Qed.

Lemma serializeEntry_raw e : entry_ok e → mjoin (serializeEntry e) = raw_bytes (raw_of e).
Proof.
  intros He. destruct (strip_zeros_ok e He) as [Hma Hms]. destruct He as (_ & _ & [Hu Hw] & Hn & _ & Ho).
  unfold serializeEntry, raw_of, raw_bytes.
  assert (((λ i, toUint8 (parseInt16 (slice (oid e) (i * 2) (i * 2 + 2)))) <$> seqZ 0 20) = fromHex (oid e)) as ->.
  { unfold fromHex. unfold isOid in Ho. apply andb_prop in Ho as [Hl _]. zbool. by rewrite Hl. }
  simpl. rewrite app_nil_r.
  replace (strip_zeros (mode e) ++ 0x20 :: name e ++ [0]) with ((strip_zeros (mode e) ++ [0x20]) ++ name e ++ [0])
    by (by rewrite <- app_assoc).
  rewrite encode_ascii_app by (apply Forall_app; split; [done|]; apply Forall_singleton; lia).
  rewrite encode_app by done. change (encode [0]) with [0]. by rewrite <- !app_assoc.
Qed.

Lemma raw_of_ok e : entry_ok e → raw_ok (raw_of e) ∧ decode_raw (raw_of e) = Ok (stripped e).
Proof.
  intros He. destruct (strip_zeros_ok e He) as [Hma Hms]. destruct He as (_ & _ & [Hu Hw] & Hn & Hb & Ho).
  destruct (fromHex_isOid _ Ho) as [Hl Hh]. split.
  - split_and!; simpl; [done|apply encode_not_in; [lia|done..]|done].
  - unfold decode_raw, decodeTreeName, raw_of. simpl. rewrite decode_fatal_encode by done. simpl.
    by rewrite decode_lossy_ascii, Hh.
Qed.

Lemma serializeTree_raws es :
  Forall entry_ok es → serializeTree es = Ok (flat_map raw_bytes (raw_of <$> sort_by compareTreeEntries es)).
Proof.
  intros Hes. unfold serializeTree. rewrite concat_spec. f_equal.
  rewrite <- (sort_by_perm compareTreeEntries) in Hes.
  induction Hes as [|e l He _ IH]; [done|]. cbn [flat_map fmap list_fmap].
  rewrite mjoin_app, serializeEntry_raw, IH by done. done.
Qed.

Lemma decode_raw_of es : Forall entry_ok es → decode_raws (raw_of <$> es) = Ok (stripped <$> es).
Proof.
  induction 1 as [|e es He _ IH]; [done|]. cbn [fmap list_fmap decode_raws].
  destruct (raw_of_ok e He) as [_ ->]. cbn [mbind outcome_bind]. change (list_fmap _ _ raw_of es) with (raw_of <$> es).
  by rewrite IH.
Qed.

Lemma tree_key_units e : wf_key (name e) → units (if isTreeMode (mode e) then name e ++ [0x2f] else name e).
Proof.
  intros [Hu _]. case_match; [|done]. apply Forall_app. split; [done|]. apply Forall_singleton.
  unfold unit_ok. lia.
Qed.

(** Git's order of a tree: by the bytes of the name, a directory's name read with a slash
    behind it. *)
Definition directory (e : TreeEntry) : Prop := mode e = js "40000" ∨ mode e = js "040000".
#[export] Instance directory_dec e : Decision (directory e).
Proof. unfold directory. apply _. Defined.

Definition git_key (e : TreeEntry) : list Z := encode (name e) ++ (if decide (directory e) then [0x2f] else []).
Definition git_le (a b : TreeEntry) : Prop := lex_compare (git_key a) (git_key b) <= 0.

Lemma compareTreeEntries_key a b : wf_key (name a) → wf_key (name b) →
  compareTreeEntries a b = lex_compare (git_key a) (git_key b).
Proof.
  intros Ha Hb. unfold compareTreeEntries. rewrite comparePaths_encode by by apply tree_key_units.
  assert (∀ e, wf_key (name e) → encode (if isTreeMode (mode e) then name e ++ [0x2f] else name e) = git_key e) as Hkey; [|by rewrite !Hkey].
  intros e [_ Hw]. unfold git_key, isTreeMode, str_eqb, directory. case_decide as Hd.
  - assert (bool_decide (mode e = js "40000") || bool_decide (mode e = js "040000") = true) as ->; [|by rewrite encode_app].
    apply orb_true_iff. rewrite !bool_decide_eq_true. exact Hd.
  - assert (bool_decide (mode e = js "40000") || bool_decide (mode e = js "040000") = false) as ->; [|by rewrite app_nil_r].
    apply orb_false_iff. rewrite !bool_decide_eq_false. tauto.
Qed.

Lemma compareTreeEntries_orders : orders compareTreeEntries (λ e, wf_key (name e)).
Proof.
  split.
  - intros x y Hx Hy. apply comparePaths_opp; by apply tree_key_units.
  - intros x y z Hx Hy Hz. apply path_le_trans; by apply tree_key_units.
Qed.

Definition ascii_b (s : list Z) : bool := forallb (λ u, (0 <=? u) && (u <? 128)) s.

Lemma ascii_by_compute s : ascii_b s = true → ascii s.
Proof.
  unfold ascii_b. rewrite forallb_forall. intros H. apply Forall_forall. intros u Hu.
  apply list_elem_of_In, H in Hu. zbool. lia.
Qed.

Definition entry_ok_b (e : TreeEntry) : bool :=
  ascii_b (mode e) && negb (bool_decide (0x20 ∈ mode e)) && (units_b (name e) && isWellFormed (name e)) &&
  negb (bool_decide (0 ∈ name e)) && negb (bool_decide (head (name e) = Some 0xfeff)) && isOid (oid e).

Lemma entries_ok_by_compute es : forallb entry_ok_b es = true → Forall entry_ok es.
Proof.
  rewrite forallb_forall. intros H. apply Forall_forall. intros e He. apply list_elem_of_In, H in He.
  unfold entry_ok_b in He. rewrite !andb_true_iff, !negb_true_iff, !bool_decide_eq_false in He.
  destruct He as [[[[[? ?] [? ?]] ?] ?] ?].
  split_and!; [by apply ascii_by_compute|done|split; [by apply units_by_compute|done]|done..].
Qed.

(** * Properties *)

(** C31: [parseTree] accepts exactly the concatenations of entries (a mode without a
    space, a space, a name without NUL, NUL, twenty bytes) whose names are valid UTF-8,
    and returns those entries in order; it always ends, and everything else is one of
    its two errors. *)
Theorem parseTree_exact data :
  (∀ es, parseTree data = Ok es ↔
     ∃ rs, Forall raw_ok rs ∧ data = flat_map raw_bytes rs ∧ decode_raws rs = Ok es) ∧
  (∀ e, parseTree data = Throw e →
     e = malformed ∨ e = GitErr "EUNSUPPORTED" "tree names must be valid UTF-8").
Proof.
  pose proof (parseTree_loop_sound (S (length data)) data ltac:(lia)) as Hs. fold (parseTree data) in Hs.
  split.
  - intros es. split.
    + intros E. by rewrite E in Hs.
    + intros (rs & Hrs & -> & Hd). by rewrite parseTree_raws.
  - intros e E. by rewrite E in Hs.
Qed.

(** C9: The streaming parser finishes without an error exactly on the trees whose modes
    take at most six bytes and whose names decode, however the bytes are cut into
    chunks; it then yields the entries of [parseTree], numbered from 0, each with its
    raw name and the position after it.  ([parseTree] has no bound on a mode: it accepts
    trees with longer ones, and there the two differ.)  (Arrays of twice the tree's size can be
    allocated, and sizes are exact.) *)
Theorem parseTreeStream_correct alloc chunks :
  2 * zlen (mjoin chunks) < MAX_SAFE_INTEGER →
  (∀ n, n <= 2 * zlen (mjoin chunks) → alloc n = true) →
  ∀ ps, parseTreeStream alloc chunks = (ps, Ok tt) ↔
    ∃ rs es, Forall raw_ok rs ∧ Forall short_mode rs ∧ mjoin chunks = flat_map raw_bytes rs ∧
      decode_raws rs = Ok es ∧ parseTree (mjoin chunks) = Ok es ∧ ps = numbered rs es 0 0.
Proof.
  intros HN Ha ps. rewrite parseTreeStream_bytes. split.
  - intros E. destruct (stream_sound alloc (zlen (mjoin chunks)) HN Ha (mjoin chunks) new_parser 0 0
      new_in_mode) as (rs & es & Hr & Hs & Hd & He); [lia|lia|by rewrite E|].
    exists rs, es. split_and!; try done; [by rewrite Hd, parseTree_raws|].
    rewrite Hd in E. rewrite (stream_complete alloc (zlen (mjoin chunks)) HN Ha rs es new_parser 0 0 new_in_mode) in E;
      [by injection E|lia|rewrite <- Hd; lia|done..].
  - intros (rs & es & Hr & Hs & Hd & He & _ & ->). rewrite Hd.
    apply (stream_complete alloc (zlen (mjoin chunks)) HN Ha); [apply new_in_mode|lia|rewrite <- Hd; lia|done..].
Qed.

Definition example_tree : list Z := js "100644 a" ++ 0 :: replicate 20 7 ++ js "40000 d" ++ 0 :: replicate 20 9.

Lemma parseTreeStream_correct_witness :
  parseTreeStream (λ _, true) [take 5 example_tree; drop 5 example_tree] =
    ([parsedTreeEntry (treeEntry (js "100644") (js "a") (toHex (replicate 20 7))) (js "a") 0 29;
      parsedTreeEntry (treeEntry (js "40000") (js "d") (toHex (replicate 20 9))) (js "d") 1 57], Ok tt) ∧
  ∃ rs es, mjoin [take 5 example_tree; drop 5 example_tree] = flat_map raw_bytes rs ∧
    parseTree (mjoin [take 5 example_tree; drop 5 example_tree]) = Ok es.
Proof.
  assert (parseTreeStream (λ _, true) [take 5 example_tree; drop 5 example_tree] =
    ([parsedTreeEntry (treeEntry (js "100644") (js "a") (toHex (replicate 20 7))) (js "a") 0 29;
      parsedTreeEntry (treeEntry (js "40000") (js "d") (toHex (replicate 20 9))) (js "d") 1 57], Ok tt)) as E
    by (vm_compute; reflexivity).
  split; [exact E|].
  apply parseTreeStream_correct in E as (rs & es & _ & _ & Hd & _ & Hp & _);
    [exists rs, es; split; [exact Hd|exact Hp]|vm_compute; reflexivity|reflexivity].
Defined.



(** Two different names that decode alike: the fatal decoder drops a leading byte
    order mark. *)
Theorem decodeTreeName_drops_mark :
  decodeTreeName [0xef; 0xbb; 0xbf; 0x61] = Ok (js "a") ∧ decodeTreeName [0x61] = Ok (js "a").
Proof. vm_compute. done. Qed.
