(* ===== verification/Objects.v ===== *)
(** Commits, tags and identity lines: src/packages/git/src/common/objects.ts. *)

From S2P Require Import Prelude Utf8 Text Bytes Streams.

Definition LF : Z := 0x0a.
Definition SP : Z := 0x20.

(** * Numbers as text *)

Fixpoint digits_loop (fuel : nat) (n : Z) : list Z :=
  match fuel with
  | O => []
  | S fuel => if n <? 10 then [0x30 + n] else digits_loop fuel (n / 10) ++ [0x30 + n mod 10]
  end.
Definition digits (n : Z) : list Z := digits_loop (S (Z.to_nat (Z.log2 n))) n.

(** [String(n)] of an integer below [10 ** 21], where no exponent is used. *)
Definition number_string (n : Z) : list Z := if n <? 0 then 0x2d :: digits (- n) else digits n.

(** The double nearest to an integer (ties to even); [None] is an infinity. *)
Definition to_double (n : Z) : option Z :=
  let r := round_double n in
  if 2 ^ 1024 <=? Z.abs r then None else Some r.

Definition is_digit (u : Z) : bool := (0x30 <=? u) && (u <=? 0x39).

Fixpoint decimal (acc : option Z) (s : list Z) : option Z :=
  match s with
  | u :: rest => if is_digit u then decimal (Some (default 0 acc * 10 + (u - 0x30))) rest else acc
  | [] => acc
  end.

(** [Number.parseInt(s, 10)]: [None] is [NaN] or an infinity. *)
Definition parseInt10 (s : list Z) : option Z :=
  let s := skip_space s in
  let '(sign, s) :=
    match s with
    | u :: rest => if u =? 0x2d then (-1, rest) else if u =? 0x2b then (1, rest) else (1, s)
    | [] => (1, s)
    end in
  match decimal None s with Some n => to_double (sign * n) | None => None end.

(** [s.trim()]. *)
Definition trim (s : list Z) : list Z := reverse (skip_space (reverse (skip_space s))).

(** [s.indexOf(ab, from)] of two units. *)
Fixpoint indexOf2 (a b : Z) (s : list Z) : Z :=
  match s with
  | [] => -1
  | u :: rest =>
      if (u =? a) && (match rest with v :: _ => v =? b | [] => false end) then 0
      else let i := indexOf2 a b rest in if i <? 0 then -1 else i + 1
  end.

(** * Objects *)

Inductive ObjectType := commit_type | tree_type | blob_type | tag_type.
#[export] Instance ObjectType_eq_dec : EqDecision ObjectType.
Proof. solve_decision. Defined.

(** The type's name. *)
Definition type_name (t : ObjectType) : list Z :=
  match t with
  | commit_type => js "commit" | tree_type => js "tree" | blob_type => js "blob" | tag_type => js "tag"
  end.

Definition MAX_OBJECT_BYTES : Z := 48 * 1024 * 1024.

Definition TYPE_NUMBER (t : ObjectType) : Z :=
  match t with commit_type => 1 | tree_type => 2 | blob_type => 3 | tag_type => 4 end.
Definition NUMBER_TYPE (n : Z) : option ObjectType :=
  if n =? 1 then Some commit_type else if n =? 2 then Some tree_type
  else if n =? 3 then Some blob_type else if n =? 4 then Some tag_type else None.

Definition objectHeader (t : ObjectType) (size : Z) : list Z :=
  encode (type_name t ++ SP :: number_string size ++ [0]).

(** [hashObject], over the platform's SHA-1. *)
Definition hashObject (sha1 : list Z → list Z) (t : ObjectType) (data : list Z) : list Z :=
  toHex (sha1 (objectHeader t (zlen data) ++ data)).

(** * Identity lines *)

Record Person := person { p_name : list Z; p_email : list Z; timestamp : Z; timezoneOffset : Z }.

Definition no_person : Person := person [] [] 0 0.

Definition formatTimezone (offsetMinutes : Z) : list Z :=
  let east := - offsetMinutes in
  let sign := if east <? 0 then 0x2d else 0x2b in
  let abs := Z.abs east in
  sign :: padStart2 (number_string (abs / 60)) ++ padStart2 (number_string (abs mod 60)).

Definition formatPerson (p : Person) : list Z :=
  p_name p ++ js " <" ++ p_email p ++ js "> " ++ number_string (timestamp p) ++ SP :: formatTimezone (timezoneOffset p).

(** [/^[+-]\d{4}$/]. *)
Definition is_zone (s : list Z) : bool :=
  match s with
  | u :: rest => ((u =? 0x2b) || (u =? 0x2d)) && (zlen rest =? 4) && forallb is_digit rest
  | [] => false
  end.

Definition parseZone (zone : list Z) : Z :=
  let minutes := default 0 (parseInt10 (slice zone 1 3)) * 60 + default 0 (parseInt10 (slice_from zone 3)) in
  if minutes =? 0 then 0 else if bool_decide (head zone = Some 0x2d) then minutes else - minutes.

Definition parsePerson (line : list Z) : Person :=
  let open := indexOf2 SP 0x3c line in
  let close :=
    if open <? 0 then -1
    else let i := indexOf 0x3e (slice_from line (open + 2)) in if i <? 0 then -1 else open + 2 + i in
  if (open <? 0) || (close <? 0) then person line [] 0 0
  else
    let rest := split SP (trim (slice_from line (close + 1))) in
    let timestamp := match rest with t :: _ => parseInt10 t | [] => Some 0 end in
    let timezoneOffset :=
      match rest with
      | _ :: zone :: _ => if is_zone zone then parseZone zone else 0
      | _ => 0
      end in
    person (slice line 0 open) (slice line (open + 2) close) (default 0 timestamp) timezoneOffset.

(** * Header blocks *)

Record HeaderBlock := headerBlock { headers : list (list Z * list Z); message_of : list Z }.

(** One line of the head: a continuation of the last header, a header, or neither.
    [continuations] holds the continuation lines of each header. *)
Definition header_line (st : list (list Z * list Z) * list (list (list Z))) (line : list Z)
  : list (list Z * list Z) * list (list (list Z)) :=
  let '(headers, continuations) := st in
  if startsWith line [SP] && negb (bool_decide (headers = [])) then
    (headers, alter (λ extra, extra ++ [slice_from line 1]) (length continuations - 1)%nat continuations)
  else
    let space := indexOf SP line in
    if 0 <? space then
      (headers ++ [(slice line 0 space, slice_from line (space + 1))], continuations ++ [[]])
    else (headers, continuations).

Definition with_continuations (h : list Z * list Z) (extra : list (list Z)) : list Z * list Z :=
  match extra with [] => h | _ => (fst h, snd h ++ LF :: join LF extra) end.

Definition splitHeaders (text : list Z) : HeaderBlock :=
  let blank := indexOf2 LF LF text in
  let head := if blank =? -1 then text else slice text 0 blank in
  let message := if blank =? -1 then [] else slice_from text (blank + 2) in
  let '(headers, continuations) := foldl header_line ([], []) (split LF head) in
  headerBlock (zip_with with_continuations headers continuations) message.

(** * Commits *)

Record Commit := mkCommit {
  c_tree : list Z;
  parent : list (list Z);
  author : Person;
  committer : Person;
  gpgsig : option (list Z);
  c_message : list Z;
}.

(** One header of the loop of [parseCommitText], with the commit and [sawTree]. *)
Definition commit_header (st : Commit * bool) (h : list Z * list Z) : outcome (Commit * bool) :=
  let '(c, sawTree) := st in
  let '(key, value) := h in
  if str_eqb key (js "tree") then
    if negb (isOid value) then Throw (CorruptError (js "commit has a malformed tree oid"))
    else Ok (mkCommit value (parent c) (author c) (committer c) (gpgsig c) (c_message c), true)
  else if str_eqb key (js "parent") then
    if negb (isOid value) then Throw (CorruptError (js "commit has a malformed parent oid"))
    else Ok (mkCommit (c_tree c) (parent c ++ [value]) (author c) (committer c) (gpgsig c) (c_message c), sawTree)
  else if str_eqb key (js "author") then
    Ok (mkCommit (c_tree c) (parent c) (parsePerson value) (committer c) (gpgsig c) (c_message c), sawTree)
  else if str_eqb key (js "committer") then
    Ok (mkCommit (c_tree c) (parent c) (author c) (parsePerson value) (gpgsig c) (c_message c), sawTree)
  else if str_eqb key (js "gpgsig") then
    Ok (mkCommit (c_tree c) (parent c) (author c) (committer c) (Some value) (c_message c), sawTree)
  else Ok st.

Fixpoint fold_headers {A} (f : A → list Z * list Z → outcome A) (st : A) (hs : list (list Z * list Z))
  : outcome A :=
  match hs with
  | [] => Ok st
  | h :: hs => st ← f st h; fold_headers f st hs
  end.

Definition parseCommitText (text : list Z) : outcome Commit :=
  let block := splitHeaders text in
  r ← fold_headers commit_header (mkCommit [] [] no_person no_person None (message_of block), false) (headers block);
  if negb (snd r) then Throw (CorruptError (js "commit is missing its tree header")) else Ok (fst r).

Definition parseCommit (data : list Z) : outcome Commit := parseCommitText (decode_lossy data).

Definition parseReplayCommit (data : list Z) : outcome Commit :=
  match decode_fatal data with
  | None => Throw (GitErr "EUNSUPPORTED" "replay does not support non-UTF-8 commit objects")
  | Some text =>
      let blank := indexOf2 LF LF text in
      let head := if blank <? 0 then text else slice text 0 blank in
      if existsb (λ line, startsWith line (js "encoding ")) (split LF head)
      then Throw (GitErr "EUNSUPPORTED" "replay does not support commit encoding headers")
      else parseCommitText text
  end.

(** [sig.split("\n").join("\n ")]. *)
Definition indent_lines (sig : list Z) : list Z :=
  match split LF sig with
  | first :: rest => first ++ flat_map (λ line, LF :: SP :: line) rest
  | [] => []
  end.

(** The text [serializeCommit] encodes. *)
Definition commit_lines (c : Commit) : list (list Z) :=
  [js "tree " ++ c_tree c] ++ ((λ p, js "parent " ++ p) <$> parent c) ++
  [js "author " ++ formatPerson (author c); js "committer " ++ formatPerson (committer c)] ++
  match gpgsig c with
  | Some sig => [js "gpgsig " ++ indent_lines sig]
  | None => []
  end.

Definition serializeCommit (c : Commit) : list Z :=
  encode (join LF (commit_lines c) ++ LF :: LF :: c_message c).

(** * Tags *)

Record Tag := mkTag {
  t_object : list Z;
  t_type : ObjectType;
  t_tag : list Z;
  tagger : option Person;
  t_message : list Z;
}.

Definition type_of_name (value : list Z) : option ObjectType :=
  if str_eqb value (js "commit") then Some commit_type else if str_eqb value (js "tree") then Some tree_type
  else if str_eqb value (js "blob") then Some blob_type else if str_eqb value (js "tag") then Some tag_type
  else None.

Definition tag_header (st : Tag * bool) (h : list Z * list Z) : outcome (Tag * bool) :=
  let '(t, sawObject) := st in
  let '(key, value) := h in
  if str_eqb key (js "object") then
    if negb (isOid value) then Throw (CorruptError (js "tag has a malformed object oid"))
    else Ok (mkTag value (t_type t) (t_tag t) (tagger t) (t_message t), true)
  else if str_eqb key (js "type") then
    match type_of_name value with
    | None => Throw (CorruptError (js "tag has an unknown target type " ++ value))
    | Some ty => Ok (mkTag (t_object t) ty (t_tag t) (tagger t) (t_message t), sawObject)
    end
  else if str_eqb key (js "tag") then
    Ok (mkTag (t_object t) (t_type t) value (tagger t) (t_message t), sawObject)
  else if str_eqb key (js "tagger") then
    Ok (mkTag (t_object t) (t_type t) (t_tag t) (Some (parsePerson value)) (t_message t), sawObject)
  else Ok st.

Definition parseTag (data : list Z) : outcome Tag :=
  let block := splitHeaders (decode_lossy data) in
  r ← fold_headers tag_header (mkTag [] commit_type [] None (message_of block), false) (headers block);
  if negb (snd r) then Throw (CorruptError (js "tag is missing its object header")) else Ok (fst r).

Definition tag_lines (t : Tag) : list (list Z) :=
  [js "object " ++ t_object t; js "type " ++ type_name (t_type t); js "tag " ++ t_tag t] ++
  match tagger t with Some p => [js "tagger " ++ formatPerson p] | None => [] end.

Definition serializeTag (t : Tag) : list Z :=
  encode (join LF (tag_lines t) ++ LF :: LF :: t_message t).

(** * Facts *)

(** ** Numbers *)

Definition value_of (a : Z) (ds : list Z) : Z := foldl (λ a d, a * 10 + (d - 0x30)) a ds.

Lemma digits_loop_spec fuel n :
  0 <= n < 2 ^ Z.of_nat fuel → (1 <= fuel)%nat →
  value_of 0 (digits_loop fuel n) = n ∧ forallb is_digit (digits_loop fuel n) = true ∧ digits_loop fuel n ≠ [].
Proof.
  revert n. induction fuel as [|fuel IH]; intros n Hn Hf; [lia|]. cbn [digits_loop].
  destruct (n <? 10) eqn:E; zbool.
  - unfold value_of. simpl. unfold is_digit. split_and!; [lia|by zdec|done].
  - rewrite Nat2Z.inj_succ, Z.pow_succ_r in Hn by lia.
    assert (1 <= n / 10) by zdm. assert (n / 10 < 2 ^ Z.of_nat fuel) by zdm.
    destruct fuel as [|fuel]; [simpl in *; lia|].
    destruct (IH (n / 10)) as (Hv & Hd & _); [lia|lia|]. unfold value_of in *. rewrite foldl_app, Hv.
    split_and!; [simpl; zdm| |by destruct (digits_loop _ _)].
    rewrite forallb_app, Hd. simpl. unfold is_digit. by zdecm.
Qed.

Lemma digits_spec n :
  0 <= n → value_of 0 (digits n) = n ∧ forallb is_digit (digits n) = true ∧ digits n ≠ [].
Proof.
  intros Hn. apply digits_loop_spec; [|lia]. split; [done|]. rewrite Nat2Z.inj_succ, Z2Nat.id by apply Z.log2_nonneg.
  destruct (decide (n = 0)) as [->|]; [done|]. apply Z.log2_spec. lia.
Qed.

Lemma decimal_digits ds a : forallb is_digit ds = true → decimal (Some a) ds = Some (value_of a ds).
Proof.
  revert a. induction ds as [|d ds IH]; intros a Hd; [done|]. simpl in Hd. apply andb_prop in Hd as [Hd Hds].
  cbn [decimal]. rewrite Hd. simpl. by apply IH.
Qed.

Lemma decimal_number ds : forallb is_digit ds = true → ds ≠ [] → decimal None ds = Some (value_of 0 ds).
Proof.
  destruct ds as [|d ds]; [done|]. simpl. intros [Hd Hds]%andb_prop _. rewrite Hd. by apply decimal_digits.
Qed.

Lemma to_double_exact n : - MAX_SAFE_INTEGER <= n <= MAX_SAFE_INTEGER → to_double n = Some n.
Proof.
  intros Hn. unfold to_double. assert (Z.abs n < 2 ^ 53) as Ha by (unfold MAX_SAFE_INTEGER in Hn; lia).
  rewrite round_double_exact by lia. rewrite (proj2 (Z.leb_gt _ _)); [done|].
  etrans; [exact Ha|]. apply Z.pow_lt_mono_r; lia.
Qed.

Lemma digit_not_space d : is_digit d = true → is_js_space d = false ∧ d ≠ 0x2d ∧ d ≠ 0x2b ∧ d ≠ SP ∧ d ≠ LF.
Proof.
  unfold is_digit, is_js_space, SP, LF. intros. zbool. split; [by zdec|lia].
Qed.

Lemma parseInt10_number n :
  - MAX_SAFE_INTEGER <= n <= MAX_SAFE_INTEGER → parseInt10 (number_string n) = Some n.
Proof.
  intros Hn. unfold number_string. destruct (n <? 0) eqn:E; zbool.
  - destruct (digits_spec (- n)) as (Hv & Hd & Hne); [lia|].
    assert (parseInt10 (0x2d :: digits (- n)) =
      match decimal None (digits (- n)) with Some m => to_double (-1 * m) | None => None end) as -> by done.
    rewrite decimal_number, Hv by done. rewrite to_double_exact by lia. f_equal. lia.
  - destruct (digits_spec n) as (Hv & Hd & Hne); [lia|]. pose proof (decimal_number _ Hd Hne) as Hdec.
    unfold parseInt10.
    destruct (digits n) as [|d ds]; [done|]. pose proof Hd as Hd'. simpl in Hd'. apply andb_prop in Hd' as [Hd1 _].
    destruct (digit_not_space d Hd1) as (Hs & H1 & H2 & _). cbn [skip_space]. rewrite Hs.
    rewrite (proj2 (Z.eqb_neq d 0x2d)), (proj2 (Z.eqb_neq d 0x2b)) by done.
    rewrite Hdec, Hv, to_double_exact by lia. f_equal. lia.
Qed.

(** The units of a printed number. *)
Lemma number_string_units n :
  number_string n ≠ [] ∧ Forall (λ u, is_js_space u = false ∧ u ≠ SP ∧ u ≠ LF) (number_string n).
Proof.
  assert (∀ m, 0 <= m → Forall (λ u, is_js_space u = false ∧ u ≠ SP ∧ u ≠ LF) (digits m)) as Hd.
  { intros m Hm. destruct (digits_spec m Hm) as (_ & Hd & _). apply Forall_forall. intros u Hu.
    rewrite forallb_forall in Hd. apply list_elem_of_In, Hd, digit_not_space in Hu. tauto. }
  unfold number_string. destruct (n <? 0) eqn:E; zbool.
  - split; [done|]. constructor; [done|]. apply Hd. lia.
  - split; [by apply digits_spec|by apply Hd].
Qed.

Lemma pad2_all :
  Forall (λ k, parseInt10 (padStart2 (number_string k)) = Some k ∧
               length (padStart2 (number_string k)) = 2%nat ∧
               forallb is_digit (padStart2 (number_string k)) = true) (seqZ 0 100).
Proof. apply (bool_decide_unpack _). vm_compute. exact I. Qed.

Lemma pad2_spec k :
  0 <= k < 100 →
  parseInt10 (padStart2 (number_string k)) = Some k ∧ length (padStart2 (number_string k)) = 2%nat ∧
  forallb is_digit (padStart2 (number_string k)) = true.
Proof.
  intros Hk. pose proof pad2_all as Ha. rewrite Forall_forall in Ha. apply Ha. apply elem_of_seqZ. lia.
Qed.

(** ** Identity lines *)

Lemma zone_roundtrip off :
  - 6000 < off < 6000 →
  is_zone (formatTimezone off) = true ∧ parseZone (formatTimezone off) = off ∧
  Forall (λ u, is_js_space u = false ∧ u ≠ SP ∧ u ≠ LF) (formatTimezone off) ∧ formatTimezone off ≠ [].
Proof.
  intros Ho. unfold formatTimezone.
  destruct (pad2_spec (Z.abs (- off) / 60)) as (Hp1 & Hl1 & Hd1); [zdm|].
  destruct (pad2_spec (Z.abs (- off) mod 60)) as (Hp2 & Hl2 & Hd2); [zdm|].
  set (h := padStart2 (number_string (Z.abs (- off) / 60))) in *.
  set (m := padStart2 (number_string (Z.abs (- off) mod 60))) in *.
  set (sign := if - off <? 0 then 0x2d else 0x2b).
  assert (sign = 0x2d ∧ 0 < off ∨ sign = 0x2b ∧ off <= 0) as Hsign by (subst sign; case_match; zbool; lia).
  split_and!.
  - unfold is_zone. rewrite forallb_app, Hd1, Hd2, andb_true_r. unfold zlen. rewrite length_app, Hl1, Hl2.
    destruct Hsign as [[-> _]|[-> _]]; done.
  - unfold parseZone. assert (slice (sign :: h ++ m) 1 3 = h) as ->.
    { unfold slice. change (Z.to_nat (3 - 1)) with 2%nat. change (Z.to_nat 1) with 1%nat.
      rewrite <- Hl1. cbn [drop]. rewrite drop_0. apply take_app_length. }
    assert (slice_from (sign :: h ++ m) 3 = m) as ->.
    { unfold slice_from. change (Z.to_nat 3) with (S 2). rewrite <- Hl1. cbn [drop]. apply drop_app_length. }
    rewrite Hp1, Hp2. simpl default. cbn [default from_option id head].
    destruct Hsign as [[-> Hs]|[-> Hs]].
    + rewrite bool_decide_eq_true_2 by done. case_match; zbool; zdm.
    + rewrite bool_decide_eq_false_2 by done. case_match; zbool; zdm.
  - constructor; [destruct Hsign as [[-> _]|[-> _]]; done|]. apply Forall_forall. intros u Hu.
    assert (forallb is_digit (h ++ m) = true) as Hd by (by rewrite forallb_app, Hd1, Hd2).
    rewrite forallb_forall in Hd. apply list_elem_of_In, Hd, digit_not_space in Hu. tauto.
  - done.
Qed.

Lemma indexOf2_spec a b x y : no_pair a b (x ++ [a]) → indexOf2 a b (x ++ a :: b :: y) = zlen x.
Proof.
  induction x as [|u x IH]; intros Hn.
  - simpl. by rewrite !Z.eqb_refl.
  - simpl app in Hn. apply no_pair_cons in Hn as [Hu Hn]. cbn [app indexOf2].
    assert ((u =? a) && match x ++ a :: b :: y with v :: _ => v =? b | [] => false end = false) as ->.
    { apply andb_false_iff. destruct (decide (u = a)) as [->|]; [right|left; by apply Z.eqb_neq].
      destruct x as [|v x]; simpl in *; apply Z.eqb_neq; intros ->; by apply Hu. }
    rewrite IH, zlen_cons by done. pose proof (zlen_nonneg x). zdec. lia.
Qed.

Lemma skip_space_nonspace s : (∀ u, head s = Some u → is_js_space u = false) → skip_space s = s.
Proof. destruct s as [|u s]; [done|]. intros H. simpl. by rewrite (H u eq_refl). Qed.

Lemma trim_spec s :
  (∀ u, head s = Some u → is_js_space u = false) → (∀ u, last s = Some u → is_js_space u = false) →
  trim (SP :: s) = s.
Proof.
  intros Hh Hl. unfold trim. change (skip_space (SP :: s)) with (skip_space s).
  rewrite (skip_space_nonspace s) by done. rewrite skip_space_nonspace; [apply reverse_involutive|].
  intros u Hu. rewrite head_reverse in Hu. auto.
Qed.

(** A person whose line reads back: the name has no [ <], the email no [>], the numbers
    fit, and neither text holds a line feed. *)
Definition person_ok (p : Person) : Prop :=
  no_pair SP 0x3c (p_name p) ∧ (0x3e ∉ p_email p) ∧ (LF ∉ p_name p) ∧ (LF ∉ p_email p) ∧
  - MAX_SAFE_INTEGER <= timestamp p <= MAX_SAFE_INTEGER ∧ - 6000 < timezoneOffset p < 6000.

Lemma no_pair_snoc a b s : a ≠ b → no_pair a b s → no_pair a b (s ++ [a]).
Proof.
  intros Hab. induction s as [|u s IH]; intros Hn.
  - apply no_pair_cons. split; [by intros []|apply no_pair_nil].
  - apply no_pair_cons in Hn as [Hu Hn]. simpl app. apply no_pair_cons. split; [|auto].
    intros [-> Hs]. destruct s as [|v s]; simplify_eq/=. by apply Hu.
Qed.

Lemma person_roundtrip p : person_ok p → parsePerson (formatPerson p) = p.
Proof.
  destruct p as [name email ts off]. intros (Hn & He & _ & _ & Hts & Hoff). simpl in *.
  unfold formatPerson, parsePerson. simpl p_name; simpl p_email; simpl timestamp; simpl timezoneOffset.
  destruct (number_string_units ts) as [Hne Hns]. destruct (zone_roundtrip off Hoff) as (Hz1 & Hz2 & Hz3 & Hz4).
  set (t := number_string ts) in *. set (z := formatTimezone off) in *.
  assert (parseInt10 t = Some ts) as Hpt by by apply parseInt10_number.
  assert (no_pair SP 0x3c (name ++ [SP])) as Hns' by by apply no_pair_snoc.
  change (js " <") with [SP; 0x3c]. change (js "> ") with [0x3e; SP].
  simpl app. rewrite indexOf2_spec by done. pose proof (zlen_nonneg name). pose proof (zlen_nonneg email).
  rewrite (proj2 (Z.ltb_ge _ _)) by done. cbn [orb].
  replace (name ++ SP :: 0x3c :: email ++ 0x3e :: SP :: t ++ SP :: z)
    with ((name ++ [SP; 0x3c]) ++ email ++ 0x3e :: SP :: t ++ SP :: z) by (by rewrite <- app_assoc).
  replace (zlen name + 2) with (zlen (name ++ [SP; 0x3c])) by (by rewrite zlen_app).
  rewrite slice_from_app, indexOf_spec by done. rewrite (proj2 (Z.ltb_ge (zlen email) 0)) by done.
  rewrite (proj2 (Z.ltb_ge _ _)) by (rewrite zlen_app; change (zlen [SP; 0x3c]) with 2; lia).
  rewrite slice_app_mid.
  assert (slice_from ((name ++ [SP; 0x3c]) ++ email ++ 0x3e :: SP :: t ++ SP :: z)
            (zlen (name ++ [SP; 0x3c]) + zlen email + 1) = SP :: t ++ SP :: z) as ->.
  { replace ((name ++ [SP; 0x3c]) ++ email ++ 0x3e :: SP :: t ++ SP :: z)
      with (((name ++ [SP; 0x3c]) ++ email ++ [0x3e]) ++ SP :: t ++ SP :: z) by (by rewrite <- !app_assoc).
    replace (zlen (name ++ [SP; 0x3c]) + zlen email + 1) with (zlen ((name ++ [SP; 0x3c]) ++ email ++ [0x3e]))
      by (rewrite !zlen_app; change (zlen [0x3e]) with 1; lia). apply slice_from_app. }
  rewrite trim_spec.
  - rewrite split_app, !split_part.
    + cbn [app]. rewrite Hpt, Hz1, Hz2. cbn [default from_option id]. f_equal.
      rewrite <- app_assoc. apply slice_0_app.
    + intros Hin. rewrite Forall_forall in Hz3. by destruct (Hz3 _ Hin) as (_ & ? & _).
    + intros Hin. rewrite Forall_forall in Hns. by destruct (Hns _ Hin) as (_ & ? & _).
  - intros u Hu. destruct t as [|v t]; [done|]. injection Hu as ->. by apply Forall_cons in Hns as [[? _] _].
  - intros u Hu. rewrite last_app, last_cons in Hu. destruct z as [|v z _] using rev_ind; [done|].
    rewrite last_snoc in Hu. injection Hu as ->. apply Forall_app in Hz3 as [_ Hz3]. apply Forall_singleton in Hz3 as [Hz3 _]. exact Hz3.
Qed.

(** ** Header blocks *)

Definition line_ok (line : list Z) : Prop := line ≠ [] ∧ LF ∉ line.

Lemma join_no_blank lines :
  Forall line_ok lines → lines ≠ [] →
  no_pair LF LF (join LF lines ++ [LF]) ∧ head (join LF lines ++ [LF]) ≠ Some LF.
Proof.
  assert (∀ line rest, line_ok line → no_pair LF LF rest → head rest ≠ Some LF →
    no_pair LF LF (line ++ LF :: rest) ∧ head (line ++ LF :: rest) ≠ Some LF) as Hone.
  { intros line rest [Hne Hl] Hr Hh. split.
    - clear Hne. induction line as [|u line IH]; simpl.
      + apply no_pair_cons. split; [naive_solver|done].
      + apply not_elem_of_cons in Hl as [? ?]. apply no_pair_cons. split; [naive_solver|auto].
    - destruct line as [|u line]; [done|]. simpl. apply not_elem_of_cons in Hl as [? _]. congruence. }
  induction 1 as [|line lines Hl Hls IH]; [done|]. intros _. destruct lines as [|l2 lines].
  - apply (Hone line []); [done|apply no_pair_nil|done].
  - rewrite join_cons by done. rewrite <- app_assoc. simpl. by apply Hone; [done|apply IH..].
Qed.

Lemma split_head lines msg :
  Forall line_ok lines → lines ≠ [] →
  let text := join LF lines ++ LF :: LF :: msg in
  indexOf2 LF LF text = zlen (join LF lines) ∧ slice text 0 (zlen (join LF lines)) = join LF lines ∧
  slice_from text (zlen (join LF lines) + 2) = msg ∧ split LF (join LF lines) = lines.
Proof.
  intros Hl Hne text. destruct (join_no_blank lines Hl Hne) as [Hp _]. split_and!.
  - by apply indexOf2_spec.
  - apply slice_0_app.
  - subst text. replace (join LF lines ++ LF :: LF :: msg) with ((join LF lines ++ [LF; LF]) ++ msg)
      by (by rewrite <- app_assoc).
    replace (zlen (join LF lines) + 2) with (zlen (join LF lines ++ [LF; LF])) by (by rewrite zlen_app).
    apply slice_from_app.
  - apply split_join; [done|]. apply (Forall_impl _ _ _ Hl). by intros ? [].
Qed.

Lemma header_line_key hs cs key value :
  key ≠ [] → SP ∉ key →
  header_line (hs, cs) (key ++ SP :: value) = (hs ++ [(key, value)], cs ++ [[]]).
Proof.
  intros Hne Hsp. unfold header_line. assert (startsWith (key ++ SP :: value) [SP] = false) as ->.
  { destruct key as [|u key]; [done|]. apply not_elem_of_cons in Hsp as [? _]. simpl.
    by rewrite (proj2 (Z.eqb_neq _ _)). }
  cbn [andb]. rewrite indexOf_spec by done.
  rewrite (proj2 (Z.ltb_lt _ _)).
  - rewrite slice_0_app. replace (zlen key + 1) with (zlen (key ++ [SP])) by (by rewrite zlen_app).
    replace (key ++ SP :: value) with ((key ++ [SP]) ++ value) by (by rewrite <- app_assoc).
    by rewrite slice_from_app.
  - destruct key; [done|]. rewrite zlen_cons. pose proof (zlen_nonneg key). lia.
Qed.

Lemma header_line_continuation hs h cs extra line :
  length cs = length hs →
  header_line (hs ++ [h], cs ++ [extra]) (SP :: line) = (hs ++ [h], cs ++ [extra ++ [line]]).
Proof.
  intros _. unfold header_line. change (SP :: line) with ([SP] ++ line). rewrite startsWith_app.
  rewrite bool_decide_eq_false_2 by (by destruct hs). cbn [andb negb]. f_equal.
  rewrite length_app. simpl. replace (length cs + 1 - 1)%nat with (length cs) by lia.
  rewrite alter_app_r_alt, Nat.sub_diag by lia. simpl. do 3 f_equal.
Qed.

Lemma header_continuations hs h cs extra lines :
  length cs = length hs →
  foldl header_line (hs ++ [h], cs ++ [extra]) (cons SP <$> lines) = (hs ++ [h], cs ++ [extra ++ lines]).
Proof.
  intros Hlen. revert extra. induction lines as [|l lines IH]; intros extra; [by rewrite app_nil_r|].
  cbn [fmap list_fmap foldl]. rewrite header_line_continuation by done. rewrite IH. by rewrite <- app_assoc.
Qed.

(** The lines of a header and of its continuations. *)
Definition header_lines (h : list Z * list Z) : list (list Z) :=
  match split LF (snd h) with
  | first :: rest => (fst h ++ SP :: first) :: (cons SP <$> rest)
  | [] => []
  end.

Definition key_ok (key : list Z) : Prop := key ≠ [] ∧ (SP ∉ key) ∧ LF ∉ key.

Lemma fold_header_lines hs0 hs cs0 :
  length cs0 = length hs0 → Forall (λ h, key_ok (fst h)) hs →
  ∃ firsts extras, foldl header_line (hs0, cs0) (flat_map header_lines hs) = (hs0 ++ firsts, cs0 ++ extras) ∧
    length firsts = length extras ∧ zip_with with_continuations firsts extras = hs.
Proof.
  intros Hlen Hk. revert hs0 cs0 Hlen. induction Hk as [|[key value] hs (Hne & Hsp & Hlf) _ IH]; intros hs0 cs0 Hlen.
  - exists [], []. by rewrite !app_nil_r.
  - cbn [flat_map]. rewrite foldl_app. unfold header_lines at 1. cbn [fst snd].
    pose proof (join_split LF value) as Hj. destruct (split LF value) as [|first rest] eqn:E; [by apply split_not_nil in E|].
    cbn [foldl]. simpl in Hne, Hsp. rewrite header_line_key, header_continuations by done.
    destruct (IH (hs0 ++ [(key, first)]) (cs0 ++ [[] ++ rest])) as (firsts & extras & -> & Hl & Hz).
    { rewrite !length_app. simpl. lia. }
    exists ((key, first) :: firsts), (rest :: extras). rewrite <- !app_assoc. split_and!; [done|simpl; lia|].
    cbn [zip_with]. rewrite Hz. f_equal. unfold with_continuations. destruct rest as [|r rest]; simpl in *; by rewrite <- Hj.
Qed.

Lemma header_lines_ok h : key_ok (fst h) → Forall line_ok (header_lines h).
Proof.
  intros (Hne & Hsp & Hlf). unfold header_lines. pose proof (split_parts_ok LF (snd h)) as Hp.
  destruct (split LF (snd h)) as [|first rest]; [constructor|]. apply Forall_cons in Hp as [Hf Hr].
  constructor.
  - split; [by destruct (fst h)|]. apply not_elem_of_app. split; [done|]. apply not_elem_of_cons. done.
  - apply Forall_fmap, (Forall_impl _ _ _ Hr). intros l Hl. split; [done|]. simpl. apply not_elem_of_cons. done.
Qed.

(** The head written from the headers is read back, and so is the message. *)
Lemma splitHeaders_roundtrip hs msg :
  hs ≠ [] → Forall (λ h, key_ok (fst h)) hs →
  splitHeaders (join LF (flat_map header_lines hs) ++ LF :: LF :: msg) = headerBlock hs msg.
Proof.
  intros Hne Hk. assert (Forall line_ok (flat_map header_lines hs)) as Hl.
  { induction Hk as [|h hs' Hh Hk' IH]; [done|]. cbn [flat_map]. apply Forall_app. split; [by apply header_lines_ok|].
    destruct hs'; [constructor|by apply IH]. }
  assert (flat_map header_lines hs ≠ []) as Hln.
  { destruct hs as [|h hs]; [done|]. cbn [flat_map]. unfold header_lines at 1.
    destruct (split LF (snd h)) eqn:E; [by apply split_not_nil in E|done]. }
  destruct (split_head _ msg Hl Hln) as (Hi & Hs & Hf & Hsp). unfold splitHeaders. rewrite Hi.
  pose proof (zlen_nonneg (join LF (flat_map header_lines hs))).
  rewrite (proj2 (Z.eqb_neq _ (-1))) by lia. rewrite Hs, Hf, Hsp.
  destruct (fold_header_lines [] hs [] eq_refl Hk) as (firsts & extras & -> & _ & Hz).
  simpl. by rewrite Hz.
Qed.

(** ** Commits and tags *)

Lemma oid_no_unit value u : isOid value = true → is_lower_hex u = false → u ∉ value.
Proof.
  unfold isOid. intros [_ Hd]%andb_prop Hu Hin. rewrite forallb_forall in Hd.
  apply list_elem_of_In, Hd in Hin. congruence.
Qed.

Lemma header_lines_single key value : LF ∉ value → header_lines (key, value) = [key ++ SP :: value].
Proof. intros Hv. unfold header_lines. simpl. by rewrite split_part. Qed.

Lemma person_line p : person_ok p → LF ∉ formatPerson p.
Proof.
  intros (_ & _ & Hn & He & _ & Hoff). unfold formatPerson.
  destruct (number_string_units (timestamp p)) as [_ Ht]. destruct (zone_roundtrip _ Hoff) as (_ & _ & Hz & _).
  rewrite Forall_forall in Ht. rewrite Forall_forall in Hz.
  assert (LF ∉ number_string (timestamp p)) by (intros Hin; by destruct (Ht _ Hin) as (_ & _ & ?)).
  assert (LF ∉ formatTimezone (timezoneOffset p)) by (intros Hin; by destruct (Hz _ Hin) as (_ & _ & ?)).
  assert ((LF ∉ js " <") ∧ (LF ∉ js "> ")) as [? ?].
  { split; intros Hin%(bool_decide_eq_true_2 (LF ∈ _)); by vm_compute in Hin. }
  rewrite !not_elem_of_app, not_elem_of_cons. done.
Qed.

(** The headers of a commit and of a tag. *)
Definition commit_headers (c : Commit) : list (list Z * list Z) :=
  [(js "tree", c_tree c)] ++ ((λ p, (js "parent", p)) <$> parent c) ++
  [(js "author", formatPerson (author c)); (js "committer", formatPerson (committer c))] ++
  match gpgsig c with Some sig => [(js "gpgsig", sig)] | None => [] end.

Definition commit_ok (c : Commit) : Prop :=
  isOid (c_tree c) = true ∧ Forall (λ p, isOid p = true) (parent c) ∧
  person_ok (author c) ∧ person_ok (committer c) ∧
  wf_key (join LF (commit_lines c) ++ LF :: LF :: c_message c).

Lemma key_ok_by_compute key : bool_decide (key ≠ [] ∧ (SP ∉ key) ∧ (LF ∉ key)) = true → key_ok key.
Proof. by apply bool_decide_eq_true_1. Qed.

Lemma join_indent key sig rest :
  join LF (header_lines (key, sig) ++ rest) = join LF ([key ++ SP :: indent_lines sig] ++ rest).
Proof.
  unfold header_lines, indent_lines. cbn [fst snd].
  destruct (split LF sig) as [|first more] eqn:E; [by apply split_not_nil in E|]. clear E.
  revert first. induction more as [|l more IH]; intros first; [simpl; by rewrite app_nil_r|].
  cbn [fmap list_fmap flat_map]. cbn [app].
  assert (∀ x : list Z, ∀ y, join LF (x :: (SP :: l) :: y) = join LF ((x ++ LF :: SP :: l) :: y)) as Hj.
  { intros x y. destruct y; simpl; by rewrite <- ?app_assoc. }
  rewrite Hj. specialize (IH (first ++ LF :: SP :: l)). cbn [app] in IH.
  replace ((key ++ SP :: first) ++ LF :: SP :: l) with (key ++ SP :: first ++ LF :: SP :: l) by (by rewrite <- app_assoc).
  rewrite IH. by rewrite <- app_assoc.
Qed.

Lemma commit_lines_headers c :
  isOid (c_tree c) = true → Forall (λ p, isOid p = true) (parent c) →
  person_ok (author c) → person_ok (committer c) →
  join LF (commit_lines c) = join LF (flat_map header_lines (commit_headers c)).
Proof.
  intros Ht Hp Ha Hc. unfold commit_lines, commit_headers. rewrite !flat_map_app. cbn [flat_map].
  rewrite !header_lines_single by (by apply person_line || by apply oid_no_unit).
  assert (flat_map header_lines ((λ p, (js "parent", p)) <$> parent c) = (λ p, js "parent " ++ p) <$> parent c) as ->.
  { induction Hp as [|p ps Hp _ IH]; [done|]. cbn [fmap list_fmap flat_map].
    rewrite header_lines_single by by apply oid_no_unit. rewrite IH. done. }
  destruct (gpgsig c) as [sig|]; cbn [flat_map]; [|by rewrite !app_nil_r].
  pose proof (join_indent (js "gpgsig") sig []) as Hi. rewrite !app_nil_r in Hi |- *.
  assert (header_lines (js "gpgsig", sig) ≠ []).
  { unfold header_lines. cbn [fst snd]. destruct (split LF sig) eqn:E; [by apply split_not_nil in E|done]. }
  set (front := [js "tree " ++ c_tree c] ++ ((λ p, js "parent " ++ p) <$> parent c) ++
    [js "author " ++ formatPerson (author c); js "committer " ++ formatPerson (committer c)]).
  transitivity (join LF (front ++ [js "gpgsig " ++ indent_lines sig])).
  { f_equal. subst front. by rewrite <- !app_assoc. }
  transitivity (join LF (front ++ header_lines (js "gpgsig", sig))).
  { rewrite !join_app by done. do 2 f_equal. exact (eq_sym Hi). }
  f_equal. subst front. rewrite <- !app_assoc, app_nil_r. done.
Qed.

(** Every header of a commit has one of these keys. *)
Lemma commit_keys (P : list Z → Prop) c :
  P (js "tree") → P (js "parent") → P (js "author") → P (js "committer") → P (js "gpgsig") →
  Forall (λ h, P (fst h)) (commit_headers c).
Proof.
  intros. unfold commit_headers. apply Forall_app. split; [by apply Forall_singleton|].
  apply Forall_app. split; [apply Forall_fmap, Forall_forall; by intros p _|].
  apply Forall_app. split; [by apply Forall_cons; split; [|apply Forall_singleton]|].
  destruct (gpgsig c); [by apply Forall_singleton|by apply Forall_nil].
Qed.

Lemma commit_keys_ok c : Forall (λ h, key_ok (fst h)) (commit_headers c).
Proof. apply commit_keys; apply key_ok_by_compute; vm_compute; reflexivity. Qed.

(** No written line starts with another key. *)
Lemma header_lines_other key key' value :
  SP ∉ key → SP ∉ key' → key' ≠ [] → key ≠ key' →
  existsb (λ line, startsWith line (key' ++ [SP])) (header_lines (key, value)) = false.
Proof.
  intros Hk Hk' Hnil Hne. unfold header_lines. cbn [fst snd].
  destruct (split LF value) as [|first rest]; [done|]. cbn [existsb]. apply orb_false_iff. split.
  - apply not_true_is_false. intros [t Ht]%startsWith_spec. apply (f_equal (split SP)) in Ht.
    rewrite <- app_assoc in Ht. simpl app in Ht. rewrite !split_app, (split_part SP key), (split_part SP key') in Ht by done.
    apply Hne. by injection Ht.
  - induction rest as [|l rest IH]; [done|]. cbn [fmap list_fmap existsb].
    apply orb_false_iff. split; [|done]. destruct key' as [|u key']; [done|].
    apply not_elem_of_cons in Hk' as [? _].
    change (startsWith (SP :: l) ((u :: key') ++ [SP])) with ((SP =? u) && startsWith l (key' ++ [SP])).
    by rewrite (proj2 (Z.eqb_neq _ _)).
Qed.

(** One header each. *)
Lemma commit_header_tree c b v : isOid v = true →
  commit_header (c, b) (js "tree", v) =
  Ok (mkCommit v (parent c) (author c) (committer c) (gpgsig c) (c_message c), true).
Proof. intros Hv. change (commit_header (c, b) (js "tree", v)) with
  (if negb (isOid v) then Throw (CorruptError (js "commit has a malformed tree oid"))
   else Ok (mkCommit v (parent c) (author c) (committer c) (gpgsig c) (c_message c), true)). by rewrite Hv. Qed.

Lemma commit_header_parent c b v : isOid v = true →
  commit_header (c, b) (js "parent", v) =
  Ok (mkCommit (c_tree c) (parent c ++ [v]) (author c) (committer c) (gpgsig c) (c_message c), b).
Proof. intros Hv. change (commit_header (c, b) (js "parent", v)) with
  (if negb (isOid v) then Throw (CorruptError (js "commit has a malformed parent oid"))
   else Ok (mkCommit (c_tree c) (parent c ++ [v]) (author c) (committer c) (gpgsig c) (c_message c), b)). by rewrite Hv. Qed.

Lemma commit_header_author c b v :
  commit_header (c, b) (js "author", v) =
  Ok (mkCommit (c_tree c) (parent c) (parsePerson v) (committer c) (gpgsig c) (c_message c), b).
Proof. reflexivity. Qed.

Lemma commit_header_committer c b v :
  commit_header (c, b) (js "committer", v) =
  Ok (mkCommit (c_tree c) (parent c) (author c) (parsePerson v) (gpgsig c) (c_message c), b).
Proof. reflexivity. Qed.

Lemma commit_header_gpgsig c b v :
  commit_header (c, b) (js "gpgsig", v) =
  Ok (mkCommit (c_tree c) (parent c) (author c) (committer c) (Some v) (c_message c), b).
Proof. reflexivity. Qed.

Lemma fold_headers_cons {A} (f : A → list Z * list Z → outcome A) st h hs st' :
  f st h = Ok st' → fold_headers f st (h :: hs) = fold_headers f st' hs.
Proof. intros H. cbn [fold_headers]. by rewrite H. Qed.

Lemma commit_parents c b ps rest :
  Forall (λ p, isOid p = true) ps →
  fold_headers commit_header (c, b) (((λ p, (js "parent", p)) <$> ps) ++ rest) =
  fold_headers commit_header
    (mkCommit (c_tree c) (parent c ++ ps) (author c) (committer c) (gpgsig c) (c_message c), b) rest.
Proof.
  intros Hps. revert c. induction Hps as [|p ps Hp _ IH]; intros c.
  - rewrite app_nil_r. by destruct c.
  - rewrite fmap_cons. cbn [app]. rewrite (fold_headers_cons _ _ _ _ _ (commit_header_parent c b p Hp)), IH.
    cbn [c_tree parent author committer gpgsig c_message]. by rewrite <- app_assoc.
Qed.

(** The loop over the headers written from a commit rebuilds it. *)
Lemma commit_headers_fold c :
  isOid (c_tree c) = true → Forall (λ p, isOid p = true) (parent c) →
  person_ok (author c) → person_ok (committer c) →
  fold_headers commit_header (mkCommit [] [] no_person no_person None (c_message c), false) (commit_headers c) =
  Ok (c, true).
Proof.
  intros Ht Hp Ha Hc. unfold commit_headers. cbn [app].
  rewrite (fold_headers_cons _ _ _ _ _ (commit_header_tree _ _ _ Ht)), commit_parents by done.
  rewrite (fold_headers_cons _ _ _ _ _ (commit_header_author _ _ _)).
  rewrite (fold_headers_cons _ _ _ _ _ (commit_header_committer _ _ _)).
  rewrite !person_roundtrip by done. cbn [c_tree parent author committer gpgsig c_message].
  destruct c as [t ps a cm [sig|] m]; cbn [c_tree parent author committer gpgsig c_message app]; [|done].
  by rewrite (fold_headers_cons _ _ _ _ _ (commit_header_gpgsig _ _ _)).
Qed.

Lemma commit_text_roundtrip c :
  commit_ok c → parseCommitText (join LF (commit_lines c) ++ LF :: LF :: c_message c) = Ok c.
Proof.
  intros (Ht & Hp & Ha & Hc & _). rewrite commit_lines_headers by done. unfold parseCommitText.
  rewrite splitHeaders_roundtrip by (done || apply commit_keys_ok). cbn [message_of headers].
  by rewrite commit_headers_fold.
Qed.

Definition tag_headers (t : Tag) : list (list Z * list Z) :=
  [(js "object", t_object t); (js "type", type_name (t_type t)); (js "tag", t_tag t)] ++
  match tagger t with Some p => [(js "tagger", formatPerson p)] | None => [] end.

Definition tag_ok (t : Tag) : Prop :=
  isOid (t_object t) = true ∧ (LF ∉ t_tag t) ∧ (∀ p, tagger t = Some p → person_ok p) ∧
  wf_key (join LF (tag_lines t) ++ LF :: LF :: t_message t).

Lemma type_name_lf ty : LF ∉ type_name ty.
Proof. intros Hin%(bool_decide_eq_true_2 (LF ∈ _)). by destruct ty; vm_compute in Hin. Qed.

Lemma tag_lines_headers t : tag_ok t → tag_lines t = flat_map header_lines (tag_headers t).
Proof.
  intros (Ho & Ht & Hp & _). unfold tag_lines, tag_headers. rewrite flat_map_app. cbn [flat_map].
  rewrite !header_lines_single by (done || apply type_name_lf || by apply oid_no_unit).
  destruct (tagger t) as [p|]; cbn [flat_map]; [|by rewrite !app_nil_r].
  rewrite header_lines_single by by apply person_line, Hp. done.
Qed.

Lemma tag_text_roundtrip t :
  tag_ok t → splitHeaders (join LF (tag_lines t) ++ LF :: LF :: t_message t) = headerBlock (tag_headers t) (t_message t).
Proof.
  intros Ht. rewrite tag_lines_headers by done. apply splitHeaders_roundtrip; [done|]. unfold tag_headers.
  apply Forall_app. split; [repeat constructor; by apply key_ok_by_compute|].
  destruct (tagger t); repeat constructor; by apply key_ok_by_compute.
Qed.

Lemma tag_header_object t b v : isOid v = true →
  tag_header (t, b) (js "object", v) = Ok (mkTag v (t_type t) (t_tag t) (tagger t) (t_message t), true).
Proof. intros Hv. change (tag_header (t, b) (js "object", v)) with
  (if negb (isOid v) then Throw (CorruptError (js "tag has a malformed object oid"))
   else Ok (mkTag v (t_type t) (t_tag t) (tagger t) (t_message t), true)). by rewrite Hv. Qed.

Lemma tag_header_type t b ty :
  tag_header (t, b) (js "type", type_name ty) = Ok (mkTag (t_object t) ty (t_tag t) (tagger t) (t_message t), b).
Proof. by destruct ty. Qed.

Lemma tag_header_tag t b v :
  tag_header (t, b) (js "tag", v) = Ok (mkTag (t_object t) (t_type t) v (tagger t) (t_message t), b).
Proof. reflexivity. Qed.

Lemma tag_header_tagger t b v :
  tag_header (t, b) (js "tagger", v) =
  Ok (mkTag (t_object t) (t_type t) (t_tag t) (Some (parsePerson v)) (t_message t), b).
Proof. reflexivity. Qed.

Lemma type_of_name_type ty : type_of_name (type_name ty) = Some ty.
Proof. by destruct ty. Qed.

(** * Properties *)

(** An identity line reads back as the person it was written from: any name without
    a space followed by a less-than sign, any email without a greater-than sign, every
    safe-integer timestamp, and every offset below a hundred hours, whose sign the text
    reverses. *)
Theorem parsePerson_roundtrip p : person_ok p → parsePerson (formatPerson p) = p.
Proof. apply person_roundtrip. Qed.

Definition example_person : Person := person (js "A U Thor") (js "a@b.c") (-17) 330.

Lemma person_ok_example : person_ok example_person.
Proof.
  assert (∀ a b s, no_pair a b s ↔ indexOf2 a b s = -1) as Hnp.
  { intros a b s. induction s as [|u s IH]; [split; [done|intros _; apply no_pair_nil]|].
    rewrite no_pair_cons, IH. cbn [indexOf2]. clear IH.
    assert (∀ s, -1 <= indexOf2 a b s) as Hge.
    { intros t. induction t as [|v t IHt]; cbn [indexOf2]; [lia|]. repeat case_match; zbool; lia. }
    specialize (Hge s). destruct (decide (u = a ∧ head s = Some b)) as [[-> Hs]|Hn].
    - rewrite Z.eqb_refl. destruct s as [|v s]; simplify_eq/=. rewrite Z.eqb_refl. simpl. naive_solver.
    - assert ((u =? a) && match s with v :: _ => v =? b | [] => false end = false) as ->.
      { apply andb_false_iff. destruct (decide (u = a)) as [->|]; [right|left; by apply Z.eqb_neq].
        destruct s as [|v s]; [done|]. apply Z.eqb_neq. intros ->. by apply Hn. }
      destruct (indexOf2 a b s <? 0) eqn:E; zbool; [|naive_solver lia]. split; [done|].
      intros _. split; [done|lia]. }
  split_and!; simpl; try (by apply Hnp); try (unfold MAX_SAFE_INTEGER; lia).
  all: intros Hin%(bool_decide_eq_true_2 (_ ∈ _)); by vm_compute in Hin.
Qed.

Lemma parsePerson_roundtrip_witness :
  parsePerson (formatPerson example_person) = example_person ∧
  formatPerson example_person = js "A U Thor <a@b.c> -17 -0530".
Proof. split; [apply (parsePerson_roundtrip example_person person_ok_example)|vm_compute; reflexivity]. Defined.

(** C29: Commits round-trip: a commit of object names and readable persons, with any
    parents, any signature (its empty and space-led lines included) and any message,
    is parsed back from the bytes [serializeCommit] writes, by [parseCommit] and by
    [parseReplayCommit]. *)
Theorem commit_roundtrip c :
  commit_ok c → parseCommit (serializeCommit c) = Ok c ∧ parseReplayCommit (serializeCommit c) = Ok c.
Proof.
  intros Hc. pose proof Hc as (Ht & Hp & Ha & Hcm & [Hu Hw]). unfold parseCommit, parseReplayCommit, serializeCommit.
  set (text := join LF (commit_lines c) ++ LF :: LF :: c_message c) in *.
  assert (head text ≠ Some 0xfeff) as Hh.
  { subst text. unfold commit_lines. destruct (parent c); [|]; simpl; by destruct (gpgsig c). }
  rewrite decode_lossy_encode, decode_fatal_encode by done. split; [by apply commit_text_roundtrip|].
  assert (Forall line_ok (flat_map header_lines (commit_headers c))) as Hl.
  { pose proof (commit_keys_ok c) as Hk. induction Hk as [|h hs Hh' _ IH]; [constructor|]. cbn [flat_map].
    apply Forall_app. split; [by apply header_lines_ok|done]. }
  assert (flat_map header_lines (commit_headers c) ≠ []) as Hne.
  { unfold commit_headers. cbn [app flat_map]. rewrite header_lines_single by by apply oid_no_unit. done. }
  destruct (split_head _ (c_message c) Hl Hne) as (Hi & Hs & _ & Hsp).
  rewrite <- commit_lines_headers in Hi, Hs, Hsp by done. fold text in Hi, Hs. rewrite Hi.
  rewrite (proj2 (Z.ltb_ge _ _)) by apply zlen_nonneg. rewrite Hs, Hsp.
  assert (existsb (λ line, startsWith line (js "encoding ")) (flat_map header_lines (commit_headers c)) = false) as ->;
    [|by apply commit_text_roundtrip].
  pose proof (commit_keys (λ key, (SP ∉ key) ∧ key ≠ js "encoding") c) as Hk.
  assert (∀ key, bool_decide ((SP ∉ key) ∧ key ≠ js "encoding") = true → (SP ∉ key) ∧ key ≠ js "encoding") as Hd
    by (intros; by eapply bool_decide_eq_true_1).
  specialize (Hk ltac:(apply Hd; vm_compute; reflexivity) ltac:(apply Hd; vm_compute; reflexivity)
    ltac:(apply Hd; vm_compute; reflexivity) ltac:(apply Hd; vm_compute; reflexivity)
    ltac:(apply Hd; vm_compute; reflexivity)).
  clear Hl Hne Hi Hs Hsp. induction Hk as [|[key value] hs [Hsp' Hne'] _ IH]; [done|]. cbn [flat_map].
  rewrite existsb_app, IH, orb_false_r. apply (header_lines_other key (js "encoding")); [done| |done|done].
  intros Hin%(bool_decide_eq_true_2 (_ ∈ _)). by vm_compute in Hin.
Qed.

Definition example_commit : Commit :=
  mkCommit ZERO_OID [ZERO_OID; ZERO_OID] example_person example_person
    (Some (js "-----BEGIN" ++ [LF; LF; SP] ++ js "x" ++ [LF])) (js "subject" ++ [LF; LF] ++ js "body").

Lemma commit_roundtrip_witness :
  parseCommit (serializeCommit example_commit) = Ok example_commit ∧
  parseReplayCommit (serializeCommit example_commit) = Ok example_commit.
Proof.
  apply commit_roundtrip. pose proof person_ok_example.
  split_and!; [vm_compute; reflexivity|apply Forall_cons; split; [vm_compute; reflexivity|apply Forall_singleton; vm_compute; reflexivity]|done|done|].
  apply wf_key_by_compute. vm_compute. reflexivity.
Defined.

(** Tags round-trip: a tag of an object name, of any type, with a one-line name and
    with or without a tagger, is parsed back from the bytes [serializeTag] writes. *)
Theorem tag_roundtrip t : tag_ok t → parseTag (serializeTag t) = Ok t.
Proof.
  intros Ht. pose proof Ht as (Ho & _ & Hp & [Hu Hw]). unfold parseTag, serializeTag.
  rewrite decode_lossy_encode by (done || by unfold tag_lines). rewrite tag_text_roundtrip by done.
  cbn [message_of headers]. unfold tag_headers.
  cbn [app]. rewrite (fold_headers_cons _ _ _ _ _ (tag_header_object _ _ _ Ho)).
  rewrite (fold_headers_cons _ _ _ _ _ (tag_header_type _ _ _)).
  rewrite (fold_headers_cons _ _ _ _ _ (tag_header_tag _ _ _)). cbn [t_object t_type t_tag tagger t_message].
  destruct t as [o ty tag [p|] m]; cbn [t_object t_type t_tag tagger t_message] in *; [|done].
  rewrite (fold_headers_cons _ _ _ _ _ (tag_header_tagger _ _ _)). cbn. by rewrite person_roundtrip by by apply Hp.
Qed.

Lemma tag_roundtrip_witness :
  parseTag (serializeTag (mkTag ZERO_OID tag_type (js "v1.0") (Some example_person) (js "release"))) =
  Ok (mkTag ZERO_OID tag_type (js "v1.0") (Some example_person) (js "release")).
Proof.
  apply tag_roundtrip. split_and!.
  - vm_compute. reflexivity.
  - intros Hin%(bool_decide_eq_true_2 (_ ∈ _)). by vm_compute in Hin.
  - intros p [= <-]. apply person_ok_example.
  - apply wf_key_by_compute. vm_compute. reflexivity.
Defined.
