(* ===== verification/RefName.v ===== *)
(** Reference names: src/packages/git/src/common/ref-name.ts and
    src/packages/git/src/store/refs/ref-validation.ts. *)

From S2P Require Import Prelude Utf8 Text Bytes Streams Paths.

Definition MAX_REF_NAME_BYTES : Z := 1024.

(** * Text *)

Inductive RefTextProblem := invalid_character | noncanonical_utf16 | too_long.
Record RefTextCheck := refTextCheck { bytes_of : Z; problem : option RefTextProblem }.

#[export] Instance RefTextProblem_eq_dec : EqDecision RefTextProblem.
Proof. solve_decision. Defined.

Definition over_limit (limit : option Z) (bytes : Z) : bool :=
  match limit with Some limit => limit <? bytes | None => false end.

(** The loop of [checkRefText] on the suffix at [index]. *)
Fixpoint checkRefText_loop (limit : option Z) (bytes : Z) (value : list Z) : RefTextCheck :=
  match value with
  | [] => refTextCheck bytes None
  | unit :: rest =>
      if (unit =? 0) || (unit =? 0x0a) || (unit =? 0x0d) then refTextCheck bytes (Some invalid_character)
      else if (0xd800 <=? unit) && (unit <=? 0xdbff) then
        match rest with
        | low :: rest' =>
            if negb ((0xdc00 <=? low) && (low <=? 0xdfff)) then refTextCheck bytes (Some noncanonical_utf16)
            else
              let bytes := bytes + 4 in
              if over_limit limit bytes then refTextCheck bytes (Some too_long)
              else checkRefText_loop limit bytes rest'
        | [] => refTextCheck bytes (Some noncanonical_utf16)
        end
      else if (0xdc00 <=? unit) && (unit <=? 0xdfff) then refTextCheck bytes (Some noncanonical_utf16)
      else
        let bytes := bytes + (if unit <? 0x80 then 1 else if unit <? 0x800 then 2 else 3) in
        if over_limit limit bytes then refTextCheck bytes (Some too_long)
        else checkRefText_loop limit bytes rest
  end.

Definition checkRefText (value : list Z) (limit : option Z) : RefTextCheck :=
  checkRefText_loop limit 0 value.

(** * Syntax *)

(** [value.endsWith(suffix, end)] and [value.startsWith(prefix, start)]. *)
Definition endsWith_at (value suffix : list Z) (end_ : Z) : bool :=
  (0 <=? end_ - zlen suffix) && str_eqb (slice value (end_ - zlen suffix) end_) suffix.
Definition startsWith_at (value prefix : list Z) (start : Z) : bool :=
  startsWith (slice_from value start) prefix.

Definition LOCK : list Z := js ".lock".
Definition FORBIDDEN : list Z := js " ~^:?*[\".

(** The loop over the [n] units from [index]; it returns [componentStart], or
    [None] where the code returns [false]. *)
Fixpoint ref_syntax_loop (value : list Z) (wildcard : Z) (n : nat) (index componentStart : Z)
  : option Z :=
  match n with
  | O => Some componentStart
  | S n =>
      let code := default 0 (at_ value index) in
      if code =? 0x2f then
        if (index =? componentStart) || unit_is (at_ value componentStart) 0x2e ||
           endsWith_at value LOCK index
        then None
        else ref_syntax_loop value wildcard n (index + 1) (index + 1)
      else
        let next := at_ value (index + 1) in
        if ((code =? 0x2e) && unit_is next 0x2e) || ((code =? 0x40) && unit_is next 0x7b) then None
        else if (code <? 0x20) || (code =? 0x7f) ||
                (bool_decide (code ∈ FORBIDDEN) && negb (index =? wildcard)) then None
        else ref_syntax_loop value wildcard n (index + 1) componentStart
  end.

Definition hasCanonicalRefSyntaxWithWildcard (value : list Z) (wildcard start end_ : Z) : bool :=
  if negb (isSafeInteger start) || negb (isSafeInteger end_) || (start <? 0) || (end_ <=? start) ||
     (zlen value <? end_)
  then false
  else if ((end_ - start =? 1) && unit_is (at_ value start) 0x40) ||
          unit_is (at_ value start) 0x2f || unit_is (at_ value (end_ - 1)) 0x2f ||
          unit_is (at_ value (end_ - 1)) 0x2e || startsWith_at value (js "ref: ") start
  then false
  else
    match ref_syntax_loop value wildcard (Z.to_nat (end_ - start)) start start with
    | None => false
    | Some componentStart =>
        negb (unit_is (at_ value componentStart) 0x2e) && negb (endsWith_at value LOCK end_)
    end.

Definition hasCanonicalRefSyntax (value : list Z) (start end_ : Z) : bool :=
  hasCanonicalRefSyntaxWithWildcard value (-1) start end_.

Definition hasCanonicalRefPatternSyntax (value : list Z) (wildcard : Z) : bool :=
  hasCanonicalRefSyntaxWithWildcard value wildcard 0 (zlen value).

(** * Validation of stored and given values *)

(** A value of type [unknown]: a string, or anything else. *)
Inductive jsvalue := JString (s : list Z) | JOther.

Definition invalidRefValue {A} (message : list Z) : outcome A := Throw (GitError (js "EINVAL") message).

Definition refTextBytes (value label : list Z) : outcome Z :=
  let checked := checkRefText value None in
  match problem checked with
  | Some invalid_character => invalidRefValue (label ++ js " contains an invalid character")
  | Some noncanonical_utf16 => invalidRefValue (label ++ js " is not canonical UTF-16")
  | _ => Ok (bytes_of checked)
  end.

Definition requireRefName (value : jsvalue) (label : list Z) (allowHead : bool) : outcome (list Z) :=
  match value with
  | JOther => invalidRefValue (label ++ js " is invalid")
  | JString value =>
      if str_eqb value [] || (negb allowHead && str_eqb value (js "HEAD"))
      then invalidRefValue (label ++ js " is invalid")
      else
        _ ← refTextBytes value label;
        if negb (hasCanonicalRefSyntax value 0 (zlen value))
        then invalidRefValue (label ++ js " is invalid")
        else Ok value
  end.

Definition hasRawSymbolicTarget (value : list Z) : bool :=
  startsWith value (js "ref: ") && (5 <? zlen value) &&
  negb ((zlen value =? 9) && endsWith_at value (js "HEAD") (zlen value)) &&
  hasCanonicalRefSyntax value 5 (zlen value).

Definition rawSymbolicTarget (value : list Z) : option (list Z) :=
  if hasRawSymbolicTarget value then Some (slice_from value 5) else None.

Definition requireRawRefTarget (value : jsvalue) (label : list Z) : outcome (list Z) :=
  match value with
  | JOther => invalidRefValue (label ++ js " is invalid")
  | JString value =>
      if str_eqb value [] then invalidRefValue (label ++ js " is invalid")
      else
        _ ← refTextBytes value label;
        if isOid value then Ok value
        else if negb (hasRawSymbolicTarget value)
        then invalidRefValue (label ++ js " is not an OID or symbolic ref")
        else Ok value
  end.

Definition requireDefaultBranch (value : jsvalue) : outcome (list Z) :=
  name ← requireRefName value (js "default branch") false;
  if negb (startsWith name (js "refs/heads/"))
  then Throw (GitError (js "EINVAL") (js "default branch must be a full refs/heads/ name"))
  else Ok name.

(** * What check-ref-format asks *)

Definition ends_with (s suffix : list Z) : Prop := ∃ p, s = p ++ suffix.

(** A component: not empty, no leading dot, no trailing [.lock]. *)
Definition component_ok (c : list Z) : Prop :=
  c ≠ [] ∧ head c ≠ Some 0x2e ∧ ¬ ends_with c LOCK.

(** No control character and none of the forbidden ones, except at the wildcard;
    the units of [s] stand at the positions from [base]. *)
Definition allowed_from (wildcard base : Z) (s : list Z) : Prop :=
  ∀ i u, s !! i = Some u →
  0x20 <= u ∧ u ≠ 0x7f ∧ (u ∈ FORBIDDEN → base + Z.of_nat i = wildcard).

Definition ref_format (wildcard base : Z) (s : list Z) : Prop :=
  s ≠ [0x40] ∧ last s ≠ Some 0x2e ∧ Forall component_ok (split SLASH s) ∧
  no_pair 0x2e 0x2e s ∧ no_pair 0x40 0x7b s ∧ allowed_from wildcard base s.

(** A reference name: no wildcard. *)
Definition ref_name (s : list Z) : Prop := ref_format (-1) 0 s.

(** * Facts *)

Lemma allowed_cons w base u s :
  allowed_from w base (u :: s) ↔
  (0x20 <= u ∧ u ≠ 0x7f ∧ (u ∈ FORBIDDEN → base = w)) ∧ allowed_from w (base + 1) s.
Proof.
  unfold allowed_from. split.
  - intros H. split.
    + destruct (H O u eq_refl) as (?&?&Hf). split_and!; [done..|]. intros ?%Hf. lia.
    + intros i v Hi. destruct (H (S i) v Hi) as (?&?&Hf). split_and!; [done..|]. intros ?%Hf. lia.
  - intros [(?&?&Hf) Hall] [|i] v Hi; simplify_eq/=.
    + split_and!; [done..|]. intros ?%Hf. lia.
    + destruct (Hall i v Hi) as (?&?&Hf'). split_and!; [done..|]. intros ?%Hf'. lia.
Qed.

(** Nothing before [done]'s end can take part in a [.lock]. *)
Definition boundary (done : list Z) : Prop := ∀ u, last done = Some u → u ∉ LOCK.

Lemma boundary_slash done : boundary (done ++ [SLASH]).
Proof.
  intros u. rewrite last_snoc. intros [= <-] Hin%(bool_decide_eq_true_2 (SLASH ∈ LOCK)).
  by vm_compute in Hin.
Qed.

Lemma endsWith_at_spec a b suffix :
  endsWith_at (a ++ b) suffix (zlen a) = true ↔ ends_with a suffix.
Proof.
  unfold endsWith_at, str_eqb, ends_with. rewrite andb_true_iff, Z.leb_le, bool_decide_eq_true.
  unfold slice. split.
  - intros [Hle E]. set (n := Z.to_nat (zlen a - zlen suffix)) in *. exists (take n a).
    assert (n <= length a ∧ length a - n = length suffix)%nat as [? Hlen] by (subst n; unfold zlen in *; lia).
    replace (Z.to_nat (zlen a - (zlen a - zlen suffix))) with (length suffix) in E by (unfold zlen; lia).
    rewrite drop_app_le, take_app_le, take_ge in E by (rewrite ?length_drop; lia).
    rewrite <- E at 1. by rewrite take_drop.
  - intros [p ->]. rewrite zlen_app. pose proof (zlen_nonneg p). split; [lia|].
    replace (zlen p + zlen suffix - zlen suffix) with (zlen p) by lia.
    replace (zlen p + zlen suffix - zlen p) with (zlen suffix) by lia.
    unfold zlen. rewrite !Nat2Z.id, <- app_assoc, drop_app_length. apply take_app_length.
Qed.

Lemma ends_with_boundary done comp :
  boundary done → ends_with (done ++ comp) LOCK ↔ ends_with comp LOCK.
Proof.
  intros Hb. split.
  - intros [p E]. apply app_eq_inv in E as [(k & -> & E)|(k & _ & ->)]; [|by exists k].
    destruct k as [|u k _] using rev_ind; [by exists []|].
    destruct (Hb u); [by rewrite app_assoc, last_snoc|]. rewrite E. set_solver.
  - intros [p ->]. exists (done ++ p). by rewrite app_assoc.
Qed.

Lemma component_ok_at done comp rest :
  boundary done → SLASH ∉ comp → comp ≠ [] →
  component_ok comp ↔
  unit_is (at_ (done ++ comp ++ rest) (zlen done)) 0x2e = false ∧
  endsWith_at (done ++ comp ++ rest) LOCK (zlen done + zlen comp) = false.
Proof.
  intros Hb Hs Hne. unfold unit_is. rewrite at_app, bool_decide_eq_false.
  rewrite <- not_true_iff_false, app_assoc, <- zlen_app, endsWith_at_spec, ends_with_boundary by done.
  unfold component_ok. destruct comp; [done|]. simpl. naive_solver.
Qed.

(** The outcome of the loop and of the test that follows it. *)
Definition ref_syntax_from (value : list Z) (wildcard : Z) (n : nat) (index componentStart end_ : Z) : bool :=
  match ref_syntax_loop value wildcard n index componentStart with
  | None => false
  | Some componentStart =>
      negb (unit_is (at_ value componentStart) 0x2e) && negb (endsWith_at value LOCK end_)
  end.

Lemma ref_syntax_from_spec wildcard rest done comp :
  boundary done → SLASH ∉ comp → comp ++ rest ≠ [] → last (comp ++ rest) ≠ Some SLASH →
  let value := done ++ comp ++ rest in
  ref_syntax_from value wildcard (length rest) (zlen done + zlen comp) (zlen done) (zlen value) = true ↔
  Forall component_ok (split SLASH (comp ++ rest)) ∧ no_pair 0x2e 0x2e rest ∧ no_pair 0x40 0x7b rest ∧
  allowed_from wildcard (zlen done + zlen comp) rest.
Proof.
  revert done comp. induction rest as [|u rest IH]; intros done comp Hb Hs Hne Hlast value.
  - unfold ref_syntax_from. cbn [length ref_syntax_loop].
    assert (comp ≠ []) as Hc by (by rewrite app_nil_r in Hne).
    pose proof (component_ok_at done comp [] Hb Hs Hc) as Hok. fold value in Hok.
    assert (zlen value = zlen done + zlen comp) as -> by (subst value; by rewrite app_nil_r, zlen_app).
    rewrite andb_true_iff, !negb_true_iff, <- Hok, app_nil_r, split_part, Forall_singleton by done.
    split; [|tauto]. intros ?. split_and!; auto using no_pair_nil. intros i v Hi. done.
  - set (next := ref_syntax_from _ _ _ _ _ _).
    assert (at_ value (zlen done + zlen comp) = Some u) as Hu.
    { subst value. by rewrite app_assoc, <- zlen_app, at_app. }
    assert (at_ value (zlen done + zlen comp + 1) = head rest) as Hn.
    { subst value. replace (done ++ comp ++ u :: rest) with ((done ++ comp ++ [u]) ++ rest)
        by (by rewrite <- !app_assoc).
      replace (zlen done + zlen comp + 1) with (zlen (done ++ comp ++ [u]))
        by (rewrite !zlen_app; change (zlen [u]) with 1; lia). apply at_app. }
    subst next. unfold ref_syntax_from. cbn [length ref_syntax_loop]. rewrite Hu, Hn.
    change (default 0 (Some u)) with u. rewrite !no_pair_cons, allowed_cons.
    destruct (u =? 0x2f) eqn:Eu; zbool.
    + subst u. rewrite split_app, split_part, Forall_app, Forall_singleton by done.
      assert (rest ≠ []) as Hr by (intros ->; by rewrite last_snoc in Hlast).
      assert (last rest ≠ Some SLASH) as Hlr.
      { intros E. apply Hlast. by rewrite last_app, last_cons, E. }
      specialize (IH (done ++ comp ++ [SLASH]) []). simpl app in IH. cbv zeta in IH.
      replace ((done ++ comp ++ [SLASH]) ++ rest) with value in IH by (subst value; by rewrite <- !app_assoc).
      replace (zlen (done ++ comp ++ [SLASH])) with (zlen done + zlen comp + 1) in IH
        by (rewrite !zlen_app; change (zlen [SLASH]) with 1; lia).
      change (zlen []) with 0 in IH. rewrite Z.add_0_r in IH. fold (ref_syntax_from value wildcard (length rest)
        (zlen done + zlen comp + 1) (zlen done + zlen comp + 1) (zlen value)).
      assert (boundary (done ++ comp ++ [SLASH])) as Hb' by (rewrite app_assoc; apply boundary_slash).
      specialize (IH Hb' (not_elem_of_nil _) Hr Hlr).
      assert (0x2f ∉ FORBIDDEN) by (intros Hin%(bool_decide_eq_true_2 (0x2f ∈ FORBIDDEN)); by vm_compute in Hin).
      destruct (decide (comp = [])) as [->|Hc].
      { change (zlen []) with 0. rewrite Z.add_0_r, Z.eqb_refl. simpl. split; [done|].
        intros [[[? _] _] _]. done. }
      assert (0 < zlen comp) by (destruct comp; [done|]; rewrite zlen_cons; pose proof (zlen_nonneg comp); lia).
      rewrite (proj2 (Z.eqb_neq (zlen done + zlen comp) (zlen done))) by lia. cbn [orb].
      pose proof (component_ok_at done comp (0x2f :: rest) Hb Hs Hc) as Hok. fold value in Hok.
      destruct (unit_is _ _); cbn [orb]; [split; [done|]; by intros [[[??]%Hok _] _]|].
      destruct (endsWith_at value LOCK _); cbn [orb]; [split; [done|]; by intros [[[??]%Hok _] _]|].
      rewrite IH. split.
      * intros (?&?&?&?). split_and!; try done; [by apply Hok|by intros [? _]..].
      * intros ([_ ?] & [_ ?] & [_ ?] & [_ ?]). done.
    + fold (ref_syntax_from value wildcard (length rest) (zlen done + zlen comp + 1) (zlen done) (zlen value)).
      specialize (IH done (comp ++ [u])). rewrite zlen_app, <- app_assoc in IH. simpl app in IH. cbv zeta in IH.
      change (zlen [u]) with 1 in IH. rewrite Z.add_assoc in IH. fold value in IH.
      assert (SLASH ∉ comp ++ [u]) as Hs'.
      { rewrite not_elem_of_app, not_elem_of_cons. split_and!; auto using not_elem_of_nil. }
      specialize (IH Hb Hs' Hne Hlast). unfold unit_is.
      destruct (decide (u = 0x2e ∧ head rest = Some 0x2e)) as [[-> Hd]|Hd].
      { rewrite Hd. simpl. split; [done|]. by intros (_ & [[] _] & _). }
      destruct (decide (u = 0x40 ∧ head rest = Some 0x7b)) as [[-> Ha]|Ha].
      { rewrite Ha. simpl. split; [done|]. by intros (_ & _ & [[] _] & _). }
      assert (((u =? 0x2e) && bool_decide (head rest = Some 0x2e)) ||
              ((u =? 0x40) && bool_decide (head rest = Some 0x7b)) = false) as ->.
      { apply orb_false_iff. rewrite !andb_false_iff, !Z.eqb_neq, !bool_decide_eq_false.
        destruct (decide (u = 0x2e)), (decide (u = 0x40)); naive_solver. }
      destruct (decide (0x20 <= u ∧ u ≠ 0x7f ∧ (u ∈ FORBIDDEN → zlen done + zlen comp = wildcard))) as [Hal|Hal].
      * assert ((u <? 0x20) || (u =? 0x7f) ||
                (bool_decide (u ∈ FORBIDDEN) && negb (zlen done + zlen comp =? wildcard)) = false) as ->.
        { destruct Hal as (?&?&Hf). zdec. case_bool_decide as E; [|done]. rewrite Hf by done. by rewrite Z.eqb_refl. }
        rewrite IH. split; [by intros (?&?&?&?)|by intros (?&[_ ?]&[_ ?]&[_ ?])].
      * destruct (_ || _) eqn:E; [split; [done|]; by intros (_&_&_&?&_)|]. destruct Hal.
        apply orb_false_iff in E as [[E1 E2]%orb_false_iff E]. apply Z.ltb_ge in E1. apply Z.eqb_neq in E2.
        split_and!; [done..|]. intros Hin.
        rewrite bool_decide_eq_true_2 in E by done. simpl in E. by apply negb_false_iff, Z.eqb_eq in E.
Qed.

Lemma split_last_not_slash s : Forall component_ok (split SLASH s) → last s ≠ Some SLASH.
Proof.
  intros Hg. destruct s as [|u s _] using rev_ind; [done|]. rewrite last_snoc. intros [= ->].
  rewrite split_app, Forall_app in Hg. destruct Hg as [_ Hg].
  apply Forall_singleton in Hg as [? _]. done.
Qed.

Lemma safe_length n : 0 <= n <= MAX_SAFE_INTEGER → isSafeInteger n = true.
Proof. intros. apply safe_int. lia. Qed.

Lemma head_not_slash s : Forall component_ok (split SLASH s) → head s ≠ Some SLASH.
Proof.
  destruct s as [|u s]; [done|]. intros Hg [= ->].
  change (split SLASH (SLASH :: s)) with ([] :: split SLASH s) in Hg. by inversion_clear Hg as [|? ? [? _] _].
Qed.

(** No text of allowed units starts with [ref: ]. *)
Lemma not_ref_prefix wildcard done s :
  wildcard = -1 ∨ at_ (done ++ s) wildcard = Some 0x2a →
  allowed_from wildcard (zlen done) s → startsWith s (js "ref: ") = false.
Proof.
  intros Hw Hal. apply not_true_is_false. intros [k ->]%startsWith_spec.
  destruct (Hal 4%nat 0x20 eq_refl) as (_ & _ & Hf).
  assert (zlen done + 4 = wildcard) as <-.
  { apply Hf. by apply (bool_decide_eq_true_1 (0x20 ∈ FORBIDDEN)). }
  pose proof (zlen_nonneg done). destruct Hw as [Hw|Hw]; [lia|].
  replace (zlen done + 4) with (zlen (done ++ js "ref:")) in Hw by (by rewrite zlen_app).
  change (js "ref: ") with (js "ref:" ++ [0x20]) in Hw. rewrite <- app_assoc, app_assoc, at_app in Hw. done.
Qed.

(** The check of the text that follows [done], to the end of the string. *)
Lemma ref_syntax_spec wildcard done s :
  boundary done → zlen (done ++ s) <= MAX_SAFE_INTEGER →
  wildcard = -1 ∨ at_ (done ++ s) wildcard = Some 0x2a →
  hasCanonicalRefSyntaxWithWildcard (done ++ s) wildcard (zlen done) (zlen (done ++ s)) = true ↔
  ref_format wildcard (zlen done) s.
Proof.
  intros Hb Hmax Hw. unfold hasCanonicalRefSyntaxWithWildcard, ref_format.
  pose proof (zlen_nonneg done). pose proof (zlen_nonneg s). rewrite zlen_app in Hmax.
  rewrite !safe_length by (rewrite ?zlen_app; lia). rewrite Z.ltb_irrefl, orb_false_r. cbn [negb orb].
  rewrite (proj2 (Z.ltb_ge _ _)) by done. cbn [orb].
  destruct s as [|u s].
  { rewrite app_nil_r, (proj2 (Z.leb_le _ _)) by lia. split; [done|].
    intros (_ & _ & Hc & _). by apply Forall_singleton in Hc as [? _]. }
  set (t := u :: s) in *.
  assert (0 < zlen t) by (subst t; rewrite zlen_cons; pose proof (zlen_nonneg s); lia).
  rewrite (proj2 (Z.leb_gt _ _)) by (rewrite zlen_app; lia).
  rewrite at_app, at_last, last_app. unfold startsWith_at. rewrite slice_from_app.
  pose proof (ref_syntax_from_spec wildcard t done [] Hb (not_elem_of_nil _) ltac:(done)) as Hloop.
  simpl app in Hloop. cbv zeta in Hloop. change (zlen []) with 0 in Hloop. rewrite Z.add_0_r in Hloop.
  assert (∃ l, last t = Some l) as [l Hl] by (subst t; rewrite last_cons; destruct (last s); eauto).
  rewrite Hl in Hloop |- *. rewrite zlen_app.
  replace (zlen done + zlen t - zlen done) with (zlen t) by lia.
  replace (Z.to_nat (zlen t)) with (length t) by (unfold zlen; lia).
  rewrite <- zlen_app. fold (ref_syntax_from (done ++ t) wildcard (length t) (zlen done) (zlen done) (zlen (done ++ t))).
  unfold unit_is. destruct (_ || _) eqn:E.
  - split; [done|]. intros (Hr1 & Hr2 & Hr3 & Hr4 & Hr5 & Hr6). exfalso.
    rewrite (not_ref_prefix wildcard done t Hw Hr6), orb_false_r in E.
    pose proof (head_not_slash t Hr3) as Hr7. pose proof (split_last_not_slash t Hr3) as Hr8. rewrite Hl in Hr8.
    rewrite !orb_true_iff, !andb_true_iff, !bool_decide_eq_true, Z.eqb_eq in E.
    destruct E as [[[[E E']|E]|E]|E]; [|by simplify_eq..].
    apply Hr1. destruct s; [by injection E' as ->|]. subst t. rewrite !zlen_cons in E.
    pose proof (zlen_nonneg s). lia.
  - rewrite !orb_false_iff, !bool_decide_eq_false in E.
    destruct E as [[[[E1 E2] E3] E4] E5]. rewrite Hloop by (intros [= ->]; done).
    split; [|by intros (_ & _ & ?)]. intros Hok. split_and!; try (by destruct_and!).
    intros Et. by rewrite Et in E1.
Qed.

Lemma hasCanonicalRefSyntax_iff done s :
  boundary done → zlen (done ++ s) <= MAX_SAFE_INTEGER →
  hasCanonicalRefSyntax (done ++ s) (zlen done) (zlen (done ++ s)) = true ↔ ref_name s.
Proof.
  intros Hb Hmax. unfold hasCanonicalRefSyntax. rewrite ref_syntax_spec by auto.
  unfold ref_name, ref_format.
  enough (allowed_from (-1) (zlen done) s ↔ allowed_from (-1) 0 s) as -> by done.
  pose proof (zlen_nonneg done). unfold allowed_from.
  split; intros Hal i u Hu; destruct (Hal i u Hu) as (?&?&Hf); split_and!; try done; intros ?%Hf; lia.
Qed.

(** ** Text *)

(** A text that its UTF-8 encoding determines. *)
Definition text_ok (t : ustring) : Prop := units t ∧ isWellFormed t = true.

Lemma wf_app a b : isWellFormed a = true → isWellFormed b = true → isWellFormed (a ++ b) = true.
Proof.
  intros Ha Hb. remember (length a) as n eqn:Hn. revert a Hn Ha.
  induction n as [n IH] using (well_founded_induction Nat.lt_wf_0). intros [|u a] -> Hw; [done|].
  cbn [app]. cbn [isWellFormed] in *. destruct (is_high u).
  - destruct a as [|low a]; [done|]. apply andb_prop in Hw as [Hl Hw]. cbn [app]. rewrite Hl.
    eapply IH; [|reflexivity|done]. simpl. lia.
  - apply andb_prop in Hw as [-> Hw]. eapply IH; [|reflexivity|done]. simpl. lia.
Qed.

Lemma text_ok_app a b : text_ok a → text_ok b → text_ok (a ++ b).
Proof. intros [? ?] [? ?]. split; [by apply Forall_app|by apply wf_app]. Qed.

Lemma text_ok_ascii a : ascii a → text_ok a.
Proof. intros Ha. split; [by apply ascii_units|by apply ascii_wf]. Qed.

Lemma ascii_decided s : forallb (λ u, (0 <=? u) && (u <? 128)) s = true → ascii s.
Proof. rewrite forallb_forall. intros H. apply Forall_forall. intros u Hu. apply list_elem_of_In, H, andb_prop in Hu as [? ?]. zbool. lia. Qed.

(** An encoding is at least as long as its text. *)
Lemma encode_length s : units s → zlen s <= zlen (encode s).
Proof.
  remember (length s) as n eqn:Hn. revert s Hn. induction n as [n IH] using (well_founded_induction Nat.lt_wf_0). intros [|u s] -> Hu; [done|].
  inversion_clear Hu as [|? ? Hu1 Hu2]. unfold encode in *. destruct (is_high u) eqn:Eh.
  - destruct s as [|low s]; [cbn [points]; rewrite Eh; done|]. destruct (is_low low) eqn:El.
    + rewrite points_pair by done. cbn [flat_map]. rewrite zlen_app, point_bytes_pair, !zlen_cons by done. inversion_clear Hu2.
      assert (zlen s <= zlen (flat_map point_bytes (points s))) by (eapply IH; [|reflexivity|done]; simpl; lia). lia.
    + assert (points (u :: low :: s) = REPLACEMENT :: points (low :: s)) as -> by (cbn [points]; by rewrite Eh, El).
      cbn [flat_map]. rewrite zlen_app, zlen_cons.
      assert (zlen (low :: s) <= zlen (flat_map point_bytes (points (low :: s)))) by (eapply IH; [|reflexivity|done]; simpl; lia).
      change (zlen (point_bytes REPLACEMENT)) with 3. lia.
  - cbn [points]. rewrite Eh. assert (zlen s <= zlen (flat_map point_bytes (points s))) by (eapply IH; [|reflexivity|done]; simpl; lia).
    destruct (is_low u); cbn [flat_map]; rewrite zlen_app, zlen_cons.
    + change (zlen (point_bytes REPLACEMENT)) with 3. lia.
    + rewrite point_bytes_unit by done. repeat case_match; lia.
Qed.

Definition text_unit (u : Z) : Prop := u ≠ 0 ∧ u ≠ 0x0a ∧ u ≠ 0x0d.

Lemma checkRefText_loop_spec limit n value bytes :
  n = length value → units value → over_limit limit bytes = false →
  let check := checkRefText_loop limit bytes value in
  (problem check = None ↔
     Forall text_unit value ∧ isWellFormed value = true ∧
     over_limit limit (bytes + zlen (encode value)) = false) ∧
  (problem check = None → bytes_of check = bytes + zlen (encode value)) ∧
  (limit = None → problem check ≠ Some too_long).
Proof.
  revert value bytes. induction n as [n IH] using (well_founded_induction Nat.lt_wf_0).
  intros [|u rest] bytes -> Hu Hlim; cbn [checkRefText_loop].
  { change (zlen (encode [])) with 0. rewrite Z.add_0_r. simpl. split_and!; [|done..].
    split; [|done]. intros _. split_and!; [apply Forall_nil|..]; done. }
  inversion_clear Hu as [|? ? Hu1 Hrest]. fold (is_high u) (is_low u). rewrite Forall_cons. cbn [isWellFormed].
  destruct ((u =? 0) || (u =? 0x0a) || (u =? 0x0d)) eqn:Ebad.
  { simpl. split_and!; [|done..]. split; [done|]. intros ([(?&?&?) _] & _).
    rewrite !orb_true_iff, !Z.eqb_eq in Ebad. naive_solver. }
  assert (text_unit u) as Htu by (rewrite !orb_false_iff, !Z.eqb_neq in Ebad; by destruct Ebad as [[??]?]).
  assert (∀ tail bytes', (length tail < length (u :: rest))%nat → units tail →
    let k := zlen (encode (u :: rest)) - zlen (encode tail) in
    bytes' = bytes + k → 0 <= k →
    (Forall text_unit rest ↔ Forall text_unit tail) →
    let check := if over_limit limit bytes' then refTextCheck bytes' (Some too_long)
                 else checkRefText_loop limit bytes' tail in
    (problem check = None ↔ (text_unit u ∧ Forall text_unit rest) ∧ isWellFormed tail = true ∧
       over_limit limit (bytes + zlen (encode (u :: rest))) = false) ∧
    (problem check = None → bytes_of check = bytes + zlen (encode (u :: rest))) ∧
    (limit = None → problem check ≠ Some too_long)) as Hstep.
  { intros tail bytes' Hlt Htail k Hb Hk Hiff. pose proof (zlen_nonneg (encode tail)).
    replace (bytes + zlen (encode (u :: rest))) with (bytes' + zlen (encode tail)) by (subst k; lia).
    destruct (over_limit limit bytes') eqn:Eo; cbv zeta.
    - simpl. split_and!; [|done|by intros ->]. split; [done|]. intros (_ & _ & Hno).
      destruct limit; simpl in *; [zbool; lia|done].
    - destruct (IH (length tail) Hlt tail bytes' eq_refl Htail Eo) as (H1 & H2 & H3).
      split_and!; [|done..]. rewrite H1, Hiff. naive_solver. }
  destruct (is_high u) eqn:Eh.
  - destruct rest as [|low rest]; [simpl; split_and!; [|done..]; split; [done|]; by intros (_&?&_)|].
    fold (is_low low). destruct (is_low low) eqn:El; cbn [negb andb].
    + inversion_clear Hrest as [|? ? Hlow Hrest'].
      assert (encode (u :: low :: rest) = point_bytes (pair_point u low) ++ encode rest) as Ee
        by (unfold encode; by rewrite points_pair).
      apply Hstep; [simpl; lia|done|rewrite Ee, zlen_app, point_bytes_pair by done; lia..|].
      rewrite Forall_cons. assert (text_unit low) by (unfold text_unit, is_low in *; zbool; lia). naive_solver.
    + simpl. split_and!; [|done..]. split; [done|]. by intros (_&?&_).
  - destruct (is_low u) eqn:El; cbn [negb andb].
    + simpl. split_and!; [|done..]. split; [done|]. by intros (_&?&_).
    + assert (encode (u :: rest) = point_bytes u ++ encode rest) as Ee
        by (unfold encode; by rewrite points_single).
      apply Hstep; [simpl; lia|done|rewrite Ee, zlen_app, point_bytes_unit by done; repeat case_match; lia..|done].
Qed.

Lemma checkRefText_spec value limit :
  units value → over_limit limit 0 = false →
  (problem (checkRefText value limit) = None ↔
     Forall text_unit value ∧ isWellFormed value = true ∧ over_limit limit (zlen (encode value)) = false) ∧
  (problem (checkRefText value limit) = None → bytes_of (checkRefText value limit) = zlen (encode value)) ∧
  (limit = None → problem (checkRefText value limit) ≠ Some too_long).
Proof. apply (checkRefText_loop_spec limit (length value) value 0 eq_refl). Qed.

Lemma refTextBytes_ok value label n :
  units value → refTextBytes value label = Ok n ↔
  Forall text_unit value ∧ isWellFormed value = true ∧ n = zlen (encode value).
Proof.
  intros Hu. destruct (checkRefText_spec value None Hu eq_refl) as (H1 & H2 & H3). unfold refTextBytes.
  destruct (problem (checkRefText value None)) as [[]|] eqn:E.
  - split; [done|]. intros (Ht & Hw & _). by pose proof (proj2 H1 (conj Ht (conj Hw eq_refl))).
  - split; [done|]. intros (Ht & Hw & _). by pose proof (proj2 H1 (conj Ht (conj Hw eq_refl))).
  - by destruct H3.
  - destruct (proj1 H1 eq_refl) as (?&?&_). rewrite H2 by done. split; [by intros [= <-]|by intros (_&_&->)].
Qed.

Lemma boundary_nil : boundary [].
Proof. done. Qed.

Lemma boundary_ref : boundary (js "ref: ").
Proof. intros u [= <-] Hin%(bool_decide_eq_true_2 (0x20 ∈ LOCK)). by vm_compute in Hin. Qed.

(** A raw symbolic value is [ref: ] and the name it stores. *)
Lemma hasRawSymbolicTarget_spec value :
  zlen value <= MAX_SAFE_INTEGER →
  hasRawSymbolicTarget value = true ↔
  ∃ name, value = js "ref: " ++ name ∧ ref_name name ∧ name ≠ js "HEAD".
Proof.
  intros Hmax. unfold hasRawSymbolicTarget. rewrite !andb_true_iff, negb_true_iff. split.
  - intros [[[[name ->]%startsWith_spec Hlen] Hhead] Hsyn]. exists name. split; [done|].
    change 5 with (zlen (js "ref: ")) in Hsyn. apply hasCanonicalRefSyntax_iff in Hsyn; [|apply boundary_ref|done].
    split; [done|]. intros ->. by vm_compute in Hhead.
  - intros (name & -> & Hn & Hne). split_and!.
    + apply startsWith_app.
    + rewrite zlen_app. destruct name; [by destruct Hn as (_&_&[? _]%Forall_singleton&_)|].
      rewrite zlen_cons. change (zlen (js "ref: ")) with 5. pose proof (zlen_nonneg name). by zdec.
    + apply not_true_is_false. intros [El%Z.eqb_eq Ee]%andb_prop.
      rewrite zlen_app in El. change (zlen (js "ref: ")) with 5 in El.
      rewrite <- (app_nil_r (_ ++ name)) in Ee at 1. apply endsWith_at_spec in Ee as [p Hp].
      apply (f_equal (drop (length (js "ref: ")))) in Hp as Hd. rewrite drop_app_length in Hd.
      assert (length p = length (js "ref: ")) as Hlp.
      { apply (f_equal length) in Hp. rewrite !length_app in Hp. unfold zlen in El. simpl in *. lia. }
      rewrite <- Hlp, drop_app_length in Hd. done.
    + change 5 with (zlen (js "ref: ")). by apply hasCanonicalRefSyntax_iff; [apply boundary_ref| |].
Qed.

(** * Properties *)

(** C30: [hasCanonicalRefSyntax] on a whole string is git's check-ref-format: it accepts
    exactly the texts that are not [@], do not end in a dot, have no empty component and
    none that starts with a dot or ends in [.lock], no double dot, no [@{], no control
    character and none of space, tilde, caret, colon, question mark, star, bracket and
    backslash. *)
Theorem hasCanonicalRefSyntax_correct value :
  zlen value <= MAX_SAFE_INTEGER →
  hasCanonicalRefSyntax value 0 (zlen value) = true ↔ ref_name value.
Proof. intros. by apply (hasCanonicalRefSyntax_iff [] value boundary_nil). Qed.

Lemma hasCanonicalRefSyntax_correct_witness :
  ref_name (js "refs/heads/main") ∧ ¬ ref_name (js "refs/heads/main.lock").
Proof.
  assert (∀ s : list Z, (Z.of_nat (length s) <=? 100) = true → zlen s <= MAX_SAFE_INTEGER) as Hlen.
  { intros s Hs. zbool. unfold zlen, MAX_SAFE_INTEGER. lia. }
  split.
  - apply hasCanonicalRefSyntax_correct; [by apply Hlen|reflexivity].
  - intros Hn. apply hasCanonicalRefSyntax_correct in Hn; [by vm_compute in Hn|by apply Hlen].
Defined.

(** [checkRefText] reports no problem exactly for well-formed text without NUL,
    LF and CR whose encoding fits the limit, and then its [bytes] is the length of the
    UTF-8 encoding, which is never built. *)
Theorem checkRefText_correct value limit :
  units value → 0 <= limit →
  (problem (checkRefText value (Some limit)) = None ↔
     Forall text_unit value ∧ isWellFormed value = true ∧ zlen (encode value) <= limit) ∧
  (problem (checkRefText value (Some limit)) = None →
     bytes_of (checkRefText value (Some limit)) = zlen (encode value)).
Proof.
  intros Hu Hl. destruct (checkRefText_spec value (Some limit) Hu) as (H1 & H2 & _); [simpl; by apply Z.ltb_ge|].
  split; [|done]. rewrite H1. simpl. by rewrite Z.ltb_ge.
Qed.

Lemma checkRefText_correct_witness :
  problem (checkRefText (js "refs/tags/v1") (Some 1024)) = None ∧
  bytes_of (checkRefText (js "refs/tags/v1") (Some 1024)) = 12 ∧
  problem (checkRefText [0xd800] (Some 1024)) = Some noncanonical_utf16.
Proof.
  destruct (checkRefText_correct (js "refs/tags/v1") 1024) as [_ H]; [by apply units_by_compute|lia|].
  split_and!; [done|by rewrite H|done].
Defined.

(** A text a reference can hold: an object name, or [ref: ] and a reference name. *)
Definition raw_target (value label : list Z) : Prop :=
  Forall text_unit value ∧ isWellFormed value = true ∧
  (isOid value = true ∨
   ∃ name, rawSymbolicTarget value = Some name ∧ value = js "ref: " ++ name ∧
           requireRefName (JString name) label false = Ok name).

Lemma requireRawRefTarget_ok value label v :
  units value → zlen value <= MAX_SAFE_INTEGER →
  requireRawRefTarget (JString value) label = Ok v ↔ v = value ∧ raw_target value label.
Proof.
  intros Hu Hmax. unfold raw_target, requireRawRefTarget, str_eqb. case_bool_decide as E0.
  { split; [done|]. subst. intros (_ & _ & _ & [?|(name & _ & ? & _)]); done. }
  destruct (refTextBytes value label) as [n|e] eqn:Et; cbn [mbind outcome_bind].
  2:{ split; [done|]. intros (_ & Ht & Hw & _).
      by rewrite (proj2 (refTextBytes_ok value label _ Hu) (conj Ht (conj Hw eq_refl))) in Et. }
  apply refTextBytes_ok in Et as (Ht & Hw & _); [|done].
  assert ((∃ name, rawSymbolicTarget value = Some name ∧ value = js "ref: " ++ name ∧
           requireRefName (JString name) label false = Ok name) ↔ hasRawSymbolicTarget value = true) as Hsym.
  { unfold rawSymbolicTarget. split.
    - intros (name & Hn & _). by destruct (hasRawSymbolicTarget value).
    - intros Hs. rewrite Hs. apply hasRawSymbolicTarget_spec in Hs as (name & -> & Hn & Hne); [|done].
      exists name. split_and!; [by rewrite (slice_from_app (js "ref: "))|done|].
      assert (units name ∧ Forall text_unit name ∧ isWellFormed name = true) as (Hun & Htn & Hwn).
      { apply Forall_app in Hu as [_ ?], Ht as [_ ?]. by split_and!. }
      unfold requireRefName, str_eqb. rewrite (bool_decide_eq_false_2 (name = js "HEAD")) by done.
      rewrite bool_decide_eq_false_2 by (intros ->; by destruct Hn as (_&_&[? _]%Forall_singleton&_)).
      simpl orb. cbv iota.
      rewrite (proj2 (refTextBytes_ok name label _ Hun) (conj Htn (conj Hwn eq_refl))). cbn [mbind outcome_bind].
      rewrite zlen_app in Hmax. change (zlen (js "ref: ")) with 5 in Hmax.
      assert (hasCanonicalRefSyntax name 0 (zlen name) = true) as ->; [|done].
      apply (hasCanonicalRefSyntax_iff [] name boundary_nil); [simpl app; lia|done]. }
  rewrite Hsym. destruct (isOid value) eqn:Eo.
  { split; [intros [= <-]; auto|by intros (-> & _)]. }
  destruct (hasRawSymbolicTarget value); simpl.
  - split; [intros [= <-]; auto 6|by intros (-> & _)].
  - split; [done|]. intros (_ & _ & _ & [?|?]); done.
Qed.

(** A refusal is an [EINVAL]. *)
Definition invalid {A} (r : outcome A) : Prop := ∃ message, r = Throw (GitError (js "EINVAL") message).

Lemma requireRawRefTarget_throws value label :
  (∃ v, requireRawRefTarget value label = Ok v) ∨ invalid (requireRawRefTarget value label).
Proof.
  unfold invalid, requireRawRefTarget, refTextBytes, invalidRefValue. destruct value as [value|]; [|by eauto].
  case_match; [by eauto|]. destruct (problem _) as [[]|]; cbn [mbind outcome_bind]; repeat case_match; eauto.
Qed.


