(* ===== verification/MyersState.v ===== *)
(** The state of the line differ: src/packages/git/src/diff/myers-state.ts and lines.ts.
    Lines, change marks, the two sides of a comparison, and what a script of change groups
    means.  The lines that keep no mark are the ones the two sides share. *)

From S2P Require Import Prelude Arrays.

(** * Splitting text into lines *)

Definition NEWLINE : Z := 0x0a.

(** [text.indexOf("\n", start)]. *)
Fixpoint find_newline (l : ustring) (i : Z) : option Z :=
  match l with
  | [] => None
  | u :: l => if u =? NEWLINE then Some i else find_newline l (i + 1)
  end.
Definition indexOf_newline (text : ustring) (start : Z) : option Z :=
  find_newline (slice_from text start) start.

Fixpoint splitLines_loop (fuel : nat) (text : ustring) (start : Z) (lines : list ustring) : option (list ustring) :=
  match fuel with
  | O => None
  | S fuel =>
      match indexOf_newline text start with
      | None => Some (lines ++ [slice_from text start])
      | Some newline =>
          let lines := lines ++ [slice text start (newline + 1)] in
          let start := newline + 1 in
          if start =? zlen text then Some lines else splitLines_loop fuel text start lines
      end
  end.
Definition splitLines (text : ustring) : option (list ustring) :=
  match text with [] => Some [] | _ => splitLines_loop (length text) text 0 [] end.

Definition FIRST_FEW_BYTES : Z := 8000.

Fixpoint isBinary_loop (fuel : nat) (bs : bytes) (i limit : Z) : bool :=
  match fuel with
  | O => false
  | S fuel =>
      if i <? limit then
        if bool_decide (at_ bs i = Some 0) then true else isBinary_loop fuel bs (i + 1) limit
      else false
  end.
Definition isBinary (bs : bytes) : bool :=
  let limit := Z.min (zlen bs) FIRST_FEW_BYTES in isBinary_loop (Z.to_nat limit) bs 0 limit.

(** * Arrays written in place *)

(** [array[i] = v] on a typed array: a store out of range is ignored. *)
Definition typed_put {A} (l : list A) (i : Z) (v : A) : list A :=
  if i <? 0 then l else <[Z.to_nat i := v]> l.

(** * The records of the comparison *)

Record ChangeGroup := mkGroup { oldStart : Z; oldCount : Z; newStart : Z; newCount : Z }.

(** The changed-line flags; the slots of the indices [-1] and [length] are sentinels. *)
Notation Marks := (list Z) (only parsing).
Definition new_Marks (length : Z) : Marks := replicate (Z.to_nat (length + 2)) 0.
Definition marked (m : Marks) (index : Z) : bool := bool_decide (at_ m (index + 1) = Some 1).
Definition mark (m : Marks) (index : Z) (value : bool) : Marks :=
  typed_put m (index + 1) (if value then 1 else 0).

Record ByteRecord := mkByteRecord { r_bytes : bytes; r_start : Z; r_end : Z }.

Inductive LineRecord : Type :=
| LString (line : ustring)
| LBytes (line : ByteRecord).

Record Side := mkSide {
  lines : list LineRecord;
  classes : list Z;
  changed : Marks;
  reference : list Z;
  dstart : Z;
  dend : Z
}.

Definition set_changed (s : Side) (m : Marks) : Side :=
  mkSide (lines s) (classes s) m (reference s) (dstart s) (dend s).
Definition set_reference (s : Side) (r : list Z) : Side :=
  mkSide (lines s) (classes s) (changed s) r (dstart s) (dend s).
Definition set_ends (s : Side) (a b : Z) : Side :=
  mkSide (lines s) (classes s) (changed s) (reference s) a b.

Record Environment := mkEnvironment { maxCost : Z; snakeCount : Z; heuristicMinimum : Z }.

Record DiffLinesOptions := mkOptions { indentHeuristic : bool; maxChanges : option Z }.

(** * What the marks and the script mean *)

(** The items of [l] at the unmarked indices of [idx]. *)
Definition kept {A} (f : Z → bool) (l : list A) (idx : list Z) : list A :=
  omap (λ i, if f i then None else at_ l i) idx.

(** The script run on [old]: between two groups the old lines stay, at a group the new ones
    replace them. *)
Fixpoint run_script {A} (old new : list A) (pos : Z) (groups : list ChangeGroup) : list A :=
  match groups with
  | [] => slice_from old pos
  | g :: groups =>
      slice old pos (oldStart g) ++ slice new (newStart g) (newStart g + newCount g) ++
      run_script old new (oldStart g + oldCount g) groups
  end.

(** The groups come in order from [(p, q)] on, none is empty, and two of them are separated
    by the same positive number of lines on both sides ([first]: the first one may start
    at once); what remains after the last is of one length. *)
Fixpoint script_ok (n m : Z) (first : bool) (p q : Z) (groups : list ChangeGroup) : Prop :=
  match groups with
  | [] => n - p = m - q ∧ 0 <= n - p
  | g :: groups =>
      oldStart g - p = newStart g - q ∧ (if first then 0 else 1) <= oldStart g - p ∧
      0 <= oldCount g ∧ 0 <= newCount g ∧ 1 <= oldCount g + newCount g ∧
      script_ok n m false (oldStart g + oldCount g) (newStart g + newCount g) groups
  end.

(** * Lemmas *)

Lemma at_typed_put {A} (l : list A) i j v :
  0 <= i < zlen l → at_ (typed_put l i v) j = if j =? i then Some v else at_ l j.
Proof. intros. unfold typed_put. zdec. by apply at_insert. Qed.

Lemma zlen_typed_put {A} (l : list A) i v : zlen (typed_put l i v) = zlen l.
Proof. unfold typed_put, zlen. case_match; [done|]. by rewrite length_insert. Qed.

(** Marks of [n] lines, the sentinels clear. *)
Definition marks_ok (n : Z) (m : Marks) : Prop :=
  zlen m = n + 2 ∧ marked m (-1) = false ∧ marked m n = false.

Lemma marked_mark m i j v n :
  zlen m = n + 2 → -1 <= i <= n → marked (mark m i v) j = if j =? i then v else marked m j.
Proof.
  intros Hm Hi. unfold marked, mark. rewrite at_typed_put by lia.
  destruct (j =? i) eqn:E; zbool; [subst|]; zdec; [by destruct v|done].
Qed.

Lemma zlen_mark m i v : zlen (mark m i v) = zlen m.
Proof. apply zlen_typed_put. Qed.

Lemma marks_ok_mark n m i v : marks_ok n m → 0 <= i < n → marks_ok n (mark m i v).
Proof.
  intros (Hm & Ha & Hb) Hi. split; [by rewrite zlen_mark|].
  rewrite !(marked_mark m i _ v n) by lia. by zdec.
Qed.

Lemma marked_new n i : marked (new_Marks n) i = false.
Proof.
  unfold marked, new_Marks, at_. apply bool_decide_eq_false. case_match; [done|].
  rewrite lookup_replicate. by intros [? _].
Qed.

Lemma marks_ok_new n : 0 <= n → marks_ok n (new_Marks n).
Proof.
  intros. split; [|by rewrite !marked_new]. unfold new_Marks. rewrite zlen_replicate; lia.
Qed.

Lemma marked_range n m i : zlen m = n + 2 → marked m i = true → -1 <= i <= n.
Proof.
  intros Hm Hi. unfold marked in Hi. apply bool_decide_eq_true in Hi.
  assert (0 <= i + 1 < zlen m) by (apply at_is_Some; eauto). lia.
Qed.

Lemma marks_ok_range n m i : marks_ok n m → marked m i = true → 0 <= i < n.
Proof.
  intros (Hm & Ha & Hb) Hi. pose proof (marked_range n m i Hm Hi).
  assert (i ≠ -1) by congruence. assert (i ≠ n) by congruence. lia.
Qed.

Lemma kept_app {A} f (l : list A) a b : kept f l (a ++ b) = kept f l a ++ kept f l b.
Proof. apply omap_app. Qed.

Lemma kept_ext {A} f g (l : list A) idx : (∀ i, i ∈ idx → f i = g i) → kept f l idx = kept g l idx.
Proof.
  intros H. induction idx as [|i idx IH]; [done|]. unfold kept in *. rewrite !omap_app_cons.
  rewrite H by constructor. f_equal. apply IH. intros j Hj. apply H. by constructor.
Qed.

Lemma kept_marked {A} f (l : list A) idx : (∀ i, i ∈ idx → f i = true) → kept f l idx = [].
Proof.
  intros H. induction idx as [|i idx IH]; [done|]. unfold kept in *. rewrite omap_app_cons.
  rewrite H by constructor. apply IH. intros j Hj. apply H. by constructor.
Qed.

Lemma kept_unmarked {A} f (l : list A) a b :
  0 <= a <= b → b <= zlen l → (∀ i, a <= i < b → f i = false) → kept f l (seqZ a (b - a)) = slice l a b.
Proof.
  intros Ha Hb H. remember (Z.to_nat (b - a)) as n eqn:Hn. revert a Ha H Hn.
  induction n as [|n IH]; intros a Ha H Hn.
  { replace b with a by lia. rewrite slice_empty, Z.sub_diag. done. }
  rewrite seqZ_cons by lia. unfold kept in *. rewrite omap_app_cons, H by lia.
  replace (Z.succ a) with (a + 1) by lia. replace (Z.pred (b - a)) with (b - (a + 1)) by lia.
  rewrite IH by (lia || (intros; apply H; lia)). rewrite <- (slice_cat l a (a + 1) b) by lia. f_equal.
  destruct (proj2 (at_is_Some l a) ltac:(lia)) as [x Hx]. rewrite Hx. apply at_ext. intros i Hi.
  destruct (decide (i = 0)) as [->|].
  - rewrite at_slice, Z.add_0_r, Hx by lia. done.
  - rewrite !at_ge; [done|rewrite zlen_slice; lia|change (zlen (option_list (Some x))) with 1; lia].
Qed.

(** Marking other indices. *)
Lemma kept_mark {A} n m (l : list A) i v idx :
  zlen m = n + 2 → -1 <= i <= n → i ∉ idx → kept (marked (mark m i v)) l idx = kept (marked m) l idx.
Proof.
  intros Hm Hi Hx. apply kept_ext. intros j Hj. rewrite (marked_mark m i j v n) by done.
  destruct (j =? i) eqn:E; zbool; [by subst|done].
Qed.

Lemma kept_filter {A} (f g : Z → bool) (l : list A) idx :
  (∀ i, i ∈ idx → g i = true → f i = true) → kept f l (base.filter (λ i, g i = false) idx) = kept f l idx.
Proof.
  intros H. induction idx as [|i idx IH]; [done|].
  assert (kept f l (base.filter (λ i, g i = false) idx) = kept f l idx) as IH'.
  { apply IH. intros j Hj. apply H. by constructor. }
  rewrite filter_cons. unfold kept in *. case_decide as E.
  - rewrite !omap_app_cons. by f_equal.
  - rewrite omap_app_cons, H by (constructor || by destruct (g i)). done.
Qed.

