(* ===== verification/MyersFront.v ===== *)
(** The furthest-reaching points of a Myers scan, without the arrays that hold them.

    A front is a function from diagonals to columns: [F d] is the column the scan reached on
    diagonal [d] (row [F d - d]) after [c] rounds.  Points may leave the box of the
    comparison, at a diagonal where the opposite front has not arrived; the invariant [front]
    and the absence of an overlap ([blocked]) show that a point tested against the opposite
    front is inside the box, is never its far corner, and that the fronts meet before every
    diagonal is exhausted.  The backward scan is the forward one seen from the far corner
    ([mirror]), so every lemma serves both. *)

From S2P Require Import Prelude.

Section front.
  Context (off1 lim1 off2 lim2 : Z) (Hbox1 : off1 < lim1) (Hbox2 : off2 < lim2).
  Implicit Types (F G : Z → Z) (c r d : Z).

Local Notation fmid := (off1 - off2).
Local Notation bmid := (lim1 - lim2).
Local Notation dmin := (off1 - lim2).
Local Notation dmax := (lim1 - off2).

(** The diagonals round [c] of the scan from diagonal [m] visits. *)
Definition rng (m c d : Z) : Prop :=
  m - c <= d <= m + c ∧ dmin <= d <= dmax ∧ (d - m - c) mod 2 = 0.

(** After round [c], a point beyond one side of the box is no better than its neighbour
    towards the box. *)
Definition front c F : Prop := ∀ d, rng fmid c d →
  off1 <= F d ∧ off2 <= F d - d ∧ off1 + off2 + c <= 2 * F d - d ∧
  (lim1 < F d → rng fmid c (d - 2) ∧ F d - 1 <= F (d - 2)) ∧
  (lim2 < F d - d → rng fmid c (d + 2) ∧ F d + 1 <= F (d + 2)).

(** No point on the diagonals within [r] of the far corner's has met the opposite front. *)
Definition blocked c r F : Prop := ∀ d, rng fmid c d → bmid - r <= d <= bmid + r →
  F d < lim1 ∧ F d - d < lim2.

(** What a point of the next round is: the better of the two neighbours' moves, then a
    snake, which stays in the box and does not enter the far corner. *)
Definition step_point c F d g : Prop := ∃ X,
  (rng fmid c (d - 1) → F (d - 1) + 1 <= X) ∧ (rng fmid c (d + 1) → F (d + 1) <= X) ∧
  (rng fmid c (d - 1) ∧ X = F (d - 1) + 1 ∨ rng fmid c (d + 1) ∧ X = F (d + 1)) ∧
  X <= g ∧
  (g = X ∨ g <= lim1 ∧ g - d <= lim2 ∧ ¬ (g = lim1 ∧ g - d = lim2)).

Definition stepped c F G : Prop := ∀ d, rng fmid (c + 1) d → step_point c F d (G d).

(** The opposite front is at most one round behind, and then of the other parity. *)
Definition opposite c r : Prop :=
  0 <= c ∧ 0 <= r ∧ c - 1 <= r ∧ (r = c - 1 → (fmid - bmid) mod 2 = 1).

Ltac unrng := unfold rng, opposite in *; zdm.

Lemma rng_start d : rng fmid 0 d ↔ d = fmid.
Proof using Hbox1 Hbox2. split; intros; [unrng|subst; unrng]. Qed.

Lemma front_start F : F fmid = off1 → front 0 F.
Proof using Hbox1 Hbox2. intros HF d ->%rng_start. rewrite HF. repeat split; unrng. Qed.

Lemma blocked_start r F : F fmid = off1 → blocked 0 r F.
Proof using Hbox1 Hbox2. intros HF d ->%rng_start _. rewrite HF. lia. Qed.

(** Beyond the opposite front's reach to the right, points are above the box's bottom. *)
Lemma beyond_right c r F d :
  opposite c r → front c F → blocked c r F → rng fmid c d → bmid + r < d → F d - d < lim2.
Proof using Hbox1 Hbox2.
  intros Ho HF HB. remember (Z.to_nat (d - bmid)) as n eqn:Hn. revert d Hn.
  induction n as [n IH] using lt_wf_ind. intros d Hn Hd Hr.
  destruct (HF d Hd) as (_ & _ & _ & H1 & _). destruct (decide (F d <= lim1)); [unrng|].
  destruct H1 as [Hd' HF']; [lia|]. destruct (decide (bmid + r < d - 2)).
  - assert (F (d - 2) - (d - 2) < lim2); [|lia].
    apply (IH (Z.to_nat (d - 2 - bmid))); [unrng|done|done|lia].
  - destruct (HB (d - 2) Hd'); [unrng|lia].
Qed.

(** Beyond its reach to the left, points are left of the box's right side. *)
Lemma beyond_left c r F d :
  opposite c r → front c F → blocked c r F → rng fmid c d → d < bmid - r → F d < lim1.
Proof using Hbox1 Hbox2.
  intros Ho HF HB. remember (Z.to_nat (bmid - d)) as n eqn:Hn. revert d Hn.
  induction n as [n IH] using lt_wf_ind. intros d Hn Hd Hr.
  destruct (HF d Hd) as (_ & _ & _ & _ & H2). destruct (decide (F d - d <= lim2)); [unrng|].
  destruct H2 as [Hd' HF']; [lia|]. destruct (decide (d + 2 < bmid - r)).
  - assert (F (d + 2) < lim1); [|lia].
    apply (IH (Z.to_nat (bmid - (d + 2)))); [unrng|done|done|lia].
  - destruct (HB (d + 2) Hd'); [unrng|lia].
Qed.

(** No point is at or past both far sides. *)
Lemma front_corner c r F d :
  opposite c r → front c F → blocked c r F → rng fmid c d → F d < lim1 ∨ F d - d < lim2.
Proof using Hbox1 Hbox2.
  intros Ho HF HB Hd. destruct (decide (bmid + r < d)).
  - right. by eapply beyond_right.
  - destruct (decide (d < bmid - r)); [left; by eapply beyond_left|].
    destruct (HB d Hd); [lia|auto].
Qed.

(** A point beyond the right side came from a point at it or past it. *)
Lemma stepped_right c r F d g :
  opposite c r → front c F → blocked c r F → rng fmid (c + 1) d → step_point c F d g → lim1 < g →
  rng fmid c (d - 1) ∧ lim1 <= F (d - 1) ∧ g - 1 <= F (d - 1) ∧ rng fmid (c + 1) (d - 2).
Proof using Hbox1 Hbox2.
  intros Ho HF HB Hd HG Hout. destruct HG as (X & _ & _ & Hsrc & _ & HX).
  assert (rng fmid c (d - 1) ∧ lim1 <= F (d - 1) ∧ g - 1 <= F (d - 1)) as (H1 & H2 & H3).
  { destruct HX as [HX|HX]; [|lia]. destruct Hsrc as [[Hr ->]|[Hr ->]]; [split; [done|lia]|].
    destruct (HF _ Hr) as (_ & _ & _ & H1 & _). destruct H1 as [Hr' H1]; [lia|].
    replace (d + 1 - 2) with (d - 1) in * by lia. split; [done|lia]. }
  repeat split; try done; try unrng. destruct (front_corner c r F (d - 1)); [done..|lia|unrng].
Qed.

Lemma stepped_below c r F d g :
  opposite c r → front c F → blocked c r F → rng fmid (c + 1) d → step_point c F d g → lim2 < g - d →
  rng fmid c (d + 1) ∧ lim2 <= F (d + 1) - (d + 1) ∧ g <= F (d + 1) ∧ rng fmid (c + 1) (d + 2).
Proof using Hbox1 Hbox2.
  intros Ho HF HB Hd HG Hout. destruct HG as (X & _ & _ & Hsrc & _ & HX).
  assert (rng fmid c (d + 1) ∧ lim2 <= F (d + 1) - (d + 1) ∧ g <= F (d + 1)) as (H1 & H2 & H3).
  { destruct HX as [HX|HX]; [|lia]. destruct Hsrc as [[Hr ->]|[Hr ->]]; [|split; [done|lia]].
    destruct (HF _ Hr) as (_ & _ & _ & _ & H1). destruct H1 as [Hr' H1]; [lia|].
    replace (d - 1 + 2) with (d + 1) in * by lia. split; [done|lia]. }
  repeat split; try done; try unrng. destruct (front_corner c r F (d + 1)); [done..|unrng|lia].
Qed.

Lemma step_low c F d g :
  front c F → step_point c F d g → off1 <= g ∧ off2 <= g - d ∧ off1 + off2 + (c + 1) <= 2 * g - d.
Proof using Hbox1 Hbox2.
  intros HF (X & _ & _ & Hsrc & HXg & _).
  destruct Hsrc as [[Hr ->]|[Hr ->]]; pose proof (HF _ Hr); lia.
Qed.

Lemma front_step c r F G :
  opposite c r → front c F → blocked c r F → stepped c F G → front (c + 1) G.
Proof using Hbox1 Hbox2.
  intros Ho HF HB HG d Hd. pose proof (step_low c F d (G d) HF (HG d Hd)).
  split_and!; try lia; intros Hout.
  - destruct (stepped_right c r F d (G d)) as (H1 & H2 & H3 & H4); [by auto..|]. split; [done|].
    destruct (HG _ H4) as (X' & _ & Hdown & _ & HX' & _).
    replace (d - 2 + 1) with (d - 1) in * by lia. specialize (Hdown H1). lia.
  - destruct (stepped_below c r F d (G d)) as (H1 & H2 & H3 & H4); [by auto..|]. split; [done|].
    destruct (HG _ H4) as (X' & Hright & _ & _ & HX' & _).
    replace (d + 2 - 1) with (d + 1) in * by lia. specialize (Hright H1). lia.
Qed.

(** A point tested against the opposite front, whose reach has grown by one, is inside. *)
Lemma step_inside c r F d g :
  opposite c r → front c F → blocked c r F → rng fmid (c + 1) d → step_point c F d g →
  bmid - r - 1 <= d <= bmid + r + 1 → g <= lim1 ∧ g - d <= lim2.
Proof using Hbox1 Hbox2.
  intros Ho HF HB Hd HG Hr. split.
  - destruct (decide (g <= lim1)) as [|Hn]; [done|exfalso].
    destruct (stepped_right c r F d g) as (H1 & H2 & H3 & H4); [done..|lia|].
    destruct (front_corner c r F (d - 1)); [done..|lia|]. destruct (HB (d - 1)); [done|lia|lia].
  - destruct (decide (g - d <= lim2)) as [|Hn]; [done|exfalso].
    destruct (stepped_below c r F d g) as (H1 & H2 & H3 & H4); [done..|lia|].
    destruct (front_corner c r F (d + 1)); [done..| |lia]. destruct (HB (d + 1)); [done|lia|lia].
Qed.

(** Nor is it the far corner, which only an overlap one round earlier leads to. *)
Lemma step_not_corner c r F d g :
  opposite c r → front c F → blocked c r F → rng fmid (c + 1) d → step_point c F d g →
  (c = 0 → F fmid = off1) → ¬ (g = lim1 ∧ g - d = lim2).
Proof using Hbox1 Hbox2.
  intros Ho HF HB Hd HG H0 [H1 H2]. destruct HG as (X & _ & _ & Hsrc & HXG & HX).
  destruct HX as [HX|HX]; [|lia]. assert (d = bmid) as -> by lia.
  destruct (decide (c = 0)) as [->|].
  { destruct Hsrc as [[Hr HX']|[Hr HX']]; apply rng_start in Hr; rewrite Hr, H0 in HX'; lia. }
  destruct Hsrc as [[Hr HX']|[Hr HX']].
  - destruct (HB _ Hr); [unrng|lia].
  - destruct (HB _ Hr); [unrng|lia].
Qed.

(** The point on the far corner's own diagonal has not reached it. *)
Lemma step_centre c r F g :
  opposite c r → front c F → blocked c r F → rng fmid (c + 1) bmid → step_point c F bmid g →
  (c = 0 → F fmid = off1) → g < lim1.
Proof using Hbox1 Hbox2.
  intros Ho HF HB Hd HG H0. destruct (step_inside c r F bmid g) as [H1 H2]; [done..|unrng|].
  pose proof (step_not_corner c r F bmid g Ho HF HB Hd HG H0). lia.
Qed.

(** The fronts meet before the rounds outnumber the diagonals. *)
Lemma blocked_bound c r F :
  opposite c r → front c F → blocked c r F → c < (lim1 - off1) + (lim2 - off2).
Proof using Hbox1 Hbox2.
  intros Ho HF HB. destruct (decide (c < (lim1 - off1) + (lim2 - off2))) as [|Hc]; [done|exfalso].
  assert (∃ d, rng fmid c d ∧ bmid - r <= d <= bmid + r) as (d & Hd & Hr).
  { destruct (decide ((bmid - fmid - c) mod 2 = 0)).
    - exists bmid. unrng.
    - exists (bmid + 1). unrng. }
  destruct (HB d Hd Hr). pose proof (HF d Hd). lia.
Qed.

(** Some diagonal is visited in every round. *)
Lemma rng_nonempty c : 0 <= c → ∃ d, rng fmid c d.
Proof using Hbox1 Hbox2.
  intros. destruct (decide (c mod 2 = 0)).
  - exists fmid. unrng.
  - exists (fmid + 1). unrng.
Qed.

(** The bounds the code keeps: the reach, or the box's end. *)
Definition bounds m c lo hi : Prop :=
  rng m c lo ∧ rng m c hi ∧ (lo = m - c ∨ lo <= dmin + 1) ∧ (hi = m + c ∨ dmax - 1 <= hi).

Lemma bounds_start m : dmin <= m <= dmax → bounds m 0 m m.
Proof using Hbox1 Hbox2. unfold bounds. intros. split_and!; unrng. Qed.

Lemma bounds_rng m c lo hi d :
  bounds m c lo hi → rng m c d ↔ lo <= d <= hi ∧ (hi - d) mod 2 = 0.
Proof using Hbox1 Hbox2. intros (? & ? & ? & ?). split; intros; unrng. Qed.

Lemma bounds_next m c lo hi :
  dmin < m < dmax → bounds m c lo hi →
  bounds m (c + 1) (if dmin <? lo then lo - 1 else lo + 1) (if hi <? dmax then hi + 1 else hi - 1).
Proof using Hbox1 Hbox2.
  intros Hm (? & ? & ? & ?).
  destruct (dmin <? lo) eqn:E1, (hi <? dmax) eqn:E2; zbool; split_and!; unrng.
Qed.

(** A front that overlaps the opposite one nowhere is blocked by it. *)
Lemma blocked_by c r F (B : Z → Z) :
  (fmid + c - bmid - r) mod 2 = 0 →
  (∀ d, rng bmid r d → B d <= lim1 ∧ B d - d <= lim2) →
  (∀ d, rng fmid c d → rng bmid r d → F d < B d) → blocked c r F.
Proof using Hbox1 Hbox2.
  intros Hp HB Hn d Hd Hr. assert (rng bmid r d) as Hd' by unrng.
  pose proof (HB d Hd'). pose proof (Hn d Hd Hd'). lia.
Qed.

End front.

(** * The other scan *)

(** The backward scan is a forward one in the box seen from its far corner. *)
Definition mirror (F : Z → Z) : Z → Z := λ d, - F (- d).

Lemma rng_mirror off1 lim1 off2 lim2 m m' c d :
  m' = - m → rng (- lim1) (- off1) (- lim2) (- off2) m' c d ↔ rng off1 lim1 off2 lim2 m c (- d).
Proof. intros ->. unfold rng. split; intros; zdm. Qed.

Section mirror.
  Context (off1 lim1 off2 lim2 : Z) (Hbox1 : off1 < lim1) (Hbox2 : off2 < lim2).
  Implicit Types (B G : Z → Z) (c r d : Z).

Local Notation fmid := (off1 - off2).
Local Notation bmid := (lim1 - lim2).
Local Notation rng := (rng off1 lim1 off2 lim2).

Definition back_front c B : Prop := front (- lim1) (- off1) (- lim2) (- off2) c (mirror B).
Definition back_blocked c r B : Prop := blocked (- lim1) (- off1) (- lim2) (- off2) c r (mirror B).
Definition back_opposite c r : Prop := opposite (- lim1) (- off1) (- lim2) (- off2) c r.

Definition back_step_point c B d g : Prop := ∃ X,
  (rng bmid c (d + 1) → X <= B (d + 1) - 1) ∧ (rng bmid c (d - 1) → X <= B (d - 1)) ∧
  (rng bmid c (d + 1) ∧ X = B (d + 1) - 1 ∨ rng bmid c (d - 1) ∧ X = B (d - 1)) ∧
  g <= X ∧
  (g = X ∨ off1 <= g ∧ off2 <= g - d ∧ ¬ (g = off1 ∧ g - d = off2)).

Lemma back_rng c d : MyersFront.rng (- lim1) (- off1) (- lim2) (- off2) (- lim1 - - lim2) c d ↔ rng bmid c (- d).
Proof. apply rng_mirror. lia. Qed.

Lemma back_front_at c B d :
  back_front c B → rng bmid c d → B d <= lim1 ∧ B d - d <= lim2 ∧ 2 * B d - d <= lim1 + lim2 - c.
Proof.
  intros HB Hd. destruct (HB (- d)) as (H1 & H2 & H3 & _).
  { apply back_rng. by rewrite Z.opp_involutive. }
  unfold mirror in *. rewrite Z.opp_involutive in *. lia.
Qed.

Lemma back_front_start B : B bmid = lim1 → back_front 0 B.
Proof using Hbox1 Hbox2. intros HB. apply front_start; [lia..|]. unfold mirror. replace (- (- lim1 - - lim2)) with bmid by lia. lia. Qed.

Lemma back_blocked_start r B : B bmid = lim1 → back_blocked 0 r B.
Proof using Hbox1 Hbox2. intros HB. apply blocked_start; [lia..|]. unfold mirror. replace (- (- lim1 - - lim2)) with bmid by lia. lia. Qed.

Lemma back_step_point_mirror c B d g :
  back_step_point c B d g → step_point (- lim1) (- off1) (- lim2) (- off2) c (mirror B) (- d) (- g).
Proof.
  intros (X & H1 & H2 & H3 & H4 & H5).
  exists (- X). rewrite !back_rng. unfold mirror.
  replace (- (- d - 1)) with (d + 1) by lia. replace (- (- d + 1)) with (d - 1) by lia.
  split_and!; [intros Hr; specialize (H1 Hr); lia|intros Hr; specialize (H2 Hr); lia| |lia|lia].
  destruct H3 as [[? ?]|[? ?]]; [left|right]; (split; [done|lia]).
Qed.

Lemma back_stepped c B G :
  (∀ d, rng bmid (c + 1) d → back_step_point c B d (G d)) →
  stepped (- lim1) (- off1) (- lim2) (- off2) c (mirror B) (mirror G).
Proof.
  intros H d Hd%back_rng. rewrite <- (Z.opp_involutive d) at 1. by apply back_step_point_mirror, H.
Qed.

Lemma back_blocked_by c r B (F : Z → Z) :
  (bmid + c - fmid - r) mod 2 = 0 →
  (∀ d, rng fmid r d → off1 <= F d ∧ off2 <= F d - d) →
  (∀ d, rng bmid c d → rng fmid r d → F d < B d) → back_blocked c r B.
Proof using Hbox1 Hbox2.
  intros Hp HF Hn. apply (blocked_by (- lim1) (- off1) (- lim2) (- off2) ltac:(lia) ltac:(lia) c r _ (mirror F)).
  - zdm.
  - intros d Hd. assert (rng fmid r (- d)) as Hd' by (by apply (rng_mirror _ _ _ _ fmid) in Hd; [|lia]).
    destruct (HF _ Hd'). unfold mirror. lia.
  - intros d Hd Hr. assert (rng fmid r (- d)) as Hd' by (by apply (rng_mirror _ _ _ _ fmid) in Hr; [|lia]).
    apply back_rng in Hd. specialize (Hn _ Hd Hd'). unfold mirror. lia.
Qed.

End mirror.
