(* ===== verification/MyersSearch.v ===== *)
(** The bidirectional Myers search: src/packages/git/src/diff/myers-search.ts.

    A read outside a [Float64Array] gives [undefined], which would enter the arithmetic: such
    a read, like fuel that runs out, is [None] here, and the theorems show that neither
    happens. *)

From S2P Require Import Prelude Arrays MyersState.

Definition MAX_COST_MIN : Z := 256.
Definition HEUR_MIN_COST : Z := 256.
Definition SNAKE_CNT : Z := 20.
Definition K_HEUR : Z := 4.
Definition LINE_MAX : Z := MAX_SAFE_INTEGER.

(** A k-vector over diagonals. *)
Record Diagonals := mkDiagonals { values : list Z; offset : Z }.
Definition new_Diagonals (size offset : Z) : Diagonals := mkDiagonals (replicate (Z.to_nat size) 0) offset.
Definition dget (v : Diagonals) (diagonal : Z) : option Z := at_ (values v) (diagonal + offset v).
Definition dset (v : Diagonals) (diagonal value : Z) : Diagonals :=
  mkDiagonals (typed_put (values v) (diagonal + offset v) value) (offset v).

Record Split := mkSplit { i1 : Z; i2 : Z; minimalLow : bool; minimalHigh : bool }.

Definition hashAt (side : Side) (index : Z) : option Z := at_ (reference side) index ≫= at_ (classes side).

(** [for (let d = hi; d >= lo; d -= 2)]. *)
Definition downwards (hi lo : Z) : list Z := (λ k, hi - 2 * k) <$> seqZ 0 ((hi - lo) / 2 + 1).

Fixpoint for_each {S} (ds : list Z) (f : Z → S → option S) (s : S) : option S :=
  match ds with
  | [] => Some s
  | d :: ds => s' ← f d s; for_each ds f s'
  end.

(** The arrays and the bounds of the two scans. *)
Record Scan := mkScan {
  forward : Diagonals; forwardMin : Z; forwardMax : Z;
  backward : Diagonals; backwardMin : Z; backwardMax : Z
}.

(** Widening a scan by one diagonal on each side, or narrowing it at the box's end. *)
Definition widen (v : Diagonals) (lo hi dmin dmax sentinel : Z) : Diagonals * Z * Z :=
  let '(v, lo) := if dmin <? lo then (dset v (lo - 1 - 1) sentinel, lo - 1) else (v, lo + 1) in
  let '(v, hi) := if hi <? dmax then (dset v (hi + 1 + 1) sentinel, hi + 1) else (v, hi - 1) in
  (v, lo, hi).

Section findSplit.
  Context (left right : Side) (off1 lim1 off2 lim2 : Z) (env : Environment).

(** [hashAt(left, a) === hashAt(right, b)]. *)
Definition same_hash (a b : Z) : bool := bool_decide (hashAt left a = hashAt right b).

Fixpoint snake_down (fuel : nat) (a b : Z) : Z * Z :=
  match fuel with
  | O => (a, b)
  | S fuel =>
      if (a <? lim1) && (b <? lim2) && same_hash a b then snake_down fuel (a + 1) (b + 1) else (a, b)
  end.

Fixpoint snake_up (fuel : nat) (a b : Z) : Z * Z :=
  match fuel with
  | O => (a, b)
  | S fuel =>
      if (off1 <? a) && (off2 <? b) && same_hash (a - 1) (b - 1) then snake_up fuel (a - 1) (b - 1) else (a, b)
  end.

Definition forward_move (v : Diagonals) (d : Z) : option Z :=
  x ← dget v (d - 1);
  y ← dget v (d + 1);
  Some (if y <=? x then x + 1 else y).

Definition backward_move (v : Diagonals) (d : Z) : option Z :=
  x ← dget v (d - 1);
  y ← dget v (d + 1);
  Some (if x <? y then x else y - 1).

(** The test against the opposite scan. *)
Definition overlap (enabled : bool) (lo hi : Z) (v : Diagonals) (d : Z) (test : Z → bool) : option bool :=
  if enabled && (lo <=? d) && (d <=? hi) then test <$> dget v d else Some false.

Fixpoint forward_scan (odd : bool) (lo hi : Z) (back : Diagonals) (ds : list Z) (v : Diagonals) (sawSnake : bool)
    : option (Diagonals * bool * option Split) :=
  match ds with
  | [] => Some (v, sawSnake, None)
  | d :: ds =>
      previous ← forward_move v d;
      let '(a, b) := snake_down (Z.to_nat (lim1 - previous)) previous (previous - d) in
      let sawSnake := if snakeCount env <? a - previous then true else sawSnake in
      let v := dset v d a in
      hit ← overlap odd lo hi back d (λ x, x <=? a);
      if (hit : bool) then Some (v, sawSnake, Some (mkSplit a b true true))
      else forward_scan odd lo hi back ds v sawSnake
  end.

Fixpoint backward_scan (even : bool) (lo hi : Z) (ford : Diagonals) (ds : list Z) (v : Diagonals) (sawSnake : bool)
    : option (Diagonals * bool * option Split) :=
  match ds with
  | [] => Some (v, sawSnake, None)
  | d :: ds =>
      previous ← backward_move v d;
      let '(a, b) := snake_up (Z.to_nat (previous - off1)) previous (previous - d) in
      let sawSnake := if snakeCount env <? previous - a then true else sawSnake in
      let v := dset v d a in
      hit ← overlap even lo hi ford d (λ x, a <=? x);
      if (hit : bool) then Some (v, sawSnake, Some (mkSplit a b true true))
      else backward_scan even lo hi ford ds v sawSnake
  end.

(** [for (let k = first; hashAt(…i1 ∓ k) === …; k++) if (k === last) …]: is the whole snake
    there? *)
Fixpoint long_snake (fuel : nat) (a b dir k last : Z) : bool :=
  match fuel with
  | O => false
  | S fuel =>
      if same_hash (a + dir * k) (b + dir * k) then
        if k =? last then true else long_snake fuel a b dir (k + 1) last
      else false
  end.

Definition forward_candidate (cost fmid : Z) (v : Diagonals) (d : Z) (s : Z * option Split)
    : option (Z * option Split) :=
  let '(best, candidate) := s in
  let distance := if fmid <? d then d - fmid else fmid - d in
  a ← dget v d;
  let b := a - d in
  let reach := a - off1 + (b - off2) - distance in
  if (K_HEUR * cost <? reach) && (best <? reach) && (off1 + snakeCount env <=? a) && (a <? lim1) &&
     (off2 + snakeCount env <=? b) && (b <? lim2) &&
     long_snake (Z.to_nat (snakeCount env)) a b (-1) 1 (snakeCount env)
  then Some (reach, Some (mkSplit a b true false))
  else Some (best, candidate).

Definition backward_candidate (cost bmid : Z) (v : Diagonals) (d : Z) (s : Z * option Split)
    : option (Z * option Split) :=
  let '(best, candidate) := s in
  let distance := if bmid <? d then d - bmid else bmid - d in
  a ← dget v d;
  let b := a - d in
  let reach := lim1 - a + (lim2 - b) - distance in
  if (K_HEUR * cost <? reach) && (best <? reach) && (off1 <? a) && (a <=? lim1 - snakeCount env) &&
     (off2 <? b) && (b <=? lim2 - snakeCount env) &&
     long_snake (Z.to_nat (snakeCount env)) a b 1 0 (snakeCount env - 1)
  then Some (reach, Some (mkSplit a b false true))
  else Some (best, candidate).

Definition forward_best (v : Diagonals) (d : Z) (s : Z * Z) : option (Z * Z) :=
  let '(best, best1) := s in
  x ← dget v d;
  let a := Z.min x lim1 in
  let b := a - d in
  let '(a, b) := if lim2 <? b then (lim2 + d, lim2) else (a, b) in
  Some (if best <? a + b then (a + b, a) else (best, best1)).

Definition backward_best (v : Diagonals) (d : Z) (s : Z * Z) : option (Z * Z) :=
  let '(best, best1) := s in
  x ← dget v d;
  let a := Z.max off1 x in
  let b := a - d in
  let '(a, b) := if b <? off2 then (off2 + d, off2) else (a, b) in
  Some (if a + b <? best then (a + b, a) else (best, best1)).

Definition visited_forward (st : Scan) : list Z := downwards (forwardMax st) (forwardMin st).
Definition visited_backward (st : Scan) : list Z := downwards (backwardMax st) (backwardMin st).

(** The first candidate snake of either scan. *)
Definition heuristic_split (cost : Z) (st : Scan) : option (option Split) :=
  f ← for_each (visited_forward st) (forward_candidate cost (off1 - off2) (forward st)) (0, None);
  match snd f with
  | Some split => Some (Some split)
  | None =>
      b ← for_each (visited_backward st) (backward_candidate cost (lim1 - lim2) (backward st)) (0, None);
      Some (snd b)
  end.

(** The furthest-reaching path of either scan. *)
Definition furthest_split (st : Scan) : option Split :=
  '(forwardBest, forwardBest1) ← for_each (visited_forward st) (forward_best (forward st)) (-1, -1);
  '(backwardBest, backwardBest1) ←
    for_each (visited_backward st) (backward_best (backward st)) (LINE_MAX, LINE_MAX);
  Some (if lim1 + lim2 - backwardBest <? forwardBest - (off1 + off2)
        then mkSplit forwardBest1 (forwardBest - forwardBest1) true false
        else mkSplit backwardBest1 (backwardBest - backwardBest1) false true).

(** What follows the two scans of a round. *)
Definition settle (needMinimal : bool) (cost : Z) (sawSnake : bool) (st : Scan) : option (option Split) :=
  if needMinimal then Some None
  else
    candidate ← (if sawSnake && (heuristicMinimum env <? cost) then heuristic_split cost st else Some None);
    match candidate with
    | Some split => Some (Some split)
    | None => if maxCost env <=? cost then Some <$> furthest_split st else Some None
    end.

(** One round of the scan: the split, or the state of the next round. *)
Definition scan_round (needMinimal : bool) (cost : Z) (st : Scan) : option (Scan * option Split) :=
  let odd := (off1 - off2 - (lim1 - lim2)) mod 2 =? 1 in
  let '(f, fmin, fmax) := widen (forward st) (forwardMin st) (forwardMax st) (off1 - lim2) (lim1 - off2) (-1) in
  '(f, sawSnake, found) ←
    forward_scan odd (backwardMin st) (backwardMax st) (backward st) (downwards fmax fmin) f false;
  let st := mkScan f fmin fmax (backward st) (backwardMin st) (backwardMax st) in
  match found with
  | Some split => Some (st, Some split)
  | None =>
      let '(b, bmin, bmax) := widen (backward st) (backwardMin st) (backwardMax st) (off1 - lim2) (lim1 - off2) LINE_MAX in
      '(b, sawSnake, found) ← backward_scan (negb odd) fmin fmax f (downwards bmax bmin) b sawSnake;
      let st := mkScan f fmin fmax b bmin bmax in
      match found with
      | Some split => Some (st, Some split)
      | None => found ← settle needMinimal cost sawSnake st; Some (st, found)
      end
  end.

Fixpoint scan_rounds (fuel : nat) (needMinimal : bool) (cost : Z) (st : Scan) : option (Scan * Split) :=
  match fuel with
  | O => None
  | S fuel =>
      '(st, found) ← scan_round needMinimal cost st;
      match found with
      | Some split => Some (st, split)
      | None => scan_rounds fuel needMinimal (cost + 1) st
      end
  end.

Definition findSplit (f b : Diagonals) (needMinimal : bool) : option (Scan * Split) :=
  let fmid := off1 - off2 in
  let bmid := lim1 - lim2 in
  scan_rounds (Z.to_nat (lim1 - off1 + (lim2 - off2))) needMinimal 1
    (mkScan (dset f fmid off1) fmid fmid (dset b bmid lim1) bmid bmid).

End findSplit.

(** [for (; low < high; low++) side.changed.set(side.reference[low]!, true)].  An index
    outside [reference] would set nothing. *)
Fixpoint mark_range (side : Side) (idx : list Z) : Side :=
  match idx with
  | [] => side
  | i :: idx =>
      mark_range (match at_ (reference side) i with
                  | Some r => set_changed side (mark (changed side) r true)
                  | None => side
                  end) idx
  end.

(** What [compare] changes: the marks of the two sides, and the scratch vectors. *)
Record Search := mkSearch { s_left : Side; s_right : Side; s_forward : Diagonals; s_backward : Diagonals }.

Fixpoint compare (fuel : nat) (env : Environment) (off1 lim1 off2 lim2 : Z) (needMinimal : bool) (s : Search)
    : option Search :=
  match fuel with
  | O => None
  | S fuel =>
      let left := s_left s in
      let right := s_right s in
      let '(low1, low2) := snake_down left right lim1 lim2 (Z.to_nat (lim1 - off1)) off1 off2 in
      let '(high1, high2) := snake_up left right low1 low2 (Z.to_nat (lim1 - low1)) lim1 lim2 in
      if low1 =? high1 then
        Some (mkSearch left (mark_range right (seqZ low2 (high2 - low2))) (s_forward s) (s_backward s))
      else if low2 =? high2 then
        Some (mkSearch (mark_range left (seqZ low1 (high1 - low1))) right (s_forward s) (s_backward s))
      else
        '(st, split) ← findSplit left right low1 high1 low2 high2 env (s_forward s) (s_backward s) needMinimal;
        s ← compare fuel env low1 (i1 split) low2 (i2 split) (minimalLow split)
              (mkSearch left right (forward st) (backward st));
        compare fuel env (i1 split) high1 (i2 split) high2 (minimalHigh split) s
  end.
