(* ===== verification/MyersScan.v ===== *)
(** The scans of the Myers search are correct and end: every round reads inside its
    vectors, every split lies in the box and divides it, and a split is found before the
    rounds outnumber the diagonals. *)

From S2P Require Import Prelude Arrays MyersState MyersFront MyersSearch.

(** * Diagonals and loops *)

(** The vector has a slot for every diagonal of the box and its two neighbours. *)
Definition covers (v : Diagonals) (lo hi : Z) : Prop :=
  ∀ d, lo <= d <= hi → 0 <= d + offset v < zlen (values v).

Lemma dget_dset v d e x lo hi :
  covers v lo hi → lo <= d <= hi → dget (dset v d x) e = if e =? d then Some x else dget v e.
Proof.
  intros Hc Hd. unfold dget, dset. cbn [values offset]. rewrite at_typed_put by (by apply Hc).
  destruct (e =? d) eqn:E; zbool; [subst|]; by zdec.
Qed.

Lemma covers_dset v d x lo hi : covers (dset v d x) lo hi ↔ covers v lo hi.
Proof. unfold covers, dset. cbn [values offset]. by rewrite zlen_typed_put. Qed.

Lemma covers_dget v d lo hi : covers v lo hi → lo <= d <= hi → ∃ x, dget v d = Some x.
Proof. intros Hc Hd. by apply at_is_Some, Hc. Qed.

Lemma elem_downwards hi lo d : d ∈ downwards hi lo ↔ lo <= d <= hi ∧ (hi - d) mod 2 = 0.
Proof.
  unfold downwards. rewrite list_elem_of_fmap. setoid_rewrite elem_of_seqZ. split.
  - intros (k & -> & Hk). zdm.
  - intros [Hd Hm]. exists ((hi - d) / 2). zdm.
Qed.

Lemma NoDup_downwards hi lo : NoDup (downwards hi lo).
Proof. apply NoDup_fmap_2; [intros a b; lia|apply NoDup_seqZ]. Qed.

Lemma for_each_inv {S} (I : S → Prop) ds f s :
  (∀ d s, d ∈ ds → I s → ∃ s', f d s = Some s' ∧ I s') → I s → ∃ s', for_each ds f s = Some s' ∧ I s'.
Proof.
  revert s. induction ds as [|d ds IH]; intros s Hf Hs; [by exists s|].
  destruct (Hf d s) as (s' & E & Hs'); [by constructor|done|]. cbn [for_each]. rewrite E.
  apply IH; [|done]. intros e t He. apply Hf. by constructor.
Qed.

(** The same for an invariant that the first step establishes. *)
Lemma for_each_first {S} (I : S → Prop) ds f s :
  ds ≠ [] → (∀ d s', d ∈ ds → s' = s ∨ I s' → ∃ t, f d s' = Some t ∧ I t) →
  ∃ s', for_each ds f s = Some s' ∧ I s'.
Proof.
  intros Hne Hf. destruct ds as [|d ds]; [done|]. cbn [for_each].
  destruct (Hf d s) as (s' & E & Hs'); [by constructor|by left|]. rewrite E.
  apply for_each_inv; [|done]. intros e t He Ht. apply Hf; [by constructor|by right].
Qed.

(** * A scan without its snake flag *)

Fixpoint gscan (point : Diagonals → Z → option Z) (hit : Z → Z → option bool) (ds : list Z) (v : Diagonals)
    : option (Diagonals * option (Z * Z)) :=
  match ds with
  | [] => Some (v, None)
  | d :: ds =>
      a ← point v d;
      h ← hit d a;
      if (h : bool) then Some (dset v d a, Some (d, a)) else gscan point hit ds (dset v d a)
  end.

Definition agree (all : list Z) (v w : Diagonals) : Prop := ∀ d, d ∉ all → dget v d = dget w d.

Lemma gscan_spec lo hi point hit (Q : Z → Z → Prop) v0 all ds v :
  (∀ v d, d ∈ all → covers v lo hi → agree all v v0 → ∃ x h, point v d = Some x ∧ Q d x ∧ hit d x = Some h) →
  (∀ d, d ∈ all → lo <= d <= hi) →
  (∀ d, d ∈ ds → d ∈ all) → NoDup ds → covers v lo hi → agree all v v0 →
  ∃ v' res, gscan point hit ds v = Some (v', res) ∧ covers v' lo hi ∧ agree all v' v0 ∧
    (∀ d, d ∉ ds → dget v' d = dget v d) ∧
    match res with
    | None => ∀ d, d ∈ ds → ∃ x, dget v' d = Some x ∧ Q d x ∧ hit d x = Some false
    | Some (d, x) => d ∈ ds ∧ Q d x ∧ hit d x = Some true
    end.
Proof.
  intros Hp Hin. revert v. induction ds as [|d ds IH]; intros v Hds Hnd Hc Ha.
  { exists v, None. split_and!; try done. intros d Hd. by apply not_elem_of_nil in Hd. }
  apply NoDup_cons in Hnd as [Hd Hnd]. assert (d ∈ all) as Hall by (apply Hds; constructor).
  destruct (Hp v d Hall Hc Ha) as (x & h & Hx & HQ & Hh). cbn [gscan]. rewrite Hx. cbn [mbind option_bind].
  rewrite Hh. cbn [mbind option_bind].
  assert (covers (dset v d x) lo hi) as Hc' by (by apply covers_dset).
  assert (agree all (dset v d x) v0) as Ha'.
  { intros e He. rewrite (dget_dset v d e x lo hi) by auto. destruct (e =? d) eqn:E; zbool; [by subst|auto]. }
  destruct h.
  - exists (dset v d x), (Some (d, x)). split_and!; try done; [|constructor].
    intros e He. rewrite (dget_dset v d e x lo hi) by auto.
    destruct (e =? d) eqn:E; zbool; [|done]. subst. by destruct He; constructor.
  - destruct (IH (dset v d x)) as (v' & res & Hr & Hc2 & Ha2 & Hout & Hres); try done.
    { intros e He. apply Hds. by constructor. }
    exists v', res. split_and!; try done.
    + intros e He. apply not_elem_of_cons in He as [He1 He2]. rewrite Hout by done.
      rewrite (dget_dset v d e x lo hi) by auto. by zdec.
    + destruct res as [[e y]|]; [destruct Hres as (? & ? & ?); split_and!; try done; by constructor|].
      intros e He. apply elem_of_cons in He as [->|He]; [|by apply Hres].
      exists x. split_and!; try done. rewrite Hout by done. rewrite (dget_dset v d d x lo hi) by auto. by zdec.
Qed.

Section scan.
  Context (left right : Side) (off1 lim1 off2 lim2 : Z) (env : Environment).

Local Notation same := (same_hash left right).
Local Notation down := (snake_down left right lim1 lim2).
Local Notation up := (snake_up left right off1 off2).

Lemma snake_down_spec fuel a b a' b' :
  down fuel a b = (a', b') → lim1 - a <= Z.of_nat fuel →
  a <= a' ∧ a' - b' = a - b ∧ (a < a' → a' <= lim1 ∧ b' <= lim2 ∧ same (a' - 1) (b' - 1) = true) ∧
  (∀ k, 0 <= k < a' - a → same (a + k) (b + k) = true) ∧
  (a' < lim1 → b' < lim2 → same a' b' = false).
Proof.
  revert a b. induction fuel as [|fuel IH]; intros a b E Hf.
  { injection E as <- <-. split_and!; try lia. }
  cbn [snake_down] in E. destruct (_ && same a b) eqn:Eg; zbool.
  - apply IH in E as (P1 & P2 & P3 & P4 & P5); [|lia]. split_and!; try lia; try done.
    + intros _. destruct (decide (a' = a + 1)) as [->|]; [|apply P3; lia].
      replace (a + 1 - 1) with a by lia. replace (b' - 1) with b by lia. split_and!; [lia..|done].
    + intros k Hk. destruct (decide (k = 0)) as [->|]; [by rewrite !Z.add_0_r|].
      replace (a + k) with (a + 1 + (k - 1)) by lia. replace (b + k) with (b + 1 + (k - 1)) by lia.
      apply P4. lia.
  - injection E as <- <-. split_and!; try lia. intros. destruct Eg as [[Eg|Eg]%andb_false_iff|Eg]; zbool; [lia..|done].
Qed.

Lemma snake_up_spec fuel a b a' b' :
  up fuel a b = (a', b') → a - off1 <= Z.of_nat fuel →
  a' <= a ∧ a' - b' = a - b ∧ (a' < a → off1 <= a' ∧ off2 <= b' ∧ same a' b' = true) ∧
  (∀ k, 0 < k <= a - a' → same (a - k) (b - k) = true) ∧
  (off1 < a' → off2 < b' → same (a' - 1) (b' - 1) = false).
Proof.
  revert a b. induction fuel as [|fuel IH]; intros a b E Hf.
  { injection E as <- <-. split_and!; try lia. }
  cbn [snake_up] in E. destruct (_ && same (a - 1) (b - 1)) eqn:Eg; zbool.
  - apply IH in E as (P1 & P2 & P3 & P4 & P5); [|lia]. split_and!; try lia; try done.
    + intros _. destruct (decide (a' = a - 1)) as [->|]; [|apply P3; lia].
      replace b' with (b - 1) by lia. split_and!; [lia..|done].
    + intros k Hk. destruct (decide (k = 1)) as [->|]; [done|].
      replace (a - k) with (a - 1 - (k - 1)) by lia. replace (b - k) with (b - 1 - (k - 1)) by lia.
      apply P4. lia.
  - injection E as <- <-. split_and!; try lia. intros. destruct Eg as [[Eg|Eg]%andb_false_iff|Eg]; zbool; [lia..|done].
Qed.

(** What a scan's loop body stores, and its test. *)
Definition forward_point (v : Diagonals) (d : Z) : option Z :=
  previous ← forward_move v d; Some (fst (down (Z.to_nat (lim1 - previous)) previous (previous - d))).
Definition backward_point (v : Diagonals) (d : Z) : option Z :=
  previous ← backward_move v d; Some (fst (up (Z.to_nat (previous - off1)) previous (previous - d))).

(** The split a scan's overlap gives. *)
Definition overlap_split (p : Z * Z) : Split := mkSplit (snd p) (snd p - fst p) true true.

Lemma forward_scan_gscan odd lo hi back ds v saw v' res :
  gscan forward_point (λ d a, overlap odd lo hi back d (λ x, x <=? a)) ds v = Some (v', res) →
  ∃ saw', forward_scan left right lim1 lim2 env odd lo hi back ds v saw = Some (v', saw', overlap_split <$> res).
Proof.
  revert v saw. induction ds as [|d ds IH]; intros v saw E.
  { injection E as <- <-. by exists saw. }
  cbn [gscan forward_scan] in *. destruct (forward_point v d) as [c|] eqn:Ec; [|by cbn in E].
  unfold forward_point in Ec. destruct (forward_move v d) as [p|]; [|by cbn in Ec]. cbn [mbind option_bind] in *.
  destruct (down _ p (p - d)) as [a b] eqn:Ed. injection Ec as <-. cbn [fst] in E.
  apply snake_down_spec in Ed as (_ & Hab & _); [|lia].
  destruct (overlap odd lo hi back d _) as [[]|]; [| |by cbn in E]; cbn [mbind option_bind] in *.
  - injection E as <- <-. eexists. unfold overlap_split. cbn. by replace b with (a - d) by lia.
  - by apply IH.
Qed.

Lemma backward_scan_gscan even lo hi ford ds v saw v' res :
  gscan backward_point (λ d a, overlap even lo hi ford d (λ x, a <=? x)) ds v = Some (v', res) →
  ∃ saw', backward_scan left right off1 off2 env even lo hi ford ds v saw = Some (v', saw', overlap_split <$> res).
Proof.
  revert v saw. induction ds as [|d ds IH]; intros v saw E.
  { injection E as <- <-. by exists saw. }
  cbn [gscan backward_scan] in *. destruct (backward_point v d) as [c|] eqn:Ec; [|by cbn in E].
  unfold backward_point in Ec. destruct (backward_move v d) as [p|]; [|by cbn in Ec]. cbn [mbind option_bind] in *.
  destruct (up _ p (p - d)) as [a b] eqn:Ed. injection Ec as <-. cbn [fst] in E.
  apply snake_up_spec in Ed as (_ & Hab & _); [|lia].
  destruct (overlap even lo hi ford d _) as [[]|]; [| |by cbn in E]; cbn [mbind option_bind] in *.
  - injection E as <- <-. eexists. unfold overlap_split. cbn. by replace b with (a - d) by lia.
  - by apply IH.
Qed.

End scan.

(** * One half of a round *)

(** What a vector holds. *)
Definition col (v : Diagonals) (d : Z) : Z := default 0 (dget v d).

Lemma covers_col v lo hi d : covers v lo hi → lo <= d <= hi → dget v d = Some (col v d).
Proof. intros Hc Hd. destruct (covers_dget v d lo hi Hc Hd) as [x Hx]. unfold col. by rewrite Hx. Qed.

(** A split in the box that divides it. *)
Definition divides (off1 lim1 off2 lim2 : Z) (s : Split) : Prop :=
  off1 <= i1 s <= lim1 ∧ off2 <= i2 s <= lim2 ∧
  ¬ (i1 s = off1 ∧ i2 s = off2) ∧ ¬ (i1 s = lim1 ∧ i2 s = lim2).

Section round.
  Context (left right : Side) (off1 lim1 off2 lim2 : Z) (env : Environment).
  Context (Hbox1 : 0 <= off1 < lim1) (Hbox2 : 0 <= off2 < lim2) (Hsize : lim1 + lim2 < LINE_MAX).
  Context (dlo dhi : Z) (Hdlo : dlo <= off1 - lim2 - 1) (Hdhi : lim1 - off2 + 1 <= dhi).
  Context (Hnear : same_hash left right off1 off2 = false)
          (Hfar : same_hash left right (lim1 - 1) (lim2 - 1) = false).

Local Notation fmid := (off1 - off2).
Local Notation bmid := (lim1 - lim2).
Local Notation dmin := (off1 - lim2).
Local Notation dmax := (lim1 - off2).
Local Notation rng := (rng off1 lim1 off2 lim2).
Local Notation front := (front off1 lim1 off2 lim2).
Local Notation blocked := (blocked off1 lim1 off2 lim2).
Local Notation opposite := (opposite off1 lim1 off2 lim2).
Local Notation step_point := (step_point off1 lim1 off2 lim2).
Local Notation bounds := (bounds off1 lim1 off2 lim2).
Local Notation back_front := (back_front off1 lim1 off2 lim2).
Local Notation back_blocked := (back_blocked off1 lim1 off2 lim2).
Local Notation back_opposite := (back_opposite off1 lim1 off2 lim2).
Local Notation back_step_point := (back_step_point off1 lim1 off2 lim2).
Local Notation cov := (λ v, covers v dlo dhi).
Local Notation divides := (divides off1 lim1 off2 lim2).
Local Notation forward_point := (forward_point left right lim1 lim2).
Local Notation backward_point := (backward_point left right off1 off2).

Lemma rng_box m c d : rng m c d → dmin <= d <= dmax.
Proof. by intros (_ & ? & _). Qed.

Lemma rng_col v m c d : cov v → rng m c d → dget v d = Some (col v d).
Proof. intros Hc Hd%rng_box. apply (covers_col _ _ _ _ Hc). lia. Qed.

(** The sentinel stands for each neighbour the last round did not visit. *)
Definition guarded (m c s : Z) (v : Diagonals) : Prop := ∀ d, rng m (c + 1) d →
  (rng m c (d - 1) ∨ dget v (d - 1) = Some s) ∧ (rng m c (d + 1) ∨ dget v (d + 1) = Some s).

Lemma widen_spec m c lo hi s v :
  dmin < m < dmax → bounds m c lo hi → cov v →
  ∃ v' lo' hi', widen v lo hi dmin dmax s = (v', lo', hi') ∧ cov v' ∧ bounds m (c + 1) lo' hi' ∧
    (∀ d, rng m c d → dget v' d = dget v d) ∧ guarded m c s v'.
Proof using Hbox1 Hbox2 Hsize Hdlo Hdhi Hnear Hfar.
  intros Hm Hb Hc. pose proof (bounds_next off1 lim1 off2 lim2 ltac:(lia) ltac:(lia) m c lo hi Hm Hb) as Hb'.
  destruct Hb as (Hlo & Hhi & Hlo' & Hhi'). unfold widen.
  set (v1 := if dmin <? lo then dset v (lo - 1 - 1) s else v).
  set (v2 := if hi <? dmax then dset v1 (hi + 1 + 1) s else v1).
  exists v2, (if dmin <? lo then lo - 1 else lo + 1), (if hi <? dmax then hi + 1 else hi - 1). split.
  { subst v1 v2. destruct (dmin <? lo), (hi <? dmax); reflexivity. }
  assert (cov v1) as Hc1 by (subst v1; destruct (dmin <? lo); [by apply covers_dset|done]).
  assert (cov v2) as Hc2 by (subst v2; destruct (hi <? dmax); [by apply covers_dset|done]).
  assert (∀ d, dget v2 d = if (hi <? dmax) && (d =? hi + 2) then Some s
                           else if (dmin <? lo) && (d =? lo - 2) then Some s else dget v d) as Hget.
  { intros d. assert (dget v1 d = if (dmin <? lo) && (d =? lo - 2) then Some s else dget v d) as H1.
    { subst v1. destruct (dmin <? lo) eqn:E; zbool; [|done]. pose proof (rng_box _ _ _ Hhi).
      pose proof (rng_box _ _ _ Hlo). rewrite (dget_dset _ _ _ _ _ _ Hc) by lia.
      by replace (lo - 1 - 1) with (lo - 2) by lia. }
    subst v2. destruct (hi <? dmax) eqn:E; zbool; [|done]. pose proof (rng_box _ _ _ Hhi).
    pose proof (rng_box _ _ _ Hlo). rewrite (dget_dset _ _ _ _ _ _ Hc1), H1 by lia. cbn [andb].
    by replace (hi + 1 + 1) with (hi + 2) by lia. }
  split; [done|]. split; [done|]. split.
  - intros d Hd. rewrite Hget.
    assert (lo <= d <= hi) by (apply (bounds_rng off1 lim1 off2 lim2 ltac:(lia) ltac:(lia) m c lo hi d); [by unfold MyersFront.bounds|done]).
    zdec. by rewrite !andb_false_r.
  - intros d Hd. rewrite !Hget. unfold MyersFront.rng in *. split.
    + destruct (decide (lo <= d - 1)); [left; zdm|]. right.
      assert (dmin < lo) by zdm. assert (d - 1 = lo - 2) by zdm. zdec. by rewrite andb_false_r.
    + destruct (decide (d + 1 <= hi)); [left; zdm|]. right.
      assert (hi < dmax) by zdm. assert (d + 1 = hi + 2) by zdm. by zdec.
Qed.

(** The stored column of a forward step. *)
Lemma forward_point_spec c v0 v F d :
  guarded fmid c (-1) v0 → front c F → (∀ e, rng fmid c e → dget v0 e = Some (F e)) →
  (∀ e, ¬ rng fmid (c + 1) e → dget v e = dget v0 e) → 0 <= c → rng fmid (c + 1) d →
  ∃ x, forward_point v d = Some x ∧ step_point c F d x.
Proof using Hbox1 Hbox2 Hsize Hdlo Hdhi Hnear Hfar.
  intros Hg HF Hv0 Hag Hc Hd. destruct (Hg d Hd) as [Hl Hr].
  rewrite <- Hag in Hl by (unfold MyersFront.rng in *; zdm).
  rewrite <- Hag in Hr by (unfold MyersFront.rng in *; zdm).
  assert (rng fmid c (d - 1) → dget v (d - 1) = Some (F (d - 1))) as Hl'.
  { intros H. rewrite Hag by (unfold MyersFront.rng in *; zdm). auto. }
  assert (rng fmid c (d + 1) → dget v (d + 1) = Some (F (d + 1))) as Hr'.
  { intros H. rewrite Hag by (unfold MyersFront.rng in *; zdm). auto. }
  assert (rng fmid c (d - 1) ∨ rng fmid c (d + 1)) as Hone by (unfold MyersFront.rng in *; zdm).
  assert (∃ X, forward_move v d = Some X ∧
    (rng fmid c (d - 1) → F (d - 1) + 1 <= X) ∧ (rng fmid c (d + 1) → F (d + 1) <= X) ∧
    (rng fmid c (d - 1) ∧ X = F (d - 1) + 1 ∨ rng fmid c (d + 1) ∧ X = F (d + 1))) as (X & HX & H1 & H2 & H3).
  { unfold forward_move.
    destruct (decide (rng fmid c (d - 1))) as [Hl1|Hl1], (decide (rng fmid c (d + 1))) as [Hr1|Hr1].
    - rewrite Hl', Hr' by done. cbn. eexists. split; [done|]. case_match; zbool; split_and!; intros; try lia; auto.
    - destruct Hr as [Hr|Hr]; [done|]. rewrite Hl', Hr by done. cbn. eexists. split; [done|].
      pose proof (HF _ Hl1). zdec. split_and!; intros; try lia; try done. by left.
    - destruct Hl as [Hl|Hl]; [done|]. rewrite Hl, Hr' by done. cbn. eexists. split; [done|].
      pose proof (HF _ Hr1). zdec. split_and!; intros; try lia; try done. by right.
    - by destruct Hone. }
  unfold MyersScan.forward_point. rewrite HX. cbn [mbind option_bind].
  destruct (snake_down _ _ _ _ _ X (X - d)) as [a b] eqn:Es. exists a. split; [done|]. exists X.
  apply snake_down_spec in Es as (Q1 & Q2 & Q3 & _); [|lia]. split_and!; try done.
  destruct (decide (a = X)) as [|]; [by left|right]. destruct Q3 as (Q3 & Q4 & Q5); [lia|].
  split_and!; [lia|lia|]. intros [-> E]. assert (b = lim2) as -> by lia. congruence.
Qed.

(** The same for a backward step. *)
Lemma backward_point_spec c v0 v B d :
  guarded bmid c LINE_MAX v0 → back_front c B → (∀ e, rng bmid c e → dget v0 e = Some (B e)) →
  (∀ e, ¬ rng bmid (c + 1) e → dget v e = dget v0 e) → 0 <= c → rng bmid (c + 1) d →
  ∃ x, backward_point v d = Some x ∧ back_step_point c B d x.
Proof using Hbox1 Hbox2 Hsize Hdlo Hdhi Hnear Hfar.
  intros Hg HB Hv0 Hag Hc Hd. destruct (Hg d Hd) as [Hl Hr].
  rewrite <- Hag in Hl by (unfold MyersFront.rng in *; zdm).
  rewrite <- Hag in Hr by (unfold MyersFront.rng in *; zdm).
  assert (rng bmid c (d - 1) → dget v (d - 1) = Some (B (d - 1))) as Hl'.
  { intros H. rewrite Hag by (unfold MyersFront.rng in *; zdm). auto. }
  assert (rng bmid c (d + 1) → dget v (d + 1) = Some (B (d + 1))) as Hr'.
  { intros H. rewrite Hag by (unfold MyersFront.rng in *; zdm). auto. }
  assert (rng bmid c (d - 1) ∨ rng bmid c (d + 1)) as Hone by (unfold MyersFront.rng in *; zdm).
  assert (∃ X, backward_move v d = Some X ∧
    (rng bmid c (d + 1) → X <= B (d + 1) - 1) ∧ (rng bmid c (d - 1) → X <= B (d - 1)) ∧
    (rng bmid c (d + 1) ∧ X = B (d + 1) - 1 ∨ rng bmid c (d - 1) ∧ X = B (d - 1))) as (X & HX & H1 & H2 & H3).
  { unfold backward_move.
    destruct (decide (rng bmid c (d - 1))) as [Hl1|Hl1], (decide (rng bmid c (d + 1))) as [Hr1|Hr1].
    - rewrite Hl', Hr' by done. cbn. eexists. split; [done|]. case_match; zbool; split_and!; intros; try lia; auto.
    - destruct Hr as [Hr|Hr]; [done|]. rewrite Hl', Hr by done. cbn. eexists. split; [done|].
      destruct (back_front_at off1 lim1 off2 lim2 _ _ _ HB Hl1). zdec. split_and!; intros; try lia; try done. by right.
    - destruct Hl as [Hl|Hl]; [done|]. rewrite Hl, Hr' by done. cbn. eexists. split; [done|].
      destruct (back_front_at off1 lim1 off2 lim2 _ _ _ HB Hr1). zdec. split_and!; intros; try lia; try done. by left.
    - by destruct Hone. }
  unfold MyersScan.backward_point. rewrite HX. cbn [mbind option_bind].
  destruct (snake_up _ _ _ _ _ X (X - d)) as [a b] eqn:Es. exists a. split; [done|]. exists X.
  apply snake_up_spec in Es as (Q1 & Q2 & Q3 & _); [|lia]. split_and!; try done.
  destruct (decide (a = X)) as [|]; [by left|right]. destruct Q3 as (Q3 & Q4 & Q5); [lia|].
  split_and!; [lia|lia|]. intros [-> E]. assert (b = off2) as -> by lia. congruence.
Qed.

Lemma overlap_spec on m c lo hi v d test :
  bounds m c lo hi → cov v → (on = true → lo <= d <= hi → rng m c d) →
  ∃ h, overlap on lo hi v d test = Some h ∧ (h = true → on = true ∧ rng m c d ∧ test (col v d) = true) ∧
    (h = false → on = true → rng m c d → test (col v d) = false).
Proof using Hbox1 Hbox2 Hsize Hdlo Hdhi Hnear Hfar.
  intros Hb Hc Hin. unfold overlap. destruct (on && (lo <=? d) && (d <=? hi)) eqn:E.
  - apply andb_prop in E as [[Eo E1]%andb_prop E2]. zbool. assert (rng m c d) as Hd by auto.
    rewrite (rng_col _ _ _ _ Hc Hd). cbn. eexists. split; [done|]. by split.
  - exists false. split_and!; [done|done|]. intros _ -> Hd.
    apply (bounds_rng off1 lim1 off2 lim2 ltac:(lia) ltac:(lia) m c lo hi) in Hd; [|done].
    cbn in E. apply andb_false_iff in E as [E|E]; zbool; lia.
Qed.

(** A scan over the diagonals of a round. *)
Lemma gscan_round m c lo hi point hit Q v0 :
  bounds m (c + 1) lo hi → cov v0 →
  (∀ v d, rng m (c + 1) d → (∀ e, ¬ rng m (c + 1) e → dget v e = dget v0 e) →
     ∃ x h, point v d = Some x ∧ Q d x ∧ hit d x = Some h) →
  ∃ v' res, gscan point hit (downwards hi lo) v0 = Some (v', res) ∧ cov v' ∧
    match res with
    | None => ∀ d, rng m (c + 1) d → Q d (col v' d) ∧ hit d (col v' d) = Some false
    | Some (d, x) => rng m (c + 1) d ∧ Q d x ∧ hit d x = Some true
    end.
Proof using Hbox1 Hbox2 Hsize Hdlo Hdhi Hnear Hfar.
  intros Hb Hc Hp. assert (∀ d, d ∈ downwards hi lo ↔ rng m (c + 1) d) as Hall.
  { intros d. rewrite elem_downwards. symmetry. by apply bounds_rng; [lia..|]. }
  destruct (gscan_spec dlo dhi point hit Q v0 (downwards hi lo) (downwards hi lo) v0)
    as (v' & res & E & Hc' & _ & _ & Hres); try done.
  - intros v d Hd _ Ha. apply Hp; [by apply Hall|]. intros e He. apply Ha. by rewrite Hall.
  - intros d Hd%Hall%rng_box. lia.
  - apply NoDup_downwards.
  - exists v', res. split_and!; try done. destruct res as [[d x]|].
    + destruct Hres as (Hd & ? & ?). by rewrite <- Hall.
    + intros d Hd%Hall. destruct (Hres d Hd) as (x & Hx & ? & ?). unfold col. by rewrite Hx.
Qed.

Definition odd : bool := (fmid - bmid) mod 2 =? 1.

Lemma forward_half c r v lo hi back blo bhi saw :
  0 <= c → cov v → bounds fmid c lo hi → front c (col v) → blocked c r (col v) → opposite c r →
  (c = 0 → col v fmid = off1) → (odd = true → r + 1 >= c) →
  cov back → bounds bmid c blo bhi → back_front c (col back) →
  ∃ v1 v' lo' hi' saw' res,
    widen v lo hi dmin dmax (-1) = (v1, lo', hi') ∧
    forward_scan left right lim1 lim2 env odd blo bhi back (downwards hi' lo') v1 saw =
      Some (v', saw', overlap_split <$> res) ∧
    cov v' ∧ bounds fmid (c + 1) lo' hi' ∧
    match res with
    | Some p => divides (overlap_split p)
    | None => front (c + 1) (col v') ∧
        (odd = true → ∀ d, rng fmid (c + 1) d → rng bmid c d → col v' d < col back d) ∧
        (rng fmid (c + 1) bmid → col v' bmid < lim1)
    end.
Proof using Hbox1 Hbox2 Hsize Hdlo Hdhi Hnear Hfar.
  intros Hc Hv Hb HF Hbl Ho H0 Hr Hback Hbb HB.
  destruct (widen_spec fmid c lo hi (-1) v) as (v1 & lo' & hi' & Ew & Hv1 & Hb' & Hsame & Hg); [lia|done|done|].
  destruct (gscan_round fmid c lo' hi' forward_point (λ d a, overlap odd blo bhi back d (λ x, x <=? a))
    (step_point c (col v)) v1) as (v' & res & E & Hv' & Hres); [done|done| |].
  { intros w d Hd Hag.
    destruct (forward_point_spec c v1 w (col v) d) as (x & Hx & HQ); try done.
    { intros e He. rewrite Hsame by done. by apply (rng_col _ fmid c). }
    destruct (overlap_spec odd bmid c blo bhi back d (λ y, y <=? x)) as (h & Hh & _); [done|done| |eauto].
    unfold odd, MyersFront.bounds, MyersFront.rng in *. intros. zbool. zdm. }
  apply (forward_scan_gscan left right lim1 lim2 env _ _ _ _ _ _ saw) in E as (saw' & E).
  exists v1, v', lo', hi', saw', res. split_and!; try done.
  assert (∀ d, rng fmid (c + 1) d → odd = true → blo <= d <= bhi → rng bmid c d) as Hin.
  { unfold odd, MyersFront.bounds, MyersFront.rng in *. intros. zbool. zdm. }
  destruct res as [[d x]|].
  - destruct Hres as (Hd & HQ & Hh).
    destruct (overlap_spec odd bmid c blo bhi back d (λ y, y <=? x)) as (h & Hh' & Ht & _); [done|done|eauto|].
    assert (h = true) as -> by congruence. destruct Ht as (Hodd & Hd' & _); [done|].
    pose proof (step_low off1 lim1 off2 lim2 ltac:(lia) ltac:(lia) _ _ _ _ HF HQ).
    destruct (step_inside off1 lim1 off2 lim2 ltac:(lia) ltac:(lia) c r (col v) d x); [done..| |].
    { specialize (Hr Hodd). unfold MyersFront.rng in *. lia. }
    pose proof (step_not_corner off1 lim1 off2 lim2 ltac:(lia) ltac:(lia) c r (col v) d x Ho HF Hbl Hd HQ H0).
    unfold MyersScan.divides, overlap_split. cbn [fst snd i1 i2]. lia.
  - split_and!; [| |intros Hd; apply (step_centre off1 lim1 off2 lim2 ltac:(lia) ltac:(lia) c r (col v)); auto; by apply Hres].
    { apply (front_step off1 lim1 off2 lim2 ltac:(lia) ltac:(lia) c r (col v)); try done.
      intros d Hd. by apply Hres. }
    intros Hodd d Hd Hd'. destruct (Hres d Hd) as [_ Hh].
    destruct (overlap_spec odd bmid c blo bhi back d (λ y, y <=? col v' d)) as (h & Hh' & _ & Hf); [done|done|eauto|].
    assert (h = false) as -> by congruence. specialize (Hf eq_refl Hodd Hd'). zbool. lia.
Qed.

Lemma backward_half c r v lo hi ford flo fhi saw :
  0 <= c → cov v → bounds bmid c lo hi → back_front c (col v) → back_blocked c r (col v) → back_opposite c r →
  (c = 0 → col v bmid = lim1) → (odd = false → r + 1 >= c + 1) →
  cov ford → bounds fmid (c + 1) flo fhi → front (c + 1) (col ford) →
  ∃ v1 v' lo' hi' saw' res,
    widen v lo hi dmin dmax LINE_MAX = (v1, lo', hi') ∧
    backward_scan left right off1 off2 env (negb odd) flo fhi ford (downwards hi' lo') v1 saw =
      Some (v', saw', overlap_split <$> res) ∧
    cov v' ∧ bounds bmid (c + 1) lo' hi' ∧
    match res with
    | Some p => divides (overlap_split p)
    | None => back_front (c + 1) (col v') ∧
        (odd = false → ∀ d, rng bmid (c + 1) d → rng fmid (c + 1) d → col ford d < col v' d) ∧
        (rng bmid (c + 1) fmid → off1 < col v' fmid)
    end.
Proof using Hbox1 Hbox2 Hsize Hdlo Hdhi Hnear Hfar.
  intros Hc Hv Hb HF Hbl Ho H0 Hr Hford Hbf HFf.
  destruct (widen_spec bmid c lo hi LINE_MAX v) as (v1 & lo' & hi' & Ew & Hv1 & Hb' & Hsame & Hg); [lia|done|done|].
  assert (∀ d, rng bmid (c + 1) d → negb odd = true → flo <= d <= fhi → rng fmid (c + 1) d) as Hin.
  { unfold odd, MyersFront.bounds, MyersFront.rng in *. intros d Hd Hodd. apply negb_true_iff in Hodd. zbool. zdm. }
  destruct (gscan_round bmid c lo' hi' backward_point (λ d a, overlap (negb odd) flo fhi ford d (λ x, a <=? x))
    (back_step_point c (col v)) v1) as (v' & res & E & Hv' & Hres); [done|done| |].
  { intros w d Hd Hag.
    destruct (backward_point_spec c v1 w (col v) d) as (x & Hx & HQ); try done.
    { intros e He. rewrite Hsame by done. by apply (rng_col _ bmid c). }
    destruct (overlap_spec (negb odd) fmid (c + 1) flo fhi ford d (λ y, x <=? y)) as (h & Hh & _); [done|done|eauto|eauto]. }
  apply (backward_scan_gscan left right off1 off2 env _ _ _ _ _ _ saw) in E as (saw' & E).
  exists v1, v', lo', hi', saw', res. split_and!; try done.
  assert (∀ d x, back_step_point c (col v) d x →
    MyersFront.step_point (- lim1) (- off1) (- lim2) (- off2) c (mirror (col v)) (- d) (- x)) as Hstep.
  { intros d x HQ. by apply back_step_point_mirror. }
  destruct res as [[d x]|].
  - destruct Hres as (Hd & HQ & Hh). apply Hstep in HQ.
    destruct (overlap_spec (negb odd) fmid (c + 1) flo fhi ford d (λ y, x <=? y)) as (h & Hh' & Ht & _); [done|done|eauto|].
    assert (h = true) as -> by congruence. destruct Ht as (Hodd & Hd' & _); [done|]. apply negb_true_iff in Hodd.
    assert (MyersFront.rng (- lim1) (- off1) (- lim2) (- off2) (- lim1 - - lim2) (c + 1) (- d)) as Hd2.
    { apply back_rng. by rewrite Z.opp_involutive. }
    pose proof (step_low (- lim1) (- off1) (- lim2) (- off2) ltac:(lia) ltac:(lia) _ _ _ _ HF HQ).
    destruct (step_inside (- lim1) (- off1) (- lim2) (- off2) ltac:(lia) ltac:(lia) c r (mirror (col v)) (- d) (- x)); [done..| |].
    { specialize (Hr Hodd). unfold MyersFront.rng in *. lia. }
    pose proof (step_not_corner (- lim1) (- off1) (- lim2) (- off2) ltac:(lia) ltac:(lia) c r (mirror (col v)) (- d) (- x) Ho HF Hbl Hd2 HQ) as Hcorner.
    assert (¬ (- x = - off1 ∧ - x - - d = - off2)).
    { apply Hcorner. intros Hc0. unfold mirror. replace (- (- lim1 - - lim2)) with bmid by lia. rewrite H0; lia. }
    unfold MyersScan.divides, overlap_split. cbn [fst snd i1 i2]. lia.
  - split_and!.
    3:{ intros Hd. assert (- col v' fmid < - off1); [|lia].
        apply (step_centre (- lim1) (- off1) (- lim2) (- off2) ltac:(lia) ltac:(lia) c r (mirror (col v))); auto.
        - apply back_rng. by replace (- (- off1 - - off2)) with fmid by lia.
        - replace (- off1 - - off2) with (- fmid) by lia. by apply Hstep, Hres.
        - intros Hc0. unfold mirror. replace (- (- lim1 - - lim2)) with bmid by lia. rewrite H0; lia. }
    { apply (front_step (- lim1) (- off1) (- lim2) (- off2) ltac:(lia) ltac:(lia) c r (mirror (col v))); try done.
      apply back_stepped. intros d Hd. by apply Hres. }
    intros Hodd d Hd Hd'. destruct (Hres d Hd) as [_ Hh].
    destruct (overlap_spec (negb odd) fmid (c + 1) flo fhi ford d (λ y, col v' d <=? y)) as (h & Hh' & _ & Hf); [done|done|eauto|].
    assert (h = false) as -> by congruence. specialize (Hf eq_refl ltac:(by rewrite Hodd) Hd'). zbool. lia.
Qed.

(** * What follows the scans of a round *)

Definition scans_at (c : Z) (st : Scan) : Prop :=
  cov (forward st) ∧ cov (backward st) ∧
  bounds fmid c (forwardMin st) (forwardMax st) ∧ bounds bmid c (backwardMin st) (backwardMax st) ∧
  front c (col (forward st)) ∧ back_front c (col (backward st)).

Lemma visited_forward_rng c st d : scans_at c st → d ∈ visited_forward st → rng fmid c d.
Proof using Hbox1 Hbox2 Hsize Hdlo Hdhi Hnear Hfar.
  intros (_ & _ & Hb & _) Hd. apply elem_downwards in Hd.
  by apply (bounds_rng off1 lim1 off2 lim2 ltac:(lia) ltac:(lia) _ _ _ _ d Hb).
Qed.

Lemma visited_backward_rng c st d : scans_at c st → d ∈ visited_backward st → rng bmid c d.
Proof using Hbox1 Hbox2 Hsize Hdlo Hdhi Hnear Hfar.
  intros (_ & _ & _ & Hb & _) Hd. apply elem_downwards in Hd.
  by apply (bounds_rng off1 lim1 off2 lim2 ltac:(lia) ltac:(lia) _ _ _ _ d Hb).
Qed.

Lemma visited_nonempty c st : scans_at c st → visited_forward st ≠ [] ∧ visited_backward st ≠ [].
Proof using Hbox1 Hbox2 Hsize Hdlo Hdhi Hnear Hfar.
  intros (_ & _ & Hbf & Hbb & _). split; intros E.
  - assert (forwardMax st ∈ visited_forward st) as Hin; [|rewrite E in Hin; by apply not_elem_of_nil in Hin].
    apply elem_downwards, (bounds_rng off1 lim1 off2 lim2 ltac:(lia) ltac:(lia) fmid c _ _ _ Hbf), Hbf.
  - assert (backwardMax st ∈ visited_backward st) as Hin; [|rewrite E in Hin; by apply not_elem_of_nil in Hin].
    apply elem_downwards, (bounds_rng off1 lim1 off2 lim2 ltac:(lia) ltac:(lia) bmid c _ _ _ Hbb), Hbb.
Qed.

Lemma heuristic_split_spec c st :
  0 < snakeCount env → scans_at c st →
  ∃ res, heuristic_split left right off1 lim1 off2 lim2 env c st = Some res ∧ (∀ s, res = Some s → divides s).
Proof using Hbox1 Hbox2 Hsize Hdlo Hdhi Hnear Hfar.
  intros Hsc Hst. destruct (Hst) as (Hcf & Hcb & _). unfold heuristic_split.
  set (I := λ f : Z * option Split, ∀ s, snd f = Some s → divides s).
  destruct (for_each_inv I (visited_forward st)
    (forward_candidate left right off1 lim1 off2 lim2 env c fmid (forward st)) (0, None)) as ([b1 c1] & E1 & H1).
  { intros d [best cand] Hd%(visited_forward_rng c) Hi; [|done]. unfold forward_candidate.
    rewrite (rng_col _ _ _ _ Hcf Hd). cbn [mbind option_bind]. destruct (_ && long_snake _ _ _ _ _ _ _ _) eqn:E; [|eauto].
    eexists. split; [done|]. intros s [= <-]. zbool. unfold MyersScan.divides. cbn [i1 i2]. lia. }
  { by intros s. }
  rewrite E1. cbn [mbind option_bind snd]. destruct c1 as [s1|].
  { eexists. split; [done|]. intros s [= <-]. by apply H1. }
  destruct (for_each_inv I (visited_backward st)
    (backward_candidate left right off1 lim1 off2 lim2 env c bmid (backward st)) (0, None)) as ([b2 c2] & E2 & H2).
  { intros d [best cand] Hd%(visited_backward_rng c) Hi; [|done]. unfold backward_candidate.
    rewrite (rng_col _ _ _ _ Hcb Hd). cbn [mbind option_bind]. destruct (_ && long_snake _ _ _ _ _ _ _ _) eqn:E; [|eauto].
    eexists. split; [done|]. intros s [= <-]. zbool. unfold MyersScan.divides. cbn [i1 i2]. lia. }
  { by intros s. }
  rewrite E2. cbn [mbind option_bind snd]. eexists. split; [done|]. apply H2.
Qed.

(** The furthest points are clipped into the box. *)
Lemma furthest_split_spec c st :
  1 <= c → scans_at c st →
  (rng fmid c bmid → col (forward st) bmid < lim1) → (rng bmid c fmid → off1 < col (backward st) fmid) →
  ∃ s, furthest_split off1 lim1 off2 lim2 st = Some s ∧ divides s.
Proof using Hbox1 Hbox2 Hsize Hdlo Hdhi Hnear Hfar.
  intros Hc Hst Hcf Hcb. destruct (Hst) as (Hvf & Hvb & _ & _ & HF & HB).
  destruct (visited_nonempty c st Hst) as [Hnf Hnb]. unfold furthest_split.
  destruct (for_each_first (λ f : Z * Z, off1 <= snd f <= lim1 ∧ off2 <= fst f - snd f <= lim2 ∧
      off1 + off2 < fst f < lim1 + lim2) (visited_forward st) (forward_best lim1 lim2 (forward st)) (-1, -1))
    as ([best best1] & E1 & H1); [done| |].
  { intros d s' Hd%(visited_forward_rng c) Hs; [|done]. destruct s' as [best best1]. unfold forward_best.
    rewrite (rng_col _ _ _ _ Hvf Hd). cbn [mbind option_bind].
    destruct (HF d Hd) as (P1 & P2 & P3 & _). pose proof (rng_box _ _ _ Hd). set (x := col (forward st) d) in *.
    assert (d = bmid → x < lim1) as Hmid by (intros ->; by apply Hcf).
    destruct (lim2 <? Z.min x lim1 - d) eqn:E; zbool.
    - destruct (best <? lim2 + d + lim2) eqn:E'; zbool; (eexists; split; [done|]); cbn [fst snd] in *; [lia|].
      destruct Hs as [[= -> ->]|Hs]; lia.
    - destruct (best <? Z.min x lim1 + (Z.min x lim1 - d)) eqn:E'; zbool; (eexists; split; [done|]);
        cbn [fst snd] in *; [lia|]. destruct Hs as [[= -> ->]|Hs]; lia. }
  rewrite E1. cbn [mbind option_bind].
  destruct (for_each_first (λ f : Z * Z, off1 <= snd f <= lim1 ∧ off2 <= fst f - snd f <= lim2 ∧
      off1 + off2 < fst f < lim1 + lim2) (visited_backward st) (backward_best off1 off2 (backward st)) (LINE_MAX, LINE_MAX))
    as ([bbest bbest1] & E2 & H2); [done| |].
  { intros d s' Hd%(visited_backward_rng c) Hs; [|done]. destruct s' as [b0 b1]. unfold backward_best.
    rewrite (rng_col _ _ _ _ Hvb Hd). cbn [mbind option_bind].
    destruct (back_front_at off1 lim1 off2 lim2 c _ d HB Hd) as (P1 & P2 & P3).
    pose proof (rng_box _ _ _ Hd). set (x := col (backward st) d) in *.
    assert (d = fmid → off1 < x) as Hmid by (intros ->; by apply Hcb).
    destruct (Z.max off1 x - d <? off2) eqn:E; zbool.
    - destruct (off2 + d + off2 <? b0) eqn:E'; zbool; (eexists; split; [done|]); cbn [fst snd] in *; [lia|].
      destruct Hs as [[= -> ->]|Hs]; lia.
    - destruct (Z.max off1 x + (Z.max off1 x - d) <? b0) eqn:E'; zbool; (eexists; split; [done|]);
        cbn [fst snd] in *; [lia|]. destruct Hs as [[= -> ->]|Hs]; lia. }
  rewrite E2. cbn [mbind option_bind fst snd] in *. eexists. split; [done|].
  unfold MyersScan.divides. case_match; cbn [i1 i2]; lia.
Qed.

Lemma settle_spec needMinimal c saw st :
  1 <= c → 0 < snakeCount env → scans_at c st →
  (rng fmid c bmid → col (forward st) bmid < lim1) → (rng bmid c fmid → off1 < col (backward st) fmid) →
  ∃ res, settle left right off1 lim1 off2 lim2 env needMinimal c saw st = Some res ∧
    (∀ s, res = Some s → divides s).
Proof using Hbox1 Hbox2 Hsize Hdlo Hdhi Hnear Hfar.
  intros Hc Hsc Hst Hcf Hcb. unfold settle. destruct needMinimal; [by eexists|].
  assert (∃ res, (if saw && (heuristicMinimum env <? c) then heuristic_split left right off1 lim1 off2 lim2 env c st
    else Some None) = Some res ∧ (∀ s, res = Some s → divides s)) as (res & -> & Hres).
  { case_match; [by apply heuristic_split_spec|by eexists]. }
  cbn [mbind option_bind]. destruct res as [s|]; [eexists; split; [done|]; auto|].
  destruct (maxCost env <=? c); [|by eexists].
  destruct (furthest_split_spec c st) as (s & -> & Hs); [done..|]. eexists. split; [done|]. by intros ? [= <-].
Qed.

(** * A round *)

(** How far the opposite front reaches when a forward front of round [c] was last tested. *)
Definition reach (c : Z) : Z := if odd then Z.max (c - 1) 0 else c.

Definition scan_inv (c : Z) (st : Scan) : Prop :=
  0 <= c ∧ scans_at c st ∧
  (c = 0 → col (forward st) fmid = off1 ∧ col (backward st) bmid = lim1) ∧
  blocked c (reach c) (col (forward st)) ∧
  (odd = false → back_blocked c c (col (backward st))).

Lemma opposite_reach c : 0 <= c → opposite c (reach c).
Proof. unfold reach, MyersFront.opposite, odd. intros. case_match; zbool; split_and!; lia. Qed.

Lemma front_low c F d : front c F → rng fmid c d → off1 <= F d ∧ off2 <= F d - d.
Proof. intros HF Hd. destruct (HF d Hd) as (? & ? & _). done. Qed.

Lemma back_high c B d : back_front c B → rng bmid c d → B d <= lim1 ∧ B d - d <= lim2.
Proof. intros HB Hd. by destruct (back_front_at off1 lim1 off2 lim2 c B d HB Hd) as (? & ? & _). Qed.

Lemma scan_round_spec c needMinimal st :
  0 < snakeCount env → scan_inv c st →
  ∃ st' res, scan_round left right off1 lim1 off2 lim2 env needMinimal (c + 1) st = Some (st', res) ∧
    cov (forward st') ∧ cov (backward st') ∧
    match res with
    | Some s => divides s
    | None => scan_inv (c + 1) st' ∧ c + 1 < (lim1 - off1) + (lim2 - off2)
    end.
Proof using Hbox1 Hbox2 Hsize Hdlo Hdhi Hnear Hfar.
  intros Hsc (Hc & Hst & H0 & Hbl & Hbb). pose proof Hst as (Hvf & Hvb & Hbf & Hbbk & HF & HB).
  destruct (forward_half c (reach c) (forward st) (forwardMin st) (forwardMax st) (backward st)
    (backwardMin st) (backwardMax st) false) as (v1 & f' & lo' & hi' & saw' & res & Ew & Es & Hf' & Hb' & Hres);
    try done; [by apply opposite_reach|by apply H0|unfold reach; intros ->; lia|].
  unfold scan_round. fold odd. rewrite Ew. cbn beta iota. rewrite Es. cbn [mbind option_bind].
  destruct res as [p|]; cbn [fmap option_fmap option_map] in *.
  { eexists _, _. split; [done|]. by cbn. }
  destruct Hres as (HF' & Hno & Hcf).
  assert (∃ r, back_blocked c r (col (backward st)) ∧ back_opposite c r ∧ (odd = false → r + 1 >= c + 1)) as (r & Hr1 & Hr2 & Hr3).
  { destruct odd eqn:Eo.
    - exists (c + 1). split_and!; [|unfold MyersFront.back_opposite, MyersFront.opposite; lia|done].
      apply (back_blocked_by off1 lim1 off2 lim2 ltac:(lia) ltac:(lia) _ _ _ (col f')).
      + unfold odd in Eo. zbool. zdm.
      + intros d Hd. by apply (front_low (c + 1)).
      + intros d Hd Hd'. by apply Hno.
    - exists c. split_and!; [auto|unfold MyersFront.back_opposite, MyersFront.opposite; lia|lia]. }
  destruct (backward_half c r (backward st) (backwardMin st) (backwardMax st) f' lo' hi' saw')
    as (w1 & b' & blo' & bhi' & saw2 & res & Ew2 & Es2 & Hvb' & Hb2 & Hres); try done; [by apply H0|].
  cbn [backward backwardMin backwardMax forward]. rewrite Ew2. cbn beta iota. rewrite Es2. cbn [mbind option_bind].
  destruct res as [p|]; cbn [fmap option_fmap option_map] in *.
  { eexists _, _. split; [done|]. by cbn. }
  destruct Hres as (HB' & Hno2 & Hcb).
  set (st' := mkScan f' lo' hi' b' blo' bhi').
  assert (scans_at (c + 1) st') as Hst' by (by unfold scans_at).
  destruct (settle_spec needMinimal (c + 1) saw2 st') as (res & -> & Hres); [lia|done..|].
  cbn [mbind option_bind]. exists st', res. split_and!; [done..|]. destruct res as [s|]; [auto|].
  assert (blocked (c + 1) (reach (c + 1)) (col f')) as Hbl'.
  { unfold reach. destruct odd eqn:Eo.
    - replace (Z.max (c + 1 - 1) 0) with c by lia.
      apply (blocked_by off1 lim1 off2 lim2 ltac:(lia) ltac:(lia) _ _ _ (col (backward st))).
      + unfold odd in Eo. zbool. zdm.
      + intros d Hd. by apply (back_high c).
      + auto.
    - apply (blocked_by off1 lim1 off2 lim2 ltac:(lia) ltac:(lia) _ _ _ (col b')).
      + unfold odd in Eo. zbool. zdm.
      + intros d Hd. by apply (back_high (c + 1)).
      + auto. }
  split.
  - split_and!; [lia|done|lia|done|]. intros Eo.
    apply (back_blocked_by off1 lim1 off2 lim2 ltac:(lia) ltac:(lia) _ _ _ (col f')).
    + unfold odd in Eo. zbool. zdm.
    + intros d Hd. by apply (front_low (c + 1)).
    + auto.
  - apply (blocked_bound off1 lim1 off2 lim2 ltac:(lia) ltac:(lia) (c + 1) (reach (c + 1)) (col f')); [|done..].
    apply opposite_reach. lia.
Qed.

Lemma scan_rounds_spec fuel c needMinimal st :
  0 < snakeCount env → scan_inv c st → (lim1 - off1) + (lim2 - off2) - c <= Z.of_nat fuel → (0 < fuel)%nat →
  ∃ st' s, scan_rounds left right off1 lim1 off2 lim2 env fuel needMinimal (c + 1) st = Some (st', s) ∧
    cov (forward st') ∧ cov (backward st') ∧ divides s.
Proof using Hbox1 Hbox2 Hsize Hdlo Hdhi Hnear Hfar.
  intros Hsc. revert c st. induction fuel as [|fuel IH]; intros c st Hi Hfu Hpos; [lia|]. cbn [scan_rounds].
  destruct (scan_round_spec c needMinimal st) as (st' & res & -> & Hf & Hb & Hres); [done..|].
  cbn [mbind option_bind]. destruct res as [s|]; [by eexists _, _|].
  destruct Hres as [Hi' Hlt]. apply IH; [done|lia|lia].
Qed.

Lemma findSplit_spec f b needMinimal :
  0 < snakeCount env → cov f → cov b →
  ∃ st s, findSplit left right off1 lim1 off2 lim2 env f b needMinimal = Some (st, s) ∧
    cov (forward st) ∧ cov (backward st) ∧ divides s.
Proof using Hbox1 Hbox2 Hsize Hdlo Hdhi Hnear Hfar.
  intros Hsc Hf Hb. unfold findSplit. apply (scan_rounds_spec _ 0); [done| |lia|lia].
  assert (col (dset f fmid off1) fmid = off1) as E1.
  { unfold col. rewrite (dget_dset _ _ _ _ _ _ Hf) by lia. by zdec. }
  assert (col (dset b bmid lim1) bmid = lim1) as E2.
  { unfold col. rewrite (dget_dset _ _ _ _ _ _ Hb) by lia. by zdec. }
  split_and!; [lia| |done| |].
  - unfold scans_at. cbn [forward backward forwardMin forwardMax backwardMin backwardMax].
    rewrite !covers_dset. split_and!; try done.
    + apply bounds_start; lia.
    + apply bounds_start; lia.
    + by apply front_start; [lia..|].
    + by apply back_front_start; [lia..|].
  - by apply blocked_start; [lia..|].
  - intros _. by apply back_blocked_start; [lia..|].
Qed.

End round.
