(* ===== verification/MyersCompare.v ===== *)
(** [compare] marks a set of lines outside which the two sides agree: it ends within a depth
    bounded by the size of the box, touches no mark outside it, and the classes it leaves
    unmarked are the same on both sides, in the same order. *)

From S2P Require Import Prelude Arrays MyersState MyersFront MyersSearch MyersScan.

Lemma slice_cons {A} (l : list A) a b :
  0 <= a < b → b <= zlen l → ∃ x, at_ l a = Some x ∧ slice l a b = x :: slice l (a + 1) b.
Proof.
  intros Ha Hb. destruct (proj2 (at_is_Some l a) ltac:(lia)) as [x Hx]. exists x. split; [done|].
  rewrite <- (slice_cat l a (a + 1) b) by lia. change (x :: slice l (a + 1) b) with ([x] ++ slice l (a + 1) b). f_equal.
  apply at_ext. intros i Hi. destruct (decide (i = 0)) as [->|].
  - rewrite at_slice, Z.add_0_r, Hx by lia. done.
  - rewrite !at_ge; [done|change (zlen [x]) with 1; lia|rewrite zlen_slice; lia].
Qed.

Lemma elem_slice {A} (l : list A) a b x :
  0 <= a <= b → b <= zlen l → x ∈ slice l a b ↔ ∃ i, a <= i < b ∧ at_ l i = Some x.
Proof.
  intros Ha Hb. rewrite list_elem_of_lookup. split.
  - intros [i Hi]. assert (at_ (slice l a b) (Z.of_nat i) = Some x) as Hi'.
    { unfold at_. zdec. by rewrite Nat2Z.id. }
    assert (0 <= Z.of_nat i < zlen (slice l a b)) as Hr by (apply at_is_Some; eauto).
    rewrite zlen_slice in Hr by lia. rewrite at_slice in Hi' by lia. exists (a + Z.of_nat i). split; [lia|done].
  - intros (i & Hi & Hx). exists (Z.to_nat (i - a)).
    assert (at_ (slice l a b) (i - a) = Some x) as Hi'.
    { rewrite at_slice by lia. by replace (a + (i - a)) with i by lia. }
    unfold at_ in Hi'. by rewrite (proj2 (Z.ltb_ge _ _)) in Hi' by lia.
Qed.

Lemma slice_disjoint (l : list Z) a b c x :
  NoDup l → 0 <= a <= b → b <= c → c <= zlen l → x ∈ slice l a b → x ∈ slice l b c → False.
Proof.
  intros Hn Ha Hb Hc (i & Hi & Hx)%elem_slice (j & Hj & Hy)%elem_slice; [|lia..].
  unfold at_ in *. rewrite (proj2 (Z.ltb_ge i 0)) in Hx by lia. rewrite (proj2 (Z.ltb_ge j 0)) in Hy by lia.
  pose proof (NoDup_lookup _ _ _ _ Hn Hx Hy). lia.
Qed.

Lemma kept_cons {A} f (l : list A) i idx :
  kept f l (i :: idx) = option_list (if f i then None else at_ l i) ++ kept f l idx.
Proof. unfold kept. by rewrite omap_app_cons. Qed.

Section compare.
  Context (left right : Side) (n1 n2 : Z) (env : Environment).
  Context (Hdup1 : NoDup (reference left)) (Hdup2 : NoDup (reference right)).
  Context (Hin1 : Forall (λ r, 0 <= r < n1) (reference left)) (Hin2 : Forall (λ r, 0 <= r < n2) (reference right)).
  Context (Hsize : zlen (reference left) + zlen (reference right) < LINE_MAX) (Hsnake : 0 < snakeCount env).

Local Notation R1 := (reference left).
Local Notation R2 := (reference right).
Local Notation cov := (λ v, covers v (- zlen R2 - 1) (zlen R1 + 1)).

(** The marks changed within [idx] only. *)
Definition within (idx : list Z) (m m' : list Z) : Prop := ∀ i, i ∉ idx → marked m' i = marked m i.
Definition clear (idx : list Z) (m : list Z) : Prop := ∀ i, i ∈ idx → marked m i = false.

Lemma within_trans idx m m' m'' : within idx m m' → within idx m' m'' → within idx m m''.
Proof. intros H1 H2 i Hi. by rewrite H2, H1. Qed.

Lemma within_mono idx idx' m m' : (∀ i, i ∈ idx → i ∈ idx') → within idx m m' → within idx' m m'.
Proof. intros Hs H i Hi. apply H. auto. Qed.

Lemma within_kept {A} idx jdx m m' (l : list A) :
  within idx m m' → (∀ i, i ∈ idx → i ∈ jdx → False) → kept (marked m') l jdx = kept (marked m) l jdx.
Proof. intros H Hd. apply kept_ext. intros i Hi. apply H. intros Hx. eauto. Qed.

Lemma elem_ref side n a b i :
  Forall (λ r, 0 <= r < n) (reference side) → 0 <= a <= b → b <= zlen (reference side) →
  i ∈ slice (reference side) a b → 0 <= i < n.
Proof.
  intros Hf Ha Hb (k & Hk & Hi)%elem_slice; [|lia..]. unfold at_ in Hi. case_match; [done|].
  by apply (Forall_lookup_1 _ _ _ _ Hf) in Hi.
Qed.

Lemma mark_range_spec side n m a b :
  Forall (λ r, 0 <= r < n) (reference side) → 0 <= a <= b → b <= zlen (reference side) → marks_ok n m →
  ∃ m', mark_range (set_changed side m) (seqZ a (b - a)) = set_changed side m' ∧ marks_ok n m' ∧
    within (slice (reference side) a b) m m' ∧ (∀ i, i ∈ slice (reference side) a b → marked m' i = true).
Proof.
  intros Hf Ha Hb. remember (Z.to_nat (b - a)) as k eqn:Hk. revert a m Ha Hk.
  induction k as [|k IH]; intros a m Ha Hk Hm.
  { exists m. replace b with a by lia. rewrite Z.sub_diag, slice_empty. split_and!; try done.
    intros i Hi. by apply not_elem_of_nil in Hi. }
  rewrite seqZ_cons by lia. cbn [mark_range reference set_changed].
  destruct (slice_cons (reference side) a b) as (x & Hx & Hsl); [lia..|]. rewrite Hx.
  assert (0 <= x < n) as Hxn.
  { apply (elem_ref side n a b); [done|lia..|]. rewrite Hsl. constructor. }
  replace (Z.succ a) with (a + 1) by lia. replace (Z.pred (b - a)) with (b - (a + 1)) by lia.
  destruct (IH (a + 1) (mark m x true)) as (m' & E & Hm' & Hw & Hall); [lia|lia|by apply marks_ok_mark|].
  exists m'. split; [exact E|]. split; [done|]. rewrite Hsl.
  assert (∀ j, marked (mark m x true) j = if j =? x then true else marked m j) as Hmk.
  { intros j. apply (marked_mark m x j true n); [apply Hm|lia]. }
  split.
  - intros i [Hix Hi]%not_elem_of_cons. rewrite Hw, Hmk by done. by zdec.
  - intros i Hi. destruct (decide (i ∈ slice (reference side) (a + 1) b)); [auto|].
    apply elem_of_cons in Hi as [->|]; [|done]. rewrite Hw, Hmk by done. by zdec.
Qed.

(** Lines of one class, kept on both sides. *)
Lemma kept_same m1 m2 a b a' b' :
  0 <= a <= b → b <= zlen R1 → 0 <= a' → b' <= zlen R2 → b' - a' = b - a →
  clear (slice R1 a b) m1 → clear (slice R2 a' b') m2 →
  (∀ k, 0 <= k < b - a → same_hash left right (a + k) (a' + k) = true) →
  kept (marked m1) (classes left) (slice R1 a b) = kept (marked m2) (classes right) (slice R2 a' b').
Proof.
  intros Ha Hb Ha' Hb' E. remember (Z.to_nat (b - a)) as k eqn:Hk. revert a a' Ha Ha' E Hk.
  induction k as [|k IH]; intros a a' Ha Ha' E Hk Hc1 Hc2 Hs.
  { replace b with a by lia. replace b' with a' by lia. by rewrite !slice_empty. }
  destruct (slice_cons R1 a b) as (x & Hx & Hsl); [lia..|].
  destruct (slice_cons R2 a' b') as (y & Hy & Hsl'); [lia..|]. rewrite Hsl, Hsl' in *. rewrite !kept_cons.
  rewrite Hc1, Hc2 by constructor. f_equal.
  - specialize (Hs 0 ltac:(lia)). apply bool_decide_eq_true in Hs. unfold hashAt in Hs.
    rewrite !Z.add_0_r, Hx, Hy in Hs. cbn in Hs. by rewrite Hs.
  - apply IH; try lia.
    + intros i Hi. apply Hc1. by constructor.
    + intros i Hi. apply Hc2. by constructor.
    + intros j Hj. specialize (Hs (j + 1) ltac:(lia)).
      by replace (a + 1 + j) with (a + (j + 1)) by lia; replace (a' + 1 + j) with (a' + (j + 1)) by lia.
Qed.

Lemma clear_sub l m a b c d :
  clear (slice l a b) m → 0 <= a → a <= c <= d → d <= b → b <= zlen l → clear (slice l c d) m.
Proof.
  intros H ? ? ? ? i (k & Hk & Hi)%elem_slice; [|lia..]. apply H. apply elem_slice; [lia..|]. exists k. split; [lia|done].
Qed.

Lemma within_sub l m m' a b c d :
  within (slice l c d) m m' → 0 <= a → a <= c <= d → d <= b → b <= zlen l → within (slice l a b) m m'.
Proof.
  intros H ? ? ? ?. eapply within_mono; [|exact H]. intros i (k & Hk & Hi)%elem_slice; [|lia..].
  apply elem_slice; [lia..|]. exists k. split; [lia|done].
Qed.

(** A call's result. *)
Definition compared (off1 lim1 off2 lim2 : Z) (m1 m2 m1' m2' : list Z) : Prop :=
  marks_ok n1 m1' ∧ marks_ok n2 m2' ∧ within (slice R1 off1 lim1) m1 m1' ∧ within (slice R2 off2 lim2) m2 m2' ∧
  kept (marked m1') (classes left) (slice R1 off1 lim1) = kept (marked m2') (classes right) (slice R2 off2 lim2).

Lemma within_clear idx jdx m m' :
  within idx m m' → clear jdx m → (∀ i, i ∈ idx → i ∈ jdx → False) → clear jdx m'.
Proof. intros Hw Hc Hd i Hi. rewrite Hw; [by apply Hc|]. intros Hx. eauto. Qed.

(** Two boxes, one after the other. *)
Lemma compared_app a1 b1 c1 a2 b2 c2 m1 m2 m1' m2' m1'' m2'' :
  0 <= a1 <= b1 → b1 <= c1 → c1 <= zlen R1 → 0 <= a2 <= b2 → b2 <= c2 → c2 <= zlen R2 →
  compared a1 b1 a2 b2 m1 m2 m1' m2' → compared b1 c1 b2 c2 m1' m2' m1'' m2'' →
  compared a1 c1 a2 c2 m1 m2 m1'' m2''.
Proof using Hdup1 Hdup2.
  intros ? ? ? ? ? ? (_ & _ & W1 & W2 & K) (Ho1 & Ho2 & W1' & W2' & K').
  split_and!; [done|done| | |].
  - apply within_trans with m1'; [apply (within_sub R1 _ _ a1 c1 a1 b1)|apply (within_sub R1 _ _ a1 c1 b1 c1)]; (done || lia).
  - apply within_trans with m2'; [apply (within_sub R2 _ _ a2 c2 a2 b2)|apply (within_sub R2 _ _ a2 c2 b2 c2)]; (done || lia).
  - rewrite <- (slice_cat R1 a1 b1 c1), <- (slice_cat R2 a2 b2 c2), !kept_app, K' by lia. f_equal.
    rewrite (within_kept _ _ _ _ _ W1'), (within_kept _ _ _ _ _ W2'); [done|..]; intros i Hi1 Hi2.
    + by apply (slice_disjoint R2 a2 b2 c2 i).
    + by apply (slice_disjoint R1 a1 b1 c1 i).
Qed.

Lemma compared_same a b a' b' m1 m2 :
  0 <= a <= b → b <= zlen R1 → 0 <= a' → b' <= zlen R2 → b' - a' = b - a → marks_ok n1 m1 → marks_ok n2 m2 →
  clear (slice R1 a b) m1 → clear (slice R2 a' b') m2 →
  (∀ k, 0 <= k < b - a → same_hash left right (a + k) (a' + k) = true) → compared a b a' b' m1 m2 m1 m2.
Proof. intros. split_and!; try done. by apply kept_same. Qed.

(** A box with nothing left on one side. *)
Lemma compared_left a b a2 m1 m1' m2 :
  0 <= a <= b → b <= zlen R1 → marks_ok n1 m1' → marks_ok n2 m2 → within (slice R1 a b) m1 m1' →
  (∀ i, i ∈ slice R1 a b → marked m1' i = true) → compared a b a2 a2 m1 m2 m1' m2.
Proof. intros. split_and!; try done. by rewrite slice_empty, kept_marked. Qed.

Lemma compared_right a b a1 m1 m2 m2' :
  0 <= a <= b → b <= zlen R2 → marks_ok n1 m1 → marks_ok n2 m2' → within (slice R2 a b) m2 m2' →
  (∀ i, i ∈ slice R2 a b → marked m2' i = true) → compared a1 a1 a b m1 m2 m1 m2'.
Proof. intros. split_and!; try done. by rewrite slice_empty, (kept_marked (marked m2')). Qed.

(** The common ends of a box, around what was compared in between. *)
Lemma compared_around off1 low1 high1 lim1 off2 low2 high2 lim2 m1 m2 m1' m2' :
  0 <= off1 <= low1 → low1 <= high1 <= lim1 → lim1 <= zlen R1 →
  0 <= off2 <= low2 → low2 <= high2 <= lim2 → lim2 <= zlen R2 →
  low1 - off1 = low2 - off2 → lim1 - high1 = lim2 - high2 →
  (∀ k, 0 <= k < low1 - off1 → same_hash left right (off1 + k) (off2 + k) = true) →
  (∀ k, 0 <= k < lim1 - high1 → same_hash left right (high1 + k) (high2 + k) = true) →
  marks_ok n1 m1 → marks_ok n2 m2 → clear (slice R1 off1 lim1) m1 → clear (slice R2 off2 lim2) m2 →
  compared low1 high1 low2 high2 m1 m2 m1' m2' → compared off1 lim1 off2 lim2 m1 m2 m1' m2'.
Proof using Hdup1 Hdup2.
  intros ? ? ? ? ? ? ? ? Hs1 Hs2 Hm1 Hm2 Hc1 Hc2 Hc.
  assert (compared off1 low1 off2 low2 m1 m2 m1 m2) as Hpre.
  { apply compared_same; try done; try lia; [apply (clear_sub R1 _ off1 lim1)|apply (clear_sub R2 _ off2 lim2)]; (done || lia). }
  apply (compared_app off1 high1 lim1 off2 high2 lim2 m1 m2 m1' m2' m1' m2'); try lia.
  - apply (compared_app off1 low1 high1 off2 low2 high2 m1 m2 m1 m2 m1' m2'); (done || lia).
  - destruct Hc as (Ho1 & Ho2 & W1 & W2 & _). apply compared_same; try done; try lia.
    + apply (within_clear (slice R1 low1 high1) _ m1); [done|apply (clear_sub R1 _ off1 lim1); (done || lia)|].
      intros i. apply slice_disjoint; (done || lia).
    + apply (within_clear (slice R2 low2 high2) _ m2); [done|apply (clear_sub R2 _ off2 lim2); (done || lia)|].
      intros i. apply slice_disjoint; (done || lia).
Qed.

(** [compare] on a box of any size, with fuel for its lines. *)
Lemma compare_spec fuel off1 lim1 off2 lim2 needMinimal m1 m2 f b :
  0 <= off1 <= lim1 → lim1 <= zlen R1 → 0 <= off2 <= lim2 → lim2 <= zlen R2 →
  (lim1 - off1) + (lim2 - off2) < Z.of_nat fuel →
  marks_ok n1 m1 → marks_ok n2 m2 → clear (slice R1 off1 lim1) m1 → clear (slice R2 off2 lim2) m2 →
  cov f → cov b →
  ∃ m1' m2' f' b', compare fuel env off1 lim1 off2 lim2 needMinimal
      (mkSearch (set_changed left m1) (set_changed right m2) f b) =
      Some (mkSearch (set_changed left m1') (set_changed right m2') f' b') ∧
    compared off1 lim1 off2 lim2 m1 m2 m1' m2' ∧ cov f' ∧ cov b'.
Proof using Hdup1 Hdup2 Hin1 Hin2 Hsize Hsnake.
  revert off1 lim1 off2 lim2 needMinimal m1 m2 f b.
  induction fuel as [|fuel IH]; intros off1 lim1 off2 lim2 nm m1 m2 f b Ho1 Hl1 Ho2 Hl2 Hfu Hm1 Hm2 Hc1 Hc2 Hf Hb.
  { lia. }
  cbn [compare s_left s_right s_forward s_backward].
  destruct (snake_down _ _ _ _ _ off1 off2) as [low1 low2] eqn:Ed.
  apply snake_down_spec in Ed as (D1 & D2 & D3 & D4 & D5); [|lia].
  destruct (snake_up _ _ _ _ _ lim1 lim2) as [high1 high2] eqn:Eu.
  apply snake_up_spec in Eu as (U1 & U2 & U3 & U4 & U5); [|lia].
  assert (low1 <= lim1 ∧ low2 <= lim2) as [D6 D7].
  { destruct (decide (off1 < low1)) as [H|H]; [by destruct (D3 H) as (? & ? & _)|lia]. }
  assert (low1 <= high1 ∧ low2 <= high2) as [U6 U7].
  { destruct (decide (high1 < lim1)) as [H|H]; [by destruct (U3 H) as (? & ? & _)|lia]. }
  assert (∀ k, 0 <= k < low1 - off1 → same_hash left right (off1 + k) (off2 + k) = true) as Hpre by exact D4.
  assert (∀ k, 0 <= k < lim1 - high1 → same_hash left right (high1 + k) (high2 + k) = true) as Hsuf.
  { intros k Hk. specialize (U4 (lim1 - high1 - k) ltac:(lia)).
    replace (lim1 - (lim1 - high1 - k)) with (high1 + k) in U4 by lia.
    by replace (lim2 - (lim1 - high1 - k)) with (high2 + k) in U4 by lia. }
  assert (∀ m1' m2', compared low1 high1 low2 high2 m1 m2 m1' m2' → compared off1 lim1 off2 lim2 m1 m2 m1' m2') as Haround.
  { intros m1' m2'. apply compared_around; try done; lia. }
  destruct (low1 =? high1) eqn:E1; zbool.
  { destruct (mark_range_spec right n2 m2 low2 high2) as (m2' & Em & Hm & Hw & Hall); [done|lia|lia|done|].
    exists m1, m2', f, b. rewrite Em. split; [done|]. split; [|done]. apply Haround. rewrite E1.
    apply compared_right; (done || lia). }
  destruct (low2 =? high2) eqn:E2; zbool.
  { destruct (mark_range_spec left n1 m1 low1 high1) as (m1' & Em & Hm & Hw & Hall); [done|lia|lia|done|].
    exists m1', m2, f, b. rewrite Em. split; [done|]. split; [|done]. apply Haround. rewrite E2.
    apply compared_left; (done || lia). }
  assert (same_hash left right low1 low2 = false) as Hnear by (apply D5; lia).
  assert (same_hash left right (high1 - 1) (high2 - 1) = false) as Hfar by (apply U5; lia).
  destruct (findSplit_spec (set_changed left m1) (set_changed right m2) low1 high1 low2 high2 env
    ltac:(lia) ltac:(lia) ltac:(lia) (- zlen R2 - 1) (zlen R1 + 1) ltac:(lia) ltac:(lia) Hnear Hfar f b nm)
    as (st & s & Es & Hf' & Hb' & (Hs1 & Hs2 & Hs3 & Hs4)); [done..|].
  rewrite Es. cbn [mbind option_bind].
  destruct (IH low1 (i1 s) low2 (i2 s) (minimalLow s) m1 m2 (forward st) (backward st))
    as (ma1 & ma2 & fa & ba & Ea & Ha & Hfa & Hba); try done; try lia.
  { apply (clear_sub R1 _ off1 lim1); (done || lia). }
  { apply (clear_sub R2 _ off2 lim2); (done || lia). }
  rewrite Ea. cbn [mbind option_bind]. pose proof Ha as (Hma1 & Hma2 & Wa1 & Wa2 & _).
  destruct (IH (i1 s) high1 (i2 s) high2 (minimalHigh s) ma1 ma2 fa ba)
    as (mb1 & mb2 & fb & bb & Eb & Hb2 & Hfb & Hbb); try done; try lia.
  { apply (within_clear (slice R1 low1 (i1 s)) _ m1); [done|apply (clear_sub R1 _ off1 lim1); (done || lia)|].
    intros i. apply slice_disjoint; (done || lia). }
  { apply (within_clear (slice R2 low2 (i2 s)) _ m2); [done|apply (clear_sub R2 _ off2 lim2); (done || lia)|].
    intros i. apply slice_disjoint; (done || lia). }
  rewrite Eb. exists mb1, mb2, fb, bb. split; [done|]. split; [|done]. apply Haround.
  apply (compared_app low1 (i1 s) high1 low2 (i2 s) high2 m1 m2 ma1 ma2); (done || lia).
Qed.

End compare.
