(* ===== verification/MyersPrepare.v ===== *)
(** Classifying lines, trimming the common ends and dropping lines that cannot match:
    src/packages/git/src/diff/myers-prepare.ts. *)

From S2P Require Import Prelude Arrays Objects MyersState.

Definition KPDIS_RUN : Z := 4.
Definition MAX_EQLIMIT : Z := 1024.
Definition SIMSCAN_WINDOW : Z := 100.
Definition DISCARD : Z := 0.
Definition KEEP : Z := 1.
Definition INVESTIGATE : Z := 2.

(** [for (let remaining = value; remaining > 0; remaining = Math.floor(remaining / 4)) …]. *)
Fixpoint bogosqrt_loop (fuel : nat) (remaining result : Z) : Z :=
  match fuel with
  | O => result
  | S fuel => if 0 <? remaining then bogosqrt_loop fuel (remaining / 4) (result * 2) else result
  end.
Definition bogosqrt (value : Z) : Z := bogosqrt_loop (Z.to_nat (Z.log2 value) + 1) value 1.

(** * Classes of lines *)

(** [counts[id] = (counts[id] ?? 0) + 1] for an [id] the array has. *)
Definition bump (counts : list Z) (id : Z) : list Z :=
  typed_put counts id (default 0 (at_ counts id) + 1).

(** The tables of [classify]: ids by line, and the occurrences of each id on either side. *)
Record Ids := mkIds { ids : gmap (list Z) Z; inOld : list Z; inNew : list Z }.

Definition idFor (t : Ids) (line : ustring) : Z * Ids :=
  match ids t !! line with
  | Some existing => (existing, t)
  | None =>
      let id := zlen (inOld t) in
      (id, mkIds (<[line := id]> (ids t)) (inOld t ++ [0]) (inNew t ++ [0]))
  end.

Fixpoint classes_old (t : Ids) (lines : list ustring) : list Z * Ids :=
  match lines with
  | [] => ([], t)
  | line :: lines =>
      let '(id, t) := idFor t line in
      let '(cs, t) := classes_old (mkIds (ids t) (bump (inOld t) id) (inNew t)) lines in
      (id :: cs, t)
  end.

Fixpoint classes_new (t : Ids) (lines : list ustring) : list Z * Ids :=
  match lines with
  | [] => ([], t)
  | line :: lines =>
      let '(id, t) := idFor t line in
      let '(cs, t) := classes_new (mkIds (ids t) (inOld t) (bump (inNew t) id)) lines in
      (id :: cs, t)
  end.

Record Classified := mkClassified { c_oldClasses : list Z; c_newClasses : list Z; c_inOld : list Z; c_inNew : list Z }.

Definition classify (oldLines newLines : list ustring) : Classified :=
  let '(oldClasses, t) := classes_old (mkIds ∅ [] []) oldLines in
  let '(newClasses, t) := classes_new t newLines in
  mkClassified oldClasses newClasses (inOld t) (inNew t).

(** ** Byte records *)

(** [Math.imul(a ^ b, c) >>> 0]. *)
Definition hash_step (a b c : Z) : Z := (Z.lxor a b * c) mod 2 ^ 32.

(** A byte past the end of the array is [undefined], which [^] takes for [0]. *)
Fixpoint byteRecordHash_loop (fuel : nat) (bs : bytes) (index stop lhash rhash : Z) : Z * Z :=
  match fuel with
  | O => (lhash, rhash)
  | S fuel =>
      if index <? stop then
        let byte := default 0 (at_ bs index) in
        byteRecordHash_loop fuel bs (index + 1) stop (hash_step lhash byte 0x01000193) (hash_step rhash byte 0x85ebca6b)
      else (lhash, rhash)
  end.
Definition byteRecordHash (record : ByteRecord) : ustring :=
  let '(lhash, rhash) :=
    byteRecordHash_loop (Z.to_nat (r_end record - r_start record)) (r_bytes record) (r_start record) (r_end record)
      0x811c9dc5 0x9e3779b9 in
  number_string (r_end record - r_start record) ++ js ":" ++ number_string lhash ++ js ":" ++ number_string rhash.

Fixpoint byteRecordsEqual_loop (fuel : nat) (l r : ByteRecord) (index length : Z) : bool :=
  match fuel with
  | O => true
  | S fuel =>
      if index <? length then
        if bool_decide (at_ (r_bytes l) (r_start l + index) = at_ (r_bytes r) (r_start r + index))
        then byteRecordsEqual_loop fuel l r (index + 1) length
        else false
      else true
  end.
Definition byteRecordsEqual (l r : ByteRecord) : bool :=
  let length := r_end l - r_start l in
  if negb (r_end r - r_start r =? length) then false
  else byteRecordsEqual_loop (Z.to_nat length) l r 0 length.

Record ByteIds := mkByteIds {
  buckets : gmap (list Z) (list Z); representatives : list ByteRecord; b_inOld : list Z; b_inNew : list Z
}.

(** [for (const id of bucket) if (byteRecordsEqual(representatives[id]!, line)) return id]. *)
Fixpoint in_bucket (reps : list ByteRecord) (bucket : list Z) (line : ByteRecord) : option Z :=
  match bucket with
  | [] => None
  | id :: bucket =>
      match at_ reps id with
      | Some rep => if byteRecordsEqual rep line then Some id else in_bucket reps bucket line
      | None => in_bucket reps bucket line
      end
  end.

Definition byteIdFor (t : ByteIds) (line : ByteRecord) : Z * ByteIds :=
  let key := byteRecordHash line in
  let bucket := buckets t !! key in
  match bucket ≫= λ b, in_bucket (representatives t) b line with
  | Some id => (id, t)
  | None =>
      let id := zlen (representatives t) in
      (id, mkByteIds (<[key := default [] bucket ++ [id]]> (buckets t)) (representatives t ++ [line])
             (b_inOld t ++ [0]) (b_inNew t ++ [0]))
  end.

Fixpoint byte_classes_old (t : ByteIds) (lines : list ByteRecord) : list Z * ByteIds :=
  match lines with
  | [] => ([], t)
  | line :: lines =>
      let '(id, t) := byteIdFor t line in
      let '(cs, t) := byte_classes_old (mkByteIds (buckets t) (representatives t) (bump (b_inOld t) id) (b_inNew t)) lines in
      (id :: cs, t)
  end.

Fixpoint byte_classes_new (t : ByteIds) (lines : list ByteRecord) : list Z * ByteIds :=
  match lines with
  | [] => ([], t)
  | line :: lines =>
      let '(id, t) := byteIdFor t line in
      let '(cs, t) := byte_classes_new (mkByteIds (buckets t) (representatives t) (b_inOld t) (bump (b_inNew t) id)) lines in
      (id :: cs, t)
  end.

Definition classifyBytes (oldLines newLines : list ByteRecord) : Classified :=
  let '(oldClasses, t) := byte_classes_old (mkByteIds ∅ [] [] []) oldLines in
  let '(newClasses, t) := byte_classes_new t newLines in
  mkClassified oldClasses newClasses (b_inOld t) (b_inNew t).

(** * Trimming the common ends *)

Fixpoint common_head (fuel : nat) (l r : list Z) (index limit : Z) : Z :=
  match fuel with
  | O => index
  | S fuel =>
      if (index <? limit) && bool_decide (at_ l index = at_ r index)
      then common_head fuel l r (index + 1) limit else index
  end.

Fixpoint common_tail (fuel : nat) (left right : Side) (back tail : Z) : Z :=
  match fuel with
  | O => back
  | S fuel =>
      if (back <? tail) &&
         bool_decide (at_ (classes left) (zlen (lines left) - 1 - back) = at_ (classes right) (zlen (lines right) - 1 - back))
      then common_tail fuel left right (back + 1) tail else back
  end.

Definition trimEnds (left right : Side) : Side * Side :=
  let limit := Z.min (zlen (lines left)) (zlen (lines right)) in
  let index := common_head (Z.to_nat limit) (classes left) (classes right) 0 limit in
  let tail := limit - index in
  let back := common_tail (Z.to_nat tail) left right 0 tail in
  (set_ends left index (zlen (lines left) - back - 1), set_ends right index (zlen (lines right) - back - 1)).

(** * Dropping lines *)

(** [other[side.classes[i]!] ?? 0]. *)
Definition matches_of (side : Side) (other : list Z) (i : Z) : Z :=
  default 0 (at_ (classes side) i ≫= λ c, at_ other c).

Definition actionsFor (side : Side) (offset length : Z) (other : list Z) : list Z :=
  let limit := Z.min (bogosqrt (zlen (lines side))) MAX_EQLIMIT in
  (λ i, let matches := matches_of side other (i + offset) in
        if matches =? 0 then DISCARD else if matches <? limit then KEEP else INVESTIGATE)
    <$> seqZ 0 (Z.max length 0).

(** Walking away from [index] over discarded ([unmatched]) and repeated lines. *)
Fixpoint noise_walk (steps : nat) (actions : list Z) (i dir unmatched repeated : Z) : Z * Z :=
  match steps with
  | O => (unmatched, repeated)
  | S steps =>
      let action := default (-1) (at_ actions i) in
      if action =? DISCARD then noise_walk steps actions (i + dir) dir (unmatched + 1) repeated
      else if action =? INVESTIGATE then noise_walk steps actions (i + dir) dir unmatched (repeated + 1)
      else (unmatched, repeated)
  end.

Definition isMultiMatchNoise (actions : list Z) (index : Z) : bool :=
  let first := Z.max 0 (index - SIMSCAN_WINDOW) in
  let last := Z.min (zlen actions - 1) (index + SIMSCAN_WINDOW) in
  let '(unmatchedBefore, repeatedBefore) := noise_walk (Z.to_nat (index - first)) actions (index - 1) (-1) 0 1 in
  if unmatchedBefore =? 0 then false
  else
    let '(unmatchedAfter, repeatedAfter) := noise_walk (Z.to_nat (last - index)) actions (index + 1) 1 0 1 in
    if unmatchedAfter =? 0 then false
    else
      let unmatched := unmatchedAfter + unmatchedBefore in
      let repeated := repeatedAfter + repeatedBefore in
      repeated * KPDIS_RUN <? repeated + unmatched.

(** [actions[i]], an investigated one settled. *)
Definition settled (actions : list Z) (i : Z) : Z :=
  let action := default 0 (at_ actions i) in
  if action =? INVESTIGATE then (if isMultiMatchNoise actions i then DISCARD else KEEP) else action.

Definition applyActions (side : Side) (offset : Z) (actions : list Z) : Side :=
  foldl (λ side i,
    if settled actions i =? KEEP then set_reference side (reference side ++ [i + offset])
    else set_changed side (mark (changed side) (i + offset) true))
    (set_reference side []) (seqZ 0 (zlen actions)).

Definition cleanupRecords (left right : Side) (inRight inLeft : list Z) : Side * Side :=
  let offset := dstart left in
  let leftLength := dend left - offset + 1 in
  let rightLength := dend right - offset + 1 in
  let leftActions := actionsFor left offset leftLength inRight in
  let rightActions := actionsFor right offset rightLength inLeft in
  (applyActions left offset leftActions, applyActions right offset rightActions).
