(* ===== verification/MyersPrepareFacts.v ===== *)
(** Preparation is sound: two lines have one class iff they are equal and the counts are the
    occurrences; the trimmed ends are common; a line is left out of the reference exactly
    when it is marked as changed. *)

From S2P Require Import Prelude Arrays MyersState MyersCompare MyersPrepare.

(** * The square root *)

Lemma bogosqrt_loop_spec fuel remaining result :
  0 < remaining → Z.log2 remaining < Z.of_nat fuel →
  ∃ k, bogosqrt_loop fuel remaining result = result * 2 ^ k ∧ 0 <= k ∧ remaining < 4 ^ k <= 4 * remaining.
Proof.
  revert remaining result. induction fuel as [|fuel IH]; intros remaining result Hr Hf.
  { pose proof (Z.log2_nonneg remaining). lia. }
  cbn [bogosqrt_loop]. zdec. destruct (decide (remaining < 4)) as [Hs|Hs].
  - exists 1. split; [|lia]. rewrite (Z.div_small remaining 4) by lia. by destruct fuel.
  - assert (Z.log2 (remaining / 4) = Z.log2 remaining - 2) as Hlog.
    { change 4 with (2 ^ 2). rewrite <- Z.shiftr_div_pow2, Z.log2_shiftr by lia.
      assert (Z.log2 4 <= Z.log2 remaining) by (apply Z.log2_le_mono; lia). cbn in *. lia. }
    destruct (IH (remaining / 4) (result * 2)) as (k & -> & Hk & Hb); [zdm|lia|].
    exists (k + 1). rewrite !Z.pow_add_r by lia. change (2 ^ 1) with 2. change (4 ^ 1) with 4. split; [lia|]. zdm.
Qed.

Lemma bogosqrt_bounds value : 0 < value → value < bogosqrt value * bogosqrt value <= 4 * value.
Proof.
  intros Hv. destruct (bogosqrt_loop_spec (Z.to_nat (Z.log2 value) + 1) value 1) as (k & E & Hk & Hb); [done| |].
  { pose proof (Z.log2_nonneg value). lia. }
  unfold bogosqrt. rewrite E, Z.mul_1_l, <- Z.pow_mul_l. done.
Qed.

(** * Classes *)

(** How often [i] occurs. *)
Definition occurrences (i : Z) (l : list Z) : Z := zlen (base.filter (λ j, j = i) l).

Lemma occurrences_snoc i l j : occurrences i (l ++ [j]) = occurrences i l + (if j =? i then 1 else 0).
Proof.
  unfold occurrences. rewrite filter_app, zlen_app, filter_cons, filter_nil.
  destruct (j =? i) eqn:E; zbool; case_decide; (done || lia).
Qed.

Lemma occurrences_none i l : Forall (λ j, j ≠ i) l → occurrences i l = 0.
Proof.
  induction 1 as [|j l Hj _ IH]; [done|]. unfold occurrences in *. by rewrite filter_cons_False.
Qed.

Definition counts (l : list Z) (n : Z) (seen : list Z) : Prop :=
  zlen l = n ∧ Forall (λ i, 0 <= i < n) seen ∧ ∀ i, 0 <= i < n → at_ l i = Some (occurrences i seen).

Lemma counts_bump l n seen k :
  counts l n seen → 0 <= k < n → counts (bump l k) n (seen ++ [k]).
Proof.
  intros (Hl & Hs & Hc) Hk. unfold bump. split_and!.
  - by rewrite zlen_typed_put.
  - apply Forall_app. split; [done|]. by apply Forall_singleton.
  - intros i Hi. rewrite at_typed_put by lia. rewrite occurrences_snoc, !Hc by lia.
    destruct (k =? i) eqn:E; zbool; subst; zdec; [done|]. f_equal. lia.
Qed.

Lemma counts_grow l n seen : counts l n seen → counts (l ++ [0]) (n + 1) seen.
Proof.
  intros (Hl & Hs & Hc). split_and!.
  - rewrite zlen_app. change (zlen [0]) with 1. lia.
  - eapply Forall_impl; [exact Hs|]. cbn. lia.
  - intros i Hi. destruct (decide (i = n)) as [->|].
    + rewrite at_app_r by lia. rewrite Hl, Z.sub_diag. change (at_ [0] 0) with (Some 0). f_equal.
      rewrite occurrences_none; [done|]. eapply Forall_impl; [exact Hs|]. cbn. lia.
    + rewrite at_app_l by lia. apply Hc. lia.
Qed.

Lemma counts_nil : counts [] 0 [].
Proof. split_and!; [done|constructor|lia]. Qed.

(** The classes of lines whose contents are the keys. *)
Definition classified {K} (oldKeys newKeys : list K) (c : Classified) : Prop :=
  ∃ reps, NoDup reps ∧
    Forall2 (λ k id, at_ reps id = Some k) oldKeys (c_oldClasses c) ∧
    Forall2 (λ k id, at_ reps id = Some k) newKeys (c_newClasses c) ∧
    counts (c_inOld c) (zlen reps) (c_oldClasses c) ∧ counts (c_inNew c) (zlen reps) (c_newClasses c).

Lemma at_grow {A} (l k : list A) i x : at_ l i = Some x → at_ (l ++ k) i = Some x.
Proof.
  intros H. assert (0 <= i < zlen l) by (apply at_is_Some; eauto). rewrite at_app_l by lia. done.
Qed.

Section classes.
  Context {T L K : Type} (key : L → K) (next : T → L → Z * T).
  Context (ok : T → list K → list Z → Prop).

(** One loop over the lines of a side. *)
Fixpoint gclasses (t : T) (lines : list L) : list Z * T :=
  match lines with
  | [] => ([], t)
  | line :: lines =>
      let '(id, t) := next t line in
      let '(cs, t) := gclasses t lines in
      (id :: cs, t)
  end.

Lemma gclasses_spec (P : L → Prop) t lines reps seen cs t' :
  (∀ t line reps seen id t', P line → ok t reps seen → next t line = (id, t') →
     ∃ more, ok t' (reps ++ more) (seen ++ [id]) ∧ at_ (reps ++ more) id = Some (key line)) →
  Forall P lines → ok t reps seen → gclasses t lines = (cs, t') →
  ∃ more, ok t' (reps ++ more) (seen ++ cs) ∧
    Forall2 (λ k id, at_ (reps ++ more) id = Some k) (key <$> lines) cs.
Proof.
  intros Hstep Hl. revert t reps seen cs. induction Hl as [|line lines HP Hl IH]; intros t reps seen cs Hok E.
  { injection E as <- <-. exists []. rewrite !app_nil_r. by repeat constructor. }
  cbn [gclasses] in E. destruct (next t line) as [id t1] eqn:En.
  destruct (gclasses t1 lines) as [cs' t2] eqn:Eg. injection E as <- <-.
  destruct (Hstep t line reps seen id t1 HP Hok En) as (m1 & Hok1 & Hid).
  destruct (IH t1 (reps ++ m1) (seen ++ [id]) cs' Hok1 Eg) as (m2 & Hok2 & Hall).
  exists (m1 ++ m2). rewrite <- !app_assoc in Hok2. rewrite app_assoc. split; [by rewrite <- app_assoc|].
  constructor; [by apply at_grow|done].
Qed.
End classes.

(** ** Strings *)

Definition ids_ok (t : Ids) (reps : list (list Z)) (os ns : list Z) : Prop :=
  NoDup reps ∧ (∀ s i, ids t !! s = Some i ↔ at_ reps i = Some s) ∧
  counts (inOld t) (zlen reps) os ∧ counts (inNew t) (zlen reps) ns.

Lemma at_inj {A} (l : list A) i j x : NoDup l → at_ l i = Some x → at_ l j = Some x → i = j.
Proof.
  unfold at_. intros Hn Hi Hj. destruct (i <? 0) eqn:E1, (j <? 0) eqn:E2; zbool; try done.
  pose proof (NoDup_lookup _ _ _ _ Hn Hi Hj). lia.
Qed.

Lemma at_snoc {A} (l : list A) x i y :
  at_ (l ++ [x]) i = Some y ↔ at_ l i = Some y ∨ i = zlen l ∧ x = y.
Proof.
  destruct (decide (i = zlen l)) as [->|].
  - rewrite at_app_r, Z.sub_diag, (at_ge l) by lia. change (at_ [x] 0) with (Some x). naive_solver.
  - destruct (decide (i < zlen l)).
    + rewrite at_app_l by lia. naive_solver.
    + rewrite !at_ge; [naive_solver|lia|]. rewrite zlen_app. change (zlen [x]) with 1. lia.
Qed.

Lemma elem_at {A} (l : list A) x : x ∈ l ↔ ∃ i, at_ l i = Some x.
Proof.
  rewrite list_elem_of_lookup. split.
  - intros [i Hi]. exists (Z.of_nat i). unfold at_. zdec. by rewrite Nat2Z.id.
  - intros [i Hi]. unfold at_ in Hi. case_match; [done|]. eauto.
Qed.

Lemma idFor_spec t line reps os ns id t' :
  ids_ok t reps os ns → idFor t line = (id, t') →
  ∃ more, ids_ok t' (reps ++ more) os ns ∧ at_ (reps ++ more) id = Some line ∧ 0 <= id < zlen (reps ++ more).
Proof.
  intros (Hn & Hi & Ho & Hw) E. unfold idFor in E. destruct (ids t !! line) as [e|] eqn:El.
  - injection E as <- <-. exists []. rewrite app_nil_r. assert (at_ reps e = Some line) by (by apply Hi).
    split_and!; try done; by apply (proj1 (at_is_Some reps e)); eexists.
  - injection E as <- <-. exists [line]. rewrite (proj1 Ho).
    assert (line ∉ reps) as Hnot.
    { intros [i Hx]%elem_at. apply Hi in Hx. congruence. }
    unfold ids_ok. split_and!; cbn [ids inOld inNew].
    + apply NoDup_app. split_and!; [done|intros x Hx ->%list_elem_of_singleton; done|apply NoDup_singleton].
    + intros s i. rewrite at_snoc. destruct (decide (s = line)) as [->|Hs].
      * rewrite lookup_insert_eq. split; [intros [= <-]; by right|].
        intros [Hx|[-> _]]; [|done]. destruct Hnot. apply elem_at. eauto.
      * rewrite lookup_insert_ne, Hi by done. naive_solver.
    + rewrite zlen_app. by apply counts_grow.
    + rewrite zlen_app. by apply counts_grow.
    + apply at_snoc. by right.
    + apply zlen_nonneg.
    + rewrite zlen_app. change (zlen [line]) with 1. lia.
Qed.

Lemma ids_ok_empty : ids_ok (mkIds ∅ [] []) [] [] [].
Proof.
  unfold ids_ok. split_and!; [apply NoDup_nil_2| |apply counts_nil..]. intros s i. cbn [ids].
  rewrite lookup_empty. unfold at_. case_match; done.
Qed.

Definition next_old (t : Ids) (line : ustring) : Z * Ids :=
  let '(id, t) := idFor t line in (id, mkIds (ids t) (bump (inOld t) id) (inNew t)).
Definition next_new (t : Ids) (line : ustring) : Z * Ids :=
  let '(id, t) := idFor t line in (id, mkIds (ids t) (inOld t) (bump (inNew t) id)).

Lemma classes_old_loop t lines : classes_old t lines = gclasses next_old t lines.
Proof.
  revert t. induction lines as [|line lines IH]; intros t; [done|]. cbn. unfold next_old at 1.
  destruct (idFor t line). by rewrite IH.
Qed.

Lemma classes_new_loop t lines : classes_new t lines = gclasses next_new t lines.
Proof.
  revert t. induction lines as [|line lines IH]; intros t; [done|]. cbn. unfold next_new at 1.
  destruct (idFor t line). by rewrite IH.
Qed.

Lemma classify_classified oldLines newLines : classified oldLines newLines (classify oldLines newLines).
Proof.
  unfold classify. destruct (classes_old _ oldLines) as [os t] eqn:Eo.
  destruct (classes_new t newLines) as [ns t'] eqn:En.
  rewrite classes_old_loop in Eo. rewrite classes_new_loop in En.
  destruct (gclasses_spec id next_old (λ t reps os, ids_ok t reps os []) (λ _, True)
    (mkIds ∅ [] []) oldLines [] [] os t) as (more & Hok & Hold); [| |apply ids_ok_empty|done|].
  { intros t0 line reps seen i t1 _ Hok E. unfold next_old in E. destruct (idFor t0 line) as [i' t2] eqn:Ei.
    injection E as <- <-. destruct (idFor_spec _ _ _ _ _ _ _ Hok Ei) as (m & (? & ? & ? & ?) & ? & ?).
    exists m. split; [|done]. split_and!; try done. by apply counts_bump. }
  { by apply Forall_true. }
  destruct (gclasses_spec id next_new (λ t reps ns, ids_ok t reps os ns) (λ _, True)
    t newLines ([] ++ more) [] ns t') as (more' & Hok' & Hnew); [| |done|done|].
  { intros t0 line reps seen i t1 _ Hok1 E. unfold next_new in E. destruct (idFor t0 line) as [i' t2] eqn:Ei.
    injection E as <- <-. destruct (idFor_spec _ _ _ _ _ _ _ Hok1 Ei) as (m & (? & ? & ? & ?) & ? & ?).
    exists m. split; [|done]. split_and!; try done. by apply counts_bump. }
  { by apply Forall_true. }
  rewrite list_fmap_id in Hold, Hnew. destruct Hok' as (Hn & _ & Hco & Hcn).
  exists ([] ++ more ++ more'). rewrite <- app_assoc in *. split_and!; try done.
  eapply Forall2_impl; [exact Hold|]. cbn. intros k i. apply at_grow.
Qed.

(** ** Byte records *)

Definition content (r : ByteRecord) : bytes := slice (r_bytes r) (r_start r) (r_end r).
Definition record_ok (r : ByteRecord) : Prop := 0 <= r_start r <= r_end r ∧ r_end r <= zlen (r_bytes r).

Lemma zlen_content r : record_ok r → zlen (content r) = r_end r - r_start r.
Proof. intros [? ?]. by apply zlen_slice. Qed.

Lemma at_content r i : record_ok r → 0 <= i < zlen (content r) → at_ (content r) i = at_ (r_bytes r) (r_start r + i).
Proof. intros Hr Hi. rewrite zlen_content in Hi by done. destruct Hr. apply at_slice; lia. Qed.

Lemma byteRecordsEqual_loop_spec fuel l r index n :
  n - index <= Z.of_nat fuel →
  byteRecordsEqual_loop fuel l r index n = true ↔
  ∀ i, index <= i < n → at_ (r_bytes l) (r_start l + i) = at_ (r_bytes r) (r_start r + i).
Proof.
  revert index. induction fuel as [|fuel IH]; intros index Hf; cbn [byteRecordsEqual_loop].
  { split; [|done]. intros _ i. lia. }
  destruct (index <? n) eqn:E; zbool.
  - case_bool_decide as Ea.
    + rewrite IH by lia. split; intros H i Hi; [|apply H; lia].
      destruct (decide (i = index)) as [->|]; [done|apply H; lia].
    + split; [done|]. intros H. destruct Ea. apply H. lia.
  - split; [|done]. intros _ i. lia.
Qed.

Lemma byteRecordsEqual_spec l r :
  record_ok l → record_ok r → byteRecordsEqual l r = true ↔ content l = content r.
Proof.
  intros Hl Hr. unfold byteRecordsEqual. pose proof (zlen_content l Hl). pose proof (zlen_content r Hr).
  destruct (r_end r - r_start r =? r_end l - r_start l) eqn:E; cbn [negb]; zbool.
  - rewrite byteRecordsEqual_loop_spec by lia. split.
    + intros Hi. apply at_ext. intros i Hnn. destruct (decide (i < zlen (content l))).
      * rewrite !at_content by (done || lia). apply Hi. lia.
      * rewrite !at_ge by lia. done.
    + intros Hc i Hi. rewrite <- !at_content by (done || lia). by rewrite Hc.
  - split; [done|]. intros Hc. rewrite Hc in *. lia.
Qed.

Lemma byteRecordHash_loop_spec fuel bs index stop l r :
  0 <= index <= stop → stop <= zlen bs → stop - index <= Z.of_nat fuel →
  byteRecordHash_loop fuel bs index stop l r =
  foldl (λ h b, (hash_step (fst h) b 0x01000193, hash_step (snd h) b 0x85ebca6b)) (l, r) (slice bs index stop).
Proof.
  revert index l r. induction fuel as [|fuel IH]; intros index l r Hi Hs Hf; cbn [byteRecordHash_loop].
  { replace stop with index by lia. by rewrite slice_empty. }
  destruct (index <? stop) eqn:E; zbool.
  - destruct (slice_cons bs index stop) as (x & Hx & ->); [lia..|]. rewrite Hx. cbn [foldl default from_option fst snd].
    by rewrite IH by lia.
  - replace stop with index by lia. by rewrite slice_empty.
Qed.

Lemma byteRecordHash_content l r :
  record_ok l → record_ok r → content l = content r → byteRecordHash l = byteRecordHash r.
Proof.
  intros Hl Hr Hc. unfold byteRecordHash. pose proof (zlen_content l Hl). pose proof (zlen_content r Hr).
  destruct Hl, Hr. rewrite !byteRecordHash_loop_spec by lia. fold (content l) (content r).
  rewrite Hc in *. by replace (r_end l - r_start l) with (r_end r - r_start r) by lia.
Qed.

Definition byte_ids_ok (t : ByteIds) (reps : list bytes) (os ns : list Z) : Prop :=
  reps = content <$> representatives t ∧ NoDup reps ∧ Forall record_ok (representatives t) ∧
  (∀ i rep, at_ (representatives t) i = Some rep →
     ∃ bucket, buckets t !! byteRecordHash rep = Some bucket ∧ i ∈ bucket) ∧
  counts (b_inOld t) (zlen reps) os ∧ counts (b_inNew t) (zlen reps) ns.

Lemma in_bucket_spec reps bucket line :
  Forall record_ok reps → record_ok line →
  match in_bucket reps bucket line with
  | Some id => ∃ rep, at_ reps id = Some rep ∧ content rep = content line
  | None => ∀ id rep, id ∈ bucket → at_ reps id = Some rep → content rep ≠ content line
  end.
Proof.
  intros Hr Hl. induction bucket as [|id bucket IH]; cbn [in_bucket].
  { intros id rep Hid. by apply not_elem_of_nil in Hid. }
  destruct (at_ reps id) as [rep|] eqn:E.
  - destruct (byteRecordsEqual rep line) eqn:Ee.
    + exists rep. split; [done|]. apply byteRecordsEqual_spec; [|done..]. by apply (Forall_at _ _ _ _ Hr E).
    + case_match; [done|]. intros i r Hi Hx. apply elem_of_cons in Hi as [->|Hi]; [|by apply (IH i)].
      assert (r = rep) as -> by congruence. intros Hc. apply byteRecordsEqual_spec in Hc; [congruence| |done].
      by apply (Forall_at _ _ _ _ Hr E).
  - case_match; [done|]. intros i r Hi Hx. apply elem_of_cons in Hi as [->|Hi]; [congruence|by apply (IH i)].
Qed.

Lemma byteIdFor_spec t line reps os ns i t' :
  record_ok line → byte_ids_ok t reps os ns → byteIdFor t line = (i, t') →
  ∃ more, byte_ids_ok t' (reps ++ more) os ns ∧ at_ (reps ++ more) i = Some (content line) ∧ 0 <= i < zlen (reps ++ more).
Proof.
  intros Hl (-> & Hn & Hr & Hb & Ho & Hw) E. unfold byteIdFor in E.
  destruct (_ ≫= _) as [e|] eqn:El.
  - injection E as <- <-. exists []. rewrite app_nil_r.
    destruct (buckets t !! byteRecordHash line) as [b|]; [|done]. cbn [mbind option_bind] in El.
    pose proof (in_bucket_spec (representatives t) b line Hr Hl) as Hs. rewrite El in Hs.
    destruct Hs as (rep & Hx & Hc).
    assert (at_ (content <$> representatives t) e = Some (content line)) by (rewrite at_fmap, Hx; cbn; by rewrite Hc).
    split_and!; try done; by apply (proj1 (at_is_Some (content <$> representatives t) e)); eexists.
  - injection E as <- <-. exists [content line].
    assert (zlen (content <$> representatives t) = zlen (representatives t)) as Hlen by (unfold zlen; by rewrite length_fmap).
    assert (content line ∉ (content <$> representatives t)) as Hnot.
    { intros (rep & Hc & [k Hk]%elem_at)%list_elem_of_fmap.
      destruct (Hb k rep Hk) as (b & Hbk & Hin).
      assert (record_ok rep) by (by apply (Forall_at _ _ _ _ Hr Hk)).
      rewrite (byteRecordHash_content line rep) in El by done. rewrite Hbk in El. cbn [mbind option_bind] in El.
      pose proof (in_bucket_spec (representatives t) b line Hr Hl) as Hs. rewrite El in Hs.
      by apply (Hs k rep). }
    unfold byte_ids_ok. split_and!; cbn [buckets representatives b_inOld b_inNew].
    + by rewrite fmap_app.
    + apply NoDup_app. split_and!; [done|intros x Hx ->%list_elem_of_singleton; done|apply NoDup_singleton].
    + apply Forall_app. split; [done|]. by apply Forall_singleton.
    + intros k rep [Hk|[-> <-]]%at_snoc.
      * destruct (Hb k rep Hk) as (b & Hbk & Hin).
        destruct (decide (byteRecordHash rep = byteRecordHash line)) as [Eh|Eh].
        -- rewrite Eh, lookup_insert_eq. rewrite Eh in Hbk. rewrite Hbk. eexists. split; [done|].
           apply elem_of_app. by left.
        -- rewrite lookup_insert_ne by done. eauto.
      * rewrite lookup_insert_eq. eexists. split; [done|]. apply elem_of_app. right. by apply list_elem_of_singleton.
    + rewrite zlen_app. by apply counts_grow.
    + rewrite zlen_app. by apply counts_grow.
    + apply at_snoc. right. by rewrite Hlen.
    + apply zlen_nonneg.
    + rewrite zlen_app, Hlen. change (zlen [content line]) with 1. lia.
Qed.

Definition byte_next_old (t : ByteIds) (line : ByteRecord) : Z * ByteIds :=
  let '(id, t) := byteIdFor t line in (id, mkByteIds (buckets t) (representatives t) (bump (b_inOld t) id) (b_inNew t)).
Definition byte_next_new (t : ByteIds) (line : ByteRecord) : Z * ByteIds :=
  let '(id, t) := byteIdFor t line in (id, mkByteIds (buckets t) (representatives t) (b_inOld t) (bump (b_inNew t) id)).

Lemma byte_classes_old_loop t lines : byte_classes_old t lines = gclasses byte_next_old t lines.
Proof.
  revert t. induction lines as [|line lines IH]; intros t; [done|]. cbn. unfold byte_next_old at 1.
  destruct (byteIdFor t line). by rewrite IH.
Qed.

Lemma byte_classes_new_loop t lines : byte_classes_new t lines = gclasses byte_next_new t lines.
Proof.
  revert t. induction lines as [|line lines IH]; intros t; [done|]. cbn. unfold byte_next_new at 1.
  destruct (byteIdFor t line). by rewrite IH.
Qed.

Lemma byte_ids_ok_empty : byte_ids_ok (mkByteIds ∅ [] [] []) [] [] [].
Proof.
  unfold byte_ids_ok. split_and!; [done|apply NoDup_nil_2|apply Forall_nil_2| |apply counts_nil..].
  intros i rep. cbn [representatives]. unfold at_. case_match; done.
Qed.

Lemma classifyBytes_classified oldLines newLines :
  Forall record_ok oldLines → Forall record_ok newLines →
  classified (content <$> oldLines) (content <$> newLines) (classifyBytes oldLines newLines).
Proof.
  intros Hro Hrn. unfold classifyBytes. destruct (byte_classes_old _ oldLines) as [os t] eqn:Eo.
  destruct (byte_classes_new t newLines) as [ns t'] eqn:En.
  rewrite byte_classes_old_loop in Eo. rewrite byte_classes_new_loop in En.
  destruct (gclasses_spec content byte_next_old (λ t reps os, byte_ids_ok t reps os []) record_ok
    (mkByteIds ∅ [] [] []) oldLines [] [] os t) as (more & Hok & Hold); [|done|apply byte_ids_ok_empty|done|].
  { intros t0 line reps seen i t1 Hl Hok E. unfold byte_next_old in E. destruct (byteIdFor t0 line) as [i' t2] eqn:Ei.
    injection E as <- <-. destruct (byteIdFor_spec _ _ _ _ _ _ _ Hl Hok Ei) as (m & (? & ? & ? & ? & ? & ?) & ? & ?).
    exists m. split; [|done]. split_and!; try done. by apply counts_bump. }
  destruct (gclasses_spec content byte_next_new (λ t reps ns, byte_ids_ok t reps os ns) record_ok
    t newLines ([] ++ more) [] ns t') as (more' & Hok' & Hnew); [|done|done|done|].
  { intros t0 line reps seen i t1 Hl Hok1 E. unfold byte_next_new in E. destruct (byteIdFor t0 line) as [i' t2] eqn:Ei.
    injection E as <- <-. destruct (byteIdFor_spec _ _ _ _ _ _ _ Hl Hok1 Ei) as (m & (? & ? & ? & ? & ? & ?) & ? & ?).
    exists m. split; [|done]. split_and!; try done. by apply counts_bump. }
  destruct Hok' as (_ & Hn & _ & _ & Hco & Hcn).
  exists ([] ++ more ++ more'). rewrite <- app_assoc in *. split_and!; try done.
  eapply Forall2_impl; [exact Hold|]. cbn. intros k i. apply at_grow.
Qed.

(** * The common ends *)

Lemma common_head_spec fuel l r index limit :
  index <= limit → limit - index <= Z.of_nat fuel →
  ∃ k, common_head fuel l r index limit = k ∧ index <= k <= limit ∧
    (∀ i, index <= i < k → at_ l i = at_ r i) ∧ (k < limit → at_ l k ≠ at_ r k).
Proof.
  revert index. induction fuel as [|fuel IH]; intros index Hi Hf; cbn [common_head].
  { exists index. split_and!; try done; lia. }
  destruct ((index <? limit) && bool_decide (at_ l index = at_ r index)) eqn:E.
  - apply andb_prop in E as [E1 E2]. zbool. apply bool_decide_eq_true in E2.
    destruct (IH (index + 1)) as (k & -> & Hk & Ha & Hb); [lia..|]. exists k. split_and!; try done; try lia.
    intros i ?. destruct (decide (i = index)) as [->|]; [done|apply Ha; lia].
  - exists index. split_and!; try done; try lia. intros Hl.
    apply andb_false_iff in E as [E|E]; zbool; [lia|]. by apply bool_decide_eq_false in E.
Qed.

Lemma common_tail_spec fuel left right back tail :
  back <= tail → tail - back <= Z.of_nat fuel →
  ∃ k, common_tail fuel left right back tail = k ∧ back <= k <= tail ∧
    (∀ i, back <= i < k →
       at_ (classes left) (zlen (lines left) - 1 - i) = at_ (classes right) (zlen (lines right) - 1 - i)).
Proof.
  revert back. induction fuel as [|fuel IH]; intros back Hi Hf; cbn [common_tail].
  { exists back. split_and!; try done; lia. }
  destruct (_ && bool_decide _) eqn:E.
  - apply andb_prop in E as [E1 E2]. zbool. apply bool_decide_eq_true in E2.
    destruct (IH (back + 1)) as (k & -> & Hk & Ha); [lia..|]. exists k. split_and!; try done; try lia.
    intros i ?. destruct (decide (i = back)) as [->|]; [done|apply Ha; lia].
  - exists back. split_and!; try done; lia.
Qed.

(** What [trimEnds] leaves: everything before [dstart] and after [dend] is common. *)
Definition trimmed (left right : Side) : Prop :=
  dstart left = dstart right ∧ zlen (lines left) - dend left = zlen (lines right) - dend right ∧
  0 <= dstart left ∧ dstart left <= dend left + 1 ∧ dstart left <= dend right + 1 ∧ dend left < zlen (lines left) ∧
  (∀ i, 0 <= i < dstart left → at_ (classes left) i = at_ (classes right) i) ∧
  (∀ i, 0 < i < zlen (lines left) - dend left →
     at_ (classes left) (dend left + i) = at_ (classes right) (dend right + i)).

Lemma trimEnds_spec left right :
  ∃ a b b', trimEnds left right = (set_ends left a b, set_ends right a b') ∧
    trimmed (set_ends left a b) (set_ends right a b').
Proof.
  unfold trimEnds. set (limit := Z.min _ _).
  pose proof (zlen_nonneg (lines left)). pose proof (zlen_nonneg (lines right)).
  destruct (common_head_spec (Z.to_nat limit) (classes left) (classes right) 0 limit) as (k & -> & Hk & Hh & _); [lia..|].
  destruct (common_tail_spec (Z.to_nat (limit - k)) left right 0 (limit - k)) as (t & -> & Ht & Hb); [lia..|].
  eexists k, _, _. split; [reflexivity|]. unfold trimmed. cbn [dstart dend lines classes set_ends].
  split_and!; try lia; [exact Hh|]. intros i Hi. specialize (Hb (t - i) ltac:(lia)).
  replace (zlen (lines left) - t - 1 + i) with (zlen (lines left) - 1 - (t - i)) by lia.
  by replace (zlen (lines right) - t - 1 + i) with (zlen (lines right) - 1 - (t - i)) by lia.
Qed.

(** * The reference lines *)

Definition unmarked (m : list Z) (idx : list Z) : list Z := base.filter (λ i, marked m i = false) idx.

Lemma unmarked_ext m m' idx : (∀ i, i ∈ idx → marked m i = marked m' i) → unmarked m idx = unmarked m' idx.
Proof.
  intros H. induction idx as [|i idx IH]; [done|]. unfold unmarked in *. rewrite !filter_cons.
  rewrite (H i) by constructor. rewrite IH; [done|]. intros j Hj. apply H. by constructor.
Qed.

(** A side whose reference is what is left unmarked between its ends. *)
Definition prepared (s : Side) : Prop :=
  marks_ok (zlen (lines s)) (changed s) ∧
  reference s = unmarked (changed s) (seqZ (dstart s) (dend s + 1 - dstart s)) ∧
  (∀ i, marked (changed s) i = true → dstart s <= i <= dend s).

Lemma applyActions_spec side offset actions n :
  zlen (lines side) = n → 0 <= offset → offset + zlen actions <= n → marks_ok n (changed side) →
  (∀ i, marked (changed side) i = false) →
  ∃ m, applyActions side offset actions = set_changed (set_reference side (unmarked m (seqZ offset (zlen actions)))) m ∧
    marks_ok n m ∧ (∀ i, marked m i = true → offset <= i < offset + zlen actions).
Proof.
  intros Hn Ho Hl Hm Hc. unfold applyActions. remember (Z.to_nat (zlen actions)) as k eqn:Hk.
  pose proof (zlen_nonneg actions). assert (zlen actions = Z.of_nat k) as E by lia. rewrite E in *. clear E Hk.
  induction k as [|k IH].
  { exists (changed side). split_and!; [by destruct side|done|]. intros i Hi. congruence. }
  destruct IH as (m & E & Hm' & Hr); [lia..|].
  replace (Z.of_nat (S k)) with (Z.of_nat k + 1) by lia. rewrite !seqZ_snoc, foldl_app, E by lia. cbn [foldl].
  rewrite Z.add_0_l. cbn [reference changed set_changed set_reference].
  destruct (settled actions (Z.of_nat k) =? KEEP).
  - exists m. split_and!; [|done|intros i Hi; specialize (Hr i Hi); lia].
    unfold unmarked. rewrite filter_app, filter_cons_True, filter_nil.
    + replace (Z.of_nat k + offset) with (offset + Z.of_nat k) by lia. by destruct side.
    + destruct (marked m (offset + Z.of_nat k)) eqn:Em; [|done]. apply Hr in Em. lia.
  - exists (mark m (Z.of_nat k + offset) true).
    assert (∀ j, marked (mark m (Z.of_nat k + offset) true) j = if j =? Z.of_nat k + offset then true else marked m j) as Hmk.
    { intros j. apply (marked_mark m _ j true n); [apply Hm'|lia]. }
    split_and!.
    + unfold unmarked. rewrite filter_app, filter_cons_False, filter_nil, app_nil_r.
      2:{ rewrite Hmk. by zdec. }
      fold (unmarked (mark m (Z.of_nat k + offset) true) (seqZ offset (Z.of_nat k))).
      rewrite (unmarked_ext (mark m (Z.of_nat k + offset) true) m); [by destruct side|].
      intros i Hi%elem_of_seqZ. rewrite Hmk. by zdec.
    + apply marks_ok_mark; [done|lia].
    + intros i Hi. rewrite Hmk in Hi. destruct (i =? Z.of_nat k + offset) eqn:Ei; zbool; [lia|]. specialize (Hr i Hi). lia.
Qed.

Lemma zlen_actionsFor side offset length other : 0 <= length → zlen (actionsFor side offset length other) = length.
Proof. intros. unfold actionsFor, zlen. rewrite length_fmap, length_seqZ. lia. Qed.

(** [cleanupRecords] after [trimEnds]: both sides prepared, nothing else changed. *)
Lemma cleanupRecords_spec left right inRight inLeft :
  trimmed left right → (∀ i, marked (changed left) i = false) → (∀ i, marked (changed right) i = false) →
  marks_ok (zlen (lines left)) (changed left) → marks_ok (zlen (lines right)) (changed right) →
  ∃ m1 m2 r1 r2, cleanupRecords left right inRight inLeft =
      (set_changed (set_reference left r1) m1, set_changed (set_reference right r2) m2) ∧
    prepared (set_changed (set_reference left r1) m1) ∧ prepared (set_changed (set_reference right r2) m2).
Proof.
  intros (T1 & T2 & T3 & T4 & T5 & T6 & _) Hc1 Hc2 Hm1 Hm2. unfold cleanupRecords.
  destruct (applyActions_spec left (dstart left) (actionsFor left (dstart left) (dend left - dstart left + 1) inRight)
    (zlen (lines left))) as (m1 & E1 & Ho1 & Hr1); try done; rewrite ?zlen_actionsFor; try lia.
  destruct (applyActions_spec right (dstart left) (actionsFor right (dstart left) (dend right - dstart left + 1) inLeft)
    (zlen (lines right))) as (m2 & E2 & Ho2 & Hr2); try done; rewrite ?zlen_actionsFor; try lia.
  rewrite zlen_actionsFor in * by lia. rewrite E1, E2. eexists m1, m2, _, _. split; [reflexivity|].
  unfold prepared. cbn [lines changed reference dstart dend set_changed set_reference].
  split_and!; try done; try (intros i Hi; specialize (Hr1 i); specialize (Hr2 i); naive_solver lia).
  - by replace (dend left + 1 - dstart left) with (dend left - dstart left + 1) by lia.
  - rewrite <- T1. by replace (dend right + 1 - dstart left) with (dend right - dstart left + 1) by lia.
Qed.
