(* ===== verification/MyersCompact.v ===== *)
(** Sliding change groups and building the script: src/packages/git/src/diff/myers-compact.ts.

    Every loop takes fuel and gives [None] when it runs out; MyersCompactFacts.v shows that
    [loop_fuel], one more than the lines and their end, is enough for the loops that slide a
    group, and its square for the walk over the groups. *)

From S2P Require Import Prelude Arrays Objects MyersState.

Definition MAX_INDENT : Z := 200.
Definition MAX_BLANKS : Z := 20.
Definition INDENT_HEURISTIC_MAX_SLIDING : Z := 100.
Definition START_OF_FILE_PENALTY : Z := 1.
Definition END_OF_FILE_PENALTY : Z := 21.
Definition TOTAL_BLANK_WEIGHT : Z := -30.
Definition POST_BLANK_WEIGHT : Z := 6.
Definition RELATIVE_INDENT_PENALTY : Z := -4.
Definition RELATIVE_INDENT_WITH_BLANK_PENALTY : Z := 10.
Definition RELATIVE_OUTDENT_PENALTY : Z := 24.
Definition RELATIVE_OUTDENT_WITH_BLANK_PENALTY : Z := 17.
Definition RELATIVE_DEDENT_PENALTY : Z := 23.
Definition RELATIVE_DEDENT_WITH_BLANK_PENALTY : Z := 17.
Definition INDENT_WEIGHT : Z := 60.

(** * Groups *)

Record Group := mkGroupAt { g_start : Z; g_end : Z }.

(** [while (side.changed.get(i)) i++] and [while (side.changed.get(i - 1)) i--]; a run of
    marks is no longer than the flags. *)
Fixpoint run_end (fuel : nat) (m : Marks) (i : Z) : Z :=
  match fuel with
  | O => i
  | S fuel => if marked m i then run_end fuel m (i + 1) else i
  end.
Fixpoint run_start (fuel : nat) (m : Marks) (i : Z) : Z :=
  match fuel with
  | O => i
  | S fuel => if marked m (i - 1) then run_start fuel m (i - 1) else i
  end.

Definition groupInit (side : Side) : Group :=
  mkGroupAt 0 (run_end (length (changed side)) (changed side) 0).

(** [None] is [false], which leaves the group and the marks as they were. *)
Definition groupNext (side : Side) (group : Group) : option Group :=
  if g_end group =? zlen (lines side) then None
  else
    let start := g_end group + 1 in
    Some (mkGroupAt start (run_end (length (changed side)) (changed side) start)).

Definition groupPrevious (side : Side) (group : Group) : option Group :=
  if g_start group =? 0 then None
  else
    let stop := g_start group - 1 in
    Some (mkGroupAt (run_start (length (changed side)) (changed side) stop) stop).

Definition groupSlideDown (side : Side) (group : Group) : option (Side * Group) :=
  if zlen (lines side) <=? g_end group then None
  else if negb (bool_decide (at_ (classes side) (g_start group) = at_ (classes side) (g_end group))) then None
  else
    let m := mark (mark (changed side) (g_start group) false) (g_end group) true in
    Some (set_changed side m, mkGroupAt (g_start group + 1) (run_end (length m) m (g_end group + 1))).

Definition groupSlideUp (side : Side) (group : Group) : option (Side * Group) :=
  if g_start group =? 0 then None
  else if negb (bool_decide (at_ (classes side) (g_start group - 1) = at_ (classes side) (g_end group - 1))) then None
  else
    let m := mark (mark (changed side) (g_start group - 1) true) (g_end group - 1) false in
    Some (set_changed side m, mkGroupAt (run_start (length m) m (g_start group - 1)) (g_end group - 1)).

(** * Indentation *)

Definition isSpace (char : Z) : bool :=
  (char =? 0x20) || (char =? 0x09) || (char =? 0x0a) || (char =? 0x0b) || (char =? 0x0c) || (char =? 0x0d).

Definition line_length (line : LineRecord) : Z :=
  match line with LString s => zlen s | LBytes r => r_end r - r_start r end.
Definition char_at (line : LineRecord) (i : Z) : option Z :=
  match line with LString s => at_ s i | LBytes r => at_ (r_bytes r) (r_start r + i) end.

Fixpoint indentOf_loop (fuel : nat) (line : LineRecord) (i indent : Z) : Z :=
  match fuel with
  | O => -1
  | S fuel =>
      match char_at line i with
      | None => indent
      | Some char =>
          let next indent := if MAX_INDENT <=? indent then MAX_INDENT else indentOf_loop fuel line (i + 1) indent in
          if char =? 0x20 then next (indent + 1)
          else if char =? 0x09 then next (indent + (8 - indent mod 8))
          else if negb (isSpace char) then indent
          else next indent
      end
  end.
Definition indentOf (line : LineRecord) : Z := indentOf_loop (Z.to_nat (line_length line)) line 0 0.

Record Measurement := mkMeasurement {
  endOfFile : bool; indent : Z; preBlank : Z; preIndent : Z; postBlank : Z; postIndent : Z
}.

(** [indentOf(side.lines[i]!)]; the callers stay within the lines. *)
Definition indent_at (side : Side) (i : Z) : Z :=
  match at_ (lines side) i with Some line => indentOf line | None => -1 end.

(** The blank lines from [i] on, in steps of [dir], and the indent of the line after them. *)
Fixpoint measure_run (fuel : nat) (side : Side) (i dir blank : Z) : Z * Z :=
  match fuel with
  | O => (blank, -1)
  | S fuel =>
      let found := indent_at side i in
      if negb (found =? -1) then (blank, found)
      else
        let blank := blank + 1 in
        if blank =? MAX_BLANKS then (blank, 0) else measure_run fuel side (i + dir) dir blank
  end.

Definition measureSplit (side : Side) (split : Z) : Measurement :=
  let total := zlen (lines side) in
  let '(preBlank, preIndent) := measure_run (Z.to_nat split) side (split - 1) (-1) 0 in
  let '(postBlank, postIndent) := measure_run (Z.to_nat (total - (split + 1))) side (split + 1) 1 0 in
  mkMeasurement (total <=? split) (if total <=? split then -1 else indent_at side split)
    preBlank preIndent postBlank postIndent.

Record Score := mkScore { effectiveIndent : Z; penalty : Z }.

Definition addSplitScore (m : Measurement) (score : Score) : Score :=
  let p := penalty score in
  let p := if (preIndent m =? -1) && (preBlank m =? 0) then p + START_OF_FILE_PENALTY else p in
  let p := if endOfFile m then p + END_OF_FILE_PENALTY else p in
  let postBlank' := if indent m =? -1 then 1 + postBlank m else 0 in
  let totalBlank := preBlank m + postBlank' in
  let p := p + TOTAL_BLANK_WEIGHT * totalBlank in
  let p := p + POST_BLANK_WEIGHT * postBlank' in
  let ind := if negb (indent m =? -1) then indent m else postIndent m in
  let anyBlanks := negb (totalBlank =? 0) in
  let e := effectiveIndent score + ind in
  if (ind =? -1) || (preIndent m =? -1) || (ind =? preIndent m) then mkScore e p
  else if preIndent m <? ind then
    mkScore e (p + if anyBlanks then RELATIVE_INDENT_WITH_BLANK_PENALTY else RELATIVE_INDENT_PENALTY)
  else if negb (postIndent m =? -1) && (ind <? postIndent m) then
    mkScore e (p + if anyBlanks then RELATIVE_OUTDENT_WITH_BLANK_PENALTY else RELATIVE_OUTDENT_PENALTY)
  else mkScore e (p + if anyBlanks then RELATIVE_DEDENT_WITH_BLANK_PENALTY else RELATIVE_DEDENT_PENALTY).

Definition compareScores (a b : Score) : Z :=
  let indents :=
    (if effectiveIndent b <? effectiveIndent a then 1 else 0) -
    (if effectiveIndent a <? effectiveIndent b then 1 else 0) in
  INDENT_WEIGHT * indents + (penalty a - penalty b).

(** * Compaction *)

(** What [compact] moves: the marks of [side] and the two groups. *)
Record Sliding := mkSliding { sl_side : Side; sl_group : Group; sl_other : Group }.

Definition loop_fuel (side : Side) : nat := Z.to_nat (zlen (lines side)) + 2.
(** The walk over the groups visits again the lines a group slid back over. *)
Definition walk_fuel (side : Side) : nat := loop_fuel side * loop_fuel side.

Section compact.
  Context (other : Side).

(** Statements that ignore whether the move was possible. *)
Definition previous_other (g : Group) : Group := default g (groupPrevious other g).
Definition next_other (g : Group) : Group := default g (groupNext other g).

(** [groupSlideUp(side, group); groupPrevious(other, otherGroup)]. *)
Definition step_up (st : Sliding) : Sliding :=
  let '(side, group) := default (sl_side st, sl_group st) (groupSlideUp (sl_side st) (sl_group st)) in
  mkSliding side group (previous_other (sl_other st)).

Definition nonempty (g : Group) : bool := g_start g <? g_end g.

(** [while (groupSlideUp(side, group)) groupPrevious(other, otherGroup)]. *)
Fixpoint slide_up (fuel : nat) (st : Sliding) : option Sliding :=
  match fuel with
  | O => None
  | S fuel =>
      match groupSlideUp (sl_side st) (sl_group st) with
      | None => Some st
      | Some (side, group) => slide_up fuel (mkSliding side group (previous_other (sl_other st)))
      end
  end.

Fixpoint slide_down (fuel : nat) (st : Sliding) (endMatchingOther : Z) : option (Sliding * Z) :=
  match fuel with
  | O => None
  | S fuel =>
      match groupSlideDown (sl_side st) (sl_group st) with
      | None => Some (st, endMatchingOther)
      | Some (side, group) =>
          let o := next_other (sl_other st) in
          slide_down fuel (mkSliding side group o) (if nonempty o then g_end group else endMatchingOther)
      end
  end.

Definition group_size (g : Group) : Z := g_end g - g_start g.

(** The [do … while]: the group slid up and down until it absorbs no neighbour; with its
    size, its earliest end and where the other side last had a group. *)
Fixpoint slide_fully (fuel : nat) (st : Sliding) : option (Sliding * (Z * Z * Z)) :=
  match fuel with
  | O => None
  | S fuel =>
      let size := group_size (sl_group st) in
      st ← slide_up (loop_fuel (sl_side st)) st;
      let earliestEnd := g_end (sl_group st) in
      let endMatchingOther := if nonempty (sl_other st) then g_end (sl_group st) else -1 in
      '(st, endMatchingOther) ← slide_down (loop_fuel (sl_side st)) st endMatchingOther;
      if negb (size =? group_size (sl_group st)) then slide_fully fuel st
      else Some (st, (size, earliestEnd, endMatchingOther))
  end.

(** [while (otherGroup.end === otherGroup.start) …]. *)
Fixpoint align (fuel : nat) (st : Sliding) : option Sliding :=
  match fuel with
  | O => None
  | S fuel => if g_end (sl_other st) =? g_start (sl_other st) then align fuel (step_up st) else Some st
  end.

(** [while (group.end > bestShift) …]. *)
Fixpoint slide_to (fuel : nat) (bestShift : Z) (st : Sliding) : option Sliding :=
  match fuel with
  | O => None
  | S fuel => if bestShift <? g_end (sl_group st) then slide_to fuel bestShift (step_up st) else Some st
  end.

Definition split_score (side : Side) (size shift : Z) : Score :=
  addSplitScore (measureSplit side (shift - size)) (addSplitScore (measureSplit side shift) (mkScore 0 0)).

Definition best_shift (side : Side) (size earliestEnd stop : Z) : Z :=
  let shift := earliestEnd in
  let shift := if shift <? stop - size - 1 then stop - size - 1 else shift in
  let shift := if shift <? stop - INDENT_HEURISTIC_MAX_SLIDING then stop - INDENT_HEURISTIC_MAX_SLIDING else shift in
  fst (foldl (λ best shift,
         let score := split_score side size shift in
         if (fst best =? -1) || (compareScores score (snd best) <=? 0) then (shift, score) else best)
       (-1, mkScore 0 0) (seqZ shift (stop + 1 - shift))).

(** One group of the walk. *)
Definition settle_group (indentHeuristic : bool) (st : Sliding) : option Sliding :=
  if g_end (sl_group st) =? g_start (sl_group st) then Some st
  else
    '(st, (size, earliestEnd, endMatchingOther)) ← slide_fully (loop_fuel (sl_side st)) st;
    if g_end (sl_group st) =? earliestEnd then Some st
    else if negb (endMatchingOther =? -1) then align (loop_fuel other) st
    else if indentHeuristic then
      slide_to (loop_fuel (sl_side st)) (best_shift (sl_side st) size earliestEnd (g_end (sl_group st))) st
    else Some st.

Fixpoint compact_loop (fuel : nat) (indentHeuristic : bool) (st : Sliding) : option Side :=
  match fuel with
  | O => None
  | S fuel =>
      st ← settle_group indentHeuristic st;
      match groupNext (sl_side st) (sl_group st) with
      | None => Some (sl_side st)
      | Some group =>
          compact_loop fuel indentHeuristic (mkSliding (sl_side st) group (next_other (sl_other st)))
      end
  end.
End compact.

Definition compact (side other : Side) (indentHeuristic : bool) : option Side :=
  compact_loop other (walk_fuel side) indentHeuristic (mkSliding side (groupInit side) (groupInit other)).

(** * The script *)

Definition change_list_error (maxChanges : Z) : jserror :=
  GitError (js "E2BIG") (js "xdiff change list exceeds " ++ number_string maxChanges).

(** The loop from the ends, the group found last appended, and the list
    reversed at the end. *)
Fixpoint buildScript_loop (fuel : nat) (left right : Side) (maxChanges : option Z) (a b : Z)
    (groups : list ChangeGroup) : option (outcome (list ChangeGroup)) :=
  match fuel with
  | O => None
  | S fuel =>
      if (0 <=? a) || (0 <=? b) then
        if marked (changed left) (a - 1) || marked (changed right) (b - 1) then
          if match maxChanges with Some m => m <=? zlen groups | None => false end
          then Some (Throw (change_list_error (default 0 maxChanges)))
          else
            let a' := run_start (length (changed left)) (changed left) a in
            let b' := run_start (length (changed right)) (changed right) b in
            buildScript_loop fuel left right maxChanges (a' - 1) (b' - 1) (groups ++ [mkGroup a' (a - a') b' (b - b')])
        else buildScript_loop fuel left right maxChanges (a - 1) (b - 1) groups
      else Some (Ok (reverse groups))
  end.
Definition buildScript (left right : Side) (maxChanges : option Z) : option (outcome (list ChangeGroup)) :=
  buildScript_loop (Z.to_nat (Z.max (zlen (lines left)) (zlen (lines right))) + 2) left right maxChanges
    (zlen (lines left)) (zlen (lines right)) [].
