(* ===== verification/MyersCompactFacts.v ===== *)
(** Compaction ends, and moves marks between equal lines only: what is left unmarked stays
    the same sequence of classes. *)

From S2P Require Import Prelude Arrays MyersState MyersCompact.

(** * Groups *)

(** A maximal run of marked lines, which may be empty. *)
Definition group_ok (n : Z) (m : list Z) (g : Group) : Prop :=
  0 <= g_start g <= g_end g ∧ g_end g <= n ∧ (∀ i, g_start g <= i < g_end g → marked m i = true) ∧
  marked m (g_end g) = false ∧ marked m (g_start g - 1) = false.

Lemma run_end_spec fuel n m i :
  marks_ok n m → i <= n → n - i < Z.of_nat fuel →
  i <= run_end fuel m i <= n ∧ (∀ j, i <= j < run_end fuel m i → marked m j = true) ∧
  marked m (run_end fuel m i) = false.
Proof.
  intros Hm. revert i. induction fuel as [|fuel IH]; intros i Hi Hf; [lia|]. cbn [run_end].
  destruct (marked m i) eqn:E.
  - pose proof (marks_ok_range _ _ _ Hm E). destruct (IH (i + 1)) as (H1 & H2 & H3); [lia..|].
    split_and!; [lia|lia| |done]. intros j Hj. destruct (decide (j = i)) as [->|]; [done|apply H2; lia].
  - split_and!; [lia|lia|lia|done].
Qed.

Lemma run_start_spec fuel n m i :
  marks_ok n m → 0 <= i → i < Z.of_nat fuel →
  0 <= run_start fuel m i <= i ∧ (∀ j, run_start fuel m i <= j < i → marked m j = true) ∧
  marked m (run_start fuel m i - 1) = false.
Proof.
  intros Hm. revert i. induction fuel as [|fuel IH]; intros i Hi Hf; [lia|]. cbn [run_start].
  destruct (marked m (i - 1)) eqn:E.
  - pose proof (marks_ok_range _ _ _ Hm E). destruct (IH (i - 1)) as (H1 & H2 & H3); [lia..|].
    split_and!; [lia|lia| |done]. intros j Hj. destruct (decide (j = i - 1)) as [->|]; [done|apply H2; lia].
  - split_and!; [lia|lia|lia|done].
Qed.

Lemma marks_length n m : marks_ok n m → Z.of_nat (length m) = n + 2.
Proof. by intros [Hm _]. Qed.

Lemma groupInit_ok side n :
  zlen (lines side) = n → marks_ok n (changed side) → group_ok n (changed side) (groupInit side).
Proof.
  intros Hn Hm. pose proof (zlen_nonneg (lines side)). pose proof (marks_length _ _ Hm).
  destruct (run_end_spec (length (changed side)) n (changed side) 0) as (H1 & H2 & H3); [done|lia|lia|].
  unfold groupInit. split_and!; cbn [g_start g_end]; try lia; try done. apply Hm.
Qed.

Lemma groupNext_ok side n g :
  zlen (lines side) = n → marks_ok n (changed side) → group_ok n (changed side) g →
  match groupNext side g with
  | None => g_end g = n
  | Some g' => group_ok n (changed side) g' ∧ g_start g' = g_end g + 1
  end.
Proof.
  intros Hn Hm (G1 & G2 & G3 & G4 & G5). unfold groupNext. rewrite Hn. destruct (g_end g =? n) eqn:E; zbool; [done|].
  pose proof (marks_length _ _ Hm).
  destruct (run_end_spec (length (changed side)) n (changed side) (g_end g + 1)) as (H1 & H2 & H3); [done|lia|lia|].
  split; [|done]. split_and!; cbn [g_start g_end]; try lia; try done.
  by replace (g_end g + 1 - 1) with (g_end g) by lia.
Qed.

Lemma groupPrevious_ok side n g :
  zlen (lines side) = n → marks_ok n (changed side) → group_ok n (changed side) g →
  match groupPrevious side g with
  | None => g_start g = 0
  | Some g' => group_ok n (changed side) g' ∧ g_end g' = g_start g - 1 ∧ 0 < g_start g
  end.
Proof.
  intros Hn Hm (G1 & G2 & G3 & G4 & G5). unfold groupPrevious. destruct (g_start g =? 0) eqn:E; zbool; [done|].
  pose proof (marks_length _ _ Hm).
  destruct (run_start_spec (length (changed side)) n (changed side) (g_start g - 1)) as (H1 & H2 & H3); [done|lia|lia|].
  split; [|cbn; lia]. split_and!; cbn [g_start g_end]; try lia; done.
Qed.

(** * Counting marks *)

(** The marked lines below [k]. *)
Fixpoint cnt_nat (m : list Z) (k : nat) : Z :=
  match k with
  | O => 0
  | S k => cnt_nat m k + (if marked m (Z.of_nat k) then 1 else 0)
  end.
Definition cnt (m : list Z) (k : Z) : Z := cnt_nat m (Z.to_nat k).

Lemma cnt_succ m k : 0 <= k → cnt m (k + 1) = cnt m k + (if marked m k then 1 else 0).
Proof. intros. unfold cnt. replace (Z.to_nat (k + 1)) with (S (Z.to_nat k)) by lia. cbn [cnt_nat]. by rewrite Z2Nat.id. Qed.

Lemma cnt_range m k : 0 <= k → 0 <= cnt m k <= k.
Proof.
  intros Hk. unfold cnt. rewrite <- (Z2Nat.id k) at 3 by lia. generalize (Z.to_nat k). clear.
  induction n as [|n IH]; cbn [cnt_nat]; [lia|]. case_match; lia.
Qed.

Lemma cnt_mono m j k : 0 <= j <= k → cnt m j <= cnt m k.
Proof.
  intros Hj. replace k with (j + Z.of_nat (Z.to_nat (k - j))) by lia. induction (Z.to_nat (k - j)) as [|n IH].
  - by rewrite Z.add_0_r.
  - replace (j + Z.of_nat (S n)) with (j + Z.of_nat n + 1) by lia. rewrite cnt_succ by lia. case_match; lia.
Qed.

Lemma cnt_full m j k : 0 <= j <= k → (∀ i, j <= i < k → marked m i = true) → cnt m k = cnt m j + (k - j).
Proof.
  intros Hj Hm. remember (Z.to_nat (k - j)) as n eqn:Hn. revert k Hj Hm Hn.
  induction n as [|n IH]; intros k Hj Hm Hn; [replace k with j by lia; lia|].
  replace k with (k - 1 + 1) by lia. rewrite cnt_succ, Hm by lia. rewrite (IH (k - 1)); [lia|lia| |lia].
  intros i Hi. apply Hm. lia.
Qed.

Lemma cnt_mark m n i v k :
  zlen m = n + 2 → 0 <= i <= n → 0 <= k →
  cnt (mark m i v) k = cnt m k + (if i <? k then (if v then 1 else 0) - (if marked m i then 1 else 0) else 0).
Proof.
  intros Hm Hi Hk. rewrite <- (Z2Nat.id k) by lia. induction (Z.to_nat k) as [|j IH].
  { change (Z.of_nat 0) with 0. zdec. done. }
  rewrite Nat2Z.inj_succ. unfold Z.succ. rewrite !cnt_succ by lia. rewrite IH. rewrite (marked_mark m i _ v n) by lia.
  destruct (Z.of_nat j =? i) eqn:E; zbool.
  - subst. zdec. lia.
  - destruct (decide (i < Z.of_nat j)); zdec; lia.
Qed.

(** * Sliding *)

Definition kept_classes (side : Side) (m : list Z) : list Z :=
  kept (marked m) (classes side) (seqZ 0 (zlen (lines side))).

(** Exchanging the two ends of a run of marks, two equal lines. *)
Lemma kept_exchange {A} n (l : list A) f f' s e :
  0 <= s < e → e < n → at_ l s = at_ l e → (∀ i, s < i < e → f i = true) →
  f s = true → f e = false → f' s = false → f' e = true → (∀ i, i ≠ s → i ≠ e → f' i = f i) →
  kept f' l (seqZ 0 n) = kept f l (seqZ 0 n).
Proof.
  intros Hs He Heq Hin Hfs Hfe Hfs' Hfe' Hother.
  assert (seqZ 0 n = seqZ 0 s ++ s :: seqZ (s + 1) (e - (s + 1)) ++ e :: seqZ (e + 1) (n - (e + 1))) as ->.
  { pose proof (seqZ_split 0 s n ltac:(lia)) as E1. rewrite !Z.sub_0_r in E1. rewrite E1. f_equal.
    rewrite (seqZ_cons s) by lia. f_equal. replace (Z.succ s) with (s + 1) by lia.
    replace (Z.pred (n - s)) with (n - (s + 1)) by lia. rewrite (seqZ_split (s + 1) e n) by lia. f_equal.
    rewrite (seqZ_cons e) by lia. f_equal. f_equal; lia. }
  assert (kept f' l (seqZ 0 s) = kept f l (seqZ 0 s)) as E1.
  { apply kept_ext. intros i Hi%elem_of_seqZ. apply Hother; lia. }
  assert (kept f' l (seqZ (e + 1) (n - (e + 1))) = kept f l (seqZ (e + 1) (n - (e + 1)))) as E2.
  { apply kept_ext. intros i Hi%elem_of_seqZ. apply Hother; lia. }
  assert (kept f l (seqZ (s + 1) (e - (s + 1))) = []) as E3.
  { apply kept_marked. intros i Hi%elem_of_seqZ. apply Hin. lia. }
  assert (kept f' l (seqZ (s + 1) (e - (s + 1))) = []) as E4.
  { apply kept_marked. intros i Hi%elem_of_seqZ. rewrite Hother by lia. apply Hin. lia. }
  unfold kept in *. rewrite !omap_app, !omap_app_cons, !omap_app, !omap_app_cons, E1, E2, E3, E4, Hfs, Hfe, Hfs', Hfe', Heq.
  done.
Qed.

Section side.
  Context (side : Side) (n : Z) (Hn : zlen (lines side) = n).

(** The side with other marks that keep the same lines, with [a] marks or more up to the
    group's end: a slide keeps both. *)
Definition slid (a : Z) (m : list Z) (s : Side) (g : Group) : Prop :=
  s = set_changed side m ∧ marks_ok n m ∧
  (kept_classes side m = kept_classes side (changed side) ∧ cnt m n = cnt (changed side) n ∧ a <= cnt m (g_end g)) ∧
  group_ok n m g.

Lemma mark_mark m i j v w k :
  marks_ok n m → 0 <= i < n → 0 <= j < n →
  marked (mark (mark m i v) j w) k = if k =? j then w else if k =? i then v else marked m k.
Proof.
  intros [Hm _] Hi Hj. rewrite (marked_mark _ _ _ _ n) by (rewrite ?zlen_mark; (done || lia)).
  by rewrite (marked_mark _ _ _ _ n) by (done || lia).
Qed.

(** Sliding down: the line after the run is as the run's first. *)
Lemma groupSlideDown_ok a m s g :
  slid a m s g → g_start g < g_end g →
  match groupSlideDown s g with
  | None => True
  | Some (s', g') => ∃ m', slid a m' s' g' ∧ g_start g' = g_start g + 1 ∧ g_end g + 1 <= g_end g' ∧
      at_ (classes side) (g_start g) = at_ (classes side) (g_end g) ∧ g_end g < n ∧
      (∀ i, i < g_end g → i ≠ g_start g → marked m' i = marked m i) ∧ marked m' (g_start g) = false
  end.
Proof using Hn.
  intros (-> & Hm & (Hk & Hct & Ha) & G1 & G2 & G3 & G4 & G5) Hne. unfold groupSlideDown. cbn [lines classes changed set_changed].
  rewrite Hn. destruct (n <=? g_end g) eqn:E; zbool; [done|].
  case_bool_decide as Ec; cbn [negb]; [|done].
  set (m' := mark (mark m (g_start g) false) (g_end g) true).
  assert (∀ k, marked m' k = if k =? g_end g then true else if k =? g_start g then false else marked m k) as Hmk.
  { intros k. by apply mark_mark; [|lia..]. }
  assert (marks_ok n m') as Hm' by (apply marks_ok_mark; [apply marks_ok_mark; [done|lia]|lia]).
  pose proof (marks_length _ _ Hm').
  destruct (run_end_spec (length m') n m' (g_end g + 1)) as (R1 & R2 & R3); [done|lia|lia|].
  exists m'. split_and!; cbn [g_start g_end]; try lia; try done.
  - split_and!; [done|done| | | |]; cbn [g_start g_end].
    + rewrite <- Hk. unfold kept_classes. rewrite Hn.
      apply (kept_exchange n _ _ _ (g_start g) (g_end g)); try lia; try done.
      * intros i Hi. apply G3. lia.
      * apply G3. lia.
      * rewrite Hmk. by zdec.
      * rewrite Hmk. by zdec.
      * intros i Hi1 Hi2. rewrite Hmk. by zdec.
    + rewrite <- Hct. unfold m'. rewrite !(cnt_mark _ n) by (rewrite ?zlen_mark; lia || apply Hm).
      rewrite (marked_mark _ _ _ _ n), (G3 (g_start g)), G4 by (lia || apply Hm). zdec. lia.
    + apply Z.le_trans with (cnt m' (g_end g + 1)); [|apply cnt_mono; lia].
      unfold m'. rewrite !(cnt_mark _ n), cnt_succ by (rewrite ?zlen_mark; lia || apply Hm).
      rewrite (marked_mark _ _ _ _ n), (G3 (g_start g)), G4 by (lia || apply Hm). zdec. lia.
    + split_and!; cbn [g_start g_end]; try lia; try done.
      * intros i Hi. destruct (decide (g_end g < i)); [apply R2; lia|]. rewrite Hmk.
        destruct (i =? g_end g) eqn:Ei; zbool; [done|]. zdec. apply G3. lia.
      * rewrite Hmk. replace (g_start g + 1 - 1) with (g_start g) by lia. by zdec.
  - intros i Hi1 Hi2. rewrite Hmk. by zdec.
  - rewrite Hmk. by zdec.
Qed.

(** Sliding up: the line before the run is as the run's last. *)
Lemma groupSlideUp_ok a m s g :
  slid a m s g → g_start g < g_end g →
  match groupSlideUp s g with
  | None => g_start g = 0 ∨ at_ (classes side) (g_start g - 1) ≠ at_ (classes side) (g_end g - 1)
  | Some (s', g') => ∃ m', slid a m' s' g' ∧ g_end g' = g_end g - 1 ∧ g_start g' <= g_start g - 1 ∧ 0 < g_start g ∧
      (∀ i, i < g_start g - 1 → marked m' i = marked m i) ∧
      (marked m (g_start g - 2) = false → g_start g' = g_start g - 1)
  end.
Proof using Hn.
  intros (-> & Hm & (Hk & Hct & Ha) & G1 & G2 & G3 & G4 & G5) Hne. unfold groupSlideUp. cbn [lines classes changed set_changed].
  destruct (g_start g =? 0) eqn:E; zbool; [by left|].
  case_bool_decide as Ec; cbn [negb]; [|by right].
  set (m' := mark (mark m (g_start g - 1) true) (g_end g - 1) false).
  assert (∀ k, marked m' k = if k =? g_end g - 1 then false else if k =? g_start g - 1 then true else marked m k) as Hmk.
  { intros k. by apply mark_mark; [|lia..]. }
  assert (marks_ok n m') as Hm' by (apply marks_ok_mark; [apply marks_ok_mark; [done|lia]|lia]).
  pose proof (marks_length _ _ Hm').
  destruct (run_start_spec (length m') n m' (g_start g - 1)) as (R1 & R2 & R3); [done|lia|lia|].
  exists m'. split_and!; cbn [g_start g_end]; try lia; try done.
  - split_and!; [done|done| | | |]; cbn [g_start g_end].
    + rewrite <- Hk. unfold kept_classes. rewrite Hn. symmetry.
      apply (kept_exchange n _ _ _ (g_start g - 1) (g_end g - 1)); try lia; try done.
      * intros i Hi. rewrite Hmk. zdec. apply G3. lia.
      * rewrite Hmk. by zdec.
      * rewrite Hmk. by zdec.
      * apply G3. lia.
      * intros i Hi1 Hi2. rewrite Hmk. by zdec.
    + rewrite <- Hct. unfold m'. rewrite !(cnt_mark _ n) by (rewrite ?zlen_mark; lia || apply Hm).
      rewrite (marked_mark _ _ _ _ n), (G3 (g_end g - 1)), G5 by (lia || apply Hm). zdec. lia.
    + replace (g_end g) with (g_end g - 1 + 1) in Ha by lia.
      unfold m'. rewrite !(cnt_mark _ n) by (rewrite ?zlen_mark; lia || apply Hm). rewrite cnt_succ in Ha by lia.
      rewrite (G3 (g_end g - 1)) in Ha by lia. rewrite G5. zdec. lia.
    + split_and!; cbn [g_start g_end]; try lia; try done.
      * intros i Hi. destruct (decide (i < g_start g - 1)); [apply R2; lia|]. rewrite Hmk.
        destruct (i =? g_start g - 1) eqn:Ei; zbool; [by zdec|]. zdec. apply G3. lia.
      * rewrite Hmk. by zdec.
  - intros i Hi. rewrite Hmk. by zdec.
  - intros Hu. destruct (length m') as [|fuel]; [lia|]. cbn [run_start].
    rewrite Hmk. replace (g_start g - 1 - 1) with (g_start g - 2) by lia. rewrite Hu. by zdec.
Qed.

(** * The loops *)

Context (other : Side) (n2 : Z) (Hn2 : zlen (lines other) = n2) (Hm2 : marks_ok n2 (changed other)).

Local Notation size st := (group_size (sl_group st)).

(** The state of the sliding loops: a nonempty group, and a group of the other side. *)
Definition sliding (a : Z) (m : list Z) (st : Sliding) : Prop :=
  slid a m (sl_side st) (sl_group st) ∧ 1 <= size st ∧ group_ok n2 (changed other) (sl_other st).

Lemma previous_other_ok g :
  group_ok n2 (changed other) g → group_ok n2 (changed other) (previous_other other g).
Proof using Hn2 Hm2.
  intros Hg. unfold previous_other. pose proof (groupPrevious_ok other n2 g Hn2 Hm2 Hg) as H.
  destruct (groupPrevious other g); [apply H|done].
Qed.

Lemma next_other_ok g :
  group_ok n2 (changed other) g →
  group_ok n2 (changed other) (next_other other g) ∧ g_end g <= g_end (next_other other g).
Proof using Hn2 Hm2.
  intros Hg. unfold next_other. pose proof (groupNext_ok other n2 g Hn2 Hm2 Hg) as H.
  destruct (groupNext other g) as [g'|]; cbn [default from_option id]; [|by split; [|lia]].
  destruct H as [Hg' Hs]. split; [done|]. destruct Hg' as (? & _). lia.
Qed.

Lemma step_up_ok a m st : sliding a m st → ∃ m', sliding a m' (step_up other st).
Proof using Hn Hn2 Hm2.
  intros (Hs & Hsz & Ho). unfold step_up, sliding, group_size in *. pose proof (previous_other_ok _ Ho).
  pose proof (groupSlideUp_ok a m _ _ Hs ltac:(lia)) as H1.
  destruct (groupSlideUp (sl_side st) (sl_group st)) as [[s' g']|]; cbn [default from_option sl_side sl_group sl_other id].
  - destruct H1 as (m' & Hs' & ? & ? & _). exists m'. split_and!; (done || lia).
  - by exists m.
Qed.

Lemma slide_up_spec fuel a m st :
  sliding a m st → g_start (sl_group st) < Z.of_nat fuel →
  ∃ st' m', slide_up other fuel st = Some st' ∧ sliding a m' st' ∧ size st <= size st'.
Proof using Hn Hn2 Hm2.
  revert m st. induction fuel as [|fuel IH]; intros m st Hst Hf.
  { destruct Hst as ((_ & _ & _ & ? & _) & _). lia. }
  cbn [slide_up]. pose proof Hst as (Hs & Hsz & Ho).
  pose proof (groupSlideUp_ok a m _ _ Hs ltac:(unfold group_size in Hsz; lia)) as H1.
  destruct (groupSlideUp (sl_side st) (sl_group st)) as [[s' g']|].
  - destruct H1 as (m' & Hs' & ? & ? & ? & _).
    destruct (IH m' (mkSliding s' g' (previous_other other (sl_other st)))) as (st' & m2 & E & Hst' & Hle).
    + unfold sliding, group_size in *. cbn [sl_side sl_group sl_other]. split_and!; [done|lia|by apply previous_other_ok].
    + cbn [sl_group]. lia.
    + exists st', m2. split_and!; [done..|]. unfold group_size in *. cbn [sl_group] in Hle. lia.
  - exists st, m. split_and!; [done..|lia].
Qed.

(** Since its earliest end [e], a group of size [sz] that absorbed nothing passed unmarked
    lines equal to those it now ends with. *)
Definition passed (e sz : Z) (m : list Z) (g : Group) : Prop :=
  sz <= group_size g ∧
  (group_size g = sz → e <= g_end g ∧ (∀ i, e - sz - 1 <= i < g_start g → marked m i = false) ∧
     (∀ i, e - sz <= i < g_start g → at_ (classes side) i = at_ (classes side) (i + sz))).

(** The other side has a marked line before the end of its group. *)
Definition met (o : Group) : Prop := ∃ p, 0 <= p < g_end o ∧ marked (changed other) p = true.

Lemma slide_down_spec fuel a m st e sz em :
  sliding a m st → passed e sz m (sl_group st) → n - g_end (sl_group st) < Z.of_nat fuel →
  (em = -1 ∨ met (sl_other st)) →
  ∃ st' m' em', slide_down other fuel st em = Some (st', em') ∧ sliding a m' st' ∧ passed e sz m' (sl_group st') ∧
    size st <= size st' ∧ (em' = -1 ∨ met (sl_other st')).
Proof using Hn Hn2 Hm2.
  revert m st em. induction fuel as [|fuel IH]; intros m st em Hst Hp Hf Hem.
  { destruct Hst as ((_ & _ & _ & ? & ? & _) & _). lia. }
  cbn [slide_down]. pose proof Hst as (Hs & Hsz & Ho).
  pose proof (groupSlideDown_ok a m _ _ Hs ltac:(unfold group_size in Hsz; lia)) as H1.
  destruct (groupSlideDown (sl_side st) (sl_group st)) as [[s' g']|].
  - destruct H1 as (m' & Hs' & H1 & H2 & H3 & H4 & H5 & H6). destruct (next_other_ok _ Ho) as [Ho' Hle'].
    set (o := next_other other (sl_other st)) in *.
    destruct (IH m' (mkSliding s' g' o) (if nonempty o then g_end g' else em)) as (st' & m2 & em' & E & Hst' & Hp' & Hle & Hem').
    + unfold sliding, group_size in *. cbn [sl_side sl_group sl_other]. split_and!; (done || lia).
    + cbn [sl_group]. destruct Hp as [Hp1 Hp2]. unfold passed, group_size in *. split; [lia|]. intros Heq.
      destruct Hp2 as (P1 & P2 & P3); [lia|]. split_and!; [lia| |].
      * intros i Hi. destruct (decide (i = g_start (sl_group st))) as [->|]; [done|]. rewrite H5 by lia. apply P2. lia.
      * intros i Hi. destruct (decide (i = g_start (sl_group st))) as [->|]; [|apply P3; lia].
        rewrite H3. f_equal. lia.
    + cbn [sl_group]. lia.
    + cbn [sl_other]. destruct (nonempty o) eqn:Eo; unfold nonempty in Eo; zbool.
      * right. destruct Ho' as (O1 & O2 & O3 & _). exists (g_start o). split; [lia|]. apply O3. lia.
      * destruct Hem as [->|(p & Hp1 & Hp2)]; [by left|right]. exists p. split; [lia|done].
    + exists st', m2, em'. split_and!; try done. unfold group_size in *. cbn [sl_group] in Hle. lia.
  - exists st, m, em. split_and!; [done..|lia|done].
Qed.

Lemma sliding_size a m st : sliding a m st → size st <= n ∧ zlen (lines (sl_side st)) = n.
Proof using Hn. intros ((-> & _ & _ & ? & ? & _) & _). unfold group_size. split; [lia|done]. Qed.

Lemma slide_fully_spec fuel a m st :
  sliding a m st → n - size st < Z.of_nat fuel →
  ∃ st' m' e em, slide_fully other fuel st = Some (st', (size st', e, em)) ∧ sliding a m' st' ∧
    passed e (size st') m' (sl_group st') ∧ 1 <= size st' <= e ∧ (em = -1 ∨ met (sl_other st')).
Proof using Hn Hn2 Hm2.
  revert m st. induction fuel as [|fuel IH]; intros m st Hst Hf.
  { destruct (sliding_size _ _ _ Hst). lia. }
  cbn [slide_fully]. destruct (sliding_size _ _ _ Hst) as [_ Hl]. pose proof Hst as ((_ & _ & _ & Hg1 & Hg2 & _) & _).
  destruct (slide_up_spec (loop_fuel (sl_side st)) a m st Hst) as (st1 & m1 & -> & Hst1 & Hle1).
  { unfold loop_fuel. rewrite Hl. lia. }
  cbn [mbind option_bind]. destruct (sliding_size _ _ _ Hst1) as [_ Hl1].
  pose proof Hst1 as ((_ & _ & _ & Hk1 & Hk2 & Hk3 & Hk4 & Hk5) & Hs1 & Ho1).
  destruct (slide_down_spec (loop_fuel (sl_side st1)) a m1 st1 (g_end (sl_group st1)) (size st1)
    (if nonempty (sl_other st1) then g_end (sl_group st1) else -1)) as (st2 & m2 & em & -> & Hst2 & Hp & Hle2 & Hem).
  { done. }
  { unfold passed, group_size. split; [lia|]. intros _. split_and!; [lia| |lia].
    intros i Hi. by replace i with (g_start (sl_group st1) - 1) by lia. }
  { unfold loop_fuel. rewrite Hl1. lia. }
  { destruct (nonempty (sl_other st1)) eqn:Eo; [right|by left]. unfold nonempty in Eo. zbool.
    destruct Ho1 as (O1 & O2 & O3 & _). exists (g_start (sl_other st1)). split; [lia|]. apply O3. lia. }
  cbn [mbind option_bind]. destruct (size st =? size st2) eqn:E; cbn [negb]; zbool.
  - exists st2, m2, (g_end (sl_group st1)), em. rewrite E. assert (size st1 = size st2) as E1 by lia. rewrite E1 in Hp.
    split_and!; try done; unfold group_size in *; lia.
  - destruct (sliding_size _ _ _ Hst2). apply (IH m2); [done|lia].
Qed.

Lemma align_spec fuel a m st :
  sliding a m st → met (sl_other st) → g_end (sl_other st) < Z.of_nat fuel →
  ∃ st' m', align other fuel st = Some st' ∧ sliding a m' st'.
Proof using Hn Hn2 Hm2.
  revert m st. induction fuel as [|fuel IH]; intros m st Hst Hmet Hf.
  { destruct Hmet as (p & ? & _). lia. }
  cbn [align]. destruct (g_end (sl_other st) =? g_start (sl_other st)) eqn:E; zbool; [|by exists st, m].
  destruct (step_up_ok a m st Hst) as (m' & Hst'). apply (IH m'); [done|..].
  all: destruct Hst as (_ & _ & Ho); destruct Hmet as (p & Hp1 & Hp2); pose proof Ho as (O1 & O2 & O3 & O4 & O5).
  all: pose proof (groupPrevious_ok other n2 _ Hn2 Hm2 Ho) as H; unfold step_up, previous_other.
  all: destruct (groupSlideUp (sl_side st) (sl_group st)) as [[? ?]|]; cbn [default from_option sl_other id].
  all: destruct (groupPrevious other (sl_other st)) as [g'|]; cbn [default from_option id]; [destruct H as (_ & H1 & H2)|lia].
  all: try lia.
  all: exists p; split; [|done]; assert (p ≠ g_start (sl_other st) - 1) by congruence; lia.
Qed.

Lemma slide_to_spec fuel a m st e sz best :
  sliding a m st → passed e sz m (sl_group st) → size st = sz → sz <= e → e <= best →
  g_end (sl_group st) - best < Z.of_nat fuel → (0 < fuel)%nat →
  ∃ st' m', slide_to other fuel best st = Some st' ∧ sliding a m' st'.
Proof using Hn Hn2 Hm2.
  revert m st. induction fuel as [|fuel IH]; intros m st Hst Hp Hsz He Hb Hf Hpos; [lia|]. cbn [slide_to].
  destruct (best <? g_end (sl_group st)) eqn:E; zbool; [|by exists st, m].
  destruct Hp as [_ Hp]. destruct (Hp Hsz) as (P1 & P2 & P3). pose proof Hst as (Hs & Hs1 & Ho).
  unfold step_up, group_size in *. pose proof (groupSlideUp_ok a m _ _ Hs ltac:(lia)) as H1.
  destruct (groupSlideUp (sl_side st) (sl_group st)) as [[s' g']|].
  - destruct H1 as (m' & Hs' & H1 & H2 & H3 & H4 & H5). specialize (H5 ltac:(apply P2; lia)).
    cbn [default from_option id]. apply (IH m'); cbn [sl_group].
    + unfold sliding, group_size. cbn [sl_side sl_group sl_other]. split_and!; [done|lia|by apply previous_other_ok].
    + unfold passed, group_size. split; [lia|]. intros _. split_and!; [lia| |].
      * intros i Hi. rewrite H4 by lia. apply P2. lia.
      * intros i Hi. apply P3. lia.
    + unfold group_size. lia.
    + lia.
    + lia.
    + lia.
    + lia.
  - exfalso. destruct H1 as [H1|H1]; [lia|]. apply H1. rewrite P3 by lia. f_equal. lia.
Qed.

Lemma best_shift_bound s sz e stop : 1 <= e <= stop → 1 <= sz → e <= best_shift s sz e stop.
Proof.
  intros He Hsz. unfold best_shift. cbv zeta.
  set (shift := if (if e <? stop - sz - 1 then stop - sz - 1 else e) <? stop - INDENT_HEURISTIC_MAX_SLIDING
                then stop - INDENT_HEURISTIC_MAX_SLIDING else if e <? stop - sz - 1 then stop - sz - 1 else e).
  assert (e <= shift <= stop) as Hs.
  { subst shift. unfold INDENT_HEURISTIC_MAX_SLIDING. repeat case_match; zbool; lia. }
  clearbody shift. rewrite seqZ_cons by lia. cbn [foldl fst snd Z.eqb orb].
  assert (∀ l b, (∀ i, i ∈ l → e <= i) → e <= fst b →
    e <= fst (foldl (λ best k, if (fst best =? -1) || (compareScores (split_score s sz k) (snd best) <=? 0)
                               then (k, split_score s sz k) else best) b l)) as Hfold.
  { induction l as [|k l IH]; intros b Hl Hb; [done|]. cbn [foldl]. apply IH.
    - intros i Hi. apply Hl. by constructor.
    - case_match; [|done]. cbn [fst]. apply Hl. constructor. }
  apply Hfold; [|cbn; lia]. intros i Hi%elem_of_seqZ. lia.
Qed.

(** A settled group: still a maximal run, and with as many marks up to its end. *)
Lemma settle_group_spec h a m st :
  slid a m (sl_side st) (sl_group st) → group_ok n2 (changed other) (sl_other st) →
  ∃ st' m', settle_group other h st = Some st' ∧ slid a m' (sl_side st') (sl_group st') ∧
    group_ok n2 (changed other) (sl_other st') ∧
    (g_end (sl_group st) = g_start (sl_group st) → st' = st).
Proof using Hn Hn2 Hm2.
  intros Hs Ho. unfold settle_group. destruct (g_end (sl_group st) =? g_start (sl_group st)) eqn:E; zbool.
  { by exists st, m. }
  assert (sliding a m st) as Hst.
  { unfold sliding, group_size. split_and!; try done. destruct Hs as (_ & _ & _ & ? & _). lia. }
  destruct (sliding_size _ _ _ Hst) as [Hsz1 Hl1].
  destruct (slide_fully_spec (loop_fuel (sl_side st)) a m st Hst) as (st1 & m1 & e & em & -> & Hst1 & Hp & Hse & Hem).
  { unfold loop_fuel. rewrite Hl1. destruct Hst as (_ & ? & _). lia. }
  cbn [mbind option_bind]. destruct (sliding_size _ _ _ Hst1) as [Hsz2 Hl2].
  assert (∀ st' m', sliding a m' st' → slid a m' (sl_side st') (sl_group st') ∧ group_ok n2 (changed other) (sl_other st')
    ∧ (g_end (sl_group st) = g_start (sl_group st) → st' = st)) as Hdone.
  { intros st' m' (? & _ & ?). by split_and!. }
  destruct (g_end (sl_group st1) =? e) eqn:Ee; zbool.
  { exists st1, m1. split; [done|]. by apply Hdone. }
  destruct (em =? -1) eqn:Em; cbn [negb]; zbool.
  - destruct h; [|exists st1, m1; split; [done|]; by apply Hdone].
    destruct Hp as [Hp0 Hp]. destruct (Hp eq_refl) as (P1 & _).
    destruct (slide_to_spec (loop_fuel (sl_side st1)) a m1 st1 e (size st1)
      (best_shift (sl_side st1) (size st1) e (g_end (sl_group st1)))) as (st2 & m2 & -> & Hst2); try done; try lia.
    + apply best_shift_bound; lia.
    + pose proof (best_shift_bound (sl_side st1) (size st1) e (g_end (sl_group st1)) ltac:(lia) ltac:(lia)).
      unfold loop_fuel. rewrite Hl2. destruct Hst1 as ((_ & _ & _ & _ & ? & _) & _). lia.
    + unfold loop_fuel. lia.
    + exists st2, m2. split; [done|]. by apply Hdone.
  - destruct Hem as [?|Hmet]; [lia|].
    destruct (align_spec (loop_fuel other) a m1 st1 Hst1 Hmet) as (st2 & m2 & -> & Hst2).
    + unfold loop_fuel. rewrite Hn2. destruct Hst1 as (_ & _ & ? & ? & _). lia.
    + exists st2, m2. split; [done|]. by apply Hdone.
Qed.

(** The walk ends: a settled group leaves fewer marks behind it, an empty one is passed. *)
Definition walk_measure (m : list Z) (g : Group) : Z :=
  (cnt m n - cnt m (g_start g)) * (n + 2) + (n - g_start g).

Lemma compact_loop_spec fuel h m st :
  slid (cnt m (g_end (sl_group st))) m (sl_side st) (sl_group st) → group_ok n2 (changed other) (sl_other st) →
  walk_measure m (sl_group st) < Z.of_nat fuel →
  ∃ m', compact_loop other fuel h st = Some (set_changed side m') ∧ marks_ok n m' ∧
    kept_classes side m' = kept_classes side (changed side).
Proof using Hn Hn2 Hm2.
  revert m st. induction fuel as [|fuel IH]; intros m st Hs Ho Hf.
  { exfalso. pose proof Hs as (_ & _ & _ & ? & ? & _). unfold walk_measure in Hf.
    pose proof (cnt_mono m (g_start (sl_group st)) n ltac:(lia)). nia. }
  cbn [compact_loop]. destruct (settle_group_spec h _ m st Hs Ho) as (st1 & m1 & -> & Hs1 & Ho1 & Hsame).
  cbn [mbind option_bind]. pose proof Hs1 as (Es & Hm1 & (Hk1 & Hct1 & Ha1) & Hg1).
  assert (zlen (lines (sl_side st1)) = n) as Hl1 by (by rewrite Es).
  pose proof (groupNext_ok (sl_side st1) n (sl_group st1) Hl1) as Hnext. rewrite Es in Hnext at 1 2.
  specialize (Hnext Hm1 Hg1). destruct (groupNext (sl_side st1) (sl_group st1)) as [g'|].
  2:{ exists m1. by rewrite Es. }
  rewrite Es in Hnext. destruct Hnext as [Hg' Hstart]. cbn [changed set_changed] in Hg'.
  destruct (next_other_ok _ Ho1) as [Ho' _].
  apply (IH m1); cbn [sl_side sl_group sl_other]; [|done|].
  { rewrite Es. unfold slid. split_and!; (done || lia). }
  pose proof Hs as (_ & _ & (_ & Hct & _) & Hg). pose proof Hg as (G1 & G2 & G3 & G4 & G5).
  pose proof Hg1 as (K1 & K2 & K3 & K4 & K5). pose proof Hg' as (L1 & L2 & _).
  unfold walk_measure in *. rewrite Hstart, cnt_succ, K4, Hct1, <- Hct by lia.
  rewrite (cnt_full m (g_start (sl_group st)) (g_end (sl_group st))) in Ha1 by (lia || done).
  pose proof (cnt_mono m (g_start (sl_group st)) n ltac:(lia)).
  pose proof (cnt_mono m1 (g_end (sl_group st1)) n ltac:(lia)).
  destruct (decide (g_end (sl_group st) = g_start (sl_group st))) as [E|E].
  - rewrite (Hsame E) in *. nia.
  - nia.
Qed.

End side.


Lemma compact_spec side other h n n2 :
  zlen (lines side) = n → zlen (lines other) = n2 → marks_ok n (changed side) → marks_ok n2 (changed other) →
  ∃ m', compact side other h = Some (set_changed side m') ∧ marks_ok n m' ∧
    kept_classes side m' = kept_classes side (changed side).
Proof.
  intros Hn Hn2 Hm Hm2. pose proof (groupInit_ok side n Hn Hm) as Hg. pose proof (groupInit_ok other n2 Hn2 Hm2).
  apply (compact_loop_spec side n Hn other n2 Hn2 Hm2 _ _ (changed side)); cbn [sl_side sl_group sl_other]; [|done|].
  - unfold slid. split_and!; try done; try lia. by destruct side.
  - pose proof Hg as (? & ? & _). pose proof (zlen_nonneg (lines side)). unfold walk_measure, walk_fuel, loop_fuel.
    pose proof (cnt_range (changed side) n ltac:(lia)). pose proof (cnt_range (changed side) (g_start (groupInit side)) ltac:(lia)).
    rewrite Hn, Nat2Z.inj_mul, Nat2Z.inj_add, Z2Nat.id by lia. nia.
Qed.
