(* ===== verification/MyersScript.v ===== *)
(** [buildScript] turns marks under which the two sides keep the same lines into a script
    that is in order, minimal in its gaps and sound. *)

From S2P Require Import Prelude Arrays MyersState MyersCompare MyersCompact MyersCompactFacts.

(** The lines outside the groups are the same on both sides. *)
Fixpoint agrees {A} (old new : list A) (p q : Z) (groups : list ChangeGroup) : Prop :=
  match groups with
  | [] => slice_from old p = slice_from new q
  | g :: groups =>
      slice old p (oldStart g) = slice new q (newStart g) ∧
      agrees old new (oldStart g + oldCount g) (newStart g + newCount g) groups
  end.

Lemma slice_from_slice {A} (l : list A) a : 0 <= a → slice_from l a = slice l a (zlen l).
Proof.
  intros. unfold slice, slice_from, zlen. rewrite take_ge; [done|]. rewrite length_drop. lia.
Qed.

Lemma script_ok_start n m first p q g gs :
  script_ok n m first p q (g :: gs) → 0 <= p → 0 <= q → p <= oldStart g ∧ q <= newStart g.
Proof. intros (H1 & H2 & _) ? ?. destruct first; lia. Qed.

Lemma script_ok_end n m first p q gs : script_ok n m first p q gs → p <= n ∧ q <= m.
Proof.
  revert first p q. induction gs as [|g gs IH]; intros first p q; cbn; [lia|].
  intros (H1 & H2 & H3 & H4 & H5 & H6). apply IH in H6. destruct first; lia.
Qed.

Lemma run_script_agrees {A} (old new : list A) first p q gs :
  script_ok (zlen old) (zlen new) first p q gs → 0 <= p → 0 <= q → agrees old new p q gs →
  run_script old new p gs = slice_from new q.
Proof.
  revert first p q. induction gs as [|g gs IH]; intros first p q Hok Hp Hq; cbn [agrees run_script]; [done|].
  intros [Hs Ha]. pose proof (script_ok_start _ _ _ _ _ _ _ Hok Hp Hq) as [H1 H2].
  destruct Hok as (_ & _ & H3 & H4 & _ & Hok). pose proof (script_ok_end _ _ _ _ _ _ Hok) as [H5 H6].
  rewrite (IH false _ _ Hok) by (done || lia). rewrite Hs, !slice_from_slice by lia.
  rewrite (slice_cat new (newStart g)) by lia. apply slice_cat; lia.
Qed.

Section script.
  Context {A : Type} (old new : list A) (left right : Side) (n m : Z).
  Context (Hn : zlen (lines left) = n) (Hm : zlen (lines right) = m) (Hold : zlen old = n) (Hnew : zlen new = m).
  Context (Hcl : zlen (classes left) = n) (Hcr : zlen (classes right) = m).
  Context (Hsame : ∀ i j, 0 <= i < n → 0 <= j < m → at_ (classes left) i = at_ (classes right) j → at_ old i = at_ new j).
  Context (Hml : marks_ok n (changed left)) (Hmr : marks_ok m (changed right)).

Local Notation f := (marked (changed left)).
Local Notation g := (marked (changed right)).
Local Notation keptl a := (kept f (classes left) (seqZ 0 a)).
Local Notation keptr b := (kept g (classes right) (seqZ 0 b)).

Lemma kept_snoc (h : Z → bool) (l : list Z) k :
  0 <= k < zlen l → ∃ x, at_ l k = Some x ∧
    kept h l (seqZ 0 (k + 1)) = kept h l (seqZ 0 k) ++ (if h k then [] else [x]).
Proof.
  intros Hk. destruct (proj2 (at_is_Some l k) Hk) as [x Hx]. exists x. split; [done|].
  rewrite seqZ_app, Z.add_0_l by lia. unfold kept. rewrite omap_app. f_equal. rewrite seqZ_cons by lia.
  change (Z.pred 1) with 0. cbn. rewrite Hx. by destruct (h k).
Qed.

(** Marked lines at the end of a prefix keep nothing. *)
Lemma kept_run (h : Z → bool) (l : list Z) a b :
  0 <= a <= b → (∀ i, a <= i < b → h i = true) → kept h l (seqZ 0 b) = kept h l (seqZ 0 a).
Proof.
  intros Hab Hh. pose proof (seqZ_split 0 a b ltac:(lia)) as E. rewrite !Z.sub_0_r in E. rewrite E, kept_app.
  rewrite (kept_marked h l (seqZ a (b - a))); [by rewrite app_nil_r|]. intros i Hi%elem_of_seqZ. apply Hh. lia.
Qed.

(** Before two unmarked ends, both prefixes are empty or both end in the same line. *)
Lemma kept_step a b :
  0 <= a <= n → 0 <= b <= m → f (a - 1) = false → g (b - 1) = false → keptl a = keptr b →
  a = 0 ∧ b = 0 ∨ 0 < a ∧ 0 < b ∧ at_ old (a - 1) = at_ new (b - 1) ∧ keptl (a - 1) = keptr (b - 1).
Proof using Hcl Hcr Hsame.
  intros Ha Hb Hf Hg Hk.
  destruct (decide (a = 0)) as [->|Ha0], (decide (b = 0)) as [->|Hb0]; [by left|..]; try right.
  - destruct (kept_snoc g (classes right) (b - 1) ltac:(lia)) as (y & _ & E). rewrite Z.sub_add in E.
    rewrite E, Hg in Hk. change (keptl 0) with (@nil Z) in Hk. by destruct (keptr (b - 1)).
  - destruct (kept_snoc f (classes left) (a - 1) ltac:(lia)) as (y & _ & E). rewrite Z.sub_add in E.
    rewrite E, Hf in Hk. change (keptr 0) with (@nil Z) in Hk. by destruct (keptl (a - 1)).
  - destruct (kept_snoc f (classes left) (a - 1) ltac:(lia)) as (x & Hx & Ex).
    destruct (kept_snoc g (classes right) (b - 1) ltac:(lia)) as (y & Hy & Ey). rewrite Z.sub_add in Ex, Ey.
    rewrite Ex, Ey, Hf, Hg in Hk. apply app_inj_tail in Hk as [Hk ->].
    split_and!; [lia|lia| |done]. apply Hsame; [lia|lia|]. by rewrite Hx, Hy.
Qed.

Lemma agrees_back a b gs first :
  0 < a → 0 < b → at_ old (a - 1) = at_ new (b - 1) → script_ok n m first a b gs → agrees old new a b gs →
  script_ok n m false (a - 1) (b - 1) gs ∧ agrees old new (a - 1) (b - 1) gs.
Proof using Hold Hnew.
  intros Ha Hb Heq Hok Hag. pose proof (script_ok_end _ _ _ _ _ _ Hok) as [He1 He2]. destruct gs as [|g0 gs].
  - cbn in *. split; [lia|]. rewrite !slice_from_slice in * by lia.
    destruct (slice_cons old (a - 1) (zlen old)) as (x & Hx & ->); [lia..|].
    destruct (slice_cons new (b - 1) (zlen new)) as (y & Hy & ->); [lia..|].
    assert (x = y) as -> by congruence. by rewrite !Z.sub_add, Hag.
  - pose proof (script_ok_start _ _ _ _ _ _ _ Hok ltac:(lia) ltac:(lia)) as [H1 H2].
    destruct Hok as (H3 & H4 & H5 & H6 & H7 & H8). pose proof (script_ok_end _ _ _ _ _ _ H8). destruct Hag as [Hs Hag].
    split; [cbn; split_and!; try done; destruct first; lia|]. split; [|done].
    destruct (slice_cons old (a - 1) (oldStart g0)) as (x & Hx & ->); [lia..|].
    destruct (slice_cons new (b - 1) (newStart g0)) as (y & Hy & ->); [lia..|].
    assert (x = y) as -> by congruence. by rewrite !Z.sub_add, Hs.
Qed.

Lemma buildScript_loop_spec fuel a b groups :
  0 <= a <= n → 0 <= b <= m → a + 2 <= Z.of_nat fuel → keptl a = keptr b →
  script_ok n m false a b (reverse groups) → agrees old new a b (reverse groups) →
  ∃ gs, buildScript_loop fuel left right None a b groups = Some (Ok gs) ∧
    script_ok n m true 0 0 gs ∧ agrees old new 0 0 gs.
Proof using Hn Hm Hold Hnew Hcl Hcr Hsame Hml Hmr.
  revert a b groups. induction fuel as [|fuel IH]; intros a b groups Ha Hb Hf Hk Hok Hag; [lia|].
  (* One line back, or the end. *)
  assert (∀ a' b' groups' first, 0 <= a' <= a → 0 <= b' <= m → f (a' - 1) = false → g (b' - 1) = false →
    keptl a' = keptr b' → script_ok n m first a' b' (reverse groups') → agrees old new a' b' (reverse groups') →
    ∃ gs, buildScript_loop fuel left right None (a' - 1) (b' - 1) groups' = Some (Ok gs) ∧
      script_ok n m true 0 0 gs ∧ agrees old new 0 0 gs) as Hback.
  { intros a' b' groups' first Ha' Hb' Hf' Hg' Hk' Hok' Hag'.
    destruct (kept_step a' b') as [[-> ->]|(H1 & H2 & H3 & H4)]; [lia|lia|done..| |].
    - exists (reverse groups'). destruct fuel as [|fuel']; [lia|]. split; [done|]. split; [|done].
      destruct (reverse groups'); [done|]. destruct Hok' as (? & ? & ?). split_and!; (done || (destruct first; lia) || (cbn in *; tauto)).
    - destruct (agrees_back a' b' (reverse groups') first) as [H5 H6]; [done..|]. apply IH; (done || lia). }
  cbn [buildScript_loop]. zdec.
  destruct (f (a - 1) || g (b - 1)) eqn:E.
  - pose proof (marks_length _ _ Hml). pose proof (marks_length _ _ Hmr).
    destruct (run_start_spec (length (changed left)) n (changed left) a) as (L1 & L2 & L3); [done|lia|lia|].
    destruct (run_start_spec (length (changed right)) m (changed right) b) as (R1 & R2 & R3); [done|lia|lia|].
    set (a' := run_start _ (changed left) a) in *. set (b' := run_start _ (changed right) b) in *.
    apply (Hback a' b' _ true); try done; try lia.
    + rewrite <- (kept_run f (classes left) a' a), <- (kept_run g (classes right) b' b) by (done || lia). done.
    + rewrite reverse_snoc. cbn. rewrite !Z.sub_diag.
      assert (1 <= a - a' + (b - b')).
      { apply orb_true_iff in E as [E|E].
        - destruct (decide (a' = a)) as [Eq|]; [|lia]. rewrite Eq in L3. congruence.
        - destruct (decide (b' = b)) as [Eq|]; [|lia]. rewrite Eq in R3. congruence. }
      replace (a' + (a - a')) with a by lia. replace (b' + (b - b')) with b by lia. split_and!; (done || lia).
    + rewrite reverse_snoc. cbn. rewrite !slice_empty. split; [done|].
      replace (a' + (a - a')) with a by lia. by replace (b' + (b - b')) with b by lia.
  - apply orb_false_iff in E as [E1 E2]. apply (Hback a b groups false); (done || lia).
Qed.

Lemma buildScript_spec :
  keptl n = keptr m →
  ∃ gs, buildScript left right None = Some (Ok gs) ∧ script_ok n m true 0 0 gs ∧ agrees old new 0 0 gs.
Proof using Hn Hm Hold Hnew Hcl Hcr Hsame Hml Hmr.
  intros Hk. pose proof (zlen_nonneg old). pose proof (zlen_nonneg new). unfold buildScript. rewrite Hn, Hm.
  apply buildScript_loop_spec; try done; try lia; cbn; [lia|].
  rewrite !slice_from_slice, Hold, Hnew, !slice_empty by lia. done.
Qed.

End script.

(** The limit on the number of groups. *)
Lemma buildScript_loop_grows left right fuel a b groups gs :
  buildScript_loop fuel left right None a b groups = Some (Ok gs) → zlen groups <= zlen gs.
Proof.
  revert a b groups. induction fuel as [|fuel IH]; intros a b groups E; [done|].
  cbn [buildScript_loop] in E. destruct ((0 <=? a) || (0 <=? b)).
  2:{ injection E as <-. unfold zlen. by rewrite length_reverse. }
  destruct (_ || _); apply IH in E; [|done]. rewrite zlen_app in E.
  match type of E with _ + zlen ?l <= _ => pose proof (zlen_nonneg l) end. lia.
Qed.

Lemma buildScript_loop_limit left right k fuel a b groups gs :
  0 <= k → zlen groups <= k → buildScript_loop fuel left right None a b groups = Some (Ok gs) →
  buildScript_loop fuel left right (Some k) a b groups =
    Some (if zlen gs <=? k then Ok gs else Throw (change_list_error k)).
Proof.
  intros Hk. revert a b groups. induction fuel as [|fuel IH]; intros a b groups Hg E; [done|].
  cbn [buildScript_loop] in *. destruct ((0 <=? a) || (0 <=? b)).
  2:{ injection E as <-. unfold zlen in *. rewrite length_reverse. by zdec. }
  destruct (_ || _); [|by apply IH].
  match type of E with buildScript_loop _ _ _ _ _ _ (groups ++ [?x]) = _ =>
    assert (zlen (groups ++ [x]) = zlen groups + 1) as Hl by (rewrite zlen_app; done) end.
  destruct (k <=? zlen groups) eqn:Ek; zbool.
  - apply buildScript_loop_grows in E. by zdec.
  - apply IH; [lia|done].
Qed.

Lemma buildScript_limit left right k gs :
  0 <= k → buildScript left right None = Some (Ok gs) →
  buildScript left right (Some k) = Some (if zlen gs <=? k then Ok gs else Throw (change_list_error k)).
Proof. intros Hk. by apply buildScript_loop_limit. Qed.
