(* ===== verification/Myers.v ===== *)
(** The line differ, end to end: src/packages/git/src/diff/myers.ts.

    [None] stands for a loop that does not end; [diffLines_script] shows that it never
    happens, whatever the two files are. *)

From S2P Require Import Prelude Arrays MyersState MyersFront MyersSearch MyersScan MyersCompare.
From S2P Require Import MyersPrepare MyersPrepareFacts MyersCompact MyersCompactFacts MyersScript.

Definition new_side (lines : list LineRecord) (classes : list Z) : Side :=
  mkSide lines classes (new_Marks (zlen lines)) [] 0 (zlen lines - 1).

Definition compare_fuel (left right : Side) : nat := Z.to_nat (zlen (reference left) + zlen (reference right)) + 1.

Definition diffClassified (oldLines newLines : list LineRecord) (c : Classified) (options : DiffLinesOptions)
    : option (outcome (list ChangeGroup)) :=
  let '(l, r) := trimEnds (new_side oldLines (c_oldClasses c)) (new_side newLines (c_newClasses c)) in
  let '(l, r) := cleanupRecords l r (c_inNew c) (c_inOld c) in
  let diagonalCount := zlen (reference l) + zlen (reference r) + 3 in
  let size := 2 * diagonalCount + 2 in
  let offset := zlen (reference r) + 2 in
  let environment := mkEnvironment (Z.max (bogosqrt diagonalCount) MAX_COST_MIN) SNAKE_CNT HEUR_MIN_COST in
  s ← compare (compare_fuel l r) environment 0 (zlen (reference l)) 0 (zlen (reference r)) false
        (mkSearch l r (new_Diagonals size offset) (new_Diagonals size offset));
  l ← compact (s_left s) (s_right s) (indentHeuristic options);
  r ← compact (s_right s) l (indentHeuristic options);
  buildScript l r (maxChanges options).

Definition diffLines (oldLines newLines : list ustring) (options : DiffLinesOptions) : option (outcome (list ChangeGroup)) :=
  diffClassified (LString <$> oldLines) (LString <$> newLines) (classify oldLines newLines) options.

Definition diffByteRecords (oldLines newLines : list ByteRecord) (options : DiffLinesOptions)
    : option (outcome (list ChangeGroup)) :=
  diffClassified (LBytes <$> oldLines) (LBytes <$> newLines) (classifyBytes oldLines newLines) options.

(** * Lemmas *)

(** Outside the reference a prepared side keeps its common ends only. *)
Lemma kept_whole s m :
  prepared s → 0 <= dstart s <= dend s + 1 → dend s < zlen (lines s) → zlen (classes s) = zlen (lines s) →
  within (reference s) (changed s) m →
  kept (marked m) (classes s) (seqZ 0 (zlen (lines s))) =
    slice (classes s) 0 (dstart s) ++ kept (marked m) (classes s) (reference s) ++
    slice (classes s) (dend s + 1) (zlen (lines s)).
Proof.
  intros (Hm & Href & Hr) Hs He Hc Hw.
  assert (∀ i, i < dstart s ∨ dend s < i → marked m i = false) as Hout.
  { intros i Hi. destruct (decide (i ∈ reference s)) as [Hin|Hin].
    - rewrite Href in Hin. apply list_elem_of_filter in Hin as [_ Hin%elem_of_seqZ]. lia.
    - rewrite Hw by done. destruct (marked (changed s) i) eqn:E; [|done]. apply Hr in E. lia. }
  pose proof (seqZ_split 0 (dstart s) (zlen (lines s)) ltac:(lia)) as E1. rewrite !Z.sub_0_r in E1. rewrite E1.
  rewrite (seqZ_split (dstart s) (dend s + 1) (zlen (lines s))) by lia. rewrite !kept_app.
  pose proof (kept_unmarked (marked m) (classes s) 0 (dstart s)) as K1. rewrite Z.sub_0_r in K1.
  rewrite K1 by (lia || (intros; apply Hout; lia)). f_equal.
  rewrite (kept_unmarked (marked m) (classes s) (dend s + 1)) by (lia || (intros; apply Hout; lia)). f_equal.
  rewrite Href. unfold unmarked. symmetry. apply kept_filter. intros i Hi Hg. rewrite Hw; [done|].
  rewrite Href. intros [Hf _]%list_elem_of_filter. congruence.
Qed.

Lemma covers_new r1 r2 :
  0 <= r1 → 0 <= r2 → covers (new_Diagonals (2 * (r1 + r2 + 3) + 2) (r2 + 2)) (- r2 - 1) (r1 + 1).
Proof. intros H1 H2 d Hd. cbn [values offset new_Diagonals]. rewrite zlen_replicate by lia. lia. Qed.

Lemma NoDup_unmarked m a n : NoDup (unmarked m (seqZ a n)).
Proof. apply NoDup_filter, NoDup_seqZ. Qed.

Lemma prepared_reference s :
  prepared s → 0 <= dstart s → dend s < zlen (lines s) →
  NoDup (reference s) ∧ Forall (λ r, 0 <= r < zlen (lines s)) (reference s) ∧
  clear (slice (reference s) 0 (zlen (reference s))) (changed s) ∧ zlen (reference s) <= zlen (lines s).
Proof.
  intros (_ & Href & _) Hs He. split_and!.
  - rewrite Href. apply NoDup_unmarked.
  - rewrite Href. apply Forall_forall. intros i [_ Hi%elem_of_seqZ]%list_elem_of_filter. lia.
  - rewrite slice_all. intros i. rewrite Href. by intros [? _]%list_elem_of_filter.
  - rewrite Href. unfold zlen, unmarked in *.
    pose proof (length_filter (λ i, marked (changed s) i = false) (seqZ (dstart s) (dend s + 1 - dstart s))) as H.
    rewrite length_seqZ in H. lia.
Qed.

(** Up to the search: marks on both sides that keep the same classes. *)
Lemma search_spec left right env nm :
  prepared left → prepared right → trimmed left right → 0 < snakeCount env →
  zlen (classes left) = zlen (lines left) → zlen (classes right) = zlen (lines right) →
  zlen (lines left) + zlen (lines right) < LINE_MAX →
  ∃ m1 m2 f b, compare (compare_fuel left right) env 0 (zlen (reference left)) 0 (zlen (reference right)) nm
      (mkSearch left right
        (new_Diagonals (2 * (zlen (reference left) + zlen (reference right) + 3) + 2) (zlen (reference right) + 2))
        (new_Diagonals (2 * (zlen (reference left) + zlen (reference right) + 3) + 2) (zlen (reference right) + 2))) =
      Some (mkSearch (set_changed left m1) (set_changed right m2) f b) ∧
    marks_ok (zlen (lines left)) m1 ∧ marks_ok (zlen (lines right)) m2 ∧
    kept_classes left m1 = kept_classes right m2.
Proof.
  intros Hp1 Hp2 (T1 & T2 & T3 & T4 & T5 & T6 & T7 & T8) Hsc Hc1 Hc2 Hsize.
  destruct (prepared_reference left Hp1 T3 T6) as (R1 & R2 & R3 & R4).
  destruct (prepared_reference right Hp2) as (Q1 & Q2 & Q3 & Q4); [lia..|].
  pose proof (zlen_nonneg (reference left)). pose proof (zlen_nonneg (reference right)).
  pose proof Hp1 as (Hm1 & _). pose proof Hp2 as (Hm2 & _).
  destruct (compare_spec left right (zlen (lines left)) (zlen (lines right)) env R1 Q1 R2 Q2 ltac:(lia) Hsc
    (compare_fuel left right) 0 (zlen (reference left)) 0 (zlen (reference right)) nm (changed left) (changed right)
    (new_Diagonals (2 * (zlen (reference left) + zlen (reference right) + 3) + 2) (zlen (reference right) + 2))
    (new_Diagonals (2 * (zlen (reference left) + zlen (reference right) + 3) + 2) (zlen (reference right) + 2)))
    as (m1 & m2 & f & b & E & (Ho1 & Ho2 & W1 & W2 & K) & _); try done; try lia.
  { unfold compare_fuel. lia. }
  { by apply covers_new. }
  { by apply covers_new. }
  rewrite !slice_all in *.
  exists m1, m2, f, b. split; [by destruct left, right|]. split; [done|]. split; [done|].
  unfold kept_classes. rewrite !kept_whole by (done || lia). rewrite K. f_equal; [|f_equal].
  - rewrite <- T1. apply at_ext. intros i Hi. destruct (decide (i < dstart left)).
    + rewrite !at_slice by lia. apply T7. lia.
    + rewrite !at_ge; [done|rewrite zlen_slice; lia..].
  - apply at_ext. intros i Hi. destruct (decide (i < zlen (lines left) - (dend left + 1))).
    + rewrite !at_slice by lia. specialize (T8 (1 + i) ltac:(lia)).
      replace (dend left + 1 + i) with (dend left + (1 + i)) by lia.
      by replace (dend right + 1 + i) with (dend right + (1 + i)) by lia.
    + rewrite !at_ge; [done|rewrite zlen_slice; lia..].
Qed.

Section diff.
  Context {A : Type} (old new : list A) (oldLines newLines : list LineRecord) (c : Classified).
  Context (Hold : zlen old = zlen oldLines) (Hnew : zlen new = zlen newLines).
  Context (Hoc : zlen (c_oldClasses c) = zlen oldLines) (Hnc : zlen (c_newClasses c) = zlen newLines).
  Context (Hsame : ∀ i j, 0 <= i < zlen oldLines → 0 <= j < zlen newLines →
    at_ (c_oldClasses c) i = at_ (c_newClasses c) j → at_ old i = at_ new j).
  Context (Hsize : zlen oldLines + zlen newLines < LINE_MAX).

(** Without a limit there is a script; a limit only refuses one that is too long. *)
Lemma diffClassified_spec options :
  (∀ k, maxChanges options = Some k → 0 <= k) →
  ∃ gs, script_ok (zlen old) (zlen new) true 0 0 gs ∧ run_script old new 0 gs = new ∧
    diffClassified oldLines newLines c options =
      Some (match maxChanges options with
            | Some k => if zlen gs <=? k then Ok gs else Throw (change_list_error k)
            | None => Ok gs
            end).
Proof using Hold Hnew Hoc Hnc Hsame Hsize.
  intros Hk. unfold diffClassified.
  pose proof (zlen_nonneg oldLines). pose proof (zlen_nonneg newLines).
  destruct (trimEnds_spec (new_side oldLines (c_oldClasses c)) (new_side newLines (c_newClasses c))) as (a & b & b' & -> & Ht).
  set (l0 := set_ends _ a b) in *. set (r0 := set_ends _ a b') in *.
  destruct (cleanupRecords_spec l0 r0 (c_inNew c) (c_inOld c)) as (m1 & m2 & r1 & r2 & -> & Hp1 & Hp2); [done|..].
  { intros i. apply marked_new. }
  { intros i. apply marked_new. }
  { by apply marks_ok_new. }
  { by apply marks_ok_new. }
  set (l := set_changed (set_reference l0 r1) m1) in *. set (r := set_changed (set_reference r0 r2) m2) in *.
  destruct (search_spec l r (mkEnvironment (Z.max (bogosqrt (zlen (reference l) + zlen (reference r) + 3)) MAX_COST_MIN)
    SNAKE_CNT HEUR_MIN_COST) false) as (k1 & k2 & f & bk & -> & Ho1 & Ho2 & K); try done.
  cbn [mbind option_bind s_left s_right].
  destruct (compact_spec (set_changed l k1) (set_changed r k2) (indentHeuristic options) _ _ eq_refl eq_refl Ho1 Ho2)
    as (k1' & -> & Ho1' & K1).
  cbn [mbind option_bind].
  destruct (compact_spec (set_changed r k2) (set_changed (set_changed l k1) k1') (indentHeuristic options) _ _ eq_refl eq_refl Ho2 Ho1')
    as (k2' & -> & Ho2' & K2).
  cbn [mbind option_bind].
  set (lf := set_changed (set_changed l k1) k1') in *. set (rf := set_changed (set_changed r k2) k2') in *.
  destruct (buildScript_spec old new lf rf (zlen oldLines) (zlen newLines)) as (gs & E & Hok & Hag); try done.
  { change (kept_classes lf k1' = kept_classes rf k2'). 
    transitivity (kept_classes l k1); [exact K1|]. transitivity (kept_classes r k2); [exact K|]. symmetry. exact K2. }
  exists gs. rewrite Hold, Hnew. split; [done|]. split.
  - rewrite (run_script_agrees old new true 0 0) by (rewrite ?Hold, ?Hnew; done). done.
  - destruct (maxChanges options) as [k|] eqn:Em; [|done]. apply buildScript_limit; [by apply Hk|done].
Qed.

End diff.

(** * Properties *)

Lemma Forall2_at {A B} (P : A → B → Prop) l k i :
  Forall2 P l k → 0 <= i < zlen k → ∃ x y, at_ l i = Some x ∧ at_ k i = Some y ∧ P x y.
Proof.
  intros H Hi. destruct (proj2 (at_is_Some k i) Hi) as [y Hy].
  unfold at_ in *. destruct (i <? 0) eqn:E; [done|]. destruct (Forall2_lookup_r _ _ _ _ _ H Hy) as (x & Hx & HP). eauto.
Qed.

Lemma Forall2_zlen {A B} (P : A → B → Prop) l k : Forall2 P l k → zlen k = zlen l.
Proof. intros H. unfold zlen. by rewrite (Forall2_length _ _ _ H). Qed.

(** Lines of one class are the same line. *)
Lemma classified_same {K} (oldKeys newKeys : list K) c i j :
  classified oldKeys newKeys c → 0 <= i < zlen oldKeys → 0 <= j < zlen newKeys →
  at_ (c_oldClasses c) i = at_ (c_newClasses c) j ↔ at_ oldKeys i = at_ newKeys j.
Proof.
  intros (reps & Hn & Ho & Hw & _) Hi Hj.
  destruct (Forall2_at _ _ _ i Ho) as (x & y & Hx & Hy & Hr); [by rewrite (Forall2_zlen _ _ _ Ho)|].
  destruct (Forall2_at _ _ _ j Hw) as (x' & y' & Hx' & Hy' & Hr'); [by rewrite (Forall2_zlen _ _ _ Hw)|].
  rewrite Hx, Hy, Hx', Hy'. split; intros [= ->]; f_equal; [congruence|]. by apply (at_inj reps _ _ x').
Qed.

Lemma diffLines_spec (oldLines newLines : list ustring) (options : DiffLinesOptions) :
  zlen oldLines + zlen newLines < MAX_SAFE_INTEGER →
  (∀ k, maxChanges options = Some k → 0 <= k) →
  ∃ gs, script_ok (zlen oldLines) (zlen newLines) true 0 0 gs ∧ run_script oldLines newLines 0 gs = newLines ∧
    diffLines oldLines newLines options =
      Some (match maxChanges options with
            | Some k => if zlen gs <=? k then Ok gs else Throw (change_list_error k)
            | None => Ok gs
            end).
Proof.
  intros Hsize Hk. pose proof (classify_classified oldLines newLines) as Hc.
  assert (∀ l : list ustring, zlen (LString <$> l) = zlen l) as Hl by (intros; unfold zlen; by rewrite length_fmap).
  pose proof Hc as (reps & _ & Ho & Hw & _). apply Forall2_zlen in Ho, Hw. unfold diffLines.
  eapply diffClassified_spec; rewrite ?Hl; [exact eq_refl|exact eq_refl|exact Ho|exact Hw| |exact Hsize|exact Hk].
  intros i j Hi Hj. by apply classified_same.
Qed.

(** C5: [diffLines] returns for every two files: whatever the heuristics decide, the search,
    the compaction and the walk over the groups end.  The groups are in order, none is
    empty, two of them are separated by the same positive number of lines on both sides,
    and run on the old lines they give the new ones.  A limit on the number of groups only
    turns a longer script into the [E2BIG] error. *)
Theorem diffLines_script (oldLines newLines : list ustring) (options : DiffLinesOptions) :
  zlen oldLines + zlen newLines < MAX_SAFE_INTEGER →
  (∀ k, maxChanges options = Some k → 0 <= k) →
  ∃ gs, script_ok (zlen oldLines) (zlen newLines) true 0 0 gs ∧ run_script oldLines newLines 0 gs = newLines ∧
    diffLines oldLines newLines options =
      Some (match maxChanges options with
            | Some k => if zlen gs <=? k then Ok gs else Throw (change_list_error k)
            | None => Ok gs
            end).
Proof. apply diffLines_spec. Qed.

Definition example_old : list ustring := js <$> ["a"; "b"; "c"; "a"; "b"; "b"; "a"]%string.
Definition example_new : list ustring := js <$> ["c"; "b"; "a"; "b"; "a"; "c"]%string.

Lemma diffLines_script_witness :
  zlen example_old + zlen example_new < MAX_SAFE_INTEGER ∧
  diffLines example_old example_new (mkOptions true None) =
    Some (Ok [mkGroup 0 2 0 0; mkGroup 3 1 1 0; mkGroup 5 0 2 1; mkGroup 7 0 5 1]) ∧
  ∃ gs, script_ok (zlen example_old) (zlen example_new) true 0 0 gs ∧ run_script example_old example_new 0 gs = example_new ∧
    diffLines example_old example_new (mkOptions true (Some 3)) =
      Some (if zlen gs <=? 3 then Ok gs else Throw (change_list_error 3)).
Proof.
  split; [vm_compute; congruence|]. split; [vm_compute; reflexivity|].
  apply (diffLines_script example_old example_new (mkOptions true (Some 3))); [vm_compute; congruence|].
  intros k [= <-]. done.
Defined.

Lemma diffByteRecords_spec (oldLines newLines : list ByteRecord) (options : DiffLinesOptions) :
  Forall record_ok oldLines → Forall record_ok newLines →
  zlen oldLines + zlen newLines < MAX_SAFE_INTEGER →
  (∀ k, maxChanges options = Some k → 0 <= k) →
  ∃ gs, script_ok (zlen oldLines) (zlen newLines) true 0 0 gs ∧
    run_script (content <$> oldLines) (content <$> newLines) 0 gs = content <$> newLines ∧
    diffByteRecords oldLines newLines options =
      Some (match maxChanges options with
            | Some k => if zlen gs <=? k then Ok gs else Throw (change_list_error k)
            | None => Ok gs
            end).
Proof.
  intros Ho1 Hn1 Hsize Hk. pose proof (classifyBytes_classified oldLines newLines Ho1 Hn1) as Hc.
  assert (∀ l : list ByteRecord, zlen (LBytes <$> l) = zlen l) as Hl by (intros; unfold zlen; by rewrite length_fmap).
  assert (∀ l : list ByteRecord, zlen (content <$> l) = zlen l) as Hl' by (intros; unfold zlen; by rewrite length_fmap).
  pose proof Hc as (reps & _ & Ho & Hw & _).
  rewrite <- (Hl' oldLines), <- (Hl' newLines). apply Forall2_zlen in Ho, Hw. rewrite Hl' in Ho, Hw. unfold diffByteRecords.
  eapply diffClassified_spec; rewrite ?Hl, ?Hl'; [exact eq_refl|exact eq_refl|exact Ho|exact Hw| |exact Hsize|exact Hk].
  intros i j Hi Hj. apply classified_same; rewrite ?Hl'; done.
Qed.

(** The same of [diffByteRecords], which xmerge runs on records of arbitrary bytes: two
    records are the same line exactly when their bytes are equal, whatever their hashes. *)
Theorem diffByteRecords_script (oldLines newLines : list ByteRecord) (options : DiffLinesOptions) :
  Forall record_ok oldLines → Forall record_ok newLines →
  zlen oldLines + zlen newLines < MAX_SAFE_INTEGER →
  (∀ k, maxChanges options = Some k → 0 <= k) →
  ∃ gs, script_ok (zlen oldLines) (zlen newLines) true 0 0 gs ∧
    run_script (content <$> oldLines) (content <$> newLines) 0 gs = content <$> newLines ∧
    diffByteRecords oldLines newLines options =
      Some (match maxChanges options with
            | Some k => if zlen gs <=? k then Ok gs else Throw (change_list_error k)
            | None => Ok gs
            end).
Proof. apply diffByteRecords_spec. Qed.

Definition example_bytes : bytes := [97; 10; 98; 10; 97; 10; 99; 10].

Lemma diffByteRecords_script_witness :
  let old := [mkByteRecord example_bytes 0 2; mkByteRecord example_bytes 2 4] in
  let new := [mkByteRecord example_bytes 4 6; mkByteRecord example_bytes 6 8] in
  diffByteRecords old new (mkOptions true None) = Some (Ok [mkGroup 1 1 1 1]) ∧
  ∃ gs, script_ok 2 2 true 0 0 gs ∧
    run_script (content <$> old) (content <$> new) 0 gs = content <$> new ∧
    diffByteRecords old new (mkOptions true None) = Some (Ok gs).
Proof.
  cbv zeta. split; [vm_compute; reflexivity|].
  apply (diffByteRecords_script [mkByteRecord example_bytes 0 2; mkByteRecord example_bytes 2 4]
    [mkByteRecord example_bytes 4 6; mkByteRecord example_bytes 6 8] (mkOptions true None)).
  - repeat (constructor; [unfold record_ok; vm_compute; intuition congruence|]). constructor.
  - repeat (constructor; [unfold record_ok; vm_compute; intuition congruence|]). constructor.
  - vm_compute; congruence.
  - done.
Defined.

(** [classify] gives two lines, on one side or on both, one id exactly when they are
    equal, and its counts are the occurrences of each id on each side. *)
Theorem classify_correct (oldLines newLines : list ustring) :
  let c := classify oldLines newLines in
  let lines := oldLines ++ newLines in
  let ids := c_oldClasses c ++ c_newClasses c in
  zlen (c_oldClasses c) = zlen oldLines ∧ zlen (c_newClasses c) = zlen newLines ∧
  (∀ i j, 0 <= i < zlen lines → 0 <= j < zlen lines → at_ ids i = at_ ids j ↔ at_ lines i = at_ lines j) ∧
  (∀ i id, at_ ids i = Some id →
     at_ (c_inOld c) id = Some (occurrences id (c_oldClasses c)) ∧
     at_ (c_inNew c) id = Some (occurrences id (c_newClasses c))).
Proof.
  cbv zeta. destruct (classify_classified oldLines newLines) as (reps & Hn & Ho & Hw & Hco & Hcn).
  assert (Forall2 (λ k id, at_ reps id = Some k) (oldLines ++ newLines)
    (c_oldClasses (classify oldLines newLines) ++ c_newClasses (classify oldLines newLines))) as Hall by by apply Forall2_app.
  split_and!; [by apply Forall2_zlen in Ho|by apply Forall2_zlen in Hw| |].
  - intros i j Hi Hj.
    destruct (Forall2_at _ _ _ i Hall) as (x & y & Hx & Hy & Hr); [by rewrite (Forall2_zlen _ _ _ Hall)|].
    destruct (Forall2_at _ _ _ j Hall) as (x' & y' & Hx' & Hy' & Hr'); [by rewrite (Forall2_zlen _ _ _ Hall)|].
    rewrite Hx, Hy, Hx', Hy'. split; intros [= ->]; f_equal; [congruence|]. by apply (at_inj reps _ _ x').
  - intros i id Hid. destruct (Forall2_at _ _ _ i Hall (at_bound _ _ _ Hid)) as (x & y & _ & Hy & Hr).
    assert (y = id) as -> by congruence. apply at_bound in Hr.
    split; [apply Hco|apply Hcn]; done.
Qed.
