(* ===== verification/Unified.v ===== *)
(** Unified hunks: src/packages/git/src/diff/unified.ts and index.ts.

    A hunk is kept as its header's numbers, its function name and its records; [hunk_text]
    is what the code writes for it.  [patch] is what a patch tool does with the hunks. *)

From S2P Require Import Prelude Utf8 Text Bytes Arrays Objects MyersState MyersCompare MyersPrepareFacts MyersScript Myers.

Definition FUNC_NAME_LIMIT : Z := 80.

Record UnifiedOptions := mkUnified { u_context : option Z; u_functionNames : option bool }.

(** A line of a hunk: its prefix and the line of the file. *)
Definition record : Type := Z * ustring.
Definition CONTEXT : Z := 0x20.
Definition REMOVED : Z := 0x2d.
Definition ADDED : Z := 0x2b.

Record Hunk := mkHunk {
  h_start1 : Z; h_count1 : Z; h_start2 : Z; h_count2 : Z; h_name : ustring; h_records : list record
}.

(** ** Text *)

Definition emitRecord (r : record) : ustring :=
  let '(prefix, line) := r in
  if bool_decide (last line = Some NEWLINE) then prefix :: line
  else prefix :: line ++ NEWLINE :: js "\ No newline at end of file" ++ [NEWLINE].

Definition hunk_range (start count : Z) : ustring :=
  if count =? 1 then number_string start
  else number_string (if count =? 0 then start - 1 else start) ++ js "," ++ number_string count.

Definition hunkHeader (start1 count1 start2 count2 : Z) (functionName : ustring) : ustring :=
  let suffix := match functionName with [] => [] | _ => SP :: functionName end in
  js "@@ -" ++ hunk_range start1 count1 ++ js " +" ++ hunk_range start2 count2 ++ js " @@" ++ suffix ++ [NEWLINE].

Definition hunk_text (h : Hunk) : ustring :=
  hunkHeader (h_start1 h + 1) (h_count1 h) (h_start2 h + 1) (h_count2 h) (h_name h) ++
  mjoin (emitRecord <$> h_records h).

(** ** Function names *)

Definition identifier_start (u : Z) : bool :=
  ((0x41 <=? u) && (u <=? 0x5a)) || ((0x61 <=? u) && (u <=? 0x7a)) || (u =? 0x5f) || (u =? 0x24).

(** [text.slice(0, 80).replace(/\s+$/, "")]. *)
Definition function_name (text : ustring) : ustring :=
  reverse (skip_space (reverse (slice text 0 FUNC_NAME_LIMIT))).

(** The loop leaves the lines after at most [length lines] steps. *)
Fixpoint findFunctionLine_loop (fuel : nat) (lines : list ustring) (line limit step : Z) : option ustring :=
  match fuel with
  | O => None
  | S fuel =>
      if negb (line =? limit) then
        match at_ lines line with
        | None => None
        | Some text =>
            match text with
            | first :: _ =>
                if identifier_start first then Some (function_name text)
                else findFunctionLine_loop fuel lines (line + step) limit step
            | [] => findFunctionLine_loop fuel lines (line + step) limit step
            end
        end
      else None
  end.
Definition findFunctionLine (lines : list ustring) (start limit : Z) : option ustring :=
  findFunctionLine_loop (length lines) lines start limit (if limit <? start then -1 else 1).

(** ** Hunks *)

Definition old_end (g : ChangeGroup) : Z := oldStart g + oldCount g.
Definition new_end (g : ChangeGroup) : Z := newStart g + newCount g.

(** The changes that share the hunk of [previous], and the others. *)
Fixpoint same_hunk (maxCommon : Z) (previous : ChangeGroup) (changes : list ChangeGroup) : list ChangeGroup * list ChangeGroup :=
  match changes with
  | [] => ([], [])
  | next :: rest =>
      if maxCommon <? oldStart next - old_end previous then ([], changes)
      else let '(run, rest) := same_hunk maxCommon next rest in (next :: run, rest)
  end.

Section unified.
  Context (oldLines newLines : list ustring).

Definition records (prefix : Z) (l : list ustring) : list record := pair prefix <$> l.

Definition change_records (g : ChangeGroup) : list record :=
  records REMOVED (slice oldLines (oldStart g) (old_end g)) ++ records ADDED (slice newLines (newStart g) (new_end g)).

(** The changes after the first, each behind its context. *)
Fixpoint run_records (previous : ChangeGroup) (run : list ChangeGroup) : list record :=
  match run with
  | [] => []
  | g :: run => records CONTEXT (slice newLines (new_end previous) (newStart g)) ++ change_records g ++ run_records g run
  end.

(** One pass of the outer loop. *)
Definition make_hunk (context : Z) (functionNames : bool) (search : Z) (name : ustring)
    (first : ChangeGroup) (run : list ChangeGroup) : Hunk * Z * ustring :=
  let final := default first (last run) in
  let start1 := Z.max (oldStart first - context) 0 in
  let start2 := Z.max (newStart first - context) 0 in
  let trailing := Z.min context (Z.min (zlen oldLines - old_end final) (zlen newLines - new_end final)) in
  let end1 := old_end final + trailing in
  let end2 := new_end final + trailing in
  let '(name, search) :=
    if functionNames
    then (default name (findFunctionLine oldLines (start1 - 1) search), start1 - 1)
    else (name, search) in
  (mkHunk start1 (end1 - start1) start2 (end2 - start2) name
     (records CONTEXT (slice newLines start2 (newStart first)) ++ change_records first ++ run_records first run ++
      records CONTEXT (slice newLines (new_end final) end2)), search, name).

Fixpoint hunks_loop (fuel : nat) (context : Z) (functionNames : bool) (search : Z) (name : ustring)
    (changes : list ChangeGroup) : list Hunk :=
  match fuel, changes with
  | S fuel, first :: rest =>
      let '(run, rest) := same_hunk (context * 2) first rest in
      let '(h, search, name) := make_hunk context functionNames search name first run in
      h :: hunks_loop fuel context functionNames search name rest
  | _, _ => []
  end.

Definition hunks (changes : list ChangeGroup) (options : UnifiedOptions) : list Hunk :=
  hunks_loop (length changes) (default 3 (u_context options)) (default true (u_functionNames options)) (-1) [] changes.

Definition unifiedHunks (changes : list ChangeGroup) (options : UnifiedOptions) : ustring :=
  mjoin (hunk_text <$> hunks changes options).

End unified.

(** ** Text diffs *)

Record TextDiff := mkTextDiff { changes : list ChangeGroup; insertions : Z; deletions : Z; t_hunks : ustring }.

Definition diffText (oldText newText : ustring) (options : UnifiedOptions) : option (outcome TextDiff) :=
  oldLines ← splitLines oldText;
  newLines ← splitLines newText;
  r ← diffLines oldLines newLines (mkOptions true None);
  Some (gs ← r;
        Ok (mkTextDiff gs (foldl (λ n g, n + newCount g) 0 gs) (foldl (λ n g, n + oldCount g) 0 gs)
              (match gs with [] => [] | _ => unifiedHunks oldLines newLines gs options end))).

Definition eitherIsBinary (before after : option bytes) : bool :=
  match before with Some b => isBinary b | None => false end ||
  match after with Some a => isBinary a | None => false end.

(** ** Applying hunks *)

(** The lines a hunk expects, and those it leaves. *)
Definition old_side (rs : list record) : list ustring := snd <$> base.filter (λ r, r.1 ≠ ADDED) rs.
Definition new_side_of (rs : list record) : list ustring := snd <$> base.filter (λ r, r.1 ≠ REMOVED) rs.

(** The lines from [pos] on of a file of which [out] lines are written, patched: each hunk
    must be at or after [pos], at the line numbers of both files its header gives, and find
    the lines it expects. *)
Fixpoint patch (old : list ustring) (pos out : Z) (hs : list Hunk) : option (list ustring) :=
  match hs with
  | [] => Some (slice_from old pos)
  | h :: hs =>
      let stop := h_start1 h + h_count1 h in
      if (pos <=? h_start1 h) && (stop <=? zlen old) && (h_start2 h - out =? h_start1 h - pos) &&
         bool_decide (old_side (h_records h) = slice old (h_start1 h) stop) &&
         (h_count2 h =? zlen (new_side_of (h_records h)))
      then rest ← patch old stop (h_start2 h + h_count2 h) hs;
           Some (slice old pos (h_start1 h) ++ new_side_of (h_records h) ++ rest)
      else None
  end.

(** * Lemmas *)

Lemma old_side_app a b : old_side (a ++ b) = old_side a ++ old_side b.
Proof. unfold old_side. by rewrite filter_app, fmap_app. Qed.
Lemma new_side_app a b : new_side_of (a ++ b) = new_side_of a ++ new_side_of b.
Proof. unfold new_side_of. by rewrite filter_app, fmap_app. Qed.

Lemma old_side_records p l : old_side (records p l) = if p =? ADDED then [] else l.
Proof.
  unfold old_side, records. induction l as [|x l IH]; [by destruct (p =? ADDED)|]. cbn [fmap list_fmap].
  rewrite filter_cons. cbn [fst]. destruct (p =? ADDED) eqn:E; zbool; case_decide; try done. cbn. f_equal. exact IH.
Qed.
Lemma new_side_records p l : new_side_of (records p l) = if p =? REMOVED then [] else l.
Proof.
  unfold new_side_of, records. induction l as [|x l IH]; [by destruct (p =? REMOVED)|]. cbn [fmap list_fmap].
  rewrite filter_cons. cbn [fst]. destruct (p =? REMOVED) eqn:E; zbool; case_decide; try done. cbn. f_equal. exact IH.
Qed.

Lemma same_hunk_app k g gs run rest :
  same_hunk k g gs = (run, rest) → gs = run ++ rest ∧
  (∀ h, head rest = Some h → k < oldStart h - old_end (default g (last run))).
Proof.
  revert g run rest. induction gs as [|h gs IH]; intros g run rest E; cbn [same_hunk] in E.
  { injection E as <- <-. done. }
  destruct (k <? oldStart h - old_end g) eqn:Ek; zbool.
  { injection E as <- <-. split; [done|]. intros ? [= <-]. done. }
  destruct (same_hunk k h gs) as [run' rest'] eqn:Es. injection E as <- <-.
  destruct (IH _ _ _ Es) as [-> Hr]. split; [done|]. intros h' Hh. specialize (Hr h' Hh).
  rewrite last_cons. by destruct (last run').
Qed.

(** Leaving out the end of a script. *)
Lemma script_ok_app n m first p q gs hs :
  script_ok n m first p q (gs ++ hs) → gs ≠ [] → ∃ g, last gs = Some g ∧ script_ok n m false (old_end g) (new_end g) hs.
Proof.
  revert first p q. induction gs as [|g gs IH]; intros first p q Hok Hne; [done|].
  destruct Hok as (_ & _ & _ & _ & _ & Hok). destruct gs as [|g' gs].
  - exists g. by split.
  - destruct (IH _ _ _ Hok) as (l & Hl & Hok'); [done|]. exists l. split; [|done]. by rewrite last_cons, Hl.
Qed.

Lemma agrees_app {A} (old new : list A) p q gs hs g :
  agrees old new p q (gs ++ hs) → last gs = Some g → agrees old new (old_end g) (new_end g) hs.
Proof.
  revert p q. induction gs as [|g0 gs IH]; intros p q Ha Hl; [done|]. destruct Ha as [_ Ha].
  destruct gs as [|g' gs]; [by injection Hl as ->|]. apply (IH _ _ Ha). by rewrite last_cons in Hl; destruct (last (g' :: gs)) eqn:E; [|by apply last_None in E].
Qed.

Section apply.
  Context (oldLines newLines : list ustring).
  Local Notation n := (zlen oldLines).
  Local Notation m := (zlen newLines).

Lemma slice_equal (p q a b u v : Z) :
  slice oldLines p a = slice newLines q b → 0 <= p <= a → a <= n → 0 <= q <= b → b <= m →
  a - p = b - q → 0 <= u <= v → v <= a - p → slice oldLines (p + u) (p + v) = slice newLines (q + u) (q + v).
Proof.
  intros E ? ? ? ? ? ? ?. rewrite <- (slice_slice oldLines p a), <- (slice_slice newLines q b) by lia. by rewrite E.
Qed.

(** Both sides of a change and of a run of changes. *)
Lemma change_sides g :
  old_side (change_records oldLines newLines g) = slice oldLines (oldStart g) (old_end g) ∧
  new_side_of (change_records oldLines newLines g) = slice newLines (newStart g) (new_end g).
Proof. unfold change_records. by rewrite old_side_app, new_side_app, !old_side_records, !new_side_records, app_nil_r. Qed.

Lemma run_sides g run rest :
  script_ok n m false (old_end g) (new_end g) (run ++ rest) →
  agrees oldLines newLines (old_end g) (new_end g) (run ++ rest) → 0 <= old_end g → 0 <= new_end g →
  let final := default g (last run) in
  old_side (run_records oldLines newLines g run) = slice oldLines (old_end g) (old_end final) ∧
  new_side_of (run_records oldLines newLines g run) = slice newLines (new_end g) (new_end final) ∧
  old_end g <= old_end final ∧ new_end g <= new_end final.
Proof.
  revert g. induction run as [|h run IH]; intros g Hok Hag Hg1 Hg2; cbn zeta.
  { cbn. rewrite !slice_empty. split_and!; (done || lia). }
  pose proof (script_ok_start _ _ _ _ _ _ _ Hok Hg1 Hg2) as [H1 H2].
  destruct Hok as (H3 & _ & H4 & H5 & _ & Hok). destruct Hag as [Hs Hag].
  pose proof (script_ok_end _ _ _ _ _ _ Hok) as [H6 H7].
  destruct (IH h) as (I1 & I2 & I3 & I4); [done|done|unfold old_end in *; lia|unfold new_end in *; lia|].
  rewrite last_cons. set (final := default h (last run)) in *.
  replace (default g (match last run with Some y => Some y | None => Some h end)) with final by (unfold final; by destruct (last run)).
  cbn [run_records]. rewrite !old_side_app, !new_side_app, !old_side_records, !new_side_records. change (CONTEXT =? ADDED) with false.
  change (CONTEXT =? REMOVED) with false. cbv iota. destruct (change_sides h) as [-> ->]. rewrite I1, I2, <- Hs.
  assert (script_ok n m false (old_end h) (new_end h) (run ++ rest)) as Hok' by exact Hok.
  assert (old_end final <= n ∧ new_end final <= m) as [F1 F2].
  { unfold final. destruct (decide (run = [])) as [->|Hne]; [unfold old_end, new_end in *; cbn; lia|].
    destruct (script_ok_app _ _ _ _ _ _ _ Hok' Hne) as (l & -> & Hl). apply script_ok_end in Hl. exact Hl. }
  unfold old_end, new_end in *. split_and!; [| |lia|lia].
  - rewrite (slice_cat oldLines (oldStart h)) by lia. apply slice_cat; lia.
  - rewrite Hs, (slice_cat newLines (newStart h)) by lia. apply slice_cat; lia.
Qed.

(** The lines before the next change, or the end, are the same. *)
Lemma agrees_head p q gs first a b :
  script_ok n m first p q gs → agrees oldLines newLines p q gs → 0 <= p → 0 <= q →
  a = from_option oldStart n (head gs) → b = from_option newStart m (head gs) →
  slice oldLines p a = slice newLines q b ∧ a - p = b - q ∧ p <= a <= n ∧ q <= b <= m.
Proof.
  intros Hok Ha Hp Hq -> ->. pose proof (script_ok_end _ _ _ _ _ _ Hok) as [He1 He2]. destruct gs as [|g gs]; cbn in *.
  - rewrite !slice_from_slice in Ha by lia. split_and!; (done || lia).
  - destruct Hok as (H1 & H2 & H3 & H4 & _ & H6). apply script_ok_end in H6. destruct Ha as [Ha _].
    split_and!; try done; destruct first; lia.
Qed.

Lemma patch_hunks fuel context fn search name first sp sq t gs :
  (length gs <= fuel)%nat → 0 <= context → script_ok n m first sp sq gs → agrees oldLines newLines sp sq gs →
  0 <= sp → 0 <= sq → 0 <= t <= context → sp + t <= n → sq + t <= m →
  (if first then sp = 0 ∧ sq = 0 ∧ t = 0 else ∀ g, head gs = Some g → context * 2 < oldStart g - sp) →
  slice oldLines sp (sp + t) = slice newLines sq (sq + t) →
  patch oldLines (sp + t) (sq + t) (hunks_loop oldLines newLines fuel context fn search name gs) =
    Some (slice_from newLines (sq + t)).
Proof.
  revert search name first sp sq t gs.
  induction fuel as [|fuel IH]; intros search name first sp sq t gs Hf Hc Hok Hag Hsp Hsq Ht Hn1 Hm1 Hfirst Htr.
  { destruct gs; [|cbn in Hf; lia]. cbn [hunks_loop patch]. f_equal. cbn in Hag, Hok.
    rewrite !slice_from_slice in * by lia. rewrite <- (slice_cat oldLines sp (sp + t)), <- (slice_cat newLines sq (sq + t)) in Hag by lia.
    rewrite Htr in Hag. by apply app_inv_head in Hag. }
  destruct gs as [|g gs].
  { cbn [hunks_loop patch]. f_equal. cbn in Hag, Hok.
    rewrite !slice_from_slice in * by lia. rewrite <- (slice_cat oldLines sp (sp + t)), <- (slice_cat newLines sq (sq + t)) in Hag by lia.
    rewrite Htr in Hag. by apply app_inv_head in Hag. }
  cbn [hunks_loop]. destruct (same_hunk (context * 2) g gs) as [run rest] eqn:Es.
  apply same_hunk_app in Es as [-> Hrest]. 
  destruct (agrees_head sp sq (g :: run ++ rest) first _ _ Hok Hag Hsp Hsq eq_refl eq_refl) as (Hs & Hd & Hp1 & Hq1).
  cbn [head from_option] in Hs, Hd, Hp1, Hq1.
  destruct Hok as (_ & Hgap & Hc1 & Hc2 & _ & Hok). destruct Hag as [_ Hag].
  destruct (run_sides g run rest) as (R1 & R2 & R3 & R4); [exact Hok|exact Hag|unfold old_end; lia|unfold new_end; lia|].
  set (final := default g (last run)) in *.
  assert (script_ok n m false (old_end final) (new_end final) rest ∧ agrees oldLines newLines (old_end final) (new_end final) rest) as [Hok' Hag'].
  { unfold final. destruct (last run) as [l|] eqn:El; [|apply last_None in El as ->; by cbn].
    cbn [default from_option id].
    destruct (script_ok_app _ _ _ _ _ run rest Hok) as (l' & El' & Hl'); [by intros ->|].
    assert (l' = l) as -> by congruence. split; [exact Hl'|]. by apply (agrees_app _ _ _ _ run rest l Hag). }
  destruct (agrees_head _ _ rest false _ _ Hok' Hag' ltac:(unfold old_end in *; lia) ltac:(unfold new_end in *; lia) eq_refl eq_refl)
    as (Hs' & Hd' & Hp2 & Hq2).
  unfold make_hunk. fold final.
  set (start1 := Z.max (oldStart g - context) 0). set (start2 := Z.max (newStart g - context) 0).
  set (trailing := Z.min context (Z.min (n - old_end final) (m - new_end final))).
  assert (0 <= trailing <= context ∧ trailing <= from_option oldStart n (head rest) - old_end final) as [Htr1 Htr2].
  { subst trailing. split; [lia|]. destruct rest as [|g' rest]; cbn [head from_option] in *; [lia|].
    specialize (Hrest g' eq_refl). fold final in Hrest. lia. }
  assert (oldStart g - start1 = newStart g - start2 ∧ 0 <= start1 <= oldStart g ∧ sp + t <= start1 ∧
    start2 - (sq + t) = start1 - (sp + t)) as (Hlead & Hst & Hpos & Hout).
  { subst start1 start2. destruct first; [destruct Hfirst as (-> & -> & ->); lia|].
    specialize (Hfirst g eq_refl). lia. }
  set (rs := records CONTEXT _ ++ _).
  assert (old_side rs = slice oldLines start1 (old_end final + trailing) ∧
    new_side_of rs = slice newLines start2 (new_end final + trailing)) as [Hold Hnew].
  { subst rs. rewrite !old_side_app, !new_side_app, !old_side_records, !new_side_records.
    change (CONTEXT =? ADDED) with false. change (CONTEXT =? REMOVED) with false. cbv iota.
    destruct (change_sides g) as [-> ->]. rewrite R1, R2.
    assert (slice oldLines start1 (oldStart g) = slice newLines start2 (newStart g)) as E1.
    { pose proof (slice_equal sp sq (oldStart g) (newStart g) (start1 - sp) (oldStart g - sp) Hs
        ltac:(lia) ltac:(lia) ltac:(lia) ltac:(lia) ltac:(lia) ltac:(lia) ltac:(lia)) as E.
      replace (sp + (start1 - sp)) with start1 in E by lia. replace (sp + (oldStart g - sp)) with (oldStart g) in E by lia.
      rewrite E. f_equal; lia. }
    assert (slice oldLines (old_end final) (old_end final + trailing) = slice newLines (new_end final) (new_end final + trailing)) as E2.
    { pose proof (slice_equal _ _ _ _ 0 trailing Hs' ltac:(unfold old_end in *; lia) ltac:(lia) ltac:(unfold new_end in *; lia)
        ltac:(lia) ltac:(lia) ltac:(lia) ltac:(lia)) as E. by rewrite !Z.add_0_r in E. }
    rewrite <- E2. unfold old_end, new_end in *. split.
    - rewrite <- E1, (slice_cat oldLines (oldStart g + oldCount g)), (slice_cat oldLines (oldStart g)) by lia.
      apply slice_cat; lia.
    - rewrite E2, (slice_cat newLines (newStart g + newCount g)), (slice_cat newLines (newStart g)) by lia.
      apply slice_cat; lia. }
  set (end1 := old_end final + trailing). set (end2 := new_end final + trailing).
  assert (∀ name' search', patch oldLines (sp + t) (sq + t)
    (mkHunk start1 (end1 - start1) start2 (end2 - start2) name' rs :: hunks_loop oldLines newLines fuel context fn search' name' rest) =
    Some (slice_from newLines (sq + t))) as Hmain; [|destruct fn; apply Hmain].
  intros name' search'. cbn [patch h_start1 h_count1 h_start2 h_count2 h_records].
  replace (start1 + (end1 - start1)) with end1 by lia. replace (start2 + (end2 - start2)) with end2 by lia.
  unfold old_end, new_end in *.
  rewrite bool_decide_eq_true_2 by exact Hold. rewrite Hnew, zlen_slice by lia. zdec.
  pose proof (IH search' name' false (oldStart final + oldCount final) (newStart final + newCount final) trailing rest) as IH'.
  fold end1 end2 in IH'.
  rewrite IH'; [|cbn [length] in Hf; rewrite length_app in Hf; lia|done|done|done|lia|lia|lia|lia|lia|exact Hrest|].
  2:{ pose proof (slice_equal _ _ _ _ 0 trailing Hs' ltac:(lia) ltac:(lia) ltac:(lia)
        ltac:(lia) ltac:(lia) ltac:(lia) ltac:(lia)) as E. by rewrite !Z.add_0_r in E. }
  cbn [mbind option_bind]. f_equal.
  pose proof (slice_equal sp sq (oldStart g) (newStart g) t (start1 - sp) Hs
    ltac:(lia) ltac:(lia) ltac:(lia) ltac:(lia) ltac:(lia) ltac:(lia) ltac:(lia)) as E.
  replace (sp + (start1 - sp)) with start1 in E by lia. replace (sq + (start1 - sp)) with start2 in E by lia.
  rewrite E, !slice_from_slice by lia. fold end2. rewrite (slice_cat newLines start2) by lia. apply slice_cat; lia.
Qed.

End apply.

(** * Splitting *)

(** Lines: newline-free bodies, each with its newline, which only the last may lack. *)
Fixpoint lines_ok (ls : list ustring) : Prop :=
  match ls with
  | [] => True
  | line :: ls =>
      (∃ body, (NEWLINE ∉ body) ∧ (line = body ++ [NEWLINE] ∨ line = body ∧ body ≠ [] ∧ ls = [])) ∧ lines_ok ls
  end.

Lemma find_newline_spec l i :
  match find_newline l i with
  | Some k => ∃ body rest, l = body ++ NEWLINE :: rest ∧ (NEWLINE ∉ body) ∧ k = i + zlen body
  | None => NEWLINE ∉ l
  end.
Proof.
  revert i. induction l as [|u l IH]; intros i; cbn [find_newline]; [apply not_elem_of_nil|].
  destruct (u =? NEWLINE) eqn:E; zbool.
  - subst. exists [], l. split_and!; [done|apply not_elem_of_nil|]. change (zlen []) with 0. lia.
  - specialize (IH (i + 1)). destruct (find_newline l (i + 1)) as [k|].
    + destruct IH as (body & rest & -> & Hb & ->). exists (u :: body), rest. split_and!; [done| |].
      * apply not_elem_of_cons. by split.
      * rewrite zlen_cons. lia.
    + apply not_elem_of_cons. by split.
Qed.

Lemma splitLines_loop_spec fuel text start ls :
  0 <= start < zlen text → zlen text - start <= Z.of_nat fuel →
  ∃ more, splitLines_loop fuel text start ls = Some (ls ++ more) ∧ mjoin more = slice_from text start ∧
    lines_ok more ∧ zlen more <= zlen text - start.
Proof.
  revert start ls. induction fuel as [|fuel IH]; intros start ls Hs Hf; [lia|]. cbn [splitLines_loop].
  unfold indexOf_newline. pose proof (find_newline_spec (slice_from text start) start) as Hi.
  assert (zlen (slice_from text start) = zlen text - start) as Hl.
  { rewrite slice_from_slice by lia. apply zlen_slice; lia. }
  destruct (find_newline (slice_from text start) start) as [k|].
  - destruct Hi as (body & rest & Heq & Hb & ->). rewrite Heq, zlen_app, zlen_cons in Hl.
    pose proof (zlen_nonneg body). pose proof (zlen_nonneg rest).
    assert (slice text start (start + zlen body + 1) = body ++ [NEWLINE]) as Hline.
    { assert (slice_from text start = (body ++ [NEWLINE]) ++ rest) as E by (rewrite Heq, <- app_assoc; done).
      unfold slice, slice_from in *. rewrite E. rewrite take_app_length'; [done|].
      rewrite length_app. unfold zlen. cbn. lia. }
    assert (slice_from text (start + zlen body + 1) = rest) as Hrest.
    { unfold slice_from in *. replace (Z.to_nat (start + zlen body + 1)) with (Z.to_nat start + length (body ++ [NEWLINE]))%nat
        by (rewrite length_app; unfold zlen; cbn; lia).
      rewrite <- drop_drop, Heq, (app_assoc body [NEWLINE] rest : body ++ NEWLINE :: rest = _). apply drop_app_length. }
    rewrite Hline. destruct (start + zlen body + 1 =? zlen text) eqn:E; zbool.
    + exists [body ++ [NEWLINE]]. split; [done|]. assert (rest = []) as ->.
      { destruct rest; [done|]. rewrite zlen_cons in *. pose proof (zlen_nonneg rest). lia. }
      rewrite Heq. split_and!; [cbn; by rewrite app_nil_r|cbn; split; [|done]; eauto|].
      rewrite zlen_cons. change (zlen []) with 0. lia.
    + destruct (IH (start + zlen body + 1) (ls ++ [body ++ [NEWLINE]])) as (more & -> & Hj & Hok & Hn); [lia..|].
      exists ((body ++ [NEWLINE]) :: more). rewrite <- app_assoc. split; [done|]. split_and!.
      * cbn [mjoin list_join]. rewrite Heq. change (mjoin more) with (mjoin more). rewrite Hrest in Hj.
        change ((body ++ [NEWLINE]) ++ mjoin more = body ++ NEWLINE :: rest). by rewrite Hj, <- app_assoc.
      * cbn. split; [eauto|done].
      * rewrite zlen_cons. lia.
  - exists [slice_from text start]. split; [done|]. split_and!.
    + cbn. apply app_nil_r.
    + cbn. split; [|done]. exists (slice_from text start). split; [done|]. right. split_and!; try done.
      intros E. rewrite E in Hl. change (zlen []) with 0 in Hl. lia.
    + rewrite zlen_cons. change (zlen []) with 0. lia.
Qed.

Lemma splitLines_spec text :
  ∃ ls, splitLines text = Some ls ∧ mjoin ls = text ∧ lines_ok ls ∧ zlen ls <= zlen text.
Proof.
  destruct text as [|u text]; [by exists []|].
  destruct (splitLines_loop_spec (length (u :: text)) (u :: text) 0 []) as (ls & E & H); [|by unfold zlen; lia|].
  { rewrite zlen_cons. pose proof (zlen_nonneg text). lia. }
  exists ls. split; [exact E|]. exact H.
Qed.

Lemma script_counts n m first p q gs :
  script_ok n m first p q gs → 
  ∀ i d, foldl (λ k g, k + newCount g) i gs - foldl (λ k g, k + oldCount g) d gs = (m - q) - (n - p) + (i - d).
Proof.
  revert first p q. induction gs as [|g gs IH]; intros first p q Hok i d; cbn [foldl]; [cbn in Hok; lia|].
  destruct Hok as (H1 & _ & _ & _ & _ & H2). rewrite (IH _ _ _ H2). lia.
Qed.

Lemma agrees_of_run {A} (old new : list A) first p q gs :
  script_ok (zlen old) (zlen new) first p q gs → 0 <= p → 0 <= q → run_script old new p gs = slice_from new q →
  agrees old new p q gs.
Proof.
  revert first p q. induction gs as [|g gs IH]; intros first p q Hok Hp Hq Hr; cbn [agrees run_script] in *; [done|].
  pose proof (script_ok_start _ _ _ _ _ _ _ Hok Hp Hq) as [H1 H2].
  destruct Hok as (H0 & _ & H3 & H4 & _ & Hok). pose proof (script_ok_end _ _ _ _ _ _ Hok) as [H5 H6].
  rewrite slice_from_slice in Hr by lia.
  rewrite <- (slice_cat new q (newStart g)), <- (slice_cat new (newStart g) (newStart g + newCount g) (zlen new)) in Hr by lia.
  apply app_inj_1 in Hr as [Hr1 Hr2].
  - split; [done|]. apply app_inv_head in Hr2. apply (IH false); [done|lia|lia|]. by rewrite slice_from_slice by lia.
  - apply Nat2Z.inj. change (zlen (slice old p (oldStart g)) = zlen (slice new q (newStart g))). rewrite !zlen_slice by lia. lia.
Qed.

Lemma hunks_apply (oldLines newLines : list ustring) gs options :
  script_ok (zlen oldLines) (zlen newLines) true 0 0 gs → run_script oldLines newLines 0 gs = newLines →
  0 <= default 3 (u_context options) → patch oldLines 0 0 (hunks oldLines newLines gs options) = Some newLines.
Proof.
  intros Hok Hrun Hc. pose proof (zlen_nonneg oldLines). pose proof (zlen_nonneg newLines).
  assert (agrees oldLines newLines 0 0 gs) as Hag by (eapply agrees_of_run; [exact Hok|lia|lia|exact Hrun]).
  pose proof (patch_hunks oldLines newLines (length gs) (default 3 (u_context options)) (default true (u_functionNames options))
    (-1) [] true 0 0 0 gs) as Hp. unfold hunks. apply Hp; (done || lia).
Qed.

(** * Properties *)

(** [splitLines] cuts a text into the lines git records: joined they are the text, no
    line holds a newline but at its end, none is empty, and only the last may lack it. *)
Theorem splitLines_correct (text : ustring) :
  ∃ ls, splitLines text = Some ls ∧ mjoin ls = text ∧ lines_ok ls.
Proof. destruct (splitLines_spec text) as (ls & ? & ? & ? & _). eauto. Qed.

(** The hunks of any script of [diffLines] apply: taken in order, each stands at the line
    numbers its header gives in both files, its context and removed lines are the lines of
    the old file there, its counts are the lines it has, and the patched file is the new one,
    for every context width and whether or not function names are printed. *)
Theorem unified_hunks_apply (oldLines newLines : list ustring) (gs : list ChangeGroup) (options : UnifiedOptions) :
  script_ok (zlen oldLines) (zlen newLines) true 0 0 gs → run_script oldLines newLines 0 gs = newLines →
  0 <= default 3 (u_context options) →
  patch oldLines 0 0 (hunks oldLines newLines gs options) = Some newLines.
Proof. apply hunks_apply. Qed.

Lemma unified_hunks_apply_witness :
  let gs := [mkGroup 0 2 0 0; mkGroup 3 1 1 0; mkGroup 5 0 2 1; mkGroup 7 0 5 1] in
  length (hunks example_old example_new gs (mkUnified (Some 0) None)) = 4%nat ∧
  patch example_old 0 0 (hunks example_old example_new gs (mkUnified (Some 0) None)) = Some example_new.
Proof.
  cbv zeta. split; [vm_compute; reflexivity|].
  apply (unified_hunks_apply example_old example_new [mkGroup 0 2 0 0; mkGroup 3 1 1 0; mkGroup 5 0 2 1; mkGroup 7 0 5 1]
    (mkUnified (Some 0) None)).
  - cbn. vm_compute. intuition congruence.
  - vm_compute. reflexivity.
  - vm_compute. congruence.
Defined.


