(* ===== verification/XmergeInput.v ===== *)
(** Three-way text merges, their limits and inputs: xmerge-types.ts, xmerge-helpers.ts,
    xmerge-input.ts and xmerge-memory.ts of src/packages/git/src/diff/. *)

From S2P Require Import Prelude Utf8 Text Bytes Arrays Objects MyersState.

(** * Types *)

Definition MIB : Z := 1024 * 1024.
Definition DEFAULT_MARKER_SIZE : Z := 7.
Definition LINE_RECORD_BYTES : Z := 96.
Definition DIFF_LINE_BYTES : Z := 320.
Definition CHANGE_BYTES : Z := 192.
Definition MERGE_BYTES : Z := 256.
Definition FIXED_MERGE_BYTES : Z := 4096.

(** The fields of [TextMergeLimits], in the order the code resolves them. *)
Inductive LimitName : Type :=
| maxInputBytes | maxTotalInputBytes | maxLineBytes | maxLines | maxChangeGroups | maxConflicts
| maxConflictBytes | maxLabelBytes | maxMarkerSize | maxOutputBytes | maxMemoryBytes.

#[export] Instance LimitName_eq_dec : EqDecision LimitName.
Proof. solve_decision. Defined.

Definition all_limits : list LimitName :=
  [maxInputBytes; maxTotalInputBytes; maxLineBytes; maxLines; maxChangeGroups; maxConflicts;
   maxConflictBytes; maxLabelBytes; maxMarkerSize; maxOutputBytes; maxMemoryBytes].

Definition limit_name (l : LimitName) : ustring :=
  js (match l with
      | maxInputBytes => "maxInputBytes" | maxTotalInputBytes => "maxTotalInputBytes"
      | maxLineBytes => "maxLineBytes" | maxLines => "maxLines" | maxChangeGroups => "maxChanges"
      | maxConflicts => "maxConflicts" | maxConflictBytes => "maxConflictBytes"
      | maxLabelBytes => "maxLabelBytes" | maxMarkerSize => "maxMarkerSize"
      | maxOutputBytes => "maxOutputBytes" | maxMemoryBytes => "maxMemoryBytes"
      end).

Notation TextMergeLimits := (LimitName → Z) (only parsing).

Definition DEFAULT_TEXT_MERGE_LIMITS (l : LimitName) : Z :=
  match l with
  | maxInputBytes => 8 * MIB
  | maxTotalInputBytes => 24 * MIB
  | maxLineBytes => 8 * MIB
  | maxLines => 200000
  | maxChangeGroups => 100000
  | maxConflicts => 20000
  | maxConflictBytes => 16 * MIB
  | maxLabelBytes => 256
  | maxMarkerSize => 64
  | maxOutputBytes => 32 * MIB
  | maxMemoryBytes => 64 * MIB
  end.

Record Labels {A : Type} := mkLabels { l_current : option A; l_base : option A; l_incoming : option A }.
Arguments Labels : clear implicits.
Arguments mkLabels {A} _ _ _.

(** The optional fields of [TextMergeOptions], with style and refinement as the strings a
    caller passes. *)
Record TextMergeOptions := mkTextMergeOptions {
  o_style : option ustring; o_refinement : option ustring; o_labels : Labels ustring;
  o_markerSize : option Z; o_indentHeuristic : option bool; o_limits : LimitName → option Z
}.

Inductive TextMergeStyle := Merge | Diff3 | Zdiff3.
Inductive TextMergeRefinement := Eager | Zealous | ZealousAlnum.

#[export] Instance TextMergeStyle_eq_dec : EqDecision TextMergeStyle.
Proof. solve_decision. Defined.
#[export] Instance TextMergeRefinement_eq_dec : EqDecision TextMergeRefinement.
Proof. solve_decision. Defined.

Record ResolvedOptions := mkResolved {
  style : TextMergeStyle; refinement : TextMergeRefinement; labels : Labels bytes;
  markerSize : Z; r_indentHeuristic : bool; limits : TextMergeLimits
}.

Record TextMergeMemoryEstimate := mkEstimate {
  inputBytes : Z; estimateLines : Z; lineTableBytes : Z; diffWorkspaceBytes : Z; changeListBytes : Z;
  mergeListBytes : Z; outputBytes : Z; fixedBytes : Z; peakBytes : Z
}.

Record InputInfo := mkInputInfo { info_lines : Z; maxLine : Z }.

Record MergeRegion := mkRegion {
  mode : Z; baseStart : Z; baseCount : Z; currentStart : Z; currentCount : Z; incomingStart : Z; incomingCount : Z
}.

(** * Helpers *)

Fixpoint bytesEqual_loop (fuel : nat) (l r : bytes) (index : Z) : bool :=
  match fuel with
  | O => true
  | S fuel =>
      if index <? zlen l then
        if bool_decide (at_ l index = at_ r index) then bytesEqual_loop fuel l r (index + 1) else false
      else true
  end.
Definition bytesEqual (l r : bytes) : bool :=
  if negb (zlen l =? zlen r) then false else bytesEqual_loop (length l) l r 0.

Definition identityMergeContent (base current incoming : bytes) : option bytes :=
  if bytesEqual current incoming then Some current
  else if bytesEqual base current then Some incoming
  else if bytesEqual base incoming then Some current
  else None.

Definition byteLength (bs : option bytes) : Z := from_option zlen 0 bs.

Definition tooBig (resource : string) (limit : Z) : jserror :=
  GitError (js "E2BIG") (js resource ++ js " exceeds " ++ number_string limit).

Definition unsafe_capacity (resource : string) : jserror :=
  GitError (js "E2BIG") (js "text merge " ++ js resource ++ js " exceeds safe capacity").

Fixpoint checkedSum_from (sum : Z) (values : list Z) (resource : string) : outcome Z :=
  match values with
  | [] => Ok sum
  | value :: values =>
      let sum := sum + value in
      if negb (isSafeInteger sum) then Throw (unsafe_capacity resource) else checkedSum_from sum values resource
  end.
Definition checkedSum (values : list Z) (resource : string) : outcome Z := checkedSum_from 0 values resource.

Definition addSize (size addition limit : Z) : outcome Z :=
  next ← checkedSum [size; addition] "output";
  if limit <? next then Throw (tooBig "text merge output" limit) else Ok next.

Definition safeProduct (l r : Z) (resource : string) : outcome Z :=
  let product := l * r in
  if negb (isSafeInteger product) then Throw (unsafe_capacity resource) else Ok product.

(** * Options *)

Definition not_natural (l : LimitName) : jserror :=
  GitError (js "EINVAL") (js "text merge " ++ limit_name l ++ js " must be a non-negative safe integer").

Definition cappedLimit (l : LimitName) (value : option Z) (ceiling : Z) : outcome Z :=
  match value with
  | None => Ok ceiling
  | Some value =>
      if negb (isSafeInteger value) || (value <? 0) then Throw (not_natural l)
      else if ceiling <? value then
        Throw (GitError (js "EINVAL") (js "text merge " ++ limit_name l ++ js " exceeds its hard ceiling of " ++ number_string ceiling))
      else Ok value
  end.

Fixpoint capped_limits (ls : list LimitName) (partial : LimitName → option Z) (acc : TextMergeLimits) : outcome TextMergeLimits :=
  match ls with
  | [] => Ok acc
  | l :: ls =>
      v ← cappedLimit l (partial l) (DEFAULT_TEXT_MERGE_LIMITS l);
      capped_limits ls partial (λ k, if decide (k = l) then v else acc k)
  end.

(** [for (const [name, value] of Object.entries(limits)) …]. *)
Fixpoint check_limits (ls : list LimitName) (limits : TextMergeLimits) : outcome unit :=
  match ls with
  | [] => Ok tt
  | l :: ls =>
      if negb (isSafeInteger (limits l)) || (limits l <? 0) then Throw (not_natural l) else check_limits ls limits
  end.

Definition resolve_style (s : ustring) : outcome TextMergeStyle :=
  if bool_decide (s = js "merge") then Ok Merge
  else if bool_decide (s = js "diff3") then Ok Diff3
  else if bool_decide (s = js "zdiff3") then Ok Zdiff3
  else Throw (GitError (js "EINVAL") (js "unknown text merge style: " ++ s)).

Definition resolve_refinement (s : ustring) : outcome TextMergeRefinement :=
  if bool_decide (s = js "eager") then Ok Eager
  else if bool_decide (s = js "zealous") then Ok Zealous
  else if bool_decide (s = js "zealous-alnum") then Ok ZealousAlnum
  else Throw (GitError (js "EINVAL") (js "unknown text merge refinement: " ++ s)).

Definition label_error (role reason : string) : jserror :=
  GitError (js "EINVAL") (js "text merge " ++ js role ++ js " label contains " ++ js reason).

(** The scan of a label; [charCodeAt] past its end is [NaN], which is neither below nor above
    the low surrogates. *)
Fixpoint scan_label (label : ustring) (role : string) (limit count : Z) : outcome unit :=
  match label with
  | [] => Ok tt
  | unit :: rest =>
      let step count k := if limit <? count then Throw (GitError (js "E2BIG") (js "text merge " ++ js role ++ js " label exceeds " ++ number_string limit)) else k count in
      if (unit =? 0) || (unit =? 0x0a) || (unit =? 0x0d) then Throw (label_error role "a structural control byte")
      else if (0xd800 <=? unit) && (unit <=? 0xdbff) then
        match rest with
        | [] => step (count + 4) (λ _, Ok tt)
        | next :: rest' =>
            if (next <? 0xdc00) || (0xdfff <? next) then Throw (label_error role "an unpaired surrogate")
            else step (count + 4) (λ count, scan_label rest' role limit count)
        end
      else if (0xdc00 <=? unit) && (unit <=? 0xdfff) then Throw (label_error role "an unpaired surrogate")
      else step (count + (if unit <? 0x80 then 1 else if unit <? 0x800 then 2 else 3))
             (λ count, scan_label rest role limit count)
  end.

Definition encodeLabel (label : option ustring) (role : string) (limit : Z) : outcome (option bytes) :=
  match label with
  | None => Ok None
  | Some label => _ ← scan_label label role limit 0; Ok (Some (encode label))
  end.

Definition resolveOptions (options : TextMergeOptions) : outcome ResolvedOptions :=
  limits ← capped_limits all_limits (o_limits options) DEFAULT_TEXT_MERGE_LIMITS;
  _ ← check_limits all_limits limits;
  let markerSize := default DEFAULT_MARKER_SIZE (o_markerSize options) in
  style ← resolve_style (default (js "merge") (o_style options));
  refinement ← resolve_refinement (default (js "zealous-alnum") (o_refinement options));
  if negb (isSafeInteger markerSize) || (markerSize <=? 0)
  then Throw (GitErr "EINVAL" "text merge marker size must be a positive safe integer")
  else if limits maxMarkerSize <? markerSize
  then Throw (tooBig "text merge marker size" (limits maxMarkerSize))
  else
    current ← encodeLabel (l_current (o_labels options)) "current" (limits maxLabelBytes);
    base ← encodeLabel (l_base (o_labels options)) "base" (limits maxLabelBytes);
    incoming ← encodeLabel (l_incoming (o_labels options)) "incoming" (limits maxLabelBytes);
    Ok (mkResolved style refinement (mkLabels current base incoming) markerSize
          (default false (o_indentHeuristic options)) limits).

(** * Inputs *)

Fixpoint scan_lines (input : bytes) (index start count longest : Z) : Z * Z * Z :=
  match input with
  | [] => (start, count, longest)
  | b :: input =>
      if b =? 0x0a then scan_lines input (index + 1) (index + 1) (count + 1) (Z.max longest (index + 1 - start))
      else scan_lines input (index + 1) start count longest
  end.
Definition scanInput (input : bytes) : InputInfo :=
  let '(start, count, longest) := scan_lines input 0 0 0 0 in
  if start <? zlen input then mkInputInfo (count + 1) (Z.max longest (zlen input - start))
  else mkInputInfo count longest.

Fixpoint all_within (values : list Z) (limit : Z) (e : jserror) : outcome unit :=
  match values with
  | [] => Ok tt
  | v :: values => if limit <? v then Throw e else all_within values limit e
  end.

Definition validateAndScanInputs (base current incoming : bytes) (limits : TextMergeLimits)
    : outcome (InputInfo * InputInfo * InputInfo) :=
  _ ← all_within [zlen base; zlen current; zlen incoming] (limits maxInputBytes) (tooBig "text merge input" (limits maxInputBytes));
  total ← checkedSum [zlen base; zlen current; zlen incoming] "input";
  if limits maxTotalInputBytes <? total then Throw (tooBig "text merge total input" (limits maxTotalInputBytes))
  else
    let b := scanInput base in let c := scanInput current in let i := scanInput incoming in
    lines ← checkedSum [info_lines b; info_lines c; info_lines i] "line count";
    if limits maxLines <? lines then Throw (tooBig "text merge line count" (limits maxLines))
    else
      _ ← all_within [maxLine b; maxLine c; maxLine i] (limits maxLineBytes) (tooBig "text merge line" (limits maxLineBytes));
      Ok (b, c, i).

Fixpoint split_records (all rest : bytes) (index start : Z) : list ByteRecord :=
  match rest with
  | [] => if start <? zlen all then [mkByteRecord all start (zlen all)] else []
  | b :: rest =>
      if b =? 0x0a then mkByteRecord all start (index + 1) :: split_records all rest (index + 1) (index + 1)
      else split_records all rest (index + 1) start
  end.
Definition splitByteRecords (bs : bytes) : list ByteRecord :=
  match bs with [] => [] | _ => split_records bs bs 0 0 end.

(** * Memory *)

Definition memoryEstimate (inputBytes lines activeDiffLines changes merges outputBytes : Z) (options : ResolvedOptions)
    : outcome TextMergeMemoryEstimate :=
  lineTableBytes ← safeProduct lines LINE_RECORD_BYTES "line table";
  diffWorkspaceBytes ← safeProduct activeDiffLines DIFF_LINE_BYTES "diff workspace";
  changeListBytes ← safeProduct changes CHANGE_BYTES "change list";
  mergeListBytes ← safeProduct merges MERGE_BYTES "merge list";
  fixedBytes ← checkedSum [FIXED_MERGE_BYTES; byteLength (l_current (labels options)); byteLength (l_base (labels options));
                           byteLength (l_incoming (labels options))] "fixed state";
  peakBytes ← checkedSum [inputBytes; lineTableBytes; diffWorkspaceBytes; changeListBytes; mergeListBytes; outputBytes; fixedBytes]
                "memory estimate";
  if limits options maxMemoryBytes <? peakBytes then Throw (tooBig "text merge memory" (limits options maxMemoryBytes))
  else Ok (mkEstimate inputBytes lines lineTableBytes diffWorkspaceBytes changeListBytes mergeListBytes outputBytes fixedBytes peakBytes).

Definition estimateResolvedTextMergeMemory (base current incoming : bytes) (resolved : ResolvedOptions)
    : outcome TextMergeMemoryEstimate :=
  '(b, c, i) ← validateAndScanInputs base current incoming (limits resolved);
  inputBytes ← checkedSum [zlen base; zlen current; zlen incoming] "input";
  if isBinary base || isBinary current || isBinary incoming then memoryEstimate inputBytes 0 0 0 0 0 resolved
  else
    match identityMergeContent base current incoming with
    | Some identity =>
        if limits resolved maxOutputBytes <? zlen identity
        then Throw (tooBig "text merge output" (limits resolved maxOutputBytes))
        else memoryEstimate inputBytes 0 0 0 0 0 resolved
    | None =>
        lines ← checkedSum [info_lines b; info_lines c; info_lines i] "line count";
        let leftDiffLines := info_lines b + info_lines c in
        let rightDiffLines := info_lines b + info_lines i in
        let refinementDiffLines := info_lines c + info_lines i in
        let potentialChanges := Z.min (limits resolved maxChangeGroups) (leftDiffLines + rightDiffLines + 2) in
        let potentialMerges := potentialChanges in
        let potentialConflicts := Z.min (limits resolved maxConflicts) potentialMerges in
        let labelBytes := byteLength (l_current (labels resolved)) + byteLength (l_base (labels resolved)) +
                          byteLength (l_incoming (labels resolved)) in
        let markerLines := if decide (style resolved = Merge) then 3 else 4 in
        let markerOverhead := potentialConflicts * (markerLines * (markerSize resolved + 3) + labelBytes) in
        let sourceOutput := zlen current + zlen incoming + (if decide (style resolved = Merge) then 0 else zlen base) in
        output ← checkedSum [sourceOutput; markerOverhead; potentialConflicts * markerLines] "output estimate";
        memoryEstimate inputBytes lines (Z.max leftDiffLines (Z.max rightDiffLines refinementDiffLines))
          potentialChanges potentialMerges (Z.min (limits resolved maxOutputBytes) output) resolved
    end.

Definition estimateTextMergeMemory (base current incoming : bytes) (options : TextMergeOptions) : outcome TextMergeMemoryEstimate :=
  resolved ← resolveOptions options;
  estimateResolvedTextMergeMemory base current incoming resolved.
