(* ===== verification/XmergeRegions.v ===== *)
(** Regions of a three-way merge: src/packages/git/src/diff/xmerge-regions.ts.

    The changes are the suffixes of the two lists that the code's indices have not passed. *)

From S2P Require Import Prelude Arrays MyersState MyersPrepare MyersPrepareFacts Myers XmergeInput.

(** Computations that may not end and may throw. *)
Definition fallible (A : Type) : Type := option (outcome A).
#[export] Instance fallible_ret : MRet fallible := λ A a, Some (Ok a).
#[export] Instance fallible_bind : MBind fallible := λ A B f m,
  match m with
  | Some (Ok a) => f a
  | Some (Throw e) => Some (Throw e)
  | None => None
  end.
Definition total {A} (o : outcome A) : fallible A := Some o.

Definition conflict_error (maxConflicts : Z) : jserror := tooBig "text merge conflict count" maxConflicts.
Definition change_error (maxChanges : Z) : jserror := tooBig "text merge refined change list" maxChanges.

(** * Building *)

Definition set_mode (r : MergeRegion) (mode : Z) : MergeRegion :=
  mkRegion mode (baseStart r) (baseCount r) (currentStart r) (currentCount r) (incomingStart r) (incomingCount r).

(** [regions[regions.length - 1]] replaced. *)
Definition set_last (regions : list MergeRegion) (r : MergeRegion) : list MergeRegion :=
  removelast regions ++ [r].

Definition appendRegion (regions : list MergeRegion) (conflicts max : Z) (region : MergeRegion)
    : outcome (list MergeRegion * Z) :=
  match last regions with
  | Some previous =>
      if (currentStart region <=? currentStart previous + currentCount previous) ||
         (incomingStart region <=? incomingStart previous + incomingCount previous)
      then
        let extend (mode : Z) :=
          mkRegion mode (baseStart previous) (baseStart region + baseCount region - baseStart previous)
            (currentStart previous) (currentStart region + currentCount region - currentStart previous)
            (incomingStart previous) (incomingStart region + incomingCount region - incomingStart previous) in
        if negb (mode region =? mode previous) && negb (mode previous =? 0) then
          if max <=? conflicts then Throw (conflict_error max)
          else Ok (set_last regions (extend 0), conflicts + 1)
        else Ok (set_last regions (extend (mode previous)), conflicts)
      else if mode region =? 0 then
        if max <=? conflicts then Throw (conflict_error max) else Ok (regions ++ [region], conflicts + 1)
      else Ok (regions ++ [region], conflicts)
  | None =>
      if mode region =? 0 then
        if max <=? conflicts then Throw (conflict_error max) else Ok (regions ++ [region], conflicts + 1)
      else Ok (regions ++ [region], conflicts)
  end.

Section lines.
  Context (current incoming : list ByteRecord).

(** [byteRecordsEqual(a[i]!, b[j]!)] of lines that are there. *)
Definition lines_equal (i j : Z) : bool :=
  match at_ current i, at_ incoming j with
  | Some a, Some b => byteRecordsEqual a b
  | _, _ => false
  end.

Definition sameChange (l r : ChangeGroup) : bool :=
  if negb (oldStart l =? oldStart r) || negb (oldCount l =? oldCount r) || negb (newCount l =? newCount r) then false
  else forallb (λ index, lines_equal (newStart l + index) (newStart r + index)) (seqZ 0 (newCount l)).

Definition overlapRegion (l r : ChangeGroup) : MergeRegion :=
  let offset := oldStart l - oldStart r in
  let finalOffset := offset + oldCount l - oldCount r in
  let '(baseStart, currentStart, incomingStart) :=
    if 0 <? offset then (oldStart l - offset, newStart l - offset, newStart r)
    else (oldStart l, newStart l, newStart r + offset) in
  let baseCount := oldStart l + oldCount l - baseStart in
  let currentCount := newStart l + newCount l - currentStart in
  let incomingCount := newStart r + newCount r - incomingStart in
  let '(baseCount, currentCount, incomingCount) :=
    if finalOffset <? 0 then (baseCount - finalOffset, currentCount - finalOffset, incomingCount)
    else (baseCount, currentCount, incomingCount + finalOffset) in
  mkRegion 0 baseStart baseCount currentStart currentCount incomingStart incomingCount.

(** The changes one side has left when the other has none. *)
Fixpoint rest_current (changes : list ChangeGroup) (shift : Z) (regions : list MergeRegion) (conflicts max : Z)
    : outcome (list MergeRegion * Z) :=
  match changes with
  | [] => Ok (regions, conflicts)
  | c :: changes =>
      '(regions, conflicts) ← appendRegion regions conflicts max
        (mkRegion 1 (oldStart c) (oldCount c) (newStart c) (newCount c) (oldStart c + shift) (oldCount c));
      rest_current changes shift regions conflicts max
  end.

Fixpoint rest_incoming (changes : list ChangeGroup) (shift : Z) (regions : list MergeRegion) (conflicts max : Z)
    : outcome (list MergeRegion * Z) :=
  match changes with
  | [] => Ok (regions, conflicts)
  | c :: changes =>
      '(regions, conflicts) ← appendRegion regions conflicts max
        (mkRegion 2 (oldStart c) (oldCount c) (oldStart c + shift) (oldCount c) (newStart c) (newCount c));
      rest_incoming changes shift regions conflicts max
  end.

(** The loop over both lists: each pass drops a change of one of them, so the fuel is their
    length. *)
Fixpoint merge_loop (fuel : nat) (ls rs : list ChangeGroup) (regions : list MergeRegion) (conflicts max : Z)
    : outcome (list ChangeGroup * list ChangeGroup * list MergeRegion * Z) :=
  match fuel, ls, rs with
  | S fuel, l :: ls', r :: rs' =>
      if oldStart l + oldCount l <? oldStart r then
        '(regions, conflicts) ← appendRegion regions conflicts max
          (mkRegion 1 (oldStart l) (oldCount l) (newStart l) (newCount l)
             (newStart r - oldStart r + oldStart l) (oldCount l));
        merge_loop fuel ls' rs regions conflicts max
      else if oldStart r + oldCount r <? oldStart l then
        '(regions, conflicts) ← appendRegion regions conflicts max
          (mkRegion 2 (oldStart r) (oldCount r) (newStart l - oldStart l + oldStart r) (oldCount r)
             (newStart r) (newCount r));
        merge_loop fuel ls rs' regions conflicts max
      else
        '(regions, conflicts) ←
          (if negb (sameChange l r) then appendRegion regions conflicts max (overlapRegion l r) else Ok (regions, conflicts));
        let leftEnd := oldStart l + oldCount l in
        let rightEnd := oldStart r + oldCount r in
        merge_loop fuel (if leftEnd <=? rightEnd then ls' else ls) (if rightEnd <=? leftEnd then rs' else rs)
          regions conflicts max
  | _, _, _ => Ok (ls, rs, regions, conflicts)
  end.

Definition buildMergeRegions (ls rs : list ChangeGroup) (baseLineCount currentLineCount incomingLineCount max : Z)
    : outcome (list MergeRegion) :=
  '(ls, rs, regions, conflicts) ← merge_loop (length ls + length rs) ls rs [] 0 max;
  '(regions, conflicts) ← rest_current ls (incomingLineCount - baseLineCount) regions conflicts max;
  '(regions, _) ← rest_incoming rs (currentLineCount - baseLineCount) regions conflicts max;
  Ok regions.

(** * Refining *)

Fixpoint push_refined (region : MergeRegion) (changes : list ChangeGroup) (refined : list MergeRegion) (conflicts max : Z)
    : outcome (list MergeRegion * Z) :=
  match changes with
  | [] => Ok (refined, conflicts)
  | c :: changes =>
      if max <=? conflicts then Throw (conflict_error max)
      else push_refined region changes
             (refined ++ [mkRegion 0 (baseStart region) (baseCount region)
                            (currentStart region + oldStart c) (oldCount c)
                            (incomingStart region + newStart c) (newCount c)])
             (conflicts + 1) max
  end.

Fixpoint refine_loop (regions : list MergeRegion) (maxChanges max : Z) (indentHeuristic : bool)
    (refined : list MergeRegion) (conflicts : Z) : fallible (list MergeRegion) :=
  match regions with
  | [] => mret refined
  | region :: regions =>
      if negb (mode region =? 0) || (currentCount region =? 0) || (incomingCount region =? 0) then
        if maxChanges <=? zlen refined then total (Throw (change_error maxChanges))
        else if mode region =? 0 then
          if max <=? conflicts then total (Throw (conflict_error max))
          else refine_loop regions maxChanges max indentHeuristic (refined ++ [region]) (conflicts + 1)
        else refine_loop regions maxChanges max indentHeuristic (refined ++ [region]) conflicts
      else
        changes ← (diffByteRecords
          (slice current (currentStart region) (currentStart region + currentCount region))
          (slice incoming (incomingStart region) (incomingStart region + incomingCount region))
          (mkOptions indentHeuristic (Some (Z.min (maxChanges - zlen refined) (max - conflicts)))) : fallible (list ChangeGroup));
        if maxChanges <? zlen refined + zlen changes then total (Throw (change_error maxChanges))
        else if zlen changes =? 0 then
          if maxChanges <=? zlen refined then total (Throw (change_error maxChanges))
          else refine_loop regions maxChanges max indentHeuristic (refined ++ [set_mode region 4]) conflicts
        else
          '(refined, conflicts) ← total (push_refined region changes refined conflicts max);
          refine_loop regions maxChanges max indentHeuristic refined conflicts
  end.
Definition refineConflicts (regions : list MergeRegion) (maxChanges max : Z) (indentHeuristic : bool) : fallible (list MergeRegion) :=
  refine_loop regions maxChanges max indentHeuristic [] 0.

(** * Simplifying *)

Definition is_alnum (byte : Z) : bool :=
  ((0x30 <=? byte) && (byte <=? 0x39)) || ((0x41 <=? byte) && (byte <=? 0x5a)) || ((0x61 <=? byte) && (byte <=? 0x7a)).

Definition linesContainAsciiAlnum (lines : list ByteRecord) (start count : Z) : bool :=
  existsb (λ line,
    match at_ lines line with
    | Some record =>
        existsb (λ index, match at_ (r_bytes record) index with Some byte => is_alnum byte | None => false end)
          (seqZ (r_start record) (r_end record - r_start record))
    | None => false
    end) (seqZ start count).

Fixpoint simplify_loop (regions : list MergeRegion) (simplifyIfNoAlnum : bool) (simplified : list MergeRegion) : list MergeRegion :=
  match regions with
  | [] => simplified
  | region :: regions =>
      let push := simplify_loop regions simplifyIfNoAlnum (simplified ++ [region]) in
      match last simplified with
      | None => push
      | Some previous =>
          if negb (mode previous =? 0) || negb (mode region =? 0) then push
          else
            let begin := currentStart previous + currentCount previous in
            let stop := currentStart region in
            if (3 <? stop - begin) && (negb simplifyIfNoAlnum || linesContainAsciiAlnum current begin (stop - begin)) then push
            else
              simplify_loop regions simplifyIfNoAlnum
                (set_last simplified
                   (mkRegion (mode previous) (baseStart previous) (baseCount previous)
                      (currentStart previous) (currentStart region + currentCount region - currentStart previous)
                      (incomingStart previous) (incomingStart region + incomingCount region - incomingStart previous)))
      end
  end.
Definition simplifyConflicts (regions : list MergeRegion) (simplifyIfNoAlnum : bool) : list MergeRegion :=
  simplify_loop regions simplifyIfNoAlnum [].

(** * Trimming, for zdiff3 *)

Fixpoint trim_head (fuel : nat) (r : MergeRegion) : MergeRegion :=
  match fuel with
  | O => r
  | S fuel =>
      if (0 <? currentCount r) && (0 <? incomingCount r) && lines_equal (currentStart r) (incomingStart r)
      then trim_head fuel (mkRegion (mode r) (baseStart r) (baseCount r) (currentStart r + 1) (currentCount r - 1)
                             (incomingStart r + 1) (incomingCount r - 1))
      else r
  end.
Fixpoint trim_tail (fuel : nat) (r : MergeRegion) : MergeRegion :=
  match fuel with
  | O => r
  | S fuel =>
      if (0 <? currentCount r) && (0 <? incomingCount r) &&
         lines_equal (currentStart r + currentCount r - 1) (incomingStart r + incomingCount r - 1)
      then trim_tail fuel (mkRegion (mode r) (baseStart r) (baseCount r) (currentStart r) (currentCount r - 1)
                             (incomingStart r) (incomingCount r - 1))
      else r
  end.
Definition refineZdiff3 (regions : list MergeRegion) : list MergeRegion :=
  (λ r, if negb (mode r =? 0) then r
        else let r := trim_head (Z.to_nat (currentCount r)) r in trim_tail (Z.to_nat (currentCount r)) r) <$> regions.

End lines.
