(* ===== verification/XmergeRegionsFacts.v ===== *)
(** The regions of a three-way merge cut the three files into matching pieces.

    Positions are counted in lines.  [run] compares lines of two files one by one; [tiles]
    says that regions, in order, cover everything that the current and the incoming file do
    not share: between two regions the two files hold the same lines, and a region that takes
    one side stands where the other side still has the lines of the base. *)

From S2P Require Import Prelude Arrays MyersState MyersPrepare MyersPrepareFacts MyersScript Myers Unified.
From S2P Require Import XmergeInput XmergeRegions.

(** * Runs of equal lines *)

(** [n] lines of [X] from [x] on are those of [Y] from [y] on. *)
Definition run {A} (X : list A) (x : Z) (Y : list A) (y n : Z) : Prop :=
  ∀ i, 0 <= i < n → at_ X (x + i) = at_ Y (y + i).

Lemma run_part {A} (X Y : list A) x y n d k :
  run X x Y y n → 0 <= d → d + k <= n → run X (x + d) Y (y + d) k.
Proof. intros H Hd Hk i Hi. specialize (H (d + i) ltac:(lia)). by rewrite !Z.add_assoc in H. Qed.

Lemma run_cat {A} (X Y : list A) x y n k :
  run X x Y y n → run X (x + n) Y (y + n) k → run X x Y y (n + k).
Proof.
  intros H1 H2 i Hi. destruct (decide (i < n)); [apply H1; lia|].
  specialize (H2 (i - n) ltac:(lia)). replace (x + n + (i - n)) with (x + i) in H2 by lia.
  by replace (y + n + (i - n)) with (y + i) in H2 by lia.
Qed.

Lemma run_sym {A} (X Y : list A) x y n : run X x Y y n → run Y y X x n.
Proof. intros H i Hi. symmetry. by apply H. Qed.

Lemma run_trans {A} (X Y Z' : list A) x y z n : run X x Y y n → run Y y Z' z n → run X x Z' z n.
Proof. intros H1 H2 i Hi. rewrite H1 by done. by apply H2. Qed.

Lemma run_empty {A} (X Y : list A) x y n : n <= 0 → run X x Y y n.
Proof. intros Hn i Hi. lia. Qed.

Lemma run_slice {A} (X Y : list A) x y n :
  0 <= x → 0 <= y → 0 <= n → run X x Y y n ↔ slice X x (x + n) = slice Y y (y + n).
Proof.
  intros Hx Hy Hn. split.
  - intros H. apply at_ext. intros i Hi. destruct (decide (i < n)).
    + rewrite !at_slice by lia. by apply H.
    + rewrite !at_ge; [done|unfold zlen, slice; rewrite length_take; lia..].
  - intros H i Hi. rewrite <- (at_slice X x (x + n)), <- (at_slice Y y (y + n)) by lia. by rewrite H.
Qed.

(** * Scripts *)

(** A script from [(p, q)] on: what [script_ok] and [agrees] say of its groups. *)
Section script.
  Context {A : Type} (old new : list A).

Fixpoint script (first : bool) (p q : Z) (gs : list ChangeGroup) : Prop :=
  match gs with
  | [] => zlen old - p = zlen new - q ∧ 0 <= zlen old - p ∧ run old p new q (zlen old - p)
  | g :: gs =>
      oldStart g - p = newStart g - q ∧ (if first then 0 else 1) <= oldStart g - p ∧
      0 <= oldCount g ∧ 0 <= newCount g ∧ run old p new q (oldStart g - p) ∧
      script false (oldStart g + oldCount g) (newStart g + newCount g) gs
  end.

Lemma script_of_agrees first p q gs :
  script_ok (zlen old) (zlen new) first p q gs → 0 <= p → 0 <= q → agrees old new p q gs → script first p q gs.
Proof.
  revert first p q. induction gs as [|g gs IH]; intros first p q Hok Hp Hq Ha; cbn [script script_ok agrees] in *.
  - destruct Hok as [Hl Hnn]. split_and!; [done|done|]. rewrite !slice_from_slice in Ha by lia.
    rewrite run_slice by lia. replace (p + (zlen old - p)) with (zlen old) by lia.
    by replace (q + (zlen old - p)) with (zlen new) by lia.
  - destruct Hok as (H1 & H2 & H3 & H4 & _ & H5), Ha as [Hs Ha].
    assert (0 <= oldStart g - p) by (destruct first; lia). split_and!; try done.
    + rewrite run_slice by lia. replace (p + (oldStart g - p)) with (oldStart g) by lia.
      by replace (q + (oldStart g - p)) with (newStart g) by lia.
    + apply IH; [done|lia|lia|done].
Qed.

(** Where a script is next due, and where the part before it may be cut. *)
Definition due (p : Z) (gs : list ChangeGroup) : Prop :=
  match gs with [] => p <= zlen old | g :: _ => p < oldStart g end.

Lemma script_shrink first p q gs p' :
  script first p q gs → p <= p' → due p' gs → script false p' (q + (p' - p)) gs.
Proof.
  destruct gs as [|g gs]; cbn [script due].
  - intros (H1 & H2 & H3) Hp Hd. split_and!; [lia|lia|].
    replace p' with (p + (p' - p)) at 1 by lia. eapply run_part; [exact H3|lia|lia].
  - intros (H1 & H2 & H3 & H4 & H5 & H6) Hp Hd. split_and!; try done; [lia|lia|].
    replace p' with (p + (p' - p)) at 1 by lia. eapply run_part; [exact H5|lia|lia].
Qed.

Lemma script_run first p q gs p' :
  script first p q gs → p <= p' → due p' gs → run old p new q (p' - p).
Proof.
  destruct gs as [|g gs]; cbn [script due]; intros H Hp Hd.
  - destruct H as (_ & _ & H). pose proof (run_part _ _ _ _ _ 0 (p' - p) H) as R. rewrite !Z.add_0_r in R. apply R; lia.
  - destruct H as (_ & _ & _ & _ & H & _). pose proof (run_part _ _ _ _ _ 0 (p' - p) H) as R.
    rewrite !Z.add_0_r in R. apply R; lia.
Qed.

Lemma script_due p q gs : script false p q gs → due p gs.
Proof. destruct gs as [|g gs]; cbn [script due]; lia. Qed.

Lemma script_weaken p q gs : script false p q gs → script true p q gs.
Proof. destruct gs as [|g gs]; cbn [script]; [done|]. intros (?&?&?&?&?&?). split_and!; try done; lia. Qed.

Lemma script_bounds first p q gs : script first p q gs → p <= zlen old ∧ q <= zlen new.
Proof.
  revert first p q. induction gs as [|g gs IH]; intros first p q; cbn [script]; [lia|].
  intros (H1 & H2 & H3 & H4 & _ & H6%IH). destruct first; lia.
Qed.

End script.

(** * Tilings *)

Section tiles.
  Context {A : Type} (B C I : list A) (exact : bool).

(** What a region's mode says of its lines; [b] and [b'] bound its base, which are the
    region's own until refinement splits it. *)
Definition region_ok (r : MergeRegion) (b b' : Z) : Prop :=
  b <= b' ∧ 0 <= currentCount r ∧ 0 <= incomingCount r ∧
  (exact = true → b = baseStart r ∧ b' = baseStart r + baseCount r) ∧
  (mode r = 0 ∨
   mode r = 1 ∧ incomingCount r = b' - b ∧ run B b I (incomingStart r) (b' - b) ∨
   mode r = 2 ∧ currentCount r = b' - b ∧ run B b C (currentStart r) (b' - b) ∨
   mode r = 4 ∧ currentCount r = incomingCount r ∧ run C (currentStart r) I (incomingStart r) (currentCount r)).

(** Regions from line [b] of the base, [c] of current and [i] of incoming, up to [b'], [c']
    and [i']. *)
Inductive tiles : Z → Z → Z → list MergeRegion → Z → Z → Z → Prop :=
| tiles_nil b c i : tiles b c i [] b c i
| tiles_gap b c i rs b' c' i' p n :
    b <= p → 0 <= n → run C c I i n → tiles p (c + n) (i + n) rs b' c' i' → tiles b c i rs b' c' i'
| tiles_cons b p r rs b' c' i' :
    region_ok r b p → tiles p (currentStart r + currentCount r) (incomingStart r + incomingCount r) rs b' c' i' →
    tiles b (currentStart r) (incomingStart r) (r :: rs) b' c' i'.

Lemma tiles_app b c i rs b' c' i' rs' b'' c'' i'' :
  tiles b c i rs b' c' i' → tiles b' c' i' rs' b'' c'' i'' → tiles b c i (rs ++ rs') b'' c'' i''.
Proof. induction 1; intros Ht; [done| |]; [eapply tiles_gap|eapply tiles_cons]; eauto. Qed.

Lemma tiles_le b c i rs b' c' i' : tiles b c i rs b' c' i' → b <= b' ∧ c <= c' ∧ i <= i'.
Proof. induction 1; [lia|lia|]. destruct H as (? & ? & ? & _). lia. Qed.

Lemma tiles_wait b c i rs b' c' i' p n :
  tiles b c i rs b' c' i' → b' <= p → 0 <= n → run C c' I i' n → tiles b c i rs p (c' + n) (i' + n).
Proof.
  intros Ht Hp Hn Hr. rewrite <- (app_nil_r rs). eapply tiles_app; [exact Ht|].
  eapply tiles_gap; [exact Hp|exact Hn|exact Hr|constructor].
Qed.

Lemma tiles_one r b b' :
  region_ok r b b' →
  tiles b (currentStart r) (incomingStart r) [r] b' (currentStart r + currentCount r) (incomingStart r + incomingCount r).
Proof. intros H. eapply tiles_cons; [exact H|constructor]. Qed.

(** The last region ends before the end. *)
Lemma tiles_last b c i rs b' c' i' r :
  tiles b c i rs b' c' i' → last rs = Some r →
  currentStart r + currentCount r <= c' ∧ incomingStart r + incomingCount r <= i'.
Proof.
  induction 1 as [|? ? ? ? ? ? ? ? ? ? ? ? ? IH|? ? r' rs ? ? ? Hr Ht IH]; [done|done|].
  destruct rs as [|r2 rs]; [|by rewrite last_cons_cons].
  intros [= ->]. by apply tiles_le in Ht as (_ & ? & ?).
Qed.

End tiles.

(** * Appending *)

Fixpoint conflicts_in (rs : list MergeRegion) : Z :=
  match rs with [] => 0 | r :: rs => (if mode r =? 0 then 1 else 0) + conflicts_in rs end.

Lemma conflicts_app rs rs' : conflicts_in (rs ++ rs') = conflicts_in rs + conflicts_in rs'.
Proof. induction rs as [|r rs IH]; cbn [conflicts_in app]; lia. Qed.

Lemma conflicts_nonneg rs : 0 <= conflicts_in rs.
Proof. induction rs as [|r rs IH]; cbn [conflicts_in]; [lia|]. case_match; lia. Qed.

(** [appendRegion] turns [acc] into [acc'], unless that has too many conflicts. *)
Definition appends (acc : list MergeRegion) (r : MergeRegion) (acc' : list MergeRegion) : Prop :=
  conflicts_in acc <= conflicts_in acc' ∧
  ∀ max, conflicts_in acc <= max →
    appendRegion acc (conflicts_in acc) max r =
      (if conflicts_in acc' <=? max then Ok (acc', conflicts_in acc') else Throw (conflict_error max)).

Lemma appends_new acc r :
  (∀ prev, last acc = Some prev →
    currentStart prev + currentCount prev < currentStart r ∧ incomingStart prev + incomingCount prev < incomingStart r) →
  appends acc r (acc ++ [r]).
Proof.
  intros Hp. unfold appends. rewrite conflicts_app. cbn [conflicts_in].
  split; [case_match; lia|]. intros max Hm. unfold appendRegion.
  assert ((if mode r =? 0 then
        if max <=? conflicts_in acc then Throw (conflict_error max) else Ok (acc ++ [r], conflicts_in acc + 1)
      else Ok (acc ++ [r], conflicts_in acc)) =
    (if conflicts_in acc + ((if mode r =? 0 then 1 else 0) + 0) <=? max
     then Ok (acc ++ [r], conflicts_in acc + ((if mode r =? 0 then 1 else 0) + 0)) else Throw (conflict_error max))) as E.
  { destruct (mode r =? 0).
    - destruct (max <=? conflicts_in acc) eqn:El; zbool; by zdec.
    - rewrite !Z.add_0_r. by zdec. }
  destruct (last acc) as [prev|]; [|exact E]. destruct (Hp prev eq_refl). zdec. exact E.
Qed.

(** A region that touches the last one, a conflict, only moves its end. *)
Definition extended (prev r : MergeRegion) : MergeRegion :=
  mkRegion 0 (baseStart prev) (baseStart r + baseCount r - baseStart prev)
    (currentStart prev) (currentStart r + currentCount r - currentStart prev)
    (incomingStart prev) (incomingStart r + incomingCount r - incomingStart prev).

Lemma appends_touch acc prev r :
  mode prev = 0 →
  currentStart r <= currentStart prev + currentCount prev ∨ incomingStart r <= incomingStart prev + incomingCount prev →
  appends (acc ++ [prev]) r (acc ++ [extended prev r]).
Proof.
  intros Hm Ht. unfold appends. rewrite !conflicts_app. cbn [conflicts_in extended mode]. rewrite Hm. cbn [Z.eqb].
  split; [lia|]. intros max Hmax. unfold appendRegion. rewrite last_snoc, Hm. cbn [Z.eqb negb]. rewrite andb_false_r.
  assert ((currentStart r <=? currentStart prev + currentCount prev) ||
    (incomingStart r <=? incomingStart prev + incomingCount prev) = true) as ->.
  { apply orb_true_iff. destruct Ht; [left|right]; by apply Z.leb_le. }
  zdec. unfold set_last. by rewrite removelast_last.
Qed.

(** * Building *)

Section build.
  Context {A : Type} (B C I : list A) (current incoming : list ByteRecord).
  Context (Heq : ∀ i j, lines_equal current incoming i j = true → at_ C i = at_ I j).

Local Notation tiled acc := (tiles B C I true 0 0 0 acc).

(** Both lists of changes are past the last region. *)
Definition aligned (acc : list MergeRegion) (ls rs : list ChangeGroup) : Prop :=
  ∃ f c i first, tiled acc f c i ∧ script B C first f c ls ∧ script B I first f i rs ∧ (first = true → acc = []).

(** The last region ends with the first change of one side; the other side's changes are
    past a line inside that change.  [cl] and [il] are reached by the changes so far. *)
Definition pending (acc : list MergeRegion) (be ce ie cl il : Z) : Prop :=
  ∃ acc' r, acc = acc' ++ [r] ∧ mode r = 0 ∧ tiled acc' (baseStart r) (currentStart r) (incomingStart r) ∧
    0 <= baseCount r ∧ 0 <= currentCount r ∧ 0 <= incomingCount r ∧
    be = baseStart r + baseCount r ∧ ce = currentStart r + currentCount r ∧ ie = incomingStart r + incomingCount r ∧
    currentStart r <= cl ∧ incomingStart r <= il.

Definition left_pending (acc : list MergeRegion) (ls rs : list ChangeGroup) : Prop :=
  ∃ l ls' p q, ls = l :: ls' ∧ oldStart l <= p < oldStart l + oldCount l ∧ 0 <= newCount l ∧
    pending acc (oldStart l + oldCount l) (newStart l + newCount l) (q + (oldStart l + oldCount l - p))
      (newStart l + newCount l) q ∧
    script B C false (oldStart l + oldCount l) (newStart l + newCount l) ls' ∧ script B I false p q rs.

Definition right_pending (acc : list MergeRegion) (ls rs : list ChangeGroup) : Prop :=
  ∃ r rs' p q, rs = r :: rs' ∧ oldStart r <= p < oldStart r + oldCount r ∧ 0 <= newCount r ∧
    pending acc (oldStart r + oldCount r) (q + (oldStart r + oldCount r - p)) (newStart r + newCount r)
      q (newStart r + newCount r) ∧
    script B I false (oldStart r + oldCount r) (newStart r + newCount r) rs' ∧ script B C false p q ls.

Definition state acc ls rs : Prop := aligned acc ls rs ∨ left_pending acc ls rs ∨ right_pending acc ls rs.

Lemma aligned_state acc ls rs : aligned acc ls rs → state acc ls rs.
Proof. by left. Qed.

Lemma pending_tiled acc be ce ie cl il : pending acc be ce ie cl il → tiled acc be ce ie.
Proof.
  intros (acc' & r & -> & Hm & Ht & Hb & Hc & Hi & -> & -> & -> & _). eapply tiles_app; [exact Ht|]. apply tiles_one.
  unfold region_ok. split_and!; try done; [lia|by left].
Qed.

(** A new region, at the end of a gap that is positive unless it is the first. *)
Lemma append_aligned acc f c i first r k b' :
  tiled acc f c i → (first = true → acc = []) → (if (first : bool) then 0 else 1) <= k → run C c I i k →
  baseStart r = f + k → currentStart r = c + k → incomingStart r = i + k → region_ok B C I true r (f + k) b' →
  appends acc r (acc ++ [r]) ∧
  tiled (acc ++ [r]) b' (currentStart r + currentCount r) (incomingStart r + incomingCount r).
Proof.
  intros Ht Hf Hk Hr Hb Hc Hi Hok. assert (0 <= k) by (destruct first; lia). split.
  - apply appends_new. intros prev Hl. destruct first; [by rewrite Hf in Hl|].
    destruct (tiles_last _ _ _ _ _ _ _ _ _ _ _ _ Ht Hl). lia.
  - eapply tiles_app; [eapply tiles_wait; [exact Ht| |exact H|exact Hr]|]; [|rewrite <- Hc, <- Hi; by apply tiles_one]. lia.
Qed.

(** Where line [x] of the base, before the changes [gs], is on their side. *)
Definition target (n m : Z) (gs : list ChangeGroup) (x : Z) : Z :=
  match gs with [] => x + (m - n) | g :: _ => newStart g - oldStart g + x end.

Lemma target_script (X : list A) first p q gs x : script B X first p q gs → target (zlen B) (zlen X) gs x = q + (x - p).
Proof. destruct gs as [|g gs]; cbn [script target]; lia. Qed.

(** The next change is one of current, before those of incoming. *)
Lemma step_current acc l ls rs :
  state acc (l :: ls) rs → due B (oldStart l + oldCount l) rs →
  ∃ acc', appends acc (mkRegion 1 (oldStart l) (oldCount l) (newStart l) (newCount l)
                         (target (zlen B) (zlen I) rs (oldStart l)) (oldCount l)) acc' ∧
    aligned acc' ls rs ∧ conflicts_in acc' = conflicts_in acc.
Proof using Type.
  intros [H|[H|H]] Hd.
  - destruct H as (f & c & i & first & Ht & (E1 & E2 & E3 & E4 & E5 & E6) & Hr & Hf).
    assert (0 <= oldStart l - f) by (destruct first; lia).
    pose proof (target_script I first f i rs (oldStart l) Hr) as Etarget.
    assert (due B (oldStart l) rs) as Hd' by (destruct rs; cbn [due] in *; lia).
    pose proof (script_run B I _ _ _ _ (oldStart l) Hr ltac:(lia) Hd') as R1.
    pose proof (script_shrink B I _ _ _ _ (oldStart l + oldCount l) Hr ltac:(lia) Hd) as R3.
    pose proof (script_run B I _ _ _ _ (oldStart l + oldCount l) Hr ltac:(lia) Hd) as R2.
    edestruct (append_aligned acc f c i first) as [Ha Ht'];
      [exact Ht|exact Hf|exact E2|eapply run_trans; [apply run_sym, E5|exact R1]| | | | |eexists; split; [exact Ha|]];
      cbn [baseStart currentStart incomingStart baseCount currentCount incomingCount mode] in *; [lia|lia|lia| |].
    + instantiate (1 := oldStart l + oldCount l). unfold region_ok. cbn. split_and!; [lia|lia|lia|lia|]. right. left.
      split_and!; [done|lia|]. rewrite Etarget. replace (f + (oldStart l - f)) with (oldStart l) by lia.
      eapply run_part with (d := oldStart l - f) (k := oldCount l) in R2; [|lia|lia].
      replace (f + (oldStart l - f)) with (oldStart l) in R2 by lia.
      by replace (oldStart l + oldCount l - oldStart l) with (oldCount l) by lia.
    + split; [|rewrite conflicts_app; cbn; lia]. rewrite Etarget in *. exists (oldStart l + oldCount l), (newStart l + newCount l),
        (i + (oldStart l - f) + oldCount l), false. split_and!; [exact Ht'|exact E6| |done].
      by replace (i + (oldStart l - f) + oldCount l) with (i + (oldStart l + oldCount l - f)) by lia.
  - destruct H as (l0 & ls' & p & q & [= <- <-] & Hp & Hn & Hpend & HC & HI).
    pose proof (target_script I false p q rs (oldStart l) HI) as Etarget. rewrite Etarget.
    pose proof Hpend as (acc' & r & -> & Hm & Ht & Hb & Hc & Hi & B1 & B2 & B3 & B4 & B5).
    eexists. split; [apply appends_touch; [done|]; cbn; lia|].
    split; [|rewrite !conflicts_app; cbn [conflicts_in extended mode]; by rewrite Hm].
    exists (oldStart l + oldCount l), (newStart l + newCount l), (q + (oldStart l + oldCount l - p)), false.
    split_and!; [|exact HC|apply (script_shrink B I _ _ _ _ _ HI); [lia|done]|done].
    apply (pending_tiled _ _ _ _ (newStart l + newCount l) q). eexists acc', _. split; [reflexivity|]. unfold extended. cbn. split_and!; try done; lia.
  - destruct H as (r & rs' & p & q & -> & Hp & Hn & Hpend & HI & HC). cbn [script due] in *. lia.
Qed.

(** The next change is one of incoming, before those of current. *)
Lemma step_incoming acc ls r rs :
  state acc ls (r :: rs) → due B (oldStart r + oldCount r) ls →
  ∃ acc', appends acc (mkRegion 2 (oldStart r) (oldCount r) (target (zlen B) (zlen C) ls (oldStart r)) (oldCount r)
                         (newStart r) (newCount r)) acc' ∧
    aligned acc' ls rs ∧ conflicts_in acc' = conflicts_in acc.
Proof using Type.
  intros [H|[H|H]] Hd.
  - destruct H as (f & c & i & first & Ht & Hl & (E1 & E2 & E3 & E4 & E5 & E6) & Hf).
    assert (0 <= oldStart r - f) by (destruct first; lia).
    pose proof (target_script C first f c ls (oldStart r) Hl) as Etarget.
    assert (due B (oldStart r) ls) as Hd' by (destruct ls; cbn [due] in *; lia).
    pose proof (script_run B C _ _ _ _ (oldStart r) Hl ltac:(lia) Hd') as R1.
    pose proof (script_shrink B C _ _ _ _ (oldStart r + oldCount r) Hl ltac:(lia) Hd) as R3.
    pose proof (script_run B C _ _ _ _ (oldStart r + oldCount r) Hl ltac:(lia) Hd) as R2.
    edestruct (append_aligned acc f c i first) as [Ha Ht'];
      [exact Ht|exact Hf|exact E2|eapply run_trans; [apply run_sym, R1|exact E5]| | | | |eexists; split; [exact Ha|]];
      cbn [baseStart currentStart incomingStart baseCount currentCount incomingCount mode] in *; [lia|lia|lia| |].
    + instantiate (1 := oldStart r + oldCount r). unfold region_ok. cbn. split_and!; [lia|lia|lia|lia|]. right. right. left.
      split_and!; [done|lia|]. rewrite Etarget. replace (f + (oldStart r - f)) with (oldStart r) by lia.
      eapply run_part with (d := oldStart r - f) (k := oldCount r) in R2; [|lia|lia].
      replace (f + (oldStart r - f)) with (oldStart r) in R2 by lia.
      by replace (oldStart r + oldCount r - oldStart r) with (oldCount r) by lia.
    + split; [|rewrite conflicts_app; cbn; lia]. rewrite Etarget in *. exists (oldStart r + oldCount r), (c + (oldStart r - f) + oldCount r),
        (newStart r + newCount r), false. split_and!; [exact Ht'| |exact E6|done].
      by replace (c + (oldStart r - f) + oldCount r) with (c + (oldStart r + oldCount r - f)) by lia.
  - destruct H as (l & ls' & p & q & -> & Hp & Hn & Hpend & HC & HI). cbn [script due] in *. lia.
  - destruct H as (r0 & rs' & p & q & [= <- <-] & Hp & Hn & Hpend & HI & HC).
    pose proof (target_script C false p q ls (oldStart r) HC) as Etarget. rewrite Etarget.
    pose proof Hpend as (acc' & r0 & -> & Hm & Ht & Hb & Hc & Hi & B1 & B2 & B3 & B4 & B5).
    eexists. split; [apply appends_touch; [done|]; cbn; lia|].
    split; [|rewrite !conflicts_app; cbn [conflicts_in extended mode]; by rewrite Hm].
    exists (oldStart r + oldCount r), (q + (oldStart r + oldCount r - p)), (newStart r + newCount r), false.
    split_and!; [|apply (script_shrink B C _ _ _ _ _ HC); [lia|done]|exact HI|done].
    apply (pending_tiled _ _ _ _ q (newStart r + newCount r)). eexists acc', _. split; [reflexivity|]. unfold extended. cbn. split_and!; try done; lia.
Qed.

(** ** Changes that meet *)

Lemma overlapRegion_spec l r :
  let o := overlapRegion l r in
  mode o = 0 ∧ baseStart o = Z.min (oldStart l) (oldStart r) ∧
  currentStart o = newStart l - Z.max 0 (oldStart l - oldStart r) ∧
  incomingStart o = newStart r - Z.max 0 (oldStart r - oldStart l) ∧
  baseStart o + baseCount o = Z.max (oldStart l + oldCount l) (oldStart r + oldCount r) ∧
  currentStart o + currentCount o = newStart l + newCount l + Z.max 0 (oldStart r + oldCount r - (oldStart l + oldCount l)) ∧
  incomingStart o + incomingCount o = newStart r + newCount r + Z.max 0 (oldStart l + oldCount l - (oldStart r + oldCount r)).
Proof.
  unfold overlapRegion. destruct (0 <? oldStart l - oldStart r) eqn:E1;
    destruct (oldStart l - oldStart r + oldCount l - oldCount r <? 0) eqn:E2; zbool; cbn; split_and!; lia.
Qed.

(** Once the region ends with the later of two changes, that one is pending. *)
Lemma pending_state acc l ls r rs :
  oldStart r <= oldStart l + oldCount l → oldStart l <= oldStart r + oldCount r → 0 <= newCount l → 0 <= newCount r →
  script B C false (oldStart l + oldCount l) (newStart l + newCount l) ls →
  script B I false (oldStart r + oldCount r) (newStart r + newCount r) rs →
  pending acc (Z.max (oldStart l + oldCount l) (oldStart r + oldCount r))
    (newStart l + newCount l + Z.max 0 (oldStart r + oldCount r - (oldStart l + oldCount l)))
    (newStart r + newCount r + Z.max 0 (oldStart l + oldCount l - (oldStart r + oldCount r)))
    (newStart l + newCount l) (newStart r + newCount r) →
  state acc (if oldStart l + oldCount l <=? oldStart r + oldCount r then ls else l :: ls)
    (if oldStart r + oldCount r <=? oldStart l + oldCount l then rs else r :: rs).
Proof using Type.
  intros Ho1 Ho2 Hn1 Hn2 HC HI Hp.
  destruct (Z.lt_trichotomy (oldStart l + oldCount l) (oldStart r + oldCount r)) as [H|[H|H]]; zdec.
  - right. right. exists r, rs, (oldStart l + oldCount l), (newStart l + newCount l). split_and!; try (done || lia).
    rewrite Z.max_r, Z.max_r, Z.max_l, Z.add_0_r in Hp by lia. exact Hp.
  - left. apply pending_tiled in Hp. rewrite H, Z.max_id, Z.sub_diag, Z.max_id, !Z.add_0_r in Hp. rewrite H in HC.
    eexists _, _, _, false. split_and!; [exact Hp|exact HC|exact HI|done].
  - right. left. exists l, ls, (oldStart r + oldCount r), (newStart r + newCount r). split_and!; try (done || lia).
    rewrite Z.max_l, Z.max_l, Z.max_r, Z.add_0_r in Hp by lia. exact Hp.
Qed.

Lemma step_overlap acc l ls r rs :
  state acc (l :: ls) (r :: rs) → oldStart r <= oldStart l + oldCount l → oldStart l <= oldStart r + oldCount r →
  ∃ acc', appends acc (overlapRegion l r) acc' ∧
    state acc' (if oldStart l + oldCount l <=? oldStart r + oldCount r then ls else l :: ls)
      (if oldStart r + oldCount r <=? oldStart l + oldCount l then rs else r :: rs).
Proof using Type.
  intros Hst Ho1 Ho2. destruct (overlapRegion_spec l r) as (Om & O1 & O2 & O3 & O4 & O5 & O6).
  set (o := overlapRegion l r) in *. destruct Hst as [H|[H|H]].
  - destruct H as (f & c & i & first & Ht & (E1 & E2 & E3 & E4 & E5 & E6) & (F1 & F2 & F3 & F4 & F5 & F6) & Hf).
    set (k := Z.min (oldStart l) (oldStart r) - f).
    assert ((if first then 0 else 1) <= k) as Hk by (destruct first; lia). assert (0 <= k) by (destruct first; lia).
    assert (run C c I i k) as Hrun.
    { eapply run_trans; [apply run_sym|].
      - pose proof (run_part _ _ _ _ _ 0 k E5) as R. rewrite !Z.add_0_r in R. apply R; lia.
      - pose proof (run_part _ _ _ _ _ 0 k F5) as R. rewrite !Z.add_0_r in R. apply R; lia. }
    exists (acc ++ [o]). split.
    + eapply (append_aligned acc f c i first o k (baseStart o + baseCount o)); try done; try lia.
      unfold region_ok. split_and!; try lia.
    + apply pending_state; try (done || lia). exists acc, o. split_and!; try (done || lia).
      replace (baseStart o) with (f + k) by lia. replace (currentStart o) with (c + k) by lia.
      replace (incomingStart o) with (i + k) by lia. eapply tiles_wait; [exact Ht|lia|lia|done].
  - destruct H as (l0 & ls' & p & q & [= <- <-] & Hp & Hn & (acc' & prev & -> & Hm & Ht & Hb & Hc & Hi & B1 & B2 & B3 & B4 & B5) & HC & HI).
    destruct HI as (F1 & F2 & F3 & F4 & F5 & F6).
    exists (acc' ++ [extended prev o]). split; [apply appends_touch; [done|lia]|].
    apply pending_state; try (done || lia). exists acc', (extended prev o). unfold extended. cbn. split_and!; try (done || lia).
  - destruct H as (r0 & rs' & p & q & [= <- <-] & Hp & Hn & (acc' & prev & -> & Hm & Ht & Hb & Hc & Hi & B1 & B2 & B3 & B4 & B5) & HI & HC).
    destruct HC as (F1 & F2 & F3 & F4 & F5 & F6).
    exists (acc' ++ [extended prev o]). split; [apply appends_touch; [done|lia]|].
    apply pending_state; try (done || lia). exists acc', (extended prev o). unfold extended. cbn. split_and!; try (done || lia).
Qed.

(** The same change on both sides needs no region. *)
Lemma step_same acc l ls r rs :
  state acc (l :: ls) (r :: rs) → sameChange current incoming l r = true →
  aligned acc ls rs ∧ oldStart l + oldCount l = oldStart r + oldCount r.
Proof using Heq.
  intros Hst Hs. unfold sameChange in Hs. case_match eqn:En; [done|].
  apply orb_false_iff in En as [En E3]. apply orb_false_iff in En as [E1 E2].
  apply negb_false_iff, Z.eqb_eq in E1, E2, E3.
  split; [|lia]. destruct Hst as [H|[H|H]].
  - destruct H as (f & c & i & first & Ht & (D1 & D2 & D3 & D4 & D5 & D6) & (F1 & F2 & F3 & F4 & F5 & F6) & Hf).
    exists (oldStart l + oldCount l), (newStart l + newCount l), (newStart r + newCount r), false.
    split_and!; [|done|rewrite E1, E2; done|done].
    assert (0 <= oldStart l - f) by (destruct first; lia).
    replace (newStart l + newCount l) with (c + (oldStart l - f + newCount l)) by lia.
    replace (newStart r + newCount r) with (i + (oldStart l - f + newCount l)) by lia.
    eapply tiles_wait; [exact Ht|lia|lia|]. apply run_cat.
    + eapply run_trans; [apply run_sym, D5|]. by rewrite E1.
    + intros j Hj. replace (c + (oldStart l - f) + j) with (newStart l + j) by lia.
      replace (i + (oldStart l - f) + j) with (newStart r + j) by lia. apply Heq.
      rewrite forallb_forall in Hs. apply Hs. apply list_elem_of_In, elem_of_seqZ. lia.
  - destruct H as (l0 & ls' & p & q & [= <- <-] & Hp & Hn & _ & _ & HI). cbn [script] in HI. lia.
  - destruct H as (r0 & rs' & p & q & [= <- <-] & Hp & Hn & _ & _ & HC). cbn [script] in HC. lia.
Qed.

(** ** The loops *)

(** Changes that do not touch, or are the same. *)
Definition compatible (l r : ChangeGroup) : Prop :=
  oldStart l + oldCount l < oldStart r ∨ oldStart r + oldCount r < oldStart l ∨ sameChange current incoming l r = true.

(** A computation on the regions so far that gives [acc'] and [x], unless that has too many
    conflicts. *)
Definition limited {X} (m : Z → outcome X) (acc acc' : list MergeRegion) (x : X) : Prop :=
  conflicts_in acc <= conflicts_in acc' ∧
  ∀ max, conflicts_in acc <= max → m max = (if conflicts_in acc' <=? max then Ok x else Throw (conflict_error max)).

Lemma limited_bind {X} acc r acc1 acc2 (k : list MergeRegion → Z → Z → outcome X) x :
  appends acc r acc1 → limited (λ max, k acc1 (conflicts_in acc1) max) acc1 acc2 x →
  limited (λ max, '(rs, n) ← appendRegion acc (conflicts_in acc) max r; k rs n max) acc acc2 x.
Proof.
  intros [H1 H2] [H3 H4]. split; [lia|]. intros max Hm. rewrite H2 by done.
  destruct (conflicts_in acc1 <=? max) eqn:E; cbn [mbind outcome_bind]; zbool; [by apply H4|]. by zdec.
Qed.

Lemma limited_ok {X} acc (x : X) : limited (λ _, Ok x) acc acc x.
Proof. split; [done|]. intros max Hm. by zdec. Qed.

Lemma merge_loop_spec fuel acc ls rs :
  state acc ls rs → (length ls + length rs <= fuel)%nat →
  ∃ acc' ls' rs', state acc' ls' rs' ∧ (ls' = [] ∨ rs' = []) ∧
    ((∀ l r, l ∈ ls → r ∈ rs → compatible l r) → conflicts_in acc' = conflicts_in acc) ∧
    limited (λ max, merge_loop current incoming fuel ls rs acc (conflicts_in acc) max) acc acc'
      (ls', rs', acc', conflicts_in acc').
Proof using Heq.
  revert acc ls rs. induction fuel as [|fuel IH]; intros acc ls rs Hst Hf; cbn [merge_loop].
  { destruct ls as [|l ls]; [|cbn in Hf; lia]. eexists _, _, _. split_and!; [exact Hst|by left|done|apply limited_ok]. }
  destruct ls as [|l ls]; [eexists _, _, _; split_and!; [exact Hst|by left|done|apply limited_ok]|].
  destruct rs as [|r rs]; [eexists _, _, _; split_and!; [exact Hst|by right|done|apply limited_ok]|].
  cbn [length] in Hf. destruct (oldStart l + oldCount l <? oldStart r) eqn:E1; zbool.
  - destruct (step_current _ _ _ _ Hst) as (acc1 & Ha & Hst1%aligned_state & Hcount); [done|].
    destruct (IH _ _ _ Hst1) as (acc' & ls' & rs' & ? & ? & Hcomp & ?); [cbn [length]; lia|].
    exists acc', ls', rs'. split_and!; [done|done| |].
    { intros Hc. rewrite Hcomp; [done|]. intros l1 r1 Hl1 Hr1. apply Hc; set_solver. }
    by apply (limited_bind _ _ _ _ (λ a n max, merge_loop _ _ _ _ _ a n max) _ Ha).
  - destruct (oldStart r + oldCount r <? oldStart l) eqn:E2; zbool.
    + destruct (step_incoming _ _ _ _ Hst) as (acc1 & Ha & Hst1%aligned_state & Hcount); [done|].
      destruct (IH _ _ _ Hst1) as (acc' & ls' & rs' & ? & ? & Hcomp & ?); [cbn [length]; lia|].
      exists acc', ls', rs'. split_and!; [done|done| |].
      { intros Hc. rewrite Hcomp; [done|]. intros l1 r1 Hl1 Hr1. apply Hc; set_solver. }
      by apply (limited_bind _ _ _ _ (λ a n max, merge_loop _ _ _ _ _ a n max) _ Ha).
    + destruct (sameChange current incoming l r) eqn:Es; cbn [negb].
      * destruct (step_same _ _ _ _ _ Hst Es) as [Hst1%aligned_state ->]. rewrite Z.leb_refl. cbn [mbind outcome_bind].
        destruct (IH _ _ _ Hst1) as (acc' & ls' & rs' & ? & ? & Hcomp & ?); [lia|].
        exists acc', ls', rs'. split_and!; [done|done| |done].
        intros Hc. apply Hcomp. intros l1 r1 Hl1 Hr1. apply Hc; set_solver.
      * destruct (step_overlap _ _ _ _ _ Hst) as (acc1 & Ha & Hst1); [lia|lia|].
        destruct (IH _ _ _ Hst1) as (acc' & ls' & rs' & ? & ? & _ & ?).
        { destruct (oldStart l + oldCount l <=? oldStart r + oldCount r) eqn:Q1,
            (oldStart r + oldCount r <=? oldStart l + oldCount l) eqn:Q2; cbn [length]; zbool; lia. }
        exists acc', ls', rs'. split_and!; [done|done| |].
        { intros Hc. destruct (Hc l r) as [?|[?|?]]; [set_solver|set_solver|lia|lia|congruence]. }
        by apply (limited_bind _ _ _ _ (λ a n max, merge_loop _ _ _ _ _ a n max) _ Ha).
Qed.

Lemma rest_current_spec acc ls :
  state acc ls [] →
  ∃ acc', state acc' [] [] ∧ conflicts_in acc' = conflicts_in acc ∧
    limited (λ max, rest_current ls (zlen I - zlen B) acc (conflicts_in acc) max) acc acc' (acc', conflicts_in acc').
Proof using Type.
  revert acc. induction ls as [|l ls IH]; intros acc Hst; cbn [rest_current]; [exists acc; by split_and!; [| |apply limited_ok]|].
  destruct (step_current _ _ _ _ Hst) as (acc1 & Ha & Hst1%aligned_state & Hcount).
  { cbn [due]. destruct Hst as [(f & c & i & first & _ & H & _)|[H|H]].
    - cbn [script] in H. destruct H as (_ & _ & _ & _ & _ & H). by apply script_bounds in H as [? _].
    - destruct H as (l0 & ls' & p & q & [= <- <-] & _ & _ & _ & H & _). by apply script_bounds in H as [? _].
    - by destruct H as (r & rs' & p & q & ? & _). }
  destruct (IH _ Hst1) as (acc' & ? & ? & ?). exists acc'. split_and!; [done|congruence|].
  by apply (limited_bind _ _ _ _ (λ a n max, rest_current _ _ a n max) _ Ha).
Qed.

Lemma rest_incoming_spec acc rs :
  state acc [] rs →
  ∃ acc', state acc' [] [] ∧ conflicts_in acc' = conflicts_in acc ∧
    limited (λ max, rest_incoming rs (zlen C - zlen B) acc (conflicts_in acc) max) acc acc' (acc', conflicts_in acc').
Proof using Type.
  revert acc. induction rs as [|r rs IH]; intros acc Hst; cbn [rest_incoming]; [exists acc; by split_and!; [| |apply limited_ok]|].
  destruct (step_incoming _ _ _ _ Hst) as (acc1 & Ha & Hst1%aligned_state & Hcount).
  { cbn [due]. destruct Hst as [(f & c & i & first & _ & _ & H & _)|[H|H]].
    - cbn [script] in H. destruct H as (_ & _ & _ & _ & _ & H). by apply script_bounds in H as [? _].
    - by destruct H as (l & ls' & p & q & ? & _).
    - destruct H as (r0 & rs' & p & q & [= <- <-] & _ & _ & _ & H & _). by apply script_bounds in H as [? _]. }
  destruct (IH _ Hst1) as (acc' & ? & ? & ?). exists acc'. split_and!; [done|congruence|].
  by apply (limited_bind _ _ _ _ (λ a n max, rest_incoming _ _ a n max) _ Ha).
Qed.

Lemma state_end acc : state acc [] [] → tiled acc (zlen B) (zlen C) (zlen I).
Proof using Type.
  intros [(f & c & i & first & Ht & (H1 & H2 & H3) & (H4 & _ & H6) & _)|[H|H]].
  - replace (zlen C) with (c + (zlen B - f)) by lia. replace (zlen I) with (i + (zlen B - f)) by lia.
    eapply tiles_wait; [exact Ht|lia|lia|]. eapply run_trans; [apply run_sym, H3|exact H6].
  - by destruct H as (l & ls' & p & q & ? & _).
  - by destruct H as (r & rs' & p & q & ? & _).
Qed.

(** The regions of two scripts tile the three files; a limit only refuses too many
    conflicts. *)
Lemma buildMergeRegions_spec ls rs :
  script B C true 0 0 ls → script B I true 0 0 rs →
  ∃ regions, tiled regions (zlen B) (zlen C) (zlen I) ∧
    ((∀ l r, l ∈ ls → r ∈ rs → compatible l r) → conflicts_in regions = 0) ∧
    ∀ max, 0 <= max → buildMergeRegions current incoming ls rs (zlen B) (zlen C) (zlen I) max =
      (if conflicts_in regions <=? max then Ok regions else Throw (conflict_error max)).
Proof using Heq.
  intros Hl Hr. destruct (merge_loop_spec (length ls + length rs) [] ls rs) as (a1 & l1 & r1 & S1 & Hor & Hc & L1 & M1); [|done|].
  { left. exists 0, 0, 0, true. split_and!; [constructor|done|done|done]. }
  destruct Hor as [->| ->].
  - destruct (rest_incoming_spec _ _ S1) as (a2 & S2 & Hc2 & L2 & M2). exists a2. split_and!; [by apply state_end|by intros ?%Hc; rewrite Hc2|].
    intros max Hmax. unfold buildMergeRegions. cbn [conflicts_in] in *. rewrite M1 by done.
    destruct (conflicts_in a1 <=? max) eqn:E; cbn [mbind outcome_bind rest_current]; zbool; [|by zdec].
    rewrite M2 by done. by destruct (conflicts_in a2 <=? max).
  - destruct (rest_current_spec _ _ S1) as (a2 & S2 & Hc2 & L2 & M2). exists a2. split_and!; [by apply state_end|by intros ?%Hc; rewrite Hc2|].
    intros max Hmax. unfold buildMergeRegions. cbn [conflicts_in] in *. rewrite M1 by done.
    destruct (conflicts_in a1 <=? max) eqn:E; cbn [mbind outcome_bind rest_incoming]; zbool; [|by zdec].
    rewrite M2 by done. by destruct (conflicts_in a2 <=? max).
Qed.

End build.
