(* ===== verification/XmergeRefineFacts.v ===== *)
(** Refining, simplifying and trimming the regions of a merge keeps their tiling. *)

From S2P Require Import Prelude Arrays MyersState MyersPrepare MyersPrepareFacts MyersScript Myers Unified.
From S2P Require Import XmergeInput XmergeRegions XmergeRegionsFacts.

(** Only this class of error leaves a merge of valid options. *)
Definition too_big (e : jserror) : Prop := ∃ m, e = GitError (js "E2BIG") m.

Lemma too_big_tooBig resource limit : too_big (tooBig resource limit).
Proof. eexists. reflexivity. Qed.

Lemma Forall_slice {A} (P : A → Prop) l a b : Forall P l → Forall P (slice l a b).
Proof. intros H. by apply Forall_take, Forall_drop. Qed.

(** Runs inside slices. *)
Lemma run_slices {A} (X Y : list A) a b a' b' p q n :
  run (slice X a b) p (slice Y a' b') q n → 0 <= a → 0 <= a' → 0 <= p → 0 <= q → p + n <= b - a → q + n <= b' - a' →
  run X (a + p) Y (a' + q) n.
Proof.
  intros H Ha Ha' Hp Hq Hb Hb' i Hi. specialize (H i Hi). rewrite !at_slice in H by lia. by rewrite !Z.add_assoc in H.
Qed.

Section facts.
  Context {A : Type} (B C I : list A).

Lemma region_ok_weaken ex r b b' : region_ok B C I ex r b b' → region_ok B C I false r b b'.
Proof. intros (? & ? & ? & _ & ?). unfold region_ok. by split_and!. Qed.

Lemma tiles_weaken ex b c i rs b' c' i' : tiles B C I ex b c i rs b' c' i' → tiles B C I false b c i rs b' c' i'.
Proof.
  induction 1; [constructor|by eapply tiles_gap|]. eapply tiles_cons; [by eapply region_ok_weaken|done].
Qed.

Lemma tiles_snoc ex b c i rs b1 c1 i1 r b2 :
  tiles B C I ex b c i rs b1 c1 i1 → currentStart r = c1 → incomingStart r = i1 → region_ok B C I ex r b1 b2 →
  tiles B C I ex b c i (rs ++ [r]) b2 (currentStart r + currentCount r) (incomingStart r + incomingCount r).
Proof. intros Ht <- <- Hr. eapply tiles_app; [exact Ht|by apply tiles_one]. Qed.

(** What follows the last region. *)
Lemma tiles_snoc_inv ex b c i rs r b' c' i' :
  tiles B C I ex b c i (rs ++ [r]) b' c' i' →
  ∃ b1 b2 n, tiles B C I ex b c i rs b1 (currentStart r) (incomingStart r) ∧ region_ok B C I ex r b1 b2 ∧ b2 <= b' ∧ 0 <= n ∧
    c' = currentStart r + currentCount r + n ∧ i' = incomingStart r + incomingCount r + n ∧
    run C (currentStart r + currentCount r) I (incomingStart r + incomingCount r) n.
Proof.
  intros Ht. remember (rs ++ [r]) as l eqn:El. revert rs El.
  induction Ht as [|b c i l b' c' i' p n Hb Hn Hr Ht IH|b p r0 l b' c' i' Hok Ht IH]; intros rs El.
  - by destruct rs.
  - destruct (IH _ El) as (b1 & b2 & n' & Ht' & ?). exists b1, b2, n'. split; [by eapply tiles_gap|done].
  - destruct rs as [|r1 rs]; injection El as -> ->.
    + clear IH. exists b, p. assert (∃ n, p <= b' ∧ 0 <= n ∧ c' = currentStart r + currentCount r + n ∧
        i' = incomingStart r + incomingCount r + n ∧
        run C (currentStart r + currentCount r) I (incomingStart r + incomingCount r) n) as (n & ?).
      { clear Hok. remember [] as l eqn:El. induction Ht as [|b0 c i l b' c' i' p' n Hb Hn Hr Ht IH|]; [..|done].
        - exists 0. split_and!; try lia. by apply run_empty.
        - destruct (IH El) as (n' & ? & ? & -> & -> & ?). exists (n + n'). split_and!; try lia. by apply run_cat. }
      exists n. split_and!; try tauto. constructor.
    + destruct (IH _ eq_refl) as (b1 & b2 & n' & Ht' & ?). exists b1, b2, n'. split; [by eapply tiles_cons|done].
Qed.

End facts.

(** * Refining *)

Section refine.
  Context (B : list bytes) (current incoming : list ByteRecord).
  Context (Hcur : Forall record_ok current) (Hinc : Forall record_ok incoming).
  Context (Hsize : zlen current + zlen incoming < MAX_SAFE_INTEGER).
Local Notation C := (content <$> current).
Local Notation I := (content <$> incoming).
Local Notation tiled rs := (tiles B C I false 0 0 0 rs).

Lemma lines_equal_spec i j : lines_equal current incoming i j = true → at_ C i = at_ I j.
Proof using Hcur Hinc.
  unfold lines_equal. rewrite !at_fmap.
  destruct (at_ current i) as [a|] eqn:E1; [|done]. destruct (at_ incoming j) as [b|] eqn:E2; [|done].
  intros H%byteRecordsEqual_spec; [cbn; by rewrite H|exact (Forall_at _ _ _ _ Hcur E1)|exact (Forall_at _ _ _ _ Hinc E2)].
Qed.

(** A part of the lists the regions stay inside. *)
Lemma push_refined_spec r b b' gs max : b <= b' →
  0 <= currentStart r → 0 <= incomingStart r →
  ∀ first p q acc, 0 <= p → 0 <= q →
  script (slice C (currentStart r) (currentStart r + currentCount r)) (slice I (incomingStart r) (incomingStart r + incomingCount r))
    first p q gs →
  currentStart r + currentCount r <= zlen C → incomingStart r + incomingCount r <= zlen I →
  0 <= currentCount r → 0 <= incomingCount r →
  tiled acc b (currentStart r + p) (incomingStart r + q) →
  (∃ acc', push_refined r gs acc (conflicts_in acc) max = Ok (acc', conflicts_in acc') ∧ zlen acc' = zlen acc + zlen gs ∧
    (conflicts_in acc <= max → conflicts_in acc' <= max) ∧
    tiled acc' (match gs with [] => b | _ => b' end) (currentStart r + currentCount r) (incomingStart r + incomingCount r)) ∨
  (∃ e, push_refined r gs acc (conflicts_in acc) max = Throw e ∧ too_big e).
Proof.
  intros Hb Hr1 Hr2. revert b Hb. induction gs as [|g gs IH]; intros b Hb first p q acc Hp Hq Hs Hc Hi Hnc Hni Ht; cbn [push_refined script] in *.
  - left. exists acc. rewrite !zlen_slice in Hs by lia. destruct Hs as (H1 & H2 & H3).
    split_and!; [done|change (zlen []) with 0; lia|done|].
    replace (currentStart r + currentCount r) with (currentStart r + p + (currentStart r + currentCount r - currentStart r - p)) by lia.
    replace (incomingStart r + incomingCount r) with (incomingStart r + q + (currentStart r + currentCount r - currentStart r - p)) by lia.
    eapply tiles_wait; [exact Ht|done|done|]. eapply run_slices; [exact H3|lia..].
  - destruct (max <=? conflicts_in acc) eqn:E; zbool; [right; eexists; split; [done|apply too_big_tooBig]|].
    destruct Hs as (H1 & H2 & H3 & H4 & H5 & H6). pose proof (script_bounds _ _ _ _ _ _ H6) as Hend.
    rewrite !zlen_slice in Hend by lia. assert (0 <= oldStart g - p) by (destruct first; lia).
    set (r' := mkRegion 0 (baseStart r) (baseCount r) (currentStart r + oldStart g) (oldCount g) (incomingStart r + newStart g) (newCount g)).
    assert (conflicts_in (acc ++ [r']) = conflicts_in acc + 1) as Ec by (rewrite conflicts_app; done). rewrite <- Ec.
    destruct (IH b' ltac:(lia) false (oldStart g + oldCount g) (newStart g + newCount g) (acc ++ [r'])) as [(acc' & E' & Hz & Hm & Ht')|(e & E' & He)];
      [lia|lia|done|lia|lia|lia|lia| |left|right].
    + rewrite !Z.add_assoc. eapply (tiles_snoc _ _ _ _ _ _ _ _ _ _ _ r').
      * eapply (tiles_wait _ _ _ _ _ _ _ _ _ _ _ b (oldStart g - p)); [exact Ht|lia|lia|].
        eapply run_slices; [exact H5|lia..].
      * cbn. lia.
      * cbn. lia.
      * unfold region_ok. cbn. split_and!; [done|lia|lia|done|by left].
    + exists acc'. split_and!; [done|rewrite Hz, zlen_app, !zlen_cons; change (zlen (@nil MergeRegion)) with 0; lia|intros; apply Hm; lia|].
      by destruct gs.
    + by exists e.
Qed.

(** Refined conflicts, or too many of them. *)
Definition refined_to (m : fallible (list MergeRegion)) (limit b c i : Z) : Prop :=
  (∃ rs, m = Some (Ok rs) ∧ tiled rs b c i ∧ conflicts_in rs <= limit) ∨ (∃ e, m = Some (Throw e) ∧ too_big e).

Lemma refine_loop_spec maxChanges max ih b c i regions b' c' i' :
  tiles B C I false b c i regions b' c' i' → 0 <= c → 0 <= i → c' <= zlen C → i' <= zlen I →
  ∀ acc, tiled acc b c i → zlen acc <= maxChanges → conflicts_in acc <= max →
  refined_to (refine_loop current incoming regions maxChanges max ih acc (conflicts_in acc)) max b' c' i'.
Proof using Hcur Hinc Hsize.
  induction 1 as [b c i|b c i rs b' c' i' p n Hb Hn Hr Ht IH|b p r rs b' c' i' Hok Ht IH]; intros Hc Hi Hc' Hi' acc Hacc Hz Hm.
  - left. exists acc. by split_and!.
  - apply IH; try done; try lia. eapply tiles_wait; [exact Hacc|lia|lia|done].
  - cbn [refine_loop]. pose proof Hok as (Hbp & Hcc & Hic & _ & Hmode).
    pose proof (tiles_le _ _ _ _ _ _ _ _ _ _ _ Ht) as (_ & Hl1 & Hl2).
    assert (∀ e, too_big e → refined_to (total (Throw e)) max b' c' i') as Hbig by (intros e He; right; by exists e).
    case_match eqn:E1.
    + destruct (maxChanges <=? zlen acc) eqn:E2; zbool; [apply Hbig, too_big_tooBig|].
      assert (tiled (acc ++ [r]) p (currentStart r + currentCount r) (incomingStart r + incomingCount r)) as Ht2.
      { eapply tiles_snoc; [exact Hacc|done|done|exact Hok]. }
      specialize (IH ltac:(lia) ltac:(lia) Hc' Hi' _ Ht2). rewrite zlen_app, conflicts_app in IH. cbn [conflicts_in] in IH.
      change (zlen [r]) with 1 in IH. destruct (mode r =? 0).
      * destruct (max <=? conflicts_in acc) eqn:E3; zbool; [apply Hbig, too_big_tooBig|]. apply IH; lia.
      * rewrite !Z.add_0_r in IH. apply IH; lia.
    + apply orb_false_iff in E1 as [E1 E3]. apply orb_false_iff in E1 as [E1 E2]. apply negb_false_iff in E1. zbool.
      set (xc := slice current _ _). set (xi := slice incoming _ _).
      assert (zlen xc = currentCount r) as Lc by (unfold xc; rewrite zlen_fmap in *; rewrite zlen_slice by lia; lia).
      assert (zlen xi = incomingCount r) as Li by (unfold xi; rewrite zlen_fmap in *; rewrite zlen_slice by lia; lia).
      destruct (diffByteRecords_spec xc xi (mkOptions ih (Some (Z.min (maxChanges - zlen acc) (max - conflicts_in acc)))))
        as (gs & Hgs & Hrun & ->); [by apply Forall_slice|by apply Forall_slice| | |].
      { rewrite Lc, Li. rewrite !zlen_fmap in *. lia. }
      { intros k [= <-]. lia. }
      cbn [MyersState.maxChanges]. destruct (zlen gs <=? _) eqn:E4; [|by apply Hbig; eexists]. cbn [mbind fallible_bind].
      rewrite <- (zlen_fmap content xc), <- (zlen_fmap content xi) in Hgs.
      pose proof (agrees_of_run _ _ _ _ _ _ Hgs (Z.le_refl 0) (Z.le_refl 0) Hrun) as Hag.
      apply (script_of_agrees _ _ true) in Hag; [|done|done|done]. clear Hgs Hrun.
      unfold xc, xi in Hag. rewrite !slice_fmap in Hag.
      destruct (maxChanges <? zlen acc + zlen gs) eqn:E5; zbool; [apply Hbig, too_big_tooBig|].
      destruct (zlen gs =? 0) eqn:E6; zbool.
      * assert (gs = []) as -> by (destruct gs; [done|rewrite zlen_cons in E6; pose proof (zlen_nonneg gs); lia]).
        destruct (maxChanges <=? zlen acc) eqn:E7; zbool; [apply Hbig, too_big_tooBig|].
        specialize (IH ltac:(lia) ltac:(lia) Hc' Hi' (acc ++ [set_mode r 4])). rewrite zlen_app, conflicts_app in IH.
        change (zlen [set_mode r 4]) with 1 in IH. cbn [conflicts_in set_mode mode Z.eqb] in IH.
        rewrite !Z.add_0_r in IH. apply IH; [|lia|lia]. change (currentStart r) with (currentStart (set_mode r 4)).
        change (incomingStart r) with (incomingStart (set_mode r 4)). eapply (tiles_snoc _ _ _ _ _ _ _ _ _ _ _ (set_mode r 4) p).
        -- exact Hacc.
        -- done.
        -- done.
        -- cbn [script] in Hag. destruct Hag as (H1 & H2 & H3). rewrite (zlen_slice C) in H1, H2 by lia. rewrite (zlen_slice I) in H1 by lia.
           unfold region_ok. cbn. split_and!; [done..|]. right. right. right. split_and!; [done|lia|].
           rewrite (zlen_slice C) in H3 by lia. pose proof (run_slices _ _ _ _ _ _ _ _ _ H3) as R.
           rewrite !Z.add_0_r in R. replace (currentStart r + currentCount r - currentStart r - 0) with (currentCount r) in R by lia.
           apply R; lia.
      * destruct (push_refined_spec r b p gs max Hbp ltac:(lia) ltac:(lia) true 0 0 acc) as [(acc' & -> & Hz' & Hm' & Ht')|(e & -> & He)];
          [lia|lia|done|lia|lia|lia|lia|by rewrite !Z.add_0_r| |].
        -- cbn [mbind fallible_bind total]. apply IH; try lia. by destruct gs.
        -- cbn [mbind fallible_bind total]. by apply Hbig.
Qed.

Lemma refineConflicts_spec ex regions maxChanges max ih b :
  tiles B C I ex 0 0 0 regions b (zlen C) (zlen I) → 0 <= maxChanges → 0 <= max →
  refined_to (refineConflicts current incoming regions maxChanges max ih) max b (zlen C) (zlen I).
Proof using Hcur Hinc Hsize.
  intros Ht%tiles_weaken Hm1 Hm2. unfold refineConflicts.
  apply (refine_loop_spec maxChanges max ih _ _ _ _ _ _ _ Ht); try done; try lia. constructor.
Qed.

(** * Simplifying *)

Lemma simplify_loop_spec alnum b c i regions b' c' i' :
  tiles B C I false b c i regions b' c' i' →
  ∀ acc, tiled acc b c i →
  let rs := simplify_loop current regions alnum acc in
  tiled rs b' c' i' ∧ conflicts_in rs <= conflicts_in acc + conflicts_in regions ∧
  (conflicts_in rs = 0 → conflicts_in acc = 0 ∧ conflicts_in regions = 0).
Proof using Type.
  induction 1 as [b c i|b c i rs b' c' i' p n Hb Hn Hr Ht IH|b p r rs b' c' i' Hok Ht IH]; intros acc Hacc; cbn [simplify_loop conflicts_in].
  - split_and!; [done|lia|done].
  - apply IH. eapply tiles_wait; [exact Hacc|lia|lia|done].
  - pose proof (conflicts_nonneg acc). pose proof (conflicts_nonneg rs).
    assert (let l := simplify_loop current rs alnum (acc ++ [r]) in
      tiled l b' c' i' ∧ conflicts_in l <= conflicts_in acc + ((if mode r =? 0 then 1 else 0) + conflicts_in rs) ∧
      (conflicts_in l = 0 → conflicts_in acc = 0 ∧ (if mode r =? 0 then 1 else 0) + conflicts_in rs = 0)) as Hpush.
    { destruct (IH (acc ++ [r])) as (Hl1 & Hl2 & Hl3); [eapply tiles_snoc; [exact Hacc|done|done|exact Hok]|].
      rewrite conflicts_app in Hl2, Hl3. cbn [conflicts_in] in *.
      cbv zeta. split_and!; [done|lia|]. intros [? ?]%Hl3. case_match; lia. }
    destruct (last acc) as [prev|] eqn:El; [|by apply Hpush]. apply last_Some in El as [acc0 ->].
    destruct (negb (mode prev =? 0) || negb (mode r =? 0)) eqn:E1; [exact Hpush|]. apply orb_false_iff in E1 as [E1 E2].
    apply negb_false_iff in E1, E2. zbool. destruct ((3 <? _) && _); [exact Hpush|]. clear Hpush.
    unfold set_last. rewrite removelast_last.
    apply tiles_snoc_inv in Hacc as (b1 & b2 & n & Ht0 & (Hb1 & Hpc & Hpi & _ & _) & Hb2 & Hn & Hc & Hi & _).
    destruct Hok as (Hbp & Hcc & Hic & _ & _).
    set (r' := mkRegion _ _ _ _ _ _ _). edestruct (IH (acc0 ++ [r'])) as (H1' & H2' & H3').
    { replace (currentStart r + currentCount r) with (currentStart r' + currentCount r') by (cbn; lia).
      replace (incomingStart r + incomingCount r) with (incomingStart r' + incomingCount r') by (cbn; lia).
      eapply (tiles_snoc _ _ _ _ _ _ _ _ _ _ _ r'); [exact Ht0|done|done|].
      unfold region_ok. cbn. split_and!; [lia|lia|lia|done|by left]. }
    rewrite conflicts_app in *. cbn [conflicts_in r' mode] in *. rewrite E1, E2 in *. cbn [Z.eqb] in *.
    pose proof (conflicts_nonneg acc0). split_and!; [done|lia|]. intros [? ?]%H3'. lia.
Qed.

(** * Trimming *)

Lemma trim_head_spec fuel r :
  0 <= currentCount r → 0 <= incomingCount r →
  ∃ k, 0 <= k <= currentCount r ∧ k <= incomingCount r ∧
    trim_head current incoming fuel r =
      mkRegion (mode r) (baseStart r) (baseCount r) (currentStart r + k) (currentCount r - k) (incomingStart r + k) (incomingCount r - k) ∧
    run C (currentStart r) I (incomingStart r) k.
Proof using Hcur Hinc.
  revert r. induction fuel as [|fuel IH]; intros r Hc Hi; cbn [trim_head].
  - exists 0. rewrite !Z.add_0_r, !Z.sub_0_r. split_and!; try lia; [by destruct r|by apply run_empty].
  - case_match eqn:E.
    + apply andb_prop in E as [E E3]. zbool. destruct (IH (mkRegion (mode r) (baseStart r) (baseCount r) (currentStart r + 1)
        (currentCount r - 1) (incomingStart r + 1) (incomingCount r - 1))) as (k & ? & ? & -> & Hr); cbn in *; [lia|lia|].
      exists (1 + k). rewrite !Z.add_assoc, !Z.sub_add_distr. split_and!; try lia; [done|]. apply run_cat; [|done].
      intros j Hj. replace j with 0 by lia. rewrite !Z.add_0_r. by apply lines_equal_spec.
    + exists 0. rewrite !Z.add_0_r, !Z.sub_0_r. split_and!; try lia; [by destruct r|by apply run_empty].
Qed.

Lemma trim_tail_spec fuel r :
  0 <= currentCount r → 0 <= incomingCount r →
  ∃ k, 0 <= k <= currentCount r ∧ k <= incomingCount r ∧
    trim_tail current incoming fuel r =
      mkRegion (mode r) (baseStart r) (baseCount r) (currentStart r) (currentCount r - k) (incomingStart r) (incomingCount r - k) ∧
    run C (currentStart r + (currentCount r - k)) I (incomingStart r + (incomingCount r - k)) k.
Proof using Hcur Hinc.
  revert r. induction fuel as [|fuel IH]; intros r Hc Hi; cbn [trim_tail].
  - exists 0. rewrite !Z.sub_0_r. split_and!; try lia; [by destruct r|by apply run_empty].
  - case_match eqn:E.
    + apply andb_prop in E as [E E3]. zbool. destruct (IH (mkRegion (mode r) (baseStart r) (baseCount r) (currentStart r)
        (currentCount r - 1) (incomingStart r) (incomingCount r - 1))) as (k & ? & ? & -> & Hr); cbn in *; [lia|lia|].
      exists (k + 1). replace (currentCount r - (k + 1)) with (currentCount r - 1 - k) by lia.
      replace (incomingCount r - (k + 1)) with (incomingCount r - 1 - k) by lia. split_and!; try lia; [done|]. apply run_cat; [done|].
      intros j Hj. replace (currentStart r + (currentCount r - 1 - k) + k + j) with (currentStart r + currentCount r - 1) by lia.
      replace (incomingStart r + (incomingCount r - 1 - k) + k + j) with (incomingStart r + incomingCount r - 1) by lia.
      by apply lines_equal_spec.
    + exists 0. rewrite !Z.sub_0_r. split_and!; try lia; [by destruct r|by apply run_empty].
Qed.

Lemma refineZdiff3_spec ex b c i regions b' c' i' :
  tiles B C I ex b c i regions b' c' i' →
  tiles B C I ex b c i (refineZdiff3 current incoming regions) b' c' i' ∧
  conflicts_in (refineZdiff3 current incoming regions) = conflicts_in regions.
Proof using Hcur Hinc.
  induction 1 as [b c i|b c i rs b' c' i' p n Hb Hn Hr Ht IH|b p r rs b' c' i' Hok Ht IH].
  - by split; [constructor|].
  - destruct IH as [IH1 IH2]. split; [by eapply tiles_gap|done].
  - destruct IH as [IH1 IH2]. unfold refineZdiff3 in *. rewrite fmap_cons. cbn [conflicts_in]. rewrite IH2.
    destruct (negb (mode r =? 0)) eqn:E; [split; [by eapply tiles_cons|done]|]. apply negb_false_iff in E. zbool.
    destruct Hok as (Hbp & Hcc & Hic & Hex & _).
    destruct (trim_head_spec (Z.to_nat (currentCount r)) r Hcc Hic) as (k & Hk1 & Hk2 & Eh & Rh). cbv zeta. rewrite Eh.
    destruct (trim_tail_spec (Z.to_nat (currentCount r - k)) (mkRegion (mode r) (baseStart r) (baseCount r) (currentStart r + k)
      (currentCount r - k) (incomingStart r + k) (incomingCount r - k))) as (k' & Hk1' & Hk2' & Et & Rt); cbn [currentCount incomingCount] in *; [lia|lia|].
    rewrite Et. cbn [mode baseStart baseCount currentStart incomingStart] in *. split; [|done].
    eapply (tiles_gap _ _ _ _ _ _ _ _ _ _ _ b k); [lia|lia|exact Rh|].
    set (r' := mkRegion _ _ _ _ _ _ _). change (currentStart r + k) with (currentStart r'). change (incomingStart r + k) with (incomingStart r').
    apply (tiles_cons _ _ _ _ b p r').
    + unfold region_ok. cbn. split_and!; [done|lia|lia|done|by left].
    + eapply (tiles_gap _ _ _ _ _ _ _ _ _ _ _ p k'); [lia|lia| |].
      * cbn. replace (currentStart r + k + (currentCount r - k - k')) with (currentStart r + k + (currentCount r - k - k')) by lia. exact Rt.
      * cbn. replace (currentStart r + k + (currentCount r - k - k') + k') with (currentStart r + currentCount r) by lia.
        replace (incomingStart r + k + (incomingCount r - k - k') + k') with (incomingStart r + incomingCount r) by lia. exact IH1.
Qed.

End refine.
