(* ===== verification/XmergeOutputFacts.v ===== *)
(** What the two passes of [fillMerge] write: the pieces of the three files the regions cut,
    each rendered on its own, and nothing else. *)

From S2P Require Import Prelude Utf8 Text Bytes Arrays Objects MyersState MyersPrepareFacts XmergeInput XmergeRegions.
From S2P Require Import XmergeRegionsFacts XmergeRefineFacts XmergeOutput.

(** * Pieces of a merge *)

(** A piece of the base with what the two sides have in its place. *)
Inductive piece : Type :=
| Agreed (base both : list bytes)
| TakesCurrent (base current : list bytes)
| TakesIncoming (base incoming : list bytes)
| Conflicting (cr : bool) (base current incoming : list bytes).

Definition in_base (p : piece) : list bytes :=
  match p with Agreed b _ | TakesCurrent b _ | TakesIncoming b _ | Conflicting _ b _ _ => b end.
Definition in_current (p : piece) : list bytes :=
  match p with Agreed _ x => x | TakesCurrent _ c => c | TakesIncoming b _ => b | Conflicting _ _ c _ => c end.
Definition in_incoming (p : piece) : list bytes :=
  match p with Agreed _ x => x | TakesCurrent b _ => b | TakesIncoming _ i => i | Conflicting _ _ _ i => i end.
Definition is_conflict (p : piece) : bool := match p with Conflicting _ _ _ _ => true | _ => false end.

Definition eol (cr : bool) : bytes := (if cr then [0x0d] else []) ++ [0x0a].

(** Lines, with a newline if the last lacks it. *)
Definition closed (cr : bool) (ls : list bytes) : bytes :=
  mjoin ls ++ match last ls with
              | Some line => if bool_decide (last line = Some 0x0a) then [] else eol cr
              | None => []
              end.

Definition marker_line (options : ResolvedOptions) (marker : Z) (label : option bytes) (cr : bool) : bytes :=
  replicate (Z.to_nat (markerSize options)) marker ++ match label with Some l => 0x20 :: l | None => [] end ++ eol cr.

(** The merge rule, and git's rendering of a conflict. *)
Definition rendered (options : ResolvedOptions) (p : piece) : bytes :=
  match p with
  | Agreed _ x => mjoin x
  | TakesCurrent _ c => mjoin c
  | TakesIncoming _ i => mjoin i
  | Conflicting cr b c i =>
      marker_line options 0x3c (l_current (labels options)) cr ++ closed cr c ++
      (if bool_decide (style options = Merge) then []
       else marker_line options 0x7c (l_base (labels options)) cr ++ closed cr b) ++
      marker_line options 0x3d None cr ++ closed cr i ++
      marker_line options 0x3e (l_incoming (labels options)) cr
  end.

(** * Writing *)

Section emits.
  Context (options : ResolvedOptions).
  Context (Hlimit : 0 <= limits options maxOutputBytes <= MAX_SAFE_INTEGER).
Local Notation limit := (limits options maxOutputBytes).

(** A writer of [bs]: without an output it counts them, up to the limit; with one that has
    room it writes them where it stands. *)
Definition emits (f : option bytes * Z → outcome (option bytes * Z)) (bs : bytes) : Prop :=
  (∀ size, 0 <= size <= limit →
    size + zlen bs <= limit ∧ f (None, size) = Ok (None, size + zlen bs) ∨
    limit < size + zlen bs ∧ ∃ e, f (None, size) = Throw e ∧ too_big e) ∧
  (∀ written room rest, zlen written + zlen bs <= limit → zlen room = zlen bs →
    f (Some (written ++ room ++ rest), zlen written) = Ok (Some (written ++ bs ++ rest), zlen written + zlen bs)).

Lemma emits_nil : emits (λ s, Ok s) [].
Proof.
  split; [intros size Hs; left; change (zlen []) with 0; rewrite Z.add_0_r; split; [lia|done]|].
  intros written room rest _ Hr. change (zlen []) with 0 in *.
  assert (room = []) as -> by (destruct room; [done|rewrite zlen_cons in Hr; pose proof (zlen_nonneg room); lia]).
  by rewrite Z.add_0_r.
Qed.

Lemma emits_bind f g a b : emits f a → emits g b → emits (λ s, s ← f s; g s) (a ++ b).
Proof.
  intros [F1 F2] [G1 G2]. pose proof (zlen_nonneg a). pose proof (zlen_nonneg b). split.
  - intros size Hs. rewrite zlen_app. destruct (F1 size Hs) as [[Hl ->]|(Hl & e & -> & He)]; cbn [mbind outcome_bind].
    + destruct (G1 (size + zlen a)) as [[Hl' ->]|(Hl' & e & -> & He)]; [lia| |].
      * left. split; [lia|]. by rewrite Z.add_assoc.
      * right. split; [lia|]. by exists e.
    + right. split; [lia|]. by exists e.
  - intros written room rest Hl Hr. rewrite zlen_app in Hl, Hr.
    rewrite <- (take_drop (length a) room), <- (app_assoc (take (length a) room)).
    assert (zlen (take (length a) room) = zlen a) as Ht.
    { replace (length a) with (Z.to_nat (zlen a)) by (unfold zlen; lia). rewrite zlen_take by lia. lia. }
    assert (zlen (drop (length a) room) = zlen b) as Hd.
    { unfold zlen in *. rewrite length_drop. lia. }
    rewrite (F2 written _ _ ltac:(lia) Ht). cbn [mbind outcome_bind]. rewrite <- zlen_app, app_assoc.
    rewrite (G2 (written ++ a)) by (rewrite ?zlen_app; lia). rewrite !zlen_app, <- !app_assoc. by rewrite Z.add_assoc.
Qed.

Lemma emits_ext f g bs : (∀ s, f s = g s) → emits f bs → emits g bs.
Proof.
  intros H [F1 F2]. split.
  - intros size Hs. rewrite <- H. by apply F1.
  - intros w r k ? ?. rewrite <- H. by apply F2.
Qed.

Lemma addSize_spec size n :
  0 <= size <= limit → 0 <= n →
  size + n <= limit ∧ addSize size n limit = Ok (size + n) ∨
  limit < size + n ∧ ∃ e, addSize size n limit = Throw e ∧ too_big e.
Proof using Hlimit.
  intros Hs Hn. unfold addSize, checkedSum, checkedSum_from.
  rewrite Z.add_0_l, (safe_int size) by lia. cbn [negb].
  destruct (isSafeInteger (size + n)) eqn:E; cbn [negb mbind outcome_bind].
  - destruct (limit <? size + n) eqn:E2; zbool; [right|left]; (split; [lia|]); [|done].
    eexists. split; [done|apply too_big_tooBig].
  - right. unfold isSafeInteger in E. split; [apply andb_false_iff in E as [E|E]; zbool; lia|].
    eexists. split; [done|]. eexists. reflexivity.
Qed.

(** Writing one part, as the code does for labels and lines. *)
Definition emit_part (put : bytes → Z → Z → outcome bytes) (n : Z) (s : option bytes * Z) : outcome (option bytes * Z) :=
  let '(output, size) := s in
  next ← addSize size n limit;
  output ← match output with None => Ok None | Some out => out ← put out size next; Ok (Some out) end;
  Ok (output, next).

Lemma emits_part put bs :
  (∀ written room rest, zlen room = zlen bs →
    put (written ++ room ++ rest) (zlen written) (zlen written + zlen bs) = Ok (written ++ bs ++ rest)) →
  emits (emit_part put (zlen bs)) bs.
Proof using Hlimit.
  intros Hput. pose proof (zlen_nonneg bs). split.
  - intros size Hs. destruct (addSize_spec size (zlen bs) Hs ltac:(done)) as [[Hl E]|(Hl & e & E & He)];
      unfold emit_part; rewrite E; cbn [mbind outcome_bind]; [by left|right; split; [done|by exists e]].
  - intros written room rest Hl Hr. pose proof (zlen_nonneg written).
    destruct (addSize_spec (zlen written) (zlen bs) ltac:(lia) ltac:(done)) as [[_ E]|(Hl' & _)]; [|lia].
    unfold emit_part. rewrite E. cbn [mbind outcome_bind]. by rewrite Hput.
Qed.

Lemma emits_writeByte b : emits (λ s, writeByte options s b) [b].
Proof using Hlimit.
  eapply emits_ext, (emits_part (λ out size next, Ok (typed_put out size b)) [b]).
  - intros [[out|] size]; unfold emit_part, writeByte; change (zlen [b]) with 1; by destruct (addSize size 1 limit).
  - intros written room rest Hr. f_equal. change (zlen [b]) with 1 in Hr.
    destruct room as [|x [|y room]]; [done| |rewrite !zlen_cons in Hr; pose proof (zlen_nonneg room); lia].
    unfold typed_put. pose proof (zlen_nonneg written). cbn [app]. zdec. unfold zlen. rewrite Nat2Z.id. rewrite insert_app_r_alt by lia.
    by rewrite Nat.sub_diag.
Qed.

Lemma emits_set bs : emits (emit_part (λ out size _, typed_set out bs size) (zlen bs)) bs.
Proof using Hlimit. apply emits_part. intros written room rest Hr. by apply typed_set_app. Qed.

Lemma emits_eol (cr : bool) : emits (λ s, s ← (if cr then writeByte options s 0x0d else Ok s); writeByte options s 0x0a) (eol cr).
Proof using Hlimit.
  unfold eol. apply (emits_bind (λ s, if cr then writeByte options s 0x0d else Ok s) (λ s, writeByte options s 0x0a));
    [|apply emits_writeByte]. destruct cr; [apply emits_writeByte|apply emits_nil].
Qed.

Lemma emits_writeMarker marker label cr :
  0 <= markerSize options → emits (λ s, writeMarker options s marker label cr) (marker_line options marker label cr).
Proof using Hlimit.
  intros Hm. unfold marker_line. set (fill := replicate (Z.to_nat (markerSize options)) marker).
  assert (zlen fill = markerSize options) as Hf by by apply zlen_replicate.
  eapply emits_ext; [|apply (emits_bind (emit_part (λ out size next, Ok (typed_fill out marker size next)) (zlen fill)));
    [|apply (emits_bind (λ s, match label with
        | None => Ok s
        | Some label => s ← writeByte options s 0x20; emit_part (λ out size _, typed_set out label size) (zlen label) s end));
      [|apply emits_eol]]].
  - intros [output size]. rewrite Hf. unfold writeMarker, emit_part.
    destruct (addSize size (markerSize options) limit) as [next|e]; cbn [mbind outcome_bind]; [|done].
    destruct output as [out|]; cbn [mbind outcome_bind fmap option_fmap]; destruct label as [l|]; try done.
  - apply emits_part. intros written room rest Hr. f_equal. unfold typed_fill.
    rewrite (Z.min_l (zlen written + zlen fill)) by (rewrite !zlen_app; pose proof (zlen_nonneg rest); lia).
    replace (zlen written + zlen fill - zlen written) with (zlen fill) by lia.
    replace (Z.to_nat (zlen fill)) with (Z.to_nat (markerSize options)) by lia. fold fill. f_equal.
    + unfold zlen. by rewrite Nat2Z.id, take_app_length.
    + f_equal. rewrite <- Hr, <- zlen_app, app_assoc. unfold zlen. by rewrite Nat2Z.id, drop_app_length.
  - destruct label as [l|]; [|apply emits_nil].
    apply (emits_bind (λ s, writeByte options s 0x20) (emit_part (λ out size _, typed_set out l size) (zlen l)) [0x20]);
      [apply emits_writeByte|apply emits_set].
Qed.

End emits.

(** * Copying lines *)

Section records.
  Context (options : ResolvedOptions).
  Context (Hlimit : 0 <= limits options maxOutputBytes <= MAX_SAFE_INTEGER).
Local Notation emits := (emits options).

Lemma record_at_ok l i : 0 <= i < zlen l → ∃ r, at_ l i = Some r ∧ record_at l i = Ok r.
Proof.
  intros Hi. destruct (proj2 (at_is_Some l i) Hi) as [r Hr]. exists r. unfold record_at. by rewrite Hr.
Qed.

Lemma slice_step {A} (l : list A) a n x :
  0 <= a → 0 < n → a + n <= zlen l → at_ l a = Some x → slice l a (a + n) = x :: slice l (a + 1) (a + n).
Proof.
  intros Ha Hn Hl Hx. rewrite <- (slice_cat l a (a + 1) (a + n)) by lia.
  change (x :: slice l (a + 1) (a + n)) with ([x] ++ slice l (a + 1) (a + n)). f_equal.
  apply at_ext. intros i Hi. destruct (decide (i < 1)).
  - replace i with 0 by lia. by rewrite at_slice, Z.add_0_r by lia.
  - rewrite !at_ge; [done| |rewrite zlen_slice by lia; lia]. change (zlen [x]) with 1. lia.
Qed.

Lemma emits_copy_records l a k :
  Forall record_ok l → 0 <= a → a + Z.of_nat k <= zlen l →
  emits (copy_records options l (seqZ a (Z.of_nat k))) (mjoin (slice (content <$> l) a (a + Z.of_nat k))).
Proof using Hlimit.
  intros Hl. revert a. induction k as [|k IH]; intros a Ha Hk.
  { rewrite Z.add_0_r, slice_empty. apply emits_nil. }
  destruct (record_at_ok l a ltac:(lia)) as (r & Hr & Er). pose proof (Forall_at _ _ _ _ Hl Hr) as Hok.
  rewrite (slice_step (content <$> l) a (Z.of_nat (S k)) (content r)); [|lia|lia|rewrite zlen_fmap; lia|by rewrite at_fmap, Hr].
  rewrite seqZ_cons by lia. replace (Z.succ a) with (a + 1) by lia. replace (Z.pred (Z.of_nat (S k))) with (Z.of_nat k) by lia.
  replace (a + Z.of_nat (S k)) with (a + 1 + Z.of_nat k) by lia.
  eapply emits_ext; [|apply (emits_bind _ (emit_part options (λ out size _, typed_set out (content r) size) (zlen (content r))));
    [by apply emits_set|apply (IH (a + 1)); lia]].
  intros [output size]. cbn [copy_records]. rewrite Er. cbn [mbind outcome_bind]. unfold emit_part. rewrite zlen_content by done.
  destruct (addSize size (r_end r - r_start r) _) as [next|e]; cbn [mbind outcome_bind]; [|done].
  destruct output as [out|]; cbn [set_output mbind outcome_bind]; [|done]. fold (content r).
  by destruct (typed_set out (content r) size).
Qed.

Lemma last_slice {A} (l : list A) a n x :
  0 <= a → 0 < n → a + n <= zlen l → at_ l (a + n - 1) = Some x → last (slice l a (a + n)) = Some x.
Proof.
  intros Ha Hn Hl Hx. rewrite <- (slice_cat l a (a + n - 1) (a + n)) by lia.
  pose proof (slice_step l (a + n - 1) 1 x ltac:(lia) ltac:(lia) ltac:(lia) Hx) as E.
  replace (a + n - 1 + 1) with (a + n) in E by lia. rewrite E, slice_empty. apply last_snoc.
Qed.

(** A line ends in a newline if its last byte is one. *)
Lemma last_content r :
  record_ok r → last (content r) = (if r_end r =? r_start r then None else at_ (r_bytes r) (r_end r - 1)).
Proof.
  intros Hr. pose proof Hr as [Hr1 Hr2]. destruct (r_end r =? r_start r) eqn:E; zbool.
  - unfold content. by rewrite E, slice_empty.
  - destruct (proj2 (at_is_Some (r_bytes r) (r_end r - 1)) ltac:(lia)) as [x Hx]. rewrite Hx.
    unfold content. pose proof (last_slice (r_bytes r) (r_start r) (r_end r - r_start r) x) as H.
    replace (r_start r + (r_end r - r_start r)) with (r_end r) in H by lia. apply H; (done || lia).
Qed.

Lemma emits_copyRecords l a n cr :
  Forall record_ok l → 0 <= a → 0 <= n → a + n <= zlen l →
  emits (λ s, copyRecords options s l a n cr false) (mjoin (slice (content <$> l) a (a + n))).
Proof using Hlimit.
  intros Hl Ha Hn Hk. pose proof (emits_copy_records l a (Z.to_nat n) Hl Ha ltac:(lia)) as H.
  rewrite Z2Nat.id in H by lia. eapply emits_ext; [|exact H]. intros s. unfold copyRecords. cbn [andb].
  by destruct (copy_records options l (seqZ a n) s).
Qed.

Lemma emits_copyRecords_closed l a n cr :
  Forall record_ok l → 0 <= a → 0 <= n → a + n <= zlen l →
  emits (λ s, copyRecords options s l a n cr true) (closed cr (slice (content <$> l) a (a + n))).
Proof using Hlimit.
  intros Hl Ha Hn Hk. unfold closed. pose proof (emits_copy_records l a (Z.to_nat n) Hl Ha ltac:(lia)) as H.
  rewrite Z2Nat.id in H by lia. unfold copyRecords. cbn [andb]. destruct (0 <? n) eqn:En; zbool.
  - destruct (record_at_ok l (a + n - 1) ltac:(lia)) as (r & Hr & Er). pose proof (Forall_at _ _ _ _ Hl Hr) as Hok.
    rewrite (last_slice (content <$> l) a n (content r)); [|lia|lia|rewrite zlen_fmap; lia|by rewrite at_fmap, Hr].
    apply emits_bind; [exact H|]. rewrite Er. cbn [mbind outcome_bind]. rewrite last_content by done.
    destruct (r_end r =? r_start r); cbn [orb].
    + rewrite bool_decide_eq_false_2 by done. apply emits_eol; done.
    + destruct (bool_decide (at_ (r_bytes r) (r_end r - 1) = Some 10)); cbn [negb]; [apply emits_nil|by apply emits_eol].
  - replace (a + n) with a by lia. rewrite slice_empty. cbn. assert (n = 0) as -> by lia.
    eapply emits_ext; [|apply emits_nil]. done.
Qed.

(** ** Line ends *)

Lemma isEolCrlf_ok l i : 0 <= i <= Z.max 0 (zlen l - 1) → ∃ v, isEolCrlf l i = Ok v.
Proof.
  intros Hi. unfold isEolCrlf. pose proof (zlen_nonneg l).
  destruct (i <? zlen l - 1) eqn:E; zbool.
  { destruct (record_at_ok l i ltac:(lia)) as (r & _ & ->). cbn [mbind outcome_bind]. eauto. }
  destruct (zlen l =? 0) eqn:E2; zbool; [eauto|].
  destruct (record_at_ok l i ltac:(lia)) as (r & _ & ->). cbn [mbind outcome_bind]. case_match; [eauto|].
  destruct (i =? 0) eqn:E3; zbool; [eauto|].
  destruct (record_at_ok l (i - 1) ltac:(lia)) as (r' & _ & ->). cbn [mbind outcome_bind]. eauto.
Qed.

Lemma isCrNeeded_ok current incoming base r :
  0 <= currentStart r <= zlen current → 0 <= incomingStart r <= zlen incoming →
  ∃ cr, isCrNeeded current incoming base r = Ok cr.
Proof.
  intros Hc Hi. unfold isCrNeeded.
  destruct (isEolCrlf_ok current (if 0 <? currentStart r then currentStart r - 1 else 0)) as [v ->]; [case_match; zbool; lia|].
  cbn [mbind outcome_bind].
  destruct (isEolCrlf_ok incoming (if 0 <? incomingStart r then incomingStart r - 1 else 0)) as [v' E]; [case_match; zbool; lia|].
  destruct (isEolCrlf_ok base 0) as [v'' E']; [lia|].
  destruct (v =? 0) eqn:E1; cbn [negb mbind outcome_bind]; rewrite ?E, ?E1; cbn [negb mbind outcome_bind]; [eauto|].
  destruct (v' =? 0); cbn [negb mbind outcome_bind]; rewrite ?E'; cbn [mbind outcome_bind]; eauto.
Qed.

End records.

(** * Filling *)

Definition conflict_count (ps : list piece) : Z := zlen (List.filter is_conflict ps).

Section fill.
  Context (options : ResolvedOptions).
  Context (Hlimit : 0 <= limits options maxOutputBytes <= MAX_SAFE_INTEGER) (Hmarker : 0 <= markerSize options).
  Context (base current incoming : list ByteRecord).
  Context (Hbase : Forall record_ok base) (Hcur : Forall record_ok current) (Hinc : Forall record_ok incoming).
  Context (exact : bool) (Hexact : style options ≠ Merge → exact = true).
Local Notation emits := (emits options).
Local Notation B := (content <$> base).
Local Notation C := (content <$> current).
Local Notation I := (content <$> incoming).
Local Notation current_of r := (slice C (currentStart r) (currentStart r + currentCount r)).
Local Notation incoming_of r := (slice I (incomingStart r) (incomingStart r + incomingCount r)).

(** The lines of a region lie in their files. *)
Definition inside (r : MergeRegion) (b b' : Z) : Prop :=
  0 <= b ∧ b' <= zlen base ∧ 0 <= currentStart r ∧ currentStart r + currentCount r <= zlen current ∧
  0 <= incomingStart r ∧ incomingStart r + incomingCount r <= zlen incoming.

Definition piece_of (r : MergeRegion) (b b' : Z) (p : piece) : Prop :=
  in_base p = slice B b b' ∧ in_current p = current_of r ∧ in_incoming p = incoming_of r ∧
  is_conflict p = (mode r =? 0).

(** What [fill_region] does of a conflict. *)
Definition conflict_body (r : MergeRegion) (cr : bool) (s : option bytes * Z) : outcome (option bytes * Z) :=
    s ← writeMarker options s 0x3c (l_current (labels options)) cr;
    s ← copyRecords options s current (currentStart r) (currentCount r) cr true;
    s ← (if negb (bool_decide (style options = Merge)) then
           s ← writeMarker options s 0x7c (l_base (labels options)) cr;
           copyRecords options s base (baseStart r) (baseCount r) cr true
         else Ok s);
    s ← writeMarker options s 0x3d None cr;
    s ← copyRecords options s incoming (incomingStart r) (incomingCount r) cr true;
    writeMarker options s 0x3e (l_incoming (labels options)) cr.

Lemma emits_conflict r b b' cr :
  region_ok B C I exact r b b' → inside r b b' →
  emits (conflict_body r cr) (rendered options (Conflicting cr (slice B b b') (current_of r) (incoming_of r))).
Proof using Hlimit Hmarker Hbase Hcur Hinc Hexact.
  intros (Hb & Hc & Hi & Hex & _) (I1 & I2 & I3 & I4 & I5 & I6). cbn [rendered]. unfold conflict_body.
  apply (emits_bind options (λ s, writeMarker options s 0x3c (l_current (labels options)) cr)); [by apply emits_writeMarker|].
  apply (emits_bind options (λ s, copyRecords options s current (currentStart r) (currentCount r) cr true));
    [by apply emits_copyRecords_closed|].
  apply (emits_bind options (λ s, if negb (bool_decide (style options = Merge)) then _ else Ok s)).
  { case_bool_decide as Hs; cbn [negb]; [apply emits_nil|].
    apply (emits_bind options (λ s, writeMarker options s 0x7c (l_base (labels options)) cr)); [by apply emits_writeMarker|].
    destruct (Hex (Hexact Hs)) as [-> ->]. apply emits_copyRecords_closed; (done || lia). }
  apply (emits_bind options (λ s, writeMarker options s 0x3d None cr)); [by apply emits_writeMarker|].
  apply (emits_bind options (λ s, copyRecords options s incoming (incomingStart r) (incomingCount r) cr true));
    [by apply emits_copyRecords_closed|by apply emits_writeMarker].
Qed.

Lemma fill_region_spec r b b' line :
  region_ok B C I exact r b b' → inside r b b' → mode r ≠ 4 → 0 <= line <= currentStart r →
  ∃ p body, piece_of r b b' p ∧
    (∀ s, fill_region options base current incoming r line s =
      (s ← copyRecords options s current line (currentStart r - line) false false;
       s ← body s; Ok (s, currentStart r + currentCount r))) ∧
    emits body (rendered options p).
Proof using Hlimit Hmarker Hbase Hcur Hinc Hexact.
  intros Hok Hin H4 Hl. pose proof Hok as (Hb & Hc & Hi & Hex & Hmode). pose proof Hin as (I1 & I2 & I3 & I4 & I5 & I6).
  destruct (isCrNeeded_ok current incoming base r) as [cr Ecr]; [lia|lia|].
  unfold fill_region. rewrite Ecr. cbn [mbind outcome_bind]. rewrite (proj2 (Z.eqb_neq _ _) H4).
  destruct Hmode as [Hm|[(Hm & Hn & Hr)|[(Hm & Hn & Hr)|(Hm & _)]]]; [..|done].
  - exists (Conflicting cr (slice B b b') (current_of r) (incoming_of r)), (conflict_body r cr).
    split; [split_and!; rewrite ?Hm; done|]. split; [|by apply emits_conflict]. intros s. by rewrite Hm.
  - exists (TakesCurrent (slice B b b') (current_of r)), (λ s, copyRecords options s current (currentStart r) (currentCount r) cr false).
    split; [|split; [|apply emits_copyRecords; (done || lia)]].
    + split_and!; rewrite ?Hm; try done. cbn. apply run_slice in Hr; [|lia..].
      replace (b + (b' - b)) with b' in Hr by lia. by rewrite Hr, Hn.
    + intros s. rewrite Hm. change (negb (Z.land 1 2 =? 0)) with false. cbn [Z.eqb].
      destruct (copyRecords options s current line _ false false) as [s'|]; [|done]. cbn [mbind outcome_bind].
      change (negb (Z.land 1 1 =? 0)) with true. cbn iota. by destruct (copyRecords options s' current _ _ cr false).
  - exists (TakesIncoming (slice B b b') (incoming_of r)), (λ s, copyRecords options s incoming (incomingStart r) (incomingCount r) false false).
    split; [|split; [|apply emits_copyRecords; (done || lia)]].
    + split_and!; rewrite ?Hm; try done. cbn. apply run_slice in Hr; [|lia..].
      replace (b + (b' - b)) with b' in Hr by lia. by rewrite Hr, Hn.
    + intros s. by rewrite Hm.
Qed.

(** What is left of [fillMerge] from a region on. *)
Definition finish (rs : list MergeRegion) (line : Z) (s : option bytes * Z) : outcome (option bytes * Z) :=
  '(s, line) ← fill_regions options base current incoming rs line s;
  copyRecords options s current line (zlen current - line) false false.

Definition pieces_of (ps : list piece) (b c i b' c' i' : Z) : Prop :=
  mjoin (in_base <$> ps) = slice B b b' ∧ mjoin (in_current <$> ps) = slice C c c' ∧
  mjoin (in_incoming <$> ps) = slice I i i'.

Lemma pieces_cons p ps b c i b1 c1 i1 b' c' i' :
  in_base p = slice B b b1 → in_current p = slice C c c1 → in_incoming p = slice I i i1 →
  pieces_of ps b1 c1 i1 b' c' i' → 0 <= b <= b1 → b1 <= b' <= zlen base → 0 <= c <= c1 → c1 <= c' <= zlen current →
  0 <= i <= i1 → i1 <= i' <= zlen incoming → pieces_of (p :: ps) b c i b' c' i'.
Proof using Type.
  intros E1 E2 E3 (P1 & P2 & P3) ? ? ? ? ? ?. unfold pieces_of. rewrite !fmap_cons, !mjoin_cons.
  rewrite E1, E2, E3, P1, P2, P3. split_and!; apply slice_cat; rewrite ?zlen_fmap; lia.
Qed.

Lemma join_gap line c c' rest :
  0 <= line <= c → c <= c' <= zlen current →
  mjoin (slice C line c') ++ rest = mjoin (slice C line c) ++ mjoin (slice C c c') ++ rest.
Proof using Type.
  intros. rewrite <- (slice_cat C line c c') by (rewrite ?zlen_fmap; lia). by rewrite mjoin_app, <- app_assoc.
Qed.

Lemma fill_tiles b c i rs b' c' i' :
  tiles B C I exact b c i rs b' c' i' → 0 <= b → 0 <= c → 0 <= i →
  b' <= zlen base → c' = zlen current → i' = zlen incoming →
  ∀ line, 0 <= line <= c →
  ∃ ps, pieces_of ps b c i b' c' i' ∧ conflict_count ps = conflicts_in rs ∧
    emits (finish rs line) (mjoin (slice C line c) ++ mjoin (rendered options <$> ps)).
Proof using Hlimit Hmarker Hbase Hcur Hinc Hexact.
  induction 1 as [b c i|b c i rs b' c' i' p n Hb Hn Hr Ht IH|b p r rs b' c' i' Hok Ht IH]; intros H1 H2 H3 Hb' Hc' Hi' line Hl.
  - exists []. split_and!; [by unfold pieces_of; rewrite !slice_empty|done|]. rewrite app_nil_r. unfold finish. cbn [fill_regions mbind outcome_bind].
    pose proof (emits_copyRecords options Hlimit current line (zlen current - line) false Hcur ltac:(lia) ltac:(lia) ltac:(lia)) as H.
    by replace (line + (zlen current - line)) with c in H by lia.
  - pose proof (tiles_le _ _ _ _ _ _ _ _ _ _ _ Ht).
    destruct (IH ltac:(lia) ltac:(lia) ltac:(lia) Hb' Hc' Hi' line ltac:(lia)) as (ps & Hps & Hcount & He).
    exists (Agreed (slice B b p) (slice C c (c + n)) :: ps). split_and!; [|done|].
    + eapply pieces_cons; [done|done| |exact Hps|lia..]. by apply run_slice; [lia..|].
    + rewrite (join_gap line c (c + n)) in He by lia. exact He.
  - pose proof (tiles_le _ _ _ _ _ _ _ _ _ _ _ Ht). pose proof Hok as (Hbp & Hcc & Hic & _ & Hmode).
    destruct (decide (mode r = 4)) as [H4|H4].
    + destruct Hmode as [?|[[? _]|[[? _]|(_ & Hn & Hr)]]]; [lia..|].
      destruct (IH ltac:(lia) ltac:(lia) ltac:(lia) Hb' Hc' Hi' line ltac:(lia)) as (ps & Hps & Hcount & He).
      exists (Agreed (slice B b p) (slice C (currentStart r) (currentStart r + currentCount r)) :: ps). split_and!.
      * eapply pieces_cons; [done|done| |exact Hps|lia..]. cbn. rewrite <- Hn. by apply run_slice; [lia..|].
      * cbn [conflicts_in]. rewrite H4. exact Hcount.
      * rewrite (join_gap line (currentStart r)) in He by lia. eapply emits_ext; [|exact He].
        intros s. unfold finish. cbn [fill_regions]. unfold fill_region. by rewrite H4.
    + destruct (fill_region_spec r b p line Hok) as (pc & body & (P1 & P2 & P3 & P4) & Hfill & Hbody);
        [unfold inside; split_and!; lia|done|lia|].
      destruct (IH ltac:(lia) ltac:(lia) ltac:(lia) Hb' Hc' Hi' (currentStart r + currentCount r) ltac:(lia)) as (ps & Hps & Hcount & He).
      exists (pc :: ps). split_and!.
      * eapply pieces_cons; [exact P1|exact P2|exact P3|exact Hps|lia..].
      * unfold conflict_count in *. cbn [List.filter conflicts_in]. rewrite P4.
        destruct (mode r =? 0); [rewrite zlen_cons|]; lia.
      * rewrite slice_empty in He. rewrite fmap_cons, mjoin_cons.
        pose proof (emits_copyRecords options Hlimit current line (currentStart r - line) false Hcur ltac:(lia) ltac:(lia) ltac:(lia)) as Hpre.
        replace (line + (currentStart r - line)) with (currentStart r) in Hpre by lia.
        eapply emits_ext; [|apply (emits_bind options _ _ _ _ Hpre (emits_bind options _ _ _ _ Hbody He))].
        intros s. unfold finish. cbn [fill_regions]. rewrite Hfill.
        destruct (copyRecords options s current line _ false false) as [s'|]; [|done]. cbn [mbind outcome_bind]. by destruct (body s').
Qed.

Lemma fillMerge_finish output rs : fillMerge options base current incoming output rs = finish rs 0 (output, 0).
Proof using Type. done. Qed.

End fill.
