(* ===== verification/Xmerge.v ===== *)
(** Three-way text merges, end to end: src/packages/git/src/diff/xmerge.ts. *)

From S2P Require Import Prelude Arrays MyersState MyersPrepareFacts Myers XmergeInput XmergeRegions XmergeOutput.

Inductive TextMergeResult : Type :=
| Clean (content : bytes) (memory : TextMergeMemoryEstimate)
| Conflict (content : bytes) (conflicts : Z) (memory : TextMergeMemoryEstimate)
| Binary (memory : TextMergeMemoryEstimate).

Definition count_conflicts (regions : list MergeRegion) : Z :=
  foldl (λ count region, count + (if mode region =? 0 then 1 else 0)) 0 regions.

Definition refine_regions (resolved : ResolvedOptions) (currentLines incomingLines : list ByteRecord) (regions : list MergeRegion)
    : fallible (list MergeRegion) :=
  if bool_decide (style resolved = Zdiff3) then mret (refineZdiff3 currentLines incomingLines regions)
  else if bool_decide (style resolved = Merge) && negb (bool_decide (refinement resolved = Eager)) then
    regions ← refineConflicts currentLines incomingLines regions (limits resolved maxChangeGroups) (limits resolved maxConflicts)
                (r_indentHeuristic resolved);
    mret (simplifyConflicts currentLines regions (bool_decide (refinement resolved = ZealousAlnum)))
  else mret regions.

Definition write_merge (resolved : ResolvedOptions) (memory : TextMergeMemoryEstimate)
    (baseLines currentLines incomingLines : list ByteRecord) (regions : list MergeRegion) : outcome TextMergeResult :=
  let conflicts := count_conflicts regions in
  if limits resolved maxConflicts <? conflicts then Throw (conflict_error (limits resolved maxConflicts))
  else
    _ ← validateConflictRegions resolved baseLines currentLines incomingLines regions;
    '(_, size) ← fillMerge resolved baseLines currentLines incomingLines None regions;
    '(output, written) ← fillMerge resolved baseLines currentLines incomingLines (Some (replicate (Z.to_nat size) 0)) regions;
    if negb (written =? size) then Throw (GitErr "ECORRUPT" "text merge output size changed while writing")
    else
      let content := default [] output in
      Ok (if conflicts =? 0 then Clean content memory else Conflict content conflicts memory).

Definition mergeText (base current incoming : bytes) (options : TextMergeOptions) : fallible TextMergeResult :=
  resolved ← total (resolveOptions options);
  memory ← total (estimateResolvedTextMergeMemory base current incoming resolved);
  if isBinary base || isBinary current || isBinary incoming then mret (Binary memory)
  else if bytesEqual current incoming then mret (Clean current memory)
  else if bytesEqual base current then mret (Clean incoming memory)
  else if bytesEqual base incoming then mret (Clean current memory)
  else
    let baseLines := splitByteRecords base in
    let currentLines := splitByteRecords current in
    let incomingLines := splitByteRecords incoming in
    let max := limits resolved maxChangeGroups in
    currentChanges ← (diffByteRecords baseLines currentLines (mkOptions (r_indentHeuristic resolved) (Some max)) : fallible _);
    incomingChanges ← (diffByteRecords baseLines incomingLines
                         (mkOptions (r_indentHeuristic resolved) (Some (max - zlen currentChanges))) : fallible _);
    if max <? zlen currentChanges + zlen incomingChanges then total (Throw (tooBig "text merge change list" max))
    else
      regions ← total (buildMergeRegions currentLines incomingLines currentChanges incomingChanges
                         (zlen baseLines) (zlen currentLines) (zlen incomingLines) (limits resolved maxConflicts));
      regions ← refine_regions resolved currentLines incomingLines regions;
      total (write_merge resolved memory baseLines currentLines incomingLines regions).
