(* ===== verification/XmergeFacts.v ===== *)
(** Three-way merges, end to end: what [mergeText] returns. *)

From S2P Require Import Prelude Utf8 Text Bytes Arrays Objects MyersState MyersPrepareFacts MyersScript Myers Unified.
From S2P Require Import XmergeInput XmergeRegions XmergeRegionsFacts XmergeRefineFacts XmergeOutput XmergeOutputFacts Xmerge.

(** * Lines *)

Lemma slice_snoc_none (bs : bytes) start index :
  0 <= start <= index → index <= zlen bs →
  slice bs start index ++ slice_from bs index = slice_from bs start.
Proof. intros. rewrite !slice_from_slice by lia. apply slice_cat; lia. Qed.

Lemma split_records_spec all pre rest start :
  all = pre ++ rest → 0 <= start <= zlen pre → NEWLINE ∉ slice all start (zlen pre) →
  let rs := split_records all rest (zlen pre) start in
  Forall record_ok rs ∧ mjoin (content <$> rs) = slice_from all start ∧ lines_ok (content <$> rs) ∧ zlen rs <= zlen all - start.
Proof.
  revert pre start. induction rest as [|b rest IH]; intros pre start Hall Hs Hn; cbn [split_records]; cbv zeta.
  - rewrite app_nil_r in Hall. subst pre. destruct (start <? zlen all) eqn:E; zbool.
    + change (content <$> [mkByteRecord all start (zlen all)]) with [slice all start (zlen all)].
      rewrite slice_from_slice, zlen_cons by lia. change (zlen (@nil ByteRecord)) with 0.
      split_and!; [by repeat constructor; cbn; lia|by rewrite mjoin_cons, app_nil_r| |lia].
      split; [|done]. exists (slice all start (zlen all)). split; [done|]. right. split_and!; [done| |done].
      intros Hnil. apply (f_equal zlen) in Hnil. rewrite zlen_slice in Hnil by lia. change (zlen []) with 0 in Hnil. lia.
    + replace start with (zlen all) by lia. rewrite slice_from_slice, slice_empty by (pose proof (zlen_nonneg all); lia).
      change (zlen (@nil ByteRecord)) with 0. split_and!; [constructor|done|done|lia].
  - assert (all = (pre ++ [b]) ++ rest) as Hall' by by rewrite <- app_assoc.
    assert (zlen (pre ++ [b]) = zlen pre + 1) as Hlen by (rewrite zlen_app; done).
    pose proof (zlen_nonneg rest). assert (zlen pre + 1 <= zlen all) as Hle by (rewrite Hall', zlen_app; lia).
    assert (slice all (zlen pre) (zlen pre + 1) = [b]) as Hb.
    { rewrite Hall. pose proof (slice_app_mid pre [b] rest) as H1. exact H1. }
    destruct (b =? 10) eqn:E; zbool.
    + subst b. specialize (IH (pre ++ [10]) (zlen pre + 1) Hall'). rewrite Hlen in IH.
      destruct IH as (R1 & R2 & R3 & R4); [lia|rewrite slice_empty; apply not_elem_of_nil|]. rewrite fmap_cons, mjoin_cons, zlen_cons.
      assert (content (mkByteRecord all start (zlen pre + 1)) = slice all start (zlen pre) ++ [10]) as Ec.
      { unfold content. cbn [r_bytes r_start r_end]. rewrite <- Hb. symmetry. apply slice_cat; lia. }
      split_and!.
      * constructor; [unfold record_ok; cbn; lia|done].
      * rewrite R2. unfold content. cbn [r_bytes r_start r_end]. apply slice_snoc_none; lia.
      * rewrite Ec. split; [|done]. exists (slice all start (zlen pre)). split; [done|by left].
      * lia.
    + specialize (IH (pre ++ [b]) start Hall'). rewrite Hlen in IH. apply IH; [lia|].
      rewrite <- (slice_cat all start (zlen pre)) by lia. rewrite Hb. intros [Hin|Hin]%elem_of_app; [done|].
      apply list_elem_of_singleton in Hin. by subst b.
Qed.

Lemma splitByteRecords_spec bs :
  Forall record_ok (splitByteRecords bs) ∧ mjoin (content <$> splitByteRecords bs) = bs ∧
  lines_ok (content <$> splitByteRecords bs) ∧ zlen (splitByteRecords bs) <= zlen bs.
Proof.
  destruct bs as [|b bs]; [by split_and!|]. unfold splitByteRecords.
  destruct (split_records_spec (b :: bs) [] (b :: bs) 0 eq_refl) as (H1 & H2 & H3 & H4); [done|rewrite slice_empty; apply not_elem_of_nil|].
  split_and!; [exact H1|exact H2|exact H3|]. rewrite Z.sub_0_r in H4. exact H4.
Qed.

(** * Errors *)

(** A merge throws nothing but these. *)
Definition refused (e : jserror) : Prop := ∃ m, e = GitError (js "EINVAL") m ∨ e = GitError (js "E2BIG") m.

Lemma too_big_refused e : too_big e → refused e.
Proof. intros [m ->]. exists m. by right. Qed.

(** What an outcome returns, or a refusal. *)
Definition answers {X} (P : X → Prop) (o : outcome X) : Prop :=
  match o with Ok x => P x | Throw e => refused e end.

Lemma answers_bind {X Y} (P : X → Prop) (Q : Y → Prop) o (k : X → outcome Y) :
  answers P o → (∀ x, P x → answers Q (k x)) → answers Q (x ← o; k x).
Proof. destruct o as [x|e]; cbn; [auto|done]. Qed.

Lemma answers_impl {X} (P Q : X → Prop) o : answers P o → (∀ x, P x → Q x) → answers Q o.
Proof. destruct o; cbn; auto. Qed.

Lemma refused_big m : refused (GitError (js "E2BIG") m).
Proof. exists m. by right. Qed.
Lemma refused_inval m : refused (GitError (js "EINVAL") m).
Proof. exists m. by left. Qed.

#[local] Hint Resolve refused_big refused_inval too_big_refused : core.

(** One check_guard of the code, then the rest. *)
Ltac check_guard := match goal with
  | |- answers _ (if ?c then Throw _ else _) => let E := fresh "E" in destruct c eqn:E; [unfold tooBig, unsafe_capacity, not_natural, label_error, GitErr; cbn; auto|]
  end.

Lemma checkedSum_answers values resource :
  answers (λ s, s = foldl Z.add 0 values) (checkedSum values resource).
Proof.
  unfold checkedSum. generalize 0. induction values as [|v values IH]; intros sum; cbn [checkedSum_from foldl]; [done|].
  check_guard. apply IH.
Qed.

Lemma safeProduct_answers l r resource : answers (λ p, p = l * r) (safeProduct l r resource).
Proof. unfold safeProduct. by check_guard. Qed.

Lemma all_within_answers values limit e :
  refused e → answers (λ _, Forall (λ v, v <= limit) values) (all_within values limit e).
Proof.
  intros He. induction values as [|v values IH]; cbn [all_within]; [by constructor|].
  destruct (limit <? v) eqn:E; [done|]. zbool. eapply answers_impl; [exact IH|]. intros ? ?. by constructor.
Qed.

(** ** Options *)

Lemma cappedLimit_answers l v ceiling : 0 <= ceiling → answers (λ x, 0 <= x <= ceiling) (cappedLimit l v ceiling).
Proof.
  intros Hc. unfold cappedLimit. destruct v as [v|]; [|cbn; lia]. check_guard. check_guard. cbn.
  apply orb_false_iff in E as [_ E]. zbool. lia.
Qed.

Lemma capped_limits_answers ls partial acc :
  (∀ l, 0 <= acc l <= DEFAULT_TEXT_MERGE_LIMITS l) →
  answers (λ r : LimitName → Z, ∀ l, 0 <= r l <= DEFAULT_TEXT_MERGE_LIMITS l) (capped_limits ls partial acc).
Proof.
  revert acc. induction ls as [|l ls IH]; intros acc Ha; cbn [capped_limits]; [done|].
  eapply answers_bind; [apply (cappedLimit_answers l (partial l)); destruct l; done|]. intros v Hv. apply IH.
  intros k. case_decide; [by subst|done].
Qed.

Lemma check_limits_answers ls ms : answers (λ _, True) (check_limits ls ms).
Proof. induction ls as [|l ls IH]; cbn [check_limits]; [done|]. by check_guard. Qed.

Lemma scan_label_answers label role limit count : answers (λ _, True) (scan_label label role limit count).
Proof.
  revert count. remember (length label) as n eqn:Hn. assert (length label <= n)%nat as Hl by lia. clear Hn.
  revert label Hl. induction n as [|n IH]; intros [|u label] Hl count; cbn [length] in Hl; try done; [lia|].
  cbn [scan_label]. cbv zeta. check_guard. case_match.
  - destruct label as [|next label]; [by check_guard|]. check_guard. check_guard. apply IH. cbn [length] in Hl. lia.
  - check_guard. check_guard. apply IH. lia.
Qed.

Lemma encodeLabel_answers label role limit : answers (λ _, True) (encodeLabel label role limit).
Proof. unfold encodeLabel. destruct label; [|done]. by eapply answers_bind; [apply scan_label_answers|]. Qed.

(** Resolved options keep every limit under its ceiling. *)
Definition resolved_ok (r : ResolvedOptions) : Prop :=
  (∀ l, 0 <= limits r l <= DEFAULT_TEXT_MERGE_LIMITS l) ∧ 1 <= markerSize r <= limits r maxMarkerSize.

Lemma resolveOptions_answers options : answers resolved_ok (resolveOptions options).
Proof.
  unfold resolveOptions. eapply answers_bind; [apply capped_limits_answers; intros []; done|]. intros ms Hms.
  eapply answers_bind; [apply check_limits_answers|]. intros [] _. cbv zeta.
  eapply (answers_bind (λ _, True)); [unfold resolve_style; by repeat case_bool_decide; cbn; auto|]. intros s _.
  eapply (answers_bind (λ _, True)); [unfold resolve_refinement; by repeat case_bool_decide; cbn; auto|]. intros k _.
  check_guard. check_guard. zbool. apply orb_false_iff in E as [_ E]. zbool.
  eapply answers_bind; [apply encodeLabel_answers|]. intros c _.
  eapply answers_bind; [apply encodeLabel_answers|]. intros b _.
  eapply answers_bind; [apply encodeLabel_answers|]. intros i _. cbn. unfold resolved_ok. cbn. split; [done|lia].
Qed.

(** ** Memory *)

Lemma memoryEstimate_answers ib ln al ch me ob options :
  answers (λ m, peakBytes m <= limits options maxMemoryBytes ∧ outputBytes m = ob) (memoryEstimate ib ln al ch me ob options).
Proof.
  unfold memoryEstimate. do 4 (eapply answers_bind; [apply safeProduct_answers|]; intros ? _).
  do 2 (eapply answers_bind; [apply checkedSum_answers|]; intros ? _). check_guard. zbool. cbn. split; [lia|done].
Qed.

Definition memory_ok (options : ResolvedOptions) (base current incoming : bytes) (m : TextMergeMemoryEstimate) : Prop :=
  peakBytes m <= limits options maxMemoryBytes ∧ outputBytes m <= limits options maxOutputBytes ∧
  Forall (λ v, v <= limits options maxInputBytes) [zlen base; zlen current; zlen incoming] ∧
  (isBinary base || isBinary current || isBinary incoming = false →
   ∀ output, identityMergeContent base current incoming = Some output → zlen output <= limits options maxOutputBytes).

Lemma estimate_answers base current incoming options :
  0 <= limits options maxOutputBytes →
  answers (memory_ok options base current incoming) (estimateResolvedTextMergeMemory base current incoming options).
Proof.
  intros Ho. unfold estimateResolvedTextMergeMemory.
  eapply (answers_bind (λ _, Forall (λ v, v <= limits options maxInputBytes) [zlen base; zlen current; zlen incoming])).
  { unfold validateAndScanInputs. eapply answers_bind; [apply all_within_answers, refused_big|]. intros [] Hin.
    eapply answers_bind; [apply checkedSum_answers|]. intros total _. check_guard. cbv zeta.
    eapply answers_bind; [apply checkedSum_answers|]. intros ln _. check_guard.
    eapply answers_bind; [apply all_within_answers, refused_big|]. intros ? _. exact Hin. }
  intros [[b c] i] Hin. eapply answers_bind; [apply checkedSum_answers|]. intros ib _.
  assert (∀ ib ln al ch me ob, ob <= limits options maxOutputBytes →
    (isBinary base || isBinary current || isBinary incoming = false →
     ∀ output, identityMergeContent base current incoming = Some output → zlen output <= limits options maxOutputBytes) →
    answers (memory_ok options base current incoming) (memoryEstimate ib ln al ch me ob options)) as Hm.
  { intros. eapply answers_impl; [apply memoryEstimate_answers|]. intros m [? E]. unfold memory_ok. by rewrite E. }
  destruct (isBinary base || isBinary current || isBinary incoming); [by apply Hm|].
  destruct (identityMergeContent base current incoming) as [output|].
  { check_guard. zbool. apply Hm; [done|]. by intros _ ? [= <-]. }
  cbv zeta. eapply answers_bind; [apply checkedSum_answers|]. intros ln _.
  eapply answers_bind; [apply checkedSum_answers|]. intros out _. apply Hm; [lia|done].
Qed.

(** * Writing *)

Lemma count_conflicts_in rs : count_conflicts rs = conflicts_in rs.
Proof.
  unfold count_conflicts. assert (∀ n, foldl (λ c r, c + (if mode r =? 0 then 1 else 0)) n rs = n + conflicts_in rs) as H.
  { induction rs as [|r rs IH]; intros n; cbn [foldl conflicts_in]; [lia|]. rewrite IH. lia. }
  apply H.
Qed.

Lemma recordsLength_answers l start count :
  0 <= start → start + count <= zlen l → answers (λ _, True) (recordsLength l start count).
Proof.
  intros Hs Hl. unfold recordsLength.
  assert (Forall (λ i, 0 <= i < zlen l) (seqZ start count)) as Hi.
  { apply Forall_forall. intros i Hi%elem_of_seqZ. lia. }
  assert (∀ n, answers (λ _, True) (recordsLength_loop l (seqZ start count) n)) as H; [|apply H].
  induction Hi as [|i idx Hi0 Hi IH]; intros n; cbn [recordsLength_loop]; [done|].
  destruct (record_at_ok l i Hi0) as (r & _ & ->). cbn [mbind outcome_bind].
  eapply answers_bind; [apply checkedSum_answers|]. intros ? _. apply IH.
Qed.

Section write.
  Context (options : ResolvedOptions) (Hopt : resolved_ok options).
  Context (base current incoming : list ByteRecord).
  Context (Hbase : Forall record_ok base) (Hcur : Forall record_ok current) (Hinc : Forall record_ok incoming).
  Context (exact : bool) (Hexact : style options ≠ Merge → exact = true).
Local Notation B := (content <$> base).
Local Notation C := (content <$> current).
Local Notation I := (content <$> incoming).

Lemma validate_answers b c i rs b' c' i' :
  tiles B C I exact b c i rs b' c' i' → 0 <= b → 0 <= c → 0 <= i →
  b' <= zlen base → c' <= zlen current → i' <= zlen incoming →
  answers (λ _, True) (validateConflictRegions options base current incoming rs).
Proof using Hexact.
  induction 1 as [b c i|b c i rs b' c' i' p n Hb Hn Hr Ht IH|b p r rs b' c' i' Hok Ht IH]; intros H1 H2 H3 H4 H5 H6;
    cbn [validateConflictRegions]; [done|apply IH; lia|].
  pose proof (tiles_le _ _ _ _ _ _ _ _ _ _ _ Ht). destruct Hok as (Hbp & Hcc & Hic & Hex & _).
  specialize (IH ltac:(lia) ltac:(lia) ltac:(lia) H4 H5 H6). destruct (negb (mode r =? 0)); [done|].
  eapply answers_bind; [apply recordsLength_answers; lia|]. intros n1 _.
  eapply answers_bind; [apply recordsLength_answers; lia|]. intros n2 _.
  eapply answers_bind; [apply checkedSum_answers|]. intros n3 _.
  eapply (answers_bind (λ _, True)).
  { case_bool_decide as Hs; cbn [negb]; [done|]. destruct (Hex (Hexact Hs)) as [-> ->].
    eapply answers_bind; [apply recordsLength_answers; lia|]. intros n4 _.
    eapply answers_impl; [apply checkedSum_answers|done]. }
  intros n4 _. check_guard. exact IH.
Qed.

(** Pieces of three files, and the merge rule applied to each. *)
Definition merged (options : ResolvedOptions) (bl cl il : list bytes) (output : bytes) (n : Z) : Prop :=
  ∃ ps, mjoin (in_base <$> ps) = bl ∧ mjoin (in_current <$> ps) = cl ∧ mjoin (in_incoming <$> ps) = il ∧
    output = mjoin (rendered options <$> ps) ∧ n = conflict_count ps ∧ zlen output <= limits options maxOutputBytes.

Definition merge_result (bl cl il : list bytes) (r : TextMergeResult) : Prop :=
  match r with
  | Clean output _ => merged options bl cl il output 0
  | Conflict output n _ => 0 < n ∧ merged options bl cl il output n
  | Binary _ => False
  end.

Lemma write_merge_answers memory rs :
  tiles B C I exact 0 0 0 rs (zlen B) (zlen C) (zlen I) →
  answers (merge_result B C I) (write_merge options memory base current incoming rs).
Proof using Hopt Hbase Hcur Hinc Hexact.
  intros Ht. rewrite !zlen_fmap in Ht. destruct Hopt as [Hlim Hmark].
  assert (0 <= limits options maxOutputBytes <= MAX_SAFE_INTEGER) as Hl.
  { destruct (Hlim maxOutputBytes) as [? Hle]. split; [done|]. etransitivity; [exact Hle|]. vm_compute; congruence. }
  unfold write_merge. cbv zeta. rewrite count_conflicts_in. unfold conflict_error. check_guard.
  eapply answers_bind; [eapply validate_answers; [exact Ht|..]; lia|]. intros _ _.
  destruct (fill_tiles options Hl ltac:(lia) base current incoming Hbase Hcur Hinc exact Hexact _ _ _ _ _ _ _ Ht
    (Z.le_refl 0) (Z.le_refl 0) (Z.le_refl 0) (Z.le_refl _) eq_refl eq_refl 0 ltac:(lia)) as (ps & (P1 & P2 & P3) & Hcount & E1 & E2).
  rewrite !fillMerge_finish. rewrite slice_empty in E1, E2. cbn [app] in E1, E2. change (mjoin [] ++ ?x) with x in E1, E2.
  destruct (E1 0 ltac:(lia)) as [[Hz ->]|(Hz & e & -> & He)]; [|cbn; auto]. cbn [mbind outcome_bind]. rewrite !Z.add_0_l in *.
  set (out := mjoin (rendered options <$> ps)) in *.
  pose proof (E2 [] (replicate (Z.to_nat (zlen out)) 0) []) as E3. rewrite app_nil_r in E3. cbn [app] in E3.
  change (zlen (@nil Z)) with 0 in E3. rewrite Z.add_0_l in E3. rewrite fillMerge_finish, E3; [|lia|by apply zlen_replicate, zlen_nonneg].
  cbn [mbind outcome_bind]. rewrite Z.eqb_refl. cbn [negb]. rewrite app_nil_r. cbn [default from_option].
  assert (merged options B C I out (conflicts_in rs)) as Hm.
  { exists ps. rewrite <- (zlen_fmap content) in P1. rewrite <- (zlen_fmap content) in P2. rewrite <- (zlen_fmap content) in P3.
    rewrite slice_all in P1, P2, P3. by split_and!. }
  destruct (conflicts_in rs =? 0) eqn:E0; zbool; cbn.
  - by rewrite <- E0.
  - split; [pose proof (conflicts_nonneg rs); lia|done].
Qed.

End write.

(** * Merging *)

Lemma bytesEqual_loop_spec fuel l r index :
  zlen l - index <= Z.of_nat fuel → 
  bytesEqual_loop fuel l r index = true ↔ ∀ i, index <= i < zlen l → at_ l i = at_ r i.
Proof.
  revert index. induction fuel as [|fuel IH]; intros index Hf; cbn [bytesEqual_loop]; [split; [intros _ i; lia|done]|].
  destruct (index <? zlen l) eqn:E; zbool; [|split; [intros _ i; lia|done]]. case_bool_decide as Ea.
  - rewrite IH by lia. split; intros H i Hi; [|apply H; lia]. destruct (decide (i = index)) as [->|]; [done|apply H; lia].
  - split; [done|]. intros H. destruct Ea. apply H. lia.
Qed.

Lemma bytesEqual_spec l r : bytesEqual l r = true ↔ l = r.
Proof.
  unfold bytesEqual. destruct (zlen l =? zlen r) eqn:E; cbn [negb]; zbool; [|split; [done|by intros ->]].
  rewrite bytesEqual_loop_spec by (unfold zlen; lia). split; [|by intros ->]. intros H. apply at_ext. intros i Hi.
  destruct (decide (i < zlen l)); [by apply H|]. by rewrite !at_ge by lia.
Qed.

(** Fallible computations that end and answer. *)
Definition settles {X} (P : X → Prop) (m : fallible X) : Prop := ∃ o, m = Some o ∧ answers P o.

Lemma settles_bind {X Y} (P : X → Prop) (Q : Y → Prop) m (k : X → fallible Y) :
  settles P m → (∀ x, P x → settles Q (k x)) → settles Q (x ← m; k x).
Proof.
  intros ([x|e] & -> & H) Hk; [by apply Hk|]. exists (Throw e). by split.
Qed.

Lemma settles_total {X} (P : X → Prop) o : answers P o → settles P (total o).
Proof. intros H. by exists o. Qed.

Lemma diff_settles old new options :
  Forall record_ok old → Forall record_ok new → zlen old + zlen new < MAX_SAFE_INTEGER →
  (∀ k, maxChanges options = Some k → 0 <= k) →
  settles (λ gs, script (content <$> old) (content <$> new) true 0 0 gs ∧
                 ∀ k, maxChanges options = Some k → zlen gs <= k) (diffByteRecords old new options).
Proof.
  intros H1 H2 Hs Hk. destruct (diffByteRecords_spec old new options H1 H2 Hs Hk) as (gs & Hgs & Hrun & ->).
  rewrite <- (zlen_fmap content old), <- (zlen_fmap content new) in Hgs.
  pose proof (agrees_of_run _ _ _ _ _ _ Hgs (Z.le_refl 0) (Z.le_refl 0) Hrun) as Hag.
  apply (script_of_agrees _ _ true) in Hag; [|done..]. eexists. split; [done|].
  destruct (maxChanges options) as [k|]; [|by split]. destruct (zlen gs <=? k) eqn:E; zbool; [cbn|apply refused_big].
  split; [done|]. by intros ? [= <-].
Qed.

Section merge.
  Context (options : ResolvedOptions) (Hopt : resolved_ok options).
  Context (base current incoming : list ByteRecord).
  Context (Hbase : Forall record_ok base) (Hcur : Forall record_ok current) (Hinc : Forall record_ok incoming).
  Context (Hsize : zlen base + zlen current + zlen incoming < MAX_SAFE_INTEGER).
Local Notation B := (content <$> base).
Local Notation C := (content <$> current).
Local Notation I := (content <$> incoming).

Lemma refine_regions_settles rs :
  tiles B C I true 0 0 0 rs (zlen B) (zlen C) (zlen I) →
  settles (λ rs, ∃ exact : bool, (style options ≠ Merge → exact = true) ∧ tiles B C I exact 0 0 0 rs (zlen B) (zlen C) (zlen I))
    (refine_regions options current incoming rs).
Proof using Hopt Hcur Hinc Hsize.
  intros Ht. pose proof (zlen_nonneg base). destruct Hopt as [Hlim _].
  pose proof (Hlim maxChangeGroups). pose proof (Hlim maxConflicts). unfold refine_regions.
  case_bool_decide as Hz.
  { apply (settles_total _ (Ok _)). exists true. split; [done|]. by apply refineZdiff3_spec. }
  destruct (bool_decide (style options = Merge) && negb (bool_decide (refinement options = Eager))) eqn:E.
  - apply andb_prop in E as [E _]. apply bool_decide_eq_true in E.
    eapply settles_bind.
    + destruct (refineConflicts_spec B current incoming Hcur Hinc ltac:(lia) true rs (limits options maxChangeGroups)
        (limits options maxConflicts) (r_indentHeuristic options) _ Ht) as [(rs' & -> & Ht' & _)|(e & -> & He)]; [lia|lia| |].
      * exists (Ok rs'). split; [done|]. cbn. exact Ht'.
      * exists (Throw e). split; [done|]. cbn. auto.
    + intros rs' Ht'. apply (settles_total _ (Ok _)). exists false. split; [done|].
      apply (simplify_loop_spec B current incoming _ _ _ _ _ _ _ _ Ht'). constructor.
  - apply (settles_total _ (Ok _)). by exists true.
Qed.

End merge.

(** What a merge of two files with their base gives. *)
Definition merge_answer (options : TextMergeOptions) (base current incoming : bytes) (r : TextMergeResult) : Prop :=
  match r with
  | Binary _ => isBinary base || isBinary current || isBinary incoming = true
  | _ => isBinary base || isBinary current || isBinary incoming = false ∧
         ∃ resolved bl cl il, resolveOptions options = Ok resolved ∧
           (mjoin bl = base ∧ lines_ok bl) ∧ (mjoin cl = current ∧ lines_ok cl) ∧ (mjoin il = incoming ∧ lines_ok il) ∧
           merge_result resolved bl cl il r
  end.

Lemma merged_identity resolved bl cl il output :
  zlen output <= limits resolved maxOutputBytes →
  (cl = il ∧ output = mjoin cl ∨ bl = cl ∧ output = mjoin il ∨ bl = il ∧ output = mjoin cl) →
  merged resolved bl cl il output 0.
Proof.
  intros Hz [[-> ->]|[[-> ->]|[-> ->]]].
  - exists [Agreed bl il]. by rewrite !fmap_cons, !mjoin_cons, !app_nil_r.
  - exists [TakesIncoming cl il]. by rewrite !fmap_cons, !mjoin_cons, !app_nil_r.
  - exists [TakesCurrent il cl]. by rewrite !fmap_cons, !mjoin_cons, !app_nil_r.
Qed.

Lemma mergeText_spec (base current incoming : bytes) (options : TextMergeOptions) :
  settles (merge_answer options base current incoming) (mergeText base current incoming options).
Proof.
  unfold mergeText. eapply (settles_bind (λ r, resolveOptions options = Ok r ∧ resolved_ok r)).
  { apply settles_total. pose proof (resolveOptions_answers options) as H. by destruct (resolveOptions options). }
  intros resolved [Eo Hr]. pose proof Hr as [Hlim _].
  eapply settles_bind; [apply settles_total, estimate_answers, Hlim|]. intros memory (_ & _ & Hin & Hid).
  destruct (splitByteRecords_spec base) as (Rb & Jb & Lb & Zb).
  destruct (splitByteRecords_spec current) as (Rc & Jc & Lc & Zc).
  destruct (splitByteRecords_spec incoming) as (Ri & Ji & Li & Zi).
  assert (zlen base + zlen current + zlen incoming < MAX_SAFE_INTEGER) as Hsmall.
  { destruct (Hlim maxInputBytes) as [_ Hmax]. rewrite !Forall_cons in Hin. destruct Hin as (? & ? & ? & _).
    apply (Z.le_lt_trans _ (3 * DEFAULT_TEXT_MERGE_LIMITS maxInputBytes)); [lia|done]. }
  assert (∀ r, isBinary base || isBinary current || isBinary incoming = false →
    merge_result resolved (content <$> splitByteRecords base) (content <$> splitByteRecords current)
      (content <$> splitByteRecords incoming) r → merge_answer options base current incoming r) as Hanswer.
  { intros r Hbin Hm. destruct r; cbn [merge_answer]; [..|done]; (split; [done|]); eexists resolved, _, _, _;
      (split; [exact Eo|]); (split; [split; [exact Jb|exact Lb]|]); (split; [split; [exact Jc|exact Lc]|]);
      (split; [split; [exact Ji|exact Li]|]); exact Hm. }
  destruct (isBinary base || isBinary current || isBinary incoming) eqn:Ebin; [by apply (settles_total _ (Ok _))|].
  specialize (Hid eq_refl). unfold identityMergeContent in Hid.
  destruct (bytesEqual current incoming) eqn:E1.
  { apply (settles_total _ (Ok _)), Hanswer; [done|]. apply merged_identity; [by apply Hid|]. left.
    apply bytesEqual_spec in E1 as ->. by rewrite Ji. }
  destruct (bytesEqual base current) eqn:E2.
  { apply (settles_total _ (Ok _)), Hanswer; [done|]. apply merged_identity; [by apply Hid|]. right. left.
    apply bytesEqual_spec in E2 as ->. by rewrite Ji. }
  destruct (bytesEqual base incoming) eqn:E3.
  { apply (settles_total _ (Ok _)), Hanswer; [done|]. apply merged_identity; [by apply Hid|]. right. right.
    apply bytesEqual_spec in E3 as ->. by rewrite Jc. }
  clear Hid. cbv zeta. pose proof (Hlim maxChangeGroups). pose proof (Hlim maxConflicts).
  pose proof (zlen_nonneg base). pose proof (zlen_nonneg current). pose proof (zlen_nonneg incoming).
  eapply settles_bind; [apply diff_settles; [done|done|lia|by intros k [= <-]; lia]|]. intros cc [Hcs Hcz].
  specialize (Hcz _ eq_refl).
  eapply settles_bind; [apply diff_settles; [done|done|lia|by intros k [= <-]; lia]|]. intros ic [His _].
  destruct (_ <? zlen cc + zlen ic); [apply settles_total, refused_big|].
  destruct (buildMergeRegions_spec _ _ _ _ _ (lines_equal_spec _ _ Rc Ri) _ _ Hcs His) as (rs & Ht & _ & Hbuild).
  eapply (settles_bind (λ r, r = rs)).
  { apply settles_total. rewrite !zlen_fmap in Hbuild. rewrite Hbuild by lia. case_match; [done|apply refused_big]. }
  intros ? ->. eapply settles_bind; [apply (refine_regions_settles resolved Hr (splitByteRecords base)); [done|done|lia|exact Ht]|].
  intros rs' (exact & Hexact & Ht'). apply settles_total.
  eapply answers_impl; [by apply (write_merge_answers resolved Hr _ _ _ Rb Rc Ri exact Hexact)|]. intros r. by apply Hanswer.
Qed.

(** * Examples *)

(** The estimate calls its output size the worst for the input; one conflict over whole files
    with CRLF line ends, where the limit admits one conflict, takes a byte more. *)
Definition crlf_file (a b : Z) : bytes := [a; 0x0d; 0x0a; b].
Definition crlf_options : TextMergeOptions :=
  mkTextMergeOptions (Some (js "diff3")) None (mkLabels (Some (js "a")) (Some (js "b")) (Some (js "c"))) None None
    (λ l, if decide (l = maxConflicts) then Some 1 else None).

Example estimate_below_output :
  ∃ e content m, estimateTextMergeMemory (crlf_file 112 120) (crlf_file 113 121) (crlf_file 114 122) crlf_options = Ok e ∧
    mergeText (crlf_file 112 120) (crlf_file 113 121) (crlf_file 114 122) crlf_options = Some (Ok (Conflict content 1 m)) ∧
    outputBytes e = 59 ∧ zlen content = 60.
Proof. eexists _, _, _. split; [vm_compute; reflexivity|]. split; [vm_compute; reflexivity|]. by vm_compute. Qed.

(** A label that ends in an unpaired high surrogate passes the check that refuses one
    elsewhere. *)
Example label_accepts_unpaired :
  encodeLabel (Some [0xd800]) "base" 256 = Ok (Some [0xef; 0xbf; 0xbd]) ∧
  encodeLabel (Some [0xd800; 0x61]) "base" 256 = Throw (label_error "base" "an unpaired surrogate").
Proof. by vm_compute. Qed.

(** * Properties *)

(** C1: [mergeText] ends on every three files and options.  It throws nothing but [EINVAL]
    and [E2BIG].  Otherwise the files are binary, or there are pieces that join, line by
    line, to the base, to current and to incoming, in each of which the two sides agree, or
    one of them has the lines of the base, or they conflict; the result joins, in order and
    within the limit, what both have, what the changed side has, or the conflict between its
    markers; it is clean exactly when no piece conflicts, and counts those that do.  No line
    of either side is lost or taken twice, whatever the style, the refinement and the limits. *)
Theorem mergeText_correct (base current incoming : bytes) (options : TextMergeOptions) :
  ∃ o, mergeText base current incoming options = Some o ∧
    match o with
    | Ok r => merge_answer options base current incoming r
    | Throw e => refused e
    end.
Proof. apply mergeText_spec. Qed.

(** C2: [buildMergeRegions], given two scripts from one base: the regions cut the three files
    into matching pieces (between two regions the two sides hold the same lines; a region of
    one side stands where the other still has the lines of the base); changes that do not
    touch, or are the same on both sides, never make a conflict; and a limit refuses exactly
    the merges that have more conflicts. *)
Theorem buildMergeRegions_correct (base current incoming : list ByteRecord) (ls rs : list ChangeGroup) :
  Forall record_ok current → Forall record_ok incoming →
  script (content <$> base) (content <$> current) true 0 0 ls →
  script (content <$> base) (content <$> incoming) true 0 0 rs →
  ∃ regions,
    tiles (content <$> base) (content <$> current) (content <$> incoming) true 0 0 0 regions
      (zlen base) (zlen current) (zlen incoming) ∧
    ((∀ l r, l ∈ ls → r ∈ rs → compatible current incoming l r) → conflicts_in regions = 0) ∧
    ∀ max, 0 <= max →
      buildMergeRegions current incoming ls rs (zlen base) (zlen current) (zlen incoming) max =
      (if conflicts_in regions <=? max then Ok regions else Throw (conflict_error max)).
Proof.
  intros Hc Hi Hl Hr. destruct (buildMergeRegions_spec _ _ _ _ _ (lines_equal_spec _ _ Hc Hi) ls rs Hl Hr) as (regions & H).
  rewrite !zlen_fmap in H. by exists regions.
Qed.

Definition file_records (bs : bytes) : list ByteRecord := splitByteRecords bs.
Definition base_file : bytes := [97; 10; 98; 10; 99; 10].
Definition current_file : bytes := [120; 10; 98; 10; 99; 10].
Definition incoming_file : bytes := [97; 10; 98; 10; 121; 10].

Lemma buildMergeRegions_correct_witness :
  let base := file_records base_file in
  let current := file_records current_file in
  let incoming := file_records incoming_file in
  ∃ regions,
    tiles (content <$> base) (content <$> current) (content <$> incoming) true 0 0 0 regions
      (zlen base) (zlen current) (zlen incoming) ∧
    ((∀ l r, l ∈ [mkGroup 0 1 0 1] → r ∈ [mkGroup 2 1 2 1] → compatible current incoming l r) → conflicts_in regions = 0) ∧
    ∀ max, 0 <= max →
      buildMergeRegions current incoming [mkGroup 0 1 0 1] [mkGroup 2 1 2 1] (zlen base) (zlen current) (zlen incoming) max =
      (if conflicts_in regions <=? max then Ok regions else Throw (conflict_error max)).
Proof.
  cbv zeta. apply (buildMergeRegions_correct (file_records base_file)).
  - apply splitByteRecords_spec.
  - apply splitByteRecords_spec.
  - cbn [script oldStart newStart oldCount newCount]. split_and!; try (vm_compute; congruence).
    + apply run_empty. lia.
    + apply run_slice; [lia|lia|vm_compute; congruence|]. vm_compute. reflexivity.
  - cbn [script oldStart newStart oldCount newCount]. split_and!; try (vm_compute; congruence).
    + apply run_slice; [lia|lia|lia|]. vm_compute. reflexivity.
    + apply run_empty. vm_compute. congruence.
Defined.
