(* ===== verification/IgnoreTokens.v ===== *)
(** Ignore patterns as tokens and automaton states: pattern-types.ts and pattern-tokens.ts of
    src/packages/git/src/ignore/.

    A class keeps the bytes it matches as 256 bits in eight 32-bit words.  A loop whose fuel
    runs out gives [None] outside the code's own answer. *)

From S2P Require Import Prelude Arrays.

Definition SLASH : Z := 0x2f.
Definition STAR : Z := 0x2a.
Definition QUESTION : Z := 0x3f.
Definition OPEN_CLASS : Z := 0x5b.
Definition CLOSE_CLASS : Z := 0x5d.
Definition BACKSLASH : Z := 0x5c.

(** [Uint32Array(8)], one bit for each byte. *)
Notation class_bits := (list Z) (only parsing).

Inductive Token : Type :=
| Literal (byte : Z)
| Any
| Star
| Class_ (bits : class_bits).

#[export] Instance Token_eq_dec : EqDecision Token.
Proof. solve_decision. Defined.

Inductive NfaState : Type :=
| NLiteral (byte : Z)
| NAny
| NStar
| NClass (bits : class_bits)
| GlobBoundary
| GlobBody
| StarAny.

Inductive Compiled : Type :=
| LiteralBasename (literal : bytes)
| LiteralPath (literal : bytes)
| Deterministic (anchored : bool) (tokens : list Token) (literalPrefix literalSuffix : bytes) (hasStar : bool)
    (targetSegments : Z)
| Nfa (states : list NfaState) (literalPrefix : bytes)
| Never.

(** A pattern with the [Compiled] that [compiledPatterns] keeps for it. *)
Record IgnorePattern := mkPattern { negated : bool; directoryOnly : bool; iterative : bool; compiled : Compiled }.

Record EncodedPath := mkEncoded { e_bytes : bytes; starts : list Z; ends : list Z; segments : Z }.

(** [bytes[i] === b]. *)
Definition byte_is (bs : bytes) (i b : Z) : bool := bool_decide (at_ bs i = Some b).

(** * Classes *)

Definition bitHas (bits : class_bits) (byte : Z) : bool :=
  negb (Z.land (default 0 (at_ bits (Z.shiftr byte 5))) (Z.shiftl 1 (Z.land byte 31)) =? 0).

Definition put_word (bits : class_bits) (word value : Z) : class_bits := <[Z.to_nat word := value]> bits.

Definition bitSet (bits : class_bits) (byte : Z) : class_bits :=
  let word := Z.shiftr byte 5 in
  put_word bits word (Z.lor (default 0 (at_ bits word)) (Z.shiftl 1 (Z.land byte 31))).

Definition fillRange (bits : class_bits) (from to : Z) : class_bits :=
  if to <? from then bits else foldl bitSet bits (seqZ from (to + 1 - from)).

(** The bits with the class added, or [None] where the code answers [false]. *)
Definition addPosix (bits : class_bits) (name : bytes) : option class_bits :=
  if bool_decide (name = js "alnum") then Some (fillRange (fillRange (fillRange bits 0x30 0x39) 0x41 0x5a) 0x61 0x7a)
  else if bool_decide (name = js "alpha") then Some (fillRange (fillRange bits 0x41 0x5a) 0x61 0x7a)
  else if bool_decide (name = js "blank") then Some (bitSet (bitSet bits 0x09) 0x20)
  else if bool_decide (name = js "cntrl") then Some (bitSet (fillRange bits 0x00 0x1f) 0x7f)
  else if bool_decide (name = js "digit") then Some (fillRange bits 0x30 0x39)
  else if bool_decide (name = js "graph") then Some (fillRange bits 0x21 0x7e)
  else if bool_decide (name = js "lower") then Some (fillRange bits 0x61 0x7a)
  else if bool_decide (name = js "print") then Some (fillRange bits 0x20 0x7e)
  else if bool_decide (name = js "punct") then
    Some (fillRange (fillRange (fillRange (fillRange bits 0x21 0x2f) 0x3a 0x40) 0x5b 0x60) 0x7b 0x7e)
  else if bool_decide (name = js "space") then Some (foldl bitSet bits [0x09; 0x0a; 0x0b; 0x0c; 0x0d; 0x20])
  else if bool_decide (name = js "upper") then Some (fillRange bits 0x41 0x5a)
  else if bool_decide (name = js "xdigit") then Some (fillRange (fillRange (fillRange bits 0x30 0x39) 0x41 0x46) 0x61 0x66)
  else None.

Definition classByte (bs : bytes) (index : Z) : option (Z * Z) :=
  match at_ bs index with
  | None => None
  | Some byte =>
      if byte =? BACKSLASH then
        match at_ bs (index + 1) with None => None | Some escaped => Some (escaped, index + 2) end
      else Some (byte, index + 1)
  end.

(** The end of the name of a [[:class:]]. *)
Fixpoint find_close (fuel : nat) (bs : bytes) (close : Z) : option Z :=
  match fuel with
  | O => None
  | S fuel =>
      if (close + 1 <? zlen bs) && negb (byte_is bs close 0x3a && byte_is bs (close + 1) CLOSE_CLASS)
      then find_close fuel bs (close + 1)
      else Some close
  end.

Definition complement (word : Z) : Z := Z.land (Z.lnot word) 0xffffffff.

(** The bits at the closing bracket. *)
Definition close_class (bits : class_bits) (negated slashSensitive : bool) : class_bits :=
  let bits := if negated then complement <$> bits else bits in
  if slashSensitive
  then put_word bits (Z.shiftr SLASH 5)
         (Z.land (default 0 (at_ bits (Z.shiftr SLASH 5))) (complement (Z.shiftl 1 (Z.land SLASH 31))))
  else bits.

Fixpoint parseClass_loop (fuel : nat) (bs : bytes) (negated slashSensitive : bool) (index : Z) (bits : class_bits)
    (first : bool) (prior : option Z) : option (option (class_bits * Z)) :=
  match fuel with
  | O => None
  | S fuel =>
      if negb (index <? zlen bs) then Some None
      else if byte_is bs index CLOSE_CLASS && negb first then Some (Some (close_class bits negated slashSensitive, index + 1))
      else
        close ← (if byte_is bs index OPEN_CLASS && byte_is bs (index + 1) 0x3a
                 then Some <$> find_close (S (length bs)) bs (index + 2) else Some None);
        let posix := match close with
                     | Some close => if close + 1 <? zlen bs
                                     then (λ bits, (bits, close)) <$> addPosix bits (slice bs (index + 2) close) else None
                     | None => None
                     end in
        match posix with
        | Some (bits, close) => parseClass_loop fuel bs negated slashSensitive (close + 2) bits false None
        | None =>
            match classByte bs index with
            | None => Some None
            | Some (byte, end_) =>
                match prior with
                | Some low =>
                    if (byte =? 0x2d) && negb (byte_is bs end_ CLOSE_CLASS) && (end_ <? zlen bs) then
                      match classByte bs end_ with
                      | None => Some None
                      | Some (upper, end_) =>
                          parseClass_loop fuel bs negated slashSensitive end_ (fillRange bits low upper) false None
                      end
                    else parseClass_loop fuel bs negated slashSensitive end_ (bitSet bits byte) false (Some byte)
                | None => parseClass_loop fuel bs negated slashSensitive end_ (bitSet bits byte) false (Some byte)
                end
            end
        end
  end.

Definition parseClass (bs : bytes) (start : Z) (slashSensitive : bool) : option (option (class_bits * Z)) :=
  let negated := byte_is bs (start + 1) 0x21 || byte_is bs (start + 1) 0x5e in
  parseClass_loop (S (length bs)) bs negated slashSensitive (if negated then start + 2 else start + 1)
    (replicate 8 0) true None.

(** * Tokens *)

(** The number of backslashes that end before [n]. *)
Fixpoint backslashes (bs : bytes) (n : nat) : nat :=
  match n with
  | O => O
  | S n => if byte_is bs (Z.of_nat n) BACKSLASH then S (backslashes bs n) else O
  end.
Definition escaped (bs : bytes) (index : Z) : bool := Nat.odd (backslashes bs (Z.to_nat index)).

(** [while (bytes[index + 1] === STAR) index++]. *)
Fixpoint last_star (fuel : nat) (bs : bytes) (index : Z) : Z :=
  match fuel with
  | O => index
  | S fuel => if byte_is bs (index + 1) STAR then last_star fuel bs (index + 1) else index
  end.

Record Tokens := mkTokens { t_tokens : list Token; valid : bool; t_hasStar : bool }.

Fixpoint tokensOf_loop (fuel : nat) (bs : bytes) (slashSensitive unmatchedClassLiteral : bool) (index : Z)
    (tokens : list Token) (hasStar : bool) : option Tokens :=
  match fuel with
  | O => None
  | S fuel =>
      let continue index token := tokensOf_loop fuel bs slashSensitive unmatchedClassLiteral index (tokens ++ [token]) in
      match at_ bs index with
      | None => Some (mkTokens tokens true hasStar)
      | Some byte =>
          if byte =? BACKSLASH then
            match at_ bs (index + 1) with
            | None => Some (mkTokens tokens false hasStar)
            | Some literal => continue (index + 2) (Literal literal) hasStar
            end
          else if byte =? STAR then continue (last_star (length bs) bs index + 1) Star true
          else if byte =? QUESTION then continue (index + 1) Any hasStar
          else if byte =? OPEN_CLASS then
            parsed ← parseClass bs index slashSensitive;
            match parsed with
            | None =>
                if unmatchedClassLiteral then continue (index + 1) (Literal byte) hasStar
                else Some (mkTokens tokens false hasStar)
            | Some (bits, end_) => continue end_ (Class_ bits) hasStar
            end
          else continue (index + 1) (Literal byte) hasStar
      end
  end.
Definition tokensOf (bs : bytes) (slashSensitive unmatchedClassLiteral : bool) : option Tokens :=
  tokensOf_loop (S (length bs)) bs slashSensitive unmatchedClassLiteral 0 [] false.

Definition literal_byte (t : Token) : option Z := match t with Literal b => Some b | _ => None end.

Definition literalOf (tokens : list Token) : option bytes := mapM literal_byte tokens.

Fixpoint literal_prefix (tokens : list Token) : bytes :=
  match tokens with
  | Literal b :: tokens => b :: literal_prefix tokens
  | _ => []
  end.
Definition literalEdge (tokens : list Token) (fromStart : bool) : bytes :=
  if fromStart then literal_prefix tokens else reverse (literal_prefix (reverse tokens)).

Definition targetSegments_of (tokens : list Token) : Z :=
  foldl (λ n t, match t with Literal b => if b =? SLASH then n + 1 else n | _ => n end) 1 tokens.

(** * Globstars *)

(** Does the slash at [index] (or the end) close a segment?  [continue] otherwise. *)
Definition closes_segment (bs : bytes) (index : Z) : bool :=
  negb ((index <? zlen bs) && (negb (byte_is bs index SLASH) || escaped bs index)).

Definition all_stars (bs : bytes) (start end_ : Z) : bool :=
  (2 <=? end_ - start) && forallb (λ i, byte_is bs i STAR) (seqZ start (end_ - start)).

Fixpoint hasGlobstar_loop (bs : bytes) (indices : list Z) (segmentStart : Z) : bool :=
  match indices with
  | [] => false
  | index :: indices =>
      if negb (closes_segment bs index) then hasGlobstar_loop bs indices segmentStart
      else if all_stars bs segmentStart index then true
      else hasGlobstar_loop bs indices (index + 1)
  end.
Definition hasGlobstar (bs : bytes) : bool := hasGlobstar_loop bs (seqZ 0 (zlen bs + 1)) 0.

Fixpoint first_slash (bs : bytes) (indices : list Z) : Z :=
  match indices with
  | [] => zlen bs
  | slash :: indices =>
      if negb (byte_is bs slash SLASH) || escaped bs slash then first_slash bs indices else slash
  end.
Definition leadingGlobstarBasename (bs : bytes) : option bytes :=
  let slash := first_slash bs (seqZ 0 (zlen bs)) in
  if (slash <? 2) || (zlen bs <=? slash) then None
  else if existsb (λ i, negb (byte_is bs i STAR)) (seqZ 0 slash) then None
  else if existsb (λ i, byte_is bs i SLASH && negb (escaped bs i)) (seqZ (slash + 1) (zlen bs - (slash + 1))) then None
  else Some (slice_from bs (slash + 1)).

Definition state_of (t : Token) : NfaState :=
  match t with Literal b => NLiteral b | Any => NAny | Star => NStar | Class_ bits => NClass bits end.

(** [None] inside is the code's [null]. *)
Fixpoint compileNfa_loop (bs : bytes) (indices : list Z) (segmentStart : Z) (states : list NfaState)
    : option (option (list NfaState)) :=
  match indices with
  | [] => Some (Some states)
  | index :: indices =>
      if negb (closes_segment bs index) then compileNfa_loop bs indices segmentStart states
      else if all_stars bs segmentStart index then
        compileNfa_loop bs indices (index + 1)
          (states ++ (if index <? zlen bs then [GlobBoundary; GlobBody] else [StarAny]))
      else
        parsed ← tokensOf (slice bs segmentStart index) true false;
        if negb (valid parsed) then Some None
        else
          compileNfa_loop bs indices (index + 1)
            (states ++ (state_of <$> t_tokens parsed) ++ (if index <? zlen bs then [NLiteral SLASH] else []))
  end.
Definition compileNfa (bs : bytes) : option (option (list NfaState)) := compileNfa_loop bs (seqZ 0 (zlen bs + 1)) 0 [].

Fixpoint nfaLiteralPrefix (states : list NfaState) : bytes :=
  match states with
  | NLiteral b :: states => b :: nfaLiteralPrefix states
  | _ => []
  end.
