(* ===== verification/IgnoreMatch.v ===== *)
(** Matching ignore patterns: src/packages/git/src/ignore/pattern-match.ts.

    A set of automaton states is a mask of 32-bit words.  Every matcher counts its work and
    gives up past a bound; [None] is a loop that does not end.  The depths a pattern matches
    are the list of the calls of the code's callback. *)

From S2P Require Import Prelude Arrays IgnoreTokens.

Definition MAX_WORK : Z := MAX_SAFE_INTEGER.

(** [{ matched, work }]. *)
Record Matched := mkMatched { matched : bool; work : Z }.

(** * Tokens *)

Definition matchToken (token : Token) (byte : Z) (slashSensitive : bool) : bool :=
  match token with
  | Literal b => b =? byte
  | Any => negb slashSensitive || negb (byte =? SLASH)
  | Class_ bits => bitHas bits byte
  | Star => false
  end.

Definition is_star (t : option Token) : bool := match t with Some Star => true | _ => false end.

(** The stars at the end. *)
Fixpoint skip_stars (fuel : nat) (tokens : list Token) (tokenIndex work maxWork : Z) : option Matched :=
  match fuel with
  | O => None
  | S fuel =>
      if is_star (at_ tokens tokenIndex) then
        let work := work + 1 in
        if maxWork <? work then Some (mkMatched false work) else skip_stars fuel tokens (tokenIndex + 1) work maxWork
      else Some (mkMatched (tokenIndex =? zlen tokens) work)
  end.

Section deterministic.
  Context (tokens : list Token) (bs : bytes) (end_ maxWork : Z) (slashSensitive : bool).

(** [tokens[tokenIndex]] is there, is no star and matches [bytes[byteIndex]]. *)
Definition token_matches (tokenIndex byteIndex : Z) : bool :=
  match at_ tokens tokenIndex, at_ bs byteIndex with
  | Some token, Some byte => negb (is_star (Some token)) && matchToken token byte slashSensitive
  | _, _ => false
  end.

Fixpoint matchDeterministic_loop (fuel : nat) (tokenIndex byteIndex starIndex retry work : Z) : option Matched :=
  match fuel with
  | O => None
  | S fuel =>
      if byteIndex <? end_ then
        let work := work + 1 in
        if maxWork <? work then Some (mkMatched false work)
        else if token_matches tokenIndex byteIndex
        then matchDeterministic_loop fuel (tokenIndex + 1) (byteIndex + 1) starIndex retry work
        else if is_star (at_ tokens tokenIndex)
        then matchDeterministic_loop fuel (tokenIndex + 1) byteIndex tokenIndex byteIndex work
        else if (0 <=? starIndex) && (retry <? end_) && (negb slashSensitive || negb (byte_is bs retry SLASH))
        then matchDeterministic_loop fuel (starIndex + 1) (retry + 1) starIndex (retry + 1) work
        else Some (mkMatched false work)
      else skip_stars (S (length tokens)) tokens tokenIndex work maxWork
  end.

(** A retry is followed by at most one step for each token and each byte. *)
Definition deterministic_fuel (start : Z) : nat :=
  S (Z.to_nat (end_ - start + 1) * S (S (length tokens + Z.to_nat (end_ - start)))).

Definition matchDeterministic (start : Z) : option Matched :=
  matchDeterministic_loop (deterministic_fuel start) 0 start (-1) start 0.

End deterministic.

(** * Masks *)

Definition maskHas (mask : list Z) (index : Z) : bool :=
  negb (Z.land (default 0 (at_ mask (Z.shiftr index 5))) (Z.shiftl 1 (Z.land index 31)) =? 0).

Definition maskSet (mask : list Z) (index : Z) : list Z :=
  let word := Z.shiftr index 5 in
  put_word mask word (Z.lor (default 0 (at_ mask word)) (Z.shiftl 1 (Z.land index 31))).

(** [Math.clz32] of a positive 32-bit number. *)
Definition clz32 (n : Z) : Z := 31 - Z.log2 n.

Section nfa.
  Context (states : list NfaState).

Definition epsilon_target (index : Z) : Z :=
  match at_ states index with
  | Some NStar | Some StarAny => index + 1
  | Some GlobBoundary => index + 2
  | _ => -1
  end.

(** One word of [epsilon]; the flag says that the code returned. *)
Fixpoint epsilon_word (fuel : nat) (word pending : Z) (mask : list Z) (work maxWork : Z) : option (list Z * Z * bool) :=
  match fuel with
  | O => None
  | S fuel =>
      if pending =? 0 then Some (mask, work, false)
      else
        let bit := Z.land pending (- pending) in
        let pending := Z.land pending (Z.lnot bit) in
        let work := work + 1 in
        if maxWork <? work then Some (mask, work, true)
        else
          let index := word * 32 + (31 - clz32 bit) in
          let target := epsilon_target index in
          if (target <? 0) || maskHas mask target then epsilon_word fuel word pending mask work maxWork
          else
            epsilon_word fuel word
              (if Z.shiftr target 5 =? word then Z.lor pending (Z.shiftl 1 (Z.land target 31)) else pending)
              (maskSet mask target) work maxWork
  end.

Fixpoint epsilon_words (words : list Z) (mask : list Z) (work maxWork : Z) : option (list Z * Z) :=
  match words with
  | [] => Some (mask, work)
  | word :: words =>
      '(mask, work, returned) ← epsilon_word 33 word (default 0 (at_ mask word)) mask work maxWork;
      if (returned : bool) then Some (mask, work) else epsilon_words words mask work maxWork
  end.
Definition epsilon (mask : list Z) (maxWork : Z) : option (list Z * Z) := epsilon_words (seqZ 0 (zlen mask)) mask 0 maxWork.

(** What one state and one byte add to the next states. *)
Definition step_state (index byte : Z) (next : list Z) : list Z :=
  match at_ states index with
  | None => next
  | Some NStar => if negb (byte =? SLASH) then maskSet next index else next
  | Some StarAny => maskSet next index
  | Some GlobBoundary => if byte =? SLASH then maskSet next index else maskSet next (index + 1)
  | Some GlobBody => if byte =? SLASH then maskSet next (index - 1) else maskSet next index
  | Some (NLiteral b) => if b =? byte then maskSet next (index + 1) else next
  | Some NAny => if negb (byte =? SLASH) then maskSet next (index + 1) else next
  | Some (NClass bits) => if bitHas bits byte then maskSet next (index + 1) else next
  end.

Fixpoint step_word (fuel : nat) (word pending byte : Z) (next : list Z) (work maxWork : Z) : option (list Z * Z * bool) :=
  match fuel with
  | O => None
  | S fuel =>
      if pending =? 0 then Some (next, work, false)
      else
        let bit := Z.land pending (- pending) in
        let pending := Z.land pending (Z.lnot bit) in
        let work := work + 1 in
        if maxWork <? work then Some (next, work, true)
        else step_word fuel word pending byte (step_state (word * 32 + (31 - clz32 bit)) byte next) work maxWork
  end.

Fixpoint step_words (words current : list Z) (byte : Z) (next : list Z) (work maxWork : Z) : option (list Z * Z * bool) :=
  match words with
  | [] => Some (next, work, false)
  | word :: words =>
      '(next, work, returned) ← step_word 33 word (default 0 (at_ current word)) byte next work maxWork;
      if (returned : bool) then Some (next, work, true) else step_words words current byte next work maxWork
  end.

(** The next states, and the work. *)
Definition nfaStep (current next : list Z) (byte maxWork : Z) : option (list Z * Z) :=
  let next := replicate (length next) 0 in
  '(next, work, returned) ← step_words (seqZ 0 (zlen current)) current byte next 0 maxWork;
  if (returned : bool) then Some (next, work)
  else '(next, more) ← epsilon next (maxWork - work); Some (next, work + more).

Definition nfaMask : list Z := replicate (Z.to_nat ((zlen states + 1 + 31) / 32)) 0.

End nfa.

(** * Literals *)

Definition equalBytes_range (l : bytes) (leftStart leftEnd : Z) (r : bytes) : bool :=
  if negb (leftEnd - leftStart =? zlen r) then false
  else forallb (λ index, bool_decide (at_ l (leftStart + index) = at_ r index)) (seqZ 0 (zlen r)).

(** The loop shared by the comparisons that count their work. *)
Fixpoint compare_from (l : bytes) (start : Z) (r : bytes) (indices : list Z) (work maxWork : Z) : Matched :=
  match indices with
  | [] => mkMatched true work
  | index :: indices =>
      let work := work + 1 in
      if maxWork <? work then mkMatched false work
      else if negb (bool_decide (at_ l (start + index) = at_ r index)) then mkMatched false work
      else compare_from l start r indices work maxWork
  end.

Definition prefixMatch (prefix bs : bytes) (start maxWork : Z) : Matched :=
  if (maxWork <? 1) || (zlen bs - start <? zlen prefix) then mkMatched false 1
  else compare_from bs start prefix (seqZ 0 (zlen prefix)) 1 maxWork.

Definition suffixMatch (suffix bs : bytes) (end_ maxWork : Z) : Matched :=
  if (maxWork <? 1) || (end_ <? zlen suffix) then mkMatched false 1
  else compare_from bs (end_ - zlen suffix) suffix (seqZ 0 (zlen suffix)) 1 maxWork.

Definition compareLiteralBytes (path : bytes) (start end_ : Z) (literal : bytes) (maxWork : Z) : Matched :=
  if (maxWork <? 1) || negb (end_ - start =? zlen literal) then mkMatched false 1
  else compare_from path start literal (seqZ 0 (zlen literal)) 1 maxWork.

Definition deterministicMatch (tokens : list Token) (literalPrefix literalSuffix bs : bytes) (start end_ maxWork : Z)
    (slashSensitive : bool) : option Matched :=
  let prefix := if 0 <? zlen literalPrefix then prefixMatch literalPrefix bs start maxWork else mkMatched true 0 in
  if negb (matched prefix) || (maxWork <? work prefix) then Some (mkMatched false (work prefix))
  else
    let suffix := if 0 <? zlen literalSuffix then suffixMatch literalSuffix bs end_ (maxWork - work prefix) else mkMatched true 0 in
    let spent := work prefix + work suffix in
    if negb (matched suffix) || (maxWork <? spent) then Some (mkMatched false spent)
    else
      result ← matchDeterministic tokens bs end_ (maxWork - spent) slashSensitive start;
      Some (mkMatched (matched result) (spent + work result)).

(** * Whole patterns *)

(** The mask after the bytes. *)
Fixpoint nfa_bytes (states : list NfaState) (bs : bytes) (current next : list Z) (work maxWork : Z)
    : option (list Z * list Z * Z) :=
  match bs with
  | [] => Some (current, next, work)
  | byte :: bs =>
      '(next, more) ← nfaStep states current next byte (maxWork - work);
      let work := work + more in
      if maxWork <? work then Some (current, next, work) else nfa_bytes states bs next current work maxWork
  end.

(** The mask after the bytes, each step with its own bound. *)
Fixpoint nfa_run (states : list NfaState) (bs : bytes) (current next : list Z) : option (list Z) :=
  match bs with
  | [] => Some current
  | byte :: bs => '(next, _) ← nfaStep states current next byte MAX_WORK; nfa_run states bs next current
  end.

Definition finalMatch (c : Compiled) (path : EncodedPath) : option bool :=
  let last := segments path - 1 in
  let start := default 0 (at_ (starts path) last) in
  let end_ := default (zlen (e_bytes path)) (at_ (ends path) last) in
  if segments path =? 0 then Some false
  else
    match c with
    | Never => Some false
    | LiteralBasename literal => Some (equalBytes_range (e_bytes path) start end_ literal)
    | LiteralPath literal => Some (equalBytes_range (e_bytes path) 0 (zlen (e_bytes path)) literal)
    | Deterministic anchored tokens prefix suffix _ _ =>
        matched <$> (if anchored then deterministicMatch tokens prefix suffix (e_bytes path) 0 (zlen (e_bytes path)) MAX_WORK true
                     else deterministicMatch tokens prefix suffix (e_bytes path) start end_ MAX_WORK true)
    | Nfa states prefix =>
        if negb (matched (prefixMatch prefix (e_bytes path) 0 MAX_WORK)) then Some false
        else
          '(current, _) ← epsilon states (maskSet (nfaMask states) 0) MAX_WORK;
          current ← nfa_run states (e_bytes path) current (nfaMask states);
          Some (maskHas current (zlen states))
    end.

Section depths.
  Context (pattern : IgnorePattern) (path : EncodedPath) (sourceDepth : Z) (isDirectory : bool) (maxWork : Z).

(** [accepts(depth)]: the calls it makes. *)
Definition accepts (depth : Z) : list Z :=
  if negb (directoryOnly pattern) || (depth <? segments path) || isDirectory then [depth] else [].

Fixpoint basename_depths (literal : bytes) (depths : list Z) : list Z :=
  match depths with
  | [] => []
  | depth :: depths =>
      (if equalBytes_range (e_bytes path) (default 0 (at_ (starts path) (depth - 1)))
            (default 0 (at_ (ends path) (depth - 1))) literal then accepts depth else []) ++ basename_depths literal depths
  end.

Fixpoint floating_depths (tokens : list Token) (prefix suffix : bytes) (depths : list Z) (spent : Z) (calls : list Z)
    : option (Z * list Z) :=
  match depths with
  | [] => Some (spent, calls)
  | depth :: depths =>
      result ← deterministicMatch tokens prefix suffix (e_bytes path) (default 0 (at_ (starts path) (depth - 1)))
                 (default 0 (at_ (ends path) (depth - 1))) (maxWork - spent) true;
      let spent := spent + work result in
      if maxWork <? spent then Some (spent, calls)
      else floating_depths tokens prefix suffix depths spent (calls ++ if matched result then accepts depth else [])
  end.

(** From the first depth on: a slash between two segments, the bytes of one, its verdict. *)
Fixpoint nfa_depths (states : list NfaState) (start : Z) (depths : list Z) (current next : list Z) (spent : Z) (calls : list Z)
    : option (Z * list Z) :=
  match depths with
  | [] => Some (spent, calls)
  | depth :: depths =>
      let end_ := default (zlen (e_bytes path)) (at_ (ends path) (depth - 1)) in
      let first := depth =? sourceDepth + 1 in
      let from := if first then start else default end_ (at_ (starts path) (depth - 1)) in
      '(current, next, spent) ←
        nfa_bytes states ((if first then [] else [SLASH]) ++ slice (e_bytes path) from end_) current next spent maxWork;
      if maxWork <? spent then Some (spent, calls)
      else
        nfa_depths states start depths current next spent
          (calls ++ if maskHas current (zlen states) then accepts depth else [])
  end.

(** The work, and the depths matched. *)
Definition matchPatternDepths : option (Z * list Z) :=
  let firstDepth := sourceDepth + 1 in
  let depths := seqZ firstDepth (segments path - sourceDepth) in
  if segments path <? firstDepth then Some (0, [])
  else
    let start := default 0 (at_ (starts path) sourceDepth) in
    match compiled pattern with
    | Never => Some (0, [])
    | LiteralBasename literal => Some (0, basename_depths literal depths)
    | LiteralPath literal =>
        let depth := sourceDepth + foldl (λ count byte, count + (if byte =? SLASH then 1 else 0)) 1 literal in
        Some (0, match at_ (ends path) (depth - 1) with
                 | Some end_ => if equalBytes_range (e_bytes path) start end_ literal then accepts depth else []
                 | None => []
                 end)
    | Deterministic anchored tokens prefix suffix _ targetSegments =>
        if negb anchored then floating_depths tokens prefix suffix depths 0 []
        else
          let depth := sourceDepth + targetSegments in
          match at_ (ends path) (depth - 1) with
          | None => Some (0, [])
          | Some end_ =>
              result ← deterministicMatch tokens prefix suffix (e_bytes path) start end_ maxWork true;
              Some (work result, if matched result then accepts depth else [])
          end
    | Nfa states prefix =>
        let found := prefixMatch prefix (e_bytes path) start maxWork in
        if negb (matched found) || (maxWork <? work found) then Some (work found, [])
        else
          '(current, more) ← epsilon states (maskSet (nfaMask states) 0) (maxWork - work found);
          let spent := work found + more in
          if maxWork <? spent then Some (spent, [])
          else nfa_depths states start depths current (nfaMask states) spent []
    end.

End depths.
