(* ===== verification/IgnoreTokenFacts.v ===== *)
(** Matching tokens: pattern-match.ts decides the language of a token list.

    [tokens_match] is the meaning of a glob: a star stands for any bytes that do not end a
    segment.  The matcher only ever goes back to its last star; that this loses no match is
    the heart of [matchDeterministic_spec]. *)

From S2P Require Import Prelude Arrays IgnoreTokens IgnoreMatch.

(** [if (!slashSensitive || byte !== SLASH)]: a star may take the byte. *)
Definition hops (ss : bool) (b : Z) : Prop := ss = true → b ≠ SLASH.

Inductive tokens_match (ss : bool) : list Token → bytes → Prop :=
| match_end : tokens_match ss [] []
| match_one t ts b bs :
    t ≠ Star → matchToken t b ss = true → tokens_match ss ts bs → tokens_match ss (t :: ts) (b :: bs)
| match_skip ts bs : tokens_match ss ts bs → tokens_match ss (Star :: ts) bs
| match_take ts b bs : hops ss b → tokens_match ss (Star :: ts) bs → tokens_match ss (Star :: ts) (b :: bs).

(** Only a literal slash matches a slash: what parseClass ensures of its classes. *)
Definition slash_ok (ss : bool) (t : Token) : Prop :=
  ss = true → matchToken t SLASH ss = true → t = Literal SLASH.

Section language.
  Context (ss : bool).

Lemma tokens_match_nil bs : tokens_match ss [] bs ↔ bs = [].
Proof. split; [by inversion 1|intros ->; constructor]. Qed.

Lemma tokens_match_one t ts bs :
  t ≠ Star →
  tokens_match ss (t :: ts) bs ↔ ∃ b bs', bs = b :: bs' ∧ matchToken t b ss = true ∧ tokens_match ss ts bs'.
Proof.
  intros Ht. split; [inversion 1; naive_solver|]. intros (b & bs' & -> & ? & ?). by constructor.
Qed.

Lemma tokens_match_star ts bs :
  tokens_match ss (Star :: ts) bs ↔ ∃ a c, bs = a ++ c ∧ Forall (hops ss) a ∧ tokens_match ss ts c.
Proof.
  split.
  - intros H. remember (Star :: ts) as ts0 eqn:E. revert ts E. induction H; intros ts0 E; try done; simplify_eq.
    + by exists [], bs.
    + destruct (IHtokens_match _ eq_refl) as (a & c & -> & ? & ?). exists (b :: a), c. auto.
  - intros (a & c & -> & Ha & Hc). induction Ha; [by constructor|]. by apply match_take.
Qed.

Lemma tokens_match_app ts us bs :
  tokens_match ss (ts ++ us) bs ↔ ∃ a c, bs = a ++ c ∧ tokens_match ss ts a ∧ tokens_match ss us c.
Proof.
  revert bs. induction ts as [|t ts IH]; intros bs; cbn [app].
  { setoid_rewrite tokens_match_nil. split; [by exists [], bs|]. by intros (a & c & -> & -> & ?). }
  destruct (decide (t = Star)) as [->|Ht].
  - rewrite tokens_match_star. setoid_rewrite IH. setoid_rewrite tokens_match_star. split.
    + intros (a & ? & -> & Ha & b & c & -> & ? & ?). exists (a ++ b), c. rewrite <- app_assoc. naive_solver.
    + intros (? & c & -> & (a & b & -> & ? & ?) & ?). exists a, (b ++ c). rewrite <- app_assoc. naive_solver.
  - rewrite tokens_match_one by done. setoid_rewrite IH. setoid_rewrite tokens_match_one; [|done]. split.
    + intros (b & ? & -> & ? & a & c & -> & ? & ?). exists (b :: a), c. naive_solver.
    + intros (? & c & -> & (b & a & -> & ? & ?) & ?). exists b, (a ++ c). naive_solver.
Qed.

Lemma tokens_match_literal l bs : tokens_match ss (Literal <$> l) bs ↔ bs = l.
Proof.
  revert bs. induction l as [|x l IH]; intros bs; [apply tokens_match_nil|]. rewrite fmap_cons, tokens_match_one by done.
  setoid_rewrite IH. cbn [matchToken]. setoid_rewrite Z.eqb_eq. naive_solver.
Qed.

End language.

(** * The matcher *)

Section matcher.
  Context (tokens : list Token) (bs : bytes) (end_ maxWork : Z) (ss : bool).
  Context (Hend : end_ <= zlen bs).

Notation hit := (token_matches tokens bs ss).

(** The tokens from [j] on match the bytes from [i] on. *)
Definition matches_from (j i : Z) : Prop := tokens_match ss (drop (Z.to_nat j) tokens) (slice bs i end_).

Definition byte_hops (i : Z) : Prop := ss = false ∨ byte_is bs i SLASH = false.

Lemma slice_byte i : 0 <= i < end_ → ∃ b, at_ bs i = Some b ∧ slice bs i end_ = b :: slice bs (i + 1) end_.
Proof using Hend.
  intros Hi. destruct (proj2 (at_is_Some bs i) ltac:(lia)) as [b Hb]. exists b. split; [done|].
  rewrite <- (slice_cat bs i (i + 1) end_) by lia. change (b :: ?l) with ([b] ++ l). f_equal.
  apply at_ext. intros k Hk. destruct (decide (k = 0)) as [->|].
  - rewrite at_slice, Z.add_0_r by lia. by rewrite Hb.
  - rewrite !at_ge; [done|unfold zlen; simpl; lia|rewrite zlen_slice; lia].
Qed.

Lemma drop_step j t : at_ tokens j = Some t → drop (Z.to_nat j) tokens = t :: drop (Z.to_nat (j + 1)) tokens.
Proof using Type.
  intros Hj. assert (0 <= j < zlen tokens) by (apply at_is_Some; eauto). unfold at_ in Hj.
  rewrite (proj2 (Z.ltb_ge _ _)) in Hj by lia. rewrite Z2Nat.inj_add by lia. rewrite Nat.add_comm.
  by apply drop_S.
Qed.

Lemma byte_hops_at i b : at_ bs i = Some b → byte_hops i ↔ hops ss b.
Proof using Type.
  intros Hb. unfold byte_hops, hops, byte_is. rewrite Hb. destruct ss; [|naive_solver].
  rewrite bool_decide_eq_false. naive_solver.
Qed.

Lemma byte_hops_bool i : byte_hops i ↔ negb ss || negb (byte_is bs i SLASH) = true.
Proof using Type. unfold byte_hops. destruct ss, (byte_is bs i SLASH); naive_solver. Qed.

Lemma matches_hit j i : 0 <= i < end_ → hit j i = true → matches_from j i ↔ matches_from (j + 1) (i + 1).
Proof using Hend.
  intros Hi Hh. destruct (slice_byte i Hi) as (b & Hb & Hs). unfold token_matches in Hh. rewrite Hb in Hh.
  destruct (at_ tokens j) as [t|] eqn:Ht; [|done]. apply andb_prop in Hh as [Hstar Hm].
  unfold matches_from. rewrite Hs, (drop_step j t Ht), tokens_match_one by (by intros ->). naive_solver.
Qed.

Lemma matches_miss j i :
  0 <= j → 0 <= i < end_ → hit j i = false → is_star (at_ tokens j) = false → ¬ matches_from j i.
Proof using Hend.
  intros Hj Hi Hh Hs. destruct (slice_byte i Hi) as (b & Hb & Hsl). unfold matches_from, token_matches in *. rewrite Hb in Hh.
  destruct (at_ tokens j) as [t|] eqn:Ht.
  - rewrite Hsl, (drop_step j t Ht), tokens_match_one by (by intros ->). rewrite Hs in Hh. cbn in Hh.
    intros (? & ? & [= <- <-] & ? & ?). congruence.
  - apply at_None in Ht; [|done]. rewrite drop_ge by (unfold zlen in *; lia). by rewrite Hsl, tokens_match_nil.
Qed.

(** A star takes bytes up to where the rest matches. *)
Lemma matches_star j i :
  at_ tokens j = Some Star → 0 <= i <= end_ →
  matches_from j i ↔ ∃ k, i <= k <= end_ ∧ (∀ x, i <= x < k → byte_hops x) ∧ matches_from (j + 1) k.
Proof using Hend.
  intros Ht Hi. unfold matches_from at 1. rewrite (drop_step j Star Ht), tokens_match_star. split.
  - intros (a & c & Hac & Ha & Hc). pose proof (zlen_nonneg a). pose proof (zlen_nonneg c).
    assert (zlen a + zlen c = end_ - i) by (rewrite <- zlen_app, <- Hac, zlen_slice; lia).
    exists (i + zlen a). split_and!; [lia|lia|..].
    + intros x Hx. assert (at_ a (x - i) = at_ bs x) as Hat.
      { rewrite <- (at_app_l a c), <- Hac, at_slice by lia. f_equal. lia. }
      destruct (proj2 (at_is_Some a (x - i)) ltac:(lia)) as [b Hb]. rewrite Hb in Hat.
      apply (byte_hops_at x b); [done|]. apply (Forall_at _ _ _ _ Ha Hb).
    + unfold matches_from. replace (slice bs (i + zlen a) end_) with c; [done|].
      rewrite <- (slice_from_app a c), <- Hac at 1. apply slice_from_slice_of; lia.
  - intros (k & Hk & Hhop & Hm). exists (slice bs i k), (slice bs k end_). split_and!; [|apply Forall_at_iff|done].
    + rewrite slice_cat by lia. done.
    + intros x b Hb. assert (0 <= x < k - i) by (rewrite <- (zlen_slice bs i k) by lia; apply at_is_Some; eauto).
      rewrite at_slice in Hb by lia. apply (byte_hops_at (i + x) b Hb), Hhop. lia.
Qed.

Lemma matches_hit_inv j i t :
  at_ tokens j = Some t → t ≠ Star → 0 <= i <= end_ → matches_from j i →
  i < end_ ∧ hit j i = true ∧ matches_from (j + 1) (i + 1).
Proof using Hend.
  intros Ht Hs Hi Hm. unfold matches_from in Hm. rewrite (drop_step j t Ht), tokens_match_one in Hm by done.
  destruct Hm as (b & rest & Hb & Hm & Hr). destruct (decide (i = end_)) as [->|]; [by rewrite slice_empty in Hb|].
  destruct (slice_byte i ltac:(lia)) as (b' & Hb' & Hsl). rewrite Hsl in Hb. simplify_eq.
  split_and!; [lia| |done]. unfold token_matches. rewrite Ht, Hb', Hm. by destruct t.
Qed.

(** Tokens and bytes that match one to one, [k] of them. *)
Definition hits (j i k : Z) : Prop := ∀ x, 0 <= x < k → hit (j + x) (i + x) = true.

Lemma hits_matches j i k : 0 <= i → 0 <= k → i + k <= end_ → hits j i k → matches_from j i ↔ matches_from (j + k) (i + k).
Proof using Hend.
  intros Hi Hk. revert k Hk. apply (natlike_ind (λ k, i + k <= end_ → hits j i k → _)); [by rewrite !Z.add_0_r|].
  intros k Hk IH Hle Hh. rewrite IH; [|lia|intros x Hx; apply Hh; lia].
  rewrite (matches_hit (j + k) (i + k)); [|lia|apply Hh; lia]. by rewrite <- !Z.add_assoc.
Qed.

Lemma matches_hits j i k :
  0 <= i <= end_ → 0 <= k → (∀ x, 0 <= x < k → ∃ t, at_ tokens (j + x) = Some t ∧ t ≠ Star) → matches_from j i →
  i + k <= end_ ∧ hits j i k ∧ matches_from (j + k) (i + k).
Proof using Hend.
  intros Hi Hk. revert k Hk. apply (natlike_ind (λ k, (∀ x, 0 <= x < k → _) → matches_from j i → _)).
  { intros _ Hm. rewrite !Z.add_0_r. split_and!; [lia| |done]. intros x Hx. lia. }
  intros k Hk IH Hns Hm. destruct IH as (Hle & Hh & Hm'); [intros x Hx; apply Hns; lia|done|].
  destruct (Hns k ltac:(lia)) as (t & Ht & Hstar).
  destruct (matches_hit_inv (j + k) (i + k) t Ht Hstar ltac:(lia) Hm') as (? & Hhit & Hm2). unfold Z.succ.
  rewrite !Z.add_assoc. split_and!; [lia| |done]. intros x Hx. destruct (decide (x = k)) as [->|]; [done|]. apply Hh. lia.
Qed.

Lemma hit_token j i : hit j i = true → ∃ t, at_ tokens j = Some t ∧ t ≠ Star.
Proof using Type.
  unfold token_matches. destruct (at_ tokens j) as [t|]; [|done]. destruct (at_ bs i); [|done].
  exists t. split; [done|]. by intros ->.
Qed.

Context (Hok : Forall (slash_ok ss) tokens).

(** A slash among tokens that match at two places, the second one reached over bytes that a
    star may take, would be one of those bytes. *)
Lemma hits_hop j r r1 k :
  r < r1 → hits j r k → hits j r1 k → (∀ x, r <= x < r1 → byte_hops x) → ∀ x, r <= x < r1 + k → byte_hops x.
Proof using Hok.
  intros Hr H H1 Hhop x. destruct (decide (x < r1)); [intros; apply Hhop; lia|]. intros Hx.
  replace x with (r1 + (x - r1)) by lia. assert (0 <= x - r1 < k) as Hy by lia. revert Hy. generalize (x - r1).
  clear x n Hx. intros y. destruct (decide (0 <= y)) as [Hy|]; [|lia]. revert y Hy.
  apply (Zlt_0_ind (λ y, 0 <= y < k → byte_hops (r1 + y))). intros y IH _ Hy. unfold byte_hops. destruct (decide (ss = true)) as [Ess|Ess]; [right|by destruct ss; [|left]].
  destruct (byte_is bs (r1 + y) SLASH) eqn:Eb; [|done]. exfalso. apply bool_decide_eq_true in Eb.
  pose proof (H1 y Hy) as Hh1. pose proof (H y Hy) as Hh. unfold token_matches in Hh1, Hh. rewrite Eb in Hh1.
  destruct (at_ tokens (j + y)) as [t|] eqn:Ht; [|done]. apply andb_prop in Hh1 as [_ Hm].
  rewrite (Forall_at _ _ _ _ Hok Ht Ess Hm) in Hh.
  assert (byte_is bs (r + y) SLASH = true) as Hb.
  { destruct (at_ bs (r + y)) as [b|] eqn:Eb'; [|done]. cbn [is_star negb andb matchToken] in Hh. apply Z.eqb_eq in Hh. subst. by apply bool_decide_eq_true. }
  destruct (decide (r + y < r1)).
  - destruct (Hhop (r + y) ltac:(lia)); congruence.
  - destruct (IH (y - (r1 - r)) ltac:(lia) ltac:(lia)) as [|Hn]; [congruence|].
    replace (r1 + (y - (r1 - r))) with (r + y) in Hn by lia. congruence.
Qed.

(** The loop's state: [G] asks whether everything matches.  Either no star was met, or the
    tokens after the last one match one to one from [r] on. *)
Definition searching (G : Prop) (s r j i : Z) : Prop :=
  (s = -1 ∧ (G ↔ matches_from j i)) ∨
  (0 <= s ∧ at_ tokens s = Some Star ∧ j = s + 1 + (i - r) ∧ r <= i ∧ hits (s + 1) r (i - r) ∧ (G ↔ matches_from s r)).

Lemma hits_tokens j i k : hits j i k → ∀ x, 0 <= x < k → ∃ t, at_ tokens (j + x) = Some t ∧ t ≠ Star.
Proof using Type. intros H x Hx. by apply (hit_token _ (i + x)), H. Qed.

(** At the next star, and at the end, nothing is lost by looking only from here on. *)
Lemma searching_here G s r j i :
  0 <= r → i <= end_ → searching G s r j i → at_ tokens j = Some Star ∨ i = end_ → G ↔ matches_from j i.
Proof using Hend Hok.
  intros Hr Hi [[-> H]|(Hs & Hstar & -> & Hri & Hh & H)] Hor; [done|]. rewrite H, matches_star by (done || lia). split.
  - intros (r1 & Hr1 & Hhop & Hm).
    destruct (matches_hits (s + 1) r1 (i - r) ltac:(lia) ltac:(lia) (hits_tokens _ _ _ Hh) Hm) as (Hle & Hh1 & Hm1).
    destruct (decide (r = r1)) as [<-|]; [by replace (r + (i - r)) with i in Hm1 by lia|].
    destruct Hor as [Hj|]; [|lia]. apply (matches_star _ _ Hj); [lia|].
    apply (matches_star _ _ Hj) in Hm1 as (k & Hk & Hhop1 & Hm2); [|lia].
    exists k. split_and!; [lia|lia| |done]. intros x Hx.
    destruct (decide (x < r1 + (i - r))); [|apply Hhop1; lia].
    by apply (hits_hop (s + 1) r r1 (i - r)); try done; lia.
  - intros Hm. exists r. split_and!; [lia|lia|intros x Hx; lia|].
    apply (hits_matches _ _ (i - r)); [lia|lia|lia|done|]. by replace (r + (i - r)) with i by lia.
Qed.

Lemma searching_hit G s r j i : 0 <= i < end_ → hit j i = true → searching G s r j i → searching G s r (j + 1) (i + 1).
Proof using Hend.
  intros Hi Hh [[-> H]|(Hs & Hstar & -> & Hri & Hhs & H)]; [left|right].
  - by rewrite H, matches_hit.
  - split_and!; [lia|done|lia|lia| |done]. intros x Hx. destruct (decide (x = i - r)) as [->|]; [|apply Hhs; lia].
    by replace (r + (i - r)) with i by lia.
Qed.

Lemma searching_star G s r j i :
  0 <= j → 0 <= r → i <= end_ → searching G s r j i → at_ tokens j = Some Star → searching G j i (j + 1) i.
Proof using Hend Hok.
  intros. right. split_and!; [lia|done|lia|lia|intros x Hx; lia|]. by apply (searching_here _ s r); auto.
Qed.

(** After a miss the star takes one byte more, if it can. *)
Lemma searching_retry G s r j i :
  0 <= r → 0 <= j → 0 <= i < end_ → searching G s r j i → hit j i = false → is_star (at_ tokens j) = false →
  (s = -1 → ¬ G) ∧ (0 <= s → r < end_ ∧ (byte_hops r → searching G s (r + 1) (s + 1) (r + 1)) ∧ (¬ byte_hops r → ¬ G)).
Proof using Hend.
  intros Hr Hj Hi Hs Hh Hstar. pose proof (matches_miss j i Hj Hi Hh Hstar) as Hno.
  destruct Hs as [[-> H]|(Hs & Hst & -> & Hri & Hhs & H)]; [naive_solver lia|].
  split; [lia|]. intros _. split; [lia|].
  assert (¬ matches_from (s + 1) r) as Hno'.
  { rewrite (hits_matches (s + 1) r (i - r)) by (done || lia). by replace (r + (i - r)) with i by lia. }
  assert (G ↔ ∃ k, r < k <= end_ ∧ (∀ x, r <= x < k → byte_hops x) ∧ matches_from (s + 1) k) as HG.
  { rewrite H, matches_star by (done || lia). split; intros (k & Hk & ? & ?); exists k; split_and!; try done; try lia.
    destruct (decide (r = k)) as [<-|]; [done|lia]. }
  split.
  - intros Hb. right. split_and!; [lia|done|lia|lia|intros x Hx; lia|]. rewrite HG, matches_star by (done || lia).
    split; intros (k & Hk & Hhop & ?); exists k; split_and!; try done; try lia.
    + intros x Hx. apply Hhop. lia.
    + intros x Hx. destruct (decide (x = r)) as [->|]; [done|]. apply Hhop. lia.
  - rewrite HG. intros Hb (k & Hk & Hhop & _). apply Hb, Hhop. lia.
Qed.

(** The outcome of a matcher within its bounds on work. *)
Definition answers (G : Prop) (work0 bound : Z) (o : option Matched) : Prop :=
  ∃ m, o = Some m ∧ work0 <= work m <= work0 + bound ∧ (work m <= maxWork → (matched m = true ↔ G)).

Lemma answers_over G w w' b : maxWork < w' → w <= w' <= w + b → answers G w b (Some (mkMatched false w')).
Proof using Type. intros. exists (mkMatched false w'). cbn. split_and!; [done|lia..]. Qed.

Lemma answers_no G w w' b : ¬ G → w <= w' <= w + b → answers G w b (Some (mkMatched false w')).
Proof using Type. intros. exists (mkMatched false w'). cbn. naive_solver. Qed.

Lemma skip_stars_spec fuel j w :
  0 <= j <= zlen tokens → zlen tokens - j < Z.of_nat fuel →
  answers (tokens_match ss (drop (Z.to_nat j) tokens) []) w (zlen tokens - j) (skip_stars fuel tokens j w maxWork).
Proof using bs.
  revert j w. induction fuel as [|fuel IH]; intros j w Hj Hf; [lia|]. cbn [skip_stars].
  destruct (at_ tokens j) as [t|] eqn:Ht.
  - assert (j < zlen tokens) by (assert (0 <= j < zlen tokens) by (apply at_is_Some; eauto); lia).
    rewrite (drop_step j t Ht). destruct (is_star (Some t)) eqn:Es.
    + destruct t; try done. case_match; zbool; [apply answers_over; lia|].
      destruct (IH (j + 1) (w + 1)) as (m & -> & Hw & Hm); [lia|lia|]. exists m. split_and!; [done|lia|lia|].
      intros Hle. rewrite (Hm Hle), tokens_match_star. split; [intros; by exists [], []|].
      by intros ([|] & [|] & ? & ? & ?).
    + exists (mkMatched (j =? zlen tokens) w). cbn [matched work]. split_and!; [done|lia|lia|]. intros _. rewrite tokens_match_one by (by intros ->).
      rewrite Z.eqb_eq. split; [lia|by intros (? & ? & ? & _)].
  - apply at_None in Ht; [|lia]. exists (mkMatched (j =? zlen tokens) w). cbn [matched work]. split_and!; [done|lia|lia|]. intros _.
    rewrite drop_ge, tokens_match_nil by (unfold zlen in *; lia). rewrite Z.eqb_eq. split; [done|lia].
Qed.

Lemma answers_step G w b b' o : answers G (w + 1) b' o → b' + 1 <= b → answers G w b o.
Proof using Type. intros (m & -> & ? & ?) ?. exists m. split_and!; try done; lia. Qed.

Lemma loop_spec G start fuel s r j i w :
  0 <= start <= r → r <= i <= end_ → 0 <= j <= zlen tokens → -1 <= s → searching G s r j i →
  let variant := (end_ - r) * (zlen tokens + (end_ - start) + 2) + (end_ - i) + (zlen tokens - j) in
  variant < Z.of_nat fuel →
  answers G w variant (matchDeterministic_loop tokens bs end_ maxWork ss fuel j i s r w).
Proof using Hend Hok.
  revert s r j i w. induction fuel as [|fuel IH]; intros s r j i w Hr Hi Hj Hs Hg variant Hf; [nia|].
  cbn [matchDeterministic_loop]. destruct (i <? end_) eqn:Ei; zbool.
  2:{ assert (i = end_) as -> by lia. destruct (skip_stars_spec (S (length tokens)) j w ltac:(lia)) as (m & -> & Hw & Hm).
      { unfold zlen. lia. }
      exists m. split_and!; [done|lia|nia|]. intros Hle. rewrite (Hm Hle), (searching_here G s r j end_) by (auto; lia).
      unfold matches_from. by rewrite slice_empty. }
  case_match; zbool; [apply answers_over; nia|].
  destruct (hit j i) eqn:Eh.
  { destruct (hit_token _ _ Eh) as (t & Ht & _). assert (0 <= j < zlen tokens) by (apply at_is_Some; eauto).
    eapply answers_step; [apply IH; [lia..|apply searching_hit; [lia|done|done]|nia]|nia]. }
  destruct (is_star (at_ tokens j)) eqn:Est.
  { assert (at_ tokens j = Some Star) as Ht by (destruct (at_ tokens j) as [[]|]; done).
    assert (0 <= j < zlen tokens) by (apply at_is_Some; eauto).
    eapply answers_step; [apply IH; [lia..|apply (searching_star G s r); try done; lia|nia]|nia]. }
  destruct (searching_retry G s r j i ltac:(lia) ltac:(lia) ltac:(lia) Hg Eh Est) as [Hn Hy].
  destruct (0 <=? s) eqn:Es; zbool; cbn [andb].
  2:{ apply answers_no; [apply Hn; lia|nia]. }
  destruct Hy as (Hre & Hy & Hn'); [lia|]. rewrite (proj2 (Z.ltb_lt _ _)) by lia. cbn [andb].
  destruct (negb ss || negb (byte_is bs r SLASH)) eqn:Eb.
  - destruct Hg as [[-> _]|(_ & Hst & -> & _)]; [lia|]. assert (0 <= s < zlen tokens) by (apply at_is_Some; eauto).
    eapply answers_step; [apply IH; [lia..|by apply Hy, byte_hops_bool|nia]|nia].
  - apply answers_no; [apply Hn'; rewrite byte_hops_bool; congruence|nia].
Qed.

(** [matchDeterministic] ends within a bound on its work, and within its limit decides
    whether the tokens match the bytes. *)
Lemma matchDeterministic_spec start :
  0 <= start <= end_ →
  answers (tokens_match ss tokens (slice bs start end_)) 0
    ((end_ - start + 1) * (zlen tokens + (end_ - start) + 2)) (matchDeterministic tokens bs end_ maxWork ss start).
Proof using Hend Hok.
  intros Hs. pose proof (zlen_nonneg tokens).
  destruct (loop_spec (matches_from 0 start) start (deterministic_fuel tokens end_ start) (-1) start 0 start 0)
    as (m & Hm & Hw & Hg); [lia..| | |exists m; split_and!; [done|lia|nia|done]].
  - left. done.
  - unfold deterministic_fuel, zlen in *. nia.
Qed.

End matcher.

(** * Literals *)

Lemma answers_iff maxWork G G' w b o : (G ↔ G') → answers maxWork G w b o → answers maxWork G' w b o.
Proof. intros HG (m & -> & ? & ?). exists m. by rewrite <- HG. Qed.

Lemma Forall_seqZ (P : Z → Prop) n : Forall P (seqZ 0 n) ↔ ∀ i, 0 <= i < n → P i.
Proof. rewrite Forall_forall. setoid_rewrite elem_of_seqZ. split; intros H i Hi; apply H; lia. Qed.

Lemma compare_from_spec maxWork l start r indices w :
  answers maxWork (Forall (λ i, at_ l (start + i) = at_ r i) indices) w (zlen indices)
    (Some (compare_from l start r indices w maxWork)).
Proof.
  revert w. induction indices as [|i indices IH]; intros w; cbn [compare_from].
  { exists (mkMatched true w). change (zlen []) with 0. split_and!; [done|cbn; lia|cbn; lia|]. intros _. split; [by constructor|done]. }
  rewrite zlen_cons. pose proof (zlen_nonneg indices). case_match; zbool; [apply answers_over; lia|].
  case_bool_decide as E; cbn [negb].
  - eapply (answers_step maxWork _ _ _ (zlen indices)); [|lia]. eapply answers_iff; [|apply IH]. rewrite Forall_cons. tauto.
  - apply answers_no; [|lia]. by intros [? _]%Forall_cons.
Qed.

Lemma compare_all_spec maxWork l start r :
  answers maxWork (∀ i, 0 <= i < zlen r → at_ l (start + i) = at_ r i) 0 (1 + zlen r)
    (Some (compare_from l start r (seqZ 0 (zlen r)) 1 maxWork)).
Proof.
  pose proof (zlen_nonneg r).
  eapply (answers_step maxWork _ _ _ (zlen r)); [|lia]. eapply answers_iff; [apply Forall_seqZ|].
  replace (zlen r) with (zlen (seqZ 0 (zlen r))) at 2 by (unfold zlen; rewrite length_seqZ; lia). apply compare_from_spec.
Qed.

(** The bytes of [l] from [i] on. *)
Lemma at_all_slice {A} (l r : list A) i :
  0 <= i → i + zlen r <= zlen l → (∀ k, 0 <= k < zlen r → at_ l (i + k) = at_ r k) ↔ slice l i (i + zlen r) = r.
Proof.
  intros Hi Hle. pose proof (zlen_nonneg r). split.
  - intros H0. apply at_ext. intros k Hk. destruct (decide (k < zlen r)).
    + rewrite at_slice by lia. apply H0. lia.
    + rewrite !at_ge; [done|lia|rewrite zlen_slice; lia].
  - intros Hs k Hk. transitivity (at_ (slice l i (i + zlen r)) k); [by rewrite at_slice by lia|by rewrite Hs].
Qed.

Lemma prefixMatch_spec maxWork prefix bs start :
  0 <= start →
  answers maxWork (start + zlen prefix <= zlen bs ∧ slice bs start (start + zlen prefix) = prefix) 0 (1 + zlen prefix)
    (Some (prefixMatch prefix bs start maxWork)).
Proof.
  intros Hs. pose proof (zlen_nonneg prefix). unfold prefixMatch. destruct (maxWork <? 1) eqn:E1; zbool; [apply answers_over; lia|].
  case_match; zbool; [apply answers_no; lia|]. eapply answers_iff; [|apply compare_all_spec].
  rewrite at_all_slice by lia. naive_solver lia.
Qed.

Lemma suffixMatch_spec maxWork suffix bs end_ :
  end_ <= zlen bs →
  answers maxWork (zlen suffix <= end_ ∧ slice bs (end_ - zlen suffix) end_ = suffix) 0 (1 + zlen suffix)
    (Some (suffixMatch suffix bs end_ maxWork)).
Proof.
  intros Hs. pose proof (zlen_nonneg suffix). unfold suffixMatch. destruct (maxWork <? 1) eqn:E1; zbool; [apply answers_over; lia|].
  case_match; zbool; [apply answers_no; lia|]. eapply answers_iff; [|apply compare_all_spec].
  rewrite at_all_slice by lia. replace (end_ - zlen suffix + zlen suffix) with end_ by lia. naive_solver lia.
Qed.

Lemma compareLiteralBytes_spec maxWork path start end_ literal :
  0 <= start <= end_ → end_ <= zlen path →
  answers maxWork (slice path start end_ = literal) 0 (1 + zlen literal)
    (Some (compareLiteralBytes path start end_ literal maxWork)).
Proof.
  intros Hs He. pose proof (zlen_nonneg literal). unfold compareLiteralBytes.
  destruct (maxWork <? 1) eqn:E1; zbool; [apply answers_over; lia|].
  destruct (end_ - start =? zlen literal) eqn:El; zbool; cbn [orb negb].
  - eapply answers_iff; [|apply compare_all_spec]. rewrite at_all_slice by lia. by replace (start + zlen literal) with end_ by lia.
  - apply answers_no; [|lia]. intros <-. rewrite zlen_slice in El; lia.
Qed.

Lemma equalBytes_range_spec l start end_ r :
  0 <= start <= end_ → end_ <= zlen l → equalBytes_range l start end_ r = bool_decide (slice l start end_ = r).
Proof.
  intros Hs He. pose proof (zlen_nonneg r). unfold equalBytes_range. destruct (end_ - start =? zlen r) eqn:E; zbool; cbn [negb].
  - apply eq_bool_prop_intro. rewrite bool_decide_spec. replace end_ with (start + zlen r) by lia.
    rewrite <- at_all_slice, <- Forall_seqZ by lia. rewrite forallb_True. apply Forall_iff. intros k. apply bool_decide_spec.
  - symmetry. apply bool_decide_eq_false. intros <-. rewrite zlen_slice in E; lia.
Qed.

(** * Filters *)

Lemma literal_prefix_split tokens : ∃ rest, tokens = (Literal <$> literal_prefix tokens) ++ rest.
Proof.
  induction tokens as [|t tokens [rest IH]]; [by exists []|]. destruct t; try by eexists (_ :: tokens).
  exists rest. cbn [literal_prefix]. rewrite fmap_cons, <- app_comm_cons. by f_equal.
Qed.

Lemma literal_suffix_split tokens : ∃ rest, tokens = rest ++ (Literal <$> literalEdge tokens false).
Proof.
  destruct (literal_prefix_split (reverse tokens)) as [rest H]. exists (reverse rest). unfold literalEdge.
  rewrite fmap_reverse, <- reverse_app, <- H. by rewrite reverse_involutive.
Qed.

Section filters.
  Context (tokens : list Token) (bs : bytes) (start end_ : Z) (ss : bool) (Hs : 0 <= start <= end_) (He : end_ <= zlen bs).
  Context (Hm : tokens_match ss tokens (slice bs start end_)).

Lemma prefix_needed :
  start + zlen (literal_prefix tokens) <= zlen bs ∧
  slice bs start (start + zlen (literal_prefix tokens)) = literal_prefix tokens.
Proof using Hs He Hm.
  destruct (literal_prefix_split tokens) as [rest H]. revert Hm. rewrite H at 1. rewrite tokens_match_app.
  intros (a & c & Hac & Ha & _). apply tokens_match_literal in Ha as ->.
  assert (zlen (literal_prefix tokens) + zlen c = end_ - start) by (rewrite <- zlen_app, <- Hac, zlen_slice; lia).
  pose proof (zlen_nonneg (literal_prefix tokens)). pose proof (zlen_nonneg c). split; [lia|].
  transitivity (slice (literal_prefix tokens ++ c) 0 (zlen (literal_prefix tokens))); [|apply slice_0_app].
  rewrite <- Hac, slice_slice by lia. by rewrite Z.add_0_r.
Qed.

Lemma suffix_needed :
  zlen (literalEdge tokens false) <= end_ ∧
  slice bs (end_ - zlen (literalEdge tokens false)) end_ = literalEdge tokens false.
Proof using Hs He Hm.
  destruct (literal_suffix_split tokens) as [rest H]. revert Hm. rewrite H at 1. rewrite tokens_match_app.
  intros (a & c & Hac & _ & Hc). apply tokens_match_literal in Hc as ->.
  set (l := literalEdge tokens false) in *.
  assert (zlen a + zlen l = end_ - start) by (rewrite <- zlen_app, <- Hac, zlen_slice; lia).
  pose proof (zlen_nonneg a). pose proof (zlen_nonneg l). split; [lia|].
  transitivity (slice_from (a ++ l) (zlen a)); [|apply slice_from_app]. rewrite <- Hac, slice_from_slice_of by lia.
  f_equal. lia.
Qed.

End filters.

Lemma literal_prefix_length tokens : zlen (literalEdge tokens true) <= zlen tokens.
Proof.
  destruct (literal_prefix_split tokens) as [rest H]. apply (f_equal zlen) in H. rewrite zlen_app, zlen_fmap in H.
  pose proof (zlen_nonneg rest). cbn [literalEdge]. lia.
Qed.

Lemma literal_suffix_length tokens : zlen (literalEdge tokens false) <= zlen tokens.
Proof.
  destruct (literal_suffix_split tokens) as [rest H]. apply (f_equal zlen) in H. rewrite zlen_app, zlen_fmap in H.
  pose proof (zlen_nonneg rest). lia.
Qed.

Lemma filter_spec maxWork (G P : Prop) (l : bytes) n m :
  zlen l <= n → (G → P) → answers maxWork P 0 (1 + zlen l) (Some m) →
  let r := if 0 <? zlen l then m else mkMatched true 0 in
  0 <= work r <= 1 + n ∧ (G → work r <= maxWork → matched r = true).
Proof.
  intros Hn HGP (m' & [= <-] & Hw & Hm) r. pose proof (zlen_nonneg l). subst r. case_match; cbn [matched work].
  - split; [lia|]. intros HG Hle. by apply Hm, HGP.
  - split; [lia|done].
Qed.

Definition deterministic_bound (n k : Z) : Z := (k + 1) * (n + k + 2) + 2 * n + 2.

(** The filters by literal ends change the work, never the answer. *)
Lemma deterministicMatch_spec tokens bs start end_ maxWork ss :
  0 <= start <= end_ → end_ <= zlen bs → Forall (slash_ok ss) tokens →
  answers maxWork (tokens_match ss tokens (slice bs start end_)) 0 (deterministic_bound (zlen tokens) (end_ - start))
    (deterministicMatch tokens (literalEdge tokens true) (literalEdge tokens false) bs start end_ maxWork ss).
Proof.
  intros Hs He Hok. set (G := tokens_match _ _ _). unfold deterministicMatch.
  change (literalEdge tokens true) with (literal_prefix tokens).
  set (prefix := if _ : bool then prefixMatch _ _ _ _ else _).
  assert (0 <= work prefix <= 1 + zlen tokens ∧ (G → work prefix <= maxWork → matched prefix = true)) as [Hw1 Hp].
  { eapply filter_spec; [apply literal_prefix_length|by apply prefix_needed|apply prefixMatch_spec; lia]. }
  destruct (negb (matched prefix) || (maxWork <? work prefix)) eqn:E1.
  { exists (mkMatched false (work prefix)). cbn [matched work]. split_and!; [done|unfold deterministic_bound; nia..|].
    intros Hle. split; [done|]. intros HG. apply orb_true_iff in E1 as [E1|E1]; zbool; [|lia].
    by rewrite Hp in E1. }
  apply orb_false_iff in E1 as [_ E1]. zbool.
  set (suffix := if _ : bool then suffixMatch _ _ _ _ else _).
  assert (0 <= work suffix <= 1 + zlen tokens ∧ (G → work suffix <= maxWork - work prefix → matched suffix = true)) as [Hw2 Hf].
  { eapply filter_spec; [apply literal_suffix_length|by apply suffix_needed|by apply suffixMatch_spec]. }
  cbv zeta. destruct (negb (matched suffix) || (maxWork <? work prefix + work suffix)) eqn:E2.
  { exists (mkMatched false (work prefix + work suffix)). cbn [matched work].
    split_and!; [done|unfold deterministic_bound; nia..|]. intros Hle. split; [done|]. intros HG.
    apply orb_true_iff in E2 as [E2|E2]; zbool; [|lia]. rewrite Hf in E2; [done|done|lia]. }
  destruct (matchDeterministic_spec tokens bs end_ (maxWork - (work prefix + work suffix)) ss He Hok start Hs)
    as (m & Hm & Hw & Hg).
  rewrite Hm. cbn [mbind option_bind]. eexists. split_and!; [done|cbn [work]; unfold deterministic_bound; lia..|].
  cbn [matched work]. intros Hle. apply Hg. lia.
Qed.
