(* ===== verification/IgnoreNfaFacts.v ===== *)
(** The automaton of pattern-match.ts: its masks are sets of states, [epsilon] closes them,
    and a pattern with globstars matches exactly the bytes of its meaning [nfa_match]. *)

From S2P Require Import Prelude Arrays IgnoreTokens IgnoreMatch.

(** * Masks *)

Notation word_ok := (λ w : Z, 0 <= w < 2 ^ 32) (only parsing).
Notation mask_ok := (Forall word_ok) (only parsing).

Lemma shiftr5 i : Z.shiftr i 5 = i / 32.
Proof. by rewrite Z.shiftr_div_pow2. Qed.
Lemma land31 i : Z.land i 31 = i mod 32.
Proof. apply (Z.land_ones i 5). lia. Qed.
Lemma shiftl1 k : 0 <= k → Z.shiftl 1 k = 2 ^ k.
Proof. intros. by rewrite Z.shiftl_1_l. Qed.

Lemma land_pow2 w k : 0 <= k → (Z.land w (2 ^ k) =? 0) = negb (Z.testbit w k).
Proof.
  intros Hk. destruct (Z.testbit w k) eqn:E; cbn [negb].
  - apply Z.eqb_neq. intros H. apply (f_equal (λ x, Z.testbit x k)) in H.
    rewrite Z.land_spec, Z.pow2_bits_true, E, Z.bits_0 in H by done. done.
  - apply Z.eqb_eq. apply Z.bits_inj'. intros n Hn. rewrite Z.land_spec, Z.pow2_bits_eqb, Z.bits_0 by done.
    destruct (k =? n) eqn:Ek; zbool; [subst; by rewrite E|]. by rewrite andb_false_r.
Qed.

Lemma maskHas_bit mask i : maskHas mask i = Z.testbit (default 0 (at_ mask (i / 32))) (i mod 32).
Proof.
  unfold maskHas. rewrite shiftr5, land31. pose proof (Z.mod_pos_bound i 32 ltac:(lia)).
  rewrite shiftl1, land_pow2 by lia. apply negb_involutive.
Qed.

Lemma maskHas_word mask word b : 0 <= b < 32 → maskHas mask (word * 32 + b) = Z.testbit (default 0 (at_ mask word)) b.
Proof.
  intros. rewrite maskHas_bit. f_equal; [do 2 f_equal|]; Z.div_mod_to_equations; lia.
Qed.

Lemma maskHas_set mask i j :
  0 <= i < zlen mask * 32 → 0 <= j → maskHas (maskSet mask i) j = (i =? j) || maskHas mask j.
Proof.
  intros Hi Hj. rewrite !maskHas_bit. unfold maskSet, put_word. rewrite shiftr5, land31.
  pose proof (Z.mod_pos_bound i 32 ltac:(lia)). pose proof (Z.mod_pos_bound j 32 ltac:(lia)).
  rewrite at_insert by zdm. destruct (j / 32 =? i / 32) eqn:E; zbool.
  - cbn [default from_option id]. rewrite shiftl1, Z.lor_spec, Z.pow2_bits_eqb, <- E, orb_comm by lia. f_equal.
    destruct (i mod 32 =? j mod 32) eqn:E1, (i =? j) eqn:E2; zbool; [done|exfalso; zdm..|done].
  - rewrite (proj2 (Z.eqb_neq i j)) by (intros ->; done). done.
Qed.

Lemma zlen_maskSet mask i : zlen (maskSet mask i) = zlen mask.
Proof. unfold maskSet, put_word, zlen. by rewrite length_insert. Qed.

Lemma below_bits n x : 0 <= n → 0 <= x < 2 ^ n ↔ ∀ k, n <= k → Z.testbit x k = false.
Proof.
  intros Hn. split.
  - intros Hx k Hk. rewrite <- (Z.mod_small x (2 ^ n)) by done. apply Z.mod_pow2_bits_high. lia.
  - intros H. assert (x = x mod 2 ^ n) as ->; [|apply Z.mod_pos_bound; lia].
    apply Z.bits_inj'. intros k Hk. rewrite Z.testbit_mod_pow2 by done. destruct (k <? n) eqn:E; zbool; [done|]. by apply H.
Qed.

Lemma maskSet_ok mask i : mask_ok mask → mask_ok (maskSet mask i).
Proof.
  intros H. unfold maskSet, put_word. apply Forall_insert; [done|]. rewrite land31.
  pose proof (Z.mod_pos_bound i 32 ltac:(lia)). rewrite shiftl1 by lia.
  assert (0 <= default 0 (at_ mask (Z.shiftr i 5)) < 2 ^ 32) as Hw.
  { destruct (at_ mask (Z.shiftr i 5)) as [w|] eqn:E; [|cbn; lia]. apply (Forall_at _ _ _ _ H E). }
  pose proof (Z.pow_lt_mono_r 2 (i mod 32) 32 ltac:(lia) ltac:(lia) ltac:(lia)). pose proof (Z.pow_nonneg 2 (i mod 32)).
  apply below_bits; [lia|]. intros k Hk. rewrite Z.lor_spec. apply orb_false_iff.
  split; apply (below_bits 32); lia.
Qed.

Lemma word_at_ok mask word : mask_ok mask → 0 <= default 0 (at_ mask word) < 2 ^ 32.
Proof. intros H. destruct (at_ mask word) as [w|] eqn:E; [|cbn; lia]. apply (Forall_at _ _ _ _ H E). Qed.

Lemma maskHas_blank n i : maskHas (replicate n 0) i = false.
Proof.
  rewrite maskHas_bit. destruct (at_ (replicate n 0) (i / 32)) as [w|] eqn:E; [|apply Z.bits_0].
  assert (w = 0) as -> by (apply (Forall_at (.= 0) (replicate n 0) _ _) in E; [done|by apply Forall_replicate]). apply Z.bits_0.
Qed.

Lemma maskHas_outside mask i : zlen mask * 32 <= i → maskHas mask i = false.
Proof. intros. rewrite maskHas_bit, at_ge by zdm. apply Z.bits_0. Qed.

(** * The lowest bit of a word *)

Lemma lowest_bit p :
  0 < p → ∃ l, 0 <= l ∧ Z.land p (- p) = 2 ^ l ∧ Z.testbit p l = true ∧ ∀ k, 0 <= k < l → Z.testbit p k = false.
Proof.
  destruct p as [|p|]; try lia. intros _. induction p as [p _|p (l & Hl & Hbit & Ht & Hlow)|].
  - exists 0. split_and!; [done| |done|lia]. change (Z.pos p~1) with (2 * Z.pos p + 1). apply Z.bits_inj'. intros n Hn.
    rewrite Z.land_spec, Z.bits_opp, Z.pow2_bits_eqb by lia. replace (Z.pred (2 * Z.pos p + 1)) with (2 * Z.pos p) by lia.
    destruct (decide (n = 0)) as [->|]; [by rewrite Z.testbit_odd_0, Z.testbit_even_0|].
    replace n with (Z.succ (n - 1)) by lia. rewrite Z.testbit_odd_succ, Z.testbit_even_succ by lia.
    rewrite andb_negb_r. symmetry. apply Z.eqb_neq. lia.
  - assert (Z.pos p~0 = Z.shiftl (Z.pos p) 1) as -> by (rewrite Z.shiftl_mul_pow2; lia).
    exists (l + 1). split_and!; [lia| | |].
    + replace (- Z.shiftl (Z.pos p) 1) with (Z.shiftl (- Z.pos p) 1) by (rewrite !Z.shiftl_mul_pow2; lia).
      rewrite <- Z.shiftl_land, Hbit, Z.shiftl_mul_pow2, Z.pow_add_r by lia. done.
    + rewrite Z.shiftl_spec by lia. by replace (l + 1 - 1) with l by lia.
    + intros k Hk. rewrite Z.shiftl_spec by lia. destruct (decide (k = 0)) as [->|]; [done|]. apply Hlow. lia.
  - exists 0. split_and!; [done|done|done|lia].
Qed.

Lemma word_bit p b : 0 <= p < 2 ^ 32 → Z.testbit p b = true → 0 <= b < 32.
Proof.
  intros Hp Hb. destruct (decide (0 <= b)); [|by rewrite Z.testbit_neg_r in Hb by lia].
  destruct (decide (b < 32)); [lia|]. by rewrite (proj1 (below_bits 32 _ ltac:(lia)) Hp b) in Hb by lia.
Qed.

(** Taking the lowest bit out of a word, as the loops do. *)
Lemma take_lowest p :
  0 < p < 2 ^ 32 →
  ∃ l, 0 <= l < 32 ∧ Z.testbit p l = true ∧ (∀ k, Z.testbit p k = true → l <= k) ∧
    31 - clz32 (Z.land p (- p)) = l ∧
    (let p' := Z.land p (Z.lnot (Z.land p (- p))) in
     0 <= p' < 2 ^ 32 ∧ ∀ k, Z.testbit p' k = true ↔ Z.testbit p k = true ∧ k ≠ l).
Proof.
  intros Hp. destruct (lowest_bit p ltac:(lia)) as (l & Hl & Hbit & Ht & Hlow).
  assert (l < 32).
  { destruct (decide (l < 32)); [done|]. rewrite Z.bits_above_log2 in Ht; [done|lia|].
    apply Z.log2_lt_pow2; [lia|]. pose proof (Z.pow_le_mono_r 2 32 l ltac:(lia) ltac:(lia)). lia. }
  exists l. rewrite Hbit. split_and!; [lia|lia|done| | |cbv zeta; split_and!].
  - intros k Hk. destruct (decide (0 <= k)); [|by rewrite Z.testbit_neg_r in Hk by lia].
    destruct (decide (k < l)); [|lia]. by rewrite Hlow in Hk by lia.
  - unfold clz32. rewrite Z.log2_pow2 by done. lia.
  - apply Z.land_nonneg. lia.
  - apply below_bits; [lia|]. intros k Hk. rewrite Z.land_spec. apply andb_false_iff. left. by apply (below_bits 32); lia.
  - intros k. rewrite <- Z.ldiff_land, Z.ldiff_spec. destruct (decide (0 <= k)).
    + rewrite Z.pow2_bits_eqb by lia. rewrite andb_true_iff, negb_true_iff, Z.eqb_neq. naive_solver lia.
    + rewrite !Z.testbit_neg_r by lia. naive_solver.
Qed.

(** * Closing a set of states *)

(** A globstar is a boundary followed by a body. *)
Inductive states_wf : list NfaState → Prop :=
| wf_end : states_wf []
| wf_plain s states : s ≠ GlobBoundary → s ≠ GlobBody → states_wf states → states_wf (s :: states)
| wf_globstar states : states_wf states → states_wf (GlobBoundary :: GlobBody :: states).

Notation has mask i := (maskHas mask i = true).

Section automaton.
  Context (states : list NfaState) (words : Z).

Definition eps (i t : Z) : Prop := 0 <= i ∧ epsilon_target states i = t ∧ 0 <= t.

(** A set with room for the accepting state. *)
Definition fits (mask : list Z) : Prop := zlen mask = words ∧ mask_ok mask.

Definition closed (mask : list Z) (i : Z) : Prop := ∀ t, eps i t → has mask t.
Definition closed_below (mask : list Z) (limit : Z) : Prop := ∀ i, 0 <= i < limit → has mask i → closed mask i.
Definition closed_set (mask : list Z) : Prop := ∀ i, 0 <= i → has mask i → closed mask i.

(** [mask'] adds only states that empty moves reach. *)
Definition grown (mask mask' : list Z) : Prop :=
  fits mask' ∧ (∀ j, 0 <= j → has mask j → has mask' j) ∧
  (∀ j, 0 <= j → has mask' j → ∃ i, 0 <= i ∧ has mask i ∧ rtc eps i j).

End automaton.

Lemma states_wf_at states i s :
  states_wf states → at_ states i = Some s →
  (s = GlobBoundary → at_ states (i + 1) = Some GlobBody) ∧ (s = GlobBody → at_ states (i - 1) = Some GlobBoundary).
Proof.
  intros Hwf. revert i s. induction Hwf as [|x states Hx Hy Hwf IH|states Hwf IH]; intros i s Hi;
    pose proof (at_bound _ _ _ Hi) as Hp.
  - unfold zlen in Hp. simpl in Hp. lia.
  - destruct (decide (i = 0)) as [->|]; [by injection Hi as <-|]. rewrite at_cons in Hi by lia.
    destruct (IH _ _ Hi) as [H1 H2]. split; intros ->.
    + rewrite at_cons by lia. rewrite <- H1 by done. f_equal. lia.
    + specialize (H2 eq_refl). pose proof (at_bound _ _ _ H2).
      rewrite at_cons by lia. done.
  - destruct (decide (i = 0)) as [->|]; [by injection Hi as <-|]. destruct (decide (i = 1)) as [->|]; [by injection Hi as <-|].
    rewrite !at_cons in Hi by lia. destruct (IH _ _ Hi) as [H1 H2]. split; intros ->.
    + rewrite !at_cons by lia. rewrite <- H1 by done. f_equal. lia.
    + specialize (H2 eq_refl). pose proof (at_bound _ _ _ H2).
      rewrite !at_cons by lia. rewrite <- H2. by f_equal; lia.
Qed.

Section sets.
  Context (states : list NfaState) (words : Z) (Hwf : states_wf states) (Hwords : zlen states < words * 32).

Notation eps := (eps states).
Notation closed := (closed states).
Notation fits := (fits words).
Notation grown := (grown states words).

Lemma eps_later i t : eps i t → i < t <= zlen states.
Proof using Hwf.
  intros (Hi & Ht & Hp). unfold epsilon_target in Ht. destruct (at_ states i) as [s|] eqn:E; [|lia].
  pose proof (at_bound _ _ _ E). destruct (states_wf_at _ _ _ Hwf E) as [Hb _].
  destruct s; try lia. pose proof (at_bound _ _ _ (Hb eq_refl)). lia.
Qed.

Lemma eps_rtc_later i j : rtc eps i j → i <= j.
Proof using Hwf. induction 1 as [|i t j He _ IH]; [lia|]. apply eps_later in He. lia. Qed.

Lemma eps_dec i : 0 <= i → (0 <= epsilon_target states i ∧ eps i (epsilon_target states i)) ∨ (epsilon_target states i < 0 ∧ ∀ t, ¬ eps i t).
Proof using Type.
  intros Hi. destruct (decide (0 <= epsilon_target states i)).
  - left. split; [done|]. by repeat split.
  - right. split; [lia|]. intros t (_ & ? & ?). lia.
Qed.

Lemma fits_set mask i : fits mask → fits (maskSet mask i).
Proof using Type. intros [? ?]. split; [by rewrite zlen_maskSet|by apply maskSet_ok]. Qed.

Lemma fits_has mask i j : fits mask → 0 <= i <= zlen states → 0 <= j → has (maskSet mask i) j ↔ j = i ∨ has mask j.
Proof using Hwords.
  intros [Hl _] Hi Hj. rewrite maskHas_set by lia. rewrite orb_true_iff, Z.eqb_eq. naive_solver.
Qed.

Lemma grown_refl mask : fits mask → grown mask mask.
Proof using Type. intros H. split_and!; [done|done|]. intros j Hj Hm. exists j. split_and!; [done|done|constructor]. Qed.

Lemma grown_trans a b c : grown a b → grown b c → grown a c.
Proof using Type.
  intros (_ & Hab & Sab) (Hc & Hbc & Sbc). split_and!; [done|auto|]. intros j Hj Hm.
  destruct (Sbc j Hj Hm) as (k & Hk & Hkm & Hr). destruct (Sab k Hk Hkm) as (i & Hi & Him & Hr').
  exists i. split_and!; [done|done|by etrans].
Qed.

Lemma grown_set mask i t : fits mask → has mask i → eps i t → grown mask (maskSet mask t).
Proof using Hwf Hwords.
  intros Hf Hi He. pose proof (eps_later i t He). assert (0 <= i) by apply He. split_and!; [by apply fits_set| |].
  - intros j Hj Hm. rewrite fits_has by (done || lia). by right.
  - intros j Hj Hm. rewrite fits_has in Hm by (done || lia). destruct Hm as [->|Hm].
    + exists i. split_and!; [done|done|]. by apply rtc_once.
    + exists j. split_and!; [done|done|constructor].
Qed.

Lemma closed_grown a b i : grown a b → closed a i → closed b i.
Proof using Type. intros (_ & H & _) Hc t Ht. apply H; [apply Ht|by apply Hc]. Qed.

(** Below a bound that was closed nothing is added. *)
Lemma grown_below a b limit i :
  grown a b → closed_below states a limit → 0 <= i < limit → has b i → has a i.
Proof using Hwf.
  intros (_ & _ & Hs) Hc Hi Hb. destruct (Hs i ltac:(lia) Hb) as (j & Hj & Hm & Hr). clear Hb.
  induction Hr as [|j t i He Hr IH]; [done|]. pose proof (eps_rtc_later _ _ Hr). pose proof (eps_later _ _ He).
  apply IH; [done|lia|]. by apply (Hc j ltac:(lia)).
Qed.

Lemma closed_below_grown a b limit : grown a b → closed_below states a limit → closed_below states b limit.
Proof using Hwf.
  intros Hg Hc i Hi Hb. apply (closed_grown a); [done|]. apply Hc; [done|]. by apply (grown_below a b limit).
Qed.

(** The word's bits yet to be looked at: the rest of its states are closed. *)
Definition pending_ok (mask : list Z) (word pending k : Z) : Prop :=
  0 <= pending < 2 ^ 32 ∧ (∀ b, Z.testbit pending b = true → k <= b < 32 ∧ has mask (word * 32 + b)) ∧
  (∀ b, 0 <= b < 32 → has mask (word * 32 + b) → Z.testbit pending b = true ∨ closed mask (word * 32 + b)).

Lemma pending_start mask word : fits mask → pending_ok mask word (default 0 (at_ mask word)) 0.
Proof using Type.
  intros [_ Hf]. pose proof (word_at_ok mask word Hf) as Hw. split_and!; [lia|lia| |].
  - intros b Hb. pose proof (word_bit _ _ Hw Hb). split; [lia|]. by rewrite maskHas_word by lia.
  - intros b Hb Hm. left. by rewrite maskHas_word in Hm by lia.
Qed.

(** The outcome of a loop with a bound on its work. *)
Definition epsilon_done (maxWork w bound : Z) (mask : list Z) (word : Z) (o : option (list Z * Z * bool)) : Prop :=
  ∃ mask' w' r, o = Some (mask', w', r) ∧ w <= w' <= w + bound ∧ grown mask mask' ∧ (r = true → maxWork < w') ∧
    (r = false → ∀ b, 0 <= b < 32 → has mask' (word * 32 + b) → closed mask' (word * 32 + b)).

Lemma epsilon_done_step maxWork w b b' mask mask1 word o :
  grown mask mask1 → epsilon_done maxWork (w + 1) b' mask1 word o → b' + 1 <= b → epsilon_done maxWork w b mask word o.
Proof using Type.
  intros Hg (mask' & w' & r & -> & Hw & Hg' & H) Hb. exists mask', w', r. split_and!; try done; try lia; try apply H.
  by apply (grown_trans _ mask1).
Qed.

(** The lowest bit is done with: later bits stay or come in. *)
Lemma pending_next mask mask1 word pending p1 k l :
  pending_ok mask word pending k → (∀ b, Z.testbit pending b = true → l <= b) → grown mask mask1 →
  closed mask1 (word * 32 + l) → 0 <= p1 < 2 ^ 32 → 0 <= l →
  (∀ b, Z.testbit p1 b = true → (Z.testbit pending b = true ∧ b ≠ l) ∨ (l < b < 32 ∧ has mask1 (word * 32 + b))) →
  (∀ b, Z.testbit pending b = true → b ≠ l → Z.testbit p1 b = true) →
  (∀ b, 0 <= b < 32 → has mask1 (word * 32 + b) → has mask (word * 32 + b) ∨ Z.testbit p1 b = true) →
  pending_ok mask1 word p1 (l + 1).
Proof using Type.
  intros (Hp & Hbits & Hrest) Hleast Hg Hc Hp1 Hl H1 H2 H3. split_and!; [lia|lia| |].
  - intros b Hb. destruct (H1 b Hb) as [[Hb' Hne]|[Hb' Hm]]; [|split; [lia|done]].
    destruct (Hbits b Hb') as [Hbb Hm]. pose proof (Hleast b Hb'). split; [lia|].
    destruct Hg as (_ & Hg & _). destruct (decide (0 <= word * 32 + b)); [by apply Hg|].
    exfalso. rewrite maskHas_bit, at_neg in Hm by (Z.div_mod_to_equations; lia). by rewrite Z.bits_0 in Hm.
  - intros b Hb Hm. destruct (decide (b = l)) as [->|]; [by right|].
    destruct (H3 b Hb Hm) as [Hm0|]; [|by left]. destruct (Hrest b Hb Hm0) as [|Hcl]; [left; by apply H2|right].
    by apply (closed_grown mask).
Qed.

Lemma add_pending p t word :
  0 <= t → 0 <= p < 2 ^ 32 →
  let p1 := if Z.shiftr t 5 =? word then Z.lor p (Z.shiftl 1 (Z.land t 31)) else p in
  0 <= p1 < 2 ^ 32 ∧ ∀ b, Z.testbit p1 b = true ↔ Z.testbit p b = true ∨ (0 <= b < 32 ∧ t = word * 32 + b).
Proof using Type.
  intros Ht Hp p1. subst p1. rewrite shiftr5, land31. pose proof (Z.mod_pos_bound t 32 ltac:(lia)).
  rewrite shiftl1 by lia. destruct (t / 32 =? word) eqn:E; zbool.
  - assert (∀ b, Z.testbit (Z.lor p (2 ^ (t mod 32))) b = true ↔ Z.testbit p b = true ∨ t mod 32 = b) as Hb.
    { intros b. destruct (decide (0 <= b)); [|rewrite !Z.testbit_neg_r by lia; naive_solver lia].
      rewrite Z.lor_spec, Z.pow2_bits_eqb, orb_true_iff, Z.eqb_eq by lia. done. }
    split.
    + apply below_bits; [lia|]. intros b Hb32. apply not_true_iff_false. rewrite Hb.
      rewrite (proj1 (below_bits 32 p ltac:(lia)) Hp) by done. intros [?|?]; [done|lia].
    + intros b. rewrite Hb. split; intros [?|?]; [by left|right; zdm|by left|right; zdm].
  - split; [done|]. intros b. split; [by left|]. intros [?|[? ?]]; [done|exfalso; zdm].
Qed.

Lemma epsilon_word_spec fuel word pending mask w maxWork k :
  fits mask → 0 <= word → 0 <= k <= 32 → 32 - k < Z.of_nat fuel → pending_ok mask word pending k →
  epsilon_done maxWork w (32 - k) mask word (epsilon_word states fuel word pending mask w maxWork).
Proof using Hwf Hwords.
  revert pending mask w k. induction fuel as [|fuel IH]; intros pending mask w k Hf Hword Hk Hfuel Hok; [lia|].
  pose proof Hok as (Hp & Hbits & Hrest). cbn [epsilon_word]. destruct (pending =? 0) eqn:E0; zbool.
  { subst. eexists _, _, _. split_and!; [done|lia|lia|by apply grown_refl|done|]. intros _ b Hb Hm.
    destruct (Hrest b Hb Hm) as [Hb0|]; [by rewrite Z.bits_0 in Hb0|done]. }
  destruct (take_lowest pending ltac:(lia)) as (l & Hl & Hlb & Hleast & -> & Hp'). cbv zeta in Hp'.
  set (p' := Z.land pending (Z.lnot _)) in *. destruct Hp' as [Hp' Hpb]. destruct (Hbits l Hlb) as [Hlk Hlm].
  destruct (maxWork <? w + 1) eqn:Ew; zbool.
  { eexists _, _, true. split_and!; [done|lia|lia|by apply grown_refl|done|done]. }
  assert (∀ mask1 p1, grown mask mask1 → pending_ok mask1 word p1 (l + 1) →
            epsilon_done maxWork w (32 - k) mask word (epsilon_word states fuel word p1 mask1 (w + 1) maxWork)) as Hgo.
  { intros mask1 p1 Hg Hok1. apply (epsilon_done_step _ _ _ (32 - (l + 1)) _ mask1); [done| |lia].
    apply IH; [apply Hg|done|lia|lia|done]. }
  set (i := word * 32 + l) in *. assert (closed mask i → epsilon_done maxWork w (32 - k) mask word
                                      (epsilon_word states fuel word p' mask (w + 1) maxWork)) as Hskip.
  { intros Hc. apply Hgo; [by apply grown_refl|].
    apply (pending_next mask mask word pending p' k l); try done; [by apply grown_refl|lia| | |].
    - intros b Hb%Hpb. by left.
    - intros b Hb Hne. by apply Hpb.
    - intros b Hb Hm. by left. }
  destruct (eps_dec i ltac:(lia)) as [[Ht He]|[Ht Hno]].
  2:{ rewrite (proj2 (Z.ltb_lt _ _)) by done. apply Hskip. intros t Ht'. by destruct (Hno t). }
  set (t := epsilon_target states i) in *. pose proof (eps_later i t He) as Hlater.
  rewrite (proj2 (Z.ltb_ge _ _)) by done. cbn [orb]. destruct (maskHas mask t) eqn:Emt.
  { apply Hskip. intros t' (_ & Ht' & _). fold t in Ht'. by subst t'. }
  pose proof (grown_set mask i t Hf Hlm He) as Hg. apply Hgo; [done|].
  destruct (add_pending p' t word ltac:(lia) Hp') as [Hp1 Hb1].
  apply (pending_next mask _ word pending _ k l); try done; try lia.
  - intros t' (_ & Ht' & _). fold i t in Ht'. subst t'. apply fits_has; [done|lia|lia|by left].
  - intros b [Hb|[Hb Hbt]]%Hb1; [left; by apply Hpb|]. right. unfold i in Hlater. split; [lia|].
    apply fits_has; [done|lia|lia|by left].
  - intros b Hb Hne. apply Hb1. left. by apply Hpb.
  - intros b Hb Hm. apply fits_has in Hm as [Hm|]; [|by left|done|lia|lia]. right. apply Hb1. by right.
Qed.

Lemma epsilon_words_spec maxWork n :
  0 <= n → ∀ a mask w, a + n = words → 0 <= a → fits mask → closed_below states mask (a * 32) →
  ∃ mask' w', epsilon_words states (seqZ a n) mask w maxWork = Some (mask', w') ∧
    w <= w' <= w + 32 * n ∧ grown mask mask' ∧ (w' <= maxWork → closed_below states mask' (words * 32)).
Proof using Hwf Hwords.
  intros Hn. pattern n. revert n Hn. apply natlike_ind.
  { intros a mask w Haw Ha Hf Hc. exists mask, w. split_and!; [done|lia|lia|by apply grown_refl|].
    by replace words with a by lia. }
  intros n Hn IH a mask w Haw Ha Hf Hc. rewrite seqZ_step by done. cbn [epsilon_words].
  destruct (epsilon_word_spec 33 a (default 0 (at_ mask a)) mask w maxWork 0) as (mask1 & w1 & r & -> & Hw1 & Hg & Hr1 & Hr0);
    [done|lia|lia|lia|by apply pending_start|]. cbn [mbind option_bind]. destruct r.
  { exists mask1, w1. split_and!; [done|lia|lia|done|]. specialize (Hr1 eq_refl). lia. }
  assert (closed_below states mask1 ((a + 1) * 32)) as Hc1.
  { intros i Hi Hm. destruct (decide (i < a * 32)); [apply (closed_below_grown mask mask1 (a * 32)); (done || lia)|].
    replace i with (a * 32 + (i - a * 32)) in Hm |- * by lia. apply Hr0; [done|lia|done]. }
  destruct (IH (a + 1) mask1 w1 ltac:(lia) ltac:(lia) (proj1 Hg) Hc1) as (mask2 & w2 & -> & Hw2 & Hg2 & Hcl).
  exists mask2, w2. split_and!; [done|lia|lia|by apply (grown_trans _ mask1)|done].
Qed.

(** [epsilon] closes a set of states, within a bound on its work. *)
Lemma epsilon_spec mask maxWork :
  fits mask →
  ∃ mask' w, epsilon states mask maxWork = Some (mask', w) ∧ 0 <= w <= 32 * words ∧ grown mask mask' ∧
    (w <= maxWork → closed_set states mask').
Proof using Hwf Hwords.
  intros Hf. unfold epsilon. destruct (epsilon_words_spec maxWork (zlen mask) (zlen_nonneg _) 0 mask 0)
    as (mask' & w & -> & Hw & Hg & Hc); [by destruct Hf as [<- _]|done|done|intros i Hi; lia|].
  destruct Hf as [Hl _]. exists mask', w. split_and!; [done|lia|lia|done|].
  intros Hle i Hi Hm. apply Hc; [done| |done]. split; [done|]. destruct (decide (i < words * 32)); [done|].
  destruct Hg as ((Hl' & _) & _). by rewrite maskHas_outside in Hm by lia.
Qed.

(** * One byte *)

(** Where a state goes with a byte. *)
Definition step_target (index byte : Z) : option Z :=
  match at_ states index with
  | None => None
  | Some NStar => if byte =? SLASH then None else Some index
  | Some StarAny => Some index
  | Some GlobBoundary => Some (if byte =? SLASH then index else index + 1)
  | Some GlobBody => Some (if byte =? SLASH then index - 1 else index)
  | Some (NLiteral b) => if b =? byte then Some (index + 1) else None
  | Some NAny => if byte =? SLASH then None else Some (index + 1)
  | Some (NClass bits) => if bitHas bits byte then Some (index + 1) else None
  end.

Lemma step_state_target index byte next :
  step_state states index byte next = match step_target index byte with Some j => maskSet next j | None => next end.
Proof using Type.
  unfold step_state, step_target. destruct (byte =? SLASH); destruct (at_ states index) as [[]|]; try done; by case_match.
Qed.

Lemma step_target_range i byte t : step_target i byte = Some t → 0 <= i ∧ 0 <= t <= zlen states.
Proof using Hwf.
  unfold step_target. destruct (at_ states i) as [s|] eqn:E; [|done]. pose proof (at_bound _ _ _ E).
  destruct (states_wf_at _ _ _ Hwf E) as [H1 H2]. destruct s; intros Ht; repeat case_match; simplify_eq; try lia.
  pose proof (at_bound _ _ _ (H2 eq_refl)). lia.
Qed.

Definition step_done (maxWork w bound : Z) (next : list Z) (goes : Z → Prop) (o : option (list Z * Z * bool)) : Prop :=
  ∃ next' w' r, o = Some (next', w', r) ∧ w <= w' <= w + bound ∧ fits next' ∧ (r = true → maxWork < w') ∧
    (r = false → ∀ j, 0 <= j → has next' j ↔ has next j ∨ goes j).

Lemma step_word_spec fuel word pending byte next w maxWork k :
  fits next → 0 <= k <= 32 → 32 - k < Z.of_nat fuel → 0 <= pending < 2 ^ 32 →
  (∀ b, Z.testbit pending b = true → k <= b < 32) →
  step_done maxWork w (32 - k) next (λ j, ∃ b, Z.testbit pending b = true ∧ step_target (word * 32 + b) byte = Some j)
    (step_word states fuel word pending byte next w maxWork).
Proof using Hwf Hwords.
  revert pending next w k. induction fuel as [|fuel IH]; intros pending next w k Hf Hk Hfuel Hp Hbits; [lia|].
  cbn [step_word]. destruct (pending =? 0) eqn:E0; zbool.
  { subst. eexists _, _, _. split_and!; [done|lia|lia|done|done|]. intros _ j Hj. split; [by left|].
    intros [?|(b & Hb & _)]; [done|]. by rewrite Z.bits_0 in Hb. }
  destruct (take_lowest pending ltac:(lia)) as (l & Hl & Hlb & Hleast & -> & Hp'). cbv zeta in Hp'.
  set (p' := Z.land pending (Z.lnot _)) in *. destruct Hp' as [Hp' Hpb]. pose proof (Hbits l Hlb).
  destruct (maxWork <? w + 1) eqn:Ew; zbool; [eexists _, _, true; split_and!; [done|lia|lia|done|done|done]|].
  rewrite step_state_target. set (i := word * 32 + l).
  set (next1 := match step_target i byte with Some j => maskSet next j | None => next end).
  assert (fits next1) as Hf1 by (subst next1; case_match; [by apply fits_set|done]).
  assert (∀ j, 0 <= j → has next1 j ↔ has next j ∨ step_target i byte = Some j) as Hn1.
  { intros j Hj. subst next1. destruct (step_target i byte) as [t|] eqn:Et; [|naive_solver].
    pose proof (step_target_range _ _ _ Et). rewrite fits_has by (done || lia). naive_solver. }
  destruct (IH p' next1 (w + 1) (l + 1) Hf1 ltac:(lia) ltac:(lia) ltac:(lia)) as (next' & w' & r & -> & Hw & Hf' & Hr1 & Hr0).
  { intros b [Hb Hne]%Hpb. pose proof (Hbits b Hb). pose proof (Hleast b Hb). lia. }
  eexists _, _, _. split_and!; [done|lia|lia|done|done|]. intros Hr j Hj. rewrite Hr0, Hn1 by done.
  setoid_rewrite Hpb. split.
  - intros [[?|?]|(b & [? ?] & ?)]; [by left|right; by exists l|right; by exists b].
  - intros [?|(b & ? & ?)]; [by left; left|]. destruct (decide (b = l)) as [->|]; [by left; right|right; by exists b].
Qed.

(** The states of a set whose word is in a list. *)
Lemma step_words_spec maxWork current byte ws next w :
  fits next → mask_ok current →
  step_done maxWork w (32 * zlen ws) next
    (λ j, ∃ word b, word ∈ ws ∧ 0 <= b < 32 ∧ has current (word * 32 + b) ∧ step_target (word * 32 + b) byte = Some j)
    (step_words states ws current byte next w maxWork).
Proof using Hwf Hwords.
  intros Hf Hc. revert next w Hf. induction ws as [|word ws IH]; intros next w Hf; cbn [step_words].
  { eexists _, _, _. split_and!; [done|lia|unfold zlen; simpl; lia|done|done|]. intros _ j Hj. split; [by left|].
    intros [?|(word & b & ?%elem_of_nil & _)]; done. }
  pose proof (word_at_ok current word Hc) as Hp. rewrite zlen_cons. pose proof (zlen_nonneg ws).
  destruct (step_word_spec 33 word (default 0 (at_ current word)) byte next w maxWork 0 Hf ltac:(lia) ltac:(lia) Hp)
    as (next1 & w1 & r & -> & Hw1 & Hf1 & Hr1 & Hr0).
  { intros b. by apply word_bit. }
  cbn [mbind option_bind]. destruct r; [eexists _, _, true; split_and!; [done|lia|lia|done|auto|done]|].
  destruct (IH next1 w1 Hf1) as (next' & w' & r & -> & Hw' & Hf' & Hr1' & Hr0').
  eexists _, _, _. split_and!; [done|lia|lia|done|done|]. intros Hr j Hj. rewrite Hr0', Hr0 by done. split.
  - intros [[?|(b & Hb & ?)]|(word' & b & ? & ?)]; [by left| |right; exists word', b; set_solver].
    right. pose proof (word_bit _ _ Hp Hb). exists word, b. rewrite maskHas_word by done. set_solver.
  - intros [?|(word' & b & [->|Hin]%elem_of_cons & Hb & Hm & ?)]; [by left; left| |right; by exists word', b].
    rewrite maskHas_word in Hm by done. left; right. by exists b.
Qed.

Lemma fits_blank : fits (replicate (Z.to_nat words) 0).
Proof using Hwords.
  pose proof (zlen_nonneg states). split; [apply zlen_replicate; lia|]. apply Forall_replicate. lia.
Qed.

(** One step: the states one byte leads to, closed. *)
Lemma nfaStep_spec current next byte maxWork :
  fits current → zlen next = words →
  ∃ next' w, nfaStep states current next byte maxWork = Some (next', w) ∧ 0 <= w <= 64 * words ∧ zlen next' = words ∧
    (w <= maxWork → fits next' ∧ closed_set states next' ∧
       ∀ j, 0 <= j → has next' j ↔ ∃ i k, 0 <= i ∧ has current i ∧ step_target i byte = Some k ∧ rtc eps k j).
Proof using Hwf Hwords.
  intros [Hl Hc] Hn. unfold nfaStep. pose proof (zlen_nonneg states).
  replace (length next) with (Z.to_nat words) by (unfold zlen in Hn; lia).
  destruct (step_words_spec maxWork current byte (seqZ 0 (zlen current)) (replicate (Z.to_nat words) 0) 0 fits_blank Hc)
    as (next1 & w1 & r & -> & Hw1 & Hf1 & Hr1 & Hr0).
  assert (zlen (seqZ 0 (zlen current)) = words) as Hz by (unfold zlen at 1; rewrite length_seqZ; lia).
  rewrite Hz in Hw1. cbn [mbind option_bind]. destruct r.
  { eexists _, _. split_and!; [done|lia|lia|apply Hf1|]. specialize (Hr1 eq_refl). lia. }
  destruct (epsilon_spec next1 (maxWork - w1) Hf1) as (next2 & w2 & -> & Hw2 & Hg & Hcl). cbn [mbind option_bind].
  eexists _, _. split_and!; [done|lia|lia|apply Hg|]. intros Hle. split_and!; [apply Hg|apply Hcl; lia|].
  assert (∀ k, 0 <= k → has next1 k ↔ ∃ i, 0 <= i ∧ has current i ∧ step_target i byte = Some k) as Hn1.
  { intros k Hk. rewrite (Hr0 eq_refl) by done. rewrite maskHas_blank. split.
    - intros [?|(word & b & Hin%elem_of_seqZ & ? & ? & ?)]; [done|]. exists (word * 32 + b). split_and!; [lia|done|done].
    - intros (i & Hi & Hm & ?). right. exists (i / 32), (i mod 32).
      assert (i / 32 * 32 + i mod 32 = i) as -> by zdm. split_and!; [|zdm|zdm|done|done].
      apply elem_of_seqZ. destruct (decide (i < zlen current * 32)); [zdm|]. by rewrite maskHas_outside in Hm by lia. }
  intros j Hj. destruct Hg as (_ & Hsub & Hsound). split.
  - intros Hm. destruct (Hsound j Hj Hm) as (k & Hk & Hkm & Hr). apply Hn1 in Hkm as (i & ? & ? & ?); [|done].
    by exists i, k.
  - intros (i & k & Hi & Hm & Ht & Hr). pose proof (step_target_range _ _ _ Ht) as [_ [Hk _]].
    assert (has next2 k) as Hk2 by (apply Hsub; [done|]; apply Hn1; [done|by exists i]). clear Ht.
    assert (closed_set states next2) as Hcs by (apply Hcl; lia).
    induction Hr as [|k t j He Hr IH]; [done|]. apply IH; [done|apply He|]. by apply (Hcs k Hk).
Qed.

(** * Runs *)

Inductive runs : Z → bytes → Z → Prop :=
| runs_end i : runs i [] i
| runs_eps i t bs j : eps i t → runs t bs j → runs i bs j
| runs_byte i t b bs j : step_target i b = Some t → runs t bs j → runs i (b :: bs) j.

Lemma runs_app i k j a c : runs i a k → runs k c j → runs i (a ++ c) j.
Proof using Type.
  induction 1 as [|i t bs k He _ IH|i t b bs k Ht _ IH]; intros H; [done|by eapply runs_eps, IH|by eapply runs_byte, IH].
Qed.

Lemma runs_rtc i j : rtc eps i j → runs i [] j.
Proof using Type. induction 1 as [|i t j He _ IH]; [constructor|by eapply runs_eps]. Qed.

Lemma runs_nil_inv i j : runs i [] j → rtc eps i j.
Proof using Type.
  intros H. remember [] as l eqn:El. induction H as [|i t bs j He _ IH|]; [constructor|apply rtc_l with t; auto|done].
Qed.

Lemma runs_cons_inv i b bs j : runs i (b :: bs) j → ∃ i' t, rtc eps i i' ∧ step_target i' b = Some t ∧ runs t bs j.
Proof using Type.
  intros H. remember (b :: bs) as l eqn:El. induction H as [|i t bs' j He _ IH|i t b' bs' j Ht Hr IH]; [done| |].
  - destruct (IH El) as (i' & t' & ? & ? & ?). exists i', t'. split_and!; [by apply rtc_l with t|done|done].
  - simplify_eq. exists i, t. split_and!; [constructor|done|done].
Qed.

(** A set that runs over [bs] from the states of [start] make up. *)
Definition reached (start mask : list Z) (bs : bytes) : Prop :=
  fits mask ∧ closed_set states mask ∧ ∀ j, 0 <= j → has mask j ↔ ∃ i, 0 <= i ∧ has start i ∧ runs i bs j.

Lemma runs_split i a c j : runs i (a ++ c) j → ∃ k, runs i a k ∧ runs k c j.
Proof using Type.
  intros H. remember (a ++ c) as l eqn:El. revert a El.
  induction H as [i|i t bs j He _ IH|i t b bs j Ht Hr IH]; intros a El.
  - symmetry in El. apply app_eq_nil in El as [-> ->]. exists i. split; constructor.
  - destruct (IH a El) as (k & ? & ?). exists k. split; [by eapply runs_eps|done].
  - destruct a as [|b' a]; cbn in El.
    + subst c. exists i. split; [constructor|by eapply runs_byte].
    + simplify_eq. destruct (IH a eq_refl) as (k & ? & ?). exists k. split; [by eapply runs_byte|done].
Qed.

Lemma runs_nonneg i bs j : runs i bs j → 0 <= i → 0 <= j.
Proof using Hwf.
  induction 1 as [i|i t bs j He _ IH|i t b bs j Ht _ IH]; intros Hi; [done| |]; apply IH; [apply He|].
  by apply (step_target_range _ _ _ Ht).
Qed.

Lemma closed_rtc mask i j : closed_set states mask → 0 <= i → has mask i → rtc eps i j → has mask j.
Proof using Type.
  intros Hc Hi Hm Hr. induction Hr as [|i t j He _ IH]; [done|]. apply IH; [apply He|by apply (Hc i)].
Qed.

Lemma reached_step start current bs byte next :
  reached start current bs → fits next → closed_set states next →
  (∀ j, 0 <= j → has next j ↔ ∃ i k, 0 <= i ∧ has current i ∧ step_target i byte = Some k ∧ rtc eps k j) →
  reached start next (bs ++ [byte]).
Proof using Hwf.
  intros (_ & Hclc & Hcur) Hf Hcl Hnext. split_and!; [done|done|]. intros j Hj. rewrite Hnext by done. split.
  - intros (i & k & Hi & Hm & Ht & Hr). apply Hcur in Hm as (i0 & Hi0 & Hm0 & Hr0); [|done].
    exists i0. split_and!; [done|done|]. apply (runs_app _ i); [done|]. eapply runs_byte; [done|by apply runs_rtc].
  - intros (i & Hi & Hm & Hr). apply runs_split in Hr as (k & Hr1 & Hr2).
    pose proof (runs_nonneg _ _ _ Hr1 Hi) as Hk. apply runs_cons_inv in Hr2 as (k' & t & He & Ht & Hr2).
    exists k', t. split_and!; [by apply (step_target_range _ _ _ Ht)| |done|by apply runs_nil_inv].
    apply (closed_rtc _ k); [done|done| |done]. apply Hcur; [done|by exists i].
Qed.

Lemma reached_start start mask :
  grown start mask → closed_set states mask → reached start mask [].
Proof using Type.
  intros (Hf & Hsub & Hsound) Hcl. split_and!; [done|done|]. intros j Hj. split.
  - intros Hm. destruct (Hsound j Hj Hm) as (i & ? & ? & ?). exists i. split_and!; [done|done|by apply runs_rtc].
  - intros (i & Hi & Hm & Hr%runs_nil_inv). apply (closed_rtc _ i); auto.
Qed.

Lemma nfa_bytes_spec start maxWork bs current next w pre :
  reached start current pre → zlen next = words →
  ∃ current' next' w', nfa_bytes states bs current next w maxWork = Some (current', next', w') ∧
    w <= w' <= w + 64 * words * zlen bs ∧ zlen next' = words ∧ (w' <= maxWork → reached start current' (pre ++ bs)).
Proof using Hwf Hwords.
  revert current next w pre. induction bs as [|b bs IH]; intros current next w pre Hr Hn; cbn [nfa_bytes].
  { eexists _, _, _. rewrite app_nil_r. split_and!; [done|lia|unfold zlen; simpl; lia|done|done]. }
  rewrite zlen_cons. pose proof (zlen_nonneg bs). pose proof (zlen_nonneg states).
  destruct (nfaStep_spec current next b (maxWork - w) (proj1 Hr) Hn) as (next1 & more & -> & Hm & Hl & Hs).
  cbn [mbind option_bind]. case_match; zbool; [eexists _, _, _; split_and!; [done|lia|nia|done|lia]|].
  destruct Hs as (Hf & Hcl & Hj); [lia|]. pose proof (reached_step _ _ _ _ _ Hr Hf Hcl Hj) as Hr1.
  destruct (IH next1 current (w + more) (pre ++ [b]) Hr1) as (c' & n' & w' & -> & Hw' & Hl' & Hr'); [apply Hr|].
  eexists _, _, _. split_and!; [done|lia|nia|done|]. intros Hle. specialize (Hr' Hle). by rewrite <- app_assoc in Hr'.
Qed.

Lemma nfa_run_spec start bs current next pre :
  64 * words <= MAX_WORK → reached start current pre → zlen next = words →
  ∃ current', nfa_run states bs current next = Some current' ∧ reached start current' (pre ++ bs).
Proof using Hwf Hwords.
  intros Hmax. revert current next pre. induction bs as [|b bs IH]; intros current next pre Hr Hn; cbn [nfa_run].
  { eexists. by rewrite app_nil_r. }
  destruct (nfaStep_spec current next b MAX_WORK (proj1 Hr) Hn) as (next1 & more & -> & Hm & Hl & Hs).
  cbn [mbind option_bind]. destruct Hs as (Hf & Hcl & Hj); [lia|].
  pose proof (reached_step _ _ _ _ _ Hr Hf Hcl Hj) as Hr1.
  destruct (IH next1 current (pre ++ [b]) Hr1) as (c' & -> & Hr'); [apply Hr|]. eexists. by rewrite <- app_assoc in Hr'.
Qed.

End sets.

(** * The meaning of a pattern with globstars *)

(** The bytes of whole directories: nothing, or a text that ends in a slash. *)
Definition directories (d : bytes) : Prop := d = [] ∨ last d = Some SLASH.

Inductive nfa_match : list NfaState → bytes → Prop :=
| nfa_end : nfa_match [] []
| nfa_literal b ss bs : nfa_match ss bs → nfa_match (NLiteral b :: ss) (b :: bs)
| nfa_any b ss bs : b ≠ SLASH → nfa_match ss bs → nfa_match (NAny :: ss) (b :: bs)
| nfa_class bits b ss bs : bitHas bits b = true → nfa_match ss bs → nfa_match (NClass bits :: ss) (b :: bs)
| nfa_star a ss bs : Forall (λ b, b ≠ SLASH) a → nfa_match ss bs → nfa_match (NStar :: ss) (a ++ bs)
| nfa_globstar d ss bs : directories d → nfa_match ss bs → nfa_match (GlobBoundary :: GlobBody :: ss) (d ++ bs)
| nfa_trailing a ss bs : nfa_match ss bs → nfa_match (StarAny :: ss) (a ++ bs).

Section meaning.
  Context (states : list NfaState) (Hwf : states_wf states).

Notation runs := (runs states).
Notation eps := (eps states).
Notation rest i := (drop (Z.to_nat i) states).

Lemma rest_cons i s : at_ states i = Some s → rest i = s :: rest (i + 1).
Proof using Type.
  intros H. pose proof (at_bound _ _ _ H). unfold at_ in H. rewrite (proj2 (Z.ltb_ge _ _)) in H by lia.
  rewrite Z2Nat.inj_add by lia. rewrite Nat.add_comm. by apply drop_S.
Qed.

(** What a run from [i] to the end has read; inside a globstar, the rest of a directory first. *)
Definition meant (i : Z) (bs : bytes) : Prop :=
  match at_ states i with
  | Some GlobBody => ∃ a c, bs = a ++ SLASH :: c ∧ nfa_match (rest (i - 1)) c
  | _ => nfa_match (rest i) bs
  end.

Lemma directories_cons b d : directories (b :: d) ↔ (b = SLASH ∧ directories d) ∨ (b ≠ SLASH ∧ last d = Some SLASH).
Proof using Type.
  unfold directories. destruct d as [|x d]; [|rewrite last_cons_cons; destruct (decide (b = SLASH)); naive_solver].
  cbn. destruct (decide (b = SLASH)); naive_solver.
Qed.

Lemma meant_plain i bs : at_ states (i - 1) ≠ Some GlobBoundary → meant i bs → nfa_match (rest i) bs.
Proof using Hwf.
  intros Hi. unfold meant. destruct (at_ states i) as [[]|] eqn:E; try done.
  by destruct (states_wf_at _ _ _ Hwf E) as [_ H%(λ H, H eq_refl)].
Qed.

Lemma runs_meant i bs : runs i bs (zlen states) → 0 <= i → meant i bs.
Proof using Hwf.
  intros H. remember (zlen states) as n eqn:En. induction H as [i|i t bs j He _ IH|i t b bs j Ht _ IH]; intros Hi.
  - subst. unfold meant. rewrite at_ge by lia. rewrite drop_ge by (unfold zlen; lia). constructor.
  - specialize (IH En ltac:(apply He)). destruct He as (_ & Ht & Hp). unfold epsilon_target in Ht.
    destruct (at_ states i) as [s|] eqn:E; [|lia]. unfold meant. rewrite E, (rest_cons _ _ E).
    destruct s; try lia; subst t.
    + apply meant_plain in IH; [by apply (nfa_star [])|]. replace (i + 1 - 1) with i by lia. by rewrite E.
    + destruct (states_wf_at _ _ _ Hwf E) as [HB _]. specialize (HB eq_refl).
      apply meant_plain in IH; [|by replace (i + 2 - 1) with (i + 1) by lia; rewrite HB].
      rewrite (rest_cons _ _ HB). replace (i + 1 + 1) with (i + 2) by lia. apply (nfa_globstar []); [by left|done].
    + apply meant_plain in IH; [by apply (nfa_trailing [])|]. replace (i + 1 - 1) with i by lia. by rewrite E.
  - destruct (step_target_range states Hwf _ _ _ Ht) as [_ Ht']. specialize (IH En ltac:(lia)).
    unfold step_target in Ht. destruct (at_ states i) as [s|] eqn:E; [|done]. pose proof (rest_cons _ _ E) as Hrest.
    destruct (states_wf_at _ _ _ Hwf E) as [HB HG]. unfold meant. rewrite E.
    assert (s ≠ GlobBoundary → t = i + 1 → nfa_match (rest (i + 1)) bs) as Hnext.
    { intros Hs ->. apply meant_plain; [|done]. replace (i + 1 - 1) with i by lia. rewrite E. naive_solver. }
    destruct s; repeat case_match; simplify_eq; zbool; rewrite ?Hrest.
    + subst. apply nfa_literal. by apply Hnext.
    + constructor; [done|]. by apply Hnext.
    + unfold meant in IH. rewrite E, Hrest in IH. inversion IH; subst.
      by apply (nfa_star (b :: _)); [constructor|].
    + constructor; [done|]. by apply Hnext.
    + unfold meant in IH. rewrite E, Hrest in IH. rewrite (rest_cons _ _ (HB eq_refl)) in IH |- *. inversion IH; subst.
      apply (nfa_globstar (SLASH :: _)); [|done]. apply directories_cons. by left.
    + unfold meant in IH. rewrite (HB eq_refl) in IH. destruct IH as (a & c & -> & Hc).
      replace (i + 1 - 1) with i in Hc by lia. rewrite Hrest in Hc. rewrite (rest_cons _ _ (HB eq_refl)) in Hc |- *.
      inversion Hc as [| | | | |d ? ? Hd Hm|]; subst. change (b :: ?l) with ([b] ++ l). rewrite app_comm_cons, !app_assoc.
      apply nfa_globstar; [|done]. right. destruct Hd as [->|Hd]; [by rewrite last_snoc|]. 
      rewrite (last_app _ (SLASH :: d)). change (SLASH :: d) with ([SLASH] ++ d). by rewrite last_app, Hd.
    + exists [], bs. subst b. split; [done|]. unfold meant in IH. by rewrite (HG eq_refl) in IH.
    + unfold meant in IH. rewrite E in IH. destruct IH as (a & c & -> & Hc). by exists (b :: a), c.
    + unfold meant in IH. rewrite E, Hrest in IH. inversion IH; subst. by apply (nfa_trailing (b :: _)).
Qed.

Lemma rest_inv i s ss : 0 <= i → rest i = s :: ss → at_ states i = Some s ∧ rest (i + 1) = ss.
Proof using Type.
  intros Hi Hr. assert (at_ states i = Some s) as Hs.
  { unfold at_. rewrite (proj2 (Z.ltb_ge _ _)) by lia. rewrite <- (Nat.add_0_r (Z.to_nat i)), <- lookup_drop. by rewrite Hr. }
  split; [done|]. rewrite (rest_cons _ _ Hs) in Hr. by simplify_eq.
Qed.

Lemma runs_loop i a : (∀ b, b ∈ a → step_target states i b = Some i) → runs i a i.
Proof using Hwf.
  induction a as [|b a IH]; intros H; [constructor|]. eapply runs_byte; [apply H; set_solver|]. apply IH. set_solver.
Qed.

(** Whole directories lead from a boundary, or from a body, to the boundary. *)
Lemma runs_directories i d :
  at_ states i = Some GlobBoundary → (directories d → runs i d i) ∧ (last d = Some SLASH → runs (i + 1) d i).
Proof using Hwf.
  intros HB. destruct (states_wf_at _ _ _ Hwf HB) as [HG%(λ H, H eq_refl) _].
  assert (∀ b, step_target states i b = Some (if b =? SLASH then i else i + 1)) as S1 by (intros b; unfold step_target; by rewrite HB).
  assert (∀ b, step_target states (i + 1) b = Some (if b =? SLASH then i else i + 1)) as S2.
  { intros b. unfold step_target. rewrite HG. by replace (i + 1 - 1) with i by lia. }
  induction d as [|b d [IH1 IH2]]; [split; [constructor|done]|].
  assert (directories (b :: d) → ∀ k, k = i ∨ k = i + 1 → runs k (b :: d) i) as Hboth.
  { intros Hd k Hk. apply (runs_byte _ _ (if b =? SLASH then i else i + 1)); [by destruct Hk as [-> | ->]|].
    apply directories_cons in Hd as [[-> Hd]|[Hne Hd]]; [by apply IH1|]. rewrite (proj2 (Z.eqb_neq _ _)) by done. by apply IH2. }
  split; [by intros H; apply Hboth; [|left]|]. intros H. apply Hboth; [by right|by right].
Qed.

Lemma meant_runs ss bs : nfa_match ss bs → ∀ i, 0 <= i <= zlen states → rest i = ss → runs i bs (zlen states).
Proof using Hwf.
  induction 1 as [|b ss bs _ IH|b ss bs Hb _ IH|bits b ss bs Hb _ IH|a ss bs Ha _ IH|d ss bs Hd _ IH|a ss bs _ IH];
    intros i Hi Hr.
  - assert (i = zlen states) as ->; [|constructor].
    apply (f_equal length) in Hr. rewrite length_drop in Hr. cbn in Hr. unfold zlen in *. lia.
  - apply rest_inv in Hr as [Hs Hr]; [|lia]. pose proof (at_bound _ _ _ Hs). eapply runs_byte; [|apply (IH (i + 1)); [lia|done]].
    unfold step_target. by rewrite Hs, Z.eqb_refl.
  - apply rest_inv in Hr as [Hs Hr]; [|lia]. pose proof (at_bound _ _ _ Hs). eapply runs_byte; [|apply (IH (i + 1)); [lia|done]].
    unfold step_target. rewrite Hs. by rewrite (proj2 (Z.eqb_neq _ _)).
  - apply rest_inv in Hr as [Hs Hr]; [|lia]. pose proof (at_bound _ _ _ Hs). eapply runs_byte; [|apply (IH (i + 1)); [lia|done]].
    unfold step_target. by rewrite Hs, Hb.
  - apply rest_inv in Hr as [Hs Hr]; [|lia]. pose proof (at_bound _ _ _ Hs). apply (runs_app _ i i).
    + apply runs_loop. intros b Hin. rewrite Forall_forall in Ha. unfold step_target. rewrite Hs.
      by rewrite (proj2 (Z.eqb_neq _ _)) by auto.
    + apply (runs_eps _ i (i + 1)); [|apply IH; [lia|done]]. split_and!; [lia|unfold epsilon_target; by rewrite Hs|lia].
  - apply rest_inv in Hr as [Hs Hr]; [|lia]. pose proof Hr as [Hs1 Hr1]%rest_inv; [|lia].
    pose proof (at_bound _ _ _ Hs1). apply (runs_app _ i i); [by apply runs_directories|].
    apply (runs_eps _ i (i + 2)); [|apply IH; [lia|by rewrite <- Hr1; do 2 f_equal; lia]].
    split_and!; [lia|unfold epsilon_target; by rewrite Hs|lia].
  - apply rest_inv in Hr as [Hs Hr]; [|lia]. pose proof (at_bound _ _ _ Hs). apply (runs_app _ i i).
    + apply runs_loop. intros b Hin. unfold step_target. by rewrite Hs.
    + apply (runs_eps _ i (i + 1)); [|apply IH; [lia|done]]. split_and!; [lia|unfold epsilon_target; by rewrite Hs|lia].
Qed.

(** The automaton's runs from its first state to the accepting one read the pattern's bytes. *)
Lemma runs_spec bs : runs 0 bs (zlen states) ↔ nfa_match states bs.
Proof using Hwf.
  split.
  - intros H%runs_meant; [|done]. by apply meant_plain in H.
  - intros H. apply (meant_runs states); [done| |done]. pose proof (zlen_nonneg states). lia.
Qed.

End meaning.

(** * From the start *)

Section start.
  Context (states : list NfaState) (Hwf : states_wf states).

Definition mask_words : Z := (zlen states + 1 + 31) / 32.
Definition start_mask : list Z := maskSet (nfaMask states) 0.

Notation reached := (reached states mask_words start_mask).

Lemma mask_words_enough : zlen states < mask_words * 32.
Proof using Type. unfold mask_words. zdm. Qed.

Lemma zlen_nfaMask : zlen (nfaMask states) = mask_words.
Proof using Type. unfold nfaMask. rewrite zlen_replicate; [done|]. pose proof (zlen_nonneg states). unfold mask_words. zdm. Qed.

Lemma start_fits : fits mask_words start_mask.
Proof using Type. apply fits_set. apply (fits_blank states), mask_words_enough. Qed.

Lemma start_has j : 0 <= j → has start_mask j ↔ j = 0.
Proof using Type.
  intros Hj. pose proof (zlen_nonneg states). pose proof mask_words_enough. unfold start_mask.
  rewrite maskHas_set by (rewrite ?zlen_nfaMask; lia). unfold nfaMask. rewrite maskHas_blank, orb_false_r, Z.eqb_eq. done.
Qed.

(** A set of states reached from the start holds the accepting one when the bytes match. *)
Lemma reached_accepts mask bs : reached mask bs → has mask (zlen states) ↔ nfa_match states bs.
Proof using Hwf.
  intros (_ & _ & H). pose proof (zlen_nonneg states). rewrite H, <- runs_spec by done. split.
  - intros (i & Hi & Hs & Hr). apply start_has in Hs as ->; done.
  - intros Hr. exists 0. by rewrite start_has.
Qed.

Lemma start_epsilon maxWork :
  ∃ mask w, epsilon states start_mask maxWork = Some (mask, w) ∧ 0 <= w <= 32 * mask_words ∧
    (w <= maxWork → reached mask []).
Proof using Hwf.
  destruct (epsilon_spec states mask_words Hwf mask_words_enough start_mask maxWork start_fits) as (mask & w & -> & Hw & Hg & Hc).
  exists mask, w. split_and!; [done|lia|lia|]. intros Hle. by apply reached_start; auto.
Qed.

(** The literal states in front of a pattern are read first. *)
Lemma nfa_prefix_needed bs : nfa_match states bs → ∃ c, bs = nfaLiteralPrefix states ++ c.
Proof using Type.
  clear Hwf. induction 1 as [| b ss bs _ [c ->]| | | | |]; try (by eexists).
Qed.

End start.
