(* ===== verification/IgnoreCompile.v ===== *)
(** Compiling the lines of an ignore file: pattern-compile.ts and byte-glob.ts of
    src/packages/git/src/ignore/. *)

From S2P Require Import Prelude Utf8 Arrays IgnoreTokens IgnoreMatch.

(** * Paths *)

(** The segments of [bytes], by their starts and ends. *)
Fixpoint segment_bounds (bs : bytes) (indices : list Z) (start : Z) : list (Z * Z) :=
  match indices with
  | [] => []
  | index :: indices =>
      if (index <? zlen bs) && negb (byte_is bs index SLASH) then segment_bounds bs indices start
      else (start, index) :: segment_bounds bs indices (index + 1)
  end.

Definition encodePathBytes (bs : bytes) : EncodedPath :=
  let bounds := segment_bounds bs (seqZ 0 (zlen bs + 1)) 0 in
  mkEncoded bs bounds.*1 bounds.*2 (foldl (λ n b, if b =? SLASH then n + 1 else n) 1 bs).

Definition encodePath (path : ustring) : EncodedPath := encodePathBytes (encode path).

(** * Rules *)

(** [while (end > start && line[end - 1] === 0x20 && !escaped(line, end - 1)) end--]. *)
Fixpoint trim_spaces (line : bytes) (n : nat) : Z :=
  match n with
  | O => 0
  | S m => if byte_is line (Z.of_nat m) 0x20 && negb (escaped line (Z.of_nat m)) then trim_spaces line m else Z.of_nat n
  end.

(** A slash, escaped or not, inside the rule. *)
Fixpoint slash_inside (fuel : nat) (line : bytes) (index end_ : Z) : bool :=
  match fuel with
  | O => false
  | S fuel =>
      if index <? end_ then
        if byte_is line index SLASH || (byte_is line index BACKSLASH && byte_is line (index + 1) SLASH) then true
        else slash_inside fuel line (if byte_is line index BACKSLASH then index + 2 else index + 1) end_
      else false
  end.

Definition compile_tokens (anchored : bool) (tokens : Tokens) (targetSegments : list Token → Z) : Compiled :=
  if negb (valid tokens) then Never
  else
    match literalOf (t_tokens tokens) with
    | Some literal => if anchored then LiteralPath literal else LiteralBasename literal
    | None =>
        Deterministic anchored (t_tokens tokens) (literalEdge (t_tokens tokens) true) (literalEdge (t_tokens tokens) false)
          (t_hasStar tokens) (targetSegments (t_tokens tokens))
    end.

Definition compile_body (anchored : bool) (body : bytes) : option Compiled :=
  match (if anchored then leadingGlobstarBasename body else None) with
  | Some basename => parsed ← tokensOf basename true false; Some (compile_tokens false parsed (λ _, 1))
  | None =>
      if anchored && hasGlobstar body then
        states ← compileNfa body;
        Some (match states with None => Never | Some states => Nfa states (nfaLiteralPrefix states) end)
      else parsed ← tokensOf body true false; Some (compile_tokens anchored parsed targetSegments_of)
  end.

Definition is_iterative (c : Compiled) : bool :=
  match c with Nfa _ _ => true | Deterministic _ _ _ _ hasStar _ => hasStar | _ => false end.

(** [None] outside is a loop that does not end; inside it is the code's [null]. *)
Definition compilePatternBytes (line : bytes) : option (option IgnorePattern) :=
  let start := 0 in
  let end_ := trim_spaces line (length line) in
  if (end_ <=? start) || byte_is line start 0x23 then Some None
  else
    let negated := byte_is line start 0x21 in
    let start := if negated then start + 1 else start in
    if end_ <=? start then Some None
    else
      let directoryOnly := byte_is line (end_ - 1) SLASH in
      let end_ :=
        if directoryOnly then
          let end_ := end_ - 1 in
          if (start <? end_) && byte_is line (end_ - 1) BACKSLASH && escaped line end_ then end_ - 1 else end_
        else end_ in
      if end_ <=? start then Some None
      else
        let escaped_root := byte_is line start BACKSLASH && byte_is line (start + 1) SLASH in
        let rooted := byte_is line start SLASH || escaped_root in
        let start := if byte_is line start SLASH then start + 1 else if escaped_root then start + 2 else start in
        let anchored := rooted || slash_inside (S (length line)) line start end_ in
        compiled ← compile_body anchored (slice line start end_);
        Some (Some (mkPattern negated directoryOnly (is_iterative compiled) compiled)).

Definition compilePattern (line : ustring) : option (option IgnorePattern) := compilePatternBytes (encode line).

(** [pattern.test(relative)]. *)
Definition test (pattern : IgnorePattern) (relative : ustring) : option bool := finalMatch (compiled pattern) (encodePath relative).

Definition patternLiteral (pattern : IgnorePattern) : option (bool * bytes) :=
  match compiled pattern with
  | LiteralBasename literal => Some (true, literal)
  | LiteralPath literal => Some (false, literal)
  | _ => None
  end.

Definition patternMatchesNever (pattern : IgnorePattern) : bool :=
  match compiled pattern with Never => true | _ => false end.

(** * Whole-path globs *)

Record ByteGlobPattern := mkGlob {
  g_literal : option bytes; g_literalPrefix : bytes; tokenCount : Z; wildcardTokens : Z;
  g_match : bytes → Z → option Matched
}.

Definition compileByteGlob (bs : bytes) (slashSensitive unmatchedClassLiteral : bool) : option (option ByteGlobPattern) :=
  parsed ← tokensOf bs slashSensitive unmatchedClassLiteral;
  Some (
    if negb (valid parsed) then None
    else
      let tokens := t_tokens parsed in
      let prefix := literalEdge tokens true in
      Some (mkGlob (literalOf tokens) prefix (zlen tokens)
              (foldl (λ n t, match t with Literal _ => n | _ => n + 1 end) 0 tokens)
              (λ path maxWork, deterministicMatch tokens prefix (literalEdge tokens false) path 0 (zlen path) maxWork slashSensitive))).
