(* ===== verification/IgnoreCompileFacts.v ===== *)
(** Compiling ignore rules: it ends for every line, and every pattern it gives is well formed. *)

From S2P Require Import Prelude Utf8 Arrays IgnoreTokens IgnoreMatch IgnoreTokenFacts IgnoreNfaFacts IgnoreCompile.

(** * Classes *)

Lemma bitHas_bit bits b : bitHas bits b = Z.testbit (default 0 (at_ bits (b / 32))) (b mod 32).
Proof. apply (maskHas_bit bits b). Qed.

(** A class of a path pattern never matches the slash. *)
Lemma close_class_slash bits negated : bitHas (close_class bits negated true) SLASH = false.
Proof.
  rewrite bitHas_bit. unfold close_class. set (l := if negated then _ else _).
  change (Z.shiftr SLASH 5) with 1. change (SLASH / 32) with 1. change (SLASH mod 32) with 15. unfold put_word.
  destruct (decide (1 < zlen l)).
  - rewrite at_insert by lia. rewrite Z.eqb_refl. cbn [default from_option id]. by rewrite Z.land_spec, andb_false_r.
  - rewrite at_ge; [done|]. unfold zlen. rewrite length_insert. unfold zlen in *. lia.
Qed.

Lemma find_close_total fuel bs close :
  0 < Z.of_nat fuel → zlen bs - close < Z.of_nat fuel → ∃ c, find_close fuel bs close = Some c ∧ close <= c.
Proof.
  revert close. induction fuel as [|fuel IH]; intros close H0 Hf; [lia|]. cbn [find_close].
  destruct (close + 1 <? zlen bs) eqn:E; zbool; cbn [andb]; [|by exists close].
  case_match; [|by exists close]. destruct (IH (close + 1)) as (c & ? & ?); [lia|lia|]. exists c. split; [done|lia].
Qed.

Lemma classByte_spec bs index : 0 <= index →
  match classByte bs index with Some (_, end_) => index < end_ <= zlen bs | None => True end.
Proof.
  intros Hi. unfold classByte. destruct (at_ bs index) as [b|] eqn:E; [|done]. pose proof (at_bound _ _ _ E).
  destruct (b =? BACKSLASH); [|lia]. destruct (at_ bs (index + 1)) eqn:E'; [|done]. pose proof (at_bound _ _ _ E'). lia.
Qed.

Definition class_ok (bs : bytes) (start : Z) (ss : bool) (r : option (class_bits * Z)) : Prop :=
  match r with
  | Some (bits, end_) => start < end_ <= zlen bs ∧ (ss = true → bitHas bits SLASH = false)
  | None => True
  end.

Lemma parseClass_loop_total fuel bs negated ss index bits first prior start :
  0 <= start < index → index <= zlen bs + 1 → 0 < Z.of_nat fuel → zlen bs - index < Z.of_nat fuel →
  ∃ r, parseClass_loop fuel bs negated ss index bits first prior = Some r ∧ class_ok bs start ss r.
Proof.
  revert index bits first prior. induction fuel as [|fuel IH]; intros index bits first prior Hi Hle H0 Hf; [lia|].
  cbn [parseClass_loop]. destruct (index <? zlen bs) eqn:Ei; zbool; cbn [negb]; [|by exists None].
  case_match; [eexists; split; [done|split; [lia|]]; intros ->; apply close_class_slash|].
  assert (∃ close, (if byte_is bs index OPEN_CLASS && byte_is bs (index + 1) 58
                    then Some <$> find_close (S (length bs)) bs (index + 2) else Some None) = Some close ∧
                   match close with Some c => index + 2 <= c | None => True end) as (close & -> & Hclose).
  { case_match; [|by exists None].
    destruct (find_close_total (S (length bs)) bs (index + 2)) as (c & -> & ?); [lia|unfold zlen; lia|]. by exists (Some c). }
  cbn [mbind option_bind].
  destruct (match close with Some _ => _ | None => _ end) as [[bits' c]|] eqn:Ep.
  { assert (index + 2 <= c ∧ c + 1 < zlen bs) as [??].
    { destruct close as [c'|]; [|done]. destruct (c' + 1 <? zlen bs) eqn:E; [|done]. zbool.
      destruct (addPosix _ _); simplify_eq/=. lia. }
    apply IH; lia. }
  clear Ep. pose proof (classByte_spec bs index ltac:(lia)) as Hb. destruct (classByte bs index) as [[byte end_]|]; [|by exists None].
  destruct prior as [low|]; [|apply IH; lia]. destruct ((byte =? 45) && _ && _); [|apply IH; lia].
  pose proof (classByte_spec bs end_ ltac:(lia)) as Hu. destruct (classByte bs end_) as [[upper end2]|]; [|by exists None].
  apply IH; lia.
Qed.

Lemma parseClass_total bs start ss :
  0 <= start < zlen bs → ∃ r, parseClass bs start ss = Some r ∧ class_ok bs start ss r.
Proof.
  intros Hs. unfold parseClass. destruct (_ || _); apply parseClass_loop_total; try lia; unfold zlen; lia.
Qed.

(** * Tokens *)

Lemma last_star_range fuel bs index : index <= last_star fuel bs index.
Proof. revert index. induction fuel as [|fuel IH]; intros index; cbn; [lia|]. case_match; [|lia]. specialize (IH (index + 1)). lia. Qed.

Lemma last_star_bound fuel bs index : index < zlen bs → last_star fuel bs index < zlen bs.
Proof.
  revert index. induction fuel as [|fuel IH]; intros index Hi; cbn; [lia|]. case_match eqn:E; [|lia]. apply IH.
  unfold byte_is in E. apply bool_decide_eq_true, at_bound in E. lia.
Qed.

Lemma tokensOf_loop_total fuel bs ss u index tokens star :
  0 <= index <= zlen bs → zlen bs - index < Z.of_nat fuel → Forall (slash_ok ss) tokens →
  ∃ t, tokensOf_loop fuel bs ss u index tokens star = Some t ∧ Forall (slash_ok ss) (t_tokens t).
Proof.
  revert index tokens star. induction fuel as [|fuel IH]; intros index tokens star Hi Hf Hok; [lia|].
  cbn [tokensOf_loop]. destruct (at_ bs index) as [byte|] eqn:Eb; [|by eexists]. pose proof (at_bound _ _ _ Eb).
  assert (∀ t, slash_ok ss t → Forall (slash_ok ss) (tokens ++ [t])) as Happ.
  { intros t Ht. apply Forall_app. by split; [|constructor]. }
  assert (∀ b, slash_ok ss (Literal b)) as Hlit by (intros b _ Hb; cbn in Hb; by apply Z.eqb_eq in Hb as ->).
  destruct (byte =? BACKSLASH).
  { destruct (at_ bs (index + 1)) eqn:E1; [|by eexists]. pose proof (at_bound _ _ _ E1). apply IH; [lia|lia|auto]. }
  destruct (byte =? STAR).
  { pose proof (last_star_range (length bs) bs index). pose proof (last_star_bound (length bs) bs index ltac:(lia)).
    apply IH; [lia|lia|]. apply Happ. by intros _ Hb. }
  destruct (byte =? QUESTION).
  { apply IH; [lia|lia|]. apply Happ. intros -> Hb. done. }
  destruct (byte =? OPEN_CLASS); [|apply IH; [lia|lia|auto]].
  destruct (parseClass_total bs index ss ltac:(lia)) as (r & -> & Hr). cbn [mbind option_bind].
  destruct r as [[bits end_]|]; [|destruct u; [apply IH; [lia|lia|auto]|by eexists]].
  destruct Hr as [Hend Hslash]. apply IH; [lia|lia|]. apply Happ. intros Hss Hb. cbn in Hb. rewrite Hslash in Hb; done.
Qed.

(** Every text has tokens, and only a literal among them matches a slash. *)
Lemma tokensOf_total bs ss u : ∃ t, tokensOf bs ss u = Some t ∧ Forall (slash_ok ss) (t_tokens t).
Proof. pose proof (zlen_nonneg bs). apply tokensOf_loop_total; [lia|unfold zlen; lia|constructor]. Qed.

(** * Automata *)

Lemma states_wf_app a b : states_wf a → states_wf b → states_wf (a ++ b).
Proof. induction 1; intros Hb; [done|apply wf_plain; auto|apply wf_globstar; auto]. Qed.

Lemma states_wf_tokens tokens : states_wf (state_of <$> tokens).
Proof. induction tokens as [|t tokens IH]; [constructor|]. rewrite fmap_cons. constructor; [by destruct t..|done]. Qed.

Lemma compileNfa_loop_total bs indices segmentStart states :
  states_wf states → ∃ r, compileNfa_loop bs indices segmentStart states = Some r ∧ from_option states_wf True r.
Proof.
  revert segmentStart states. induction indices as [|index indices IH]; intros segmentStart states Hwf; cbn [compileNfa_loop].
  { by exists (Some states). }
  case_match; [by apply IH|]. case_match.
  { apply IH. apply states_wf_app; [done|]. case_match; [apply wf_globstar|apply wf_plain]; by try constructor. }
  destruct (tokensOf_total (slice bs segmentStart index) true false) as (t & -> & _). cbn [mbind option_bind].
  case_match; [by exists None|]. apply IH. apply states_wf_app; [done|]. apply states_wf_app; [apply states_wf_tokens|].
  case_match; [apply wf_plain|]; by try constructor.
Qed.

Lemma compileNfa_total bs : ∃ r, compileNfa bs = Some r ∧ from_option states_wf True r.
Proof. apply compileNfa_loop_total. constructor. Qed.

(** * Rules *)

Definition compiled_ok (c : Compiled) : Prop :=
  match c with
  | Deterministic anchored tokens prefix suffix _ segments =>
      Forall (slash_ok true) tokens ∧ prefix = literalEdge tokens true ∧ suffix = literalEdge tokens false ∧
      (anchored = true → segments = targetSegments_of tokens)
  | Nfa states prefix => states_wf states ∧ prefix = nfaLiteralPrefix states
  | _ => True
  end.

Lemma compile_tokens_ok anchored t segments :
  Forall (slash_ok true) (t_tokens t) → (anchored = true → segments (t_tokens t) = targetSegments_of (t_tokens t)) →
  compiled_ok (compile_tokens anchored t segments).
Proof.
  intros Hok Hs. unfold compile_tokens. case_match; [done|]. case_match; [by case_match|]. by cbn.
Qed.

Lemma compile_body_total anchored body : ∃ c, compile_body anchored body = Some c ∧ compiled_ok c.
Proof.
  unfold compile_body. destruct (if anchored then _ else None) as [l|].
  - destruct (tokensOf_total l true false) as (t & -> & Ht). eexists. split; [done|]. by apply compile_tokens_ok.
  - destruct (anchored && hasGlobstar body).
    + destruct (compileNfa_total body) as (r & -> & Hr). eexists. split; [done|]. by destruct r.
    + destruct (tokensOf_total body true false) as (t & -> & Ht). eexists. split; [done|]. by apply compile_tokens_ok.
Qed.

(** Compiling a line always ends, with no rule or a well-formed pattern. *)
Lemma compilePatternBytes_total line :
  ∃ r, compilePatternBytes line = Some r ∧ from_option (compiled_ok ∘ compiled) True r.
Proof.
  unfold compilePatternBytes. cbv zeta.
  do 3 match goal with |- ∃ r, (if ?b then Some None else _) = Some r ∧ _ => destruct b; [by exists None|] end.
  match goal with |- context [compile_body ?a ?b] => destruct (compile_body_total a b) as (c & -> & Hc) end.
  eexists. split; [done|]. done.
Qed.
