(* ===== verification/IgnorePathFacts.v ===== *)
(** The segments of an encoded path: they tile its bytes between its slashes. *)

From S2P Require Import Prelude Utf8 Arrays IgnoreTokens IgnoreMatch IgnoreTokenFacts IgnoreCompile.

(** * Counting slashes *)

Definition slashes (bs : bytes) : Z := zlen (filter (λ b, b = SLASH) bs).

Lemma slashes_app a b : slashes (a ++ b) = slashes a + slashes b.
Proof. unfold slashes. by rewrite filter_app, zlen_app. Qed.

Lemma slashes_cons b l : slashes (b :: l) = (if b =? SLASH then 1 else 0) + slashes l.
Proof.
  unfold slashes. rewrite filter_cons. case_match; case_match; zbool; try done. by rewrite zlen_cons.
Qed.

Lemma slashes_none l : Forall (λ b, b ≠ SLASH) l → slashes l = 0.
Proof. induction 1 as [|b l Hb _ IH]; [done|]. rewrite slashes_cons, IH. by rewrite (proj2 (Z.eqb_neq _ _)). Qed.

Lemma fold_slashes l n : foldl (λ n b, if b =? SLASH then n + 1 else n) n l = n + slashes l.
Proof. revert n. induction l as [|b l IH]; intros n; cbn [foldl]; [by rewrite Z.add_0_r|]. rewrite IH, slashes_cons. case_match; lia. Qed.

Lemma fold_slashes_sum l n : foldl (λ n b, n + (if b =? SLASH then 1 else 0)) n l = n + slashes l.
Proof. revert n. induction l as [|b l IH]; intros n; cbn [foldl]; [by rewrite Z.add_0_r|]. rewrite IH, slashes_cons. lia. Qed.

Lemma targetSegments_cons t tokens n :
  foldl (λ n t, match t with Literal b => if b =? SLASH then n + 1 else n | _ => n end) n (t :: tokens) =
  (match t with Literal b => if b =? SLASH then 1 else 0 | _ => 0 end) +
  foldl (λ n t, match t with Literal b => if b =? SLASH then n + 1 else n | _ => n end) n tokens.
Proof.
  set (f := λ (n : Z) (t : Token), match t with Literal b => if b =? SLASH then n + 1 else n | _ => n end).
  assert (∀ l n, foldl f n l = n + foldl f 0 l) as H.
  { clear. induction l as [|t l IH]; intros n; cbn [foldl]; [lia|]. rewrite IH, (IH (f 0 t)). subst f. cbn beta iota.
    destruct t; [case_match|..]; lia. }
  cbn [foldl]. rewrite H, (H _ n). subst f. cbn beta iota. destruct t; [case_match|..]; lia.
Qed.

(** A text that tokens match has as many slashes as they have. *)
Lemma tokens_match_slashes tokens bs :
  Forall (slash_ok true) tokens → tokens_match true tokens bs → targetSegments_of tokens = 1 + slashes bs.
Proof.
  intros Hok Hm. unfold targetSegments_of. induction Hm as [|t ts b bs Ht Hb _ IH|ts bs _ IH|ts b bs Hb _ IH]; [done|..].
  - apply Forall_cons in Hok as [Hs Hok]. rewrite targetSegments_cons, (IH Hok), slashes_cons.
    destruct (b =? SLASH) eqn:Eb; zbool.
    + subst. rewrite (Hs eq_refl Hb). cbn. lia.
    + destruct t; try lia. cbn in Hb. apply Z.eqb_eq in Hb as ->. rewrite (proj2 (Z.eqb_neq _ _)) by done. lia.
  - apply Forall_cons in Hok as [Hs Hok]. rewrite targetSegments_cons, (IH Hok). lia.
  - rewrite (IH Hok), slashes_cons. rewrite (proj2 (Z.eqb_neq b SLASH)) by auto. lia.
Qed.

(** * Segments *)

Definition plain (bs : bytes) : Prop := Forall (λ b, b ≠ SLASH) bs.

Definition seg_start (p : EncodedPath) (i : Z) : Z := default 0 (at_ (starts p) i).
Definition seg_end (p : EncodedPath) (i : Z) : Z := default 0 (at_ (ends p) i).

(** What the matchers rely on: the segments are the bytes between the slashes, in order. *)
Record path_ok (p : EncodedPath) : Prop := {
  ok_some : 1 <= segments p;
  ok_starts : ∀ i, at_ (starts p) i = if bool_decide (0 <= i < segments p) then Some (seg_start p i) else None;
  ok_ends : ∀ i, at_ (ends p) i = if bool_decide (0 <= i < segments p) then Some (seg_end p i) else None;
  ok_first : seg_start p 0 = 0;
  ok_last : seg_end p (segments p - 1) = zlen (e_bytes p);
  ok_bounds i : 0 <= i < segments p → 0 <= seg_start p i <= seg_end p i ∧ seg_end p i <= zlen (e_bytes p);
  ok_plain i : 0 <= i < segments p → plain (slice (e_bytes p) (seg_start p i) (seg_end p i));
  ok_next i : 0 <= i → i + 1 < segments p →
    seg_start p (i + 1) = seg_end p i + 1 ∧ at_ (e_bytes p) (seg_end p i) = Some SLASH
}.

Section tiling.
  Context (bs : bytes).

Inductive segments_tile : Z → list (Z * Z) → Prop :=
| tile_last s : 0 <= s <= zlen bs → plain (slice bs s (zlen bs)) → segments_tile s [(s, zlen bs)]
| tile_more s e r :
    0 <= s <= e → at_ bs e = Some SLASH → plain (slice bs s e) → segments_tile (e + 1) r → segments_tile s ((s, e) :: r).

Lemma slice_snoc s e b : 0 <= s <= e → at_ bs e = Some b → slice bs s (e + 1) = slice bs s e ++ [b].
Proof using Type.
  intros Hs Hb. pose proof (at_bound _ _ _ Hb). rewrite <- (slice_cat bs s e (e + 1)) by lia. f_equal.
  apply (at_all_slice bs [b] e); [lia|unfold zlen in *; simpl; lia|]. intros k Hk.
  assert (k = 0) as -> by (unfold zlen in Hk; simpl in Hk; lia). by rewrite Z.add_0_r, Hb.
Qed.

Lemma segment_bounds_tile n :
  0 <= n → ∀ i start, i + n = zlen bs → 0 <= start <= i → plain (slice bs start i) →
  segments_tile start (segment_bounds bs (seqZ i (n + 1)) start).
Proof using Type.
  intros Hn. pattern n. revert n Hn. apply natlike_ind.
  { intros i start Hi Hs Hp. change (seqZ i (0 + 1)) with [i]. cbn [segment_bounds]. rewrite (proj2 (Z.ltb_ge _ _)) by lia.
    cbn [andb]. replace i with (zlen bs) in * by lia. by apply tile_last. }
  intros n Hn IH i start Hi Hs Hp. replace (Z.succ n + 1) with (Z.succ (n + 1)) by lia. rewrite seqZ_cons by lia.
  replace (Z.succ i) with (i + 1) by lia. replace (Z.pred (Z.succ (n + 1))) with (n + 1) by lia. cbn [segment_bounds].
  rewrite (proj2 (Z.ltb_lt _ _)) by lia. cbn [andb]. unfold byte_is.
  destruct (proj2 (at_is_Some bs i) ltac:(lia)) as [b Hb]. rewrite Hb. case_bool_decide as E; cbn [negb].
  - simplify_eq. apply tile_more; [lia|done|done|]. apply IH; [lia|lia|]. rewrite slice_empty. constructor.
  - apply IH; [lia|lia|]. rewrite (slice_snoc start i b) by (done || lia). apply Forall_app. split; [done|].
    constructor; [congruence|constructor].
Qed.

Lemma tile_count s r : segments_tile s r → zlen r = 1 + slashes (slice bs s (zlen bs)).
Proof using Type.
  induction 1 as [s Hs Hp|s e r Hs He Hp Hr IH]; [by rewrite slashes_none|]. pose proof (at_bound _ _ _ He).
  rewrite zlen_cons, IH, <- (slice_cat bs s e (zlen bs)), <- (slice_cat bs e (e + 1) (zlen bs)) by lia.
  rewrite !slashes_app, (slashes_none (slice bs s e)) by done.
  rewrite (slice_snoc e e SLASH), slice_empty by (done || lia). done.
Qed.

Lemma tile_some s r : segments_tile s r → 1 <= zlen r.
Proof using Type. intros H. rewrite (tile_count _ _ H). unfold slashes. match goal with |- context [zlen ?l] => pose proof (zlen_nonneg l) end. lia. Qed.

Lemma tile_at s r i : segments_tile s r → 0 <= i < zlen r →
  ∃ a b, at_ r i = Some (a, b) ∧ s <= a <= b ∧ b <= zlen bs ∧ plain (slice bs a b) ∧ (i = 0 → a = s) ∧
    (i = zlen r - 1 → b = zlen bs) ∧
    (i + 1 < zlen r → at_ bs b = Some SLASH ∧ ∃ c, at_ r (i + 1) = Some (b + 1, c)).
Proof using Type.
  intros H. revert i. induction H as [s Hs Hp|s e r Hs He Hp Hr IH]; intros i Hi.
  { assert (i = 0) as -> by (unfold zlen in Hi; simpl in Hi; lia). exists s, (zlen bs).
    split_and!; [done|lia|lia|lia|done|done|done|done]. }
  rewrite zlen_cons in *. pose proof (at_bound _ _ _ He). pose proof (tile_some _ _ Hr).
  destruct (decide (i = 0)) as [->|].
  - exists s, e. split_and!; [done|lia|lia|lia|done|lia|lia|]. intros _. split; [done|]. rewrite at_cons by lia.
    destruct (IH 0 ltac:(lia)) as (a & b & Hab & _ & _ & _ & Ha & _). rewrite Ha in Hab by done. by exists b.
  - rewrite at_cons by lia. destruct (IH (i - 1) ltac:(lia)) as (a & b & Hab & ? & ? & ? & ? & Hl & Hn).
    exists a, b. split_and!; [done|lia|lia|lia|done|lia|intros; apply Hl; lia|]. intros Hi'.
    destruct (Hn ltac:(lia)) as [? [c Hc]]. split; [done|]. exists c. rewrite at_cons by lia.
    rewrite <- Hc. f_equal. lia.
Qed.

Lemma encodePathBytes_ok : path_ok (encodePathBytes bs).
Proof using Type.
  pose proof (zlen_nonneg bs). assert (segments_tile 0 (segment_bounds bs (seqZ 0 (zlen bs + 1)) 0)) as Ht.
  { apply segment_bounds_tile; [done|lia|lia|]. rewrite slice_empty. constructor. }
  pose proof (tile_count _ _ Ht) as Hc. rewrite slice_all in Hc. unfold encodePathBytes.
  set (r := segment_bounds bs _ _) in *. rewrite fold_slashes, <- Hc. pose proof (tile_some _ _ Ht).
  set (p := mkEncoded bs r.*1 r.*2 (zlen r)).
  assert (∀ i a b, at_ r i = Some (a, b) → at_ r.*1 i = Some a ∧ at_ r.*2 i = Some b ∧ seg_start p i = a ∧ seg_end p i = b) as Hp.
  { intros i a b Hi. unfold seg_start, seg_end. cbn [starts ends p]. by rewrite !at_fmap, Hi. }
  assert (∀ i, ¬ (0 <= i < zlen r) → at_ r i = None) as Hout.
  { intros i Hi. apply eq_None_not_Some. by rewrite at_is_Some. }
  constructor; cbn [p segments starts ends e_bytes]; fold p; [done|..]; try intros i Hi.
  - intros i. case_bool_decide as Hi; [|by rewrite at_fmap, Hout].
    destruct (tile_at 0 r i Ht Hi) as (a & b & Hab & _). by destruct (Hp i a b Hab) as (-> & _ & -> & _).
  - intros i. case_bool_decide as Hi; [|by rewrite at_fmap, Hout].
    destruct (tile_at 0 r i Ht Hi) as (a & b & Hab & _). by destruct (Hp i a b Hab) as (_ & -> & _ & ->).
  - destruct (tile_at 0 r 0 Ht ltac:(lia)) as (a & b & Hab & _ & _ & _ & Ha & _).
    destruct (Hp 0 a b Hab) as (_ & _ & -> & _). by apply Ha.
  - destruct (tile_at 0 r (zlen r - 1) Ht ltac:(lia)) as (a & b & Hab & _ & _ & _ & _ & Hb & _).
    destruct (Hp _ a b Hab) as (_ & _ & _ & ->). by apply Hb.
  - destruct (tile_at 0 r i Ht Hi) as (a & b & Hab & ? & ? & _). by destruct (Hp i a b Hab) as (_ & _ & -> & ->).
  - destruct (tile_at 0 r i Ht Hi) as (a & b & Hab & _ & _ & ? & _). by destruct (Hp i a b Hab) as (_ & _ & -> & ->).
  - intros Hi'. destruct (tile_at 0 r i Ht ltac:(lia)) as (a & b & Hab & _ & _ & _ & _ & _ & Hn).
    destruct (Hn Hi') as [Hb [c Hc']]. destruct (Hp i a b Hab) as (_ & _ & _ & ->). by destruct (Hp _ _ _ Hc') as (_ & _ & -> & _).
Qed.

End tiling.

(** * The part of a path below a directory *)

Section below.
  Context (p : EncodedPath) (Hp : path_ok p).

(** Segment [depth], and the path from segment [top + 1] to segment [depth]. *)
Definition segment (depth : Z) : bytes := slice (e_bytes p) (seg_start p (depth - 1)) (seg_end p (depth - 1)).
Definition below (top depth : Z) : bytes := slice (e_bytes p) (seg_start p top) (seg_end p (depth - 1)).

Lemma seg_end_later i : 0 <= i → i + 1 < segments p → seg_end p i < seg_start p (i + 1) <= seg_end p (i + 1).
Proof using Hp.
  intros Hi Hn. destruct (ok_next p Hp i Hi Hn) as [-> _]. pose proof (ok_bounds p Hp (i + 1) ltac:(lia)) as Hb.
  destruct (ok_next p Hp i Hi Hn) as [Hs _]. lia.
Qed.

Lemma below_range top depth n :
  0 <= n → 0 <= top → depth = top + 1 + n → depth <= segments p → seg_start p top <= seg_end p (depth - 1).
Proof using Hp.
  intros Hn Ht. revert depth. pattern n. revert n Hn. apply natlike_ind.
  - intros depth -> Hd. replace (top + 1 + 0 - 1) with top by lia. apply (ok_bounds p Hp). lia.
  - intros n Hn IH depth -> Hd. pose proof (IH (top + 1 + n) eq_refl ltac:(lia)).
    pose proof (seg_end_later (top + 1 + n - 1) ltac:(lia) ltac:(lia)).
    replace (top + 1 + Z.succ n - 1) with (top + 1 + n - 1 + 1) by lia. lia.
Qed.

Lemma below_bounds top depth :
  0 <= top < depth → depth <= segments p →
  0 <= seg_start p top <= seg_end p (depth - 1) ∧ seg_end p (depth - 1) <= zlen (e_bytes p).
Proof using Hp.
  intros Ht Hd. pose proof (ok_bounds p Hp top ltac:(lia)). pose proof (ok_bounds p Hp (depth - 1) ltac:(lia)).
  pose proof (below_range top depth (depth - top - 1) ltac:(lia) ltac:(lia) ltac:(lia) Hd). lia.
Qed.

Lemma below_first top : below top (top + 1) = segment (top + 1).
Proof using Type. unfold below, segment. by replace (top + 1 - 1) with top by lia. Qed.

Lemma below_next top depth :
  0 <= top < depth → depth < segments p → below top (depth + 1) = below top depth ++ SLASH :: segment (depth + 1).
Proof using Hp.
  intros Ht Hd. pose proof (below_bounds top depth Ht ltac:(lia)). destruct (ok_next p Hp (depth - 1) ltac:(lia) ltac:(lia)) as [Hs Hb].
  pose proof (ok_bounds p Hp (depth - 1 + 1) ltac:(lia)). unfold below, segment. replace (depth + 1 - 1) with (depth - 1 + 1) by lia.
  rewrite <- (slice_cat _ (seg_start p top) (seg_end p (depth - 1)) (seg_end p (depth - 1 + 1))) by lia. f_equal.
  rewrite <- (slice_cat _ (seg_end p (depth - 1)) (seg_end p (depth - 1) + 1)) by lia.
  rewrite (slice_snoc _ _ _ SLASH), slice_empty, Hs by (done || lia). done.
Qed.

Lemma below_slashes_at top n :
  0 <= n → 0 <= top → top + 1 + n <= segments p → slashes (below top (top + 1 + n)) = n.
Proof using Hp.
  intros Hn Ht. pattern n. revert n Hn. apply natlike_ind.
  - intros Hd. rewrite Z.add_0_r, below_first. apply slashes_none. apply (ok_plain p Hp). lia.
  - intros n Hn IH Hd. replace (top + 1 + Z.succ n) with (top + 1 + n + 1) by lia.
    rewrite below_next, slashes_app, IH, slashes_cons by lia. rewrite Z.eqb_refl, slashes_none; [lia|].
    apply (ok_plain p Hp). lia.
Qed.

Lemma below_slashes top depth : 0 <= top < depth → depth <= segments p → slashes (below top depth) = depth - top - 1.
Proof using Hp.
  intros Ht Hd. rewrite <- (below_slashes_at top (depth - top - 1)) by lia. do 2 f_equal. lia.
Qed.

End below.
