(* ===== verification/IgnoreDepthFacts.v ===== *)
(** [matchPatternDepths] reports exactly the depths of a path that a pattern matches. *)

From S2P Require Import Prelude Utf8 Arrays IgnoreTokens IgnoreMatch IgnoreTokenFacts IgnoreNfaFacts IgnoreCompile IgnoreCompileFacts IgnorePathFacts.

Section depths.
  Context (pattern : IgnorePattern) (p : EncodedPath) (top : Z) (isDirectory : bool) (maxWork : Z).
  Context (Hp : path_ok p) (Hc : compiled_ok (compiled pattern)) (Htop : 0 <= top).

(** What a pattern under the directory of [top] segments means for a depth of the path. *)
Definition pattern_matches (depth : Z) : Prop :=
  match compiled pattern with
  | Never => False
  | LiteralBasename literal => segment p depth = literal
  | LiteralPath literal => below p top depth = literal
  | Deterministic anchored tokens _ _ _ _ =>
      tokens_match true tokens (if anchored then below p top depth else segment p depth)
  | Nfa states _ => nfa_match states (below p top depth)
  end.

(** A rule for directories holds for the directories of a path, and the path if it is one. *)
Definition directory_ok (depth : Z) : Prop := directoryOnly pattern = true → depth < segments p ∨ isDirectory = true.

Definition rule_matches (depth : Z) : Prop := top < depth <= segments p ∧ pattern_matches depth ∧ directory_ok depth.

Lemma accepts_spec d depth : d ∈ accepts pattern p isDirectory depth ↔ d = depth ∧ directory_ok depth.
Proof using Type.
  clear Hp Hc Htop. unfold accepts, directory_ok.
  destruct (directoryOnly pattern), isDirectory, (depth <? segments p) eqn:E; zbool; cbn; try (set_solver by lia).
Qed.

Lemma accepts_if (b : bool) (P : Prop) d depth :
  (b = true ↔ P) → d ∈ (if b then accepts pattern p isDirectory depth else []) ↔ d = depth ∧ P ∧ directory_ok depth.
Proof using Type. clear Hp Hc Htop. intros H. destruct b; [rewrite accepts_spec; naive_solver|]. rewrite elem_of_nil. naive_solver. Qed.

Lemma basename_depths_spec literal d n :
  0 <= n → ∀ depth, top < depth → depth + n = segments p + 1 →
  d ∈ basename_depths pattern p isDirectory literal (seqZ depth n) ↔
  depth <= d <= segments p ∧ segment p d = literal ∧ directory_ok d.
Proof using Hp Htop.
  intros Hn. pattern n. revert n Hn. apply natlike_ind.
  - intros depth Ht Hd. cbn. rewrite elem_of_nil. lia.
  - intros n Hn IH depth Ht Hd. rewrite seqZ_step by done. cbn [basename_depths].
    rewrite elem_of_app, IH by lia. fold (seg_start p (depth - 1)) (seg_end p (depth - 1)).
    pose proof (ok_bounds p Hp (depth - 1) ltac:(lia)). rewrite equalBytes_range_spec by lia.
    fold (segment p depth). rewrite (accepts_if _ (segment p depth = literal)) by apply bool_decide_eq_true.
    split; [intros [(-> & ? & ?)|(? & ? & ?)]; (split; [lia|done])|]. intros (Hr & ? & ?).
    destruct (decide (d = depth)) as [->|]; [by left|right]. split; [lia|done].
Qed.

Lemma floating_depths_spec tokens d n :
  Forall (slash_ok true) tokens → 0 <= n → ∀ depth spent calls, top < depth → depth + n = segments p + 1 →
  ∃ w ds, floating_depths pattern p isDirectory maxWork tokens (literalEdge tokens true) (literalEdge tokens false)
            (seqZ depth n) spent calls = Some (w, ds) ∧ spent <= w ∧
    (w <= maxWork → d ∈ ds ↔ d ∈ calls ∨ (depth <= d <= segments p ∧ tokens_match true tokens (segment p d) ∧ directory_ok d)).
Proof using Hp Htop.
  intros Hok Hn. pattern n. revert n Hn. apply natlike_ind.
  - intros depth spent calls Ht Hd. exists spent, calls. split_and!; [done|lia|]. intros _. split; [by left|]. intros [?|?]; [done|lia].
  - intros n Hn IH depth spent calls Ht Hd. rewrite seqZ_step by done. cbn [floating_depths].
    fold (seg_start p (depth - 1)) (seg_end p (depth - 1)).
    destruct (ok_bounds p Hp (depth - 1) ltac:(lia)) as [Hb1 Hb2].
    destruct (deterministicMatch_spec tokens (e_bytes p) _ _ (maxWork - spent) true Hb1 Hb2 Hok) as (m & -> & Hw & Hm).
    cbn [mbind option_bind]. case_match; zbool; [eexists _, _; split_and!; [done|lia|lia]|].
    destruct (IH (depth + 1) (spent + work m) (calls ++ (if matched m then accepts pattern p isDirectory depth else [])))
      as (w & ds & -> & Hsp & Hds); [lia|lia|]. eexists _, _. split_and!; [done|lia|]. intros Hle.
    rewrite (Hds Hle), elem_of_app, (accepts_if _ _ _ _ (Hm ltac:(lia))). fold (segment p depth). split.
    + intros [[?|(-> & ? & ?)]|(? & ? & ?)]; [by left|right; split; [lia|done]..].
    + intros [?|(Hr & ? & ?)]; [by left; left|]. destruct (decide (d = depth)) as [->|]; [by left; right|right]. split; [lia|done].
Qed.

Lemma nfa_depths_spec states d n :
  states_wf states → 0 <= n → ∀ depth current next spent calls,
  top < depth → depth + n = segments p + 1 → zlen next = mask_words states → spent <= maxWork →
  reached states (mask_words states) (start_mask states) current (if depth =? top + 1 then [] else below p top (depth - 1)) →
  ∃ w ds, nfa_depths pattern p top isDirectory maxWork states (seg_start p top) (seqZ depth n) current next spent calls = Some (w, ds) ∧
    spent <= w ∧
    (w <= maxWork → d ∈ ds ↔ d ∈ calls ∨ (depth <= d <= segments p ∧ nfa_match states (below p top d) ∧ directory_ok d)).
Proof using Hp Htop.
  intros Hwf Hn. pattern n. revert n Hn. apply natlike_ind.
  - intros depth current next spent calls Ht Hd _ _ _. exists spent, calls. split_and!; [done|lia|]. intros _.
    split; [by left|]. intros [?|?]; [done|lia].
  - intros n Hn IH depth current next spent calls Ht Hd Hnext Hsp Hr. rewrite seqZ_step by done. cbn [nfa_depths].
    rewrite (ok_ends p Hp), (ok_starts p Hp), !bool_decide_true by lia. cbn [default from_option id].
    set (pre := if depth =? top + 1 then [] else below p top (depth - 1)) in *.
    set (bs := (if depth =? top + 1 then [] else [SLASH]) ++ _).
    assert (pre ++ bs = below p top depth) as Hbs.
    { subst pre bs. destruct (depth =? top + 1) eqn:E; zbool; [by subst; rewrite below_first; unfold segment; replace (top + 1 - 1) with top by lia|].
      pose proof (below_next p Hp top (depth - 1) ltac:(lia) ltac:(lia)) as Hb.
      replace (depth - 1 + 1) with depth in Hb by lia. by rewrite Hb. }
    destruct (nfa_bytes_spec states (mask_words states) Hwf (mask_words_enough states) (start_mask states) maxWork bs
                current next spent pre Hr Hnext) as (current' & next' & w' & -> & Hw & Hnext' & Hr').
    cbn [mbind option_bind]. case_match; zbool; [eexists _, _; split_and!; [done|lia|lia]|].
    specialize (Hr' ltac:(lia)). rewrite Hbs in Hr'. pose proof (reached_accepts states Hwf _ _ Hr') as Hacc.
    edestruct (IH (depth + 1)) as (w & ds & -> & Hsp' & Hds); [lia|lia|exact Hnext'|lia| |].
    { rewrite (proj2 (Z.eqb_neq _ _)) by lia. replace (depth + 1 - 1) with depth by lia. exact Hr'. }
    eexists _, _. split_and!; [done|lia|]. intros Hle.
    rewrite (Hds Hle), elem_of_app, (accepts_if _ _ _ _ Hacc). split.
    + intros [[?|(-> & ? & ?)]|(? & ? & ?)]; [by left|right; split; [lia|done]..].
    + intros [?|(Hrg & ? & ?)]; [by left; left|]. destruct (decide (d = depth)) as [->|]; [by left; right|right]. split; [lia|done].
Qed.

(** A rule for one depth only: the one with its number of slashes. *)
Lemma one_depth (b : bool) (G : Z → Prop) depth d :
  top < depth <= segments p → (b = true ↔ G depth) → (∀ d, top < d <= segments p → G d → d = depth) →
  d ∈ (if b then accepts pattern p isDirectory depth else []) ↔ top < d <= segments p ∧ G d ∧ directory_ok d.
Proof using Type.
  clear Hp Hc Htop. intros Hd Hb HG. rewrite (accepts_if _ _ _ _ Hb). split; [by intros (-> & ? & ?)|].
  intros (Hr & HGd & ?). pose proof (HG d Hr HGd). by subst d.
Qed.

Lemma no_depth (G : Z → Prop) depth d :
  ¬ (0 <= depth - 1 < segments p) → top < depth → (∀ d, top < d <= segments p → G d → d = depth) →
  d ∈ ([] : list Z) ↔ top < d <= segments p ∧ G d ∧ directory_ok d.
Proof using Htop.
  intros Hd Ht HG. rewrite elem_of_nil. split; [done|]. intros (Hr & HGd & _). rewrite (HG d Hr HGd) in Hr. lia.
Qed.

Lemma nfa_prefix_of states d :
  top < d <= segments p → nfa_match states (below p top d) →
  seg_start p top + zlen (nfaLiteralPrefix states) <= zlen (e_bytes p) ∧
  slice (e_bytes p) (seg_start p top) (seg_start p top + zlen (nfaLiteralPrefix states)) = nfaLiteralPrefix states.
Proof using Hp Htop.
  intros Hd Hm. destruct (below_bounds p Hp top d ltac:(lia) ltac:(lia)) as [Hb1 Hb2].
  destruct (nfa_prefix_needed states _ Hm) as [c Hbc]. unfold below in Hbc. set (l := nfaLiteralPrefix states) in *.
  pose proof (zlen_nonneg l). pose proof (zlen_nonneg c).
  assert (zlen l + zlen c = seg_end p (d - 1) - seg_start p top) by (rewrite <- zlen_app, <- Hbc, zlen_slice; lia).
  split; [lia|]. transitivity (slice (l ++ c) 0 (zlen l)); [|apply slice_0_app].
  rewrite <- Hbc, slice_slice by lia. by rewrite Z.add_0_r.
Qed.

Lemma targetSegments_pos tokens : 1 <= targetSegments_of tokens.
Proof using Type.
  unfold targetSegments_of. clear. assert (∀ n, 1 <= n → 1 <= foldl (λ n t, match t with Literal b => if b =? SLASH then n + 1 else n | _ => n end) n tokens) as H; [|by apply H].
  induction tokens as [|t tokens IH]; intros n Hn; cbn [foldl]; [done|]. apply IH. destruct t; [case_match|..]; lia.
Qed.

Lemma slashes_nonneg l : 0 <= slashes l.
Proof using Type. apply zlen_nonneg. Qed.

(** Within its limit on work, the depths reported are those the rule matches. *)
Lemma matchPatternDepths_spec d :
  0 <= maxWork →
  ∃ w ds, matchPatternDepths pattern p top isDirectory maxWork = Some (w, ds) ∧ 0 <= w ∧
    (w <= maxWork → d ∈ ds ↔ rule_matches d).
Proof using Hp Hc Htop.
  intros Hmax. unfold matchPatternDepths, rule_matches, pattern_matches. fold (seg_start p top).
  destruct (segments p <? top + 1) eqn:Et; zbool.
  { eexists _, _. split_and!; [done|lia|]. intros _. rewrite elem_of_nil. lia. }
  unfold compiled_ok in Hc. destruct (compiled pattern) as [literal|literal|anchored tokens prefix suffix star segs|states prefix|] eqn:Ec.
  - eexists _, _. split_and!; [done|lia|]. intros _. rewrite basename_depths_spec by lia. split; intros (? & ? & ?); (split; [lia|done]).
  - rewrite fold_slashes_sum. eexists _, _. split_and!; [done|lia|]. intros _. set (depth := top + (1 + slashes literal)).
    pose proof (slashes_nonneg literal).
    assert (∀ d, top < d <= segments p → below p top d = literal → d = depth) as HG.
    { intros d' Hd' Hb. pose proof (below_slashes p Hp top d' ltac:(lia) ltac:(lia)) as Hs. rewrite Hb in Hs. lia. }
    rewrite (ok_ends p Hp). case_bool_decide as Hr; [|by apply (no_depth (λ d, below p top d = literal) depth); [|lia|]].
    apply (one_depth _ (λ d, below p top d = literal)); [lia| |done].
    destruct (below_bounds p Hp top depth) as [? ?]; [lia|lia|]. rewrite equalBytes_range_spec by lia. apply bool_decide_eq_true.
  - destruct Hc as (Hok & -> & -> & Hsegs). destruct anchored; cbn [negb].
    + rewrite (Hsegs eq_refl). pose proof (targetSegments_pos tokens). set (depth := top + targetSegments_of tokens).
      assert (∀ d, top < d <= segments p → tokens_match true tokens (below p top d) → d = depth) as HG.
      { intros d' Hd' Hm. pose proof (below_slashes p Hp top d' ltac:(lia) ltac:(lia)) as Hs.
        pose proof (tokens_match_slashes _ _ Hok Hm). lia. }
      rewrite (ok_ends p Hp). case_bool_decide as Hr.
      2:{ eexists _, _. split_and!; [done|lia|]. intros _.
          apply (no_depth (λ d, tokens_match true tokens (below p top d)) depth); [done|lia|done]. }
      destruct (below_bounds p Hp top depth) as [Hb1 Hb2]; [lia|lia|].
      destruct (deterministicMatch_spec tokens (e_bytes p) _ _ maxWork true Hb1 Hb2 Hok) as (m & -> & Hw & Hm).
      cbn [mbind option_bind]. eexists _, _. split_and!; [done|lia|]. intros Hle.
      apply (one_depth _ (λ d, tokens_match true tokens (below p top d))); [lia|by apply Hm|done].
    + destruct (floating_depths_spec tokens d (segments p - top) Hok ltac:(lia) (top + 1) 0 []) as (w & ds & -> & Hw & Hds); [lia|lia|].
      eexists _, _. split_and!; [done|lia|]. intros Hle. rewrite (Hds Hle), elem_of_nil.
      split; [intros [?|(? & ? & ?)]; [done|]|intros (? & ? & ?); right]; (split; [lia|done]).
  - destruct Hc as [Hwf ->]. pose proof (ok_bounds p Hp top ltac:(lia)).
    destruct (prefixMatch_spec maxWork (nfaLiteralPrefix states) (e_bytes p) (seg_start p top)) as (m & [= <-] & Hw & Hm); [lia|].
    set (found := prefixMatch _ _ _ _) in *.
    destruct (negb (matched found) || (maxWork <? work found)) eqn:Ef.
    { eexists _, _. split_and!; [done|lia|]. intros Hle. rewrite elem_of_nil. split; [done|]. intros (Hr & Hmatch & _).
      apply orb_true_iff in Ef as [Ef|Ef]; zbool; [|lia]. apply negb_true_iff in Ef.
      rewrite (proj2 (Hm Hle)) in Ef; [done|]. by apply (nfa_prefix_of states d). }
    apply orb_false_iff in Ef as [_ Ef]. zbool.
    destruct (start_epsilon states Hwf (maxWork - work found)) as (mask & more & He & Hmore & Hreach).
    unfold start_mask in He. rewrite He. cbn [mbind option_bind].
    case_match; zbool; [eexists _, _; split_and!; [done|lia|lia]|].
    destruct (nfa_depths_spec states d (segments p - top) Hwf ltac:(lia) (top + 1) mask (nfaMask states) (work found + more) [])
      as (w & ds & -> & Hw' & Hds); [lia|lia|apply zlen_nfaMask|lia|rewrite Z.eqb_refl; apply Hreach; lia|].
    eexists _, _. split_and!; [done|lia|]. intros Hle. rewrite (Hds Hle), elem_of_nil.
    split; [intros [?|(? & ? & ?)]; [done|]|intros (? & ? & ?); right]; (split; [lia|done]).
  - eexists _, _. split_and!; [done|lia|]. intros _. rewrite elem_of_nil. naive_solver.
Qed.

End depths.
