(* ===== verification/IgnorePatternFacts.v ===== *)
(** What the exported pattern functions promise: every line compiles to a well-formed pattern
    or to none, an escaped path compiles to that path, the whole-path globs and
    [pattern.test] decide the meaning of their tokens and states, and a rule's depths are the
    ones it matches. *)

From S2P Require Import Prelude Utf8 Arrays IgnoreTokens IgnoreMatch IgnoreTokenFacts IgnoreNfaFacts IgnoreCompile IgnoreCompileFacts IgnorePathFacts IgnoreDepthFacts.

(** * Escaped paths *)

Definition escape (name : bytes) : bytes := flat_map (λ b, [BACKSLASH; b]) name.

Lemma zlen_escape name : zlen (escape name) = 2 * zlen name.
Proof. induction name as [|b name IH]; [done|]. cbn [escape flat_map app]. rewrite !zlen_cons. fold (escape name). lia. Qed.

Lemma escape_even name k : 0 <= k < zlen name → at_ (escape name) (2 * k) = Some BACKSLASH.
Proof.
  revert k. induction name as [|b name IH]; intros k Hk; [change (zlen []) with 0 in Hk; lia|]. rewrite zlen_cons in Hk.
  destruct (decide (k = 0)) as [->|]; [done|]. cbn [escape flat_map app]. rewrite !at_cons by lia.
  replace (2 * k - 1 - 1) with (2 * (k - 1)) by lia. apply IH. lia.
Qed.

Lemma escape_odd name k : 0 <= k → at_ (escape name) (2 * k + 1) = at_ name k.
Proof.
  revert k. induction name as [|b name IH]; intros k Hk; [change (escape []) with (@nil Z); by rewrite !at_nil|].
  cbn [escape flat_map app]. rewrite at_cons by lia. replace (2 * k + 1 - 1) with (2 * k) by lia.
  destruct (decide (k = 0)) as [->|]; [done|]. rewrite (at_cons _ _ (2 * k)), (at_cons _ _ k) by lia.
  replace (2 * k - 1) with (2 * (k - 1) + 1) by lia. apply IH. lia.
Qed.

(** Only the bytes at odd places are escaped. *)
Lemma escape_backslashes name k : (k <= length name)%nat → Nat.Even (backslashes (escape name) (2 * k)).
Proof.
  induction k as [|k IH]; intros Hk; [by exists 0%nat|]. replace (2 * S k)%nat with (S (S (2 * k))) by lia. cbn [backslashes].
  destruct (byte_is _ (Z.of_nat (S (2 * k))) BACKSLASH); [|by exists 0%nat].
  destruct (byte_is _ (Z.of_nat (2 * k)) BACKSLASH) eqn:E.
  - destruct (IH ltac:(lia)) as [m ->]. exists (S m). lia.
  - unfold byte_is in E. rewrite bool_decide_eq_false in E. destruct E. replace (Z.of_nat (2 * k)) with (2 * Z.of_nat k) by lia.
    apply escape_even. unfold zlen. lia.
Qed.

Lemma escape_escaped name k : 0 <= k < zlen name → escaped (escape name) (2 * k + 1) = true.
Proof.
  intros Hk. unfold escaped. replace (Z.to_nat (2 * k + 1)) with (S (2 * Z.to_nat k)) by lia. cbn [backslashes].
  unfold byte_is. rewrite bool_decide_eq_true_2.
  - destruct (escape_backslashes name (Z.to_nat k)) as [m ->]; [unfold zlen in Hk; lia|]. apply Nat.odd_spec. by exists m; lia.
  - rewrite <- (escape_even name k) by done. f_equal. lia.
Qed.

(** No slash of an escaped path is a slash of its own. *)
Lemma escape_slash name i : byte_is (escape name) i SLASH = true → escaped (escape name) i = true.
Proof.
  unfold byte_is. rewrite bool_decide_eq_true. intros H. pose proof (at_bound _ _ _ H) as Hi. rewrite zlen_escape in Hi.
  destruct (Z.Even_or_Odd i) as [[k ->]|[k ->]]; [|apply escape_escaped; lia].
  rewrite escape_even in H by lia. by injection H.
Qed.

Lemma escape_byte name k b : 0 <= k → byte_is (escape name) (2 * k + 1) b = byte_is name k b.
Proof. intros Hk. unfold byte_is. by rewrite escape_odd. Qed.

Lemma escape_mark name k b : 0 <= k < zlen name → b ≠ BACKSLASH → byte_is (escape name) (2 * k) b = false.
Proof. intros Hk Hb. unfold byte_is. rewrite escape_even by done. apply bool_decide_eq_false. congruence. Qed.

Lemma trim_escape name : name ≠ [] → trim_spaces (escape name) (length (escape name)) = zlen (escape name).
Proof.
  intros Hne. pose proof (zlen_escape name) as Hl. assert (0 < zlen name) by (destruct name; [done|rewrite zlen_cons; pose proof (zlen_nonneg name); lia]).
  unfold zlen in *. destruct (length (escape name)) as [|n] eqn:E; [lia|]. cbn [trim_spaces].
  replace (Z.of_nat n) with (2 * (Z.of_nat (length name) - 1) + 1) at 2 by lia. rewrite escape_escaped by (unfold zlen; lia).
  rewrite andb_false_r. lia.
Qed.

Lemma existsb_drop (name : bytes) k : 0 <= k →
  existsb (Z.eqb SLASH) (drop (Z.to_nat k) name) =
  match at_ name k with Some b => (SLASH =? b) || existsb (Z.eqb SLASH) (drop (Z.to_nat (k + 1)) name) | None => false end.
Proof.
  intros Hk. unfold at_. rewrite (proj2 (Z.ltb_ge _ _)) by done. destruct (name !! Z.to_nat k) as [b|] eqn:E.
  - rewrite (drop_S _ _ _ E). cbn [existsb]. by replace (Z.to_nat (k + 1)) with (S (Z.to_nat k)) by lia.
  - by rewrite drop_ge by (by apply lookup_ge_None).
Qed.

Lemma slash_inside_escape fuel name k :
  0 <= k <= zlen name → (Z.to_nat (zlen name - k) < fuel)%nat →
  slash_inside fuel (escape name) (2 * k) (zlen (escape name)) = existsb (Z.eqb SLASH) (drop (Z.to_nat k) name).
Proof.
  revert k. induction fuel as [|fuel IH]; intros k Hk Hf; [lia|]. cbn [slash_inside]. rewrite zlen_escape.
  destruct (2 * k <? 2 * zlen name) eqn:E; zbool.
  - rewrite escape_mark by (done || lia). rewrite (escape_byte _ k) by lia. cbn [orb]. rewrite existsb_drop by lia.
    assert (byte_is (escape name) (2 * k) BACKSLASH = true) as -> by (unfold byte_is; rewrite escape_even by lia; by apply bool_decide_eq_true).
    cbn [andb]. destruct (at_ name k) as [b|] eqn:Ea; [|apply at_None in Ea; lia]. unfold byte_is. rewrite Ea.
    rewrite <- zlen_escape. replace (2 * k + 2) with (2 * (k + 1)) by lia. case_bool_decide as Hb.
    + injection Hb as ->. done.
    + rewrite (proj2 (Z.eqb_neq SLASH b)) by congruence. cbn [orb]. apply IH; lia.
  - by rewrite drop_ge by (unfold zlen in *; lia).
Qed.

Lemma literals_escape fuel name ss u k tokens :
  0 <= k <= zlen name → (Z.to_nat (zlen name - k) < fuel)%nat →
  tokensOf_loop fuel (escape name) ss u (2 * k) tokens false =
  Some (mkTokens (tokens ++ (Literal <$> drop (Z.to_nat k) name)) true false).
Proof.
  revert k tokens. induction fuel as [|fuel IH]; intros k tokens Hk Hf; [lia|]. cbn [tokensOf_loop].
  destruct (decide (k = zlen name)) as [->|].
  - destruct (at_ (escape name) (2 * zlen name)) eqn:E; [apply at_bound in E; rewrite zlen_escape in E; lia|].
    unfold zlen. rewrite Nat2Z.id, drop_all. by rewrite app_nil_r.
  - rewrite escape_even by lia. change (BACKSLASH =? BACKSLASH) with true. cbn [negb]. rewrite escape_odd by lia.
    destruct (at_ name k) as [b|] eqn:Ea; [|apply at_None in Ea; lia].
    replace (2 * k + 2) with (2 * (k + 1)) by lia. rewrite IH by lia. do 2 f_equal. rewrite <- app_assoc. f_equal.
    unfold at_ in Ea. rewrite (proj2 (Z.ltb_ge _ _)) in Ea by lia. rewrite (drop_S _ _ _ Ea). cbn [fmap list_fmap app].
    by replace (Z.to_nat (k + 1)) with (S (Z.to_nat k)) by lia.
Qed.

Lemma tokensOf_escape name ss u : tokensOf (escape name) ss u = Some (mkTokens (Literal <$> name) true false).
Proof.
  unfold tokensOf. replace 0 with (2 * 0) by done. rewrite literals_escape; [done|pose proof (zlen_nonneg name); lia|].
  pose proof (zlen_escape name). unfold zlen in *. lia.
Qed.

Lemma literalOf_literals name : literalOf (Literal <$> name) = Some name.
Proof. unfold literalOf. induction name as [|b name IH]; [done|]. rewrite fmap_cons. cbn [mapM literal_byte mbind option_bind]. by rewrite IH. Qed.

Lemma first_slash_escape name indices : first_slash (escape name) indices = zlen (escape name).
Proof.
  induction indices as [|i indices IH]; [done|]. cbn [first_slash]. destruct (byte_is (escape name) i SLASH) eqn:E; [|exact IH].
  by rewrite escape_slash.
Qed.

(** Of two bytes in a row, one is a backslash. *)
Lemma all_stars_escape name start end_ : all_stars (escape name) start end_ = false.
Proof.
  unfold all_stars. destruct (2 <=? end_ - start) eqn:E; [|done]. zbool. apply not_true_iff_false. cbn [andb]. rewrite forallb_forall.
  intros H. assert (∀ i, start <= i < end_ → byte_is (escape name) i STAR = true) as Hs
    by (intros i Hi; apply H, list_elem_of_In, elem_of_seqZ; lia). clear H.
  assert (∀ k, start <= 2 * k < end_ → False) as Hk.
  { intros k Hk. specialize (Hs _ Hk). unfold byte_is in Hs. rewrite bool_decide_eq_true in Hs. pose proof (at_bound _ _ _ Hs) as Hb.
    rewrite zlen_escape in Hb. rewrite escape_even in Hs by lia. by injection Hs. }
  destruct (Z.Even_or_Odd start) as [[k Ek]|[k Ek]]; [apply (Hk k)|apply (Hk (k + 1))]; lia.
Qed.

Lemma hasGlobstar_escape name : hasGlobstar (escape name) = false.
Proof.
  unfold hasGlobstar. generalize 0 at 2 as start. generalize (seqZ 0 (zlen (escape name) + 1)).
  intros indices. induction indices as [|i indices IH]; intros start; [done|]. cbn [hasGlobstar_loop]. rewrite all_stars_escape.
  by destruct (negb _).
Qed.

Lemma leading_escape name : leadingGlobstarBasename (escape name) = None.
Proof.
  unfold leadingGlobstarBasename. rewrite first_slash_escape, (proj2 (Z.leb_le _ _)) by done. by rewrite orb_true_r.
Qed.

Lemma compile_body_escape anchored name :
  compile_body anchored (escape name) = Some (if anchored then LiteralPath name else LiteralBasename name).
Proof.
  unfold compile_body. rewrite leading_escape, hasGlobstar_escape, andb_false_r, tokensOf_escape.
  cbn [mbind option_bind]. unfold compile_tokens. cbn [valid t_tokens negb]. rewrite literalOf_literals. by destruct anchored.
Qed.

Definition has_slash (name : bytes) : bool := existsb (Z.eqb SLASH) name.

(** A path with a backslash before each of its bytes, not starting or ending with a slash,
    compiles to the rule for exactly that path, or for that name anywhere when it has no slash. *)
Theorem compile_escaped name :
  name ≠ [] → head name ≠ Some SLASH → last name ≠ Some SLASH →
  compilePatternBytes (escape name) =
  Some (Some (mkPattern false false false (if has_slash name then LiteralPath name else LiteralBasename name))).
Proof.
  intros Hne Hhead Hlast. assert (0 < zlen name) as Hpos by (destruct name; [done|rewrite zlen_cons; pose proof (zlen_nonneg name); lia]).
  unfold compilePatternBytes. cbv zeta. rewrite trim_escape, zlen_escape by done.
  rewrite (proj2 (Z.leb_gt _ _)) by lia. rewrite !(escape_mark name 0) by done. cbn [orb].
  rewrite (proj2 (Z.leb_gt _ _)) by lia. replace (2 * zlen name - 1) with (2 * (zlen name - 1) + 1) by lia.
  rewrite escape_byte by lia. assert (byte_is name (zlen name - 1) SLASH = false) as ->.
  { apply bool_decide_eq_false. by rewrite at_last. }
  rewrite (proj2 (Z.leb_gt _ _)) by lia. rewrite (escape_byte name 0) by done.
  assert (byte_is name 0 SLASH = false) as ->.
  { apply bool_decide_eq_false. by destruct name. }
  rewrite andb_false_r. cbn [orb]. rewrite <- zlen_escape, (slash_inside_escape _ name 0); [|lia|pose proof (zlen_escape name); unfold zlen in *; lia].
  rewrite slice_all, compile_body_escape. cbn [mbind option_bind]. change (drop _ name) with name. fold (has_slash name).
  by destruct (has_slash name).
Qed.

Lemma compile_escaped_witness :
  compilePatternBytes (escape (js "a/*b !")) = Some (Some (mkPattern false false false (LiteralPath (js "a/*b !")))).
Proof. by rewrite (compile_escaped (js "a/*b !")). Defined.

(** * Whole-path globs *)

Lemma tokens_literalOf tokens l ss bs : literalOf tokens = Some l → tokens_match ss tokens bs ↔ bs = l.
Proof.
  intros H. assert (tokens = Literal <$> l) as ->; [|apply tokens_match_literal].
  unfold literalOf in H. apply mapM_Some in H. induction H as [|t b tokens l Ht _ IH]; [done|]. rewrite fmap_cons, <- IH.
  destruct t; [|done..]. by injection Ht as ->.
Qed.

(** C33: compiling a glob over whole paths ends for every text.  When it gives a pattern, its
    matcher ends with a work bounded by the token count and the length of the path, and within
    the work allowed it answers exactly whether the path is in the language of the tokens,
    although it only ever goes back to its last star; the literal and the literal prefix it
    exposes describe that language. *)
Theorem compileByteGlob_correct bs ss unmatched :
  ∃ t r, tokensOf bs ss unmatched = Some t ∧ compileByteGlob bs ss unmatched = Some r ∧ (r = None ↔ valid t = false) ∧
  ∀ g, r = Some g →
    (∀ path maxWork, ∃ m, g_match g path maxWork = Some m ∧ 0 <= work m <= deterministic_bound (tokenCount g) (zlen path) ∧
       (work m <= maxWork → matched m = true ↔ tokens_match ss (t_tokens t) path)) ∧
    (∀ path l, g_literal g = Some l → tokens_match ss (t_tokens t) path ↔ path = l) ∧
    (∀ path, tokens_match ss (t_tokens t) path → g_literalPrefix g `prefix_of` path).
Proof.
  destruct (tokensOf_total bs ss unmatched) as (t & Ht & Hok). exists t. unfold compileByteGlob. rewrite Ht. cbn [mbind option_bind].
  eexists. split; [done|]. split; [done|]. destruct (valid t); cbn [negb]; [|split; done]. split; [done|]. intros g [= <-].
  cbn [g_match g_literal g_literalPrefix tokenCount]. split_and!.
  - intros path maxWork. pose proof (zlen_nonneg path).
    destruct (deterministicMatch_spec (t_tokens t) path 0 (zlen path) maxWork ss ltac:(lia) ltac:(lia) Hok) as (m & Hm & Hw & Hg).
    rewrite Z.sub_0_r, slice_all in *. exists m. split_and!; [done|lia|lia|exact Hg].
  - intros path l. apply tokens_literalOf.
  - intros path Hm. destruct (literal_prefix_split (t_tokens t)) as [rest Hr]. rewrite Hr in Hm at 1.
    apply tokens_match_app in Hm as (a & b & -> & Ha & _). apply tokens_match_literal in Ha as ->. by exists b.
Qed.

Lemma compileByteGlob_correct_witness :
  match compileByteGlob (js "a/[!x]*.js") true true with
  | Some (Some g) => ∃ t, (∃ m, g_match g (js "a/bxx.js") 100 = Some m ∧ matched m = true) ∧ tokens_match true t (js "a/bxx.js")
  | _ => False
  end.
Proof.
  destruct (compileByteGlob_correct (js "a/[!x]*.js") true true) as (t & r & Ht & Hr & Hv & H). rewrite Hr.
  destruct r as [g|]; [|vm_compute in Ht; injection Ht as <-; by discriminate (proj1 Hv eq_refl)]. destruct (H g eq_refl) as [Hm _].
  destruct (Hm (js "a/bxx.js") 100) as (m & Hg & _ & Hm'). exists (t_tokens t).
  assert (∃ w, match compileByteGlob (js "a/[!x]*.js") true true with
               | Some (Some g) => g_match g (js "a/bxx.js") 100
               | _ => None
               end = Some (mkMatched true w) ∧ (w <=? 100) = true) as (w & Hc & Hw) by (eexists; split; vm_compute; reflexivity).
  rewrite Hr, Hg in Hc. injection Hc as ->. cbn [matched work] in Hm'. apply Z.leb_le in Hw.
  split; [by exists (mkMatched true w)|]. by apply Hm'.
Defined.

(** * [pattern.test] *)

(** The work of a match stays under the bound that the code never expects to meet. *)
Definition work_fits (c : Compiled) (n : Z) : Prop :=
  match c with
  | Deterministic _ tokens _ _ _ _ => deterministic_bound (zlen tokens) n <= MAX_WORK
  | Nfa states _ => 64 * mask_words states <= MAX_WORK
  | _ => True
  end.

Lemma nfaLiteralPrefix_length states : zlen (nfaLiteralPrefix states) <= zlen states.
Proof.
  induction states as [|s states IH]; [done|]. rewrite zlen_cons. pose proof (zlen_nonneg states).
  destruct s; cbn [nfaLiteralPrefix]; try (change (zlen []) with 0; lia). rewrite zlen_cons. lia.
Qed.

Section final.
  Context (p : EncodedPath) (Hp : path_ok p).

Lemma below_whole : below p 0 (segments p) = e_bytes p.
Proof using Hp. unfold below. rewrite (ok_first p Hp), (ok_last p Hp). apply slice_all. Qed.

Lemma finalMatch_nfa states :
  states_wf states → 64 * mask_words states <= MAX_WORK →
  ∃ b, (if negb (matched (prefixMatch (nfaLiteralPrefix states) (e_bytes p) 0 MAX_WORK)) then Some false
        else
          '(current, _) ← epsilon states (maskSet (nfaMask states) 0) MAX_WORK;
          current ← nfa_run states (e_bytes p) current (nfaMask states);
          Some (maskHas current (zlen states))) = Some b ∧ (b = true ↔ nfa_match states (e_bytes p)).
Proof using Type.
  intros Hwf Hfit. pose proof (mask_words_enough states) as Henough. pose proof (zlen_nonneg states).
  destruct (prefixMatch_spec MAX_WORK (nfaLiteralPrefix states) (e_bytes p) 0 ltac:(done)) as (m & [= <-] & Hw & Hm).
  pose proof (nfaLiteralPrefix_length states). destruct (matched (prefixMatch _ _ _ _)) eqn:E; cbn [negb].
  - destruct (start_epsilon states Hwf MAX_WORK) as (mask & w & He & Hw' & Hr). unfold start_mask in He. rewrite He. cbn [mbind option_bind].
    destruct (nfa_run_spec states (mask_words states) Hwf Henough (start_mask states) (e_bytes p) mask (nfaMask states) [])
      as (current & -> & Hc); [done|apply Hr; lia|apply zlen_nfaMask|].
    cbn [mbind option_bind]. eexists. split; [done|]. by apply (reached_accepts states Hwf).
  - exists false. split; [done|]. split; [done|]. intros Hn. apply Hm; [lia|].
    destruct (nfa_prefix_needed states _ Hn) as [c ->]. rewrite zlen_app, Z.add_0_l, slice_0_app. pose proof (zlen_nonneg c). split; [lia|done].
Qed.

Lemma finalMatch_spec pattern :
  compiled_ok (compiled pattern) → work_fits (compiled pattern) (zlen (e_bytes p)) →
  ∃ b, finalMatch (compiled pattern) p = Some b ∧ (b = true ↔ pattern_matches pattern p 0 (segments p)).
Proof using Hp.
  intros Hc Hfit. pose proof (ok_some p Hp) as Hsome. pose proof (ok_bounds p Hp (segments p - 1) ltac:(lia)) as [Hb1 Hb2].
  assert (∀ tokens start end_, Forall (slash_ok true) tokens → 0 <= start <= end_ → end_ <= zlen (e_bytes p) →
            deterministic_bound (zlen tokens) (zlen (e_bytes p)) <= MAX_WORK →
            ∃ m, deterministicMatch tokens (literalEdge tokens true) (literalEdge tokens false) (e_bytes p) start end_ MAX_WORK true = Some m ∧
              (matched m = true ↔ tokens_match true tokens (slice (e_bytes p) start end_))) as Hdet.
  { intros tokens start end_ Hok Hs He Hd. destruct (deterministicMatch_spec tokens (e_bytes p) start end_ MAX_WORK true Hs He Hok) as (m & Hm & Hw & Hg).
    exists m. split; [done|]. apply Hg. unfold deterministic_bound in *. pose proof (zlen_nonneg tokens). nia. }
  unfold finalMatch, pattern_matches, work_fits in *. fold (seg_start p (segments p - 1)).
  rewrite (ok_ends p Hp), bool_decide_true by lia. cbn [default from_option id]. rewrite (proj2 (Z.eqb_neq _ _)) by lia.
  unfold compiled_ok in Hc. destruct (compiled pattern) as [literal|literal|anchored tokens prefix suffix star segs|states prefix|].
  - eexists. split; [done|]. rewrite equalBytes_range_spec by lia. apply bool_decide_eq_true.
  - eexists. split; [done|]. pose proof (zlen_nonneg (e_bytes p)). rewrite equalBytes_range_spec, slice_all, below_whole by lia. apply bool_decide_eq_true.
  - destruct Hc as (Hok & -> & -> & _). pose proof (zlen_nonneg (e_bytes p)). destruct anchored.
    + destruct (Hdet tokens 0 (zlen (e_bytes p))) as (m & -> & Hm); [done|lia|lia|done|]. exists (matched m). split; [done|].
      by rewrite below_whole, <- (slice_all (e_bytes p)) at 1.
    + destruct (Hdet tokens (seg_start p (segments p - 1)) (seg_end p (segments p - 1))) as (m & -> & Hm); [done|lia|lia|done|].
      exists (matched m). by split.
  - destruct Hc as [Hwf ->]. rewrite below_whole. by apply finalMatch_nfa.
  - by exists false.
Qed.

End final.

(** C34: [pattern.test] of a pattern compiled from a line answers for every path, and when its
    work stays a safe integer the answer is whether the pattern, taken from the root, matches
    the whole path: its last segment for a rule without slashes, else all of it. *)
Theorem test_correct line pattern relative :
  compilePatternBytes line = Some (Some pattern) → work_fits (compiled pattern) (zlen (encode relative)) →
  ∃ b, test pattern relative = Some b ∧
    (b = true ↔ pattern_matches pattern (encodePath relative) 0 (segments (encodePath relative))).
Proof.
  intros Hl Hfit. apply finalMatch_spec; [apply encodePathBytes_ok| |exact Hfit].
  destruct (compilePatternBytes_total line) as (r & Hr & Hok). rewrite Hl in Hr. injection Hr as <-. exact Hok.
Qed.

Lemma test_correct_witness :
  ∃ pattern, compilePatternBytes (js "/src/**/t?[ab]") = Some (Some pattern) ∧
    let matches relative := pattern_matches pattern (encodePath relative) 0 (segments (encodePath relative)) in
    matches (js "src/x/y/toa") ∧ ¬ matches (js "src/x/y/toc").
Proof.
  assert (∃ pattern, compilePatternBytes (js "/src/**/t?[ab]") = Some (Some pattern) ∧ test pattern (js "src/x/y/toa") = Some true ∧
            test pattern (js "src/x/y/toc") = Some false ∧ work_fits (compiled pattern) 11) as (pattern & Hl & Hyes & Hno & Hfit).
  { eexists. split; [vm_compute; reflexivity|]. split; [vm_compute; reflexivity|]. split; [vm_compute; reflexivity|vm_compute; discriminate]. }
  exists pattern. split; [exact Hl|]. split.
  - destruct (test_correct _ pattern (js "src/x/y/toa") Hl Hfit) as (b & Hb & Hm). apply (proj1 Hm). congruence.
  - destruct (test_correct _ pattern (js "src/x/y/toc") Hl Hfit) as (b & Hb & Hm). intros H. apply (proj2 Hm) in H. congruence.
Defined.

(** * Depths *)

(** for every rule compiled from a line and every path, asking for the depths below the
    rule's directory that it matches ends; when the work stayed within the limit, the depths
    reported are exactly those whose segment (rules without slashes) or whose path below the
    directory is in the language of the rule, and that are directories when it asks for one. *)
Theorem matchPatternDepths_correct line pattern relative top isDirectory maxWork :
  compilePatternBytes line = Some (Some pattern) → 0 <= top → 0 <= maxWork →
  ∃ w ds, matchPatternDepths pattern (encodePath relative) top isDirectory maxWork = Some (w, ds) ∧ 0 <= w ∧
    (w <= maxWork → ∀ d, d ∈ ds ↔ rule_matches pattern (encodePath relative) top isDirectory d).
Proof.
  intros Hl Htop Hmax. destruct (compilePatternBytes_total line) as (r & Hr & Hok). rewrite Hl in Hr. injection Hr as <-.
  pose proof (λ d, matchPatternDepths_spec pattern (encodePath relative) top isDirectory maxWork (encodePathBytes_ok _) Hok Htop d Hmax) as H.
  destruct (H 0) as (w & ds & Hm & Hw & _). exists w, ds. split_and!; [done|done|]. intros Hle d.
  destruct (H d) as (w' & ds' & Hm' & _ & Hd). rewrite Hm in Hm'. injection Hm' as <- <-. by apply Hd.
Qed.

Lemma matchPatternDepths_correct_witness :
  ∃ pattern, compilePatternBytes (js "b*/") = Some (Some pattern) ∧
    rule_matches pattern (encodePath (js "sub/b1/c/b2")) 1 false 2 ∧ ¬ rule_matches pattern (encodePath (js "sub/b1/c/b2")) 1 false 4.
Proof.
  assert (∃ pattern, compilePatternBytes (js "b*/") = Some (Some pattern) ∧ ∃ w,
            matchPatternDepths pattern (encodePath (js "sub/b1/c/b2")) 1 false 1000 = Some (w, [2]) ∧ w <= 1000) as (pattern & Hl & w & Hm & Hw).
  { eexists. split; [vm_compute; reflexivity|]. eexists. split; [vm_compute; reflexivity|vm_compute; discriminate]. }
  exists pattern. split; [exact Hl|].
  destruct (matchPatternDepths_correct _ pattern (js "sub/b1/c/b2") 1 false 1000 Hl ltac:(done) ltac:(done)) as (w' & ds & Hm' & _ & Hd).
  rewrite Hm in Hm'. injection Hm' as <- <-. split; [by apply (Hd Hw), list_elem_of_singleton|].
  intros H. apply (Hd Hw), list_elem_of_singleton in H. discriminate.
Defined.

(** * Well-formed patterns *)

(** C35: compiling a line always ends, with no rule or with a pattern of the shape the matchers
    rely on: only a literal slash matches a slash, the stored prefix, suffix and segment count
    are those of the tokens, and the states of a globstar come in pairs. *)
Theorem compilePatternBytes_typed line :
  ∃ r, compilePatternBytes line = Some r ∧ from_option (compiled_ok ∘ compiled) True r.
Proof. apply compilePatternBytes_total. Qed.
