(* ===== verification/IgnoreLimits.v ===== *)
(** Limits of the ignore rules and reading rule files: limits.ts and the parts of source.ts of
    src/packages/git/src/ignore/ that work on bytes.

    A computation may not end, may throw, or gives a value. *)

From S2P Require Import Prelude Utf8 Arrays IgnoreTokens IgnoreMatch IgnoreCompile.

(** * Limits *)

Inductive IgnoreLimitResource := RawBytes | FileBytes | Files | Patterns | QueryBytes | RequestCpuWork.

Definition IGNORE_LIMITS (r : IgnoreLimitResource) : Z :=
  match r with
  | RawBytes => 1000000
  | FileBytes => 250000
  | Files => 1024
  | Patterns => 8192
  | QueryBytes => 16384
  | RequestCpuWork => 10000000
  end.

(** [IgnoreLimitError]: code [E2BIG] and its fields. *)
Record IgnoreLimitError := mkLimitError {
  resource : IgnoreLimitResource; limit : Z; observed : Z; at_path : option ustring
}.

Inductive result (A : Type) : Type := Done (a : A) | Limited (e : IgnoreLimitError).
Arguments Done {A} a.
Arguments Limited {A} e.

Definition attempt (A : Type) : Type := option (result A).
#[export] Instance attempt_ret : MRet attempt := λ A a, Some (Done a).
#[export] Instance attempt_bind : MBind attempt := λ A B f m,
  match m with
  | Some (Done a) => f a
  | Some (Limited e) => Some (Limited e)
  | None => None
  end.
Definition ended {A} (m : option A) : attempt A := Done <$> m.
Definition settled {A} (r : result A) : attempt A := Some r.

Record IgnoreBudget := mkBudget { b_rawBytes : Z; b_files : Z; b_patterns : Z }.
Definition new_IgnoreBudget : IgnoreBudget := mkBudget 0 0 0.

Definition addRaw (b : IgnoreBudget) (n : Z) (path : option ustring) : result IgnoreBudget :=
  let observed := b_rawBytes b + n in
  if IGNORE_LIMITS RawBytes <? observed then Limited (mkLimitError RawBytes (IGNORE_LIMITS RawBytes) observed path)
  else Done (mkBudget observed (b_files b) (b_patterns b)).

(** The [path] and [size] of a [RegularFileHandle]. *)
Definition addFile (b : IgnoreBudget) (path : ustring) (size : Z) : result IgnoreBudget :=
  if IGNORE_LIMITS FileBytes <? size then Limited (mkLimitError FileBytes (IGNORE_LIMITS FileBytes) size (Some path))
  else
    let observed := b_files b + 1 in
    if IGNORE_LIMITS Files <? observed then Limited (mkLimitError Files (IGNORE_LIMITS Files) observed (Some path))
    else addRaw (mkBudget (b_rawBytes b) observed (b_patterns b)) size (Some path).

Definition addPattern (b : IgnoreBudget) (path : option ustring) : result IgnoreBudget :=
  let observed := b_patterns b + 1 in
  if IGNORE_LIMITS Patterns <? observed then Limited (mkLimitError Patterns (IGNORE_LIMITS Patterns) observed path)
  else Done (mkBudget (b_rawBytes b) (b_files b) observed).

(** * Sources *)

Fixpoint boundedUtf8Bytes_loop (value : ustring) (limit count : Z) : Z :=
  match value with
  | [] => count
  | code :: rest =>
      let '(count, paired) :=
        if code <? 0x80 then (count + 1, false)
        else if code <? 0x800 then (count + 2, false)
        else if (0xd800 <=? code) && (code <=? 0xdbff) then
          match rest with
          | next :: _ => if (0xdc00 <=? next) && (next <=? 0xdfff) then (count + 4, true) else (count + 3, false)
          | [] => (count + 3, false)
          end
        else (count + 3, false) in
      if limit <? count then limit + 1
      else
        match rest with
        | _ :: rest2 => if (paired : bool) then boundedUtf8Bytes_loop rest2 limit count else boundedUtf8Bytes_loop rest limit count
        | [] => count
        end
  end.
Definition boundedUtf8Bytes (value : ustring) (limit : Z) : Z := boundedUtf8Bytes_loop value limit 0.

(** One line, without its byte order mark (of the first line) and carriage return. *)
Definition rule_line (contents : bytes) (start end_ : Z) (first : bool) : bytes :=
  let lineStart := if first && byte_is contents start 0xef && byte_is contents (start + 1) 0xbb && byte_is contents (start + 2) 0xbf
                   then start + 3 else start in
  let lineEnd := if (lineStart <? end_) && byte_is contents (end_ - 1) 0x0d then end_ - 1 else end_ in
  slice contents lineStart lineEnd.

Fixpoint compileSource_loop (contents : bytes) (path : option ustring) (indices : list Z) (start : Z) (first : bool)
    (budget : IgnoreBudget) (acc : list IgnorePattern) : attempt (list IgnorePattern * IgnoreBudget) :=
  match indices with
  | [] => mret (acc, budget)
  | end_ :: indices =>
      if (end_ <? zlen contents) && negb (byte_is contents end_ 0x0a)
      then compileSource_loop contents path indices start first budget acc
      else
        compiled ← ended (compilePatternBytes (rule_line contents start end_ first));
        match compiled with
        | None => compileSource_loop contents path indices (end_ + 1) false budget acc
        | Some pattern =>
            budget ← settled (addPattern budget path);
            compileSource_loop contents path indices (end_ + 1) false budget (acc ++ [pattern])
        end
  end.
Definition compileSource (contents : bytes) (budget : IgnoreBudget) (path : option ustring)
    : attempt (list IgnorePattern * IgnoreBudget) :=
  compileSource_loop contents path (seqZ 0 (zlen contents + 1)) 0 true budget [].

Definition parseIgnoreFile (contents : ustring) : attempt (list IgnorePattern) :=
  budget ← settled (addRaw new_IgnoreBudget (boundedUtf8Bytes contents (IGNORE_LIMITS RawBytes)) None);
  '(ps, _) ← compileSource (encode contents) budget None;
  mret ps.

Definition extra_path : option ustring := Some (js "options.extra").

Fixpoint compileExtra_loop (extra : list ustring) (index : Z) (budget : IgnoreBudget) (acc : list IgnorePattern)
    : attempt (list IgnorePattern * IgnoreBudget) :=
  match extra with
  | [] => mret (acc, budget)
  | source :: extra =>
      budget ← settled (if 0 <? index then addRaw budget 1 extra_path else Done budget);
      budget ← settled (addRaw budget (boundedUtf8Bytes source (IGNORE_LIMITS RawBytes)) extra_path);
      '(ps, budget) ← compileSource (encode source) budget extra_path;
      compileExtra_loop extra (index + 1) budget (acc ++ ps)
  end.
Definition compileExtra (extra : list ustring) (budget : IgnoreBudget) : attempt (list IgnorePattern * IgnoreBudget) :=
  compileExtra_loop extra 0 budget [].
