(* ===== verification/IgnoreMatcher.v ===== *)
(** The worktree's ignore matcher: src/packages/git/src/ignore/matcher.ts.

    A rule source is an object, known here by its number in the order of the rules; [None] as
    a parent is [null].  The limit on the work of one query threads the work so far. *)

From S2P Require Import Prelude Utf8 Arrays IgnoreTokens IgnoreMatch IgnoreCompile IgnoreLimits.

Record IndexedRule := mkRule { pattern : IgnorePattern; literal : bytes; line : Z }.

Record RuleSource := mkSource {
  s_bytes : bytes; depth : Z; parent : option nat;
  basenames : gmap Z (list IndexedRule); paths : gmap Z (list IndexedRule); dynamic : list IndexedRule
}.

Definition SOURCE_HASH_INITIAL : Z := 0x811c9dc5.

(** [Math.imul(hash ^ byte, 0x01000193) >>> 0]. *)
Definition sourceHashStep (hash byte : Z) : Z := (Z.lxor hash byte * 0x01000193) mod 2 ^ 32.

Definition hashBytes (bs : bytes) (start end_ : Z) : Z :=
  foldl (λ hash index, sourceHashStep hash (default 0 (at_ bs index))) SOURCE_HASH_INITIAL (seqZ start (end_ - start)).

(** A bucket of a map of lists, longer by one. *)
Definition addIndexed {A} (map : gmap Z (list A)) (hash : Z) (rule : A) : gmap Z (list A) :=
  match map !! hash with
  | None => <[hash := [rule]]> map
  | Some bucket => <[hash := bucket ++ [rule]]> map
  end.

Fixpoint compileRules (patterns : list IgnorePattern) (line : Z) (source : RuleSource) : RuleSource :=
  match patterns with
  | [] => source
  | pattern :: patterns =>
      let next :=
        if patternMatchesNever pattern then source
        else
          match patternLiteral pattern with
          | None =>
              mkSource (s_bytes source) (depth source) (parent source) (basenames source) (paths source)
                (dynamic source ++ [mkRule pattern [] line])
          | Some (basename, literal) =>
              let rule := mkRule pattern literal line in
              let hash := hashBytes literal 0 (zlen literal) in
              if (basename : bool)
              then mkSource (s_bytes source) (depth source) (parent source) (addIndexed (basenames source) hash rule)
                     (paths source) (dynamic source)
              else mkSource (s_bytes source) (depth source) (parent source) (basenames source)
                     (addIndexed (paths source) hash rule) (dynamic source)
          end in
      compileRules patterns (line + 1) next
  end.
Definition compileRuleSource (bs : bytes) (depth : Z) (patterns : list IgnorePattern) : RuleSource :=
  compileRules patterns 0 (mkSource bs depth None ∅ ∅ []).

Definition set_parent (s : RuleSource) (p : option nat) : RuleSource :=
  mkSource (s_bytes s) (depth s) p (basenames s) (paths s) (dynamic s).

Definition over_work (observed : Z) : IgnoreLimitError :=
  mkLimitError RequestCpuWork (IGNORE_LIMITS RequestCpuWork) observed None.

(** [addWork(amount)], the work before and after. *)
Definition addWork (work amount : Z) : attempt Z :=
  let observed := work + amount in
  if IGNORE_LIMITS RequestCpuWork <? observed then settled (Limited (over_work observed)) else mret observed.

(** * The index of sources *)

Section index.
  Context (hashStep : Z → Z → Z).

Definition hash_step (hash byte : Z) : Z := hashStep hash byte mod 2 ^ 32.

Record SourceIndex := mkIndex { buckets : gmap Z (list nat); sourceBytes : Z; maxBucketEntries : Z }.

Fixpoint build_index (sources : list RuleSource) (id : nat) (index : SourceIndex) : SourceIndex :=
  match sources with
  | [] => index
  | source :: sources =>
      let hash := foldl hash_step SOURCE_HASH_INITIAL (s_bytes source) in
      let bucket := default [] (buckets index !! hash) ++ [id] in
      build_index sources (S id)
        (mkIndex (<[hash := bucket]> (buckets index)) (sourceBytes index + zlen (s_bytes source))
           (Z.max (maxBucketEntries index) (zlen bucket)))
  end.
Definition new_SourceIndex (sources : list RuleSource) : SourceIndex := build_index sources O (mkIndex ∅ 0 0).

Definition sourceSuffixEqual (l r : bytes) (start : Z) : bool :=
  forallb (λ index, bool_decide (at_ l index = at_ r index)) (seqZ start (zlen r - start)).

(** The sources of one bucket that lie [index + 1] bytes into the path. *)
Fixpoint check_bucket (sources : list RuleSource) (bs : bytes) (index : Z) (bucket : list nat) (found : list nat) (work : Z)
    : attempt (list nat * Z) :=
  match bucket with
  | [] => mret (found, work)
  | id :: bucket =>
      match sources !! id with
      | None => check_bucket sources bs index bucket found work
      | Some source =>
          let verifiedBytes :=
            match parent source with
            | Some p => if bool_decide (p ∈ found) then from_option (zlen ∘ s_bytes) 0 (sources !! p) else 0
            | None => 0
            end in
          work ← addWork work (zlen (s_bytes source) - verifiedBytes);
          if negb (zlen (s_bytes source) =? index + 1) then check_bucket sources bs index bucket found work
          else if negb (sourceSuffixEqual bs (s_bytes source) verifiedBytes) then check_bucket sources bs index bucket found work
          else check_bucket sources bs index bucket (found ++ [id]) work
      end
  end.

Fixpoint applicable_loop (sources : list RuleSource) (index : SourceIndex) (bs : bytes) (indices : list Z) (hash : Z)
    (found : list nat) (work : Z) : attempt (list nat * Z) :=
  match indices with
  | [] => mret (found, work)
  | i :: indices =>
      let hash := hash_step hash (default 0 (at_ bs i)) in
      if negb (byte_is bs (i + 1) 0x2f) then applicable_loop sources index bs indices hash found work
      else
        '(found, work) ← check_bucket sources bs i (default [] (buckets index !! hash)) found work;
        applicable_loop sources index bs indices hash found work
  end.

(** The sources whose directory holds the path, by number; those found are also the verified ones. *)
Definition applicable (sources : list RuleSource) (index : SourceIndex) (bs : bytes) (work : Z) : attempt (list nat * Z) :=
  if bool_decide (buckets index = ∅) then mret ([], work)
  else
    work ← addWork work (zlen bs);
    applicable_loop sources index bs (seqZ 0 (zlen bs)) SOURCE_HASH_INITIAL [] work.

Record IgnoreSourceIndexStats := mkStats {
  st_sources : Z; st_buckets : Z; bucketEntries : Z; st_sourceBytes : Z; st_maxBucketEntries : Z
}.
Definition stats (index : SourceIndex) : IgnoreSourceIndexStats :=
  let bucketEntries := map_fold (λ _ bucket n, n + zlen bucket) 0 (buckets index) in
  mkStats bucketEntries (Z.of_nat (size (buckets index))) bucketEntries (sourceBytes index) (maxBucketEntries index).

(** * The matcher *)

Record WorktreeIgnoreMatcher := mkMatcher {
  rootSource : option RuleSource; w_sources : list RuleSource; sourceIndex : SourceIndex; extraSource : RuleSource;
  hasRules : bool
}.

Definition directory_depth (bs : bytes) : Z :=
  let slashes := foldl (λ n b, if b =? 0x2f then n + 1 else n) 0 bs in
  if 0 <? zlen bs then slashes + 1 else slashes.

(** The sources, with the last one at the root. *)
Fixpoint compile_sources (rules : list (ustring * list IgnorePattern)) (root : option RuleSource)
    (acc : list (ustring * RuleSource)) : option RuleSource * list (ustring * RuleSource) :=
  match rules with
  | [] => (root, acc)
  | (directory, patterns) :: rules =>
      let bs := encode directory in
      let source := compileRuleSource bs (directory_depth bs) patterns in
      if zlen bs =? 0 then compile_sources rules (Some source) acc
      else compile_sources rules root (acc ++ [(directory, source)])
  end.

(** [text.lastIndexOf("/", before)]. *)
Fixpoint last_slash (text : ustring) (n : nat) : option nat :=
  match n with
  | O => None
  | S n => if bool_decide (at_ text (Z.of_nat n) = Some 0x2f) then Some n else last_slash text n
  end.

(** The number of the last source at a directory: the entry of [sourcesByDirectory]. *)
Definition source_at (entries : list (ustring * RuleSource)) (directory : ustring) : option nat :=
  fst <$> last (filter (λ e, e.2.1 = directory) (zip (seq 0 (length entries)) entries)).

(** [lastIndexOf("/", -1)] looks at the first character, as [lastIndexOf("/", 0)] does. *)
Fixpoint find_parent (fuel : nat) (entries : list (ustring * RuleSource)) (directory : ustring) (slash : option nat)
    : option (option nat) :=
  match fuel with
  | O => None
  | S fuel =>
      match slash with
      | None => Some None
      | Some at_slash =>
          match source_at entries (take at_slash directory) with
          | Some p => Some (Some p)
          | None => find_parent fuel entries directory (last_slash directory (Nat.max 1 at_slash))
          end
      end
  end.

Fixpoint link_parents (entries todo : list (ustring * RuleSource)) : option (list RuleSource) :=
  match todo with
  | [] => Some []
  | (directory, source) :: todo =>
      p ← find_parent (S (length directory)) entries directory (last_slash directory (length directory));
      rest ← link_parents entries todo;
      Some (set_parent source p :: rest)
  end.

Definition new_WorktreeIgnoreMatcher (rules : list (ustring * list IgnorePattern)) (extra : list IgnorePattern)
    : option WorktreeIgnoreMatcher :=
  let extraSource := compileRuleSource [] 0 extra in
  let '(root, entries) := compile_sources rules None [] in
  sources ← link_parents entries entries;
  Some (mkMatcher root sources (new_SourceIndex sources) extraSource
          (bool_decide (root ≠ None) || (0 <? zlen sources) || bool_decide (paths extraSource ≠ ∅) ||
           bool_decide (basenames extraSource ≠ ∅) || (0 <? zlen (dynamic extraSource)))).

(** The three arrays that rank the decision at each depth. *)
Record Decisions := mkDecisions { decisions : list Z; sourceRanks : list Z; lineRanks : list Z }.

Section query.
  Context (path : EncodedPath) (isDirectory : bool) (segmentHashes : list Z).

Definition decide_rule (d : Decisions) (rule : IndexedRule) (depth sourceRank : Z) : Decisions :=
  if directoryOnly (pattern rule) && (depth =? segments path) && negb isDirectory then d
  else
    let lineRank := line rule + 1 in
    let currentSource := default 0 (at_ (sourceRanks d) (depth - 1)) in
    let currentLine := default 0 (at_ (lineRanks d) (depth - 1)) in
    if (sourceRank <? currentSource) || ((sourceRank =? currentSource) && (lineRank <? currentLine)) then d
    else
      let put (l : list Z) (v : Z) := <[Z.to_nat (depth - 1) := v]> l in
      mkDecisions (put (decisions d) (if negated (pattern rule) then 1 else 2)) (put (sourceRanks d) sourceRank)
        (put (lineRanks d) lineRank).

Fixpoint apply_dynamic (rules : list IndexedRule) (sourceDepth sourceRank : Z) (d : Decisions) (work : Z) : attempt (Decisions * Z) :=
  match rules with
  | [] => mret (d, work)
  | rule :: rules =>
      '(patternWork, depths) ←
        ended (matchPatternDepths (pattern rule) path sourceDepth isDirectory (IGNORE_LIMITS RequestCpuWork - work));
      let d := foldl (λ d depth, decide_rule d rule depth sourceRank) d depths in
      work ← addWork work patternWork;
      apply_dynamic rules sourceDepth sourceRank d work
  end.

(** The rules of a bucket against the bytes from [start] to [end_]. *)
Fixpoint apply_bucket (bucket : list IndexedRule) (start end_ depth sourceRank : Z) (d : Decisions) (work : Z)
    : attempt (Decisions * Z) :=
  match bucket with
  | [] => mret (d, work)
  | rule :: bucket =>
      let compared := compareLiteralBytes (e_bytes path) start end_ (literal rule) (IGNORE_LIMITS RequestCpuWork - work) in
      work ← addWork work (IgnoreMatch.work compared);
      apply_bucket bucket start end_ depth sourceRank
        (if matched compared then decide_rule d rule depth sourceRank else d) work
  end.

Fixpoint apply_basenames (source : RuleSource) (depths : list Z) (sourceRank : Z) (d : Decisions) (work : Z) : attempt (Decisions * Z) :=
  match depths with
  | [] => mret (d, work)
  | depth :: depths =>
      '(d, work) ← apply_bucket (default [] (basenames source !! default 0 (at_ segmentHashes (depth - 1))))
                     (default 0 (at_ (starts path) (depth - 1))) (default 0 (at_ (ends path) (depth - 1))) depth sourceRank d work;
      apply_basenames source depths sourceRank d work
  end.

Fixpoint apply_paths (source : RuleSource) (start : Z) (depths : list Z) (sourceRank hash at_ : Z) (d : Decisions) (work : Z)
    : attempt (Decisions * Z) :=
  match depths with
  | [] => mret (d, work)
  | depth :: depths =>
      let end_ := default 0 (Prelude.at_ (ends path) (depth - 1)) in
      let hash := foldl (λ hash i, sourceHashStep hash (default 0 (Prelude.at_ (e_bytes path) i))) hash (seqZ at_ (end_ - at_)) in
      '(d, work) ← apply_bucket (default [] (paths source !! hash)) start end_ depth sourceRank d work;
      apply_paths source start depths sourceRank hash (Z.max at_ end_) d work
  end.

Definition apply_source (source : RuleSource) (sourceRank : Z) (d : Decisions) (work : Z) : attempt (Decisions * Z) :=
  let depths := seqZ (depth source + 1) (segments path - depth source) in
  '(d, work) ← apply_dynamic (dynamic source) (depth source) sourceRank d work;
  '(d, work) ← (if bool_decide (basenames source = ∅) then mret (d, work)
                else apply_basenames source depths sourceRank d work);
  if bool_decide (paths source = ∅) then mret (d, work)
  else
    let start := default 0 (at_ (starts path) (depth source)) in
    apply_paths source start depths sourceRank SOURCE_HASH_INITIAL start d work.

Fixpoint apply_all (sources : list RuleSource) (sourceRank : Z) (d : Decisions) (work : Z) : attempt (Decisions * Z) :=
  match sources with
  | [] => mret (d, work)
  | source :: sources =>
      '(d, work) ← apply_source source sourceRank d work;
      apply_all sources (sourceRank + 1) d work
  end.

End query.

(** The work of hashing the part of the path below each source with path rules. *)
Fixpoint path_work (path : EncodedPath) (sources : list RuleSource) (work : Z) : attempt Z :=
  match sources with
  | [] => mret work
  | source :: sources =>
      work ← (if bool_decide (paths source = ∅) then mret work else addWork work (zlen (e_bytes path) - zlen (s_bytes source)));
      path_work path sources work
  end.

Definition hash_segments (path : EncodedPath) : list Z :=
  (λ depth, hashBytes (e_bytes path) (default 0 (at_ (starts path) (depth - 1))) (default 0 (at_ (ends path) (depth - 1))))
    <$> seqZ 1 (segments path).

Definition ignores (m : WorktreeIgnoreMatcher) (query : ustring) (isDirectory : bool) : attempt bool :=
  if bool_decide (query = []) then mret false
  else
    let size := boundedUtf8Bytes query (IGNORE_LIMITS QueryBytes) in
    if IGNORE_LIMITS QueryBytes <? size
    then settled (Limited (mkLimitError QueryBytes (IGNORE_LIMITS QueryBytes) size None))
    else if negb (hasRules m) then mret false
    else
      let path := encodePath query in
      work ← (if bool_decide (paths (extraSource m) = ∅) then mret 0 else addWork 0 (zlen (e_bytes path)));
      '(ids, work) ← applicable (w_sources m) (sourceIndex m) (e_bytes path) work;
      let sources := option_list (rootSource m) ++ omap (λ id, w_sources m !! id) ids in
      work ← path_work path sources work;
      let hashed := negb (bool_decide (basenames (extraSource m) = ∅)) ||
                    existsb (λ s, negb (bool_decide (basenames s = ∅))) sources in
      work ← (if (hashed : bool) then addWork work (zlen (e_bytes path)) else mret work);
      let segmentHashes := if hashed then hash_segments path else replicate (Z.to_nat (segments path)) 0 in
      let blank := replicate (Z.to_nat (segments path)) 0 in
      '(d, _) ← apply_all path isDirectory segmentHashes (extraSource m :: sources) 1 (mkDecisions blank blank blank) work;
      mret (existsb (λ depth, bool_decide (at_ (decisions d) (depth - 1) = Some 2)) (seqZ 1 (segments path))).

End index.
