(* ===== verification/IgnoreDecideFacts.v ===== *)
(** Ranking the rules that match: whatever the order in which the matcher finds them, the
    decision at a depth is that of the last line of the last source. *)

From S2P Require Import Prelude Utf8 Arrays IgnoreTokens IgnoreMatch IgnoreTokenFacts IgnoreNfaFacts IgnoreCompile IgnoreCompileFacts IgnorePathFacts IgnoreDepthFacts IgnoreLimits IgnoreMatcher.

(** * Computations under the limit on work *)

Definition under_limit {A} (Q : A → Prop) (o : attempt A) : Prop :=
  match o with
  | None => False
  | Some (Limited e) => ∃ n, IGNORE_LIMITS RequestCpuWork < n ∧ e = over_work n
  | Some (Done a) => Q a
  end.

Lemma under_limit_bind {A B} (P : A → Prop) (Q : B → Prop) (m : attempt A) (f : A → attempt B) :
  under_limit P m → (∀ a, P a → under_limit Q (f a)) → under_limit Q (m ≫= f).
Proof. destruct m as [[a|e]|]; cbn; auto. Qed.

Lemma under_limit_mono {A} (P Q : A → Prop) (m : attempt A) : (∀ a, P a → Q a) → under_limit P m → under_limit Q m.
Proof. destruct m as [[a|e]|]; cbn; auto. Qed.

Definition within (w : Z) : Prop := 0 <= w <= IGNORE_LIMITS RequestCpuWork.

Lemma addWork_spec w amount : 0 <= amount → within w → under_limit (λ w', within w' ∧ w' = w + amount) (addWork w amount).
Proof.
  intros Ha Hw. unfold addWork. destruct (_ <? _) eqn:E; zbool; [by eexists|]. unfold within in *. cbn -[IGNORE_LIMITS]. lia.
Qed.

(** * Decisions *)

Section decisions.
  Context (p : EncodedPath) (isDirectory : bool) (Hsegments : 0 <= segments p).

(** Which rules match: at a depth, the rank of a source, the line and the pattern. *)
Notation events := (Z → Z → Z → IgnorePattern → Prop).
Implicit Types ev : events.

Definition verdict (q : IgnorePattern) : Z := if negated q then 1 else 2.

(** The last line of the last source. *)
Definition last_match ev (depth rank line : Z) (q : IgnorePattern) : Prop :=
  ev depth rank line q ∧ ∀ r k q', ev depth r k q' → r < rank ∨ (r = rank ∧ k <= line).

(** One entry of the three arrays. *)
Definition entry ev (depth v s l : Z) : Prop :=
  (s = 0 ∧ l = 0 ∧ v = 0 ∧ ∀ r k q, ¬ ev depth r k q) ∨ (∃ q, last_match ev depth s (l - 1) q ∧ v = verdict q).

Definition decided ev (d : Decisions) : Prop :=
  (zlen (decisions d) = segments p ∧ zlen (sourceRanks d) = segments p ∧ zlen (lineRanks d) = segments p) ∧
  (∀ depth r k q, ev depth r k q → 1 <= r ∧ 0 <= k) ∧
  ∀ depth, 1 <= depth <= segments p → ∃ v s l,
    at_ (decisions d) (depth - 1) = Some v ∧ at_ (sourceRanks d) (depth - 1) = Some s ∧ at_ (lineRanks d) (depth - 1) = Some l ∧ entry ev depth v s l.

Lemma decided_iff ev ev' d : (∀ depth r k q, ev depth r k q ↔ ev' depth r k q) → decided ev d → decided ev' d.
Proof.
  intros H (Hl & Hb & Hd). split_and!; try apply Hl; [naive_solver|]. intros depth Hdepth.
  destruct (Hd depth Hdepth) as (v & s & l & Hv & Hs & Hll & Hor). exists v, s, l. split_and!; try done.
  destruct Hor as [(-> & -> & -> & Hno)|(q & [Hq Hmax] & ->)]; [left; naive_solver|right]. exists q.
  split; [|done]. split; [by apply H|]. intros r k q' Hq'. apply (Hmax r k q'). by apply H.
Qed.

Definition add_event ev (depth rank : Z) (rule : IndexedRule) (b : Prop) : events :=
  λ δ r k q, ev δ r k q ∨ (δ = depth ∧ r = rank ∧ k = line rule ∧ q = pattern rule ∧ b).

Lemma entry_other ev depth rank rule b δ v s l : δ ≠ depth → entry ev δ v s l → entry (add_event ev depth rank rule b) δ v s l.
Proof.
  intros Hne [(-> & -> & -> & Hno)|(q & [Hq Hmax] & ->)]; [left|right].
  - split_and!; try done. intros r k q [Hq|[? _]]; [by apply (Hno r k q)|done].
  - exists q. split; [|done]. split; [by left|]. intros r k q' [Hq'|[? _]]; [by apply (Hmax r k q')|done].
Qed.

Lemma decide_rule_spec ev d rule depth rank :
  decided ev d → 1 <= rank → 0 <= line rule → 1 <= depth <= segments p →
  decided (add_event ev depth rank rule (directory_ok (pattern rule) p isDirectory depth))
    (decide_rule p isDirectory d rule depth rank).
Proof.
  intros (Hl & Hb & Hd) Hrank Hline Hdepth. unfold decide_rule.
  destruct (directoryOnly (pattern rule) && (depth =? segments p) && negb isDirectory) eqn:Eskip.
  { apply (decided_iff ev); [|done]. intros δ r k q. unfold add_event, directory_ok. split; [by left|].
    intros [?|(_ & _ & _ & _ & Hok)]; [done|]. rewrite !andb_true_iff, negb_true_iff in Eskip. destruct Eskip as [[Hdo He] Hnd].
    zbool. destruct (Hok Hdo); [lia|congruence]. }
  assert (directory_ok (pattern rule) p isDirectory depth) as Hok.
  { intros Hdo. rewrite Hdo in Eskip. destruct (depth =? segments p) eqn:E, isDirectory; zbool; [by right|naive_solver|left; lia|left; lia]. }
  destruct (Hd depth Hdepth) as (v & s & l & Hv & Hs & Hll & Hor). rewrite Hs, Hll. cbn [default from_option id].
  destruct ((rank <? s) || ((rank =? s) && (line rule + 1 <? l))) eqn:Ekeep.
  - assert (rank < s ∨ (rank = s ∧ line rule + 1 < l)) as Hle by (rewrite orb_true_iff, andb_true_iff, Z.eqb_eq, !Z.ltb_lt in Ekeep; lia).
    split_and!; try apply Hl; [by intros δ r k q [?|(_ & -> & -> & _)]; [apply (Hb δ r k q)|]|]. intros δ Hδ.
    destruct (Hd δ Hδ) as (v' & s' & l' & Hv' & Hs' & Hl' & Hor'). exists v', s', l'. split_and!; try done.
    destruct (decide (δ = depth)) as [->|Hne]; simplify_eq.
    + destruct Hor as [(-> & _)|(q & [Hq Hmax] & ->)]; [lia|right]. exists q. split; [|done]. split; [by left|].
      intros r k q' [Hq'|(_ & -> & -> & _)]; [by apply (Hmax r k q')|lia].
    + by apply entry_other.
  - assert (s <= rank ∧ (rank = s → l <= line rule + 1)) as Hge.
    { apply orb_false_iff in Ekeep as [E1 E2]. zbool. split; [lia|]. intros ->. rewrite Z.eqb_refl in E2. cbn in E2. zbool. lia. }
    split_and!; [cbn; unfold zlen in *; rewrite length_insert; apply Hl..| |].
    { by intros δ r k q [?|(_ & -> & -> & _)]; [apply (Hb δ r k q)|]. }
    intros δ Hδ. cbn [decisions sourceRanks lineRanks]. destruct Hl as (Hl1 & Hl2 & Hl3). rewrite !at_insert by lia.
    destruct (decide (δ = depth)) as [->|Hne].
    + rewrite Z.eqb_refl. eexists _, _, _. split_and!; [done..|]. right. exists (pattern rule). split; [|done].
      replace (line rule + 1 - 1) with (line rule) by lia. split; [by right|].
      intros r k q [Hq|(_ & -> & -> & _)]; [|lia].
      destruct Hor as [(_ & _ & _ & Hno)|(q' & [_ Hmax] & _)]; [by destruct (Hno r k q)|]. pose proof (Hmax r k q Hq). lia.
    + rewrite (proj2 (Z.eqb_neq _ _)) by lia. destruct (Hd δ Hδ) as (v' & s' & l' & Hv' & Hs' & Hl' & Hor').
      exists v', s', l'. split_and!; [done..|by apply entry_other].
Qed.

Lemma decided_blank :
  decided (λ _ _ _ _, False)
    (let blank := replicate (Z.to_nat (segments p)) 0 in mkDecisions blank blank blank).
Proof using Hsegments.
  cbn zeta. assert (∀ i, 1 <= i <= segments p → at_ (replicate (Z.to_nat (segments p)) 0) (i - 1) = Some 0) as H0.
  { intros i Hi. unfold at_. rewrite (proj2 (Z.ltb_ge _ _)) by lia. apply lookup_replicate. split; [done|lia]. }
  split; [|split; [done|]].
  - cbn [decisions sourceRanks lineRanks]. by rewrite zlen_replicate.
  - intros δ Hδ. exists 0, 0, 0. cbn [decisions sourceRanks lineRanks].
    rewrite (H0 δ Hδ). do 3 (split; [done|]). left. do 3 (split; [done|]). intros r k q H. exact H.
Qed.

(** Several depths of one rule. *)
Lemma decide_depths_spec ev d rule ds rank (P : Z → Prop) :
  decided ev d → 1 <= rank → 0 <= line rule → (∀ δ, δ ∈ ds → 1 <= δ <= segments p) →
  (∀ δ, δ ∈ ds ↔ P δ) → (∀ δ, P δ → directory_ok (pattern rule) p isDirectory δ) →
  decided (λ δ r k q, ev δ r k q ∨ (r = rank ∧ k = line rule ∧ q = pattern rule ∧ P δ))
    (foldl (λ d depth, decide_rule p isDirectory d rule depth rank) d ds).
Proof using Hsegments.
  intros Hd Hrank Hline. revert ev d P Hd. induction ds as [|δ0 ds IH]; intros ev d P Hd Hds HP Hok; cbn [foldl].
  - apply (decided_iff ev); [|done]. intros δ r k q. rewrite <- HP, elem_of_nil. naive_solver.
  - assert (P δ0) as H0 by (apply HP; set_solver).
    assert (decided (λ δ r k q, add_event ev δ0 rank rule True δ r k q ∨ (r = rank ∧ k = line rule ∧ q = pattern rule ∧ δ ∈ ds))
              (foldl (λ d depth, decide_rule p isDirectory d rule depth rank) (decide_rule p isDirectory d rule δ0 rank) ds)) as H.
    { apply IH; [|set_solver|done|intros δ Hδ; apply Hok, HP; set_solver].
      eapply decided_iff; [|apply decide_rule_spec; [done..|apply Hds; set_solver]]. unfold add_event. naive_solver. }
    eapply decided_iff; [|exact H]. intros δ r k q. unfold add_event. rewrite <- (HP δ), elem_of_cons. naive_solver.
Qed.

End decisions.

(** * Hashes *)

Lemma slice_indices (bs : bytes) a b :
  0 <= a <= b → b <= zlen bs → slice bs a b = (λ i, default 0 (at_ bs i)) <$> seqZ a (b - a).
Proof.
  intros Ha Hb. apply list_eq. intros i. rewrite list_lookup_fmap. destruct (decide (Z.of_nat i < b - a)).
  - rewrite lookup_seqZ_lt by lia. pose proof (at_slice bs a b (Z.of_nat i) ltac:(lia) ltac:(lia)) as H.
    unfold at_ at 1 in H. rewrite (proj2 (Z.ltb_ge _ _)), Nat2Z.id in H by lia. rewrite H. cbn [fmap option_fmap option_map].
    destruct (proj2 (at_is_Some bs (a + Z.of_nat i)) ltac:(lia)) as [x Hx]. by rewrite Hx.
  - rewrite lookup_seqZ_ge by lia. apply lookup_ge_None. pose proof (zlen_slice bs a b Ha Hb). unfold zlen in *. lia.
Qed.

Lemma fold_slice {A} (f : A → Z → A) bs a b x :
  0 <= a <= b → b <= zlen bs →
  foldl (λ h i, f h (default 0 (at_ bs i))) x (seqZ a (b - a)) = foldl f x (slice bs a b).
Proof. intros Ha Hb. by rewrite slice_indices, foldl_fmap by done. Qed.

Definition hash_of (bs : bytes) : Z := foldl sourceHashStep SOURCE_HASH_INITIAL bs.

Lemma hashBytes_slice bs a b : 0 <= a <= b → b <= zlen bs → hashBytes bs a b = hash_of (slice bs a b).
Proof. apply fold_slice. Qed.

Lemma hashBytes_all bs : hashBytes bs 0 (zlen bs) = hash_of bs.
Proof. rewrite hashBytes_slice, slice_all; [done|split; [done|apply zlen_nonneg]|done]. Qed.

(** * Sources *)

(** A rule of the source's lines. *)
Definition line_of (pats : list IgnorePattern) (rule : IndexedRule) : Prop := at_ pats (line rule) = Some (pattern rule).

Definition bucket {A} (m : gmap Z (list A)) (h : Z) : list A := default [] (m !! h).

(** What compileRuleSource makes of the lines of a file. *)
Record source_ok (pats : list IgnorePattern) (s : RuleSource) : Prop := {
  ok_basenames h rule : rule ∈ bucket (basenames s) h ↔
    line_of pats rule ∧ compiled (pattern rule) = LiteralBasename (literal rule) ∧ h = hash_of (literal rule);
  ok_paths h rule : rule ∈ bucket (paths s) h ↔
    line_of pats rule ∧ compiled (pattern rule) = LiteralPath (literal rule) ∧ h = hash_of (literal rule);
  ok_dynamic rule : rule ∈ dynamic s ↔
    line_of pats rule ∧ patternLiteral (pattern rule) = None ∧ patternMatchesNever (pattern rule) = false ∧ literal rule = []
}.

Lemma bucket_add {A} (m : gmap Z (list A)) h x h' :
  bucket (addIndexed m h x) h' = bucket m h' ++ (if bool_decide (h' = h) then [x] else []).
Proof.
  unfold bucket, addIndexed. case_bool_decide as E; [subst|].
  - destruct (m !! h) eqn:Em; by rewrite lookup_insert_eq.
  - destruct (m !! h) eqn:Em; rewrite lookup_insert_ne by done; by rewrite app_nil_r.
Qed.

Lemma line_of_snoc pats pat rule :
  line_of (pats ++ [pat]) rule ↔ line_of pats rule ∨ (line rule = zlen pats ∧ pattern rule = pat).
Proof.
  unfold line_of. pose proof (zlen_nonneg pats). split.
  - intros Hat. pose proof (at_bound _ _ _ Hat) as Hb. rewrite zlen_app in Hb. destruct (decide (line rule < zlen pats)).
    + left. by rewrite at_app_l in Hat.
    + right. change (zlen [pat]) with 1 in Hb. assert (line rule = zlen pats) as E by lia. rewrite E, at_app in Hat. by simplify_eq/=.
  - intros [Hat|[E <-]]; [rewrite at_app_l; [done|apply at_bound in Hat; lia]|]. by rewrite E, at_app.
Qed.

Lemma rule_eta rule : mkRule (pattern rule) (literal rule) (line rule) = rule.
Proof. by destruct rule. Qed.

(** The rule of one more line. *)
Definition add_line (s : RuleSource) (pat : IgnorePattern) (line : Z) : RuleSource :=
  if patternMatchesNever pat then s
  else
    match patternLiteral pat with
    | None => mkSource (s_bytes s) (depth s) (parent s) (basenames s) (paths s) (dynamic s ++ [mkRule pat [] line])
    | Some (b, l) =>
        if (b : bool)
        then mkSource (s_bytes s) (depth s) (parent s) (addIndexed (basenames s) (hash_of l) (mkRule pat l line)) (paths s) (dynamic s)
        else mkSource (s_bytes s) (depth s) (parent s) (basenames s) (addIndexed (paths s) (hash_of l) (mkRule pat l line)) (dynamic s)
    end.

Lemma bucket_rule m h l pat line h' rule :
  rule ∈ bucket (addIndexed m h (mkRule pat l line)) h' ↔
  rule ∈ bucket m h' ∨ (h' = h ∧ rule = mkRule pat l line).
Proof.
  rewrite bucket_add, elem_of_app. case_bool_decide; [rewrite list_elem_of_singleton|rewrite elem_of_nil]; naive_solver.
Qed.

Lemma source_ok_snoc pats s pat : source_ok pats s → source_ok (pats ++ [pat]) (add_line s pat (zlen pats)).
Proof.
  intros [Hb Hpa Hd]. unfold add_line, patternMatchesNever, patternLiteral.
  assert (∀ (rule : IndexedRule), line rule = zlen pats → pattern rule = pat → rule = mkRule pat (literal rule) (zlen pats)) as Heta.
  { intros rule <- <-. by rewrite rule_eta. }
  destruct (compiled pat) as [l|l| | |] eqn:Ec; split; intros *; cbn [basenames paths dynamic];
    rewrite ?bucket_rule, ?elem_of_app, ?list_elem_of_singleton, ?Hb, ?Hpa, ?Hd, line_of_snoc.
  all: destruct rule as [q m k]; unfold line_of, patternLiteral, patternMatchesNever; cbn [pattern literal line].
  all: clear Heta Hb Hpa Hd; split; [intros; destruct_or?; destruct_and?; simplify_eq; rewrite ?Ec; auto 6|].
  all: intros ([?|[-> ->]] & Hrest); [auto|rewrite Ec in *; destruct_and?; simplify_eq; auto].
Qed.

Lemma compileRules_add pat patterns n s : compileRules (pat :: patterns) n s = compileRules patterns (n + 1) (add_line s pat n).
Proof.
  cbn [compileRules]. f_equal. unfold add_line. case_match; [done|]. case_match; [|done]. case_match; subst. by rewrite hashBytes_all.
Qed.

Lemma compileRules_ok todo pats s n :
  source_ok pats s → n = zlen pats →
  source_ok (pats ++ todo) (compileRules todo n s) ∧ s_bytes (compileRules todo n s) = s_bytes s ∧
  depth (compileRules todo n s) = depth s ∧ parent (compileRules todo n s) = parent s.
Proof.
  revert pats s n. induction todo as [|pat todo IH]; intros pats s n Hok ->; [by rewrite app_nil_r|].
  rewrite compileRules_add. destruct (IH (pats ++ [pat]) (add_line s pat (zlen pats)) (zlen pats + 1)) as (H1 & H2 & H3 & H4).
  - by apply source_ok_snoc.
  - by rewrite zlen_app.
  - rewrite <- app_assoc in H1. split; [exact H1|]. rewrite H2, H3, H4. unfold add_line. by repeat case_match.
Qed.

(** compileRuleSource indexes every line of a file, at its place. *)
Lemma compileRuleSource_ok bs n pats :
  source_ok pats (compileRuleSource bs n pats) ∧ s_bytes (compileRuleSource bs n pats) = bs ∧
  depth (compileRuleSource bs n pats) = n ∧ parent (compileRuleSource bs n pats) = None.
Proof.
  apply (compileRules_ok pats []); [|done]. assert (∀ h, bucket (∅ : gmap Z (list IndexedRule)) h = []) as Hempty by done.
  split; intros *; cbn [basenames paths dynamic]; rewrite ?Hempty, elem_of_nil; unfold line_of;
    rewrite at_nil; naive_solver.
Qed.

(** * Applying a source *)

Section apply.
  Context (p : EncodedPath) (isDirectory : bool) (hashes : list Z).
  Context (Hp : path_ok p) (pats : list IgnorePattern) (src : RuleSource) (Hsrc : source_ok pats src).
  Context (Hpats : Forall (compiled_ok ∘ compiled) pats) (Htop : 0 <= depth src) (rank : Z) (Hrank : 1 <= rank).

Notation events := (Z → Z → Z → IgnorePattern → Prop).
Notation matches q δ := (rule_matches q p (depth src) isDirectory δ).
Implicit Types ev : events.

(** The rules of [R] that match, on top of [ev]. *)
Definition with_rules ev (R : IndexedRule → Prop) : events :=
  λ δ r k q, ev δ r k q ∨ (r = rank ∧ ∃ rule, R rule ∧ k = line rule ∧ q = pattern rule ∧ matches q δ).

Definition applied ev (R : IndexedRule → Prop) (o : attempt (Decisions * Z)) : Prop :=
  under_limit (λ '(d, w), within w ∧ decided p (with_rules ev R) d) o.

Lemma line_ok rule : line_of pats rule → 0 <= line rule ∧ compiled_ok (compiled (pattern rule)).
Proof using Hpats. intros H. split; [apply at_bound in H; lia|]. apply (Forall_at _ _ _ _ Hpats H). Qed.

Lemma depths_reported q maxWork :
  compiled_ok (compiled q) → 0 <= maxWork →
  ∃ w ds, matchPatternDepths q p (depth src) isDirectory maxWork = Some (w, ds) ∧ 0 <= w ∧
    (w <= maxWork → ∀ δ, δ ∈ ds ↔ matches q δ).
Proof using Hp Htop.
  intros Hq Hm. destruct (matchPatternDepths_spec q p (depth src) isDirectory maxWork Hp Hq Htop 0 Hm) as (w & ds & E & Hw & _).
  exists w, ds. split_and!; [done|done|]. intros Hle δ.
  destruct (matchPatternDepths_spec q p (depth src) isDirectory maxWork Hp Hq Htop δ Hm) as (w' & ds' & E' & _ & Hds).
  simplify_eq. by apply Hds.
Qed.

Lemma apply_dynamic_spec rules ev d w :
  (∀ rule, rule ∈ rules → line_of pats rule) → decided p ev d → within w →
  applied ev (λ rule, rule ∈ rules) (apply_dynamic p isDirectory rules (depth src) rank d w).
Proof using Hp Htop Hpats Hrank Hsrc.
  revert ev d w. induction rules as [|rule rules IH]; intros ev d w Hin Hd Hw; cbn [apply_dynamic].
  { split; [done|]. apply (decided_iff p ev); [|done]. intros δ r k q. unfold with_rules. set_solver. }
  destruct (line_ok rule (Hin rule ltac:(set_solver))) as [Hline Hq]. pose proof Hw as Hw0. unfold within in Hw0.
  destruct (depths_reported (pattern rule) (IGNORE_LIMITS RequestCpuWork - w) Hq ltac:(lia)) as (pw & ds & -> & Hpw & Hds).
  unfold ended. cbn [fmap option_fmap option_map mbind attempt_bind].
  eapply under_limit_bind; [by apply addWork_spec|]. intros w' [Hw' ->]. pose proof Hw' as Hw1. unfold within in Hw1.
  specialize (Hds ltac:(lia)).
  assert (decided p (with_rules ev (.= rule)) (foldl (λ d depth, decide_rule p isDirectory d rule depth rank) d ds)) as Hd'.
  { eapply decided_iff; [|apply (decide_depths_spec p isDirectory (Z.le_trans _ _ _ Z.le_0_1 (ok_some p Hp)) ev d rule ds rank (λ δ, matches (pattern rule) δ))];
      [|done|done|done| |done|].
    - intros δ r k q. unfold with_rules. naive_solver.
    - intros δ Hδ%Hds. destruct Hδ. lia.
    - by intros δ (_ & _ & ?). }
  eapply under_limit_mono; [|apply (IH (with_rules ev (.= rule)) _ (w + pw)); [set_solver|done|done]].
  intros [d' w'] [? Hdd]. split; [done|]. eapply decided_iff; [|done]. intros δ r k q. unfold with_rules.
  setoid_rewrite elem_of_cons. naive_solver.
Qed.

(** The rules of a bucket for one depth. *)
Definition with_bucket ev (rules : list IndexedRule) (depth : Z) (text : bytes) : events :=
  λ δ r k q, ev δ r k q ∨
    (δ = depth ∧ r = rank ∧ ∃ rule, rule ∈ rules ∧ text = literal rule ∧ k = line rule ∧ q = pattern rule ∧ directory_ok q p isDirectory δ).

Lemma apply_bucket_spec rules ev d w start end_ depth :
  (∀ rule, rule ∈ rules → line_of pats rule) → 1 <= depth <= segments p → 0 <= start <= end_ → end_ <= zlen (e_bytes p) →
  decided p ev d → within w →
  under_limit (λ '(d, w), within w ∧ decided p (with_bucket ev rules depth (slice (e_bytes p) start end_)) d)
    (apply_bucket p isDirectory rules start end_ depth rank d w).
Proof using Hp Htop Hpats Hrank Hsrc.
  intros Hin Hdepth Hs He. revert ev d w Hin. induction rules as [|rule rules IH]; intros ev d w Hin Hd Hw; cbn [apply_bucket].
  { split; [done|]. apply (decided_iff p ev); [|done]. intros δ r k q. unfold with_bucket. set_solver. }
  destruct (line_ok rule (Hin rule ltac:(set_solver))) as [Hline _].
  set (text := slice (e_bytes p) start end_) in *.
  destruct (compareLiteralBytes_spec (IGNORE_LIMITS RequestCpuWork - w) (e_bytes p) start end_ (literal rule) Hs He) as (m & [= <-] & Hmw & Hm).
  set (m := compareLiteralBytes _ _ _ _ _) in *.
  eapply under_limit_bind; [apply addWork_spec; [lia|done]|]. intros w' [Hw' ->]. pose proof Hw' as Hw1. unfold within in Hw1.
  specialize (Hm ltac:(lia)). fold text in Hm.
  assert (decided p (with_bucket ev [rule] depth text) (if matched m then decide_rule p isDirectory d rule depth rank else d)) as Hd'.
  { destruct (matched m).
    - eapply decided_iff; [|by apply decide_rule_spec]. intros δ r k q. unfold with_bucket, add_event.
      setoid_rewrite list_elem_of_singleton. naive_solver.
    - apply (decided_iff p ev); [|done]. intros δ r k q. unfold with_bucket. setoid_rewrite list_elem_of_singleton. naive_solver. }
  eapply under_limit_mono; [|apply (IH (with_bucket ev [rule] depth text) _ (w + work m)); [set_solver|done|done]].
  intros [d' w'] [? Hdd]. split; [done|]. eapply decided_iff; [|done]. intros δ r k q. unfold with_bucket.
  setoid_rewrite elem_of_cons. setoid_rewrite elem_of_nil. naive_solver.
Qed.

(** What the depths from [from] on add, each with a bucket and a text of its own. *)
Definition with_depths ev (from : Z) (rules : Z → list IndexedRule) (text : Z → bytes) : events :=
  λ δ r k q, ev δ r k q ∨
    (from <= δ <= segments p ∧ r = rank ∧
     ∃ rule, rule ∈ rules δ ∧ text δ = literal rule ∧ k = line rule ∧ q = pattern rule ∧ directory_ok q p isDirectory δ).

Lemma with_depths_step ev from rules text : from <= segments p → ∀ δ r k q,
  with_depths (with_bucket ev (rules from) from (text from)) (from + 1) rules text δ r k q ↔ with_depths ev from rules text δ r k q.
Proof using Type.
  intros Hf δ r k q. unfold with_depths, with_bucket. split.
  - intros [[?|(-> & -> & ?)]|(? & ? & ?)]; [by left|right; split; [lia|done]|right; split; [lia|done]].
  - intros [?|(Hr & -> & H)]; [by left; left|]. destruct (decide (δ = from)) as [->|]; [by left; right|right; split; [lia|done]].
Qed.

Lemma apply_basenames_spec n :
  0 <= n → (∀ i, 0 <= i < segments p → at_ hashes i = Some (hash_of (segment p (i + 1)))) →
  ∀ from ev d w, depth src < from → from + n = segments p + 1 → decided p ev d → within w →
  under_limit (λ '(d, w), within w ∧ decided p (with_depths ev from (λ δ, bucket (basenames src) (hash_of (segment p δ))) (segment p)) d)
    (apply_basenames p isDirectory hashes src (seqZ from n) rank d w).
Proof using Hp Hpats Hrank Hsrc Htop.
  intros Hn Hh. pattern n. revert n Hn. apply natlike_ind.
  { intros from ev d w Hf Hfn Hd Hw. split; [done|]. apply (decided_iff p ev); [|done]. intros δ r k q. unfold with_depths.
    split; [by left|]. intros [?|[? _]]; [done|lia]. }
  intros n Hn IH from ev d w Hf Hfn Hd Hw. rewrite seqZ_step by done. cbn [apply_basenames].
  rewrite Hh by lia. replace (from - 1 + 1) with from by lia. cbn [default from_option id].
  fold (seg_start p (from - 1)) (seg_end p (from - 1)) (bucket (basenames src) (hash_of (segment p from))).
  destruct (ok_bounds p Hp (from - 1) ltac:(lia)) as [Hb1 Hb2].
  eapply under_limit_bind.
  { apply (apply_bucket_spec _ ev d w (seg_start p (from - 1)) (seg_end p (from - 1)) from); [|lia|done..].
    intros rule Hr. by apply (ok_basenames _ _ Hsrc) in Hr as [? _]. }
  intros [d' w'] [Hw' Hd']. fold (segment p from) in Hd'.
  eapply under_limit_mono; [|by apply (IH (from + 1) _ d' w' ltac:(lia) ltac:(lia) Hd')].
  intros [d2 w2] [? Hd2]. split; [done|]. eapply decided_iff; [|exact Hd2].
  by apply (with_depths_step ev from (λ δ, bucket (basenames src) (hash_of (segment p δ))) (segment p) ltac:(lia)).
Qed.

Lemma hash_of_app a b : hash_of (a ++ b) = foldl sourceHashStep (hash_of a) b.
Proof using Type. apply foldl_app. Qed.

Lemma apply_paths_spec n :
  0 <= n → ∀ from at_ ev d w, depth src < from → from + n = segments p + 1 →
  seg_start p (depth src) <= at_ → (from <= segments p → at_ <= seg_end p (from - 1)) → decided p ev d → within w →
  under_limit (λ '(d, w), within w ∧ decided p (with_depths ev from (λ δ, bucket (paths src) (hash_of (below p (depth src) δ))) (below p (depth src))) d)
    (apply_paths p isDirectory src (seg_start p (depth src)) (seqZ from n) rank
       (hash_of (slice (e_bytes p) (seg_start p (depth src)) at_)) at_ d w).
Proof using Hp Hpats Hrank Hsrc Htop.
  intros Hn. pattern n. revert n Hn. apply natlike_ind.
  { intros from at_ ev d w Hf Hfn _ _ Hd Hw. split; [done|]. apply (decided_iff p ev); [|done]. intros δ r k q. unfold with_depths.
    split; [by left|]. intros [?|[? _]]; [done|lia]. }
  intros n Hn IH from at_ ev d w Hf Hfn Hat Hle Hd Hw. rewrite seqZ_step by done. cbn [apply_paths].
  fold (seg_end p (from - 1)). specialize (Hle ltac:(lia)).
  destruct (below_bounds p Hp (depth src) from ltac:(lia) ltac:(lia)) as [Hb1 Hb2].
  rewrite fold_slice, <- hash_of_app, slice_cat by lia. fold (below p (depth src) from).
  fold (bucket (paths src) (hash_of (below p (depth src) from))).
  eapply under_limit_bind.
  { apply (apply_bucket_spec _ ev d w (seg_start p (depth src)) (seg_end p (from - 1)) from); [|lia|done..].
    intros rule Hr. by apply (ok_paths _ _ Hsrc) in Hr as [? _]. }
  intros [d' w'] [Hw' Hd']. fold (below p (depth src) from) in Hd'. rewrite Z.max_r by done.
  eapply under_limit_mono; [|apply (IH (from + 1) (seg_end p (from - 1))
      (with_bucket ev (bucket (paths src) (hash_of (below p (depth src) from))) from (below p (depth src) from)) d' w' ltac:(lia) ltac:(lia) ltac:(lia)); [|exact Hd'|done]].
  - intros [d2 w2] [? Hd2]. split; [done|]. eapply decided_iff; [|exact Hd2].
    by apply (with_depths_step ev from (λ δ, bucket (paths src) (hash_of (below p (depth src) δ))) (below p (depth src)) ltac:(lia)).
  - intros Hf1. pose proof (seg_end_later p Hp (from - 1) ltac:(lia) ltac:(lia)). replace (from + 1 - 1) with (from - 1 + 1) by lia. lia.
Qed.

(** All the rules of the source that match. *)
Definition with_source ev : events :=
  λ δ r k q, ev δ r k q ∨ (r = rank ∧ at_ pats k = Some q ∧ matches q δ).

Lemma source_events ev δ r k q :
  with_depths
    (with_depths (with_rules ev (λ rule, rule ∈ dynamic src)) (depth src + 1)
       (λ δ, bucket (basenames src) (hash_of (segment p δ))) (segment p))
    (depth src + 1) (λ δ, bucket (paths src) (hash_of (below p (depth src) δ))) (below p (depth src)) δ r k q ↔ with_source ev δ r k q.
Proof using Hsrc.
  destruct Hsrc as [Hb Hpa Hd]. unfold with_depths, with_rules, with_source, rule_matches. setoid_rewrite Hb. setoid_rewrite Hpa. setoid_rewrite Hd. split.
  - intros [[[?|(-> & rule & (Hline & _) & -> & -> & ?)]|(? & -> & rule & (Hline & Hc & _) & Ht & -> & -> & ?)]
           |(? & -> & rule & (Hline & Hc & _) & Ht & -> & -> & ?)]; [by left|by right|right..];
      (split_and!; [done|done|lia|lia| |done]); unfold pattern_matches; by rewrite Hc.
  - intros [?|(-> & Hk & Hr & Hm & Hdir)]; [by left; left; left|]. pose proof Hm as Hm'. unfold pattern_matches in Hm.
    destruct (compiled q) as [l|l|anchored tokens pre suf star segs|states pre|] eqn:Ec; try done.
    + left. right. split_and!; [lia|lia|done|]. exists (mkRule q l k). cbn. by rewrite Hm.
    + right. split_and!; [lia|lia|done|]. exists (mkRule q l k). cbn. by rewrite Hm.
    + left. left. right. split; [done|]. exists (mkRule q [] k). cbn. unfold patternLiteral, patternMatchesNever. by rewrite Ec.
    + left. left. right. split; [done|]. exists (mkRule q [] k). cbn. unfold patternLiteral, patternMatchesNever. by rewrite Ec.
Qed.

Lemma apply_source_spec ev d w :
  depth src <= segments p → decided p ev d → within w →
  (basenames src ≠ ∅ → ∀ i, 0 <= i < segments p → at_ hashes i = Some (hash_of (segment p (i + 1)))) →
  under_limit (λ '(d, w), within w ∧ decided p (with_source ev) d) (apply_source p isDirectory hashes src rank d w).
Proof using Hp Hpats Hrank Hsrc Htop.
  intros Hdepth Hd Hw Hh. unfold apply_source. fold (seg_start p (depth src)).
  eapply under_limit_bind; [apply apply_dynamic_spec; [|done|done]; by intros rule [? _]%(ok_dynamic _ _ Hsrc)|].
  intros [d1 w1] [Hw1 Hd1]. eapply (under_limit_bind (λ '(d, w), within w ∧ decided p
    (with_depths (with_rules ev (λ rule, rule ∈ dynamic src)) (depth src + 1) (λ δ, bucket (basenames src) (hash_of (segment p δ))) (segment p)) d)).
  { case_bool_decide as Eb; [|apply apply_basenames_spec; try done; [lia|by apply Hh|lia|lia]].
    split; [done|]. eapply decided_iff; [|exact Hd1]. intros δ r k q. unfold with_depths at 1. rewrite Eb.
    split; [by left|]. intros [?|(_ & _ & rule & Hr & _)]; [done|]. by apply elem_of_nil in Hr. }
  intros [d2 w2] [Hw2 Hd2]. eapply (under_limit_mono (λ '(d, w), within w ∧ decided p (with_depths _ _ _ _) d)).
  { intros [d3 w3] [? Hd3]. split; [done|]. eapply decided_iff; [|exact Hd3]. apply source_events. }
  case_bool_decide as Ep.
  - split; [done|]. eapply decided_iff; [|exact Hd2]. intros δ r k q. unfold with_depths at 2. rewrite Ep.
    split; [by left|]. intros [?|(_ & _ & rule & Hr & _)]; [done|]. by apply elem_of_nil in Hr.
  - epose proof (apply_paths_spec (segments p - depth src) ltac:(lia) (depth src + 1) (seg_start p (depth src)) _ d2 w2
                   ltac:(lia) ltac:(lia) ltac:(lia) _ Hd2 Hw2) as H.
    rewrite slice_empty in H. exact H.
    Unshelve. intros Hs. replace (depth src + 1 - 1) with (depth src) by lia. apply (ok_bounds p Hp). lia.
Qed.

End apply.
