(* ===== verification/IgnoreIndexFacts.v ===== *)
(** The index of rule sources finds the directories above a path, whatever its hash. *)

From S2P Require Import Prelude Utf8 Arrays IgnoreTokens IgnoreMatch IgnoreTokenFacts IgnoreNfaFacts IgnoreCompile IgnoreCompileFacts IgnorePathFacts IgnoreDepthFacts IgnoreLimits IgnoreMatcher IgnoreDecideFacts.

Section ids.
  Context (P : RuleSource → Prop) `{∀ s, Decision (P s)}.

(** The numbers, from [n] on, of the sources that satisfy [P]. *)
Definition ids_from (n : nat) (sources : list RuleSource) : list nat := (filter (λ x, P x.2) (zip (seq n (length sources)) sources)).*1.

Lemma ids_from_cons n s sources : ids_from n (s :: sources) = (if decide (P s) then [n] else []) ++ ids_from (S n) sources.
Proof. unfold ids_from. cbn [length seq zip zip_with]. rewrite filter_cons. cbn. by case_decide. Qed.

Lemma ids_from_spec pre sources id :
  id ∈ ids_from (length pre) sources → ∃ s, (pre ++ sources) !! id = Some s ∧ P s.
Proof.
  revert pre. induction sources as [|s sources IH]; intros pre; [by intros ?%elem_of_nil|]. rewrite ids_from_cons, elem_of_app.
  intros [Hid|Hid].
  - case_decide; [|by apply elem_of_nil in Hid]. apply list_elem_of_singleton in Hid as ->. exists s. split; [|done].
    by rewrite lookup_app_r, Nat.sub_diag by lia.
  - replace (S (length pre)) with (length (pre ++ [s])) in Hid by (rewrite length_app; simpl; lia).
    destruct (IH (pre ++ [s]) Hid) as (s' & Hs & ?). rewrite <- app_assoc in Hs. by exists s'.
Qed.

Lemma ids_from_sources pre sources : omap (λ id, (pre ++ sources) !! id) (ids_from (length pre) sources) = filter P sources.
Proof.
  revert pre. induction sources as [|s sources IH]; intros pre; [done|]. rewrite ids_from_cons, omap_app, filter_cons.
  specialize (IH (pre ++ [s])). rewrite <- app_assoc, length_app in IH. cbn [app length] in IH.
  rewrite Nat.add_1_r in IH. rewrite IH. case_decide; [|done]. cbn [omap list_omap]. by rewrite lookup_app_r, Nat.sub_diag by lia.
Qed.

End ids.

(** A parent's directory starts the directory. *)
Definition parents_ok (sources : list RuleSource) : Prop :=
  ∀ s pid, s ∈ sources → parent s = Some pid → ∃ ps, sources !! pid = Some ps ∧ s_bytes ps `prefix_of` s_bytes s.

Section index.
  Context (hashStep : Z → Z → Z) (sources : list RuleSource) (bs : bytes).

Notation hash_step := (hash_step hashStep).

Definition source_hash (s : RuleSource) : Z := foldl hash_step SOURCE_HASH_INITIAL (s_bytes s).

Lemma build_index_bucket rest n index h :
  bucket (buckets (build_index hashStep rest n index)) h = bucket (buckets index) h ++ ids_from (λ s, source_hash s = h) n rest.
Proof using Type.
  revert n index. induction rest as [|s rest IH]; intros n index; cbn [build_index]; [by rewrite app_nil_r|].
  rewrite IH, ids_from_cons. cbn [buckets]. fold (source_hash s). unfold bucket. destruct (decide (source_hash s = h)) as [<-|Hne].
  - rewrite lookup_insert_eq. cbn [default from_option id]. by rewrite <- app_assoc.
  - by rewrite lookup_insert_ne.
Qed.

(** The sources of the directory of the first [n] bytes. *)
Notation of_prefix n := (λ s, s_bytes s = take (Z.to_nat n) bs).

Context (Hparents : parents_ok sources).

Lemma prefix_at {A} (l k : list A) i : l `prefix_of` k → i < zlen l → at_ k i = at_ l i.
Proof using Type. intros [t ->] Hi. by apply at_app_l. Qed.

Lemma suffix_check s v n :
  0 <= v <= zlen (s_bytes s) → 0 <= n <= zlen bs → (∀ i, 0 <= i < v → at_ bs i = at_ (s_bytes s) i) →
  zlen (s_bytes s) = n → sourceSuffixEqual bs (s_bytes s) v = bool_decide (s_bytes s = take (Z.to_nat n) bs).
Proof using Type.
  intros Hv Hn Hag Hl. apply eq_bool_prop_intro. rewrite bool_decide_spec. unfold sourceSuffixEqual.
  rewrite forallb_True, Forall_forall. setoid_rewrite bool_decide_spec. split.
  - intros H. apply at_ext. intros i Hi. destruct (decide (i < n)).
    + rewrite at_take by done. destruct (decide (i < v)); [by rewrite Hag|]. symmetry. apply H, elem_of_seqZ. lia.
    + rewrite !at_ge; [done|rewrite zlen_take; lia|lia].
  - intros -> i Hi%elem_of_seqZ. rewrite at_take; [done|]. rewrite zlen_take in * by lia. lia.
Qed.

Definition found_ok (found : list nat) : Prop := ∀ id, id ∈ found → ∃ s, sources !! id = Some s ∧ s_bytes s `prefix_of` bs.

Lemma check_bucket_spec h index pre rest found w :
  sources = pre ++ rest → 0 <= index < zlen bs → found_ok found → within w →
  (∀ s, s_bytes s = take (Z.to_nat (index + 1)) bs → source_hash s = h) →
  under_limit (λ '(found', w'), within w' ∧ found' = found ++ ids_from (of_prefix (index + 1)) (length pre) rest ∧ found_ok found')
    (check_bucket sources bs index (ids_from (λ s, source_hash s = h) (length pre) rest) found w).
Proof using Hparents.
  intros Hs Hi Hf Hw Hh. revert pre found w Hs Hf Hw. induction rest as [|s rest IH]; intros pre found w Hs Hf Hw.
  { unfold ids_from. cbn. by rewrite app_nil_r. }
  rewrite !ids_from_cons. replace (S (length pre)) with (length (pre ++ [s])) by (rewrite length_app; simpl; lia).
  assert (sources = (pre ++ [s]) ++ rest) as Hs' by (by rewrite <- app_assoc).
  destruct (decide (source_hash s = h)) as [Eh|Eh].
  2:{ rewrite decide_False by (intros E; by apply Eh, Hh). cbn [app]. by apply IH. }
  assert (sources !! length pre = Some s) as Hid by (by rewrite Hs, lookup_app_r, Nat.sub_diag by lia).
  cbn [app check_bucket]. rewrite Hid.
  set (v := match parent s with Some _ => _ | None => 0 end).
  assert (0 <= v <= zlen (s_bytes s) ∧ ∀ i, 0 <= i < v → at_ bs i = at_ (s_bytes s) i) as [Hv Hag].
  { pose proof (zlen_nonneg (s_bytes s)). subst v. destruct (parent s) as [pid|] eqn:Ep; [|split; [lia|intros; lia]].
    case_bool_decide as Hin; [|split; [lia|intros; lia]]. destruct (Hparents s pid ltac:(rewrite Hs; set_solver) Ep) as (ps & Hps & Hpre).
    rewrite Hps. cbn [from_option]. unfold compose. destruct (Hf pid Hin) as (ps' & Hps' & Hpre'). simplify_eq.
    pose proof (zlen_nonneg (s_bytes ps)). split.
    - destruct Hpre as [t ->]. rewrite zlen_app. pose proof (zlen_nonneg t). lia.
    - intros i Hi'. rewrite (prefix_at _ _ i Hpre'), (prefix_at _ _ i Hpre) by lia. done. }
  eapply under_limit_bind; [apply addWork_spec; [lia|done]|]. intros w' [Hw' ->].
  destruct (zlen (s_bytes s) =? index + 1) eqn:El; zbool; cbn [negb].
  - rewrite (suffix_check s v (index + 1)) by (done || lia). case_bool_decide as Eb; cbn [negb].
    + rewrite decide_True by done. rewrite (app_assoc found). apply IH; [done| |done].
      intros id [Hid'|Hid']%elem_of_app; [by apply Hf|]. apply list_elem_of_singleton in Hid' as ->. exists s.
      split; [done|]. rewrite Eb. exists (drop (Z.to_nat (index + 1)) bs). by rewrite take_drop.
    + rewrite decide_False by done. cbn [app]. by apply IH.
  - rewrite decide_False; [cbn [app]; by apply IH|]. intros E. rewrite E, zlen_take in El by lia. lia.
Qed.

(** The sources of the directories that end at the slashes of the path. *)
Definition above (indices : list Z) : list nat :=
  mjoin ((λ i, if byte_is bs (i + 1) 0x2f then ids_from (of_prefix (i + 1)) 0 sources else []) <$> indices).

Lemma ids_of_hash h : bucket (buckets (new_SourceIndex hashStep sources)) h = ids_from (λ s, source_hash s = h) 0 sources.
Proof using Type. unfold new_SourceIndex. rewrite build_index_bucket. done. Qed.

Lemma applicable_loop_spec n :
  0 <= n → ∀ i found w, i + n = zlen bs → 0 <= i → found_ok found → within w →
  under_limit (λ '(found', w'), within w' ∧ found' = found ++ above (seqZ i n))
    (applicable_loop hashStep sources (new_SourceIndex hashStep sources) bs (seqZ i n)
       (foldl hash_step SOURCE_HASH_INITIAL (slice bs 0 i)) found w).
Proof using Hparents.
  intros Hn. pattern n. revert n Hn. apply natlike_ind.
  { intros i found w Hin Hi Hf Hw. split; [done|]. unfold above. cbn. by rewrite app_nil_r. }
  intros n Hn IH i found w Hin Hi Hf Hw. rewrite seqZ_step by done. cbn [applicable_loop].
  destruct (proj2 (at_is_Some bs i) ltac:(lia)) as [b Hb]. rewrite Hb. cbn [default from_option id].
  assert (hash_step (foldl hash_step SOURCE_HASH_INITIAL (slice bs 0 i)) b = foldl hash_step SOURCE_HASH_INITIAL (slice bs 0 (i + 1))) as ->.
  { by rewrite (slice_snoc bs 0 i b), foldl_app by (done || lia). }
  unfold above. rewrite fmap_cons. cbn [mjoin list_join]. destruct (byte_is bs (i + 1) 47); cbn [negb].
  2:{ cbn [app]. apply IH; [lia|lia|done|done]. }
  fold (bucket (buckets (new_SourceIndex hashStep sources)) (foldl hash_step SOURCE_HASH_INITIAL (slice bs 0 (i + 1)))). rewrite ids_of_hash.
  eapply under_limit_bind.
  { apply (check_bucket_spec _ i [] sources found w); [done|lia|done|done|]. intros s E. unfold source_hash. rewrite E.
    unfold slice. by rewrite drop_0, Z.sub_0_r. }
  intros [f' w'] (Hw' & -> & Hf'). eapply under_limit_mono; [|apply (IH (i + 1)); [lia|lia|exact Hf'|done]].
  intros [f2 w2] (? & ->). split; [done|]. by rewrite <- app_assoc.
Qed.

(** The index answers with exactly the sources above the path, outer ones first. *)
Lemma applicable_spec w :
  within w →
  under_limit (λ '(found, w'), within w' ∧ found = above (seqZ 0 (zlen bs)))
    (applicable hashStep sources (new_SourceIndex hashStep sources) bs w).
Proof using Hparents.
  intros Hw. pose proof (zlen_nonneg bs). unfold applicable. case_bool_decide as E.
  - split; [done|]. assert (sources = []) as Hnil.
    { pose proof ids_of_hash as Hb. destruct sources as [|s rest]; [done|]. specialize (Hb (source_hash s)). rewrite E in Hb.
      rewrite ids_from_cons, decide_True in Hb by done. done. }
    unfold above. rewrite Hnil. induction (seqZ 0 (zlen bs)) as [|i l IH]; [done|]. rewrite fmap_cons. cbn [mjoin list_join].
    case_match; exact IH.
  - eapply under_limit_bind; [by apply addWork_spec|]. intros w' [Hw' ->].
    apply (applicable_loop_spec (zlen bs) ltac:(done) 0 [] (w + zlen bs)); [lia|lia| |done].
    intros id ?%elem_of_nil. done.
Qed.

End index.

(** * Parents *)

Lemma last_slash_spec text n k : last_slash text n = Some k → (k < n)%nat ∧ at_ text (Z.of_nat k) = Some 0x2f.
Proof.
  induction n as [|n IH]; [done|]. cbn [last_slash]. case_bool_decide as E.
  - intros [= <-]. split; [lia|done].
  - intros H. destruct (IH H). split; [lia|done].
Qed.

Lemma source_at_spec entries directory id : source_at entries directory = Some id → ∃ e, entries !! id = Some e ∧ e.1 = directory.
Proof.
  unfold source_at. intros H. apply fmap_Some in H as ([i e] & Hl & ->). apply last_Some_elem_of in Hl.
  apply list_elem_of_filter in Hl as [Hd Hin]. exists e. split; [|done].
  apply list_elem_of_lookup in Hin as [k Hk]. apply lookup_zip_with_Some in Hk as (i' & e' & [= -> ->] & Hi & He).
  apply lookup_seq in Hi as [-> _]. done.
Qed.

Section parents.
  Context (entries : list (ustring * RuleSource)).

(** A source of an ancestor directory. *)
Definition parent_at (directory : ustring) (p : option nat) : Prop :=
  ∀ pid, p = Some pid → ∃ e k, entries !! pid = Some e ∧ at_ directory k = Some 0x2f ∧ e.1 = take (Z.to_nat k) directory.

Lemma find_parent_total fuel directory slash :
  head directory ≠ Some 0x2f →
  (∀ k, slash = Some k → (k < fuel)%nat ∧ at_ directory (Z.of_nat k) = Some 0x2f) → (0 < fuel)%nat →
  ∃ p, find_parent fuel entries directory slash = Some p ∧ parent_at directory p.
Proof using Type.
  intros Hhead. revert slash. induction fuel as [|fuel IH]; intros slash Hs Hf; [lia|]. cbn [find_parent].
  destruct slash as [k|]; [|by exists None]. destruct (Hs k eq_refl) as [Hk Hat].
  destruct (source_at entries (take k directory)) as [pid|] eqn:E.
  - exists (Some pid). split; [done|]. intros ? [= <-]. apply source_at_spec in E as (e & He & Hd). exists e, (Z.of_nat k).
    by rewrite Nat2Z.id.
  - assert (k ≠ 0%nat) as Hk0 by (intros ->; destruct directory; [done|]; by apply Hhead).
    replace (Nat.max 1 k) with k by lia. apply IH; [|lia]. intros k' Hk'. apply last_slash_spec in Hk' as [? ?]. split; [lia|done].
Qed.

(** A directory that starts with a slash is searched for ever: [lastIndexOf("/", -1)] finds
    its first character again and again. *)
Lemma find_parent_loops fuel directory :
  head directory = Some 0x2f → source_at entries [] = None → find_parent fuel entries directory (Some 0%nat) = None.
Proof using Type.
  intros Hd He. induction fuel as [|fuel IH]; [done|]. cbn [find_parent]. change (take 0 directory) with (@nil Z). rewrite He.
  assert (last_slash directory (Nat.max 1 0) = Some 0%nat) as ->; [|done].
  cbn. destruct directory as [|u d]; [done|]. cbn in Hd. by simplify_eq.
Qed.

Lemma link_parents_total todo :
  Forall (λ e, head e.1 ≠ Some 0x2f) todo →
  ∃ sources, link_parents entries todo = Some sources ∧
    Forall2 (λ e s, ∃ p, s = set_parent e.2 p ∧ parent_at e.1 p) todo sources.
Proof using Type.
  induction 1 as [|[directory src] todo Hh Htodo IH]; [by exists []; split; [|constructor]|]. cbn [link_parents].
  destruct (find_parent_total (S (length directory)) directory (last_slash directory (length directory)) Hh) as (p & -> & Hp).
  { intros k Hk. apply last_slash_spec in Hk as [? ?]. split; [lia|done]. }
  { lia. }
  destruct IH as (rest & -> & Hrest). cbn [mbind option_bind]. eexists. split; [done|]. constructor; [by exists p|done].
Qed.

End parents.

Lemma encode_prefix directory k : at_ directory k = Some 0x2f → encode (take (Z.to_nat k) directory) `prefix_of` encode directory.
Proof.
  intros Hk. pose proof (at_bound _ _ _ Hk). exists (encode (drop (Z.to_nat k) directory)).
  rewrite <- encode_app_boundary; [by rewrite take_drop|]. unfold at_ in Hk. rewrite (proj2 (Z.ltb_ge _ _)) in Hk by lia.
  by rewrite (drop_S _ _ _ Hk).
Qed.
