(* ===== verification/IgnoreMatcherFacts.v ===== *)
(** The matcher against its specification: a path is ignored when, at one of its depths, the
    last rule that matches (extra rules, then the root's, then those of ever deeper
    directories, each file in line order) is not negated. *)

From S2P Require Import Prelude Utf8 Arrays IgnoreTokens IgnoreMatch IgnoreTokenFacts IgnoreNfaFacts IgnoreCompile IgnoreCompileFacts IgnorePathFacts IgnoreDepthFacts IgnoreLimits IgnoreMatcher IgnoreDecideFacts IgnoreIndexFacts.

Notation rule_file := (ustring * list IgnorePattern)%type.

(** * The specification *)

(** The rules in force for a path, by the depth of their directory, weakest first. *)
Definition root_rules (rules : list rule_file) : list (Z * list IgnorePattern) :=
  option_list ((λ r, (0, r.2)) <$> last (filter (λ r, encode r.1 = []) rules)).

Definition directory_rules (rules : list rule_file) (bs : bytes) : list (Z * list IgnorePattern) :=
  mjoin ((λ i, if byte_is bs (i + 1) SLASH
               then (λ r, (directory_depth (encode r.1), r.2)) <$> filter (λ r, encode r.1 = take (Z.to_nat (i + 1)) bs) rules
               else []) <$> seqZ 0 (zlen bs)).

Definition rules_above (rules : list rule_file) (extra : list IgnorePattern) (bs : bytes) : list (Z * list IgnorePattern) :=
  (0, extra) :: root_rules rules ++ directory_rules rules bs.

(** At a depth, the rules of the [r]-th file that match, with their lines. *)
Definition matching (files : list (Z * list IgnorePattern)) (p : EncodedPath) (isDirectory : bool) (depth r k : Z) (q : IgnorePattern) : Prop :=
  ∃ top pats, at_ files (r - 1) = Some (top, pats) ∧ at_ pats k = Some q ∧ rule_matches q p top isDirectory depth.

Definition ignored (files : list (Z * list IgnorePattern)) (p : EncodedPath) (isDirectory : bool) : Prop :=
  ∃ depth r k q, 1 <= depth <= segments p ∧ last_match (matching files p isDirectory) depth r k q ∧ negated q = false.

(** * Applying every source *)

Section all.
  Context (p : EncodedPath) (Hp : path_ok p) (isDirectory : bool) (hashes : list Z).

(** A source built from a file of rules. *)
Record source_for (file : Z * list IgnorePattern) (src : RuleSource) : Prop := {
  for_source : source_ok file.2 src;
  for_depth : depth src = file.1;
  for_range : 0 <= file.1 <= segments p;
  for_compiled : Forall (compiled_ok ∘ compiled) file.2;
  for_bytes : zlen (s_bytes src) <= zlen (e_bytes p)
}.

Definition hashes_ok (src : RuleSource) : Prop :=
  basenames src ≠ ∅ → ∀ i, 0 <= i < segments p → at_ hashes i = Some (hash_of (segment p (i + 1))).

Lemma apply_all_spec files sources rank ev d w :
  Forall2 source_for files sources → Forall hashes_ok sources → 1 <= rank → decided p ev d → within w →
  under_limit (λ '(d, w), within w ∧ decided p (λ δ r k q, ev δ r k q ∨ (rank <= r ∧ matching files p isDirectory δ (r - rank + 1) k q)) d)
    (apply_all p isDirectory hashes sources rank d w).
Proof using Hp.
  intros H. revert rank ev d w. induction H as [|[top pats] src files sources [Hs Hd Hr Hc _] Hrest IH]; intros rank ev d w Hh Hrank Hdec Hw; cbn [apply_all].
  { split; [done|]. eapply decided_iff; [|exact Hdec]. intros δ r k q. split; [by left|].
    intros [?|(_ & ? & ? & Hat & _)]; [done|]. by rewrite at_nil in Hat. }
  apply Forall_cons in Hh as [Hh Hhs]. cbn in Hs, Hd, Hr, Hc.
  eapply under_limit_bind; [by apply (apply_source_spec p isDirectory hashes Hp pats src Hs Hc); [lia|done|lia|..]|].
  intros [d' w'] [Hw' Hd']. eapply under_limit_mono; [|apply (IH (rank + 1) _ d' w' Hhs ltac:(lia) Hd' Hw')].
  intros [d2 w2] [? Hd2]. split; [done|]. eapply decided_iff; [|exact Hd2]. intros δ r k q. unfold with_source, matching. split.
  - intros [[?|(-> & Hk & Hm)]|(Hr' & top' & pats' & Hat & ?)]; [by left|right..].
    + split; [lia|]. exists top, pats. replace (rank - rank + 1 - 1) with 0 by lia. split_and!; [done|done|by rewrite <- Hd].
    + split; [lia|]. exists top', pats'. rewrite at_cons by lia. replace (r - rank + 1 - 1 - 1) with (r - (rank + 1) + 1 - 1) by lia. done.
  - intros [?|(Hr' & top' & pats' & Hat & Hk & Hm)]; [by left; left|]. destruct (decide (r = rank)) as [->|].
    + left. right. replace (rank - rank + 1 - 1) with 0 in Hat by lia. injection Hat as <- <-. by rewrite Hd.
    + right. split; [lia|]. exists top', pats'. rewrite at_cons in Hat by lia. replace (r - (rank + 1) + 1 - 1) with (r - rank + 1 - 1 - 1) by lia. done.
Qed.

Lemma path_work_spec files sources w : Forall2 source_for files sources → within w → under_limit within (path_work p sources w).
Proof using Type.
  intros H. revert w. induction H as [|file src files sources [_ _ _ _ Hb] Hrest IH]; intros w Hw; cbn [path_work]; [done|].
  eapply (under_limit_bind within); [|exact IH]. case_bool_decide; [done|]. eapply under_limit_mono; [|apply addWork_spec; [lia|done]].
  by intros w' [? _].
Qed.

Lemma hash_segments_at i : 0 <= i < segments p → at_ (hash_segments p) i = Some (hash_of (segment p (i + 1))).
Proof using Hp.
  intros Hi. unfold hash_segments. rewrite at_fmap.
  assert (at_ (seqZ 1 (segments p)) i = Some (i + 1)) as ->.
  { unfold at_. rewrite (proj2 (Z.ltb_ge _ _)) by lia. rewrite lookup_seqZ_lt by lia. f_equal. lia. }
  cbn [fmap option_fmap option_map]. f_equal. fold (seg_start p (i + 1 - 1)) (seg_end p (i + 1 - 1)).
  replace (i + 1 - 1) with i by lia. destruct (ok_bounds p Hp i Hi). rewrite hashBytes_slice by done.
  unfold segment. by replace (i + 1 - 1) with i by lia.
Qed.

(** The answer from the decisions: some depth's last rule ignores it. *)
Lemma decided_ignored ev d :
  (∀ δ r k q q', ev δ r k q → ev δ r k q' → q = q') → decided p ev d →
  existsb (λ depth, bool_decide (at_ (decisions d) (depth - 1) = Some 2)) (seqZ 1 (segments p)) = true ↔
  ∃ depth r k q, 1 <= depth <= segments p ∧ last_match ev depth r k q ∧ negated q = false.
Proof using Type.
  intros Hone (_ & _ & Hd). rewrite existsb_exists. setoid_rewrite bool_decide_eq_true. split.
  - intros (δ & Hin & Hv). apply list_elem_of_In, elem_of_seqZ in Hin. destruct (Hd δ ltac:(lia)) as (v & s & l & Hv' & _ & _ & Hor).
    rewrite Hv in Hv'. injection Hv' as <-. destruct Hor as [(_ & _ & ? & _)|(q & Hq & Hverdict)]; [done|].
    exists δ, s, (l - 1), q. split_and!; [lia|lia|done|]. unfold verdict in Hverdict. by destruct (negated q).
  - intros (δ & r & k & q & Hδ & [Hq Hmax] & Hn). destruct (Hd δ Hδ) as (v & s & l & Hv & _ & _ & Hor).
    exists δ. split; [apply list_elem_of_In, elem_of_seqZ; lia|]. rewrite Hv. f_equal.
    destruct Hor as [(_ & _ & _ & Hno)|(q' & [Hq' Hmax'] & ->)]; [by destruct (Hno r k q)|].
    pose proof (Hmax _ _ _ Hq'). pose proof (Hmax' _ _ _ Hq).
    assert (s = r ∧ l - 1 = k) as [<- <-] by lia. rewrite (Hone _ _ _ _ _ Hq' Hq). unfold verdict. by rewrite Hn.
Qed.

End all.

(** * Building the matcher *)

(** The directories with rules, but the root. *)
Definition below_root (rules : list rule_file) : list rule_file := filter (λ r, encode r.1 ≠ []) rules.

Definition source_of (r : rule_file) : RuleSource := compileRuleSource (encode r.1) (directory_depth (encode r.1)) r.2.

Lemma zlen_zero {A} (l : list A) : (zlen l =? 0) = bool_decide (l = []).
Proof. destruct l; [done|]. rewrite zlen_cons. pose proof (zlen_nonneg l). case_bool_decide; [done|]. apply Z.eqb_neq. lia. Qed.

Lemma compile_sources_spec rules root acc :
  compile_sources rules root acc =
  (match last (filter (λ r, encode r.1 = []) rules) with Some r => Some (source_of r) | None => root end,
   acc ++ ((λ r, (r.1, source_of r)) <$> below_root rules)).
Proof.
  revert root acc. induction rules as [|[directory pats] rules IH]; intros root acc; cbn [compile_sources].
  { by rewrite app_nil_r. }
  rewrite zlen_zero. unfold below_root. rewrite !filter_cons. cbn [fst]. case_bool_decide as E; rewrite IH.
  - rewrite (decide_True (P := encode directory = [])), (decide_False (P := encode directory ≠ [])) by naive_solver.
    f_equal. rewrite last_cons. by case_match.
  - rewrite (decide_False (P := encode directory = [])), (decide_True (P := encode directory ≠ [])) by done.
    by rewrite <- app_assoc.
Qed.

(** A source of the index, with its parent. *)
Record indexed (r : rule_file) (src : RuleSource) : Prop := {
  ix_source : source_ok r.2 src;
  ix_bytes : s_bytes src = encode r.1;
  ix_depth : depth src = directory_depth (encode r.1)
}.

Lemma source_of_indexed r : indexed r (source_of r).
Proof. destruct (compileRuleSource_ok (encode r.1) (directory_depth (encode r.1)) r.2) as (? & ? & ? & _). by split. Qed.

Lemma set_parent_indexed r src p : indexed r src → indexed r (set_parent src p).
Proof. intros [[] ? ?]. by split. Qed.

Section build.
  Context (hashStep : Z → Z → Z) (rules : list rule_file) (extra : list IgnorePattern).
  Context (Hrooted : Forall (λ r, head r.1 ≠ Some SLASH) rules).

Record built (m : WorktreeIgnoreMatcher) : Prop := {
  b_root : rootSource m = source_of <$> last (filter (λ r, encode r.1 = []) rules);
  b_index : sourceIndex m = new_SourceIndex hashStep (w_sources m);
  b_extra : extraSource m = compileRuleSource [] 0 extra;
  b_hasRules : hasRules m = bool_decide (rootSource m ≠ None) || (0 <? zlen (w_sources m)) || bool_decide (paths (extraSource m) ≠ ∅) ||
    bool_decide (basenames (extraSource m) ≠ ∅) || (0 <? zlen (dynamic (extraSource m)));
  b_sources : Forall2 indexed (below_root rules) (w_sources m);
  b_parents : parents_ok (w_sources m)
}.

Lemma matcher_built : ∃ m, new_WorktreeIgnoreMatcher hashStep rules extra = Some m ∧ built m.
Proof using Hrooted.
  unfold new_WorktreeIgnoreMatcher. rewrite compile_sources_spec. cbn [app].
  set (entries := (λ r, (r.1, source_of r)) <$> below_root rules).
  destruct (link_parents_total entries entries) as (sources & Hlink & Hall).
  { unfold entries. apply Forall_fmap, Forall_forall. intros r [_ Hr]%list_elem_of_filter. by apply (proj1 (Forall_forall _ _) Hrooted). }
  rewrite Hlink. cbn [mbind option_bind]. eexists. split; [done|].
  assert (Forall2 indexed (below_root rules) sources) as Hix.
  { apply Forall2_fmap_l in Hall. apply (Forall2_impl _ _ _ _ Hall). intros r src (pr & -> & _).
    apply set_parent_indexed, source_of_indexed. }
  split; cbn [rootSource w_sources sourceIndex extraSource hasRules]; try done.
  intros src pid Hin Hpid. apply list_elem_of_lookup in Hin as [i Hi].
    destruct (Forall2_lookup_r _ _ _ _ _ Hall Hi) as (e & He & pr & -> & Hpar). cbn [parent set_parent] in Hpid.
    destruct (Hpar pid Hpid) as (e' & k & He' & Hk & Hd). destruct (Forall2_lookup_l _ _ _ _ _ Hall He') as (ps & Hps & pr' & -> & _).
    exists (set_parent e'.2 pr'). split; [done|]. unfold entries in He, He'. apply list_lookup_fmap_Some in He as (r & -> & _), He' as (r' & -> & _).
    cbn in *. rewrite (ix_bytes _ _ (source_of_indexed r)), (ix_bytes _ _ (source_of_indexed r')), Hd. by apply encode_prefix.
Qed.

End build.

(** * The files in force *)

Lemma Forall2_filter_rel {A B} (R : A → B → Prop) (P : A → Prop) (Q : B → Prop) `{∀ x, Decision (P x)} `{∀ y, Decision (Q y)} l k :
  (∀ x y, R x y → P x ↔ Q y) → Forall2 R l k → Forall2 R (filter P l) (filter Q k).
Proof.
  intros HPQ. induction 1 as [|x y l k Hxy _ IH]; [constructor|]. rewrite !filter_cons.
  destruct (decide (P x)) as [HP|HP], (decide (Q y)) as [HQ|HQ]; [by constructor|by destruct HQ; apply (HPQ x y Hxy)|by destruct HP; apply (HPQ x y Hxy)|done].
Qed.

Lemma omap_mjoin {A B} (f : A → option B) (ls : list (list A)) : omap f (mjoin ls) = mjoin (omap f <$> ls).
Proof. induction ls as [|l ls IH]; [done|]. by rewrite fmap_cons, !mjoin_cons, omap_app, IH. Qed.

Lemma directory_depth_slashes bs : bs ≠ [] → directory_depth bs = slashes bs + 1.
Proof.
  intros Hne. unfold directory_depth. pose proof (fold_slashes bs 0) as Hf. unfold SLASH in Hf. rewrite Hf.
  assert (0 < zlen bs) by (destruct bs; [done|]; rewrite zlen_cons; pose proof (zlen_nonneg bs); lia).
  rewrite (proj2 (Z.ltb_lt _ _)) by done. lia.
Qed.

Lemma filter_below (P : rule_file → Prop) `{∀ r, Decision (P r)} rules :
  (∀ r, P r → encode r.1 ≠ []) → filter P (below_root rules) = filter P rules.
Proof.
  intros HP. unfold below_root. induction rules as [|r rules IH]; [done|]. rewrite !(filter_cons _ r).
  destruct (decide (encode r.1 ≠ [])) as [Hne|Hne]; [rewrite filter_cons, IH; done|].
  rewrite IH. destruct (decide (P r)) as [Hr|]; [by destruct (Hne (HP r Hr))|done].
Qed.

Section force.
  Context (hashStep : Z → Z → Z) (rules : list rule_file) (extra : list IgnorePattern) (m : WorktreeIgnoreMatcher).
  Context (Hbuilt : built hashStep rules extra m).
  Context (Hrules : Forall (λ r, Forall (compiled_ok ∘ compiled) r.2) rules) (Hextra : Forall (compiled_ok ∘ compiled) extra).
  Context (bs : bytes).

Notation p := (encodePathBytes bs).

Lemma segments_slashes : segments p = 1 + slashes bs.
Proof using Type. unfold encodePathBytes. cbn [segments]. apply fold_slashes. Qed.

Lemma slashes_bounds l : 0 <= slashes l.
Proof using Type. apply zlen_nonneg. Qed.

Lemma extra_source : source_for p (0, extra) (extraSource m).
Proof using Hbuilt Hextra.
  rewrite (b_extra _ _ _ _ Hbuilt). destruct (compileRuleSource_ok [] 0 extra) as (Hs & Hb & Hd & _).
  pose proof segments_slashes. pose proof (slashes_bounds bs).
  split; cbn [fst snd]; [done|done|lia|done|]. rewrite Hb. apply zlen_nonneg.
Qed.

Lemma root_sources : Forall2 (source_for p) (root_rules rules) (option_list (rootSource m)).
Proof using Hbuilt Hrules.
  rewrite (b_root _ _ _ _ Hbuilt). unfold root_rules. destruct (last _) as [r|] eqn:E; [|constructor].
  apply last_Some_elem_of, list_elem_of_filter in E as [He Hin]. constructor; [|constructor].
  destruct (source_of_indexed r) as [Hs Hb Hd]. rewrite He in Hb, Hd. pose proof segments_slashes. pose proof (slashes_bounds bs).
  split; cbn [fst snd]; [done|done|lia| |rewrite Hb; apply zlen_nonneg]. by apply (proj1 (Forall_forall _ _) Hrules).
Qed.

Lemma directory_source i r src :
  byte_is bs (i + 1) SLASH = true → 0 <= i → r ∈ rules → encode r.1 = take (Z.to_nat (i + 1)) bs → indexed r src →
  source_for p (directory_depth (encode r.1), r.2) src.
Proof using Hrules.
  intros Hslash Hi Hin He [Hs Hb Hd]. apply bool_decide_eq_true in Hslash. pose proof (at_bound _ _ _ Hslash).
  pose proof (zlen_take bs (i + 1) ltac:(lia)) as Hl.
  assert (slashes bs = slashes (take (Z.to_nat (i + 1)) bs) + 1 + slashes (drop (Z.to_nat (i + 2)) bs)) as Hsl.
  { assert (bs = take (Z.to_nat (i + 1)) bs ++ SLASH :: drop (Z.to_nat (i + 2)) bs) as E.
    { rewrite <- (take_drop (Z.to_nat (i + 1)) bs) at 1. f_equal. unfold at_ in Hslash.
      rewrite (proj2 (Z.ltb_ge _ _)) in Hslash by lia. rewrite (drop_S _ _ _ Hslash). do 2 f_equal. lia. }
    rewrite E at 1. rewrite slashes_app, slashes_cons, Z.eqb_refl. lia. }
  pose proof segments_slashes. pose proof (slashes_bounds (take (Z.to_nat (i + 1)) bs)). pose proof (slashes_bounds (drop (Z.to_nat (i + 2)) bs)).
  split; cbn [fst snd]; [done|by rewrite Hd| | |by rewrite Hb, He; cbn [e_bytes encodePathBytes]; lia].
  - rewrite He, directory_depth_slashes; [lia|]. intros E. rewrite E in Hl. change (zlen []) with 0 in Hl. lia.
  - by apply (proj1 (Forall_forall _ _) Hrules).
Qed.

Lemma directory_sources indices :
  Forall (λ i, 0 <= i) indices →
  Forall2 (source_for p)
    (mjoin ((λ i, if byte_is bs (i + 1) SLASH
               then (λ r, (directory_depth (encode r.1), r.2)) <$> filter (λ r, encode r.1 = take (Z.to_nat (i + 1)) bs) rules
               else []) <$> indices))
    (omap (λ id, w_sources m !! id) (above (w_sources m) bs indices)).
Proof using Hbuilt Hrules.
  unfold above. rewrite omap_mjoin. induction 1 as [|i indices Hi _ IH]; [constructor|]. rewrite !fmap_cons, !mjoin_cons.
  apply Forall2_app; [|exact IH]. clear IH. change 0x2f with SLASH. destruct (byte_is bs (i + 1) SLASH) eqn:Es; [|constructor].
  rewrite (ids_from_sources _ [] (w_sources m)). apply Forall2_fmap_l.
  assert (∀ r : rule_file, encode r.1 = take (Z.to_nat (i + 1)) bs → encode r.1 ≠ []) as Hne.
  { intros r -> E. apply bool_decide_eq_true, at_bound in Es. pose proof (zlen_take bs (i + 1) ltac:(lia)) as Hl. rewrite E in Hl.
    change (zlen []) with 0 in Hl. lia. }
  rewrite <- (filter_below _ rules Hne).
  pose proof (Forall2_filter_rel indexed (λ r, encode r.1 = take (Z.to_nat (i + 1)) bs) (λ s, s_bytes s = take (Z.to_nat (i + 1)) bs)
                _ _ ltac:(intros r s Hrs; cbn beta; by rewrite (ix_bytes _ _ Hrs)) (b_sources _ _ _ _ Hbuilt)) as Hf.
  apply Forall2_same_length_lookup. split; [by apply Forall2_length in Hf|]. intros j r src Hr Hs.
  pose proof (Forall2_lookup_lr _ _ _ _ _ _ Hf Hr Hs) as Hix. apply list_elem_of_lookup_2, list_elem_of_filter in Hr as [He Hin].
  apply list_elem_of_filter in Hin as [_ Hin]. by apply (directory_source i).
Qed.

(** The sources the matcher applies are those of the files in force. *)
Lemma sources_in_force :
  Forall2 (source_for p) (rules_above rules extra bs)
    (extraSource m :: option_list (rootSource m) ++ omap (λ id, w_sources m !! id) (above (w_sources m) bs (seqZ 0 (zlen bs)))).
Proof using Hbuilt Hrules Hextra.
  constructor; [apply extra_source|]. apply Forall2_app; [apply root_sources|]. apply directory_sources.
  apply Forall_forall. intros i Hi%elem_of_seqZ. lia.
Qed.

Lemma matching_one isDirectory δ r k q q' :
  matching (rules_above rules extra bs) p isDirectory δ r k q → matching (rules_above rules extra bs) p isDirectory δ r k q' → q = q'.
Proof using Type. intros (top & pats & H1 & H2 & _) (top' & pats' & H1' & H2' & _). congruence. Qed.

(** Without rules nothing matches. *)
Lemma no_rules_match isDirectory δ r k q : hasRules m = false → ¬ matching (rules_above rules extra bs) p isDirectory δ r k q.
Proof using Hbuilt Hrules Hextra.
  intros Hno (top & pats & Hf & Hk & Hm). rewrite (b_hasRules _ _ _ _ Hbuilt) in Hno.
  apply orb_false_iff in Hno as [Hno Hdy]. apply orb_false_iff in Hno as [Hno Hba]. apply orb_false_iff in Hno as [Hno Hpa].
  apply orb_false_iff in Hno as [Hro Hso]. apply bool_decide_eq_false, dec_stable in Hro, Hba, Hpa. zbool.
  pose proof sources_in_force as Hall. rewrite Hro in Hall.
  assert (w_sources m = []) as Hnil by (destruct (w_sources m) as [|s l]; [done|]; rewrite zlen_cons in Hso; pose proof (zlen_nonneg l); lia).
  rewrite Hnil in Hall. assert (∀ l : list nat, omap (λ id, ([] : list RuleSource) !! id) l = []) as Hom by (induction l; done).
  rewrite Hom in Hall. unfold rules_above in Hf. apply Forall2_cons in Hall as [Hex Hrest]. apply Forall2_nil_inv_r in Hrest.
  rewrite Hrest in Hf. assert (r - 1 = 0) as Hr by (apply at_bound in Hf; unfold zlen in Hf; simpl in Hf; lia).
  rewrite Hr in Hf. injection Hf as <- <-. destruct Hex as [[Hb Hp Hd] _ _ _ _]. cbn [fst snd] in *. rewrite Hba in Hb. rewrite Hpa in Hp.
  assert (dynamic (extraSource m) = []) as Hdn by (destruct (dynamic _) as [|x l]; [done|]; rewrite zlen_cons in Hdy; pose proof (zlen_nonneg l); lia).
  rewrite Hdn in Hd. destruct Hm as (_ & Hm & _). unfold pattern_matches in Hm.
  destruct (compiled q) as [l|l|anchored tokens pre suf star segs|states pre|] eqn:Ec; try done.
  - by apply (elem_of_nil (mkRule q l k)), (Hb (hash_of l)).
  - by apply (elem_of_nil (mkRule q l k)), (Hp (hash_of l)).
  - apply (elem_of_nil (mkRule q [] k)), Hd. cbn. unfold patternLiteral, patternMatchesNever. by rewrite Ec.
  - apply (elem_of_nil (mkRule q [] k)), Hd. cbn. unfold patternLiteral, patternMatchesNever. by rewrite Ec.
Qed.

(** The work of a query is limited; within the limit it decides [ignored]. *)
Lemma ignores_work isDirectory work :
  within work →
  under_limit (λ b, b = true ↔ ignored (rules_above rules extra bs) p isDirectory)
    ('(ids, work) ← applicable hashStep (w_sources m) (sourceIndex m) (e_bytes p) work;
     let sources := option_list (rootSource m) ++ omap (λ id, w_sources m !! id) ids in
     work ← path_work p sources work;
     let hashed := negb (bool_decide (basenames (extraSource m) = ∅)) ||
                   existsb (λ s, negb (bool_decide (basenames s = ∅))) sources in
     work ← (if (hashed : bool) then addWork work (zlen (e_bytes p)) else mret work);
     let segmentHashes := if hashed then hash_segments p else replicate (Z.to_nat (segments p)) 0 in
     let blank := replicate (Z.to_nat (segments p)) 0 in
     '(d, _) ← apply_all p isDirectory segmentHashes (extraSource m :: sources) 1 (mkDecisions blank blank blank) work;
     mret (existsb (λ depth, bool_decide (at_ (decisions d) (depth - 1) = Some 2)) (seqZ 1 (segments p)))).
Proof using Hbuilt Hrules Hextra.
  intros Hw. pose proof (encodePathBytes_ok bs) as Hp. pose proof sources_in_force as Hall.
  rewrite (b_index _ _ _ _ Hbuilt).
  eapply under_limit_bind; [by apply applicable_spec; [apply (b_parents _ _ _ _ Hbuilt)|]|]. intros [ids w1] [Hw1 ->].
  cbn [e_bytes encodePathBytes]. set (sources := option_list _ ++ _) in *. cbv zeta.
  eapply under_limit_bind; [eapply path_work_spec; [by apply Forall2_cons in Hall as [_ ?]|done]|]. intros w2 Hw2.
  set (hashed := _ || _). eapply (under_limit_bind within).
  { destruct hashed; [|done]. eapply under_limit_mono; [|apply addWork_spec; [apply zlen_nonneg|done]]. by intros w' [? _]. }
  intros w3 Hw3. eapply under_limit_bind.
  { eapply apply_all_spec; [done|exact Hall| |done|apply decided_blank; pose proof (ok_some p Hp); lia|done].
    apply Forall_forall. intros src Hsrc Hne i Hi. assert (hashed = true) as ->; [|by apply hash_segments_at].
    apply orb_true_iff. apply elem_of_cons in Hsrc as [->|Hsrc].
    - left. by apply negb_true_iff, bool_decide_eq_false.
    - right. apply existsb_exists. exists src. split; [by apply list_elem_of_In|]. by apply negb_true_iff, bool_decide_eq_false. }
  intros [d w4] [_ Hd]. apply (decided_ignored p (matching (rules_above rules extra bs) p isDirectory) d).
  { intros *. apply matching_one. }
  eapply decided_iff; [|exact Hd]. intros δ r k q. cbn beta. replace (r - 1 + 1) with r by lia. split; [intros [H|[_ H]]; [destruct H|exact H]|].
  intros H. right. split; [|done]. destruct H as (top & pats & Hat & _). apply at_bound in Hat. lia.
Qed.

End force.

(** * The length of a query *)

(** A unit, or a pair, and its bytes. *)
Lemma encode_unit u rest :
  unit_ok u → (is_high u = false ∨ ∀ low tail, rest = low :: tail → is_low low = false) →
  zlen (encode (u :: rest)) = (if u <? 0x80 then 1 else if u <? 0x800 then 2 else 3) + zlen (encode rest).
Proof.
  intros Hu Hpair. rewrite <- (point_bytes_unit u Hu).
  assert (∀ l, zlen (encode l) = zlen (flat_map point_bytes (points l))) as Henc by done.
  assert (is_surrogate u = true → zlen (point_bytes u) = 3) as H3.
  { intros Hs. rewrite (point_bytes_unit u Hu). unfold is_surrogate in Hs. zbool. by zdec. }
  destruct (is_high u) eqn:Eh.
  - assert (points (u :: rest) = REPLACEMENT :: points rest) as Ep.
    { cbn [points]. rewrite Eh. destruct rest as [|low tail]; [done|]. destruct Hpair as [|Hl]; [done|]. by rewrite (Hl low tail eq_refl). }
    rewrite !Henc, Ep. cbn [flat_map]. rewrite zlen_app, H3; [done|]. unfold is_high, is_surrogate in *. zbool. by zdec.
  - destruct (is_low u) eqn:El.
    + assert (points (u :: rest) = REPLACEMENT :: points rest) as Ep by (cbn [points]; by rewrite Eh, El).
      rewrite !Henc, Ep. cbn [flat_map]. rewrite zlen_app, H3; [done|]. unfold is_low, is_surrogate in *. zbool. by zdec.
    + rewrite !Henc, points_single by done. cbn [flat_map]. by rewrite zlen_app.
Qed.

(** A pass of the loop: the units it reads, their bytes, and what is left. *)
Lemma boundedUtf8Bytes_step u rest limit count :
  Forall unit_ok (u :: rest) →
  ∃ k left, 0 <= k ∧ (length left <= length rest)%nat ∧ Forall unit_ok left ∧ zlen (encode (u :: rest)) = k + zlen (encode left) ∧
    boundedUtf8Bytes_loop (u :: rest) limit count =
    if limit <? count + k then limit + 1 else boundedUtf8Bytes_loop left limit (count + k).
Proof.
  intros [Hu Hrest]%Forall_cons. cbn [boundedUtf8Bytes_loop]. fold (is_high u).
  assert (∀ c, match rest with [] => c | _ :: _ => boundedUtf8Bytes_loop rest limit c end = boundedUtf8Bytes_loop rest limit c) as Hnext
    by (intros c; by destruct rest).
  pose proof (encode_unit u rest Hu) as Hone. destruct (is_high u) eqn:Eh.
  - assert ((u <? 128) = false ∧ (u <? 2048) = false) as [E1 E2] by (unfold is_high in Eh; zbool; by split; apply Z.ltb_ge; lia).
    change 0x80 with 128 in *. change 0x800 with 2048 in *. rewrite E1, E2 in *.
    destruct rest as [|low rest].
    + exists 3, []. split_and!; [lia|done|done|apply Hone; right; done|done].
    + fold (is_low low). destruct (is_low low) eqn:El.
      * exists 4, rest. apply Forall_cons in Hrest as [_ Hrest]. split_and!; [lia|cbn; lia|done| |done].
        unfold encode. rewrite points_pair by done. cbn [flat_map]. by rewrite zlen_app, point_bytes_pair.
      * exists 3, (low :: rest). split_and!; [lia|done|done|apply Hone; right; by intros ? ? [= -> ->]|done].
  - exists (if u <? 128 then 1 else if u <? 2048 then 2 else 3), rest.
    split_and!; [by repeat destruct (_ <? _)|done|done|by apply Hone; left|].
    destruct (u <? 128), (u <? 2048); (destruct (limit <? _); [done|apply Hnext]).
Qed.

Lemma boundedUtf8Bytes_loop_spec limit n value count :
  (length value <= n)%nat → Forall unit_ok value → 0 <= count <= limit →
  boundedUtf8Bytes_loop value limit count =
  if count + zlen (encode value) <=? limit then count + zlen (encode value) else limit + 1.
Proof.
  revert value count. induction n as [|n IH]; intros [|u rest] count Hn Hu Hc; cbn [length] in Hn; try lia.
  1,2: change (zlen (encode [])) with 0; cbn; by rewrite Z.add_0_r, (proj2 (Z.leb_le _ _)) by lia.
  destruct (boundedUtf8Bytes_step u rest limit count Hu) as (k & left & Hk & Hlen & Hleft & -> & ->).
  pose proof (zlen_nonneg (encode left)). destruct (limit <? count + k) eqn:E; zbool.
  - by rewrite (proj2 (Z.leb_gt _ _)) by lia.
  - rewrite (IH left (count + k)); [by rewrite Z.add_assoc|lia|exact Hleft|lia].
Qed.

(** The length in UTF-8 of a string that fits, one more than the limit otherwise. *)
Lemma boundedUtf8Bytes_spec value limit :
  Forall unit_ok value → 0 <= limit →
  boundedUtf8Bytes value limit = if zlen (encode value) <=? limit then zlen (encode value) else limit + 1.
Proof. intros Hu Hl. unfold boundedUtf8Bytes. by rewrite (boundedUtf8Bytes_loop_spec limit (length value)). Qed.

(** * The matcher *)

Notation from_line := (λ q, ∃ line, compilePatternBytes line = Some (Some q)).

Lemma from_line_ok q : from_line q → compiled_ok (compiled q).
Proof.
  intros (line & Hl). destruct (compilePatternBytes_total line) as (r & Hr & Hok). rewrite Hl in Hr.
  injection Hr as <-. exact Hok.
Qed.

Lemma ignores_spec hashStep rules extra m query isDirectory :
  built hashStep rules extra m → Forall (λ r, Forall (compiled_ok ∘ compiled) r.2) rules → Forall (compiled_ok ∘ compiled) extra →
  Forall unit_ok query → query ≠ [] →
  let size := zlen (encode query) in
  if size <=? IGNORE_LIMITS QueryBytes
  then under_limit (λ b, b = true ↔ ignored (rules_above rules extra (encode query)) (encodePath query) isDirectory)
         (ignores hashStep m query isDirectory)
  else ignores hashStep m query isDirectory =
       Some (Limited (mkLimitError QueryBytes (IGNORE_LIMITS QueryBytes) (IGNORE_LIMITS QueryBytes + 1) None)).
Proof.
  intros Hb Hrules Hextra Hu Hne. cbv zeta. unfold ignores. rewrite bool_decide_eq_false_2 by done. cbv zeta.
  pose proof (boundedUtf8Bytes_spec query (IGNORE_LIMITS QueryBytes) Hu ltac:(done)) as ->.
  destruct (zlen (encode query) <=? IGNORE_LIMITS QueryBytes) eqn:E; zbool.
  - rewrite (proj2 (Z.ltb_ge _ _)) by lia. destruct (hasRules m) eqn:Eh; cbn [negb].
    + eapply (under_limit_bind within); [|intros w Hw; by apply (ignores_work hashStep)].
      case_bool_decide; [done|]. eapply under_limit_mono; [|apply addWork_spec; [apply zlen_nonneg|done]]. by intros w [? _].
    + cbn. split; [done|]. intros (δ & r & k & q & _ & [Hm _] & _).
      by destruct (no_rules_match hashStep rules extra m Hb Hrules Hextra (encode query) isDirectory δ r k q Eh).
  - rewrite (proj2 (Z.ltb_lt _ _)) by lia. done.
Qed.

(** C6: a matcher built from the rules of directories (given without a leading "/", their
    patterns compiled from lines) answers as the rules say: a path of at most 16,384 bytes is
    ignored exactly when at one of its depths the last matching rule (extra rules, then the
    root's, then those of ever deeper directories, each file in line order) is not negated,
    unless the work exceeds its limit, which is the error then returned; a longer path is the
    error of the query limit.  The answer does not depend on the hash the index is built with. *)
Theorem ignores_correct hashStep rules extra :
  Forall (λ r, head r.1 ≠ Some SLASH) rules → Forall (λ r, Forall from_line r.2) rules → Forall from_line extra →
  ∃ m, new_WorktreeIgnoreMatcher hashStep rules extra = Some m ∧
  ∀ query isDirectory, Forall unit_ok query → query ≠ [] →
    let size := zlen (encode query) in
    match ignores hashStep m query isDirectory with
    | Some (Done b) => size <= 16384 ∧ (b = true ↔ ignored (rules_above rules extra (encode query)) (encodePath query) isDirectory)
    | Some (Limited e) =>
        (16384 < size ∧ e = mkLimitError QueryBytes 16384 16385 None) ∨
        (size <= 16384 ∧ ∃ n, IGNORE_LIMITS RequestCpuWork < n ∧ e = mkLimitError RequestCpuWork (IGNORE_LIMITS RequestCpuWork) n None)
    | None => False
    end.
Proof.
  intros Hroot Hrules Hextra. destruct (matcher_built hashStep rules extra Hroot) as (m & Hm & Hb). exists m. split; [done|].
  intros query isDirectory Hu Hne size.
  pose proof (ignores_spec hashStep rules extra m query isDirectory Hb) as H. change (IGNORE_LIMITS QueryBytes) with 16384 in H.
  specialize (H ltac:(eapply Forall_impl; [exact Hrules|]; intros r Hr; eapply Forall_impl; [exact Hr|apply from_line_ok])
    ltac:(eapply Forall_impl; [exact Hextra|apply from_line_ok]) Hu Hne). cbv zeta in H. fold size in H.
  destruct (size <=? 16384) eqn:E; zbool; [|rewrite H; by left].
  destruct (ignores hashStep m query isDirectory) as [[b|e]|]; [by split|by right|done].
Qed.

(** Two files of rules and an extra rule, hashed by the matcher's own step. *)
Definition example_lines (lines : list ustring) : list IgnorePattern :=
  omap (λ line, compilePatternBytes (encode line) ≫= id) lines.

Lemma example_from_lines lines : Forall from_line (example_lines lines).
Proof.
  apply Forall_forall. intros q (line & _ & Hq)%list_elem_of_omap. exists (encode line).
  destruct (compilePatternBytes (encode line)) as [r|]; [|done]. cbn in Hq. by rewrite Hq.
Qed.

Definition example_rules : list rule_file :=
  [([], example_lines [js "*.log"; js "/out"; js "!keep.log"]); (js "sub", example_lines [js "build/"; js "!b.log"; js "**/x?[0-9]"])].
Definition example_extra : list IgnorePattern := example_lines [js "*.tmp"].

Lemma ignores_correct_witness :
  let is_ignored query isDirectory := ignored (rules_above example_rules example_extra (encode query)) (encodePath query) isDirectory in
  is_ignored (js "sub/a.log") false ∧ ¬ is_ignored (js "sub/b.log") false ∧ ¬ is_ignored (js "keep.log") false ∧
  is_ignored (js "sub/build") true ∧ ¬ is_ignored (js "sub/build") false ∧ is_ignored (js "sub/y/xa7") false ∧ is_ignored (js "a.tmp") false.
Proof.
  destruct (ignores_correct sourceHashStep example_rules example_extra) as (m & Hm & H).
  - by repeat constructor.
  - repeat (constructor; [apply example_from_lines|]). constructor.
  - apply example_from_lines.
  - assert (∀ query isDirectory b, forallb (λ u, (0 <=? u) && (u <? 65536)) query = true → query ≠ [] →
              match new_WorktreeIgnoreMatcher sourceHashStep example_rules example_extra with
              | Some m => ignores sourceHashStep m query isDirectory
              | None => None
              end = Some (Done b) →
              b = true ↔ ignored (rules_above example_rules example_extra (encode query)) (encodePath query) isDirectory) as Hq.
    { intros query isDirectory b Hu Hne Hb. rewrite Hm in Hb.
      assert (Forall unit_ok query) as Hu'.
      { apply Forall_forall. intros u Hin. apply list_elem_of_In, (proj1 (forallb_forall _ _) Hu) in Hin. unfold unit_ok. zbool. lia. }
      specialize (H query isDirectory Hu' Hne). cbv zeta in H. rewrite Hb in H. by destruct H. }
    cbv zeta. split_and!; (match goal with |- ¬ _ => intros Hi | _ => idtac end);
      first [eapply (Hq _ _ true); [reflexivity|done|vm_compute; reflexivity|done]
            |eapply (Hq _ _ false) in Hi; [discriminate Hi|reflexivity|done|vm_compute; reflexivity]].
Defined.
