(* ===== verification/JsMap.v ===== *)
(** A JavaScript [Map] or [Set] as the list of its entries in insertion order, which is the
    order of its iterators: setting a key that is there keeps its place.  Also the
    generators of the program as what they yield and how they end. *)

From S2P Require Import Prelude.

Section map.
  Context {K V : Type} `{EqDecision K}.

Notation jsmap := (list (K * V)) (only parsing).

Fixpoint map_get (m : jsmap) (k : K) : option V :=
  match m with
  | [] => None
  | (k', v) :: m => if decide (k' = k) then Some v else map_get m k
  end.

Definition map_has (m : jsmap) (k : K) : bool := bool_decide (is_Some (map_get m k)).

Fixpoint map_set (m : jsmap) (k : K) (v : V) : jsmap :=
  match m with
  | [] => [(k, v)]
  | (k', v') :: m => if decide (k' = k) then (k, v) :: m else (k', v') :: map_set m k v
  end.

Lemma map_get_set m k v k' : map_get (map_set m k v) k' = if decide (k = k') then Some v else map_get m k'.
Proof.
  induction m as [|[k1 v1] m IH]; cbn [map_set map_get]; [done|].
  destruct (decide (k1 = k)) as [->|Hk]; cbn [map_get]; [by case_decide|]. rewrite IH. repeat case_decide; congruence.
Qed.

Lemma map_get_set_eq m k v : map_get (map_set m k v) k = Some v.
Proof. rewrite map_get_set. by rewrite decide_True. Qed.

Lemma map_get_set_ne m k v k' : k ≠ k' → map_get (map_set m k v) k' = map_get m k'.
Proof. intros. rewrite map_get_set. by rewrite decide_False. Qed.

Lemma map_get_None m k : map_get m k = None ↔ k ∉ m.*1.
Proof.
  induction m as [|[k1 v1] m IH]; cbn [map_get]; [split; [intros _; apply not_elem_of_nil|done]|].
  rewrite fmap_cons, not_elem_of_cons. case_decide; naive_solver.
Qed.

Lemma map_get_is_Some m k : is_Some (map_get m k) ↔ k ∈ m.*1.
Proof.
  rewrite <- not_eq_None_Some, map_get_None. destruct (decide (k ∈ m.*1)); naive_solver.
Qed.

Lemma map_has_spec m k : map_has m k = true ↔ k ∈ m.*1.
Proof. unfold map_has. by rewrite bool_decide_eq_true, map_get_is_Some. Qed.

Lemma map_get_elem m k v : map_get m k = Some v → (k, v) ∈ m.
Proof.
  induction m as [|[k1 v1] m IH]; cbn [map_get]; [done|]. case_decide as E.
  - intros [= ->]. subst. apply list_elem_of_here.
  - intros H. by apply list_elem_of_further, IH.
Qed.

Lemma map_get_NoDup m k v : NoDup m.*1 → map_get m k = Some v ↔ (k, v) ∈ m.
Proof.
  intros Hnd. split; [apply map_get_elem|]. induction m as [|[k1 v1] m IH]; [by intros ?%elem_of_nil|].
  apply NoDup_cons in Hnd as [Hk Hnd]. cbn [map_get]. rewrite elem_of_cons. intros [[= -> ->]|H]; [by rewrite decide_True|].
  rewrite decide_False; [by apply IH|]. intros ->. apply Hk, list_elem_of_fmap. by exists (k, v).
Qed.

(** Setting a new key appends it; setting a key that is there keeps the keys. *)
Lemma map_set_new m k v : map_get m k = None → map_set m k v = m ++ [(k, v)].
Proof.
  induction m as [|[k1 v1] m IH]; cbn [map_get map_set]; [done|]. case_decide; [done|]. intros Hn. by rewrite IH.
Qed.

Lemma map_set_keys m k v : is_Some (map_get m k) → (map_set m k v).*1 = m.*1.
Proof.
  induction m as [|[k1 v1] m IH]; cbn [map_get map_set]; [intros []; done|].
  case_decide as E; [by subst|]. intros Hs. rewrite !fmap_cons. f_equal. by apply IH.
Qed.

Lemma map_set_keys_elem m k v k' : k' ∈ (map_set m k v).*1 ↔ k' = k ∨ k' ∈ m.*1.
Proof. rewrite <- !map_get_is_Some, map_get_set. case_decide as E; [subst; naive_solver|]. naive_solver. Qed.

Lemma map_set_NoDup m k v : NoDup m.*1 → NoDup (map_set m k v).*1.
Proof.
  intros Hnd. destruct (map_get m k) eqn:E; [by rewrite map_set_keys by by eexists|].
  rewrite map_set_new, fmap_app by done. apply NoDup_app. split_and!; [done| |apply NoDup_singleton].
  intros k' Hk' ->%list_elem_of_singleton. by apply map_get_None in E.
Qed.

End map.

Notation jsmap K V := (list (K * V)) (only parsing).

(** What a generator yields, and how it ends. *)
Record yields (A : Type) := mkYields { items : list A; ending : outcome unit }.
Arguments mkYields {A} items ending.
Arguments items {A} y.
Arguments ending {A} y.

Definition fails {A} (e : jserror) : yields A := mkYields [] (Throw e).
Definition yielding {A} (x : A) (y : yields A) : yields A := mkYields (x :: items y) (ending y).

(** [for (const x of y) body]: the state after the last item, or what is thrown first. *)
Fixpoint for_items {A S} (body : S → A → outcome S) (s : S) (l : list A) : outcome S :=
  match l with
  | [] => Ok s
  | x :: l => s ← body s x; for_items body s l
  end.
Definition for_of {A S} (body : S → A → outcome S) (s : S) (y : yields A) : outcome S :=
  s ← for_items body s (items y);
  _ ← ending y;
  Ok s.
