(* ===== verification/CommitHeap.v ===== *)
(** The binary heap of a commit walk: [CommitHeap] of
    src/packages/git/src/ops/repository/repository-walk.ts.

    The code moves a hole through the array instead of swapping; here the array is a list and
    a sift carries the index of the hole.  The heap is kept for any order [before]. *)

From S2P Require Import Prelude.

Section heap.
  Context {A : Type} (before : A → A → bool).

(** [(index - 1) >> 1]. *)
Definition parent_index (index : nat) : nat := (index - 1) / 2.

(** The loop of [push]: [None] if an index has no node or the fuel runs out. *)
Fixpoint sift_up (fuel : nat) (nodes : list A) (node : A) (index : nat) : option (list A) :=
  match fuel with
  | O => None
  | S fuel =>
      if (0 <? index)%nat then
        above ← nodes !! parent_index index;
        if before above node then Some (<[index := node]> nodes)
        else sift_up fuel (<[index := above]> nodes) node (parent_index index)
      else Some (<[index := node]> nodes)
  end.

Definition heap_push (nodes : list A) (node : A) : option (list A) :=
  sift_up (S (length nodes)) (nodes ++ [node]) node (length nodes).

(** The loop of [pop], with the array without its last node. *)
Fixpoint sift_down (fuel : nat) (nodes : list A) (tail : A) (index : nat) : option (list A) :=
  match fuel with
  | O => None
  | S fuel =>
      let left := (index * 2 + 1)%nat in
      match nodes !! left with
      | None => Some (<[index := tail]> nodes)
      | Some l =>
          let '(child, c) := match nodes !! S left with
                             | Some r => if before r l then (S left, r) else (left, l)
                             | None => (left, l)
                             end in
          if before tail c then Some (<[index := tail]> nodes)
          else sift_down fuel (<[index := c]> nodes) tail child
      end
  end.

(** What [pop] returns, and the nodes left. *)
Definition heap_pop (nodes : list A) : option (option A * list A) :=
  match nodes with
  | [] => Some (None, [])
  | first :: _ =>
      tail ← last nodes;
      let rest := removelast nodes in
      match rest with
      | [] => Some (Some first, [])
      | _ => rest ← sift_down (S (length rest)) rest tail 0; Some (Some first, rest)
      end
  end.

(** * The heap order *)

(** [x] need not come after [y]. *)
Definition le (x y : A) : Prop := before y x = false.

  Context (le_trans : ∀ x y z, le x y → le y z → le x z) (le_total : ∀ x y, le x y ∨ le y x).

Definition heap_ok (l : list A) : Prop :=
  ∀ i x y, (0 < i)%nat → l !! i = Some x → l !! parent_index i = Some y → le y x.

Lemma before_le x y : before x y = true → le x y.
Proof using le_total. intros H. destruct (le_total x y) as [?|H']; [done|]. unfold le in H'. congruence. Qed.

Lemma le_refl x : le x x.
Proof using le_total. by destruct (le_total x x). Qed.

Lemma parent_lt i : (0 < i)%nat → (parent_index i < i)%nat.
Proof using Type. intros H. unfold parent_index. apply Nat.Div0.div_lt_upper_bound. lia. Qed.

Lemma parent_children i j : (0 < j)%nat → parent_index j = i ↔ (j = i * 2 + 1 ∨ j = S (i * 2 + 1))%nat.
Proof using Type.
  intros Hj. unfold parent_index. split.
  - intros <-. pose proof (Nat.div_mod_eq (j - 1) 2). pose proof (Nat.mod_upper_bound (j - 1) 2 ltac:(done)). lia.
  - intros [-> | ->]; [replace (i * 2 + 1 - 1)%nat with (i * 2)%nat by lia; apply Nat.div_mul; done|].
    replace (S (i * 2 + 1) - 1)%nat with (1 + i * 2)%nat by lia. by rewrite Nat.div_add.
Qed.

(** The array with a hole at [i], to be filled with [node]: every edge but those of the hole
    is in order, the children of the hole are in order with its parent. *)
Record hole_ok (l : list A) (i : nat) : Prop := {
  hole_lt : (i < length l)%nat;
  hole_edges j x y : (0 < j)%nat → j ≠ i → parent_index j ≠ i → l !! j = Some x → l !! parent_index j = Some y → le y x;
  hole_grand j x y : (0 < j)%nat → (0 < i)%nat → parent_index j = i → l !! j = Some x → l !! parent_index i = Some y → le y x
}.

Lemma hole_fill l i node :
  hole_ok l i →
  (∀ y, (0 < i)%nat → l !! parent_index i = Some y → le y node) →
  (∀ j x, (0 < j)%nat → parent_index j = i → l !! j = Some x → le node x) →
  heap_ok (<[i := node]> l).
Proof using Type.
  intros [Hi He _] Hup Hdown j x y Hj. destruct (decide (j = i)) as [->|Hji].
  - rewrite list_lookup_insert_eq by done. intros [= <-]. rewrite list_lookup_insert_ne by (pose proof (parent_lt i Hj); lia). by apply Hup.
  - rewrite (list_lookup_insert_ne l i j) by done. intros Hx. destruct (decide (parent_index j = i)) as [E|E].
    + rewrite E, list_lookup_insert_eq by done. intros [= <-]. by apply (Hdown j).
    + rewrite list_lookup_insert_ne by done. by apply He.
Qed.

(** Filling the hole last or moving it first leaves the same nodes. *)
Lemma move_perm (l : list A) i j (node c : A) :
  i ≠ j → (i < length l)%nat → l !! j = Some c → <[j := node]> (<[i := c]> l) ≡ₚ <[i := node]> l.
Proof using Type.
  intros Hij Hi Hj. pose proof (lookup_lt_Some _ _ _ Hj) as Hjl. apply Permutation_inj. rewrite !length_insert. split; [done|].
  exists (λ k, if decide (k = i) then j else if decide (k = j) then i else k). split.
  - intros x y. repeat case_decide; congruence.
  - intros k. destruct (decide (k = i)) as [->|Hki].
    + rewrite list_lookup_insert_ne, list_lookup_insert_eq by done. rewrite list_lookup_insert_ne by done. done.
    + destruct (decide (k = j)) as [->|Hkj].
      * by rewrite !list_lookup_insert_eq by (rewrite ?length_insert; done).
      * by rewrite !list_lookup_insert_ne by done.
Qed.

Lemma sift_up_spec fuel : ∀ l node i,
  (i < fuel)%nat → hole_ok l i → (∀ j x, (0 < j)%nat → parent_index j = i → l !! j = Some x → le node x) →
  ∃ l', sift_up fuel l node i = Some l' ∧ heap_ok l' ∧ l' ≡ₚ <[i := node]> l.
Proof using le_trans le_total.
  induction fuel as [|fuel IH]; intros l node i Hf Hh Hc; [lia|]. cbn [sift_up].
  destruct (Nat.ltb_spec 0 i) as [Hi|Hi].
  2:{ eexists. split_and!; [done| |done]. apply hole_fill; [done|lia|done]. }
  pose proof (parent_lt i Hi) as Hp. pose proof (hole_lt _ _ Hh) as Hl.
  destruct (lookup_lt_is_Some_2 l (parent_index i)) as [above Ha]; [lia|]. rewrite Ha. cbn [mbind option_bind].
  destruct (before above node) eqn:Eb.
  { eexists. split_and!; [done| |done]. apply hole_fill; [done| |done]. intros y _ Hy. rewrite Ha in Hy. injection Hy as <-. by apply before_le. }
  destruct (IH (<[i := above]> l) node (parent_index i)) as (l' & Hs & Hok & Hperm); [lia| | |].
  - split; [rewrite length_insert; lia| |].
    + intros j x y Hj Hji Hpj. destruct (decide (j = i)) as [->|Hne]; [done|]. rewrite list_lookup_insert_ne by done. intros Hx.
      destruct (decide (parent_index j = i)) as [E|E].
      * rewrite E, list_lookup_insert_eq by done. intros [= <-]. by apply (hole_grand _ _ Hh j).
      * rewrite list_lookup_insert_ne by done. by apply (hole_edges _ _ Hh).
    + intros j x y Hj Hi' Hpj Hx. pose proof (parent_lt _ Hi'). rewrite list_lookup_insert_ne by lia. intros Hy.
      assert (le y above) as Hya by (apply (hole_edges _ _ Hh (parent_index i)); [done|lia|lia|done|done]).
      destruct (decide (j = i)) as [->|Hne].
      * rewrite list_lookup_insert_eq in Hx by done. by injection Hx as <-.
      * rewrite list_lookup_insert_ne in Hx by done. apply (le_trans _ above); [done|].
        apply (hole_edges _ _ Hh j); [done|done|lia|done|by rewrite Hpj].
  - intros j x Hj Hpj. destruct (decide (j = i)) as [->|Hne].
    + rewrite list_lookup_insert_eq by done. by intros [= <-].
    + rewrite list_lookup_insert_ne by done. intros Hx. apply (le_trans _ above); [done|].
      apply (hole_edges _ _ Hh j); [done|done|lia|done|by rewrite Hpj].
  - exists l'. split_and!; [done|done|]. rewrite Hperm. apply move_perm; [lia|done|done].
Qed.

(** [push] keeps the order and adds the node. *)
Lemma heap_push_spec nodes node :
  heap_ok nodes → ∃ nodes', heap_push nodes node = Some nodes' ∧ heap_ok nodes' ∧ nodes' ≡ₚ node :: nodes.
Proof using le_trans le_total.
  intros Hok. unfold heap_push.
  assert (∀ j, (0 < j)%nat → parent_index j = length nodes → (nodes ++ [node]) !! j = None) as Hnone.
  { intros j Hj Hp. apply lookup_ge_None. rewrite length_app. cbn. pose proof (parent_lt j Hj). lia. }
  destruct (sift_up_spec (S (length nodes)) (nodes ++ [node]) node (length nodes)) as (l' & Hs & Hl' & Hperm); [lia| | |].
  - split; [rewrite length_app; cbn; lia| |].
    + intros j x y Hj Hjn _ Hx Hy. pose proof (lookup_lt_Some _ _ _ Hx) as Hlt. rewrite length_app in Hlt. cbn in Hlt.
      pose proof (parent_lt j Hj). rewrite lookup_app_l in Hx, Hy by lia. by apply (Hok j).
    + intros j x y Hj _ Hp Hx. by rewrite Hnone in Hx.
  - intros j x Hj Hp Hx. by rewrite Hnone in Hx.
  - exists l'. split_and!; [done|done|]. rewrite Hperm, insert_app_r_alt, Nat.sub_diag by done. cbn. symmetry. apply Permutation_cons_append.
Qed.

Lemma sift_down_spec fuel : ∀ l node i,
  (length l - i < fuel)%nat → hole_ok l i → (∀ y, (0 < i)%nat → l !! parent_index i = Some y → le y node) →
  ∃ l', sift_down fuel l node i = Some l' ∧ heap_ok l' ∧ l' ≡ₚ <[i := node]> l.
Proof using le_trans le_total.
  induction fuel as [|fuel IH]; intros l node i Hf Hh Hp; [lia|]. cbn [sift_down].
  pose proof (hole_lt _ _ Hh) as Hlt. destruct (l !! (i * 2 + 1)%nat) as [cl|] eqn:El.
  2:{ eexists. split_and!; [done| |done]. apply hole_fill; [done|done|]. intros j x Hj Hpj Hx.
      apply lookup_ge_None in El. apply lookup_lt_Some in Hx. apply parent_children in Hpj; lia. }
  set (pick := match l !! S _ with Some r => _ | None => _ end).
  assert (∃ j c, pick = (j, c) ∧ l !! j = Some c ∧ (0 < j)%nat ∧ parent_index j = i ∧
            ∀ k x, (0 < k)%nat → parent_index k = i → l !! k = Some x → le c x) as (j & c & Hpick & Hj & Hj0 & Hji & Hmin).
  { destruct (l !! S (i * 2 + 1)) as [cr|] eqn:Er; subst pick.
    - destruct (before cr cl) eqn:Eb; [exists (S (i * 2 + 1)), cr|exists (i * 2 + 1)%nat, cl].
      all: split_and!; [done|done|lia|by apply parent_children; [lia|auto]|].
      all: intros k x Hk Hpk Hx; destruct (proj1 (parent_children i k Hk) Hpk) as [-> | ->]; simplify_eq/=.
      all: try done; first [by apply before_le|apply le_refl].
    - exists (i * 2 + 1)%nat, cl. split_and!; [done|done|lia|by apply parent_children; [lia|auto]|].
      intros k x Hk Hpk Hx. destruct (proj1 (parent_children i k Hk) Hpk) as [-> | ->]; [simplify_eq/=; apply le_refl|congruence]. }
  rewrite Hpick. clear pick Hpick. destruct (before node c) eqn:Eb.
  { eexists. split_and!; [done| |done]. apply hole_fill; [done|done|]. intros k x Hk Hpk Hx.
    apply (le_trans _ c); [by apply before_le|by apply (Hmin k)]. }
  pose proof (parent_lt j Hj0) as Hlt'. rewrite Hji in Hlt'. pose proof (lookup_lt_Some _ _ _ Hj) as Hjl.
  destruct (IH (<[i := c]> l) node j) as (l' & Hs & Hok & Hperm); [rewrite length_insert; lia| | |].
  - split; [rewrite length_insert; lia| |].
    + intros k x y Hk Hkj Hpkj. destruct (decide (k = i)) as [->|Hki].
      * rewrite list_lookup_insert_eq by done. intros [= <-]. pose proof (parent_lt i Hk). rewrite list_lookup_insert_ne by lia.
        intros Hy. by apply (hole_grand _ _ Hh j).
      * rewrite list_lookup_insert_ne by done. intros Hx. destruct (decide (parent_index k = i)) as [E|E].
        -- rewrite E, list_lookup_insert_eq by done. intros [= <-]. by apply (Hmin k).
        -- rewrite list_lookup_insert_ne by done. by apply (hole_edges _ _ Hh).
    + intros k x y Hk _ Hpk. pose proof (parent_lt k Hk). rewrite Hji, list_lookup_insert_eq by done. intros Hx [= <-].
      rewrite list_lookup_insert_ne in Hx by lia. apply (hole_edges _ _ Hh k); [done|lia|lia|done|by rewrite Hpk].
  - intros y _. rewrite Hji, list_lookup_insert_eq by done. by intros [= <-].
  - exists l'. split_and!; [done|done|]. rewrite Hperm. apply move_perm; [lia|done|done].
Qed.

(** The first node comes before every other. *)
Lemma heap_min nodes x y : heap_ok nodes → head nodes = Some x → y ∈ nodes → le x y.
Proof using le_trans le_total.
  intros Hok Hx [i Hi]%list_elem_of_lookup. rewrite head_lookup in Hx. revert y Hi.
  induction i as [i IH] using (well_founded_induction Nat.lt_wf_0). intros y Hi. destruct (decide (i = 0)%nat) as [->|].
  { simplify_eq. apply le_refl. }
  pose proof (parent_lt i ltac:(lia)) as Hp. destruct (lookup_lt_is_Some_2 nodes (parent_index i)) as [z Hz].
  { apply lookup_lt_Some in Hi. lia. }
  apply (le_trans _ z); [by apply (IH (parent_index i))|]. by apply (Hok i); [lia|..].
Qed.

(** [pop] gives nothing of an empty heap, else a first node. *)
Lemma heap_pop_spec nodes :
  heap_ok nodes → nodes ≠ [] →
  ∃ x nodes', heap_pop nodes = Some (Some x, nodes') ∧ heap_ok nodes' ∧ nodes ≡ₚ x :: nodes' ∧ Forall (le x) nodes'.
Proof using le_trans le_total.
  intros Hok Hne. destruct nodes as [|x l] using rev_ind; [done|]. clear IHl Hne. rename x into tail.
  assert (∃ first, head (l ++ [tail]) = Some first) as [first Hfirst] by (by destruct l; eexists).
  assert (heap_pop (l ++ [tail]) = match l with
                                   | [] => Some (Some first, [])
                                   | _ => rest ← sift_down (S (length l)) l tail 0; Some (Some first, rest)
                                   end) as ->.
  { unfold heap_pop. rewrite last_snoc, removelast_last. destruct l; cbn in *; by simplify_eq. }
  destruct l as [|x l]; [cbn in Hfirst; simplify_eq; by exists first, []|]. cbn in Hfirst. injection Hfirst as ->.
  destruct (sift_down_spec (S (length (first :: l))) (first :: l) tail 0) as (l' & Hs & Hl' & Hperm); [lia| |lia|].
  - split; [cbn; lia| |lia]. intros j x y Hj _ _ Hx Hy. pose proof (lookup_lt_Some _ _ _ Hx). pose proof (lookup_lt_Some _ _ _ Hy).
    apply (Hok j); [done|by rewrite lookup_app_l|by rewrite lookup_app_l].
  - rewrite Hs. cbn [mbind option_bind]. exists first, l'. cbn [insert list_insert] in Hperm. split_and!; [done|done| |].
    + rewrite Hperm. cbn. f_equiv. symmetry. apply Permutation_cons_append.
    + rewrite Hperm. apply Forall_forall. intros y Hy. apply (heap_min (first :: l ++ [tail])); [done|done|].
      rewrite elem_of_cons in Hy |- *. rewrite elem_of_app, list_elem_of_singleton. tauto.
Qed.

End heap.
