(* ===== verification/CommitWalk.v ===== *)
(** Walks over the commits of a repository:
    src/packages/git/src/ops/repository/repository-walk.ts.

    What the walks ask of the repository's stores is the interface [WalkRepository]: rows and
    objects by name, and the rows the recursive query of [readCommitGraphOwned] answers, in the
    order the database gives them.  The interface has no laws: the walks trust none of it.
    A generator is what it yields and how it ends; [None] is a loop that does not end. *)

From S2P Require Import Prelude Bytes Objects JsMap CommitHeap.

Notation oid := ustring (only parsing).

(** A parsed commit row; without [messageStored] its message and signature are not in the row. *)
Record CommitCacheEntry := mkEntry { en_oid : oid; messageStored : bool; en_commit : Commit }.

Class WalkRepository := {
  peel : oid → outcome oid;
  typeOf : oid → outcome ObjectType;
  (** [readShallowOwned()], also [shallow()]. *)
  readShallowOwned : outcome (list oid);
  (** [readCommitGraphOwned(db, repoId, root, { maxCommits })]. *)
  readCommitGraphOwned : oid → option Z → yields CommitCacheEntry;
  (** [readCommitTreeRoots(db, repoId, root)]: the names. *)
  readCommitTreeRoots : oid → yields oid;
  cachedCommit : oid → outcome (option CommitCacheEntry);
  typeAndSize : oid → outcome (option (ObjectType * Z));
  readObject : oid → outcome (option bytes);
  (** [readAuthenticatedObject(oid, "commit")]: the data. *)
  readAuthenticatedObject : oid → outcome (option bytes);
  repoId : Z;
  sha1 : bytes → bytes
}.

Definition MAX_LOG_COMMITS : Z := 50000.

Definition corrupt (message : string) : jserror := CorruptError (js message).
Definition too_many : jserror := GitErr "E2BIG" "commit graph exceeds the 50000 commit limit".
Definition ObjectNotFoundError (id : oid) : jserror := GitError (js "ENOTFOUND") (js "object not found: " ++ id).

(** * Nodes of a walk *)

Record WalkNode := mkNode { wn_oid : oid; entry : CommitCacheEntry; sequence : Z }.

Definition commit_time (e : CommitCacheEntry) : Z := timestamp (committer (en_commit e)).

(** Newer commits first, then the ones found earlier. *)
Definition before (left right : WalkNode) : bool :=
  let leftTime := commit_time (entry left) in
  let rightTime := commit_time (entry right) in
  if negb (leftTime =? rightTime) then rightTime <? leftTime
  else sequence left <? sequence right.

Definition push_node (queue : list WalkNode) (node : WalkNode) : option (list WalkNode) := heap_push before queue node.
Definition pop_node (queue : list WalkNode) : option (option WalkNode * list WalkNode) := heap_pop before queue.

Section repository.
  Context `{repo : WalkRepository}.

(** * Reading one commit *)

Definition readCommitEntryOwned (id : oid) : outcome CommitCacheEntry :=
  row ← cachedCommit id;
  match row with
  | Some row => Ok row
  | None =>
      metadata ← typeAndSize id;
      match metadata with
      | None => Throw (ObjectNotFoundError id)
      | Some (commit_type, _) => Throw (CorruptError (js "commit " ++ id ++ js " has no parsed row"))
      | Some (type, _) => Throw (CorruptError (id ++ js " is a " ++ type_name type ++ js ", not a commit"))
      end
  end.

(** A row without its message takes message and signature from the object. *)
Definition completeCommit (e : CommitCacheEntry) : outcome Commit :=
  if messageStored e then Ok (en_commit e)
  else
    object ← readObject (en_oid e);
    match object with
    | None => Throw (ObjectNotFoundError (en_oid e))
    | Some data =>
        parsed ← parseCommit data;
        let c := en_commit e in
        Ok (mkCommit (c_tree c) (parent c) (author c) (committer c)
              (match gpgsig parsed with Some sig => Some sig | None => gpgsig c end) (c_message parsed))
    end.

Definition readCommitOwned (id : oid) : outcome Commit :=
  e ← readCommitEntryOwned id;
  completeCommit e.

(** [validateCommitNumbers] of commits-cache.ts. *)
Definition validateCommitNumbers (c : Commit) : outcome unit :=
  for_items (λ _ '(name, value), throw_if (negb (isSafeInteger value)) (GitError (js "E2BIG") (js "commit has an unrepresentable " ++ name)))
    tt [(js "author time", timestamp (author c)); (js "author timezone", timezoneOffset (author c));
        (js "committer time", timestamp (committer c)); (js "committer timezone", timezoneOffset (committer c))].

(** [parseAuthenticatedCommit] of commits-cache.ts. *)
Definition parseAuthenticatedCommit (id : oid) (data : bytes) : outcome Commit :=
  if negb (isSafeInteger repoId) || (repoId <? 1) then Throw (corrupt "commit cache source has an invalid repository id")
  else if negb (isOid id) then Throw (corrupt "commit cache source has an invalid oid")
  else if negb (bool_decide (hashObject sha1 commit_type data = id))
  then Throw (CorruptError (js "commit cache source " ++ id ++ js " does not match its bytes"))
  else
    commit ← parseCommit data;
    _ ← validateCommitNumbers commit;
    Ok commit.

(** A commit read, hashed and parsed from its object. *)
Definition readAuthenticatedCommitOwned (id : oid) : outcome Commit :=
  metadata ← typeAndSize id;
  match metadata with
  | None => Throw (ObjectNotFoundError id)
  | Some (commit_type, size) =>
      object ← readAuthenticatedObject id;
      match object with
      | None => Throw (ObjectNotFoundError id)
      | Some data =>
          if negb (zlen data =? size) then Throw (CorruptError (js "commit " ++ id ++ js " does not match its authoritative size"))
          else parseAuthenticatedCommit id data
      end
  | Some (type, _) => Throw (CorruptError (id ++ js " is a " ++ type_name type ++ js ", not a commit"))
  end.

(** * Validating a graph *)

(** A frame of the search: a commit and how many of its parents were taken. *)
Notation frame := (oid * nat)%type.

(** The search of [validateCommitGraph], with the names on the stack and those done. *)
Fixpoint validate_loop (fuel : nat) (entries : jsmap oid CommitCacheEntry) (boundary : list oid) (requireComplete : bool)
    (stack : list frame) (visiting visited : gset oid) : option (outcome (gset oid)) :=
  match fuel with
  | O => None
  | S fuel =>
      match stack with
      | [] => Some (Ok visited)
      | (id, taken) :: below =>
          match map_get entries id with
          | None => Some (Throw (corrupt "commit graph is missing a commit row"))
          | Some e =>
              let parents := if bool_decide (id ∈ boundary) then [] else parent (en_commit e) in
              match parents !! taken with
              | None => validate_loop fuel entries boundary requireComplete below (visiting ∖ {[id]}) (visited ∪ {[id]})
              | Some p =>
                  let stack := (id, S taken) :: below in
                  if negb (map_has entries p) then
                    if requireComplete then Some (Throw (corrupt "commit graph is missing a parent row"))
                    else validate_loop fuel entries boundary requireComplete stack visiting visited
                  else if bool_decide (p ∈ visiting) then Some (Throw (corrupt "commit graph contains a cycle"))
                  else if bool_decide (p ∈ visited) then validate_loop fuel entries boundary requireComplete stack visiting visited
                  else validate_loop fuel entries boundary requireComplete ((p, O) :: stack) (visiting ∪ {[p]}) visited
              end
          end
      end
  end.

(** Every commit is left once and every edge is taken once. *)
Definition graph_fuel (entries : jsmap oid CommitCacheEntry) : nat :=
  S (sum_list_with (λ e, S (length (parent (en_commit e.2)))) entries).

Definition validateCommitGraph (root : oid) (entries : jsmap oid CommitCacheEntry) (boundary : list oid) (requireComplete : bool)
    : option (outcome unit) :=
  r ← validate_loop (graph_fuel entries) entries boundary requireComplete [(root, O)] {[root]} ∅;
  Some (visited ← r;
        if requireComplete && negb (Z.of_nat (size visited) =? zlen entries)
        then Throw (corrupt "commit graph has unreachable rows") else Ok tt).

(** * The walk over a validated graph *)

(** The local [push] of [orderedCommitGraph]. *)
Definition push_entry (entries : jsmap oid CommitCacheEntry) (seen : gset oid) (queue : list WalkNode) (sequence : Z) (candidate : oid)
    : option (outcome (gset oid * list WalkNode * Z)) :=
  if bool_decide (candidate ∈ seen) then Some (Ok (seen, queue, sequence))
  else
    match map_get entries candidate with
    | None => Some (Throw (corrupt "commit graph is missing a parent row"))
    | Some e =>
        queue ← push_node queue (mkNode candidate e sequence);
        Some (Ok (seen ∪ {[candidate]}, queue, sequence + 1))
    end.

Fixpoint push_entries (entries : jsmap oid CommitCacheEntry) (seen : gset oid) (queue : list WalkNode) (sequence : Z) (candidates : list oid)
    : option (outcome (gset oid * list WalkNode * Z)) :=
  match candidates with
  | [] => Some (Ok (seen, queue, sequence))
  | c :: candidates =>
      r ← push_entry entries seen queue sequence c;
      match r with
      | Throw e => Some (Throw e)
      | Ok (seen, queue, sequence) => push_entries entries seen queue sequence candidates
      end
  end.

Notation walked := (yields (oid * Commit)).

Fixpoint ordered_loop (fuel : nat) (entries : jsmap oid CommitCacheEntry) (boundary : list oid) (seen : gset oid) (queue : list WalkNode)
    (sequence : Z) : option walked :=
  match fuel with
  | O => None
  | S fuel =>
      match queue with
      | [] => Some (mkYields [] (Ok tt))
      | _ =>
          popped ← pop_node queue;
          match popped with
          | (None, _) => Some (fails (corrupt "commit graph heap lost its next row"))
          | (Some next, queue) =>
              match completeCommit (entry next) with
              | Throw e => Some (fails e)
              | Ok commit =>
                  rest ← (if bool_decide (wn_oid next ∈ boundary) then ordered_loop fuel entries boundary seen queue sequence
                          else
                            r ← push_entries entries seen queue sequence (parent (en_commit (entry next)));
                            match r with
                            | Throw e => Some (fails e)
                            | Ok (seen, queue, sequence) => ordered_loop fuel entries boundary seen queue sequence
                            end);
                  Some (yielding (wn_oid next, commit) rest)
              end
          end
      end
  end.

Definition orderedCommitGraph (root : oid) (entries : jsmap oid CommitCacheEntry) (boundary : list oid) : option walked :=
  r ← push_entry entries ∅ [] 0 root;
  match r with
  | Throw e => Some (fails e)
  | Ok (seen, queue, sequence) => ordered_loop (S (length entries)) entries boundary seen queue sequence
  end.

(** One row of the loop of [walkIndexedOwned]. *)
Definition collect_row (maxCommits : Z) (entries : jsmap oid CommitCacheEntry) (e : CommitCacheEntry)
    : outcome (jsmap oid CommitCacheEntry) :=
  if map_has entries (en_oid e) then Throw (corrupt "commit graph yielded a duplicate oid")
  else if maxCommits <=? zlen entries then Throw too_many
  else Ok (map_set entries (en_oid e) e).

(** The rows of the graph below [root], none of them trusted yet. *)
Definition collect_rows (root : oid) (limit : option Z) : outcome (jsmap oid CommitCacheEntry) :=
  entries ← for_of (collect_row (Z.min (default MAX_LOG_COMMITS limit) MAX_LOG_COMMITS)) [] (readCommitGraphOwned root limit);
  if negb (map_has entries root) then Throw (corrupt "commit graph omitted its root") else Ok entries.

Definition walkIndexedOwned (id : oid) (limit : option Z) : option walked :=
  match (root ← peel id; boundary ← readShallowOwned; entries ← collect_rows root limit; Ok (root, boundary, entries)) with
  | Throw e => Some (fails e)
  | Ok (root, boundary, entries) =>
      valid ← validateCommitGraph root entries boundary true;
      match valid with
      | Throw e => Some (fails e)
      | Ok _ => orderedCommitGraph root entries boundary
      end
  end.

(** Entries of a point walk, whose frontier may be missing. *)
Fixpoint index_entries (entries : list CommitCacheEntry) (indexed : jsmap oid CommitCacheEntry) : outcome (jsmap oid CommitCacheEntry) :=
  match entries with
  | [] => Ok indexed
  | e :: entries =>
      if map_has indexed (en_oid e) then Throw (corrupt "commit walk yielded a duplicate oid")
      else index_entries entries (map_set indexed (en_oid e) e)
  end.

Definition validateCommitWalk (entries : list CommitCacheEntry) : option (outcome unit) :=
  match index_entries entries [] with
  | Throw e => Some (Throw e)
  | Ok indexed =>
      match head entries with
      | None => Some (Ok tt)
      | Some first =>
          match readShallowOwned with
          | Throw e => Some (Throw e)
          | Ok boundary => validateCommitGraph (en_oid first) indexed boundary false
          end
      end
  end.

(** * Walks that read commit by commit *)

Record PrunedCommitWalkDecision := mkDecision { include : bool; d_parents : list oid }.

(** The local [push] of [walkPrunedOwned]. *)
Definition push_candidate (seen : gset oid) (queue : list WalkNode) (sequence : Z) (candidate : oid)
    : option (outcome (gset oid * list WalkNode * Z)) :=
  if bool_decide (candidate ∈ seen) then Some (Ok (seen, queue, sequence))
  else if MAX_LOG_COMMITS <=? Z.of_nat (size seen) then Some (Throw too_many)
  else
    match readCommitEntryOwned candidate with
    | Throw e => Some (Throw e)
    | Ok e =>
        queue ← push_node queue (mkNode candidate e sequence);
        Some (Ok (seen ∪ {[candidate]}, queue, sequence + 1))
    end.

Fixpoint push_selected (commit : Commit) (seen : gset oid) (queue : list WalkNode) (sequence : Z) (candidates : list oid)
    : option (outcome (gset oid * list WalkNode * Z)) :=
  match candidates with
  | [] => Some (Ok (seen, queue, sequence))
  | c :: candidates =>
      if negb (bool_decide (c ∈ parent commit)) then Some (Throw (corrupt "pruned commit walk selected a non-parent oid"))
      else
        r ← push_candidate seen queue sequence c;
        match r with
        | Throw e => Some (Throw e)
        | Ok (seen, queue, sequence) => push_selected commit seen queue sequence candidates
        end
  end.

Fixpoint pruned_loop (fuel : nat) (select : oid → Commit → PrunedCommitWalkDecision) (boundary : list oid) (seen : gset oid)
    (queue : list WalkNode) (sequence : Z) : option (yields (oid * Commit * bool)) :=
  match fuel with
  | O => None
  | S fuel =>
      match queue with
      | [] => Some (mkYields [] (Ok tt))
      | _ =>
          popped ← pop_node queue;
          match popped with
          | (None, _) => Some (fails (corrupt "commit graph heap lost its next row"))
          | (Some next, queue) =>
              match completeCommit (entry next) with
              | Throw e => Some (fails e)
              | Ok commit =>
                  let decision := select (wn_oid next) commit in
                  rest ← (if bool_decide (wn_oid next ∈ boundary) then pruned_loop fuel select boundary seen queue sequence
                          else
                            r ← push_selected commit seen queue sequence (d_parents decision);
                            match r with
                            | Throw e => Some (fails e)
                            | Ok (seen, queue, sequence) => pruned_loop fuel select boundary seen queue sequence
                            end);
                  Some (yielding (wn_oid next, commit, include decision) rest)
              end
          end
      end
  end.

(** At most [MAX_LOG_COMMITS] commits enter the queue. *)
Definition walkPrunedOwned (id : oid) (select : oid → Commit → PrunedCommitWalkDecision) : option (yields (oid * Commit * bool)) :=
  match peel id with
  | Throw e => Some (fails e)
  | Ok start =>
      r ← push_candidate ∅ [] 0 start;
      match r with
      | Throw e => Some (fails e)
      | Ok (seen, queue, sequence) =>
          match readShallowOwned with
          | Throw e => Some (fails e)
          | Ok boundary => pruned_loop (S (Z.to_nat MAX_LOG_COMMITS)) select boundary seen queue sequence
          end
      end
  end.

Definition walkOwned (id : oid) : option walked :=
  y ← walkPrunedOwned id (λ _ commit, mkDecision true (parent commit));
  Some (mkYields (fst <$> items y) (ending y)).

(** * Authenticating a graph up to a boundary *)

(** The search from one root, with the commits read so far. *)
Fixpoint authenticate_loop (fuel : nat) (boundary : list oid) (stack : list frame) (visiting visited : gset oid) (commits : jsmap oid Commit)
    : option (outcome (gset oid * gset oid * jsmap oid Commit)) :=
  match fuel with
  | O => None
  | S fuel =>
      match stack with
      | [] => Some (Ok (visiting, visited, commits))
      | (id, taken) :: below =>
          match (match map_get commits id with
                 | Some commit => Ok (commit, commits)
                 | None =>
                     if MAX_LOG_COMMITS <=? zlen commits then Throw too_many
                     else commit ← readAuthenticatedCommitOwned id; Ok (commit, map_set commits id commit)
                 end) with
          | Throw e => Some (Throw e)
          | Ok (commit, commits) =>
              let parents := if bool_decide (id ∈ boundary) then [] else parent commit in
              match parents !! taken with
              | None => authenticate_loop fuel boundary below (visiting ∖ {[id]}) (visited ∪ {[id]}) commits
              | Some p =>
                  let stack := (id, S taken) :: below in
                  if bool_decide (p ∈ visiting) then Some (Throw (corrupt "commit graph contains a cycle"))
                  else if bool_decide (p ∈ visited) then authenticate_loop fuel boundary stack visiting visited commits
                  else authenticate_loop fuel boundary ((p, O) :: stack) (visiting ∪ {[p]}) visited commits
              end
          end
      end
  end.

Fixpoint authenticate_roots (fuel : nat) (boundary : list oid) (roots : list oid) (visiting visited : gset oid) (commits : jsmap oid Commit)
    : option (outcome (gset oid)) :=
  match roots with
  | [] => Some (Ok visited)
  | root :: roots =>
      if bool_decide (root ∈ visited) then authenticate_roots fuel boundary roots visiting visited commits
      else
        r ← authenticate_loop fuel boundary [(root, O)] (visiting ∪ {[root]}) visited commits;
        match r with
        | Throw e => Some (Throw e)
        | Ok (visiting, visited, commits) => authenticate_roots fuel boundary roots visiting visited commits
        end
  end.
Definition authenticateCommitGraphThroughBoundary (fuel : nat) (roots boundary : list oid) : option (outcome (gset oid)) :=
  authenticate_roots fuel boundary roots ∅ ∅ [].

End repository.
