(* ===== verification/CommitGraphFacts.v ===== *)
(** Validating a commit graph: [validateCommitGraph] accepts exactly the graphs in which every
    commit is reachable from the root, every parent has a row, and no commit is its own
    ancestor.  The parents of a shallow commit are not edges. *)

From S2P Require Import Prelude JsMap CommitHeap Objects CommitWalk.

Section graph.
  Context (entries : jsmap oid CommitCacheEntry) (boundary : list oid).

Definition effective_parents (id : oid) : list oid :=
  if bool_decide (id ∈ boundary) then [] else from_option (λ e, parent (en_commit e)) [] (map_get entries id).

(** [y] is a parent of [x]; both have rows. *)
Definition parent_edge (x y : oid) : Prop := y ∈ effective_parents x.
Definition row_edge (x y : oid) : Prop := parent_edge x y ∧ y ∈ entries.*1.

(** No endless descent: the commit has no cycle among its ancestors. *)
Definition well_founded_at (x : oid) : Prop := Acc (λ b a, row_edge a b) x.

Lemma parent_edge_row x y : parent_edge x y → x ∈ entries.*1.
Proof.
  unfold parent_edge, effective_parents. case_bool_decide; [by intros ?%elem_of_nil|]. rewrite <- map_get_is_Some.
  destruct (map_get entries x); [by eexists|by intros ?%elem_of_nil].
Qed.

Lemma acyclic x : well_founded_at x → ¬ tc row_edge x x.
Proof.
  intros Hacc. induction Hacc as [x _ IH]. intros Hc. inversion Hc as [? ? Hx|? y ? Hxy Hyx]; subst; [by apply (IH x)|].
  apply (IH y Hxy). by apply (tc_r _ x).
Qed.

(** * Counting the work left *)

Definition parent_count (id : oid) : nat := length (from_option (λ e, parent (en_commit e)) [] (map_get entries id)).

Definition budget (visited : gset oid) : nat :=
  sum_list_with (λ e : oid * CommitCacheEntry, if decide (e.1 ∈ visited) then 0%nat else S (length (parent (en_commit e.2)))) entries.

Lemma budget_visit visited id e :
  map_get entries id = Some e → id ∉ visited →
  (budget (visited ∪ {[id]}) + S (length (parent (en_commit e))) <= budget visited)%nat.
Proof.
  intros He%map_get_elem Hid. unfold budget. revert He. generalize entries as l. induction l as [|[k v] l IH]; [by intros ?%elem_of_nil|].
  assert (sum_list_with (λ e, if decide (e.1 ∈ visited ∪ {[id]}) then 0%nat else S (length (parent (en_commit e.2)))) l <=
          sum_list_with (λ e, if decide (e.1 ∈ visited) then 0%nat else S (length (parent (en_commit e.2)))) l)%nat as Hle.
  { clear IH. induction l as [|[k' v'] l IH]; [done|]. cbn [sum_list_with fst snd].
    repeat case_decide; first [lia|exfalso; set_solver]. }
  rewrite elem_of_cons. cbn [sum_list_with fst snd]. intros [[= -> ->]|He].
  - rewrite decide_True by set_solver. rewrite decide_False by done. lia.
  - specialize (IH He). repeat case_decide; first [lia|exfalso; set_solver].
Qed.

Definition taken_sum (stack : list (oid * nat)) : nat := sum_list_with snd stack.

(** Frames not visited yet, each within the parents of its commit. *)
Definition frames_ok (visited : gset oid) (stack : list (oid * nat)) : Prop :=
  NoDup stack.*1 ∧ Forall (λ f, (f.1 ∉ visited) ∧ (f.1 ∈ entries.*1) ∧ (f.2 <= length (effective_parents f.1))%nat) stack.

Lemma effective_count id : (length (effective_parents id) <= parent_count id)%nat.
Proof. unfold effective_parents, parent_count. case_bool_decide; simpl; lia. Qed.

Lemma taken_budget visited stack : frames_ok visited stack → (taken_sum stack <= budget visited)%nat.
Proof.
  intros [Hnd Hf]. unfold taken_sum. revert visited Hf. induction stack as [|[id k] stack IH]; intros visited Hf; [simpl; lia|].
  apply Forall_cons in Hf as [(Hv & Hin & Hk) Hf]. apply NoDup_cons in Hnd as [Hid Hnd]. cbn [fst snd] in *.
  apply map_get_is_Some in Hin as [e He]. pose proof (budget_visit visited id e He Hv) as Hb.
  pose proof (effective_count id) as Hc. unfold parent_count in Hc. rewrite He in Hc. cbn [from_option] in Hc.
  cbn [sum_list_with snd]. assert (sum_list_with snd stack <= budget (visited ∪ {[id]}))%nat; [|lia].
  apply IH; [done|]. rewrite Forall_forall in Hf |- *. intros f Hin. destruct (Hf f Hin) as (Hvf & ? & ?). split_and!; [|done|done].
  apply not_elem_of_union. split; [done|]. apply not_elem_of_singleton. intros E. apply Hid. rewrite <- E. by apply list_elem_of_fmap_2.
Qed.

(** * The search *)

  Context (root : oid) (requireComplete : bool).

Notation reached x := (rtc row_edge root x).

(** The commits left are done: their ancestors with rows are done too, without a cycle. *)
Definition closed_done (visited : gset oid) : Prop :=
  ∀ x, x ∈ visited → reached x ∧ x ∈ entries.*1 ∧ well_founded_at x ∧
    ∀ y, parent_edge x y → y ∈ visited ∨ (requireComplete = false ∧ y ∉ entries.*1).

Definition settled_parent (visited : gset oid) (y : oid) : Prop := y ∈ visited ∨ (requireComplete = false ∧ y ∉ entries.*1).

(** The frames under the top each wait for the frame above them. *)
Fixpoint waiting (visited : gset oid) (above : option oid) (stack : list (oid * nat)) : Prop :=
  match stack with
  | [] => True
  | (id, taken) :: stack =>
      match above with
      | None => Forall (settled_parent visited) (take taken (effective_parents id))
      | Some a => ∃ k, taken = S k ∧ effective_parents id !! k = Some a ∧ Forall (settled_parent visited) (take k (effective_parents id))
      end ∧ waiting visited (Some id) stack
  end.

Record search_ok (stack : list (oid * nat)) (visiting visited : gset oid) : Prop := {
  search_frames : frames_ok visited stack;
  search_visiting x : x ∈ visiting ↔ x ∈ stack.*1;
  search_reached x : x ∈ stack.*1 → reached x;
  search_done : closed_done visited;
  search_waiting : waiting visited None stack;
  search_root : root ∈ visited ∨ root ∈ stack.*1
}.

Lemma settled_mono v v' y : v ⊆ v' → settled_parent v y → settled_parent v' y.
Proof. intros Hv [?|?]; [left; by apply Hv|by right]. Qed.

Lemma waiting_mono v v' above stack : v ⊆ v' → waiting v above stack → waiting v' above stack.
Proof.
  intros Hv. assert (∀ y, settled_parent v y → settled_parent v' y) as Hs by (intros y; by apply settled_mono).
  revert above. induction stack as [|[id k] stack IH]; intros above; [done|]. cbn [waiting]. intros [Ha Hw]. split; [|by apply IH].
  destruct above as [a|]; [destruct Ha as (j & ? & ? & Hf); exists j; split_and!; [done|done|]|]; eapply Forall_impl; eauto.
Qed.

(** Every waiting frame reaches the commit above it. *)
Lemma waiting_reach visited a stack x : waiting visited (Some a) stack → a ∈ entries.*1 → Forall (λ f, f.1 ∈ entries.*1) stack → x ∈ stack.*1 → tc row_edge x a.
Proof.
  revert a. induction stack as [|[id k] stack IH]; intros a Hw Ha Hf Hx; [by apply elem_of_nil in Hx|].
  apply Forall_cons in Hf as [Hid Hf]. destruct Hw as [(j & -> & Hj & _) Hw].
  assert (row_edge id a) as He by (split; [by apply list_elem_of_lookup_2 in Hj|done]).
  rewrite fmap_cons, elem_of_cons in Hx. cbn [fst] in *. destruct Hx as [->|Hx]; [by apply tc_once|].
  apply (tc_r _ id); [by apply IH|done].
Qed.

Lemma effective_at id e : map_get entries id = Some e →
  effective_parents id = if bool_decide (id ∈ boundary) then [] else parent (en_commit e).
Proof. intros He. unfold effective_parents. by rewrite He. Qed.

(** What the search answers. *)
Definition search_answer (r : outcome (gset oid)) : Prop :=
  match r with
  | Ok visited => closed_done visited ∧ root ∈ visited
  | Throw e =>
      (e = corrupt "commit graph is missing a parent row" ∧ requireComplete = true ∧ ∃ x y, reached x ∧ parent_edge x y ∧ y ∉ entries.*1) ∨
      (e = corrupt "commit graph contains a cycle" ∧ ∃ x, reached x ∧ tc row_edge x x)
  end.

Lemma search_leave id k e below visiting visited :
  search_ok ((id, k) :: below) visiting visited → map_get entries id = Some e → effective_parents id !! k = None →
  search_ok below (visiting ∖ {[id]}) (visited ∪ {[id]}).
Proof.
  intros [[Hnd Hf] Hvis Hre Hdone [Hall Hw] Hroot] He Hk. apply Forall_cons in Hf as [(Hv & Hin & Hlen) Hf].
  apply NoDup_cons in Hnd as [Hid Hnd]. cbn [fst snd] in *. apply lookup_ge_None in Hk.
  rewrite take_ge in Hall by done. rewrite Forall_forall in Hall.
  split.
  - split; [done|]. rewrite Forall_forall in Hf |- *. intros f Hfin. destruct (Hf f Hfin) as (Hvf & ? & ?). split_and!; [|done|done].
    apply not_elem_of_union. split; [done|]. apply not_elem_of_singleton. intros E. apply Hid. rewrite <- E. by apply list_elem_of_fmap_2.
  - intros x. rewrite elem_of_difference, Hvis, fmap_cons, elem_of_cons, elem_of_singleton. cbn [fst]. split; [naive_solver|].
    intros Hx. split; [by right|]. intros ->. done.
  - intros x Hx. apply Hre. rewrite fmap_cons. by right.
  - intros x [Hx|Hx]%elem_of_union.
    + destruct (Hdone x Hx) as (? & ? & ? & Hy). split_and!; [done..|]. intros y Hxy. apply (settled_mono visited); [apply union_subseteq_l|by apply Hy].
    + apply elem_of_singleton in Hx as ->. split_and!; [apply Hre, elem_of_cons; by left|done| |].
      * constructor. intros y [Hy Hrow]. destruct (Hall y Hy) as [Hyv|[_ ?]]; [|done]. apply (Hdone y Hyv).
      * intros y Hy. apply (settled_mono visited); [apply union_subseteq_l|by apply Hall].
  - destruct below as [|[id' k'] below]; [done|].
    destruct Hw as [(j & -> & Hj & Hfj) Hw]. split; [|by apply (waiting_mono visited); [apply union_subseteq_l|]]. rewrite (take_S_r _ _ _ Hj). apply Forall_app. split.
    + eapply Forall_impl; [exact Hfj|]. intros y. apply settled_mono, union_subseteq_l.
    + apply Forall_singleton. left. apply elem_of_union. right. by apply elem_of_singleton.
  - rewrite fmap_cons, elem_of_cons in Hroot. cbn [fst] in Hroot.
    destruct Hroot as [?|[->|?]]; [left; apply elem_of_union; by left|left; apply elem_of_union; right; by apply elem_of_singleton|by right].
Qed.

(** The top frame takes a parent that needs no visit. *)
Lemma search_skip id k p below visiting visited :
  search_ok ((id, k) :: below) visiting visited → effective_parents id !! k = Some p → settled_parent visited p →
  search_ok ((id, S k) :: below) visiting visited.
Proof.
  intros [[Hnd Hf] Hvis Hre Hdone [Hall Hw] Hroot] Hk Hp. split; try done.
  - split; [done|]. apply Forall_cons in Hf as [(? & ? & ?) Hf]. constructor; [|done]. cbn [fst snd] in *. split_and!; [done..|].
    apply lookup_lt_Some in Hk. lia.
  - split; [|done]. rewrite (take_S_r _ _ _ Hk). apply Forall_app. split; [done|]. by apply Forall_singleton.
Qed.

(** The top frame enters a parent. *)
Lemma search_enter id k p below visiting visited :
  search_ok ((id, k) :: below) visiting visited → effective_parents id !! k = Some p →
  p ∈ entries.*1 → p ∉ visiting → p ∉ visited →
  search_ok ((p, O) :: (id, S k) :: below) (visiting ∪ {[p]}) visited.
Proof.
  intros [[Hnd Hf] Hvis Hre Hdone [Hall Hw] Hroot] Hk Hp Hpv Hpd. split.
  - split.
    + rewrite fmap_cons. apply NoDup_cons. split; [|done]. cbn [fst]. by rewrite <- Hvis.
    + apply Forall_cons in Hf as [(? & ? & ?) Hf]. repeat constructor; cbn [fst snd] in *; try done; [lia|].
      apply lookup_lt_Some in Hk. lia.
  - intros x. rewrite elem_of_union, Hvis, elem_of_singleton, !fmap_cons, !elem_of_cons. cbn [fst]. naive_solver.
  - intros x. rewrite fmap_cons, elem_of_cons. cbn [fst]. intros [->|Hx]; [|by apply Hre].
    apply rtc_r with id; [apply Hre, elem_of_cons; by left|]. split; [by apply list_elem_of_lookup_2 in Hk|done].
  - done.
  - split; [done|]. split; [by exists k|done].
  - destruct Hroot as [?|Hroot]; [by left|right]. rewrite !fmap_cons in *. by apply elem_of_cons; right.
Qed.

Lemma validate_loop_spec fuel : ∀ stack visiting visited,
  (budget visited < fuel + taken_sum stack)%nat → search_ok stack visiting visited →
  ∃ r, validate_loop fuel entries boundary requireComplete stack visiting visited = Some r ∧ search_answer r.
Proof.
  induction fuel as [|fuel IH]; intros stack visiting visited Hfuel Hok; cbn [validate_loop].
  { pose proof (taken_budget visited stack (search_frames _ _ _ Hok)). lia. }
  destruct stack as [|[id k] below].
  { eexists. split; [done|]. split; [apply Hok|]. destruct (search_root _ _ _ Hok) as [?|[]%elem_of_nil]. done. }
  pose proof (search_frames _ _ _ Hok) as [_ Hf]. apply Forall_cons in Hf as [(Hv & Hin & Hlen) Hf]. cbn [fst snd] in *.
  pose proof Hin as [e He]%map_get_is_Some. rewrite He. rewrite <- (effective_at id e He).
  assert (reached id) as Hrid by (apply (search_reached _ _ _ Hok); apply elem_of_cons; by left).
  destruct (effective_parents id !! k) as [p|] eqn:Ek.
  2:{ apply IH; [|by eapply search_leave]. pose proof (budget_visit visited id e He Hv). pose proof (effective_count id) as Hc.
      unfold parent_count in Hc. rewrite He in Hc. cbn [from_option] in Hc. unfold taken_sum in *. cbn [sum_list_with snd] in Hfuel. lia. }
  assert (parent_edge id p) as Hedge by by apply list_elem_of_lookup_2 in Ek.
  unfold taken_sum in *. cbn [sum_list_with snd] in Hfuel. destruct (map_has entries p) eqn:Eh; cbn [negb].
  - apply map_has_spec in Eh. case_bool_decide as Epv.
    + eexists. split; [done|]. right. split; [done|]. apply (search_visiting _ _ _ Hok) in Epv.
      rewrite fmap_cons, elem_of_cons in Epv. cbn [fst] in Epv. exists p. destruct Epv as [->|Hp].
      * split; [done|]. by apply tc_once.
      * split; [apply (search_reached _ _ _ Hok); apply elem_of_cons; by right|].
        apply (tc_r _ id); [|done]. apply (waiting_reach visited id below); [apply (search_waiting _ _ _ Hok)|done| |done].
        eapply Forall_impl; [exact Hf|]. naive_solver.
    + case_bool_decide as Epd.
      * apply IH; [cbn [sum_list_with snd]; lia|]. eapply search_skip; [done|done|by left].
      * apply IH; [cbn [sum_list_with snd]; lia|]. by apply search_enter.
  - assert (p ∉ entries.*1) as Hp by (rewrite <- map_has_spec; congruence). destruct requireComplete eqn:Er.
    + eexists. split; [done|]. left. split_and!; [done|done|]. by exists id, p.
    + apply IH; [cbn [sum_list_with snd]; lia|]. eapply search_skip; [done|done|by right].
Qed.

Lemma search_start : NoDup entries.*1 → root ∈ entries.*1 → search_ok [(root, O)] {[root]} ∅.
Proof.
  intros Hnd Hroot. split.
  - split; [apply NoDup_singleton|]. apply Forall_singleton. cbn. split_and!; [apply not_elem_of_empty|done|lia].
  - intros x. cbn. by rewrite elem_of_singleton, list_elem_of_singleton.
  - intros x. cbn. rewrite list_elem_of_singleton. by intros ->.
  - intros x Hx. by apply not_elem_of_empty in Hx.
  - cbn. by rewrite take_0.
  - right. cbn. by apply list_elem_of_singleton.
Qed.

Lemma budget_fuel : (budget ∅ < graph_fuel entries + taken_sum [(root, 0%nat)])%nat.
Proof.
  unfold budget, graph_fuel, taken_sum. cbn [sum_list_with snd].
  induction entries as [|e l IH]; cbn [sum_list_with]; [lia|]. rewrite decide_False by apply not_elem_of_empty. lia.
Qed.

(** The commits visited are those below the root. *)
Lemma visited_reached visited x : closed_done visited → root ∈ visited → x ∈ visited ↔ reached x.
Proof.
  intros Hd Hr. split; [by intros Hx; apply Hd|]. revert x. apply (rtc_ind_r (λ x, x ∈ visited)); [done|]. intros x y _ Hy IH.
  destruct Hy as [Hxy Hy]. destruct (Hd x IH) as (_ & _ & _ & Hc). destruct (Hc y Hxy) as [?|[_ ?]]; done.
Qed.

End graph.

(** Every row is below the root, every parent has a row, and no commit is its own ancestor. *)
Definition complete_graph (root : oid) (entries : jsmap oid CommitCacheEntry) (boundary : list oid) : Prop :=
  (∀ x, x ∈ entries.*1 → rtc (row_edge entries boundary) root x) ∧
  (∀ x y, x ∈ entries.*1 → parent_edge entries boundary x y → y ∈ entries.*1) ∧
  (∀ x, ¬ tc (row_edge entries boundary) x x).

Lemma reached_row entries boundary root x : root ∈ entries.*1 → rtc (row_edge entries boundary) root x → x ∈ entries.*1.
Proof. intros Hr. revert x. apply (rtc_ind_r (λ x, x ∈ entries.*1)); [done|]. by intros x y _ [_ ?] _. Qed.

(** A complete search whose commits are all the rows. *)
Lemma size_all (visited : gset oid) (l : list oid) :
  NoDup l → (∀ x, x ∈ visited → x ∈ l) → Z.of_nat (size visited) = zlen l ↔ ∀ x, x ∈ l → x ∈ visited.
Proof.
  intros Hnd Hsub. unfold zlen. rewrite Nat2Z.inj_iff.
  assert (size (list_to_set l : gset oid) = length l) as Hs by by apply size_list_to_set.
  assert (visited ⊆ (list_to_set l : gset oid)) as Hle by (intros x Hx; by apply elem_of_list_to_set, Hsub).
  split.
  - intros He x Hx. destruct (decide (x ∈ visited)) as [|Hn]; [done|]. exfalso.
    assert (visited ⊂ (list_to_set l : gset oid)) as Hlt by (split; [done|]; intros H; by apply Hn, H, elem_of_list_to_set).
    apply subset_size in Hlt. lia.
  - intros Hall. rewrite <- Hs. f_equal. apply set_eq. intros x. rewrite elem_of_list_to_set. split; auto.
Qed.

(** The validation of a complete graph ends, and accepts exactly the complete graphs. *)
Lemma validateCommitGraph_complete root entries boundary :
  NoDup entries.*1 → root ∈ entries.*1 →
  ∃ r, validateCommitGraph root entries boundary true = Some r ∧
    (r = Ok tt ↔ complete_graph root entries boundary) ∧
    (r = Ok tt → ∀ x, x ∈ entries.*1 → well_founded_at entries boundary x).
Proof.
  intros Hnd Hroot. unfold validateCommitGraph.
  destruct (validate_loop_spec entries boundary root true _ _ _ _ (budget_fuel entries root) (search_start _ boundary _ true Hnd Hroot)) as (r & -> & Hr).
  cbn [mbind option_bind]. eexists. split; [done|]. destruct r as [visited|e].
  - destruct Hr as [Hd Hrv]. cbn [mbind outcome_bind andb].
    pose proof (λ x, visited_reached entries boundary root true visited x Hd Hrv) as Hv.
    assert (∀ x, x ∈ visited → x ∈ entries.*1) as Hsub by (intros x Hx; apply (Hd x Hx)).
    pose proof (size_all visited entries.*1 Hnd Hsub) as Hsize. unfold zlen in Hsize. rewrite length_fmap in Hsize. fold (zlen entries) in Hsize.
    destruct (Z.of_nat (size visited) =? zlen entries) eqn:E; zbool; cbn [negb].
    + pose proof (proj1 Hsize E) as Hall. split; [split; [intros _|done]|intros _ x Hx; by apply (Hd x (Hall x Hx))].
      split_and!; [intros x Hx; by apply Hv, Hall| |].
      * intros x y Hx Hxy. destruct (Hd x (Hall x Hx)) as (_ & _ & _ & Hc). destruct (Hc y Hxy) as [?|[? _]]; [by apply Hsub|done].
      * intros x Hc. apply (acyclic entries boundary x); [|done]. apply (Hd x), Hall.
        inversion Hc as [? ? [He _]|? y ? [He _] _]; subst; by apply parent_edge_row in He.
    + split; [split; [done|]|done]. intros (Hreach & _ & _). destruct E. apply Hsize. intros x Hx. by apply Hv, Hreach.
  - cbn [mbind outcome_bind]. split; [split; [done|]|done]. intros (_ & Hclosed & Hac). destruct Hr as [(_ & _ & x & y & Hx & Hxy & Hy)|(_ & x & _ & Hc)].
    + destruct Hy. apply (Hclosed x); [by eapply parent_edge_row|done].
    + by destruct (Hac x).
Qed.

(** Of a point walk, the validation accepts what has no cycle below its first commit. *)
Lemma validateCommitGraph_partial root entries boundary :
  NoDup entries.*1 → root ∈ entries.*1 →
  ∃ r, validateCommitGraph root entries boundary false = Some r ∧
    (r = Ok tt ↔ ∀ x, rtc (row_edge entries boundary) root x → ¬ tc (row_edge entries boundary) x x).
Proof.
  intros Hnd Hroot. unfold validateCommitGraph.
  destruct (validate_loop_spec entries boundary root false _ _ _ _ (budget_fuel entries root) (search_start _ boundary _ false Hnd Hroot)) as (r & -> & Hr).
  cbn [mbind option_bind]. eexists. split; [done|]. destruct r as [visited|e]; cbn [mbind outcome_bind andb].
  - destruct Hr as [Hd Hrv]. split; [|done]. intros _ x Hx. apply acyclic. apply (Hd x). by apply (visited_reached entries boundary root false).
  - destruct Hr as [(_ & ? & _)|(_ & x & Hx & Hc)]; [done|]. split; [done|]. intros H. by destruct (H x Hx).
Qed.
