(* ===== verification/CommitWalkFacts.v ===== *)
(** The walk over a commit graph against its specification: it yields every commit below the
    root once, each time the newest of those found and not yet yielded, the one found first
    among equals; and it refuses every answer of the database that is not a complete graph. *)

From S2P Require Import Prelude JsMap CommitHeap Objects CommitWalk CommitGraphFacts.

(** * The order of the queue *)

Lemma node_before_trans x y z : le before x y → le before y z → le before x z.
Proof.
  unfold le, before. destruct (commit_time (entry y) =? _) eqn:E1, (commit_time (entry z) =? _) eqn:E2, (commit_time (entry z) =? commit_time (entry x)) eqn:E3;
    cbn [negb]; rewrite ?Z.ltb_ge; zbool; lia.
Qed.

Lemma node_before_total x y : le before x y ∨ le before y x.
Proof.
  unfold le, before. destruct (commit_time (entry y) =? _) eqn:E1, (commit_time (entry x) =? commit_time (entry y)) eqn:E2;
    cbn [negb]; rewrite !Z.ltb_ge; zbool; lia.
Qed.

(** * The specification *)

Section order.
  Context (entries : jsmap oid CommitCacheEntry) (boundary : list oid).

Definition time_of (x : oid) : Z := from_option commit_time 0 (map_get entries x).

(** The commits found so far, in the order they were found, and more of them. *)
Fixpoint discover (found candidates : list oid) : list oid :=
  match candidates with
  | [] => found
  | c :: candidates => discover (if bool_decide (c ∈ found) then found else found ++ [c]) candidates
  end.

Definition goes_first (found : list oid) (x y : oid) : Prop :=
  time_of y < time_of x ∨
  (time_of y = time_of x ∧ ∃ i j, found !! i = Some x ∧ found !! j = Some y ∧ (i < j)%nat).

(** [newest_first found done out]: with these commits found and those of them yielded, the
    walk goes on with [out]. *)
Inductive newest_first : list oid → list oid → list oid → Prop :=
| newest_end found done : (∀ x, x ∈ found → x ∈ done) → newest_first found done []
| newest_next found done x out :
    x ∈ found → x ∉ done → (∀ y, y ∈ found → y ∉ done → y = x ∨ goes_first found x y) →
    newest_first (discover found (effective_parents entries boundary x)) (done ++ [x]) out →
    newest_first found done (x :: out).

Lemma discover_elem found candidates x : x ∈ discover found candidates ↔ x ∈ found ∨ x ∈ candidates.
Proof.
  revert found. induction candidates as [|c candidates IH]; intros found; cbn [discover]; [rewrite elem_of_nil; tauto|].
  rewrite IH, elem_of_cons. case_bool_decide; [naive_solver|]. rewrite elem_of_app, list_elem_of_singleton. tauto.
Qed.

Lemma discover_NoDup found candidates : NoDup found → NoDup (discover found candidates).
Proof.
  revert found. induction candidates as [|c candidates IH]; intros found Hnd; cbn [discover]; [done|]. apply IH.
  case_bool_decide; [done|]. apply NoDup_app. split_and!; [done| |apply NoDup_singleton]. intros x Hx ->%list_elem_of_singleton. done.
Qed.

(** * The state of the walk *)

Record walk_ok (found done : list oid) (seen : gset oid) (queue : list WalkNode) (sequence : Z) : Prop := {
  walk_nodup : NoDup found;
  walk_seen x : x ∈ seen ↔ x ∈ found;
  walk_sequence : sequence = zlen found;
  walk_heap : heap_ok before queue;
  walk_queue n : n ∈ queue ↔ ∃ i, found !! i = Some (wn_oid n) ∧ CommitWalk.sequence n = Z.of_nat i ∧
    map_get entries (wn_oid n) = Some (entry n) ∧ wn_oid n ∉ done;
  walk_unique : NoDup (wn_oid <$> queue);
  walk_rows x : x ∈ found → x ∈ entries.*1
}.

Lemma push_entry_spec found done seen queue sequence c :
  walk_ok found done seen queue sequence → (∀ x, x ∈ done → x ∈ found) → c ∈ entries.*1 →
  ∃ seen' queue' sequence', push_entry entries seen queue sequence c = Some (Ok (seen', queue', sequence')) ∧
    walk_ok (discover found [c]) done seen' queue' sequence'.
Proof.
  intros [Hnd Hseen -> Hheap Hq Hu Hrows] Hdone Hc. unfold push_entry. cbn [discover]. case_bool_decide as Es.
  { exists seen, queue, (zlen found). split; [done|]. rewrite bool_decide_eq_true_2 by by apply Hseen. by split. }
  rewrite bool_decide_eq_false_2 by by rewrite <- Hseen. assert (c ∉ found) as Hcf by by rewrite <- Hseen.
  pose proof Hc as [e He]%map_get_is_Some. rewrite He.
  destruct (heap_push_spec before node_before_trans node_before_total queue (mkNode c e (zlen found)) Hheap) as (queue' & Hpush & Hok & Hperm).
  unfold push_node. rewrite Hpush. cbn [mbind option_bind]. eexists _, _, _. split; [done|]. split.
  - apply NoDup_app. split_and!; [done| |apply NoDup_singleton]. intros x Hx ->%list_elem_of_singleton. done.
  - intros x. rewrite elem_of_union, elem_of_singleton, Hseen, elem_of_app, list_elem_of_singleton. done.
  - by rewrite zlen_app.
  - done.
  - intros n. rewrite Hperm, elem_of_cons, Hq. split.
    + intros [-> |(i & Hi & ? & ? & ?)].
      * exists (length found). cbn. rewrite lookup_app_r, Nat.sub_diag by done. split_and!; [done|done|done|]. intros ?%Hdone. done.
      * exists i. split_and!; [|done..]. apply lookup_lt_Some in Hi as Hl. by rewrite lookup_app_l.
    + intros (i & Hi & Hs & Hg & Hd). apply lookup_app_Some in Hi as [Hi|[Hl Hi]]; [right; by exists i|left].
      apply list_lookup_singleton_Some in Hi as [Hi Hn]. destruct n as [o en s]. cbn in *. subst o. rewrite He in Hg. injection Hg as <-.
      f_equal. unfold zlen. lia.
  - rewrite Hperm, fmap_cons. apply NoDup_cons. split; [|done]. cbn. intros ([o en s] & -> & Hn)%list_elem_of_fmap. cbn in *.
    apply Hq in Hn as (i & Hi & _). cbn in Hi. by apply list_elem_of_lookup_2, Hcf in Hi.
  - intros x. rewrite elem_of_app, list_elem_of_singleton. intros [?| ->]; [by apply Hrows|done].
Qed.

Lemma push_entries_spec candidates : ∀ found done seen queue sequence,
  walk_ok found done seen queue sequence → (∀ x, x ∈ done → x ∈ found) → (∀ c, c ∈ candidates → c ∈ entries.*1) →
  ∃ seen' queue' sequence', push_entries entries seen queue sequence candidates = Some (Ok (seen', queue', sequence')) ∧
    walk_ok (discover found candidates) done seen' queue' sequence'.
Proof.
  induction candidates as [|c candidates IH]; intros found done seen queue sequence Hok Hdone Hc; cbn [push_entries discover].
  { by exists seen, queue, sequence. }
  destruct (push_entry_spec found done seen queue sequence c Hok Hdone) as (seen1 & queue1 & s1 & -> & Hok1); [apply Hc; by left|].
  cbn [mbind option_bind]. apply (IH _ done); [done| |intros c' Hc'; apply Hc; by right].
  intros x Hx. apply (discover_elem found [c]). left. by apply Hdone.
Qed.

(** Taking the first node of the queue. *)
Lemma pop_node_spec found done seen queue sequence :
  walk_ok found done seen queue sequence → queue ≠ [] →
  ∃ n queue', pop_node queue = Some (Some n, queue') ∧ (wn_oid n ∈ found) ∧ (wn_oid n ∉ done) ∧
    map_get entries (wn_oid n) = Some (entry n) ∧
    (∀ y, y ∈ found → y ∉ done → y = wn_oid n ∨ goes_first found (wn_oid n) y) ∧
    walk_ok found (done ++ [wn_oid n]) seen queue' sequence.
Proof.
  intros [Hnd Hseen Hs Hheap Hq Hu Hrows] Hne.
  destruct (heap_pop_spec before node_before_trans node_before_total queue Hheap Hne) as (n & queue' & Hpop & Hok & Hperm & Hmin).
  assert (n ∈ queue) as Hn by (rewrite Hperm; by left). destruct (proj1 (Hq n) Hn) as (i & Hi & Hseq & He & Hd).
  rewrite Hperm, fmap_cons in Hu. apply NoDup_cons in Hu as [Hnu Hu].
  exists n, queue'. split_and!; [done|by apply list_elem_of_lookup_2 in Hi|done|done| |].
  - intros y [j Hj]%list_elem_of_lookup Hyd. destruct (decide (y = wn_oid n)) as [-> |Hne']; [by left|right].
    destruct (proj2 (map_get_is_Some entries y)) as [ey Hey]; [by eapply Hrows, list_elem_of_lookup_2|].
    assert (mkNode y ey (Z.of_nat j) ∈ queue') as Hin.
    { assert (mkNode y ey (Z.of_nat j) ∈ queue) as Hin by (apply Hq; exists j; done).
      rewrite Hperm, elem_of_cons in Hin. destruct Hin as [<-|?]; [done|done]. }
    rewrite Forall_forall in Hmin. specialize (Hmin _ Hin). unfold le, before in Hmin. cbn [entry CommitWalk.sequence] in Hmin.
    unfold goes_first, time_of. rewrite He, Hey. cbn [from_option]. destruct (commit_time ey =? _) eqn:E; cbn [negb] in Hmin; zbool.
    + right. split; [done|]. exists i, j. split_and!; [done|done|]. rewrite Hseq in Hmin.
      assert (i ≠ j) by (intros ->; congruence). lia.
    + left. lia.
  - split; try done. intros m. assert (m ∈ queue' ↔ m ∈ queue ∧ wn_oid m ≠ wn_oid n) as ->.
    { rewrite Hperm, elem_of_cons. split.
      - intros Hm. split; [by right|]. intros E. apply Hnu. rewrite <- E. by apply list_elem_of_fmap_2.
      - intros [[-> |?] ?]; done. }
    rewrite Hq. split.
    + intros [(k & ? & ? & ? & ?) ?]. exists k. split_and!; [done..|]. rewrite elem_of_app, list_elem_of_singleton. tauto.
    + intros (k & ? & ? & ? & Hnd'). rewrite elem_of_app, list_elem_of_singleton in Hnd'. split; [exists k|]; tauto.
Qed.

(** * The walk *)

  Context `{repo : WalkRepository}.

(** The commits of [out] as they are read, up to the first that cannot be. *)
Fixpoint complete_all (out : list oid) : yields (oid * Commit) :=
  match out with
  | [] => mkYields [] (Ok tt)
  | x :: out =>
      match map_get entries x ≫= λ e, Some (completeCommit e) with
      | Some (Ok commit) => yielding (x, commit) (complete_all out)
      | Some (Throw e) => fails e
      | None => complete_all out
      end
  end.

  Context (Hclosed : ∀ x y, x ∈ entries.*1 → parent_edge entries boundary x y → y ∈ entries.*1).

Lemma ordered_loop_spec fuel : ∀ found done seen queue sequence,
  (length entries < fuel + length done)%nat → NoDup done → (∀ x, x ∈ done → x ∈ found) → walk_ok found done seen queue sequence →
  ∃ out, ordered_loop fuel entries boundary seen queue sequence = Some (complete_all out) ∧ newest_first found done out.
Proof using Hclosed.
  induction fuel as [|fuel IH]; intros found done seen queue sequence Hfuel Hnd Hdone Hok.
  { assert (length done <= length entries)%nat; [|lia]. rewrite <- (length_fmap fst entries).
    apply submseteq_length, NoDup_submseteq; [done|]. intros x Hx. by apply (walk_rows _ _ _ _ _ Hok), Hdone. }
  cbn [ordered_loop]. destruct (decide (queue = [])) as [-> |Hne].
  { exists []. split; [done|]. constructor. intros x [i Hi]%list_elem_of_lookup.
    destruct (proj2 (map_get_is_Some entries x)) as [e He]; [by eapply (walk_rows _ _ _ _ _ Hok), list_elem_of_lookup_2|].
    destruct (decide (x ∈ done)) as [|Hx]; [done|]. exfalso. apply (not_elem_of_nil (mkNode x e (Z.of_nat i))).
    apply (walk_queue _ _ _ _ _ Hok). by exists i. }
  destruct (pop_node_spec _ _ _ _ _ Hok Hne) as (n & queue' & Hpop & Hnf & Hnd' & He & Hfirst & Hok').
  assert (∃ out, newest_first (discover found (effective_parents entries boundary (wn_oid n))) (done ++ [wn_oid n]) out ∧
    (if bool_decide (wn_oid n ∈ boundary) then ordered_loop fuel entries boundary seen queue' sequence
     else
       r ← push_entries entries seen queue' sequence (parent (en_commit (entry n)));
       match r with
       | Throw e => Some (fails e)
       | Ok (seen, queue, sequence) => ordered_loop fuel entries boundary seen queue sequence
       end) = Some (complete_all out)) as (out & Hout & Hrest).
  { assert (∀ x, x ∈ done ++ [wn_oid n] → x ∈ found) as Hd'
      by (intros x; rewrite elem_of_app, list_elem_of_singleton; intros [?| ->]; [by apply Hdone|done]).
    assert (NoDup (done ++ [wn_oid n])) as Hnd2.
    { apply NoDup_app. split_and!; [done| |apply NoDup_singleton]. by intros x Hx ->%list_elem_of_singleton. }
    assert (length entries < fuel + length (done ++ [wn_oid n]))%nat as Hf2 by (rewrite length_app; cbn; lia).
    pose proof (effective_at entries boundary _ _ He) as Heff. case_bool_decide as Eb; rewrite Heff.
    - destruct (IH found (done ++ [wn_oid n]) seen queue' sequence) as (out & ? & ?); [done..|]. by exists out.
    - destruct (push_entries_spec (parent (en_commit (entry n))) found _ seen queue' sequence Hok' Hd') as (s2 & q2 & n2 & -> & Hok2).
      { intros c Hc. apply (Hclosed (wn_oid n)); [apply map_get_is_Some; by eexists|]. unfold parent_edge. by rewrite Heff. }
      cbn [mbind option_bind]. destruct (IH (discover found (parent (en_commit (entry n)))) (done ++ [wn_oid n]) s2 q2 n2) as (out & ? & ?);
        [done|done| |done|by exists out]. intros x Hx. apply discover_elem. left. by apply Hd'. }
  exists (wn_oid n :: out). split; [|by constructor]. destruct queue as [|q queue]; [done|].
  rewrite Hpop. cbn [mbind option_bind complete_all]. rewrite He. cbn [mbind option_bind].
  destruct (completeCommit (entry n)) as [commit|e]; [|done]. by rewrite Hrest.
Qed.

Lemma orderedCommitGraph_spec root :
  root ∈ entries.*1 →
  ∃ out, orderedCommitGraph root entries boundary = Some (complete_all out) ∧ newest_first [root] [] out.
Proof using Hclosed.
  intros Hroot. unfold orderedCommitGraph.
  destruct (push_entry_spec [] [] ∅ [] 0 root) as (seen & queue & sequence & -> & Hok); [|by intros x ?%elem_of_nil|done|].
  - split; [constructor| |done| | |constructor|by intros x ?%elem_of_nil].
    + intros x. split; [by intros ?%not_elem_of_empty|by intros ?%elem_of_nil].
    + intros i x y _ Hx. by rewrite lookup_nil in Hx.
    + intros n. split; [by intros ?%elem_of_nil|]. intros (i & Hi & _). by rewrite lookup_nil in Hi.
  - cbn [mbind option_bind]. cbn [discover] in Hok. rewrite bool_decide_eq_false_2 in Hok by apply not_elem_of_nil.
    apply (ordered_loop_spec _ [root] []); [cbn; lia|constructor|by intros x ?%elem_of_nil|done].
Qed.

End order.

(** * What the specification implies *)

Section implied.
  Context (entries : jsmap oid CommitCacheEntry) (boundary : list oid).
  Context (root : oid) (Hroot : root ∈ entries.*1).
  Context (Hclosed : ∀ x y, x ∈ entries.*1 → parent_edge entries boundary x y → y ∈ entries.*1).

Notation parent_edge := (parent_edge entries boundary).
Notation newest_first := (newest_first entries boundary).

(** The commits found are the root and the parents of those yielded. *)
Definition found_ok (found done : list oid) : Prop :=
  NoDup done ∧ (∀ x, x ∈ done → x ∈ found) ∧
  ∀ x, x ∈ found ↔ x = root ∨ ∃ c, c ∈ done ∧ parent_edge c x.

Lemma found_ok_next found done x :
  found_ok found done → x ∈ found → x ∉ done → found_ok (discover found (effective_parents entries boundary x)) (done ++ [x]).
Proof using Type.
  clear Hroot Hclosed. intros (Hnd & Hsub & Hf) Hx Hxd. split_and!.
  - apply NoDup_app. split_and!; [done| |apply NoDup_singleton]. by intros y Hy ->%list_elem_of_singleton.
  - intros y. rewrite discover_elem, elem_of_app, list_elem_of_singleton. intros [?| ->]; left; [by apply Hsub|done].
  - intros y. rewrite discover_elem, Hf. setoid_rewrite elem_of_app. setoid_rewrite list_elem_of_singleton. unfold parent_edge. naive_solver.
Qed.

Lemma newest_first_all found done out :
  newest_first found done out → found_ok found done →
  NoDup (done ++ out) ∧ (∀ x, x ∈ done ++ out ↔ x = root ∨ ∃ c, c ∈ done ++ out ∧ parent_edge c x) ∧
  ∀ i x, out !! i = Some x → x = root ∨ ∃ c, c ∈ done ++ take i out ∧ parent_edge c x.
Proof using Type.
  clear Hroot Hclosed. induction 1 as [found done Hall|found done x out Hx Hxd Hmin Hrest IH]; intros Hok.
  - destruct Hok as (Hnd & Hsub & Hf). rewrite app_nil_r. split_and!; [done| |done].
    intros x. rewrite <- Hf. split; auto.
  - destruct (IH (found_ok_next _ _ _ Hok Hx Hxd)) as (Hnd & Hf & Hbefore). rewrite <- app_assoc in Hnd, Hf. cbn [app] in *.
    split_and!; [done|done|]. intros [|i] y; cbn [lookup list_lookup take].
    + intros [= <-]. destruct Hok as (_ & _ & Hok). rewrite app_nil_r. by apply Hok.
    + intros Hi. specialize (Hbefore i y Hi). by rewrite <- app_assoc in Hbefore.
Qed.

Lemma found_ok_start : found_ok [root] [].
Proof using Type.
  clear Hroot Hclosed. split_and!; [constructor|by intros x ?%elem_of_nil|]. intros x. rewrite list_elem_of_singleton. split; [by left|].
  intros [?|(c & []%elem_of_nil & _)]. done.
Qed.

(** The walk yields every commit below the root once, each after one of its children. *)
Lemma newest_first_spec out :
  newest_first [root] [] out →
  NoDup out ∧ (∀ x, x ∈ out ↔ rtc (row_edge entries boundary) root x) ∧
  ∀ i x, out !! i = Some x → x = root ∨ ∃ j c, (j < i)%nat ∧ out !! j = Some c ∧ parent_edge c x.
Proof using Hroot Hclosed.
  intros Hout. destruct (newest_first_all _ _ _ Hout found_ok_start) as (Hnd & Hall & Hbefore). cbn [app] in *.
  assert (∀ x, x ∈ out → rtc (row_edge entries boundary) root x) as Hreach.
  { intros x [i Hi]%list_elem_of_lookup. revert x Hi. induction i as [i IH] using (well_founded_induction Nat.lt_wf_0). intros x Hi.
    destruct (Hbefore i x Hi) as [->|(c & Hc & Hcx)]; [done|]. apply list_elem_of_lookup in Hc as [j Hj].
    apply lookup_take_Some in Hj as [Hj Hji]. apply rtc_r with c; [by apply (IH j)|]. split; [done|].
    apply (Hclosed c); [by eapply parent_edge_row|done]. }
  split_and!; [done| |].
  - intros x. split; [apply Hreach|]. revert x. apply (rtc_ind_r (λ x, x ∈ out)); [apply Hall; by left|].
    intros x y _ [Hxy _] Hx. apply Hall. right. by exists x.
  - intros i x Hi. destruct (Hbefore i x Hi) as [->|(c & Hc & Hcx)]; [by left|right].
    apply list_elem_of_lookup in Hc as [j Hj]. apply lookup_take_Some in Hj as [Hj Hji]. by exists j, c.
Qed.

End implied.

(** * Walking what the database answers *)

Section walk.
  Context `{repo : WalkRepository}.

Definition named (rows : list CommitCacheEntry) : jsmap oid CommitCacheEntry := (λ e, (en_oid e, e)) <$> rows.

Definition row_limit (limit : option Z) : Z := Z.min (default MAX_LOG_COMMITS limit) MAX_LOG_COMMITS.

(** An answer of the database the walk accepts: rows of different commits within the limit,
    the root among them, that make a complete graph. *)
Definition good_rows (root : oid) (boundary : list oid) (limit : option Z) (y : yields CommitCacheEntry) : Prop :=
  ending y = Ok tt ∧ NoDup (named (items y)).*1 ∧ zlen (items y) <= Z.max 0 (row_limit limit) ∧
  root ∈ (named (items y)).*1 ∧ complete_graph root (named (items y)) boundary.

Lemma named_keys rows : (named rows).*1 = en_oid <$> rows.
Proof. unfold named. by rewrite <- list_fmap_compose. Qed.

Lemma collect_rows_items maxCommits rows : ∀ entries,
  NoDup entries.*1 →
  match for_items (collect_row maxCommits) entries rows with
  | Ok entries' => entries' = entries ++ named rows ∧ NoDup entries'.*1 ∧ (rows = [] ∨ zlen entries' <= maxCommits)
  | Throw _ => ¬ (NoDup (entries ++ named rows).*1 ∧ (rows = [] ∨ zlen (entries ++ named rows) <= maxCommits))
  end.
Proof.
  induction rows as [|e rows IH]; intros entries Hnd; cbn [for_items].
  { rewrite app_nil_r. split_and!; [done|done|by left]. }
  assert (collect_row maxCommits entries e =
          if map_has entries (en_oid e) then Throw (corrupt "commit graph yielded a duplicate oid")
          else if maxCommits <=? zlen entries then Throw too_many else Ok (map_set entries (en_oid e) e)) as -> by done.
  destruct (map_has entries (en_oid e)) eqn:Eh; cbn [mbind outcome_bind].
  - intros [Hnd' _]. apply map_has_spec in Eh. rewrite fmap_app in Hnd'. apply NoDup_app in Hnd' as (_ & Hno & _).
    apply (Hno _ Eh). cbn. by left.
  - destruct (maxCommits <=? zlen entries) eqn:El; zbool; cbn [mbind outcome_bind].
    + intros [_ [?|Hle]]; [done|]. rewrite zlen_app in Hle. unfold named in Hle. rewrite fmap_cons, zlen_cons in Hle.
      pose proof (zlen_nonneg (named rows)). unfold named in *. lia.
    + assert (map_get entries (en_oid e) = None) as Hnone.
      { apply map_get_None. intros Hin. apply map_has_spec in Hin. congruence. }
      rewrite (map_set_new entries (en_oid e) e Hnone).
      assert (NoDup (entries ++ [(en_oid e, e)]).*1) as Hnd1 by (rewrite <- (map_set_new entries (en_oid e) e Hnone); by apply map_set_NoDup).
      specialize (IH (entries ++ [(en_oid e, e)]) Hnd1). rewrite <- app_assoc in IH. cbn [app] in IH.
      assert (entries ++ named (e :: rows) = entries ++ (en_oid e, e) :: named rows) as -> by done.
      destruct (for_items _ _ rows) as [entries'|err].
      * destruct IH as (-> & Hnd2 & Hle). split_and!; [done|done|right]. destruct Hle as [->|?]; [|done].
        rewrite zlen_app, zlen_cons. change (zlen (named [])) with 0. lia.
      * intros [H1 [?|H2]]; [done|]. apply IH. split; [done|by right].
Qed.

Lemma collect_rows_spec root limit :
  let y := readCommitGraphOwned root limit in
  match collect_rows root limit with
  | Ok entries => entries = named (items y) ∧ ending y = Ok tt ∧ NoDup entries.*1 ∧ zlen (items y) <= Z.max 0 (row_limit limit) ∧ root ∈ entries.*1
  | Throw _ => ∀ boundary, ¬ good_rows root boundary limit y
  end.
Proof.
  intros y. unfold collect_rows, for_of. fold y. fold (row_limit limit).
  pose proof (collect_rows_items (row_limit limit) (items y) [] NoDup_nil_2) as H. cbn [app] in H.
  assert (zlen (named (items y)) = zlen (items y)) as Hz by (unfold named, zlen; by rewrite length_fmap).
  destruct (for_items _ _ (items y)) as [entries|e]; cbn [mbind outcome_bind].
  - destruct H as (-> & Hnd & Hle). destruct (ending y) as [[]|e] eqn:Ee; cbn [mbind outcome_bind].
    + destruct (map_has (named (items y)) root) eqn:Eh; cbn [negb].
      * apply map_has_spec in Eh. split_and!; [done|done|done| |done]. rewrite Hz in Hle. destruct Hle as [E|Hle]; [rewrite E; change (zlen []) with 0|]; lia.
      * intros boundary (_ & _ & _ & Hr & _). apply map_has_spec in Hr. congruence.
    + intros boundary (He & _). congruence.
  - intros boundary (_ & Hnd & Hle & Hr & _). apply H. split; [done|]. destruct (items y) as [|r rows] eqn:Ei; [by left|right].
    rewrite Hz. rewrite zlen_cons in *. pose proof (zlen_nonneg rows). lia.
Qed.

Lemma walkIndexedOwned_spec id limit :
  ∃ y, walkIndexedOwned id limit = Some y ∧
  match peel id, readShallowOwned with
  | Ok root, Ok boundary =>
      let rows := readCommitGraphOwned root limit in
      (good_rows root boundary limit rows ∧ ∃ out, newest_first (named (items rows)) boundary [root] [] out ∧ y = complete_all (named (items rows)) out) ∨
      (¬ good_rows root boundary limit rows ∧ ∃ e, y = fails e)
  | _, _ => ∃ e, y = fails e
  end.
Proof.
  unfold walkIndexedOwned. destruct (peel id) as [root|e]; [|by eexists; split; [|exists e]].
  destruct readShallowOwned as [boundary|e]; [|by eexists; split; [|exists e]]. cbn [mbind outcome_bind].
  pose proof (collect_rows_spec root limit) as Hc. cbv zeta in Hc |- *.
  destruct (collect_rows root limit) as [entries|e]; cbn [mbind outcome_bind].
  2:{ eexists. split; [done|]. right. split; [apply Hc|by exists e]. }
  destruct Hc as (-> & He & Hnd & Hle & Hroot). set (entries := named _) in *.
  destruct (validateCommitGraph_complete root entries boundary Hnd Hroot) as (r & -> & Hr & _). cbn [mbind option_bind].
  destruct r as [[]|e].
  - pose proof (proj1 Hr eq_refl) as Hg. destruct (orderedCommitGraph_spec entries boundary (proj1 (proj2 Hg)) root Hroot) as (out & -> & Hout).
    eexists. split; [done|]. left. split; [by split_and!|by exists out].
  - eexists. split; [done|]. right. split; [|by exists e]. intros (_ & _ & _ & _ & Hg). apply Hr in Hg. discriminate.
Qed.

(** What a walk yields when every commit could be read. *)
Lemma complete_all_names entries out :
  (∀ x, x ∈ out → x ∈ entries.*1) → ending (complete_all entries out) = Ok tt → (items (complete_all entries out)).*1 = out.
Proof.
  induction out as [|x out IH]; intros Hin; cbn [complete_all]; [done|].
  destruct (proj2 (map_get_is_Some entries x)) as [e He]; [apply Hin; by left|]. rewrite He. cbn [mbind option_bind].
  destruct (completeCommit e); [|done]. cbn [ending items yielding]. intros Hend. rewrite fmap_cons. f_equal. apply IH; [|done].
  intros y Hy. apply Hin. by right.
Qed.

(** C4: whatever rows the database answers for a root, walking the commits below it ends.  If
    the rows are not those of a complete graph (different commits within the limit, the root
    among them, every parent present, all reachable, no cycle; a shallow commit's parents do not
    count) the walk fails before its first commit.  Else it follows the specification: each
    commit below the root exactly once, after one of its children, always the newest of those
    found, the one found first among equals; it stops early only where a commit cannot be read. *)
Theorem walkIndexedOwned_correct id limit root boundary :
  peel id = Ok root → readShallowOwned = Ok boundary →
  let rows := readCommitGraphOwned root limit in
  let entries := named (items rows) in
  ∃ y, walkIndexedOwned id limit = Some y ∧
    ((¬ good_rows root boundary limit rows ∧ ∃ e, y = fails e) ∨
     good_rows root boundary limit rows ∧ ∃ out,
      newest_first entries boundary [root] [] out ∧ y = complete_all entries out ∧
      NoDup out ∧ (∀ x, x ∈ out ↔ rtc (row_edge entries boundary) root x) ∧
      ∀ i x, out !! i = Some x → x = root ∨ ∃ j c, (j < i)%nat ∧ out !! j = Some c ∧ parent_edge entries boundary c x).
Proof.
  intros Hp Hs rows entries. destruct (walkIndexedOwned_spec id limit) as (y & Hy & H). rewrite Hp, Hs in H. cbv zeta in H.
  exists y. split; [done|]. destruct H as [(Hg & out & Hout & ->)|Hbad]; [right|by left]. split; [done|].
  exists out. split; [done|]. split; [done|]. destruct Hg as (_ & _ & _ & Hroot & _ & Hclosed & _).
  by apply newest_first_spec.
Qed.

End walk.

(** A history with two merges of the same two commits: names by letter, times by argument. *)
Definition example_oid (u : Z) : oid := replicate 40 u.
Definition example_row (u time : Z) (parents : list Z) : CommitCacheEntry :=
  mkEntry (example_oid u) true
    (mkCommit (example_oid 0x30) (example_oid <$> parents) no_person (person [] [] time 0) None []).

Definition example_rows (root : oid) : list CommitCacheEntry :=
  let below := [example_row 0x62 20 [0x61]; example_row 0x63 30 [0x61]; example_row 0x61 10 []] in
  if bool_decide (root = example_oid 0x64) then example_row 0x64 40 [0x62; 0x63] :: below
  else if bool_decide (root = example_oid 0x65) then example_row 0x65 50 [0x63; 0x62] :: below
  else below.

Definition example_repo : WalkRepository := {|
  peel := Ok; typeOf := λ _, Ok commit_type; readShallowOwned := Ok [];
  readCommitGraphOwned := λ root _, mkYields (example_rows root) (Ok tt);
  readCommitTreeRoots := λ root, mkYields (en_oid <$> example_rows root) (Ok tt);
  cachedCommit := λ id, Ok (head (filter (λ e, en_oid e = id) (example_rows (example_oid 0x64))));
  typeAndSize := λ _, Ok None; readObject := λ _, Ok None; readAuthenticatedObject := λ _, Ok None;
  repoId := 1; sha1 := λ _, []
|}.

Lemma shown_parts {A} (y : yields (oid * A)) out ending' :
  Some ((items y).*1, ending y) = Some (out, ending') → (items y).*1 = out ∧ ending y = ending'.
Proof. by intros [= -> ->]. Qed.

Lemma walkIndexedOwned_correct_witness :
  let out := example_oid <$> [0x64; 0x63; 0x62; 0x61] in
  newest_first (named (example_rows (example_oid 0x64))) [] [example_oid 0x64] [] out ∧
  complete_graph (example_oid 0x64) (named (example_rows (example_oid 0x64))) [].
Proof.
  intros out. destruct (walkIndexedOwned_correct (repo := example_repo) (example_oid 0x64) None (example_oid 0x64) [] eq_refl eq_refl)
    as (y & Hy & [(_ & e & ->)|(Hg & out' & Hout & -> & _ & Hall & _)]).
  - vm_compute in Hy. discriminate.
  - cbn [readCommitGraphOwned example_repo items] in *. split; [|apply Hg].
    assert (out' = out) as <-; [|done].
    assert (∀ x, x ∈ out' → x ∈ (named (example_rows (example_oid 0x64))).*1) as Hin
      by (intros x Hx; apply (reached_row _ [] (example_oid 0x64)); [apply Hg|by apply Hall]).
    assert ((λ y, ((items y).*1, ending y)) <$> walkIndexedOwned (repo := example_repo) (example_oid 0x64) None
            = Some (out, Ok tt)) as Hc by (vm_compute; reflexivity).
    rewrite Hy in Hc. cbn [fmap option_fmap option_map] in Hc.
    apply shown_parts in Hc as [Hi He]. rewrite <- Hi.
    symmetry. exact (complete_all_names (repo := example_repo) _ out' Hin He).
Defined.
