(* ===== verification/CommitPrunedFacts.v ===== *)
(** The walk that reads commit by commit against the walk over indexed rows: where the store
    has the rows the database answers, [walkOwned] and [walkIndexedOwned] yield the same. *)

From S2P Require Import Prelude JsMap CommitHeap Objects CommitWalk CommitGraphFacts CommitWalkFacts.

Section pruned.
  Context `{repo : WalkRepository} (entries : jsmap oid CommitCacheEntry) (boundary : list oid).
  Context (Hread : ∀ x e, map_get entries x = Some e → readCommitEntryOwned x = Ok e).
  Context (Hlimit : zlen entries <= MAX_LOG_COMMITS).
  Context (Hclosed : ∀ x y, x ∈ entries.*1 → parent_edge entries boundary x y → y ∈ entries.*1).

Notation walk_ok := (walk_ok entries).

Lemma completeCommit_parent e c : completeCommit e = Ok c → parent c = parent (en_commit e).
Proof using Type.
  clear Hread Hlimit Hclosed. unfold completeCommit. destruct (messageStored e); [by intros [= <-]|].
  intros (object & _ & H)%bind_ok_inv. destruct object as [data|]; [|done]. by apply bind_ok_inv in H as (parsed & _ & [= <-]).
Qed.

(** A commit with a row that is not seen yet leaves room under the limit. *)
Lemma seen_limit found done seen queue sequence c :
  walk_ok found done seen queue sequence → c ∈ entries.*1 → c ∉ seen → Z.of_nat (size seen) < MAX_LOG_COMMITS.
Proof using Hlimit.
  clear Hread Hclosed. intros [Hnd Hseen _ _ _ _ Hrows] Hc Hcs. assert (c ∉ found) as Hcf by by rewrite <- Hseen.
  assert (seen = list_to_set found) as -> by (apply set_eq; intros x; by rewrite elem_of_list_to_set, Hseen).
  rewrite size_list_to_set by done. assert (length (c :: found) <= length entries)%nat as Hl; [|cbn in Hl; unfold zlen in Hlimit; lia].
  rewrite <- (length_fmap fst entries). apply submseteq_length, NoDup_submseteq; [by apply NoDup_cons|].
  intros x [->|Hx]%elem_of_cons; [done|by apply Hrows].
Qed.

Lemma push_candidate_entry found done seen queue sequence c :
  walk_ok found done seen queue sequence → c ∈ entries.*1 →
  push_candidate seen queue sequence c = push_entry entries seen queue sequence c.
Proof using Hread Hlimit.
  intros Hok Hc. unfold push_candidate, push_entry. case_bool_decide as Hcs; [done|].
  pose proof (seen_limit _ _ _ _ _ c Hok Hc Hcs) as Hlt. rewrite (proj2 (Z.leb_gt _ _) Hlt).
  apply map_get_is_Some in Hc as [e He]. by rewrite He, (Hread c e He).
Qed.

Lemma push_selected_entries commit candidates : ∀ found done seen queue sequence,
  walk_ok found done seen queue sequence → (∀ x, x ∈ done → x ∈ found) →
  (∀ c, c ∈ candidates → c ∈ entries.*1) → (∀ c, c ∈ candidates → c ∈ parent commit) →
  push_selected commit seen queue sequence candidates = push_entries entries seen queue sequence candidates.
Proof using Hread Hlimit.
  induction candidates as [|c candidates IH]; intros found done seen queue sequence Hok Hdone Hc Hp.
  { done. }
  cbn [push_selected push_entries]. rewrite bool_decide_eq_true_2 by (apply Hp; by left). cbn [negb].
  assert (c ∈ entries.*1) as Hck by (apply Hc; by left). rewrite (push_candidate_entry found done) by done.
  destruct (push_entry_spec entries found done seen queue sequence c Hok Hdone Hck) as (seen1 & queue1 & s1 & -> & Hok1).
  cbn [mbind option_bind]. apply (IH (discover found [c]) done); [done| |intros x ?; apply Hc; by right|intros x ?; apply Hp; by right].
  intros x Hx. apply discover_elem. left. by apply Hdone.
Qed.

(** What the pruned walk yields when everything is included. *)
Definition all_included (y : yields (oid * Commit)) : yields (oid * Commit * bool) := mkYields ((λ p, (p, true)) <$> items y) (ending y).

Definition every_parent (_ : oid) (commit : Commit) : PrunedCommitWalkDecision := mkDecision true (parent commit).

Lemma pruned_loop_ordered fuel : ∀ fuel' found done seen queue sequence y,
  (fuel <= fuel')%nat → walk_ok found done seen queue sequence → (∀ x, x ∈ done → x ∈ found) →
  ordered_loop fuel entries boundary seen queue sequence = Some y →
  pruned_loop fuel' every_parent boundary seen queue sequence = Some (all_included y).
Proof using Hread Hlimit Hclosed.
  induction fuel as [|fuel IH]; intros fuel' found done seen queue sequence y Hf Hok Hdone.
  { done. }
  destruct fuel' as [|fuel']; [lia|]. apply le_S_n in Hf. cbn [ordered_loop pruned_loop]. destruct (decide (queue = [])) as [-> |Hne]; [by intros [= <-]|].
  destruct (pop_node_spec entries _ _ _ _ _ Hok Hne) as (n & queue' & Hpop & Hnf & _ & He & _ & Hok').
  destruct queue as [|q queue]; [done|]. rewrite Hpop. cbn [mbind option_bind].
  destruct (completeCommit (entry n)) as [commit|e] eqn:Ec; [|by intros [= <-]]. apply completeCommit_parent in Ec. cbn [every_parent d_parents include].
  assert (∀ x, x ∈ done ++ [wn_oid n] → x ∈ found) as Hd'
    by (intros x; rewrite elem_of_app, list_elem_of_singleton; intros [?| ->]; [by apply Hdone|done]).
  assert (∀ o rest o', (∀ y', o = Some y' → o' = Some (all_included y')) → (o ≫= λ r, Some (yielding (wn_oid n, commit) r)) = Some rest →
            (o' ≫= λ r, Some (yielding (wn_oid n, commit, true) r)) = Some (all_included rest)) as Hstep.
  { intros [y'|] rest o' Ho; [|done]. rewrite (Ho y' eq_refl). by intros [= <-]. }
  apply Hstep. intros y'. pose proof (effective_at entries boundary _ _ He) as Heff. case_bool_decide as Eb; [by apply (IH fuel' found (done ++ [wn_oid n]))|].
  assert (∀ c, c ∈ parent commit → c ∈ entries.*1) as Hc.
  { intros c Hc. apply (Hclosed (wn_oid n)); [apply map_get_is_Some; by eexists|]. unfold parent_edge. by rewrite Heff, <- Ec. }
  rewrite (push_selected_entries commit _ found (done ++ [wn_oid n])), <- Ec by done.
  destruct (push_entries_spec entries (parent commit) found _ seen queue' sequence Hok' Hd' Hc) as (s2 & q2 & n2 & -> & Hok2).
  cbn [mbind option_bind]. apply (IH fuel' (discover found (parent commit)) (done ++ [wn_oid n])); [done|done|]. intros x Hx. apply discover_elem. left. by apply Hd'.
Qed.

End pruned.

(** An accepted answer is walked. *)
Lemma walkIndexedOwned_good `{repo : WalkRepository} id limit root boundary :
  peel id = Ok root → readShallowOwned = Ok boundary → good_rows root boundary limit (readCommitGraphOwned root limit) →
  walkIndexedOwned id limit = orderedCommitGraph root (named (items (readCommitGraphOwned root limit))) boundary.
Proof.
  intros Hp Hs Hg. unfold walkIndexedOwned. rewrite Hp, Hs. cbn [mbind outcome_bind].
  pose proof (collect_rows_spec root limit) as Hc. cbv zeta in Hc. destruct (collect_rows root limit) as [entries|e]; [|by destruct (Hc boundary)].
  destruct Hc as (-> & _ & Hnd & _ & Hroot). cbn [mbind outcome_bind]. destruct Hg as (_ & _ & _ & _ & Hg).
  destruct (validateCommitGraph_complete root _ boundary Hnd Hroot) as (r & -> & Hr & _). by rewrite (proj2 Hr Hg).
Qed.

(** C12: where the rows the database answers are a complete graph without cycles within the
    limit ([good_rows], the answers that the indexed walk does not refuse), and each row is the
    one the store reads for that name, the walk that reads commit by commit and the walk over
    the indexed rows yield the same commits in the same order, with the same end.  (Of an
    incomplete graph the indexed walk yields nothing, the other the commits before the gap.) *)
Theorem walkOwned_indexed `{repo : WalkRepository} id root boundary :
  peel id = Ok root → readShallowOwned = Ok boundary →
  let rows := readCommitGraphOwned root None in
  good_rows root boundary None rows → (∀ e, e ∈ items rows → readCommitEntryOwned (en_oid e) = Ok e) →
  ∃ y, walkOwned id = Some y ∧ walkIndexedOwned id None = Some y.
Proof.
  intros Hp Hs rows Hg Hread. set (entries := named (items rows)).
  pose proof (walkIndexedOwned_good id None root boundary Hp Hs Hg) as Hwalk. fold rows entries in Hwalk.
  destruct Hg as (_ & Hnd & Hle & Hroot & Hc). pose proof (proj1 (proj2 Hc)) as Hclosed. fold entries in Hnd, Hroot, Hclosed.
  assert (∀ x e, map_get entries x = Some e → readCommitEntryOwned x = Ok e) as Hrows.
  { intros x e He%map_get_elem. unfold entries, named in He. apply list_elem_of_fmap in He as (e' & [= -> ->] & He'). by apply Hread. }
  assert (zlen entries <= MAX_LOG_COMMITS) as Hlimit.
  { assert (row_limit None = MAX_LOG_COMMITS) as E by done. rewrite E in Hle. unfold MAX_LOG_COMMITS in *. unfold entries, named, zlen in *. rewrite length_fmap. lia. }
  assert (walk_ok entries [] [] ∅ [] 0) as Hstart.
  { split; [constructor| |done| | |constructor|by intros x ?%elem_of_nil].
    - intros x. split; [by intros ?%not_elem_of_empty|by intros ?%elem_of_nil].
    - intros i u v _ Hx. by rewrite lookup_nil in Hx.
    - intros n. split; [by intros ?%elem_of_nil|]. intros (i & Hi & _). by rewrite lookup_nil in Hi. }
  unfold orderedCommitGraph in Hwalk. change (walkOwned id) with (y ← walkPrunedOwned id every_parent; Some (mkYields (fst <$> items y) (ending y))).
  unfold walkPrunedOwned. rewrite Hp, (push_candidate_entry entries Hrows Hlimit [] []) by done.
  destruct (push_entry_spec entries [] [] ∅ [] 0 root Hstart) as (seen & queue & sequence & Hpush & Hok); [by intros x ?%elem_of_nil|done|].
  rewrite Hpush in Hwalk |- *.
  cbn [mbind option_bind] in Hwalk |- *. rewrite Hs. cbn [discover] in Hok. rewrite bool_decide_eq_false_2 in Hok by apply not_elem_of_nil. cbn [app] in Hok.
  destruct (ordered_loop_spec entries boundary Hclosed (S (length entries)) [root] [] seen queue sequence) as (out' & Hloop & Hout');
    [cbn; lia|constructor|by intros x ?%elem_of_nil|done|].
  rewrite (pruned_loop_ordered entries boundary Hrows Hlimit Hclosed (S (length entries)) (S (Z.to_nat MAX_LOG_COMMITS)) [root] [] seen queue sequence _
             ltac:(unfold zlen in Hlimit; lia) Hok ltac:(by intros x ?%elem_of_nil) Hloop).
  cbn [mbind option_bind all_included items ending]. exists (complete_all entries out'). rewrite Hwalk, Hloop. split; [|done]. f_equal.
  destruct (complete_all entries out') as [l e]. cbn [all_included items ending]. f_equal. rewrite <- list_fmap_compose.
  by rewrite <- (list_fmap_id l) at 2.
Qed.

Lemma example_good : good_rows (example_oid 0x64) [] None (mkYields (example_rows (example_oid 0x64)) (Ok tt)).
Proof.
  destruct (walkIndexedOwned_spec (repo := example_repo) (example_oid 0x64) None) as (y & Hy & [(Hg & _)|(_ & e & ->)]); [exact Hg|].
  vm_compute in Hy. discriminate.
Qed.

Lemma walkOwned_indexed_witness :
  ∃ y, walkOwned (repo := example_repo) (example_oid 0x64) = Some y ∧ walkIndexedOwned (repo := example_repo) (example_oid 0x64) None = Some y.
Proof.
  apply (walkOwned_indexed (repo := example_repo) (example_oid 0x64) (example_oid 0x64) []); [reflexivity|reflexivity|exact example_good|].
  intros e He. assert (Forall (λ e, readCommitEntryOwned (repo := example_repo) (en_oid e) = Ok e) (example_rows (example_oid 0x64))) as Hall
    by (vm_compute; repeat constructor).
  rewrite Forall_forall in Hall. by apply Hall.
Defined.
