(* ===== verification/MergeBase.v ===== *)
(** Merge bases: src/packages/git/src/ops/merge/merge-base.ts.

    Two walks give the commits of each side; the common ones that no other common one descends
    to are the best common ancestors. *)

From S2P Require Import Prelude Text Bytes Objects JsMap CommitHeap CommitWalk.

Definition MAX_MERGE_BASE_COMMITS : Z := MAX_LOG_COMMITS.
Definition MAX_MERGE_BASES : Z := 64.

Definition CURRENT : Z := 1.
Definition INCOMING : Z := 2.
Definition BOTH : Z := Z.lor CURRENT INCOMING.

Inductive MergeBaseKind := AlreadyMerged | FastForward | Divergent | Unrelated | Shallow.
Record MergeBaseSelection := mkSelection { kind : MergeBaseKind; bases : list oid; commits : Z }.

(** A limit that is not given, or a number, [None] being one that is no integer. *)
Notation limit_value := (option (option Z)).
Record MergeBaseLimits := mkLimits { l_maxCommits : limit_value; l_maxBases : limit_value }.
Record MergeBaseInput := mkInput { currentOid : oid; incomingOid : oid; limits : option MergeBaseLimits }.
Record ResolvedLimits := mkResolved { maxCommits : Z; maxBases : Z }.

Record AheadBehindResult := mkAheadBehind { ab_ahead : Z; ab_behind : Z; ab_commits : Z }.
Inductive DivergenceRelationship := rel_identical | rel_ahead | rel_behind | rel_diverged | rel_unrelated | rel_shallow.
Record DivergenceResult := mkDivergence { relationship : DivergenceRelationship; d_ahead : Z; d_behind : Z }.

Record GraphNode := mkGraphNode { g_commit : Commit; sides : Z }.
Notation graph := (jsmap oid GraphNode) (only parsing).
Record GraphState := mkState { nodes : jsmap oid GraphNode; shallow : list oid }.

Definition boundedLimit (value : limit_value) (ceiling : Z) (label : string) : outcome Z :=
  match value with
  | None => Ok ceiling
  | Some (Some n) =>
      if negb (isSafeInteger n) || (n <? 1) || (ceiling <? n)
      then Throw (RangeError (js "invalid merge-base " ++ js label ++ js " limit")) else Ok n
  | Some None => Throw (RangeError (js "invalid merge-base " ++ js label ++ js " limit"))
  end.

Definition resolveLimits (limits : option MergeBaseLimits) : outcome ResolvedLimits :=
  c ← boundedLimit (limits ≫= l_maxCommits) MAX_MERGE_BASE_COMMITS "commit";
  b ← boundedLimit (limits ≫= l_maxBases) MAX_MERGE_BASES "base";
  Ok (mkResolved c b).

(** [left[index] !== right[index]] for some index, or different lengths. *)
Definition sameParents (left right : list oid) : bool :=
  if negb (zlen left =? zlen right) then false
  else forallb (λ index, bool_decide (left !! index = right !! index)) (seq 0 (length left)).

Definition too_many_commits (n : Z) : jserror :=
  GitError (js "E2BIG") (js "merge-base graph exceeds " ++ number_string n ++ js " unique commits").

(** One commit of a walk. *)
Definition add_commit (side : Z) (limits : ResolvedLimits) (nodes : jsmap oid GraphNode) (walked : oid * Commit) : outcome (jsmap oid GraphNode) :=
  let '(id, commit) := walked in
  match map_get nodes id with
  | Some existing =>
      if negb (str_eqb (c_tree (g_commit existing)) (c_tree commit)) || negb (sameParents (parent (g_commit existing)) (parent commit))
      then Throw (corrupt "indexed graph returned inconsistent commit identities")
      else Ok (map_set nodes id (mkGraphNode (g_commit existing) (Z.lor (sides existing) side)))
  | None =>
      if maxCommits limits <=? zlen nodes then Throw (too_many_commits (maxCommits limits))
      else Ok (map_set nodes id (mkGraphNode commit side))
  end.

(** The order of two names by code units. *)
Fixpoint compare_units (l r : list Z) : Z :=
  match l, r with
  | [], [] => 0
  | [], _ => -1
  | _, [] => 1
  | a :: l, b :: r => if a =? b then compare_units l r else if a <? b then -1 else 1
  end.
Definition compareOids (left right : oid) : Z :=
  if bool_decide (left = right) then 0 else if compare_units left right <? 0 then -1 else 1.

(** * Best common ancestors *)

Definition commonNodes (nodes : jsmap oid GraphNode) : list oid := fst <$> filter (λ n : oid * GraphNode, sides n.2 = BOTH) nodes.

Definition count_parent (nodes : jsmap oid GraphNode) (shallow : list oid) (id : oid) (counts : jsmap oid Z) (p : oid) : outcome (jsmap oid Z) :=
  if negb (map_has nodes p) then
    if negb (bool_decide (id ∈ shallow)) then Throw (corrupt "merge-base graph is missing a parent row") else Ok counts
  else Ok (map_set counts p (default 0 (map_get counts p) + 1)).

Definition countChildren (nodes : jsmap oid GraphNode) (shallow : list oid) : outcome (jsmap oid Z) :=
  for_items (λ counts n, for_items (count_parent nodes shallow n.1) counts (parent (g_commit n.2)))
    (foldl (λ counts n, map_set counts n.1 0) [] nodes) nodes.

(** The commits whose children are all processed, the last pushed first, and what is known of
    the others. *)
Record Sweep := mkSweep { childCounts : jsmap oid Z; ready : list oid; hasCommonDescendant : gset oid; dominated : gset oid }.

Definition take_parent (common : list oid) (propagates : bool) (s : Sweep) (p : oid) : Sweep :=
  match map_get (childCounts s) p with
  | None => s
  | Some children =>
      let s := if propagates then
                 mkSweep (childCounts s) (ready s) (hasCommonDescendant s ∪ {[p]})
                   (if bool_decide (p ∈ common) then dominated s ∪ {[p]} else dominated s)
               else s in
      let remaining := children - 1 in
      mkSweep (map_set (childCounts s) p remaining) (if remaining =? 0 then p :: ready s else ready s)
        (hasCommonDescendant s) (dominated s)
  end.

(** The sweep from children to parents, with the number of commits processed. *)
Fixpoint sweep_loop (fuel : nat) (nodes : jsmap oid GraphNode) (common : list oid) (s : Sweep) (processed : Z) : option (outcome (Sweep * Z)) :=
  match fuel with
  | O => None
  | S fuel =>
      match ready s with
      | [] => Some (Ok (s, processed))
      | id :: rest =>
          match map_get nodes id with
          | None => Some (Throw (corrupt "merge-base graph lost a ready commit"))
          | Some node =>
              let propagates := bool_decide (id ∈ common) || bool_decide (id ∈ hasCommonDescendant s) in
              let s := mkSweep (childCounts s) rest (hasCommonDescendant s) (dominated s) in
              sweep_loop fuel nodes common (foldl (take_parent common propagates) s (parent (g_commit node))) (processed + 1)
          end
      end
  end.

(** Every commit is ready at most once. *)
Definition bestCommonAncestors (nodes : jsmap oid GraphNode) (shallow : list oid) : option (outcome (list oid)) :=
  let common := commonNodes nodes in
  match countChildren nodes shallow with
  | Throw e => Some (Throw e)
  | Ok childCounts =>
      let ready := reverse (fst <$> filter (λ n : oid * Z, n.2 = 0) childCounts) in
      r ← sweep_loop (S (length nodes)) nodes common (mkSweep childCounts ready ∅ ∅) 0;
      Some (
        '(s, processed) ← r;
        if negb (processed =? zlen nodes) then Throw (corrupt "merge-base graph contains a cycle")
        else Ok (sort_by compareOids (filter (λ id, id ∉ dominated s) common)))
  end.

(** * The operations *)

Section repository.
  Context `{repo : WalkRepository} (revParse : ustring → outcome oid).

Definition addReachable (root : oid) (side : Z) (limits : ResolvedLimits) (nodes : jsmap oid GraphNode) : option (outcome (jsmap oid GraphNode)) :=
  y ← walkIndexedOwned root (Some (maxCommits limits));
  Some (for_of (add_commit side limits) nodes y).

Definition require_commit (id : oid) : outcome unit :=
  type ← typeOf id;
  throw_if (negb (bool_decide (type_name type = js "commit"))) (CorruptError (id ++ js " is a " ++ type_name type ++ js ", not a commit")).

Definition not_full : jserror := GitErr "EINVAL" "merge-base inputs must be full object ids".

Definition reachableGraphOwned (input : MergeBaseInput) : option (outcome (GraphState * ResolvedLimits)) :=
  match (_ ← throw_if (negb (isOid (currentOid input)) || negb (isOid (incomingOid input))) not_full;
         limits ← resolveLimits (limits input);
         _ ← require_commit (currentOid input);
         _ ← require_commit (incomingOid input);
         shallow ← readShallowOwned;
         Ok (limits, shallow)) with
  | Throw e => Some (Throw e)
  | Ok (limits, shallow) =>
      r ← addReachable (currentOid input) CURRENT limits [];
      match r with
      | Throw e => Some (Throw e)
      | Ok nodes =>
          r ← addReachable (incomingOid input) INCOMING limits nodes;
          Some (nodes ← r; Ok (mkState nodes shallow, limits))
      end
  end.

Definition side_of (state : GraphState) (id : oid) : option Z := sides <$> map_get (nodes state) id.

(** Some shallow commit belongs to one side only. *)
Definition cut_off (state : GraphState) : bool :=
  existsb (λ id, match side_of state id with Some side => negb (side =? BOTH) | None => false end) (shallow state).

Definition selectMergeBases (input : MergeBaseInput) : option (outcome MergeBaseSelection) :=
  r ← reachableGraphOwned input;
  match r with
  | Throw e => Some (Throw e)
  | Ok (state, limits) =>
      let result kind bases := mkSelection kind bases (zlen (nodes state)) in
      if bool_decide (side_of state (incomingOid input) = Some BOTH) then Some (Ok (result AlreadyMerged [incomingOid input]))
      else if bool_decide (side_of state (currentOid input) = Some BOTH) then Some (Ok (result FastForward [currentOid input]))
      else if cut_off state then Some (Ok (result Shallow []))
      else
        r ← bestCommonAncestors (nodes state) (shallow state);
        Some (
          bases ← r;
          if zlen bases =? 0 then Ok (result Unrelated [])
          else if maxBases limits <? zlen bases
          then Throw (GitError (js "E2BIG") (js "merge-base result exceeds " ++ number_string (maxBases limits) ++ js " best bases"))
          else Ok (result Divergent bases))
  end.

Definition mergeBase (current incoming : ustring) : option (outcome (MergeBaseKind * list oid)) :=
  match (c ← revParse current; c ← peel c; i ← revParse incoming; i ← peel i; Ok (c, i)) with
  | Throw e => Some (Throw e)
  | Ok (c, i) =>
      r ← selectMergeBases (mkInput c i None);
      Some (s ← r; Ok (kind s, bases s))
  end.

(** One name of [countAheadBehind]. *)
Definition add_side (side maxCommits : Z) (sides : jsmap oid Z) (id : oid) : outcome (jsmap oid Z) :=
  if negb (map_has sides id) && (maxCommits <=? zlen sides) then Throw (too_many_commits maxCommits)
  else Ok (map_set sides id (Z.lor (default 0 (map_get sides id)) side)).

Definition countAheadBehind (input : MergeBaseInput) : outcome AheadBehindResult :=
  _ ← throw_if (negb (isOid (currentOid input)) || negb (isOid (incomingOid input))) not_full;
  limits ← resolveLimits (limits input);
  sides ← for_items (λ sides '(root, side),
              _ ← require_commit root;
              for_of (add_side side (maxCommits limits)) sides (readCommitTreeRoots root))
            [] [(currentOid input, CURRENT); (incomingOid input, INCOMING)];
  let ahead := zlen (filter (λ s : oid * Z, s.2 = CURRENT) sides) in
  let behind := zlen (filter (λ s : oid * Z, s.2 = INCOMING) sides) in
  Ok (mkAheadBehind ahead behind (zlen sides)).

Definition divergence_of (state : GraphState) : DivergenceResult :=
  let count side := zlen (filter (λ n : oid * GraphNode, sides n.2 = side) (nodes state)) in
  let ahead := count CURRENT in
  let behind := count INCOMING in
  let related := existsb (λ n, negb (sides n.2 =? CURRENT) && negb (sides n.2 =? INCOMING)) (nodes state) in
  let rel := if cut_off state then rel_shallow
             else if negb related then rel_unrelated
             else if (ahead =? 0) && (behind =? 0) then rel_identical
             else if behind =? 0 then rel_ahead
             else if ahead =? 0 then rel_behind
             else rel_diverged in
  mkDivergence rel ahead behind.

Definition divergence (current upstream : ustring) : option (outcome DivergenceResult) :=
  match (c ← revParse current; c ← peel c; u ← revParse upstream; u ← peel u; Ok (c, u)) with
  | Throw e => Some (Throw e)
  | Ok (c, u) =>
      r ← reachableGraphOwned (mkInput c u None);
      Some ('(state, _) ← r; Ok (divergence_of state))
  end.

End repository.
