(* ===== verification/MergeBaseFacts.v ===== *)
(** Best common ancestors: the sweep of [bestCommonAncestors] from children to parents finds,
    in any graph, the common commits that no other common commit descends to. *)

From S2P Require Import Prelude Text Bytes Objects JsMap CommitHeap CommitWalk CommitGraphFacts MergeBase.

(** * Relations *)

Lemma tc_last {A} (R : A → A → Prop) x y : tc R x y → ∃ z, rtc R x z ∧ R z y.
Proof.
  induction 1 as [x y Hxy|x z y Hxz _ (w & Hzw & Hwy)]; [by exists x|]. exists w. split; [by apply rtc_l with z|done].
Qed.

Lemma acc_no_cycle {A} (R : A → A → Prop) x : Acc R x → ¬ tc R x x.
Proof.
  induction 1 as [x _ IH]. intros Hc. apply tc_last in Hc as (z & Hxz & Hzx). apply (IH z Hzx).
  apply tc_rtc_r with x; [by apply tc_once|done].
Qed.

(** Finitely many things, each after another of them: there is a cycle. *)
Lemma cycle_exists {A} `{EqDecision A} n : ∀ (R : A → A → Prop) (l : list A),
  length l = n → l ≠ [] → (∀ y, y ∈ l → ∃ x, x ∈ l ∧ R x y) → ∃ x, x ∈ l ∧ tc R x x.
Proof.
  induction n as [n IH] using (well_founded_induction Nat.lt_wf_0). intros R l Hn Hne Hall.
  destruct l as [|a l]; [done|]. destruct (Hall a) as (b & Hb & Hba); [by left|].
  destruct (decide (b = a)) as [->|Hab]; [exists a; split; [by left|by apply tc_once]|].
  set (l' := filter (λ x, x ≠ a) l). assert (b ∈ l') as Hb' by (apply list_elem_of_filter; split; [done|set_solver]).
  destruct (IH (length l')) with (R := λ x y, R x y ∨ (R x a ∧ R a y)) (l := l') as (x & Hx & Hc).
  - cbn in Hn. pose proof (length_filter (λ x, x ≠ a) l). subst l'. lia.
  - done.
  - intros ->. by apply elem_of_nil in Hb'.
  - intros y [Hya Hy]%list_elem_of_filter. destruct (Hall y) as (x & Hx & Hxy); [by right|].
    destruct (decide (x = a)) as [->|Hxa].
    + exists b. split; [done|]. by right.
    + exists x. split; [|by left]. apply list_elem_of_filter. set_solver.
  - exists x. split; [right; by apply list_elem_of_filter in Hx as [_ ?]|].
    assert (∀ u v, tc (λ x y, R x y ∨ (R x a ∧ R a y)) u v → tc R u v) as Hsub; [|by apply Hsub].
    clear. intros u v. induction 1 as [u v [?|[? ?]]|u w v [?|[? ?]] _ IH].
    + by apply tc_once.
    + by apply tc_l with a; [|apply tc_once].
    + by apply tc_l with w.
    + by apply tc_l with a; [|apply tc_l with w].
Qed.

(** * The order of names *)

Lemma compare_units_opp x y : compare_units y x = - compare_units x y.
Proof.
  revert y. induction x as [|a x IH]; intros [|b y]; cbn [compare_units]; try done.
  rewrite (Z.eqb_sym b a). destruct (a =? b) eqn:E; [apply IH|]. zbool. destruct (a <? b) eqn:E1, (b <? a) eqn:E2; zbool; try done; lia.
Qed.

Lemma compare_units_trans x y z : compare_units x y <= 0 → compare_units y z <= 0 → compare_units x z <= 0.
Proof.
  revert y z. induction x as [|a x IH]; intros [|b y] [|c z]; cbn [compare_units]; try done.
  destruct (a =? b) eqn:E1, (b =? c) eqn:E2; zbool; subst; rewrite ?Z.eqb_refl; try (by apply IH).
  - by rewrite (proj2 (Z.eqb_neq b c) E2).
  - by rewrite (proj2 (Z.eqb_neq a c) E1).
  - destruct (a <? b) eqn:E3, (b <? c) eqn:E4; zbool; intros ? ?; try lia. rewrite (proj2 (Z.eqb_neq a c)), (proj2 (Z.ltb_lt a c)) by lia. done.
Qed.

Lemma compare_units_zero x y : compare_units x y = 0 → x = y.
Proof.
  revert y. induction x as [|a x IH]; intros [|b y]; cbn [compare_units]; try done. destruct (a =? b) eqn:E; zbool.
  - subst. intros H. by rewrite (IH y).
  - by destruct (a <? b).
Qed.

Lemma compareOids_le x y : compareOids x y <= 0 ↔ compare_units x y <= 0.
Proof.
  unfold compareOids. case_bool_decide as E.
  - subst. pose proof (compare_units_opp y y). lia.
  - assert (compare_units x y ≠ 0) by (intros H; by apply E, compare_units_zero). destruct (compare_units x y <? 0) eqn:E2; zbool; lia.
Qed.

Lemma compareOids_orders : orders compareOids (λ _, True).
Proof.
  split.
  - intros x y _ _. unfold compareOids. rewrite compare_units_opp. case_bool_decide as E; [subst; by rewrite bool_decide_eq_true_2|].
    rewrite bool_decide_eq_false_2 by congruence. assert (compare_units x y ≠ 0) by (intros H; by apply E; symmetry; apply compare_units_zero).
    destruct (- compare_units x y <? 0) eqn:E1, (compare_units x y <? 0) eqn:E2; zbool; lia.
  - intros x y z _ _ _. rewrite !compareOids_le. apply compare_units_trans.
Qed.

(** * Children *)

Section graph.
  Context (nodes : jsmap oid GraphNode) (Hnodes : NoDup nodes.*1).

Notation keys := nodes.*1.

Definition parents_of (x : oid) : list oid := from_option (λ n, parent (g_commit n)) [] (map_get nodes x).

(** [p] is a parent of [x]; both are nodes. *)
Definition node_edge (x p : oid) : Prop := p ∈ parents_of x ∧ p ∈ keys.

Lemma node_edge_key x p : node_edge x p → x ∈ keys.
Proof using Type.
  clear Hnodes. intros [Hp _]. unfold parents_of in Hp. apply map_get_is_Some. destruct (map_get nodes x); [by eexists|]. by apply elem_of_nil in Hp.
Qed.

Definition occurrences (y : oid) (l : list oid) : nat := length (filter (λ p, p = y) l).

Lemma occurrences_cons y p l : occurrences y (p :: l) = ((if decide (p = y) then 1 else 0) + occurrences y l)%nat.
Proof using Type. clear Hnodes. unfold occurrences. rewrite filter_cons. by case_decide. Qed.

Lemma occurrences_pos y l : (0 < occurrences y l)%nat ↔ y ∈ l.
Proof using Type.
  clear Hnodes. induction l as [|p l IH]; [cbn; split; [lia|by intros ?%elem_of_nil]|]. rewrite occurrences_cons, elem_of_cons.
  case_decide; [split; [auto|lia]|]. rewrite <- IH. split; [auto|]. intros [?|?]; [congruence|done].
Qed.

(** The edges to [y] of the commits not processed yet. *)
Definition edges_left (processed : list oid) (y : oid) : nat :=
  sum_list_with (λ n : oid * GraphNode, if decide (n.1 ∈ processed) then 0%nat else occurrences y (parent (g_commit n.2))) nodes.

Lemma edges_left_process processed x n y :
  map_get nodes x = Some n → x ∉ processed →
  edges_left processed y = (edges_left (x :: processed) y + occurrences y (parent (g_commit n)))%nat.
Proof using Hnodes.
  intros Hx Hnp. apply map_get_elem in Hx. revert Hnodes Hx. unfold edges_left. generalize nodes as l.
  induction l as [|[k m] l IH]; [by intros _ ?%elem_of_nil|]. rewrite fmap_cons. intros [Hk Hnd]%NoDup_cons [E|Hin]%elem_of_cons; cbn [sum_list_with fst snd].
  - injection E as <- <-. rewrite (decide_False (P := x ∈ processed)) by done. rewrite decide_True by by left.
    assert (sum_list_with (λ n0 : oid * GraphNode, if decide (n0.1 ∈ processed) then 0%nat else occurrences y (parent (g_commit n0.2))) l =
            sum_list_with (λ n0 : oid * GraphNode, if decide (n0.1 ∈ x :: processed) then 0%nat else occurrences y (parent (g_commit n0.2))) l) as ->; [|lia].
    clear IH Hnd. induction l as [|[k' m'] l IH]; [done|]. cbn [sum_list_with fst snd]. cbn [fst] in Hk. rewrite fmap_cons in Hk.
    apply not_elem_of_cons in Hk as [Hkk Hk]. rewrite IH by done. f_equal. cbn [fst] in Hkk.
    repeat case_decide; try done; set_solver.
  - rewrite (IH Hnd Hin). assert (k ≠ x) as Hkx by (intros ->; apply Hk; by apply list_elem_of_fmap; exists (x, n)).
    repeat case_decide; try lia; set_solver.
Qed.

(** An edge left comes from a commit not processed. *)
Lemma edges_left_pos processed y : y ∈ keys → (0 < edges_left processed y)%nat ↔ ∃ x, (x ∉ processed) ∧ node_edge x y.
Proof using Hnodes.
  intros Hy. transitivity (∃ x n, ((x, n) ∈ nodes) ∧ (x ∉ processed) ∧ y ∈ parent (g_commit n)).
  - unfold edges_left. clear Hnodes Hy. induction nodes as [|[k m] l IH]; cbn [sum_list_with fst snd].
    { split; [lia|]. intros (? & ? & []%elem_of_nil & _). }
    setoid_rewrite elem_of_cons. case_decide as Hk.
    + rewrite Nat.add_0_l, IH. split; [naive_solver|]. intros (x & n & [[= -> ->]|?] & ? & ?); [done|by exists x, n].
    + destruct (decide (y ∈ parent (g_commit m))) as [Hin|Hin].
      * split; [intros _; exists k, m; naive_solver|]. intros _. apply occurrences_pos in Hin. lia.
      * assert (occurrences y (parent (g_commit m)) = 0%nat) as -> by (rewrite <- occurrences_pos in Hin; lia).
        rewrite Nat.add_0_l, IH. split; [naive_solver|]. intros (x & n & [[= -> ->]|?] & ? & ?); [done|by exists x, n].
  - unfold node_edge, parents_of. split.
    + intros (x & n & Hin & Hx & Hyn). exists x. split; [done|]. apply (map_get_NoDup nodes x n Hnodes) in Hin. by rewrite Hin.
    + intros (x & Hx & Hyp & _). destruct (map_get nodes x) as [n|] eqn:E; [|by apply elem_of_nil in Hyp].
      exists x, n. split_and!; [by apply map_get_elem|done|done].
Qed.

(** * Counting *)

Definition counted (counts : jsmap oid Z) (f : oid → nat) : Prop :=
  counts.*1 = keys ∧ ∀ y, y ∈ keys → map_get counts y = Some (Z.of_nat (f y)).

Lemma counted_set counts f p v :
  counted counts f → p ∈ keys → counted (map_set counts p (Z.of_nat v)) (λ y, if decide (p = y) then v else f y).
Proof using Type.
  clear Hnodes. intros [Hk Hc] Hp. split.
  - rewrite map_set_keys; [done|]. apply map_get_is_Some. by rewrite Hk.
  - intros y Hy. rewrite map_get_set. case_decide; [done|by apply Hc].
Qed.

Lemma counted_ext counts f g : counted counts f → (∀ y, y ∈ keys → f y = g y) → counted counts g.
Proof using Type. clear Hnodes. intros [Hk Hc] He. split; [done|]. intros y Hy. rewrite <- He by done. by apply Hc. Qed.

Lemma zero_counts : counted (foldl (λ counts n, map_set counts n.1 0) [] nodes) (λ _, 0%nat).
Proof using Hnodes.
  assert (∀ (l : jsmap oid GraphNode) acc, NoDup (acc.*1 ++ l.*1) →
            foldl (λ counts n, map_set counts n.1 0) acc l = acc ++ ((λ n, (n.1, 0)) <$> l)) as H.
  { induction l as [|[k n] l IH]; intros acc Hnd; cbn [foldl]; [by rewrite app_nil_r|].
    assert (map_get acc k = None) as Hn.
    { apply map_get_None. intros Hin. apply NoDup_app in Hnd as (_ & Hd & _). apply (Hd k Hin). rewrite fmap_cons. by left. }
    rewrite (map_set_new acc _ _ Hn), IH; [by rewrite <- app_assoc|]. by rewrite fmap_app, <- app_assoc. }
  rewrite H by done. cbn [app]. split; [by rewrite <- list_fmap_compose|].
  intros y Hy. apply map_get_NoDup; [by rewrite <- list_fmap_compose|]. apply list_elem_of_fmap in Hy as (n & -> & Hn).
  apply list_elem_of_fmap. by exists n.
Qed.

Context (shallow : list oid).

(** A parent without a node, of a commit that is not shallow. *)
Definition missing_parent (x p : oid) : Prop := (p ∈ parents_of x) ∧ (p ∉ keys) ∧ x ∉ shallow.

Lemma count_parents_spec x ps : ∀ counts f,
  counted counts f →
  match for_items (count_parent nodes shallow x) counts ps with
  | Ok counts' => counted counts' (λ y, f y + occurrences y ps)%nat ∧ ∀ p, p ∈ ps → p ∈ keys ∨ x ∈ shallow
  | Throw e => e = corrupt "merge-base graph is missing a parent row" ∧ ∃ p, (p ∈ ps) ∧ (p ∉ keys) ∧ x ∉ shallow
  end.
Proof using Type.
  clear Hnodes. induction ps as [|p ps IH]; intros counts f Hc; cbn [for_items].
  { split; [|by intros p ?%elem_of_nil]. eapply counted_ext; [done|]. intros y _. cbn. lia. }
  destruct (count_parent nodes shallow x counts p) as [counts1|e] eqn:E; unfold count_parent in E; cbn [mbind outcome_bind].
  - assert (counted counts1 (λ y, f y + (if decide (p = y) then 1 else 0))%nat ∧ (p ∈ keys ∨ x ∈ shallow)) as [Hc1 Hp].
    { destruct (map_has nodes p) eqn:Eh; cbn [negb] in E.
      - injection E as <-. apply map_has_spec in Eh. rewrite (proj2 Hc p Eh). cbn [default from_option id].
        replace (Z.of_nat (f p) + 1) with (Z.of_nat (f p + 1)) by lia. split; [|by left].
        eapply counted_ext; [by apply counted_set|]. intros y _. cbn beta. case_decide; [subst|]; lia.
      - assert (p ∉ keys) by (rewrite <- map_has_spec; congruence). case_bool_decide; [|done]. injection E as <-. split; [|by right].
        eapply counted_ext; [done|]. intros y Hy. rewrite decide_False by congruence. lia. }
    specialize (IH counts1 _ Hc1). destruct (for_items _ counts1 ps) as [counts'|e].
    + destruct IH as [Hc' Hps]. split; [|intros q [->|?]%elem_of_cons; [done|by apply Hps]].
      eapply counted_ext; [done|]. intros y _. cbn beta. rewrite occurrences_cons. lia.
    + destruct IH as (-> & q & ? & ? & ?). split; [done|]. exists q. split_and!; [by right|done|done].
  - destruct (map_has nodes p) eqn:Eh; cbn [negb] in E; [done|]. case_bool_decide; [done|]. injection E as <-. split; [done|].
    exists p. split_and!; [by left|rewrite <- map_has_spec; congruence|done].
Qed.

Lemma countChildren_spec :
  match countChildren nodes shallow with
  | Ok counts => counted counts (edges_left []) ∧ ∀ x p, ¬ missing_parent x p
  | Throw e => e = corrupt "merge-base graph is missing a parent row" ∧ ∃ x p, missing_parent x p
  end.
Proof using Hnodes.
  unfold countChildren. generalize zero_counts. generalize (foldl (λ counts n, map_set counts n.1 0) [] nodes) as counts.
  assert (∀ l (counts : jsmap oid Z) f, (∀ n, n ∈ l → n ∈ nodes) → counted counts f →
            match for_items (λ counts n, for_items (count_parent nodes shallow n.1) counts (parent (g_commit n.2))) counts l with
            | Ok counts' => counted counts' (λ y, f y + sum_list_with (λ n : oid * GraphNode, occurrences y (parent (g_commit n.2))) l)%nat ∧
                ∀ n p, n ∈ l → p ∈ parent (g_commit n.2) → p ∈ keys ∨ n.1 ∈ shallow
            | Throw e => e = corrupt "merge-base graph is missing a parent row" ∧ ∃ x p, missing_parent x p
            end) as H.
  { induction l as [|n l IH]; intros counts f Hl Hc; cbn [for_items].
    { split; [|by intros n p ?%elem_of_nil]. eapply counted_ext; [done|]. intros y _. cbn. lia. }
    pose proof (count_parents_spec n.1 (parent (g_commit n.2)) counts f Hc) as H1.
    assert (parents_of n.1 = parent (g_commit n.2)) as Hpar.
    { unfold parents_of. destruct n as [k m]. cbn [fst snd]. by rewrite (proj2 (map_get_NoDup nodes k m Hnodes) (Hl _ ltac:(by left))). }
    destruct (for_items (count_parent nodes shallow n.1) counts _) as [counts1|e]; cbn [mbind outcome_bind].
    - destruct H1 as [Hc1 Hp1]. specialize (IH counts1 _ (λ m Hm, Hl m ltac:(by right)) Hc1). destruct (for_items _ counts1 l) as [counts'|e]; [|done].
      destruct IH as [Hc' Hp']. split; [|intros m p [->|?]%elem_of_cons; [apply Hp1|by apply Hp']].
      eapply counted_ext; [done|]. intros y _. cbn [sum_list_with]. lia.
    - destruct H1 as (-> & p & Hp & Hpk & Hs). split; [done|]. exists n.1, p. split; [by rewrite Hpar|done]. }
  intros counts Hz. specialize (H nodes counts _ ltac:(auto) Hz). destruct (for_items _ counts nodes) as [counts'|e]; [|done].
  destruct H as [Hc Hp]. split.
  - eapply counted_ext; [done|]. intros y _. unfold edges_left. cbn [Nat.add]. clear. induction nodes as [|n l IH]; [done|].
    cbn [sum_list_with]. rewrite decide_False by apply not_elem_of_nil. by rewrite IH.
  - intros x p (Hx & Hpk & Hs). unfold parents_of in Hx. destruct (map_get nodes x) as [n|] eqn:E; [|by apply elem_of_nil in Hx].
    apply map_get_elem in E. by destruct (Hp (x, n) p E Hx).
Qed.

(** * The sweep *)

Context (common : list oid) (Hcommon : ∀ x, x ∈ common → x ∈ keys).

(** What [take_parent] does with the parents of one commit; [f] counts the edges left. *)
Lemma take_parents_spec propagates ps : ∀ s f,
  counted (childCounts s) (λ y, f y + occurrences y ps)%nat → NoDup (ready s) →
  (∀ y, y ∈ ready s → f y = 0%nat ∧ occurrences y ps = 0%nat) →
  let s' := foldl (take_parent common propagates) s ps in
  counted (childCounts s') f ∧ NoDup (ready s') ∧
  (∀ y, y ∈ ready s' ↔ y ∈ ready s ∨ (y ∈ ps ∧ y ∈ keys ∧ f y = 0%nat)) ∧
  (∀ y, y ∈ hasCommonDescendant s' ↔ y ∈ hasCommonDescendant s ∨ (propagates = true ∧ y ∈ ps ∧ y ∈ keys)) ∧
  (∀ y, y ∈ dominated s' ↔ y ∈ dominated s ∨ (propagates = true ∧ y ∈ ps ∧ y ∈ keys ∧ y ∈ common)).
Proof using Type.
  clear Hnodes Hcommon. induction ps as [|p ps IH]; intros s f Hc Hnd Hr; cbn [foldl].
  { split_and!; [eapply counted_ext; [done|]; intros y _; cbn; lia|done|..]; intros y; rewrite elem_of_nil; tauto. }
  destruct (decide (p ∈ keys)) as [Hp|Hp].
  2:{ assert (take_parent common propagates s p = s) as ->.
      { unfold take_parent. rewrite (proj2 (map_get_None _ p)); [done|]. by rewrite (proj1 Hc). }
      assert (∀ y, y ∈ keys → occurrences y (p :: ps) = occurrences y ps) as Ho
        by (intros y Hy; rewrite occurrences_cons, decide_False; [done|congruence]).
      destruct (IH s f) as (? & ? & H1 & H2 & H3).
      - eapply counted_ext; [done|]. intros y Hy. cbn beta. by rewrite Ho.
      - done.
      - intros y Hy. destruct (Hr y Hy) as [? Hoy]. split; [done|]. rewrite occurrences_cons in Hoy. lia.
      - split_and!; [done|done|..]; intros y; rewrite ?H1, ?H2, ?H3, elem_of_cons; naive_solver. }
  pose proof (proj2 Hc p Hp) as Hpc. set (s1 := take_parent common propagates s p).
  assert (counted (childCounts s1) (λ y, f y + occurrences y ps)%nat ∧ NoDup (ready s1) ∧
          (∀ y, y ∈ ready s1 ↔ y ∈ ready s ∨ (y = p ∧ f p = 0%nat ∧ occurrences p ps = 0%nat)) ∧
          (∀ y, y ∈ hasCommonDescendant s1 ↔ y ∈ hasCommonDescendant s ∨ (propagates = true ∧ y = p)) ∧
          (∀ y, y ∈ dominated s1 ↔ y ∈ dominated s ∨ (propagates = true ∧ y = p ∧ y ∈ common))) as (Hc1 & Hnd1 & Hr1 & Hh1 & Hd1).
  { subst s1. unfold take_parent. rewrite Hpc, occurrences_cons, decide_True by done.
    replace (Z.of_nat (f p + (1 + occurrences p ps)) - 1) with (Z.of_nat (f p + occurrences p ps)) by lia.
    assert (p ∉ ready s) as Hpr.
    { intros Hin. destruct (Hr p Hin) as [_ Ho]. rewrite occurrences_cons, decide_True in Ho by done. lia. }
    cbn [childCounts ready hasCommonDescendant dominated]. split_and!.
    - destruct propagates; cbn [childCounts]; (eapply counted_ext; [by apply counted_set|]; intros y Hy; cbn beta; rewrite occurrences_cons;
        case_decide; subst; lia).
    - destruct propagates; cbn [ready]; (destruct (_ =? 0); [by constructor|done]).
    - intros y. destruct (Z.eqb_spec (Z.of_nat (f p + occurrences p ps)) 0) as [E|E]; destruct propagates; cbn [ready]; rewrite ?elem_of_cons;
        (split; [naive_solver lia|intros [?|(-> & ? & ?)]; first [by right|by left|done|lia]]).
    - intros y. destruct propagates; cbn [hasCommonDescendant]; [rewrite elem_of_union, elem_of_singleton|]; naive_solver.
    - intros y. destruct propagates; cbn [dominated]; [|naive_solver]. case_bool_decide as E; [rewrite elem_of_union, elem_of_singleton; naive_solver|].
      naive_solver. }
  destruct (IH s1 f Hc1 Hnd1) as (Hc2 & Hnd2 & Hr2 & Hh2 & Hd2).
  { intros y Hy. apply Hr1 in Hy as [Hy|(-> & ? & ?)]; [|done]. destruct (Hr y Hy) as [? Ho]. split; [done|]. rewrite occurrences_cons in Ho. lia. }
  split_and!; [done|done|..].
  - intros y. rewrite Hr2, Hr1, elem_of_cons. destruct (decide (y = p)) as [->|]; [|naive_solver].
    pose proof (occurrences_pos p ps). destruct (decide (p ∈ ps)) as [Hin|Hin]; [naive_solver|].
    assert (occurrences p ps = 0%nat) by lia || (assert (¬ (0 < occurrences p ps)%nat) by tauto; lia). naive_solver.
  - intros y. rewrite Hh2, Hh1, elem_of_cons. naive_solver.
  - intros y. rewrite Hd2, Hd1, elem_of_cons. naive_solver.
Qed.

(** Some common commit descends to [y]. *)
Definition below_common (y : oid) : Prop := ∃ c, c ∈ common ∧ tc node_edge c y.

Record sweep_ok (done : list oid) (s : Sweep) : Prop := {
  sweep_counts : counted (childCounts s) (edges_left done);
  sweep_unique : NoDup (done ++ ready s);
  sweep_ready y : y ∈ keys → edges_left done y = 0%nat ↔ y ∈ done ++ ready s;
  sweep_keys y : y ∈ done ++ ready s → y ∈ keys;
  sweep_sound y : y ∈ hasCommonDescendant s → below_common y;
  sweep_complete x y : x ∈ done → node_edge x y → x ∈ common ∨ x ∈ hasCommonDescendant s → y ∈ hasCommonDescendant s;
  sweep_dominated y : y ∈ dominated s ↔ y ∈ hasCommonDescendant s ∧ y ∈ common;
  sweep_founded y : y ∈ done → Acc node_edge y
}.

(** The edges to a commit without edges left come from commits already processed. *)
Lemma none_left processed x y : y ∈ keys → edges_left processed y = 0%nat → node_edge x y → x ∈ processed.
Proof using Hnodes.
  intros Hy H0 He. destruct (decide (x ∈ processed)) as [|Hx]; [done|].
  assert (0 < edges_left processed y)%nat; [|lia]. apply edges_left_pos; [done|]. by exists x.
Qed.

Lemma sweep_step done s id rest n :
  sweep_ok done s → ready s = id :: rest → map_get nodes id = Some n →
  sweep_ok (id :: done)
    (foldl (take_parent common (bool_decide (id ∈ common) || bool_decide (id ∈ hasCommonDescendant s)))
       (mkSweep (childCounts s) rest (hasCommonDescendant s) (dominated s)) (parent (g_commit n))).
Proof using Hnodes.
  intros [Hc Hu Hr Hk Hsound Hcomplete Hdom Hfound] Hrs Hn. rewrite Hrs in *. set (ps := parent (g_commit n)).
  assert (id ∉ done) as Hid by (apply NoDup_app in Hu as (_ & Hd & _); intros H; apply (Hd id H); by left).
  assert (id ∈ keys) as Hidk by (apply Hk; rewrite elem_of_app, elem_of_cons; tauto).
  assert (edges_left done id = 0%nat) as Hid0 by (apply Hr; [done|rewrite elem_of_app, elem_of_cons; tauto]).
  assert (∀ y, edges_left done y = (edges_left (id :: done) y + occurrences y ps)%nat) as Hsum
    by (intros y; by apply edges_left_process).
  assert (∀ y, node_edge id y ↔ y ∈ ps ∧ y ∈ keys) as Hedge by (intros y; unfold node_edge, parents_of; by rewrite Hn).
  set (propagates := bool_decide (id ∈ common) || _).
  assert (propagates = true ↔ id ∈ common ∨ id ∈ hasCommonDescendant s) as Hprop
    by (unfold propagates; by rewrite orb_true_iff, !bool_decide_eq_true).
  destruct (take_parents_spec propagates ps (mkSweep (childCounts s) rest (hasCommonDescendant s) (dominated s)) (edges_left (id :: done)))
    as (Hc' & Hnd' & Hr' & Hh' & Hd'); cbn [childCounts ready] in *.
  - eapply counted_ext; [exact Hc|]. intros y _. apply Hsum.
  - apply NoDup_app in Hu as (_ & _ & Hu). by apply NoDup_cons in Hu as [_ ?].
  - intros y Hy. assert (y ∈ done ++ id :: rest) as Hin by (rewrite elem_of_app, elem_of_cons; tauto).
    pose proof (proj2 (Hr y (Hk y Hin)) Hin) as H0. rewrite Hsum in H0. lia.
  - cbn [hasCommonDescendant dominated] in *. set (s' := foldl _ _ _) in *.
    assert (∀ y, node_edge id y → y ∉ id :: done) as Hfresh.
    { intros y He Hy. pose proof He as [_ Hyk]. assert (edges_left done y = 0%nat) as H0.
      { apply elem_of_cons in Hy as [->|Hy]; [done|]. apply Hr; [done|]. rewrite elem_of_app. by left. }
      by apply Hid, (none_left done id y). }
    assert (∀ x, x ∈ id :: done → x ∈ hasCommonDescendant s' ↔ x ∈ hasCommonDescendant s) as Hkeep.
    { intros x Hx. rewrite Hh'. split; [|by left]. intros [?|(_ & Hxp & Hxk)]; [done|]. exfalso. by apply (Hfresh x); [apply Hedge|]. }
    split.
    + exact Hc'.
    + change (NoDup (id :: done ++ ready s')). apply NoDup_cons. split.
      * rewrite elem_of_app, Hr'. intros [?|[Hin|(Hin & _)]]; [done| |].
        -- apply NoDup_app in Hu as (_ & _ & Hu). by apply NoDup_cons in Hu as [? _].
        -- apply (Hfresh id); [by apply Hedge|by left].
      * apply NoDup_app. apply NoDup_app in Hu as (Hu1 & Hu2 & Hu3). split_and!; [done| |done].
        intros x Hx [Hin|(Hin & ? & _)]%Hr'; [by apply (Hu2 x Hx); right|]. apply (Hfresh x); [by apply Hedge|by right].
    + intros y Hy. change ((id :: done) ++ ready s') with (id :: done ++ ready s'). rewrite elem_of_cons, elem_of_app, Hr'.
      specialize (Hr y Hy). rewrite elem_of_app, elem_of_cons, Hsum in Hr. pose proof (occurrences_pos y ps) as Ho. split.
      * intros H0. destruct (decide (y ∈ ps)) as [Hin|Hin]; [tauto|]. assert (occurrences y ps = 0%nat) by (destruct (occurrences y ps); [done|]; exfalso; apply Hin, Ho; lia).
        destruct (proj1 Hr ltac:(lia)) as [?|[?|?]]; tauto.
      * intros [E|[Hin|[Hin|(_ & _ & ?)]]]; [|..|done]; pose proof (proj2 Hr ltac:(tauto)); lia.
    + intros y. change ((id :: done) ++ ready s') with (id :: done ++ ready s'). rewrite elem_of_cons, elem_of_app, Hr'.
      intros [->|[Hin|[Hin|(_ & ? & _)]]]; [done| | |done]; apply Hk; rewrite elem_of_app, elem_of_cons; tauto.
    + intros y [Hy|(Hp & Hyp & Hyk)]%Hh'; [by apply Hsound|]. assert (node_edge id y) as He by by apply Hedge.
      apply Hprop in Hp as [Hp|Hp]; [exists id; split; [done|by apply tc_once]|].
      destruct (Hsound id Hp) as (c & Hcc & Hci). exists c. split; [done|]. by apply (tc_r _ id).
    + intros x y Hx He Hor. apply Hh'. rewrite (Hkeep x Hx) in Hor. apply elem_of_cons in Hx as [->|Hx].
      * right. split; [by apply Hprop|]. by apply Hedge.
      * left. by apply (Hcomplete x).
    + intros y. rewrite Hd', Hh', Hdom. tauto.
    + intros y [->|Hy]%elem_of_cons; [|by apply Hfound]. constructor. intros x Hx. apply Hfound. by apply (none_left done x id).
Qed.

Lemma sweep_loop_spec fuel : ∀ done s,
  (length nodes < fuel + length done)%nat → sweep_ok done s →
  ∃ done' s', sweep_loop fuel nodes common s (zlen done) = Some (Ok (s', zlen done')) ∧ sweep_ok done' s' ∧ ready s' = [].
Proof using Hnodes.
  induction fuel as [|fuel IH]; intros done s Hf Hok.
  { assert (length done <= length nodes)%nat; [|lia]. rewrite <- (length_fmap fst nodes). apply submseteq_length, NoDup_submseteq.
    - by pose proof (sweep_unique _ _ Hok) as (? & _ & _)%NoDup_app.
    - intros x Hx. apply (sweep_keys _ _ Hok), elem_of_app. by left. }
  cbn [sweep_loop]. destruct (ready s) as [|id rest] eqn:Er; [by exists done, s|].
  assert (id ∈ keys) as Hid by (apply (sweep_keys _ _ Hok); rewrite Er, elem_of_app, elem_of_cons; tauto).
  apply map_get_is_Some in Hid as [n Hn]. rewrite Hn. replace (zlen done + 1) with (zlen (id :: done)) by (rewrite zlen_cons; lia).
  apply IH; [cbn; lia|]. by eapply sweep_step.
Qed.

Lemma sweep_start counts :
  counted counts (edges_left []) →
  sweep_ok [] (mkSweep counts (reverse (fst <$> filter (λ n : oid * Z, n.2 = 0) counts)) ∅ ∅).
Proof using Hnodes.
  intros [Hk Hc]. assert (∀ y, y ∈ reverse (fst <$> filter (λ n : oid * Z, n.2 = 0) counts) ↔ y ∈ keys ∧ edges_left [] y = 0%nat) as Hr.
  { intros y. rewrite elem_of_reverse, list_elem_of_fmap. split.
    - intros ([k v] & -> & [Hv Hin]%list_elem_of_filter). cbn in *. subst v. assert (k ∈ keys) as Hy by (rewrite <- Hk; apply list_elem_of_fmap; by exists (k, 0)).
      split; [done|]. apply map_get_NoDup in Hin; [|by rewrite Hk]. rewrite Hc in Hin by done. injection Hin. lia.
    - intros [Hy H0]. exists (y, 0). split; [done|]. apply list_elem_of_filter. split; [done|]. apply map_get_NoDup; [by rewrite Hk|].
      by rewrite Hc, H0. }
  split; cbn [childCounts ready hasCommonDescendant dominated app].
  - done.
  - rewrite reverse_Permutation. apply (sublist_NoDup _ counts.*1); [by rewrite Hk|]. apply fmap_sublist, sublist_filter.
  - intros y Hy. rewrite Hr. tauto.
  - intros y Hy. by apply Hr.
  - intros y Hy. by apply not_elem_of_empty in Hy.
  - intros x y Hx. by apply elem_of_nil in Hx.
  - intros y. rewrite !elem_of_empty. tauto.
  - intros y Hy. by apply elem_of_nil in Hy.
Qed.

Lemma sweep_sub done s : sweep_ok done s → NoDup done ∧ ∀ x, x ∈ done → x ∈ keys.
Proof using Type.
  clear Hnodes Hcommon. intros Hok. pose proof (sweep_unique _ _ Hok) as (Hnd & _ & _)%NoDup_app. split; [done|].
  intros x Hx. apply (sweep_keys _ _ Hok), elem_of_app. by left.
Qed.

(** As many processed as there are: all of them. *)
Lemma sweep_all done s : sweep_ok done s → zlen done = zlen nodes → ∀ x, x ∈ keys → x ∈ done.
Proof using Type.
  clear Hnodes Hcommon. intros Hok Hl x Hx. destruct (sweep_sub done s Hok) as [Hnd Hsub].
  apply NoDup_submseteq in Hsub; [|done]. apply submseteq_length_Permutation in Hsub; [by rewrite Hsub|].
  rewrite length_fmap. unfold zlen in Hl. lia.
Qed.

(** At the end of the sweep either every commit was processed and there is no cycle, or there
    is one. *)
Lemma sweep_acyclic done s : sweep_ok done s → zlen done = zlen nodes → ∀ x, ¬ tc node_edge x x.
Proof using Type.
  clear Hnodes Hcommon. intros Hok Hl x Hc. apply (acc_no_cycle node_edge x); [|done]. apply (sweep_founded _ _ Hok), (sweep_all done s Hok Hl).
  inversion Hc; subst; by eapply node_edge_key.
Qed.

Lemma sweep_cycle done s : sweep_ok done s → ready s = [] → zlen done ≠ zlen nodes → ∃ x, tc node_edge x x.
Proof using Hnodes.
  intros Hok Hr Hne. destruct (sweep_sub done s Hok) as [Hnd Hsub].
  set (rest := filter (λ x, x ∉ done) keys). assert (rest ≠ []) as Hrest.
  { intros Hnil. apply Hne. assert (done ≡ₚ keys) as Hp.
    { apply NoDup_Permutation; [done|done|]. intros x. split; [apply Hsub|]. intros Hx. destruct (decide (x ∈ done)) as [|Hxd]; [done|].
      assert (x ∈ rest) as Hin by by apply list_elem_of_filter. rewrite Hnil in Hin. by apply elem_of_nil in Hin. }
    unfold zlen. by rewrite Hp, length_fmap. }
  destruct (cycle_exists (length rest) node_edge rest eq_refl Hrest) as (x & _ & Hc); [|by exists x].
  intros y [Hyd Hyk]%list_elem_of_filter. assert (0 < edges_left done y)%nat as Hpos.
  { destruct (edges_left done y) eqn:E; [|lia]. apply (sweep_ready _ _ Hok) in E; [|done]. by rewrite Hr, app_nil_r in E. }
  apply edges_left_pos in Hpos as (x & Hx & He); [|done]. exists x. split; [|done].
  apply list_elem_of_filter. split; [done|by eapply node_edge_key].
Qed.

(** When every commit was processed, exactly the common ones below another are dominated. *)
Lemma sweep_dominates done s y :
  sweep_ok done s → (∀ x, x ∈ keys → x ∈ done) → y ∈ dominated s ↔ y ∈ common ∧ below_common y.
Proof using Hcommon.
  clear Hnodes. intros Hok Hall. rewrite (sweep_dominated _ _ Hok). split; [intros [? ?]; split; [done|by apply (sweep_sound _ _ Hok)]|].
  intros [Hy (c & Hc & Hcy)]. split; [|done].
  assert (∀ x z, tc node_edge x z → x ∈ common ∨ x ∈ hasCommonDescendant s → z ∈ hasCommonDescendant s) as H; [|by apply (H c y Hcy); left].
  clear - Hok Hall. induction 1 as [x z Hxz|x w z Hxw _ IH]; intros Hor.
  - apply (sweep_complete _ _ Hok x); [by eapply Hall, node_edge_key|done|done].
  - apply IH. right. apply (sweep_complete _ _ Hok x); [by eapply Hall, node_edge_key|done|done].
Qed.

End graph.

(** * Best common ancestors *)

Lemma commonNodes_spec nodes x :
  NoDup nodes.*1 → x ∈ commonNodes nodes ↔ ∃ n, map_get nodes x = Some n ∧ sides n = BOTH.
Proof.
  intros Hnd. unfold commonNodes. rewrite list_elem_of_fmap. split.
  - intros ([k n] & -> & [Hs Hin]%list_elem_of_filter). exists n. split; [by apply map_get_NoDup|done].
  - intros (n & Hn & Hs). exists (x, n). split; [done|]. apply list_elem_of_filter. split; [done|by apply map_get_elem].
Qed.

Lemma bestCommonAncestors_spec nodes shallow :
  NoDup nodes.*1 →
  ∃ r, bestCommonAncestors nodes shallow = Some r ∧
  match r with
  | Throw e =>
      (e = corrupt "merge-base graph is missing a parent row" ∧ ∃ x p, missing_parent nodes shallow x p) ∨
      (e = corrupt "merge-base graph contains a cycle" ∧ ∃ x, tc (node_edge nodes) x x)
  | Ok bases =>
      (∀ x p, ¬ missing_parent nodes shallow x p) ∧ (∀ x, ¬ tc (node_edge nodes) x x) ∧
      NoDup bases ∧ StronglySorted (λ a b, compareOids a b <= 0) bases ∧
      (∀ x, x ∈ bases ↔ x ∈ commonNodes nodes ∧ ¬ below_common nodes (commonNodes nodes) x) ∧
      (∀ x, x ∈ commonNodes nodes → x ∈ bases ∨ below_common nodes (commonNodes nodes) x)
  end.
Proof.
  intros Hnd. unfold bestCommonAncestors. pose proof (countChildren_spec nodes Hnd shallow) as Hc.
  destruct (countChildren nodes shallow) as [counts|e]; [|eexists; split; [done|by left]]. destruct Hc as [Hc Hmissing].
  set (common := commonNodes nodes). assert (∀ x, x ∈ common → x ∈ nodes.*1) as Hck.
  { intros x (n & Hn & _)%commonNodes_spec; [|done]. apply map_get_is_Some. by eexists. }
  destruct (sweep_loop_spec nodes Hnd common (S (length nodes)) [] _ ltac:(cbn; lia) (sweep_start nodes Hnd common counts Hc))
    as (done & s & Hloop & Hok & Hready). change (zlen []) with 0 in Hloop. rewrite Hloop. cbn [mbind option_bind outcome_bind].
  eexists. split; [reflexivity|]. destruct (zlen done =? zlen nodes) eqn:E; zbool; cbn [negb].
  - assert (∀ x, x ∈ dominated s ↔ x ∈ common ∧ below_common nodes common x) as Hdom.
    { intros x. apply (sweep_dominates nodes common Hck done s x Hok). by eapply sweep_all. }
    split_and!; [done|by eapply sweep_acyclic| | | |].
    + rewrite sort_by_perm. apply NoDup_filter. apply (sublist_NoDup _ nodes.*1); [done|]. apply fmap_sublist, sublist_filter.
    + apply (sort_by_sorted _ (λ _, True)); [apply compareOids_orders|by apply Forall_true].
    + intros x. rewrite sort_by_perm, list_elem_of_filter, Hdom. tauto.
    + intros x Hx. rewrite sort_by_perm, list_elem_of_filter. destruct (decide (x ∈ dominated s)) as [Hd|Hd]; [right; by apply Hdom|by left].
  - right. split; [done|]. by eapply sweep_cycle.
Qed.
