(* ===== verification/MergeBaseSelect.v ===== *)
(** Selecting merge bases: what [selectMergeBases] and [divergence] answer about the commits
    the two walks found. *)

From S2P Require Import Prelude Text Bytes Objects JsMap CommitHeap CommitWalk CommitGraphFacts CommitWalkFacts MergeBase MergeBaseFacts.

Notation walked := (list (oid * Commit)).

Lemma sameParents_spec l k : sameParents l k = true ↔ l = k.
Proof.
  unfold sameParents. destruct (zlen l =? zlen k) eqn:E; zbool; cbn [negb].
  - rewrite forallb_forall. split; [|intros -> i _; by apply bool_decide_eq_true].
    intros H. apply list_eq. intros i. destruct (decide (i < length l)%nat).
    + apply (bool_decide_eq_true (l !! i = k !! i)), H, list_elem_of_In, elem_of_seq. lia.
    + unfold zlen in E. rewrite !lookup_ge_None_2 by lia. done.
  - split; [done|]. by intros ->.
Qed.

(** * The nodes of two walks *)

(** The side of a commit among those of one walk. *)
Definition side_if (l : walked) (side : Z) (x : oid) : Z := if decide (x ∈ l.*1) then side else 0.

Lemma side_if_cons x c l side y : side_if ((x, c) :: l) side y = if decide (x = y) then side else side_if l side y.
Proof. unfold side_if. rewrite fmap_cons. repeat case_decide; set_solver. Qed.

Lemma side_if_nil side y : side_if [] side y = 0.
Proof. unfold side_if. rewrite decide_False by apply not_elem_of_nil. done. Qed.

Definition node_sides (nodes : jsmap oid GraphNode) (x : oid) : Z := from_option sides 0 (map_get nodes x).

(** [nodes'] is [nodes] with the commits of [l] added on [side]. *)
Record added (nodes : jsmap oid GraphNode) (l : walked) (side : Z) (nodes' : jsmap oid GraphNode) : Prop := {
  added_nodup : NoDup nodes'.*1;
  added_keys x : x ∈ nodes'.*1 ↔ x ∈ nodes.*1 ∨ x ∈ l.*1;
  added_sides x : node_sides nodes' x = Z.lor (node_sides nodes x) (side_if l side x);
  added_kept x : x ∈ nodes.*1 → parents_of nodes' x = parents_of nodes x;
  added_parents x c : (x, c) ∈ l → parents_of nodes' x = parent c
}.

Lemma add_commit_added side limits nodes x c nodes' :
  NoDup nodes.*1 → add_commit side limits nodes (x, c) = Ok nodes' → added nodes [(x, c)] side nodes'.
Proof.
  intros Hnd. unfold add_commit. destruct (map_get nodes x) as [n|] eqn:En.
  - destruct (negb _ || _) eqn:E; [done|]. apply orb_false_iff in E as [_ Ep]. apply negb_false_iff, sameParents_spec in Ep.
    intros [= <-]. assert (x ∈ nodes.*1) as Hx by (apply map_get_is_Some; by eexists). split.
    + by apply map_set_NoDup.
    + intros y. rewrite map_set_keys_elem. set_solver.
    + intros y. unfold node_sides. rewrite map_get_set, side_if_cons. case_decide; [subst; by rewrite En|].
      by rewrite side_if_nil, Z.lor_0_r.
    + intros y Hy. unfold parents_of. rewrite map_get_set. case_decide; [subst; by rewrite En|done].
    + intros y d [= -> ->]%list_elem_of_singleton. unfold parents_of. by rewrite map_get_set_eq.
  - destruct (_ <=? _); [done|]. intros [= <-]. split.
    + by apply map_set_NoDup.
    + intros y. rewrite map_set_keys_elem. set_solver.
    + intros y. unfold node_sides. rewrite map_get_set, side_if_cons. case_decide; [subst; by rewrite En|].
      by rewrite side_if_nil, Z.lor_0_r.
    + intros y Hy. unfold parents_of. rewrite map_get_set. case_decide; [subst|done].
      apply map_get_None in En. done.
    + intros y d [= -> ->]%list_elem_of_singleton. unfold parents_of. by rewrite map_get_set_eq.
Qed.

Lemma added_trans nodes x c l side nodes1 nodes2 :
  added nodes [(x, c)] side nodes1 → added nodes1 l side nodes2 → added nodes ((x, c) :: l) side nodes2.
Proof.
  intros H1 H2. split.
  - apply H2.
  - intros y. rewrite (added_keys _ _ _ _ H2), (added_keys _ _ _ _ H1). set_solver.
  - intros y. rewrite (added_sides _ _ _ _ H2), (added_sides _ _ _ _ H1), <- Z.lor_assoc, !side_if_cons. f_equal.
    case_decide; [|by rewrite side_if_nil, Z.lor_0_l]. unfold side_if. case_decide; [apply Z.lor_diag|apply Z.lor_0_r].
  - intros y Hy. rewrite (added_kept _ _ _ _ H2); [by apply (added_kept _ _ _ _ H1)|]. apply (added_keys _ _ _ _ H1). by left.
  - intros y d [[= -> ->]|Hin]%elem_of_cons; [|by apply (added_parents _ _ _ _ H2)].
    assert (parents_of nodes1 x = parent c) as Hp by (apply (added_parents _ _ _ _ H1), list_elem_of_singleton; done).
    rewrite (added_kept _ _ _ _ H2); [done|]. apply (added_keys _ _ _ _ H1). right. cbn. by left.
Qed.

Lemma add_items_added side limits l : ∀ nodes nodes',
  NoDup nodes.*1 → for_items (add_commit side limits) nodes l = Ok nodes' → added nodes l side nodes'.
Proof.
  induction l as [|[x c] l IH]; intros nodes nodes' Hnd; cbn [for_items].
  - intros [= <-]. split; [done|set_solver| |done|by intros ? ? ?%elem_of_nil].
    intros x. by rewrite side_if_nil, Z.lor_0_r.
  - intros (nodes1 & H1 & H2)%bind_ok_inv. apply (add_commit_added _ _ _ _ _ _ Hnd) in H1.
    eapply added_trans; [done|]. apply IH; [apply H1|done].
Qed.

(** The nodes of two walks: which commits, on which sides, with which parents. *)
Record two_sides (a b : walked) (nodes : jsmap oid GraphNode) : Prop := {
  two_nodup : NoDup nodes.*1;
  two_keys x : x ∈ nodes.*1 ↔ x ∈ a.*1 ∨ x ∈ b.*1;
  two_sides_of x : node_sides nodes x = Z.lor (side_if a CURRENT x) (side_if b INCOMING x);
  two_parents x c : (x, c) ∈ a ++ b → parents_of nodes x = parent c
}.

Lemma added_two a b nodes1 nodes2 : added [] a CURRENT nodes1 → added nodes1 b INCOMING nodes2 → two_sides a b nodes2.
Proof.
  intros H1 H2. split; [apply H2| | |].
  - intros x. rewrite (added_keys _ _ _ _ H2), (added_keys _ _ _ _ H1). set_solver.
  - intros x. rewrite (added_sides _ _ _ _ H2), (added_sides _ _ _ _ H1). done.
  - intros x c [Hin|Hin]%elem_of_app; [|by apply (added_parents _ _ _ _ H2)].
    rewrite (added_kept _ _ _ _ H2); [by apply (added_parents _ _ _ _ H1)|]. apply (added_keys _ _ _ _ H1). right.
    apply list_elem_of_fmap. by exists (x, c).
Qed.

(** [p] is a parent of [x], and both were walked. *)
Definition walked_edge (a b : walked) (x p : oid) : Prop := ∃ c, (x, c) ∈ a ++ b ∧ p ∈ parent c ∧ p ∈ (a ++ b).*1.

Section two.
  Context (a b : walked) (nodes : jsmap oid GraphNode) (Htwo : two_sides a b nodes).

Lemma two_edge x p : node_edge nodes x p ↔ walked_edge a b x p.
Proof using Htwo.
  unfold node_edge, walked_edge. rewrite (two_keys _ _ _ Htwo), fmap_app. setoid_rewrite elem_of_app. split.
  - intros [Hp Hk]. assert (x ∈ nodes.*1) as Hx by (by apply (node_edge_key nodes x p); split; [|apply (two_keys _ _ _ Htwo)]).
    apply (two_keys _ _ _ Htwo) in Hx. assert (∃ c, (x, c) ∈ a ++ b) as [c Hc].
    { destruct Hx as [Hx|Hx]; apply list_elem_of_fmap in Hx as ([y c] & -> & Hin); exists c; apply elem_of_app; tauto. }
    exists c. rewrite <- (two_parents _ _ _ Htwo x c Hc). apply elem_of_app in Hc. done.
  - intros (c & Hc & Hp & Hk). apply elem_of_app in Hc. by rewrite (two_parents _ _ _ Htwo x c Hc).
Qed.

Lemma two_tc x p : tc (node_edge nodes) x p ↔ tc (walked_edge a b) x p.
Proof using Htwo.
  split; induction 1 as [x y Hxy|x y z Hxy _ IH]; (apply two_edge in Hxy || apply <- two_edge in Hxy); try (by apply tc_once); by apply tc_l with y.
Qed.

Lemma two_both x : node_sides nodes x = BOTH ↔ x ∈ a.*1 ∧ x ∈ b.*1.
Proof using Htwo. rewrite (two_sides_of _ _ _ Htwo). unfold side_if. repeat case_decide; split; try done; intros; tauto. Qed.

Lemma two_get x side : 0 < side → sides <$> map_get nodes x = Some side ↔ node_sides nodes x = side.
Proof using Type. intros Hs. unfold node_sides. destruct (map_get nodes x); cbn; (split; [congruence|intros H; first [congruence|lia]]). Qed.

Lemma two_common x : x ∈ commonNodes nodes ↔ x ∈ a.*1 ∧ x ∈ b.*1.
Proof using Htwo.
  rewrite <- two_both, <- two_get by done. rewrite commonNodes_spec by apply Htwo. destruct (map_get nodes x) as [g|]; cbn.
  - split; [intros (n & [= ->] & Hs); by rewrite Hs|intros [= Hs]; by exists g].
  - split; [by intros (n & ? & _)|done].
Qed.

End two.

(** * Nothing refused without a reason *)

(** One commit has one tree and one list of parents. *)
Definition agreeing (l : walked) : Prop :=
  ∀ x c d, (x, c) ∈ l → (x, d) ∈ l → c_tree c = c_tree d ∧ parent c = parent d.

(** At most [n] different commits. *)
Definition at_most (n : Z) (P : oid → Prop) : Prop := ∀ all, NoDup all → (∀ x, x ∈ all → P x) → zlen all <= n.

Definition known_nodes (known : walked) (nodes : jsmap oid GraphNode) : Prop :=
  NoDup nodes.*1 ∧ ∀ x n, map_get nodes x = Some n → (x, g_commit n) ∈ known.

Lemma add_commit_ok side limits known nodes x c :
  agreeing known → at_most (maxCommits limits) (λ x, x ∈ known.*1) → known_nodes known nodes → (x, c) ∈ known →
  ∃ nodes', add_commit side limits nodes (x, c) = Ok nodes' ∧ known_nodes known nodes'.
Proof.
  intros Ha Hm [Hnd Hk] Hx. unfold add_commit. destruct (map_get nodes x) as [n|] eqn:En.
  - destruct (Ha x _ _ (Hk x n En) Hx) as [-> ->]. rewrite str_eqb_refl, (proj2 (sameParents_spec _ _) eq_refl). cbn [negb orb].
    eexists. split; [done|]. split; [by apply map_set_NoDup|]. intros y m. rewrite map_get_set.
    case_decide; [intros [= <-]; subst; cbn [g_commit]; by apply Hk|apply Hk].
  - destruct (maxCommits limits <=? zlen nodes) eqn:E; zbool.
    { exfalso. apply map_get_None in En. assert (zlen (x :: nodes.*1) <= maxCommits limits) as Hl; [|rewrite zlen_cons in Hl; unfold zlen in *; rewrite length_fmap in Hl; lia].
      apply Hm; [by apply NoDup_cons|]. intros y [->|Hy]%elem_of_cons; [apply list_elem_of_fmap; by exists (x, c)|].
      apply map_get_is_Some in Hy as [m Hy]. apply list_elem_of_fmap. exists (y, g_commit m). split; [done|by apply Hk]. }
    eexists. split; [done|]. split; [by apply map_set_NoDup|]. intros y m. rewrite map_get_set.
    case_decide; [intros [= <-]; cbn [g_commit]; by subst|apply Hk].
Qed.

Lemma add_items_ok side limits known l : ∀ nodes,
  agreeing known → at_most (maxCommits limits) (λ x, x ∈ known.*1) → known_nodes known nodes → (∀ e, e ∈ l → e ∈ known) →
  ∃ nodes', for_items (add_commit side limits) nodes l = Ok nodes' ∧ known_nodes known nodes'.
Proof.
  induction l as [|[x c] l IH]; intros nodes Ha Hm Hk Hl; cbn [for_items]; [by eexists|].
  destruct (add_commit_ok side limits known nodes x c) as (nodes1 & -> & Hk1); [done|done|done|apply Hl; by left|]. cbn [mbind outcome_bind].
  apply IH; [done|done|done|]. intros e He. apply Hl. by right.
Qed.

(** * Selecting *)

Section select.
  Context `{repo : WalkRepository}.

(** The commits of both sides, walked to their ends. *)
Definition both_walked (input : MergeBaseInput) (limits : ResolvedLimits) (a b : walked) : Prop :=
  walkIndexedOwned (currentOid input) (Some (maxCommits limits)) = Some (mkYields a (Ok tt)) ∧
  walkIndexedOwned (incomingOid input) (Some (maxCommits limits)) = Some (mkYields b (Ok tt)).

Lemma walk_total id limit : is_Some (walkIndexedOwned id limit).
Proof. destruct (walkIndexedOwned_spec id limit) as (y & -> & _). by eexists. Qed.

Lemma addReachable_spec root side limits nodes :
  NoDup nodes.*1 →
  ∃ r, addReachable root side limits nodes = Some r ∧
  ∀ nodes', r = Ok nodes' → ∃ l, walkIndexedOwned root (Some (maxCommits limits)) = Some (mkYields l (Ok tt)) ∧ added nodes l side nodes'.
Proof.
  intros Hnd. unfold addReachable. destruct (walk_total root (Some (maxCommits limits))) as [[l e] ->]. cbn [mbind option_bind].
  eexists. split; [done|]. unfold for_of. cbn [items ending]. intros nodes' (s & Hs & H)%bind_ok_inv.
  apply bind_ok_inv in H as ([] & -> & [= <-]). exists l. split; [done|]. by eapply add_items_added.
Qed.

Lemma reachableGraphOwned_spec input :
  ∃ r, reachableGraphOwned input = Some r ∧
  ∀ state limits, r = Ok (state, limits) →
    resolveLimits (MergeBase.limits input) = Ok limits ∧ readShallowOwned = Ok (shallow state) ∧
    ∃ a b, both_walked input limits a b ∧ two_sides a b (nodes state).
Proof.
  unfold reachableGraphOwned. destruct (throw_if _ _ ≫= _) as [[limits shallow]|e] eqn:E; [|by eexists].
  apply bind_ok_inv in E as ([] & _ & E). apply bind_ok_inv in E as (limits' & Hl & E).
  apply bind_ok_inv in E as ([] & _ & E). apply bind_ok_inv in E as ([] & _ & E). apply bind_ok_inv in E as (shallow' & Hs & [= -> ->]).
  destruct (addReachable_spec (currentOid input) CURRENT limits [] NoDup_nil_2) as (r1 & -> & H1). cbn [mbind option_bind].
  destruct r1 as [nodes1|e]; [|by eexists]. destruct (H1 nodes1 eq_refl) as (a & Ha & Ha').
  destruct (addReachable_spec (incomingOid input) INCOMING limits nodes1 (added_nodup _ _ _ _ Ha')) as (r2 & -> & H2). cbn [mbind option_bind].
  eexists. split; [done|]. intros state l (nodes2 & -> & [= <- <-])%bind_ok_inv. destruct (H2 nodes2 eq_refl) as (b & Hb & Hb').
  split_and!; [done|done|]. exists a, b. split; [by split|]. by apply (added_two a b nodes1).
Qed.

(** There are [n] different names with the property. *)
Definition counts (n : Z) (P : oid → Prop) : Prop := ∃ all, NoDup all ∧ (∀ x, x ∈ all ↔ P x) ∧ n = zlen all.

(** What a selection says of the commits of the two sides. *)
Definition selection_ok (input : MergeBaseInput) (limits : ResolvedLimits) (shallow : list oid) (a b : walked) (s : MergeBaseSelection) : Prop :=
  let common x := x ∈ a.*1 ∧ x ∈ b.*1 in
  let cut := ∃ x, x ∈ shallow ∧ x ∈ (a ++ b).*1 ∧ ¬ common x in
  counts (commits s) (λ x, x ∈ (a ++ b).*1) ∧
  match kind s with
  | AlreadyMerged => common (incomingOid input) ∧ bases s = [incomingOid input]
  | FastForward => ¬ common (incomingOid input) ∧ common (currentOid input) ∧ bases s = [currentOid input]
  | Shallow => ¬ common (incomingOid input) ∧ ¬ common (currentOid input) ∧ cut ∧ bases s = []
  | Unrelated => ¬ cut ∧ (∀ x, ¬ common x) ∧ bases s = []
  | Divergent =>
      ¬ common (incomingOid input) ∧ ¬ common (currentOid input) ∧ ¬ cut ∧
      bases s ≠ [] ∧ zlen (bases s) <= maxBases limits ∧ NoDup (bases s) ∧ StronglySorted (λ x y, compareOids x y <= 0) (bases s) ∧
      ∀ x, x ∈ bases s ↔ common x ∧ ¬ ∃ c, common c ∧ tc (walked_edge a b) c x
  end.

Lemma cut_off_spec a b state :
  two_sides a b (nodes state) →
  cut_off state = true ↔ ∃ x, x ∈ shallow state ∧ x ∈ (a ++ b).*1 ∧ ¬ (x ∈ a.*1 ∧ x ∈ b.*1).
Proof.
  intros Htwo. unfold cut_off. rewrite existsb_exists. setoid_rewrite <- list_elem_of_In. apply exist_proper. intros x. apply and_iff_compat_l.
  pose proof (two_both a b _ Htwo x) as Hboth. pose proof (two_keys _ _ _ Htwo x) as Hkeys. rewrite <- elem_of_app, <- fmap_app, <- map_get_is_Some in Hkeys.
  unfold side_of. unfold node_sides in Hboth. destruct (map_get (nodes state) x) as [n|]; cbn [fmap option_fmap option_map from_option] in *.
  - rewrite negb_true_iff, Z.eqb_neq, Hboth. pose proof (proj1 Hkeys ltac:(by eexists)). tauto.
  - split; [done|]. intros [H _]. by apply Hkeys in H as [? ?].
Qed.

(** Of finitely many common commits without a cycle, one is below no other. *)
Lemma some_best a b (common : list oid) :
  (∀ x, ¬ tc (walked_edge a b) x x) → common ≠ [] →
  ¬ ∀ x, x ∈ common → ∃ c, c ∈ common ∧ tc (walked_edge a b) c x.
Proof.
  intros Hac Hne Hall. destruct (cycle_exists (length common) (tc (walked_edge a b)) common eq_refl Hne Hall) as (x & _ & Hc).
  apply (Hac x). assert (∀ x y, tc (tc (walked_edge a b)) x y → tc (walked_edge a b) x y) as H; [|by apply H].
  clear. induction 1 as [x y H|x y z H _ IH]; [done|]. by etrans.
Qed.

(** C3: whatever the database answers, selecting merge bases ends, and a selection is about the
    commits of the two walks, both run to their ends: the incoming commit when it is on both
    sides, else the current one when it is; nothing when a shallow commit is on one side only;
    nothing when no commit is common; else, in the order of their names and within the limit,
    exactly the common commits that no other common commit descends to. *)
Theorem selectMergeBases_correct input :
  ∃ r, selectMergeBases input = Some r ∧
  ∀ s, r = Ok s → ∃ limits shallow a b,
    resolveLimits (MergeBase.limits input) = Ok limits ∧ readShallowOwned = Ok shallow ∧ both_walked input limits a b ∧
    selection_ok input limits shallow a b s.
Proof.
  unfold selectMergeBases. destruct (reachableGraphOwned_spec input) as (r & -> & Hr). cbn [mbind option_bind].
  destruct r as [[state limits]|e]; [|by eexists]. destruct (Hr state limits eq_refl) as (Hl & Hs & a & b & Hw & Htwo). clear Hr.
  assert (∀ s, selection_ok input limits (shallow state) a b s → ∃ limits shallow a b,
            resolveLimits (MergeBase.limits input) = Ok limits ∧ readShallowOwned = Ok shallow ∧ both_walked input limits a b ∧
            selection_ok input limits shallow a b s) as Hgive by (intros s ?; by exists limits, (shallow state), a, b).
  assert (counts (zlen (nodes state)) (λ x, x ∈ (a ++ b).*1)) as Hall.
  { exists (nodes state).*1. split_and!; [apply Htwo| |unfold zlen; by rewrite length_fmap].
    intros x. by rewrite (two_keys _ _ _ Htwo), fmap_app, elem_of_app. }
  assert (∀ x, side_of state x = Some BOTH ↔ x ∈ a.*1 ∧ x ∈ b.*1) as Hboth
    by (intros x; unfold side_of; by rewrite two_get, (two_both a b)).
  pose proof (cut_off_spec a b state Htwo) as Hcut.
  case_bool_decide as Hi; rewrite Hboth in Hi; [eexists; split; [done|]; intros s [= <-]; by apply Hgive|].
  case_bool_decide as Hc; rewrite Hboth in Hc; [eexists; split; [done|]; intros s [= <-]; by apply Hgive|]. destruct (cut_off state) eqn:Ecut.
  { eexists. split; [done|]. intros s [= <-]. apply Hgive. split; [done|]. split_and!; [done|done|by apply Hcut|done]. }
  assert (¬ ∃ x, x ∈ shallow state ∧ x ∈ (a ++ b).*1 ∧ ¬ (x ∈ a.*1 ∧ x ∈ b.*1)) as Hncut by (rewrite <- Hcut; congruence).
  destruct (bestCommonAncestors_spec (nodes state) (shallow state) (two_nodup _ _ _ Htwo)) as (r & -> & Hb). cbn [mbind option_bind].
  eexists. split; [done|]. intros s (best & -> & Hsel)%bind_ok_inv. destruct Hb as (_ & Hac & Hnd & Hsorted & Hbest & Hor).
  assert (∀ x, x ∈ best ↔ (x ∈ a.*1 ∧ x ∈ b.*1) ∧ ¬ ∃ c, (c ∈ a.*1 ∧ c ∈ b.*1) ∧ tc (walked_edge a b) c x) as Hbest'.
  { intros x. rewrite Hbest, (two_common a b _ Htwo). unfold below_common. setoid_rewrite (two_common a b _ Htwo).
    by setoid_rewrite (two_tc a b _ Htwo). }
  apply Hgive. destruct (zlen best =? 0) eqn:E0; zbool.
  - injection Hsel as <-. split; [done|]. split_and!; [done| |done]. assert (best = []) as -> by (destruct best; [done|rewrite zlen_cons in E0; pose proof (zlen_nonneg best); lia]).
    intros x Hx. apply (two_common a b _ Htwo) in Hx. apply (some_best a b (commonNodes (nodes state))).
    + intros y Hy. apply (Hac y). by apply (two_tc a b _ Htwo).
    + intros Hnil. rewrite Hnil in Hx. by apply elem_of_nil in Hx.
    + intros y Hy. destruct (Hor y Hy) as [?%elem_of_nil|(c & Hcc & Ht)]; [done|]. exists c. split; [done|]. by apply (two_tc a b _ Htwo).
  - destruct (maxBases limits <? zlen best) eqn:E1; [done|]. zbool. injection Hsel as <-. split; [done|].
    cbn [kind bases]. split_and!; try done. intros ->. by apply E0.
Qed.

(** The same commits, walked to the end on both sides, within the limits and without a gap: an
    answer. *)
Lemma reachable_ok input limits shallow a b :
  isOid (currentOid input) = true → isOid (incomingOid input) = true → resolveLimits (MergeBase.limits input) = Ok limits →
  require_commit (currentOid input) = Ok tt → require_commit (incomingOid input) = Ok tt → readShallowOwned = Ok shallow →
  both_walked input limits a b → agreeing (a ++ b) → at_most (maxCommits limits) (λ x, x ∈ (a ++ b).*1) →
  ∃ nodes, reachableGraphOwned input = Some (Ok (mkState nodes shallow, limits)) ∧ two_sides a b nodes.
Proof.
  intros Hc Hi Hl Htc Hti Hs [Ha Hb] Hagree Hmost. unfold reachableGraphOwned. rewrite Hc, Hi, Hl, Htc, Hti, Hs. cbn -[addReachable].
  destruct (add_items_ok CURRENT limits (a ++ b) a []) as (nodes1 & E1 & Hk1); [done|done|split; [apply NoDup_nil_2|by intros ? ? [=]]|..].
  { intros e He. apply elem_of_app. by left. }
  destruct (add_items_ok INCOMING limits (a ++ b) b nodes1) as (nodes2 & E2 & _); [done|done|done|..].
  { intros e He. apply elem_of_app. by right. }
  unfold addReachable. rewrite Ha, Hb. cbn [mbind option_bind]. unfold for_of. cbn [items ending]. rewrite E1. cbn [mbind outcome_bind].
  rewrite E2. cbn [mbind outcome_bind]. exists nodes2. split; [done|]. apply (added_two a b nodes1).
  - apply (add_items_added _ limits); [apply NoDup_nil_2|done].
  - apply (add_items_added _ limits); [apply Hk1|done].
Qed.

(** C13: [selectMergeBases] refuses nothing without a reason: two full names of commits, limits
    that can be resolved, both histories walked to their ends, one content per commit, no more
    commits than the limit, every parent found unless its child is shallow, no cycle, no more
    bases than the limit: then there is an answer. *)
Theorem selectMergeBases_answers input limits shallow a b :
  isOid (currentOid input) = true → isOid (incomingOid input) = true → resolveLimits (MergeBase.limits input) = Ok limits →
  require_commit (currentOid input) = Ok tt → require_commit (incomingOid input) = Ok tt → readShallowOwned = Ok shallow →
  both_walked input limits a b → agreeing (a ++ b) → at_most (maxCommits limits) (λ x, x ∈ (a ++ b).*1) →
  (∀ x c p, (x, c) ∈ a ++ b → p ∈ parent c → p ∈ (a ++ b).*1 ∨ x ∈ shallow) → (∀ x, ¬ tc (walked_edge a b) x x) →
  at_most (maxBases limits) (λ x, (x ∈ a.*1 ∧ x ∈ b.*1) ∧ ¬ ∃ c, (c ∈ a.*1 ∧ c ∈ b.*1) ∧ tc (walked_edge a b) c x) →
  ∃ s, selectMergeBases input = Some (Ok s).
Proof.
  intros Hc Hi Hl Htc Hti Hs Hw Hagree Hmost Hgap Hcycle Hbases.
  destruct (reachable_ok input limits shallow a b) as (nodes & E & Htwo); try done. unfold selectMergeBases. rewrite E. cbn [mbind option_bind].
  repeat (case_bool_decide; [by eexists|]). destruct (cut_off _); [by eexists|]. cbn [MergeBase.nodes MergeBase.shallow].
  destruct (bestCommonAncestors_spec nodes shallow (two_nodup _ _ _ Htwo)) as (r & -> & Hb). cbn [mbind option_bind]. destruct r as [best|e].
  - cbn [mbind outcome_bind]. destruct (zlen best =? 0); [by eexists|]. destruct (maxBases limits <? zlen best) eqn:E1; [|by eexists]. zbool.
    destruct Hb as (_ & _ & Hnd & _ & Hbest & _). assert (zlen best <= maxBases limits); [|lia]. apply Hbases; [done|]. intros x Hx.
    apply Hbest in Hx as [Hx Hbelow]. rewrite (two_common a b _ Htwo) in Hx. split; [done|]. intros (c & Hcc & Ht). apply Hbelow. exists c.
    split; [by apply (two_common a b _ Htwo)|by apply (two_tc a b _ Htwo)].
  - exfalso. destruct Hb as [(_ & x & p & Hp & Hn & Hx)|(_ & x & Hx)].
    + assert (x ∈ nodes.*1) as Hxk by (apply map_get_is_Some; unfold parents_of in Hp; destruct (map_get nodes x); [by eexists|by apply elem_of_nil in Hp]).
      apply (two_keys _ _ _ Htwo) in Hxk. rewrite <- elem_of_app, <- fmap_app in Hxk. apply list_elem_of_fmap in Hxk as ([y c] & -> & Hy).
      cbn [fst] in *. rewrite (two_parents _ _ _ Htwo y c Hy) in Hp. destruct (Hgap y c p Hy Hp) as [Hk|Hk]; [|done].
      apply Hn, (two_keys _ _ _ Htwo). by rewrite <- elem_of_app, <- fmap_app.
    + apply (Hcycle x). by apply (two_tc a b _ Htwo).
Qed.

(** * Ahead and behind *)

(** What a divergence says of the commits of the two sides. *)
Definition divergence_ok (shallow : list oid) (a b : walked) (d : DivergenceResult) : Prop :=
  let cut := ∃ x, x ∈ shallow ∧ x ∈ (a ++ b).*1 ∧ ¬ (x ∈ a.*1 ∧ x ∈ b.*1) in
  counts (d_ahead d) (λ x, (x ∈ a.*1) ∧ x ∉ b.*1) ∧ counts (d_behind d) (λ x, (x ∈ b.*1) ∧ x ∉ a.*1) ∧
  match relationship d with
  | rel_shallow => cut
  | rel_unrelated => ¬ cut ∧ ∀ x, ¬ (x ∈ a.*1 ∧ x ∈ b.*1)
  | rel_identical => ¬ cut ∧ (∃ x, x ∈ a.*1) ∧ ∀ x, x ∈ a.*1 ↔ x ∈ b.*1
  | rel_ahead => ¬ cut ∧ (∃ x, x ∈ b.*1) ∧ (∀ x, x ∈ b.*1 → x ∈ a.*1) ∧ ∃ x, (x ∈ a.*1) ∧ x ∉ b.*1
  | rel_behind => ¬ cut ∧ (∃ x, x ∈ a.*1) ∧ (∀ x, x ∈ a.*1 → x ∈ b.*1) ∧ ∃ x, (x ∈ b.*1) ∧ x ∉ a.*1
  | rel_diverged => ¬ cut ∧ (∃ x, x ∈ a.*1 ∧ x ∈ b.*1) ∧ (∃ x, (x ∈ a.*1) ∧ x ∉ b.*1) ∧ ∃ x, (x ∈ b.*1) ∧ x ∉ a.*1
  end.

Lemma counts_zero n P : counts n P → n = 0 → ∀ x, ¬ P x.
Proof.
  intros (all & _ & Hall & ->) H0 x Hx. apply Hall in Hx. destruct all; [by apply elem_of_nil in Hx|]. rewrite zlen_cons in H0. pose proof (zlen_nonneg all). lia.
Qed.

Lemma counts_some n P : counts n P → n ≠ 0 → ∃ x, P x.
Proof. intros (all & _ & Hall & ->) H0. destruct all as [|x all]; [done|]. exists x. apply Hall. by left. Qed.

Lemma counted_side a b nodes side P :
  two_sides a b nodes → 0 < side → (∀ x, node_sides nodes x = side ↔ P x) → counts (zlen (filter (λ n : oid * GraphNode, sides n.2 = side) nodes)) P.
Proof.
  intros Htwo Hs HP. exists (filter (λ n : oid * GraphNode, sides n.2 = side) nodes).*1. split_and!.
  - apply (sublist_NoDup _ nodes.*1); [apply Htwo|]. apply fmap_sublist, sublist_filter.
  - intros x. rewrite <- HP, <- two_get by done. rewrite list_elem_of_fmap. split.
    + intros ([y n] & -> & [Hn Hin]%list_elem_of_filter). apply (map_get_NoDup nodes y n) in Hin; [|apply Htwo]. cbn [fst snd] in *. by rewrite Hin; cbn; rewrite Hn.
    + destruct (map_get nodes x) as [n|] eqn:E; [|done]. cbn. intros [= Hn]. exists (x, n). split; [done|]. apply list_elem_of_filter.
      split; [done|by apply map_get_elem].
  - unfold zlen. by rewrite length_fmap.
Qed.

Lemma two_left a b nodes x : two_sides a b nodes → node_sides nodes x = CURRENT ↔ (x ∈ a.*1) ∧ x ∉ b.*1.
Proof. intros Htwo. rewrite (two_sides_of _ _ _ Htwo). unfold side_if. repeat case_decide; split; try done; intros; tauto. Qed.

Lemma two_right a b nodes x : two_sides a b nodes → node_sides nodes x = INCOMING ↔ (x ∈ b.*1) ∧ x ∉ a.*1.
Proof. intros Htwo. rewrite (two_sides_of _ _ _ Htwo). unfold side_if. repeat case_decide; split; try done; intros; tauto. Qed.

Lemma related_spec a b nodes :
  two_sides a b nodes →
  existsb (λ n : oid * GraphNode, negb (sides n.2 =? CURRENT) && negb (sides n.2 =? INCOMING)) nodes = true ↔ ∃ x, x ∈ a.*1 ∧ x ∈ b.*1.
Proof.
  intros Htwo. rewrite existsb_exists. setoid_rewrite <- list_elem_of_In. split.
  - intros ([x n] & Hin & Hs). apply (map_get_NoDup nodes x n) in Hin; [|apply Htwo]. exists x.
    pose proof (two_sides_of _ _ _ Htwo x) as H. unfold node_sides in H. rewrite Hin in H. cbn [from_option snd] in *. rewrite H in Hs.
    assert (x ∈ a.*1 ∨ x ∈ b.*1) by (apply (two_keys _ _ _ Htwo), map_get_is_Some; by eexists).
    unfold side_if in Hs. repeat case_decide; cbn in Hs; try done. tauto.
  - intros (x & Hx). apply (two_both a b nodes Htwo) in Hx. unfold node_sides in Hx. destruct (map_get nodes x) as [n|] eqn:E; [|done].
    exists (x, n). split; [by apply map_get_elem|]. cbn [from_option snd] in *. by rewrite Hx.
Qed.

(** C14: [divergence] answers how the two histories relate: how many commits only the current
    side has and only the upstream side has; whether a shallow commit on one side only leaves
    that open; else whether they share nothing, are the same, one holds the other with more
    commits, or both have commits of their own. *)
Theorem divergence_correct revParse current upstream :
  ∃ r, divergence revParse current upstream = Some r ∧
  ∀ d, r = Ok d → ∃ c u limits shallow a b,
    (revParse current ≫= peel) = Ok c ∧ (revParse upstream ≫= peel) = Ok u ∧ readShallowOwned = Ok shallow ∧
    both_walked (mkInput c u None) limits a b ∧ divergence_ok shallow a b d.
Proof.
  unfold divergence. destruct (revParse current ≫= _) as [[c u]|e] eqn:E; [|by eexists].
  apply bind_ok_inv in E as (c0 & Hc0 & E). apply bind_ok_inv in E as (c1 & Hc1 & E). apply bind_ok_inv in E as (u0 & Hu0 & E).
  apply bind_ok_inv in E as (u1 & Hu1 & [= -> ->]). destruct (reachableGraphOwned_spec (mkInput c u None)) as (r & -> & Hr). cbn [mbind option_bind].
  eexists. split; [done|]. intros d ([state limits] & -> & [= <-])%bind_ok_inv. destruct (Hr _ _ eq_refl) as (_ & Hs & a & b & Hw & Htwo).
  exists c, u, limits, (shallow state), a, b. rewrite Hc0, Hu0. split_and!; [done|done|done|done|]. clear - Htwo.
  pose proof (counted_side a b _ CURRENT _ Htwo ltac:(done) (λ x, two_left a b _ x Htwo)) as Hl.
  pose proof (counted_side a b _ INCOMING _ Htwo ltac:(done) (λ x, two_right a b _ x Htwo)) as Hr.
  pose proof (cut_off_spec a b state Htwo) as Hcut. pose proof (related_spec a b _ Htwo) as Hrel.
  unfold divergence_of. split; [exact Hl|]. split; [exact Hr|]. cbn [relationship].
  destruct (cut_off state); [by apply Hcut|]. assert (¬ ∃ x, x ∈ shallow state ∧ x ∈ (a ++ b).*1 ∧ ¬ (x ∈ a.*1 ∧ x ∈ b.*1)) as Hncut by (rewrite <- Hcut; done).
  destruct (existsb _ _) eqn:E; cbn [negb].
  2:{ split; [done|]. intros x Hx. assert (false = true) by (apply Hrel; by exists x). done. }
  destruct (proj1 Hrel eq_refl) as (y & Hya & Hyb). clear Hrel Hcut.
  assert (∀ (P Q : oid → Prop) x, (∀ x, ¬ (P x ∧ ¬ Q x)) → (Decision (Q x)) → P x → Q x) as Hdec
    by (intros P Q x H [?|?] ?; [done|]; by destruct (H x)).
  destruct (zlen (filter (λ n : oid * GraphNode, sides n.2 = CURRENT) _) =? 0) eqn:E1,
    (zlen (filter (λ n : oid * GraphNode, sides n.2 = INCOMING) _) =? 0) eqn:E2; zbool; cbn [andb].
  - pose proof (counts_zero _ _ Hl E1) as H1. pose proof (counts_zero _ _ Hr E2) as H2. split_and!; [done|by exists y|].
    intros x. split; intros Hx; [apply (Hdec (λ x, x ∈ a.*1) (λ x, x ∈ b.*1))|apply (Hdec (λ x, x ∈ b.*1) (λ x, x ∈ a.*1))]; try done; apply _.
  - pose proof (counts_zero _ _ Hl E1) as H1. split_and!; [done|by exists y| |by apply (counts_some _ _ Hr)].
    intros x Hx. apply (Hdec (λ x, x ∈ a.*1) (λ x, x ∈ b.*1)); [done|apply _|done].
  - pose proof (counts_zero _ _ Hr E2) as H2. split_and!; [done|by exists y| |by apply (counts_some _ _ Hl)].
    intros x Hx. apply (Hdec (λ x, x ∈ b.*1) (λ x, x ∈ a.*1)); [done|apply _|done].
  - split_and!; [done|by exists y|by apply (counts_some _ _ Hl)|by apply (counts_some _ _ Hr)].
Qed.

End select.

(** * An example: two merges of the same two commits *)

Definition example_input : MergeBaseInput := mkInput (example_oid 0x64) (example_oid 0x65) None.
Definition example_side (root : oid) : walked :=
  from_option items [] (walkIndexedOwned (repo := example_repo) root (Some MAX_MERGE_BASE_COMMITS)).
Notation example_a := (example_side (example_oid 0x64)).
Notation example_b := (example_side (example_oid 0x65)).

Lemma example_walked : both_walked (repo := example_repo) example_input (mkResolved MAX_MERGE_BASE_COMMITS MAX_MERGE_BASES) example_a example_b.
Proof. split; vm_compute; reflexivity. Qed.

(** A check of every pair of walked commits, and what it says. *)
Definition agree_check (l : walked) : bool :=
  forallb (λ e, forallb (λ f, negb (bool_decide (e.1 = f.1)) || bool_decide (c_tree e.2 = c_tree f.2 ∧ parent e.2 = parent f.2)) l) l.

Lemma agree_checked l : agree_check l = true → agreeing l.
Proof.
  unfold agree_check. rewrite forallb_forall. setoid_rewrite <- list_elem_of_In. intros H x c d Hc Hd.
  specialize (H _ Hc). rewrite forallb_forall in H. setoid_rewrite <- list_elem_of_In in H. specialize (H _ Hd). cbn [fst snd] in H.
  rewrite bool_decide_eq_true_2 in H by done. by apply bool_decide_eq_true in H.
Qed.

Definition gap_check (l : walked) : bool := forallb (λ e, forallb (λ p, bool_decide (p ∈ l.*1)) (parent e.2)) l.

Lemma gap_checked l x c p : gap_check l = true → (x, c) ∈ l → p ∈ parent c → p ∈ l.*1.
Proof.
  unfold gap_check. rewrite forallb_forall. setoid_rewrite <- list_elem_of_In. intros H Hx Hp.
  specialize (H _ Hx). rewrite forallb_forall in H. setoid_rewrite <- list_elem_of_In in H. by apply (H p), bool_decide_eq_true in Hp.
Qed.

(** Parents with smaller names: no cycle. *)
Definition first_unit (x : oid) : Z := default 0 (head x).
Definition down_check (l : walked) : bool := forallb (λ e, forallb (λ p, first_unit p <? first_unit e.1) (parent e.2)) l.

Lemma down_checked a b : down_check (a ++ b) = true → ∀ x, ¬ tc (walked_edge a b) x x.
Proof.
  unfold down_check. rewrite forallb_forall. setoid_rewrite <- list_elem_of_In. intros H.
  assert (∀ x y, walked_edge a b x y → first_unit y < first_unit x) as Hstep.
  { intros x y (c & Hx & Hy & _). specialize (H _ Hx). rewrite forallb_forall in H. setoid_rewrite <- list_elem_of_In in H.
    specialize (H _ Hy). cbn [fst] in H. lia. }
  assert (∀ x y, tc (walked_edge a b) x y → first_unit y < first_unit x) as Htc by (induction 1 as [x y ?|x y z Hxy _ IH]; [by apply Hstep|apply Hstep in Hxy; lia]).
  intros x Hx. apply Htc in Hx. lia.
Qed.

Lemma at_most_checked n l (P : oid → Prop) : (∀ x, P x → x ∈ l) → zlen l <= n → at_most n P.
Proof.
  intros HP Hl all Hnd Hall. assert (length all <= length l)%nat; [|unfold zlen in *; lia].
  apply submseteq_length, NoDup_submseteq; [done|]. intros x Hx. by apply HP, Hall.
Qed.

Lemma selectMergeBases_answers_witness : ∃ s, selectMergeBases (repo := example_repo) example_input = Some (Ok s).
Proof.
  assert (zlen (example_a ++ example_b).*1 <= MAX_MERGE_BASE_COMMITS ∧ zlen example_a.*1 <= MAX_MERGE_BASES) as [Hc Hb] by (split; vm_compute; done).
  apply (selectMergeBases_answers (repo := example_repo) example_input (mkResolved MAX_MERGE_BASE_COMMITS MAX_MERGE_BASES) [] example_a example_b).
  1-6: vm_compute; reflexivity.
  - exact example_walked.
  - apply agree_checked. vm_compute. reflexivity.
  - by apply (at_most_checked _ (example_a ++ example_b).*1).
  - intros x c p Hx Hp. left. eapply gap_checked; [vm_compute; reflexivity|exact Hx|exact Hp].
  - apply down_checked. vm_compute. reflexivity.
  - apply (at_most_checked _ example_a.*1); [tauto|done].
Defined.

Example example_bases :
  selectMergeBases (repo := example_repo) example_input = Some (Ok (mkSelection Divergent [example_oid 0x62; example_oid 0x63] 5)).
Proof. vm_compute. reflexivity. Qed.

Lemma selectMergeBases_correct_witness :
  ∃ limits shallow a b, both_walked (repo := example_repo) example_input limits a b ∧
    selection_ok example_input limits shallow a b (mkSelection Divergent [example_oid 0x62; example_oid 0x63] 5).
Proof.
  destruct (selectMergeBases_correct (repo := example_repo) example_input) as (r & Hr & H). rewrite example_bases in Hr.
  destruct (H (mkSelection Divergent [example_oid 0x62; example_oid 0x63] 5)) as (limits & shallow & a & b & _ & _ & Hw & Hs); [congruence|].
  by exists limits, shallow, a, b.
Defined.

Example example_divergence :
  divergence (repo := example_repo) Ok (example_oid 0x64) (example_oid 0x65) = Some (Ok (mkDivergence rel_diverged 1 1)).
Proof. vm_compute. reflexivity. Qed.

Lemma divergence_correct_witness :
  ∃ shallow a b, divergence_ok shallow a b (mkDivergence rel_diverged 1 1).
Proof.
  destruct (divergence_correct (repo := example_repo) Ok (example_oid 0x64) (example_oid 0x65)) as (r & Hr & H). rewrite example_divergence in Hr.
  destruct (H (mkDivergence rel_diverged 1 1)) as (c & u & limits & shallow & a & b & _ & _ & _ & _ & Hd); [congruence|].
  by exists shallow, a, b.
Defined.
