(* ===== verification/Process.v ===== *)
(** Computations with a state that outlives an exception, as [effect] of the prelude, whose
    loops take fuel: [None] means that the fuel ran out, and nothing else does. *)

From S2P Require Import Prelude.

Definition process (W A : Type) : Type := W → option (outcome A * W).

#[export] Instance process_ret {W} : MRet (process W) := λ A a w, Some (Ok a, w).
#[export] Instance process_bind {W} : MBind (process W) := λ A B f m w,
  match m w with
  | Some (Ok a, w) => f a w
  | Some (Throw e, w) => Some (Throw e, w)
  | None => None
  end.

Definition p_raise {W A} (e : jserror) : process W A := λ w, Some (Throw e, w).
Definition p_lift {W A} (o : outcome A) : process W A := λ w, Some (o, w).
Definition p_gets {W A} (f : W → A) : process W A := λ w, Some (Ok (f w), w).
Definition p_modify {W} (f : W → W) : process W unit := λ w, Some (Ok tt, f w).

(** A computation whose fuel depends on the state it starts in. *)
Definition p_fueled {W A} (fuel : W → nat) (m : nat → process W A) : process W A := λ w, m (fuel w) w.

(** [try { m } catch (error) { h }] and [try { m } finally { f }]: an error of [f] replaces
    what [m] gave. *)
Definition p_catch {W A} (m : process W A) (h : jserror → process W A) : process W A := λ w,
  match m w with
  | Some (Throw e, w) => h e w
  | r => r
  end.
Definition p_finally {W A} (m : process W A) (f : process W unit) : process W A := λ w,
  match m w with
  | Some (r, w) =>
      match f w with
      | Some (Ok _, w) => Some (r, w)
      | Some (Throw e, w) => Some (Throw e, w)
      | None => None
      end
  | None => None
  end.

Section laws.
  Context {W : Type}.

Lemma p_bind_ok {A B} (m : process W A) (f : A → process W B) w a w' :
  m w = Some (Ok a, w') → (m ≫= f) w = f a w'.
Proof. intros H. unfold mbind, process_bind. by rewrite H. Qed.

Lemma p_bind_throw {A B} (m : process W A) (f : A → process W B) w e w' :
  m w = Some (Throw e, w') → (m ≫= f) w = Some (Throw e, w').
Proof. intros H. unfold mbind, process_bind. by rewrite H. Qed.

Lemma p_bind_lift {A B} (o : outcome A) (f : A → process W B) w :
  (p_lift o ≫= f) w = match o with Ok a => f a w | Throw e => Some (Throw e, w) end.
Proof. unfold mbind, process_bind, p_lift. by destruct o. Qed.

Lemma p_bind_assoc {A B C} (m : process W A) (f : A → process W B) (g : B → process W C) w :
  ((m ≫= f) ≫= g) w = (m ≫= λ a, f a ≫= g) w.
Proof. unfold mbind, process_bind. by destruct (m w) as [[[a|e] w']|]. Qed.

Lemma p_catch_ok {A} (m : process W A) h w a w' : m w = Some (Ok a, w') → p_catch m h w = Some (Ok a, w').
Proof. intros H. unfold p_catch. by rewrite H. Qed.

Lemma p_catch_throw {A} (m : process W A) h w e w' : m w = Some (Throw e, w') → p_catch m h w = h e w'.
Proof. intros H. unfold p_catch. by rewrite H. Qed.

Lemma p_finally_ok {A} (m : process W A) f w r w1 w2 :
  m w = Some (r, w1) → f w1 = Some (Ok tt, w2) → p_finally m f w = Some (r, w2).
Proof. intros H1 H2. unfold p_finally. by rewrite H1, H2. Qed.

End laws.

(** Go on after the first statement, described by [H]. *)
Tactic Notation "proceed_by" uconstr(H) := rewrite (p_bind_ok _ _ _ _ _ H); cbn beta iota.
