(* ===== verification/PktLine.v ===== *)
(** Packet lines: src/packages/git/src/protocol/pktline.ts and stream.ts.

    A frame is a length of four hexadecimal digits, which counts itself, and a payload; the
    lengths 0 and 1 are the marks flush and delim.  [ByteReader] reads frames out of a source
    of chunks cut anywhere. *)

From S2P Require Import Prelude Utf8 Text Bytes Objects JsMap Process.

Definition MAX_PKT_FRAME_BYTES : Z := 65520.
Definition MAX_PKT_PAYLOAD_BYTES : Z := MAX_PKT_FRAME_BYTES - 4.

(** * Writing *)

(** [concat] of pktline.ts: the parts written into an array of their whole size. *)
Fixpoint pkt_fill (output : bytes) (offset : Z) (chunks : list bytes) : outcome bytes :=
  match chunks with
  | [] => Ok output
  | chunk :: chunks => output ← typed_set output chunk offset; pkt_fill output (offset + zlen chunk) chunks
  end.
Definition pkt_concat (chunks : list bytes) : outcome bytes :=
  let size := foldl (λ total chunk, total + zlen chunk) 0 chunks in
  pkt_fill (replicate (Z.to_nat size) 0) 0 chunks.

Definition FLUSH : bytes := encode (js "0000").
Definition DELIM : bytes := encode (js "0001").

(** [n.toString(16)] of a safe integer, which has at most 14 digits, and [s.padStart(n, "0")]. *)
Fixpoint hex_string (digits : nat) (n : Z) : ustring :=
  match digits with
  | O => []
  | S digits => if n <? 16 then [hex_digit n] else hex_string digits (n / 16) ++ [hex_digit (n mod 16)]
  end.
Definition padStart (n : nat) (s : ustring) : ustring := replicate (n - length s) 0x30 ++ s.

(** [pkt(payload)] of bytes, and of a string. *)
Definition pkt (body : bytes) : outcome bytes :=
  if MAX_PKT_PAYLOAD_BYTES <? zlen body then Throw (PlainError (js "pkt-line payload too long"))
  else pkt_concat [encode (padStart 4 (hex_string 14 (zlen body + 4))); body].
Definition pkt_text (payload : ustring) : outcome bytes := pkt (encode payload).

Fixpoint pkts (payloads : list bytes) : outcome (list bytes) :=
  match payloads with
  | [] => Ok []
  | p :: payloads => frame ← pkt p; frames ← pkts payloads; Ok (frame :: frames)
  end.
Definition pktLines (payloads : list bytes) : outcome bytes := frames ← pkts payloads; pkt_concat frames.

(** * Packets *)

Inductive PktKind := line | flush | delim.
Record Pkt := mkPkt { kind : PktKind; payload : bytes }.

#[export] Instance PktKind_eq_dec : EqDecision PktKind.
Proof. solve_decision. Defined.
#[export] Instance Pkt_eq_dec : EqDecision Pkt.
Proof. solve_decision. Defined.

(** [text.endsWith("\n") ? text.slice(0, -1) : text]. *)
Definition strip_newline (text : ustring) : ustring := if bool_decide (last text = Some 0x0a) then removelast text else text.

Definition pktText (p : Pkt) : ustring := strip_newline (decode_lossy (payload p)).

(** The value of one byte of a length. *)
Definition length_digit (char : Z) : option Z :=
  if (0x30 <=? char) && (char <=? 0x39) then Some (char - 0x30)
  else if (0x61 <=? char) && (char <=? 0x66) then Some (char - 0x57)
  else if (0x41 <=? char) && (char <=? 0x46) then Some (char - 0x37)
  else None.

Fixpoint length_loop (buffer : bytes) (indices : list Z) (value : Z) : outcome Z :=
  match indices with
  | [] => Ok value
  | i :: indices =>
      match at_ buffer i ≫= length_digit with
      | None => Throw (CorruptError (js "bad pkt-line length"))
      | Some digit => length_loop buffer indices (Z.lor (Z.shiftl value 4) digit)
      end
  end.
Definition parseLength (buffer : bytes) : outcome Z := length_loop buffer [0; 1; 2; 3] 0.

(** * The reader

    The source is the chunks it has still to give and how it ends, an aborted read being one
    of the errors it may end with; [looks] is what the coming looks at the signal see, [false]
    at the end; [returned] is how the source's [return] goes.  [released] is the outcome the
    promise of [release] holds once there is one. *)
Record ByteReader := mkReader {
  source : list bytes; source_end : outcome unit; looks : list bool; returned : outcome unit;
  chunk : bytes; offset : Z; done_ : bool; released : option (outcome unit)
}.

Definition set_source (s : list bytes) (r : ByteReader) : ByteReader :=
  mkReader s (source_end r) (looks r) (returned r) (chunk r) (offset r) (done_ r) (released r).
Definition set_chunk (c : bytes) (r : ByteReader) : ByteReader :=
  mkReader (source r) (source_end r) (looks r) (returned r) c 0 (done_ r) (released r).
Definition set_offset (o : Z) (r : ByteReader) : ByteReader :=
  mkReader (source r) (source_end r) (looks r) (returned r) (chunk r) o (done_ r) (released r).
Definition set_done (r : ByteReader) : ByteReader :=
  mkReader (source r) (source_end r) (looks r) (returned r) (chunk r) (offset r) true (released r).
Definition set_looks (l : list bool) (r : ByteReader) : ByteReader :=
  mkReader (source r) (source_end r) l (returned r) (chunk r) (offset r) (done_ r) (released r).

Definition new_ByteReader (chunks : list bytes) (end_ : outcome unit) : ByteReader :=
  mkReader chunks end_ [] (Ok tt) [] 0 false None.

Notation reading := (process ByteReader).

Definition abortedError : jserror := GitErr "EABORTED" "network operation aborted".
Definition throwIfAborted : reading unit := λ r,
  match looks r with
  | true :: looks => Some (Throw abortedError, set_looks looks r)
  | false :: looks => Some (Ok tt, set_looks looks r)
  | [] => Some (Ok tt, r)
  end.

(** The source is finalized once; later calls see the first outcome. *)
Definition release : reading unit := λ r,
  match released r with
  | Some o => Some (o, r)
  | None =>
      let o := returned r in
      Some (o, mkReader (source r) (source_end r) (looks r) (returned r) [] 0 true (Some o))
  end.

(** [#advance]: to the next chunk that is not empty. *)
Fixpoint advance_from (chunks : list bytes) : reading bool := λ r,
  match chunks with
  | [] =>
      match source_end r with
      | Ok _ => Some (Ok false, set_done (set_source [] r))
      | Throw e => Some (Throw e, set_source [] r)
      end
  | c :: chunks => if zlen c =? 0 then advance_from chunks r else Some (Ok true, set_chunk c (set_source chunks r))
  end.
Definition advance : reading bool := λ r, if done_ r then Some (Ok false, r) else advance_from (source r) r.

(** One round of the loop of [#takeExact]: what the chunk has goes to [out], which holds what
    is written; then, if more is wanted, the next chunk. *)
Definition take_chunk (length : Z) (out : bytes) : reading bytes := λ r,
  let remaining := zlen (chunk r) - offset r in
  if 0 <? remaining then
    let take := Z.min remaining (length - zlen out) in
    Some (Ok (out ++ slice (chunk r) (offset r) (offset r + take)), set_offset (offset r + take) r)
  else Some (Ok out, r).

Definition need_more (wanted : bool) : reading unit :=
  if wanted then
    more ← advance;
    if negb more then p_raise (CorruptError (js "truncated pkt-line")) else mret tt
  else mret tt.

Fixpoint take_loop (fuel : nat) (length : Z) (out : bytes) : reading bytes :=
  match fuel with
  | O => λ _, None
  | S fuel =>
      if zlen out <? length then
        out ← take_chunk length out;
        _ ← need_more (zlen out <? length);
        take_loop fuel length out
      else mret out
  end.

(** One round per chunk and one to see that all is written. *)
Definition take_fuel (r : ByteReader) : nat := S (S (S (length (source r)))).

(** The next chunk, when this one is consumed. *)
Definition refill : reading bool := λ r, if offset r =? zlen (chunk r) then advance r else Some (Ok true, r).

(** A view of the chunk when it has enough, else an array of its own. *)
Definition take_bytes (length : Z) : reading bytes := λ r,
  let available := zlen (chunk r) - offset r in
  if length <=? available then Some (Ok (slice (chunk r) (offset r) (offset r + length)), set_offset (offset r + length) r)
  else take_loop (take_fuel r) length [] r.

Definition takeExact (length : Z) : reading (option bytes) :=
  if length =? 0 then mret (Some [])
  else
    more ← refill;
    if negb more then mret None
    else out ← take_bytes length; mret (Some out).

(** [error instanceof CorruptError]. *)
Definition is_corrupt (e : jserror) : bool :=
  match e with GitError code _ => str_eqb code (js "ECORRUPT") | _ => false end.

(** The four bytes of a length; being cut off inside them is an error of its own. *)
Definition readHeader : reading (option bytes) :=
  p_catch (takeExact 4) (λ e, p_raise (if is_corrupt e then CorruptError (js "truncated pkt-line length") else e)).

Definition readPayload (length : Z) : reading Pkt :=
  payload ← takeExact (length - 4);
  match payload with
  | None => p_raise (CorruptError (js "truncated pkt-line"))
  | Some payload => mret (mkPkt line payload)
  end.

(** The body of the [try] of [readPkt]. *)
Definition readFrame : reading (option Pkt) :=
  _ ← throwIfAborted;
  header ← readHeader;
  match header with
  | None => _ ← release; mret None
  | Some header =>
      length ← p_lift (parseLength header);
      if length =? 0 then mret (Some (mkPkt flush []))
      else if length =? 1 then mret (Some (mkPkt delim []))
      else if length <? 4 then p_raise (CorruptError (js "bad pkt-line length " ++ number_string length))
      else if MAX_PKT_FRAME_BYTES <? length then
        p_raise (CorruptError (js "pkt-line exceeds " ++ number_string MAX_PKT_FRAME_BYTES ++ js " bytes"))
      else p ← readPayload length; mret (Some p)
  end.

Definition readPkt : reading (option Pkt) :=
  p_catch readFrame (λ e, _ ← p_catch release (λ _, mret tt); p_raise e).

(** [rest()]: what is not consumed yet, and how that ends; the reader is released at the end,
    whose error replaces the source's. *)
Definition rest (r : ByteReader) : yields bytes :=
  let closing o := match default (returned r) (released r) with Ok _ => o | Throw e => Throw e end in
  match looks r with
  | true :: _ => mkYields [] (closing (Throw abortedError))
  | _ =>
      let first := if offset r <? zlen (chunk r) then [slice_from (chunk r) (offset r)] else [] in
      if done_ r then mkYields first (closing (Ok tt))
      else mkYields (first ++ filter (λ c, zlen c ≠ 0) (source r)) (closing (source_end r))
  end.
