(* ===== verification/PktLineFacts.v ===== *)
(** Packet lines: however the source cuts its bytes into chunks, the reader reads the frames
    of the bytes; and the frames that were written are read back. *)

From S2P Require Import Prelude Utf8 Text Bytes Objects JsMap Process PktLine.

(** * Frames of plain bytes *)

(** The first [length] bytes of what is left before the end [end_], and the others. *)
Definition flat_take (bs : bytes) (end_ : outcome unit) (length : Z) : outcome (option (bytes * bytes)) :=
  if zlen bs =? 0 then _ ← end_; Ok None
  else if length <=? zlen bs then Ok (Some (take (Z.to_nat length) bs, drop (Z.to_nat length) bs))
  else _ ← end_; Throw (CorruptError (js "truncated pkt-line")).

(** The first frame of what is left. *)
Definition frame_of (bs : bytes) (end_ : outcome unit) : outcome (option (Pkt * bytes)) :=
  match flat_take bs end_ 4 with
  | Throw e => Throw (if is_corrupt e then CorruptError (js "truncated pkt-line length") else e)
  | Ok None => Ok None
  | Ok (Some (header, bs)) =>
      length ← parseLength header;
      if length =? 0 then Ok (Some (mkPkt flush [], bs))
      else if length =? 1 then Ok (Some (mkPkt delim [], bs))
      else if length <? 4 then Throw (CorruptError (js "bad pkt-line length " ++ number_string length))
      else if MAX_PKT_FRAME_BYTES <? length then
        Throw (CorruptError (js "pkt-line exceeds " ++ number_string MAX_PKT_FRAME_BYTES ++ js " bytes"))
      else if length =? 4 then Ok (Some (mkPkt line [], bs))
      else
        payload ← flat_take bs end_ (length - 4);
        match payload with
        | None => Throw (CorruptError (js "truncated pkt-line"))
        | Some (payload, bs) => Ok (Some (mkPkt line payload, bs))
        end
  end.

(** * The reader *)

Definition rest_bytes (r : ByteReader) : bytes :=
  slice_from (chunk r) (offset r) ++ (if done_ r then [] else mjoin (source r)).

Record reader_ok (r : ByteReader) : Prop := {
  reader_offset : 0 <= offset r <= zlen (chunk r);
  reader_done : done_ r = true → source_end r = Ok tt;
  reader_looks : looks r = [];
  reader_open : released r = None
}.

(** Only reading changed the reader. *)
Record still_open (r r' : ByteReader) : Prop := {
  open_looks : looks r' = [];
  open_released : released r' = None;
  open_returned : returned r' = returned r;
  open_end : source_end r' = source_end r
}.

#[export] Instance still_open_trans : Transitive still_open.
Proof. intros r1 r2 r3 [] []. split; congruence. Qed.

Lemma reader_still r : reader_ok r → still_open r r.
Proof. intros []. by split. Qed.

Lemma zlen_nil_iff (l : bytes) : zlen l = 0 ↔ l = [].
Proof. split; [destruct l; [done|rewrite zlen_cons; pose proof (zlen_nonneg l); lia]|by intros ->]. Qed.

Lemma slice_from_end {A} (l : list A) i : zlen l <= i → slice_from l i = [].
Proof. intros H. unfold slice_from, zlen in *. apply drop_ge. lia. Qed.

Lemma rest_bytes_advance r : reader_ok r → offset r = zlen (chunk r) → rest_bytes r = if done_ r then [] else mjoin (source r).
Proof. intros _ Ho. unfold rest_bytes. by rewrite slice_from_end by lia. Qed.

Lemma advance_from_spec r chunks :
  match source_end r, mjoin chunks with
  | Ok _, [] => advance_from chunks r = Some (Ok false, set_done (set_source [] r))
  | Throw e, [] => advance_from chunks r = Some (Throw e, set_source [] r)
  | _, bs => ∃ c rest, advance_from chunks r = Some (Ok true, set_chunk c (set_source rest r)) ∧ c ≠ [] ∧ bs = c ++ mjoin rest ∧
      (length rest < length chunks)%nat
  end.
Proof.
  induction chunks as [|c chunks IH]; cbn [advance_from]; [cbn; by destruct (source_end r)|].
  rewrite mjoin_cons.
  destruct (zlen c =? 0) eqn:E; zbool.
  - apply zlen_nil_iff in E. subst c. cbn [app]. destruct (source_end r), (mjoin chunks); try done.
    all: destruct IH as (c & rest & ? & ? & ? & ?); exists c, rest; split_and!; [done..|cbn; lia].
  - assert (c ≠ []) as Hc by (intros ->; done). assert (∃ b bs, c ++ mjoin chunks = b :: bs) as (b & bs & Hb) by (destruct c; [done|by eexists _, _]).
    rewrite Hb. destruct (source_end r).
    all: exists c, chunks; split_and!; [done..|cbn; lia].
Qed.

(** Going on when the chunk is consumed. *)
Lemma advance_spec r :
  reader_ok r → offset r = zlen (chunk r) →
  ∃ o r', advance r = Some (o, r') ∧ still_open r r' ∧
  match rest_bytes r, source_end r with
  | [], Ok _ => o = Ok false
  | [], Throw e => o = Throw e
  | bs, _ => o = Ok true ∧ reader_ok r' ∧ rest_bytes r' = bs ∧ offset r' < zlen (chunk r') ∧ (length (source r') < length (source r))%nat
  end.
Proof.
  intros Hok Ho. rewrite rest_bytes_advance by done. destruct Hok as [_ Hdone Hl Hr]. unfold advance. destruct (done_ r) eqn:Ed.
  { rewrite (Hdone eq_refl). exists (Ok false), r. split_and!; [done|by split|done]. }
  pose proof (advance_from_spec r (source r)) as H. destruct (mjoin (source r)) as [|b bs]; destruct (source_end r) as [[]|e] eqn:Ee; rewrite ?Ee.
  1,2: rewrite H; eexists _, _; split_and!; [done|by split; cbn; rewrite ?Ee|done].
  all: destruct H as (c & rest & -> & Hc & -> & Hlt); eexists _, _; (split; [done|]); (split; [by split; cbn; rewrite ?Ee|]).
  all: assert (0 < zlen c) by (pose proof (zlen_nonneg c); rewrite <- zlen_nil_iff in Hc; lia).
  all: split_and!; [done| |unfold rest_bytes; cbn; by rewrite Ed|cbn; lia|done].
  all: split; cbn; [lia|congruence|done|done].
Qed.

(** What a chunk gives: [n] bytes, by moving the offset. *)
Lemma consume_ok r n :
  reader_ok r → 0 <= n <= zlen (chunk r) - offset r →
  reader_ok (set_offset (offset r + n) r) ∧ slice (chunk r) (offset r) (offset r + n) = take (Z.to_nat n) (rest_bytes r) ∧
  rest_bytes (set_offset (offset r + n) r) = drop (Z.to_nat n) (rest_bytes r).
Proof.
  intros [Ho Hd Hl Hr] Hn. assert (Z.to_nat n <= length (slice_from (chunk r) (offset r)))%nat as Hlen
    by (unfold slice_from, zlen in *; rewrite length_drop; lia).
  split_and!.
  - split; cbn; [lia|done|done|done].
  - unfold rest_bytes, slice. rewrite take_app_le by done. f_equal. lia.
  - unfold rest_bytes. cbn [chunk offset done_ source set_offset]. rewrite drop_app_le by done. f_equal.
    unfold slice_from. rewrite drop_drop. f_equal. lia.
Qed.

Lemma rest_bytes_in_chunk r : reader_ok r → zlen (chunk r) - offset r <= zlen (rest_bytes r).
Proof.
  intros [Ho _ _ _]. unfold rest_bytes. rewrite zlen_app. unfold slice_from, zlen in *. rewrite length_drop. lia.
Qed.

Definition truncated (r : ByteReader) : jserror := match source_end r with Ok _ => CorruptError (js "truncated pkt-line") | Throw e => e end.

Lemma take_chunk_spec length out r :
  reader_ok r → zlen out <= length →
  ∃ n r', take_chunk length out r = Some (Ok (out ++ take n (rest_bytes r)), r') ∧ still_open r r' ∧ reader_ok r' ∧
    rest_bytes r' = drop n (rest_bytes r) ∧ source r' = source r ∧ (Z.of_nat n <= length - zlen out) ∧ Z.of_nat n <= zlen (rest_bytes r) ∧
    (zlen out + Z.of_nat n < length → offset r' = zlen (chunk r')).
Proof.
  intros Hok Hout. unfold take_chunk. pose proof (reader_offset r Hok) as Ho. pose proof (rest_bytes_in_chunk r Hok) as Hin.
  destruct (0 <? zlen (chunk r) - offset r) eqn:E; zbool.
  - set (n := Z.min (zlen (chunk r) - offset r) (length - zlen out)). destruct (consume_ok r n Hok) as (Hok' & -> & Hrest); [lia|].
    eexists _, _. split; [done|]. split_and!; [by destruct Hok; split|done|done|done|lia|lia|]. cbn [offset chunk set_offset]. lia.
  - exists 0%nat, r. rewrite app_nil_r. split_and!; [done|by apply reader_still|done|done|done|lia|lia|lia].
Qed.

Lemma need_more_spec wanted r :
  reader_ok r → (wanted = true → offset r = zlen (chunk r)) →
  ∃ o r', need_more wanted r = Some (o, r') ∧ still_open r r' ∧
  if wanted && (zlen (rest_bytes r) =? 0) then o = Throw (truncated r)
  else o = Ok tt ∧ reader_ok r' ∧ rest_bytes r' = rest_bytes r ∧
       (length (source r') + (if wanted then 1 else 0) <= length (source r))%nat.
Proof.
  intros Hok Ho. destruct wanted; cbn [need_more andb]; [|exists (Ok tt), r; split_and!; [done|by apply reader_still|done|done|done|lia]].
  destruct (advance_spec r Hok (Ho eq_refl)) as (o & r' & Ha & Hopen & H). unfold truncated.
  destruct (rest_bytes r) as [|b bs]; [|rewrite zlen_cons; pose proof (zlen_nonneg bs); replace (1 + zlen bs =? 0) with false by (symmetry; apply Z.eqb_neq; lia)].
  - change (zlen [] =? 0) with true. cbv iota. destruct (source_end r) as [[]|e]; subst o.
    + eexists _, r'. rewrite (p_bind_ok _ _ _ _ _ Ha). split_and!; [done|done|done].
    + eexists _, r'. rewrite (p_bind_throw _ _ _ _ _ Ha). split_and!; [done|done|done].
  - destruct H as (-> & Hok' & Hr & _ & Hlt). eexists _, r'. rewrite (p_bind_ok _ _ _ _ _ Ha). split_and!; [done|done|done|done|done|lia].
Qed.

Lemma take_loop_spec fuel : ∀ length out r,
  reader_ok r → zlen out <= length → (S (List.length (source r)) < fuel)%nat →
  ∃ o r', take_loop fuel length out r = Some (o, r') ∧ still_open r r' ∧
  if length <=? zlen out + zlen (rest_bytes r)
  then o = Ok (out ++ take (Z.to_nat (length - zlen out)) (rest_bytes r)) ∧ reader_ok r' ∧
       rest_bytes r' = drop (Z.to_nat (length - zlen out)) (rest_bytes r)
  else o = Throw (truncated r).
Proof.
  induction fuel as [|fuel IH]; intros length out r Hok Hout Hf; [lia|]. cbn [take_loop]. pose proof (zlen_nonneg (rest_bytes r)) as Hrb.
  destruct (zlen out <? length) eqn:E; zbool.
  2:{ exists (Ok out), r. replace (length <=? _) with true by (symmetry; apply Z.leb_le; lia). replace (length - zlen out) with 0 by lia.
      rewrite app_nil_r. split_and!; [done|by apply reader_still|done|done|done]. }
  destruct (take_chunk_spec length out r Hok Hout) as (n & r1 & Ht & Hopen1 & Hok1 & Hr1 & Hs1 & Hn1 & Hn2 & Ho1). proceed_by Ht.
  assert (zlen (out ++ take n (rest_bytes r)) = zlen out + Z.of_nat n) as Hz by (rewrite zlen_app; unfold zlen in *; rewrite length_take; lia).
  assert (zlen (rest_bytes r1) = zlen (rest_bytes r) - Z.of_nat n) as Hz1 by (rewrite Hr1; unfold zlen in *; rewrite length_drop; lia).
  destruct (need_more_spec (zlen (out ++ take n (rest_bytes r)) <? length) r1 Hok1) as (o2 & r2 & Hm & Hopen2 & H2); [rewrite Hz; intros ?; zbool; auto|].
  assert (truncated r1 = truncated r) as Htr by (unfold truncated; by rewrite (open_end _ _ Hopen1)).
  rewrite Hz in Hm, H2. rewrite Hz. destruct ((zlen out + Z.of_nat n <? length) && _) eqn:Em.
  { apply andb_true_iff in Em as [E1 E2]. zbool. subst o2. eexists _, r2. rewrite (p_bind_throw _ _ _ _ _ Hm). split; [done|].
    split; [by etrans|]. replace (length <=? _) with false by (symmetry; apply Z.leb_gt; lia). by rewrite Htr. }
  destruct H2 as (-> & Hok2 & Hr2 & Hlt). proceed_by Hm.
  assert (zlen out + Z.of_nat n = length ∨ (S (List.length (source r2)) < fuel)%nat) as [Hend|Hf2].
  { rewrite Hs1 in Hlt. destruct (zlen out + Z.of_nat n <? length) eqn:E1; zbool; [right|left]; lia. }
  - exists (Ok (out ++ take n (rest_bytes r))), r2. destruct fuel as [|fuel]; [lia|]. cbn [take_loop]. rewrite Hz, (proj2 (Z.ltb_ge _ _)) by lia.
    replace (length <=? _) with true by (symmetry; apply Z.leb_le; lia). replace (Z.to_nat (length - zlen out)) with n by lia.
    split_and!; [done|by etrans|done|done|by rewrite Hr2].
  - destruct (IH length (out ++ take n (rest_bytes r)) r2 Hok2) as (o & r' & Hl & Hopen' & H); [lia|done|]. exists o, r'. split; [done|].
    split; [by do 2 (etrans; [done|])|]. rewrite Hr2, Hz, Hz1 in H.
    replace (zlen out + Z.of_nat n + (zlen (rest_bytes r) - Z.of_nat n)) with (zlen out + zlen (rest_bytes r)) in H by lia.
    assert (truncated r2 = truncated r) as Htr2 by (unfold truncated; by rewrite (open_end _ _ Hopen2), (open_end _ _ Hopen1)).
    destruct (length <=? _) eqn:E2; zbool; [|by rewrite H, Htr2]. destruct H as (-> & ? & ->). rewrite Hr1.
    rewrite <- app_assoc, drop_drop. replace (Z.to_nat (length - (zlen out + Z.of_nat n))) with (Z.to_nat (length - zlen out) - n)%nat by lia.
    split_and!; [|done|f_equal; lia]. do 2 f_equal. rewrite take_take_drop. f_equal. lia.
Qed.

Lemma takeExact_spec length r :
  reader_ok r → 0 < length →
  ∃ o r', takeExact length r = Some (o, r') ∧ still_open r r' ∧
  match flat_take (rest_bytes r) (source_end r) length with
  | Ok (Some (out, bs)) => o = Ok (Some out) ∧ reader_ok r' ∧ rest_bytes r' = bs
  | Ok None => o = Ok None
  | Throw e => o = Throw e
  end.
Proof.
  intros Hok Hlen. unfold takeExact. replace (length =? 0) with false by (symmetry; apply Z.eqb_neq; lia).
  assert (∃ o1 r1, refill r = Some (o1, r1) ∧ still_open r r1 ∧
    match rest_bytes r, source_end r with
    | [], Ok _ => o1 = Ok false
    | [], Throw e => o1 = Throw e
    | bs, _ => o1 = Ok true ∧ reader_ok r1 ∧ rest_bytes r1 = bs
    end) as (o1 & r1 & Hm & Hopen & H).
  { unfold refill. destruct (offset r =? zlen (chunk r)) eqn:E; zbool.
    - destruct (advance_spec r Hok E) as (o1 & r1 & ? & ? & H). exists o1, r1. split_and!; [done|done|].
      destruct (rest_bytes r); [done|]. destruct H as (? & ? & ? & _). done.
    - exists (Ok true), r. split_and!; [done|by apply reader_still|]. pose proof (rest_bytes_in_chunk r Hok). pose proof (reader_offset r Hok).
      destruct (rest_bytes r); [change (zlen []) with 0 in *; lia|]. by destruct (source_end r). }
  unfold flat_take. destruct (rest_bytes r) as [|b bs] eqn:Er.
  { change (zlen [] =? 0) with true. cbv iota. destruct (source_end r) as [[]|e]; subst o1.
    - exists (Ok None), r1. split_and!; [|done|done]. by rewrite (p_bind_ok _ _ _ _ _ Hm).
    - exists (Throw e), r1. split_and!; [|done|done]. by rewrite (p_bind_throw _ _ _ _ _ Hm). }
  rewrite <- Er in *. assert (zlen (rest_bytes r) ≠ 0) as Hne by (rewrite Er, zlen_cons; pose proof (zlen_nonneg bs); lia).
  rewrite (proj2 (Z.eqb_neq _ _) Hne). assert (o1 = Ok true ∧ reader_ok r1 ∧ rest_bytes r1 = rest_bytes r) as (-> & Hok1 & Hr1).
  { rewrite Er in *. by destruct (source_end r). }
  clear H. proceed_by Hm. cbn [negb]. destruct (length <=? zlen (chunk r1) - offset r1) eqn:El.
  - assert (take_bytes length r1 = Some (Ok (slice (chunk r1) (offset r1) (offset r1 + length)), set_offset (offset r1 + length) r1)) as Ht
      by (unfold take_bytes; by rewrite El).
    proceed_by Ht. zbool. destruct (consume_ok r1 length Hok1) as (Hok2 & Hslice & Hr2); [lia|]. eexists _, _. split; [done|].
    split; [by destruct Hopen; split|]. pose proof (rest_bytes_in_chunk r1 Hok1). rewrite (proj2 (Z.leb_le _ _)) by (rewrite <- Hr1; lia).
    by rewrite Hslice, <- Hr1.
  - destruct (take_loop_spec (take_fuel r1) length [] r1 Hok1) as (o2 & r2 & Hl & Hopen2 & H2); [change (zlen []) with 0; lia|unfold take_fuel; lia|].
    change (zlen []) with 0 in *. rewrite Z.sub_0_r, Z.add_0_l in H2. rewrite <- Hr1.
    assert (take_bytes length r1 = Some (o2, r2)) as Ht by (unfold take_bytes; by rewrite El).
    assert (truncated r1 = truncated r) as Htr by (unfold truncated; by rewrite (open_end _ _ Hopen)).
    destruct (length <=? zlen (rest_bytes r1)).
    + destruct H2 as (-> & ? & ?). proceed_by Ht. eexists _, r2. split; [done|]. split_and!; [by etrans|done|done|done].
    + subst o2. rewrite (p_bind_throw _ _ _ _ _ Ht), Htr. eexists _, r2. split; [done|]. split; [by etrans|]. unfold truncated. by destruct (source_end r).
Qed.

(** * Reading a frame *)

(** The source is finalized. *)
Definition closed (r r' : ByteReader) : Prop := released r' = Some (returned r) ∧ chunk r' = [] ∧ done_ r' = true.

Lemma release_open r r' : still_open r r' → ∃ r'', release r' = Some (returned r, r'') ∧ closed r r''.
Proof. intros [_ Hr Hret _]. unfold release. rewrite Hr, Hret. eexists. split; [done|]. by split. Qed.

Lemma readHeader_spec r :
  reader_ok r →
  ∃ o r', readHeader r = Some (o, r') ∧ still_open r r' ∧
  match flat_take (rest_bytes r) (source_end r) 4 with
  | Ok (Some (out, bs)) => o = Ok (Some out) ∧ reader_ok r' ∧ rest_bytes r' = bs
  | Ok None => o = Ok None
  | Throw e => o = Throw (if is_corrupt e then CorruptError (js "truncated pkt-line length") else e)
  end.
Proof.
  intros Hok. destruct (takeExact_spec 4 r Hok) as (o & r' & Ht & Hopen & H); [done|]. unfold readHeader.
  destruct (flat_take _ _ 4) as [[[out bs]|]|e].
  - destruct H as (-> & ? & ?). exists (Ok (Some out)), r'. by rewrite (p_catch_ok _ _ _ _ _ Ht).
  - subst o. exists (Ok None), r'. by rewrite (p_catch_ok _ _ _ _ _ Ht).
  - subst o. eexists _, r'. rewrite (p_catch_throw _ _ _ _ _ Ht). split_and!; [done|done|done].
Qed.

Lemma readPayload_spec length r :
  reader_ok r → 4 <= length →
  ∃ o r', readPayload length r = Some (o, r') ∧ still_open r r' ∧
  match (if length =? 4 then Ok (Some ([], rest_bytes r)) else flat_take (rest_bytes r) (source_end r) (length - 4)) with
  | Ok (Some (out, bs)) => o = Ok (mkPkt line out) ∧ reader_ok r' ∧ rest_bytes r' = bs
  | Ok None => o = Throw (CorruptError (js "truncated pkt-line"))
  | Throw e => o = Throw e
  end.
Proof.
  intros Hok Hlen. unfold readPayload. destruct (Z.eqb_spec length 4) as [->|Hne].
  { assert (takeExact (4 - 4) r = Some (Ok (Some []), r)) as Ht by done. eexists _, r. proceed_by Ht.
    split_and!; [done|by apply reader_still|done|done|done]. }
  destruct (takeExact_spec (length - 4) r Hok) as (o & r' & Ht & Hopen & H); [lia|].
  destruct (flat_take _ _ _) as [[[out bs]|]|e].
  - destruct H as (-> & ? & ?). eexists _, r'. proceed_by Ht. split_and!; [done|done|done|done|done].
  - subst o. eexists _, r'. proceed_by Ht. split_and!; [done|done|done].
  - subst o. eexists _, r'. rewrite (p_bind_throw _ _ _ _ _ Ht). split_and!; [done|done|done].
Qed.

Lemma readFrame_spec r :
  reader_ok r →
  ∃ o r', readFrame r = Some (o, r') ∧
  match frame_of (rest_bytes r) (source_end r) with
  | Ok (Some (p, bs)) => o = Ok (Some p) ∧ still_open r r' ∧ reader_ok r' ∧ rest_bytes r' = bs
  | Ok None => o = (_ ← returned r; Ok None) ∧ closed r r'
  | Throw e => o = Throw e ∧ still_open r r'
  end.
Proof.
  intros Hok. unfold readFrame. assert (throwIfAborted r = Some (Ok tt, r)) as Ha by (unfold throwIfAborted; by rewrite (reader_looks r Hok)).
  proceed_by Ha. destruct (readHeader_spec r Hok) as (o & r1 & Hh & Hopen & H). unfold frame_of.
  destruct (flat_take _ _ 4) as [[[header bs]|]|e].
  2:{ subst o. proceed_by Hh. destruct (release_open r r1 Hopen) as (r2 & Hr & Hc). destruct (returned r) as [[]|e].
      - eexists _, r2. by rewrite (p_bind_ok _ _ _ _ _ Hr).
      - eexists _, r2. by rewrite (p_bind_throw _ _ _ _ _ Hr). }
  2:{ subst o. eexists _, r1. by rewrite (p_bind_throw _ _ _ _ _ Hh). }
  destruct H as (-> & Hok1 & Hr1). proceed_by Hh. rewrite p_bind_lift. destruct (parseLength header) as [length|e]; [|by eexists _, r1].
  cbn [mbind outcome_bind]. destruct (length =? 0); [by eexists _, r1|]. destruct (length =? 1); [by eexists _, r1|].
  destruct (length <? 4) eqn:E4; [by eexists _, r1|]. destruct (MAX_PKT_FRAME_BYTES <? length); [by eexists _, r1|]. zbool.
  destruct (readPayload_spec length r1 Hok1) as (o2 & r2 & Hp & Hopen2 & H2); [lia|]. rewrite (open_end _ _ Hopen), Hr1 in H2.
  assert (still_open r r2) as Hopen' by by etrans. destruct (length =? 4).
  { destruct H2 as (-> & ? & ?). eexists _, r2. rewrite (p_bind_ok _ _ _ _ _ Hp). by split_and!. }
  destruct (flat_take bs _ _) as [[[out bs']|]|e]; cbn [mbind outcome_bind].
  - destruct H2 as (-> & ? & ?). eexists _, r2. rewrite (p_bind_ok _ _ _ _ _ Hp). by split_and!.
  - subst o2. eexists _, r2. rewrite (p_bind_throw _ _ _ _ _ Hp). by split_and!.
  - subst o2. eexists _, r2. rewrite (p_bind_throw _ _ _ _ _ Hp). by split_and!.
Qed.

Lemma release_closed r r' : closed r r' → release r' = Some (returned r, r').
Proof. intros (Hr & _). unfold release. by rewrite Hr. Qed.

Lemma readPkt_spec r :
  reader_ok r →
  ∃ o r', readPkt r = Some (o, r') ∧
  match frame_of (rest_bytes r) (source_end r) with
  | Ok (Some (p, bs)) => o = Ok (Some p) ∧ still_open r r' ∧ reader_ok r' ∧ rest_bytes r' = bs
  | Ok None => o = (_ ← returned r; Ok None) ∧ closed r r'
  | Throw e => o = Throw e ∧ closed r r'
  end.
Proof.
  intros Hok. unfold readPkt. destruct (readFrame_spec r Hok) as (o & r1 & Hf & H). destruct (frame_of _ _) as [[[p bs]|]|e].
  - destruct H as (-> & ?). exists (Ok (Some p)), r1. by rewrite (p_catch_ok _ _ _ _ _ Hf).
  - destruct H as (-> & Hc). pose proof (release_closed r r1 Hc) as Hr. destruct (returned r) as [[]|e].
    + eexists _, r1. rewrite (p_catch_ok _ _ _ _ _ Hf). done.
    + exists (Throw e), r1. rewrite (p_catch_throw _ _ _ _ _ Hf), (p_bind_ok _ _ _ _ _ (p_catch_throw _ _ _ _ _ Hr)). done.
  - destruct H as (-> & Hopen). destruct (release_open r r1 Hopen) as (r2 & Hr & Hc). exists (Throw e), r2.
    rewrite (p_catch_throw _ _ _ _ _ Hf). assert (p_catch release (λ _, mret tt) r1 = Some (Ok tt, r2)) as Hr'.
    { unfold p_catch. rewrite Hr. by destruct (returned r) as [[]|]. }
    by rewrite (p_bind_ok _ _ _ _ _ Hr').
Qed.

(** * Writing *)

Lemma pkt_fill_spec chunks : ∀ pre offset n,
  offset = zlen pre → n = length (mjoin chunks : bytes) → pkt_fill (pre ++ replicate n 0) offset chunks = Ok (pre ++ mjoin chunks).
Proof.
  induction chunks as [|c chunks IH]; intros pre offset n -> ->; [done|]. rewrite mjoin_cons, length_app, replicate_add. cbn [pkt_fill].
  assert (typed_set (pre ++ replicate (length c) 0 ++ replicate (length (mjoin chunks : bytes)) 0) c (zlen pre)
          = Ok ((pre ++ c) ++ replicate (length (mjoin chunks : bytes)) 0)) as ->.
  { unfold typed_set. rewrite (proj2 (Z.ltb_ge _ _)) by (unfold zlen; rewrite !length_app, !length_replicate; lia). f_equal.
    unfold zlen. rewrite !Nat2Z.id, take_app_length, <- app_assoc. f_equal. f_equal.
    rewrite drop_app_ge, drop_app_ge by (rewrite ?length_replicate; lia). rewrite length_replicate.
    replace (Z.to_nat (Z.of_nat (length pre) + Z.of_nat (length c)) - length pre - length c)%nat with 0%nat by lia. done. }
  cbn [mbind outcome_bind]. rewrite (IH (pre ++ c)); [by rewrite <- app_assoc|by rewrite zlen_app|done].
Qed.

Lemma foldl_total chunks : ∀ n, foldl (λ total (chunk : bytes), total + zlen chunk) n chunks = n + zlen (mjoin chunks : bytes).
Proof.
  induction chunks as [|c chunks IH]; intros n; cbn [foldl]; [by rewrite Z.add_0_r|]. rewrite IH, mjoin_cons, zlen_app. lia.
Qed.

Lemma pkt_concat_spec chunks : pkt_concat chunks = Ok (mjoin chunks).
Proof.
  unfold pkt_concat. rewrite foldl_total. apply (pkt_fill_spec chunks []); [done|]. unfold zlen. lia.
Qed.

(** The digits of a length. *)
Definition length_bytes (n : Z) : bytes := encode (padStart 4 (hex_string 14 n)).

Lemma length_bytes_digits n :
  0 <= n < 65536 → length_bytes n = hex_digit <$> [n / 16 / 16 / 16; n / 16 / 16 mod 16; n / 16 mod 16; n mod 16].
Proof.
  intros Hn. assert (∀ d, 0 <= d < 16 → 0 <= hex_digit d < 128) as Hd by (intros d ?; unfold hex_digit; destruct (d <? 10) eqn:E; zbool; lia).
  assert (padStart 4 (hex_string 14 n) = hex_digit <$> [n / 16 / 16 / 16; n / 16 / 16 mod 16; n / 16 mod 16; n mod 16]) as E.
  { cbn [hex_string]. destruct (n <? 16) eqn:E1; zbool.
    { rewrite (Z.div_small n 16), (Z.mod_small n 16) by lia. done. }
    destruct (n / 16 <? 16) eqn:E2; zbool.
    { rewrite (Z.div_small (n / 16) 16), (Z.mod_small (n / 16) 16) by zdm. done. }
    destruct (n / 16 / 16 <? 16) eqn:E3; zbool.
    { rewrite (Z.div_small (n / 16 / 16) 16), (Z.mod_small (n / 16 / 16) 16) by zdm. done. }
    rewrite (proj2 (Z.ltb_lt (n / 16 / 16 / 16) 16)) by zdm. done. }
  unfold length_bytes. rewrite E. apply encode_ascii. unfold ascii. rewrite Forall_fmap. repeat constructor; apply Hd; zdm.
Qed.

Lemma hex_digit_value d : 0 <= d < 16 → length_digit (hex_digit d) = Some d.
Proof.
  intros Hd. unfold hex_digit, length_digit. destruct (d <? 10) eqn:E; zbool.
  - rewrite (proj2 (Z.leb_le _ _)), (proj2 (Z.leb_le _ _)) by lia. cbn [andb]. f_equal. lia.
  - rewrite (proj2 (Z.leb_le 0x30 _)), (proj2 (Z.leb_gt _ 0x39)) by lia. cbn [andb].
    rewrite (proj2 (Z.leb_le _ _)), (proj2 (Z.leb_le _ _)) by lia. cbn [andb]. f_equal. lia.
Qed.

Lemma lor_digit v d : 0 <= v → 0 <= d < 16 → Z.lor (Z.shiftl v 4) d = v * 16 + d.
Proof.
  intros Hv Hd. assert (Z.land (Z.shiftl v 4) d = 0) as Hl.
  { apply Z.bits_inj'. intros k Hk. rewrite Z.land_spec, Z.bits_0, Z.shiftl_spec by done.
    destruct (Z.lt_ge_cases k 4); [by rewrite Z.testbit_neg_r by lia|].
    rewrite (Z.bits_above_log2 d k), andb_false_r; [done|lia|]. apply Z.lt_le_trans with 4; [|done].
    destruct (Z.eq_dec d 0) as [->|]; [done|]. apply Z.log2_lt_pow2; lia. }
  pose proof (Z.add_lor_land (Z.shiftl v 4) d) as H. rewrite Hl in H. rewrite Z.shiftl_mul_pow2 in * by done. lia.
Qed.

Lemma length_loop_digits a b c d :
  0 <= a < 16 → 0 <= b < 16 → 0 <= c < 16 → 0 <= d < 16 →
  parseLength (hex_digit <$> [a; b; c; d]) = Ok (((a * 16 + b) * 16 + c) * 16 + d).
Proof.
  intros. unfold parseLength. cbn [length_loop].
  change (at_ (hex_digit <$> [a; b; c; d]) 0) with (Some (hex_digit a)). change (at_ (hex_digit <$> [a; b; c; d]) 1) with (Some (hex_digit b)).
  change (at_ (hex_digit <$> [a; b; c; d]) 2) with (Some (hex_digit c)). change (at_ (hex_digit <$> [a; b; c; d]) 3) with (Some (hex_digit d)).
  cbn [mbind option_bind]. rewrite !hex_digit_value by done. rewrite (lor_digit 0 a), (lor_digit _ b), (lor_digit _ c), (lor_digit _ d) by lia. f_equal; lia.
Qed.

Lemma length_bytes_spec n : 0 <= n < 65536 → zlen (length_bytes n) = 4 ∧ parseLength (length_bytes n) = Ok n.
Proof.
  intros Hn. rewrite length_bytes_digits by done. split; [done|]. rewrite length_loop_digits by zdm. f_equal. zdm.
Qed.

Lemma pkt_spec body : zlen body <= MAX_PKT_PAYLOAD_BYTES → pkt body = Ok (length_bytes (zlen body + 4) ++ body).
Proof.
  intros Hb. unfold pkt. rewrite (proj2 (Z.ltb_ge _ _)) by done. rewrite pkt_concat_spec. by rewrite !mjoin_cons, app_nil_r.
Qed.

(** * Packets on the wire *)

Definition wire_of (p : Pkt) : bytes :=
  match kind p with line => length_bytes (zlen (payload p) + 4) ++ payload p | flush => FLUSH | delim => DELIM end.

Definition fits (p : Pkt) : Prop :=
  match kind p with line => zlen (payload p) <= MAX_PKT_PAYLOAD_BYTES | _ => payload p = [] end.

Lemma flat_take_app n h bs end_ : zlen h = n → h ≠ [] → flat_take (h ++ bs) end_ n = Ok (Some (h, bs)).
Proof.
  intros <- Hh. assert (0 < zlen h) by (pose proof (zlen_nonneg h); rewrite <- zlen_nil_iff in Hh; lia). pose proof (zlen_nonneg bs). unfold flat_take.
  rewrite zlen_app. rewrite (proj2 (Z.eqb_neq _ _)), (proj2 (Z.leb_le _ _)) by lia. unfold zlen. rewrite Nat2Z.id.
  by rewrite take_app_length, drop_app_length.
Qed.

Lemma frame_of_wire p bs end_ : fits p → frame_of (wire_of p ++ bs) end_ = Ok (Some (p, bs)).
Proof.
  destruct p as [[] body]; unfold fits, wire_of; cbn [kind payload].
  - intros Hb. pose proof (zlen_nonneg body). unfold MAX_PKT_PAYLOAD_BYTES, MAX_PKT_FRAME_BYTES in *.
    destruct (length_bytes_spec (zlen body + 4)) as [Hl Hp]; [lia|]. rewrite <- app_assoc. unfold frame_of.
    rewrite flat_take_app by (done || intros E; rewrite E in Hl; done). rewrite Hp. cbn [mbind outcome_bind].
    rewrite (proj2 (Z.eqb_neq _ 0)), (proj2 (Z.eqb_neq _ 1)), (proj2 (Z.ltb_ge _ 4)), (proj2 (Z.ltb_ge _ _)) by (unfold MAX_PKT_FRAME_BYTES; lia).
    destruct (Z.eqb_spec (zlen body + 4) 4) as [E|E].
    + assert (body = []) as -> by (apply zlen_nil_iff; lia). done.
    + replace (zlen body + 4 - 4) with (zlen body) by lia. by rewrite flat_take_app by (done || rewrite <- zlen_nil_iff; lia).
  - intros ->. unfold frame_of. by rewrite (flat_take_app 4 FLUSH bs end_).
  - intros ->. unfold frame_of. by rewrite (flat_take_app 4 DELIM bs end_).
Qed.

(** The reader has these packets to give, then those bytes. *)
Definition holds (r : ByteReader) (ps : list Pkt) (bs : bytes) : Prop :=
  reader_ok r ∧ Forall fits ps ∧ rest_bytes r = mjoin (wire_of <$> ps) ++ bs.

Lemma read_next r p ps bs : holds r (p :: ps) bs → ∃ r', readPkt r = Some (Ok (Some p), r') ∧ holds r' ps bs ∧ still_open r r'.
Proof.
  intros (Hok & Hf & Hr). apply Forall_cons in Hf as [Hp Hf]. destruct (readPkt_spec r Hok) as (o & r' & -> & H).
  rewrite fmap_cons, mjoin_cons, <- app_assoc in Hr. rewrite Hr, frame_of_wire in H by done. destruct H as (-> & ? & ? & ?).
  exists r'. split; [done|]. by split.
Qed.

Lemma read_end r : holds r [] [] → source_end r = Ok tt → returned r = Ok tt → ∃ r', readPkt r = Some (Ok None, r') ∧ closed r r'.
Proof.
  intros (Hok & _ & Hr) He Hret. destruct (readPkt_spec r Hok) as (o & r' & -> & H). rewrite Hr, He in H. cbn in H. rewrite Hret in H.
  destruct H as (-> & ?). by exists r'.
Qed.

Lemma new_reader_ok chunks : reader_ok (new_ByteReader chunks (Ok tt)).
Proof. split; cbn; [split; [lia|apply zlen_nonneg]|done|done|done]. Qed.

Lemma new_reader_rest chunks end_ : rest_bytes (new_ByteReader chunks end_) = mjoin chunks.
Proof. done. Qed.

Lemma new_reader_holds chunks ps : Forall fits ps → mjoin chunks = mjoin (wire_of <$> ps) → holds (new_ByteReader chunks (Ok tt)) ps [].
Proof. intros Hf Hc. split_and!; [apply new_reader_ok|done|by rewrite new_reader_rest, Hc, app_nil_r]. Qed.

(** C17: however the source cuts its bytes into chunks, [readPkt] ends and answers what the
    bytes alone say: the first frame of what is left, the bytes after it being left then; the
    end, once the source is finalized; or the error of a frame that is malformed, too long or
    cut off, or of the source, which finalizes the source too. *)
Theorem readPkt_correct r :
  reader_ok r →
  ∃ o r', readPkt r = Some (o, r') ∧
  match frame_of (rest_bytes r) (source_end r) with
  | Ok (Some (p, bs)) => o = Ok (Some p) ∧ reader_ok r' ∧ rest_bytes r' = bs ∧ source_end r' = source_end r
  | Ok None => o = (_ ← returned r; Ok None) ∧ closed r r'
  | Throw e => o = Throw e ∧ closed r r'
  end.
Proof.
  intros Hok. destruct (readPkt_spec r Hok) as (o & r' & Hr & H). exists o, r'. split; [done|].
  destruct (frame_of _ _) as [[[p bs]|]|e]; [|done|done]. destruct H as (-> & Hopen & ? & ?). by rewrite (open_end _ _ Hopen).
Qed.

Lemma readPkt_correct_witness :
  let r := new_ByteReader [[0x30]; [0x30; 0x30]; []; [0x36; 0x68; 0x69; 0x30]; [0x30]; [0x30; 0x30]] (Ok tt) in
  ∃ r', readPkt r = Some (Ok (Some (mkPkt line (js "hi"))), r') ∧ rest_bytes r' = js "0000".
Proof.
  intros r. destruct (readPkt_correct r) as (o & r' & Hr & H); [apply new_reader_ok|].
  assert (frame_of (rest_bytes r) (source_end r) = Ok (Some (mkPkt line (js "hi"), js "0000"))) as E by (vm_compute; reflexivity).
  rewrite E in H. destruct H as (-> & _ & ? & _). by exists r'.
Defined.

(** A run of reads up to the end of the stream. *)
Fixpoint read_all (fuel : nat) : reading (list Pkt) :=
  match fuel with
  | O => λ _, None
  | S fuel =>
      p ← readPkt;
      match p with
      | None => mret []
      | Some p => ps ← read_all fuel; mret (p :: ps)
      end
  end.

Lemma read_all_holds ps : ∀ r,
  holds r ps [] → source_end r = Ok tt → returned r = Ok tt → ∃ r', read_all (S (length ps)) r = Some (Ok ps, r') ∧ done_ r' = true.
Proof.
  induction ps as [|p ps IH]; intros r Hh He Hr.
  - destruct (read_end r Hh He Hr) as (r' & Hp & _ & _ & Hd). exists r'. cbn [read_all]. by proceed_by Hp.
  - destruct (read_next r p ps [] Hh) as (r1 & Hp & Hh1 & Hopen). destruct (IH r1 Hh1) as (r' & Hps & Hd);
      [by rewrite (open_end _ _ Hopen)|by rewrite (open_returned _ _ Hopen)|].
    exists r'. change (length (p :: ps)) with (S (length ps)). remember (S (length ps)) as n. cbn [read_all]. proceed_by Hp. by proceed_by Hps.
Qed.

Lemma pkts_spec payloads :
  Forall (λ p, zlen p <= MAX_PKT_PAYLOAD_BYTES) payloads → pkts payloads = Ok (wire_of ∘ mkPkt line <$> payloads).
Proof.
  induction 1 as [|p payloads Hp _ IH]; cbn [pkts]; [done|]. rewrite pkt_spec by done. cbn [mbind outcome_bind]. by rewrite IH.
Qed.

(** Lines written one after another and cut into chunks anywhere are read back as they
    were; a payload over the limit is refused when it is written. *)
Theorem pktLines_roundtrip payloads :
  (Exists (λ p, MAX_PKT_PAYLOAD_BYTES < zlen p) payloads ∧ ∃ e, pktLines payloads = Throw e) ∨
  ∃ wire, pktLines payloads = Ok wire ∧
    ∀ chunks, mjoin chunks = wire → ∃ r', read_all (S (length payloads)) (new_ByteReader chunks (Ok tt)) = Some (Ok (mkPkt line <$> payloads), r').
Proof.
  destruct (decide (Forall (λ p : bytes, zlen p <= MAX_PKT_PAYLOAD_BYTES) payloads)) as [Hp|Hp]; [right|left].
  - unfold pktLines. rewrite pkts_spec by done. cbn [mbind outcome_bind]. rewrite pkt_concat_spec. eexists. split; [done|]. intros chunks Hc.
    destruct (read_all_holds (mkPkt line <$> payloads) (new_ByteReader chunks (Ok tt))) as (r' & Hr & _); [|done|done|].
    + apply new_reader_holds; [rewrite Forall_fmap; by apply (Forall_impl _ _ _ Hp)|]. by rewrite Hc, list_fmap_compose.
    + exists r'. by rewrite length_fmap in Hr.
  - apply not_Forall_Exists in Hp; [|apply _]. split; [apply (Exists_impl _ _ _ Hp); cbn; lia|]. unfold pktLines.
    assert (∃ e, pkts payloads = Throw e) as [e ->]; [|by exists e]. induction Hp as [p payloads Hp|p payloads _ (e & IH)]; cbn [pkts].
    + assert (pkt p = Throw (PlainError (js "pkt-line payload too long"))) as -> by (unfold pkt; cbn in Hp; by rewrite (proj2 (Z.ltb_lt _ _)) by lia).
      by eexists.
    + destruct (pkt p) as [frame|e']; [|by eexists]. cbn [mbind outcome_bind]. rewrite IH. by exists e.
Qed.
