(* ===== verification/Protocol.v ===== *)
(** What the two ends of the wire protocol share: src/packages/git/src/protocol/remote-base.ts
    (budgets, texts of packets) and server/validation.ts (what the server accepts). *)

From S2P Require Import Prelude Utf8 Text Bytes Objects RefName JsMap Process PktLine.

Inductive Service := git_upload_pack | git_receive_pack.
Definition service_name (s : Service) : ustring :=
  match s with git_upload_pack => js "git-upload-pack" | git_receive_pack => js "git-receive-pack" end.

#[export] Instance Service_eq_dec : EqDecision Service.
Proof. solve_decision. Defined.

(** A set of strings in the order they were added. *)
Notation jsset := (list (list Z)) (only parsing).
Definition set_add (s : jsset) (x : ustring) : jsset := if bool_decide (x ∈ s) then s else s ++ [x].

Definition corrupt_text (message : string) : jserror := CorruptError (js message).

Definition SPACE : Z := 0x20.

(** * remote-base.ts *)

Definition AGENT : ustring := js "kompjutr/0.0.0".
Definition MAX_PROTOCOL_NEGOTIATION_ENTRIES : Z := 16384.

(** [NegotiationBudget]: the entries counted so far. *)
Definition countEntry (entryLimit entries : Z) : outcome Z :=
  if entryLimit <=? entries then Throw (GitErr "E2BIG" "protocol entry count exceeds its bounded limit")
  else Ok (entries + 1).

(** A limit that is not given, or a number, [None] being one that is no integer. *)
Definition resolvedProtocolEntryLimit (value : option (option Z)) : outcome Z :=
  match value with
  | None => Ok MAX_PROTOCOL_NEGOTIATION_ENTRIES
  | Some (Some n) =>
      if negb (isSafeInteger n) || (n <? 1) then Throw (RangeError (js "entries must be a positive safe integer"))
      else Ok (Z.min n MAX_PROTOCOL_NEGOTIATION_ENTRIES)
  | Some None => Throw (RangeError (js "entries must be a positive safe integer"))
  end.

Definition ERROR_PREFIX_BYTES : Z := 800.
Definition ERROR_PREFIX_CHARACTERS : Z := 200.

(** The first bytes of the chunks, up to a number of them. *)
Definition keep_prefix (limit : Z) (prefix chunk : bytes) : bytes :=
  if limit <=? zlen prefix then prefix else prefix ++ slice chunk 0 (Z.min (zlen chunk) (limit - zlen prefix)).

(** [readErrorPrefix(body, signal)] of a body that is what [y] yields; an aborted signal makes
    its error the function's. *)
Definition readErrorPrefix (y : yields bytes) (aborted : bool) : outcome ustring :=
  let prefix := foldl (keep_prefix ERROR_PREFIX_BYTES) [] (items y) in
  match ending y with
  | Throw e => if aborted then Throw e else Ok (slice (decode_lossy prefix) 0 ERROR_PREFIX_CHARACTERS)
  | Ok _ => Ok (slice (decode_lossy prefix) 0 ERROR_PREFIX_CHARACTERS)
  end.

Fixpoint drop_units (u : Z) (s : ustring) : ustring :=
  match s with
  | [] => []
  | x :: rest => if x =? u then drop_units u rest else s
  end.

(** [url.replace(/\/+$/, "")]. *)
Definition strip_trailing (u : Z) (s : ustring) : ustring := reverse (drop_units u (reverse s)).

Definition normalizeRemoteUrl (url : ustring) : outcome ustring :=
  if negb (startsWith url (js "http://") || startsWith url (js "https://"))
  then Throw (GitError (js "EURLSCHEME") (js "unsupported URL scheme: " ++ url))
  else Ok (strip_trailing 0x2f url).

Definition releaseReader : reading unit := p_catch release (λ _, mret tt).

Definition ownedPktText (packet : Pkt) : ustring := pktText packet.

(** * server/validation.ts *)

(** [new TextDecoder("utf-8", { fatal: true, ignoreBOM: true }).decode(bytes)]. *)
Definition decode_server (bs : bytes) : option ustring :=
  match all_some (decode_points decoder_init bs) with
  | Some ps => Some (flat_map point_units ps)
  | None => None
  end.

Definition serverPacketText (packet : Pkt) : outcome ustring :=
  match kind packet with
  | line =>
      match decode_server (payload packet) with
      | None => Throw (corrupt_text "server request contains malformed UTF-8")
      | Some text =>
          let text := strip_newline text in
          if bool_decide (0x0a ∈ text) || bool_decide (0x0d ∈ text)
          then Throw (corrupt_text "server request contains multiple command lines")
          else Ok text
      end
  | _ => Throw (corrupt_text "unexpected server request control packet")
  end.

Definition requireServerRef (ref : ustring) : outcome unit :=
  let checked := checkRefText ref (Some MAX_REF_NAME_BYTES) in
  if bool_decide (problem checked = Some too_long) then Throw (GitErr "E2BIG" "server ref exceeds stored ref-name capacity")
  else if negb (bool_decide (problem checked = None)) ||
          negb (startsWith ref (js "refs/heads/") || startsWith ref (js "refs/tags/")) ||
          negb (hasCanonicalRefSyntax ref 0 (zlen ref))
  then Throw (GitErr "EINVALIDREF" "server accepts only canonical heads and tags")
  else Ok tt.

Definition requireServerOid (oid : ustring) (allowZero : bool) : outcome unit :=
  if negb (isOid oid) || (negb allowZero && str_eqb oid ZERO_OID)
  then Throw (corrupt_text "server request contains an invalid SHA-1 object id") else Ok tt.

(** One token of [parseCapabilities]. *)
Definition select_capability (supported : list ustring) (selected : jsset) (token : ustring) : outcome jsset :=
  if bool_decide (token = []) || bool_decide (token ∈ selected)
  then Throw (corrupt_text "server request contains duplicate or malformed capabilities")
  else if negb (bool_decide (token ∈ supported)) then Throw (GitError (js "EUNSUPPORTED") (js "unsupported server capability " ++ token))
  else Ok (set_add selected token).

(** Spaces at both ends do not count. *)
Definition parseCapabilities (text : ustring) (supported : list ustring) : outcome jsset :=
  if bool_decide (text = []) then Ok []
  else for_items (select_capability supported) [] (split SPACE (strip_trailing SPACE (drop_units SPACE text))).

(** * Loops over packets

    Each packet takes four bytes at least. *)
Definition reader_fuel (r : ByteReader) : nat := S (S (length (slice_from (chunk r) (offset r)) + length (mjoin (source r) : bytes))).

(** A loop that reads a packet, the end of the stream being an error, and goes another round
    or leaves. *)
Inductive round (S : Type) := again (s : S) | leave (s : S).
Arguments again {S} s.
Arguments leave {S} s.

Fixpoint packet_loop {S} (fuel : nat) (eof : jserror) (step : S → Pkt → outcome (round S)) (s : S) : reading S :=
  match fuel with
  | O => λ _, None
  | Datatypes.S fuel =>
      packet ← readPkt;
      match packet with
      | None => p_raise eof
      | Some packet =>
          next ← p_lift (step s packet);
          match next with
          | again s => packet_loop fuel eof step s
          | leave s => mret s
          end
      end
  end.

(** Up to a flush. *)
Definition until_flush {S} (step : S → Pkt → outcome S) (s : S) (packet : Pkt) : outcome (round S) :=
  if bool_decide (kind packet = flush) then Ok (leave s) else s ← step s packet; Ok (again s).

(** [drain(body, signal)]. *)
Definition drain (y : yields bytes) (aborted : bool) : outcome unit :=
  match ending y with
  | Throw e => if aborted then Throw e else Ok tt
  | Ok _ => Ok tt
  end.

(** A step of pure code with fuel of its own. *)
Definition p_pure {W A} (o : option (outcome A)) : process W A := λ w,
  match o with Some o => Some (o, w) | None => None end.
