(* ===== verification/ProtocolFacts.v ===== *)
(** Texts on the wire: object names, reference names and lines written by one end are read
    back by the other. *)

From S2P Require Import Prelude Utf8 Text Bytes Objects Streams RefName JsMap Process PktLine PktLineFacts Protocol.

(** * Text *)

Lemma decode_server_encode t : text_ok t → decode_server (encode t) = Some t.
Proof.
  intros [Hu Hw]. unfold decode_server, encode. rewrite decode_encoded_points by by apply points_scalar.
  by rewrite all_some_fmap, point_units_points.
Qed.

Lemma decode_fatal_line t : text_ok t → head t ≠ Some 0xfeff → decode_fatal (encode t) = Some t.
Proof. intros [? ?] ?. by apply decode_fatal_encode. Qed.

Lemma strip_newline_line t : strip_newline (t ++ [0x0a]) = t.
Proof. unfold strip_newline. rewrite last_snoc, bool_decide_eq_true_2 by done. apply removelast_last. Qed.

Lemma strip_newline_none t : 0x0a ∉ t → strip_newline t = t.
Proof.
  intros Hn. unfold strip_newline. rewrite bool_decide_eq_false_2; [done|]. intros H. apply Hn. by apply last_Some_elem_of.
Qed.

(** * Object names *)

Lemma isOid_spec oid : isOid oid = true → zlen oid = 40 ∧ Forall (λ u, is_lower_hex u = true) oid.
Proof.
  unfold isOid. intros [Hl Hd]%andb_prop. zbool. split; [done|]. rewrite forallb_forall in Hd. apply Forall_forall.
  intros u Hu. by apply Hd, list_elem_of_In.
Qed.

Lemma lower_hex_range u : is_lower_hex u = true → 0x30 <= u <= 0x39 ∨ 0x61 <= u <= 0x66.
Proof. unfold is_lower_hex. intros H. apply orb_prop in H as [H|H]; apply andb_prop in H as [? ?]; zbool; lia. Qed.

Lemma oid_ascii oid : isOid oid = true → ascii oid.
Proof. intros [_ H]%isOid_spec. apply (Forall_impl _ _ _ H). intros u Hu%lower_hex_range. lia. Qed.

Lemma oid_no u oid : isOid oid = true → u < 0x30 → u ∉ oid.
Proof. intros [_ H]%isOid_spec Hu Hin. rewrite Forall_forall in H. apply H, lower_hex_range in Hin. lia. Qed.

Lemma oid_head oid u rest : isOid oid = true → head (oid ++ rest) = Some u → 0x30 <= u <= 0x39 ∨ 0x61 <= u <= 0x66.
Proof.
  intros [Hl H]%isOid_spec. destruct oid as [|x oid]; [done|]. cbn. intros [= <-]. apply Forall_cons in H as [H _]. by apply lower_hex_range.
Qed.

Lemma oid_not_start oid rest prefix u : isOid oid = true → head prefix = Some u → 0x39 < u < 0x61 ∨ 0x66 < u → startsWith (oid ++ rest) prefix = false.
Proof.
  intros Ho Hp Hu. destruct (startsWith (oid ++ rest) prefix) eqn:E; [|done]. apply startsWith_spec in E as [k E].
  assert (head (oid ++ rest) = Some u) as H by (rewrite E; by destruct prefix). apply oid_head in H; [lia|done].
Qed.

(** * Reference names *)

Record server_name (name : ustring) : Prop := {
  name_ok : ref_name name;
  name_text : text_ok name;
  name_units : Forall text_unit name;
  name_length : zlen (encode name) <= MAX_REF_NAME_BYTES;
  name_branch : startsWith name (js "refs/heads/") = true ∨ startsWith name (js "refs/tags/") = true
}.

Lemma requireServerRef_ok name : units name → requireServerRef name = Ok tt → server_name name.
Proof.
  intros Hu. unfold requireServerRef. set (checked := checkRefText name (Some MAX_REF_NAME_BYTES)).
  destruct (checkRefText_spec name (Some MAX_REF_NAME_BYTES) Hu eq_refl) as (H1 & _ & _). fold checked in H1.
  case_bool_decide; [done|]. case_bool_decide as Hp; cbn [negb orb]; [|done]. destruct (negb _ || _) eqn:E; [done|].
  apply orb_false_iff in E as [Eb Ec]. apply negb_false_iff in Eb, Ec. intros _. destruct (proj1 H1 Hp) as (Ht & Hw & Hl). cbn in Hl. zbool.
  pose proof (encode_length name Hu). split; [|by split|done|done|by apply orb_prop].
  apply hasCanonicalRefSyntax_correct; [unfold MAX_SAFE_INTEGER, MAX_REF_NAME_BYTES in *; lia|done].
Qed.

Lemma ref_name_no name u : ref_name name → u ∈ FORBIDDEN → u ∉ name.
Proof.
  intros (_ & _ & _ & _ & _ & Ha) Hu [i Hi]%list_elem_of_lookup. destruct (Ha i u Hi) as (_ & _ & H). specialize (H Hu). lia.
Qed.

Lemma name_no_space name : server_name name → SPACE ∉ name.
Proof. intros Hn. apply (ref_name_no name); [apply Hn|]. exact (bool_decide_eq_true_1 (SPACE ∈ FORBIDDEN) eq_refl). Qed.

Lemma name_no_hat name : server_name name → 0x5e ∉ name.
Proof. intros Hn. apply (ref_name_no name); [apply Hn|]. exact (bool_decide_eq_true_1 (0x5e ∈ FORBIDDEN) eq_refl). Qed.

Lemma name_no_break name u : server_name name → u = 0 ∨ u = 0x0a ∨ u = 0x0d → u ∉ name.
Proof. intros Hn Hu Hin. pose proof (name_units name Hn) as H. rewrite Forall_forall in H. apply H in Hin as (? & ? & ?). lia. Qed.

Lemma startsWith_trans s p q : startsWith s p = true → startsWith p q = true → startsWith s q = true.
Proof. rewrite !startsWith_spec. intros (k & ->) (m & ->). exists (m ++ k). by rewrite app_assoc. Qed.

Lemma name_refs name : server_name name → startsWith name (js "refs/") = true.
Proof. intros Hn. by destruct (name_branch name Hn) as [H|H]; apply (startsWith_trans _ _ _ H). Qed.

Lemma name_check name : server_name name → problem (checkRefText name None) = None.
Proof.
  intros Hn. destruct (name_text name Hn) as [Hu Hw]. destruct (checkRefText_spec name None Hu eq_refl) as (H & _ & _). apply H.
  split_and!; [apply Hn|done|done].
Qed.

Lemma name_canonical name : server_name name → hasCanonicalRefSyntax name 0 (zlen name) = true.
Proof.
  intros Hn. apply hasCanonicalRefSyntax_correct; [|apply Hn]. pose proof (encode_length name (proj1 (name_text name Hn))).
  pose proof (name_length name Hn). unfold MAX_SAFE_INTEGER, MAX_REF_NAME_BYTES in *. lia.
Qed.

Lemma requireServerOid_ok oid allowZero : requireServerOid oid allowZero = Ok tt ↔ isOid oid = true ∧ (allowZero = true ∨ oid ≠ ZERO_OID).
Proof.
  unfold requireServerOid, str_eqb. destruct (isOid oid); cbn [negb orb]; [|split; [done|by intros [? _]]].
  destruct allowZero; cbn [negb andb]; [split; [auto|done]|]. case_bool_decide; split; try done; [intros (_ & [?|?]); done|auto].
Qed.

(** * Lines *)

(** Writing a text as one packet. *)
Definition text_packet (t : ustring) : Pkt := mkPkt line (encode t).

Lemma pkt_text_ok t frame : pkt_text t = Ok frame → fits (text_packet t) ∧ frame = wire_of (text_packet t).
Proof.
  unfold pkt_text. destruct (decide (zlen (encode t) <= MAX_PKT_PAYLOAD_BYTES)) as [Hl|Hl].
  - rewrite pkt_spec by done. by intros [= <-].
  - unfold pkt. by rewrite (proj2 (Z.ltb_lt _ _)) by lia.
Qed.

Lemma pkt_text_fits t : fits (text_packet t) → pkt_text t = Ok (wire_of (text_packet t)).
Proof. unfold fits, text_packet, pkt_text. cbn [kind payload]. intros Hl. by rewrite pkt_spec. Qed.

(** The fuel of a loop over packets is more than there are packets. *)
Lemma wire_of_length p : (4 <= length (wire_of p))%nat.
Proof.
  destruct p as [[] body]; unfold wire_of; cbn [kind payload]; [|by vm_compute; lia..]. rewrite length_app. unfold length_bytes.
  assert (4 <= length (padStart 4 (hex_string 14 (zlen body + 4))))%nat; [unfold padStart; rewrite length_app, length_replicate; lia|].
  assert (ascii (padStart 4 (hex_string 14 (zlen body + 4)))) as Ha; [|rewrite encode_ascii by done; lia].
  unfold padStart. apply Forall_app. split; [apply Forall_replicate; lia|]. pose proof (zlen_nonneg body).
  assert (∀ digits n, 0 <= n → ascii (hex_string digits n)) as Hhex; [|apply Hhex; lia]. clear.
  induction digits as [|digits IH]; intros n Hn; cbn [hex_string]; [constructor|].
  assert (∀ d, 0 <= d < 16 → 0 <= hex_digit d < 128) as Hd by (intros d ?; unfold hex_digit; destruct (d <? 10) eqn:E; zbool; lia).
  destruct (n <? 16) eqn:E; zbool; [by repeat constructor; apply Hd|]. apply Forall_app. split; [apply IH; zdm|].
  repeat constructor; apply Hd; zdm.
Qed.

Lemma wire_length ps : (length ps <= length (mjoin (wire_of <$> ps)))%nat.
Proof. induction ps as [|p ps IH]; [done|]. rewrite fmap_cons, mjoin_cons, length_app. pose proof (wire_of_length p). cbn. lia. Qed.

Lemma holds_fuel r ps bs : holds r ps bs → (S (length ps) < reader_fuel r)%nat.
Proof.
  intros (_ & _ & Hr). unfold reader_fuel. pose proof (wire_length ps) as Hl. unfold rest_bytes in Hr.
  apply (f_equal length) in Hr. rewrite !length_app in Hr. destruct (done_ r); cbn in Hr; lia.
Qed.

(** Releasing after the work: its outcome stands. *)
Lemma finally_release {A} (m : reading A) r o r' :
  m r = Some (o, r') → ∃ r'', p_finally m releaseReader r = Some (o, r'').
Proof.
  intros Hm. unfold p_finally. rewrite Hm. unfold releaseReader, p_catch, release. destruct (released r') as [[|]|]; [by eexists..|].
  destruct (returned r') as [|]; by eexists.
Qed.

(** * Loops over packets *)

(** The bytes are these packets, then those bytes. *)
Inductive decoded (end_ : outcome unit) : bytes → list Pkt → bytes → Prop :=
| decoded_nil bs : decoded end_ bs [] bs
| decoded_cons bs p bs' ps rest : frame_of bs end_ = Ok (Some (p, bs')) → decoded end_ bs' ps rest → decoded end_ bs (p :: ps) rest.

Lemma flat_take_inv bs end_ n h rest : 0 <= n → flat_take bs end_ n = Ok (Some (h, rest)) → bs = h ++ rest ∧ zlen h = n.
Proof.
  unfold flat_take. intros Hn. destruct (zlen bs =? 0); [by destruct end_|]. destruct (n <=? zlen bs) eqn:E; [|by destruct end_].
  intros [= <- <-]. zbool. unfold zlen in *. rewrite length_take. split; [by rewrite take_drop|lia].
Qed.

Lemma frame_shorter bs end_ p rest : frame_of bs end_ = Ok (Some (p, rest)) → (4 + length rest <= length bs)%nat.
Proof.
  unfold frame_of. destruct (flat_take bs end_ 4) as [[[h bs1]|]|e] eqn:Eh; [|done|done]. apply flat_take_inv in Eh as [-> Hh]; [|lia].
  rewrite length_app. unfold zlen in Hh. destruct (parseLength h) as [n|e]; [|done]. cbn [mbind outcome_bind].
  destruct (n =? 0); [intros [= _ <-]; lia|]. destruct (n =? 1); [intros [= _ <-]; lia|]. destruct (n <? 4) eqn:E4; [done|].
  destruct (_ <? n); [done|]. destruct (n =? 4); [intros [= _ <-]; lia|]. intros ([[pl bs2]|] & Hp & H)%bind_ok_inv; [|done].
  zbool. apply flat_take_inv in Hp as [-> _]; [|lia]. injection H as _ <-. rewrite length_app. lia.
Qed.

Lemma frame_end bs end_ : frame_of bs end_ = Ok None ↔ bs = [] ∧ end_ = Ok tt.
Proof.
  unfold frame_of. split; [|by intros [-> ->]]. destruct (flat_take bs end_ 4) as [[[h rest]|]|e] eqn:Eh.
  - destruct (parseLength h); [|done]. cbn [mbind outcome_bind]. repeat (case_match; try done). intros ([[? ?]|] & ? & ?)%bind_ok_inv; done.
  - intros _. unfold flat_take in Eh. destruct (Z.eqb_spec (zlen bs) 0) as [E|]; [|destruct (4 <=? _); [done|by destruct end_]].
    apply zlen_nil_iff in E. destruct end_ as [[]|]; done.
  - done.
Qed.

(** Reading on at the end. *)
Lemma read_end_iff r :
  reader_ok r → ∃ o r', readPkt r = Some (o, r') ∧ (o = Ok None → rest_bytes r = [] ∧ source_end r = Ok tt) ∧
    (returned r = Ok tt → rest_bytes r = [] → source_end r = Ok tt → o = Ok None).
Proof.
  intros Hok. destruct (readPkt_spec r Hok) as (o & r' & Hp & H). exists o, r'. split; [done|].
  destruct (frame_of (rest_bytes r) (source_end r)) as [[[p bs]|]|e] eqn:Ef.
  - destruct H as (-> & _). split; [done|]. intros _ Hb He. rewrite (proj2 (frame_end _ _)) in Ef by done. done.
  - destruct H as (-> & _). apply frame_end in Ef. split; [done|]. by intros -> _ _.
  - destruct H as (-> & _). split; [done|]. intros _ Hb He. rewrite (proj2 (frame_end _ _)) in Ef by done. done.
Qed.

Lemma decoded_app end_ bs ps bs1 qs bs2 : decoded end_ bs ps bs1 → decoded end_ bs1 qs bs2 → decoded end_ bs (ps ++ qs) bs2.
Proof. induction 1 as [|bs p bs' ps rest Hf _ IH]; intros Hq; [done|]. cbn [app]. eapply decoded_cons; [done|]. by apply IH. Qed.

Lemma decoded_wire end_ ps bs : Forall fits ps → decoded end_ (mjoin (wire_of <$> ps) ++ bs) ps bs.
Proof.
  induction 1 as [|p ps Hp _ IH]; [constructor|]. rewrite fmap_cons, mjoin_cons, <- app_assoc. eapply decoded_cons; [by apply frame_of_wire|done].
Qed.

(** What the bytes are, they are in one way. *)
Lemma decoded_shorter end_ bs ps rest : decoded end_ bs ps rest → (length ps + length rest <= length bs)%nat.
Proof. induction 1 as [|bs p bs' ps rest Hf _ IH]; [done|]. apply frame_shorter in Hf. simpl. lia. Qed.

Section loop.
  Context {S : Type} (step : S → Pkt → outcome (round S)) (eof : jserror).

(** The rounds of a loop over these packets, the last of which leaves it. *)
Inductive rounds : S → list Pkt → S → Prop :=
| rounds_last s p s' : step s p = Ok (leave s') → rounds s [p] s'
| rounds_more s p s1 ps s' : step s p = Ok (again s1) → rounds s1 ps s' → rounds s (p :: ps) s'.

(** Enough packets: the loop runs its rounds. *)
Lemma packet_loop_runs s ps s' fuel r bs :
  rounds s ps s' → reader_ok r → decoded (source_end r) (rest_bytes r) ps bs → (length (rest_bytes r) < fuel)%nat →
  ∃ r', packet_loop fuel eof step s r = Some (Ok s', r') ∧ reader_ok r' ∧ rest_bytes r' = bs ∧ still_open r r'.
Proof using.
  intros H. revert fuel r. induction H as [s p s' Hs|s p s1 ps s' Hs Hr IH]; intros fuel r Hok Hd Hf; inversion_clear Hd as [|? ? bs' ? ? Hframe Hd'].
  all: destruct fuel as [|fuel]; [lia|]; destruct (readPkt_spec r Hok) as (o & r1 & Hp & H1); rewrite Hframe in H1; destruct H1 as (-> & Ho & Hok1 & Hb).
  all: cbn [packet_loop]; proceed_by Hp; rewrite p_bind_lift, Hs.
  - inversion Hd'. subst. by exists r1.
  - apply frame_shorter in Hframe. destruct (IH fuel r1) as (r' & Hl & Hok' & Hb' & Ho'); [done|by rewrite (open_end _ _ Ho), Hb|rewrite Hb; lia|].
    exists r'. split_and!; [done|done|done|by etrans].
Qed.

(** The loop ends; leaving it means that the bytes are packets whose rounds it ran. *)
Lemma packet_loop_ends fuel : ∀ s r,
  reader_ok r → (length (rest_bytes r) < fuel)%nat →
  ∃ o r', packet_loop fuel eof step s r = Some (o, r') ∧
  match o with
  | Ok s' => ∃ ps, rounds s ps s' ∧ decoded (source_end r) (rest_bytes r) ps (rest_bytes r') ∧ reader_ok r' ∧ still_open r r'
  | Throw _ => True
  end.
Proof using.
  induction fuel as [|fuel IH]; intros s r Hok Hf; [lia|]. destruct (readPkt_spec r Hok) as (o & r1 & Hp & H1). cbn [packet_loop].
  destruct (frame_of _ _) as [[[p bs]|]|e] eqn:Hframe.
  - destruct H1 as (-> & Ho & Hok1 & Hb). proceed_by Hp. rewrite p_bind_lift. destruct (step s p) as [[s1|s1]|e] eqn:Hs; [| |by eexists _, r1].
    + pose proof (frame_shorter _ _ _ _ Hframe). destruct (IH s1 r1) as (o & r' & Hl & Hend); [done|rewrite Hb; lia|]. exists o, r'. split; [done|].
      destruct o as [s'|e]; [|done]. destruct Hend as (ps & Hr & Hd & Hok' & Ho'). exists (p :: ps). split_and!; [by eapply rounds_more| |done|by etrans].
      eapply decoded_cons; [done|]. by rewrite <- Hb, <- (open_end _ _ Ho).
    + exists (Ok s1), r1. split; [done|]. exists [p]. split_and!; [by apply rounds_last| |done|done]. rewrite Hb. eapply decoded_cons; [done|constructor].
  - destruct H1 as (-> & _). destruct (returned r) as [|e]; cbn [mbind outcome_bind] in Hp;
      [rewrite (p_bind_ok _ _ _ _ _ Hp)|rewrite (p_bind_throw _ _ _ _ _ Hp)]; by eexists _, r1.
  - destruct H1 as (-> & _). rewrite (p_bind_throw _ _ _ _ _ Hp). by eexists _, r1.
Qed.

End loop.

(** Loops up to a flush. *)
Definition flush_packet : Pkt := mkPkt flush [].

Lemma rounds_until_flush {S} (step : S → Pkt → outcome S) s ps s' :
  Forall (λ p, kind p ≠ flush) ps → for_items step s ps = Ok s' → rounds (until_flush step) s (ps ++ [flush_packet]) s'.
Proof.
  intros Hk. revert s. induction Hk as [|p ps Hp _ IH]; intros s; cbn [for_items app].
  - intros [= ->]. by apply rounds_last.
  - intros (s1 & Hs & H)%bind_ok_inv. apply (rounds_more _ _ _ s1); [|by apply IH]. unfold until_flush. by rewrite bool_decide_eq_false_2, Hs by done.
Qed.

Lemma until_flush_rounds {S} (step : S → Pkt → outcome S) s ps s' :
  rounds (until_flush step) s ps s' → ∃ qs p, ps = qs ++ [p] ∧ kind p = flush ∧ Forall (λ p, kind p ≠ flush) qs ∧ for_items step s qs = Ok s'.
Proof.
  assert (∀ s p, (kind p = flush ∧ until_flush step s p = Ok (leave s)) ∨ (kind p ≠ flush ∧ until_flush step s p = (s ← step s p; Ok (again s)))) as Hstep.
  { intros s0 p. unfold until_flush. case_bool_decide; [by left|by right]. }
  induction 1 as [s p s' H|s p s1 ps s' H _ IH]; destruct (Hstep s p) as [[Hk E]|[Hk E]]; rewrite E in H.
  - injection H as ->. exists [], p. by split_and!.
  - by apply bind_ok_inv in H as (? & _ & [=]).
  - done.
  - apply bind_ok_inv in H as (s2 & Hs & [= ->]). destruct IH as (qs & q & -> & Hq & Hqs & Hfor). exists (p :: qs), q.
    split_and!; [done|done|by constructor|]. cbn [for_items]. by rewrite Hs.
Qed.

Lemma holds_decoded r ps qs bs : holds r (ps ++ qs) bs → decoded (source_end r) (rest_bytes r) ps (mjoin (wire_of <$> qs) ++ bs).
Proof.
  intros (_ & Hf & ->). apply Forall_app in Hf as [Hf _]. rewrite fmap_app, mjoin_app, <- app_assoc. by apply decoded_wire.
Qed.

(** A loop up to a flush over packets the reader holds. *)
Lemma flush_loop_holds {S} (step : S → Pkt → outcome S) eof s ps s' r bs :
  Forall (λ p, kind p ≠ flush) ps → for_items step s ps = Ok s' → holds r (ps ++ [flush_packet]) bs →
  ∃ r', p_fueled reader_fuel (λ fuel, packet_loop fuel eof (until_flush step) s) r = Some (Ok s', r') ∧ holds r' [] bs ∧ still_open r r'.
Proof.
  intros Hk Hf Hr. pose proof Hr as (Hok & _). rewrite <- (app_nil_r (ps ++ _)) in Hr.
  destruct (packet_loop_runs _ eof s _ s' (reader_fuel r) r bs (rounds_until_flush step s ps s' Hk Hf) Hok) as (r' & Hl & Hok' & Hb & Ho).
  - exact (holds_decoded _ _ _ _ Hr).
  - unfold reader_fuel, rest_bytes. rewrite length_app. destruct (done_ r); cbn [length]; lia.
  - exists r'. by split_and!.
Qed.

Lemma rest_fuel r : (length (rest_bytes r) < reader_fuel r)%nat.
Proof. unfold reader_fuel, rest_bytes. rewrite length_app. destruct (done_ r); cbn [length]; lia. Qed.
