(* ===== verification/RemoteRefs.v ===== *)
(** Advertised references: the client's src/packages/git/src/protocol/discovery.ts and the
    server's protocol/server/advertisement.ts. *)

From S2P Require Import Prelude Utf8 Text Bytes Objects Streams RefName JsMap Process PktLine Protocol.

Record RemoteRef := mkRemoteRef { r_name : ustring; r_oid : ustring }.
Record Advertisement := mkAdvertisement { refs : list RemoteRef; capabilities : jsset; headRef : option ustring }.

#[export] Instance RemoteRef_eq_dec : EqDecision RemoteRef.
Proof. solve_decision. Defined.

(** * Reading *)

(** What [parseAdvertisement] keeps between the packets. *)
Record Advert := mkAdvert {
  a_refs : list RemoteRef; a_capabilities : jsset; a_names : jsset;
  a_headRef : option ustring; a_headOid : option ustring; a_first : bool; a_entries : Z
}.

Definition advert_start : Advert := mkAdvert [] [] [] None None true 0.

Definition SYMREF : ustring := js "symref=HEAD:".
Definition malformed_symref : jserror := corrupt_text "ref advertisement has a malformed HEAD symref".

(** The branch of a [symref] capability; other capabilities leave it. *)
Definition symref_of (capability : ustring) (headRef : option ustring) : outcome (option ustring) :=
  if negb (startsWith capability (js "symref=HEAD")) then Ok headRef
  else if negb (startsWith capability SYMREF) then Throw malformed_symref
  else
    let symref := slice_from capability (zlen SYMREF) in
    if negb (bool_decide (problem (checkRefText symref None) = None)) || negb (startsWith symref (js "refs/")) ||
       negb (hasCanonicalRefSyntax symref 0 (zlen symref))
    then Throw malformed_symref
    else
      match headRef with
      | None => Ok (Some symref)
      | Some ref =>
          if negb (str_eqb ref symref) then Throw (corrupt_text "ref advertisement has conflicting HEAD symrefs") else Ok headRef
      end.

Definition add_capability (entryLimit : Z) (a : Advert) (capability : ustring) : outcome Advert :=
  entries ← countEntry entryLimit (a_entries a);
  if bool_decide (0 ∈ capability) then Throw (corrupt_text "ref advertisement has malformed capabilities")
  else
    headRef ← symref_of capability (a_headRef a);
    Ok (mkAdvert (a_refs a) (set_add (a_capabilities a) capability) (a_names a) headRef (a_headOid a) (a_first a) entries).

(** The loop over the capabilities, on the text from [start]. *)
Fixpoint capability_loop (fuel : nat) (entryLimit : Z) (a : Advert) (text : ustring) : option (outcome Advert) :=
  match fuel with
  | O => None
  | S fuel =>
      match drop_units SPACE text with
      | [] => Some (Ok a)
      | text =>
          let space := indexOf SPACE text in
          let end_ := if space <? 0 then zlen text else space in
          match add_capability entryLimit a (slice text 0 end_) with
          | Throw e => Some (Throw e)
          | Ok a => capability_loop fuel entryLimit a (slice_from text (end_ + 1))
          end
      end
  end.

Definition service_error (service : Service) (message : ustring) : jserror :=
  GitError (match service with git_receive_pack => js "EPUSHREJECTED" | git_upload_pack => js "EFETCHFAIL" end) message.

Definition advertisedRefName (name : ustring) : bool :=
  if str_eqb name (js "HEAD") then true
  else if endsWith_at name (js "^{}") (zlen name) then
    startsWith name (js "refs/tags/") && hasCanonicalRefSyntax name 0 (zlen name - 3)
  else startsWith name (js "refs/") && hasCanonicalRefSyntax name 0 (zlen name).

Definition NO_REFS : ustring := js "capabilities^{}".

(** One row, after its capabilities: [oid SP name]. *)
Definition advert_row (service : Service) (entryLimit : Z) (a : Advert) (text : ustring) : outcome Advert :=
  if startsWith text (js "ERR ") then Throw (service_error service (slice_from text 4))
  else
    let space := indexOf SPACE text in
    if space <? 0 then Throw (corrupt_text "ref advertisement has a malformed row")
    else
      let nameStart := space + 1 in
      let synthetic := (space =? zlen ZERO_OID) && startsWith text ZERO_OID && (zlen text - nameStart =? zlen NO_REFS) &&
                       startsWith_at text NO_REFS nameStart in
      let oid := slice text 0 space in
      let name := slice_from text nameStart in
      if negb (isOid oid) then Throw (CorruptError (js "ref advertisement has an invalid oid for " ++ name))
      else if bool_decide (name ∈ a_names a) then Throw (CorruptError (js "ref advertisement has duplicate row " ++ name))
      else
        let names := set_add (a_names a) name in
        if synthetic then Ok (mkAdvert (a_refs a) (a_capabilities a) names (a_headRef a) (a_headOid a) (a_first a) (a_entries a))
        else
          entries ← countEntry entryLimit (a_entries a);
          if negb (bool_decide (problem (checkRefText name None) = None)) || negb (advertisedRefName name)
          then Throw (CorruptError (js "ref advertisement has an invalid ref name " ++ name))
          else
            Ok (mkAdvert (a_refs a ++ [mkRemoteRef name oid]) (a_capabilities a) names (a_headRef a)
                  (if str_eqb name (js "HEAD") then Some oid else a_headOid a) (a_first a) entries).

(** One line: the first may carry capabilities behind a NUL. *)
Definition advert_line (service : Service) (entryLimit : Z) (a : Advert) (body : bytes) : option (outcome Advert) :=
  match decode_fatal body with
  | None => Some (Throw (corrupt_text "ref advertisement contains malformed UTF-8"))
  | Some text =>
      let text := strip_newline text in
      if negb (a_first a) then Some (advert_row service entryLimit a text)
      else
        let a := mkAdvert (a_refs a) (a_capabilities a) (a_names a) (a_headRef a) (a_headOid a) false (a_entries a) in
        let nul := indexOf 0 text in
        if nul <? 0 then Some (advert_row service entryLimit a text)
        else
          r ← capability_loop (S (length text)) entryLimit a (slice_from text (nul + 1));
          match r with
          | Throw e => Some (Throw e)
          | Ok a => Some (advert_row service entryLimit a (slice text 0 nul))
          end
  end.

(** The loop over the packets; [false] when the stream ends without a flush. *)
Fixpoint advert_loop (fuel : nat) (service : Service) (entryLimit : Z) (a : Advert) : reading (Advert * bool) :=
  match fuel with
  | O => λ _, None
  | S fuel =>
      packet ← readPkt;
      match packet with
      | None => mret (a, false)
      | Some packet =>
          match kind packet with
          | flush => mret (a, true)
          | delim => p_raise (corrupt_text "ref advertisement contains an unexpected pkt-line control")
          | line => a ← p_pure (advert_line service entryLimit a (payload packet)); advert_loop fuel service entryLimit a
          end
      end
  end.

(** The checks after the loop. *)
Definition finish_advert (a : Advert) (flushed : bool) : outcome Advertisement :=
  if negb flushed then Throw (corrupt_text "truncated ref advertisement")
  else
    let target := match a_headRef a with
                  | None => None
                  | Some headRef => r_oid <$> head (filter (λ ref, r_name ref = headRef) (a_refs a))
                  end in
    match a_headOid a, target with
    | Some headOid, Some targetOid =>
        if negb (str_eqb targetOid headOid) then Throw (corrupt_text "advertised HEAD does not match its symref target")
        else Ok (mkAdvertisement (a_refs a) (a_capabilities a) (a_headRef a))
    | _, _ => Ok (mkAdvertisement (a_refs a) (a_capabilities a) (a_headRef a))
    end.

Definition parseAdvertisement (service : Service) (entryLimit : Z) : reading Advertisement :=
  '(a, flushed) ← p_fueled reader_fuel (λ fuel, advert_loop fuel service entryLimit advert_start);
  p_lift (finish_advert a flushed).

(** The body of the [try] of [discover]. *)
Definition read_advertisement (service : Service) (entryLimit : Z) : reading Advertisement :=
  first ← readPkt;
  match first with
  | None => p_raise (corrupt_text "empty ref advertisement")
  | Some first =>
      let header := if bool_decide (kind first = line) then ownedPktText first else [] in
      if startsWith header (js "ERR ") then p_raise (service_error service (slice_from header 4))
      else if negb (startsWith header (js "# service=")) then p_raise (corrupt_text "not a smart HTTP ref advertisement")
      else
        afterHeader ← readPkt;
        match afterHeader with
        | Some (mkPkt flush _) => parseAdvertisement service entryLimit
        | _ => p_raise (corrupt_text "malformed ref advertisement header")
        end
  end.

(** An answer to a request, of the transport. *)
Record GitHttpResponse := mkResponse { status : Z; statusText : ustring; content_type : option ustring; body : yields bytes }.

Definition HttpError (message : ustring) : jserror := GitError (js "EHTTP") message.

(** [": " detail] when there is one. *)
Definition with_detail (detail : ustring) : ustring := if bool_decide (detail = []) then [] else js " " ++ [0x2014] ++ js " " ++ slice detail 0 200.

Definition discover (requestWithAuth : ustring → outcome GitHttpResponse) (aborted : bool) (entries : option (option Z))
    (url : ustring) (service : Service) : option (outcome Advertisement) :=
  match (limit ← resolvedProtocolEntryLimit entries;
         base ← normalizeRemoteUrl url;
         response ← requestWithAuth (base ++ js "/info/refs?service=" ++ service_name service);
         Ok (limit, response)) with
  | Throw e => Some (Throw e)
  | Ok (limit, response) =>
      if negb (status response =? 200) then
        Some (detail ← readErrorPrefix (body response) aborted;
              Throw (HttpError (service_name service ++ js " discovery failed: " ++ number_string (status response) ++ js " " ++
                                statusText response ++ with_detail detail)))
      else
        let contentType := default [] (content_type response) in
        let mediaType := trim (default [] (head (split 0x3b contentType))) in
        if negb (startsWith mediaType (js "application/x-" ++ service_name service ++ js "-advertisement")) then
          Some (_ ← drain (body response) aborted;
                Throw (CorruptError (js "not a smart HTTP ref advertisement (content-type: " ++
                                     (if bool_decide (contentType = []) then js "none" else contentType) ++ js ")")))
        else
          let reader := new_ByteReader (items (body response)) (ending (body response)) in
          fst <$> p_finally (read_advertisement service limit) releaseReader reader
  end.

(** * Writing *)

Definition RECEIVE_SERVER_CAPABILITIES : list ustring := [js "report-status"; js "delete-refs"; js "no-thin"].
Definition UPLOAD_SERVER_CAPABILITIES : list ustring := [js "multi_ack_detailed"; js "side-band-64k"].

Record ServerAdvertisedRef := mkServerRef { s_name : ustring; s_oid : ustring; peeledOid : option ustring }.
Record ServerHead := mkHead { h_ref : ustring; h_oid : option ustring }.
Record ServerAdvertisement := mkServerAdvertisement { s_refs : list ServerAdvertisedRef; s_head : option ServerHead }.

Definition invalid (message : string) : jserror := GitErr "EINVAL" message.

(** Statements of a generator that throw or yield: the rest follows unless they throw. *)
Definition then_yields {A B} (o : outcome A) (k : A → yields B) : yields B :=
  match o with Ok a => k a | Throw e => fails e end.
Definition yield_pkt (text : ustring) (rest : yields bytes) : yields bytes := then_yields (pkt_text text) (λ frame, yielding frame rest).

Definition check_head (head : option ServerHead) : outcome unit :=
  match head with
  | None => Ok tt
  | Some h =>
      _ ← requireServerRef (h_ref h);
      if negb (startsWith (h_ref h) (js "refs/heads/")) then Throw (GitErr "EINVALIDREF" "server HEAD must target a branch")
      else match h_oid h with Some oid => requireServerOid oid false | None => Ok tt end
  end.

Definition server_capabilities (service : Service) (head : option ServerHead) : list ustring :=
  match service with
  | git_upload_pack => UPLOAD_SERVER_CAPABILITIES ++ match head with None => [] | Some h => [js "symref=HEAD:" ++ h_ref h] end
  | git_receive_pack => RECEIVE_SERVER_CAPABILITIES
  end.

(** [\0] and the capabilities, on the first row. *)
Definition capability_suffix (first : bool) (capabilities : list ustring) : ustring := if first then 0 :: join SPACE capabilities else [].

Definition check_ref (head : option ServerHead) (previous : option ustring) (ref : ServerAdvertisedRef) : outcome unit :=
  _ ← requireServerRef (s_name ref);
  _ ← requireServerOid (s_oid ref) false;
  _ ← throw_if (match previous with Some p => 0 <=? comparePaths p (s_name ref) | None => false end)
        (invalid "advertised refs must be unique and ordered by UTF-8 bytes");
  throw_if (match head with
            | Some h => str_eqb (s_name ref) (h_ref h) && negb (bool_decide (h_oid h = Some (s_oid ref)))
            | None => false
            end) (invalid "advertised HEAD differs from its branch").

Definition check_peeled (ref : ServerAdvertisedRef) (oid : ustring) : outcome unit :=
  _ ← throw_if (negb (startsWith (s_name ref) (js "refs/tags/"))) (invalid "only advertised tags may have peeled targets");
  requireServerOid oid false.

Definition NEWLINE : ustring := [0x0a].

(** The loop over the refs, with what follows it. *)
Fixpoint encode_refs (upload : bool) (head : option ServerHead) (capabilities : list ustring) (first : bool) (previous : option ustring)
    (refs : list ServerAdvertisedRef) (tail : bool → yields bytes) : yields bytes :=
  match refs with
  | [] => tail first
  | ref :: refs =>
      then_yields (check_ref head previous ref) (λ _,
      yield_pkt (s_oid ref ++ js " " ++ s_name ref ++ capability_suffix first capabilities ++ NEWLINE)
      (let rest := encode_refs upload head capabilities false (Some (s_name ref)) refs tail in
       match peeledOid ref with
       | None => rest
       | Some oid =>
           then_yields (check_peeled ref oid) (λ _,
           if upload then yield_pkt (oid ++ js " " ++ s_name ref ++ js "^{}" ++ NEWLINE) rest else rest)
       end))
  end.

Definition encodeAdvertisement (service : Service) (advertisement : ServerAdvertisement) : yields bytes :=
  let upload := bool_decide (service = git_upload_pack) in
  let head := s_head advertisement in
  then_yields (check_head head) (λ _,
  let capabilities := server_capabilities service head in
  yield_pkt (js "# service=" ++ service_name service ++ NEWLINE)
  (yielding FLUSH
  (let refs first := encode_refs upload head capabilities first None (s_refs advertisement) (λ first,
     let end_ := yielding FLUSH (mkYields [] (Ok tt)) in
     if first then yield_pkt (ZERO_OID ++ js " capabilities^{}" ++ capability_suffix true capabilities ++ NEWLINE) end_ else end_) in
   match (if upload then head ≫= λ h, (λ oid, (h, oid)) <$> h_oid h else None) with
   | Some (h, oid) => yield_pkt (oid ++ js " HEAD" ++ capability_suffix true capabilities ++ NEWLINE) (refs false)
   | None => refs true
   end))).
