(* ===== verification/RemoteRefsFacts.v ===== *)
(** Advertised references: the client reads what the server writes, for every cut of the bytes. *)

From S2P Require Import Prelude Arrays Utf8 Text Bytes Objects Streams Paths RefName JsMap Process PktLine PktLineFacts Protocol ProtocolFacts RemoteRefs.

(** * Names a client accepts *)

Record advertised (name : ustring) : Prop := {
  adv_text : text_ok name;
  adv_space : SPACE ∉ name;
  adv_nul : 0 ∉ name;
  adv_newline : 0x0a ∉ name;
  adv_check : problem (checkRefText name None) = None;
  adv_name : advertisedRefName name = true
}.

Lemma advertised_HEAD : advertised (js "HEAD").
Proof.
  split; [apply text_ok_ascii, ascii_decided; done| | | |done|done].
  all: match goal with |- ?x ∉ ?l => exact (bool_decide_eq_true_1 (x ∉ l) eq_refl) end.
Qed.

Lemma endsWith_hat name : 0x5e ∉ name → endsWith_at name (js "^{}") (zlen name) = false.
Proof.
  intros Hn. destruct (endsWith_at _ _ _) eqn:E; [|done]. rewrite <- (app_nil_r name) in E at 1. apply endsWith_at_spec in E as [p ->].
  exfalso. apply Hn. apply elem_of_app. right. by left.
Qed.

Lemma advertised_name name : server_name name → advertised name.
Proof.
  intros Hn. split; [apply Hn|by apply name_no_space|by apply (name_no_break name); auto|by apply (name_no_break name); auto|by apply name_check|].
  unfold advertisedRefName. destruct (str_eqb name (js "HEAD")) eqn:E; [done|].
  by rewrite endsWith_hat, name_refs, name_canonical by (done || by apply name_no_hat).
Qed.

(** A reference's syntax does not depend on what follows it, unless that is a dot or a brace. *)
Lemma ref_syntax_loop_app a b w n : ∀ i c,
  0 <= i → i + Z.of_nat n <= zlen a → 0 <= c <= i → head b ≠ Some 0x2e → head b ≠ Some 0x7b →
  ref_syntax_loop (a ++ b) w n i c = ref_syntax_loop a w n i c.
Proof.
  induction n as [|n IH]; intros i c Hi Hn Hc H1 H2; [done|]. cbn [ref_syntax_loop].
  assert (∀ j, 0 <= j < zlen a → at_ (a ++ b) j = at_ a j) as Hat.
  { intros j Hj. unfold at_. rewrite (proj2 (Z.ltb_ge _ _)) by lia. apply lookup_app_l. unfold zlen in *. lia. }
  rewrite (Hat i) by lia. destruct (default 0 (at_ a i) =? 0x2f).
  - assert (endsWith_at (a ++ b) LOCK i = endsWith_at a LOCK i) as ->.
    { unfold endsWith_at. destruct (0 <=? i - zlen LOCK) eqn:E; [|done]. zbool. cbn [andb]. f_equal. unfold slice, zlen in *.
      rewrite drop_app_le by lia. apply take_app_le. rewrite length_drop. lia. }
    assert (unit_is (at_ (a ++ b) c) 0x2e = unit_is (at_ a c) 0x2e) as ->.
    { by rewrite Hat by lia. }
    destruct (_ || _); [done|]. apply IH; (done || lia).
  - assert (∀ u, u = 0x2e ∨ u = 0x7b → unit_is (at_ (a ++ b) (i + 1)) u = unit_is (at_ a (i + 1)) u) as Hnext.
    { intros u Hu. destruct (decide (i + 1 < zlen a)); [by rewrite Hat by lia|]. unfold at_. rewrite (proj2 (Z.ltb_ge _ _)) by lia.
      rewrite lookup_app_r, (lookup_ge_None_2 a) by (unfold zlen in *; lia). replace (Z.to_nat (i + 1) - length a)%nat with 0%nat by (unfold zlen in *; lia).
      unfold unit_is. rewrite <- head_lookup, !bool_decide_eq_false_2; [done|done|]. by destruct Hu as [->| ->]. }
    rewrite !Hnext by auto. repeat (destruct (_ || _); [done|]). apply IH; (done || lia).
Qed.

Lemma ref_syntax_loop_bound value w n : ∀ i c cs, ref_syntax_loop value w n i c = Some cs → 0 <= c <= i → 0 <= cs <= i + Z.of_nat n.
Proof.
  induction n as [|n IH]; intros i c cs; cbn [ref_syntax_loop]; [intros [= <-]; lia|].
  destruct (_ =? 0x2f).
  - destruct (_ || _); [done|]. intros H ?. apply IH in H; lia.
  - repeat (destruct (_ || _); [done|]). intros H ?. apply IH in H; lia.
Qed.

Lemma syntax_before a b :
  head b ≠ Some 0x2e → head b ≠ Some 0x7b → zlen (a ++ b) <= MAX_SAFE_INTEGER → startsWith a (js "refs/") = true →
  hasCanonicalRefSyntax (a ++ b) 0 (zlen a) = hasCanonicalRefSyntax a 0 (zlen a).
Proof.
  intros H1 H2 Hmax Hr. pose proof (zlen_nonneg b). rewrite zlen_app in Hmax.
  apply startsWith_spec in Hr as [k Hk]. assert (0 < zlen a) by (rewrite Hk, zlen_app; pose proof (zlen_nonneg k); change (zlen (js "refs/")) with 5; lia).
  assert (∀ j, 0 <= j < zlen a → at_ (a ++ b) j = at_ a j) as Hat.
  { intros j Hj. unfold at_. rewrite (proj2 (Z.ltb_ge _ _)) by lia. apply lookup_app_l. unfold zlen in *. lia. }
  assert (∀ j, 0 <= j <= zlen a → unit_is (at_ (a ++ b) j) 0x2e = unit_is (at_ a j) 0x2e) as Hdot.
  { intros j Hj. destruct (decide (j < zlen a)); [by rewrite Hat by lia|]. unfold at_. rewrite (proj2 (Z.ltb_ge _ _)) by lia.
    rewrite lookup_app_r, (lookup_ge_None_2 a) by (unfold zlen in *; lia). replace (Z.to_nat j - length a)%nat with 0%nat by (unfold zlen in *; lia).
    unfold unit_is. by rewrite <- head_lookup, !bool_decide_eq_false_2. }
  unfold hasCanonicalRefSyntax, hasCanonicalRefSyntaxWithWildcard. rewrite !Hat by lia.
  rewrite zlen_app, (proj2 (Z.ltb_ge (zlen a + zlen b) _)), (proj2 (Z.ltb_ge (zlen a) _)) by lia.
  assert (∀ c, startsWith_at (a ++ c) (js "ref: ") 0 = false) as Hs.
  { intros c. unfold startsWith_at. rewrite Hk. done. }
  assert (startsWith_at a (js "ref: ") 0 = false) as Hs0 by (rewrite <- (app_nil_r a); apply Hs).
  rewrite Hs, Hs0. rewrite ref_syntax_loop_app by (done || lia).
  rewrite Z.sub_0_r. destruct (_ || _); [done|]. destruct (_ || _); [done|].
  destruct (ref_syntax_loop a (-1) (Z.to_nat (zlen a)) 0 0) as [cs|] eqn:E; [|done]. apply ref_syntax_loop_bound in E; [|lia]. rewrite Hdot by lia.
  f_equal. f_equal. unfold endsWith_at. destruct (0 <=? zlen a - zlen LOCK) eqn:E1; [|done]. zbool. cbn [andb]. f_equal. unfold slice, zlen in *.
  rewrite drop_app_le by lia. apply take_app_le. rewrite length_drop. lia.
Qed.

Lemma advertised_peeled name : server_name name → startsWith name (js "refs/tags/") = true → advertised (name ++ js "^{}").
Proof.
  intros Hn Ht. assert (∀ u, u ∉ js "^{}" → u ∉ name → u ∉ name ++ js "^{}") as Hno by (intros u ? ? [?|?]%elem_of_app; done).
  assert (text_ok (name ++ js "^{}")) as Htext by (apply text_ok_app; [apply Hn|by apply text_ok_ascii, ascii_decided]).
  split; [done| | | | |].
  - apply Hno; [exact (bool_decide_eq_true_1 (SPACE ∉ js "^{}") eq_refl)|by apply name_no_space].
  - apply Hno; [exact (bool_decide_eq_true_1 (0 ∉ js "^{}") eq_refl)|apply name_no_break; auto].
  - apply Hno; [exact (bool_decide_eq_true_1 (0x0a ∉ js "^{}") eq_refl)|apply name_no_break; auto].
  - destruct Htext as [Hu Hw]. destruct (checkRefText_spec (name ++ js "^{}") None Hu eq_refl) as (H & _ & _). apply H.
    split_and!; [|done|done]. apply Forall_app. split; [apply Hn|]. repeat constructor; done.
  - unfold advertisedRefName. destruct (str_eqb _ _); [done|].
    assert (endsWith_at (name ++ js "^{}") (js "^{}") (zlen (name ++ js "^{}")) = true) as ->.
    { rewrite <- (app_nil_r (name ++ js "^{}")) at 1. apply endsWith_at_spec. by exists name. }
    rewrite (proj2 (startsWith_spec (name ++ js "^{}") (js "refs/tags/"))) by (apply startsWith_spec in Ht as [k ->]; exists (k ++ js "^{}"); by rewrite app_assoc).
    replace (zlen (name ++ js "^{}") - 3) with (zlen name) by (rewrite zlen_app; change (zlen (js "^{}")) with 3; lia).
    rewrite syntax_before; [by apply name_canonical|done|done| |by apply name_refs].
    pose proof (encode_length name (proj1 (name_text name Hn))). pose proof (name_length name Hn). rewrite zlen_app. change (zlen (js "^{}")) with 3.
    unfold MAX_SAFE_INTEGER, MAX_REF_NAME_BYTES in *. lia.
Qed.

(** * Reading rows *)

Definition row_text (row : RemoteRef) : ustring := r_oid row ++ SPACE :: r_name row.

(** A row of a client's list, added. *)
Definition push_row (a : Advert) (row : RemoteRef) : Advert :=
  mkAdvert (a_refs a ++ [row]) (a_capabilities a) (a_names a ++ [r_name row]) (a_headRef a)
    (if str_eqb (r_name row) (js "HEAD") then Some (r_oid row) else a_headOid a) (a_first a) (a_entries a + 1).

Definition row_ok (row : RemoteRef) : Prop := isOid (r_oid row) = true ∧ advertised (r_name row).

Lemma advert_row_ok service limit a row :
  row_ok row → r_name row ∉ a_names a → a_entries a < limit → advert_row service limit a (row_text row) = Ok (push_row a row).
Proof.
  destruct row as [name oid]. unfold row_text, row_ok. cbn [r_name r_oid]. intros [Ho Hn] Hfresh Hlimit. unfold advert_row.
  rewrite (oid_not_start oid _ (js "ERR ") 0x45) by (done || lia). pose proof (isOid_spec oid Ho) as [Hlen _].
  rewrite (indexOf_spec SPACE) by (apply oid_no; [done|unfold SPACE; lia]). rewrite (proj2 (Z.ltb_ge (zlen oid) 0)) by lia.
  assert (slice (oid ++ SPACE :: name) 0 (zlen oid) = oid) as ->.
  { unfold slice, zlen. rewrite drop_0, Z.sub_0_r, Nat2Z.id. apply take_app_length. }
  assert (slice_from (oid ++ SPACE :: name) (zlen oid + 1) = name) as ->.
  { unfold slice_from, zlen. rewrite drop_app_ge by lia. by replace (Z.to_nat (Z.of_nat (length oid) + 1) - length oid)%nat with 1%nat by lia. }
  rewrite Ho. cbn [negb]. rewrite bool_decide_eq_false_2 by done.
  assert ((zlen (oid ++ SPACE :: name) - (zlen oid + 1) =? zlen NO_REFS) && startsWith_at (oid ++ SPACE :: name) NO_REFS (zlen oid + 1) = false) as Hs.
  { apply andb_false_iff. destruct (Z.eqb_spec (zlen (oid ++ SPACE :: name) - (zlen oid + 1)) (zlen NO_REFS)) as [E|]; [right|by left].
    destruct (startsWith_at _ _ _) eqn:Es; [|done]. unfold startsWith_at in Es.
    assert (slice_from (oid ++ SPACE :: name) (zlen oid + 1) = name) as Hsl.
    { unfold slice_from, zlen. rewrite drop_app_ge by lia. by replace (Z.to_nat (Z.of_nat (length oid) + 1) - length oid)%nat with 1%nat by lia. }
    rewrite Hsl in Es. apply startsWith_spec in Es as [k ->]. rewrite zlen_app, zlen_cons, zlen_app in E. assert (k = []) as -> by (apply zlen_nil_iff; lia).
    by destruct (adv_name _ Hn). }
  rewrite <- andb_assoc, Hs, andb_false_r. unfold countEntry. rewrite (proj2 (Z.leb_gt _ _)) by done. cbn [mbind outcome_bind].
  rewrite (adv_check _ Hn), (adv_name _ Hn), bool_decide_eq_true_2 by done. cbn [negb orb]. unfold set_add. by rewrite bool_decide_eq_false_2.
Qed.

(** The row of an empty repository. *)
Lemma advert_row_none service limit a :
  a_names a = [] → ∃ names, advert_row service limit a (row_text (mkRemoteRef NO_REFS ZERO_OID)) =
    Ok (mkAdvert (a_refs a) (a_capabilities a) names (a_headRef a) (a_headOid a) (a_first a) (a_entries a)).
Proof. intros Hn. exists [NO_REFS]. unfold advert_row. rewrite Hn. reflexivity. Qed.

Definition line_text (t : ustring) : ustring := t ++ [0x0a].

Lemma row_text_ok row : row_ok row → text_ok (row_text row).
Proof.
  intros [Ho Hn]. unfold row_text. apply text_ok_app; [by apply text_ok_ascii, oid_ascii|]. change (SPACE :: r_name row) with ([SPACE] ++ r_name row).
  apply text_ok_app; [by apply text_ok_ascii, ascii_decided|apply Hn].
Qed.

Lemma row_no_nul row : row_ok row → 0 ∉ row_text row.
Proof.
  intros [Ho Hn]. unfold row_text. rewrite elem_of_app, elem_of_cons. intros [H|[H|H]]; [|done|by apply (adv_nul _ Hn)].
  revert H. apply oid_no; [done|lia].
Qed.

(** A line that starts with an object name is decoded as it was written. *)
Lemma decode_row row t : row_ok row → text_ok t → decode_fatal (encode (row_text row ++ t)) = Some (row_text row ++ t).
Proof.
  intros Hrow Ht. apply decode_fatal_line; [by apply text_ok_app, Ht; apply row_text_ok|]. unfold row_text. rewrite <- app_assoc.
  intros H. apply oid_head in H; [lia|apply Hrow].
Qed.

Lemma newline_ok : text_ok [0x0a].
Proof. by apply text_ok_ascii, ascii_decided. Qed.

Lemma advert_line_row service limit a row :
  row_ok row → a_first a = false → advert_line service limit a (encode (line_text (row_text row))) = Some (advert_row service limit a (row_text row)).
Proof.
  intros Hrow Hf. unfold advert_line, line_text. rewrite decode_row by (done || apply newline_ok). by rewrite strip_newline_line, Hf.
Qed.

Definition rows_fresh (a : Advert) (rows : list RemoteRef) : Prop := NoDup (a_names a ++ (r_name <$> rows)).

Lemma advert_loop_rows service limit rows : ∀ fuel a r,
  Forall row_ok rows → rows_fresh a rows → a_first a = false → a_entries a + zlen rows <= limit → (S (length rows) < fuel)%nat →
  holds r ((text_packet ∘ line_text ∘ row_text <$> rows) ++ [flush_packet]) [] →
  ∃ r', advert_loop fuel service limit a r = Some (Ok (foldl push_row a rows, true), r').
Proof.
  induction rows as [|row rows IH]; intros [|fuel] a r Hok Hfresh Hfirst Hlimit Hfuel Hr; try lia; cbn [advert_loop].
  - destruct (read_next r flush_packet [] [] Hr) as (r' & Hp & _). proceed_by Hp. by exists r'.
  - rewrite fmap_cons in Hr. cbn [app] in Hr. destruct (read_next _ _ _ _ Hr) as (r1 & Hp & Hr1 & _). proceed_by Hp.
    apply Forall_cons in Hok as [Hrow Hok]. rewrite zlen_cons in Hlimit. pose proof (zlen_nonneg rows). cbn [kind text_packet compose payload].
    rewrite advert_line_row, advert_row_ok; [|done| |lia|done|done].
    + destruct (IH fuel (push_row a row) r1) as (r' & Hl); [done| |done|cbn [push_row a_entries]; lia|cbn in Hfuel; lia|done|by exists r'].
      unfold rows_fresh in *. cbn [push_row a_names]. rewrite fmap_cons in Hfresh. by rewrite <- app_assoc.
    + unfold rows_fresh in Hfresh. rewrite fmap_cons in Hfresh. apply NoDup_app in Hfresh as (_ & H' & _). intros Hin. apply (H' _ Hin). by left.
Qed.

(** * Capabilities *)

Definition token_ok (c : ustring) : Prop := c ≠ [] ∧ SPACE ∉ c.

Lemma drop_units_id u s : head s ≠ Some u → drop_units u s = s.
Proof. destruct s as [|x s]; [done|]. cbn. intros H. destruct (Z.eqb_spec x u); [congruence|done]. Qed.

Lemma capability_loop_join limit caps : ∀ fuel a,
  Forall token_ok caps → (length (join SPACE caps) < fuel)%nat →
  capability_loop fuel limit a (join SPACE caps) = Some (for_items (add_capability limit) a caps).
Proof.
  induction caps as [|c caps IH]; intros [|fuel] a Hok Hf; try lia; [done|]. apply Forall_cons in Hok as [[Hne Hsp] Hok].
  assert (∃ x c', c = x :: c' ∧ x ≠ SPACE) as (x & c' & Hc & Hx).
  { destruct c as [|x c']; [done|]. apply not_elem_of_cons in Hsp as [? _]. exists x, c'. split; [done|congruence]. }
  destruct caps as [|d caps].
  - cbn [join capability_loop for_items]. rewrite drop_units_id by (rewrite Hc; cbn; congruence). rewrite Hc at 1. rewrite <- Hc.
    rewrite (indexOf_none SPACE c) by done. change (-1 <? 0) with true. cbv iota. rewrite slice_all.
    rewrite slice_from_end by lia. destruct (add_capability limit a c); [|done]. cbn [mbind outcome_bind]. destruct fuel as [|fuel]; [|done].
    cbn in Hf. rewrite Hc in Hf. cbn in Hf. lia.
  - rewrite (join_cons SPACE c) by done. cbn [capability_loop]. rewrite drop_units_id by (rewrite Hc; cbn; congruence).
    rewrite Hc at 1. rewrite <- app_comm_cons. cbv iota. change (x :: c' ++ SPACE :: join SPACE (d :: caps)) with ((x :: c') ++ SPACE :: join SPACE (d :: caps)).
    rewrite <- Hc. rewrite (indexOf_spec SPACE) by done. pose proof (zlen_nonneg c). rewrite (proj2 (Z.ltb_ge _ _)) by lia.
    rewrite slice_0_app. cbn [for_items]. destruct (add_capability limit a c); [|done]. cbn [mbind outcome_bind].
    change (c ++ SPACE :: join SPACE (d :: caps)) with (c ++ [SPACE] ++ join SPACE (d :: caps)). rewrite app_assoc.
    replace (zlen c + 1) with (zlen (c ++ [SPACE])) by by rewrite zlen_app. rewrite slice_from_app. apply IH; [done|].
    rewrite (join_cons SPACE c), length_app in Hf by done. cbn [length] in Hf. clear - Hf. lia.
Qed.

Lemma add_capability_plain limit a c :
  a_entries a < limit → 0 ∉ c → startsWith c (js "symref=HEAD") = false → c ∉ a_capabilities a →
  add_capability limit a c = Ok (mkAdvert (a_refs a) (a_capabilities a ++ [c]) (a_names a) (a_headRef a) (a_headOid a) (a_first a) (a_entries a + 1)).
Proof.
  intros Hl Hn Hs Hc. unfold add_capability, countEntry, symref_of, set_add. rewrite (proj2 (Z.leb_gt _ _)) by done.
  cbn [mbind outcome_bind]. rewrite bool_decide_eq_false_2, Hs by done. cbn [negb mbind outcome_bind]. by rewrite bool_decide_eq_false_2.
Qed.

Lemma add_capability_symref limit a ref :
  a_entries a < limit → server_name ref → a_headRef a = None → SYMREF ++ ref ∉ a_capabilities a →
  add_capability limit a (SYMREF ++ ref) =
    Ok (mkAdvert (a_refs a) (a_capabilities a ++ [SYMREF ++ ref]) (a_names a) (Some ref) (a_headOid a) (a_first a) (a_entries a + 1)).
Proof.
  intros Hl Hn Hh Hc. unfold add_capability, countEntry, symref_of, set_add. rewrite (proj2 (Z.leb_gt _ _)) by done. cbn [mbind outcome_bind].
  rewrite bool_decide_eq_false_2.
  2:{ intros [H|H]%elem_of_app; [|by apply (name_no_break ref 0 Hn) in H; auto].
      exact (bool_decide_eq_true_1 (0 ∉ SYMREF) eq_refl H). }
  rewrite startsWith_app. assert (startsWith (SYMREF ++ ref) (js "symref=HEAD") = true) as -> by done. cbn [negb]. rewrite slice_from_app.
  rewrite name_check, name_refs, name_canonical by done. cbn [negb orb]. rewrite Hh.
  rewrite (bool_decide_eq_true_2 (None = None)) by done. cbn [negb orb]. cbn [mbind outcome_bind].
  by rewrite bool_decide_eq_false_2.
Qed.

(** The capabilities of the server, as the client keeps them. *)
Definition symref_head (service : Service) (head : option ServerHead) : option ustring :=
  match service with git_upload_pack => h_ref <$> head | git_receive_pack => None end.

Definition with_capabilities (a : Advert) (caps : list ustring) (headRef : option ustring) : Advert :=
  mkAdvert (a_refs a) caps (a_names a) headRef (a_headOid a) (a_first a) (a_entries a + zlen caps).

Lemma server_tokens service head : (∀ h, head = Some h → server_name (h_ref h)) → Forall token_ok (server_capabilities service head).
Proof.
  intros Hh. assert (∀ c, bool_decide (c ≠ []) && bool_decide (SPACE ∉ c) = true → token_ok c) as Hc
    by (intros c [?%bool_decide_eq_true ?%bool_decide_eq_true]%andb_prop; done).
  destruct service; cbn [server_capabilities]; [|repeat constructor; by apply Hc]. apply Forall_app. split; [repeat constructor; by apply Hc|].
  destruct head as [h|]; [|constructor]. repeat constructor; [done|]. intros [H|H]%elem_of_app.
  - exact (bool_decide_eq_true_1 (SPACE ∉ js "symref=HEAD:") eq_refl H).
  - by apply (name_no_space (h_ref h)); [apply Hh|].
Qed.

Lemma capabilities_read service head limit a :
  (∀ h, head = Some h → server_name (h_ref h)) → a_capabilities a = [] → a_headRef a = None →
  a_entries a + zlen (server_capabilities service head) <= limit →
  for_items (add_capability limit) a (server_capabilities service head) =
    Ok (with_capabilities a (server_capabilities service head) (symref_head service head)).
Proof.
  intros Hh Hc Hr Hl. destruct a as [rs cs ns hr ho f n]. cbn [a_capabilities a_headRef a_entries] in *. subst cs hr.
  assert (∀ x (l : list ustring), bool_decide (x ∉ l) = true → x ∉ l) as Hd by (intros x l; apply bool_decide_eq_true_1).
  assert (∀ (x : Z) (l : ustring), bool_decide (x ∉ l) = true → x ∉ l) as Hd0 by (intros x l; apply bool_decide_eq_true_1).
  destruct service; cbn [server_capabilities symref_head] in *.
  - destruct head as [h|]; cbn [app UPLOAD_SERVER_CAPABILITIES] in *; rewrite ?zlen_cons in Hl; change (zlen []) with 0 in Hl; cbn [for_items].
    + rewrite add_capability_plain by (cbn [a_entries a_capabilities]; (by apply Hd) || (by apply Hd0) || done || lia). cbn [mbind outcome_bind].
      rewrite add_capability_plain by (cbn [a_entries a_capabilities]; (by apply Hd) || (by apply Hd0) || done || lia). cbn [mbind outcome_bind].
      change (js "symref=HEAD:" ++ h_ref h) with (SYMREF ++ h_ref h). rewrite add_capability_symref; cbn [a_entries a_capabilities a_headRef]; [|lia|by apply Hh|done|].
      * cbn [mbind outcome_bind]. unfold with_capabilities. cbn [a_refs a_capabilities a_names a_headRef a_headOid a_first a_entries app]. rewrite !zlen_cons.
      change (@zlen ustring []) with 0. f_equal. f_equal. lia.
      * cbn [app a_capabilities]. rewrite !elem_of_cons. intros [?|[?|?%elem_of_nil]]; done.
    + rewrite add_capability_plain by (cbn [a_entries a_capabilities]; (by apply Hd) || (by apply Hd0) || done || lia). cbn [mbind outcome_bind].
      rewrite add_capability_plain by (cbn [a_entries a_capabilities]; (by apply Hd) || (by apply Hd0) || done || lia). cbn [mbind outcome_bind].
      unfold with_capabilities. cbn [a_refs a_capabilities a_names a_headRef a_headOid a_first a_entries app]. rewrite !zlen_cons.
      change (@zlen ustring []) with 0. f_equal. f_equal. lia.
  - unfold RECEIVE_SERVER_CAPABILITIES in *. rewrite ?zlen_cons in Hl; change (zlen []) with 0 in Hl; cbn [for_items].
    do 3 (rewrite add_capability_plain by (cbn [a_entries a_capabilities]; (by apply Hd) || (by apply Hd0) || done || lia); cbn [mbind outcome_bind]).
    unfold with_capabilities. cbn [a_refs a_capabilities a_names a_headRef a_headOid a_first a_entries app]. rewrite !zlen_cons.
      change (@zlen ustring []) with 0. f_equal. f_equal. lia.
Qed.

(** * The whole advertisement *)

Lemma text_ok_join caps : Forall text_ok caps → text_ok (join SPACE caps).
Proof.
  induction 1 as [|c caps Hc Hcaps IH]; [apply text_ok_ascii; constructor|]. destruct caps as [|d caps]; [done|]. rewrite join_cons by done.
  apply text_ok_app; [done|]. change (SPACE :: join SPACE (d :: caps)) with ([SPACE] ++ join SPACE (d :: caps)).
  apply text_ok_app; [by apply text_ok_ascii, ascii_decided|done].
Qed.

Lemma server_texts service head : (∀ h, head = Some h → server_name (h_ref h)) → Forall text_ok (server_capabilities service head).
Proof.
  intros Hh. assert (∀ c, forallb (λ u, (0 <=? u) && (u <? 128)) c = true → text_ok c) as Hc by (intros c ?; by apply text_ok_ascii, ascii_decided).
  destruct service; cbn [server_capabilities]; [|(repeat (apply Forall_cons_2; [by apply Hc|])); by apply Forall_nil_2].
  apply Forall_app. split; [(repeat (apply Forall_cons_2; [by apply Hc|])); by apply Forall_nil_2|].
  destruct head as [h|]; [|constructor]. apply Forall_singleton, text_ok_app; [by apply Hc|by apply Hh].
Qed.

Definition suffixed (caps : list ustring) (t : ustring) : ustring := line_text (t ++ 0 :: join SPACE caps).

Lemma advert_line_first service limit a caps t :
  a_first a = true → text_ok t → head t ≠ Some 0xfeff → t ≠ [] → 0 ∉ t → Forall text_ok caps → Forall token_ok caps →
  advert_line service limit a (encode (suffixed caps t)) =
    Some (a ← for_items (add_capability limit) (mkAdvert (a_refs a) (a_capabilities a) (a_names a) (a_headRef a) (a_headOid a) false (a_entries a)) caps;
          advert_row service limit a t).
Proof.
  intros Hf Ht Hh Hne Hn Hcaps Htok. unfold advert_line, suffixed, line_text.
  rewrite decode_fatal_line; [| |by destruct t].
  2:{ apply text_ok_app; [|apply newline_ok]. apply text_ok_app; [done|]. change (0 :: join SPACE caps) with ([0] ++ join SPACE caps).
      apply text_ok_app; [by apply text_ok_ascii, ascii_decided|by apply text_ok_join]. }
  rewrite strip_newline_line, Hf. cbn [negb]. rewrite (indexOf_spec 0) by done. pose proof (zlen_nonneg t).
  rewrite (proj2 (Z.ltb_ge (zlen t) 0)) by done. change (t ++ 0 :: join SPACE caps) with (t ++ [0] ++ join SPACE caps).
  assert (slice_from (t ++ [0] ++ join SPACE caps) (zlen t + 1) = join SPACE caps) as ->.
  { rewrite app_assoc. replace (zlen t + 1) with (zlen (t ++ [0])) by by rewrite zlen_app. apply slice_from_app. }
  rewrite slice_0_app, capability_loop_join by (done || rewrite !length_app; lia). cbn [mbind option_bind].
  by destruct (for_items _ _ caps).
Qed.

(** What the client answers for these rows. *)
Definition rows_answer (service : Service) (head : option ServerHead) (rows : list RemoteRef) : Advertisement :=
  mkAdvertisement rows (server_capabilities service head) (symref_head service head).

Definition NO_ROW : RemoteRef := mkRemoteRef NO_REFS ZERO_OID.

(** The packets of the rows: the first carries the capabilities. *)
Definition row_packets (caps : list ustring) (rows : list RemoteRef) : list Pkt :=
  match rows with
  | [] => [text_packet (suffixed caps (row_text NO_ROW))]
  | row :: rows => text_packet (suffixed caps (row_text row)) :: (text_packet ∘ line_text ∘ row_text <$> rows)
  end.

Lemma foldl_push rows : ∀ a,
  foldl push_row a rows = mkAdvert (a_refs a ++ rows) (a_capabilities a) (a_names a ++ (r_name <$> rows)) (a_headRef a)
    (foldl (λ o row, if str_eqb (r_name row) (js "HEAD") then Some (r_oid row) else o) (a_headOid a) rows) (a_first a) (a_entries a + zlen rows).
Proof.
  induction rows as [|row rows IH]; intros a; cbn [foldl]; [destruct a; cbn; by rewrite !app_nil_r, Z.add_0_r|].
  rewrite IH. unfold push_row. cbn. rewrite <- !app_assoc, zlen_cons. f_equal. lia.
Qed.

Lemma advert_rows_read service head limit rows fuel r :
  (∀ h, head = Some h → server_name (h_ref h)) → Forall row_ok rows → NoDup (r_name <$> rows) →
  zlen (server_capabilities service head) + zlen rows <= limit → (S (length (row_packets (server_capabilities service head) rows)) < fuel)%nat →
  holds r (row_packets (server_capabilities service head) rows ++ [flush_packet]) [] →
  ∃ a r', advert_loop fuel service limit advert_start r = Some (Ok (a, true), r') ∧
    a_refs a = rows ∧ a_capabilities a = server_capabilities service head ∧ a_headRef a = symref_head service head ∧
    a_headOid a = foldl (λ o row, if str_eqb (r_name row) (js "HEAD") then Some (r_oid row) else o) None rows.
Proof.
  intros Hh Hok Hnd Hl Hf Hr. set (caps := server_capabilities service head) in *. destruct fuel as [|fuel]; [lia|].
  pose proof (zlen_nonneg rows) as Hz. cbn [advert_loop].
  pose proof (capabilities_read service head limit (mkAdvert [] [] [] None None false 0) Hh eq_refl eq_refl) as Hcaps. fold caps in Hcaps. cbn [a_entries] in Hcaps.
  assert (∀ t, text_ok t → list.head t ≠ Some 0xfeff → t ≠ [] → 0 ∉ t →
     advert_line service limit advert_start (encode (suffixed caps t)) =
       Some (advert_row service limit (with_capabilities (mkAdvert [] [] [] None None false 0) caps (symref_head service head)) t)) as Hfirst.
  { intros t ? ? ? ?. rewrite advert_line_first; [|done..|by apply server_texts|by apply server_tokens]. cbn [advert_start a_refs a_capabilities a_names a_headRef a_headOid a_entries].
    rewrite Hcaps by lia. done. }
  destruct rows as [|row rows]; cbn [row_packets app] in Hr; destruct (read_next _ _ _ _ Hr) as (r1 & Hp & Hr1 & _); proceed_by Hp; cbn [kind text_packet payload].
  - rewrite Hfirst; [|by apply text_ok_ascii, ascii_decided|done|done|exact (bool_decide_eq_true_1 (0 ∉ row_text NO_ROW) eq_refl)].
    edestruct (advert_row_none service limit) as (names & Hrow); [|rewrite Hrow]; [done|].
    destruct (read_next _ _ _ _ Hr1) as (r2 & Hp2 & _). destruct fuel as [|fuel]; [cbn in Hf; lia|].
    eexists _, r2. split; [unfold mbind at 1, process_bind, p_pure; cbn [advert_loop]; proceed_by Hp2; reflexivity|split_and!; reflexivity].
  - apply Forall_cons in Hok as [Hrow Hok]. rewrite Hfirst.
    2:{ by apply row_text_ok. }
    2:{ unfold row_text. intros H. apply oid_head in H; [lia|apply Hrow]. }
    2:{ unfold row_text. by destruct (r_oid row). }
    2:{ by apply row_no_nul. }
    rewrite zlen_cons in Hl. rewrite fmap_cons in Hnd. apply NoDup_cons in Hnd as [Hfresh Hnd].
    rewrite advert_row_ok; [|done|cbn; apply not_elem_of_nil|cbn; pose proof (zlen_nonneg rows); lia].
    set (a1 := push_row _ row). destruct (advert_loop_rows service limit rows fuel a1 r1) as (r' & Hloop); [done| |done|cbn; lia| |done|].
    { unfold rows_fresh. cbn. by apply NoDup_cons. }
    { cbn [row_packets length] in Hf. rewrite length_fmap in Hf. lia. }
    exists (foldl push_row a1 rows), r'. split; [unfold mbind at 1, process_bind, p_pure; exact Hloop|]. rewrite foldl_push. split_and!; reflexivity.
Qed.

(** * What the server writes *)

Lemma then_yields_inv {A B} (o : outcome A) (k : A → yields B) fs : then_yields o k = mkYields fs (Ok tt) → ∃ a, o = Ok a ∧ k a = mkYields fs (Ok tt).
Proof. destruct o as [a|e]; [by exists a|done]. Qed.

Lemma yield_pkt_inv t rest fs :
  yield_pkt t rest = mkYields fs (Ok tt) → fits (text_packet t) ∧ ∃ fs', rest = mkYields fs' (Ok tt) ∧ fs = wire_of (text_packet t) :: fs'.
Proof.
  intros (frame & Hf & Hy)%then_yields_inv. apply pkt_text_ok in Hf as [Hf ->]. split; [done|]. destruct rest as [l e]. injection Hy as <- ->. by exists l.
Qed.

Definition peeled_rows (upload : bool) (ref : ServerAdvertisedRef) : list RemoteRef :=
  match peeledOid ref with Some oid => if upload then [mkRemoteRef (s_name ref ++ js "^{}") oid] else [] | None => [] end.

Definition ref_rows (upload : bool) (ref : ServerAdvertisedRef) : list RemoteRef := mkRemoteRef (s_name ref) (s_oid ref) :: peeled_rows upload ref.

Definition checked_ref (head : option ServerHead) (ref : ServerAdvertisedRef) : Prop :=
  server_name (s_name ref) ∧ isOid (s_oid ref) = true ∧ (∀ h, head = Some h → s_name ref = h_ref h → h_oid h = Some (s_oid ref)) ∧
  ∀ oid, peeledOid ref = Some oid → startsWith (s_name ref) (js "refs/tags/") = true ∧ isOid oid = true.

Lemma check_ref_ok head previous ref :
  units (s_name ref) → check_ref head previous ref = Ok tt →
  server_name (s_name ref) ∧ isOid (s_oid ref) = true ∧ (∀ h, head = Some h → s_name ref = h_ref h → h_oid h = Some (s_oid ref)) ∧
  ∀ p, previous = Some p → path_lt p (s_name ref).
Proof.
  intros Hu. unfold check_ref. intros ([] & Hn & H)%bind_ok_inv. apply bind_ok_inv in H as ([] & Ho & H). apply bind_ok_inv in H as ([] & Hp & H).
  apply requireServerRef_ok in Hn; [|done]. apply requireServerOid_ok in Ho as [Ho _]. split_and!; [done|done| |].
  - intros h -> E. unfold throw_if, str_eqb in H. rewrite bool_decide_eq_true_2 in H by done. case_bool_decide; done.
  - intros p ->. unfold throw_if in Hp. destruct (0 <=? _) eqn:E; [done|]. zbool. unfold path_lt. lia.
Qed.

Lemma check_peeled_ok ref oid : check_peeled ref oid = Ok tt → startsWith (s_name ref) (js "refs/tags/") = true ∧ isOid oid = true.
Proof.
  unfold check_peeled, throw_if. intros ([] & H1 & H2)%bind_ok_inv. destruct (startsWith _ _); [|done]. by apply requireServerOid_ok in H2 as [? _].
Qed.

(** The packets of the rows of refs. *)
Definition refs_packets (upload first : bool) (caps : list ustring) (refs : list ServerAdvertisedRef) : list Pkt :=
  match mjoin (ref_rows upload <$> refs) with
  | [] => []
  | row :: rows => text_packet (row_text row ++ capability_suffix first caps ++ NEWLINE) :: (text_packet ∘ line_text ∘ row_text <$> rows)
  end.

Lemma refs_packets_later upload caps refs :
  refs_packets upload false caps refs = text_packet ∘ line_text ∘ row_text <$> mjoin (ref_rows upload <$> refs).
Proof. unfold refs_packets. destruct (mjoin _) as [|row rows]; [done|]. rewrite fmap_cons. done. Qed.

Lemma encode_refs_inv upload head caps refs tail : ∀ first previous fs,
  Forall (λ ref, units (s_name ref)) refs →
  encode_refs upload head caps first previous refs tail = mkYields fs (Ok tt) →
  Forall (checked_ref head) refs ∧ (∀ p, previous = Some p → units p → Forall (path_lt p) (s_name <$> refs)) ∧ StronglySorted path_lt (s_name <$> refs) ∧
  Forall fits (refs_packets upload first caps refs) ∧
  ∃ fs', tail (first && bool_decide (refs = [])) = mkYields fs' (Ok tt) ∧ fs = (wire_of <$> refs_packets upload first caps refs) ++ fs'.
Proof.
  induction refs as [|ref refs IH]; intros first previous fs Hu; cbn [encode_refs].
  { intros Ht. split_and!; [constructor|constructor|constructor|constructor|]. exists fs. by rewrite bool_decide_eq_true_2, andb_true_r. }
  apply Forall_cons in Hu as [Hu1 Hu]. intros ([] & Hc & H)%then_yields_inv. apply check_ref_ok in Hc as (Hn & Ho & Hh & Hp); [|done].
  apply yield_pkt_inv in H as (Hfit & fs1 & H & ->).
  assert (∃ fs2, encode_refs upload head caps false (Some (s_name ref)) refs tail = mkYields fs2 (Ok tt) ∧
    (∀ oid, peeledOid ref = Some oid → startsWith (s_name ref) (js "refs/tags/") = true ∧ isOid oid = true) ∧
    Forall fits (text_packet ∘ line_text ∘ row_text <$> peeled_rows upload ref) ∧
    fs1 = (wire_of <$> (text_packet ∘ line_text ∘ row_text <$> peeled_rows upload ref)) ++ fs2) as (fs2 & Hrest & Hpeel & Hpf & ->).
  { unfold peeled_rows. destruct (peeledOid ref) as [oid|]; [|exists fs1; split_and!; try done; constructor].
    apply then_yields_inv in H as ([] & Hcp & H). apply check_peeled_ok in Hcp.
    assert (∀ oid', Some oid = Some oid' → startsWith (s_name ref) (js "refs/tags/") = true ∧ isOid oid' = true) as Hcp' by (by intros ? [= <-]).
    destruct upload; [|exists fs1; split_and!; try done; constructor].
    apply yield_pkt_inv in H as (Hf2 & fs2 & H & ->). exists fs2.
    assert (row_text (mkRemoteRef (s_name ref ++ js "^{}") oid) = oid ++ js " " ++ s_name ref ++ js "^{}") as Er by done.
    cbn [fmap list_fmap]. unfold compose. rewrite Er. unfold line_text. rewrite <- !app_assoc.
    split_and!; [done|done|by apply Forall_singleton|done]. }
  destruct (IH false (Some (s_name ref)) fs2 Hu Hrest) as (Hchk & Hlt & Hsorted & Hfits & fs' & Htail & ->).
  specialize (Hlt _ eq_refl Hu1). rewrite andb_false_l in Htail.
  assert (refs_packets upload first caps (ref :: refs) =
    text_packet (row_text (mkRemoteRef (s_name ref) (s_oid ref)) ++ capability_suffix first caps ++ NEWLINE) ::
      (text_packet ∘ line_text ∘ row_text <$> peeled_rows upload ref) ++ refs_packets upload false caps refs) as Epk.
  { rewrite refs_packets_later. unfold refs_packets. rewrite fmap_cons, mjoin_cons. cbn [ref_rows app]. by rewrite fmap_app. }
  assert (row_text (mkRemoteRef (s_name ref) (s_oid ref)) ++ capability_suffix first caps ++ NEWLINE =
    s_oid ref ++ js " " ++ s_name ref ++ capability_suffix first caps ++ NEWLINE) as Ert by (unfold row_text; by rewrite <- app_assoc).
  rewrite Epk, Ert. split_and!.
  - constructor; [|done]. by split_and!.
  - intros p Hpe Hup. rewrite fmap_cons. constructor; [by apply Hp|]. rewrite Forall_fmap in Hlt |- *.
    rewrite Forall_forall in *. intros ref' Hin. apply (path_lt_trans p (s_name ref)); [done|done|by apply Hu|by apply Hp|exact (Hlt ref' Hin)].
  - rewrite fmap_cons. by constructor.
  - constructor; [exact Hfit|]. by apply Forall_app.
  - exists fs'. rewrite bool_decide_eq_false_2, andb_false_r by done. split; [done|]. rewrite fmap_cons, <- app_comm_cons, (fmap_app wire_of), <- app_assoc. reflexivity.
Qed.

(** Every row the server writes. *)
Definition head_rows (upload : bool) (head : option ServerHead) : list RemoteRef :=
  match (if upload then head ≫= h_oid else None) with Some oid => [mkRemoteRef (js "HEAD") oid] | None => [] end.

Definition server_rows (service : Service) (adv : ServerAdvertisement) : list RemoteRef :=
  let upload := bool_decide (service = git_upload_pack) in
  head_rows upload (s_head adv) ++ mjoin (ref_rows upload <$> s_refs adv).

(** The strings of an advertisement are made of code units. *)
Definition advertisement_units (adv : ServerAdvertisement) : Prop :=
  Forall (λ ref, units (s_name ref)) (s_refs adv) ∧ ∀ h, s_head adv = Some h → units (h_ref h).

Definition service_packet (service : Service) : Pkt := text_packet (js "# service=" ++ service_name service ++ NEWLINE).

Lemma row_packets_app upload caps row refs :
  row_packets caps (row :: mjoin (ref_rows upload <$> refs)) = text_packet (row_text row ++ capability_suffix true caps ++ NEWLINE) :: refs_packets upload false caps refs.
Proof.
  cbn [row_packets]. rewrite refs_packets_later. unfold suffixed, line_text, capability_suffix. by rewrite <- app_assoc.
Qed.

Lemma check_head_ok head :
  (∀ h, head = Some h → units (h_ref h)) → check_head head = Ok tt →
  ∀ h, head = Some h → server_name (h_ref h) ∧ ∀ oid, h_oid h = Some oid → isOid oid = true.
Proof.
  intros Hu Hc h ->. unfold check_head in Hc. apply bind_ok_inv in Hc as ([] & Hr & Hc). apply requireServerRef_ok in Hr; [|by apply Hu].
  split; [done|]. intros oid Ho. rewrite Ho in Hc. destruct (negb _); [done|]. by apply requireServerOid_ok in Hc as [? _].
Qed.

Lemma encodeAdvertisement_inv service adv frames :
  advertisement_units adv → encodeAdvertisement service adv = mkYields frames (Ok tt) →
  let rows := server_rows service adv in
  let packets := [service_packet service; flush_packet] ++ row_packets (server_capabilities service (s_head adv)) rows ++ [flush_packet] in
  Forall (checked_ref (s_head adv)) (s_refs adv) ∧ StronglySorted path_lt (s_name <$> s_refs adv) ∧
  (∀ h, s_head adv = Some h → server_name (h_ref h) ∧ ∀ oid, h_oid h = Some oid → isOid oid = true) ∧
  Forall fits packets ∧ frames = wire_of <$> packets.
Proof.
  intros [Hu Hh] H. unfold encodeAdvertisement in H. apply then_yields_inv in H as ([] & Hc & H). pose proof (check_head_ok _ Hh Hc) as Hhead.
  apply yield_pkt_inv in H as (Hf1 & fs1 & H & ->). set (caps := server_capabilities service (s_head adv)) in *. set (upload := bool_decide (service = git_upload_pack)) in *.
  unfold server_rows. fold upload. unfold head_rows.
  set (end_ := yielding FLUSH (mkYields [] (Ok tt))) in H.
  assert (end_ = mkYields [wire_of flush_packet] (Ok tt)) as Eend by done.
  set (tail0 := λ first : bool, if first then yield_pkt (ZERO_OID ++ js " capabilities^{}" ++ capability_suffix true caps ++ NEWLINE) end_ else end_) in H.
  assert (∀ y fs, yielding FLUSH y = mkYields fs (Ok tt) → ∃ fs', y = mkYields fs' (Ok tt) ∧ fs = wire_of flush_packet :: fs') as Hflush.
  { intros [l e] fs E. injection E as <- ->. by exists l. }
  apply Hflush in H as (fs2 & H & ->).
  assert (∀ refs first fs, Forall (λ ref, units (s_name ref)) refs → encode_refs upload (s_head adv) caps first None refs tail0 = mkYields fs (Ok tt) →
     Forall (checked_ref (s_head adv)) refs ∧ StronglySorted path_lt (s_name <$> refs) ∧
     let packets := (if first then row_packets caps (mjoin (ref_rows upload <$> refs)) else refs_packets upload false caps refs) ++ [flush_packet] in
     Forall fits packets ∧ fs = wire_of <$> packets) as Hrefs.
  { clear H. intros refs first fs Hur Hr. apply encode_refs_inv in Hr as (Hchk & _ & Hs & Hfit & fs' & Ht & ->); [|done]. split; [done|]. split; [done|]. cbv zeta.
    destruct first; [|unfold tail0 in Ht; rewrite Eend in Ht; injection Ht as <-].
    - rewrite andb_true_l in Ht. destruct refs as [|ref refs].
      + rewrite bool_decide_eq_true_2 in Ht by done. apply yield_pkt_inv in Ht as (Hfr & fs'' & E & ->). rewrite Eend in E. injection E as <-.
        assert (ZERO_OID ++ js " capabilities^{}" ++ capability_suffix true caps ++ NEWLINE = suffixed caps (row_text NO_ROW)) as Es
          by (unfold suffixed, line_text, row_text, capability_suffix; rewrite <- !app_assoc; done).
        rewrite Es in *. split; [by repeat constructor|done].
      + rewrite bool_decide_eq_false_2 in Ht by done. unfold tail0 in Ht. rewrite Eend in Ht. injection Ht as <-.
        assert (refs_packets upload true caps (ref :: refs) = row_packets caps (mjoin (ref_rows upload <$> ref :: refs))) as <-.
        { unfold refs_packets. rewrite fmap_cons, mjoin_cons. cbn [ref_rows app row_packets]. unfold suffixed, line_text, capability_suffix. by rewrite <- app_assoc. }
        split; [apply Forall_app; split; [done|by repeat constructor]|by rewrite fmap_app].
    - split; [apply Forall_app; split; [done|by repeat constructor]|by rewrite fmap_app]. }
  assert (Forall (checked_ref (s_head adv)) (s_refs adv) ∧ StronglySorted path_lt (s_name <$> s_refs adv) ∧
    let packets := row_packets caps (head_rows upload (s_head adv) ++ mjoin (ref_rows upload <$> s_refs adv)) ++ [flush_packet] in
    Forall fits packets ∧ fs2 = wire_of <$> packets) as (Hchk & Hsort & Hfit & ->).
  { unfold head_rows. destruct upload; [|by apply (Hrefs (s_refs adv) true)]. destruct (s_head adv) as [h|] eqn:Eh; [|by apply (Hrefs (s_refs adv) true)].
    cbn [mbind option_bind] in *. destruct (h_oid h) as [oid|]; [|by apply (Hrefs (s_refs adv) true)]. cbn [fmap option_fmap option_map] in H.
    apply yield_pkt_inv in H as (Hfr & fs3 & H & ->). apply Hrefs in H as (? & ? & Hf3 & ->); [|done]. split; [done|]. split; [done|]. cbv zeta in *.
    cbn [app]. rewrite row_packets_app.
    assert (row_text (mkRemoteRef (js "HEAD") oid) ++ capability_suffix true caps ++ NEWLINE = oid ++ js " HEAD" ++ capability_suffix true caps ++ NEWLINE) as Es
      by (unfold row_text; rewrite <- app_assoc; done).
    rewrite Es. split; [by constructor|done]. }
  split_and!; [done|done|done| |].
  - constructor; [exact Hf1|]. constructor; [done|]. exact Hfit.
  - reflexivity.
Qed.

(** ** The rows are such as the client accepts *)

Lemma name_not_HEAD name : server_name name → name ≠ js "HEAD".
Proof. intros Hn ->. by pose proof (name_refs _ Hn). Qed.

Lemma ref_rows_ok upload head ref : checked_ref head ref → Forall row_ok (ref_rows upload ref).
Proof.
  intros (Hn & Ho & _ & Hp). unfold ref_rows. constructor; [split; [done|by apply advertised_name]|].
  unfold peeled_rows. destruct (peeledOid ref) as [oid|]; [|done]. destruct upload; [|done]. destruct (Hp oid eq_refl).
  apply Forall_singleton. split; [done|by apply advertised_peeled].
Qed.

Lemma ref_rows_names upload refs x :
  x ∈ r_name <$> mjoin (ref_rows upload <$> refs) → ∃ ref, ref ∈ refs ∧ (x = s_name ref ∨ x = s_name ref ++ js "^{}").
Proof.
  induction refs as [|ref refs IH]; [by intros ?%elem_of_nil|]. rewrite fmap_cons, mjoin_cons, fmap_app, elem_of_app. intros [Hx|Hx].
  - exists ref. split; [by left|]. unfold ref_rows, peeled_rows in Hx. rewrite fmap_cons in Hx. apply elem_of_cons in Hx as [->|Hx]; [by left|right].
    destruct (peeledOid ref); [|by apply elem_of_nil in Hx]. destruct upload; [|by apply elem_of_nil in Hx]. by apply list_elem_of_singleton in Hx.
  - destruct (IH Hx) as (ref' & ? & ?). exists ref'. split; [by right|done].
Qed.

Lemma refs_names_nodup upload head refs :
  Forall (checked_ref head) refs → StronglySorted path_lt (s_name <$> refs) → NoDup (r_name <$> mjoin (ref_rows upload <$> refs)).
Proof.
  intros Hchk Hs. induction Hchk as [|ref refs Href Hchk IH]; [constructor|]. rewrite fmap_cons in Hs. apply StronglySorted_inv in Hs as [Hs Hlt].
  rewrite fmap_cons, mjoin_cons, fmap_app. destruct Href as (Hn & _). pose proof (name_no_hat _ Hn) as Hhat.
  assert (∀ ref', ref' ∈ refs → server_name (s_name ref') ∧ s_name ref' ≠ s_name ref) as Hother.
  { intros ref' Hin. rewrite Forall_forall in Hchk. destruct (Hchk ref' Hin) as (Hn' & _). split; [done|]. intros E.
    rewrite Forall_forall in Hlt. specialize (Hlt (s_name ref') (list_elem_of_fmap_2 _ _ _ Hin)). rewrite E in Hlt. unfold path_lt in Hlt.
    rewrite comparePaths_refl in Hlt by apply Hn. lia. }
  assert (∀ a b : ustring, 0x5e ∉ a → a ≠ b ++ js "^{}") as Hne.
  { intros a b Ha ->. apply Ha, elem_of_app. right. by left. }
  apply NoDup_app. split_and!; [| |by apply IH].
  - unfold ref_rows, peeled_rows. rewrite fmap_cons. destruct (peeledOid ref); [destruct upload|]; try apply NoDup_singleton.
    apply NoDup_cons. split; [|apply NoDup_singleton]. intros ?%list_elem_of_singleton. by apply (Hne (s_name ref) (s_name ref)).
  - intros x Hx Hx'. apply ref_rows_names in Hx' as (ref' & Hin & Hx'). destruct (Hother ref' Hin) as [Hn' Hneq].
    assert (x = s_name ref ∨ x = s_name ref ++ js "^{}") as Hx0.
    { destruct (ref_rows_names upload [ref] x) as (r0 & ->%list_elem_of_singleton & ?); [|done]. rewrite fmap_cons, mjoin_cons. by rewrite app_nil_r. }
    pose proof (name_no_hat _ Hn') as Hhat'. destruct Hx0 as [->| ->], Hx' as [E|E].
    + by symmetry in E.
    + by apply (Hne _ _ Hhat E).
    + symmetry in E. by apply (Hne _ _ Hhat' E).
    + apply app_inj_2 in E as [E _]; [by symmetry in E|done].
Qed.

Lemma server_rows_ok service adv :
  Forall (checked_ref (s_head adv)) (s_refs adv) → StronglySorted path_lt (s_name <$> s_refs adv) →
  (∀ h, s_head adv = Some h → server_name (h_ref h) ∧ ∀ oid, h_oid h = Some oid → isOid oid = true) →
  Forall row_ok (server_rows service adv) ∧ NoDup (r_name <$> server_rows service adv).
Proof.
  intros Hchk Hs Hhead. unfold server_rows. set (upload := bool_decide _).
  assert (Forall row_ok (mjoin (ref_rows upload <$> s_refs adv))) as Hrows.
  { clear Hs. induction Hchk as [|ref refs Href _ IH]; [constructor|]. rewrite fmap_cons, mjoin_cons. apply Forall_app.
    split; [by apply (ref_rows_ok _ (s_head adv))|done]. }
  pose proof (refs_names_nodup upload _ _ Hchk Hs) as Hnd. unfold head_rows.
  destruct (if upload then _ else None) as [oid|] eqn:E; [|done]. destruct upload; [|done].
  destruct (s_head adv) as [h|] eqn:Eh; [|done]. cbn in E. destruct (Hhead h eq_refl) as [Hn Ho]. split.
  - constructor; [|done]. split; [by apply Ho|apply advertised_HEAD].
  - cbn [app]. rewrite fmap_cons. apply NoDup_cons. split; [|done]. intros Hx. apply ref_rows_names in Hx as (ref & Hin & Hx). cbn [r_name] in Hx.
    rewrite Forall_forall in Hchk. destruct (Hchk ref Hin) as (Hnr & _). destruct Hx as [Hx|Hx].
    + by apply (name_not_HEAD (s_name ref)).
    + pose proof (name_refs _ Hnr) as Hr. apply startsWith_spec in Hr as [k Hk]. rewrite Hk in Hx. done.
Qed.

(** The object the client takes for HEAD is the one of the row of that name, which agrees with
    its branch. *)
Lemma finish_ok service adv :
  Forall (checked_ref (s_head adv)) (s_refs adv) → StronglySorted path_lt (s_name <$> s_refs adv) →
  (∀ h, s_head adv = Some h → server_name (h_ref h) ∧ ∀ oid, h_oid h = Some oid → isOid oid = true) →
  ∀ a, a_refs a = server_rows service adv → a_capabilities a = server_capabilities service (s_head adv) → a_headRef a = symref_head service (s_head adv) →
  a_headOid a = foldl (λ o row, if str_eqb (r_name row) (js "HEAD") then Some (r_oid row) else o) None (server_rows service adv) →
  finish_advert a true = Ok (rows_answer service (s_head adv) (server_rows service adv)).
Proof.
  intros Hchk Hs Hhead a Hrefs Hcaps Href Hoid. unfold finish_advert, rows_answer. cbn [negb]. rewrite Hrefs, Hcaps, Href.
  destruct service; cbn [symref_head]; [|by destruct (a_headOid a)]. destruct (s_head adv) as [h|] eqn:Eh; cbn [fmap option_fmap option_map]; [|by destruct (a_headOid a)].
  destruct (a_headOid a) as [headOid|]; [|done]. destruct (head (filter _ _)) as [row|] eqn:Ef; cbn [fmap option_fmap option_map]; [|done].
  destruct (Hhead h eq_refl) as [Hn Ho]. assert (row ∈ server_rows git_upload_pack adv ∧ r_name row = h_ref h) as [Hin Hname].
  { assert (row ∈ filter (λ ref, r_name ref = h_ref h) (server_rows git_upload_pack adv)) as [? ?]%list_elem_of_filter; [|done].
    destruct (filter _ _); [done|]. injection Ef as ->. by left. }
  assert (∀ rows o, Forall (λ row, r_name row ≠ js "HEAD") rows → foldl (λ o row, if str_eqb (r_name row) (js "HEAD") then Some (r_oid row) else o) o rows = o) as Hfold.
  { induction rows as [|r0 rows IH]; intros o Hr; [done|]. apply Forall_cons in Hr as [Hr0 Hr]. cbn [foldl]. unfold str_eqb. rewrite bool_decide_eq_false_2 by done. by apply IH. }
  assert (Forall (λ row, r_name row ≠ js "HEAD") (mjoin (ref_rows true <$> s_refs adv))) as Hnh.
  { apply Forall_forall. intros r0 Hr0 E. destruct (ref_rows_names true (s_refs adv) (r_name r0)) as (ref & Hrin & Hx); [by apply list_elem_of_fmap_2|].
    rewrite Forall_forall in Hchk. destruct (Hchk ref Hrin) as (Hnr & _). rewrite E in Hx. destruct Hx as [Hx|Hx]; [by apply (name_not_HEAD (s_name ref))|].
    pose proof (name_refs _ Hnr) as Hr. apply startsWith_spec in Hr as [k Hk]. rewrite Hk in Hx. done. }
  unfold server_rows in Hin, Hoid. change (bool_decide (git_upload_pack = git_upload_pack)) with true in Hin, Hoid. rewrite foldl_app, Hfold in Hoid by done.
  rewrite Eh in Hin, Hoid. unfold head_rows in Hin, Hoid. cbn [mbind option_bind] in Hin, Hoid. destruct (h_oid h) as [oid|] eqn:Eo; cbn in Hoid; [|done]. injection Hoid as <-.
  assert (r_oid row = headOid) as ->; [|by rewrite str_eqb_refl].
  apply elem_of_app in Hin as [Hin|Hin].
  { apply list_elem_of_singleton in Hin as ->. by destruct (name_not_HEAD (h_ref h)). }
  assert (∃ ref, ref ∈ s_refs adv ∧ row ∈ ref_rows true ref) as (ref & Hrin & Hrow).
  { clear -Hin. induction (s_refs adv) as [|ref refs IH]; [by apply elem_of_nil in Hin|]. rewrite fmap_cons, mjoin_cons in Hin. apply elem_of_app in Hin as [?|Hin].
    - exists ref. split; [by left|done].
    - destruct (IH Hin) as (ref' & ? & ?). exists ref'. split; [by right|done]. }
  rewrite Forall_forall in Hchk. destruct (Hchk ref Hrin) as (Hnr & _ & Hagree & _). specialize (Hagree h eq_refl).
  unfold ref_rows in Hrow. apply elem_of_cons in Hrow as [->|Hrow].
  - cbn in Hname. specialize (Hagree Hname). rewrite Eo in Hagree. by injection Hagree as ->.
  - unfold peeled_rows in Hrow. destruct (peeledOid ref); [|by apply elem_of_nil in Hrow]. apply list_elem_of_singleton in Hrow as ->. cbn in Hname.
    exfalso. apply (name_no_hat _ Hn). rewrite <- Hname. apply elem_of_app. right. by left.
Qed.

Lemma service_header service : ownedPktText (service_packet service) = js "# service=" ++ service_name service.
Proof. by destruct service. Qed.

Lemma read_advertisement_ok service adv frames limit chunks :
  advertisement_units adv → encodeAdvertisement service adv = mkYields frames (Ok tt) →
  zlen (server_capabilities service (s_head adv)) + zlen (server_rows service adv) <= limit → mjoin chunks = mjoin frames →
  ∃ r', read_advertisement service limit (new_ByteReader chunks (Ok tt)) =
    Some (Ok (rows_answer service (s_head adv) (server_rows service adv)), r').
Proof.
  intros Hu He Hl Hc. destruct (encodeAdvertisement_inv service adv frames Hu He) as (Hchk & Hs & Hhead & Hfit & ->).
  destruct (server_rows_ok service adv Hchk Hs Hhead) as [Hrows Hnd]. set (rows := server_rows service adv) in *.
  set (caps := server_capabilities service (s_head adv)) in *.
  pose proof (new_reader_holds chunks _ Hfit Hc) as Hh. cbn [app] in Hh. unfold read_advertisement.
  destruct (read_next _ _ _ _ Hh) as (r1 & Hp1 & Hh1 & _). proceed_by Hp1. rewrite bool_decide_eq_true_2 by done. rewrite service_header.
  assert (startsWith (js "# service=" ++ service_name service) (js "ERR ") = false) as -> by done. rewrite startsWith_app. cbn [negb].
  destruct (read_next _ _ _ _ Hh1) as (r2 & Hp2 & Hh2 & _). proceed_by Hp2. unfold flush_packet. cbv iota. unfold parseAdvertisement.
  destruct (advert_rows_read service (s_head adv) limit rows (reader_fuel r2) r2) as (a & r3 & Hloop & Ha1 & Ha2 & Ha3 & Ha4); try done.
  { intros h Hh'. by apply Hhead. }
  { pose proof (holds_fuel _ _ _ Hh2) as Hf. rewrite length_app in Hf. cbn in Hf. fold caps. lia. }
  assert (p_fueled reader_fuel (λ fuel, advert_loop fuel service limit advert_start) r2 = Some (Ok (a, true), r3)) as Hl' by done.
  proceed_by Hl'. exists r3. unfold p_lift. by rewrite (finish_ok service adv).
Qed.

(** C16: the two ends of the protocol agree on references.  If the server can advertise them
    (canonical names in order, valid object names, a head that agrees with its branch), a client
    that asks for the same service and receives those bytes, cut into chunks anywhere, with as
    many entries as its limit allows, answers exactly what was advertised: HEAD and every
    reference in order, with the peeled tags for a fetch, the capabilities, and the branch of
    HEAD for a fetch. *)
Theorem advertisement_roundtrip service adv frames requestWithAuth aborted entries limit url base chunks statusText :
  advertisement_units adv → encodeAdvertisement service adv = mkYields frames (Ok tt) → mjoin chunks = mjoin frames →
  normalizeRemoteUrl url = Ok base → resolvedProtocolEntryLimit entries = Ok limit →
  zlen (server_capabilities service (s_head adv)) + zlen (server_rows service adv) <= limit →
  requestWithAuth (base ++ js "/info/refs?service=" ++ service_name service) =
    Ok (mkResponse 200 statusText (Some (js "application/x-" ++ service_name service ++ js "-advertisement")) (mkYields chunks (Ok tt))) →
  discover requestWithAuth aborted entries url service = Some (Ok (rows_answer service (s_head adv) (server_rows service adv))).
Proof.
  intros Hu He Hc Hbase Hlimit Hl Hreq. unfold discover. rewrite Hlimit, Hbase. cbn [mbind outcome_bind]. rewrite Hreq. cbn [mbind outcome_bind status].
  change (200 =? 200) with true. cbn [negb content_type default from_option].
  assert (startsWith (trim (default [] (head (split 0x3b (js "application/x-" ++ service_name service ++ js "-advertisement")))))
            (js "application/x-" ++ service_name service ++ js "-advertisement") = true) as Hm by (by destruct service; vm_compute).
  cbn [default from_option] in Hm. unfold id in *. rewrite Hm. cbn [negb body items ending].
  destruct (read_advertisement_ok service adv frames limit chunks Hu He Hl Hc) as (r' & Hr).
  destruct (finally_release _ _ _ _ Hr) as (r'' & ->). done.
Qed.

Definition example_advertisement : ServerAdvertisement :=
  mkServerAdvertisement
    [mkServerRef (js "refs/heads/main") (replicate 40 0x61) None; mkServerRef (js "refs/tags/v1") (replicate 40 0x62) (Some (replicate 40 0x61))]
    (Some (mkHead (js "refs/heads/main") (Some (replicate 40 0x61)))).

Lemma advertisement_roundtrip_witness :
  let chunks := (λ b, [b]) <$> mjoin (items (encodeAdvertisement git_upload_pack example_advertisement)) in
  let answer := mkResponse 200 [] (Some (js "application/x-git-upload-pack-advertisement")) (mkYields chunks (Ok tt)) in
  discover (λ _, Ok answer) false None (js "https://host/repo/") git_upload_pack =
    Some (Ok (rows_answer git_upload_pack (s_head example_advertisement) (server_rows git_upload_pack example_advertisement))).
Proof.
  intros chunks answer.
  apply (advertisement_roundtrip git_upload_pack example_advertisement (items (encodeAdvertisement git_upload_pack example_advertisement))
           (λ _, Ok answer) false None MAX_PROTOCOL_NEGOTIATION_ENTRIES (js "https://host/repo/") (js "https://host/repo") chunks []).
  - split; [repeat (apply Forall_cons_2; [by apply units_by_compute|]); by apply Forall_nil_2|]. intros h [= <-]. by apply units_by_compute.
  - vm_compute. reflexivity.
  - vm_compute. reflexivity.
  - vm_compute. reflexivity.
  - reflexivity.
  - vm_compute. discriminate.
  - reflexivity.
Defined.

Example example_rows_named :
  r_name <$> server_rows git_upload_pack example_advertisement = [js "HEAD"; js "refs/heads/main"; js "refs/tags/v1"; js "refs/tags/v1^{}"].
Proof. reflexivity. Qed.
