(* ===== verification/ReceivePack.v ===== *)
(** Push requests: the client's src/packages/git/src/protocol/receive-pack-request.ts (with the
    types of receive-pack-types.ts) and the server's protocol/server/receive-request.ts. *)

From S2P Require Import Prelude Utf8 Text Bytes Objects RefName JsMap Process PktLine Protocol RemoteRefs.

Definition MAX_RECEIVE_PACK_COMMANDS : Z := 1024.
Definition MAX_PUSH_OPTIONS : Z := 64.
Definition MAX_RECEIVE_PACK_STATUS_PACKETS : Z := 16384.

Record ReceivePackCommand := mkCommand { oldOid : ustring; newOid : ustring; ref : ustring }.

#[export] Instance ReceivePackCommand_eq_dec : EqDecision ReceivePackCommand.
Proof. solve_decision. Defined.

(** * What a caller gives

    The code checks at run time what the types promise: a field may be missing, or hold a value
    of another type. *)
Inductive field (A : Type) := absent | misfit | given (a : A).
Arguments absent {A}.
Arguments misfit {A}.
Arguments given {A} a.

(** A command that is an object; a field that is no string is [None]. *)
Record CommandInput := mkInput { in_oldOid : option ustring; in_newOid : option ustring; in_ref : option ustring }.

Record ReceivePackRequest := mkRequest {
  commands : field (list (option CommandInput)); advertised_set : jsset; atomic : field bool;
  pushOptions : field (list (option ustring)); pack : field (yields bytes);
  onProgress : field (ustring → outcome unit); onMessage : field (ustring → outcome unit)
}.

Record PreparedRequest := mkPrepared {
  p_commands : list ReceivePackCommand; commandFrames : list bytes; optionFrames : list bytes;
  hasNonDeletion : bool; sideband : bool; p_atomic : bool;
  p_pack : option (yields bytes); p_onProgress : option (ustring → outcome unit); p_onMessage : option (ustring → outcome unit)
}.

Definition field_option {A} (f : field A) : option A := match f with given a => Some a | _ => None end.

(** [array.entries()]. *)
Definition entries_of {A} (l : list A) : list (Z * A) := zip (seqZ 0 (zlen l)) l.

(** * The client *)

Definition requireBranchRef (ref : ustring) : outcome ustring :=
  if negb (bool_decide (problem (checkRefText ref None) = None)) || negb (startsWith ref (js "refs/heads/")) ||
     (zlen ref =? zlen (js "refs/heads/")) || negb (hasCanonicalRefSyntax ref 0 (zlen ref))
  then Throw (GitError (js "EINVALIDREF") (js "invalid branch ref " ++ ref))
  else Ok ref.

Definition command_error (code : string) (index : Z) (message : string) : jserror :=
  GitError (js code) (js "receive-pack command " ++ number_string index ++ js message).

Definition validateCommand (command : option CommandInput) (index : Z) : outcome ReceivePackCommand :=
  match command with
  | None => Throw (command_error "EINVAL" index " must be an object")
  | Some command =>
      match in_oldOid command, in_newOid command with
      | Some oldOid, Some newOid =>
          if negb (isOid oldOid) || negb (isOid newOid) then Throw (command_error "EINVAL" index " has an invalid object id")
          else
            match in_ref command with
            | None => Throw (command_error "EINVALIDREF" index " ref must be a string")
            | Some ref =>
                if negb (bool_decide (problem (checkRefText ref None) = None)) || negb (startsWith ref (js "refs/")) ||
                   (zlen ref =? zlen (js "refs/")) || negb (hasCanonicalRefSyntax ref 0 (zlen ref))
                then Throw (GitError (js "EINVALIDREF") (js "invalid receive-pack destination " ++ ref))
                else Ok (mkCommand oldOid newOid ref)
            end
      | _, _ => Throw (command_error "EINVAL" index " object ids must be strings")
      end
  end.

Definition option_within (bytes : Z) : outcome Z :=
  if MAX_PKT_PAYLOAD_BYTES <? bytes then Throw (GitErr "E2BIG" "push option exceeds the pkt-line payload limit") else Ok bytes.

(** The loop of [pushOptionBytes] over the units that are left. *)
Fixpoint push_option_loop (bytes : Z) (option : ustring) : outcome Z :=
  match option with
  | [] => Ok bytes
  | unit :: option =>
      if (unit =? 0) || (unit =? 0x0a) then Throw (GitErr "EINVAL" "push option contains invalid text")
      else if is_high unit then
        match option with
        | low :: option =>
            if is_low low then bytes ← option_within (bytes + 4); push_option_loop bytes option
            else Throw (GitErr "EINVAL" "push option contains malformed UTF-16")
        | [] => Throw (GitErr "EINVAL" "push option contains malformed UTF-16")
        end
      else if is_low unit then Throw (GitErr "EINVAL" "push option contains malformed UTF-16")
      else bytes ← option_within (bytes + (if unit <? 0x80 then 1 else if unit <? 0x800 then 2 else 3)); push_option_loop bytes option
  end.
Definition pushOptionBytes (option : ustring) : outcome Z := push_option_loop 0 option.

(** [error.code === code] of an error. *)
Definition hasErrorCode (e : jserror) (code : string) : bool :=
  match e with GitError c _ => str_eqb c (js code) | _ => false end.

Definition option_error (code : string) (index : Z) (message : string) : jserror :=
  GitError (js code) (js "push option " ++ number_string index ++ js message).

Definition validatePushOption (option : option ustring) (index : Z) : outcome Z :=
  match option with
  | None => Throw (option_error "EINVAL" index " must be a string")
  | Some option =>
      match pushOptionBytes option with
      | Ok bytes => Ok bytes
      | Throw cause =>
          if hasErrorCode cause "E2BIG" then Throw (option_error "E2BIG" index " exceeds the pkt-line payload limit")
          else Throw (option_error "EINVAL" index " contains invalid text")
      end
  end.

Definition validatePushOptionList (pushOptions : field (list (option ustring))) : outcome unit :=
  match pushOptions with
  | absent => Ok tt
  | misfit => Throw (GitErr "EINVAL" "receive-pack push options must be an array")
  | given options =>
      if MAX_PUSH_OPTIONS <? zlen options
      then Throw (GitError (js "E2BIG") (js "push option count exceeds " ++ number_string MAX_PUSH_OPTIONS)) else Ok tt
  end.

Definition validatePushOptions (pushOptions : field (list (option ustring))) : outcome (list Z) :=
  _ ← validatePushOptionList pushOptions;
  match pushOptions with
  | given options =>
      for_items (λ optionBytes '(index, option), bytes ← validatePushOption option index; Ok (optionBytes ++ [bytes])) [] (entries_of options)
  | _ => Ok []
  end.

Definition requireCapability (advertised : jsset) (capability : ustring) : outcome unit :=
  if negb (bool_decide (capability ∈ advertised))
  then Throw (GitError (js "EUNSUPPORTED") (js "remote does not support receive-pack " ++ capability)) else Ok tt.

(** What the loop over the commands keeps. *)
Record Destinations := mkDestinations { d_commands : list ReceivePackCommand; destinations : jsset; deleting : bool; nonDeletion : bool }.

Definition prepare_command (d : Destinations) (entry : Z * option CommandInput) : outcome Destinations :=
  command ← validateCommand (snd entry) (fst entry);
  if bool_decide (ref command ∈ destinations d)
  then Throw (GitError (js "EINVAL") (js "duplicate receive-pack destination " ++ ref command))
  else
    let deletes := str_eqb (newOid command) ZERO_OID in
    Ok (mkDestinations (d_commands d ++ [command]) (set_add (destinations d) (ref command)) (deleting d || deletes)
          (nonDeletion d || negb deletes)).

Definition command_text (command : ReceivePackCommand) (suffix : ustring) : ustring :=
  oldOid command ++ js " " ++ newOid command ++ js " " ++ ref command ++ suffix ++ [0x0a].

Definition command_frame (capabilities : list ustring) (frames : list bytes) (entry : Z * ReceivePackCommand) : outcome (list bytes) :=
  let '(index, command) := entry in
  let suffix := if index =? 0 then 0 :: join SPACE capabilities else [] in
  let refBytes := bytes_of (checkRefText (ref command) None) in
  let payloadBytes := 40 + 1 + 40 + 1 + refBytes + zlen (encode suffix) + 1 in
  if MAX_PKT_PAYLOAD_BYTES <? payloadBytes then Throw (command_error "E2BIG" index " exceeds the pkt-line payload limit")
  else frame ← pkt_text (command_text command suffix); Ok (frames ++ [frame]).

(** The checks of [prepareRequest] before its loops. *)
Definition check_request (request : ReceivePackRequest) : outcome (list (option CommandInput)) :=
  match commands request with
  | given ((_ :: _) as commands) =>
      if MAX_RECEIVE_PACK_COMMANDS <? zlen commands
      then Throw (GitError (js "E2BIG") (js "receive-pack command count exceeds " ++ number_string MAX_RECEIVE_PACK_COMMANDS))
      else
        _ ← validatePushOptionList (pushOptions request);
        match atomic request, pack request, onProgress request, onMessage request with
        | misfit, _, _, _ => Throw (GitErr "EINVAL" "receive-pack atomic must be a boolean")
        | _, misfit, _, _ => Throw (GitErr "EINVAL" "receive-pack pack must be a function")
        | _, _, misfit, _ => Throw (GitErr "EINVAL" "receive-pack progress callback must be a function")
        | _, _, _, misfit => Throw (GitErr "EINVAL" "receive-pack message callback must be a function")
        | _, _, _, _ => Ok commands
        end
  | _ => Throw (GitErr "EINVAL" "receive-pack requires at least one command")
  end.

Definition push_capabilities (advertised : jsset) (atomic options : bool) : list ustring :=
  js "report-status" :: (if bool_decide (js "side-band-64k" ∈ advertised) then [js "side-band-64k"] else []) ++
  (if atomic then [js "atomic"] else []) ++ (if options then [js "push-options"] else []).

Definition prepareRequest (request : ReceivePackRequest) : outcome PreparedRequest :=
  inputs ← check_request request;
  let options := default [] (field_option (pushOptions request)) in
  d ← for_items prepare_command (mkDestinations [] [] false false) (entries_of inputs);
  _ ← validatePushOptions (given options);
  let advertised := advertised_set request in
  let atomic := default false (field_option (atomic request)) in
  let hasOptions := 0 <? zlen options in
  _ ← requireCapability advertised (js "report-status");
  _ ← (if deleting d then requireCapability advertised (js "delete-refs") else Ok tt);
  _ ← (if atomic then requireCapability advertised (js "atomic") else Ok tt);
  _ ← (if hasOptions then requireCapability advertised (js "push-options") else Ok tt);
  let capabilities := push_capabilities advertised atomic hasOptions in
  commandFrames ← for_items (command_frame capabilities) [] (entries_of (d_commands d));
  optionFrames ← for_items (λ frames option, frame ← pkt_text (default [] option); Ok (frames ++ [frame])) [] options;
  Ok (mkPrepared (d_commands d) commandFrames optionFrames (nonDeletion d) (bool_decide (js "side-band-64k" ∈ capabilities)) atomic
        (field_option (pack request)) (field_option (onProgress request)) (field_option (onMessage request))).

(** [new LocalPackBodyError(cause)]. *)
Definition LocalPackBodyError : jserror := PlainError (js "local pack generation failed").

(** Frames before a generator goes on. *)
Definition yielding_all {A} (frames : list A) (y : yields A) : yields A := foldr yielding y frames.

Definition pack_body (pack : yields bytes) : yields bytes :=
  mkYields (items pack) (match ending pack with Ok _ => Ok tt | Throw _ => Throw LocalPackBodyError end).

Definition requestBody (prepared : PreparedRequest) (pack : option (yields bytes)) : yields bytes :=
  yielding_all (commandFrames prepared) (yielding FLUSH
  (let body := match pack with
               | Some pack => if negb (hasNonDeletion prepared) then mkYields [] (Ok tt) else pack_body pack
               | None => mkYields [] (Ok tt)
               end in
   if 0 <? zlen (optionFrames prepared) then yielding_all (optionFrames prepared) (yielding FLUSH body) else body)).

(** * The server *)

Record ServerReceiveRequest := mkReceive {
  q_commands : list ReceivePackCommand; reportStatus : bool; q_pack : yields bytes; q_reader : ByteReader
}.

(** What the loop over the commands keeps. *)
Record Receiving := mkReceiving { v_commands : list ReceivePackCommand; v_refs : jsset; v_reportStatus : bool }.

(** The capabilities behind a NUL, and the text before it. *)
Definition receive_capabilities (v : Receiving) (text : ustring) : outcome (bool * ustring) :=
  let nul := indexOf 0 text in
  if 0 <=? nul then
    if negb (zlen (v_commands v) =? 0) then Throw (corrupt_text "receive capabilities occur after the first command")
    else
      capabilities ← parseCapabilities (slice_from text (nul + 1)) RECEIVE_SERVER_CAPABILITIES;
      Ok (bool_decide (js "report-status" ∈ capabilities), slice text 0 nul)
  else Ok (v_reportStatus v, text).

(** The rest of a round: one command. *)
Definition receive_fields (v : Receiving) (reportStatus : bool) (text : ustring) : outcome Receiving :=
  match split SPACE text with
  | [oldOid; newOid; ref] =>
      _ ← requireServerOid oldOid true;
      _ ← requireServerOid newOid true;
      if str_eqb oldOid ZERO_OID && str_eqb newOid ZERO_OID
      then Throw (corrupt_text "receive command cannot both create and delete a ref")
      else
        _ ← requireServerRef ref;
        if bool_decide (ref ∈ v_refs v) then Throw (corrupt_text "duplicate receive destination")
        else Ok (mkReceiving (v_commands v ++ [mkCommand oldOid newOid ref]) (set_add (v_refs v) ref) reportStatus)
  | _ => Throw (corrupt_text "malformed receive command")
  end.

Definition receive_packet (v : Receiving) (packet : Pkt) : outcome Receiving :=
  if zlen (v_commands v) =? MAX_RECEIVE_PACK_COMMANDS
  then Throw (GitErr "E2BIG" "receive commands exceed the bounded publication set")
  else
    text ← serverPacketText packet;
    '(reportStatus, text) ← receive_capabilities v text;
    receive_fields v reportStatus text.

Definition receive_loop (fuel : nat) : reading Receiving :=
  packet_loop fuel (corrupt_text "receive commands ended before flush") (until_flush receive_packet) (mkReceiving [] [] false).

(** [readPack] over the chunks of the reader's rest. *)
Fixpoint read_pack (maxBytes : Z) (acceptsPack : bool) (bytes : Z) (chunks : list (list Z)) (end_ : outcome unit) : yields (list Z) :=
  match chunks with
  | [] => mkYields [] end_
  | chunk :: chunks =>
      if negb acceptsPack then fails (corrupt_text "pack bytes follow a delete-only or empty receive request")
      else if maxBytes - bytes <? zlen chunk then fails (GitErr "E2BIG" "incoming pack exceeds the deployment storage limit")
      else yielding chunk (read_pack maxBytes acceptsPack (bytes + zlen chunk) chunks end_)
  end.
Definition readPack (reader : ByteReader) (maxBytes : Z) (acceptsPack : bool) : yields bytes :=
  read_pack maxBytes acceptsPack 0 (items (rest reader)) (ending (rest reader)).

(** The limit is a number, [None] being one that is no safe integer. *)
Definition parseReceivePackRequest (body : yields bytes) (maxPackBytes : option Z) : option (outcome ServerReceiveRequest) :=
  match maxPackBytes with
  | Some maxPackBytes =>
      if negb (isSafeInteger maxPackBytes) || (maxPackBytes <? 0)
      then Some (Throw (GitErr "EINVAL" "maxPackBytes must be a nonnegative safe integer"))
      else
        fst <$> p_catch
          (v ← p_fueled reader_fuel receive_loop;
           p_gets (λ reader, mkReceive (v_commands v) (v_reportStatus v)
             (readPack reader maxPackBytes (existsb (λ command, negb (str_eqb (newOid command) ZERO_OID)) (v_commands v))) reader))
          (λ e, _ ← releaseReader; p_raise e) (new_ByteReader (items body) (ending body))
  | None => Some (Throw (GitErr "EINVAL" "maxPackBytes must be a nonnegative safe integer"))
  end.
