(* ===== verification/ReceivePackFacts.v ===== *)
(** A push request is received as it was made. *)

From S2P Require Import Prelude Utf8 Text Bytes Objects Streams RefName JsMap Process PktLine PktLineFacts Protocol ProtocolFacts RemoteRefs RemoteRefsFacts ReceivePack.

(** * Entries *)

Definition entries_from {A} (k : Z) (l : list A) : list (Z * A) := zip (seqZ k (zlen l)) l.

Lemma entries_from_cons {A} k (x : A) l : entries_from k (x :: l) = (k, x) :: entries_from (k + 1) l.
Proof.
  unfold entries_from. rewrite zlen_cons. pose proof (zlen_nonneg l). rewrite seqZ_cons by lia. cbn [zip_with].
  by replace (Z.pred (1 + zlen l)) with (zlen l) by lia.
Qed.

(** * What the reader has left *)

Lemma mjoin_nonempty (l : list bytes) : mjoin (filter (λ c, zlen c ≠ 0) l) = mjoin l.
Proof.
  induction l as [|c l IH]; [done|]. rewrite filter_cons. case_decide as Hc; rewrite !mjoin_cons, IH; [done|].
  assert (c = []) as -> by (apply zlen_nil_iff; lia). done.
Qed.

Lemma rest_spec r :
  reader_ok r → returned r = Ok tt → mjoin (items (rest r)) = rest_bytes r ∧ ending (rest r) = source_end r.
Proof.
  intros [Ho Hd Hl Hr] Hret. unfold rest. rewrite Hl, Hr, Hret. cbn [default from_option].
  assert (mjoin (if offset r <? zlen (chunk r) then [slice_from (chunk r) (offset r)] else []) = slice_from (chunk r) (offset r)) as Hfirst.
  { destruct (offset r <? zlen (chunk r)) eqn:E; zbool; [by rewrite mjoin_cons, app_nil_r|]. by rewrite slice_from_end. }
  unfold rest_bytes. destruct (done_ r); cbn [items ending]; [by rewrite Hfirst, app_nil_r, Hd|].
  by rewrite mjoin_app, Hfirst, mjoin_nonempty.
Qed.

Lemma rest_nonempty r : 0 <= offset r → mjoin (items (rest r)) = [] → items (rest r) = [].
Proof.
  intros Ho.
  assert (∀ l : list bytes, Forall (λ c, zlen c ≠ 0) l → mjoin l = [] → l = []) as Hall.
  { intros [|c l] Hl; [done|]. apply Forall_cons in Hl as [Hc _]. rewrite mjoin_cons. intros [-> _]%app_nil. done. }
  intros H. apply Hall; [|done]. clear H. unfold rest. assert (Forall (λ c : bytes, zlen c ≠ 0) (if offset r <? zlen (chunk r) then [slice_from (chunk r) (offset r)] else [])).
  { destruct (offset r <? zlen (chunk r)) eqn:E; zbool; [|constructor]. constructor; [|constructor]. unfold slice_from, zlen in *. rewrite length_drop. lia. }
  destruct (looks r) as [|[] ?]; [|constructor|]; destruct (done_ r); try done; apply Forall_app; (split; [done|]); apply Forall_forall;
    by intros c [? _]%list_elem_of_filter.
Qed.

(** * The requests the client prepares *)

Definition input_of (c : ReceivePackCommand) : option CommandInput := Some (mkInput (Some (oldOid c)) (Some (newOid c)) (Some (ref c))).

Definition is_push (c : ReceivePackCommand) : bool := negb (str_eqb (newOid c) ZERO_OID).

Definition command_oids (c : ReceivePackCommand) : Prop := isOid (oldOid c) = true ∧ isOid (newOid c) = true.

Lemma validateCommand_inv input index c : validateCommand input index = Ok c → input = input_of c ∧ command_oids c.
Proof.
  unfold validateCommand. destruct input as [[[old|] [new|] r]|]; cbn [in_oldOid in_newOid in_ref]; try done.
  destruct (isOid old) eqn:E1, (isOid new) eqn:E2; cbn [negb orb]; try done. destruct r as [r|]; [|done]. destruct (_ || _); [done|].
  by intros [= <-].
Qed.

Lemma prepare_commands_inv inputs : ∀ k d d',
  for_items prepare_command d (entries_from k inputs) = Ok d' →
  ∃ cs, inputs = input_of <$> cs ∧ d_commands d' = d_commands d ++ cs ∧ destinations d' = destinations d ++ (ref <$> cs) ∧
    Forall command_oids cs ∧ (NoDup (destinations d) → NoDup (destinations d')) ∧ nonDeletion d' = nonDeletion d || existsb is_push cs.
Proof.
  induction inputs as [|input inputs IH]; intros k d d'.
  { intros [= <-]. exists []. split_and!; try done; [by rewrite app_nil_r|by rewrite app_nil_r|by rewrite orb_false_r]. }
  rewrite entries_from_cons. cbn [for_items]. intros (d1 & H1 & H)%bind_ok_inv. unfold prepare_command in H1. cbn [fst snd] in H1.
  apply bind_ok_inv in H1 as (c & Hv & H1). apply validateCommand_inv in Hv as [-> Hc]. case_bool_decide as Hin; [done|].
  injection H1 as <-. destruct (IH _ _ _ H) as (cs & -> & E1 & E2 & Hall & Hnd & E3). cbn [d_commands destinations nonDeletion] in *.
  assert (set_add (destinations d) (ref c) = destinations d ++ [ref c]) as Hset by (unfold set_add; by rewrite bool_decide_eq_false_2).
  rewrite Hset in *. exists (c :: cs). split_and!.
  - done.
  - by rewrite E1, <- app_assoc.
  - by rewrite E2, <- app_assoc.
  - by constructor.
  - intros Hd. apply Hnd, NoDup_app. split_and!; [done| |apply NoDup_singleton]. intros x Hx ->%list_elem_of_singleton. done.
  - rewrite E3. cbn [existsb]. unfold is_push at 2. by rewrite orb_assoc.
Qed.

Definition command_packet (suffix : ustring) (c : ReceivePackCommand) : Pkt := text_packet (command_text c suffix).

Definition command_packets (caps : list ustring) (cs : list ReceivePackCommand) : list Pkt :=
  match cs with
  | [] => []
  | c :: cs => command_packet (0 :: join SPACE caps) c :: (command_packet [] <$> cs)
  end.

Lemma command_frame_inv caps frames k c frames' :
  command_frame caps frames (k, c) = Ok frames' →
  let p := command_packet (if k =? 0 then 0 :: join SPACE caps else []) c in fits p ∧ frames' = frames ++ [wire_of p].
Proof.
  unfold command_frame. destruct (_ <? _); [done|]. intros (frame & Hf & H)%bind_ok_inv. apply pkt_text_ok in Hf as [? ->]. by injection H as <-.
Qed.

Lemma command_frames_later caps cs : ∀ k frames frames',
  0 < k → for_items (command_frame caps) frames (entries_from k cs) = Ok frames' →
  Forall fits (command_packet [] <$> cs) ∧ frames' = frames ++ (wire_of <$> (command_packet [] <$> cs)).
Proof.
  induction cs as [|c cs IH]; intros k frames frames' Hk.
  { intros [= <-]. split; [constructor|by rewrite app_nil_r]. }
  rewrite entries_from_cons. cbn [for_items]. intros (f1 & H1 & H)%bind_ok_inv. apply command_frame_inv in H1. rewrite (proj2 (Z.eqb_neq _ _)) in H1 by lia.
  destruct H1 as [Hf ->]. apply IH in H as [Hfs ->]; [|lia]. split; [by constructor|]. by rewrite <- app_assoc.
Qed.

Lemma command_frames_inv caps cs frames :
  for_items (command_frame caps) [] (entries_of cs) = Ok frames → Forall fits (command_packets caps cs) ∧ frames = wire_of <$> command_packets caps cs.
Proof.
  change (entries_of cs) with (entries_from 0 cs). destruct cs as [|c cs]; [by intros [= <-]|]. rewrite entries_from_cons. cbn [for_items].
  intros (f1 & H1 & H)%bind_ok_inv. apply command_frame_inv in H1 as [Hf ->]. apply command_frames_later in H as [Hfs ->]; [|lia].
  split; [by constructor|done].
Qed.

(** What a prepared request is, for a server with the capabilities of this program's. *)
Record prepared_for (request : ReceivePackRequest) (p : PreparedRequest) : Prop := {
  prep_inputs : commands request = given (input_of <$> p_commands p);
  prep_some : p_commands p ≠ [];
  prep_oids : Forall command_oids (p_commands p);
  prep_refs : NoDup (ref <$> p_commands p);
  prep_count : zlen (p_commands p) <= MAX_RECEIVE_PACK_COMMANDS;
  prep_fits : Forall fits (command_packets [js "report-status"] (p_commands p));
  prep_frames : commandFrames p = wire_of <$> command_packets [js "report-status"] (p_commands p);
  prep_options : optionFrames p = [];
  prep_push : hasNonDeletion p = existsb is_push (p_commands p);
  prep_sideband : sideband p = false;
  prep_atomic : p_atomic p = false;
  prep_pack : p_pack p = field_option (pack request)
}.

Lemma check_request_inv request inputs :
  check_request request = Ok inputs → commands request = given inputs ∧ inputs ≠ [] ∧ zlen inputs <= MAX_RECEIVE_PACK_COMMANDS.
Proof.
  unfold check_request. destruct (commands request) as [| |[|input l]]; try done. destruct (_ <? _) eqn:E; [done|]. zbool.
  intros ([] & _ & H)%bind_ok_inv. repeat case_match; simplify_eq; done.
Qed.

Lemma prepareRequest_inv request p :
  advertised_set request = RECEIVE_SERVER_CAPABILITIES → prepareRequest request = Ok p → prepared_for request p.
Proof.
  intros Ha. unfold prepareRequest. rewrite Ha. intros (inputs & Hc & H)%bind_ok_inv. apply check_request_inv in Hc as (Hc & Hne & Hn).
  apply bind_ok_inv in H as (d & Hd & H). apply prepare_commands_inv in Hd as (cs & -> & E1 & E2 & Hall & Hnd & E3). cbn in E1, E2, Hnd, E3.
  apply bind_ok_inv in H as (sizes & _ & H). apply bind_ok_inv in H as ([] & _ & H). apply bind_ok_inv in H as ([] & _ & H).
  apply bind_ok_inv in H as ([] & Hat & H). apply bind_ok_inv in H as ([] & Hop & H).
  destruct (default false _) eqn:Eat; [by vm_compute in Hat|].
  destruct (0 <? zlen (default [] _)) eqn:Eop; [by vm_compute in Hop|].
  assert (push_capabilities RECEIVE_SERVER_CAPABILITIES false false = [js "report-status"]) as Ecaps by reflexivity. rewrite Ecaps in H.
  apply bind_ok_inv in H as (frames & Hf & H). apply command_frames_inv in Hf as [Hfits ->]. zbool.
  assert (default [] (field_option (pushOptions request)) = []) as Eo.
  { destruct (default [] _); [done|]. rewrite zlen_cons in Eop. pose proof (zlen_nonneg l). lia. }
  rewrite Eo in H. cbn [for_items mbind outcome_bind] in H. injection H as <-. rewrite E1 in *. 
  split; cbn [p_commands commandFrames optionFrames hasNonDeletion sideband p_atomic p_pack]; try done.
  - by intros ->.
  - rewrite E2 in Hnd. apply Hnd. constructor.
  - unfold zlen in *. by rewrite length_fmap in Hn.
Qed.

(** * The server reads a request *)

(** What the server takes. *)
Record served (c : ReceivePackCommand) : Prop := {
  served_oids : command_oids c;
  served_name : server_name (ref c);
  served_change : oldOid c ≠ ZERO_OID ∨ newOid c ≠ ZERO_OID
}.

Definition fields_text (c : ReceivePackCommand) : ustring := oldOid c ++ SPACE :: newOid c ++ SPACE :: ref c.

Lemma oid_no_breaks oid : isOid oid = true → (0 ∉ oid) ∧ (0x0a ∉ oid) ∧ (0x0d ∉ oid) ∧ (SPACE ∉ oid).
Proof. intros Ho. split_and!; apply oid_no; done. Qed.

Lemma fields_no u c : served c → u = 0 ∨ u = 0x0a ∨ u = 0x0d → u ∉ fields_text c.
Proof.
  intros [[H1 H2] Hn _] Hu. pose proof (name_no_break _ u Hn Hu). apply oid_no_breaks in H1 as (?&?&?&_), H2 as (?&?&?&_).
  unfold fields_text, SPACE. rewrite !elem_of_app, !elem_of_cons, !elem_of_app, elem_of_cons. destruct Hu as [->|[->| ->]]; naive_solver lia.
Qed.

Lemma fields_text_ok c : served c → text_ok (fields_text c).
Proof.
  intros [[H1 H2] Hn _]. unfold fields_text. apply text_ok_app; [by apply text_ok_ascii, oid_ascii|].
  change (SPACE :: newOid c ++ SPACE :: ref c) with ([SPACE] ++ newOid c ++ [SPACE] ++ ref c).
  repeat (apply text_ok_app); try by apply text_ok_ascii, ascii_decided. { by apply text_ok_ascii, oid_ascii. } apply Hn.
Qed.

Lemma fields_split c : served c → split SPACE (fields_text c) = [oldOid c; newOid c; ref c].
Proof.
  intros [[H1 H2] Hn _]. apply oid_no_breaks in H1 as (_&_&_&?), H2 as (_&_&_&?). unfold fields_text.
  rewrite !split_app, !split_part; [done|by apply name_no_space|done|done].
Qed.

Lemma requireServerRef_name ref : server_name ref → requireServerRef ref = Ok tt.
Proof.
  intros Hn. unfold requireServerRef. destruct (name_text ref Hn) as [Hu Hw].
  destruct (checkRefText_spec ref (Some MAX_REF_NAME_BYTES) Hu eq_refl) as (H & _ & _).
  assert (problem (checkRefText ref (Some MAX_REF_NAME_BYTES)) = None) as ->.
  { apply H. split_and!; [apply Hn|done|]. cbn. apply Z.ltb_ge, Hn. }
  rewrite bool_decide_eq_false_2, bool_decide_eq_true_2 by done. cbn [negb orb].
  rewrite name_canonical by done. cbn [negb]. destruct (name_branch ref Hn) as [-> | ->]; cbn [orb]; by rewrite ?orb_true_r.
Qed.

Lemma receive_fields_ok v report c :
  served c → ref c ∉ v_refs v →
  receive_fields v report (fields_text c) = Ok (mkReceiving (v_commands v ++ [c]) (v_refs v ++ [ref c]) report).
Proof.
  intros Hc Hfresh. unfold receive_fields. rewrite fields_split by done. destruct Hc as [[H1 H2] Hn Hz].
  rewrite (proj2 (requireServerOid_ok (oldOid c) true)), (proj2 (requireServerOid_ok (newOid c) true)) by auto. cbn [mbind outcome_bind].
  assert (str_eqb (oldOid c) ZERO_OID && str_eqb (newOid c) ZERO_OID = false) as ->.
  { unfold str_eqb. apply andb_false_iff. destruct Hz; [left|right]; by apply bool_decide_eq_false_2. }
  rewrite requireServerRef_name by done. cbn [mbind outcome_bind]. rewrite bool_decide_eq_false_2 by done.
  unfold set_add. rewrite bool_decide_eq_false_2 by done. by destruct c.
Qed.

Lemma serverPacketText_line t : text_ok t → 0x0a ∉ t → 0x0d ∉ t → serverPacketText (text_packet (t ++ [0x0a])) = Ok t.
Proof.
  intros Ht Hn Hr. unfold serverPacketText, text_packet. cbn [kind payload].
  rewrite decode_server_encode by (apply text_ok_app; [done|apply newline_ok]). rewrite strip_newline_line.
  by rewrite !bool_decide_eq_false_2.
Qed.

Lemma command_text_fields c suffix : command_text c suffix = (fields_text c ++ suffix) ++ [0x0a].
Proof.
  unfold command_text, fields_text. change (js " ") with [SPACE].
  do 3 (rewrite <- ?app_assoc; cbn [app]). done.
Qed.

Lemma receive_packet_later v c :
  served c → ref c ∉ v_refs v → zlen (v_commands v) ≠ MAX_RECEIVE_PACK_COMMANDS →
  receive_packet v (command_packet [] c) = Ok (mkReceiving (v_commands v ++ [c]) (v_refs v ++ [ref c]) (v_reportStatus v)).
Proof.
  intros Hc Hfresh Hn. unfold receive_packet, command_packet. rewrite (proj2 (Z.eqb_neq _ _)) by done.
  rewrite command_text_fields, app_nil_r, serverPacketText_line by (by apply fields_text_ok || apply fields_no; auto). cbn [mbind outcome_bind].
  unfold receive_capabilities. rewrite indexOf_none by (apply fields_no; auto). change (0 <=? -1) with false. cbv iota. cbn [mbind outcome_bind].
  by apply receive_fields_ok.
Qed.

Lemma receive_packet_first c :
  served c →
  receive_packet (mkReceiving [] [] false) (command_packet (0 :: join SPACE [js "report-status"]) c) = Ok (mkReceiving [c] [ref c] true).
Proof.
  intros Hc. unfold receive_packet, command_packet. cbn [v_commands]. change (zlen [] =? MAX_RECEIVE_PACK_COMMANDS) with false. cbv iota.
  assert (ascii (0 :: js "report-status")) as Hs by by apply ascii_decided.
  cbn [join]. rewrite command_text_fields, serverPacketText_line.
  - cbn [mbind outcome_bind]. unfold receive_capabilities. rewrite indexOf_spec by (apply fields_no; auto). pose proof (zlen_nonneg (fields_text c)).
    rewrite (proj2 (Z.leb_le 0 _)) by done. cbn [v_commands]. change (negb (zlen [] =? 0)) with false. cbv iota.
    assert (slice_from (fields_text c ++ 0 :: js "report-status") (zlen (fields_text c) + 1) = js "report-status") as ->.
    { change (0 :: js "report-status") with ([0] ++ js "report-status"). rewrite app_assoc.
      replace (zlen (fields_text c) + 1) with (zlen (fields_text c ++ [0])) by by rewrite zlen_app. apply slice_from_app. }
    rewrite slice_0_app. assert (parseCapabilities (js "report-status") RECEIVE_SERVER_CAPABILITIES = Ok [js "report-status"]) as -> by reflexivity.
    cbn [mbind outcome_bind]. rewrite bool_decide_eq_true_2 by by left. by rewrite receive_fields_ok by (done || apply not_elem_of_nil).
  - apply text_ok_app; [by apply fields_text_ok|by apply text_ok_ascii].
  - intros [H|H]%elem_of_app; [revert H; apply fields_no; auto|]. revert H. exact (bool_decide_eq_true_1 (0x0a ∉ 0 :: js "report-status") eq_refl).
  - intros [H|H]%elem_of_app; [revert H; apply fields_no; auto|]. revert H. exact (bool_decide_eq_true_1 (0x0d ∉ 0 :: js "report-status") eq_refl).
Qed.

Lemma receive_later cs : ∀ v,
  Forall served cs → NoDup (v_refs v ++ (ref <$> cs)) → zlen (v_commands v) + zlen cs <= MAX_RECEIVE_PACK_COMMANDS →
  for_items receive_packet v (command_packet [] <$> cs) = Ok (mkReceiving (v_commands v ++ cs) (v_refs v ++ (ref <$> cs)) (v_reportStatus v)).
Proof.
  induction cs as [|c cs IH]; intros v Hs Hnd Hlen; [rewrite !app_nil_r; by destruct v|]. rewrite fmap_cons. cbn [for_items].
  apply Forall_cons in Hs as [Hc Hs]. rewrite zlen_cons in Hlen. pose proof (zlen_nonneg cs).
  rewrite fmap_cons in Hnd. assert (ref c ∉ v_refs v) as Hfresh by (apply NoDup_app in Hnd as (_ & H' & _); intros Hin; apply (H' _ Hin); by left).
  rewrite receive_packet_later by (done || lia). cbn [mbind outcome_bind]. rewrite IH; cbn [v_commands v_refs v_reportStatus]; [by rewrite <- !app_assoc|done| |].
  - by rewrite <- app_assoc.
  - rewrite zlen_app. change (zlen [c]) with 1. lia.
Qed.

Lemma receive_commands cs :
  cs ≠ [] → Forall served cs → NoDup (ref <$> cs) → zlen cs <= MAX_RECEIVE_PACK_COMMANDS →
  for_items receive_packet (mkReceiving [] [] false) (command_packets [js "report-status"] cs) = Ok (mkReceiving cs (ref <$> cs) true).
Proof.
  intros Hne Hs Hnd Hlen. destruct cs as [|c cs]; [done|]. cbn [command_packets for_items]. apply Forall_cons in Hs as [Hc Hs].
  rewrite receive_packet_first by done. cbn [mbind outcome_bind]. rewrite zlen_cons in Hlen.
  rewrite receive_later; [done|done|done|]. cbn [v_commands]. change (zlen [c]) with 1. lia.
Qed.

Lemma command_lines caps cs : Forall (λ p, kind p ≠ flush) (command_packets caps cs).
Proof. destruct cs as [|c cs]; [constructor|]. constructor; [done|]. apply Forall_fmap, Forall_forall. done. Qed.

(** What the chunks of a pack add up to. *)
Lemma read_pack_ok maxBytes chunks : ∀ bytes,
  bytes + zlen (mjoin chunks : list Z) <= maxBytes → read_pack maxBytes true bytes chunks (Ok tt) = mkYields chunks (Ok tt).
Proof.
  induction chunks as [|c chunks IH]; intros bytes; cbn [read_pack]; [done|]. rewrite mjoin_cons, zlen_app. pose proof (zlen_nonneg (mjoin chunks : list Z)).
  intros Hl. rewrite (proj2 (Z.ltb_ge _ _)) by lia. cbn [negb]. by rewrite IH by lia.
Qed.

(** * The round trip *)

(** The commands this program's server takes. *)
Definition acceptable (c : ReceivePackCommand) : Prop :=
  units (ref c) ∧ requireServerRef (ref c) = Ok tt ∧ (oldOid c ≠ ZERO_OID ∨ newOid c ≠ ZERO_OID).

Lemma acceptable_served cs : Forall command_oids cs → Forall acceptable cs → Forall served cs.
Proof.
  rewrite !Forall_forall. intros Ho Ha c Hc. destruct (Ha c Hc) as (Hu & Hr & Hz). split; [by apply Ho|by apply requireServerRef_ok|done].
Qed.

(** The bytes of the pack that follow the commands. *)
Definition sent_pack (p : PreparedRequest) : bytes :=
  match p_pack p with Some pack => if hasNonDeletion p then mjoin (items pack) else [] | None => [] end.

Lemma yielding_all_spec {A} (frames : list A) y : yielding_all frames y = mkYields (frames ++ items y) (ending y).
Proof. induction frames as [|f frames IH]; [by destruct y|]. cbn [yielding_all foldr] in *. unfold yielding_all in IH. by rewrite IH. Qed.

Lemma requestBody_bytes p frames :
  optionFrames p = [] → requestBody p (p_pack p) = mkYields frames (Ok tt) →
  mjoin frames = mjoin (commandFrames p) ++ FLUSH ++ sent_pack p.
Proof.
  intros Ho. unfold requestBody. rewrite Ho, yielding_all_spec. change (0 <? zlen []) with false. cbv iota. unfold yielding. cbn [items ending].
  intros [= <- _]. rewrite mjoin_app, mjoin_cons. do 2 f_equal. unfold sent_pack. destruct (p_pack p); [|done]. by destruct (hasNonDeletion p).
Qed.

Lemma new_reader_leads chunks ps bs :
  Forall fits ps → mjoin chunks = mjoin (wire_of <$> ps) ++ bs → holds (new_ByteReader chunks (Ok tt)) ps bs.
Proof. intros Hf Hc. split_and!; [apply new_reader_ok|done|by rewrite new_reader_rest]. Qed.

Lemma readPack_ok r maxBytes accepts :
  reader_ok r → returned r = Ok tt → source_end r = Ok tt → zlen (rest_bytes r) <= maxBytes → (rest_bytes r ≠ [] → accepts = true) →
  ending (readPack r maxBytes accepts) = Ok tt ∧ mjoin (items (readPack r maxBytes accepts)) = rest_bytes r.
Proof.
  intros Hok Hret Hend Hmax Hacc. destruct (rest_spec r Hok Hret) as [Hi He]. unfold readPack. rewrite He, Hend. destruct (decide (rest_bytes r = [])) as [E|E].
  - rewrite E in *. rewrite (rest_nonempty r) by (done || apply (reader_offset r Hok)). done.
  - rewrite Hacc by done. rewrite read_pack_ok by (rewrite Hi; lia). done.
Qed.

Lemma existsb_push cs : existsb (λ c, negb (str_eqb (newOid c) ZERO_OID)) cs = existsb is_push cs.
Proof. done. Qed.

(** C21: the server receives the push the client prepared.  For a request to a server that
    advertises what this program's does, of commands it takes, the body cut into chunks
    anywhere parses to exactly the requested commands in their order, asks for a status, and
    streams the bytes of the pack, all of them, unless only deletions were asked for. *)
Theorem receive_request_roundtrip request p frames chunks maxPackBytes :
  advertised_set request = RECEIVE_SERVER_CAPABILITIES → prepareRequest request = Ok p → Forall acceptable (p_commands p) →
  requestBody p (p_pack p) = mkYields frames (Ok tt) → mjoin chunks = mjoin frames →
  zlen (sent_pack p) <= maxPackBytes → maxPackBytes <= MAX_SAFE_INTEGER →
  ∃ q, parseReceivePackRequest (mkYields chunks (Ok tt)) (Some maxPackBytes) = Some (Ok q) ∧
    commands request = given (input_of <$> q_commands q) ∧ q_commands q = p_commands p ∧ reportStatus q = true ∧
    ending (q_pack q) = Ok tt ∧ mjoin (items (q_pack q)) = sent_pack p.
Proof.
  intros Ha Hp Hacc Hbody Hc Hmax Hsafe. pose proof (prepareRequest_inv _ _ Ha Hp) as [Hin Hne Hoid Hnd Hn Hfit Hfr Hopt Hpush Hsb Hat Hpk].
  apply requestBody_bytes in Hbody; [|done]. rewrite Hfr in Hbody. pose proof (acceptable_served _ Hoid Hacc) as Hserved.
  set (cs := p_commands p) in *. set (r := new_ByteReader chunks (Ok tt)).
  assert (holds r (command_packets [js "report-status"] cs ++ [flush_packet]) (sent_pack p)) as Hr.
  { apply new_reader_leads; [apply Forall_app; split; [done|by repeat constructor]|]. rewrite Hc, Hbody, fmap_app, mjoin_app, <- app_assoc. done. }
  destruct (flush_loop_holds receive_packet (corrupt_text "receive commands ended before flush") (mkReceiving [] [] false) _ _ r _
              (command_lines _ cs) (receive_commands cs Hne Hserved Hnd Hn) Hr) as (r' & Hloop & (Hok & _ & Hrest) & Hopen).
  cbn [fmap list_fmap mjoin list_join app] in Hrest. pose proof (zlen_nonneg (sent_pack p)).
  destruct (readPack_ok r' maxPackBytes (existsb is_push cs) Hok) as [Hend Hbytes].
  { by rewrite (open_returned _ _ Hopen). }
  { by rewrite (open_end _ _ Hopen). }
  { by rewrite Hrest. }
  { rewrite Hrest, <- Hpush. unfold sent_pack. destruct (p_pack p); [|done]. by destruct (hasNonDeletion p). }
  eexists. split.
  { unfold parseReceivePackRequest. unfold isSafeInteger, MAX_SAFE_INTEGER in *. rewrite (proj2 (Z.leb_le _ _)), (proj2 (Z.leb_le _ _)), (proj2 (Z.ltb_ge _ _)) by lia.
    cbn [negb orb andb items ending]. fold r.
    rewrite (p_catch_ok _ _ _ _ _ (p_bind_ok _ _ _ _ _ Hloop)). reflexivity. }
  cbn [q_commands reportStatus q_pack v_commands v_reportStatus]. rewrite existsb_push. split_and!; try done. by rewrite Hbytes, Hrest.
Qed.

Definition example_push : ReceivePackRequest :=
  mkRequest (given [input_of (mkCommand ZERO_OID (replicate 40 0x61) (js "refs/heads/main")); input_of (mkCommand (replicate 40 0x62) ZERO_OID (js "refs/tags/v1"))])
    RECEIVE_SERVER_CAPABILITIES absent absent (given (mkYields [[0x50]; [0x41; 0x43; 0x4b]] (Ok tt))) absent absent.

Definition example_prepared : PreparedRequest :=
  match prepareRequest example_push with Ok p => p | Throw _ => mkPrepared [] [] [] false false false None None None end.
Definition example_body : yields bytes := requestBody example_prepared (p_pack example_prepared).

Lemma receive_request_roundtrip_witness :
  let chunks := (λ b, [b]) <$> mjoin (items example_body) in
  zlen (sent_pack example_prepared) = 4 ∧
  ∃ q, parseReceivePackRequest (mkYields chunks (Ok tt)) (Some 4) = Some (Ok q) ∧
    commands example_push = given (input_of <$> q_commands q) ∧ q_commands q = p_commands example_prepared ∧ reportStatus q = true ∧
    ending (q_pack q) = Ok tt ∧ mjoin (items (q_pack q)) = sent_pack example_prepared.
Proof.
  intros chunks. split; [by vm_compute|].
  apply (receive_request_roundtrip example_push example_prepared (items example_body) chunks 4).
  - reflexivity.
  - vm_compute. reflexivity.
  - assert (p_commands example_prepared = [mkCommand ZERO_OID (replicate 40 0x61) (js "refs/heads/main"); mkCommand (replicate 40 0x62) ZERO_OID (js "refs/tags/v1")])
      as -> by (vm_compute; reflexivity).
    repeat (apply Forall_cons_2; [split_and!; [by apply units_by_compute|by vm_compute|first [left; discriminate|right; discriminate]]|]). by apply Forall_nil_2.
  - vm_compute. reflexivity.
  - vm_compute. reflexivity.
  - vm_compute. discriminate.
  - vm_compute. discriminate.
Defined.
