(* ===== verification/ReceiveStatus.v ===== *)
(** Answers to a push: the server's src/packages/git/src/protocol/server/response.ts and the
    client's protocol/receive-pack-status.ts and receive-pack-client.ts.  The pack of a fetch
    leaves the server through response.ts too. *)

From S2P Require Import Prelude Utf8 Text Bytes Objects RefName JsMap Process PktLine Protocol RemoteRefs ReceivePack.

(** * server/response.ts *)

Record ServerRefStatus := mkServerStatus { t_ref : ustring; t_error : option ustring }.

Inductive AckKind := common | ready.
Definition ack_kind_name (kind : AckKind) : ustring := match kind with common => js "common" | ready => js "ready" end.

Definition encodeAck (oid : option ustring) (kind : option AckKind) : outcome bytes :=
  match oid with
  | None => if bool_decide (is_Some kind) then Throw (invalid "NAK cannot carry an ACK kind") else pkt_text (js "NAK" ++ NEWLINE)
  | Some oid =>
      _ ← requireServerOid oid false;
      pkt_text (js "ACK " ++ oid ++ match kind with None => [] | Some kind => js " " ++ ack_kind_name kind end ++ NEWLINE)
  end.

(** A character of [/[\0\r\n]/]. *)
Definition line_breaker (u : Z) : bool := (u =? 0) || (u =? 0x0d) || (u =? 0x0a).

Definition requireStatusText (text : ustring) : outcome unit :=
  if (zlen text =? 0) || existsb line_breaker text then Throw (invalid "receive status must contain a single nonempty line") else Ok tt.

Fixpoint encode_statuses (statuses : list ServerRefStatus) : yields bytes :=
  match statuses with
  | [] => yielding FLUSH (mkYields [] (Ok tt))
  | status :: statuses =>
      then_yields (requireServerRef (t_ref status)) (λ _,
      match t_error status with
      | None => yield_pkt (js "ok " ++ t_ref status ++ NEWLINE) (encode_statuses statuses)
      | Some error =>
          then_yields (requireStatusText error) (λ _,
          yield_pkt (js "ng " ++ t_ref status ++ js " " ++ error ++ NEWLINE) (encode_statuses statuses))
      end)
  end.

Definition encodeReceiveStatus (unpack : ustring) (statuses : list ServerRefStatus) : yields bytes :=
  then_yields (requireStatusText unpack) (λ _, yield_pkt (js "unpack " ++ unpack ++ NEWLINE) (encode_statuses statuses)).

(** One chunk of a pack on the first band, from an offset. *)
Fixpoint band_frames (fuel : nat) (chunk : bytes) (offset : Z) (rest : yields bytes) : option (yields bytes) :=
  match fuel with
  | O => None
  | S fuel =>
      if offset <? zlen chunk then
        let data := slice chunk offset (offset + (MAX_PKT_PAYLOAD_BYTES - 1)) in
        match pkt (1 :: data) with
        | Throw e => Some (fails e)
        | Ok frame => yielding frame <$> band_frames fuel chunk (offset + (MAX_PKT_PAYLOAD_BYTES - 1)) rest
        end
      else Some rest
  end.

Fixpoint band_chunks (chunks : list bytes) (rest : yields bytes) : option (yields bytes) :=
  match chunks with
  | [] => Some rest
  | chunk :: chunks => rest ← band_chunks chunks rest; band_frames (S (length chunk)) chunk 0 rest
  end.

Definition encodePackResponse (pack : yields bytes) (sideband : bool) : option (yields bytes) :=
  if sideband then band_chunks (items pack) (then_yields (ending pack) (λ _, yielding FLUSH (mkYields [] (Ok tt))))
  else Some pack.

(** * receive-pack-status.ts *)

Record ReceivePackRefStatus := mkRefStatus { ok : bool; error : option ustring }.
Record ReceivePackStatus := mkStatus { unpack : ustring; st_refs : jsmap ustring ReceivePackRefStatus }.
Record ProtocolMemoryLimits := mkLimits { m_retainedBytes : option (option Z); m_inputBytes : option (option Z); m_entries : option (option Z); m_lineBytes : option (option Z) }.
Record ResolvedStatusLimits := mkStatusLimits { retainedBytes : option Z; inputBytes : option Z; entries : Z; lineBytes : Z }.

#[export] Instance ReceivePackRefStatus_eq_dec : EqDecision ReceivePackRefStatus.
Proof. solve_decision. Defined.

Definition RESULT_FIXED_BYTES : Z := 192.
Definition STATUS_FIXED_BYTES : Z := 96.
Definition resultStringBytes (value : ustring) : Z := 48 + zlen value * 2.

Inductive ParsedStatusLine := unpack_line (text : ustring) | ok_line (ref : ustring) | ng_line (ref text : ustring).

(** A limit that was given, [None] being a number that is no safe integer. *)
Definition limits_error : jserror := RangeError (js "receive-pack protocol limits must be positive safe integers").
Definition positiveLimit (value : option Z) : outcome Z :=
  match value with
  | Some value => if negb (isSafeInteger value) || (value <? 1) then Throw limits_error else Ok value
  | None => Throw limits_error
  end.
Definition boundedLimit (value : option (option Z)) (ceiling : Z) : outcome Z :=
  match value with
  | None => Ok ceiling
  | Some (Some value) => if negb (isSafeInteger value) || (value <? 1) then Throw limits_error else Ok (Z.min value ceiling)
  | Some None => Throw limits_error
  end.

Definition given_limit (value : option (option Z)) : outcome (option Z) :=
  match value with None => Ok None | Some value => n ← positiveLimit value; Ok (Some n) end.

Definition resolvedStatusLimits (overrides : option ProtocolMemoryLimits) : outcome ResolvedStatusLimits :=
  retainedBytes ← given_limit (overrides ≫= m_retainedBytes);
  inputBytes ← given_limit (overrides ≫= m_inputBytes);
  entries ← boundedLimit (overrides ≫= m_entries) MAX_RECEIVE_PACK_STATUS_PACKETS;
  lineBytes ← boundedLimit (overrides ≫= m_lineBytes) MAX_PKT_PAYLOAD_BYTES;
  Ok (mkStatusLimits retainedBytes inputBytes entries lineBytes).

(** [StatusWireBudget]: the packets and, under an input limit, the bytes counted so far. *)
Record StatusWireBudget := mkBudget { b_entries : Z; b_inputBytes : Z }.

Definition wire_error (part : string) : jserror := GitError (js "E2BIG") (js "receive-pack " ++ js part ++ js " exceeds its bounded limit").

Definition budget_packet (limits : ResolvedStatusLimits) (b : StatusWireBudget) (packet : Pkt) : outcome StatusWireBudget :=
  match kind packet with
  | line =>
      if lineBytes limits <? zlen (payload packet) then Throw (wire_error "pkt-line text")
      else if entries limits <=? b_entries b then Throw (wire_error "packet count")
      else
        let bytes := zlen (payload packet) + 4 in
        match inputBytes limits with
        | Some inputLimit =>
            if inputLimit - b_inputBytes b <? bytes then Throw (wire_error "input")
            else Ok (mkBudget (b_entries b + 1) (b_inputBytes b + bytes))
        | None => Ok (mkBudget (b_entries b + 1) (b_inputBytes b))
        end
  | _ => Ok b
  end.

(** [ResultBudget.validateLogical]. *)
Definition validateLogical (limit : option Z) (bytes : Z) : outcome unit :=
  match limit with
  | Some limit => if limit <? bytes then Throw (GitErr "E2BIG" "receive-pack result exceeds its bounded retained-state limit") else Ok tt
  | None => Ok tt
  end.

Definition context_error (context message : string) : jserror := CorruptError (js "receive-pack " ++ js context ++ js message).

Definition decodeLine (packet : Pkt) (context : string) : outcome ustring :=
  if negb (bool_decide (kind packet = line)) || (zlen (payload packet) =? 0)
  then Throw (context_error context " contains an unexpected pkt-line control")
  else if negb (bool_decide (last (payload packet) = Some 0x0a)) then Throw (context_error context " line is missing its newline")
  else
    match decode_fatal (removelast (payload packet)) with
    | None => Throw (context_error context " contains malformed UTF-8")
    | Some text => if existsb line_breaker text then Throw (context_error context " contains invalid text") else Ok text
    end.

Definition parseStatusLine (text : ustring) : outcome ParsedStatusLine :=
  if startsWith text (js "unpack ") then
    let result := slice_from text (zlen (js "unpack ")) in
    if bool_decide (result = []) then Throw (corrupt_text "malformed receive-pack unpack status") else Ok (unpack_line result)
  else if startsWith text (js "ok ") then
    let ref := slice_from text 3 in
    if bool_decide (ref = []) || bool_decide (SPACE ∈ ref) then Throw (corrupt_text "malformed receive-pack ref status") else Ok (ok_line ref)
  else if startsWith text (js "ng ") then
    let found := indexOf SPACE (slice_from text 3) in
    let separator := if found <? 0 then -1 else found + 3 in
    if (separator <? 4) || (separator =? zlen text - 1) then Throw (corrupt_text "malformed receive-pack rejection")
    else Ok (ng_line (slice text 3 separator) (slice_from text (separator + 1)))
  else Throw (CorruptError (js "unexpected receive-pack status: " ++ slice text 0 64)).

Definition requireStreamEnd (context : string) : reading unit :=
  trailing ← readPkt;
  match trailing with
  | Some _ => p_raise (context_error context " has trailing packets")
  | None => mret tt
  end.

(** A generator over a reader: what it yields from here on, and the reader after it. *)
Notation generating := (ByteReader → option (yields bytes * ByteReader)).
Definition g_then {A} (m : reading A) (k : A → generating) : generating := λ r,
  match m r with
  | Some (Ok a, r) => k a r
  | Some (Throw e, r) => Some (fails e, r)
  | None => None
  end.
Definition g_yield (x : bytes) (k : generating) : generating := λ r, (λ '(y, r), (yielding x y, r)) <$> k r.
Definition g_end : generating := λ r, Some (mkYields [] (Ok tt), r).
(** [try { g } finally { f }]. *)
Definition g_finally (g : generating) (f : reading unit) : generating := λ r,
  match g r with
  | Some (y, r) =>
      match f r with
      | Some (Ok _, r) => Some (y, r)
      | Some (Throw e, r) => Some (mkYields (items y) (Throw e), r)
      | None => None
      end
  | None => None
  end.

Definition callback := ustring → outcome unit.
(** [f?.(message)]. *)
Definition call (f : option callback) (message : ustring) : outcome unit := match f with Some f => f message | None => Ok tt end.

(** One frame of a sideband: what it adds to the status, if anything. *)
Definition band_frame (limits : ResolvedStatusLimits) (onProgress onMessage : option callback) (b : StatusWireBudget) (frame : Pkt) :
    outcome (StatusWireBudget * option bytes) :=
  b ← budget_packet limits b frame;
  match kind frame, payload frame with
  | line, band :: payload =>
      if band =? 1 then Ok (b, if 0 <? zlen payload then Some payload else None)
      else if band =? 2 then
        match decode_fatal payload with
        | None => Throw (corrupt_text "receive-pack progress contains malformed UTF-8")
        | Some message => _ ← call onProgress message; _ ← call onMessage message; Ok (b, None)
        end
      else if band =? 3 then
        match decode_fatal payload with
        | None => Throw (corrupt_text "receive-pack fatal message contains malformed UTF-8")
        | Some message =>
            let message := trim message in
            Throw (GitError (js "EPUSHREJECTED") (if bool_decide (message = []) then js "receive-pack fatal error" else message))
        end
      else Throw (corrupt_text "receive-pack returned an invalid sideband")
  | _, _ => Throw (corrupt_text "receive-pack returned an invalid sideband frame")
  end.

Fixpoint band_loop (fuel : nat) (limits : ResolvedStatusLimits) (onProgress onMessage : option callback) (b : StatusWireBudget) : generating :=
  match fuel with
  | O => λ _, None
  | S fuel =>
      g_then readPkt (λ frame,
      match frame with
      | None => g_then (p_raise (corrupt_text "truncated receive-pack sideband") : reading unit) (λ _, g_end)
      | Some frame =>
          if bool_decide (kind frame = flush) then g_then (requireStreamEnd "sideband") (λ _, g_end)
          else
            g_then (p_lift (band_frame limits onProgress onMessage b frame)) (λ '(b, data),
            match data with
            | Some data => g_yield data (band_loop fuel limits onProgress onMessage b)
            | None => band_loop fuel limits onProgress onMessage b
            end)
      end)
  end.

Definition sidebandBody (source : yields bytes) (limits : ResolvedStatusLimits) (onProgress onMessage : option callback) : option (yields bytes) :=
  let reader := new_ByteReader (items source) (ending source) in
  fst <$> g_finally (band_loop (reader_fuel reader) limits onProgress onMessage (mkBudget 0 0)) release reader.

(** What [parseStatus] keeps between the packets. *)
Record Statuses := mkStatuses { s_received : jsmap ustring ReceivePackRefStatus; s_unpack : option ustring; s_budget : StatusWireBudget }.

Definition received_status (expected : jsset) (s : Statuses) (ref : ustring) (status : ReceivePackRefStatus) : outcome Statuses :=
  if bool_decide (s_unpack s = None) then Throw (corrupt_text "receive-pack ref status precedes unpack status")
  else if negb (bool_decide (ref ∈ expected)) then Throw (CorruptError (js "unexpected receive-pack status for " ++ ref))
  else if map_has (s_received s) ref then Throw (CorruptError (js "duplicate receive-pack status for " ++ ref))
  else Ok (mkStatuses (map_set (s_received s) ref status) (s_unpack s) (s_budget s)).

Definition status_packet (limits : ResolvedStatusLimits) (expected : jsset) (s : Statuses) (packet : Pkt) : outcome Statuses :=
  b ← budget_packet limits (s_budget s) packet;
  let s := mkStatuses (s_received s) (s_unpack s) b in
  line ← decodeLine packet "status";
  status ← parseStatusLine line;
  match status with
  | unpack_line text =>
      if bool_decide (is_Some (s_unpack s)) then Throw (corrupt_text "duplicate receive-pack unpack status")
      else if 0 <? zlen (s_received s) then Throw (corrupt_text "receive-pack unpack status is out of order")
      else Ok (mkStatuses (s_received s) (Some text) b)
  | ok_line ref => received_status expected s ref (mkRefStatus true None)
  | ng_line ref text => received_status expected s ref (mkRefStatus false (Some text))
  end.

Definition status_loop (limits : ResolvedStatusLimits) (expected : jsset) (fuel : nat) : reading Statuses :=
  packet_loop fuel (corrupt_text "truncated receive-pack status") (until_flush (status_packet limits expected)) (mkStatuses [] None (mkBudget 0 0)).

Definition omitted (ref : ustring) : jserror := CorruptError (js "receive-pack omitted status for " ++ ref).

(** The successes, the failures and the size of the result. *)
Definition count_status (received : jsmap ustring ReceivePackRefStatus) (t : Z * Z * Z) (command : ReceivePackCommand) : outcome (Z * Z * Z) :=
  let '(successes, failures, bytes) := t in
  match map_get received (ref command) with
  | None => Throw (omitted (ref command))
  | Some status =>
      let statusBytes := STATUS_FIXED_BYTES + (if ok status then 0 else match error status with None => 0 | Some e => resultStringBytes e end) in
      let bytes := bytes + (statusBytes + resultStringBytes (ref command)) in
      Ok (if ok status then (successes + 1, failures, bytes) else (successes, failures + 1, bytes))
  end.

Definition copy_status (received refs : jsmap ustring ReceivePackRefStatus) (command : ReceivePackCommand) :
    outcome (jsmap ustring ReceivePackRefStatus) :=
  match map_get received (ref command) with
  | None => Throw (omitted (ref command))
  | Some status => Ok (map_set refs (ref command) status)
  end.

(** What follows the end of the stream. *)
Definition finish_status (commands : list ReceivePackCommand) (atomic : bool) (limits : ResolvedStatusLimits) (s : Statuses) :
    outcome ReceivePackStatus :=
  match s_unpack s with
  | None => Throw (corrupt_text "receive-pack omitted unpack status")
  | Some unpack =>
      let received := s_received s in
      if negb (zlen received =? zlen commands) then
        match head (filter (λ command, map_has received (ref command) = false) commands) with
        | None => Throw (corrupt_text "receive-pack returned an invalid status count")
        | Some missing => Throw (omitted (ref missing))
        end
      else
        '(successes, failures, bytes) ← for_items (count_status received) (0, 0, RESULT_FIXED_BYTES + resultStringBytes unpack) commands;
        if negb (str_eqb unpack (js "ok")) && (0 <? successes)
        then Throw (corrupt_text "receive-pack reported successful refs after unpack failure")
        else if atomic && (0 <? successes) && (0 <? failures) then Throw (corrupt_text "atomic receive-pack returned mixed ref statuses")
        else
          _ ← validateLogical (retainedBytes limits) bytes;
          refs ← for_items (copy_status received) [] commands;
          Ok (mkStatus unpack refs)
  end.

Definition parseStatus (body : yields bytes) (commands : list ReceivePackCommand) (atomic : bool) (limits : ResolvedStatusLimits) :
    option (outcome ReceivePackStatus) :=
  let expected := foldl set_add [] (ref <$> commands) in
  fst <$> p_finally
    (s ← p_fueled reader_fuel (status_loop limits expected);
     _ ← requireStreamEnd "status";
     p_lift (finish_status commands atomic limits s)) release (new_ByteReader (items body) (ending body)).

(** One chunk of [readResponsePrefix]: the prefix and the bytes counted so far. *)
Definition prefix_chunk (inputLimit : option Z) (s : bytes * Z) (chunk : bytes) : outcome (bytes * Z) :=
  let '(prefix, input) := s in
  match inputLimit with
  | Some limit =>
      if limit - input <? zlen chunk then Throw (GitErr "E2BIG" "receive-pack error response exceeds its bounded input limit")
      else Ok (keep_prefix ERROR_PREFIX_BYTES prefix chunk, input + zlen chunk)
  | None => Ok (keep_prefix ERROR_PREFIX_BYTES prefix chunk, input)
  end.

Definition readResponsePrefix (body : yields bytes) (inputLimit : option Z) : outcome ustring :=
  s ← for_of (prefix_chunk inputLimit) ([], 0) (rest (new_ByteReader (items body) (ending body)));
  Ok (slice (decode_lossy (fst s)) 0 ERROR_PREFIX_CHARACTERS).

(** * receive-pack-client.ts *)

(** A request that failed: its error, the error of the local pack among its causes, and what
    is known of the attempt. *)
Record PostFailure := mkFailure { f_error : jserror; f_localPack : option jserror; invoked : bool; safeAbort : bool }.

Definition uncertain (message : string) : jserror := GitErr "EPUSHUNCERTAIN" message.

Definition post_error (f : PostFailure) : jserror :=
  match f_localPack f with
  | Some cause =>
      if hasErrorCode cause "E2BIG" || hasErrorCode cause "EPUSHLOCAL" then cause
      else GitErr "EPUSHLOCAL" "local receive-pack body generation failed"
  | None =>
      if hasErrorCode (f_error f) "EAUTH" then f_error f
      else if hasErrorCode (f_error f) "EABORTED" && (negb (invoked f) || safeAbort f) then f_error f
      else uncertain "receive-pack POST failed after the request may have been consumed"
  end.

Definition failed_text (response : GitHttpResponse) (text : ustring) : jserror :=
  HttpError (js "git-receive-pack failed: " ++ number_string (status response) ++ js " " ++ statusText response ++
             (if bool_decide (text = []) then [] else js " " ++ [0x2014] ++ js " " ++ text)).

(** A response that is not a status. *)
Definition unauthorized (response : GitHttpResponse) (limits : ResolvedStatusLimits) (aborted : bool) : jserror :=
  match (text ← readResponsePrefix (body response) (inputBytes limits); _ ← throw_if aborted abortedError; Ok text) with
  | Ok text => failed_text response text
  | Throw cause => if hasErrorCode cause "EABORTED" then cause else GitErr "EHTTP" "git-receive-pack authentication failed"
  end.

Definition RESULT_TYPE : ustring := js "application/x-git-receive-pack-result".

(** The status of a response of that type. *)
Definition response_status (prepared : PreparedRequest) (limits : ResolvedStatusLimits) (response : GitHttpResponse) :
    option (outcome ReceivePackStatus) :=
  statusBody ← (if sideband prepared then sidebandBody (body response) limits (p_onProgress prepared) (p_onMessage prepared)
                else Some (body response));
  r ← parseStatus statusBody (p_commands prepared) (p_atomic prepared) limits;
  Some (match r with Ok status => Ok status | Throw _ => Throw (uncertain "receive-pack returned an incomplete or invalid status") end).

Definition receivePack (requestWithAuth : ustring → yields bytes → GitHttpResponse + PostFailure) (aborted : bool)
    (overrides : option ProtocolMemoryLimits) (url : ustring) (request : ReceivePackRequest) : option (outcome ReceivePackStatus) :=
  match (limits ← resolvedStatusLimits overrides;
         prepared ← prepareRequest request;
         base ← normalizeRemoteUrl url;
         Ok (limits, prepared, base)) with
  | Throw e => Some (Throw e)
  | Ok (limits, prepared, base) =>
      match requestWithAuth (base ++ js "/git-receive-pack") (requestBody prepared (p_pack prepared)) with
      | inr failure => Some (Throw (post_error failure))
      | inl response =>
          if status response =? 401 then Some (Throw (unauthorized response limits aborted))
          else if negb (status response =? 200) then Some (Throw (uncertain "receive-pack returned an uncertain HTTP response"))
          else
            let contentType := default [] (content_type response) in
            let mediaType := trim (default [] (head (split 0x3b contentType))) in
            if negb (str_eqb mediaType RESULT_TYPE)
            then Some (Throw (uncertain "receive-pack returned an uncertain malformed response"))
            else response_status prepared limits response
      end
  end.
