(* ===== verification/ReceiveStatusFacts.v ===== *)
(** Answers to a push: what [parseStatus] accepts is a complete and consistent answer, and the
    answers of this program's server are read as they were given. *)

From S2P Require Import Prelude Utf8 Text Bytes Objects Streams RefName JsMap Process PktLine PktLineFacts Protocol ProtocolFacts RemoteRefs RemoteRefsFacts ReceivePack ReceivePackFacts ReceiveStatus.

(** * Lines *)

Definition status_text (l : ParsedStatusLine) : ustring :=
  match l with
  | unpack_line text => js "unpack " ++ text
  | ok_line ref => js "ok " ++ ref
  | ng_line ref text => js "ng " ++ ref ++ js " " ++ text
  end.

(** The packet is a line with this text. *)
Definition says (p : Pkt) (l : ParsedStatusLine) : Prop :=
  kind p = line ∧ ∃ bytes, payload p = bytes ++ [0x0a] ∧ decode_fatal bytes = Some (status_text l).

Lemma indexOf_inv u s : 0 <= indexOf u s → ∃ a b, s = a ++ u :: b ∧ (u ∉ a) ∧ indexOf u s = zlen a.
Proof.
  intros H. destruct (decide (u ∈ s)) as [Hin|Hn]; [|rewrite indexOf_none in H by done; lia].
  apply list_elem_of_split_l in Hin as (a & b & -> & Ha). exists a, b. by rewrite indexOf_spec.
Qed.

#[export] Instance Ok_inj A : Inj (=) (=) (@Ok A).
Proof. by intros x y [= ->]. Qed.

Lemma parseStatusLine_inv t l : parseStatusLine t = Ok l → t = status_text l.
Proof.
  unfold parseStatusLine. destruct (startsWith t (js "unpack ")) eqn:E1.
  { apply startsWith_spec in E1 as [k ->]. rewrite slice_from_app. case_bool_decide; [done|]. by intros [= <-]. }
  destruct (startsWith t (js "ok ")) eqn:E2.
  { apply startsWith_spec in E2 as [k ->]. rewrite (slice_from_app (js "ok ")). destruct (_ || _); [done|]. by intros [= <-]. }
  destruct (startsWith t (js "ng ")) eqn:E3; [|done]. apply startsWith_spec in E3 as [k ->]. rewrite (slice_from_app (js "ng ")).
  destruct (indexOf SPACE k <? 0) eqn:E; [done|]. zbool. destruct (_ || _); [done|]. intros <-%(inj Ok).
  apply indexOf_inv in E as (a & b & -> & _ & ->).
  assert (slice (js "ng " ++ a ++ SPACE :: b) 3 (zlen a + 3) = a) as ->.
  { replace (zlen a + 3) with (3 + zlen a) by lia. exact (slice_app_mid (js "ng ") a (SPACE :: b)). }
  change (a ++ SPACE :: b) with (a ++ [SPACE] ++ b). rewrite (app_assoc a), (app_assoc (js "ng ")), (app_assoc (js "ng ")).
  replace (zlen a + 3 + 1) with (zlen ((js "ng " ++ a) ++ [SPACE])) by (rewrite !zlen_app; change (zlen (js "ng ")) with 3; change (zlen [SPACE]) with 1; lia).
  rewrite slice_from_app. cbn [status_text]. by rewrite <- !app_assoc.
Qed.

Lemma decodeLine_inv p context t :
  decodeLine p context = Ok t → kind p = line ∧ ∃ bytes, payload p = bytes ++ [0x0a] ∧ decode_fatal bytes = Some t.
Proof.
  unfold decodeLine. case_bool_decide as Hk; cbn [negb orb]; [|done]. destruct (_ =? 0); [done|]. case_bool_decide as Hl; cbn [negb]; [|done].
  apply last_Some in Hl as [bytes Hp]. rewrite Hp, removelast_last. destruct (decode_fatal bytes) as [t'|] eqn:E; [|done].
  destruct (existsb _ _); [done|]. intros [= <-]. split; [done|]. by exists bytes.
Qed.

(** * What the loop keeps *)

Definition result_line (result : ustring * ReceivePackRefStatus) : ParsedStatusLine :=
  if ok (snd result) then ok_line (fst result) else ng_line (fst result) (default [] (error (snd result))).

Definition read_as (expected : jsset) (ps : list Pkt) (s : Statuses) : Prop :=
  match s_unpack s with
  | None => ps = [] ∧ s_received s = []
  | Some unpack =>
      ∃ first lines, ps = first :: lines ∧ says first (unpack_line unpack) ∧ Forall2 (λ p result, says p (result_line result)) lines (s_received s) ∧
        NoDup (s_received s).*1 ∧ Forall (λ x, x ∈ expected) (s_received s).*1
  end.

Lemma received_status_inv expected s ref status s' :
  received_status expected s ref status = Ok s' →
  is_Some (s_unpack s) ∧ ref ∈ expected ∧ (ref ∉ (s_received s).*1) ∧ s' = mkStatuses (s_received s ++ [(ref, status)]) (s_unpack s) (s_budget s).
Proof.
  unfold received_status. case_bool_decide as Hu; [done|]. case_bool_decide as He; cbn [negb]; [|done]. destruct (map_has _ _) eqn:Eh; [done|].
  intros [= <-]. assert (ref ∉ (s_received s).*1) as Hfresh by (rewrite <- map_has_spec, Eh; done).
  split_and!; [by apply not_eq_None_Some|done|done|]. rewrite map_set_new by by apply map_get_None. done.
Qed.

Lemma read_as_received expected ps s p ref status s' :
  read_as expected ps s → received_status expected s ref status = Ok s' → says p (result_line (ref, status)) → read_as expected (ps ++ [p]) s'.
Proof.
  intros Hr (Hu & He & Hn & ->)%received_status_inv Hsay. unfold read_as in *. cbn [s_unpack s_received]. destruct Hu as [unpack Hu]. rewrite Hu in *.
  destruct Hr as (first & lines & -> & Hf & Hl & Hnd & Hall). exists first, (lines ++ [p]). split_and!; [done|done| | |].
  - apply Forall2_app; [done|]. by constructor.
  - rewrite fmap_app. apply NoDup_app. split_and!; [done| |apply NoDup_singleton]. intros x Hx ->%list_elem_of_singleton. done.
  - rewrite fmap_app. apply Forall_app. split; [done|]. by constructor.
Qed.

Lemma status_packet_read limits expected ps s p s' :
  read_as expected ps s → status_packet limits expected s p = Ok s' → read_as expected (ps ++ [p]) s'.
Proof.
  unfold status_packet. intros Hr (b & _ & H)%bind_ok_inv. apply bind_ok_inv in H as (t & Ht & H). apply decodeLine_inv in Ht as (Hk & bytes & Hp & Hd).
  apply bind_ok_inv in H as (l & Hl & H). apply parseStatusLine_inv in Hl as ->.
  assert (says p l) as Hsay by (split; [done|by exists bytes]). clear Hk Hp Hd.
  assert (read_as expected ps (mkStatuses (s_received s) (s_unpack s) b)) as Hr' by exact Hr. destruct l as [text|ref|ref text].
  - case_bool_decide as Hu; [done|]. destruct (0 <? _); [done|]. injection H as <-. unfold read_as in Hr |- *. cbn [s_unpack s_received].
    cbn [s_unpack] in Hu. rewrite <- eq_None_not_Some in Hu. rewrite Hu in Hr. destruct Hr as [-> ->]. exists p, []. split_and!; [done|done|done|constructor|constructor].
  - by eapply read_as_received.
  - by eapply read_as_received.
Qed.

Lemma status_packets_read limits expected qs : ∀ ps s s',
  read_as expected ps s → for_items (status_packet limits expected) s qs = Ok s' → read_as expected (ps ++ qs) s'.
Proof.
  induction qs as [|q qs IH]; intros ps s s' Hr; cbn [for_items]; [intros [= <-]; by rewrite app_nil_r|].
  intros (s1 & H1 & H)%bind_ok_inv. rewrite (assoc_L (++) ps [q] qs) || change (q :: qs) with ([q] ++ qs); rewrite ?(assoc_L (++) ps [q] qs).
  eapply IH; [|done]. by eapply status_packet_read.
Qed.

(** * The result *)

Lemma count_status_inv received cs : ∀ s f b s' f' b',
  for_items (count_status received) (s, f, b) cs = Ok (s', f', b') →
  ∃ vs, Forall2 (λ c v, map_get received (ref c) = Some v) cs vs ∧
    s' = s + zlen (filter (λ v, ok v = true) vs) ∧ f' = f + zlen (filter (λ v, ok v = false) vs).
Proof.
  induction cs as [|c cs IH]; intros s f b s' f' b'; cbn [for_items].
  { intros [= <- <- <-]. exists []. split_and!; [by apply Forall2_nil_2|by rewrite Z.add_0_r|by rewrite Z.add_0_r]. }
  intros (t & Ht & H)%bind_ok_inv. unfold count_status in Ht. destruct (map_get received (ref c)) as [v|] eqn:E; [|done]. injection Ht as <-.
  destruct (ok v) eqn:Ev; apply IH in H as (vs & Hvs & -> & ->); exists (v :: vs); (split; [by constructor|]);
    rewrite !filter_cons, Ev; repeat case_decide; try done; rewrite ?zlen_cons; lia.
Qed.

Lemma copy_status_inv received cs vs : ∀ refs refs',
  Forall2 (λ c v, map_get received (ref c) = Some v) cs vs → NoDup (refs.*1 ++ (ref <$> cs)) →
  for_items (copy_status received) refs cs = Ok refs' → refs' = refs ++ zip (ref <$> cs) vs.
Proof.
  intros refs refs' H. revert refs. induction H as [|c v cs vs Hc _ IH]; intros refs Hnd; cbn [for_items].
  { intros [= <-]. by rewrite app_nil_r. }
  assert (copy_status received refs c = Ok (map_set refs (ref c) v)) as -> by (unfold copy_status; by rewrite Hc). cbn [mbind outcome_bind]. rewrite fmap_cons in Hnd. rewrite map_set_new.
  - intros ->%IH; [by rewrite <- app_assoc|]. rewrite fmap_app, <- app_assoc. done.
  - apply map_get_None. intros Hin. apply NoDup_app in Hnd as (_ & H' & _). apply (H' _ Hin). by left.
Qed.

Lemma zip_values {A B C} (f : A → B) (xs : list A) (vs : list C) : length xs = length vs → (zip (f <$> xs) vs).*1 = f <$> xs.
Proof. intros H. apply fst_zip. rewrite length_fmap. lia. Qed.

Lemma zip_received (received : jsmap ustring ReceivePackRefStatus) (cs : list ReceivePackCommand) (vs : list ReceivePackRefStatus) :
  NoDup received.*1 → received.*1 ≡ₚ ref <$> cs → Forall2 (λ c v, map_get received (ref c) = Some v) cs vs → zip (ref <$> cs) vs ≡ₚ received.
Proof.
  intros Hnd Hperm Hvs. pose proof (Forall2_length _ _ _ Hvs) as Hl. assert (NoDup (ref <$> cs)) as Hnd' by by rewrite <- Hperm.
  apply NoDup_Permutation; [apply (NoDup_fmap_1 fst); by rewrite zip_values|by apply (NoDup_fmap_1 fst)|]. intros [x v].
  rewrite <- (map_get_NoDup received x v Hnd). clear Hl Hnd'. split.
  - clear - Hvs. induction Hvs as [|c w cs vs Hc _ IH]; cbn; [by intros ?%elem_of_nil|]. intros [E|H]%elem_of_cons; [|exact (IH H)].
    injection E as -> ->. exact Hc.
  - intros Hg. assert (x ∈ ref <$> cs) as (c & -> & Hc)%list_elem_of_fmap by (rewrite <- Hperm; apply map_get_is_Some; by eexists).
    clear - Hvs Hc Hg. induction Hvs as [|c' w cs vs Hc' _ IH]; [by apply elem_of_nil in Hc|]. cbn. apply elem_of_cons in Hc as [->|Hc].
    + rewrite Hc' in Hg. injection Hg as ->. by left.
    + right. by apply IH.
Qed.

(** The answer is consistent. *)
Definition consistent (atomic : bool) (unpack : ustring) (results : list (ustring * ReceivePackRefStatus)) : Prop :=
  (unpack ≠ js "ok" → Forall (λ r, ok r.2 = false) results) ∧
  (atomic = true → Forall (λ r, ok r.2 = true) results ∨ Forall (λ r, ok r.2 = false) results).

Lemma none_of (b : bool) (vs : list ReceivePackRefStatus) : zlen (filter (λ v, ok v = b) vs) <= 0 → Forall (λ v, ok v = negb b) vs.
Proof.
  intros H. apply Forall_forall. intros v Hv. destruct (decide (ok v = b)) as [E|E]; [|by destruct (ok v), b].
  assert (v ∈ filter (λ v, ok v = b) vs) as Hin by by apply list_elem_of_filter. unfold zlen in H. destruct (filter _ vs); [by apply elem_of_nil in Hin|simpl in H; lia].
Qed.

Lemma finish_status_inv commands atomic limits s unpack st :
  s_unpack s = Some unpack → NoDup (s_received s).*1 → Forall (λ x, x ∈ ref <$> commands) (s_received s).*1 →
  finish_status commands atomic limits s = Ok st →
  ReceiveStatus.unpack st = unpack ∧ (st_refs st).*1 = ref <$> commands ∧ st_refs st ≡ₚ s_received s ∧ consistent atomic unpack (st_refs st).
Proof.
  intros Hu Hnd Hall. unfold finish_status. rewrite Hu. set (received := s_received s) in *. destruct (zlen received =? zlen commands) eqn:Elen; cbn [negb];
    [|by destruct (head _)]. zbool. intros ([[successes failures] bytes] & Hcount & H)%bind_ok_inv. apply count_status_inv in Hcount as (vs & Hvs & -> & ->).
  destruct (_ && (0 <? _)) eqn:Eu; [done|]. destruct (atomic && _ && _) eqn:Ea; [done|]. apply bind_ok_inv in H as ([] & _ & H).
  apply bind_ok_inv in H as (refs & Hcopy & [= <-]). cbn [ReceiveStatus.unpack st_refs].
  assert (received.*1 ≡ₚ ref <$> commands) as Hperm.
  { apply submseteq_length_Permutation; [apply NoDup_submseteq; [done|]; by apply Forall_forall|]. rewrite !length_fmap. unfold zlen in Elen. lia. }
  assert (NoDup (ref <$> commands)) as Hnd' by by rewrite <- Hperm. apply (copy_status_inv _ _ vs) in Hcopy as ->; [|done|done]. cbn [app].
  pose proof (Forall2_length _ _ _ Hvs) as Hl. split_and!; [done|by apply zip_values|by apply zip_received|].
  - assert (∀ P : ReceivePackRefStatus → Prop, Forall P vs → Forall (λ r, P r.2) (zip (ref <$> commands) vs)) as Hzip.
    { intros P HP. rewrite Forall_forall in HP. apply Forall_forall. intros [x v] Hin%elem_of_zip_r. by apply HP. }
    split.
    + intros Hne. apply (Hzip (λ v, ok v = false)), (none_of true). unfold str_eqb in Eu. rewrite bool_decide_eq_false_2 in Eu by done. cbn [negb andb] in Eu. zbool. lia.
    + intros ->. cbn [andb] in Ea. apply andb_false_iff in Ea as [Ea|Ea]; zbool.
      * right. apply (Hzip (λ v, ok v = false)), (none_of true). lia.
      * left. apply (Hzip (λ v, ok v = true)), (none_of false). lia.
Qed.

(** * The whole answer *)

Lemma reader_new_ok chunks end_ : reader_ok (new_ByteReader chunks end_).
Proof. split; cbn; [split; [lia|apply zlen_nonneg]|done|done|done]. Qed.

Lemma requireStreamEnd_ends context r :
  reader_ok r →
  ∃ o r', requireStreamEnd context r = Some (o, r') ∧ (o = Ok tt → rest_bytes r = [] ∧ source_end r = Ok tt).
Proof.
  intros Hok. destruct (read_end_iff r Hok) as (o & r1 & Hp & H & _). unfold requireStreamEnd. destruct o as [[p|]|e].
  - proceed_by Hp. by eexists _, r1.
  - proceed_by Hp. exists (Ok tt), r1. split; [done|]. intros _. by apply H.
  - rewrite (p_bind_throw _ _ _ _ _ Hp). by eexists _, r1.
Qed.

Lemma release_ends r : ∃ o r', release r = Some (o, r').
Proof. unfold release. destruct (released r); by eexists _, _. Qed.

Lemma expected_refs cs x : x ∈ foldl set_add [] (ref <$> cs) ↔ x ∈ ref <$> cs.
Proof.
  assert (∀ l s, x ∈ foldl set_add s l ↔ x ∈ s ∨ x ∈ l) as H.
  { induction l as [|y l IH]; intros s; cbn [foldl]; [rewrite elem_of_nil; tauto|]. rewrite IH, elem_of_cons. unfold set_add.
    case_bool_decide; [|rewrite elem_of_app, list_elem_of_singleton; tauto]. naive_solver. }
  rewrite H, elem_of_nil. tauto.
Qed.

(** C18: [parseStatus] ends for every answer of a remote, and what it reports is what the remote
    said: the bytes are then a line for the unpacking, one line for each command, in any order
    and for nothing else, a flush, and no more; each command has the status of its line, in the
    order of the commands.  No reference succeeds when unpacking failed, and an atomic push
    succeeds or fails as a whole. *)
Theorem parseStatus_correct body commands atomic limits :
  ∃ o, parseStatus body commands atomic limits = Some o ∧
  match o with
  | Ok st =>
      ∃ first lines results last,
        ending body = Ok tt ∧ decoded (Ok tt) (mjoin (items body)) (first :: lines ++ [last]) [] ∧ kind last = flush ∧
        says first (unpack_line (unpack st)) ∧ Forall2 (λ p result, says p (result_line result)) lines results ∧
        st_refs st ≡ₚ results ∧ (st_refs st).*1 = ref <$> commands ∧ consistent atomic (unpack st) (st_refs st)
  | Throw _ => True
  end.
Proof.
  unfold parseStatus. set (expected := foldl _ _ _). set (r := new_ByteReader (items body) (ending body)).
  assert (reader_ok r) as Hok by apply reader_new_ok.
  destruct (packet_loop_ends (until_flush (status_packet limits expected)) (corrupt_text "truncated receive-pack status") (reader_fuel r)
              (mkStatuses [] None (mkBudget 0 0)) r Hok (rest_fuel r)) as (o1 & r1 & Hloop & H1).
  assert (p_fueled reader_fuel (status_loop limits expected) r = Some (o1, r1)) as Hl by exact Hloop. clear Hloop.
  unfold p_finally. destruct o1 as [s|e].
  2:{ rewrite (p_bind_throw _ _ _ _ _ Hl). destruct (release_ends r1) as ([?|?] & r2 & ->); by eexists. }
  destruct H1 as (ps & Hrounds & Hd & Hok1 & Ho1). destruct (requireStreamEnd_ends "status" r1 Hok1) as (o2 & r2 & Hend & He).
  proceed_by Hl. destruct o2 as [[]|e].
  2:{ rewrite (p_bind_throw _ _ _ _ _ Hend). destruct (release_ends r2) as ([?|?] & r3 & ->); by eexists. }
  proceed_by Hend. unfold p_lift. destruct (finish_status commands atomic limits s) as [st|e] eqn:Hfin.
  2:{ destruct (release_ends r2) as ([?|?] & r3 & ->); by eexists. }
  destruct (release_ends r2) as ([?|?] & r3 & ->); [|by eexists]. exists (Ok st). split; [done|]. destruct (He eq_refl) as [Hrest Hsrc].
  rewrite (open_end _ _ Ho1) in Hsrc. change (source_end r) with (ending body) in Hsrc, Hd. rewrite Hsrc in Hd. change (rest_bytes r) with (mjoin (items body)) in Hd.
  apply until_flush_rounds in Hrounds as (qs & last & -> & Hlast & _ & Hfor). apply (status_packets_read _ _ _ []) in Hfor; [|by split]. cbn [app] in Hfor.
  unfold read_as in Hfor. destruct (s_unpack s) as [u|] eqn:Eu; [|unfold finish_status in Hfin; by rewrite Eu in Hfin].
  destruct Hfor as (first & lines & -> & Hf & Hls & Hnd & Hall).
  destruct (finish_status_inv commands atomic limits s u st Eu Hnd) as (Hu & Hk & Hp & Hc); [|done|].
  { apply (Forall_impl _ _ _ Hall). intros x. apply expected_refs. }
  exists first, lines, (s_received s), last. subst u. rewrite Hrest in Hd. by split_and!.
Qed.
