(* ===== verification/PushFacts.v ===== *)
(** A push to this program's own server: the client reports what the server answered. *)

From S2P Require Import Prelude Utf8 Text Bytes Objects Streams RefName JsMap Process PktLine PktLineFacts Protocol ProtocolFacts RemoteRefs RemoteRefsFacts ReceivePack ReceivePackFacts ReceiveStatus ReceiveStatusFacts.

(** * Lines the server writes *)

Definition status_ok_line (l : ParsedStatusLine) : Prop :=
  text_ok (status_text l) ∧ existsb line_breaker (status_text l) = false ∧
  match l with
  | unpack_line text => text ≠ []
  | ok_line ref => ref ≠ [] ∧ SPACE ∉ ref
  | ng_line ref text => ref ≠ [] ∧ (SPACE ∉ ref) ∧ text ≠ []
  end.

Definition status_packet_of (l : ParsedStatusLine) : Pkt := text_packet (line_text (status_text l)).

Lemma zlen_pos {A} (l : list A) : l ≠ [] → 0 < zlen l.
Proof. destruct l; [done|]. intros _. rewrite zlen_cons. pose proof (zlen_nonneg l). lia. Qed.

Lemma parseStatusLine_ok l : status_ok_line l → parseStatusLine (status_text l) = Ok l.
Proof.
  intros (_ & _ & Hl). unfold parseStatusLine. destruct l as [text|ref|ref text]; cbn [status_text].
  - rewrite startsWith_app, slice_from_app. by rewrite bool_decide_eq_false_2.
  - destruct Hl as [Hne Hs]. assert (startsWith (js "ok " ++ ref) (js "unpack ") = false) as -> by done.
    rewrite startsWith_app, (slice_from_app (js "ok ")). by rewrite !bool_decide_eq_false_2.
  - destruct Hl as (Hne & Hs & Ht). assert (startsWith (js "ng " ++ ref ++ js " " ++ text) (js "unpack ") = false) as -> by done.
    assert (startsWith (js "ng " ++ ref ++ js " " ++ text) (js "ok ") = false) as -> by done. rewrite startsWith_app, (slice_from_app (js "ng ")).
    change (ref ++ js " " ++ text) with (ref ++ SPACE :: text). rewrite indexOf_spec by done. pose proof (zlen_pos ref Hne). pose proof (zlen_pos text Ht).
    rewrite (proj2 (Z.ltb_ge (zlen ref) 0)) by lia. rewrite !zlen_app, zlen_cons. change (zlen (js "ng ")) with 3.
    rewrite (proj2 (Z.ltb_ge _ 4)), (proj2 (Z.eqb_neq _ _)) by lia. cbn [orb]. do 2 f_equal.
    + replace (zlen ref + 3) with (3 + zlen ref) by lia. exact (slice_app_mid (js "ng ") ref (SPACE :: text)).
    + change (ref ++ SPACE :: text) with (ref ++ [SPACE] ++ text). rewrite (app_assoc ref), (app_assoc (js "ng ")).
      replace (zlen ref + 3 + 1) with (zlen (js "ng " ++ ref ++ [SPACE])) by (rewrite !zlen_app; change (zlen (js "ng ")) with 3; change (zlen [SPACE]) with 1; lia).
      by rewrite slice_from_app.
Qed.

Lemma status_head l : ∃ u rest, status_text l = u :: rest ∧ 0 < u < 128.
Proof. destruct l; cbn [status_text]; do 2 eexists; (split; [reflexivity|by vm_compute]). Qed.

Lemma decodeLine_ok l context : status_ok_line l → decodeLine (status_packet_of l) context = Ok (status_text l).
Proof.
  intros (Ht & Hb & _). unfold decodeLine, status_packet_of, text_packet, line_text. cbn [kind payload]. rewrite bool_decide_eq_true_2 by done.
  rewrite encode_app by apply Ht. change (encode [0x0a]) with [0x0a]. rewrite zlen_app. change (zlen [0x0a]) with 1. pose proof (zlen_nonneg (encode (status_text l))).
  rewrite (proj2 (Z.eqb_neq _ 0)) by lia. cbn [negb orb]. rewrite last_snoc, bool_decide_eq_true_2 by done. cbn [negb]. rewrite removelast_last.
  destruct (status_head l) as (u & rest & E & Hu). rewrite decode_fatal_line, Hb; [done|done|]. rewrite E. cbn. intros [= ->]. lia.
Qed.

(** * Reading them *)

Definition plain_limits (limits : ResolvedStatusLimits) : Prop :=
  lineBytes limits = MAX_PKT_PAYLOAD_BYTES ∧ inputBytes limits = None ∧ retainedBytes limits = None.

Lemma budget_ok limits b p :
  plain_limits limits → kind p = line → zlen (payload p) <= MAX_PKT_PAYLOAD_BYTES → b_entries b < entries limits →
  budget_packet limits b p = Ok (mkBudget (b_entries b + 1) (b_inputBytes b)).
Proof.
  intros (Hl & Hi & _) Hk Hp He. unfold budget_packet. rewrite Hk, Hl, Hi. by rewrite (proj2 (Z.ltb_ge _ _)), (proj2 (Z.leb_gt _ _)).
Qed.

Definition status_result (l : ParsedStatusLine) : option (ustring * ReceivePackRefStatus) :=
  match l with
  | unpack_line _ => None
  | ok_line ref => Some (ref, mkRefStatus true None)
  | ng_line ref text => Some (ref, mkRefStatus false (Some text))
  end.

Lemma status_packet_ok limits expected s l x v u :
  plain_limits limits → status_ok_line l → fits (status_packet_of l) → b_entries (s_budget s) < entries limits →
  status_result l = Some (x, v) → s_unpack s = Some u → x ∈ expected → x ∉ (s_received s).*1 →
  ∃ b, b_entries b = b_entries (s_budget s) + 1 ∧
    status_packet limits expected s (status_packet_of l) = Ok (mkStatuses (s_received s ++ [(x, v)]) (Some u) b).
Proof.
  intros Hlim Hl Hf Hb Hr Hu Hx Hn. unfold status_packet. rewrite budget_ok by done. cbn [mbind outcome_bind].
  rewrite decodeLine_ok by done. cbn [mbind outcome_bind]. rewrite parseStatusLine_ok by done. cbn [mbind outcome_bind]. rewrite Hu.
  assert (∀ b, received_status expected (mkStatuses (s_received s) (Some u) b) x v = Ok (mkStatuses (s_received s ++ [(x, v)]) (Some u) b)) as Hrec.
  { intros b. unfold received_status. cbn [s_unpack s_received s_budget]. rewrite bool_decide_eq_false_2, (bool_decide_eq_true_2 (x ∈ expected)) by done.
    cbn [negb]. destruct (map_has (s_received s) x) eqn:Eh; [by apply map_has_spec in Eh|]. by rewrite map_set_new by by apply map_get_None. }
  eexists. split; [|destruct l; [done|..]; injection Hr as <- <-; apply Hrec]. done.
Qed.

Lemma status_packets_ok limits expected u ls : ∀ results s,
  plain_limits limits → Forall status_ok_line ls → Forall fits (status_packet_of <$> ls) → b_entries (s_budget s) + zlen ls <= entries limits →
  status_result <$> ls = Some <$> results → s_unpack s = Some u → Forall (λ x, x ∈ expected) results.*1 → NoDup ((s_received s).*1 ++ results.*1) →
  ∃ s', for_items (status_packet limits expected) s (status_packet_of <$> ls) = Ok s' ∧ s_received s' = s_received s ++ results ∧ s_unpack s' = Some u.
Proof.
  induction ls as [|l ls IH]; intros results s Hlim Hok Hf Hb Hr Hu Hx Hnd.
  { destruct results; [|done]. exists s. by rewrite app_nil_r. }
  destruct results as [|[x v] results]; [done|]. rewrite !fmap_cons in Hr. injection Hr as Hr1 Hr. apply Forall_cons in Hok as [Hl Hok].
  rewrite fmap_cons in Hf. apply Forall_cons in Hf as [Hf1 Hf]. rewrite fmap_cons in Hx, Hnd. apply Forall_cons in Hx as [Hx1 Hx]. rewrite zlen_cons in Hb.
  pose proof (zlen_nonneg ls).
  assert (x ∉ (s_received s).*1) as Hfresh by (intros Hin; apply NoDup_app in Hnd as (_ & H' & _); apply (H' _ Hin); by left).
  destruct (status_packet_ok limits expected s l x v u) as (b & Eb & Hs); try done; [lia|]. rewrite fmap_cons. cbn [for_items]. rewrite Hs. cbn [mbind outcome_bind].
  destruct (IH results (mkStatuses (s_received s ++ [(x, v)]) (Some u) b)) as (s' & Hfor & Hrec & Hu'); cbn [s_received s_unpack s_budget]; try done; [lia| |].
  - rewrite fmap_app, <- app_assoc. exact Hnd.
  - exists s'. cbn [s_received] in Hrec. split_and!; [done|by rewrite Hrec, <- app_assoc|done].
Qed.

(** The whole answer, the line of the unpacking first. *)
Lemma status_lines_ok limits expected u ls results :
  plain_limits limits → Forall status_ok_line (unpack_line u :: ls) → Forall fits (status_packet_of <$> unpack_line u :: ls) → 1 + zlen ls <= entries limits →
  status_result <$> ls = Some <$> results → Forall (λ x, x ∈ expected) results.*1 → NoDup results.*1 →
  ∃ s', for_items (status_packet limits expected) (mkStatuses [] None (mkBudget 0 0)) (status_packet_of <$> unpack_line u :: ls) = Ok s' ∧
    s_received s' = results ∧ s_unpack s' = Some u.
Proof.
  intros Hlim Hok Hf Hb Hr Hx Hnd. apply Forall_cons in Hok as [Hl Hok]. rewrite fmap_cons in Hf |- *. apply Forall_cons in Hf as [Hf1 Hf]. cbn [for_items].
  pose proof (zlen_nonneg ls).
  assert (status_packet limits expected (mkStatuses [] None (mkBudget 0 0)) (status_packet_of (unpack_line u)) = Ok (mkStatuses [] (Some u) (mkBudget 1 0))) as ->.
  { unfold status_packet. rewrite budget_ok by (done || cbn; lia). cbn [mbind outcome_bind]. rewrite decodeLine_ok by done. cbn [mbind outcome_bind].
    by rewrite parseStatusLine_ok. }
  cbn [mbind outcome_bind]. destruct (status_packets_ok limits expected u ls results (mkStatuses [] (Some u) (mkBudget 1 0))) as (s' & Hfor & Hrec & Hu'); try done.
  exists s'. by split_and!.
Qed.

(** * The result *)

Lemma count_status_ok received cs vs : ∀ s f b,
  Forall2 (λ c v, map_get received (ref c) = Some v) cs vs →
  ∃ b', for_items (count_status received) (s, f, b) cs = Ok (s + zlen (filter (λ v, ok v = true) vs), f + zlen (filter (λ v, ok v = false) vs), b').
Proof.
  intros s f b H. revert s f b. induction H as [|c v cs vs Hc _ IH]; intros s f b; cbn [for_items]; [exists b; by rewrite !Z.add_0_r|].
  assert (∃ B, count_status received (s, f, b) c = Ok (if ok v then (s + 1, f, B) else (s, f + 1, B))) as [B ->].
  { unfold count_status. rewrite Hc. eexists. reflexivity. }
  rewrite !filter_cons. destruct (ok v); cbn [mbind outcome_bind];
    [destruct (IH (s + 1) f B) as [b' ->]|destruct (IH s (f + 1) B) as [b' ->]]; exists b'; repeat case_decide; try done; rewrite zlen_cons; do 3 f_equal; lia.
Qed.

Lemma copy_status_ok (received : jsmap ustring ReceivePackRefStatus) cs vs : ∀ refs,
  Forall2 (λ c v, map_get received (ref c) = Some v) cs vs → NoDup (refs.*1 ++ (ref <$> cs)) →
  for_items (copy_status received) refs cs = Ok (refs ++ zip (ref <$> cs) vs).
Proof.
  intros refs H. revert refs. induction H as [|c v cs vs Hc _ IH]; intros refs Hnd; cbn [for_items]; [by rewrite app_nil_r|].
  assert (copy_status received refs c = Ok (map_set refs (ref c) v)) as -> by (unfold copy_status; by rewrite Hc). cbn [mbind outcome_bind].
  rewrite fmap_cons in Hnd. assert (ref c ∉ refs.*1) as Hn by (intros Hin; apply NoDup_app in Hnd as (_ & H' & _); apply (H' _ Hin); by left).
  rewrite map_set_new by by apply map_get_None. rewrite IH; [by rewrite <- app_assoc|]. rewrite fmap_app, <- app_assoc. exact Hnd.
Qed.

Lemma values_of (received : jsmap ustring ReceivePackRefStatus) (cs : list ReceivePackCommand) :
  received.*1 ≡ₚ ref <$> cs → ∃ vs, Forall2 (λ c v, map_get received (ref c) = Some v) cs vs.
Proof.
  intros Hperm. assert (Forall (λ c, is_Some (map_get received (ref c))) cs) as Hall.
  { apply Forall_forall. intros c Hc. apply map_get_is_Some. rewrite Hperm. by apply list_elem_of_fmap_2. }
  clear Hperm. induction Hall as [|c cs [v Hv] _ [vs IH]]; [by exists []; constructor|]. exists (v :: vs). by constructor.
Qed.

Lemma filter_none (b : bool) (vs : list ReceivePackRefStatus) : Forall (λ v, ok v = negb b) vs → filter (λ v, ok v = b) vs = [].
Proof. induction 1 as [|v vs Hv _ IH]; [done|]. rewrite filter_cons, IH, Hv. case_decide; [by destruct b|done]. Qed.

Lemma finish_status_ok commands atomic limits s unpack :
  s_unpack s = Some unpack → NoDup (s_received s).*1 → (s_received s).*1 ≡ₚ ref <$> commands → retainedBytes limits = None →
  consistent atomic unpack (s_received s) →
  ∃ refs, finish_status commands atomic limits s = Ok (mkStatus unpack refs) ∧ refs.*1 = ref <$> commands ∧ refs ≡ₚ s_received s.
Proof.
  intros Hu Hnd Hperm Hlim [Hc1 Hc2]. unfold finish_status. rewrite Hu. set (received := s_received s) in *.
  assert (zlen received = zlen commands) as -> by (apply Permutation_length in Hperm; rewrite !length_fmap in Hperm; unfold zlen; lia).
  rewrite Z.eqb_refl. cbn [negb]. destruct (values_of received commands Hperm) as [vs Hvs].
  destruct (count_status_ok received commands vs 0 0 (RESULT_FIXED_BYTES + resultStringBytes unpack) Hvs) as [b' ->]. cbn [mbind outcome_bind].
  pose proof (zip_received received commands vs Hnd Hperm Hvs) as Hzip. pose proof (Forall2_length _ _ _ Hvs) as Hlen.
  assert (∀ P : ReceivePackRefStatus → Prop, Forall (λ r, P r.2) received → Forall P vs) as Hvals.
  { intros P HP. rewrite <- Hzip in HP. clear - HP Hlen. revert vs Hlen HP. induction commands as [|c cs IH]; intros [|v vs] Hlen; try done.
    cbn. intros [? ?]%Forall_cons. constructor; [done|]. apply IH; [|done]. by injection Hlen. }
  assert (negb (str_eqb unpack (js "ok")) && (0 <? 0 + zlen (filter (λ v, ok v = true) vs)) = false) as ->.
  { unfold str_eqb. case_bool_decide as E; [done|]. rewrite (filter_none true); [done|]. by apply (Hvals (λ v, ok v = negb true)), Hc1. }
  assert (atomic && (0 <? 0 + zlen (filter (λ v, ok v = true) vs)) && (0 <? 0 + zlen (filter (λ v, ok v = false) vs)) = false) as ->.
  { destruct atomic; [|done]. cbn [andb]. destruct (Hc2 eq_refl) as [H|H].
    - rewrite (filter_none false); [by rewrite andb_false_r|]. by apply (Hvals (λ v, ok v = negb false)).
    - rewrite (filter_none true); [done|]. by apply (Hvals (λ v, ok v = negb true)). }
  unfold validateLogical. rewrite Hlim. cbn [mbind outcome_bind]. rewrite (copy_status_ok received commands vs []); [|done|by rewrite <- Hperm].
  cbn [mbind outcome_bind app]. exists (zip (ref <$> commands) vs). split_and!; [done|by apply zip_values|done].
Qed.

(** * The round trip *)

Definition server_line (s : ServerRefStatus) : ParsedStatusLine :=
  match t_error s with None => ok_line (t_ref s) | Some e => ng_line (t_ref s) e end.
Definition server_result (s : ServerRefStatus) : ustring * ReceivePackRefStatus :=
  (t_ref s, match t_error s with None => mkRefStatus true None | Some e => mkRefStatus false (Some e) end).

(** The texts of an answer are ones that UTF-8 carries. *)
Definition answer_texts (unpack : ustring) (statuses : list ServerRefStatus) : Prop :=
  text_ok unpack ∧ Forall (λ s, units (t_ref s) ∧ ∀ e, t_error s = Some e → text_ok e) statuses.

Lemma existsb_app_false {A} (f : A → bool) a b : existsb f a = false → existsb f b = false → existsb f (a ++ b) = false.
Proof. intros Ha Hb. by rewrite existsb_app, Ha, Hb. Qed.

Lemma requireStatusText_ok t : requireStatusText t = Ok tt → t ≠ [] ∧ existsb line_breaker t = false.
Proof.
  unfold requireStatusText. destruct (zlen t =? 0) eqn:E; [done|]. destruct (existsb _ _); [done|]. zbool. intros _. split; [|done]. by intros ->.
Qed.

Lemma name_breaker name : server_name name → existsb line_breaker name = false.
Proof.
  intros Hn. apply not_true_is_false. rewrite existsb_exists. intros (u & Hu%list_elem_of_In & Hb). unfold line_breaker in Hb.
  revert Hu. apply (name_no_break name u Hn). rewrite !orb_true_iff, !Z.eqb_eq in Hb. tauto.
Qed.

Lemma text_ok_js s : ascii s → text_ok s.
Proof. apply text_ok_ascii. Qed.

Lemma server_line_ok s :
  server_name (t_ref s) → (∀ e, t_error s = Some e → text_ok e ∧ e ≠ [] ∧ existsb line_breaker e = false) → status_ok_line (server_line s).
Proof.
  intros Hn He. unfold server_line. assert (t_ref s ≠ []) as Hne by (intros E; destruct (name_branch _ Hn) as [H|H]; by rewrite E in H).
  pose proof (name_breaker _ Hn). destruct (t_error s) as [e|]; cbn [status_text]; (split; [|split]).
  - destruct (He e eq_refl) as (? & _). repeat apply text_ok_app; try by apply text_ok_js, ascii_decided. { apply Hn. } done.
  - destruct (He e eq_refl) as (_ & _ & ?). by repeat apply existsb_app_false.
  - destruct (He e eq_refl) as (_ & ? & _). split_and!; [done|by apply name_no_space|done].
  - apply text_ok_app; [by apply text_ok_js, ascii_decided|apply Hn].
  - by apply existsb_app_false.
  - split; [done|by apply name_no_space].
Qed.

Lemma encode_statuses_inv statuses : ∀ frames,
  Forall (λ s, units (t_ref s) ∧ ∀ e, t_error s = Some e → text_ok e) statuses → encode_statuses statuses = mkYields frames (Ok tt) →
  Forall status_ok_line (server_line <$> statuses) ∧ Forall fits (status_packet_of <$> (server_line <$> statuses)) ∧
  frames = wire_of <$> ((status_packet_of <$> (server_line <$> statuses)) ++ [flush_packet]).
Proof.
  induction statuses as [|s statuses IH]; intros frames Ht; cbn [encode_statuses]; [intros [= <-]; by repeat constructor|].
  apply Forall_cons in Ht as [[Hu Hte] Ht]. intros ([] & Hr & H)%then_yields_inv. apply requireServerRef_ok in Hr; [|done].
  assert (∃ frames', encode_statuses statuses = mkYields frames' (Ok tt) ∧ fits (status_packet_of (server_line s)) ∧
    frames = wire_of (status_packet_of (server_line s)) :: frames' ∧ ∀ e, t_error s = Some e → e ≠ [] ∧ existsb line_breaker e = false)
    as (frames' & Hrest & Hf & -> & He).
  { unfold server_line, status_packet_of, line_text. destruct (t_error s) as [e|]; cbn [status_text].
    - apply then_yields_inv in H as ([] & He & H). apply requireStatusText_ok in He. apply yield_pkt_inv in H as (Hf & frames' & H & ->).
      exists frames'. rewrite <- !app_assoc. split_and!; [done|done|done|]. by intros ? [= <-].
    - apply yield_pkt_inv in H as (Hf & frames' & H & ->). exists frames'. rewrite <- !app_assoc. by split_and!. }
  destruct (IH _ Ht Hrest) as (Hok & Hfits & ->). rewrite !fmap_cons. split_and!; [|by constructor|done]. constructor; [|done].
  apply server_line_ok; [done|]. intros e E. destruct (He e E). split_and!; [by apply Hte|done|done].
Qed.

Lemma encodeReceiveStatus_inv unpack statuses frames :
  answer_texts unpack statuses → encodeReceiveStatus unpack statuses = mkYields frames (Ok tt) →
  let lines := unpack_line unpack :: (server_line <$> statuses) in
  Forall status_ok_line lines ∧ Forall fits (status_packet_of <$> lines) ∧ frames = wire_of <$> ((status_packet_of <$> lines) ++ [flush_packet]).
Proof.
  intros [Ht Hts] ([] & Hu & H)%then_yields_inv. apply requireStatusText_ok in Hu as [Hne Hb]. apply yield_pkt_inv in H as (Hf & frames' & H & ->).
  destruct (encode_statuses_inv statuses frames' Hts H) as (Hok & Hfits & ->). cbn zeta. rewrite fmap_cons.
  assert (status_packet_of (unpack_line unpack) = text_packet (js "unpack " ++ unpack ++ NEWLINE)) as E
    by (unfold status_packet_of, line_text; cbn [status_text]; by rewrite <- app_assoc).
  rewrite E. split_and!; [|by constructor|done]. constructor; [|done]. split_and!; [|by apply existsb_app_false|done].
  apply text_ok_app; [by apply text_ok_js, ascii_decided|done].
Qed.

Lemma server_results (statuses : list ServerRefStatus) : status_result <$> (server_line <$> statuses) = Some <$> (server_result <$> statuses).
Proof.
  rewrite <- !list_fmap_compose. apply list_fmap_ext. intros _ s _. unfold compose, server_line, server_result. by destruct (t_error s).
Qed.

Lemma refs_of_results (statuses : list ServerRefStatus) : (server_result <$> statuses).*1 = t_ref <$> statuses.
Proof. by rewrite <- list_fmap_compose. Qed.

Lemma default_limits : resolvedStatusLimits None = Ok (mkStatusLimits None None MAX_RECEIVE_PACK_STATUS_PACKETS MAX_PKT_PAYLOAD_BYTES).
Proof. done. Qed.

(** The client's side, after the response arrived. *)
Lemma parseStatus_server commands limits unpack statuses frames chunks :
  plain_limits limits → 1 + zlen statuses <= entries limits → answer_texts unpack statuses →
  encodeReceiveStatus unpack statuses = mkYields frames (Ok tt) → mjoin chunks = mjoin frames →
  NoDup (ref <$> commands) → t_ref <$> statuses ≡ₚ ref <$> commands → (unpack ≠ js "ok" → Forall (λ s, is_Some (t_error s)) statuses) →
  ∃ refs, parseStatus (mkYields chunks (Ok tt)) commands false limits = Some (Ok (mkStatus unpack refs)) ∧
    refs.*1 = ref <$> commands ∧ refs ≡ₚ server_result <$> statuses.
Proof.
  intros Hlim Hn Ht He Hc Hnd Hperm Hcons. destruct (encodeReceiveStatus_inv _ _ _ Ht He) as (Hok & Hfits & ->).
  set (expected := foldl set_add [] (ref <$> commands)). set (r := new_ByteReader chunks (Ok tt)). set (lines := unpack_line unpack :: _) in *.
  assert (holds r ((status_packet_of <$> lines) ++ [flush_packet]) []) as Hr.
  { apply new_reader_leads; [apply Forall_app; split; [done|by repeat constructor]|]. by rewrite app_nil_r. }
  destruct (status_lines_ok limits expected unpack (server_line <$> statuses) (server_result <$> statuses)) as (s & Hfor & Hrec & Hu); try done.
  { unfold zlen in *. by rewrite length_fmap. }
  { apply server_results. }
  { rewrite refs_of_results. apply Forall_forall. intros x Hx. apply expected_refs. by rewrite <- Hperm. }
  { rewrite refs_of_results. by rewrite Hperm. }
  destruct (flush_loop_holds (status_packet limits expected) (corrupt_text "truncated receive-pack status") (mkStatuses [] None (mkBudget 0 0))
              (status_packet_of <$> lines) s r []) as (r' & Hloop & Hh & Hopen); [by apply Forall_fmap, Forall_forall|done|done|].
  destruct (read_end r' Hh) as (r2 & Hend & Hclosed); [by rewrite (open_end _ _ Hopen)|by rewrite (open_returned _ _ Hopen)|].
  assert (requireStreamEnd "status" r' = Some (Ok tt, r2)) as Hend' by (unfold requireStreamEnd; by proceed_by Hend).
  destruct (finish_status_ok commands false limits s unpack Hu) as (refs & Hfin & Hk & Hp); rewrite ?Hrec, ?refs_of_results; try done.
  { by rewrite Hperm. }
  { apply Hlim. }
  { split; [|done]. intros Hne. specialize (Hcons Hne). apply Forall_fmap, (Forall_impl _ _ _ Hcons). intros s' [e Hs]. unfold compose, server_result. by rewrite Hs. }
  exists refs. rewrite Hrec in Hp. split_and!; [|done|done]. unfold parseStatus. cbn [items ending]. fold r. fold expected.
  pose proof (release_closed _ _ Hclosed) as Hrel. rewrite (open_returned _ _ Hopen) in Hrel. change (returned r) with (@Ok unit tt) in Hrel.
  assert (p_fueled reader_fuel (status_loop limits expected) r = Some (Ok s, r')) as Hl by exact Hloop.
  erewrite p_finally_ok; [|rewrite (p_bind_ok _ _ _ _ _ Hl), (p_bind_ok _ _ _ _ _ Hend'); unfold p_lift; rewrite Hfin; reflexivity|exact Hrel]. done.
Qed.

(** C22: a client that pushes to this program's server reports what the server answered: if the
    server encodes one status for each command, in any order, and its response arrives cut into
    chunks anywhere, [receivePack] gives the server's word on the unpacking and, in the order of
    the commands, for each reference the success or the error the server gave it. *)
Theorem push_roundtrip request p unpack statuses frames chunks requestWithAuth aborted url base statusText :
  advertised_set request = RECEIVE_SERVER_CAPABILITIES → prepareRequest request = Ok p → normalizeRemoteUrl url = Ok base →
  answer_texts unpack statuses → encodeReceiveStatus unpack statuses = mkYields frames (Ok tt) → mjoin chunks = mjoin frames →
  t_ref <$> statuses ≡ₚ ref <$> p_commands p → (unpack ≠ js "ok" → Forall (λ s, is_Some (t_error s)) statuses) →
  requestWithAuth (base ++ js "/git-receive-pack") (requestBody p (p_pack p)) =
    inl (mkResponse 200 statusText (Some RESULT_TYPE) (mkYields chunks (Ok tt))) →
  ∃ refs, receivePack requestWithAuth aborted None url request = Some (Ok (mkStatus unpack refs)) ∧
    refs.*1 = ref <$> p_commands p ∧ refs ≡ₚ server_result <$> statuses.
Proof.
  intros Ha Hp Hbase Ht He Hc Hperm Hcons Hreq. pose proof (prepareRequest_inv _ _ Ha Hp) as Hprep. unfold receivePack.
  rewrite default_limits, Hp, Hbase. cbn [mbind outcome_bind]. rewrite Hreq. cbn [status content_type].
  change (200 =? 401) with false. change (200 =? 200) with true. cbn [negb].
  assert (str_eqb (trim (default [] (head (split 0x3b (default [] (Some RESULT_TYPE)))))) RESULT_TYPE = true) as -> by (vm_compute; reflexivity).
  cbn [negb]. unfold response_status. rewrite (prep_sideband _ _ Hprep), (prep_atomic _ _ Hprep). cbn [body mbind option_bind].
  destruct (parseStatus_server (p_commands p) (mkStatusLimits None None MAX_RECEIVE_PACK_STATUS_PACKETS MAX_PKT_PAYLOAD_BYTES) unpack statuses frames chunks)
    as (refs & Hparse & Hk & Hr); try done.
  - cbn [entries]. pose proof (prep_count _ _ Hprep) as Hn. apply Permutation_length in Hperm. rewrite !length_fmap in Hperm.
    unfold zlen, MAX_RECEIVE_PACK_COMMANDS, MAX_RECEIVE_PACK_STATUS_PACKETS in *. lia.
  - by apply (prep_refs _ _ Hprep).
  - exists refs. by rewrite Hparse.
Qed.

Definition example_statuses : list ServerRefStatus :=
  [mkServerStatus (js "refs/tags/v1") (Some (js "protected")); mkServerStatus (js "refs/heads/main") None].

Lemma push_roundtrip_witness :
  let chunks := (λ b, [b]) <$> mjoin (items (encodeReceiveStatus (js "ok") example_statuses)) in
  ∃ refs, receivePack (λ _ _, inl (mkResponse 200 [] (Some RESULT_TYPE) (mkYields chunks (Ok tt)))) false None (js "https://host/repo/") example_push =
      Some (Ok (mkStatus (js "ok") refs)) ∧
    refs.*1 = ref <$> p_commands example_prepared ∧ refs ≡ₚ server_result <$> example_statuses.
Proof.
  intros chunks.
  apply (push_roundtrip example_push example_prepared (js "ok") example_statuses (items (encodeReceiveStatus (js "ok") example_statuses)) chunks _ false
           (js "https://host/repo/") (js "https://host/repo") []).
  - reflexivity.
  - vm_compute. reflexivity.
  - vm_compute. reflexivity.
  - split; [split; [by apply units_by_compute|reflexivity]|].
    apply Forall_cons_2; [|apply Forall_cons_2; [|by apply Forall_nil_2]]; (split; [by apply units_by_compute|]); [intros e [= <-]|done].
    split; [by apply units_by_compute|reflexivity].
  - vm_compute. reflexivity.
  - vm_compute. reflexivity.
  - apply perm_swap.
  - by intros [].
  - reflexivity.
Defined.
