(* ===== verification/UploadPack.v ===== *)
(** Fetches: the client's src/packages/git/src/protocol/upload-pack.ts, the server's
    protocol/server/upload-request.ts, and its acknowledgements of ops/server/upload.ts. *)

From S2P Require Import Prelude Utf8 Text Bytes Objects RefName JsMap Process PktLine Protocol RemoteRefs ReceivePack ReceiveStatus.

(** * The request of the client *)

(** A depth is a number, [None] being one that is no safe integer. *)
Record UploadPackRequest := mkUpload {
  wants : list ustring; haves : option (list ustring); shallows : option (list ustring); depth : option (option Z);
  deepenRelative : field bool; includeTag : field bool; filter_of : field ustring; advertised : jsset; progress : option callback
}.

Record UploadPackResult := mkUploadResult { shallow : list ustring; unshallow : list ustring; result_pack : yields bytes }.

Definition BLOB_NONE : ustring := js "blob:none".

Definition negotiate (advertised : jsset) (wanted : list ustring) : list ustring := filter (λ capability, capability ∈ advertised) wanted.

Definition uploadPackFilter (value : field ustring) : outcome (option ustring) :=
  match value with
  | absent => Ok None
  | given value => if str_eqb value BLOB_NONE then Ok (Some value) else Throw (GitErr "EUNSUPPORTED" "unsupported upload-pack filter")
  | misfit => Throw (GitErr "EUNSUPPORTED" "unsupported upload-pack filter")
  end.

Definition unsupported (what : string) : jserror := GitError (js "EUNSUPPORTED") (js "remote does not support " ++ js what).

(** [f === true]. *)
Definition is_given_true (f : field bool) : bool := match f with given b => b | _ => false end.

(** The capabilities a relative deepening adds. *)
Definition relative_capabilities (request : UploadPackRequest) : outcome (list ustring) :=
  match deepenRelative request with
  | given true =>
      if bool_decide (depth request = None) then Throw (invalid "relative deepening requires an upload-pack depth")
      else if negb (bool_decide (js "deepen-relative" ∈ advertised request)) then Throw (unsupported "relative deepening")
      else Ok [js "deepen-relative"]
  | misfit => Throw (invalid "upload-pack deepenRelative must be a boolean")
  | _ => Ok []
  end.

Definition shallow_requested (request : UploadPackRequest) : bool :=
  bool_decide (is_Some (depth request)) || (0 <? zlen (default [] (shallows request))).

(** The capabilities of a request, and its filter. *)
Definition upload_capabilities (request : UploadPackRequest) : outcome (list ustring * option ustring) :=
  filter ← uploadPackFilter (filter_of request);
  _ ← throw_if (bool_decide (is_Some filter) && negb (bool_decide (js "filter" ∈ advertised request))) (unsupported "upload-pack filter");
  let wanted := [js "side-band-64k"; js "ofs-delta"; js "no-done"] ++ (if is_given_true (includeTag request) then [js "include-tag"] else []) in
  _ ← throw_if (shallow_requested request && negb (bool_decide (js "shallow" ∈ advertised request))) (unsupported "shallow fetches");
  let wanted := wanted ++ (if shallow_requested request then [js "shallow"] else []) in
  relative ← relative_capabilities request;
  let wanted := wanted ++ relative ++ (if bool_decide (progress request = None) then [js "no-progress"] else []) ++
                (match filter with Some _ => [js "filter"] | None => [] end) in
  Ok (negotiate (advertised request) wanted ++ [js "agent=" ++ AGENT], filter).

(** The checks after the capabilities. *)
Definition check_upload (request : UploadPackRequest) (entryLimit : Z) : outcome unit :=
  let shallows := default [] (shallows request) in
  let haves := default [] (haves request) in
  _ ← throw_if (zlen (wants request) =? 0) (GitErr "ENOWANT" "nothing to fetch");
  _ ← throw_if (entryLimit <? zlen (wants request) + zlen shallows + zlen haves) (GitErr "E2BIG" "protocol entry count exceeds its bounded limit");
  _ ← for_items (λ _ oid, throw_if (negb (isOid oid)) (CorruptError (js "invalid upload-pack object id " ++ oid))) tt
        (wants request ++ shallows ++ haves);
  match depth request with
  | None => Ok tt
  | Some (Some depth) => throw_if (negb (isSafeInteger depth) || (depth <=? 0)) (RangeError (js "upload-pack depth must be a positive safe integer"))
  | Some None => Throw (RangeError (js "upload-pack depth must be a positive safe integer"))
  end.

(** [want], [shallow] and [have] lines. *)
Definition oid_line (command : string) (oid : ustring) : ustring := js command ++ js " " ++ oid ++ NEWLINE.

(** The lines before the flush, and after it. *)
Definition want_lines (request : UploadPackRequest) (capabilities : list ustring) (filter : option ustring) : list ustring :=
  match wants request with
  | [] => []
  | oid :: oids => (js "want " ++ oid ++ js " " ++ join SPACE capabilities ++ NEWLINE) :: (oid_line "want" <$> oids)
  end ++ (oid_line "shallow" <$> default [] (shallows request)) ++
  (match depth request with Some (Some depth) => [js "deepen " ++ number_string depth ++ NEWLINE] | _ => [] end) ++
  (match filter with Some filter => [js "filter " ++ filter ++ NEWLINE] | None => [] end).
Definition have_lines (request : UploadPackRequest) : list ustring := (oid_line "have" <$> default [] (haves request)) ++ [js "done" ++ NEWLINE].

Definition push_line (body : list bytes) (text : ustring) : outcome (list bytes) := frame ← pkt_text text; Ok (body ++ [frame]).

(** [concatBody]: the parts written into an array of their whole size. *)
Definition concatBody (parts : list bytes) : outcome bytes := pkt_concat parts.

Definition upload_body (request : UploadPackRequest) (capabilities : list ustring) (filter : option ustring) : outcome bytes :=
  body ← for_items push_line [] (want_lines request capabilities filter);
  body ← for_items push_line (body ++ [FLUSH]) (have_lines request);
  concatBody body.

(** * The response *)

(** Band frames lead with 1, 2 or 3. *)
Definition isBandFrame (payload : bytes) : bool :=
  match payload with band :: _ => (1 <=? band) && (band <=? 3) | [] => false end.

(** What the loop over the response keeps; [u_first] is the first band frame, if that ended it. *)
Record Uploading := mkUploading {
  u_shallow : list ustring; u_unshallow : list ustring; shallowSet : jsset; unshallowSet : jsset; u_entries : Z; u_first : option bytes
}.

Section response.
  Context (entryLimit : Z) (requested : bool) (requestedShallows : list ustring) (useSideband : bool).

Definition both_error (oid : ustring) : jserror := CorruptError (js "upload-pack both shallowed and unshallowed " ++ oid).

Definition shallow_line (u : Uploading) (oid : ustring) : outcome Uploading :=
  entries ← countEntry entryLimit (u_entries u);
  if negb (isOid oid) then Throw (CorruptError (js "invalid shallow object id " ++ oid))
  else if negb requested then Throw (corrupt_text "unsolicited shallow response")
  else if bool_decide (oid ∈ unshallowSet u) then Throw (both_error oid)
  else Ok (mkUploading (u_shallow u ++ [oid]) (u_unshallow u) (set_add (shallowSet u) oid) (unshallowSet u) entries None).

Definition unshallow_line (u : Uploading) (oid : ustring) : outcome Uploading :=
  entries ← countEntry entryLimit (u_entries u);
  if negb (isOid oid) then Throw (CorruptError (js "invalid unshallow object id " ++ oid))
  else if negb (bool_decide (oid ∈ requestedShallows)) then Throw (CorruptError (js "upload-pack unshallowed an uncaptured object id " ++ oid))
  else if bool_decide (oid ∈ shallowSet u) then Throw (both_error oid)
  else Ok (mkUploading (u_shallow u) (u_unshallow u ++ [oid]) (shallowSet u) (set_add (unshallowSet u) oid) entries None).

(** One packet of the response. *)
Definition response_packet (u : Uploading) (packet : Pkt) : outcome (round Uploading) :=
  match kind packet with
  | line =>
      if useSideband && isBandFrame (payload packet)
      then Ok (leave (mkUploading (u_shallow u) (u_unshallow u) (shallowSet u) (unshallowSet u) (u_entries u) (Some (payload packet))))
      else
        let text := ownedPktText packet in
        if startsWith text (js "shallow ") then u ← shallow_line u (slice_from text 8); Ok (again u)
        else if startsWith text (js "unshallow ") then u ← unshallow_line u (slice_from text 10); Ok (again u)
        else if startsWith text (js "ERR ") then Throw (GitError (js "EFETCHFAIL") (slice_from text 4))
        else if startsWith text (js "ACK") || startsWith text (js "NAK") then Ok (if useSideband then again u else leave u)
        else Throw (CorruptError (js "unexpected upload-pack response: " ++ slice text 0 64))
  | _ => Ok (again u)
  end.

Definition read_response : reading Uploading :=
  p_catch (p_fueled reader_fuel (λ fuel, packet_loop fuel (corrupt_text "upload-pack response ended before the pack") response_packet
                                         (mkUploading [] [] [] [] 0 None)))
    (λ e, _ ← releaseReader; p_raise e).

End response.

(** One frame of the pack: the data it adds, if any. *)
Definition pack_frame (onProgress : option callback) (frame : bytes) : outcome (option bytes) :=
  match frame with
  | [] => Throw (corrupt_text "sideband response contains an invalid band")
  | band :: payload =>
      if band =? 1 then Ok (if 0 <? zlen payload then Some payload else None)
      else if band =? 2 then _ ← call onProgress (decode_lossy payload); Ok None
      else if band =? 3 then Throw (GitError (js "EFETCHFAIL") (trim (decode_lossy payload)))
      else Throw (corrupt_text "sideband response contains an invalid band")
  end.

(** The loop of the generator; [frame] is the one it has. *)
Fixpoint pack_loop (fuel : nat) (onProgress : option callback) (frame : option bytes) : generating :=
  match fuel with
  | O => λ _, None
  | S fuel =>
      let handle frame :=
        g_then (p_lift (pack_frame onProgress frame)) (λ data,
        match data with
        | Some data => g_yield data (pack_loop fuel onProgress None)
        | None => pack_loop fuel onProgress None
        end) in
      g_then throwIfAborted (λ _,
      match frame with
      | Some frame => handle frame
      | None =>
          g_then readPkt (λ packet,
          match packet with
          | None => g_then (p_raise (corrupt_text "sideband response ended before its flush") : reading unit) (λ _, g_end)
          | Some packet =>
              match kind packet with
              | flush => g_end
              | delim => pack_loop fuel onProgress None
              | line => handle (payload packet)
              end
          end)
      end)
  end.

Definition sideband (reader : ByteReader) (first : bytes) (onProgress : option callback) : option (yields bytes) :=
  fst <$> g_finally (pack_loop (S (reader_fuel reader)) onProgress (Some first)) releaseReader reader.

Definition rawPack (reader : ByteReader) : yields bytes := rest reader.

(** * The whole fetch *)

Definition upload_failed (response : GitHttpResponse) (aborted : bool) : outcome UploadPackResult :=
  text ← readErrorPrefix (body response) aborted;
  Throw (HttpError (js "git-upload-pack failed: " ++ number_string (status response) ++ js " " ++ statusText response ++ with_detail text)).

Definition upload_result (request : UploadPackRequest) (entryLimit : Z) (capabilities : list ustring) (response : GitHttpResponse) :
    option (outcome UploadPackResult) :=
  let useSideband := bool_decide (js "side-band-64k" ∈ capabilities) in
  r ← read_response entryLimit (shallow_requested request) (default [] (shallows request)) useSideband
        (new_ByteReader (items (body response)) (ending (body response)));
  match r with
  | (Throw e, _) => Some (Throw e)
  | (Ok u, reader) =>
      pack ← (match u_first u with Some first => sideband reader first (progress request) | None => Some (rawPack reader) end);
      Some (Ok (mkUploadResult (u_shallow u) (u_unshallow u) pack))
  end.

Definition uploadPack (requestWithAuth : ustring → bytes → outcome GitHttpResponse) (aborted : bool) (entries : option (option Z))
    (url : ustring) (request : UploadPackRequest) : option (outcome UploadPackResult) :=
  match (limit ← resolvedProtocolEntryLimit entries;
         base ← normalizeRemoteUrl url;
         '(capabilities, filter) ← upload_capabilities request;
         _ ← check_upload request limit;
         content ← upload_body request capabilities filter;
         response ← requestWithAuth (base ++ js "/git-upload-pack") content;
         Ok (limit, capabilities, response)) with
  | Throw e => Some (Throw e)
  | Ok (limit, capabilities, response) =>
      if negb (status response =? 200) then Some (upload_failed response aborted)
      else upload_result request limit capabilities response
  end.

(** * The server *)

Record ServerUploadRequest := mkServerUpload { q_wants : list ustring; q_haves : list ustring; done : bool; detailedAck : bool; q_sideband : bool }.

(** What the loop over the request keeps. *)
Record Negotiation := mkNegotiation { n_wants : jsset; n_haves : jsset; n_capabilities : jsset; wantsEnded : bool; n_done : bool; n_entries : Z }.

(** A want or a have: its name and what follows it. *)
Definition negotiate_line (n : Negotiation) (command oid : ustring) (more : list ustring) : outcome Negotiation :=
  if negb (str_eqb command (if wantsEnded n then js "have" else js "want"))
  then Throw (corrupt_text "unexpected upload command or command order")
  else
    _ ← requireServerOid oid false;
    capabilities ← (if negb (wantsEnded n) && (zlen (n_wants n) =? 0) then parseCapabilities (join SPACE more) UPLOAD_SERVER_CAPABILITIES
                    else if bool_decide (more = []) then Ok (n_capabilities n)
                    else Throw (corrupt_text "upload capabilities occur after the first want"));
    if n_entries n =? MAX_PROTOCOL_NEGOTIATION_ENTRIES
    then Throw (GitErr "E2BIG" "upload negotiation exceeds the bounded object-id set")
    else
      Ok (mkNegotiation (if wantsEnded n then n_wants n else set_add (n_wants n) oid) (if wantsEnded n then set_add (n_haves n) oid else n_haves n)
            capabilities (wantsEnded n) (n_done n) (n_entries n + 1)).

Definition negotiate_packet (n : Negotiation) (packet : Pkt) : outcome (round Negotiation) :=
  if bool_decide (kind packet = flush) then
    Ok (if wantsEnded n then leave n
        else again (mkNegotiation (n_wants n) (n_haves n) (n_capabilities n) true (n_done n) (n_entries n)))
  else
    text ← serverPacketText packet;
    if str_eqb text (js "done") && wantsEnded n
    then Ok (leave (mkNegotiation (n_wants n) (n_haves n) (n_capabilities n) (wantsEnded n) true (n_entries n)))
    else
      match split SPACE text with
      | command :: oid :: more => n ← negotiate_line n command oid more; Ok (again n)
      | _ => Throw (corrupt_text "unexpected upload command or command order")
      end.

(** What follows the loop. *)
Definition finish_negotiation (n : Negotiation) : reading ServerUploadRequest :=
  if zlen (n_wants n) =? 0 then p_raise (corrupt_text "upload request contains no wants")
  else
    trailing ← readPkt;
    match trailing with
    | Some _ => p_raise (corrupt_text "bytes follow the upload request terminal packet")
    | None =>
        mret (mkServerUpload (n_wants n) (n_haves n) (n_done n) (bool_decide (js "multi_ack_detailed" ∈ n_capabilities n))
                (bool_decide (js "side-band-64k" ∈ n_capabilities n)))
    end.

Definition no_negotiation : Negotiation := mkNegotiation [] [] [] false false 0.

Definition parseUploadPackRequest (body : yields bytes) : option (outcome ServerUploadRequest) :=
  fst <$> p_finally
    (n ← p_fueled reader_fuel (λ fuel, packet_loop fuel (corrupt_text "upload request ended before its terminal packet") negotiate_packet no_negotiation);
     finish_negotiation n) releaseReader (new_ByteReader (items body) (ending body)).

(** The answer to the haves, with what follows it. *)
Fixpoint yield_acks (oids : list ustring) (rest : yields bytes) : yields bytes :=
  match oids with
  | [] => rest
  | oid :: oids => then_yields (encodeAck (Some oid) (Some common)) (λ frame, yielding frame (yield_acks oids rest))
  end.

Definition acknowledgement (request : ServerUploadRequest) (common : list ustring) (rest : yields bytes) : yields bytes :=
  let yield_ack oid kind (rest : yields bytes) := then_yields (encodeAck oid kind) (λ frame, yielding frame rest) in
  let answer :=
    if done request then yield_ack (last common) None rest
    else
      match (if detailedAck request then last common else None) with
      | Some oid => yield_ack (Some oid) (Some ready) (yield_ack None None rest)
      | None => yield_ack None None rest
      end in
  if detailedAck request then yield_acks common answer else answer.

(** The response of [uploadPack]: the pack follows the acknowledgement when there is one. *)
Definition upload_response (request : ServerUploadRequest) (common : list ustring) (selected : option (yields bytes)) : option (yields bytes) :=
  pack ← (match selected with Some pack => encodePackResponse pack (q_sideband request) | None => Some (mkYields [] (Ok tt)) end);
  Some (acknowledgement request common pack).
