(* ===== verification/UploadRequestFacts.v ===== *)
(** What the server accepts as a fetch request: exactly the conversations of the protocol. *)

From S2P Require Import Prelude Utf8 Text Bytes Objects Streams RefName JsMap Process PktLine PktLineFacts Protocol ProtocolFacts RemoteRefs RemoteRefsFacts ReceivePack ReceivePackFacts ReceiveStatus ReceiveStatusFacts UploadPack.

(** * One packet *)

(** The packet is a line of these fields. *)
Definition has_fields (p : Pkt) (fields : list ustring) : Prop := ∃ text, serverPacketText p = Ok text ∧ split SPACE text = fields.

Definition valid_oid (oid : ustring) : Prop := requireServerOid oid false = Ok tt.

Lemma has_fields_line p fields : has_fields p fields → kind p = line.
Proof. intros (t & Ht & _). unfold serverPacketText in Ht. by destruct (kind p). Qed.

Lemma has_fields_eq p f1 f2 : has_fields p f1 → has_fields p f2 → f1 = f2.
Proof. intros (t1 & E1 & <-) (t2 & E2 & <-). congruence. Qed.

Lemma fields_done text : split SPACE text = [js "done"] ↔ text = js "done".
Proof. split; [intros E; by rewrite <- (join_split SPACE text), E|by intros ->]. Qed.

(** The capabilities after a line. *)
Definition line_capabilities (n : Negotiation) (more : list ustring) (caps : jsset) : Prop :=
  if negb (wantsEnded n) && (zlen (n_wants n) =? 0) then parseCapabilities (join SPACE more) UPLOAD_SERVER_CAPABILITIES = Ok caps
  else more = [] ∧ caps = n_capabilities n.

Definition with_oid (n : Negotiation) (oid : ustring) (caps : jsset) : Negotiation :=
  mkNegotiation (if wantsEnded n then n_wants n else set_add (n_wants n) oid) (if wantsEnded n then set_add (n_haves n) oid else n_haves n)
    caps (wantsEnded n) (n_done n) (n_entries n + 1).

Definition ended (n : Negotiation) : Negotiation := mkNegotiation (n_wants n) (n_haves n) (n_capabilities n) true (n_done n) (n_entries n).
Definition finished (n : Negotiation) : Negotiation := mkNegotiation (n_wants n) (n_haves n) (n_capabilities n) (wantsEnded n) true (n_entries n).

Lemma negotiate_line_iff n command oid more n' :
  negotiate_line n command oid more = Ok n' ↔
  command = (if wantsEnded n then js "have" else js "want") ∧ valid_oid oid ∧ n_entries n ≠ MAX_PROTOCOL_NEGOTIATION_ENTRIES ∧
  ∃ caps, line_capabilities n more caps ∧ n' = with_oid n oid caps.
Proof.
  unfold negotiate_line, line_capabilities, valid_oid, str_eqb. case_bool_decide as Hc; cbn [negb]; [|split; [done|by intros [? _]]].
  destruct (requireServerOid oid false) as [[]|e]; cbn [mbind outcome_bind]; [|split; [done|by intros (_ & [=] & _)]].
  destruct (negb (wantsEnded n) && (zlen (n_wants n) =? 0)).
  - destruct (parseCapabilities _ _) as [caps|e]; cbn [mbind outcome_bind]; [|split; [done|by intros (_ & _ & _ & ? & [=] & _)]].
    destruct (Z.eqb_spec (n_entries n) MAX_PROTOCOL_NEGOTIATION_ENTRIES); [split; [done|by intros (_ & _ & ? & _)]|].
    split; [intros [= <-]; split_and!; try done; by exists caps|]. intros (_ & _ & _ & ? & [= <-] & ->). done.
  - case_bool_decide as Hm; cbn [mbind outcome_bind]; [|split; [done|by intros (_ & _ & _ & ? & [? _] & _)]].
    destruct (Z.eqb_spec (n_entries n) MAX_PROTOCOL_NEGOTIATION_ENTRIES); [split; [done|by intros (_ & _ & ? & _)]|].
    split; [intros [= <-]; split_and!; try done; by eexists|]. intros (_ & _ & _ & ? & [_ ->] & ->). done.
Qed.

(** The three ways a packet is taken. *)
Lemma negotiate_again_iff n p n' :
  negotiate_packet n p = Ok (again n') ↔
  (kind p = flush ∧ wantsEnded n = false ∧ n' = ended n) ∨
  ∃ command oid more, has_fields p (command :: oid :: more) ∧ negotiate_line n command oid more = Ok n'.
Proof.
  unfold negotiate_packet. case_bool_decide as Hk.
  { destruct (wantsEnded n); split; try done; try (by intros [(_ & [=] & _)|(? & ? & ? & Hf & _)]; apply has_fields_line in Hf; congruence).
    - intros [= <-]. by left.
    - intros [(_ & _ & ->)|(? & ? & ? & Hf & _)]; [done|]. apply has_fields_line in Hf. congruence. }
  split.
  - intros (t & Ht & H)%bind_ok_inv. destruct (_ && _); [done|]. right. destruct (split SPACE t) as [|command [|oid more]] eqn:Es; try done.
    apply bind_ok_inv in H as (n1 & Hl & [= <-]). exists command, oid, more. split; [by exists t|done].
  - intros [(? & _)|(command & oid & more & (t & Ht & Es) & Hl)]; [done|]. rewrite Ht. cbn [mbind outcome_bind].
    assert (str_eqb t (js "done") = false) as -> by (unfold str_eqb; apply bool_decide_eq_false_2; intros ->; done).
    cbn [andb]. rewrite Es, Hl. done.
Qed.

Lemma negotiate_leave_iff n p n' :
  negotiate_packet n p = Ok (leave n') ↔
  wantsEnded n = true ∧ ((kind p = flush ∧ n' = n) ∨ (has_fields p [js "done"] ∧ n' = finished n)).
Proof.
  unfold negotiate_packet. case_bool_decide as Hk.
  { destruct (wantsEnded n); split; try done.
    - intros [= <-]. by auto.
    - intros (_ & [[_ ->]|[Hf _]]); [done|]. apply has_fields_line in Hf. congruence.
    - by intros [? _]. }
  split.
  - intros (t & Ht & H)%bind_ok_inv. unfold str_eqb in H. destruct (bool_decide _ && _) eqn:E.
    + apply andb_prop in E as [->%bool_decide_eq_true E]. injection H as <-. split; [done|]. right. split; [|done]. by exists (js "done").
    + exfalso. destruct (split SPACE t) as [|command [|oid more]]; try done. by apply bind_ok_inv in H as (? & _ & [=]).
  - intros (He & [[? _]|[(t & Ht & Es) ->]]); [done|]. apply fields_done in Es as ->. rewrite Ht. cbn [mbind outcome_bind]. unfold finished. by rewrite He.
Qed.

(** * The haves *)

Definition terminal (p : Pkt) (done : bool) : Prop := if done then has_fields p [js "done"] else kind p = flush.

Lemma haves_forth n ps n' :
  rounds negotiate_packet n ps n' → wantsEnded n = true → n_entries n <= MAX_PROTOCOL_NEGOTIATION_ENTRIES →
  ∃ lines hs last d, ps = lines ++ [last] ∧ Forall2 (λ p oid, has_fields p [js "have"; oid]) lines hs ∧ Forall valid_oid hs ∧ terminal last d ∧
    n_entries n + zlen hs <= MAX_PROTOCOL_NEGOTIATION_ENTRIES ∧
    n' = mkNegotiation (n_wants n) (foldl set_add (n_haves n) hs) (n_capabilities n) true (n_done n || d) (n_entries n + zlen hs).
Proof.
  induction 1 as [n p n' H|n p n1 ps n' H _ IH]; intros He Hm.
  - apply negotiate_leave_iff in H as (_ & [[Hk ->]|[Hf ->]]).
    + exists [], [], p, false. split_and!; try done; [change (zlen []) with 0; lia|]. change (zlen []) with 0. rewrite orb_false_r, Z.add_0_r, <- He. by destruct n.
    + exists [], [], p, true. split_and!; try done; [change (zlen []) with 0; lia|]. change (zlen []) with 0. unfold finished. by rewrite orb_true_r, Z.add_0_r, He.
  - apply negotiate_again_iff in H as [(_ & ? & _)|(command & oid & more & Hf & Hl)]; [congruence|].
    apply negotiate_line_iff in Hl as (-> & Ho & Hne & caps & Hc & ->). rewrite He in Hf. unfold line_capabilities in Hc. rewrite He in Hc. cbn [negb andb] in Hc.
    destruct Hc as [-> ->]. destruct IH as (lines & hs & last & d & -> & Hls & Hv & Ht & Hlen & ->); [done|cbn; lia|].
    exists (p :: lines), (oid :: hs), last, d. cbn [with_oid n_entries n_wants n_haves n_capabilities n_done] in *. rewrite He in *. rewrite zlen_cons.
    split_and!; [done|by constructor|by constructor|done|lia|]. by rewrite Z.add_assoc.
Qed.

Lemma haves_back n lines hs last d :
  Forall2 (λ p oid, has_fields p [js "have"; oid]) lines hs → Forall valid_oid hs → terminal last d → wantsEnded n = true →
  n_entries n + zlen hs <= MAX_PROTOCOL_NEGOTIATION_ENTRIES →
  rounds negotiate_packet n (lines ++ [last])
    (mkNegotiation (n_wants n) (foldl set_add (n_haves n) hs) (n_capabilities n) true (n_done n || d) (n_entries n + zlen hs)).
Proof.
  intros Hls. revert n. induction Hls as [|p oid lines hs Hp _ IH]; intros n Hv Ht He Hm.
  - apply rounds_last, negotiate_leave_iff. split; [done|]. unfold terminal in Ht. change (zlen []) with 0. rewrite Z.add_0_r. cbn [foldl].
    destruct d; [right|left]; (split; [done|]).
    + unfold finished. by rewrite orb_true_r, He.
    + rewrite orb_false_r, <- He. by destruct n.
  - apply Forall_cons in Hv as [Ho Hv]. rewrite zlen_cons in *. pose proof (zlen_nonneg hs).
    apply (rounds_more _ _ _ (with_oid n oid (n_capabilities n))).
    + apply negotiate_again_iff. right. exists (js "have"), oid, []. split; [done|]. apply negotiate_line_iff. rewrite He. split_and!; [done|done|lia|].
      exists (n_capabilities n). unfold line_capabilities. by rewrite He.
    + specialize (IH (with_oid n oid (n_capabilities n))). cbn [with_oid n_entries n_wants n_haves n_capabilities n_done wantsEnded] in IH. rewrite He in IH.
      cbn [foldl]. replace (n_entries n + (1 + zlen hs)) with (n_entries n + 1 + zlen hs) by lia. apply IH; [done|done|done|lia].
Qed.

(** * The wants after the first *)

Lemma wants_forth n ps n' :
  rounds negotiate_packet n ps n' → wantsEnded n = false → n_wants n ≠ [] → n_entries n <= MAX_PROTOCOL_NEGOTIATION_ENTRIES →
  ∃ lines ws mark rest, ps = lines ++ (mark :: rest) ∧ Forall2 (λ p oid, has_fields p [js "want"; oid]) lines ws ∧ Forall valid_oid ws ∧ kind mark = flush ∧
    n_entries n + zlen ws <= MAX_PROTOCOL_NEGOTIATION_ENTRIES ∧
    rounds negotiate_packet (mkNegotiation (foldl set_add (n_wants n) ws) (n_haves n) (n_capabilities n) true (n_done n) (n_entries n + zlen ws)) rest n'.
Proof.
  induction 1 as [n p n' H|n p n1 ps n' H Hr IH]; intros He Hw Hm.
  - apply negotiate_leave_iff in H as [? _]. congruence.
  - apply negotiate_again_iff in H as [(Hk & _ & ->)|(command & oid & more & Hf & Hl)].
    + exists [], [], p, ps. split_and!; try done; [change (zlen []) with 0; lia|]. change (zlen []) with 0. rewrite Z.add_0_r. exact Hr.
    + apply negotiate_line_iff in Hl as (-> & Ho & Hne & caps & Hc & ->). rewrite He in Hf. unfold line_capabilities in Hc. rewrite He in Hc.
      assert ((zlen (n_wants n) =? 0) = false) as Ez by (apply Z.eqb_neq; destruct (n_wants n) as [|? l]; [done|rewrite zlen_cons; pose proof (zlen_nonneg l); lia]).
      rewrite Ez in Hc. destruct Hc as [-> ->]. cbn [with_oid n_entries n_wants n_haves n_capabilities n_done wantsEnded] in IH. rewrite He in IH.
      destruct IH as (lines & ws & mark & rest & -> & Hls & Hv & Hk & Hlen & Hrest); [done| |lia|].
      { unfold set_add. case_bool_decide; [done|]. by destruct (n_wants n). }
      exists (p :: lines), (oid :: ws), mark, rest. rewrite zlen_cons. split_and!; [done|by constructor|by constructor|done|lia|]. by rewrite Z.add_assoc.
Qed.

Lemma set_add_not_nil s x : set_add s x ≠ [].
Proof. unfold set_add. case_bool_decide as H; [|by destruct s]. intros ->. by apply elem_of_nil in H. Qed.

Lemma wants_back n lines ws mark rest n' :
  Forall2 (λ p oid, has_fields p [js "want"; oid]) lines ws → Forall valid_oid ws → kind mark = flush → wantsEnded n = false → n_wants n ≠ [] →
  n_entries n + zlen ws <= MAX_PROTOCOL_NEGOTIATION_ENTRIES →
  rounds negotiate_packet (mkNegotiation (foldl set_add (n_wants n) ws) (n_haves n) (n_capabilities n) true (n_done n) (n_entries n + zlen ws)) rest n' →
  rounds negotiate_packet n (lines ++ (mark :: rest)) n'.
Proof.
  intros Hls. revert n. induction Hls as [|p oid lines ws Hp _ IH]; intros n Hv Hk He Hw Hm Hr.
  - apply (rounds_more _ _ _ (ended n)); [apply negotiate_again_iff; by left|]. change (zlen []) with 0 in Hr. rewrite Z.add_0_r in Hr. exact Hr.
  - apply Forall_cons in Hv as [Ho Hv]. rewrite zlen_cons in *. pose proof (zlen_nonneg ws).
    apply (rounds_more _ _ _ (with_oid n oid (n_capabilities n))).
    + apply negotiate_again_iff. right. exists (js "want"), oid, []. split; [done|]. apply negotiate_line_iff. rewrite He. split_and!; [done|done|lia|].
      exists (n_capabilities n). unfold line_capabilities. rewrite He.
      by assert ((zlen (n_wants n) =? 0) = false) as -> by (apply Z.eqb_neq; destruct (n_wants n) as [|? l]; [done|rewrite zlen_cons; pose proof (zlen_nonneg l); lia]).
    + specialize (IH (with_oid n oid (n_capabilities n))). cbn [with_oid n_entries n_wants n_haves n_capabilities n_done wantsEnded] in IH. rewrite He in IH.
      apply IH; [done|done|done|apply set_add_not_nil|lia|]. cbn [foldl] in Hr. by rewrite Z.add_assoc in Hr.
Qed.

(** * Whole requests *)

Definition request_of (n : Negotiation) : ServerUploadRequest :=
  mkServerUpload (n_wants n) (n_haves n) (n_done n) (bool_decide (js "multi_ack_detailed" ∈ n_capabilities n))
    (bool_decide (js "side-band-64k" ∈ n_capabilities n)).

(** A conversation and the request it makes: a want with the capabilities, wants, a flush,
    haves, and a flush or a [done]. *)
Inductive conversation : list Pkt → ServerUploadRequest → Prop :=
| conversation_of first w more caps lines ws mark have_packets hs last d :
    has_fields first (js "want" :: w :: more) → parseCapabilities (join SPACE more) UPLOAD_SERVER_CAPABILITIES = Ok caps →
    Forall2 (λ p oid, has_fields p [js "want"; oid]) lines ws → kind mark = flush →
    Forall2 (λ p oid, has_fields p [js "have"; oid]) have_packets hs → terminal last d →
    Forall valid_oid (w :: ws ++ hs) → zlen (w :: ws ++ hs) <= MAX_PROTOCOL_NEGOTIATION_ENTRIES →
    conversation (first :: lines ++ mark :: have_packets ++ [last])
      (mkServerUpload (foldl set_add [w] ws) (foldl set_add [] hs) d (bool_decide (js "multi_ack_detailed" ∈ caps)) (bool_decide (js "side-band-64k" ∈ caps))).

Lemma foldl_add_not_nil l : ∀ s, s ≠ [] → foldl set_add s l ≠ [].
Proof. induction l as [|x l IH]; intros s Hs; [done|]. apply IH, set_add_not_nil. Qed.

Lemma rounds_conversation ps n :
  rounds negotiate_packet no_negotiation ps n → n_wants n ≠ [] → conversation ps (request_of n).
Proof.
  intros H Hw. inversion H as [? p ? Hs|? p n1 ps' ? Hs Hr]; subst; [by apply negotiate_leave_iff in Hs as [? _]|].
  apply negotiate_again_iff in Hs as [(_ & _ & ->)|(command & w & more & Hf & Hl)].
  { apply haves_forth in Hr as (? & ? & ? & ? & _ & _ & _ & _ & _ & ->); done. }
  apply negotiate_line_iff in Hl as (-> & Ho & _ & caps & Hc & ->). cbn in Hf, Hc.
  apply wants_forth in Hr as (lines & ws & mark & rest & -> & Hls & Hv & Hk & Hm1 & Hr); [|done|done|done].
  cbn [with_oid n_wants n_haves n_capabilities n_done n_entries wantsEnded no_negotiation] in Hr.
  apply haves_forth in Hr as (hl & hs & last & d & -> & Hhs & Hvh & Ht & Hm & ->); [|done|].
  2:{ exact Hm1. }
  cbn [n_entries n_wants n_haves n_capabilities n_done] in *. unfold request_of. cbn [n_wants n_haves n_capabilities n_done orb].
  eapply conversation_of; try done; [constructor; [done|by apply Forall_app]|]. rewrite zlen_cons, zlen_app. lia.
Qed.

Lemma conversation_rounds ps q :
  conversation ps q → ∃ n, rounds negotiate_packet no_negotiation ps n ∧ n_wants n ≠ [] ∧ q = request_of n.
Proof.
  destruct 1 as [first w more caps lines ws mark hl hs last d Hf Hc Hls Hk Hhs Ht Hv Hm]. apply Forall_cons in Hv as [Ho Hv]. apply Forall_app in Hv as [Hv Hvh].
  rewrite zlen_cons, zlen_app in Hm. pose proof (zlen_nonneg ws). pose proof (zlen_nonneg hs).
  exists (mkNegotiation (foldl set_add [w] ws) (foldl set_add [] hs) caps true d (1 + zlen ws + zlen hs)). split_and!.
  - apply (rounds_more _ _ _ (with_oid no_negotiation w caps)).
    + apply negotiate_again_iff. right. exists (js "want"), w, more. split; [done|]. apply negotiate_line_iff. split_and!; [done|done|done|]. by exists caps.
    + apply (wants_back _ _ ws); [done|done|done|done|done|cbn [with_oid n_entries no_negotiation]; lia|].
      cbn [with_oid n_wants n_haves n_capabilities n_done n_entries wantsEnded no_negotiation].
      set (n1 := mkNegotiation _ _ _ _ _ _). refine (haves_back n1 hl hs last d Hhs Hvh Ht eq_refl _). cbn [n1 n_entries]. lia.
  - by apply foldl_add_not_nil.
  - done.
Qed.

Lemma finish_negotiation_ends n r :
  reader_ok r → returned r = Ok tt →
  ∃ o r', finish_negotiation n r = Some (o, r') ∧
  ∀ q, o = Ok q ↔ n_wants n ≠ [] ∧ rest_bytes r = [] ∧ source_end r = Ok tt ∧ q = request_of n.
Proof.
  intros Hok Hret. unfold finish_negotiation. destruct (Z.eqb_spec (zlen (n_wants n)) 0) as [E|E].
  { eexists _, r. split; [done|]. intros q. split; [done|]. intros [Hw _]. destruct Hw. destruct (n_wants n) as [|? l]; [done|]. rewrite zlen_cons in E. pose proof (zlen_nonneg l). lia. }
  assert (n_wants n ≠ []) as Hw by (intros Hn; by rewrite Hn in E).
  destruct (read_end_iff r Hok) as (o & r' & Hp & H1 & H2). destruct o as [[p|]|e].
  - eexists _, r'. proceed_by Hp. split; [done|]. intros q. split; [done|]. intros (_ & Hb & Hs & _). by specialize (H2 Hret Hb Hs).
  - eexists _, r'. proceed_by Hp. split; [done|]. intros q. destruct (H1 eq_refl). split; [intros [= <-]; done|]. by intros (_ & _ & _ & ->).
  - eexists _, r'. rewrite (p_bind_throw _ _ _ _ _ Hp). split; [done|]. intros q. split; [done|]. intros (_ & Hb & Hs & _). by specialize (H2 Hret Hb Hs).
Qed.

Lemma new_reader_spec (body : yields bytes) :
  reader_ok (new_ByteReader (items body) (ending body)) ∧ rest_bytes (new_ByteReader (items body) (ending body)) = mjoin (items body).
Proof. split; [apply reader_new_ok|done]. Qed.

(** C19: [parseUploadPackRequest] ends for every body, however it is cut, and accepts exactly the
    conversations: valid names, a want that carries the capabilities first, a flush, the haves,
    a flush or a [done], nothing after it, and no more entries than the limit.  The request it
    gives is the conversation's, each name once. *)
Theorem parseUploadPackRequest_exact body :
  (∃ o, parseUploadPackRequest body = Some o) ∧
  ∀ q, parseUploadPackRequest body = Some (Ok q) ↔
    ending body = Ok tt ∧ ∃ ps, decoded (Ok tt) (mjoin (items body)) ps [] ∧ conversation ps q.
Proof.
  set (r := new_ByteReader (items body) (ending body)). assert (reader_ok r) as Hok by apply reader_new_ok.
  set (loop := p_fueled reader_fuel (λ fuel, packet_loop fuel (corrupt_text "upload request ended before its terminal packet") negotiate_packet no_negotiation)).
  assert (∀ o r1, (n ← loop; finish_negotiation n) r = Some (o, r1) → parseUploadPackRequest body = Some o) as Hwhole.
  { intros o r1 H. change (parseUploadPackRequest body) with (fst <$> p_finally (n ← loop; finish_negotiation n) releaseReader r).
    by destruct (finally_release _ _ _ _ H) as (r2 & ->). }
  destruct (packet_loop_ends negotiate_packet (corrupt_text "upload request ended before its terminal packet") (reader_fuel r) no_negotiation r Hok (rest_fuel r))
    as (o & r1 & Hl1 & H). assert (loop r = Some (o, r1)) as Hloop by exact Hl1. clear Hl1.
  assert (∀ q, ending body = Ok tt → (∃ ps, decoded (Ok tt) (mjoin (items body)) ps [] ∧ conversation ps q) → parseUploadPackRequest body = Some (Ok q)) as Hback.
  { intros q He (ps & Hd & Hc). apply conversation_rounds in Hc as (n & Hr & Hw & ->).
    destruct (packet_loop_runs negotiate_packet (corrupt_text "upload request ended before its terminal packet") _ _ _ (reader_fuel r) r [] Hr Hok)
      as (r2 & Hl & Hok2 & Hb2 & Ho2); [cbn; by rewrite He|apply rest_fuel|].
    destruct (finish_negotiation_ends n r2 Hok2) as (o2 & r3 & Hf & Hiff); [by rewrite (open_returned _ _ Ho2)|].
    assert (loop r = Some (Ok n, r2)) as Hl' by exact Hl. apply (Hwhole _ r3). rewrite (p_bind_ok _ _ _ _ _ Hl'), Hf. do 2 f_equal. apply Hiff. split_and!; [done|done|by rewrite (open_end _ _ Ho2)|done]. }
  destruct o as [n|e].
  2:{ assert (parseUploadPackRequest body = Some (Throw e)) as Hp by (apply (Hwhole _ r1); by rewrite (p_bind_throw _ _ _ _ _ Hloop)).
      split; [by eexists|]. intros q. split; [by rewrite Hp|]. intros [He Hc]. by apply Hback. }
  destruct H as (ps & Hr & Hd & Hok1 & Ho1). destruct (finish_negotiation_ends n r1 Hok1) as (o2 & r2 & Hf & Hiff); [by rewrite (open_returned _ _ Ho1)|].
  assert (parseUploadPackRequest body = Some o2) as Hp by (apply (Hwhole _ r2); by rewrite (p_bind_ok _ _ _ _ _ Hloop)).
  split; [by eexists|]. intros q. split; [|intros [He Hc]; by apply Hback]. rewrite Hp. intros [= ->]. destruct (proj1 (Hiff q) eq_refl) as (Hw & Hb & Hs & ->).
  rewrite (open_end _ _ Ho1) in Hs. change (source_end r) with (ending body) in Hs, Hd. rewrite Hs, Hb in Hd. split; [done|]. exists ps. split; [exact Hd|].
  by apply rounds_conversation.
Qed.
