(* ===== verification/UploadPackFacts.v ===== *)
(** A pack leaves the server and arrives at the client; and the requests that the client makes
    are none that this program's server accepts. *)

From S2P Require Import Prelude Utf8 Text Bytes Objects Streams RefName JsMap Process PktLine PktLineFacts Protocol ProtocolFacts RemoteRefs RemoteRefsFacts ReceivePack ReceivePackFacts ReceiveStatus ReceiveStatusFacts UploadPack UploadRequestFacts.

(** * Bands *)

Definition band_packet (data : bytes) : Pkt := mkPkt line (1 :: data).

Definition band_data (data : bytes) : Prop := data ≠ [] ∧ zlen data <= MAX_PKT_PAYLOAD_BYTES - 1.

Lemma band_fits data : band_data data → fits (band_packet data).
Proof. intros [_ Hl]. unfold fits, band_packet. cbn [kind payload]. rewrite zlen_cons. lia. Qed.

Lemma band_slice (chunk : bytes) offset n : 0 <= offset → 0 <= n → slice chunk offset (offset + n) ++ slice_from chunk (offset + n) = slice_from chunk offset.
Proof.
  intros Ho Hn. unfold slice, slice_from. replace (Z.to_nat (offset + n)) with (Z.to_nat offset + Z.to_nat n)%nat by lia.
  rewrite <- drop_drop. replace (Z.to_nat (offset + n - offset)) with (Z.to_nat n) by lia. apply take_drop.
Qed.

Lemma band_frames_spec fuel : ∀ chunk offset rest,
  0 <= offset → (Z.to_nat (zlen chunk - offset) < fuel)%nat →
  ∃ datas, band_frames fuel chunk offset rest = Some (mkYields ((wire_of ∘ band_packet <$> datas) ++ items rest) (ending rest)) ∧
    Forall band_data datas ∧ mjoin datas = slice_from chunk offset.
Proof.
  induction fuel as [|fuel IH]; intros chunk offset rest Ho Hf; [lia|]. cbn [band_frames]. destruct (offset <? zlen chunk) eqn:E; zbool.
  2:{ exists []. split_and!; [by destruct rest|constructor|]. by rewrite slice_from_end. }
  set (n := MAX_PKT_PAYLOAD_BYTES - 1) in *. assert (0 < n) by done. set (data := slice chunk offset (offset + n)).
  assert (band_data data) as Hdata.
  { unfold band_data, data, slice, zlen in *. replace (offset + n - offset) with n by lia. split.
    - rewrite <- length_zero_iff_nil, length_take, length_drop. lia.
    - rewrite length_take. fold n. lia. }
  pose proof (band_fits data Hdata) as Hfit. unfold fits, band_packet in Hfit. cbn [kind payload] in Hfit. rewrite pkt_spec by done.
  destruct (IH chunk (offset + n) rest) as (datas & -> & Hall & Hj); [lia|lia|]. cbn [fmap option_fmap option_map]. exists (data :: datas).
  split_and!; [done|by constructor|]. rewrite mjoin_cons, Hj. apply band_slice; lia.
Qed.

Lemma band_chunks_spec chunks rest :
  ∃ datas, band_chunks chunks rest = Some (mkYields ((wire_of ∘ band_packet <$> datas) ++ items rest) (ending rest)) ∧
    Forall band_data datas ∧ mjoin datas = mjoin chunks.
Proof.
  induction chunks as [|c chunks (datas & IH & Hall & Hj)]; cbn [band_chunks].
  { exists []. split_and!; [by destruct rest|constructor|done]. }
  rewrite IH. cbn [mbind option_bind]. set (rest' := mkYields _ _).
  destruct (band_frames_spec (S (length c)) c 0 rest') as (datas' & -> & Hall' & Hj'); [lia|unfold zlen; lia|].
  exists (datas' ++ datas). split_and!; [|by apply Forall_app|].
  - cbn [items ending rest']. by rewrite fmap_app, <- app_assoc.
  - rewrite mjoin_app, Hj, Hj', mjoin_cons. done.
Qed.

(** * The client reads a pack *)

Lemma pack_loop_bands onProgress datas : ∀ fuel r bs,
  Forall band_data datas → (S (length datas) <= fuel)%nat → holds r ((band_packet <$> datas) ++ [flush_packet]) bs →
  ∃ r', pack_loop fuel onProgress None r = Some (mkYields datas (Ok tt), r').
Proof.
  induction datas as [|d datas IH]; intros [|fuel] r bs Hall Hf Hr; try lia; cbn [pack_loop].
  all: pose proof Hr as (Hok & _); assert (throwIfAborted r = Some (Ok tt, r)) as Ha by (unfold throwIfAborted; by rewrite (reader_looks r Hok)).
  all: unfold g_then at 1; rewrite Ha.
  - destruct (read_next r flush_packet [] bs Hr) as (r' & Hp & _). unfold g_then at 1. rewrite Hp. by exists r'.
  - rewrite fmap_cons in Hr. cbn [app] in Hr. destruct (read_next _ _ _ _ Hr) as (r1 & Hp & Hr1 & _). unfold g_then at 1. rewrite Hp.
    apply Forall_cons in Hall as [[Hne _] Hall]. destruct (IH fuel r1 bs) as (r' & Hl); [done|cbn in Hf; lia|done|]. exists r'.
    cbn [band_packet kind payload]. unfold g_then, p_lift, pack_frame. change (1 =? 1) with true. cbv iota.
    assert ((0 <? zlen d) = true) as -> by (apply Z.ltb_lt; destruct d as [|x d]; [done|rewrite zlen_cons; pose proof (zlen_nonneg d); lia]).
    unfold g_yield. by rewrite Hl.
Qed.

Lemma sideband_bands onProgress r d datas bs :
  Forall band_data (d :: datas) → holds r ((band_packet <$> datas) ++ [flush_packet]) bs →
  sideband r (1 :: d) onProgress = Some (mkYields (d :: datas) (Ok tt)).
Proof.
  intros Hall Hr. apply Forall_cons in Hall as [[Hne _] Hall]. pose proof (holds_fuel _ _ _ Hr) as Hf. rewrite length_app, length_fmap in Hf. cbn in Hf.
  destruct (pack_loop_bands onProgress datas (reader_fuel r) r bs Hall) as (r' & Hl); [lia|done|]. unfold sideband, g_finally.
  assert (pack_loop (S (reader_fuel r)) onProgress (Some (1 :: d)) r = Some (mkYields (d :: datas) (Ok tt), r')) as ->.
  { cbn [pack_loop]. pose proof Hr as (Hok & _). unfold g_then at 1, throwIfAborted. rewrite (reader_looks r Hok).
    unfold g_then, p_lift, pack_frame. change (1 =? 1) with true. cbv iota.
    assert ((0 <? zlen d) = true) as -> by (apply Z.ltb_lt; destruct d as [|x d']; [done|rewrite zlen_cons; pose proof (zlen_nonneg d'); lia]).
    unfold g_yield. by rewrite Hl. }
  unfold releaseReader, p_catch, release. destruct (released r') as [[|]|]; [done..|]. by destruct (returned r').
Qed.

(** * Acknowledgements *)

(** The text of an acknowledgement. *)
Definition ack_text (t : ustring) : Prop := ascii t ∧ (0x0a ∉ t) ∧ ∃ rest, t = js "ACK" ++ rest ∨ t = js "NAK" ++ rest.

Definition ack_packet (t : ustring) : Pkt := text_packet (line_text t).

Lemma ack_packet_text t : ack_text t → ownedPktText (ack_packet t) = t ∧ isBandFrame (payload (ack_packet t)) = false.
Proof.
  intros (Ha & _ & rest & Ht). unfold ownedPktText, pktText, ack_packet, line_text, text_packet. cbn [payload].
  assert (ascii (t ++ [0x0a])) as Ha' by (apply Forall_app; split; [done|by apply ascii_decided]).
  rewrite encode_ascii by done. rewrite decode_lossy_ascii by done. rewrite strip_newline_line. split; [done|].
  destruct Ht as [-> | ->]; done.
Qed.

Section acks.
  Context (entryLimit : Z) (requested : bool) (requestedShallows : list ustring).

Lemma ack_response useSideband u t :
  ack_text t → response_packet entryLimit requested requestedShallows useSideband u (ack_packet t) = Ok (if useSideband then again u else leave u).
Proof using.
  intros Ht. destruct (ack_packet_text t Ht) as [Et Eb]. unfold response_packet. rewrite Eb, andb_false_r, Et. cbn [kind ack_packet text_packet].
  destruct Ht as (_ & _ & rest & [-> | ->]); done.
Qed.

Lemma acks_rounds acks first u data :
  Forall ack_text (first :: acks) → band_data data →
  rounds (response_packet entryLimit requested requestedShallows true) u ((ack_packet <$> first :: acks) ++ [band_packet data])
    (mkUploading (u_shallow u) (u_unshallow u) (shallowSet u) (unshallowSet u) (u_entries u) (Some (1 :: data))).
Proof using.
  intros Hall _. generalize dependent (first :: acks). clear first acks. induction 1 as [|t acks Ht _ IH].
  - by apply rounds_last.
  - rewrite fmap_cons. cbn [app]. apply (rounds_more _ _ _ u); [by rewrite ack_response|done].
Qed.

End acks.

Lemma encodeAck_inv oid kind frame :
  encodeAck oid kind = Ok frame → ∃ t, ack_text t ∧ fits (ack_packet t) ∧ frame = wire_of (ack_packet t).
Proof.
  unfold encodeAck. destruct oid as [oid|].
  - intros ([] & Ho & H)%bind_ok_inv. apply requireServerOid_ok in Ho as [Ho _]. apply pkt_text_ok in H as [Hf ->].
    set (k := match kind with Some k => js " " ++ ack_kind_name k | None => [] end) in *. exists (js "ACK " ++ oid ++ k).
    assert (ascii k ∧ (0x0a ∉ k)) as [Hk Hn].
    { assert (∀ l, forallb (λ u, (0 <=? u) && (u <? 128)) l && bool_decide (0x0a ∉ l) = true → ascii l ∧ (0x0a ∉ l)) as Hc
        by (intros l [? ?%bool_decide_eq_true]%andb_prop; split; [by apply ascii_decided|done]).
      apply Hc. by destruct kind as [[]|]. }
    unfold ack_text. split_and!.
    + repeat (apply Forall_app; split); [by apply ascii_decided|by apply oid_ascii|done].
    + pose proof (oid_no 0x0a oid Ho). intros [Hin|[Hin|Hin]%elem_of_app]%elem_of_app; [|by apply H; [lia|]|done].
      revert Hin. exact (bool_decide_eq_true_1 (0x0a ∉ js "ACK ") eq_refl).
    + exists (js " " ++ oid ++ k). by left.
    + unfold ack_packet, line_text. rewrite <- !app_assoc. exact Hf.
    + unfold ack_packet, line_text. by rewrite <- !app_assoc.
  - case_bool_decide; [done|]. intros [Hf ->]%pkt_text_ok. exists (js "NAK"). unfold ack_text. split_and!; [by apply ascii_decided| |exists []; by right|done|done].
    exact (bool_decide_eq_true_1 (0x0a ∉ js "NAK") eq_refl).
Qed.

Lemma yield_frame_inv (o : outcome bytes) (rest : yields bytes) frames :
  then_yields o (λ frame, yielding frame rest) = mkYields frames (Ok tt) →
  ∃ frame frames', o = Ok frame ∧ rest = mkYields frames' (Ok tt) ∧ frames = frame :: frames'.
Proof. intros (frame & -> & H)%then_yields_inv. destruct rest as [l e]. injection H as <- ->. by exists frame, l. Qed.

Lemma yield_acks_inv oids rest : ∀ frames,
  yield_acks oids rest = mkYields frames (Ok tt) →
  ∃ acks frames', Forall ack_text acks ∧ Forall fits (ack_packet <$> acks) ∧ rest = mkYields frames' (Ok tt) ∧ frames = (wire_of ∘ ack_packet <$> acks) ++ frames'.
Proof.
  induction oids as [|oid oids IH]; intros frames; cbn [yield_acks]; [intros ->; exists [], frames; split_and!; [constructor|constructor|done|done]|].
  intros (frame & frames1 & Ha & H & ->)%yield_frame_inv. apply encodeAck_inv in Ha as (t & Ht & Hf & ->).
  destruct (IH _ H) as (acks & frames' & Hall & Hfits & -> & ->). exists (t :: acks), frames'. rewrite !fmap_cons. split_and!; [by constructor|by constructor|done|done].
Qed.

Lemma acknowledgement_inv q common rest frames :
  done q = true → acknowledgement q common rest = mkYields frames (Ok tt) →
  ∃ acks frames', acks ≠ [] ∧ Forall ack_text acks ∧ Forall fits (ack_packet <$> acks) ∧ rest = mkYields frames' (Ok tt) ∧
    frames = (wire_of ∘ ack_packet <$> acks) ++ frames' ∧ (detailedAck q = false → ∃ t, acks = [t]).
Proof.
  intros Hd. unfold acknowledgement. rewrite Hd.
  assert (∀ frames, then_yields (encodeAck (last common) None) (λ frame, yielding frame rest) = mkYields frames (Ok tt) →
    ∃ t frames', ack_text t ∧ fits (ack_packet t) ∧ rest = mkYields frames' (Ok tt) ∧ frames = wire_of (ack_packet t) :: frames') as Hlast.
  { intros fs (frame & frames' & Ha & -> & ->)%yield_frame_inv. apply encodeAck_inv in Ha as (t & Ht & Hf & ->). by exists t, frames'. }
  destruct (detailedAck q).
  - intros (acks & frames1 & Hall & Hfits & (t & frames' & Ht & Hf & -> & ->)%Hlast & ->)%yield_acks_inv. exists (acks ++ [t]), frames'.
    split_and!; [by destruct acks|apply Forall_app; split; [done|by constructor]| |done| |done].
    + rewrite fmap_app. apply Forall_app. split; [done|by constructor].
    + by rewrite fmap_app, <- app_assoc.
  - intros (t & frames' & Ht & Hf & -> & ->)%Hlast. exists [t], frames'. split_and!; [done|by constructor|by constructor|done|done|by exists t].
Qed.

(** * The round trip *)

(** The client's loop over the response, up to the pack. *)
Lemma read_response_banded limit requested shallows acks data bands r bs :
  acks ≠ [] → Forall ack_text acks → band_data data → holds r ((ack_packet <$> acks) ++ band_packet data :: bands) bs →
  ∃ r', read_response limit requested shallows true r = Some (Ok (mkUploading [] [] [] [] 0 (Some (1 :: data))), r') ∧ holds r' bands bs ∧ still_open r r'.
Proof.
  intros Hne Ha Hd Hr. destruct acks as [|first acks]; [done|]. pose proof Hr as (Hok & Hfits & _).
  pose proof (acks_rounds limit requested shallows acks first (mkUploading [] [] [] [] 0 None) data Ha Hd) as Hrounds.
  change (band_packet data :: bands) with ([band_packet data] ++ bands) in Hr, Hfits. rewrite app_assoc in Hr, Hfits.
  destruct (packet_loop_runs _ (corrupt_text "upload-pack response ended before the pack") _ _ _ (reader_fuel r) r _ Hrounds Hok
              (holds_decoded _ _ _ _ Hr) (rest_fuel r)) as (r' & Hl & Hok' & Hb & Ho).
  exists r'. split; [unfold read_response; by apply p_catch_ok|]. split; [|done]. apply Forall_app in Hfits as [_ ?]. by split.
Qed.

Lemma read_response_raw limit requested shallows t r bs :
  ack_text t → holds r [ack_packet t] bs →
  ∃ r', read_response limit requested shallows false r = Some (Ok (mkUploading [] [] [] [] 0 None), r') ∧ holds r' [] bs ∧ still_open r r'.
Proof.
  intros Ht Hr. pose proof Hr as (Hok & _).
  assert (rounds (response_packet limit requested shallows false) (mkUploading [] [] [] [] 0 None) [ack_packet t] (mkUploading [] [] [] [] 0 None)) as Hrounds
    by (apply rounds_last; by rewrite ack_response).
  rewrite <- (app_nil_r [ack_packet t]) in Hr.
  destruct (packet_loop_runs _ (corrupt_text "upload-pack response ended before the pack") _ _ _ (reader_fuel r) r _ Hrounds Hok
              (holds_decoded _ _ _ _ Hr) (rest_fuel r)) as (r' & Hl & Hok' & Hb & Ho).
  exists r'. split; [unfold read_response; by apply p_catch_ok|]. split; [|done]. by split.
Qed.

(** What the server answers to a request that is done. *)
Lemma upload_response_inv q common pack frames :
  done q = true → upload_response q common (Some pack) = Some (mkYields frames (Ok tt)) →
  ending pack = Ok tt ∧ ∃ acks, acks ≠ [] ∧ Forall ack_text acks ∧ Forall fits (ack_packet <$> acks) ∧ (detailedAck q = false → ∃ t, acks = [t]) ∧
  if q_sideband q then
    ∃ datas, Forall band_data datas ∧ mjoin datas = mjoin (items pack) ∧
      frames = wire_of <$> ((ack_packet <$> acks) ++ (band_packet <$> datas) ++ [flush_packet])
  else frames = (wire_of <$> (ack_packet <$> acks)) ++ items pack.
Proof.
  intros Hd. unfold upload_response, encodePackResponse. destruct (q_sideband q).
  - destruct (band_chunks_spec (items pack) (then_yields (ending pack) (λ _, yielding FLUSH (mkYields [] (Ok tt))))) as (datas & -> & Hall & Hj).
    cbn [mbind option_bind]. intros [= H]. apply acknowledgement_inv in H as (acks & frames' & Hne & Ha & Hf & Hrest & -> & Hdet); [|done].
    destruct (ending pack) as [[]|e]; [|done]. injection Hrest as <-. split; [done|]. exists acks. split_and!; try done. exists datas. split_and!; [done|done|].
    by rewrite !fmap_app, !list_fmap_compose.
  - cbn [mbind option_bind]. intros [= H]. apply acknowledgement_inv in H as (acks & frames' & Hne & Ha & Hf & -> & -> & Hdet); [|done].
    split; [done|]. exists acks. by rewrite list_fmap_compose.
Qed.

Lemma upload_result_served request limit capabilities q common pack frames chunks statusText contentType :
  done q = true → q_sideband q = bool_decide (js "side-band-64k" ∈ capabilities) → (q_sideband q = false → detailedAck q = false) →
  mjoin (items pack) ≠ [] → upload_response q common (Some pack) = Some (mkYields frames (Ok tt)) → mjoin chunks = mjoin frames →
  ∃ y, upload_result request limit capabilities (mkResponse 200 statusText contentType (mkYields chunks (Ok tt))) = Some (Ok (mkUploadResult [] [] y)) ∧
    ending y = Ok tt ∧ mjoin (items y) = mjoin (items pack).
Proof.
  intros Hd Hside Hdet Hne Hresp Hc. apply upload_response_inv in Hresp as (Hend & acks & Hacks & Ha & Hfa & Hone & Hframes); [|done].
  unfold upload_result. cbn [body items ending]. rewrite <- Hside. destruct (q_sideband q).
  - destruct Hframes as (datas & Hall & Hj & ->). destruct datas as [|d datas]; [by rewrite <- Hj in Hne|].
    assert (holds (new_ByteReader chunks (Ok tt)) ((ack_packet <$> acks) ++ band_packet d :: (band_packet <$> datas) ++ [flush_packet]) []) as Hr.
    { apply new_reader_leads; [|by rewrite app_nil_r]. apply Forall_app. split; [done|]. rewrite app_comm_cons, <- fmap_cons. apply Forall_app.
      split; [|by repeat constructor]. apply Forall_fmap, (Forall_impl _ _ _ Hall), band_fits. }
    destruct (read_response_banded limit (shallow_requested request) (default [] (shallows request)) acks d
              ((band_packet <$> datas) ++ [flush_packet]) (new_ByteReader chunks (Ok tt)) [] Hacks Ha) as (r' & -> & Hr' & _);
      [by apply Forall_cons in Hall as [? _]|done|]. cbn [mbind option_bind u_first u_shallow u_unshallow].
    rewrite (sideband_bands _ _ _ datas []) by done. cbn [mbind option_bind]. eexists. split_and!; [done|done|done].
  - destruct (Hone (Hdet eq_refl)) as (t & ->). apply Forall_cons in Ha as [Ht _].
    assert (holds (new_ByteReader chunks (Ok tt)) [ack_packet t] (mjoin (items pack))) as Hr.
    { apply new_reader_leads; [done|]. by rewrite Hc, Hframes, mjoin_app. }
    destruct (read_response_raw limit (shallow_requested request) (default [] (shallows request)) t
              (new_ByteReader chunks (Ok tt)) (mjoin (items pack)) Ht Hr) as (r' & -> & (Hok & _ & Hb) & Ho).
    cbn [mbind option_bind u_first u_shallow u_unshallow]. destruct (rest_spec r' Hok) as [Hi He]; [by rewrite (open_returned _ _ Ho)|].
    eexists. split_and!; [done|unfold rawPack; by rewrite He, (open_end _ _ Ho)|unfold rawPack; by rewrite Hi, Hb].
Qed.

(** C20: the pack arrives.  Whatever common commits the server acknowledges, in detail or not,
    and however it cuts the pack, with or without a sideband, the client that sent the request
    and receives the response cut into chunks anywhere streams exactly the bytes of the pack
    and reports no change of the shallow boundary. *)
Theorem fetch_roundtrip request limit base capabilities filter content q common pack frames chunks requestWithAuth aborted entries url statusText contentType :
  resolvedProtocolEntryLimit entries = Ok limit → normalizeRemoteUrl url = Ok base → upload_capabilities request = Ok (capabilities, filter) →
  check_upload request limit = Ok tt → upload_body request capabilities filter = Ok content →
  done q = true → q_sideband q = bool_decide (js "side-band-64k" ∈ capabilities) → (q_sideband q = false → detailedAck q = false) →
  mjoin (items pack) ≠ [] → upload_response q common (Some pack) = Some (mkYields frames (Ok tt)) → mjoin chunks = mjoin frames →
  requestWithAuth (base ++ js "/git-upload-pack") content = Ok (mkResponse 200 statusText contentType (mkYields chunks (Ok tt))) →
  ∃ y, uploadPack requestWithAuth aborted entries url request = Some (Ok (mkUploadResult [] [] y)) ∧
    ending y = Ok tt ∧ mjoin (items y) = mjoin (items pack).
Proof.
  intros Hlimit Hbase Hcaps Hcheck Hbody Hd Hside Hdet Hne Hresp Hc Hreq. unfold uploadPack.
  rewrite Hlimit, Hbase, Hcaps. cbn [mbind outcome_bind]. rewrite Hcheck. cbn [mbind outcome_bind]. rewrite Hbody. cbn [mbind outcome_bind].
  rewrite Hreq. cbn [mbind outcome_bind status]. change (200 =? 200) with true. cbn [negb]. by eapply upload_result_served.
Qed.

Definition example_fetch : UploadPackRequest :=
  mkUpload [replicate 40 0x61] (Some [replicate 40 0x62]) None None absent absent absent (UPLOAD_SERVER_CAPABILITIES ++ [js "symref=HEAD:refs/heads/main"]) None.
Definition example_served : ServerUploadRequest := mkServerUpload [replicate 40 0x61] [replicate 40 0x62] true false true.
Definition example_pack : yields bytes := mkYields [js "PACK"; []; js "data"] (Ok tt).
Definition example_frames : list bytes :=
  match upload_response example_served [replicate 40 0x62] (Some example_pack) with Some y => items y | None => [] end.

Lemma fetch_roundtrip_witness :
  let chunks := (λ b, [b]) <$> mjoin example_frames in
  ∃ y, uploadPack (λ _ _, Ok (mkResponse 200 [] None (mkYields chunks (Ok tt)))) false None (js "https://host/repo/") example_fetch =
      Some (Ok (mkUploadResult [] [] y)) ∧ ending y = Ok tt ∧ mjoin (items y) = js "PACKdata".
Proof.
  intros chunks.
  assert (∃ content, upload_body example_fetch [js "side-band-64k"; js "agent=kompjutr/0.0.0"] None = Ok content) as [content Hbody]
    by (eexists; vm_compute; reflexivity).
  apply (fetch_roundtrip example_fetch MAX_PROTOCOL_NEGOTIATION_ENTRIES (js "https://host/repo") [js "side-band-64k"; js "agent=kompjutr/0.0.0"] None content
           example_served [replicate 40 0x62] example_pack example_frames chunks _ false None (js "https://host/repo/") [] None).
  - reflexivity.
  - vm_compute. reflexivity.
  - vm_compute. reflexivity.
  - vm_compute. reflexivity.
  - exact Hbody.
  - reflexivity.
  - vm_compute. reflexivity.
  - discriminate.
  - discriminate.
  - vm_compute. reflexivity.
  - vm_compute. reflexivity.
  - reflexivity.
Defined.

(** * The client and this program's own server *)

Definition agent_token : ustring := js "agent=" ++ AGENT.

Lemma agent_unsupported : agent_token ∉ UPLOAD_SERVER_CAPABILITIES.
Proof. apply (bool_decide_eq_false_1 (agent_token ∈ UPLOAD_SERVER_CAPABILITIES)). vm_compute. reflexivity. Qed.

Lemma unsupported_token supported tokens : ∀ selected selected' token,
  token ∈ tokens → token ∉ supported → for_items (select_capability supported) selected tokens ≠ Ok selected'.
Proof.
  induction tokens as [|t tokens IH]; intros selected selected' token Hin Hn; [by apply elem_of_nil in Hin|]. cbn [for_items].
  intros (s1 & Hs & H)%bind_ok_inv. apply elem_of_cons in Hin as [->|Hin]; [|by apply (IH _ _ token Hin Hn) in H].
  unfold select_capability in Hs. destruct (_ || _); [done|]. by rewrite bool_decide_eq_false_2 in Hs.
Qed.

(** The capabilities a client sends, as tokens. *)
Definition sent_token (c : ustring) : Prop := c ≠ [] ∧ Forall (λ u, 0x20 < u < 0x7f) c.

Lemma sent_token_ok c : sent_token c → token_ok c ∧ ascii c ∧ (0x0a ∉ c) ∧ (0x0d ∉ c).
Proof.
  intros [Hne Hc]. pose proof (proj1 (Forall_forall _ _) Hc) as H. split_and!; [split; [done|]|apply (Forall_impl _ _ _ Hc); lia|..];
    intros Hin; apply H in Hin; unfold SPACE in *; lia.
Qed.

Lemma sent_capabilities request caps filter :
  upload_capabilities request = Ok (caps, filter) → Forall sent_token caps ∧ ∃ before, caps = before ++ [agent_token].
Proof.
  assert (∀ c, bool_decide (c ≠ []) && forallb (λ u, (0x20 <? u) && (u <? 0x7f)) c = true → sent_token c) as Hc.
  { intros c [? Hall]%andb_prop. split; [by eapply bool_decide_eq_true|]. rewrite forallb_forall in Hall. apply Forall_forall. intros u Hu%list_elem_of_In.
    apply Hall in Hu. zbool. lia. }
  intros (f & _ & H)%bind_ok_inv. apply bind_ok_inv in H as ([] & _ & H). apply bind_ok_inv in H as ([] & _ & H).
  apply bind_ok_inv in H as (relative & Hrel & H). injection H as <- _.
  assert (Forall sent_token relative) as Hr.
  { unfold relative_capabilities in Hrel. destruct (deepenRelative request) as [| |[]]; [by injection Hrel as <-|done| |by injection Hrel as <-].
    destruct (bool_decide (depth request = None)); [done|]. destruct (negb _); [done|]. injection Hrel as <-. apply Forall_singleton. by apply Hc. }
  split; [|by eexists]. apply Forall_app. split; [|apply Forall_singleton; by apply Hc]. unfold negotiate. apply Forall_forall. intros c [_ Hin]%list_elem_of_filter.
  revert c Hin. apply Forall_forall. repeat first [exact Hr|apply Forall_nil_2|apply Forall_cons_2; [by apply Hc|]|apply Forall_app; split|case_match].
Qed.

Lemma parse_sent caps : Forall token_ok caps → caps ≠ [] → split SPACE (strip_trailing SPACE (drop_units SPACE (join SPACE caps))) = caps.
Proof.
  intros Hall Hne. assert (∀ l, Forall token_ok l → head (join SPACE l) ≠ Some SPACE) as Hhead.
  { intros [|c l] Hl; [done|]. apply Forall_cons in Hl as [[Hc Hs] _]. destruct c as [|u c]; [done|]. apply not_elem_of_cons in Hs as [Hs _].
    destruct l; cbn; congruence. }
  assert (∀ l, Forall token_ok l → last (join SPACE l) ≠ Some SPACE) as Hlast.
  { induction l as [|c l IH]; intros Hl; [done|]. apply Forall_cons in Hl as [[Hc Hs] Hl]. destruct l as [|d l].
    - cbn [join]. intros H. apply Hs. by apply last_Some_elem_of.
    - rewrite join_cons by done. rewrite last_app, last_cons. pose proof (IH Hl) as Hd. destruct (last (join SPACE (d :: l))) eqn:E; [by cbn|].
      apply last_None in E. apply Forall_cons in Hl as [[Hd' _] _]. destruct d; [done|]. by destruct l. }
  rewrite drop_units_id by by apply Hhead. unfold strip_trailing. rewrite drop_units_id.
  - rewrite reverse_involutive. apply split_join; [done|]. apply (Forall_impl _ _ _ Hall). by intros c [_ ?].
  - rewrite head_reverse. by apply Hlast.
Qed.

Lemma text_ok_joined tokens : Forall ascii tokens → ascii (join SPACE tokens).
Proof.
  induction 1 as [|t tokens Ht Hts IH]; [constructor|]. destruct tokens as [|u tokens]; [done|]. rewrite join_cons by done.
  apply Forall_app. split; [done|]. by apply Forall_cons_2.
Qed.

Lemma sent_tokens caps : Forall sent_token caps → Forall token_ok caps.
Proof. intros H. apply (Forall_impl _ _ _ H). by intros c [? _]%sent_token_ok. Qed.

Lemma join_without u tokens : u ≠ SPACE → Forall (λ t, u ∉ t) tokens → u ∉ join SPACE tokens.
Proof.
  intros Hu. induction 1 as [|t tokens Ht Hts IH]; [apply not_elem_of_nil|]. destruct tokens as [|v tokens]; [done|]. rewrite join_cons by done.
  rewrite elem_of_app, elem_of_cons. naive_solver.
Qed.

(** What the server reads in the first want. *)
Lemma first_fields oid caps :
  isOid oid = true → Forall sent_token caps → caps ≠ [] →
  let text := join SPACE (js "want" :: oid :: caps) in
  serverPacketText (text_packet (js "want " ++ oid ++ js " " ++ join SPACE caps ++ NEWLINE)) = Ok text ∧ split SPACE text = js "want" :: oid :: caps.
Proof.
  intros Ho Hcaps Hne text.
  assert (js "want " ++ oid ++ js " " ++ join SPACE caps ++ NEWLINE = text ++ [0x0a]) as ->.
  { unfold text. rewrite !join_cons by done. change (js "want ") with (js "want" ++ [SPACE]). change (js " ") with [SPACE]. rewrite <- !app_assoc. cbn [app]. by rewrite <- app_assoc. }
  assert (Forall sent_token (js "want" :: oid :: caps)) as Hall.
  { destruct (isOid_spec oid Ho) as [Hl Hd]. repeat apply Forall_cons_2; [| |done].
    - split; [done|]. repeat (apply Forall_cons_2; [by vm_compute|]). by apply Forall_nil_2.
    - split; [by intros ->|]. apply (Forall_impl _ _ _ Hd). intros u Hu%lower_hex_range. lia. }
  split.
  - apply serverPacketText_line; [apply text_ok_ascii, text_ok_joined|apply join_without; [done|]..]; apply (Forall_impl _ _ _ Hall); by intros c (_ & ? & ? & ?)%sent_token_ok.
  - apply split_join; [done|]. apply (Forall_impl _ _ _ (sent_tokens _ Hall)). by intros c [_ ?].
Qed.

(** The first packet of a request. *)
Lemma upload_body_first request caps filter content oid oids :
  wants request = oid :: oids → upload_body request caps filter = Ok content →
  let first := text_packet (js "want " ++ oid ++ js " " ++ join SPACE caps ++ NEWLINE) in
  fits first ∧ ∃ rest, content = wire_of first ++ rest.
Proof.
  assert (∀ lines body body', for_items push_line body lines = Ok body' → ∃ frames, body' = body ++ frames) as Happ.
  { induction lines as [|t lines IH]; intros b b'; cbn [for_items]; [intros [= <-]; exists []; by rewrite app_nil_r|].
    intros (b1 & (frame & _ & [= <-])%bind_ok_inv & H)%bind_ok_inv. apply IH in H as [frames ->]. exists (frame :: frames). by rewrite <- app_assoc. }
  intros Hw (b & Hb & H)%bind_ok_inv. unfold want_lines in Hb. rewrite Hw in Hb. rewrite <- app_comm_cons in Hb. cbn [for_items] in Hb.
  apply bind_ok_inv in Hb as (b1 & (frame & Hf & [= <-])%bind_ok_inv & Hb). apply pkt_text_ok in Hf as [Hf ->]. apply Happ in Hb as [frames ->].
  apply bind_ok_inv in H as (b2 & Hb2 & H). apply Happ in Hb2 as [frames2 ->]. unfold concatBody in H. rewrite pkt_concat_spec in H. injection H as <-.
  split; [done|]. by eexists.
Qed.

(** This program's server refuses every request that this program's client makes: the client
    sends the capability [agent] whether or not it was advertised, and the server, which does
    not advertise it, takes no capability it does not know. *)
Theorem uploadPack_refused request limit caps filter content chunks :
  upload_capabilities request = Ok (caps, filter) → check_upload request limit = Ok tt → upload_body request caps filter = Ok content →
  mjoin chunks = content → ∃ e, parseUploadPackRequest (mkYields chunks (Ok tt)) = Some (Throw e).
Proof.
  intros Hcaps Hcheck Hbody Hc. destruct (sent_capabilities _ _ _ Hcaps) as [Htok [before Ebefore]].
  apply bind_ok_inv in Hcheck as ([] & Hne & Hcheck). apply bind_ok_inv in Hcheck as ([] & _ & Hcheck). apply bind_ok_inv in Hcheck as ([] & Hoids & _).
  destruct (wants request) as [|oid oids] eqn:Ew; [done|]. cbn [app for_items] in Hoids. apply bind_ok_inv in Hoids as ([] & Hoid & _).
  unfold throw_if in Hoid. destruct (isOid oid) eqn:Eo; [|done]. destruct (upload_body_first _ _ _ _ _ _ Ew Hbody) as (Hfit & rest & Econtent).
  set (first := text_packet _) in *. set (r := new_ByteReader chunks (Ok tt)). assert (reader_ok r) as Hok by apply new_reader_ok.
  assert (holds r [first] rest) as Hr. { apply new_reader_leads; [by constructor|]. cbn [fmap list_fmap]. by rewrite mjoin_cons, app_nil_r, Hc. }
  destruct (read_next _ _ _ _ Hr) as (r1 & Hp & _ & _).
  assert (∃ e, negotiate_packet no_negotiation first = Throw e) as [e He].
  { destruct (negotiate_packet no_negotiation first) as [[n|n]|e] eqn:E; [exfalso|exfalso|by eexists].
    2:{ by apply negotiate_leave_iff in E as [? _]. }
    apply negotiate_again_iff in E as [(Hk & _)|(command & o & more & (t & Ht & Es) & Hl)]; [done|].
    apply negotiate_line_iff in Hl as (_ & _ & _ & cs & Hcs & _). unfold line_capabilities in Hcs. cbn [no_negotiation wantsEnded n_wants negb andb] in Hcs.
    change (zlen [] =? 0) with true in Hcs. cbv iota in Hcs.
    destruct (first_fields oid caps Eo Htok) as (Hf & Hs); [rewrite Ebefore; by destruct before|].
    fold first in Hf. rewrite Hf in Ht. apply (inj Ok) in Ht as <-. rewrite Hs in Es. injection Es as _ _ <-.
    unfold parseCapabilities in Hcs. rewrite bool_decide_eq_false_2 in Hcs.
    2:{ intros E. assert (caps ≠ []) as Hn by (rewrite Ebefore; by destruct before). rewrite <- (parse_sent caps) in Htok by (done || by apply sent_tokens).
        rewrite E in Htok. by apply Forall_cons in Htok as [[? _] _]. }
    rewrite parse_sent in Hcs; [|by apply sent_tokens|rewrite Ebefore; by destruct before].
    apply (unsupported_token UPLOAD_SERVER_CAPABILITIES caps _ _ agent_token) in Hcs; [done| |apply agent_unsupported]. rewrite Ebefore. apply elem_of_app. right. by left. }
  unfold parseUploadPackRequest. cbn [items ending]. fold r.
  assert (∃ r2, (n ← p_fueled reader_fuel (λ fuel, packet_loop fuel (corrupt_text "upload request ended before its terminal packet") negotiate_packet no_negotiation);
     finish_negotiation n) r = Some (Throw e, r2)) as (r2 & Hl).
  { exists r1. apply p_bind_throw. unfold p_fueled. destruct (reader_fuel r) eqn:Ef; [by unfold reader_fuel in Ef|]. cbn [packet_loop]. proceed_by Hp.
    by rewrite p_bind_lift, He. }
  destruct (finally_release _ _ _ _ Hl) as (r3 & ->). by exists e.
Qed.

(** Even for what the server advertises itself. *)
Example refused_example :
  match upload_capabilities example_fetch with
  | Ok (caps, filter) =>
      (content ← upload_body example_fetch caps filter; Ok (parseUploadPackRequest (mkYields [content] (Ok tt)))) =
        Ok (Some (Throw (GitErr "EUNSUPPORTED" "unsupported server capability agent=kompjutr/0.0.0")))
  | Throw _ => False
  end.
Proof. vm_compute. reflexivity. Qed.
