(* ===== verification/Refspec.v ===== *)
(** Refspecs: src/packages/git/src/ops/refs/refspec-compile.ts, with the checks of
    refspec-validation.ts and the limits and types of refspec-types.ts, and the leases of
    refspec-leases.ts. *)

From S2P Require Import Prelude Utf8 Text Bytes Objects Streams RefName JsMap Protocol ReceivePack.

Definition MAX_REFSPEC_MAPPINGS : Z := 1024.
Definition MAX_REFSPEC_EXPANDED_DESTINATIONS : Z := 1024.
Definition MAX_PUSH_LEASES : Z := 1024.

(** * Data *)

(** A value the types promise to be a string or [null]. *)
Inductive nullable := NString (s : ustring) | NNull | NOther.

(** A refspec that is an object. *)
Record RefspecInput := mkRefspec { in_source : nullable; in_destination : jsvalue; in_force : field bool }.

(** A row of the source set. *)
Record RefspecSourceRef := mkSourceRef { s_name : jsvalue; s_oid : jsvalue }.

Record CompiledMapping := mkMapping {
  source : option ustring; destination : ustring; sourceStar : Z; destinationStar : Z; oidSource : bool; force : bool
}.

(** [ExpandedFetchRefspec] ([T] strings) and [ExpandedPushRefspec] ([T] strings or [null]). *)
Record Expanded (T : Type) := mkExpanded { e_source : T; e_destination : ustring; e_oid : T; e_force : bool }.
Arguments mkExpanded {T} e_source e_destination e_oid e_force.
Arguments e_source {T} e.
Arguments e_destination {T} e.
Arguments e_oid {T} e.
Arguments e_force {T} e.

Inductive Direction := fetch | push.

#[export] Instance Expanded_eq_dec T `{EqDecision T} : EqDecision (Expanded T).
Proof. solve_decision. Defined.
#[export] Instance Direction_eq_dec : EqDecision Direction.
Proof. solve_decision. Defined.

(** * Validation *)

Definition malformed (message : ustring) : jserror := GitError (js "EINVAL") message.
Definition invalidRef (label : ustring) : jserror := GitError (js "EINVALIDREF") (label ++ js " is not a canonical full ref").

Definition canonicalRefText (value label : ustring) : outcome unit :=
  throw_if (negb (bool_decide (problem (checkRefText value None) = None))) (invalidRef label).

Definition requireFullRef (value label : ustring) : outcome unit :=
  _ ← canonicalRefText value label;
  throw_if (negb (startsWith value (js "refs/")) || negb (hasCanonicalRefSyntax value 0 (zlen value))) (invalidRef label).

Definition STAR : Z := 0x2a.

(** [value.indexOf("*", start)]. *)
Definition star_from (value : ustring) (start : Z) : Z :=
  let i := indexOf STAR (slice_from value start) in
  if i <? 0 then -1 else start + i.

Definition starIndex (value : ustring) : Z :=
  let first := star_from value 0 in
  if first <? 0 then -1 else if star_from value (first + 1) <? 0 then first else -2.

Definition requirePattern (value : ustring) (star : Z) (label : ustring) : outcome unit :=
  _ ← canonicalRefText value label;
  if star <? 0 then Throw (malformed (label ++ js " must contain exactly one wildcard"))
  else throw_if (negb (startsWith value (js "refs/")) || negb (hasCanonicalRefPatternSyntax value star)) (invalidRef label).

Definition requireForce (force : field bool) (label : ustring) : outcome bool :=
  match force with
  | absent => Ok false
  | misfit => Throw (malformed (label ++ js " force must be boolean"))
  | given force => Ok force
  end.

Definition validateMappingCount {A} (refspecs : list A) : outcome unit :=
  if zlen refspecs =? 0 then Throw (malformed (js "refspec list must not be empty"))
  else throw_if (MAX_REFSPEC_MAPPINGS <? zlen refspecs)
         (GitError (js "E2BIG") (js "refspec list exceeds " ++ number_string MAX_REFSPEC_MAPPINGS ++ js " mappings")).

(** * Compiling *)

(** Its caller has made sure of the types. *)
Definition compileMapping (source : option ustring) (destination : ustring) (force allowOid : bool) : outcome CompiledMapping :=
  let sourceIsOid := match source with Some source => allowOid && isOid source | None => false end in
  let sourceStar := match source with Some source => if sourceIsOid then -1 else starIndex source | None => -1 end in
  let destinationStar := starIndex destination in
  _ ← match source with
      | Some source =>
          if sourceIsOid then
            if negb (destinationStar =? -1) then Throw (malformed (js "deletion and object-id refspecs cannot contain wildcards"))
            else requireFullRef destination (js "refspec destination")
          else if (sourceStar =? -1) && (destinationStar =? -1) then
            _ ← requireFullRef source (js "refspec source");
            requireFullRef destination (js "refspec destination")
          else if (sourceStar <? 0) || (destinationStar <? 0) then
            Throw (malformed (js "transfer refspecs require exactly one wildcard on each side"))
          else
            _ ← requirePattern source sourceStar (js "refspec source pattern");
            requirePattern destination destinationStar (js "refspec destination pattern")
      | None =>
          if negb (destinationStar =? -1) then Throw (malformed (js "deletion and object-id refspecs cannot contain wildcards"))
          else requireFullRef destination (js "refspec destination")
      end;
  Ok (mkMapping source destination sourceStar destinationStar sourceIsOid force).

(** One refspec, at the position [index]. *)
Definition compile_refspec (direction : Direction) (index : Z) (refspec : option RefspecInput) : outcome CompiledMapping :=
  let label := js "refspec " ++ number_string (index + 1) in
  match refspec with
  | None => Throw (malformed (label ++ js " must be an object"))
  | Some refspec =>
      force ← requireForce (in_force refspec) label;
      match in_destination refspec with
      | JOther => Throw (malformed (js "refspec destination must be a string"))
      | JString destination =>
          match in_source refspec with
          | NOther => Throw (malformed (js "refspec source must be a string or null"))
          | NNull =>
              if bool_decide (direction = fetch) then Throw (malformed (js "fetch refspec source must be a string"))
              else
                match in_force refspec with
                | absent => compileMapping None destination force (bool_decide (direction = push))
                | _ => Throw (malformed (js "deletion refspec cannot set force"))
                end
          | NString source => compileMapping (Some source) destination force (bool_decide (direction = push))
          end
      end
  end.

(** The loop over the refspecs; [compiled] is what is pushed so far. *)
Fixpoint compile_loop (direction : Direction) (index : Z) (exactDestinations : jsset) (compiled : list CompiledMapping)
    (refspecs : list (option RefspecInput)) : outcome (list CompiledMapping) :=
  match refspecs with
  | [] => Ok compiled
  | refspec :: refspecs =>
      mapping ← compile_refspec direction index refspec;
      if destinationStar mapping <? 0 then
        if bool_decide (destination mapping ∈ exactDestinations)
        then Throw (malformed (js "duplicate exact refspec destination " ++ destination mapping))
        else compile_loop direction (index + 1) (set_add exactDestinations (destination mapping)) (compiled ++ [mapping]) refspecs
      else compile_loop direction (index + 1) exactDestinations (compiled ++ [mapping]) refspecs
  end.

Definition compile (refspecs : list (option RefspecInput)) (direction : Direction) : outcome (list CompiledMapping) :=
  _ ← validateMappingCount refspecs;
  compile_loop direction 0 [] [] refspecs.

(** * The source set *)

(** One row after its types: whether it is metadata ([HEAD], or a peeled tag). *)
Definition source_metadata (name : ustring) : outcome bool :=
  if endsWith_at name (js "^{}") (zlen name) then
    let base := slice name 0 (zlen name - 3) in
    if negb (startsWith base (js "refs/tags/")) || negb (hasCanonicalRefSyntax base 0 (zlen base))
    then Throw (CorruptError (js "invalid peeled refspec source " ++ name))
    else Ok true
  else if negb (str_eqb name (js "HEAD")) && (negb (startsWith name (js "refs/")) || negb (hasCanonicalRefSyntax name 0 (zlen name)))
  then Throw (CorruptError (js "invalid refspec source " ++ name))
  else Ok (str_eqb name (js "HEAD")).

Definition malformed_row : jserror := CorruptError (js "refspec source set contains a malformed row").

(** What the loop keeps: [actual] and [seen]. *)
Definition add_source (s : jsmap ustring ustring * jsset) (ref : RefspecSourceRef) : outcome (jsmap ustring ustring * jsset) :=
  let '(actual, seen) := s in
  match s_name ref, s_oid ref with
  | JString name, JString oid =>
      if negb (isOid oid) then Throw malformed_row
      else if negb (bool_decide (problem (checkRefText name None) = None))
      then Throw (CorruptError (js "invalid refspec source " ++ name))
      else
        metadata ← source_metadata name;
        if bool_decide (name ∈ seen) then Throw (CorruptError (js "duplicate refspec source " ++ name))
        else Ok (if metadata : bool then actual else map_set actual name oid, set_add seen name)
  | _, _ => Throw malformed_row
  end.

Definition actualSourceRefs (refs : list RefspecSourceRef) : outcome (jsmap ustring ustring) :=
  fst <$> for_items add_source ([], []) refs.

(** * Wildcards *)

Record WildcardCapture := mkCapture { c_start : Z; c_end : Z }.

(** [n] code units of [a] from [i] are those of [b] from [j]; [NaN] equals nothing. *)
Fixpoint units_agree (n : nat) (a b : ustring) (i j : Z) : bool :=
  match n with
  | O => true
  | S n =>
      match at_ a i, at_ b j with
      | Some u, Some v => (u =? v) && units_agree n a b (i + 1) (j + 1)
      | _, _ => false
      end
  end.

Definition wildcardCapture (source pattern : ustring) (star : Z) : option WildcardCapture :=
  let suffixUnits := zlen pattern - star - 1 in
  if zlen source <? star + suffixUnits then None
  else if negb (units_agree (Z.to_nat star) source pattern 0 0) then None
  else if negb (units_agree (Z.to_nat suffixUnits) source pattern (zlen source - suffixUnits) (star + 1)) then None
  else Some (mkCapture star (zlen source - suffixUnits)).

Definition substitute (pattern : ustring) (star : Z) (source : ustring) (capture : WildcardCapture) : ustring :=
  slice pattern 0 star ++ slice source (c_start capture) (c_end capture) ++ slice_from pattern (star + 1).

Definition requireExpandedDestination (value : ustring) : outcome unit :=
  throw_if (negb (bool_decide (problem (checkRefText value None) = None)) || negb (startsWith value (js "refs/")) ||
            negb (hasCanonicalRefSyntax value 0 (zlen value)))
    (invalidRef (js "expanded refspec destination")).

(** * Expanding *)

Definition too_many_destinations : jserror :=
  GitError (js "E2BIG") (js "expanded refspec set exceeds " ++ number_string MAX_REFSPEC_EXPANDED_DESTINATIONS ++ js " destinations").

(** [ExpansionBudget]: its counter. *)
Definition budget_add (destinations : Z) : outcome Z :=
  if MAX_REFSPEC_EXPANDED_DESTINATIONS <=? destinations then Throw too_many_destinations else Ok (destinations + 1).
Definition prechargeDerived (destinations : Z) : outcome unit :=
  throw_if (MAX_REFSPEC_EXPANDED_DESTINATIONS <=? destinations) too_many_destinations.

Definition destinationGuard (seen : jsset) (destination : ustring) : outcome jsset :=
  if bool_decide (destination ∈ seen) then Throw (malformed (js "expanded refspecs have duplicate destination " ++ destination))
  else Ok (set_add seen destination).

Section expand.
  Context {T : Type} (wrap : ustring → T).

(** The locals of [expand]: the budget, [seen] and [result]. *)
Record Expansion := mkExpansion { x_destinations : Z; x_seen : jsset; x_result : list (Expanded T) }.

Definition expansion_start : Expansion := mkExpansion 0 [] [].

(** [expansion.add(); destinationGuard(seen, destination); result.push(...)]. *)
Definition emit (x : Expansion) (entry : Expanded T) : outcome Expansion :=
  destinations ← budget_add (x_destinations x);
  seen ← destinationGuard (x_seen x) (e_destination entry);
  Ok (mkExpansion destinations seen (x_result x ++ [entry])).

(** The body of the loop over the sources, for a mapping with wildcards. *)
Definition expand_source (mapping : CompiledMapping) (pattern : ustring) (x : Expansion) (row : ustring * ustring) : outcome Expansion :=
  let '(name, oid) := row in
  match wildcardCapture name pattern (sourceStar mapping) with
  | None => Ok x
  | Some capture =>
      _ ← prechargeDerived (x_destinations x);
      let dest := substitute (destination mapping) (destinationStar mapping) name capture in
      _ ← requireExpandedDestination dest;
      emit x (mkExpanded (wrap name) dest (wrap oid) (force mapping))
  end.

(** A mapping that names references: one, or those its pattern matches. *)
Definition expand_transfer (missing : string) (sources : jsmap ustring ustring) (mapping : CompiledMapping) (source : ustring)
    (x : Expansion) : outcome Expansion :=
  if sourceStar mapping <? 0 then
    match map_get sources source with
    | None => Throw (GitError (js "EREFNOTFOUND") (js missing ++ source))
    | Some oid => emit x (mkExpanded (wrap source) (destination mapping) (wrap oid) (force mapping))
    end
  else for_items (expand_source mapping source) x sources.

End expand.
Arguments Expansion T : clear implicits.

Definition by_destination {T} (left right : Expanded T) : Z := comparePaths (e_destination left) (e_destination right).

(** The body of the loop of [FetchCompiler.expand]. *)
Definition expand_fetch_mapping (sources : jsmap ustring ustring) (x : Expansion ustring) (mapping : CompiledMapping)
  : outcome (Expansion ustring) :=
  match source mapping with
  | None => Throw (PlainError (js "compiled fetch deletion is impossible"))
  | Some source => expand_transfer id "remote ref not found: " sources mapping source x
  end.

Definition expand_fetch (mappings : list CompiledMapping) (refs : list RefspecSourceRef) : outcome (list (Expanded ustring)) :=
  sources ← actualSourceRefs refs;
  x ← for_items (expand_fetch_mapping sources) expansion_start mappings;
  Ok (sort_by by_destination (x_result x)).

(** The body of the loop of [PushCompiler.expand]. *)
Definition expand_push_mapping (sources : jsmap ustring ustring) (x : Expansion (option ustring)) (mapping : CompiledMapping)
  : outcome (Expansion (option ustring)) :=
  match source mapping with
  | None => emit x (mkExpanded None (destination mapping) None false)
  | Some source =>
      if oidSource mapping then emit x (mkExpanded (Some source) (destination mapping) (Some source) (force mapping))
      else expand_transfer Some "local ref not found: " sources mapping source x
  end.

Definition expand_push (mappings : list CompiledMapping) (refs : list RefspecSourceRef) : outcome (list (Expanded (option ustring))) :=
  sources ← actualSourceRefs refs;
  x ← for_items (expand_push_mapping sources) expansion_start mappings;
  Ok (sort_by by_destination (x_result x)).

Definition compileFetchRefspecs (refspecs : list (option RefspecInput)) : outcome (list RefspecSourceRef → outcome (list (Expanded ustring))) :=
  expand_fetch <$> compile refspecs fetch.

Definition compilePushRefspecs (refspecs : list (option RefspecInput))
  : outcome (list RefspecSourceRef → outcome (list (Expanded (option ustring)))) :=
  expand_push <$> compile refspecs push.

(** * Leases *)

(** A value nothing is known of: an object is its own properties in order, where a key is a
    string or a symbol ([JOther]). *)
Inductive unknown := Undefined | Null | Str (s : ustring) | Bool (b : bool) | Obj (properties : list (jsvalue * unknown)) | Other.

Inductive PushLeaseExpectation := expected (oid : option ustring) | tracking.
Record NormalizedPushLease := mkLease { l_destination : ustring; expectation : PushLeaseExpectation }.

(** [Reflect.get(object, key)] on an object of plain properties. *)
Fixpoint reflect_get (properties : list (jsvalue * unknown)) (key : ustring) : unknown :=
  match properties with
  | [] => Undefined
  | (JString k, v) :: properties => if str_eqb k key then v else reflect_get properties key
  | _ :: properties => reflect_get properties key
  end.

Definition normalizeLeaseDestination (value : ustring) : outcome ustring :=
  let destination := if startsWith value (js "refs/") then value else js "refs/heads/" ++ value in
  _ ← requireFullRef destination (js "push lease destination");
  Ok destination.

Definition lease_error (destination : ustring) (message : string) : jserror :=
  malformed (js "push lease for " ++ destination ++ js message).

Definition pushLeaseExpectation (value : unknown) (destination : ustring) : outcome PushLeaseExpectation :=
  match value with
  | Obj properties =>
      match properties.*1 with
      | [JString key] =>
          if str_eqb key (js "expected") then
            match reflect_get properties (js "expected") with
            | Null => Ok (expected None)
            | Str oid =>
                if negb (isOid oid) then Throw (lease_error destination " expected must be an object id or null")
                else Ok (expected (Some oid))
            | _ => Throw (lease_error destination " expected must be an object id or null")
            end
          else if str_eqb key (js "tracking") then
            match reflect_get properties (js "tracking") with
            | Bool true => Ok tracking
            | _ => Throw (lease_error destination " has an invalid expectation")
            end
          else Throw (lease_error destination " has an invalid expectation")
      | _ => Throw (lease_error destination " must contain exactly one expectation")
      end
  | _ => Throw (lease_error destination " must be an expectation object")
  end.

(** The body of the loop over the keys: [seen] and [leases]. *)
Definition add_lease (properties : list (jsvalue * unknown)) (destinations : jsset) (s : jsset * list NormalizedPushLease) (key : jsvalue)
  : outcome (jsset * list NormalizedPushLease) :=
  let '(seen, leases) := s in
  match key with
  | JOther => Throw (malformed (js "push lease keys must be strings"))
  | JString key =>
      destination ← normalizeLeaseDestination key;
      if bool_decide (destination ∈ seen) then Throw (malformed (js "push lease keys collide at destination " ++ destination))
      else if negb (bool_decide (destination ∈ destinations))
      then Throw (malformed (js "push lease destination is not used by this push: " ++ destination))
      else
        expectation ← pushLeaseExpectation (reflect_get properties key) destination;
        Ok (set_add seen destination, leases ++ [mkLease destination expectation])
  end.

Definition normalizePushLeases (value : unknown) (mappings : list (Expanded (option ustring))) : outcome (list NormalizedPushLease) :=
  match value with
  | Undefined => Ok []
  | Obj properties =>
      if MAX_PUSH_LEASES <? zlen properties
      then Throw (GitError (js "E2BIG") (js "push lease set exceeds " ++ number_string MAX_PUSH_LEASES ++ js " destinations"))
      else
        let destinations := foldl set_add [] (e_destination <$> mappings) in
        '(_, leases) ← for_items (add_lease properties destinations) ([], []) properties.*1;
        Ok (sort_by (λ left right, comparePaths (l_destination left) (l_destination right)) leases)
  | _ => Throw (malformed (js "push leases must be an object"))
  end.
