(* ===== verification/RefspecFacts.v ===== *)
(** Facts about refspecs: the references a mapping names, what a list of refspecs expands to, and
    which leases are accepted. *)

From S2P Require Import Prelude Utf8 Text Bytes Objects Streams RefName JsMap Protocol ProtocolFacts ReceivePack Refspec.

(** * References *)

(** Text that can stand in a reference, of a length the language can hold. *)
Definition js_string (s : ustring) : Prop := units s ∧ zlen s <= 2 ^ 50.
Definition ref_text (s : ustring) : Prop := units s ∧ isWellFormed s = true ∧ Forall text_unit s.
Definition full_ref (s : ustring) : Prop := ref_text s ∧ startsWith s (js "refs/") = true ∧ ref_name s.

(** A pattern: the text before its only star, and the text behind it. *)
Definition ref_pattern (p q : ustring) : Prop :=
  ref_text (p ++ STAR :: q) ∧ startsWith (p ++ STAR :: q) (js "refs/") = true ∧ ref_format (zlen p) 0 (p ++ STAR :: q).

Lemma ref_text_iff s : units s → problem (checkRefText s None) = None ↔ ref_text s.
Proof.
  intros Hu. destruct (checkRefText_spec s None Hu eq_refl) as (H & _ & _). rewrite H. unfold ref_text. simpl. naive_solver.
Qed.

Lemma throw_if_ok c e : throw_if c e = Ok tt ↔ c = false.
Proof. unfold throw_if. by destruct c. Qed.

Lemma throw_if_bind {A} c e (k : unit → outcome A) a : (throw_if c e ≫= k) = Ok a ↔ c = false ∧ k tt = Ok a.
Proof. unfold throw_if. destruct c; cbn; naive_solver. Qed.

Lemma full_ref_checks s : units s → zlen s <= MAX_SAFE_INTEGER →
  (negb (bool_decide (problem (checkRefText s None) = None)) || negb (startsWith s (js "refs/")) ||
   negb (hasCanonicalRefSyntax s 0 (zlen s))) = false ↔ full_ref s.
Proof.
  intros Hu Hl. rewrite !orb_false_iff, !negb_false_iff, bool_decide_eq_true, ref_text_iff, hasCanonicalRefSyntax_correct by done.
  unfold full_ref. tauto.
Qed.

Lemma requireFullRef_ok s label : units s → zlen s <= MAX_SAFE_INTEGER → requireFullRef s label = Ok tt ↔ full_ref s.
Proof.
  intros Hu Hl. rewrite <- full_ref_checks by done. unfold requireFullRef, canonicalRefText.
  rewrite throw_if_bind, throw_if_ok, !orb_false_iff. tauto.
Qed.

Lemma expanded_destination_ok s : units s → zlen s <= MAX_SAFE_INTEGER → requireExpandedDestination s = Ok tt ↔ full_ref s.
Proof. intros. unfold requireExpandedDestination. by rewrite throw_if_ok, full_ref_checks. Qed.

(** * Stars *)

Lemma star_not_allowed w base s i : allowed_from w base s → s !! i = Some STAR → base + Z.of_nat i = w.
Proof.
  intros Ha Hi. destruct (Ha i STAR Hi) as (_ & _ & H). apply H. exact (bool_decide_eq_true_1 (STAR ∈ FORBIDDEN) eq_refl).
Qed.

Lemma full_ref_no_star s : full_ref s → STAR ∉ s.
Proof. intros (_ & _ & H). apply (ref_name_no s STAR H). exact (bool_decide_eq_true_1 (STAR ∈ FORBIDDEN) eq_refl). Qed.

Lemma ref_pattern_no_star p q : ref_pattern p q → (STAR ∉ p) ∧ (STAR ∉ q).
Proof.
  intros (_ & _ & (_ & _ & _ & _ & _ & Ha)). split; (intros [i Hi]%list_elem_of_lookup).
  - assert (i < length p)%nat by by apply lookup_lt_Some in Hi.
    apply (star_not_allowed _ _ _ i) in Ha; [unfold zlen in Ha; lia|by apply lookup_app_l_Some].
  - apply (star_not_allowed _ _ _ (length p + S i)%nat) in Ha; [unfold zlen in Ha; lia|].
    rewrite lookup_app_r by lia. by replace (length p + S i - length p)%nat with (S i) by lia.
Qed.

Lemma star_from_0 s : star_from s 0 = indexOf STAR s.
Proof.
  unfold star_from, slice_from. change (drop (Z.to_nat 0) s) with s. destruct (decide (STAR ∈ s)) as [H|H].
  - apply list_elem_of_split_l in H as (a & b & -> & Ha). rewrite indexOf_spec by done. pose proof (zlen_nonneg a). zdec. lia.
  - by rewrite indexOf_none.
Qed.

Lemma starIndex_none s : STAR ∉ s → starIndex s = -1.
Proof. intros H. unfold starIndex. by rewrite star_from_0, indexOf_none. Qed.

Lemma star_from_app p q : star_from (p ++ STAR :: q) (zlen p + 1) = if indexOf STAR q <? 0 then -1 else zlen p + 1 + indexOf STAR q.
Proof.
  unfold star_from. replace (zlen p + 1) with (zlen (p ++ [STAR])) by (rewrite zlen_app; reflexivity).
  by rewrite cons_middle, app_assoc, slice_from_app.
Qed.

Lemma starIndex_one p q : STAR ∉ p → starIndex (p ++ STAR :: q) = if bool_decide (STAR ∈ q) then -2 else zlen p.
Proof.
  intros Hp. unfold starIndex. rewrite star_from_0, indexOf_spec by done. pose proof (zlen_nonneg p).
  rewrite (proj2 (Z.ltb_ge _ _)), star_from_app by done. case_bool_decide as Hq.
  - apply list_elem_of_split_l in Hq as (a & b & -> & Ha). rewrite indexOf_spec by done. pose proof (zlen_nonneg a).
    rewrite (proj2 (Z.ltb_ge (zlen a) 0)) by done. by rewrite (proj2 (Z.ltb_ge _ _)) by lia.
  - by rewrite indexOf_none.
Qed.

Lemma starIndex_cases s : (starIndex s = -1 ∧ STAR ∉ s) ∨ starIndex s = -2 ∨
  ∃ p q, s = p ++ STAR :: q ∧ (STAR ∉ p) ∧ (STAR ∉ q) ∧ starIndex s = zlen p.
Proof.
  destruct (decide (STAR ∈ s)) as [Hs|Hs]; [|left; split; [by apply starIndex_none|done]].
  apply list_elem_of_split_l in Hs as (p & q & -> & Hp). rewrite starIndex_one by done.
  case_bool_decide; [auto|]. right. right. by exists p, q.
Qed.

(** * Mappings *)

(** What a refspec asks for. *)
Inductive Mapping :=
| Delete (destination : ustring)
| Object (oid destination : ustring) (force : bool)
| Exact (source destination : ustring) (force : bool)
| Pattern (before after destination_before destination_after : ustring) (force : bool).

(** A missing [force] is [false]. *)
Definition force_is (f : field bool) (b : bool) : Prop := f = given b ∨ (f = absent ∧ b = false).

(** The values that write a mapping down. *)
Definition spells (direction : Direction) (m : Mapping) (refspec : option RefspecInput) : Prop :=
  match m with
  | Delete d => direction = push ∧ full_ref d ∧ refspec = Some (mkRefspec NNull (JString d) absent)
  | Object oid d b => direction = push ∧ isOid oid = true ∧ full_ref d ∧
      ∃ f, force_is f b ∧ refspec = Some (mkRefspec (NString oid) (JString d) f)
  | Exact s d b => full_ref s ∧ full_ref d ∧ ∃ f, force_is f b ∧ refspec = Some (mkRefspec (NString s) (JString d) f)
  | Pattern p q dp dq b => ref_pattern p q ∧ ref_pattern dp dq ∧
      ∃ f, force_is f b ∧ refspec = Some (mkRefspec (NString (p ++ STAR :: q)) (JString (dp ++ STAR :: dq)) f)
  end.

(** The record the code keeps for it. *)
Definition compiled (m : Mapping) : CompiledMapping :=
  match m with
  | Delete d => mkMapping None d (-1) (-1) false false
  | Object oid d b => mkMapping (Some oid) d (-1) (-1) true b
  | Exact s d b => mkMapping (Some s) d (-1) (-1) false b
  | Pattern p q dp dq b => mkMapping (Some (p ++ STAR :: q)) (dp ++ STAR :: dq) (zlen p) (zlen dp) false b
  end.

Definition refspec_strings (refspec : option RefspecInput) : Prop :=
  ∀ r, refspec = Some r → (∀ s, in_source r = NString s → js_string s) ∧ (∀ d, in_destination r = JString d → js_string d).

Lemma js_string_bound s : js_string s → zlen s <= MAX_SAFE_INTEGER.
Proof. intros [_ H]. unfold MAX_SAFE_INTEGER. lia. Qed.

Lemma requireFullRef_string s label : js_string s → requireFullRef s label = Ok tt ↔ full_ref s.
Proof. intros H. apply requireFullRef_ok; [apply H|by apply js_string_bound]. Qed.

Lemma requirePattern_ok p q label : js_string (p ++ STAR :: q) → requirePattern (p ++ STAR :: q) (zlen p) label = Ok tt ↔ ref_pattern p q.
Proof.
  intros Hs. unfold requirePattern, canonicalRefText. rewrite throw_if_bind, negb_false_iff, bool_decide_eq_true, ref_text_iff by apply Hs.
  pose proof (zlen_nonneg p). rewrite (proj2 (Z.ltb_ge _ _)), throw_if_ok, orb_false_iff, !negb_false_iff by done.
  unfold hasCanonicalRefPatternSyntax.
  pose proof (ref_syntax_spec (zlen p) [] (p ++ STAR :: q) boundary_nil (js_string_bound _ Hs)) as H1. simpl app in H1.
  rewrite H1 by (right; by rewrite at_app). unfold ref_pattern. tauto.
Qed.

Lemma unit_bind_ok {A} (m : outcome unit) (k : unit → outcome A) a : (m ≫= k) = Ok a ↔ m = Ok tt ∧ k tt = Ok a.
Proof. destruct m as [[]|]; cbn; naive_solver. Qed.

Lemma starIndex_full s : full_ref s → starIndex s = -1.
Proof. intros H. by apply starIndex_none, full_ref_no_star. Qed.

Lemma starIndex_pattern p q : ref_pattern p q → starIndex (p ++ STAR :: q) = zlen p.
Proof. intros [??]%ref_pattern_no_star. rewrite starIndex_one by done. by rewrite bool_decide_eq_false_2. Qed.

(** Compiling a transfer: both ends are exact, or both have one star. *)
Lemma compileMapping_transfer s d b allow cm : js_string s → js_string d → allow && isOid s = false →
  compileMapping (Some s) d b allow = Ok cm ↔
  (full_ref s ∧ full_ref d ∧ cm = compiled (Exact s d b)) ∨
  ∃ p q dp dq, s = p ++ STAR :: q ∧ d = dp ++ STAR :: dq ∧ ref_pattern p q ∧ ref_pattern dp dq ∧ cm = compiled (Pattern p q dp dq b).
Proof.
  intros Hs Hd Ho. unfold compileMapping. rewrite Ho, unit_bind_ok. split.
  - destruct (starIndex_cases s) as [[Es _]|[Es|(p & q & -> & _ & _ & Es)]];
      destruct (starIndex_cases d) as [[Ed _]|[Ed|(dp & dq & -> & _ & _ & Ed)]]; rewrite Es, Ed;
      try (pose proof (zlen_nonneg p)); try (pose proof (zlen_nonneg dp)); zdec; try by intros [? _].
    + rewrite unit_bind_ok, !requireFullRef_string by done. intros ((?&?)&[= <-]). by left.
    + rewrite unit_bind_ok, !requirePattern_ok by done. intros ((?&?)&[= <-]). right. by exists p, q, dp, dq.
  - intros [(Hf & Hg & ->)|(p & q & dp & dq & -> & -> & Hp & Hq & ->)].
    + rewrite !starIndex_full by done. cbn. rewrite unit_bind_ok, !requireFullRef_string by done. done.
    + rewrite !starIndex_pattern by done. pose proof (zlen_nonneg p). pose proof (zlen_nonneg dp). zdec.
      by rewrite unit_bind_ok, !requirePattern_ok by done.
Qed.

Lemma compileMapping_fixed (source : option ustring) d b (allow : bool) cm : js_string d →
  (∀ s, source = Some s → allow && isOid s = true) →
  compileMapping source d b allow = Ok cm ↔ full_ref d ∧ cm = mkMapping source d (-1) (-1) (bool_decide (is_Some source)) b.
Proof.
  intros Hd Hs. unfold compileMapping. assert (Hcases : ∀ e : jserror, (if negb (starIndex d =? -1) then Throw e
    else requireFullRef d (js "refspec destination")) = Ok tt ↔ full_ref d).
  { intros e. rewrite <- (requireFullRef_string d (js "refspec destination") Hd) at 1. destruct (starIndex d =? -1) eqn:E; cbn [negb]; [done|].
    split; [done|]. rewrite requireFullRef_string by done. intros Hf%starIndex_full. by rewrite Hf in E. }
  destruct source as [s|]; [rewrite (Hs s eq_refl)|]; rewrite unit_bind_ok, Hcases; split; intros [Hf E]; (split; [done|]);
    rewrite (starIndex_full d Hf) in *; [by injection E as <-|by rewrite E|by injection E as <-|by rewrite E].
Qed.

Lemma requireForce_ok f label b : requireForce f label = Ok b ↔ force_is f b.
Proof. unfold force_is. destruct f; cbn; naive_solver. Qed.

Lemma ref_not_oid s : startsWith s (js "refs/") = true → isOid s = false.
Proof.
  intros H. destruct (isOid s) eqn:E; [|done].
  rewrite <- (app_nil_r s), (oid_not_start s [] (js "refs/") 0x72) in H by (done || lia). done.
Qed.

#[local] Arguments compileMapping : simpl never.

(** A refspec compiles exactly when it spells a mapping. *)
Lemma compile_refspec_ok direction index refspec cm : refspec_strings refspec →
  compile_refspec direction index refspec = Ok cm ↔ ∃ m, spells direction m refspec ∧ cm = compiled m.
Proof.
  intros Hs. unfold compile_refspec. split.
  - destruct refspec as [[src dst f]|]; [|done]. destruct (Hs _ eq_refl) as [Hsrc Hdst]. cbn in *.
    intros (b & Hf & H)%bind_ok_inv. apply requireForce_ok in Hf. destruct dst as [d|]; [|done]. specialize (Hdst d eq_refl).
    destruct src as [s| |]; [|case_bool_decide as Hdir; [done|]; destruct f; try done|done].
    + specialize (Hsrc s eq_refl). destruct (bool_decide (direction = push) && isOid s) eqn:Eo.
      * apply compileMapping_fixed in H as [Hd ->]; [|done|by intros ? [= ->]].
        apply andb_prop in Eo as [Hp%bool_decide_eq_true Ho]. exists (Object s d b). split; [|done]. split_and!; eauto.
      * apply compileMapping_transfer in H as [(?&?&->)|(p & q & dp & dq & -> & -> & ? & ? & ->)]; [| |done..].
        -- exists (Exact s d b). split; [|done]. split_and!; eauto.
        -- exists (Pattern p q dp dq b). split; [|done]. split_and!; eauto.
    + destruct Hf as [|[_ ->]]; [done|]. apply compileMapping_fixed in H as [Hd ->]; [|done..]. exists (Delete d).
      by destruct direction.
  - intros (m & Hm & ->). destruct m as [d|oid d b|s d b|p q dp dq b]; cbn in Hm.
    + destruct Hm as (-> & Hd & ->). cbn. apply compileMapping_fixed; [by apply (Hs _ eq_refl)|done|done].
    + destruct Hm as (-> & Ho & Hd & f & Hf & ->). cbn. rewrite (proj2 (requireForce_ok f _ b) Hf). cbn.
      apply compileMapping_fixed; [by apply (Hs _ eq_refl)|by intros ? [= <-]|done].
    + destruct Hm as (Hf & Hd & f & Hb & ->). cbn. rewrite (proj2 (requireForce_ok f _ b) Hb). cbn.
      apply compileMapping_transfer; [by apply (proj1 (Hs _ eq_refl))|by apply (proj2 (Hs _ eq_refl))| |by left]. rewrite (ref_not_oid s) by apply Hf. apply andb_false_r.
    + destruct Hm as (Hf & Hd & f & Hb & ->). cbn. rewrite (proj2 (requireForce_ok f _ b) Hb). cbn.
      apply compileMapping_transfer; [by apply (proj1 (Hs _ eq_refl))|by apply (proj2 (Hs _ eq_refl))| |right; by exists p, q, dp, dq].
      rewrite (ref_not_oid (p ++ STAR :: q)) by apply Hf. apply andb_false_r.
Qed.

(** The destination of a mapping without wildcards. *)
Definition exact_destination (m : Mapping) : option ustring :=
  match m with Delete d => Some d | Object _ d _ => Some d | Exact _ d _ => Some d | Pattern _ _ _ _ _ => None end.

Lemma compiled_exact m : (destinationStar (compiled m) <? 0) = bool_decide (is_Some (exact_destination m)).
Proof. destruct m; cbn; [done..|]. apply Z.ltb_ge, zlen_nonneg. Qed.

Lemma compiled_destination m d : exact_destination m = Some d → destination (compiled m) = d.
Proof. destruct m; naive_solver. Qed.

Lemma set_add_new (s : jsset) x : x ∉ s → set_add s x = s ++ [x].
Proof. intros H. unfold set_add. by rewrite bool_decide_eq_false_2. Qed.

Lemma compile_loop_ok direction refspecs : Forall refspec_strings refspecs → ∀ index ex done cms,
  compile_loop direction index ex done refspecs = Ok cms ↔
  ∃ ms, Forall2 (spells direction) ms refspecs ∧ cms = done ++ (compiled <$> ms) ∧ NoDup (omap exact_destination ms) ∧
        (∀ d, d ∈ omap exact_destination ms → d ∉ ex).
Proof.
  induction 1 as [|r refspecs Hr _ IH]; intros index ex acc cms; cbn [compile_loop].
  { split.
    - intros [= <-]. exists []. split_and!; [constructor|by rewrite app_nil_r|constructor|by intros d ?%elem_of_nil].
    - intros (ms & ->%Forall2_nil_inv_r & -> & _). by rewrite app_nil_r. }
  split.
  - intros (cm & (m & Hm & ->)%compile_refspec_ok & H)%bind_ok_inv; [|done]. rewrite compiled_exact in H.
    case_bool_decide as Hd.
    + destruct Hd as [d Hd]. rewrite (compiled_destination m d Hd) in H. case_bool_decide as Hin; [done|].
      rewrite set_add_new in H by done. apply IH in H as (ms & Hms & -> & Hnd & Hex). exists (m :: ms).
      rewrite omap_app_cons, Hd, fmap_cons. cbn [option_list app].
      split_and!; [by constructor|by rewrite <- app_assoc|apply NoDup_cons; split; [|done]|].
      * intros Hd'%Hex. set_solver.
      * intros d' [->|Hd'%Hex]%elem_of_cons; set_solver.
    + apply IH in H as (ms & Hms & -> & Hnd & Hex). exists (m :: ms).
      rewrite omap_app_cons, (proj2 (eq_None_not_Some (exact_destination m))) by done. cbn [option_list app]. rewrite fmap_cons.
      split_and!; [by constructor|by rewrite <- app_assoc|done..].
  - intros (? & (m & ms & Hm & Hms & ->)%Forall2_cons_inv_r & -> & Hnd & Hex).
    rewrite (proj2 (compile_refspec_ok direction index r (compiled m) Hr)) by eauto. cbn [mbind outcome_bind].
    rewrite compiled_exact. rewrite omap_app_cons in Hnd, Hex. rewrite fmap_cons. destruct (exact_destination m) as [d|] eqn:Hd.
    + rewrite bool_decide_eq_true_2 by done. rewrite (compiled_destination m d Hd). cbn [option_list app] in *.
      apply NoDup_cons in Hnd as [Hn Hnd]. rewrite bool_decide_eq_false_2 by set_solver. rewrite set_add_new by set_solver.
      apply IH. exists ms. split_and!; [done|by rewrite <- app_assoc|done|]. intros d' Hd'. rewrite not_elem_of_app, list_elem_of_singleton.
      split; [|by intros ->]. apply Hex, elem_of_cons. by right.
    + rewrite bool_decide_eq_false_2 by by intros [??]. apply IH. exists ms. split_and!; [done|by rewrite <- app_assoc|done..].
Qed.

(** The list compiles exactly when it is not empty, not too long, spells mappings and sends to no
    exact destination twice. *)
Lemma compile_ok direction refspecs cms : Forall refspec_strings refspecs →
  compile refspecs direction = Ok cms ↔
  0 < zlen refspecs <= MAX_REFSPEC_MAPPINGS ∧
  ∃ ms, Forall2 (spells direction) ms refspecs ∧ cms = compiled <$> ms ∧ NoDup (omap exact_destination ms).
Proof.
  intros Hs. unfold compile, validateMappingCount. pose proof (zlen_nonneg refspecs).
  destruct (zlen refspecs =? 0) eqn:E; zbool; [split; [done|lia]|]. rewrite throw_if_bind, Z.ltb_ge, compile_loop_ok by done.
  split; [intros (? & ms & ? & ? & ? & _)|intros (? & ms & ? & ? & ?)]; (split; [lia|]); exists ms; [done|].
  split_and!; [done..|]. intros d _. apply not_elem_of_nil.
Qed.

(** * Rows *)

Definition names (r : RefspecSourceRef) (name oid : ustring) : Prop := s_name r = JString name ∧ s_oid r = JString oid.

Definition peeled_tag (name : ustring) : Prop := ∃ base, name = base ++ js "^{}" ∧ startsWith base (js "refs/tags/") = true ∧ ref_name base.

(** A row of a well-formed source set: [HEAD], a full name, or a peeled tag. *)
Definition source_row (r : RefspecSourceRef) : Prop :=
  ∃ name oid, names r name oid ∧ isOid oid = true ∧ ref_text name ∧
    (name = js "HEAD" ∨ full_ref name ∨ peeled_tag name).

Definition row_name (r : RefspecSourceRef) : ustring := match s_name r with JString name => name | JOther => [] end.

Definition rows_ok (refs : list RefspecSourceRef) : Prop := Forall source_row refs ∧ NoDup (row_name <$> refs).

(** A reference the set holds, with the object it names. *)
Definition has_ref (refs : list RefspecSourceRef) (name oid : ustring) : Prop := full_ref name ∧ ∃ r, r ∈ refs ∧ names r name oid.

Definition row_strings (r : RefspecSourceRef) : Prop := ∀ name, s_name r = JString name → js_string name.

Lemma ends_with_hat name : endsWith_at name (js "^{}") (zlen name) = true ↔ ∃ base, name = base ++ js "^{}".
Proof. rewrite <- (app_nil_r name) at 1. by rewrite endsWith_at_spec. Qed.

Lemma full_ref_no_hat name : full_ref name → endsWith_at name (js "^{}") (zlen name) = false.
Proof.
  intros (_ & _ & H). apply not_true_iff_false. intros [base ->]%ends_with_hat.
  apply (ref_name_no _ 0x5e H); [exact (bool_decide_eq_true_1 (0x5e ∈ FORBIDDEN) eq_refl)|]. apply elem_of_app. right. apply list_elem_of_here.
Qed.

Lemma source_metadata_ok name b : js_string name → ref_text name →
  source_metadata name = Ok b ↔ (b = false ∧ full_ref name) ∨ (b = true ∧ (name = js "HEAD" ∨ peeled_tag name)).
Proof.
  intros Hs Ht. unfold source_metadata. pose proof (js_string_bound name Hs) as Hmax.
  destruct (endsWith_at name (js "^{}") (zlen name)) eqn:E.
  - pose proof E as [base ->]%ends_with_hat. rewrite zlen_app in *. change (zlen (js "^{}")) with 3 in *.
    replace (zlen base + 3 - 3) with (zlen base) by lia. rewrite slice_0_app. pose proof (zlen_nonneg base).
    assert (¬ full_ref (base ++ js "^{}")) as Hf.
    { intros H1%full_ref_no_hat. rewrite zlen_app in H1. change (zlen (js "^{}")) with 3 in H1. congruence. }
    assert (base ++ js "^{}" ≠ js "HEAD") as Hh by (intros H1%(f_equal last); rewrite last_app in H1; done).
    assert (peeled_tag (base ++ js "^{}") ↔ startsWith base (js "refs/tags/") = true ∧ ref_name base) as Hp.
    { split; [intros (base' & H1%app_inj_2 & ?); [by destruct H1 as [<- _]|done]|by exists base]. }
    destruct (negb _ || _) eqn:Ec.
    + split; [done|]. rewrite Hp, <- hasCanonicalRefSyntax_correct by lia. rewrite orb_true_iff, !negb_true_iff in Ec. naive_solver congruence.
    + apply orb_false_iff in Ec as [E1%negb_false_iff E2%negb_false_iff]. apply hasCanonicalRefSyntax_correct in E2; [|lia].
      rewrite Hp. naive_solver.
  - assert (¬ peeled_tag name) as Hp.
    { intros (base & -> & _). rewrite (proj2 (ends_with_hat (base ++ js "^{}"))) in E by eauto. done. }
    unfold str_eqb. case_bool_decide as Eh; cbn [negb andb].
    + split; [intros [= <-]; auto|]. intros [[_ Hf]|[-> _]]; [|done]. subst. by destruct Hf as (_ & Hf & _).
    + destruct (negb _ || _) eqn:Ec.
      * split; [done|]. unfold full_ref. rewrite <- hasCanonicalRefSyntax_correct by done. rewrite orb_true_iff, !negb_true_iff in Ec.
        naive_solver congruence.
      * apply orb_false_iff in Ec as [E1%negb_false_iff E2%negb_false_iff]. apply hasCanonicalRefSyntax_correct in E2; [|done].
        unfold full_ref. naive_solver.
Qed.

(** What a row adds to the references that mappings name. *)
Definition actual_row (r : RefspecSourceRef) : option (ustring * ustring) :=
  match s_name r, s_oid r with
  | JString name, JString oid =>
      if bool_decide (name = js "HEAD") || endsWith_at name (js "^{}") (zlen name) then None else Some (name, oid)
  | _, _ => None
  end.

Lemma peeled_hat name : peeled_tag name → endsWith_at name (js "^{}") (zlen name) = true.
Proof. intros (base & -> & _). apply ends_with_hat. eauto. Qed.

Lemma add_source_ok actual seen r s' : row_strings r → (∀ n, n ∈ actual.*1 → n ∈ seen) →
  add_source (actual, seen) r = Ok s' ↔
  source_row r ∧ (row_name r ∉ seen) ∧ s' = (actual ++ option_list (actual_row r), seen ++ [row_name r]).
Proof.
  intros Hs Hseen. unfold add_source, source_row, names, row_name, actual_row.
  destruct (s_name r) as [name|] eqn:En; [|split; [done|by intros ((? & ? & (? & _) & _) & _)]].
  destruct (s_oid r) as [oid|] eqn:Eo; [|split; [done|by intros ((? & ? & (_ & ?) & _) & _)]].
  specialize (Hs name En). destruct (isOid oid) eqn:Hoid; cbn [negb]; [|split; [done|intros ((? & ? & (_ & [= <-]) & ? & _) & _); congruence]].
  pose proof (ref_text_iff name (proj1 Hs)) as Htext. case_bool_decide as Hp; cbn [negb].
  2:{ split; [done|]. intros ((? & ? & ([= <-] & _) & _ & Ht & _) & _). by apply Htext in Ht. }
  apply Htext in Hp. assert (∀ P : Prop, (∃ n o, (JString name = JString n ∧ JString oid = JString o) ∧ isOid o = true ∧ ref_text n ∧
    (n = js "HEAD" ∨ full_ref n ∨ peeled_tag n)) ∧ P ↔ (∃ b, source_metadata name = Ok b) ∧ P) as ->.
  { intros P. apply and_iff_compat_r. setoid_rewrite (source_metadata_ok name _ Hs Hp). naive_solver. }
  destruct (source_metadata name) as [b|] eqn:Em; cbn [mbind outcome_bind]; [|naive_solver].
  apply source_metadata_ok in Em; [|done..]. case_bool_decide as Hin; [naive_solver|]. rewrite set_add_new by done.
  assert (bool_decide (name = js "HEAD") || endsWith_at name (js "^{}") (zlen name) = b) as ->.
  { destruct Em as [[-> Hf]|[-> [->|Hpeel]]]; [|done|rewrite (peeled_hat _ Hpeel); apply orb_true_r].
    rewrite (full_ref_no_hat _ Hf), bool_decide_eq_false_2; [done|]. intros ->. by destruct Hf as (_ & Hf & _). }
  destruct b; cbn [option_list]; [rewrite app_nil_r; naive_solver|].
  rewrite map_set_new by (apply map_get_None; auto). naive_solver.
Qed.

Lemma add_sources_ok refs : Forall row_strings refs → ∀ actual seen s', (∀ n, n ∈ actual.*1 → n ∈ seen) → NoDup seen →
  for_items add_source (actual, seen) refs = Ok s' ↔
  Forall source_row refs ∧ NoDup (seen ++ (row_name <$> refs)) ∧ s' = (actual ++ omap actual_row refs, seen ++ (row_name <$> refs)).
Proof.
  induction 1 as [|r refs Hr _ IH]; intros actual seen s' Hseen Hnd; cbn [for_items].
  { cbn. rewrite !app_nil_r. split; [intros [= <-]; auto|by intros (_ & _ & ->)]. }
  assert (∀ n, n ∈ (actual ++ option_list (actual_row r)).*1 → n ∈ seen ++ [row_name r]) as Hseen'.
  { intros n. rewrite fmap_app, !elem_of_app. intros [?|Hn]; [auto|]. right. unfold actual_row, row_name in *.
    destruct (s_name r), (s_oid r); try destruct (_ || _); cbn in Hn; set_solver. }
  rewrite fmap_cons, omap_app_cons, cons_middle, !app_assoc. split.
  - intros (s1 & (Hrow & Hin & ->)%add_source_ok & H)%bind_ok_inv; [|done..].
    apply IH in H as (? & ? & ->); [auto|done|]. apply NoDup_app. split_and!; [done| |apply NoDup_singleton]. set_solver.
  - intros ([Hrow Hrows]%Forall_cons & Hnd' & ->). apply NoDup_app in Hnd' as Hsplit. destruct Hsplit as (Hnd1 & _ & _).
    assert (row_name r ∉ seen) by (apply NoDup_app in Hnd1 as (_ & H1 & _); intros Hin; apply (H1 _ Hin), list_elem_of_here).
    rewrite (proj2 (add_source_ok actual seen r _ Hr Hseen)) by done. cbn [mbind outcome_bind]. by apply IH.
Qed.

Lemma actualSourceRefs_ok refs sources : Forall row_strings refs →
  actualSourceRefs refs = Ok sources ↔ rows_ok refs ∧ sources = omap actual_row refs.
Proof.
  intros Hs. unfold actualSourceRefs, rows_ok.
  pose proof (λ s', add_sources_ok refs Hs [] [] s' (λ n (H : n ∈ []), H) (NoDup_nil_2)) as H. simpl app in H.
  destruct (for_items _ _ _) as [s'|] eqn:E.
  - destruct (proj1 (H s') eq_refl) as (? & ? & ->). cbn. naive_solver.
  - split; [done|]. intros ((H1 & H2) & _). by specialize (proj2 (H _) (conj H1 (conj H2 eq_refl))).
Qed.

Lemma actual_row_spec r name oid : source_row r → actual_row r = Some (name, oid) ↔ full_ref name ∧ names r name oid.
Proof.
  intros (n & o & [En Eo] & _ & Ht & Hc). unfold actual_row, names. rewrite En, Eo.
  destruct (bool_decide (n = js "HEAD")) eqn:Eh; cbn [orb]; [apply bool_decide_eq_true in Eh as ->|apply bool_decide_eq_false in Eh].
  - split; [done|]. intros (Hf & [= <-] & _). by destruct Hf as (_ & Hf & _).
  - destruct (endsWith_at n _ _) eqn:Ee.
    + split; [done|]. intros (Hf%full_ref_no_hat & [= <-] & _). congruence.
    + destruct Hc as [?|[Hf|Hp%peeled_hat]]; [done| |congruence]. naive_solver.
Qed.

Lemma actual_rows_spec refs name oid : rows_ok refs → (name, oid) ∈ omap actual_row refs ↔ has_ref refs name oid.
Proof.
  intros [Hrows _]. rewrite list_elem_of_omap. unfold has_ref. rewrite Forall_forall in Hrows. split.
  - intros (r & Hr & H). apply actual_row_spec in H as [? ?]; eauto.
  - intros (Hf & r & Hr & Hn). exists r. split; [done|]. apply actual_row_spec; auto.
Qed.

Lemma actual_rows_nodup refs : rows_ok refs → NoDup (omap actual_row refs).*1.
Proof.
  intros [Hrows Hnd]. induction refs as [|r refs IH]; [constructor|]. apply Forall_cons in Hrows as [Hr Hrows].
  rewrite fmap_cons in Hnd. apply NoDup_cons in Hnd as [Hn Hnd]. rewrite omap_app_cons.
  destruct (actual_row r) as [[name oid]|] eqn:E; [|auto]. apply actual_row_spec in E as [Hf [En _]]; [|done]. cbn. constructor; [|auto].
  intros ([n o] & -> & (r' & Hr' & H)%list_elem_of_omap)%list_elem_of_fmap. cbn in *. rewrite Forall_forall in Hrows.
  apply actual_row_spec in H as [_ [En' _]]; [|auto]. apply Hn, list_elem_of_fmap. exists r'. unfold row_name. by rewrite En, En'.
Qed.

Lemma actual_get refs name oid : rows_ok refs → map_get (omap actual_row refs) name = Some oid ↔ has_ref refs name oid.
Proof. intros H. by rewrite map_get_NoDup, actual_rows_spec by auto using actual_rows_nodup. Qed.

(** * Wildcards *)

Lemma units_agree_app x : ∀ x' a1 a2 b1 b2, length x' = length x →
  units_agree (length x) (a1 ++ x' ++ a2) (b1 ++ x ++ b2) (zlen a1) (zlen b1) = bool_decide (x' = x).
Proof.
  induction x as [|u x IH]; intros [|v x'] a1 a2 b1 b2 Hl; try done. cbn [length units_agree]. rewrite !at_app. cbn [head app].
  injection Hl as Hl. specialize (IH x' (a1 ++ [v]) a2 (b1 ++ [u]) b2 Hl). rewrite <- !app_assoc, !zlen_app in IH. cbn [app] in IH.
  change (zlen [v]) with 1 in IH. change (zlen [u]) with 1 in IH. rewrite IH. apply eq_bool_prop_intro.
  rewrite andb_True, Is_true_true, Z.eqb_eq, !bool_decide_spec. naive_solver.
Qed.

Lemma split_ends (name p q : ustring) : (length p + length q <= length name)%nat →
  ∃ x c y, name = x ++ c ++ y ∧ length x = length p ∧ length y = length q.
Proof.
  intros H. exists (take (length p) name), (take (length name - length p - length q) (drop (length p) name)),
    (drop (length name - length p - length q) (drop (length p) name)).
  rewrite !take_drop, length_take, !length_drop. split_and!; [done|lia..].
Qed.

Lemma wildcardCapture_ok p q name capture : wildcardCapture name (p ++ STAR :: q) (zlen p) = Some capture ↔
  ∃ c, name = p ++ c ++ q ∧ capture = mkCapture (zlen p) (zlen p + zlen c).
Proof.
  unfold wildcardCapture. replace (zlen (p ++ STAR :: q) - zlen p - 1) with (zlen q) by (rewrite zlen_app, zlen_cons; lia).
  destruct (zlen name <? zlen p + zlen q) eqn:E; zbool.
  { split; [done|]. intros (c & -> & _). rewrite !zlen_app in E. pose proof (zlen_nonneg c). lia. }
  destruct (split_ends name p q) as (x & c & y & -> & Hx & Hy); [unfold zlen in *; lia|].
  replace (zlen (x ++ c ++ y) - zlen q) with (zlen (x ++ c)) by (rewrite !zlen_app; unfold zlen; lia).
  replace (Z.to_nat (zlen p)) with (length p) by (unfold zlen; lia). replace (Z.to_nat (zlen q)) with (length q) by (unfold zlen; lia).
  pose proof (units_agree_app p x [] (c ++ y) [] (STAR :: q) Hx) as H1. cbn [app] in H1. change (zlen []) with 0 in H1. rewrite H1.
  pose proof (units_agree_app q y (x ++ c) [] (p ++ [STAR]) [] Hy) as H2. rewrite !app_nil_r, <- !app_assoc, (zlen_app p) in H2. cbn [app] in H2.
  change (zlen [STAR]) with 1 in H2. rewrite H2. rewrite zlen_app. replace (zlen x) with (zlen p) by (unfold zlen; lia). split.
  - repeat case_bool_decide; try done. intros [= <-]. subst. by exists c.
  - intros (c' & Hn & ->). apply app_inj_1 in Hn as [-> Hn]; [|done]. apply app_inj_2 in Hn as [-> ->]; [|done].
    by rewrite !bool_decide_eq_true_2.
Qed.

Lemma substitute_ok dp dq p c q : substitute (dp ++ STAR :: dq) (zlen dp) (p ++ c ++ q) (mkCapture (zlen p) (zlen p + zlen c)) = dp ++ c ++ dq.
Proof.
  unfold substitute. cbn [c_start c_end]. rewrite slice_0_app, slice_app_mid.
  replace (zlen dp + 1) with (zlen (dp ++ [STAR])) by (rewrite zlen_app; reflexivity).
  by rewrite cons_middle, (app_assoc dp [STAR]), slice_from_app.
Qed.

(** * Lists of lists *)

(** Keys of a concatenation are distinct when they are in each list and no two lists share one. *)
Lemma nodup_mjoin {A B} (f : A → B) (yss : list (list A)) :
  NoDup (f <$> mjoin yss) ↔
  Forall (λ ys, NoDup (f <$> ys)) yss ∧
  (∀ i j ys zs x y, yss !! i = Some ys → yss !! j = Some zs → x ∈ ys → y ∈ zs → f x = f y → i = j).
Proof.
  induction yss as [|ys yss IH]; [split; [split; [constructor|done]|constructor]|].
  rewrite mjoin_cons, fmap_app, NoDup_app, IH, Forall_cons. split.
  - intros (H1 & H2 & H3 & H4). assert (∀ j zs x y, yss !! j = Some zs → x ∈ ys → y ∈ zs → f x = f y → False) as Hno.
    { intros j zs x y Hj Hx Hy E. apply (H2 (f x)); [by apply list_elem_of_fmap_2|]. rewrite E.
      apply list_elem_of_fmap_2, list_elem_of_join. exists zs. split; [done|by eapply list_elem_of_lookup_2]. }
    split; [done|]. intros [|i] [|j] ks zs x y Hi Hj Hx Hy E; simplify_eq/=; [done| | |].
    + by destruct (Hno j zs x y).
    + by destruct (Hno i ks y x).
    + f_equal. by apply (H4 i j ks zs x y).
  - intros ((H1 & H2) & H3). split_and!; [done| |done|].
    + intros k (x & -> & Hx)%list_elem_of_fmap (y & E & (zs & Hy & [j Hj]%list_elem_of_lookup)%list_elem_of_join)%list_elem_of_fmap.
      by specialize (H3 0%nat (S j) ys zs x y eq_refl Hj Hx Hy E).
    + intros i j ks zs x y Hi Hj Hx Hy E. by specialize (H3 (S i) (S j) ks zs x y Hi Hj Hx Hy E) as [= ->].
Qed.

(** * Expanding *)

(** What a mapping asks to update, given the references of the source set; [wrap] and [null]
    are how a source and its absence are written down. *)
Inductive update {T} (wrap : ustring → T) (null : T) (refs : list RefspecSourceRef) : Mapping → Expanded T → Prop :=
| update_delete d : update wrap null refs (Delete d) (mkExpanded null d null false)
| update_object oid d b : update wrap null refs (Object oid d b) (mkExpanded (wrap oid) d (wrap oid) b)
| update_exact s d b oid : has_ref refs s oid → update wrap null refs (Exact s d b) (mkExpanded (wrap s) d (wrap oid) b)
| update_pattern p q dp dq b c oid : has_ref refs (p ++ c ++ q) oid →
    update wrap null refs (Pattern p q dp dq b) (mkExpanded (wrap (p ++ c ++ q)) (dp ++ c ++ dq) (wrap oid) b).

Section expanding.
  Context {T : Type} (wrap : ustring → T) (null : T).

(** The state after the entries [xs]. *)
Definition state_of (xs : list (Expanded T)) : Expansion T := mkExpansion (zlen xs) (e_destination <$> xs) xs.

(** The entries that may stand in a result. *)
Definition fits (xs : list (Expanded T)) : Prop :=
  zlen xs <= MAX_REFSPEC_EXPANDED_DESTINATIONS ∧ NoDup (e_destination <$> xs) ∧ Forall (λ x, full_ref (e_destination x)) xs.

Lemma fits_app_l xs ys : fits (xs ++ ys) → fits xs.
Proof.
  unfold fits. rewrite zlen_app, fmap_app, NoDup_app, Forall_app. pose proof (zlen_nonneg ys). intros (?&(?&_)&(?&_)). split_and!; [lia|done..].
Qed.

Lemma emit_ok xs x e : fits xs → full_ref (e_destination x) → emit (state_of xs) x = Ok e ↔ fits (xs ++ [x]) ∧ e = state_of (xs ++ [x]).
Proof.
  intros (Hl & Hnd & Hf) Hx. unfold emit, budget_add, destinationGuard, state_of. cbn [x_destinations x_seen x_result].
  unfold fits. rewrite zlen_app, fmap_app, Forall_app, Forall_singleton. change (zlen [x]) with 1. cbn [fmap list_fmap].
  assert (NoDup ((e_destination <$> xs) ++ [e_destination x]) ↔ e_destination x ∉ e_destination <$> xs) as ->.
  { rewrite NoDup_app. split; [intros (_ & H & _) Hin; apply (H _ Hin), list_elem_of_here|].
    intros H. split_and!; [done| |apply NoDup_singleton]. intros ? ? ->%list_elem_of_singleton. done. }
  destruct (MAX_REFSPEC_EXPANDED_DESTINATIONS <=? zlen xs) eqn:E; zbool; cbn; [split; [done|lia]|].
  case_bool_decide as Hin; cbn; [split; [done|tauto]|]. rewrite set_add_new by done. split; [|by intros (_ & ->)].
  intros [= <-]. split; [|done]. split_and!; [lia|done..].
Qed.

(** A loop whose body adds the entries [f] says, and throws where it says none. *)
Lemma for_items_entries {A} (body : Expansion T → A → outcome (Expansion T)) (f : A → option (list (Expanded T))) l : Forall (λ a, ∀ xs e, fits xs →
    body (state_of xs) a = Ok e ↔ ∃ ys, f a = Some ys ∧ fits (xs ++ ys) ∧ e = state_of (xs ++ ys)) l →
  ∀ xs e, fits xs → for_items body (state_of xs) l = Ok e ↔
  ∃ yss, mapM f l = Some yss ∧ fits (xs ++ mjoin yss) ∧ e = state_of (xs ++ mjoin yss).
Proof.
  induction 1 as [|a l Ha _ IH]; intros xs e Hxs; cbn [for_items].
  { split.
    - intros [= <-]. exists []. cbn. by rewrite app_nil_r.
    - intros (? & [= <-] & _ & ->). cbn. by rewrite app_nil_r. }
  cbn [mapM]. split.
  - intros (e1 & (ys & Hy & Hfit & ->)%Ha & H)%bind_ok_inv; [|done]. apply IH in H as (yss & Hm & Hfits & ->); [|done].
    exists (ys :: yss). rewrite mjoin_cons, app_assoc. split_and!; [|done..]. rewrite Hy. cbn. by rewrite Hm.
  - intros (? & Hm & Hfits & ->). apply bind_Some in Hm as (ys & Hy & (yss & Hm & [= <-])%bind_Some).
    rewrite mjoin_cons, app_assoc in *. apply fits_app_l in Hfits as Hfit.
    rewrite (proj2 (Ha xs _ Hxs)) by eauto. cbn. apply IH; eauto.
Qed.

(** The entry of a reference that a pattern matches. *)
Definition pattern_entry (p q dp dq : ustring) (b : bool) (row : ustring * ustring) : option (Expanded T) :=
  capture ← wildcardCapture row.1 (p ++ STAR :: q) (zlen p);
  Some (mkExpanded (wrap row.1) (substitute (dp ++ STAR :: dq) (zlen dp) row.1 capture) (wrap row.2) b).

(** The entries of a mapping; none where an exact source is missing. *)
Definition entries (sources : jsmap ustring ustring) (m : Mapping) : option (list (Expanded T)) :=
  match m with
  | Delete d => Some [mkExpanded null d null false]
  | Object oid d b => Some [mkExpanded (wrap oid) d (wrap oid) b]
  | Exact s d b => oid ← map_get sources s; Some [mkExpanded (wrap s) d (wrap oid) b]
  | Pattern p q dp dq b => Some (omap (pattern_entry p q dp dq b) sources)
  end.

(** The body of both loops over the mappings. *)
Definition expand_mapping (missing : string) (sources : jsmap ustring ustring) (x : Expansion T) (m : Mapping) : outcome (Expansion T) :=
  match m with
  | Delete d => emit x (mkExpanded null d null false)
  | Object oid d b => emit x (mkExpanded (wrap oid) d (wrap oid) b)
  | Exact s _ _ => expand_transfer wrap missing sources (compiled m) s x
  | Pattern p q _ _ _ => expand_transfer wrap missing sources (compiled m) (p ++ STAR :: q) x
  end.

Definition sends_well (m : Mapping) : Prop :=
  match m with
  | Delete d | Object _ d _ | Exact _ d _ => full_ref d
  | Pattern _ _ dp dq _ => js_string (dp ++ STAR :: dq)
  end.

Lemma expand_source_ok p q dp dq b row xs e : js_string (dp ++ STAR :: dq) → js_string row.1 → fits xs →
  expand_source wrap (compiled (Pattern p q dp dq b)) (p ++ STAR :: q) (state_of xs) row = Ok e ↔
  ∃ ys, Some (option_list (pattern_entry p q dp dq b row)) = Some ys ∧ fits (xs ++ ys) ∧ e = state_of (xs ++ ys).
Proof.
  intros Hd Hn Hxs. unfold expand_source, pattern_entry. destruct row as [name oid]. cbn [sourceStar compiled fst snd destination destinationStar force] in *.
  destruct (wildcardCapture _ _ _) as [capture|] eqn:E; cbn [mbind option_bind option_list].
  2:{ split; [intros [= <-]; exists []; by rewrite app_nil_r|]. intros (? & [= <-] & _ & ->). by rewrite app_nil_r. }
  apply wildcardCapture_ok in E as (c & -> & ->). rewrite substitute_ok.
  assert (units (dp ++ c ++ dq) ∧ zlen (dp ++ c ++ dq) <= MAX_SAFE_INTEGER) as [Hu Hl].
  { destruct Hd as [Hd1 Hd2], Hn as [Hn1 Hn2]. unfold units in *. rewrite !Forall_app, Forall_cons in *. rewrite !zlen_app, ?zlen_cons in *.
    pose proof (zlen_nonneg p). pose proof (zlen_nonneg q). split; [tauto|]. unfold MAX_SAFE_INTEGER. lia. }
  rewrite !unit_bind_ok, expanded_destination_ok by done. set (x := mkExpanded _ _ _ _).
  assert (prechargeDerived (x_destinations (state_of xs)) = Ok tt ↔ zlen xs < MAX_REFSPEC_EXPANDED_DESTINATIONS) as ->
    by (unfold prechargeDerived; by rewrite throw_if_ok, Z.leb_gt).
  split.
  - intros (_ & Hf & [? ->]%emit_ok); [eauto|done|done].
  - intros (? & [= <-] & Hfit & ->). pose proof Hfit as (Hlen & _ & Hall). rewrite zlen_app in Hlen. change (zlen [x]) with 1 in Hlen.
    apply Forall_app in Hall as [_ Hx]. rewrite Forall_singleton in Hx. split_and!; [lia|exact Hx|]. by apply emit_ok.
Qed.

Lemma expand_mapping_ok missing sources m xs e : Forall (λ row, js_string row.1) sources → sends_well m → fits xs →
  expand_mapping missing sources (state_of xs) m = Ok e ↔
  ∃ ys, entries sources m = Some ys ∧ fits (xs ++ ys) ∧ e = state_of (xs ++ ys).
Proof.
  intros Hs Hm Hxs. destruct m as [d|oid d b|s d b|p q dp dq b]; cbn [expand_mapping entries sends_well] in *.
  - rewrite emit_ok by done. naive_solver.
  - rewrite emit_ok by done. naive_solver.
  - unfold expand_transfer. cbn [compiled sourceStar destination force]. change (-1 <? 0) with true. cbv iota.
    destruct (map_get sources s) as [oid|]; cbn; [|naive_solver]. rewrite emit_ok by done. naive_solver.
  - unfold expand_transfer. cbn [sourceStar compiled]. rewrite (proj2 (Z.ltb_ge _ _)) by apply zlen_nonneg.
    rewrite (for_items_entries _ (λ row, Some (option_list (pattern_entry p q dp dq b row)))); [|by apply (Forall_impl _ _ _ Hs); intros; apply expand_source_ok|done].
    assert (mapM (λ row, Some (option_list (pattern_entry p q dp dq b row))) sources = Some ((λ row, option_list (pattern_entry p q dp dq b row)) <$> sources)) as ->
      by (clear; induction sources as [|row sources IH]; [done|]; cbn; by rewrite IH).
    assert (mjoin ((λ row, option_list (pattern_entry p q dp dq b row)) <$> sources) = omap (pattern_entry p q dp dq b) sources) as Hj.
    { clear. induction sources as [|row sources IH]; [done|]. rewrite fmap_cons, mjoin_cons, omap_app_cons. by f_equal. }
    setoid_rewrite <- Hj. naive_solver.
Qed.

Lemma pattern_entry_ok p q dp dq b row x : pattern_entry p q dp dq b row = Some x ↔
  ∃ c, row.1 = p ++ c ++ q ∧ x = mkExpanded (wrap (p ++ c ++ q)) (dp ++ c ++ dq) (wrap row.2) b.
Proof.
  unfold pattern_entry. destruct (wildcardCapture row.1 (p ++ STAR :: q) (zlen p)) as [capture|] eqn:E; cbn.
  - apply wildcardCapture_ok in E as (c & -> & ->). rewrite substitute_ok. split; [intros [= <-]; eauto|].
    by intros (c' & <-%app_inv_head%app_inv_tail & ->).
  - split; [done|]. intros (c & Hc & _).
    assert (wildcardCapture row.1 (p ++ STAR :: q) (zlen p) = Some (mkCapture (zlen p) (zlen p + zlen c))) by (apply wildcardCapture_ok; eauto). congruence.
Qed.

Context (refs : list RefspecSourceRef) (Hrows : rows_ok refs).
Notation sources := (omap actual_row refs).

(** The entries of a mapping are the updates it asks for. *)
Lemma entries_updates m ys x : entries sources m = Some ys → x ∈ ys ↔ update wrap null refs m x.
Proof.
  destruct m as [d|oid d b|s d b|p q dp dq b]; cbn [entries].
  - intros [= <-]. rewrite list_elem_of_singleton. split; [intros ->; constructor|by inversion 1].
  - intros [= <-]. rewrite list_elem_of_singleton. split; [intros ->; constructor|by inversion 1].
  - intros (oid & Ho & [= <-])%bind_Some. apply actual_get in Ho as Hh; [|done]. rewrite list_elem_of_singleton.
    split; [intros ->; by constructor|]. inversion 1 as [| |? ? ? oid' Ho'|]. subst. apply actual_get in Ho'; [|done]. congruence.
  - intros [= <-]. rewrite list_elem_of_omap. setoid_rewrite pattern_entry_ok. split.
    + intros ([name oid] & Hr & c & En & ->). cbn in *. subst. constructor. by apply actual_rows_spec.
    + inversion 1 as [| | |? ? ? ? ? c oid Hr]. subst. exists (p ++ c ++ q, oid). apply actual_rows_spec in Hr; [|done]. cbn. eauto.
Qed.

Lemma entries_some m : is_Some (entries sources m) ↔ (∀ s d b, m = Exact s d b → ∃ oid, has_ref refs s oid).
Proof.
  destruct m as [d|oid d b|s d b|p q dp dq b]; cbn [entries]; try (split; [done|by eexists]).
  setoid_rewrite <- actual_get; [|done]. split.
  - intros [ys (oid & Ho & _)%bind_Some] ? ? ? [= <- <- <-]. eauto.
  - intros H. destruct (H s d b eq_refl) as [oid Ho]. rewrite Ho. by eexists.
Qed.

(** No mapping sends two references to one place. *)
Lemma entries_nodup m ys : entries sources m = Some ys → NoDup (e_destination <$> ys).
Proof.
  destruct m as [d|oid d b|s d b|p q dp dq b]; cbn [entries].
  - intros [= <-]. apply NoDup_singleton.
  - intros [= <-]. apply NoDup_singleton.
  - intros (oid & _ & [= <-])%bind_Some. apply NoDup_singleton.
  - intros [= <-]. pose proof (actual_rows_nodup refs Hrows) as Hnd. induction sources as [|row l IH]; [constructor|].
    rewrite fmap_cons in Hnd. apply NoDup_cons in Hnd as [Hn Hnd]. rewrite omap_app_cons.
    destruct (pattern_entry p q dp dq b row) as [x|] eqn:E; cbn; [|auto]. apply pattern_entry_ok in E as (c & Ec & ->). constructor; [|auto].
    intros (x & Ex & (row' & Hr & (c' & Ec' & ->)%pattern_entry_ok)%list_elem_of_omap)%list_elem_of_fmap. cbn in Ex.
    apply app_inv_head, app_inv_tail in Ex as ->. apply Hn, list_elem_of_fmap. exists row'. by rewrite Ec, Ec'.
Qed.

(** What the expansion of mappings is. *)
Record expanded (ms : list Mapping) (result : list (Expanded T)) : Prop := {
  expanded_found s d b : Exact s d b ∈ ms → ∃ oid, has_ref refs s oid;
  expanded_updates x : x ∈ result ↔ ∃ m, m ∈ ms ∧ update wrap null refs m x;
  expanded_apart i j m m' x x' : ms !! i = Some m → ms !! j = Some m' → update wrap null refs m x → update wrap null refs m' x' →
    e_destination x = e_destination x' → i = j;
  expanded_size : zlen result <= MAX_REFSPEC_EXPANDED_DESTINATIONS;
  expanded_full : Forall (λ x, full_ref (e_destination x)) result;
  expanded_sorted : StronglySorted (λ x y, path_lt (e_destination x) (e_destination y)) result
}.

Lemma by_destination_orders : orders (@by_destination T) (λ x, full_ref (e_destination x)).
Proof.
  split.
  - intros x y ((Hx & _) & _) ((Hy & _) & _). by apply comparePaths_opp.
  - intros x y z ((Hx & _) & _) ((Hy & _) & _) ((Hz & _) & _). by apply path_le_trans.
Qed.

Lemma sorted_fits xs : fits xs →
  StronglySorted (λ x y, path_lt (e_destination x) (e_destination y)) (sort_by by_destination xs).
Proof.
  intros (_ & Hnd & Hf). pose proof (sort_by_sorted _ _ xs by_destination_orders Hf) as Hs.
  rewrite <- (sort_by_perm by_destination xs) in Hnd, Hf. induction Hs as [|x l _ IH Hall]; [constructor|].
  rewrite fmap_cons in Hnd. apply NoDup_cons in Hnd as [Hn Hnd]. apply Forall_cons in Hf as [Hx Hf]. constructor; [auto|].
  rewrite Forall_forall in *. intros y Hy. specialize (Hall y Hy). specialize (Hf y Hy). unfold by_destination, path_lt in *.
  destruct Hx as ((Hu & Hw & _) & _), Hf as ((Hu' & Hw' & _) & _).
  enough (comparePaths (e_destination x) (e_destination y) ≠ 0) by lia. rewrite comparePaths_eq by done. intros E. apply Hn. rewrite E.
  by apply list_elem_of_fmap_2.
Qed.

Lemma path_lt_irrefl s : units s → ¬ path_lt s s.
Proof. intros Hs. unfold path_lt. rewrite comparePaths_refl by done. lia. Qed.

(** A strictly sorted list is what sorting its elements gives. *)
Lemma sorted_unique xs ys : fits xs → StronglySorted (λ x y, path_lt (e_destination x) (e_destination y)) ys →
  ys ≡ₚ xs → sort_by by_destination xs = ys.
Proof.
  intros Hxs Hys Hp. apply (StronglySorted_unique_strong (λ x y : Expanded T, path_lt (e_destination x) (e_destination y)));
    [|by apply sorted_fits|done|by rewrite sort_by_perm].
  pose proof Hxs as (_ & _ & Hf). rewrite Forall_forall in Hf. intros x y Hx Hy H1 H2. rewrite sort_by_perm in Hx. rewrite Hp in Hy.
  destruct (Hf x Hx) as ((Hu & _) & _), (Hf y Hy) as ((Hu' & _) & _). by destruct (path_lt_irrefl _ Hu (path_lt_trans _ _ _ Hu Hu' Hu H1 H2)).
Qed.

Lemma sorted_nodup (ys : list (Expanded T)) : Forall (λ x, full_ref (e_destination x)) ys →
  StronglySorted (λ x y, path_lt (e_destination x) (e_destination y)) ys → NoDup ys.
Proof.
  intros Hf. induction 1 as [|x l _ IH Hall]; [constructor|]. apply Forall_cons in Hf as [((Hu & _) & _) Hf]. constructor; [|auto].
  intros Hin. rewrite Forall_forall in Hall. by apply (path_lt_irrefl _ Hu), (Hall x).
Qed.

(** The lists of entries that the mappings give make up an expansion exactly when they fit. *)
Lemma entries_expanded ms yss : mapM (entries sources) ms = Some yss → Forall sends_well ms → ∀ result,
  fits (mjoin yss) ∧ result = sort_by by_destination (mjoin yss) ↔ expanded ms result.
Proof.
  intros Hm Hw result. apply mapM_Some in Hm as Hyss.
  assert (∀ x, x ∈ mjoin yss ↔ ∃ m, m ∈ ms ∧ update wrap null refs m x) as Helem.
  { intros x. rewrite list_elem_of_join. split.
    - intros (ys & Hx & [i Hi]%list_elem_of_lookup). destruct (Forall2_lookup_r _ _ _ _ _ Hyss Hi) as (m & Hmi & Hys).
      exists m. split; [by eapply list_elem_of_lookup_2|]. by eapply entries_updates.
    - intros (m & [i Hi]%list_elem_of_lookup & Hx). destruct (Forall2_lookup_l _ _ _ _ _ Hyss Hi) as (ys & Hmi & Hys).
      exists ys. split; [by eapply entries_updates|by eapply list_elem_of_lookup_2]. }
  assert (NoDup (e_destination <$> mjoin yss) ↔ ∀ i j m m' x x', ms !! i = Some m → ms !! j = Some m' → update wrap null refs m x →
    update wrap null refs m' x' → e_destination x = e_destination x' → i = j) as Hnd.
  { rewrite nodup_mjoin. split.
    - intros (_ & H) i j m m' x x' Hi Hj Hx Hx' E. destruct (Forall2_lookup_l _ _ _ _ _ Hyss Hi) as (ys & Hys & Hme).
      destruct (Forall2_lookup_l _ _ _ _ _ Hyss Hj) as (zs & Hzs & Hme'). apply (H i j ys zs x x'); [done..| | |done]; by eapply entries_updates.
    - intros H. split.
      + apply Forall_forall. intros ys [i Hi]%list_elem_of_lookup. destruct (Forall2_lookup_r _ _ _ _ _ Hyss Hi) as (m & _ & Hys). by eapply entries_nodup.
      + intros i j ys zs x y Hi Hj Hx Hy E. destruct (Forall2_lookup_r _ _ _ _ _ Hyss Hi) as (m & Hmi & Hys).
        destruct (Forall2_lookup_r _ _ _ _ _ Hyss Hj) as (m' & Hmj & Hzs). apply (H i j m m' x y); [done..| | |done]; by eapply entries_updates. }
  assert (∀ res : list (Expanded T), (∀ x, x ∈ res ↔ ∃ m, m ∈ ms ∧ update wrap null refs m x) ↔ ∀ x, x ∈ res ↔ x ∈ mjoin yss) as Hset
    by (intros res; split; intros H x; rewrite H; [symmetry|]; apply Helem).
  split.
  - intros [Hfit ->]. pose proof Hfit as (Hl & Hn & Hf). split.
    + intros s d b [i Hi]%list_elem_of_lookup. destruct (Forall2_lookup_l _ _ _ _ _ Hyss Hi) as (ys & _ & Hys).
      apply (proj1 (entries_some (Exact s d b)) ltac:(by eexists) s d b eq_refl).
    + apply Hset. intros x. by rewrite sort_by_perm.
    + by apply Hnd.
    + unfold zlen in *. by rewrite sort_by_perm.
    + by rewrite sort_by_perm.
    + by apply sorted_fits.
  - intros [_ Hupd Hapart Hsize Hfull Hsorted]. pose proof (proj1 (Hset result) Hupd) as Helems. apply Hnd in Hapart.
    assert (result ≡ₚ mjoin yss) as Hp by (apply NoDup_Permutation; [by apply sorted_nodup|by apply NoDup_fmap_1 in Hapart|done]).
    assert (fits (mjoin yss)) as Hfit.
    { split_and!; [|done|by rewrite <- Hp]. unfold zlen in *. by rewrite <- Hp. }
    split; [done|]. symmetry. by apply sorted_unique.
Qed.

(** Running the loop over the mappings and sorting what it collects. *)
Lemma expand_ok missing ms result : Forall sends_well ms → Forall row_strings refs →
  (x ← for_items (expand_mapping missing sources) expansion_start ms; Ok (sort_by by_destination (x_result x))) = Ok result ↔
  expanded ms result.
Proof.
  intros Hw Hs. assert (fits []) as Hnil by (split_and!; [done|constructor|constructor]).
  assert (Forall (λ row, js_string row.1) sources) as Hsrc.
  { apply Forall_forall. intros [name oid] Hin. apply actual_rows_spec in Hin as [Hf (r & Hr & Hn & _)]; [|done]. rewrite Forall_forall in Hs. by apply (Hs r). }
  assert (∀ e, for_items (expand_mapping missing sources) (state_of []) ms = Ok e ↔ ∃ yss, mapM (entries sources) ms = Some yss ∧
    fits ([] ++ mjoin yss) ∧ e = state_of ([] ++ mjoin yss)) as Hloop.
  { intros e. apply for_items_entries; [|done]. apply (Forall_impl _ _ _ Hw). intros. by apply expand_mapping_ok. }
  simpl app in Hloop. change expansion_start with (state_of []). split.
  - intros (e & (yss & Hm & Hfit & ->)%Hloop & [= <-])%bind_ok_inv. by apply (entries_expanded ms yss Hm Hw).
  - intros He. assert (is_Some (mapM (entries sources) ms)) as [yss Hm].
    { apply mapM_is_Some, Forall_forall. intros m Hin. apply entries_some. intros s d b ->. by apply (expanded_found _ _ He s d b). }
    destruct (proj2 (entries_expanded ms yss Hm Hw result) He) as [Hfit ->]. by rewrite (proj2 (Hloop (state_of (mjoin yss)))) by eauto.
Qed.

End expanding.

(** * Refspecs *)

Lemma for_items_fmap {A B S} (body : S → B → outcome S) (body' : S → A → outcome S) (f : A → B) l :
  Forall (λ a, ∀ s, body s (f a) = body' s a) l → ∀ s, for_items body s (f <$> l) = for_items body' s l.
Proof.
  induction 1 as [|a l Ha _ IH]; intros s; [done|]. rewrite fmap_cons. cbn [for_items]. rewrite Ha.
  destruct (body' s a); [apply IH|done].
Qed.

Lemma spells_sends_well direction m refspec : spells direction m refspec → refspec_strings refspec → sends_well m.
Proof.
  intros Hm Hs. destruct m as [d|oid d b|s d b|p q dp dq b]; cbn in *.
  - tauto.
  - tauto.
  - tauto.
  - destruct Hm as (_ & _ & f & _ & ->). by apply (Hs _ eq_refl).
Qed.

(** Mappings that expand send to no exact destination twice. *)
Lemma expanded_exact {T} (wrap : ustring → T) null refs ms result : expanded wrap null refs ms result → NoDup (omap exact_destination ms).
Proof.
  intros He. assert (∀ i m d, ms !! i = Some m → exact_destination m = Some d → ∃ x, update wrap null refs m x ∧ e_destination x = d) as Hex.
  { intros i m d Hi Hd. destruct m as [d'|oid d' b|s d' b|]; cbn in Hd; simplify_eq.
    - eexists. split; [constructor|done].
    - eexists. split; [constructor|done].
    - destruct (expanded_found _ _ _ _ _ He s d b) as [oid Ho]; [by eapply list_elem_of_lookup_2|]. eexists. split; [by constructor|done]. }
  assert (omap exact_destination ms = mjoin (option_list ∘ exact_destination <$> ms)) as ->.
  { clear. induction ms as [|m ms IH]; [done|]. rewrite omap_app_cons, fmap_cons, mjoin_cons. by f_equal. }
  rewrite <- (list_fmap_id (mjoin _)). apply nodup_mjoin. split.
  - apply Forall_fmap, Forall_true. intros m. cbn. destruct (exact_destination m); [apply NoDup_singleton|constructor].
  - intros i j ys zs d d' Hi Hj Hd Hd' E. cbn in E. subst d'. apply list_lookup_fmap_Some in Hi as (m & -> & Hi), Hj as (m' & -> & Hj). cbn in *.
    destruct (exact_destination m) as [k|] eqn:Ek; [|by apply elem_of_nil in Hd]. destruct (exact_destination m') as [k'|] eqn:Ek'; [|by apply elem_of_nil in Hd'].
    apply list_elem_of_singleton in Hd as <-, Hd' as <-. destruct (Hex i m d Hi Ek) as (x & Hx & E1). destruct (Hex j m' d Hj Ek') as (x' & Hx' & E2).
    apply (expanded_apart _ _ _ _ _ He i j m m' x x'); congruence.
Qed.

(** Compiling and expanding, for either direction. *)
Lemma refspecs_exact {T} (wrap : ustring → T) null missing direction expand_one refspecs refs result :
  (∀ m refspec sources x, spells direction m refspec → expand_one sources x (compiled m) = expand_mapping wrap null missing sources x m) →
  Forall refspec_strings refspecs → Forall row_strings refs →
  (mappings ← compile refspecs direction; sources ← actualSourceRefs refs;
   x ← for_items (expand_one sources) expansion_start mappings; Ok (sort_by by_destination (x_result x))) = Ok result ↔
  0 < zlen refspecs <= MAX_REFSPEC_MAPPINGS ∧ rows_ok refs ∧
  ∃ ms, Forall2 (spells direction) ms refspecs ∧ expanded wrap null refs ms result.
Proof.
  intros Hone Hs Hrs. assert (∀ ms, Forall2 (spells direction) ms refspecs → Forall sends_well ms) as Hwell.
  { clear Hone. intros ms Hms. induction Hms; [constructor|]. apply Forall_cons in Hs as [??]. constructor; [by eapply spells_sends_well|auto]. }
  assert (∀ ms sources, Forall2 (spells direction) ms refspecs →
    for_items (expand_one sources) expansion_start (compiled <$> ms) = for_items (expand_mapping wrap null missing sources) expansion_start ms) as Hloop.
  { intros ms sources Hms. apply for_items_fmap. clear Hs Hwell. induction Hms; constructor; eauto. }
  split.
  - intros (mappings & (Hsize & ms & Hms & -> & _)%compile_ok & (sources & (Hrows & ->)%actualSourceRefs_ok & H)%bind_ok_inv)%bind_ok_inv; [|done..].
    rewrite Hloop in H by done. apply expand_ok in H; eauto 6.
  - intros (Hsize & Hrows & ms & Hms & He). rewrite (proj2 (compile_ok direction refspecs (compiled <$> ms) Hs)) by eauto 6 using expanded_exact.
    cbn [mbind outcome_bind]. rewrite (proj2 (actualSourceRefs_ok refs _ Hrs)) by done. cbn [mbind outcome_bind]. rewrite Hloop by done.
    apply expand_ok; auto.
Qed.

(** * Leases *)

(** What an expectation is given as. *)
Definition expects (value : unknown) (e : PushLeaseExpectation) : Prop :=
  match e with
  | expected None => value = Obj [(JString (js "expected"), Null)]
  | expected (Some oid) => isOid oid = true ∧ value = Obj [(JString (js "expected"), Str oid)]
  | tracking => value = Obj [(JString (js "tracking"), Bool true)]
  end.

(** The destination a key stands for: a full name, or a branch. *)
Definition lease_destination (key : ustring) : ustring := if startsWith key (js "refs/") then key else js "refs/heads/" ++ key.

(** A property of the object of leases, and the lease it is. *)
Definition lease_of (property : jsvalue * unknown) (l : NormalizedPushLease) : Prop :=
  ∃ key, property.1 = JString key ∧ l_destination l = lease_destination key ∧ full_ref (l_destination l) ∧ expects property.2 (expectation l).

Definition property_strings (property : jsvalue * unknown) : Prop := ∀ key, property.1 = JString key → js_string (lease_destination key).



Lemma pushLeaseExpectation_ok value destination e : pushLeaseExpectation value destination = Ok e ↔ expects value e.
Proof.
  split.
  - unfold pushLeaseExpectation. destruct value as [| | | |[|[[key|] v] [|[? ?] ?]]|]; try done. cbn [fmap list_fmap fst reflect_get].
    unfold str_eqb. case_bool_decide as E1; [subst key; cbn|case_bool_decide as E2; [subst key; cbn|done]].
    + destruct v; try done; [by intros [= <-]|].
      destruct (isOid s) eqn:Eo; [|done]. by intros [= <-].
    + destruct v as [| | |[]| |]; try done. by intros [= <-].
  - destruct e as [[oid|]|]; cbn [expects].
    + intros [Ho ->]. unfold pushLeaseExpectation. cbn [fmap list_fmap fst reflect_get].
      change (str_eqb (js "expected") (js "expected")) with true. cbv iota. by rewrite Ho.
    + by intros ->.
    + by intros ->.
Qed.

Lemma reflect_get_elem properties key v : NoDup properties.*1 → (JString key, v) ∈ properties → reflect_get properties key = v.
Proof.
  induction properties as [|[k w] properties IH]; [by intros _ ?%elem_of_nil|]. rewrite fmap_cons. intros [Hn Hnd]%NoDup_cons [[= <- <-]|Hin]%elem_of_cons; cbn.
  - unfold str_eqb. by rewrite bool_decide_eq_true_2.
  - destruct k as [k|]; [|auto]. unfold str_eqb. case_bool_decide as E; [|auto]. subst. destruct Hn. apply list_elem_of_fmap. by exists (JString key, v).
Qed.

Lemma add_lease_ok properties destinations seen leases key v s' : NoDup properties.*1 → (key, v) ∈ properties → property_strings (key, v) →
  add_lease properties destinations (seen, leases) key = Ok s' ↔
  ∃ l, lease_of (key, v) l ∧ (l_destination l ∉ seen) ∧ l_destination l ∈ destinations ∧ s' = (seen ++ [l_destination l], leases ++ [l]).
Proof.
  intros Hnd Hin Hs. unfold add_lease, lease_of. destruct key as [key|]; [|naive_solver]. specialize (Hs key eq_refl).
  unfold normalizeLeaseDestination. fold (lease_destination key). cbv zeta. rewrite (reflect_get_elem properties key v) by done.
  assert (∀ P, (∃ l, (∃ k, (JString key, v).1 = JString k ∧ l_destination l = lease_destination k ∧ full_ref (l_destination l) ∧ expects (JString key, v).2 (expectation l)) ∧ P l) ↔
    full_ref (lease_destination key) ∧ ∃ e, expects v e ∧ P (mkLease (lease_destination key) e)) as ->.
  { intros P. split.
    - intros ([d e] & (k & [= <-] & E & Hf & He) & HP). cbn in *. subst d. eauto.
    - intros (Hf & e & He & HP). exists (mkLease (lease_destination key) e). eauto 6. }
  cbn [l_destination]. destruct (requireFullRef (lease_destination key) (js "push lease destination")) as [[]|err] eqn:Ef; cbn [mbind outcome_bind].
  2:{ split; [done|]. intros [Hf _]. apply (requireFullRef_string _ (js "push lease destination") Hs) in Hf. congruence. }
  apply requireFullRef_string in Ef; [|done]. case_bool_decide as Hseen; [naive_solver|]. case_bool_decide as Hdest; cbn [negb]; [|naive_solver].
  rewrite set_add_new by done. destruct (pushLeaseExpectation v (lease_destination key)) as [e|err] eqn:Ee; cbn.
  - apply pushLeaseExpectation_ok in Ee as He. split; [intros [= <-]; eauto 7|]. intros (_ & e' & He' & _ & _ & ->).
    apply (pushLeaseExpectation_ok v (lease_destination key)) in He'. congruence.
  - split; [done|]. intros (_ & e & He & _). apply (pushLeaseExpectation_ok v (lease_destination key)) in He. congruence.
Qed.

Lemma add_leases_ok all destinations properties : NoDup all.*1 → Forall (λ p, p ∈ all ∧ property_strings p) properties → ∀ seen leases s', NoDup seen →
  for_items (add_lease all destinations) (seen, leases) properties.*1 = Ok s' ↔
  ∃ ls, Forall2 lease_of properties ls ∧ NoDup (seen ++ (l_destination <$> ls)) ∧ Forall (λ l, l_destination l ∈ destinations) ls ∧
        s' = (seen ++ (l_destination <$> ls), leases ++ ls).
Proof.
  intros Hnd. induction 1 as [|[key v] properties [Hin Hp] _ IH]; intros seen leases s' Hseen.
  { cbn. split.
    - intros [= <-]. exists []. cbn. rewrite !app_nil_r. by repeat constructor.
    - intros (ls & ->%Forall2_nil_inv_l & _ & _ & ->). cbn. by rewrite !app_nil_r. }
  rewrite fmap_cons. cbn [for_items]. split.
  - intros (s1 & (l & Hl & Hn & Hd & ->)%(add_lease_ok all destinations seen leases key v _ Hnd Hin Hp) & H)%bind_ok_inv.
    apply IH in H as (ls & Hls & Hnd' & Hds & ->).
    + exists (l :: ls). rewrite fmap_cons. rewrite <- !app_assoc in *. cbn [app] in *. by repeat constructor.
    + apply NoDup_app. split_and!; [done|set_solver|apply NoDup_singleton].
  - intros (? & (l & ls & Hl & Hls & ->)%Forall2_cons_inv_l & Hnd' & [Hd Hds]%Forall_cons & ->). rewrite fmap_cons in Hnd'. cbn [fst].
    apply NoDup_app in Hnd' as Hsplit. destruct Hsplit as (_ & Hn & _).
    rewrite (proj2 (add_lease_ok all destinations seen leases key v _ Hnd Hin Hp)) by (exists l; split_and!; [done|intros Hs; apply (Hn _ Hs), list_elem_of_here|done|reflexivity]).
    cbn [mbind outcome_bind]. apply IH; [|exists ls; rewrite fmap_cons, <- !app_assoc in *; done].
    apply NoDup_app. split_and!; [done| |apply NoDup_singleton]. intros d Hin' ->%list_elem_of_singleton. apply (Hn _ Hin'), list_elem_of_here.
Qed.

Lemma foldl_set_add xs : ∀ s d, d ∈ foldl set_add s xs ↔ d ∈ s ∨ d ∈ xs.
Proof.
  induction xs as [|x xs IH]; intros s d; cbn [foldl]; [set_solver|]. rewrite IH. unfold set_add. case_bool_decide; set_solver.
Qed.

(** Leases are accepted exactly when there are none, or an object of at most 1024 expectations,
    each for a name of its own that the push writes to; they come sorted by destination. *)
Theorem push_leases_exact value mappings leases :
  (∀ properties, value = Obj properties → NoDup properties.*1 ∧ Forall property_strings properties) →
  normalizePushLeases value mappings = Ok leases ↔
  (value = Undefined ∧ leases = []) ∨
  ∃ properties ls, value = Obj properties ∧ zlen properties <= MAX_PUSH_LEASES ∧ Forall2 lease_of properties ls ∧
    NoDup (l_destination <$> ls) ∧ Forall (λ l, l_destination l ∈ e_destination <$> mappings) ls ∧
    leases = sort_by (λ left right, comparePaths (l_destination left) (l_destination right)) ls.
Proof.
  intros Hv. unfold normalizePushLeases. destruct value as [| | | |properties|]; try naive_solver.
  destruct (Hv _ eq_refl) as [Hnd Hp]. destruct (MAX_PUSH_LEASES <? zlen properties) eqn:E; zbool.
  { split; [done|]. intros [[? _]|(? & ? & [= <-] & ? & _)]; [done|lia]. }
  assert (Forall (λ p, p ∈ properties ∧ property_strings p) properties) as Hall.
  { rewrite Forall_forall in *. auto. }
  pose proof (λ s', add_leases_ok properties (foldl set_add [] (e_destination <$> mappings)) properties Hnd Hall [] [] s' (NoDup_nil_2)) as H.
  simpl app in H. split.
  - intros ([seen ls] & (ls' & Hls & Hn & Hd & [= -> ->])%H & [= <-])%bind_ok_inv. right. exists properties, ls'. split_and!; try done.
    apply (Forall_impl _ _ _ Hd). intros l. rewrite foldl_set_add. set_solver.
  - intros [[? _]|(? & ls & [= <-] & _ & Hls & Hn & Hd & ->)]; [done|].
    rewrite (proj2 (H (l_destination <$> ls, ls))); [done|]. exists ls. split_and!; try done.
    apply (Forall_impl _ _ _ Hd). intros l. rewrite foldl_set_add. set_solver.
Qed.

(** * Properties *)

(** C23: For every list of values given as push refspecs and every source set,
    [compilePushRefspecs] and [expand] give a list exactly when the values number one to 1024
    and each spells a mapping (a deletion, an object sent to a full name, a full name to a full
    name, a pattern to a pattern), the rows are well formed with distinct names, every name
    sent on its own is there, and the list is the expansion of the mappings: its entries are the
    updates they ask for, with the text of the star carried over, at most 1024, at full names,
    sorted by destination, and no two mappings write to one place.  Everything else is thrown
    out. *)
Theorem push_refspecs_exact refspecs refs result : Forall refspec_strings refspecs → Forall row_strings refs →
  (expand ← compilePushRefspecs refspecs; expand refs) = Ok result ↔
  0 < zlen refspecs <= MAX_REFSPEC_MAPPINGS ∧ rows_ok refs ∧
  ∃ ms, Forall2 (spells push) ms refspecs ∧ expanded Some None refs ms result.
Proof.
  intros Hs Hr. rewrite <- (refspecs_exact Some None "local ref not found: " push expand_push_mapping) by (done || intros [] ???? ; done).
  unfold compilePushRefspecs. by destruct (compile refspecs push).
Qed.

(** C24: The same of fetch refspecs, which spell full names and patterns only. *)
Theorem fetch_refspecs_exact refspecs refs result : Forall refspec_strings refspecs → Forall row_strings refs →
  (expand ← compileFetchRefspecs refspecs; expand refs) = Ok result ↔
  0 < zlen refspecs <= MAX_REFSPEC_MAPPINGS ∧ rows_ok refs ∧
  ∃ ms, Forall2 (spells fetch) ms refspecs ∧ expanded id [] refs ms result.
Proof.
  intros Hs Hr. rewrite <- (refspecs_exact id [] "remote ref not found: " fetch expand_fetch_mapping) by (done || (intros [] ??? H; [by destruct H|by destruct H|done|done])).
  unfold compileFetchRefspecs. by destruct (compile refspecs fetch).
Qed.

Definition js_string_b (s : ustring) : bool := units_b s && (zlen s <=? 2 ^ 50).

Lemma js_string_by_compute s : js_string_b s = true → js_string s.
Proof. intros [H1 H2]%andb_prop. split; [by apply units_by_compute|by apply Z.leb_le]. Qed.

Definition example_oid : ustring := replicate 40 0x61.
Definition example_rows : list RefspecSourceRef :=
  [mkSourceRef (JString (js "HEAD")) (JString example_oid); mkSourceRef (JString (js "refs/heads/main")) (JString example_oid);
   mkSourceRef (JString (js "refs/heads/topic/a")) (JString example_oid)].

Lemma example_row_strings : Forall row_strings example_rows.
Proof.
  repeat apply Forall_cons_2; [..|constructor]; intros name [= <-]; by apply js_string_by_compute.
Qed.

Lemma push_refspecs_exact_witness :
  (expand ← compilePushRefspecs
     [Some (mkRefspec (NString (js "refs/heads/*")) (JString (js "refs/backup/*/x")) (given true)); Some (mkRefspec NNull (JString (js "refs/heads/old")) absent)];
   expand example_rows) =
  Ok [mkExpanded (Some (js "refs/heads/main")) (js "refs/backup/main/x") (Some example_oid) true;
      mkExpanded (Some (js "refs/heads/topic/a")) (js "refs/backup/topic/a/x") (Some example_oid) true;
      mkExpanded None (js "refs/heads/old") None false] ∧
  rows_ok example_rows.
Proof.
  match goal with |- ?c = Ok ?r ∧ _ => assert (c = Ok r) as H by (vm_compute; reflexivity) end.
  split; [exact H|]. apply push_refspecs_exact in H as (_ & Hr & _); [exact Hr| |apply example_row_strings].
  repeat apply Forall_cons_2; [..|constructor]; intros r [= <-]; split; intros s [=]; subst; by apply js_string_by_compute.
Defined.

Lemma fetch_refspecs_exact_witness :
  (expand ← compileFetchRefspecs
     [Some (mkRefspec (NString (js "refs/heads/*")) (JString (js "refs/remotes/origin/*")) (given true));
      Some (mkRefspec (NString (js "refs/heads/main")) (JString (js "refs/heads/main")) absent)];
   expand example_rows) =
  Ok [mkExpanded (js "refs/heads/main") (js "refs/heads/main") example_oid false;
      mkExpanded (js "refs/heads/main") (js "refs/remotes/origin/main") example_oid true;
      mkExpanded (js "refs/heads/topic/a") (js "refs/remotes/origin/topic/a") example_oid true] ∧
  rows_ok example_rows.
Proof.
  match goal with |- ?c = Ok ?r ∧ _ => assert (c = Ok r) as H by (vm_compute; reflexivity) end.
  split; [exact H|]. apply fetch_refspecs_exact in H as (_ & Hr & _); [exact Hr| |apply example_row_strings].
  repeat apply Forall_cons_2; [..|constructor]; intros r [= <-]; split; intros s [=]; subst; by apply js_string_by_compute.
Defined.
