(* ===== verification/Integration.v ===== *)
(** Three-way integration of trees, the structural part: src/packages/git/src/ops/integration/
    integration-structure.ts, integration-structure-types.ts, integration-structure-owned.ts,
    the rows of ops/tree/tree-stream.ts, and the table a structural plan is kept in
    (store/operations/integration-workspace/descriptors.ts, storage.ts).

    The object store is a class: what it answers is not assumed.  A walk of a tree throws at
    its first step or yields all its rows; one that throws further on is not modelled. *)

From S2P Require Import Prelude Utf8 Text Bytes Objects Streams Paths Trees JsMap.

(** * Data *)

Record IntegrationIdentity := mkIdentity { i_mode : ustring; i_oid : ustring }.
Record TargetEntry := mkTarget { t_path : ustring; t_mode : ustring; t_oid : ustring }.
Record IntegrationStages := mkStages {
  s_base : option IntegrationIdentity; s_current : option IntegrationIdentity; s_incoming : option IntegrationIdentity
}.

Inductive StructuralConflictKind := add_add | modify_delete | mode_conflict | symlink | gitlink | file_directory.

Inductive StructuralIntegrationEntry :=
| CleanStructuralEntry (path : ustring) (before result : option IntegrationIdentity)
| ContentStructuralEntry (path : ustring) (base current incoming : IntegrationIdentity) (resultMode : ustring)
| ConflictStructuralEntry (path : ustring) (conflict : StructuralConflictKind) (stages : IntegrationStages).

Definition entry_path (e : StructuralIntegrationEntry) : ustring :=
  match e with CleanStructuralEntry path _ _ | ContentStructuralEntry path _ _ _ _ | ConflictStructuralEntry path _ _ => path end.

Record ClassifiedRow := mkClassified { entry : option StructuralIntegrationEntry; occupiesPath : bool }.

#[export] Instance IntegrationIdentity_eq_dec : EqDecision IntegrationIdentity.
Proof. solve_decision. Defined.
#[export] Instance IntegrationStages_eq_dec : EqDecision IntegrationStages.
Proof. solve_decision. Defined.
#[export] Instance StructuralConflictKind_eq_dec : EqDecision StructuralConflictKind.
Proof. solve_decision. Defined.
#[export] Instance StructuralIntegrationEntry_eq_dec : EqDecision StructuralIntegrationEntry.
Proof. solve_decision. Defined.

(** What an integration asks of the object store. *)
Record IntegrationObjectInfo := mkInfo { info_oid : ustring; info_type : ObjectType; info_size : Z }.

Class IntegrationSource := {
  objectInfo : list ustring → outcome (list IntegrationObjectInfo);
  walkTree : ustring → outcome (list TargetEntry)
}.

(** * One row *)

Definition same (left right : option TargetEntry) : bool :=
  match left, right with
  | Some left, Some right => str_eqb (t_mode left) (t_mode right) && str_eqb (t_oid left) (t_oid right)
  | None, None => true
  | _, _ => false
  end.

Definition identity_of (e : TargetEntry) : IntegrationIdentity := mkIdentity (t_mode e) (t_oid e).
Definition identity (e : option TargetEntry) : option IntegrationIdentity := identity_of <$> e.

Definition stages (base current incoming : option TargetEntry) : IntegrationStages :=
  mkStages (identity base) (identity current) (identity incoming).

Definition clean (path : ustring) (current result : option TargetEntry) : ClassifiedRow :=
  mkClassified (Some (CleanStructuralEntry path (identity current) (identity result))) (bool_decide (is_Some result)).

Definition conflict (path : ustring) (kind : StructuralConflictKind) (base current incoming : option TargetEntry) : ClassifiedRow :=
  mkClassified (Some (ConflictStructuralEntry path kind (stages base current incoming)))
    (bool_decide (is_Some base) || bool_decide (is_Some current) || bool_decide (is_Some incoming)).

Definition isRegular (mode : ustring) : bool := str_eqb mode MODE_FILE || str_eqb mode MODE_EXECUTABLE.

Definition resolveDimension (base current incoming : ustring) : option ustring :=
  if str_eqb current incoming then Some current
  else if str_eqb base current then Some incoming
  else if str_eqb base incoming then Some current
  else None.

Definition classifyRow (path : ustring) (base current incoming : option TargetEntry) : ClassifiedRow :=
  if same current incoming || same base incoming then mkClassified None (bool_decide (is_Some current))
  else if same base current then clean path current incoming
  else
    match base, current, incoming with
    | None, _, _ => conflict path add_add base current incoming
    | Some _, None, _ | Some _, _, None => conflict path modify_delete base current incoming
    | Some b, Some c, Some i =>
        if str_eqb (t_mode b) MODE_COMMIT || str_eqb (t_mode c) MODE_COMMIT || str_eqb (t_mode i) MODE_COMMIT
        then conflict path gitlink base current incoming
        else if str_eqb (t_mode b) MODE_SYMLINK || str_eqb (t_mode c) MODE_SYMLINK || str_eqb (t_mode i) MODE_SYMLINK
        then conflict path symlink base current incoming
        else if negb (isRegular (t_mode b)) || negb (isRegular (t_mode c)) || negb (isRegular (t_mode i))
        then conflict path mode_conflict base current incoming
        else
          match resolveDimension (t_mode b) (t_mode c) (t_mode i) with
          | None => conflict path mode_conflict base current incoming
          | Some resultMode =>
              match resolveDimension (t_oid b) (t_oid c) (t_oid i) with
              | Some resultOid =>
                  let result := mkTarget path resultMode resultOid in
                  if same current (Some result) then mkClassified None true else clean path current (Some result)
              | None =>
                  mkClassified (Some (ContentStructuralEntry path (identity_of b) (identity_of c) (identity_of i) resultMode)) true
              end
          end
    end.

(** * The walk *)

(** A file that later paths may lie below. *)
Record Prefix := mkPrefix { p_path : ustring; p_stages : IntegrationStages; p_entry : option StructuralIntegrationEntry }.

(** The locals of [classifyIntegrationStructureOwned]; [c_prefixes] has its last element first. *)
Record Classifying := mkClassifying { c_prefixes : list Prefix; c_sourceRows : Z; c_entryCount : Z }.

Definition classifying_start : Classifying := mkClassifying [] 0 0.

(** [while (... && !isNestedPath(prefixes[prefixes.length - 1].path, path)) prefixes.pop()]. *)
Fixpoint pop_prefixes (path : ustring) (prefixes : list Prefix) : list Prefix :=
  match prefixes with
  | prefix :: rest => if isNestedPath (p_path prefix) path then prefixes else pop_prefixes path rest
  | [] => []
  end.

Definition file_directory_of (prefix : Prefix) : StructuralIntegrationEntry :=
  ConflictStructuralEntry (p_path prefix) file_directory (p_stages prefix).

Notation tree_row := (JoinedRow3 TargetEntry TargetEntry TargetEntry).

(** The body of the loop of [classify]: what a row yields, and the next state. *)
Definition classify_row (c : Classifying) (row : tree_row) : list StructuralIntegrationEntry * Classifying :=
  let prefixes := pop_prefixes (path3 row) (c_prefixes c) in
  let stages := stages (row_a row) (row_b row) (row_c row) in
  let classified := classifyRow (path3 row) (row_a row) (row_b row) (row_c row) in
  let clash := occupiesPath classified && negb (zlen prefixes =? 0) in
  let replaced := if clash then file_directory_of <$> reverse prefixes else [] in
  let fresh := if clash then zlen (filter (λ prefix, p_entry prefix = None) prefixes) else 0 in
  let prefixes := if clash then (λ prefix, mkPrefix (p_path prefix) (p_stages prefix) (Some (file_directory_of prefix))) <$> prefixes else prefixes in
  let entry := if clash then Some (ConflictStructuralEntry (path3 row) file_directory stages) else entry classified in
  let count := c_entryCount c + fresh + match entry with Some _ => 1 | None => 0 end in
  let missing := negb (bool_decide (is_Some (row_a row)) && bool_decide (is_Some (row_b row)) && bool_decide (is_Some (row_c row))) in
  (replaced ++ option_list entry,
   mkClassifying (if occupiesPath classified && missing then mkPrefix (path3 row) stages entry :: prefixes else prefixes) (c_sourceRows c + 1) count).

(** The loop; it throws at the row past the limit. *)
Fixpoint classify_rows (maxRows : Z) (c : Classifying) (rows : list tree_row) : outcome (list StructuralIntegrationEntry * Classifying) :=
  match rows with
  | [] => Ok ([], c)
  | row :: rows =>
      if maxRows <=? c_sourceRows c
      then Throw (GitError (js "E2BIG") (js "integration structure exceeds " ++ number_string maxRows ++ js " source rows"))
      else
        let '(entries, c) := classify_row c row in
        '(later, c) ← classify_rows maxRows c rows;
        Ok (entries ++ later, c)
  end.

(** * The plan *)

(** The table of a plan's entries, a row per path: an entry replaces the one of its path. *)
Definition plan_write (table : jsmap ustring StructuralIntegrationEntry) (entries : list StructuralIntegrationEntry)
  : jsmap ustring StructuralIntegrationEntry :=
  foldl (λ table entry, map_set table (entry_path entry) entry) table entries.

(** [SELECT ... ORDER BY path COLLATE BINARY]. *)
Definition plan_entries (table : jsmap ustring StructuralIntegrationEntry) : list StructuralIntegrationEntry :=
  snd <$> sort_by (λ left right, comparePaths left.1 right.1) table.

Record StructuralPlan := mkPlan { pl_table : jsmap ustring StructuralIntegrationEntry; pl_sourceRows : Z; pl_entryCount : Z }.

Section source.
  Context `{IntegrationSource}.

(** [new Set] of the roots that are there. *)
Definition integration_roots (base current incoming : option ustring) : list ustring :=
  foldl (λ roots oid, match oid with Some oid => if bool_decide (oid ∈ roots) then roots else roots ++ [oid] | None => roots end) []
    [base; current; incoming].

(** [stream]: no tree has no rows. *)
Definition tree_rows (oid : option ustring) : outcome (list TargetEntry) := match oid with Some oid => walkTree oid | None => Ok [] end.

(** Roots that leave nothing to do are still checked: each is a tree whose walk begins. *)
Fixpoint check_roots (infos : list IntegrationObjectInfo) : outcome unit :=
  match infos with
  | [] => Ok tt
  | info :: infos =>
      if bool_decide (info_type info = tree_type) then _ ← walkTree (info_oid info); check_roots infos
      else Throw (CorruptError (info_oid info ++ js " is a " ++ type_name (info_type info) ++ js ", not a tree"))
  end.

Definition classifyIntegrationStructureOwned (base current incoming : option ustring) (maxRows : Z) : option (outcome StructuralPlan) :=
  if bool_decide (current = incoming) || bool_decide (base = incoming) then
    Some (infos ← objectInfo (integration_roots base current incoming);
          _ ← check_roots infos;
          Ok (mkPlan [] 0 0))
  else
    match (b ← tree_rows base; c ← tree_rows current; i ← tree_rows incoming; Ok (b, c, i)) with
    | Throw e => Some (Throw e)
    | Ok (b, c, i) =>
        match joinSorted3 t_path t_path t_path b c i with
        | None => None
        | Some (rows, _, _, _) =>
            Some ('(entries, c) ← classify_rows maxRows classifying_start rows;
                  Ok (mkPlan (plan_write [] entries) (c_sourceRows c) (c_entryCount c)))
        end
    end.

End source.
