(* ===== verification/IntegrationFacts.v ===== *)
(** Facts about the structural part of an integration: the rule for one path, which paths clash
    as file and directory, and what the plan of three trees holds. *)

From S2P Require Import Prelude Utf8 Text Bytes Objects Streams Paths Trees JsMap Integration.

(** * Nested paths *)

Definition below (root path : ustring) : Prop := ∃ rest, path = root ++ SLASH :: rest.

(** A path of a tree: its components are names. *)
Definition tree_path (p : ustring) : Prop := Forall good (split SLASH p).

Lemma isNestedPath_segs root path :
  isNestedPath root path = true ↔ segs_of root `prefix_of` segs_of path ∧ segs_of root ≠ segs_of path.
Proof.
  unfold isNestedPath, str_eqb. rewrite andb_true_iff, negb_true_iff, bool_decide_eq_false, isPathRoot_spec, !segs_of_normalize.
  rewrite !normalizePath_render. split; intros [H1 H2]; split; try done.
  - intros E. apply H1. by rewrite E.
  - intros E%render_inj; [by apply H2|apply segs_good..].
Qed.

Lemma isNestedPath_trans a b c : isNestedPath a b = true → isNestedPath b c = true → isNestedPath a c = true.
Proof.
  rewrite !isNestedPath_segs. intros [H1 N1] [H2 N2]. split; [by etrans|]. intros E. apply N1. rewrite <- E in H2.
  destruct H1 as [k Hk], H2 as [m Hm]. rewrite Hk in Hm. rewrite <- app_assoc in Hm.
  rewrite <- (app_nil_r (segs_of a)) in Hm at 1. apply app_inv_head in Hm. symmetry in Hm. apply app_nil in Hm as [-> _]. by rewrite app_nil_r in Hk.
Qed.

Lemma tree_path_segs p : tree_path p → segs_of p = split SLASH p.
Proof. intros H. unfold segs_of. by rewrite walk_canonical. Qed.

Lemma isNestedPath_below root path : tree_path root → tree_path path → isNestedPath root path = true ↔ below root path.
Proof.
  intros Hr Hp. rewrite isNestedPath_segs, !tree_path_segs by done. unfold below. split.
  - intros [[k Hk] Hne]. destruct k as [|s k]; [by rewrite app_nil_r in Hk|]. exists (join SLASH (s :: k)).
    rewrite <- (join_split SLASH path), Hk, join_app by (apply split_not_nil || done). by rewrite join_split.
  - intros [rest ->]. rewrite split_app. split; [by exists (split SLASH rest)|]. intros E.
    rewrite <- (app_nil_r (split SLASH root)) in E at 1. apply app_inv_head in E. by destruct (split_not_nil SLASH rest).
Qed.

Lemma below_irrefl p : ¬ below p p.
Proof. intros [r E]. apply (f_equal length) in E. rewrite length_app in E. simpl in E. lia. Qed.

(** * One row *)

Section row.
  Context {A : Type}.

(** The three-way rule for one value: what both sides say, or what the side that changed says. *)
Definition three_way (base current incoming r : A) : Prop :=
  (current = incoming ∧ r = current) ∨ (base = incoming ∧ r = current) ∨ (base = current ∧ r = incoming).

Lemma three_way_unique b c i r r' : three_way b c i r → three_way b c i r' → r = r'.
Proof. unfold three_way. naive_solver. Qed.

Lemma three_way_swap b c i r : three_way b c i r ↔ three_way b i c r.
Proof. unfold three_way. naive_solver. Qed.

End row.

(** What a row leaves at its path, where it decides: the current entry, or its result. *)
Definition leaves (row : ClassifiedRow) (current : option IntegrationIdentity) : option (option IntegrationIdentity) :=
  match entry row with
  | None => Some current
  | Some (CleanStructuralEntry _ _ result) => Some result
  | Some _ => None
  end.

Definition regular (e : IntegrationIdentity) : Prop := i_mode e = MODE_FILE ∨ i_mode e = MODE_EXECUTABLE.

(** Three regular files, merged mode by mode and content by content. *)
Definition by_parts (base current incoming : option IntegrationIdentity) (r : option IntegrationIdentity) : Prop :=
  ∃ b c i m o, base = Some b ∧ current = Some c ∧ incoming = Some i ∧ regular b ∧ regular c ∧ regular i ∧
    three_way (i_mode b) (i_mode c) (i_mode i) m ∧ three_way (i_oid b) (i_oid c) (i_oid i) o ∧ r = Some (mkIdentity m o).

(** Three regular files whose contents have to be merged. *)
Definition by_content (base current incoming : option IntegrationIdentity) (b c i : IntegrationIdentity) (m : ustring) : Prop :=
  base = Some b ∧ current = Some c ∧ incoming = Some i ∧ regular b ∧ regular c ∧ regular i ∧
  three_way (i_mode b) (i_mode c) (i_mode i) m ∧ ∀ o, ¬ three_way (i_oid b) (i_oid c) (i_oid i) o.

(** The kinds of conflict. *)
Definition conflict_kind (base current incoming : option IntegrationIdentity) (kind : StructuralConflictKind) : Prop :=
  match base, current, incoming with
  | None, _, _ => kind = add_add
  | Some _, None, _ | Some _, _, None => kind = modify_delete
  | Some b, Some c, Some i =>
      let modes := [i_mode b; i_mode c; i_mode i] in
      (kind = gitlink ∧ MODE_COMMIT ∈ modes) ∨
      (kind = symlink ∧ (MODE_COMMIT ∉ modes) ∧ MODE_SYMLINK ∈ modes) ∨
      (kind = mode_conflict ∧ (MODE_COMMIT ∉ modes) ∧ (MODE_SYMLINK ∉ modes) ∧
       ((¬ (regular b ∧ regular c ∧ regular i)) ∨ ∀ m, ¬ three_way (i_mode b) (i_mode c) (i_mode i) m))
  end.

Lemma same_spec x y : same x y = bool_decide (identity x = identity y).
Proof.
  unfold same, identity, str_eqb. destruct x as [[p m o]|], y as [[p' m' o']|]; cbn; try done.
  unfold identity_of. cbn. repeat case_bool_decide; naive_solver.
Qed.

Lemma resolveDimension_spec b c i r : resolveDimension b c i = Some r ↔ three_way b c i r.
Proof. unfold resolveDimension, three_way, str_eqb. repeat case_bool_decide; naive_solver. Qed.

Lemma resolveDimension_none b c i : resolveDimension b c i = None ↔ ∀ r, ¬ three_way b c i r.
Proof.
  split; [intros E r Hr%resolveDimension_spec; congruence|]. intros H. destruct (resolveDimension b c i) as [r|] eqn:E; [|done].
  by apply resolveDimension_spec, H in E.
Qed.

Lemma isRegular_spec e : isRegular (t_mode e) = true ↔ regular (identity_of e).
Proof. unfold isRegular, regular, str_eqb. rewrite orb_true_iff, !bool_decide_eq_true. done. Qed.

Lemma three_mode m a b c : str_eqb a m || str_eqb b m || str_eqb c m = bool_decide (m ∈ [a; b; c]).
Proof.
  unfold str_eqb. apply eq_bool_prop_intro. rewrite !orb_True, !bool_decide_spec, !elem_of_cons, elem_of_nil. naive_solver.
Qed.

(** The cases of [classifyRow] by what it answers. *)
Inductive row_case (path : ustring) (b c i : option TargetEntry) : ClassifiedRow → Prop :=
| row_same : identity c = identity i ∨ identity b = identity i → row_case path b c i (mkClassified None (bool_decide (is_Some c)))
| row_clean : identity c ≠ identity i → identity b ≠ identity i → identity b = identity c → row_case path b c i (clean path c i)
| row_conflict kind : (∀ r, ¬ three_way (identity b) (identity c) (identity i) r) →
    conflict_kind (identity b) (identity c) (identity i) kind → row_case path b c i (conflict path kind b c i)
| row_parts r m o : (∀ r, ¬ three_way (identity b) (identity c) (identity i) r) → r = mkIdentity m o →
    by_parts (identity b) (identity c) (identity i) (Some r) →
    row_case path b c i (if bool_decide (identity c = Some r) then mkClassified None true else clean path c (Some (mkTarget path m o)))
| row_content b' c' i' m : by_content (identity b) (identity c) (identity i) b' c' i' m →
    row_case path b c i (mkClassified (Some (ContentStructuralEntry path b' c' i' m)) true).

Lemma no_three_way {A} (b c i : A) : c ≠ i → b ≠ i → b ≠ c → ∀ r, ¬ three_way b c i r.
Proof. unfold three_way. naive_solver. Qed.

Lemma classifyRow_cases path b c i : row_case path b c i (classifyRow path b c i).
Proof.
  unfold classifyRow. rewrite !same_spec.
  destruct (bool_decide (identity c = identity i) || bool_decide (identity b = identity i)) eqn:E1.
  { apply orb_prop in E1 as [E%bool_decide_eq_true|E%bool_decide_eq_true]; apply row_same; auto. }
  apply orb_false_iff in E1 as [Hci%bool_decide_eq_false Hbi%bool_decide_eq_false].
  case_bool_decide as Hbc; [by apply row_clean|]. pose proof (no_three_way _ _ _ Hci Hbi Hbc) as Hno.
  destruct b as [b|]; [|by apply row_conflict]. destruct c as [c|]; [|by apply row_conflict]. destruct i as [i|]; [|by apply row_conflict].
  rewrite !three_mode. case_bool_decide as Hcommit; [apply row_conflict; [done|]; cbn; by left|].
  case_bool_decide as Hlink; [apply row_conflict; [done|]; cbn; right; by left|].
  destruct (negb _ || _ || _) eqn:Er.
  { apply row_conflict; [done|]. cbn. right. right. split_and!; try done. left. rewrite <- !isRegular_spec. intros (H1 & H2 & H3).
    by rewrite H1, H2, H3 in Er. }
  apply orb_false_iff in Er as [[Eb%negb_false_iff Ec%negb_false_iff]%orb_false_iff Ei%negb_false_iff].
  apply isRegular_spec in Eb, Ec, Ei. destruct (resolveDimension (t_mode b) (t_mode c) (t_mode i)) as [m|] eqn:Em.
  2:{ apply row_conflict; [done|]. cbn. right. right. split_and!; try done. right. by apply resolveDimension_none. }
  apply resolveDimension_spec in Em. destruct (resolveDimension (t_oid b) (t_oid c) (t_oid i)) as [o|] eqn:Eo.
  - apply resolveDimension_spec in Eo. rewrite same_spec.
    apply (row_parts path (Some b) (Some c) (Some i) (mkIdentity m o) m o Hno eq_refl).
    exists (identity_of b), (identity_of c), (identity_of i), m, o. by split_and!.
  - apply row_content. split_and!; try done. intros o Ho%resolveDimension_spec. cbn in Ho. congruence.
Qed.

Lemma by_content_no_parts B C I b c i m r : by_content B C I b c i m → ¬ by_parts B C I r.
Proof.
  intros (-> & -> & -> & _ & _ & _ & _ & H) (b' & c' & i' & m' & o & [= <-] & [= <-] & [= <-] & _ & _ & _ & _ & Ho & _). by apply (H o).
Qed.

Lemma by_content_no_three_way B C I b c i m r : by_content B C I b c i m → ¬ three_way B C I r.
Proof.
  intros (-> & -> & -> & _ & _ & _ & _ & H) Hw. assert (∃ o, three_way (i_oid b) (i_oid c) (i_oid i) o) as [o Ho]; [|by apply (H o)].
  unfold three_way in *. naive_solver.
Qed.

Lemma conflict_no_parts B C I kind r : conflict_kind B C I kind → ¬ by_parts B C I r.
Proof.
  intros H (b & c & i & m & o & -> & -> & -> & Hb & Hc & Hi & Hm & _). cbn in H.
  assert (∀ e, regular e → i_mode e ≠ MODE_COMMIT ∧ i_mode e ≠ MODE_SYMLINK) as Hreg by (by intros e [->| ->]).
  destruct H as [[_ H]|[(_ & _ & H)|(_ & _ & _ & [H|H])]].
  - apply Hreg in Hb, Hc, Hi. set_solver.
  - apply Hreg in Hb, Hc, Hi. set_solver.
  - by apply H.
  - by apply (H m).
Qed.

Lemma conflict_no_content B C I kind b c i m : conflict_kind B C I kind → ¬ by_content B C I b c i m.
Proof.
  intros H (-> & -> & -> & Hb & Hc & Hi & Hm & _). cbn in H.
  assert (∀ e, regular e → i_mode e ≠ MODE_COMMIT ∧ i_mode e ≠ MODE_SYMLINK) as Hreg by (by intros e [->| ->]).
  destruct H as [[_ H]|[(_ & _ & H)|(_ & _ & _ & [H|H])]].
  - apply Hreg in Hb, Hc, Hi. set_solver.
  - apply Hreg in Hb, Hc, Hi. set_solver.
  - by apply H.
  - by apply (H m).
Qed.

Lemma by_parts_unique B C I r r' : by_parts B C I r → by_parts B C I r' → r = r'.
Proof.
  intros (b & c & i & m & o & -> & -> & -> & _ & _ & _ & Hm & Ho & ->) (b' & c' & i' & m' & o' & [= <-] & [= <-] & [= <-] & _ & _ & _ & Hm' & Ho' & ->).
  by rewrite (three_way_unique _ _ _ _ _ Hm Hm'), (three_way_unique _ _ _ _ _ Ho Ho').
Qed.

Lemma by_parts_three_way B C I r r' : three_way B C I r → by_parts B C I r' → r = r'.
Proof.
  intros Hw (b & c & i & m & o & -> & -> & -> & _ & _ & _ & Hm & Ho & ->).
  assert (∀ x, r = Some x → m = i_mode x ∧ o = i_oid x) as H.
  { intros x ->. split; [apply (three_way_unique _ _ _ _ _ Hm)|apply (three_way_unique _ _ _ _ _ Ho)]; unfold three_way in *; naive_solver. }
  destruct r as [x|]; [|unfold three_way in Hw; naive_solver]. destruct (H x eq_refl) as [-> ->]. by destruct x.
Qed.

Lemma is_Some_identity e : bool_decide (is_Some e) = bool_decide (is_Some (identity e)).
Proof. apply bool_decide_ext. unfold identity. by rewrite fmap_is_Some. Qed.

Lemma present_three B C I : (∀ r : option IntegrationIdentity, ¬ three_way B C I r) → is_Some B ∨ is_Some C ∨ is_Some I.
Proof. intros H. destruct B, C, I; eauto. destruct (H None). unfold three_way. auto. Qed.

Lemma conflict_kind_unique B C I k k' : conflict_kind B C I k → conflict_kind B C I k' → k = k'.
Proof. destruct B, C, I; cbn; naive_solver. Qed.

(** C25: The decision for one path, for any three entries: it leaves an entry [r] exactly when
    the three-way rule gives [r], for the entries as wholes or, for three regular files, for
    modes and contents apart; it asks for a merge of contents exactly when three regular files
    agree on a mode but not on contents; in every other case it is a conflict of the kind the
    types call for, with the three entries as its stages.  The path is free exactly when the
    decision leaves nothing there. *)
Theorem classifyRow_correct path b c i :
  let row := classifyRow path b c i in
  let B := identity b in let C := identity c in let I := identity i in
  (∀ r, leaves row C = Some r ↔ three_way B C I r ∨ by_parts B C I r) ∧
  (∀ b' c' i' m, entry row = Some (ContentStructuralEntry path b' c' i' m) ↔ by_content B C I b' c' i' m) ∧
  (∀ kind st, entry row = Some (ConflictStructuralEntry path kind st) ↔
     (∀ r, ¬ three_way B C I r) ∧ conflict_kind B C I kind ∧ st = mkStages B C I) ∧
  (occupiesPath row = false ↔ leaves row C = Some None).
Proof.
  cbv zeta. destruct (classifyRow_cases path b c i) as [Hs|H1 H2 H3|kind Hno Hk|r m o Hno -> Hp|b' c' i' m Hc].
  - split_and!; cbn.
    + intros r. split; [intros [= <-]; left; unfold three_way; naive_solver|].
      assert (three_way (identity b) (identity c) (identity i) (identity c)) as Hw by (unfold three_way; naive_solver).
      intros [Hr|Hr]; [by rewrite (three_way_unique _ _ _ _ _ Hw Hr)|by rewrite (by_parts_three_way _ _ _ _ _ Hw Hr)].
    + intros b' c' i' m. split; [done|]. intros Hc. destruct (by_content_no_three_way _ _ _ _ _ _ _ (identity c) Hc). unfold three_way. naive_solver.
    + intros kind st. split; [done|]. intros (Hno & _). destruct (Hno (identity c)). unfold three_way. naive_solver.
    + rewrite is_Some_identity, bool_decide_eq_false, <- eq_None_not_Some. unfold leaves. cbn. split; [by intros ->|by intros [=]].
  - assert (three_way (identity b) (identity c) (identity i) (identity i)) as Hw by (unfold three_way; naive_solver). split_and!; cbn.
    + intros r. split; [intros [= <-]; by left|].
      intros [Hr|Hr]; [by rewrite (three_way_unique _ _ _ _ _ Hw Hr)|by rewrite (by_parts_three_way _ _ _ _ _ Hw Hr)].
    + intros b' c' i' m. split; [done|]. intros Hc. by destruct (by_content_no_three_way _ _ _ _ _ _ _ (identity i) Hc).
    + intros kind st. split; [done|]. intros (Hno & _). by destruct (Hno (identity i)).
    + rewrite is_Some_identity, bool_decide_eq_false, <- eq_None_not_Some. unfold leaves. cbn. split; [by intros ->|by intros [=]].
  - split_and!; cbn.
    + intros r. split; [done|]. intros [Hr|Hr]; [by destruct (Hno r)|by destruct (conflict_no_parts _ _ _ _ _ Hk Hr)].
    + intros b' c' i' m. split; [done|]. intros Hc. by destruct (conflict_no_content _ _ _ _ _ _ _ _ Hk Hc).
    + intros kind' st. split; [intros [= <- <-]; done|]. intros (_ & Hk' & ->). by rewrite (conflict_kind_unique _ _ _ _ _ Hk Hk').
    + split; [|done]. rewrite !is_Some_identity, !orb_false_iff, !bool_decide_eq_false. destruct (present_three _ _ _ Hno) as [?|[?|?]]; tauto.
  - assert (∀ row : ClassifiedRow, entry row = None ∧ identity c = Some (mkIdentity m o) ∨ row = clean path c (Some (mkTarget path m o)) →
      leaves row (identity c) = Some (Some (mkIdentity m o)) ∧ (∀ b' c' i' m', entry row ≠ Some (ContentStructuralEntry path b' c' i' m')) ∧
      (∀ kind st, entry row ≠ Some (ConflictStructuralEntry path kind st))) as Hrow.
    { intros row [[E Ec]| ->]; [unfold leaves; rewrite E; split_and!; congruence|done]. }
    set (row := if bool_decide _ then _ else _). destruct (Hrow row) as (Hl & Hct & Hcf).
    { subst row. case_bool_decide; [by left|by right]. }
    assert (occupiesPath row = true) as -> by (subst row; by case_bool_decide). rewrite Hl. split_and!.
    + intros r. split; [intros [= <-]; by right|]. intros [Hr|Hr]; [by destruct (Hno r)|]. by rewrite (by_parts_unique _ _ _ _ _ Hp Hr).
    + intros b' c' i' m'. split; [by intros ?%Hct|]. intros Hc. by destruct (by_content_no_parts _ _ _ _ _ _ _ _ Hc Hp).
    + intros kind st. split; [by intros ?%Hcf|]. intros (_ & Hk & _). by destruct (conflict_no_parts _ _ _ _ _ Hk Hp).
    + done.
  - split_and!; cbn.
    + intros r. split; [done|]. intros [Hr|Hr]; [by destruct (by_content_no_three_way _ _ _ _ _ _ _ r Hc)|by destruct (by_content_no_parts _ _ _ _ _ _ _ _ Hc Hr)].
    + intros b2 c2 i2 m2. split; [intros [= <- <- <- <-]; done|].
      destruct Hc as (-> & -> & -> & _ & _ & _ & Hm & _). intros (Eb & Ec & Ei & _ & _ & _ & Hm2 & _). simplify_eq.
      by rewrite (three_way_unique _ _ _ _ _ Hm Hm2).
    + intros kind st. split; [done|]. intros (_ & Hk & _). by destruct (conflict_no_content _ _ _ _ _ _ _ _ Hk Hc).
    + done.
Qed.

(** * Clashes *)

Definition classified (r : tree_row) : ClassifiedRow := classifyRow (path3 r) (row_a r) (row_b r) (row_c r).
Definition occupies (r : tree_row) : bool := occupiesPath (classified r).
Definition missing (r : tree_row) : bool :=
  negb (bool_decide (is_Some (row_a r)) && bool_decide (is_Some (row_b r)) && bool_decide (is_Some (row_c r))).
Definition row_stages (r : tree_row) : IntegrationStages := stages (row_a r) (row_b r) (row_c r).
Definition nested_rows (path : ustring) (l : list tree_row) : list tree_row := filter (λ q, isNestedPath (path3 q) path = true) l.

(** The rows the stack of prefixes stands for, after the rows [seen] (the last one first). *)
Fixpoint alive (seen : list tree_row) : list tree_row :=
  match seen with
  | [] => []
  | r :: seen => (if occupies r && missing r then [r] else []) ++ nested_rows (path3 r) (alive seen)
  end.

(** The pairs of a file and a later path below it that the walk notices. *)
Fixpoint pairs (seen : list tree_row) : list (tree_row * tree_row) :=
  match seen with
  | [] => []
  | r :: seen => (if occupies r then (λ q, (q, r)) <$> nested_rows (path3 r) (alive seen) else []) ++ pairs seen
  end.

Definition clashing (seen : list tree_row) (p : ustring) : bool :=
  bool_decide (p ∈ (path3 ∘ fst <$> pairs seen) ++ (path3 ∘ snd <$> pairs seen)).

(** What the table holds for a row. *)
Definition row_entry (seen : list tree_row) (r : tree_row) : option StructuralIntegrationEntry :=
  if clashing seen (path3 r) then Some (ConflictStructuralEntry (path3 r) file_directory (row_stages r)) else entry (classified r).

Lemma alive_seen r seen : r ∈ alive seen → r ∈ seen.
Proof.
  induction seen as [|s seen IH]; [done|]. cbn [alive]. rewrite elem_of_app. unfold nested_rows. rewrite list_elem_of_filter. intros [H|[_ H]].
  - destruct (_ && _); [|by apply elem_of_nil in H]. apply list_elem_of_singleton in H as ->. apply list_elem_of_here.
  - apply list_elem_of_further. auto.
Qed.

Lemma Forall_kept {A} (P Q : A → Prop) `{∀ x, Decision (P x)} l : Forall Q l → Forall Q (filter P l).
Proof. rewrite !Forall_forall. intros Hl x [_ Hx]%list_elem_of_filter. auto. Qed.

Lemma filter_id {A} (P : A → Prop) `{∀ x, Decision (P x)} l : Forall P l → filter P l = l.
Proof. induction 1 as [|x l Hx _ IH]; [done|]. by rewrite filter_cons_True, IH. Qed.

(** Each prefix is below those under it in the stack. *)
Lemma alive_chain seen : StronglySorted (λ x y, isNestedPath (path3 y) (path3 x) = true) (alive seen).
Proof.
  induction seen as [|r seen IH]; [constructor|]. cbn [alive].
  assert (StronglySorted (λ x y, isNestedPath (path3 y) (path3 x) = true) (nested_rows (path3 r) (alive seen))) as Hf.
  { unfold nested_rows. induction IH as [|x l IH' IHl Hall]; [constructor|]. rewrite filter_cons. case_decide; [|done]. constructor; [done|].
    by apply Forall_kept. }
  destruct (_ && _); [|done]. constructor; [done|]. apply Forall_forall. intros q [H _]%list_elem_of_filter. done.
Qed.

Lemma pop_prefixes_spec (f : tree_row → Prefix) path l : (∀ r, p_path (f r) = path3 r) →
  StronglySorted (λ x y, isNestedPath (path3 y) (path3 x) = true) l → pop_prefixes path (f <$> l) = f <$> nested_rows path l.
Proof.
  intros Hf. induction 1 as [|x l Hs IH Hall]; [done|]. rewrite fmap_cons. cbn [pop_prefixes]. rewrite Hf. unfold nested_rows in *. rewrite filter_cons.
  destruct (isNestedPath (path3 x) path) eqn:E; [|by rewrite decide_False]. rewrite decide_True, fmap_cons by done. f_equal. f_equal.
  symmetry. apply filter_id. rewrite Forall_forall in *. intros y Hy. by apply (isNestedPath_trans _ (path3 x)), E; auto.
Qed.

(** ** The table *)

Notation plan_table := (jsmap ustring StructuralIntegrationEntry) (only parsing).

Lemma plan_write_keys es : ∀ T p, p ∈ (plan_write T es).*1 ↔ p ∈ T.*1 ∨ p ∈ entry_path <$> es.
Proof.
  induction es as [|e es IH]; intros T p; [cbn; set_solver|]. change (plan_write T (e :: es)) with (plan_write (map_set T (entry_path e) e) es).
  rewrite IH, map_set_keys_elem, fmap_cons, elem_of_cons. tauto.
Qed.

Lemma plan_write_nodup es : ∀ T, NoDup T.*1 → NoDup (plan_write T es).*1.
Proof.
  induction es as [|e es IH]; intros T HT; [done|]. change (plan_write T (e :: es)) with (plan_write (map_set T (entry_path e) e) es).
  by apply IH, map_set_NoDup.
Qed.

Lemma plan_write_other es : ∀ T p, p ∉ entry_path <$> es → map_get (plan_write T es) p = map_get T p.
Proof.
  induction es as [|e es IH]; intros T p Hp; [done|]. change (plan_write T (e :: es)) with (plan_write (map_set T (entry_path e) e) es).
  rewrite fmap_cons, not_elem_of_cons in Hp. rewrite IH by tauto. rewrite map_get_set_ne; [done|]. intros <-. tauto.
Qed.

Lemma plan_write_get es e : ∀ T, NoDup (entry_path <$> es) → e ∈ es → map_get (plan_write T es) (entry_path e) = Some e.
Proof.
  induction es as [|x es IH]; intros T Hnd; [by intros ?%elem_of_nil|]. rewrite fmap_cons in Hnd. apply NoDup_cons in Hnd as [Hx Hnd].
  change (plan_write T (x :: es)) with (plan_write (map_set T (entry_path x) x) es). intros [->|He]%elem_of_cons; [|auto].
  by rewrite plan_write_other, map_get_set_eq.
Qed.

Lemma map_set_size (T : plan_table) p e : zlen (map_set T p e) = zlen T + (if decide (map_get T p = None) then 1 else 0).
Proof.
  case_decide as Hp.
  - rewrite map_set_new, zlen_app by done. done.
  - pose proof (map_set_keys T p e) as Hk. apply not_eq_None_Some in Hp. specialize (Hk Hp). apply (f_equal length) in Hk.
    rewrite !length_fmap in Hk. unfold zlen. lia.
Qed.

Lemma plan_write_size es : ∀ T, NoDup (entry_path <$> es) →
  zlen (plan_write T es) = zlen T + zlen (filter (λ e, map_get T (entry_path e) = None) es).
Proof.
  induction es as [|e es IH]; intros T Hnd; [cbn; unfold zlen; simpl; lia|]. rewrite fmap_cons in Hnd. apply NoDup_cons in Hnd as [He Hnd].
  change (plan_write T (e :: es)) with (plan_write (map_set T (entry_path e) e) es). rewrite IH, map_set_size by done.
  assert (filter (λ x, map_get (map_set T (entry_path e) e) (entry_path x) = None) es = filter (λ x, map_get T (entry_path x) = None) es) as ->.
  { clear IH Hnd. induction es as [|x es IH]; [done|]. rewrite fmap_cons, not_elem_of_cons in He. rewrite !filter_cons, IH by tauto.
    rewrite map_get_set_ne by tauto. done. }
  rewrite filter_cons. case_decide; rewrite ?zlen_cons; lia.
Qed.

Lemma filter_fmap_size {A B} (f : A → B) (P : B → Prop) `{∀ x, Decision (P x)} l :
  zlen (filter P (f <$> l)) = zlen (filter (λ a, P (f a)) l).
Proof. induction l as [|x l IH]; [done|]. rewrite fmap_cons, !filter_cons. case_decide; rewrite ?zlen_cons; lia. Qed.

Lemma filter_reverse_size {A} (P : A → Prop) `{∀ x, Decision (P x)} l : zlen (filter P (reverse l)) = zlen (filter P l).
Proof. unfold zlen. by rewrite (reverse_Permutation l). Qed.

(** ** The walk *)

Definition clash_entry (r : tree_row) : StructuralIntegrationEntry := ConflictStructuralEntry (path3 r) file_directory (row_stages r).
Definition prefix_of_row (T : plan_table) (r : tree_row) : Prefix := mkPrefix (path3 r) (row_stages r) (map_get T (path3 r)).

(** The rows [seen] are in the table [T] and in the state [c]. *)
Record walked (seen : list tree_row) (T : plan_table) (c : Classifying) : Prop := {
  walked_stack : c_prefixes c = prefix_of_row T <$> alive seen;
  walked_rows : c_sourceRows c = zlen seen;
  walked_count : c_entryCount c = zlen T;
  walked_nodup : NoDup T.*1;
  walked_keys p : p ∈ T.*1 → p ∈ path3 <$> seen;
  walked_table r : r ∈ seen → map_get T (path3 r) = row_entry seen r
}.

Lemma walked_start : walked [] [] classifying_start.
Proof. split; try done; [constructor|by intros r ?%elem_of_nil]. Qed.

Lemma pairs_seen seen q r : (q, r) ∈ pairs seen → q ∈ seen ∧ r ∈ seen.
Proof.
  induction seen as [|s seen IH]; [by intros ?%elem_of_nil|]. cbn [pairs]. rewrite elem_of_app. intros [H|H].
  - destruct (occupies s); [|by apply elem_of_nil in H]. apply list_elem_of_fmap in H as (q' & [= -> ->] & [_ Hq]%list_elem_of_filter).
    apply alive_seen in Hq. split; [by right|by left].
  - apply IH in H as [??]. split; by right.
Qed.

Lemma clashing_spec seen p : clashing seen p = true ↔ ∃ q r, (q, r) ∈ pairs seen ∧ (p = path3 q ∨ p = path3 r).
Proof.
  unfold clashing. rewrite bool_decide_eq_true, elem_of_app, !list_elem_of_fmap. split.
  - intros [([q r] & -> & H)|([q r] & -> & H)]; eauto 6.
  - intros (q & r & H & [->| ->]); [left|right]; by exists (q, r).
Qed.

Lemma clashing_old seen p : clashing seen p = true → p ∈ path3 <$> seen.
Proof. intros (q & r & [Hq Hr]%pairs_seen & [->| ->])%clashing_spec; by apply list_elem_of_fmap_2. Qed.

(** Which paths clash after one more row. *)
Lemma clashing_cons seen row p : clashing (row :: seen) p = true ↔
  clashing seen p = true ∨ (occupies row = true ∧ nested_rows (path3 row) (alive seen) ≠ [] ∧
                            (p = path3 row ∨ p ∈ path3 <$> nested_rows (path3 row) (alive seen))).
Proof.
  rewrite !clashing_spec. cbn [pairs]. set (F := nested_rows _ _). setoid_rewrite elem_of_app. split.
  - intros (q & r & [H|H] & Hp); [|left; eauto 6]. destruct (occupies row); [|by apply elem_of_nil in H].
    apply list_elem_of_fmap in H as (q' & [= -> ->] & Hq). right. split_and!; [done|by intros E; rewrite E in Hq; apply elem_of_nil in Hq|].
    destruct Hp as [->| ->]; [right; by apply list_elem_of_fmap_2|by left].
  - intros [(q & r & H & Hp)|(Ho & Hne & Hp)]; [eauto 6|]. rewrite Ho. destruct Hp as [->|(q & -> & Hq)%list_elem_of_fmap].
    + destruct F as [|q F]; [done|]. exists q, row. split; [|auto]. left. apply list_elem_of_fmap. exists q. split; [done|apply list_elem_of_here].
    + exists q, row. split; [|auto]. left. apply list_elem_of_fmap. eauto.
Qed.

Lemma entry_path_of path b c i e : entry (classifyRow path b c i) = Some e → entry_path e = path.
Proof.
  destruct (classifyRow_cases path b c i) as [| | |r m o _ -> _|]; cbn; try done; try by intros [= <-].
  case_bool_decide; [done|]. by intros [= <-].
Qed.

(** What a row yields, and the state behind it, through the rows the stack stands for. *)
Lemma classify_row_spec T c seen row : c_prefixes c = prefix_of_row T <$> alive seen →
  let F := nested_rows (path3 row) (alive seen) in
  let clash := occupies row && bool_decide (F ≠ []) in
  let e := if clash then Some (clash_entry row) else entry (classified row) in
  let old := if clash then F else [] in
  let kept := if clash then (λ q, mkPrefix (path3 q) (row_stages q) (Some (clash_entry q))) <$> F else prefix_of_row T <$> F in
  classify_row c row =
  ((clash_entry <$> reverse old) ++ option_list e,
   mkClassifying (if occupies row && missing row then mkPrefix (path3 row) (row_stages row) e :: kept else kept) (c_sourceRows c + 1)
     (c_entryCount c + zlen (filter (λ q, map_get T (path3 q) = None) old) + match e with Some _ => 1 | None => 0 end)).
Proof.
  intros Hc F clash e old kept. unfold classify_row. rewrite Hc, pop_prefixes_spec by (done || apply alive_chain). fold F.
  change (stages (row_a row) (row_b row) (row_c row)) with (row_stages row). fold (classified row). change (occupiesPath (classified row)) with (occupies row).
  assert (negb (zlen (prefix_of_row T <$> F) =? 0) = bool_decide (F ≠ [])) as ->.
  { apply eq_bool_prop_intro. rewrite negb_True, bool_decide_spec, Is_true_true, Z.eqb_eq. unfold zlen. rewrite length_fmap. destruct F; simpl; [naive_solver|]. split; [done|lia]. }
  fold clash. fold (clash_entry row). fold e. f_equal; [f_equal|f_equal].
  - subst old. destruct clash; [|done]. by rewrite <- fmap_reverse, <- list_fmap_compose.
  - subst kept. destruct clash; [|done]. by rewrite <- list_fmap_compose.
  - subst old. destruct clash; [|done]. by rewrite filter_fmap_size.
Qed.

Lemma NoDup_fmap_path (l : list tree_row) q r : NoDup (path3 <$> l) → q ∈ l → r ∈ l → path3 q = path3 r → q = r.
Proof.
  intros Hn [i Hi]%list_elem_of_lookup [j Hj]%list_elem_of_lookup E.
  assert (i = j) as ->; [|congruence]. apply (NoDup_lookup _ i j (path3 q) Hn); rewrite list_lookup_fmap, ?Hi, ?Hj; cbn; congruence.
Qed.

Section step.
  Context (seen : list tree_row) (T : jsmap ustring StructuralIntegrationEntry) (c : Classifying) (row : tree_row).
  Context (Hw : walked seen T c) (Hnd : NoDup (path3 <$> row :: seen)).
Local Notation F := (nested_rows (path3 row) (alive seen)).
Local Notation clash := (occupies row && bool_decide (F ≠ [])).

Lemma F_seen q : q ∈ F → q ∈ seen.
Proof. intros [_ H]%list_elem_of_filter. by apply alive_seen. Qed.

Lemma path_new q : q ∈ seen → path3 q ≠ path3 row.
Proof.
  rewrite fmap_cons in Hnd. apply NoDup_cons in Hnd as [H _]. intros Hq E. apply H. rewrite <- E. by apply list_elem_of_fmap_2.
Qed.

Lemma alive_nodup l : NoDup (path3 <$> l) → NoDup (path3 <$> alive l).
Proof.
  induction l as [|r l IH]; [done|]. rewrite fmap_cons. intros [Hr Hl]%NoDup_cons. cbn [alive]. rewrite fmap_app, NoDup_app.
  assert (NoDup (path3 <$> nested_rows (path3 r) (alive l))) as H by (eapply sublist_NoDup; [apply IH, Hl|apply fmap_sublist, sublist_filter]).
  split_and!; [destruct (_ && _); [apply NoDup_singleton|constructor]| |done].
  intros p Hp (q & -> & [_ Hq%alive_seen]%list_elem_of_filter)%list_elem_of_fmap. destruct (_ && _); [|by apply elem_of_nil in Hp].
  apply list_elem_of_singleton in Hp. apply Hr. rewrite <- Hp. by apply list_elem_of_fmap_2.
Qed.

Lemma yields_nodup e : (∀ x, e = Some x → entry_path x = path3 row) →
  NoDup (entry_path <$> (clash_entry <$> reverse (if clash then F else [])) ++ option_list e).
Proof.
  intros He. rewrite fmap_app, NoDup_app, <- list_fmap_compose.
  assert (NoDup (path3 <$> F)) as HF.
  { rewrite fmap_cons in Hnd. apply NoDup_cons in Hnd as [_ H]. eapply sublist_NoDup; [by apply alive_nodup|apply fmap_sublist, sublist_filter]. }
  change (entry_path ∘ clash_entry) with (path3 (A:=TargetEntry) (B:=TargetEntry) (C:=TargetEntry)). split_and!.
  - destruct clash; [|constructor]. by rewrite reverse_Permutation.
  - intros p (q & -> & Hq)%list_elem_of_fmap Hp. destruct clash; [|by apply elem_of_nil in Hq]. rewrite elem_of_reverse in Hq.
    destruct e as [x|]; [|by apply elem_of_nil in Hp]. apply list_elem_of_singleton in Hp. rewrite (He x eq_refl) in Hp. by apply (path_new q), Hp; apply F_seen.
  - destruct e; [apply NoDup_singleton|constructor].
Qed.

Lemma clashing_new : clashing (row :: seen) (path3 row) = clash.
Proof.
  apply eq_bool_prop_intro. rewrite !Is_true_true, clashing_cons, andb_true_iff, bool_decide_eq_true. split; [|naive_solver].
  intros [(q & E & Hq)%clashing_old%list_elem_of_fmap|(? & ? & _)]; [by destruct (path_new q)|done].
Qed.

(** The entries a row yields update the table as the rows ask. *)
Lemma walked_step entries c' : classify_row c row = (entries, c') → walked (row :: seen) (plan_write T entries) c'.
Proof.
  pose proof Hw as [Hst Hrows Hcount HT Hkeys Htab]. rewrite (classify_row_spec T c seen row Hst).
  set (e := if clash then Some (clash_entry row) else entry (classified row)). intros [= <- <-].
  assert (∀ x, e = Some x → entry_path x = path3 row) as He.
  { intros x Hx. subst e. destruct clash; [by injection Hx as <-|]. by apply entry_path_of in Hx. }
  pose proof (yields_nodup e He) as Hys. set (es := _ ++ option_list e) in *.
  assert (∀ p, p ∈ entry_path <$> es ↔ (clash = true ∧ p ∈ path3 <$> F) ∨ (is_Some e ∧ p = path3 row)) as Hpaths.
  { intros p. subst es. rewrite fmap_app, elem_of_app, <- list_fmap_compose. change (entry_path ∘ clash_entry) with (path3 (A:=TargetEntry) (B:=TargetEntry) (C:=TargetEntry)).
    apply Morphisms_Prop.or_iff_morphism.
    - destruct clash; [|split; [by intros ?%elem_of_nil|by intros [? _]]]. rewrite reverse_Permutation. tauto.
    - destruct e as [x|]; cbn [option_list fmap list_fmap]; [|split; [by intros ?%elem_of_nil|by intros [[? ?] _]]].
      change (entry_path <$> option_list (Some x)) with [entry_path x]. rewrite list_elem_of_singleton, (He x eq_refl).
      split; [by eauto|by intros [_ ?]]. }
  assert (∀ q, q ∈ F → clash = true → map_get (plan_write T es) (path3 q) = Some (clash_entry q)) as HF.
  { intros q Hq Hc. apply (plan_write_get es (clash_entry q) T Hys). subst es. rewrite Hc. apply elem_of_app. left.
    apply list_elem_of_fmap_2. by rewrite elem_of_reverse. }
  assert (map_get (plan_write T es) (path3 row) = e) as Hrow.
  { destruct e as [x|] eqn:Ee.
    - rewrite <- (He x eq_refl). apply plan_write_get; [done|]. apply elem_of_app. right. apply list_elem_of_here.
    - rewrite plan_write_other; [|rewrite Hpaths; intros [[_ (q & E & Hq)%list_elem_of_fmap]|[[? ?] _]]; [by apply (path_new q); [apply F_seen|]|done]].
      apply map_get_None. intros (q & E & Hq)%Hkeys%list_elem_of_fmap. by apply (path_new q). }
  assert (∀ p, p ≠ path3 row → (clash = true → p ∉ path3 <$> F) → map_get (plan_write T es) p = map_get T p) as Hold.
  { intros p Hp Hc. apply plan_write_other. rewrite Hpaths. intros [[? ?]|[_ ?]]; [by apply Hc|done]. }
  split.
  - cbn [alive c_prefixes]. rewrite fmap_app. fold F.
    assert ((if clash then (λ q, mkPrefix (path3 q) (row_stages q) (Some (clash_entry q))) <$> F else prefix_of_row T <$> F) =
            prefix_of_row (plan_write T es) <$> F) as ->.
    { destruct clash eqn:Ec; apply list_fmap_ext; intros i q Hq%list_elem_of_lookup_2; unfold prefix_of_row; [by rewrite HF|].
      rewrite Hold; [done|by apply path_new, F_seen|done]. }
    destruct (occupies row && missing row); [|done]. cbn [app fmap list_fmap]. unfold prefix_of_row at 2. by rewrite Hrow.
  - cbn. rewrite zlen_cons, Hrows. lia.
  - cbn [c_entryCount]. rewrite plan_write_size, Hcount by done. subst es. rewrite filter_app, zlen_app.
    rewrite filter_fmap_size, filter_reverse_size. 
    match goal with |- _ = zlen T + (?m + _) => change m with (zlen (filter (λ q, map_get T (path3 q) = None) (if clash then F else []))) end.
    destruct e as [x|] eqn:Ee; [change (option_list (Some x)) with [x]|change (zlen (filter _ (option_list None))) with 0; lia].
    rewrite filter_cons, decide_True; [change (zlen (x :: filter _ [])) with 1; lia|].
    rewrite (He x eq_refl). apply map_get_None. intros (q & E & Hq)%Hkeys%list_elem_of_fmap. by apply (path_new q).
  - by apply plan_write_nodup.
  - intros p. rewrite plan_write_keys, Hpaths, fmap_cons, elem_of_cons. intros [?%Hkeys|[[_ (q & -> & Hq%F_seen)%list_elem_of_fmap]|[_ ->]]]; [by right| |by left].
    right. by apply list_elem_of_fmap_2.
  - intros r [->|Hr]%elem_of_cons; unfold row_entry.
    + rewrite Hrow. subst e. by rewrite clashing_new.
    + destruct (decide (clash = true ∧ path3 r ∈ path3 <$> F)) as [[Hc (q & Eq & Hq)%list_elem_of_fmap]|Hno].
      * assert (r = q) as ->.
        { rewrite fmap_cons in Hnd. apply NoDup_cons in Hnd as [_ Hn]. apply (NoDup_fmap_path seen); auto using F_seen. }
        rewrite HF by done. rewrite (proj2 (clashing_cons seen row (path3 q))); [done|]. right.
        apply andb_prop in Hc as [Ho Hne%bool_decide_eq_true]. split_and!; [done..|]. right. by apply list_elem_of_fmap_2.
      * rewrite Hold, Htab; [|done|by apply path_new|naive_solver]. unfold row_entry.
        assert (clashing (row :: seen) (path3 r) = clashing seen (path3 r)) as ->; [|done].
        apply eq_bool_prop_intro. rewrite !Is_true_true, clashing_cons. split; [|by left]. intros [?|(Ho & Hne & [E|Hp])]; [done|by apply path_new in E|].
        destruct Hno. split; [|done]. by rewrite Ho, bool_decide_eq_true_2.
Qed.

End step.

Lemma plan_write_app T a b : plan_write T (a ++ b) = plan_write (plan_write T a) b.
Proof. apply foldl_app. Qed.

Definition too_many_rows (maxRows : Z) : jserror :=
  GitError (js "E2BIG") (js "integration structure exceeds " ++ number_string maxRows ++ js " source rows").

(** The whole walk: it throws exactly past the limit. *)
Lemma classify_rows_walked maxRows rows : ∀ seen T c, walked seen T c → NoDup (path3 <$> reverse rows ++ seen) →
  if decide (zlen seen + zlen rows <= maxRows ∨ rows = [])
  then ∃ entries c', classify_rows maxRows c rows = Ok (entries, c') ∧ walked (reverse rows ++ seen) (plan_write T entries) c'
  else classify_rows maxRows c rows = Throw (too_many_rows maxRows).
Proof.
  induction rows as [|row rows IH]; intros seen T c Hw Hnd.
  { rewrite decide_True by auto. exists [], c. done. }
  cbn [classify_rows]. rewrite (walked_rows _ _ _ Hw). rewrite reverse_cons, <- app_assoc in *. cbn [app] in *.
  pose proof (zlen_nonneg rows) as Hpos. rewrite zlen_cons.
  assert (NoDup (path3 <$> row :: seen)) as Hnd' by (rewrite fmap_app in Hnd; by apply NoDup_app in Hnd as (_ & _ & ?)).
  destruct (maxRows <=? zlen seen) eqn:E; zbool; [by rewrite decide_False by (intros [?|?]; [lia|done])|].
  destruct (classify_row c row) as [es c1] eqn:Ec. pose proof (walked_step seen T c row Hw Hnd' es c1 Ec) as Hw1.
  specialize (IH (row :: seen) (plan_write T es) c1 Hw1 Hnd). rewrite zlen_cons in IH. case_decide as Hd.
  - destruct IH as (later & c2 & Hc2 & Hw2). rewrite Hc2. cbn [mbind outcome_bind].
    rewrite decide_True; [exists (es ++ later), c2; split; [done|by rewrite plan_write_app]|]. left. destruct Hd as [?| ->]; [lia|]. change (zlen []) with 0. lia.
  - rewrite IH. cbn [mbind outcome_bind]. rewrite decide_False; [done|]. intros [?|?]; [apply Hd; left; lia|done].
Qed.

(** ** Which files clash *)

Lemma alive_spec seen q : q ∈ alive seen ↔ ∃ newer older, seen = newer ++ q :: older ∧ occupies q = true ∧ missing q = true ∧
  Forall (λ s, isNestedPath (path3 q) (path3 s) = true) newer.
Proof.
  induction seen as [|r seen IH].
  { split; [by intros ?%elem_of_nil|]. by intros ([] & ? & ? & _). }
  cbn [alive]. unfold nested_rows. rewrite elem_of_app, list_elem_of_filter, IH. split.
  - intros [H|(Hn & newer & older & -> & ? & ? & ?)].
    + destruct (occupies r && missing r) eqn:E; [|by apply elem_of_nil in H]. apply list_elem_of_singleton in H as ->. apply andb_prop in E as [??]. by exists [], seen.
    + exists (r :: newer), older. split_and!; try done. by constructor.
  - intros ([|r' newer] & older & E & Ho & Hm & Hall); injection E as -> ->.
    + left. rewrite Ho, Hm. apply list_elem_of_here.
    + right. apply Forall_cons in Hall as [? ?]. split; [done|]. eauto 7.
Qed.

Lemma pairs_spec seen q r : (q, r) ∈ pairs seen ↔ ∃ n1 n2 older, seen = n1 ++ r :: n2 ++ q :: older ∧ occupies r = true ∧ occupies q = true ∧
  missing q = true ∧ isNestedPath (path3 q) (path3 r) = true ∧ Forall (λ s, isNestedPath (path3 q) (path3 s) = true) n2.
Proof.
  induction seen as [|s seen IH].
  { split; [by intros ?%elem_of_nil|]. by intros ([] & ? & ? & ? & _). }
  cbn [pairs]. rewrite elem_of_app, IH. split.
  - intros [H|(n1 & n2 & older & -> & H)]; [|by exists (s :: n1), n2, older].
    destruct (occupies s) eqn:Es; [|by apply elem_of_nil in H]. apply list_elem_of_fmap in H as (q' & [= -> ->] & H).
    apply list_elem_of_filter in H as [Hn (n2 & older & -> & ? & ? & ?)%alive_spec]. by exists [], n2, older.
  - intros ([|s' n1] & n2 & older & E & Hr & Hq & Hm & Hn & Hall); injection E as -> ->.
    + left. rewrite Hr. apply list_elem_of_fmap. exists q. split; [done|]. apply list_elem_of_filter. split; [done|]. apply alive_spec. by exists n2, older.
    + right. by exists n1, n2, older.
Qed.

Lemma below_lt q p : units p → below q p → path_lt q p.
Proof.
  intros Hu [r ->]. pose proof Hu as [Hq Hr]%Forall_app. unfold path_lt. rewrite comparePaths_points by done.
  rewrite points_app_boundary by done. pose proof (points_app_boundary [SLASH] r) as Hs.
  rewrite <- (app_nil_r (points q)) at 1. rewrite lex_compare_app_same. destruct (points (SLASH :: r)) eqn:E; [|done].
  apply Forall_cons in Hr as [H1 H2]. by rewrite (points_step SLASH r) in E by (constructor; done).
Qed.

Section ordered.
  Context (rows : list tree_row) (Hs : StronglySorted (λ x y, path_lt (path3 x) (path3 y)) rows)
    (Hu : Forall (λ r, units (path3 r) ∧ tree_path (path3 r)) rows).

Lemma rows_units r : r ∈ rows → units (path3 r).
Proof. rewrite Forall_forall in Hu. intros Hr. by apply Hu. Qed.

Lemma rows_nested q r : q ∈ rows → r ∈ rows → isNestedPath (path3 q) (path3 r) = true ↔ below (path3 q) (path3 r).
Proof. rewrite Forall_forall in Hu. intros Hq Hr. apply isNestedPath_below; by apply Hu. Qed.

Lemma rows_irrefl r : r ∈ rows → ¬ path_lt (path3 r) (path3 r).
Proof. intros Hr%rows_units. unfold path_lt. rewrite comparePaths_refl by done. lia. Qed.

Lemma rows_asym q r : q ∈ rows → r ∈ rows → path_lt (path3 q) (path3 r) → ¬ path_lt (path3 r) (path3 q).
Proof. intros Hq Hr H1 H2. apply (rows_irrefl q Hq). by apply (path_lt_trans _ (path3 r)); [apply rows_units..| |]. Qed.

(** Every two rows of a sorted list have their places. *)
Lemma sorted_split a b c : rows = a ++ b ++ c → ∀ x y, (x ∈ a ∧ y ∈ b ++ c) ∨ (x ∈ a ++ b ∧ y ∈ c) → path_lt (path3 x) (path3 y).
Proof.
  intros E x y H. rewrite E in Hs. apply StronglySorted_app in Hs as (H1 & H2 & H3).
  destruct H as [[Hx Hy]|[[Hx|Hx]%elem_of_app Hy]]; [by apply H1| |].
  - apply H1; [done|]. apply elem_of_app. by right.
  - apply StronglySorted_app in H3 as (H3 & _). by apply H3.
Qed.

(** [r] is below [q], and so is every row between them. *)
Definition reaches_row (q r : tree_row) : Prop :=
  below (path3 q) (path3 r) ∧ ∀ s, s ∈ rows → path_lt (path3 q) (path3 s) → path_lt (path3 s) (path3 r) → below (path3 q) (path3 s).

Lemma pairs_order q r : (q, r) ∈ pairs (reverse rows) ↔
  q ∈ rows ∧ r ∈ rows ∧ occupies r = true ∧ occupies q = true ∧ missing q = true ∧ reaches_row q r.
Proof.
  rewrite pairs_spec. split.
  - intros (n1 & n2 & older & E & Hr & Hq & Hm & Hn & Hall). apply (f_equal reverse) in E. rewrite reverse_involutive in E.
    rewrite !reverse_app, !reverse_cons, !reverse_app, !reverse_cons, <- !app_assoc in E. cbn [app] in E.
    assert (q ∈ rows) as Hqr by (rewrite E; set_solver). assert (r ∈ rows) as Hrr by (rewrite E; set_solver).
    split_and!; try done. split; [by apply rows_nested|]. intros s Hsr H1 H2. apply rows_nested; [done..|].
    pose proof Hsr as Hin. rewrite E in Hin. rewrite Forall_forall in Hall. apply elem_of_app in Hin as [Hin|[->|[Hin|Hin]%elem_of_app]%elem_of_cons].
    + destruct (rows_asym q s Hqr Hsr H1). apply (sorted_split (reverse older) [] _ E). left. split; [done|apply list_elem_of_here].
    + by destruct (rows_irrefl q).
    + apply Hall. by rewrite elem_of_reverse in Hin.
    + apply elem_of_cons in Hin as [->|Hin]; [by destruct (rows_irrefl r)|]. destruct (rows_asym s r Hsr Hrr H2).
      apply (sorted_split (reverse older ++ q :: reverse n2) [r] (reverse n1)); [by rewrite <- app_assoc|]. right.
      split; [apply elem_of_app; right; apply list_elem_of_here|done].
  - intros (Hqr & Hrr & Hr & Hq & Hm & Hb & Hall). pose proof (below_lt _ _ (rows_units r Hrr) Hb) as Hlt.
    apply list_elem_of_split in Hqr as Hsp. destruct Hsp as (a & b & E). pose proof Hrr as Hin. rewrite E in Hin.
    apply elem_of_app in Hin as [Hin|[->|Hin]%elem_of_cons].
    + destruct (rows_asym q r Hqr Hrr Hlt). apply (sorted_split a [] _ E). left. split; [done|apply list_elem_of_here].
    + by destruct (below_irrefl (path3 q)).
    + apply list_elem_of_split in Hin as (m & d & ->). exists (reverse d), (reverse m), (reverse a). split_and!; try done.
      * by rewrite E, reverse_app, reverse_cons, reverse_app, reverse_cons, <- !app_assoc.
      * by apply rows_nested.
      * rewrite Forall_forall. intros s. rewrite elem_of_reverse. intros Hs'. assert (s ∈ rows) as Hsr by (rewrite E; set_solver).
        apply rows_nested; [done..|]. apply Hall; [done| |].
        -- apply (sorted_split a [q] (m ++ r :: d)); [by rewrite E|]. right. split; [set_solver|]. set_solver.
        -- apply (sorted_split (a ++ q :: m) [] (r :: d)); [by rewrite E, <- app_assoc|]. left. split; [set_solver|apply list_elem_of_here].
Qed.

End ordered.

(** * The plan of three trees *)

(** A tree as the walk yields it: sorted, with names for components, no path below another. *)
Record tree_ok (l : list TargetEntry) : Prop := {
  tree_sorted : wf_ascending t_path l;
  tree_paths : Forall (λ e, tree_path (t_path e)) l;
  tree_leaves e e' : e ∈ l → e' ∈ l → ¬ below (t_path e) (t_path e')
}.

Definition at_path (l : list TargetEntry) (p : ustring) : option TargetEntry := head (filter (λ e, t_path e = p) l).

Lemma at_path_some l p e : wf_ascending t_path l → at_path l p = Some e ↔ e ∈ l ∧ t_path e = p.
Proof.
  intros [Hwf Hs]. unfold at_path. split.
  - destruct (filter _ l) as [|x k] eqn:E; [done|]. intros [= ->]. assert (e ∈ filter (λ e, t_path e = p) l) as H by (rewrite E; apply list_elem_of_here).
    by apply list_elem_of_filter in H as [? ?].
  - intros [He Hp]. assert (e ∈ filter (λ e, t_path e = p) l) as H by by apply list_elem_of_filter.
    destruct (filter _ l) as [|x k] eqn:E; [by apply elem_of_nil in H|]. cbn. f_equal.
    assert (x ∈ filter (λ e, t_path e = p) l) as Hx by (rewrite E; apply list_elem_of_here). apply list_elem_of_filter in Hx as [Ex Hx].
    rewrite Forall_forall in Hwf. apply (sorted_same t_path l x e); auto.
    + by apply Hwf.
    + by apply Hwf.
    + rewrite Ex, Hp. apply comparePaths_refl. rewrite <- Hp. by apply Hwf.
Qed.

Lemma at_path_none l p : at_path l p = None ↔ p ∉ t_path <$> l.
Proof.
  unfold at_path. split.
  - intros E (e & -> & He)%list_elem_of_fmap. assert (e ∈ filter (λ x, t_path x = t_path e) l) as H by by apply list_elem_of_filter.
    destruct (filter _ l); [by apply elem_of_nil in H|done].
  - intros H. destruct (filter _ l) as [|x k] eqn:E; [done|]. assert (x ∈ filter (λ e, t_path e = p) l) as Hx by (rewrite E; apply list_elem_of_here).
    apply list_elem_of_filter in Hx as [Ex Hx]. destruct H. rewrite <- Ex. by apply list_elem_of_fmap_2.
Qed.

(** A row of a merge shows something. *)
Lemma merged3_present {A B C} (keyA : A → ustring) (keyB : B → ustring) (keyC : C → ustring) a b c rows :
  merged3 keyA keyB keyC a b c rows → ∀ r, r ∈ rows → is_Some (row_a r) ∨ is_Some (row_b r) ∨ is_Some (row_c r).
Proof.
  induction 1 as [|a b c rows p Hp Hne _ IH]; intros r Hr; [by apply elem_of_nil in Hr|]. apply elem_of_cons in Hr as [->|Hr]; [|auto]. cbn.
  unfold next_path in Hp. destruct (row_path_in (keyA <$> head a) (keyB <$> head b) (keyC <$> head c)) as [E|[E|E]].
  - destruct a, b, c; simpl in *; eauto. lia.
  - left. unfold pick, takes. rewrite bool_decide_eq_true_2 by congruence. destruct a; [done|]. by eexists.
  - right. left. unfold pick, takes. rewrite bool_decide_eq_true_2 by congruence. destruct b; [done|]. by eexists.
  - right. right. unfold pick, takes. rewrite bool_decide_eq_true_2 by congruence. destruct c; [done|]. by eexists.
Qed.

Section trees.
  Context (base current incoming : list TargetEntry).

(** The entries of a path in the three trees, and what is decided for it alone. *)
Definition known (p : ustring) : Prop := p ∈ t_path <$> base ++ current ++ incoming.
Definition decided (p : ustring) : ClassifiedRow := classifyRow p (at_path base p) (at_path current p) (at_path incoming p).
Definition occupied (p : ustring) : Prop := occupiesPath (decided p) = true.

(** [p] is below the file [q], and no path of the trees stands between them that is not below [q]. *)
Definition reaches (q p : ustring) : Prop := below q p ∧ ∀ s, known s → path_lt q s → path_lt s p → below q s.

(** A file is left at [p], and one at a path above or below it that the walk connects with it. *)
Definition clashes (p : ustring) : Prop := occupied p ∧ ∃ q, occupied q ∧ (reaches q p ∨ reaches p q).

Context (Hb : tree_ok base) (Hc : tree_ok current) (Hi : tree_ok incoming).

Lemma known_sides p : known p ↔ p ∈ t_path <$> base ∨ p ∈ t_path <$> current ∨ p ∈ t_path <$> incoming.
Proof. unfold known. by rewrite !fmap_app, !elem_of_app. Qed.

Lemma occupied_known p : occupied p → known p.
Proof.
  unfold occupied, decided. rewrite known_sides. destruct (at_path base p) eqn:E1; [|destruct (at_path current p) eqn:E2; [|destruct (at_path incoming p) eqn:E3; [|done]]]; intros _.
  - left. destruct (decide (p ∈ t_path <$> base)) as [|H%at_path_none]; [done|congruence].
  - right. left. destruct (decide (p ∈ t_path <$> current)) as [|H%at_path_none]; [done|congruence].
  - right. right. destruct (decide (p ∈ t_path <$> incoming)) as [|H%at_path_none]; [done|congruence].
Qed.

(** The rows of the joined walk are the paths of the trees, with what each tree has there. *)
Record rows_of (rows : list tree_row) : Prop := {
  rows_sorted : StronglySorted (λ x y, path_lt (path3 x) (path3 y)) rows;
  rows_known p : known p ↔ p ∈ path3 <$> rows;
  rows_ok r : r ∈ rows → units (path3 r) ∧ tree_path (path3 r);
  rows_at r : r ∈ rows → row_a r = at_path base (path3 r) ∧ row_b r = at_path current (path3 r) ∧ row_c r = at_path incoming (path3 r)
}.

Lemma side_at (l : list TargetEntry) p (o : option TargetEntry) : tree_ok l → (∀ x, x ∈ l → t_path x = p → o = Some x) →
  (∀ x, o = Some x → x ∈ l ∧ t_path x = p) → o = at_path l p.
Proof.
  intros Hl H1 H2. destruct o as [x|].
  - symmetry. apply at_path_some; [apply Hl|auto].
  - symmetry. apply at_path_none. intros (x & -> & Hx)%list_elem_of_fmap. by specialize (H1 x Hx eq_refl).
Qed.

Lemma joined_rows : ∃ rows pa pb pc, joinSorted3 t_path t_path t_path base current incoming = Some (rows, pa, pb, pc) ∧ rows_of rows.
Proof.
  destruct (joinSorted3_merged t_path t_path t_path base current incoming) as (rows & pa & pb & pc & E & Hm & _).
  pose proof (merged3_conserve _ _ _ _ _ _ _ Hm) as (Ea & Eb & Ec).
  pose proof (merged3_sorted _ _ _ _ _ _ _ Hm (tree_sorted _ Hb) (tree_sorted _ Hc) (tree_sorted _ Hi)) as [Hs Hu].
  pose proof (merged3_keys _ _ _ _ _ _ _ Hm) as Hk. rewrite Forall_forall in Hk.
  pose proof (merged3_shows _ _ _ _ _ _ _ Hm (tree_sorted _ Hb) (tree_sorted _ Hc) (tree_sorted _ Hi)) as Hsh. rewrite Forall_forall in Hsh.
  exists rows, pa, pb, pc. split; [done|].
  assert (∀ r, r ∈ rows → is_Some (row_a r) ∨ is_Some (row_b r) ∨ is_Some (row_c r)) as Hpres by (intros r; by apply (merged3_present _ _ _ _ _ _ _ Hm)).
  assert (∀ r, r ∈ rows → row_a r = at_path base (path3 r) ∧ row_b r = at_path current (path3 r) ∧ row_c r = at_path incoming (path3 r)) as Hat.
  { intros r Hr. destruct (Hk r Hr) as (K1 & K2 & K3), (Hsh r Hr) as (S1 & S2 & S3). split_and!; (apply side_at; [done..|intros x Hx; split; [|auto]]).
    - rewrite <- Ea. apply list_elem_of_omap. eauto.
    - rewrite <- Eb. apply list_elem_of_omap. eauto.
    - rewrite <- Ec. apply list_elem_of_omap. eauto. }
  assert (∀ r, r ∈ rows → known (path3 r)) as Hknown.
  { intros r Hr. rewrite known_sides. destruct (Hat r Hr) as (A1 & A2 & A3). destruct (Hpres r Hr) as [[x Hx]|[[x Hx]|[x Hx]]].
    - left. rewrite Hx in A1. symmetry in A1. apply at_path_some in A1 as [A1 <-]; [by apply list_elem_of_fmap_2|apply Hb].
    - right. left. rewrite Hx in A2. symmetry in A2. apply at_path_some in A2 as [A2 <-]; [by apply list_elem_of_fmap_2|apply Hc].
    - right. right. rewrite Hx in A3. symmetry in A3. apply at_path_some in A3 as [A3 <-]; [by apply list_elem_of_fmap_2|apply Hi]. }
  split; [done| | |done].
  - intros p. split; [|intros (r & -> & Hr)%list_elem_of_fmap; auto]. rewrite known_sides.
    assert (∀ (l : list TargetEntry) (item : tree_row → option TargetEntry), omap item rows = l → (∀ r x, r ∈ rows → item r = Some x → t_path x = path3 r) →
      p ∈ t_path <$> l → p ∈ path3 <$> rows) as Hside.
    { intros l item <- Hitem (x & -> & (r & Hr & Hx)%list_elem_of_omap)%list_elem_of_fmap. rewrite (Hitem r x Hr Hx). by apply list_elem_of_fmap_2. }
    intros [H|[H|H]]; [apply (Hside _ row_a Ea)|apply (Hside _ row_b Eb)|apply (Hside _ row_c Ec)]; try done; intros r x Hr; by apply Hk.
  - intros r Hr. rewrite Forall_forall in Hu. split; [by apply Hu|]. apply Hknown in Hr. apply known_sides in Hr.
    destruct Hr as [(x & -> & Hx)%list_elem_of_fmap|[(x & -> & Hx)%list_elem_of_fmap|(x & -> & Hx)%list_elem_of_fmap]].
    + pose proof (tree_paths _ Hb) as H. rewrite Forall_forall in H. auto.
    + pose proof (tree_paths _ Hc) as H. rewrite Forall_forall in H. auto.
    + pose proof (tree_paths _ Hi) as H. rewrite Forall_forall in H. auto.
Qed.

(** A row with a path below it is not in all three trees. *)
Lemma below_missing rows q r : rows_of rows → q ∈ rows → r ∈ rows → below (path3 q) (path3 r) → missing q = true.
Proof.
  intros Hr Hq Hrr Hbelow. unfold missing. apply negb_true_iff, not_true_iff_false. rewrite !andb_true_iff, !bool_decide_eq_true. intros [[[a Ha] [b Hb']] [c Hc']].
  destruct (rows_at rows Hr q Hq) as (A1 & A2 & A3). rewrite Ha in A1. rewrite Hb' in A2. rewrite Hc' in A3. symmetry in A1, A2, A3.
  apply at_path_some in A1 as [A1 E1]; [|apply Hb]. apply at_path_some in A2 as [A2 E2]; [|apply Hc]. apply at_path_some in A3 as [A3 E3]; [|apply Hi].
  assert (known (path3 r)) as Hk by (apply (rows_known rows Hr); by apply list_elem_of_fmap_2). apply known_sides in Hk.
  destruct Hk as [(x & Ex & Hx)%list_elem_of_fmap|[(x & Ex & Hx)%list_elem_of_fmap|(x & Ex & Hx)%list_elem_of_fmap]]; rewrite Ex in Hbelow.
  - rewrite <- E1 in Hbelow. by apply (tree_leaves _ Hb a x).
  - rewrite <- E2 in Hbelow. by apply (tree_leaves _ Hc b x).
  - rewrite <- E3 in Hbelow. by apply (tree_leaves _ Hi c x).
Qed.

Lemma row_decided rows r : rows_of rows → r ∈ rows → classified r = decided (path3 r).
Proof. intros Hr Hin. unfold classified, decided. by destruct (rows_at rows Hr r Hin) as (-> & -> & ->). Qed.

Lemma rows_all rows : rows_of rows → Forall (λ r, units (path3 r) ∧ tree_path (path3 r)) rows.
Proof. intros Hr. apply Forall_forall. apply (rows_ok rows Hr). Qed.

Lemma row_reaches rows q r : rows_of rows → reaches_row rows q r ↔ reaches (path3 q) (path3 r).
Proof.
  intros Hr. unfold reaches_row, reaches. apply and_iff_compat_l. split.
  - intros H s (x & -> & Hx)%(rows_known rows Hr)%list_elem_of_fmap. auto.
  - intros H s Hs. apply H. apply (rows_known rows Hr). by apply list_elem_of_fmap_2.
Qed.

(** The walk notices exactly the clashes. *)
Lemma clashing_clashes rows r : rows_of rows → r ∈ rows → clashing (reverse rows) (path3 r) = true ↔ clashes (path3 r).
Proof.
  intros Hr Hin. rewrite clashing_spec. unfold clashes.
  assert (∀ q s, (q, s) ∈ pairs (reverse rows) ↔ q ∈ rows ∧ s ∈ rows ∧ occupied (path3 s) ∧ occupied (path3 q) ∧ reaches (path3 q) (path3 s)) as Hpairs.
  { intros q s. rewrite (pairs_order rows (rows_sorted rows Hr) (rows_all rows Hr)), (row_reaches rows q s Hr). unfold occupied, occupies. split.
    - intros (Hq & Hs & H1 & H2 & _ & H3). rewrite (row_decided rows q Hr Hq) in H2. rewrite (row_decided rows s Hr Hs) in H1. done.
    - intros (Hq & Hs & H1 & H2 & H3). rewrite (row_decided rows q Hr Hq), (row_decided rows s Hr Hs). split_and!; try done. apply (below_missing rows q s); [done..|exact (proj1 H3)]. }
  split.
  - intros (q & s & (Hq & Hs & H1 & H2 & H3)%Hpairs & [->| ->]); split; eauto.
  - intros (Ho & p & Hp & Hre). pose proof Hp as (q & -> & Hq)%occupied_known%(rows_known rows Hr)%list_elem_of_fmap.
    destruct Hre as [Hre|Hre]; [exists q, r|exists r, q]; rewrite Hpairs; auto 6.
Qed.
End trees.

Lemma rows_nodup b c i rows : rows_of b c i rows → NoDup (path3 <$> rows).
Proof.
  intros Hr. pose proof (rows_sorted _ _ _ _ Hr) as Hs. pose proof (rows_ok _ _ _ _ Hr) as Hok. clear Hr.
  induction Hs as [|r rows _ IH Hall]; [constructor|].
  rewrite fmap_cons. constructor; [|apply IH; intros; apply Hok; by right]. intros (q & Eq & Hq)%list_elem_of_fmap.
  rewrite Forall_forall in Hall. specialize (Hall q Hq). unfold path_lt in Hall. rewrite <- Eq, comparePaths_refl in Hall; [lia|].
  apply Hok. by left.
Qed.

Lemma rows_size b c i rows : rows_of b c i rows → zlen (remove_dups (t_path <$> b ++ c ++ i)) = zlen rows.
Proof.
  intros Hr. unfold zlen. rewrite <- (length_fmap path3 rows). f_equal. apply Permutation_length, NoDup_Permutation.
  - apply NoDup_remove_dups.
  - by apply (rows_nodup b c i).
  - intros p. rewrite elem_of_remove_dups. apply (rows_known _ _ _ _ Hr).
Qed.

(** What the plan has for a path of the walk, and for any other. *)
Lemma walked_plan b c i rows T k : tree_ok b → tree_ok c → tree_ok i → rows_of b c i rows → walked (reverse rows) T k → ∀ p,
  (clashes b c i p → map_get T p = Some (ConflictStructuralEntry p file_directory (stages (at_path b p) (at_path c p) (at_path i p)))) ∧
  (¬ clashes b c i p → map_get T p = entry (decided b c i p)).
Proof.
  intros Hb Hc Hi Hr Hw p. destruct (decide (p ∈ path3 <$> rows)) as [(r & -> & Hin)%list_elem_of_fmap|Hno].
  - rewrite (walked_table _ _ _ Hw r) by by apply elem_of_reverse. unfold row_entry.
    pose proof (clashing_clashes b c i Hb Hc Hi rows r Hr Hin) as Hcl. rewrite (row_decided b c i rows r Hr Hin).
    unfold row_stages. destruct (rows_at _ _ _ _ Hr r Hin) as (-> & -> & ->). rewrite <- Hcl.
    by destruct (clashing (reverse rows) (path3 r)).
  - assert (¬ known b c i p) as Hk by by rewrite (rows_known _ _ _ _ Hr). split.
    + intros [Ho _]. by apply occupied_known in Ho.
    + intros _. rewrite known_sides in Hk. unfold decided.
      assert (at_path b p = None ∧ at_path c p = None ∧ at_path i p = None) as (-> & -> & ->) by (rewrite !at_path_none; tauto).
      apply map_get_None. intros Hp%(walked_keys _ _ _ Hw). rewrite fmap_reverse, elem_of_reverse in Hp. done.
Qed.

(** The walk of three trees, as a whole. *)
Lemma structure_walk `{IntegrationSource} (base current incoming : option ustring) maxRows b c i :
  current ≠ incoming → base ≠ incoming → 0 <= maxRows →
  tree_rows base = Ok b → tree_rows current = Ok c → tree_rows incoming = Ok i →
  tree_ok b → tree_ok c → tree_ok i → ∃ rows, rows_of b c i rows ∧
  if decide (zlen rows <= maxRows)
  then ∃ entries k, classifyIntegrationStructureOwned base current incoming maxRows =
         Some (Ok (mkPlan (plan_write [] entries) (c_sourceRows k) (c_entryCount k))) ∧
       walked (reverse rows) (plan_write [] entries) k
  else classifyIntegrationStructureOwned base current incoming maxRows = Some (Throw (too_many_rows maxRows)).
Proof.
  intros Hci Hbi Hmax Eb Ec Ei Hb Hc Hi. destruct (joined_rows b c i Hb Hc Hi) as (rows & pa & pb & pc & E & Hr). exists rows. split; [done|].
  unfold classifyIntegrationStructureOwned. rewrite !bool_decide_eq_false_2 by done. cbn [orb]. rewrite Eb, Ec, Ei. cbn [mbind outcome_bind]. rewrite E.
  pose proof (classify_rows_walked maxRows rows [] [] classifying_start walked_start) as Hw. rewrite app_nil_r in Hw.
  specialize (Hw ltac:(rewrite reverse_Permutation; by apply (rows_nodup b c i))). change (zlen []) with 0 in Hw. rewrite Z.add_0_l in Hw. case_decide as Hd.
  - destruct Hw as (entries & k & -> & Hw). rewrite decide_True; [by exists entries, k|]. destruct Hd as [?| ->]; [done|]. by change (zlen []) with 0.
  - by rewrite decide_False, Hw by tauto.
Qed.

(** ** Concrete trees *)

#[export] Instance nice_dec seg : Decision (nice seg).
Proof. unfold nice. apply _. Defined.
#[export] Instance good_dec seg : Decision (good seg).
Proof. unfold good. apply _. Defined.

Definition tree_ok_b (l : list TargetEntry) : bool :=
  forallb (λ x, units_b (t_path x) && isWellFormed (t_path x)) l && sorted_b t_path l &&
  forallb (λ x, bool_decide (Forall good (split SLASH (t_path x)))) l &&
  forallb (λ x, forallb (λ y, negb (isNestedPath (t_path x) (t_path y))) l) l.

Lemma tree_ok_by_compute l : tree_ok_b l = true → tree_ok l.
Proof.
  intros [[Ha Hp]%andb_prop Hl]%andb_prop. assert (Forall (λ e, tree_path (t_path e)) l) as Hpaths.
  { apply Forall_forall. rewrite forallb_forall in Hp. intros x Hx%list_elem_of_In. by apply Hp, bool_decide_eq_true in Hx. }
  split; [by apply wf_ascending_by_compute|done|]. intros e e' He He'. rewrite Forall_forall in Hpaths. rewrite <- isNestedPath_below by auto.
  rewrite forallb_forall in Hl. apply list_elem_of_In in He, He'. apply Hl in He. rewrite forallb_forall in He. apply He, negb_true_iff in He'. congruence.
Qed.

Lemma below_by_compute root rest path : str_eqb path (root ++ SLASH :: rest) = true → below root path.
Proof. intros E%bool_decide_eq_true. by exists rest. Qed.

(** The known paths of concrete trees, one by one. *)
Lemma known_each b c i (P : ustring → Prop) : Forall P (t_path <$> b ++ c ++ i) → ∀ p, known b c i p → P p.
Proof. intros H p Hp. rewrite Forall_forall in H. by apply H. Qed.

Ltac each_known :=
  match goal with |- ∀ s, known ?b ?c ?i s → @?P s => apply (known_each b c i P) end;
  match goal with |- Forall _ ?l => let l' := eval vm_compute in l in change l with l' end;
  repeat match goal with |- Forall _ (_ :: _) => apply Forall_cons_2 end; [..|apply Forall_nil_2].

(** The store of the witnesses: the first tree has [k] and [n]; the second changes [n] and adds
    the files [a] and [b]; the third changes [n] and adds [a.txt], [a/b] and [b/c]. *)
Definition example_file (path : string) (oid : string) : TargetEntry := mkTarget (js path) MODE_FILE (js oid).

#[local] Instance example_source : IntegrationSource := {
  objectInfo := λ _, Ok [];
  walkTree := λ oid,
    Ok (if str_eqb oid (js "base") then [example_file "k" "1"; example_file "n" "1"]
    else if str_eqb oid (js "current") then [example_file "a" "2"; example_file "b" "2"; example_file "k" "1"; example_file "n" "2"]
    else [example_file "a.txt" "3"; example_file "a/b" "3"; example_file "b/c" "3"; example_file "k" "1"; example_file "n" "3"])
}.

Definition example_rows (oid : string) : list TargetEntry := match tree_rows (Some (js oid)) with Ok l => l | Throw _ => [] end.

Lemma example_trees : tree_ok (example_rows "base") ∧ tree_ok (example_rows "current") ∧ tree_ok (example_rows "incoming").
Proof. split_and!; apply tree_ok_by_compute; vm_compute; reflexivity. Qed.

(** * Properties *)

(** C26: For three trees, the plan has the decision for one path at every path, except that
    every file the walk connects with a file below or above it is a file/directory conflict
    with its three entries; its counts are those of the paths and of its entries.  Too many
    paths are refused, and nothing else is. *)
Theorem structure_correct `{IntegrationSource} (base current incoming : option ustring) maxRows b c i :
  current ≠ incoming → base ≠ incoming → 0 <= maxRows →
  tree_rows base = Ok b → tree_rows current = Ok c → tree_rows incoming = Ok i →
  tree_ok b → tree_ok c → tree_ok i →
  let paths := remove_dups (t_path <$> b ++ c ++ i) in
  let result := classifyIntegrationStructureOwned base current incoming maxRows in
  (maxRows < zlen paths → result = Some (Throw (too_many_rows maxRows))) ∧
  (zlen paths <= maxRows → ∃ plan, result = Some (Ok plan) ∧
     pl_sourceRows plan = zlen paths ∧ pl_entryCount plan = zlen (pl_table plan) ∧ NoDup (pl_table plan).*1 ∧
     ∀ p, (clashes b c i p → map_get (pl_table plan) p =
             Some (ConflictStructuralEntry p file_directory (stages (at_path b p) (at_path c p) (at_path i p)))) ∧
          (¬ clashes b c i p → map_get (pl_table plan) p = entry (decided b c i p))).
Proof.
  intros Hci Hbi Hmax0 Eb Ec Ei Hb Hc Hi paths result.
  destruct (structure_walk base current incoming maxRows b c i Hci Hbi Hmax0 Eb Ec Ei Hb Hc Hi) as (rows & Hr & H1). fold result in H1.
  assert (zlen paths = zlen rows) as -> by by apply rows_size. case_decide as Hd; (split; intros Hmax; [|try lia]); [lia| |done].
  destruct H1 as (entries & k & -> & Hw). eexists. split; [done|]. cbn [pl_sourceRows pl_entryCount pl_table].
  split_and!; [|apply Hw..|by apply (walked_plan b c i rows _ k)].
  rewrite (walked_rows _ _ _ Hw). unfold zlen. by rewrite length_reverse.
Qed.

Lemma structure_correct_witness : ∃ plan,
  classifyIntegrationStructureOwned (Some (js "base")) (Some (js "current")) (Some (js "incoming")) 7 = Some (Ok plan) ∧ pl_sourceRows plan = 7 ∧
  map_get (pl_table plan) (js "b") =
    Some (ConflictStructuralEntry (js "b") file_directory (mkStages None (Some (identity_of (example_file "b" "2"))) None)).
Proof.
  destruct example_trees as (Hb & Hc & Hi).
  destruct (structure_correct (Some (js "base")) (Some (js "current")) (Some (js "incoming")) 7 (example_rows "base") (example_rows "current") (example_rows "incoming")
    ltac:(discriminate) ltac:(discriminate) ltac:(lia) eq_refl eq_refl eq_refl Hb Hc Hi) as [_ H].
  destruct (H ltac:(vm_compute; discriminate)) as (plan & Hplan & Hrows & _ & _ & Hp). exists plan. split; [exact Hplan|]. split; [rewrite Hrows; vm_compute; reflexivity|].
  apply (Hp (js "b")). split; [vm_compute; reflexivity|]. exists (js "b/c"). split; [vm_compute; reflexivity|]. right. split; [apply (below_by_compute _ (js "c")); vm_compute; reflexivity|].
  each_known; intros H1 H2; vm_compute in H1, H2; first [discriminate H1|discriminate H2|apply (below_by_compute _ (js "c")); vm_compute; reflexivity].
Defined.

(** A path's own rule never makes a file/directory conflict. *)
Lemma decided_apart b c i p path st : entry (decided b c i p) ≠ Some (ConflictStructuralEntry path file_directory st).
Proof.
  unfold decided. destruct (classifyRow_cases p (at_path b p) (at_path c p) (at_path i p)) as [| |kind _ Hk|r m o _ -> _|]; cbn; try done.
  - intros [= _ -> _]. unfold conflict_kind in Hk. destruct (identity _); [|done]. destruct (identity _); [|done]. destruct (identity _); [|done].
    naive_solver.
  - by case_bool_decide.
Qed.

(** C38: Let the result leave a file at [q] and one at [p] below it, and no other file above or
    below either.  Where a path [s] of the trees stands between the two and is not below [q],
    the walk has forgotten [q] when it comes to [p]: both are planned each by its own rule,
    and neither is a file/directory conflict. *)
Theorem file_directory_missed `{IntegrationSource} (base current incoming : option ustring) maxRows b c i plan q s p :
  current ≠ incoming → base ≠ incoming → 0 <= maxRows →
  tree_rows base = Ok b → tree_rows current = Ok c → tree_rows incoming = Ok i →
  tree_ok b → tree_ok c → tree_ok i →
  classifyIntegrationStructureOwned base current incoming maxRows = Some (Ok plan) →
  occupied b c i q → occupied b c i p → below q p →
  (∀ t, occupied b c i t → below q t ∨ below t q → t = p) → (∀ t, occupied b c i t → below p t ∨ below t p → t = q) →
  known b c i s → path_lt q s → path_lt s p → ¬ below q s →
  map_get (pl_table plan) q = entry (decided b c i q) ∧ map_get (pl_table plan) p = entry (decided b c i p) ∧
  ∀ t st, t = q ∨ t = p → map_get (pl_table plan) t ≠ Some (ConflictStructuralEntry t file_directory st).
Proof.
  intros Hci Hbi Hmax0 Eb Ec Ei Hb Hc Hi E Hq Hp Hbelow Honly_q Honly_p Hs Hqs Hsp Hns.
  destruct (structure_walk base current incoming maxRows b c i Hci Hbi Hmax0 Eb Ec Ei Hb Hc Hi) as (rows & Hr & H1). rewrite E in H1.
  case_decide; [|done]. destruct H1 as (entries & k & [= ->] & Hw). cbn [pl_table].
  assert (¬ reaches b c i q p) as Hno by (intros [_ H']; by apply Hns, H').
  assert (¬ below p q) as Hback.
  { destruct Hbelow as [x Ex]. intros [y Ey]. apply (f_equal length) in Ex, Ey. rewrite length_app in Ex, Ey. simpl in Ex, Ey. lia. }
  enough (map_get (plan_write [] entries) q = entry (decided b c i q) ∧ map_get (plan_write [] entries) p = entry (decided b c i p)) as [Eq Ep].
  { split_and!; [done..|]. intros t st [-> | ->]; rewrite ?Eq, ?Ep; apply decided_apart. }
  split; apply (walked_plan b c i rows _ k Hb Hc Hi Hr Hw).
  - intros (_ & t & Ht & [Hre|Hre]); assert (t = p) as -> by (apply Honly_q; [done|]; destruct Hre; auto); [by destruct Hre|done].
  - intros (_ & t & Ht & [Hre|Hre]); assert (t = q) as -> by (apply Honly_p; [done|]; destruct Hre; auto); [done|by destruct Hre].
Qed.

Lemma file_directory_missed_witness : ∃ plan,
  classifyIntegrationStructureOwned (Some (js "base")) (Some (js "current")) (Some (js "incoming")) 7 = Some (Ok plan) ∧
  map_get (pl_table plan) (js "a") = None ∧
  map_get (pl_table plan) (js "a/b") = Some (CleanStructuralEntry (js "a/b") None (Some (identity_of (example_file "a/b" "3")))) ∧
  ∀ t st, t = js "a" ∨ t = js "a/b" → map_get (pl_table plan) t ≠ Some (ConflictStructuralEntry t file_directory st).
Proof.
  destruct example_trees as (Hb & Hc & Hi). eexists. split; [vm_compute; reflexivity|].
  eapply (file_directory_missed (Some (js "base")) (Some (js "current")) (Some (js "incoming")) 7
    (example_rows "base") (example_rows "current") (example_rows "incoming") _ (js "a") (js "a.txt") (js "a/b")
    ltac:(discriminate) ltac:(discriminate) ltac:(lia) eq_refl eq_refl eq_refl Hb Hc Hi).
  - vm_compute. reflexivity.
  - vm_compute. reflexivity.
  - vm_compute. reflexivity.
  - apply (below_by_compute _ (js "b")). vm_compute. reflexivity.
  - intros t Ht. pose proof (occupied_known _ _ _ t Ht) as Hk. clear Ht. revert t Hk.
    each_known; intros [[x E]|[x E]]; vm_compute in E; (discriminate E || reflexivity).
  - intros t Ht. pose proof (occupied_known _ _ _ t Ht) as Hk. clear Ht. revert t Hk.
    each_known; intros [[x E]|[x E]]; vm_compute in E; (discriminate E || reflexivity).
  - unfold known. by apply (bool_decide_eq_true_1 _).
  - vm_compute. reflexivity.
  - vm_compute. reflexivity.
  - intros [x E]. vm_compute in E. discriminate E.
Defined.
