(* ===== verification/JsonPages.v ===== *)
(** JSON parameters of statements, in pages: src/packages/git/src/store/core/json-pages.ts, and
    [integrationPages] of store/operations/integration-workspace/storage.ts.

    Its facts: the lengths of JSON texts, and what a list of pages holds.
    [JSON.stringify] is the language's: of a string it escapes quotes, backslashes, control
    characters and unpaired surrogates. *)

From S2P Require Import Prelude Arrays Utf8 Text Bytes Objects Streams RefName.

(** * [JSON.stringify] *)

Inductive json :=
| JNull
| JBool (b : bool)
| JNumber (n : Z)
| JText (s : ustring)
| JArray (items : list json)
| JObject (fields : list (ustring * json)).

Definition QUOTE : Z := 0x22.
Definition BACKSLASH : Z := 0x5c.
Definition COMMA : Z := 0x2c.
Definition COLON : Z := 0x3a.

(** The letter of a two-character escape. *)
Definition short_escape (u : Z) : option Z :=
  if (u =? QUOTE) || (u =? BACKSLASH) then Some u
  else if u =? 0x08 then Some 0x62
  else if u =? 0x09 then Some 0x74
  else if u =? 0x0a then Some 0x6e
  else if u =? 0x0c then Some 0x66
  else if u =? 0x0d then Some 0x72
  else None.

Definition long_escape (u : Z) : ustring :=
  [BACKSLASH; 0x75; hex_digit (u / 4096); hex_digit (u / 256 mod 16); hex_digit (u / 16 mod 16); hex_digit (u mod 16)].

Fixpoint json_units (s : ustring) : ustring :=
  match s with
  | [] => []
  | u :: rest =>
      match short_escape u with
      | Some letter => BACKSLASH :: letter :: json_units rest
      | None =>
          if u <? 0x20 then long_escape u ++ json_units rest
          else if is_high u then
            match rest with
            | low :: rest' => if is_low low then u :: low :: json_units rest' else long_escape u ++ json_units rest
            | [] => long_escape u
            end
          else if is_low u then long_escape u ++ json_units rest
          else u :: json_units rest
      end
  end.

Definition json_string (s : ustring) : ustring := QUOTE :: json_units s ++ [QUOTE].

Fixpoint stringify (v : json) : ustring :=
  match v with
  | JNull => js "null"
  | JBool b => if b then js "true" else js "false"
  | JNumber n => number_string n
  | JText s => json_string s
  | JArray items => js "[" ++ join COMMA (stringify <$> items) ++ js "]"
  | JObject fields => js "{" ++ join COMMA ((λ field, json_string field.1 ++ COLON :: stringify field.2) <$> fields) ++ js "}"
  end.

(** * json-pages.ts *)

Definition JSON_BATCH_ROWS : Z := 2048.
Definition JSON_BATCH_BYTES : Z := 1500000.

Fixpoint utf8ByteLength_loop (bytes : Z) (value : ustring) : Z :=
  match value with
  | [] => bytes
  | unit :: rest =>
      if is_high unit then
        match rest with
        | low :: rest' => if is_low low then utf8ByteLength_loop (bytes + 4) rest' else utf8ByteLength_loop (bytes + 3) rest
        | [] => bytes + 3
        end
      else if is_low unit then utf8ByteLength_loop (bytes + 3) rest
      else utf8ByteLength_loop (bytes + (if unit <? 0x80 then 1 else if unit <? 0x800 then 2 else 3)) rest
  end.

Definition utf8ByteLength (value : ustring) : Z := utf8ByteLength_loop 0 value.

Fixpoint jsonStringMaxUnits_loop (units : Z) (value : ustring) : Z :=
  match value with
  | [] => units
  | unit :: rest =>
      if (unit =? 0x22) || (unit =? 0x5c) || (unit =? 0x08) || (unit =? 0x09) || (unit =? 0x0a) || (unit =? 0x0c) || (unit =? 0x0d)
      then jsonStringMaxUnits_loop (units + 2) rest
      else if unit <? 0x20 then jsonStringMaxUnits_loop (units + 6) rest
      else if is_high unit then
        match rest with
        | low :: rest' => if is_low low then jsonStringMaxUnits_loop (units + 2) rest' else jsonStringMaxUnits_loop (units + 6) rest
        | [] => units + 6
        end
      else if is_low unit then jsonStringMaxUnits_loop (units + 6) rest
      else jsonStringMaxUnits_loop (units + 1) rest
  end.

Definition jsonStringMaxUnits (value : ustring) : Z := jsonStringMaxUnits_loop 2 value.

Record RefRow := mkRefRow { r_name : ustring; r_target : ustring }.

Definition refRowJsonMaxUnits (row : RefRow) : Z := 19 + jsonStringMaxUnits (r_name row) + jsonStringMaxUnits (r_target row).

Record RefLogJsonEvent := mkRefLogJsonEvent {
  refName : ustring; oldRaw : option ustring; newRaw : option ustring; oldOid : option ustring; newOid : option ustring;
  actorName : option ustring; actorEmail : option ustring; reason : ustring
}.

Definition refLogEventJsonMaxUnits (event : RefLogJsonEvent) : Z :=
  512 + 6 * (zlen (refName event) + from_option zlen 0 (oldRaw event) + from_option zlen 0 (newRaw event) +
             from_option zlen 0 (oldOid event) + from_option zlen 0 (newOid event) +
             from_option zlen 0 (actorName event) + from_option zlen 0 (actorEmail event) + zlen (reason event)).

(** [jsonPages]: [rows] and [bytes] are its locals. *)
Definition emit (rows : list ustring) : ustring := js "[" ++ join COMMA rows ++ js "]".

Fixpoint jsonPages_loop (rows : list ustring) (bytes : Z) (items : list json) : outcome (list ustring) :=
  match items with
  | [] => Ok (if 0 <? zlen rows then [emit rows] else [])
  | item :: items =>
      let row := stringify item in
      rowBytes ← refTextBytes row (js "JSON batch row");
      let separator := if zlen rows =? 0 then 0 else 1 in
      let full := (0 <? zlen rows) && ((JSON_BATCH_ROWS <=? zlen rows) || (JSON_BATCH_BYTES <? bytes + separator + rowBytes)) in
      let first := if full then [emit rows] else [] in
      let rows := if full then [] else rows in
      let bytes := if full then 2 else bytes in
      let bytes := bytes + (if zlen rows =? 0 then 0 else 1) + rowBytes in
      let rows := rows ++ [row] in
      later ← (if JSON_BATCH_BYTES <=? bytes
               then later ← jsonPages_loop [] 2 items; Ok (emit rows :: later)
               else jsonPages_loop rows bytes items);
      Ok (first ++ later)
  end.

Definition jsonPages (items : list json) : outcome (list ustring) := jsonPages_loop [] 2 items.

(** * Pages of an integration *)

Definition INTEGRATION_PAGE_ROWS : Z := 256.

Section pages.
  Context {T : Type} (to_json : T → json).

Fixpoint integrationPages_loop (page : list T) (bytes : Z) (entries : list T) : list (list T) :=
  match entries with
  | [] => if 0 <? zlen page then [page] else []
  | entry :: entries =>
      let size := utf8ByteLength (stringify (to_json entry)) in
      let full := (0 <? zlen page) && ((zlen page =? INTEGRATION_PAGE_ROWS) || (JSON_BATCH_BYTES <? bytes + size + 1)) in
      let first := if full then [page] else [] in
      let page := if full then [] else page in
      let bytes := if full then 2 else bytes in
      let page := page ++ [entry] in
      let bytes := bytes + size + 1 in
      first ++ (if JSON_BATCH_BYTES <=? bytes then page :: integrationPages_loop [] 2 entries
                else integrationPages_loop page bytes entries)
  end.

Definition integrationPages (entries : list T) : list (list T) := integrationPages_loop [] 2 entries.

(** [integrationJsonPages]. *)
Fixpoint integrationJsonPages_of (pages : list (list T)) : outcome (list ustring) :=
  match pages with
  | [] => Ok []
  | page :: pages =>
      texts ← jsonPages (to_json <$> page);
      later ← integrationJsonPages_of pages;
      Ok (texts ++ later)
  end.

Definition integrationJsonPages (entries : list T) : outcome (list ustring) := integrationJsonPages_of (integrationPages entries).

End pages.

(** * JSON texts *)

(** The strings of a value are strings of the language. *)
Fixpoint json_ok (v : json) : Prop :=
  match v with
  | JNull | JBool _ | JNumber _ => True
  | JText s => units s
  | JArray items => foldr (λ item ok, json_ok item ∧ ok) True items
  | JObject fields => foldr (λ field ok, (units field.1 ∧ json_ok field.2) ∧ ok) True fields
  end.

(** A text that statements take: no unpaired surrogate, no [NUL] and no line break. *)
Definition plain (s : ustring) : Prop := text_ok s ∧ Forall text_unit s.

Lemma plain_app a b : plain a → plain b → plain (a ++ b).
Proof. intros [? ?] [? ?]. split; [by apply text_ok_app|by apply Forall_app]. Qed.

(** ASCII from the space on. *)
Definition visible (s : ustring) : Prop := Forall (λ u, 0x20 <= u < 0x80) s.

Lemma plain_visible s : visible s → plain s.
Proof.
  intros H. split; [apply text_ok_ascii|]; apply (Forall_impl _ _ _ H); intros u Hu; [lia|]. unfold text_unit. lia.
Qed.

Lemma visible_by_compute s : forallb (λ u, (0x20 <=? u) && (u <? 0x80)) s = true → visible s.
Proof. rewrite forallb_forall. intros H. apply Forall_forall. intros u Hu%list_elem_of_In. apply H in Hu. zbool. lia. Qed.

Lemma plain_cons u s : 0x20 <= u < 0x80 → plain s → plain (u :: s).
Proof. intros Hu. apply (plain_app [u]). apply plain_visible. by constructor. Qed.

Lemma hex_digit_visible d : 0 <= d < 16 → 0x20 <= hex_digit d < 0x80.
Proof. unfold hex_digit. intros. case_match; lia. Qed.

Lemma long_escape_visible u : unit_ok u → visible (long_escape u).
Proof.
  unfold unit_ok, long_escape, BACKSLASH. intros Hu.
  repeat (constructor; [first [apply hex_digit_visible; apply Z.mod_pos_bound; lia|apply hex_digit_visible; zdm|lia]|]). constructor.
Qed.

Lemma short_escape_visible u letter : short_escape u = Some letter → 0x20 <= letter < 0x80.
Proof. unfold short_escape, QUOTE, BACKSLASH. repeat case_match; intros [= <-]; zbool; lia. Qed.

Lemma short_escape_none u : short_escape u = None → u ≠ 0x0a ∧ u ≠ 0x0d.
Proof. unfold short_escape. repeat case_match; try done; intros _; zbool; lia. Qed.

(** A string by its first unit or pair. *)
Lemma json_units_ind (P : ustring → Prop) :
  P [] →
  (∀ u letter rest, short_escape u = Some letter → P rest → P (u :: rest)) →
  (∀ u rest, short_escape u = None → u < 0x20 → P rest → P (u :: rest)) →
  (∀ u low rest, short_escape u = None → 0x20 <= u → is_high u = true → is_low low = true → P rest → P (u :: low :: rest)) →
  (∀ u rest, short_escape u = None → 0x20 <= u → is_high u = true → from_option is_low false (head rest) = false → P rest → P (u :: rest)) →
  (∀ u rest, short_escape u = None → 0x20 <= u → is_high u = false → is_low u = true → P rest → P (u :: rest)) →
  (∀ u rest, short_escape u = None → 0x20 <= u → is_high u = false → is_low u = false → P rest → P (u :: rest)) →
  ∀ s, P s.
Proof.
  intros H0 H1 H2 H3 H4 H5 H6 s. remember (length s) as n eqn:Hn. revert s Hn.
  induction n as [n IH] using (well_founded_induction Nat.lt_wf_0). intros [|u rest] ->; [done|].
  assert (∀ l, (length l < length (u :: rest))%nat → P l) as IH' by (intros l Hl; by eapply IH).
  destruct (short_escape u) as [letter|] eqn:E; [eapply H1; [done|apply IH'; simpl; lia]|].
  destruct (u <? 0x20) eqn:E1; zbool; [apply H2; [done..|apply IH'; simpl; lia]|].
  destruct (is_high u) eqn:E2.
  - destruct rest as [|low rest]; [by apply H4|]. destruct (is_low low) eqn:E3.
    + apply H3; [done..|apply IH'; simpl; lia].
    + apply H4; [done..|apply IH'; simpl; lia].
  - destruct (is_low u) eqn:E3; [apply H5|apply H6]; try done; apply IH'; simpl; lia.
Qed.

Lemma quoted_special u : (u =? 0x22) || (u =? 0x5c) || (u =? 0x08) || (u =? 0x09) || (u =? 0x0a) || (u =? 0x0c) || (u =? 0x0d) =
  bool_decide (is_Some (short_escape u)).
Proof.
  unfold short_escape, QUOTE, BACKSLASH. repeat (destruct (u =? _); try done). 
Qed.

(** What is written for one unit or one pair. *)
Lemma json_units_step s : units s → plain (json_units s) ∧ ∀ n, jsonStringMaxUnits_loop n s = n + zlen (json_units s).
Proof.
  assert (∀ u rest, unit_ok u → json_units (u :: rest) = long_escape u ++ json_units rest →
    (∀ n, jsonStringMaxUnits_loop n (u :: rest) = jsonStringMaxUnits_loop (n + 6) rest) →
    plain (json_units rest) ∧ (∀ n, jsonStringMaxUnits_loop n rest = n + zlen (json_units rest)) →
    plain (json_units (u :: rest)) ∧ ∀ n, jsonStringMaxUnits_loop n (u :: rest) = n + zlen (json_units (u :: rest))) as Hlong.
  { intros u rest Hu -> Hl [Hp Hn]. split; [by apply plain_app; [apply plain_visible, long_escape_visible|]|].
    intros n. rewrite Hl, Hn, zlen_app. change (zlen (long_escape u)) with 6. lia. }
  induction s as [|u letter rest E IH|u rest E E1 IH|u low rest E E1 E2 E3 IH|u rest E E1 E2 E3 IH|u rest E E1 E2 E3 IH|u rest E E1 E2 E3 IH]
    using json_units_ind; intros Hu.
  - split; [by apply plain_visible; constructor|]. intros n. cbn. unfold zlen. simpl. lia.
  - apply Forall_cons in Hu as [Hu Hrest]. destruct (IH Hrest) as [Hp Hn]. cbn [json_units jsonStringMaxUnits_loop].
    rewrite quoted_special, E, bool_decide_eq_true_2 by by eexists. split.
    + apply plain_cons; [by unfold BACKSLASH|]. apply plain_cons; [by eapply short_escape_visible|done].
    + intros n. rewrite Hn, !zlen_cons. lia.
  - apply Forall_cons in Hu as [Hu Hrest]. apply Hlong; [done|..|by apply IH]; cbn [json_units jsonStringMaxUnits_loop].
    + by rewrite E, (proj2 (Z.ltb_lt u 0x20)).
    + intros n. rewrite quoted_special, E, bool_decide_eq_false_2, (proj2 (Z.ltb_lt u 0x20)) by (done || by intros []). done.
  - apply Forall_cons in Hu as [Hu Hrest]. apply Forall_cons in Hrest as [Hlow Hrest]. destruct (IH Hrest) as [Hp Hn]. cbn [json_units jsonStringMaxUnits_loop].
    rewrite quoted_special, E, E2, E3, bool_decide_eq_false_2, (proj2 (Z.ltb_ge u 0x20)) by (done || by intros []). split.
    + apply (plain_app [u; low]); [|done]. unfold is_high, is_low in *. split; [split|].
      * by apply Forall_cons_2, Forall_cons_2, Forall_nil_2.
      * cbn [isWellFormed]. unfold is_high, is_low. by rewrite E2, E3.
      * unfold text_unit. zbool. repeat constructor; lia.
    + intros n. rewrite Hn, !zlen_cons. lia.
  - apply Forall_cons in Hu as [Hu Hrest]. apply Hlong; [done|..|by apply IH]; cbn [json_units jsonStringMaxUnits_loop].
    + rewrite E, E2, (proj2 (Z.ltb_ge u 0x20)) by done. destruct rest as [|low rest]; [by rewrite app_nil_r|]. cbn in E3. by rewrite E3.
    + intros n. rewrite quoted_special, E, E2, bool_decide_eq_false_2, (proj2 (Z.ltb_ge u 0x20)) by (done || by intros []).
      destruct rest as [|low rest]; [done|]. cbn in E3. by rewrite E3.
  - apply Forall_cons in Hu as [Hu Hrest]. apply Hlong; [done|..|by apply IH]; cbn [json_units jsonStringMaxUnits_loop].
    + by rewrite E, E2, E3, (proj2 (Z.ltb_ge u 0x20)).
    + intros n. by rewrite quoted_special, E, E2, E3, bool_decide_eq_false_2, (proj2 (Z.ltb_ge u 0x20)) by (done || by intros []).
  - apply Forall_cons in Hu as [Hu Hrest]. destruct (IH Hrest) as [Hp Hn]. cbn [json_units jsonStringMaxUnits_loop].
    rewrite quoted_special, E, E2, E3, bool_decide_eq_false_2, (proj2 (Z.ltb_ge u 0x20)) by (done || by intros []). split.
    + apply (plain_app [u]); [|done]. split; [split|]; [by apply Forall_cons_2, Forall_nil_2|cbn [isWellFormed]; by rewrite E2, E3|].
      apply short_escape_none in E. unfold text_unit. repeat constructor; lia.
    + intros n. rewrite Hn, !zlen_cons. lia.
Qed.

Lemma json_string_plain s : units s → plain (json_string s).
Proof.
  intros [H _]%json_units_step. unfold json_string, QUOTE. apply plain_cons; [lia|]. apply plain_app; [done|]. by apply plain_visible, visible_by_compute.
Qed.

(** Values with the values inside them. *)
Lemma json_nested_ind (P : json → Prop) :
  P JNull → (∀ b, P (JBool b)) → (∀ n, P (JNumber n)) → (∀ s, P (JText s)) → (∀ items, Forall P items → P (JArray items)) →
  (∀ fields, Forall (λ field, P field.2) fields → P (JObject fields)) → ∀ v, P v.
Proof.
  intros H1 H2 H3 H4 H5 H6. fix IH 1. intros [| | | |items|fields]; [done|done|done|done|apply H5|apply H6].
  - induction items; [constructor|constructor; [apply IH|assumption]].
  - induction fields as [|[k v] fields]; [constructor|constructor; [apply IH|assumption]].
Qed.

Lemma join_plain texts : Forall plain texts → plain (join COMMA texts).
Proof.
  induction 1 as [|t texts Ht Hts IH]; [by apply plain_visible, Forall_nil_2|]. destruct (decide (texts = [])) as [->|Hne].
  - by cbn [join].
  - rewrite join_cons by done. apply plain_app; [done|]. by apply plain_cons.
Qed.

Lemma number_visible n : visible (number_string n).
Proof.
  assert (∀ m, 0 <= m → visible (digits m)) as Hd.
  { intros m Hm. destruct (digits_spec m Hm) as (_ & H & _). rewrite forallb_forall in H. apply Forall_forall. intros u Hu%list_elem_of_In.
    apply H in Hu. unfold is_digit in Hu. zbool. lia. }
  unfold number_string. case_match; zbool; [constructor; [lia|]|]; apply Hd; lia.
Qed.

Lemma stringify_plain v : json_ok v → plain (stringify v).
Proof.
  induction v as [|b|n|s|items IH|fields IH] using json_nested_ind; cbn [json_ok stringify]; intros Hok.
  - by apply plain_visible, visible_by_compute.
  - destruct b; by apply plain_visible, visible_by_compute.
  - apply plain_visible, number_visible.
  - by apply json_string_plain.
  - apply plain_app; [by apply plain_visible, visible_by_compute|]. apply plain_app; [|by apply plain_visible, visible_by_compute]. apply join_plain.
    induction IH as [|item items Hitem _ IH']; [constructor|]. destruct Hok as [Hok Hoks]. constructor; [by apply Hitem|by apply IH'].
  - apply plain_app; [by apply plain_visible, visible_by_compute|]. apply plain_app; [|by apply plain_visible, visible_by_compute]. apply join_plain.
    induction IH as [|[k v] fields Hv _ IH']; [constructor|]. destruct Hok as [[Hk Hok] Hoks]. constructor; [|by apply IH'].
    apply plain_app; [by apply json_string_plain|]. apply plain_cons; [by unfold COLON|]. by apply Hv.
Qed.

(** ** Lengths *)

Lemma utf8ByteLength_encode value : units value → utf8ByteLength value = zlen (encode value).
Proof.
  intros Hu. unfold utf8ByteLength. enough (∀ n, utf8ByteLength_loop n value = n + zlen (encode value)) as -> by lia.
  remember (length value) as k eqn:Hk. revert value Hk Hu. induction k as [k IH] using (well_founded_induction Nat.lt_wf_0).
  intros [|u rest] -> Hu n; [cbn; unfold zlen; simpl; lia|]. pose proof Hu as [Hu1 Hrest]%Forall_cons.
  assert (∀ l, (length l < length (u :: rest))%nat → units l → ∀ n, utf8ByteLength_loop n l = n + zlen (encode l)) as IH' by (intros l Hl; by eapply IH).
  unfold encode in *. cbn [utf8ByteLength_loop points]. destruct (is_high u) eqn:Eh; [|destruct (is_low u) eqn:El].
  - destruct rest as [|low rest]; [done|]. destruct (is_low low) eqn:E.
    + apply Forall_cons in Hrest as [_ Hrest]. cbn [flat_map]. rewrite zlen_app, point_bytes_pair, IH' by (done || simpl; lia). lia.
    + rewrite IH' by (done || simpl; lia). cbn [flat_map]. rewrite zlen_app. change (zlen (point_bytes REPLACEMENT)) with 3. lia.
  - rewrite IH' by (done || simpl; lia). cbn [flat_map]. rewrite zlen_app. change (zlen (point_bytes REPLACEMENT)) with 3. lia.
  - rewrite IH' by (done || simpl; lia). cbn [flat_map]. rewrite zlen_app, point_bytes_unit by done. repeat case_match; lia.
Qed.

Lemma jsonStringMaxUnits_exact value : units value → jsonStringMaxUnits value = zlen (json_string value).
Proof.
  intros [_ H]%json_units_step. unfold jsonStringMaxUnits, json_string. rewrite H, zlen_cons, zlen_app. change (zlen [QUOTE]) with 1. lia.
Qed.

Definition json_ref_row (row : RefRow) : json := JObject [(js "name", JText (r_name row)); (js "target", JText (r_target row))].

Lemma refRowJsonMaxUnits_exact row : units (r_name row) → units (r_target row) →
  refRowJsonMaxUnits row = zlen (stringify (json_ref_row row)).
Proof.
  intros Hn Ht. unfold refRowJsonMaxUnits. rewrite !jsonStringMaxUnits_exact by done.
  unfold json_ref_row. cbn [stringify]. rewrite !fmap_cons. cbn [join fmap list_fmap]. rewrite !zlen_app, !zlen_cons, !zlen_app. cbn [fst snd].
  rewrite !zlen_cons. change (zlen (json_string (js "name"))) with 6. change (zlen (json_string (js "target"))) with 8.
  change (zlen (js "{")) with 1. change (zlen (js "}")) with 1. cbn [stringify]. lia.
Qed.

(** * Pages *)

Section pages.
  Context {T : Type} (rows limit : Z) (ok : T → Prop) (weight : list T → Z).
  Context (weight_more : ∀ g x, Forall ok (g ++ [x]) → weight g < weight (g ++ [x])).

Definition fits (page : list T) : Prop := zlen page <= rows ∧ weight page <= limit.

#[export] Instance fits_dec page : Decision (fits page).
Proof. unfold fits. apply _. Defined.

(** A page fits, or is one row. *)
Definition page_ok (page : list T) : Prop := page ≠ [] ∧ (fits page ∨ ∃ x, page = [x]).

(** No page could take the first row of the next one. *)
Fixpoint greedy (pages : list (list T)) : Prop :=
  match pages with
  | page :: ((next :: _) as later) => (¬ fits (page ++ take 1 next)) ∧ greedy later
  | _ => True
  end.

Definition paged (entries : list T) (pages : list (list T)) : Prop :=
  mjoin pages = entries ∧ Forall page_ok pages ∧ greedy pages.

(** Pages of the rows of an open page and those to come: the first page begins with the open one. *)
Definition paged_from (open entries : list T) (pages : list (list T)) : Prop :=
  paged (open ++ entries) pages ∧ (open ≠ [] → ∃ rest later, pages = (open ++ rest) :: later).

Lemma paged_nil : paged_from [] [] [].
Proof. split; [|done]. split_and!; [done|constructor|done]. Qed.

Lemma paged_end open : page_ok open → paged_from open [] [open].
Proof.
  intros Hok. split; [|intros _; exists [], []; by rewrite app_nil_r]. split_and!; [done|by constructor|done].
Qed.

Lemma paged_after open entries pages : Forall ok (open ++ entries) → page_ok open → limit <= weight open →
  paged_from [] entries pages → paged_from open entries (open :: pages).
Proof.
  intros Hoks Hok Hw [(Hj & Hall & Hg) _]. cbn [app] in Hj. split; [|intros _; exists [], pages; by rewrite app_nil_r]. split_and!.
  - change (open ++ mjoin pages = open ++ entries). by rewrite Hj.
  - by constructor.
  - destruct pages as [|next later]; [done|]. split; [|done]. apply Forall_cons in Hall as [[Hne _] _]. destruct next as [|x next]; [done|].
    intros [_ H]. change (take 1 (x :: next)) with [x] in H. assert (Forall ok (open ++ [x])) as Hx; [|pose proof (weight_more open x Hx); lia].
    rewrite <- Hj in Hoks. cbn in Hoks. apply Forall_app in Hoks as [? [? _]%Forall_cons]. apply Forall_app. split; [done|by constructor].
Qed.

Lemma paged_before open x entries pages : page_ok open → ¬ fits (open ++ [x]) → paged_from [x] entries pages → paged_from open (x :: entries) (open :: pages).
Proof.
  intros Hok Hx [(Hj & Hall & Hg) Hfirst]. split; [|intros _; exists [], pages; by rewrite app_nil_r]. split_and!.
  - change (open ++ mjoin pages = open ++ x :: entries). by rewrite Hj.
  - by constructor.
  - destruct (Hfirst ltac:(done)) as (rest & later & ->). split; [|done]. done.
Qed.

Lemma paged_add open x entries pages : paged_from (open ++ [x]) entries pages → paged_from open (x :: entries) pages.
Proof.
  intros [Hp Hfirst]. rewrite <- app_assoc in Hp. split; [done|]. intros _. destruct (Hfirst ltac:(by destruct open)) as (rest & later & ->).
  exists (x :: rest), later. by rewrite <- app_assoc.
Qed.

(** The open page after a row. *)
Lemma page_ok_add open x : (open = [] ∨ fits (open ++ [x])) → page_ok (open ++ [x]).
Proof. intros H. split; [by destruct open|]. destruct H as [->|H]; [right; by exists x|by left]. Qed.

End pages.

(** ** [jsonPages] *)

Definition json_size (items : list json) : Z := zlen (encode (stringify (JArray items))).

Lemma join_snoc c texts t : join c (texts ++ [t]) = join c texts ++ (if bool_decide (texts = []) then [] else [c]) ++ t.
Proof.
  destruct (decide (texts = [])) as [->|Hne]; [done|]. rewrite join_app by done. by rewrite bool_decide_eq_false_2.
Qed.

Lemma json_size_snoc items item : Forall json_ok items → json_ok item →
  json_size (items ++ [item]) = json_size items + (if zlen items =? 0 then 0 else 1) + zlen (encode (stringify item)).
Proof.
  intros Hs Hi. unfold json_size. cbn [stringify]. rewrite fmap_app. change (stringify <$> [item]) with [stringify item]. rewrite join_snoc. set (texts := stringify <$> items).
  assert (isWellFormed (join COMMA texts) = true) as Hw.
  { apply join_plain. unfold texts. rewrite Forall_fmap. apply (Forall_impl _ _ _ Hs). apply stringify_plain. }
  pose proof (stringify_plain item Hi) as [[_ Hwi] _]. assert (bool_decide (texts = []) = (zlen items =? 0)) as ->.
  { unfold texts. destruct items; [done|]. symmetry. rewrite bool_decide_eq_false_2 by done. apply Z.eqb_neq. rewrite zlen_cons. pose proof (zlen_nonneg items). lia. }
  assert (∀ m, isWellFormed m = true → zlen (encode (js "[" ++ m ++ js "]")) = 2 + zlen (encode m)) as Hwrap.
  { intros m Hm. rewrite !encode_app, !zlen_app by (done || by apply wf_app). change (zlen (encode (js "["))) with 1. change (zlen (encode (js "]"))) with 1. lia. }
  rewrite !Hwrap by (done || by repeat apply wf_app; try done; case_match).
  rewrite encode_app, zlen_app by done. case_match.
  - cbn [app]. lia.
  - rewrite encode_app, zlen_app by done. change (zlen (encode [COMMA])) with 1. lia.
Qed.

Lemma stringify_not_nil v : stringify v ≠ [].
Proof.
  destruct v as [|[]|n|s|l|l]; try done. cbn [stringify]. unfold number_string. case_match; [done|]. zbool. by apply digits_spec.
Qed.

Lemma json_size_more items item : Forall json_ok (items ++ [item]) → json_size items < json_size (items ++ [item]).
Proof.
  intros [Hs [Hi _]%Forall_cons]%Forall_app. rewrite json_size_snoc by done. pose proof (stringify_plain item Hi) as [[Hu _] _].
  pose proof (encode_length _ Hu). pose proof (stringify_not_nil item). destruct (stringify item) as [|u t]; [done|].
  rewrite zlen_cons in *. pose proof (zlen_nonneg t). case_match; lia.
Qed.

Notation json_page_ok := (page_ok JSON_BATCH_ROWS JSON_BATCH_BYTES json_size).
Notation json_paged_from := (paged_from JSON_BATCH_ROWS JSON_BATCH_BYTES json_size).

Lemma row_bytes item : json_ok item → refTextBytes (stringify item) (js "JSON batch row") = Ok (zlen (encode (stringify item))).
Proof. intros [[Hu Hw] Ht]%stringify_plain. by apply refTextBytes_ok. Qed.

Lemma zlen_eqb_nil {A} (l : list A) : (zlen l =? 0) = bool_decide (l = []).
Proof. destruct l; [done|]. rewrite bool_decide_eq_false_2 by done. apply Z.eqb_neq. rewrite zlen_cons. pose proof (zlen_nonneg l). lia. Qed.

Lemma zlen_ltb_nil {A} (l : list A) : (0 <? zlen l) = negb (bool_decide (l = [])).
Proof. destruct l; [done|]. rewrite bool_decide_eq_false_2 by done. apply Z.ltb_lt. rewrite zlen_cons. pose proof (zlen_nonneg l). lia. Qed.

Notation json_fits := (fits JSON_BATCH_ROWS JSON_BATCH_BYTES json_size).

(** A round of the loop: whether the row opens a new page. *)
Definition breaks (open : list json) (item : json) : Prop := open ≠ [] ∧ ¬ json_fits (open ++ [item]).
#[local] Instance breaks_dec open item : Decision (breaks open item).
Proof. unfold breaks. apply _. Defined.

Lemma jsonPages_round open item items : Forall json_ok open → json_ok item →
  jsonPages_loop (stringify <$> open) (json_size open) (item :: items) =
  (let page := (if bool_decide (breaks open item) then [] else open) ++ [item] in
   later ← (if JSON_BATCH_BYTES <=? json_size page then later ← jsonPages_loop [] 2 items; Ok (stringify (JArray page) :: later)
            else jsonPages_loop (stringify <$> page) (json_size page) items);
   Ok ((if bool_decide (breaks open item) then [stringify (JArray open)] else []) ++ later)).
Proof.
  intros Hoks Hitem. cbn [jsonPages_loop]. rewrite row_bytes by done. cbn [mbind outcome_bind].
  assert ((0 <? zlen (stringify <$> open)) && ((JSON_BATCH_ROWS <=? zlen (stringify <$> open)) ||
    (JSON_BATCH_BYTES <? json_size open + (if zlen (stringify <$> open) =? 0 then 0 else 1) + zlen (encode (stringify item)))) = bool_decide (breaks open item)) as ->.
  { rewrite zlen_fmap, <- json_size_snoc, zlen_ltb_nil by done. apply eq_bool_prop_intro. rewrite andb_True, negb_True, !bool_decide_spec.
    unfold breaks, fits. rewrite Is_true_true, orb_true_iff, Z.leb_le, Z.ltb_lt, zlen_app. change (zlen [item]) with 1. split; intros [? ?]; (split; [done|]); lia. }
  case_bool_decide as Hb; cbv zeta.
  - rewrite (json_size_snoc []) by (done || apply Forall_nil_2). cbn [app]. change (json_size []) with 2. done.
  - change (stringify (JArray (open ++ [item]))) with (emit (stringify <$> open ++ [item])). by rewrite zlen_fmap, <- json_size_snoc, fmap_app by done.
Qed.

(** The loop with an open page that still has room. *)
Lemma jsonPages_loop_spec items : ∀ open, Forall json_ok (open ++ items) → (open = [] ∨ json_fits open) →
  ∃ pages, jsonPages_loop (stringify <$> open) (json_size open) items = Ok ((stringify ∘ JArray) <$> pages) ∧ json_paged_from open items pages.
Proof.
  induction items as [|item items IH]; intros open Hok Hopen.
  - cbn [jsonPages_loop]. rewrite zlen_fmap, zlen_ltb_nil. destruct open as [|x open]; [exists []; split; [done|apply paged_nil]|].
    exists [x :: open]. split; [done|]. apply paged_end. split; [done|]. left. by destruct Hopen.
  - pose proof Hok as [Hoks [Hitem Hitems]%Forall_cons]%Forall_app. rewrite jsonPages_round by done. cbv zeta.
    set (page := (if bool_decide (breaks open item) then [] else open)).
    assert (json_page_ok (page ++ [item])) as Hp.
    { apply page_ok_add. unfold page, breaks. case_bool_decide as Hb; [by left|]. destruct (decide (open = [])); [by left|right].
      destruct (decide (json_fits (open ++ [item]))); [done|tauto]. }
    assert (Forall json_ok ((page ++ [item]) ++ items)) as Hpage by (unfold page; rewrite <- app_assoc; by case_bool_decide; [constructor|]).
    assert (∃ pages, (if JSON_BATCH_BYTES <=? json_size (page ++ [item])
              then later ← jsonPages_loop [] 2 items; Ok (stringify (JArray (page ++ [item])) :: later)
              else jsonPages_loop (stringify <$> page ++ [item]) (json_size (page ++ [item])) items) = Ok ((stringify ∘ JArray) <$> pages) ∧
             json_paged_from (page ++ [item]) items pages) as (pages & -> & Hpages).
    { case_match eqn:E; zbool.
      - destruct (IH [] Hitems) as (pages & Hl & Hpages); [by left|]. change (json_size []) with 2 in Hl. change (stringify <$> []) with (@nil ustring) in Hl.
        exists ((page ++ [item]) :: pages). rewrite Hl. split; [done|]. by apply (paged_after _ _ json_ok _ json_size_more).
      - apply IH; [done|]. right. destruct Hp as [_ [?|[x Hx]]]; [done|]. rewrite Hx in *. split; [done|lia]. }
    cbn [mbind outcome_bind]. unfold page in Hpages. case_bool_decide as Hb.
    + exists (open :: pages). split; [done|]. destruct Hb as [Hne Hb]. apply paged_before; [|done|done]. split; [done|]. left. by destruct Hopen.
    + exists pages. split; [done|]. by apply paged_add.
Qed.

(** ** [integrationPages] *)

Section integration.
  Context {T : Type} (to_json : T → json) (ok : T → Prop).

Definition entry_size (entry : T) : Z := utf8ByteLength (stringify (to_json entry)).
Definition pages_size (page : list T) : Z := foldl (λ bytes entry, bytes + entry_size entry + 1) 2 page.

Context (Hok : ∀ entry, ok entry → json_ok (to_json entry)).

Lemma pages_size_snoc page entry : pages_size (page ++ [entry]) = pages_size page + entry_size entry + 1.
Proof. unfold pages_size. by rewrite foldl_app. Qed.

Lemma pages_size_more page entry : Forall ok (page ++ [entry]) → pages_size page < pages_size (page ++ [entry]).
Proof.
  intros [_ [He _]%Forall_cons]%Forall_app. rewrite pages_size_snoc. unfold entry_size. apply Hok, stringify_plain in He as [[Hu _] _].
  rewrite utf8ByteLength_encode by done. pose proof (zlen_nonneg (encode (stringify (to_json entry)))). lia.
Qed.

Lemma integrationPages_loop_spec entries : ∀ open, Forall ok (open ++ entries) →
  (open = [] ∨ fits INTEGRATION_PAGE_ROWS JSON_BATCH_BYTES pages_size open) →
  paged_from INTEGRATION_PAGE_ROWS JSON_BATCH_BYTES pages_size open entries (integrationPages_loop to_json open (pages_size open) entries).
Proof.
  induction entries as [|entry entries IH]; intros open Hoks Hopen; cbn [integrationPages_loop].
  - rewrite zlen_ltb_nil. destruct open as [|x open]; [apply paged_nil|]. apply paged_end. split; [done|]. left. by destruct Hopen.
  - pose proof Hoks as [Ho [He Hes]%Forall_cons]%Forall_app. fold (entry_size entry). rewrite zlen_ltb_nil, <- pages_size_snoc.
    set (full := negb _ && _).
    assert (full = true ↔ open ≠ [] ∧ ¬ fits INTEGRATION_PAGE_ROWS JSON_BATCH_BYTES pages_size (open ++ [entry])) as Hfull.
    { unfold full, fits. rewrite andb_true_iff, negb_true_iff, bool_decide_eq_false, orb_true_iff, Z.eqb_eq, Z.ltb_lt, zlen_app. change (zlen [entry]) with 1.
      destruct Hopen as [->|[Hr Hw]]; [tauto|]. split; intros [? ?]; (split; [done|]); lia. }
    assert ((if full then 2 else pages_size open) = pages_size (if full then [] else open)) as -> by by destruct full.
    rewrite <- pages_size_snoc. set (page := (if full then [] else open)).
    assert (page_ok INTEGRATION_PAGE_ROWS JSON_BATCH_BYTES pages_size (page ++ [entry])) as Hp.
    { apply page_ok_add. unfold page. destruct full; [by left|]. destruct (decide (open = [])); [by left|right].
      destruct (decide (fits INTEGRATION_PAGE_ROWS JSON_BATCH_BYTES pages_size (open ++ [entry]))); [done|]. assert (false = true) by by apply Hfull. done. }
    assert (Forall ok ((page ++ [entry]) ++ entries)) as Hpage by (unfold page; rewrite <- app_assoc; destruct full; [by constructor|done]).
    assert (paged_from INTEGRATION_PAGE_ROWS JSON_BATCH_BYTES pages_size (page ++ [entry]) entries
      (if JSON_BATCH_BYTES <=? pages_size (page ++ [entry]) then (page ++ [entry]) :: integrationPages_loop to_json [] 2 entries
       else integrationPages_loop to_json (page ++ [entry]) (pages_size (page ++ [entry])) entries)) as Hlater.
    { case_match eqn:E; zbool.
      - apply (paged_after _ _ ok _ pages_size_more); [done..|]. apply (IH []); [done|by left].
      - apply IH; [done|]. right. destruct Hp as [_ [?|[x Hx]]]; [done|]. rewrite Hx in *. split; [done|lia]. }
    destruct full eqn:Ef.
    + destruct (proj1 Hfull eq_refl) as [Hne Hbreak]. apply paged_before; [|done|done]. split; [done|]. left. by destruct Hopen.
    + by apply paged_add.
Qed.

End integration.

(** ** Long texts *)

Lemma json_units_length s : zlen (json_units s) <= 6 * zlen s.
Proof.
  induction s as [|u letter rest E IH|u rest E E1 IH|u low rest E E1 E2 E3 IH|u rest E E1 E2 E3 IH|u rest E E1 E2 E3 IH|u rest E E1 E2 E3 IH]
    using json_units_ind; cbn [json_units]; rewrite ?E; rewrite ?(proj2 (Z.ltb_ge u 0x20)), ?(proj2 (Z.ltb_lt u 0x20)) by done; rewrite ?E2, ?E3.
  - done.
  - rewrite !zlen_cons. lia.
  - rewrite zlen_app, zlen_cons. change (zlen (long_escape u)) with 6. lia.
  - rewrite !zlen_cons. lia.
  - destruct rest as [|low rest]; [done|]. cbn in E3. rewrite E3, zlen_app, (zlen_cons u). change (zlen (long_escape u)) with 6. lia.
  - rewrite zlen_app, zlen_cons. change (zlen (long_escape u)) with 6. lia.
  - rewrite !zlen_cons. lia.
Qed.

Definition json_event (event : RefLogJsonEvent) : json :=
  let text_of (value : option ustring) := match value with Some value => JText value | None => JNull end in
  JObject [(js "refName", JText (refName event)); (js "oldRaw", text_of (oldRaw event)); (js "newRaw", text_of (newRaw event));
           (js "oldOid", text_of (oldOid event)); (js "newOid", text_of (newOid event)); (js "actorName", text_of (actorName event));
           (js "actorEmail", text_of (actorEmail event)); (js "reason", JText (reason event))].

(** * Properties *)

(** [jsonPages] never throws: for every list of values, the pages are the JSON texts of arrays
    that join to the list; each has at most 2048 rows and, unless it is one row, at most
    1,500,000 bytes in UTF-8; and no page could take the first row of the next one. *)
Theorem jsonPages_correct items : Forall json_ok items →
  ∃ groups, jsonPages items = Ok ((λ group, stringify (JArray group)) <$> groups) ∧
    paged JSON_BATCH_ROWS JSON_BATCH_BYTES json_size items groups.
Proof.
  intros Hok. destruct (jsonPages_loop_spec items [] Hok ltac:(by left)) as (groups & E & [Hp _]). exists groups. split; [exact E|exact Hp].
Qed.

Lemma jsonPages_correct_witness : ∃ groups,
  jsonPages [JText (js "a"); JNumber 7] = Ok ((λ group, stringify (JArray group)) <$> groups) ∧ mjoin groups = [JText (js "a"); JNumber 7].
Proof.
  destruct (jsonPages_correct [JText (js "a"); JNumber 7]) as (groups & H1 & H2 & _).
  - apply Forall_cons_2; [by apply units_by_compute|]. apply Forall_cons_2; [exact I|apply Forall_nil_2].
  - exists groups. split; [exact H1|exact H2].
Defined.

(** [integrationPages] cuts its entries into pages of at most 256, filled as far as their JSON
    texts go. *)
Theorem integrationPages_correct {T} (to_json : T → json) entries : Forall (λ entry, json_ok (to_json entry)) entries →
  paged INTEGRATION_PAGE_ROWS JSON_BATCH_BYTES (pages_size to_json) entries (integrationPages to_json entries).
Proof.
  intros Hok. by destruct (integrationPages_loop_spec to_json (λ entry, json_ok (to_json entry)) ltac:(done) entries [] Hok ltac:(by left)).
Qed.

Lemma integrationPages_correct_witness :
  paged INTEGRATION_PAGE_ROWS JSON_BATCH_BYTES (pages_size JNumber) [1; 2; 3] (integrationPages JNumber [1; 2; 3]) ∧
  integrationPages JNumber [1; 2; 3] = [[1; 2; 3]].
Proof.
  split; [apply integrationPages_correct|vm_compute; reflexivity]. repeat (apply Forall_cons_2; [exact I|]). apply Forall_nil_2.
Defined.

(** The length functions: [utf8ByteLength] is the length of what [TextEncoder] writes;
    [jsonStringMaxUnits] and [refRowJsonMaxUnits] are the exact lengths of the JSON texts, and
    [refLogEventJsonMaxUnits] bounds that of a reflog event. *)
Theorem json_lengths value name target event :
  units value → units name → units target →
  utf8ByteLength value = zlen (encode value) ∧
  jsonStringMaxUnits value = zlen (stringify (JText value)) ∧
  refRowJsonMaxUnits (mkRefRow name target) = zlen (stringify (json_ref_row (mkRefRow name target))) ∧
  zlen (stringify (json_event event)) <= refLogEventJsonMaxUnits event.
Proof.
  intros Hv Hn Ht. split_and!; [by apply utf8ByteLength_encode|by apply jsonStringMaxUnits_exact|by apply refRowJsonMaxUnits_exact|].
  assert (∀ s, zlen (json_string s) <= 6 * zlen s + 2) as Hs.
  { intros s. unfold json_string. rewrite zlen_cons, zlen_app. change (zlen [QUOTE]) with 1. pose proof (json_units_length s). lia. }
  assert (∀ o : option ustring, zlen (stringify (match o with Some s => JText s | None => JNull end)) <= 6 * from_option zlen 0 o + 4) as Ho.
  { intros [s|]; cbn [stringify from_option]; [pose proof (Hs s); lia|done]. }
  unfold json_event, refLogEventJsonMaxUnits. cbn [stringify fmap list_fmap join fst snd]. repeat (rewrite ?zlen_app, ?zlen_cons).
  pose proof (Hs (refName event)). pose proof (Hs (reason event)). pose proof (Ho (oldRaw event)). pose proof (Ho (newRaw event)).
  pose proof (Ho (oldOid event)). pose proof (Ho (newOid event)). pose proof (Ho (actorName event)). pose proof (Ho (actorEmail event)).
  repeat match goal with |- context [zlen (json_string (js ?k))] => let n := eval vm_compute in (zlen (json_string (js k))) in change (zlen (json_string (js k))) with n end.
  repeat match goal with |- context [zlen (js ?k)] => let n := eval vm_compute in (zlen (js k)) in change (zlen (js k)) with n end. lia.
Qed.

Lemma json_lengths_witness : jsonStringMaxUnits (js "a/b") = zlen (stringify (JText (js "a/b"))) ∧ jsonStringMaxUnits (js "a/b") = 5.
Proof.
  destruct (json_lengths (js "a/b") [] [] (mkRefLogJsonEvent [] None None None None None None [])) as (_ & H & _); [by apply units_by_compute..|].
  split; [exact H|reflexivity].
Defined.
